(* ===== verification/_CoqProject ===== *)
-Q . S2P
Prelude.v
MachInt.v
Utils.v
Ops.v
OpsFacts.v
Expr.v
ExprFacts.v
Size.v
Value.v
Computation.v
ComputationFacts.v
CombineFacts.v
Instruction.v
InstructionFacts.v
Filter.v
FilterFacts.v
MergeFacts.v
NextMatching.v
Bitmap.v
BitmapFacts.v
FilterTree.v
FilterArena.v
FilterTreeFacts.v
FindNext.v
FilterSets.v
Shmqueue.v
ShmqueueFacts.v
PagesFacts.v
IncomingFacts.v
Growing.v
GrowingFacts.v
GrowingSpec.v
Minisat.v
MinisatFacts.v
Extended.v
ExtendedFacts.v
Counter.v
CounterFacts.v
Addr.v
Arch.v
Locs.v
State.v
StateFacts.v
AddrComp.v
AddrCompFacts.v
Dataflows.v
DataflowsFacts.v
ByteView.v
SplitDests.v
BitPattern.v
Encoding.v
EncodingFacts.v
Instantiate.v
InstantiateFacts.v
PartialFacts.v
Odometer.v
EncSearch.v
SearchFacts.v
EncTransform.v
Smt.v
SmtFacts.v
Codegen.v
SmtCodegen.v
SmtCodegenFacts.v
CodegenFacts.v
SmtModel.v
SmtModelFacts.v
X64.v
X64Mem.v
X64Facts.v
X64MemFacts.v
X64DiffFacts.v
X64Prefix.v
DeltaVec.v
WriteOrder.v
