(* ===== verification/Prelude.v ===== *)
(** * libLISA: a verification library

    libLISA observes a CPU, infers the encodings of its instructions and
    synthesizes their semantics.  This library models the core crate [liblisa]
    (src/liblisa/src), the shared-memory queue through which the analyses talk to
    the virtual machine that observes (src/arch/x64) and helpers of the synthesis from the source, as executable
    definitions, and proves the properties that the analyses rely on.

    ** The parts of the program and where they are modelled

    - Bit and byte utilities (utils/mod.rs, utils/cmov.rs): Utils.  Rust integers
      are [Z] with their width written out (MachInt).
    - Expressions (semantics/default/ops.rs, mod.rs, builder.rs).  An expression is
      postfix code for a stack machine on [i128]; [expr!] also compiles it to a
      tree of structs whose [compute] is called directly.  Ops has the operations
      and one step of the machine, Expr the evaluation, the writer and the typed
      builder functions (Module [Build]) and the macro.
    - Values (value.rs) and byte ranges of locations ([Size] in
      encoding/dataflows/locs.rs): Value and Size.
    - Computations (semantics/default/computation.rs, semantics/mod.rs): an
      expression together with how its arguments are read from input values and how
      its result is encoded; Computation.  The trait [AsComputationRef] is a class
      with the three implementations as instances, and the combinators ([if_zero],
      [and], [or], [not]) are written against the class.
    - Instructions and filters (instr/mod.rs, instr/filter.rs): Instruction and
      Filter.  A filter stands for a set of instructions, byte by byte a mask and a
      value; [merge_filters] minimises lists of them, and
      [next_matching_instruction] drives the enumeration of the instruction space.
    - Filter trees (instr/tree.rs): FilterTree, Module [Tree].  A tree over the bits
      of instructions in an arena of nodes with a free list; indices are 40 bits wide.
      Operations thread the arena.  FilterArena relates an arena to the abstract tree
      it holds ([tree_wf]).
    - Filter lists and maps (instr/set.rs, map.rs): FilterSets, Modules [FList] and
      [FMap].
    - The observer queue: Shmqueue.  Modules [Control] and [Ring] are
      frame/control.rs and queue.rs of liblisa-x64-observer-shmqueue, [Mapping] and
      [Mappings] frame/command.rs; [Alloc] and the functions on [VmObserver] are the
      host (liblisa-x64-observer/src/vm.rs), [In] is the client in the virtual machine
      (vmimage-x86-64/src/queue.rs).  ShmqueueFacts runs host and client as a step
      relation on the shared control frame and the command frames.
    - Bitmaps (utils/bitmap/mod.rs, fixed.rs): Bitmap.  The trait [BitmapSlice] is a
      class; what its users rely on is the class [SliceOk] of BitmapFacts, which the
      combined slices and [FixedBitmapU64] are instances of.
    - Growing bitmaps (utils/bitmap/growing.rs), the trait [BitmapSliceMut]
      (utils/bitmap/mod.rs) and the matrix (utils/matrix.rs): Growing, Modules
      [Growing], [SliceMut], [Growing_slice], [Dense] and [Matrix].  A mutable slice
      owns its words until they are written back.
    - The satisfiability solver (utils/minisat.rs): Minisat, with the stack and the
      array of assumptions of its search.
    - Filters with exceptions (instr/extended.rs): Extended, Module [Ext].
    - The instruction counter (instr/counter.rs): Counter, Module [Counter].

    - Addresses, pages and areas (state/addr.rs): Addr, Module [AddrOps].
    - The architecture (arch/mod.rs): Arch.  The traits [Arch], [CpuState] and
      [Register] are the class [Arch], what the library relies on the class
      [ArchLaws]; Module [Fake] is the instance arch/fake.rs.
    - x86-64 (arch/x64/mod.rs, disasm.rs): X64 has the registers, the flags and the
      state, X64Mem the operations that read and write the memory of a state, which
      is a function from offsets to bytes, and the instance [X64Arch], X64Prefix the
      parser of prefixes and the scope of the enumeration.
    - Locations, destinations, sources and inputs (state/locs.rs,
      encoding/dataflows/locs.rs, inputs.rs): Locs.
    - The system state (state/memory.rs, Module [Mem]; state/mod.rs): State.
    - Address computations (encoding/dataflows/address_computation.rs): AddrComp,
      Modules [Term], [All] and [Calc].
    - Memory accesses and dataflows (encoding/dataflows/accesses.rs, mod.rs,
      encoding/bitpattern/locs.rs): Dataflows; the trait [Computation] is a class.
    - The state as numbered bytes (state/byteview.rs): ByteView.
    - Chunks of destinations (state/split_dests.rs): SplitDests.
    - Encodings: BitPattern has the bits and parts (encoding/bitpattern/mod.rs), Encoding
      the relation of an encoding to its instructions, its prefixes, overlapping
      outputs and integrity check, Instantiate the instantiation with part values,
      with the map from places in Module [LocMap], EncSearch the searches over the
      instructions of an encoding, which count through the combinations of part values
      (Odometer), and EncTransform the transformations of encodings (encoding/mod.rs).
    - Code generation (semantics/default/codegen): Codegen has the trait
      [CodeGenerator] as a class, the translation of postfix code and the generator of
      S-expressions, SmtCodegen the generator of solver expressions.  The solver
      (smt/solver.rs) is the class [SmtSolver] of Smt, with its default methods.
    - Models of encodings for solvers (semantics/default/smtgen.rs): SmtModel.  The
      functions thread the storage, the bit vectors made so far for locations.
    - Helpers of the synthesis (src/liblisa-synth): DeltaVec (utils/delta_vec.rs), a
      compressed increasing sequence, and WriteOrder ([resolve_order] of
      write_order.rs), which orders outputs that overwrite each other.

    Values flow from Utils and Value through the argument interpretation of
    Computation into Expr and Ops, and back through the output encoding; filters
    use instructions; trees, lists and maps use filters; filters with exceptions use
    the solver, which uses growing bitmaps; the counter uses lists and trees; bitmaps
    and the queue use nothing else.  The state holds the registers of an architecture
    and memory; dataflows read sources from it, evaluate computations and write
    destinations; the addresses of their accesses are address computations.  An
    encoding is a bit pattern with the dataflows of one of its instructions;
    instantiation maps the places of the dataflows that its parts own.

    ** Effects

    A function that can panic returns [M] (below): [Ok], [Panic], or [OutOfFuel] for
    a loop that is still running when the fuel of its model is used up.  The build
    profile ([Dev] or [Release]) is an implicit argument of the functions whose
    overflow checks or debug assertions depend on it; theorems quantify over it.
    Methods that mutate [self] return the new value.  Fuel is used where a loop is
    not structural: the bit loops of [deposit_bits_u128] and [ExtractBits] (128, one
    per bit of the selector), the inner loop of [merge_filters] (the number of
    filters, one of which goes in every iteration), [new_all_ones] (the length),
    the walks of filter trees ([levels] of the arena, the number of its entries), the
    iterator over the ones of a bitmap (64 for each word), the simplification of
    filters with exceptions (the number of filters and wildcards, one of which goes in
    every iteration), the extension of the counter's instruction (16, its length) and
    its search (an argument; the number of filters and one more is enough), the
    removal of pairs of byte swaps (the number of operations and one more), the loop
    over the bits of an encoding (their number and one more), the loops over all
    combinations of part values (an argument; their number is enough), the loop over
    the bits of a compared lane (32), the parser of prefixes (the length of the
    instruction), the iteration over a vector of differences (its words), the order of
    writes (the number of outputs).  The solver
    takes its fuel as an argument too, and its theorems say that some amount is enough
    and that more does not change the result.
    The theorems show that this is enough, so that the loops return (the bit loops
    for every selector but [1 << 127], for which they do not).

    ** What the theorems show

    - OpsFacts: every operation keeps [i128] values and takes and leaves the right
      number of stack entries; the operations meet bit-level specifications
      (masks, rotation, bit extraction and deposit, byte swapping, carry-less
      multiplication), with the arguments at which they do not.
    - ExprFacts: for every builder made with the builder functions, the compiled and
      the interpreted evaluation of the expression agree, panics included.
    - ComputationFacts and CombineFacts: comparisons agree with evaluation, encoding
      and interpretation are inverse, the combinators return well-formed
      computations whose value is the combination of the values of their parts.
    - Size, Value: byte ranges as sets of indices; slices and fills by their bytes.
    - InstructionFacts: bit access from both sides, the order, prefixes.
    - FilterFacts, MergeFacts, NextMatching: filters as sets of instructions
      (inclusion, intersection, union, difference), [merge_filters] ends and keeps
      the set, [next_matching_instruction] returns the least match.
    - FilterTreeFacts, FindNext: insertion keeps the arena well formed and adds
      exactly the filter to the set that the tree covers, while fewer than 2^40 nodes
      are used; [find_next] returns the least uncovered instruction, or panics, which
      it does only for trees of more than 112 bits ([find_next_panics_at_15_bytes]);
      pruning, ranges, comparison, and what [covers] does and does not decide.
    - FilterSets: lists and maps of filters against sets of instructions and lists
      of entries.
    - ShmqueueFacts, IncomingFacts: in every interleaving the queue refines a bounded
      FIFO queue, neither side touches a frame of the other, nothing panics, results
      arrive, and no queue starves.  PagesFacts: page frames in use are not given out
      again, mappings round-trip, and how many queues the layout has room for.
    - BitmapFacts: the default methods against the laws of slices, the operations
      and constructors of [FixedBitmapU64] as operations on sets of indices.
    - GrowingFacts, GrowingSpec: a growing bitmap refines a list of bits; operators,
      searches and iterators; mutable slices change exactly the bits of their range;
      sets and matrices of indices.
    - MinisatFacts: the search ends, its answers are models, and it is complete
      unless the terms alone satisfy a disjunction; which formulas it then gets wrong
      ([solve_misses_satisfied]).
    - ExtendedFacts: the constructor keeps the set of instructions and decides
      whether it is empty, for exceptions that are not longer than the filter.
    - CounterFacts: where the counter's search ends, it is at the first position that no
      filter matches; that it ends, for filters of at most three bytes, whose trees
      are never so large that they are pruned; the steps of the counter.
    - Addr: areas as sets of addresses modulo 2^64, page arithmetic.
    - Locs, SplitDests: destinations as sets of bytes; any sequence of destinations is
      cut into chunks that do not overlap.
    - StateFacts, ByteView: reading and writing a destination is a lens; the byte view
      is a numbering of the bytes of the memory.
    - AddrCompFacts: relocation moves the access to its target for the terms that can be
      relocated, the filters keep the
      terms that explain an observation, transformations keep the address.
    - DataflowsFacts: executing dataflows is a parallel assignment; immediates and
      flags.  These are proved for every architecture that meets [ArchLaws].
    - X64Facts: x86-64 meets [ArchLaws], so that all of this holds for it; its bytes
      and flags.  X64MemFacts, X64DiffFacts: for every layout of the fields, access
      through memory refines the default methods, and the vector comparisons find
      exactly the bytes they should.  X64Prefix: the parser returns, and what is in
      scope.
    - EncodingFacts, InstantiateFacts, PartialFacts: part values and instructions
      are inverse to each other; instantiation replaces exactly the places of the
      parts by what their values stand for, and can be done in steps.
    - SearchFacts: the iteration over the instructions of an encoding yields each of
      them once, for parts of fewer than 31 bits, and the search for the best registers finds the best ones.
    - SmtFacts: what the default methods of a solver mean, from the laws of SMT-LIB;
      an instance of the laws.  SmtCodegenFacts, CodegenFacts: generated expressions
      have the value of the evaluated computation, and where they do not.
    - SmtModelFacts: the model of an encoding holds for every instruction of it, and its
      constraints force the registers that parts select, so that the outputs have the
      values of the instantiated dataflows.  The bits of the instruction are not
      constrained by the model; their value is assumed.  This composes instantiation,
      execution and code generation, for the operations of CodegenFacts whose generated
      expressions are right ([smt_ok]).
    - DeltaVec, WriteOrder: the compressed vector refines the list of its items; the
      order of writes is found unless the observations are cyclic, and depends only on
      their set.
    Where the code departs from its documentation or fails at the edge of its
    range, a theorem states what it does (for example [crop_full_width],
    [prepared_compare_16_bytes], [count_zeros_full]).

    ** What is not modelled

    Printing (but for S-expressions and the names of registers), [Debug] and serde; the
    covering solvers in utils/mcs and
    instr/filter_mcs.rs, the filters of an encoding and the merging of encodings;
    the printing of x86-64 states and the sampling of states;
    the register areas of a command frame and the process handling of the observer;
    the cache of solver results and Z3, which is external; the virtual machine image apart from its queue and
    the command line tools, which are input and output; the crates [liblisa-enc] and
    [liblisa-synth] (but for the helpers above), whose analyses are driven by
    observations of a CPU. *)
From stdpp Require Export base tactics numbers list option decidable sets.
From Stdlib Require Export ZArith Lia Bool.
#[global] Set Default Proof Using "Type".

Open Scope Z_scope.

(** ** Build profile

    [cargo build] with the [dev] profile panics on arithmetic overflow and runs
    [debug_assert!]; the [release] profile wraps and skips the assertion.  An
    operation whose behaviour depends on the profile takes it as an implicit
    argument; a theorem that quantifies over it holds for both builds. *)
Inductive profile := Dev | Release.
Existing Class profile.

#[export] Instance profile_eq_dec : EqDecision profile.
Proof. solve_decision. Defined.

(** ** The outcome monad

    [Ok a]: the code returns [a].  [Panic]: it panics ([assert!], [unwrap],
    an index out of range, a checked overflow).  [OutOfFuel]: the model of a
    loop used up its fuel without the loop ending. *)
Inductive M (A : Type) := Ok (a : A) | Panic | OutOfFuel.
Arguments Ok {A} a.
Arguments Panic {A}.
Arguments OutOfFuel {A}.

#[export] Instance M_ret : MRet M := @Ok.
#[export] Instance M_bind : MBind M := λ A B f m,
  match m with Ok a => f a | Panic => Panic | OutOfFuel => OutOfFuel end.
#[export] Instance M_fmap : FMap M := λ A B f m,
  match m with Ok a => Ok (f a) | Panic => Panic | OutOfFuel => OutOfFuel end.

Declare Scope rust_scope.
Delimit Scope rust_scope with rust.
Open Scope rust_scope.

(** [assert!(b)], [debug_assert!(b)], [v[i]] and [v[i] = x]. *)
Definition rassert (b : bool) : M unit := if b then Ok tt else Panic.
Definition debug_assert {P : profile} (b : bool) : M unit :=
  match P with Dev => rassert b | Release => Ok tt end.
Definition unwrap {A} (o : option A) : M A :=
  match o with Some a => Ok a | None => Panic end.
Definition vget {A} (l : list A) (i : nat) : M A := unwrap (l !! i).
Definition vset {A} (l : list A) (i : nat) (x : A) : M (list A) :=
  if bool_decide (i < length l)%nat then Ok (<[i:=x]> l) else Panic.

Notation "'assert!' b ; k" := (mbind (λ _ : unit, k) (rassert b))
  (at level 10, b at level 99, k at level 200) : rust_scope.
Notation "'debug_assert!' b ; k" := (mbind (λ _ : unit, k) (debug_assert b))
  (at level 10, b at level 99, k at level 200) : rust_scope.

#[export] Instance Ok_inj A : Inj (=) (=) (@Ok A).
Proof. by intros a b [= ->]. Qed.
Lemma M_bind_Ok {A B} (a : A) (f : A → M B) : (Ok a ≫= f) = f a.
Proof. done. Qed.
Lemma M_bind_ret {A} (m : M A) : m ≫= Ok = m.
Proof. by destruct m. Qed.
Lemma M_bind_assoc {A B C} (m : M A) (f : A → M B) (g : B → M C) :
  ((m ≫= f) ≫= g) = (m ≫= λ a, f a ≫= g).
Proof. by destruct m. Qed.
Lemma M_bind_ext {A B} (m : M A) (f g : A → M B) :
  (∀ a, f a = g a) → (m ≫= f) = (m ≫= g).
Proof. intros; destruct m; cbn; auto. Qed.
Lemma M_bind_Ok_inv {A B} (m : M A) (f : A → M B) b :
  (m ≫= f) = Ok b ↔ ∃ a, m = Ok a ∧ f a = Ok b.
Proof. destruct m; cbn; naive_solver. Qed.
Lemma M_fmap_Ok_inv {A B} (m : M A) (f : A → B) b :
  (f <$> m) = Ok b ↔ ∃ a, m = Ok a ∧ b = f a.
Proof. destruct m; cbn; naive_solver. Qed.
Lemma rassert_Ok_inv b u : rassert b = Ok u ↔ b = true.
Proof. destruct b, u; cbn; naive_solver. Qed.
Lemma vget_Ok_inv {A} (l : list A) i a : vget l i = Ok a ↔ l !! i = Some a.
Proof. unfold vget, unwrap; destruct (l !! i); naive_solver. Qed.
Lemma vget_lt {A} (l : list A) i : (i < length l)%nat → ∃ a, vget l i = Ok a ∧ l !! i = Some a.
Proof.
  intros H. destruct (lookup_lt_is_Some_2 l i H) as [a Ha].
  exists a. by rewrite vget_Ok_inv.
Qed.
Lemma vset_Ok_inv {A} (l l' : list A) i a :
  vset l i a = Ok l' ↔ (i < length l)%nat ∧ l' = <[i:=a]> l.
Proof. unfold vset; case_bool_decide; naive_solver. Qed.
Lemma vset_lt {A} (l : list A) i a : (i < length l)%nat → vset l i a = Ok (<[i:=a]> l).
Proof. intros; by rewrite vset_Ok_inv. Qed.

(** [or_panic late m post]: [m] satisfies [post], unless it panics; it may only panic when
    [late] holds.  [returns m post]: what [m] returns, if it does, satisfies [post]. *)
Definition or_panic {A} (late : Prop) (m : M A) (post : A → Prop) : Prop :=
  (m = Panic ∧ late) ∨ ∃ a, m = Ok a ∧ post a.
Definition returns {A} (m : M A) (post : A → Prop) : Prop := ∀ a, m = Ok a → post a.

Lemma or_panic_ok {A} (late : Prop) (a : A) (post : A → Prop) : post a → or_panic late (Ok a) post.
Proof. intros H. right. by exists a. Qed.
Lemma or_panic_bind {A B} (late late' : Prop) (m : M A) (f : A → M B) post post' : or_panic late' m post' → (late' → late) →
  (∀ a, post' a → or_panic late (f a) post) → or_panic late (m ≫= f) post.
Proof. intros [[-> H]|(a & -> & Ha)] Hl Hf; [left; by split; [|apply Hl]|]. rewrite M_bind_Ok. by apply Hf. Qed.
Lemma or_panic_mono {A} (late late' : Prop) (m : M A) (post post' : A → Prop) : or_panic late' m post' → (late' → late) →
  (∀ a, post' a → post a) → or_panic late m post.
Proof. intros [[-> H]|(a & -> & Ha)] Hl Hp; [left; by split; [|apply Hl]|]. right. exists a. split; [done|]. by apply Hp. Qed.
Lemma or_panic_never {A} (late : Prop) (m : M A) (post : A → Prop) : or_panic late m post → ¬ late → ∃ a, m = Ok a ∧ post a.
Proof. by intros [[_ ?]|?]. Qed.
Lemma or_panic_returns {A} (late : Prop) (m : M A) (post : A → Prop) : or_panic late m post → returns m post.
Proof. intros [[-> _]|(a & -> & Ha)] b [= <-]. done. Qed.
Lemma returns_ok {A} (a : A) (post : A → Prop) : post a → returns (Ok a) post.
Proof. by intros H b [= <-]. Qed.
Lemma returns_bind {A B} (m : M A) (f : A → M B) post post' : returns m post' → (∀ a, post' a → returns (f a) post) → returns (m ≫= f) post.
Proof. intros Hm Hf b (a & Ha & Hb)%M_bind_Ok_inv. eapply Hf; [by apply Hm | done]. Qed.

Create HintDb rust.
Create Rewrite HintDb rust.
#[export] Hint Rewrite @M_bind_Ok @M_bind_assoc : rust.
#[export] Hint Rewrite @vset_lt using (rewrite ?length_insert; lia) : rust.

(** Break a hypothesis [m = Ok a] into the steps that produced it. *)
Ltac M_inv H :=
  repeat (first
    [ rewrite M_bind_Ok_inv in H; let a := fresh "a" in let E := fresh "E" in destruct H as (a & E & H);
      try M_inv E
    | rewrite M_fmap_Ok_inv in H; let a := fresh "a" in let E := fresh "E" in destruct H as (a & E & H);
      try M_inv E
    | rewrite rassert_Ok_inv in H
    | rewrite vget_Ok_inv in H
    | rewrite vset_Ok_inv in H; let E := fresh "E" in destruct H as [E H] ]).

(** Sequential traversal of a list in the monad ([map(..).collect()] with a
    function that can panic). *)
Fixpoint mapM {A B} (f : A → M B) (l : list A) : M (list B) :=
  match l with
  | [] => Ok []
  | x :: l => y ← f x; ys ← mapM f l; Ok (y :: ys)
  end.

Lemma mapM_Ok {A B} (f : A → M B) (g : A → B) l :
  (∀ x, x ∈ l → f x = Ok (g x)) → mapM f l = Ok (g <$> l).
Proof.
  induction l as [|x l IH]; intros H; [done|]. cbn [mapM].
  rewrite H, M_bind_Ok, IH by set_solver. done.
Qed.

Lemma mapM_app {A B} (f : A → M B) l k :
  mapM f (l ++ k) = (a ← mapM f l; b ← mapM f k; Ok (a ++ b)).
Proof.
  induction l as [|x l IH]; cbn [mapM app].
  - cbn. by rewrite M_bind_ret.
  - rewrite IH, !M_bind_assoc. apply M_bind_ext; intros y.
    rewrite !M_bind_assoc. apply M_bind_ext; intros ys.
    rewrite M_bind_assoc; cbn [mbind M_bind]. by destruct (mapM f k).
Qed.

Lemma mapM_length {A B} (f : A → M B) l l' : mapM f l = Ok l' → length l' = length l.
Proof.
  revert l'. induction l as [|x l IH]; intros l' H; cbn [mapM] in H; [by apply (inj Ok) in H as <-|].
  M_inv H. apply (inj Ok) in H as <-. cbn. f_equal. eauto.
Qed.
Lemma mapM_Forall2 {A B} (f : A → M B) l l' : mapM f l = Ok l' ↔ Forall2 (λ x y, f x = Ok y) l l'.
Proof.
  revert l'. induction l as [|x l IH]; intros l'; cbn [mapM].
  - split; [intros H; apply (inj Ok) in H as <-; constructor | by intros ->%Forall2_nil_inv_l].
  - split.
    + intros H. M_inv H. apply (inj Ok) in H as <-. constructor; [done|]. by apply IH.
    + intros (y & k & Hy & Hk & ->)%Forall2_cons_inv_l. rewrite Hy, M_bind_Ok, (proj2 (IH k)) by done. done.
Qed.
Lemma mapM_exists {A B} (f : A → M B) l : (∀ x, x ∈ l → ∃ y, f x = Ok y) → ∃ l', mapM f l = Ok l'.
Proof.
  induction l as [|x l IH]; intros H; [by exists []|]. destruct (H x) as [y Hy]; [left|].
  destruct IH as [k Hk]; [intros; apply H; by right|]. exists (y :: k). cbn [mapM]. by rewrite Hy, M_bind_Ok, Hk.
Qed.

(** ** Arithmetic automation *)

(** Decide the integer comparisons that occur in the goal. *)
Ltac case_cmp :=
  match goal with
  | |- context [ (?a <? ?b)%Z ] => destruct (Z.ltb_spec a b)
  | |- context [ (?a <=? ?b)%Z ] => destruct (Z.leb_spec a b)
  | |- context [ (?a =? ?b)%Z ] => destruct (Z.eqb_spec a b)
  | |- context [ (?a <? ?b)%nat ] => destruct (Nat.ltb_spec a b)
  | |- context [ (?a <=? ?b)%nat ] => destruct (Nat.leb_spec a b)
  | |- context [ (?a =? ?b)%nat ] => destruct (Nat.eqb_spec a b)
  | |- context [ bool_decide ?P ] => case_bool_decide
  end.
Ltac case_cmps := repeat (case_cmp; try (exfalso; lia)).

Lemma pow2_pos n : 0 <= n → 0 < 2 ^ n.
Proof. intros; apply Z.pow_pos_nonneg; lia. Qed.
#[export] Hint Resolve pow2_pos : rust.

Lemma pow2_split a b : 0 <= a → 0 <= b → 2 ^ (a + b) = 2 ^ a * 2 ^ b.
Proof. apply Z.pow_add_r; lia. Qed.

Lemma lookup_seq_filter_nodup (p : nat → bool) n : NoDup (List.filter p (seq 0 n)).
Proof. apply NoDup_ListNoDup, List.NoDup_filter, List.seq_NoDup. Qed.
