(* ===== verification/MachInt.v ===== *)
(** * Machine integers

    Rust's fixed-width integers as [Z] with the wrap-around written out: an
    unsigned [w]-bit value is a [Z] in [0, 2^w), a signed one a [Z] in
    [-2^(w-1), 2^(w-1)).  The file defines the primitive operations the source
    uses (casts, shifts with and without overflow checks, bit counts, byte
    order) and characterises each by its bits. *)
From S2P Require Import Prelude.

(** ** Casts and ranges *)

Definition is_u (w x : Z) : Prop := 0 <= x < 2 ^ w.
Definition is_i (w x : Z) : Prop := - 2 ^ (w - 1) <= x < 2 ^ (w - 1).
#[export] Instance is_u_dec w x : Decision (is_u w x).
Proof. unfold is_u; apply _. Defined.
#[export] Instance is_i_dec w x : Decision (is_i w x).
Proof. unfold is_i; apply _. Defined.

(** [x as uW] and [x as iW]. *)
Definition wrap (w x : Z) : Z := x `mod` 2 ^ w.
Definition swrap (w x : Z) : Z :=
  let y := wrap w x in if y <? 2 ^ (w - 1) then y else y - 2 ^ w.

(** [!x] on an unsigned value; on a signed value it is [Z.lnot]. *)
Definition not_u (w x : Z) : Z := wrap w (Z.lnot x).

(** [a + b] and [a - b] on unsigned and signed values: checked operations in
    the [dev] profile, wrapping ones in [release]. *)
Definition add_u {P : profile} (w a b : Z) : M Z :=
  if bool_decide (is_u w (a + b)) then Ok (a + b)
  else match P with Dev => Panic | Release => Ok (wrap w (a + b)) end.
Definition sub_u {P : profile} (w a b : Z) : M Z :=
  if bool_decide (is_u w (a - b)) then Ok (a - b)
  else match P with Dev => Panic | Release => Ok (wrap w (a - b)) end.
Definition sub_i {P : profile} (w a b : Z) : M Z :=
  if bool_decide (is_i w (a - b)) then Ok (a - b)
  else match P with Dev => Panic | Release => Ok (swrap w (a - b)) end.

(** [x << k] and [x >> k]: an amount of [w] or more panics in [dev] and is
    masked in [release].  A right shift is logical on an unsigned value and
    arithmetic on a signed one: both are [Z.shiftr]. *)
Definition shift_amount {P : profile} (w k : Z) : M Z :=
  if k <? w then Ok k
  else match P with Dev => Panic | Release => Ok (k `mod` w) end.
Definition shl_u {P : profile} (w x k : Z) : M Z :=
  k ← shift_amount w k; Ok (wrap w (Z.shiftl x k)).
Definition shl_i {P : profile} (w x k : Z) : M Z :=
  k ← shift_amount w k; Ok (swrap w (Z.shiftl x k)).
Definition shr {P : profile} (w x k : Z) : M Z :=
  k ← shift_amount w k; Ok (Z.shiftr x k).

(** [wrapping_shl] and [wrapping_shr] on a signed value. *)
Definition wrapping_shl_i (w x k : Z) : Z := swrap w (Z.shiftl x (k `mod` w)).
Definition wrapping_shr_i (w x k : Z) : Z := Z.shiftr x (k `mod` w).

(** [u64::checked_shr] and the like. *)
Definition checked_shr (w x k : Z) : option Z :=
  if k <? w then Some (Z.shiftr x k) else None.
Definition checked_shl_u (w x k : Z) : option Z :=
  if k <? w then Some (wrap w (Z.shiftl x k)) else None.

(** ** Counting bits *)

(** The positions below [w] of the one bits, in ascending order. *)
Definition ones (w : nat) (x : Z) : list nat :=
  List.filter (λ i, Z.testbit x (Z.of_nat i)) (seq 0 w).
Definition count_ones (w : nat) (x : Z) : nat := length (ones w x).
Definition count_zeros (w : nat) (x : Z) : nat := (w - count_ones w x)%nat.
Definition trailing_zeros (w : nat) (x : Z) : nat := List.hd w (ones w x).
Definition leading_zeros (w : nat) (x : Z) : nat :=
  match last (ones w x) with Some i => (w - 1 - i)%nat | None => w end.
Definition is_power_of_two (w : nat) (x : Z) : bool := (count_ones w x =? 1)%nat.

(** ** Byte order *)

Fixpoint from_le_bytes (l : list Z) : Z :=
  match l with [] => 0 | b :: l => Z.lor b (Z.shiftl (from_le_bytes l) 8) end.
Fixpoint to_le_bytes (n : nat) (x : Z) : list Z :=
  match n with
  | O => []
  | S n => wrap 8 x :: to_le_bytes n (Z.shiftr x 8)
  end.
(** [swap_bytes] on an [n]-byte unsigned value. *)
Definition swap_bytes (n : nat) (x : Z) : Z := from_le_bytes (reverse (to_le_bytes n x)).

(** ** Bits of the casts *)

Lemma testbit_wrap w x i : 0 <= w → Z.testbit (wrap w x) i = (i <? w) && Z.testbit x i.
Proof.
  intros Hw. unfold wrap. destruct (Z.ltb_spec i w).
  - destruct (Z.ltb_spec i 0); [by rewrite !Z.testbit_neg_r | by rewrite Z.mod_pow2_bits_low].
  - rewrite Z.mod_pow2_bits_high by lia. done.
Qed.

Lemma wrap_is_u w x : 0 <= w → is_u w (wrap w x).
Proof. intros; apply Z.mod_pos_bound, pow2_pos; lia. Qed.
Lemma wrap_small w x : is_u w x → wrap w x = x.
Proof. apply Z.mod_small. Qed.

Lemma testbit_u_high w x i : is_u w x → 0 <= w <= i → Z.testbit x i = false.
Proof.
  intros Hx ?. rewrite <- (wrap_small w x) by done. rewrite testbit_wrap by lia.
  by case_cmps.
Qed.

Lemma u_ext w a b : 0 <= w → is_u w a → is_u w b →
  (∀ i, 0 <= i < w → Z.testbit a i = Z.testbit b i) → a = b.
Proof.
  intros Hw Ha Hb H. apply Z.bits_inj'; intros i Hi.
  destruct (Z.lt_ge_cases i w); [by apply H|].
  by rewrite !(testbit_u_high w) by (done || lia).
Qed.

Lemma u_of_bits w x : 0 <= w → 0 <= x → (∀ i, w <= i → Z.testbit x i = false) → is_u w x.
Proof.
  intros Hw Hx H. split; [done|].
  destruct (decide (x = 0)) as [->|]; [by apply pow2_pos|].
  apply Z.log2_lt_pow2; [lia|]. destruct (Z.lt_ge_cases (Z.log2 x) w); [done|].
  specialize (H (Z.log2 x) ltac:(lia)). rewrite Z.bit_log2 in H by lia. done.
Qed.

Lemma is_u_land w a b : 0 <= w → is_u w a → 0 <= b → is_u w (Z.land a b).
Proof.
  intros Hw Ha Hb. apply u_of_bits; [done| |].
  - apply Z.land_nonneg. left; apply Ha.
  - intros i Hi. rewrite Z.land_spec, (testbit_u_high w) by (done || lia). done.
Qed.
Lemma is_u_lor w a b : 0 <= w → is_u w a → is_u w b → is_u w (Z.lor a b).
Proof.
  intros Hw Ha Hb. apply u_of_bits; [done| |].
  - apply Z.lor_nonneg. split; [apply Ha | apply Hb].
  - intros i Hi. by rewrite Z.lor_spec, !(testbit_u_high w) by (done || lia).
Qed.
Lemma is_u_lxor w a b : 0 <= w → is_u w a → is_u w b → is_u w (Z.lxor a b).
Proof.
  intros Hw Ha Hb. apply u_of_bits; [done| |].
  - apply Z.lxor_nonneg. split; intros; [apply Hb | apply Ha].
  - intros i Hi. by rewrite Z.lxor_spec, !(testbit_u_high w) by (done || lia).
Qed.
Lemma is_u_shiftr w a k : 0 <= w → 0 <= k → is_u w a → is_u w (Z.shiftr a k).
Proof.
  intros Hw Hk Ha. apply u_of_bits; [done| |].
  - apply Z.shiftr_nonneg, Ha.
  - intros i Hi. by rewrite Z.shiftr_spec, (testbit_u_high w) by (done || lia).
Qed.
Lemma is_u_mono w w' a : w <= w' → is_u w a → is_u w' a.
Proof.
  intros Hw [H1 H2]. split; [done|]. eapply Z.lt_le_trans; [done|].
  apply Z.pow_le_mono_r; lia.
Qed.

Lemma pow2_half w : 0 < w → 2 ^ w = 2 * 2 ^ (w - 1).
Proof. intros. rewrite <- Z.pow_succ_r by lia. f_equal; lia. Qed.

Lemma wrap_half_testbit w x : 0 < w →
  (wrap w x <? 2 ^ (w - 1)) = negb (Z.testbit x (w - 1)).
Proof.
  intros Hw. pose proof (wrap_is_u w x ltac:(lia)) as Hy.
  assert (Z.testbit x (w - 1) = Z.testbit (wrap w x) (w - 1)) as ->
    by (rewrite testbit_wrap by lia; by case_cmps).
  destruct (Z.ltb_spec (wrap w x) (2 ^ (w - 1))).
  - rewrite (testbit_u_high (w - 1)); [done| |lia]. split; [apply Hy | done].
  - destruct Hy as [? Hy]. rewrite (pow2_half w) in Hy by done.
    symmetry; apply negb_false_iff, Z.testbit_true; [lia|].
    assert (wrap w x / 2 ^ (w - 1) = 1) as ->; [|done].
    symmetry; apply Z.div_unique with (wrap w x - 2 ^ (w - 1)); lia.
Qed.

Lemma testbit_swrap w x i : 0 < w → 0 <= i →
  Z.testbit (swrap w x) i = Z.testbit x (if i <? w then i else w - 1).
Proof.
  intros Hw Hi. unfold swrap. cbv zeta. rewrite wrap_half_testbit by done.
  destruct (Z.testbit x (w - 1)) eqn:E; cbn [negb].
  - assert (wrap w x - 2 ^ w = Z.lor (wrap w x) (Z.shiftl (-1) w)) as ->.
    { rewrite Z.shiftl_mul_pow2 by lia.
      rewrite <- Z.lxor_lor, <- Z.add_nocarry_lxor.
      2,3: apply Z.bits_inj'; intros j Hj;
        rewrite <- Z.shiftl_mul_pow2, Z.land_spec, testbit_wrap, Z.shiftl_spec, Z.bits_0 by lia;
        destruct (Z.ltb_spec j w); [rewrite (Z.testbit_neg_r (-1)) by lia; by rewrite andb_false_r | done].
      lia. }
    rewrite Z.lor_spec, testbit_wrap, Z.shiftl_spec by lia.
    destruct (Z.ltb_spec i w).
    + rewrite (Z.testbit_neg_r (-1)) by lia. by rewrite orb_false_r.
    + rewrite Z.bits_m1 by lia. by rewrite E.
  - rewrite testbit_wrap by lia. by case_cmps; rewrite ?E.
Qed.

Lemma swrap_is_i w x : 0 < w → is_i w (swrap w x).
Proof.
  intros Hw. pose proof (wrap_is_u w x ltac:(lia)) as [H1 H2].
  unfold swrap, is_i. rewrite (pow2_half w) in * by done. case_cmps; lia.
Qed.
Lemma swrap_small w x : 0 < w → is_i w x → swrap w x = x.
Proof.
  intros Hw [H1 H2]. unfold swrap, wrap. cbv zeta. rewrite (pow2_half w) by done.
  pose proof (pow2_pos (w - 1) ltac:(lia)).
  destruct (Z.lt_ge_cases x 0).
  - rewrite <- (Z.mod_unique x (2 * 2 ^ (w - 1)) (-1) (x + 2 * 2 ^ (w - 1))) by lia.
    case_cmps; lia.
  - rewrite Z.mod_small by lia. case_cmps; lia.
Qed.

Lemma testbit_i_high w x i : 0 < w → is_i w x → w <= i → Z.testbit x i = Z.testbit x (w - 1).
Proof.
  intros Hw Hx Hi. rewrite <- (swrap_small w x) by done.
  rewrite !testbit_swrap by lia. case_cmps; f_equal; lia.
Qed.
Lemma i_ext w a b : 0 < w → is_i w a → is_i w b →
  (∀ i, 0 <= i < w → Z.testbit a i = Z.testbit b i) → a = b.
Proof.
  intros Hw Ha Hb H. apply Z.bits_inj'; intros i Hi.
  destruct (Z.lt_ge_cases i w); [by apply H|].
  rewrite (testbit_i_high w a), (testbit_i_high w b) by done. apply H; lia.
Qed.
(** A value whose bits from [w - 1] on are all equal is a signed [w]-bit value. *)
Lemma i_of_bits w x : 0 < w →
  (∀ i, w <= i → Z.testbit x i = Z.testbit x (w - 1)) → is_i w x.
Proof.
  intros Hw H. replace x with (swrap w x); [by apply swrap_is_i|].
  apply Z.bits_inj'; intros i Hi. rewrite testbit_swrap by lia.
  case_cmps; [done|]. symmetry; by apply H.
Qed.

Lemma u_is_i w x : 0 < w → is_u (w - 1) x → is_i w x.
Proof. intros Hw [H1 H2]. pose proof (pow2_pos (w - 1) ltac:(lia)). split; lia. Qed.

#[export] Hint Resolve wrap_is_u swrap_is_i : rust.
Create Rewrite HintDb bits.
#[export] Hint Rewrite Z.land_spec Z.lor_spec Z.lxor_spec Z.ldiff_spec Z.bits_0 : bits.
#[export] Hint Rewrite Z.lnot_spec Z.shiftl_spec Z.shiftr_spec Z.bits_m1 Z.testbit_ones_nonneg
  testbit_wrap testbit_swrap using lia : bits.

(** Prove an equation of integers bit by bit: [bitwise i] introduces the bit
    position, pushes [testbit] to the variables and decides the comparisons. *)
Ltac bits_simpl :=
  repeat (progress (autorewrite with bits) || (case_cmp; try (exfalso; lia)));
  rewrite ?andb_true_r, ?andb_false_r, ?orb_true_r, ?orb_false_r, ?xorb_false_r, ?xorb_true_r,
    ?andb_true_l, ?andb_false_l, ?orb_true_l, ?orb_false_l;
  cbn [negb andb orb xorb].
Ltac bitwise i Hi := apply Z.bits_inj'; intros i Hi; bits_simpl.
Ltac bools :=
  repeat match goal with
  | |- context [ Z.testbit ?x ?i ] => destruct (Z.testbit x i)
  end; reflexivity.

(** ** Round trips between the casts *)

Lemma wrap_swrap w x : 0 < w → wrap w (swrap w x) = wrap w x.
Proof. intros. bitwise i Hi; done. Qed.
Lemma swrap_wrap w x : 0 < w → swrap w (wrap w x) = swrap w x.
Proof. intros. bitwise i Hi; done. Qed.
Lemma swrap_swrap w x : 0 < w → swrap w (swrap w x) = swrap w x.
Proof. intros. bitwise i Hi; done. Qed.
Lemma wrap_wrap w x : 0 <= w → wrap w (wrap w x) = wrap w x.
Proof. intros. bitwise i Hi; done. Qed.
Lemma wrap_wrap_le v w x : 0 <= v <= w → wrap v (wrap w x) = wrap v x.
Proof. intros. bitwise i Hi; done. Qed.
Lemma wrap_swrap_le v w x : 0 <= v <= w → 0 < w → wrap v (swrap w x) = wrap v x.
Proof. intros. bitwise i Hi; done. Qed.
Lemma wrap_eq_swrap w x y : 0 < w → wrap w x = wrap w y ↔ swrap w x = swrap w y.
Proof.
  intros Hw; split; intros H.
  - by rewrite <- (swrap_wrap w x), <- (swrap_wrap w y), H.
  - by rewrite <- (wrap_swrap w x), <- (wrap_swrap w y), H.
Qed.
Lemma swrap_eq_mod w x y : 0 < w → swrap w x = swrap w y ↔ x `mod` 2 ^ w = y `mod` 2 ^ w.
Proof. intros. by rewrite <- wrap_eq_swrap. Qed.

(** Ring operations commute with the cast. *)
Lemma swrap_add w a b : 0 < w → swrap w (swrap w a + swrap w b) = swrap w (a + b).
Proof.
  intros. apply swrap_eq_mod; [done|].
  rewrite Z.add_mod by (apply Z.pow_nonzero; lia).
  fold (wrap w (swrap w a)) (wrap w (swrap w b)). rewrite !wrap_swrap by done.
  unfold wrap. by rewrite <- Z.add_mod by (apply Z.pow_nonzero; lia).
Qed.
Lemma swrap_mul w a b : 0 < w → swrap w (swrap w a * swrap w b) = swrap w (a * b).
Proof.
  intros. apply swrap_eq_mod; [done|].
  rewrite Z.mul_mod by (apply Z.pow_nonzero; lia).
  fold (wrap w (swrap w a)) (wrap w (swrap w b)). rewrite !wrap_swrap by done.
  unfold wrap. by rewrite <- Z.mul_mod by (apply Z.pow_nonzero; lia).
Qed.

(** ** Signed closure of the bit operations *)

Lemma is_i_lnot w x : 0 < w → is_i w x → is_i w (Z.lnot x).
Proof. unfold is_i, Z.lnot. lia. Qed.
Section signed_closure.
Context (w a b : Z) (Hw : 0 < w) (Ha : is_i w a) (Hb : is_i w b).
Lemma is_i_land : is_i w (Z.land a b).
Proof using All.
  apply i_of_bits; [done|]; intros i Hi.
  by rewrite !Z.land_spec, (testbit_i_high w a), (testbit_i_high w b).
Qed.
Lemma is_i_lor : is_i w (Z.lor a b).
Proof using All.
  apply i_of_bits; [done|]; intros i Hi.
  by rewrite !Z.lor_spec, (testbit_i_high w a), (testbit_i_high w b).
Qed.
Lemma is_i_lxor : is_i w (Z.lxor a b).
Proof using All.
  apply i_of_bits; [done|]; intros i Hi.
  by rewrite !Z.lxor_spec, (testbit_i_high w a), (testbit_i_high w b).
Qed.
Lemma is_i_shiftr k : 0 <= k → is_i w (Z.shiftr a k).
Proof using Hw Ha.
  intros Hk. apply i_of_bits; [done|]; intros i Hi. rewrite !Z.shiftr_spec by lia.
  rewrite (testbit_i_high w a) by (done || lia).
  destruct (decide (k = 0)) as [->|]; [f_equal; lia|].
  rewrite (testbit_i_high w a (w - 1 + k)) by (done || lia). done.
Qed.
End signed_closure.

(** ** Lemmas on bit counts *)

Lemma elem_of_ones w x i : i ∈ ones w x ↔ (i < w)%nat ∧ Z.testbit x (Z.of_nat i) = true.
Proof.
  unfold ones. rewrite list_elem_of_In, List.filter_In, List.in_seq. naive_solver lia.
Qed.
Lemma ones_NoDup w x : NoDup (ones w x).
Proof. apply lookup_seq_filter_nodup. Qed.

Lemma filter_seq_shift (p : nat → bool) a b :
  List.filter p (seq a b) = (Nat.add a) <$> List.filter (λ i, p (a + i)%nat) (seq 0 b).
Proof.
  revert a p. induction b as [|b IH]; intros a p; [done|]. cbn [seq List.filter].
  rewrite Nat.add_0_r, (IH (S a) p), (IH 1%nat).
  assert (∀ c : list nat, Nat.add (S a) <$> c = Nat.add a <$> (Nat.add 1 <$> c)) as Hc.
  { intros c. rewrite <- list_fmap_compose. apply list_fmap_ext; intros; cbn; lia. }
  assert (List.filter (λ i, p (S a + i)%nat) (seq 0 b) =
    List.filter (λ i, p (a + (1 + i))%nat) (seq 0 b)) as ->.
  { apply List.filter_ext; intros; f_equal; lia. }
  destruct (p a); cbn [fmap list_fmap]; rewrite ?Nat.add_0_r, Hc; done.
Qed.

Lemma ones_app a b x :
  ones (a + b) x = ones a x ++ (Nat.add a <$> ones b (Z.shiftr x (Z.of_nat a))).
Proof.
  unfold ones. rewrite seq_app, List.filter_app, Nat.add_0_l, (filter_seq_shift _ a b).
  do 2 f_equal. apply List.filter_ext; intros i.
  rewrite Z.shiftr_spec by lia. f_equal; lia.
Qed.
Lemma count_ones_app a b x :
  count_ones (a + b) x = (count_ones a x + count_ones b (Z.shiftr x (Z.of_nat a)))%nat.
Proof. unfold count_ones. by rewrite ones_app, length_app, length_fmap. Qed.

Lemma ones_nil w x : ones w x = [] ↔ ∀ i, 0 <= i < Z.of_nat w → Z.testbit x i = false.
Proof.
  split.
  - intros H i Hi. destruct (Z.testbit x i) eqn:E; [|done].
    assert (Z.to_nat i ∈ ones w x) as Hin
      by (apply elem_of_ones; rewrite Z2Nat.id by lia; split; [lia | done]).
    rewrite H in Hin. by apply elem_of_nil in Hin.
  - intros H. destruct (ones w x) as [|i l] eqn:E; [done|].
    assert (i ∈ ones w x) as Hin by (rewrite E; left).
    apply elem_of_ones in Hin as [Hi Ht]. rewrite H in Ht by lia. done.
Qed.
Lemma ones_1 x : ones 1 x = if Z.testbit x 0 then [0%nat] else [].
Proof. unfold ones; cbn. done. Qed.
Lemma count_ones_le w x : (count_ones w x <= w)%nat.
Proof.
  unfold count_ones, ones. etransitivity; [apply List.filter_length_le|].
  by rewrite List.length_seq.
Qed.
Lemma count_ones_wrap n w x : (n <= w)%nat → count_ones n (wrap (Z.of_nat w) x) = count_ones n x.
Proof.
  intros H. unfold count_ones, ones. f_equal. apply List.filter_ext_in; intros i.
  rewrite List.in_seq. intros. rewrite testbit_wrap by lia. by case_cmps.
Qed.

(** [trailing_zeros] is the least position of a one bit. *)
Lemma trailing_zeros_spec w x k :
  (k < w)%nat → Z.testbit x (Z.of_nat k) = true →
  (∀ i, 0 <= i < Z.of_nat k → Z.testbit x i = false) → trailing_zeros w x = k.
Proof.
  intros Hk Ht Hlow. unfold trailing_zeros.
  replace w with (k + (1 + (w - k - 1)))%nat at 2 by lia.
  rewrite ones_app, (proj2 (ones_nil k x) Hlow), app_nil_l, ones_app, ones_1, Z.shiftr_spec, Z.add_0_l, Ht by done.
  cbn. lia.
Qed.
Lemma ones_head w x k l : ones w x = k :: l →
  (k < w)%nat ∧ Z.testbit x (Z.of_nat k) = true ∧
  ∀ i, 0 <= i < Z.of_nat k → Z.testbit x i = false.
Proof.
  intros E. assert (k ∈ ones w x) as [Hk Ht]%elem_of_ones by (rewrite E; left).
  split_and!; [done..|]. apply ones_nil.
  destruct (ones k x) as [|j l'] eqn:E2; [done|].
  replace w with (k + (w - k))%nat in E by lia. rewrite ones_app, E2 in E.
  injection E as -> _. assert (k ∈ ones k x) as [? _]%elem_of_ones by (rewrite E2; left). lia.
Qed.
Lemma trailing_zeros_nonzero w x : is_u (Z.of_nat w) x → x ≠ 0 →
  (trailing_zeros w x < w)%nat ∧ Z.testbit x (Z.of_nat (trailing_zeros w x)) = true ∧
  ∀ i, 0 <= i < Z.of_nat (trailing_zeros w x) → Z.testbit x i = false.
Proof.
  intros Hx Hne. unfold trailing_zeros. destruct (ones w x) as [|k l] eqn:E.
  - exfalso. apply Hne. rewrite ones_nil in E.
    apply (u_ext (Z.of_nat w)); [lia | done | split; [done|apply pow2_pos; lia] |].
    intros i Hi. rewrite E by done. by rewrite Z.bits_0.
  - apply (ones_head w x k l E).
Qed.

(** ** Lemmas on byte order *)

Definition is_byte (b : Z) : Prop := is_u 8 b.
#[export] Instance is_byte_dec b : Decision (is_byte b).
Proof. unfold is_byte; apply _. Defined.
Definition is_bytes (l : list Z) : Prop := Forall is_byte l.
#[export] Instance is_bytes_dec l : Decision (is_bytes l).
Proof. unfold is_bytes; apply _. Defined.

Lemma length_to_le_bytes n x : length (to_le_bytes n x) = n.
Proof. revert x; induction n; intros; cbn; auto. Qed.
Lemma to_le_bytes_is_bytes n x : is_bytes (to_le_bytes n x).
Proof.
  revert x; induction n as [|n IH]; intros x; cbn [to_le_bytes]; [constructor|].
  constructor; [|apply IH]. apply wrap_is_u; lia.
Qed.
Lemma lookup_to_le_bytes n x i : (i < n)%nat →
  to_le_bytes n x !! i = Some (wrap 8 (Z.shiftr x (8 * Z.of_nat i))).
Proof.
  revert x i; induction n as [|n IH]; intros x i Hi; [lia|]. cbn [to_le_bytes].
  destruct i as [|i]; cbn [lookup list_lookup]; [by rewrite Z.shiftr_0_r|].
  rewrite IH by lia. rewrite Z.shiftr_shiftr by lia. do 3 f_equal. lia.
Qed.

(** The bits of a little-endian number are the bits of its bytes. *)
Lemma testbit_from_le_bytes l i : is_bytes l → 0 <= i →
  Z.testbit (from_le_bytes l) i =
  Z.testbit (default 0 (l !! Z.to_nat (i / 8))) (i `mod` 8).
Proof.
  intros Hl. revert i. induction Hl as [|b l Hb Hl IH]; intros i Hi; cbn [from_le_bytes].
  - by rewrite lookup_nil, !Z.bits_0.
  - rewrite Z.lor_spec, Z.shiftl_spec by lia. destruct (Z.lt_ge_cases i 8).
    + rewrite (Z.testbit_neg_r (from_le_bytes l)), orb_false_r by lia.
      rewrite Z.div_small, Z.mod_small by lia. done.
    + rewrite (testbit_u_high 8 b i) by (done || lia). cbn [orb]. rewrite IH by lia.
      replace (i `mod` 8) with ((i - 8) `mod` 8) by (Z.to_euclidean_division_equations; lia).
      assert (Z.to_nat (i / 8) = S (Z.to_nat ((i - 8) / 8))) as ->
        by (Z.to_euclidean_division_equations; lia).
      done.
Qed.
Lemma from_le_bytes_is_u l : is_bytes l → is_u (8 * Z.of_nat (length l)) (from_le_bytes l).
Proof.
  intros Hl. apply u_of_bits; [lia| |].
  - induction Hl as [|b l Hb Hl IH]; cbn [from_le_bytes]; [done|].
    apply Z.lor_nonneg. split; [apply Hb | by apply Z.shiftl_nonneg].
  - intros i Hi. rewrite testbit_from_le_bytes by (done || lia).
    rewrite lookup_ge_None_2; [by rewrite Z.bits_0|].
    Z.to_euclidean_division_equations; lia.
Qed.
Lemma from_to_le_bytes n x : from_le_bytes (to_le_bytes n x) = wrap (8 * Z.of_nat n) x.
Proof.
  apply Z.bits_inj'; intros i Hi.
  rewrite testbit_from_le_bytes, testbit_wrap by (apply to_le_bytes_is_bytes || lia).
  destruct (Z.ltb_spec i (8 * Z.of_nat n)).
  - rewrite lookup_to_le_bytes by (Z.to_euclidean_division_equations; lia). cbn [from_option id].
    rewrite testbit_wrap, Z.shiftr_spec by (Z.to_euclidean_division_equations; lia).
    case_cmps; [|Z.to_euclidean_division_equations; lia]. cbn [andb]. f_equal.
    Z.to_euclidean_division_equations; lia.
  - rewrite lookup_ge_None_2; [by rewrite Z.bits_0|].
    rewrite length_to_le_bytes. Z.to_euclidean_division_equations; lia.
Qed.
Lemma to_from_le_bytes l : is_bytes l → to_le_bytes (length l) (from_le_bytes l) = l.
Proof.
  intros Hl. induction Hl as [|b l Hb Hl IH]; [done|]. cbn [length to_le_bytes from_le_bytes].
  f_equal.
  - bitwise i Hi; [|by rewrite (testbit_u_high 8) by (done || lia)].
    rewrite (Z.testbit_neg_r (from_le_bytes l)) by lia. by rewrite orb_false_r.
  - etransitivity; [|exact IH]. f_equal. bitwise i Hi.
    rewrite (testbit_u_high 8 b) by (done || lia). cbn [orb]. f_equal. lia.
Qed.
Lemma from_le_bytes_inj l k : is_bytes l → is_bytes k → length l = length k →
  from_le_bytes l = from_le_bytes k → l = k.
Proof.
  intros Hl Hk Hlen H. rewrite <- (to_from_le_bytes l), <- (to_from_le_bytes k), Hlen, H; done.
Qed.
Lemma from_le_bytes_app l k : is_bytes l →
  from_le_bytes (l ++ k) =
  Z.lor (from_le_bytes l) (Z.shiftl (from_le_bytes k) (8 * Z.of_nat (length l))).
Proof.
  intros Hl. induction Hl as [|b l Hb Hl IH]; cbn [from_le_bytes app length].
  - by rewrite Z.shiftl_0_r.
  - rewrite IH, Z.shiftl_lor, Z.shiftl_shiftl, Z.lor_assoc by lia. do 2 f_equal. lia.
Qed.

Lemma is_bytes_reverse l : is_bytes l → is_bytes (reverse l).
Proof. apply Forall_reverse. Qed.
Lemma swap_bytes_is_u n x : is_u (8 * Z.of_nat n) (swap_bytes n x).
Proof.
  unfold swap_bytes. pose proof (from_le_bytes_is_u (reverse (to_le_bytes n x))
    (is_bytes_reverse _ (to_le_bytes_is_bytes n x))) as H.
  by rewrite length_reverse, length_to_le_bytes in H.
Qed.
(** Byte [i] of [swap_bytes x] is byte [n - 1 - i] of [x]. *)
Lemma testbit_swap_bytes n x i : 0 <= i < 8 * Z.of_nat n →
  Z.testbit (swap_bytes n x) i =
  Z.testbit x (8 * (Z.of_nat n - 1 - i / 8) + i `mod` 8).
Proof.
  intros Hi. unfold swap_bytes.
  rewrite testbit_from_le_bytes by (apply is_bytes_reverse, to_le_bytes_is_bytes || lia).
  rewrite reverse_lookup by (rewrite length_to_le_bytes; Z.to_euclidean_division_equations; lia).
  rewrite length_to_le_bytes, lookup_to_le_bytes by (Z.to_euclidean_division_equations; lia).
  cbn [from_option id]. rewrite testbit_wrap, Z.shiftr_spec by (Z.to_euclidean_division_equations; lia).
  case_cmps; [|Z.to_euclidean_division_equations; lia]. cbn [andb]. f_equal.
  Z.to_euclidean_division_equations; lia.
Qed.
Lemma swap_bytes_invol n x : swap_bytes n (swap_bytes n x) = wrap (8 * Z.of_nat n) x.
Proof.
  unfold swap_bytes at 1. replace (to_le_bytes n (swap_bytes n x)) with (reverse (to_le_bytes n x)).
  - by rewrite reverse_involutive, from_to_le_bytes.
  - unfold swap_bytes. rewrite <- (length_to_le_bytes n x) at 2. rewrite <- length_reverse.
    symmetry. apply to_from_le_bytes, is_bytes_reverse, to_le_bytes_is_bytes.
Qed.
