(* ===== verification/Utils.v ===== *)
(** * Bit and byte utilities

    Models [liblisa/src/utils/mod.rs] (endianness, sign extension, bit masks,
    bit deposition, little-endian decoding) and [liblisa/src/utils/cmov.rs].
    Each function is proved equal to a reference definition on the whole range
    of arguments on which the source neither panics nor loops. *)
From S2P Require Import Prelude MachInt.

Definition U64_MAX : Z := 2 ^ 64 - 1.
Definition U128_MAX : Z := 2 ^ 128 - 1.

Section utils.
Context {P : profile}.

Definition be_to_le_num_to_shift (num_bits : Z) : M Z :=
  k ← sub_u 64 64 num_bits; Ok (k `div` 8 * 8).

Definition switch_endianness_u64 (val num_bits : Z) : M Z :=
  k ← be_to_le_num_to_shift num_bits; shr 64 (swap_bytes 8 val) k.

Definition switch_endianness_u128 (val num_bits : Z) : M Z :=
  k ← sub_u 64 128 num_bits; shr 128 (swap_bytes 16 val) (k `div` 8 * 8).

Definition sign_extend (v n : Z) : M Z :=
  k ← sub_u 64 128 n; t ← shl_i 128 v k; shr 128 t k.

Definition sign_extend_u64 (v n : Z) : M Z :=
  k ← sub_u 64 64 n; t ← shl_u 64 v k; shr 64 (swrap 64 t) k.

Definition bitmask_u64 (n : Z) : M Z :=
  k ← sub_u 32 64 n;
  Ok (match checked_shr 64 U64_MAX k with Some val => val | None => 0 end).

Definition bitmask_u128 (n : Z) : M Z :=
  k ← sub_u 32 128 n;
  Ok (match checked_shr 128 U128_MAX k with Some val => val | None => 0 end).

(** The [while selector != 0] loop of [deposit_bits_u128]; the loop state is
    [(source, selector, dest, dest_bit)]. *)
Fixpoint deposit_bits_loop (fuel : nat) (source selector dest dest_bit : Z) : M Z :=
  if selector =? 0 then Ok dest else
  match fuel with
  | O => OutOfFuel
  | S fuel =>
      let bit_index := Z.of_nat (trailing_zeros 128 selector) in
      let bit := Z.land source 1 in
      k ← add_u 32 dest_bit bit_index;
      b ← shl_u 128 bit k;
      let dest := Z.lor dest b in
      dest_bit ← add_u 32 dest_bit (bit_index + 1);
      source ← shr 128 source 1;
      selector ← shr 128 selector (bit_index + 1);
      deposit_bits_loop fuel source selector dest dest_bit
  end.

Definition deposit_bits_u128 (source selector : Z) : M Z :=
  deposit_bits_loop 128 source selector 0 0.
End utils.

(** [create_from_le_bytes]: the two continuations are the arguments of the
    source; a shift such as [(bytes[2] as u32) << 16] cannot lose bits. *)
Definition slice {A} (l : list A) (start stop : nat) : list A := take (stop - start) (drop start l).

Definition create_from_le_bytes {T} (bytes : list Z) (process_u64 process_u128 : Z → M T) : M T :=
  let x64 s := from_le_bytes (slice bytes s (s + 8)) in
  let x32 s := from_le_bytes (slice bytes s (s + 4)) in
  let x16 s := from_le_bytes (slice bytes s (s + 2)) in
  let byte i := List.nth i bytes 0 in
  match length bytes with
  | 1 => process_u64 (byte 0)
  | 2 => process_u64 (x16 0)
  | 3 => process_u64 (Z.lor (x16 0) (Z.shiftl (byte 2) 16))
  | 4 => process_u64 (x32 0)
  | 5 => process_u64 (Z.lor (x32 0) (Z.shiftl (byte 4) 32))
  | 6 => process_u64 (Z.lor (x32 0) (Z.shiftl (x16 4) 32))
  | 7 => process_u64 (Z.lor (Z.lor (x32 0) (Z.shiftl (x16 4) 32)) (Z.shiftl (byte 6) 48))
  | 8 => process_u64 (x64 0)
  | 9 => process_u128 (Z.lor (x64 0) (Z.shiftl (byte 8) 64))
  | 10 => process_u128 (Z.lor (x64 0) (Z.shiftl (x16 8) 64))
  | 11 => process_u128 (Z.lor (Z.lor (x64 0) (Z.shiftl (x16 8) 64)) (Z.shiftl (byte 10) 80))
  | 12 => process_u128 (Z.lor (x64 0) (Z.shiftl (x32 8) 64))
  | 13 => process_u128 (Z.lor (Z.lor (x64 0) (Z.shiftl (x32 8) 64)) (Z.shiftl (byte 12) 96))
  | 14 => process_u128 (Z.lor (Z.lor (x64 0) (Z.shiftl (x32 8) 64)) (Z.shiftl (x16 12) 96))
  | 15 => process_u128 (Z.lor (Z.lor (Z.lor (x64 0) (Z.shiftl (x32 8) 64)) (Z.shiftl (x16 12) 96))
                          (Z.shiftl (byte 14) 112))
  | n => if (16 <=? n)%nat then process_u128 (Z.lor (x64 0) (Z.shiftl (x64 8) 64)) else Panic
  end%nat.

(** [CmovAnd] for [u64]. *)
Definition cmov_if_and_imm_zero (TEST self other value_to_test : Z) : Z :=
  if Z.land value_to_test TEST =? 0 then other else self.
Definition cmov_if_and_imm_nonzero (TEST self other value_to_test : Z) : Z :=
  if negb (Z.land value_to_test TEST =? 0) then other else self.

(** ** Sign extension and masks *)

Lemma sub_u_ok {P : profile} w a b : is_u w (a - b) → sub_u w a b = Ok (a - b).
Proof. intros. unfold sub_u. by rewrite bool_decide_true. Qed.
Lemma add_u_ok {P : profile} w a b : is_u w (a + b) → add_u w a b = Ok (a + b).
Proof. intros. unfold add_u. by rewrite bool_decide_true. Qed.
Lemma shr_ok {P : profile} w x k : k < w → shr w x k = Ok (Z.shiftr x k).
Proof. intros. unfold shr, shift_amount. by case_cmps. Qed.
Lemma shl_i_ok {P : profile} w x k : k < w → shl_i w x k = Ok (swrap w (Z.shiftl x k)).
Proof. intros. unfold shl_i, shift_amount. by case_cmps. Qed.
Lemma shl_u_ok {P : profile} w x k : k < w → shl_u w x k = Ok (wrap w (Z.shiftl x k)).
Proof. intros. unfold shl_u, shift_amount. by case_cmps. Qed.
#[export] Hint Rewrite @add_u_ok @sub_u_ok @shr_ok @shl_i_ok @shl_u_ok using (unfold is_u in *; lia) : rust.

Lemma sign_extend_ok {P : profile} v n : 1 <= n <= 128 → sign_extend v n = Ok (swrap n v).
Proof.
  intros Hn. unfold sign_extend. autorewrite with rust. f_equal.
  bitwise i Hi; f_equal; lia.
Qed.
Lemma sign_extend_u64_ok {P : profile} v n : 1 <= n <= 64 → sign_extend_u64 v n = Ok (swrap n v).
Proof.
  intros Hn. unfold sign_extend_u64. autorewrite with rust. f_equal.
  bitwise i Hi; f_equal; lia.
Qed.
Lemma bitmask_u64_ok {P : profile} n : 0 <= n <= 64 → bitmask_u64 n = Ok (Z.ones n).
Proof.
  intros Hn. unfold bitmask_u64, checked_shr. autorewrite with rust.
  replace U64_MAX with (Z.ones 64) by done.
  case_cmps; f_equal; [|by replace n with 0 by lia].
  bitwise i Hi; done.
Qed.
Lemma bitmask_u128_ok {P : profile} n : 0 <= n <= 128 → bitmask_u128 n = Ok (Z.ones n).
Proof.
  intros Hn. unfold bitmask_u128, checked_shr. autorewrite with rust.
  replace U128_MAX with (Z.ones 128) by done.
  case_cmps; f_equal; [|by replace n with 0 by lia].
  bitwise i Hi; done.
Qed.

(** ** Endianness *)

Definition bytes_for (num_bits : Z) : nat := Z.to_nat ((num_bits + 7) `div` 8).

Lemma shifted_swap_bytes (n m : nat) val : (m <= n)%nat →
  Z.shiftr (swap_bytes n val) (8 * (Z.of_nat n - Z.of_nat m)) = swap_bytes m val.
Proof.
  intros Hm. apply Z.bits_inj'; intros i Hi. rewrite Z.shiftr_spec by lia.
  destruct (Z.lt_ge_cases i (8 * Z.of_nat m)).
  - rewrite !testbit_swap_bytes by lia. f_equal. Z.to_euclidean_division_equations; lia.
  - rewrite (testbit_u_high _ _ _ (swap_bytes_is_u n val)) by lia.
    by rewrite (testbit_u_high _ _ _ (swap_bytes_is_u m val)) by lia.
Qed.
Lemma switch_endianness_u64_ok {P : profile} val num_bits : 1 <= num_bits <= 64 →
  switch_endianness_u64 val num_bits = Ok (swap_bytes (bytes_for num_bits) val).
Proof.
  intros Hn. unfold switch_endianness_u64, be_to_le_num_to_shift, bytes_for.
  autorewrite with rust.
  rewrite shr_ok by (Z.to_euclidean_division_equations; lia). f_equal.
  rewrite <- (shifted_swap_bytes 8 (Z.to_nat ((num_bits + 7) / 8))) by (Z.to_euclidean_division_equations; lia).
  f_equal. rewrite Z2Nat.id by (apply Z.div_pos; lia). Z.to_euclidean_division_equations; lia.
Qed.
Lemma switch_endianness_u128_ok {P : profile} val num_bits : 1 <= num_bits <= 128 →
  switch_endianness_u128 val num_bits = Ok (swap_bytes (bytes_for num_bits) val).
Proof.
  intros Hn. unfold switch_endianness_u128, bytes_for. autorewrite with rust.
  rewrite shr_ok by (Z.to_euclidean_division_equations; lia). f_equal.
  rewrite <- (shifted_swap_bytes 16 (Z.to_nat ((num_bits + 7) / 8))) by (Z.to_euclidean_division_equations; lia).
  f_equal. rewrite Z2Nat.id by (apply Z.div_pos; lia). Z.to_euclidean_division_equations; lia.
Qed.

(** ** Bit deposition *)

Lemma count_ones_0 x : count_ones 0 x = 0%nat.
Proof. done. Qed.
Lemma count_ones_pos w x k : (k < w)%nat → Z.testbit x (Z.of_nat k) = true → (0 < count_ones w x)%nat.
Proof.
  intros Hk Ht. assert (k ∈ ones w x) as Hin by (by apply elem_of_ones).
  unfold count_ones. destruct (ones w x); [by apply elem_of_nil in Hin | cbn; lia].
Qed.
Lemma count_ones_u_le w d x : is_u d x → 0 <= d <= Z.of_nat w →
  count_ones w x = count_ones (Z.to_nat d) x.
Proof.
  intros Hx Hd. replace w with (Z.to_nat d + (w - Z.to_nat d))%nat by lia.
  rewrite count_ones_app. assert (Z.shiftr x (Z.of_nat (Z.to_nat d)) = 0) as ->.
  { apply Z.bits_inj'; intros i Hi. by rewrite Z.shiftr_spec, (testbit_u_high d), Z.bits_0 by (done || lia). }
  unfold count_ones at 2. rewrite (proj2 (ones_nil _ 0)); [cbn; lia|]. intros; apply Z.bits_0.
Qed.

(** Splitting a selector at its lowest one bit. *)
Section lowest_one.
Context (w d : Z) (sel : Z) (Hw : 0 <= w) (Hsel : is_u w sel) (Hne : sel ≠ 0).
Let tz := trailing_zeros (Z.to_nat w) sel.
Lemma lowest_one_facts :
  (Z.of_nat tz < w) ∧ Z.testbit sel (Z.of_nat tz) = true ∧
  (∀ i, 0 <= i < Z.of_nat tz → Z.testbit sel i = false).
Proof using Hw Hsel Hne.
  destruct (trailing_zeros_nonzero (Z.to_nat w) sel) as (H1 & H2 & H3);
    [by rewrite Z2Nat.id | done | subst tz; split_and!; [lia | done..] ].
Qed.
Lemma count_ones_upto_lowest : count_ones (S tz) sel = 1%nat.
Proof using Hw Hsel Hne.
  destruct lowest_one_facts as (H1 & H2 & H3).
  replace (S tz) with (tz + 1)%nat by lia. rewrite count_ones_app. unfold count_ones.
  rewrite (proj2 (ones_nil tz sel)) by (intros; apply H3; lia).
  by rewrite ones_1, Z.shiftr_spec, Z.add_0_l, H2 by lia.
Qed.
Lemma count_ones_above_lowest n : (S tz <= n)%nat →
  count_ones n sel = S (count_ones (n - S tz) (Z.shiftr sel (Z.of_nat (S tz)))).
Proof using Hw Hsel Hne.
  intros. replace n with (S tz + (n - S tz))%nat at 1 by lia.
  by rewrite count_ones_app, count_ones_upto_lowest.
Qed.
End lowest_one.

Lemma is_u_shiftr_sub w k x : 0 <= k <= w → is_u w x → is_u (w - k) (Z.shiftr x k).
Proof.
  intros Hk Hx. apply u_of_bits; [lia | apply Z.shiftr_nonneg, Hx |].
  intros i Hi. rewrite Z.shiftr_spec by lia. apply (testbit_u_high w); [done | lia].
Qed.
Lemma testbit_land_1 x i : 0 <= i → Z.testbit (Z.land x 1) i = (i =? 0) && Z.testbit x 0.
Proof.
  intros. change 1 with (Z.ones 1). rewrite Z.land_spec, Z.testbit_ones_nonneg by lia.
  destruct (Z.eqb_spec i 0) as [->|]; case_cmps; cbn [andb];
    rewrite ?andb_true_r, ?andb_false_r; done.
Qed.
Lemma testbit_one_bit w x k i : 0 <= k < w → 0 <= i →
  Z.testbit (wrap w (Z.shiftl (Z.land x 1) k)) i = (i =? k) && Z.testbit x 0.
Proof.
  intros. rewrite testbit_wrap, Z.shiftl_spec by lia. destruct (Z.ltb_spec i k).
  - rewrite Z.testbit_neg_r by lia. by case_cmps.
  - rewrite testbit_land_1 by lia. case_cmps; bools.
Qed.

(** The facts about one iteration that the bit loops share: the shift amounts
    are in range and what is left of the selector has one bit less. *)
Section selector_step.
Context (d sel : Z) (Hd : 0 <= d <= 128) (Hsel : is_u (128 - d) sel) (Hne : sel ≠ 0).
Let tz := Z.of_nat (trailing_zeros 128 sel).
Lemma selector_is_u : is_u 128 sel.
Proof using Hd Hsel. apply (is_u_mono (128 - d)); [lia | done]. Qed.
Lemma selector_facts :
  0 <= tz ∧ d + tz + 1 <= 128 ∧ Z.testbit sel tz = true ∧
  (∀ i, 0 <= i < tz → Z.testbit sel i = false).
Proof using Hd Hsel Hne.
  destruct (lowest_one_facts 128 sel) as (H1 & H2 & H3); [lia | apply selector_is_u | done |].
  assert (tz < 128 - d); [|subst tz; split_and!; [lia | lia | done..]].
  destruct (Z.lt_ge_cases tz (128 - d)); [done|]. change (Z.to_nat 128) with 128%nat in H2.
  fold tz in H2. rewrite (testbit_u_high (128 - d)) in H2 by (done || lia). done.
Qed.
Lemma selector_shift_ok : 0 < d ∨ sel ≠ 2 ^ 127 → tz + 1 < 128.
Proof using Hd Hsel Hne.
  destruct selector_facts as (H0 & H1 & H2 & H3). intros [?|Hn]; [lia|].
  destruct (decide (tz = 127)) as [E|]; [|lia]. exfalso. apply Hn.
  apply (u_ext 128); [lia | apply selector_is_u | done |]. intros i Hi.
  rewrite Z.pow2_bits_eqb by lia. destruct (Z.eqb_spec 127 i) as [<-|]; [by rewrite <- E|].
  apply H3; lia.
Qed.
Lemma selector_rest_is_u : is_u (128 - (d + (tz + 1))) (Z.shiftr sel (tz + 1)).
Proof using Hd Hsel Hne.
  destruct selector_facts as (H0 & H1 & _). replace (128 - (d + (tz + 1))) with ((128 - d) - (tz + 1)) by lia.
  apply is_u_shiftr_sub; [lia | done].
Qed.
Lemma selector_rank i : tz + 1 <= i →
  count_ones (Z.to_nat i) sel =
  S (count_ones (Z.to_nat (i - (tz + 1))) (Z.shiftr sel (tz + 1))).
Proof using Hd Hsel Hne.
  intros Hi. pose proof (count_ones_above_lowest 128 sel ltac:(lia) selector_is_u Hne (Z.to_nat i)) as H.
  change (Z.to_nat 128) with 128%nat in H. destruct selector_facts as (H0 & _).
  rewrite H by lia. do 2 f_equal; [lia|f_equal; lia].
Qed.
Lemma selector_fuel n : (count_ones 128 sel <= S n)%nat →
  (count_ones 128 (Z.shiftr sel (tz + 1)) <= n)%nat.
Proof using Hd Hsel Hne.
  intros Hf. destruct selector_facts as (H0 & H1 & _).
  change 128%nat with (Z.to_nat 128) in Hf at 1. rewrite selector_rank in Hf by lia.
  rewrite (count_ones_u_le 128 (128 - (tz + 1))); [lia | | lia].
  apply is_u_shiftr_sub; [lia | apply selector_is_u].
Qed.
End selector_step.

Section deposit.
Context {P : profile}.

(** The bits the loop still has to write, from position [d] on. *)
Definition deposit_rest (d sel source i : Z) : bool :=
  (d <=? i) && Z.testbit sel (i - d) &&
  Z.testbit source (Z.of_nat (count_ones (Z.to_nat (i - d)) sel)).

Lemma deposit_rest_step d sel source i :
  0 <= d <= 128 → is_u (128 - d) sel → sel ≠ 0 → 0 <= i →
  let tz := Z.of_nat (trailing_zeros 128 sel) in
  deposit_rest d sel source i =
  (i =? d + tz) && Z.testbit source 0 ||
  deposit_rest (d + (tz + 1)) (Z.shiftr sel (tz + 1)) (Z.shiftr source 1) i.
Proof.
  intros Hd Hsel Hne Hi tz. destruct (selector_facts d sel Hd Hsel Hne) as (H0 & H1 & H2 & H3).
  fold tz in H0, H1, H2, H3. unfold deposit_rest. destruct (Z.leb_spec (d + (tz + 1)) i).
  - rewrite !Z.shiftr_spec by lia. case_cmps. cbn [andb orb].
    replace (i - (d + (tz + 1)) + (tz + 1)) with (i - d) by lia. f_equal.
    rewrite (selector_rank d sel Hd Hsel Hne (i - d)) by (fold tz; lia). fold tz.
    f_equal. rewrite Nat2Z.inj_succ. replace (i - d - (tz + 1)) with (i - (d + (tz + 1))) by lia. lia.
  - cbn [andb]. rewrite orb_false_r. destruct (Z.eqb_spec i (d + tz)) as [->|Hne'].
    + case_cmps. replace (d + tz - d) with tz by lia. rewrite H2. cbn [andb].
      unfold count_ones. rewrite (proj2 (ones_nil (Z.to_nat tz) sel)); [done|].
      intros; apply H3; lia.
    + case_cmps; [|done]. rewrite H3 by lia. done.
Qed.

Lemma deposit_bits_loop_0 fuel source dest d : deposit_bits_loop fuel source 0 dest d = Ok dest.
Proof. by destruct fuel. Qed.
Lemma deposit_bits_loop_S fuel source sel dest d : sel ≠ 0 →
  deposit_bits_loop (S fuel) source sel dest d =
  (k ← add_u 32 d (Z.of_nat (trailing_zeros 128 sel));
   b ← shl_u 128 (Z.land source 1) k;
   d' ← add_u 32 d (Z.of_nat (trailing_zeros 128 sel) + 1);
   source' ← shr 128 source 1;
   sel' ← shr 128 sel (Z.of_nat (trailing_zeros 128 sel) + 1);
   deposit_bits_loop fuel source' sel' (Z.lor dest b) d').
Proof. intros H. apply Z.eqb_neq in H. cbn [deposit_bits_loop]. by rewrite H. Qed.

Lemma deposit_bits_loop_ok fuel : ∀ source sel dest d,
  0 <= d <= 128 → is_u (128 - d) sel → 0 < d ∨ sel ≠ 2 ^ 127 →
  (count_ones 128 sel <= fuel)%nat → 0 <= source →
  ∃ r, deposit_bits_loop fuel source sel dest d = Ok r ∧
    ∀ i, 0 <= i → Z.testbit r i = Z.testbit dest i || deposit_rest d sel source i.
Proof.
  induction fuel as [|fuel IH]; intros source sel dest d Hd Hsel Hok Hf Hs;
    destruct (decide (sel = 0)) as [->|Hne].
  1,3: exists dest; split; [apply deposit_bits_loop_0|]; intros i Hi; unfold deposit_rest;
       rewrite Z.bits_0; case_cmps; cbn [andb]; by rewrite orb_false_r.
  - exfalso. destruct (selector_facts d sel Hd Hsel Hne) as (_ & H1 & H2 & _).
    pose proof (count_ones_pos 128 sel (trailing_zeros 128 sel) ltac:(lia) H2). lia.
  - pose proof (selector_facts d sel Hd Hsel Hne) as (H0 & H1 & _).
    pose proof (selector_shift_ok d sel Hd Hsel Hne Hok) as Hsh.
    rewrite deposit_bits_loop_S by done.
    set (tz := Z.of_nat (trailing_zeros 128 sel)) in *.
    autorewrite with rust.
    edestruct (IH (Z.shiftr source 1) (Z.shiftr sel (tz + 1))
      (Z.lor dest (wrap 128 (Z.shiftl (Z.land source 1) (d + tz)))) (d + (tz + 1))) as (r & Hr & Hbits).
    + lia.
    + by apply selector_rest_is_u.
    + lia.
    + by apply (selector_fuel d).
    + by apply Z.shiftr_nonneg.
    + exists r. split; [done|]. intros i Hi.
      rewrite Hbits, (deposit_rest_step d sel) by done. fold tz.
      rewrite Z.lor_spec, testbit_one_bit, orb_assoc by lia. done.
Qed.

(** [deposit_bits_u128] is PDEP: for every selector but [1 << 127] the
    loop ends without a panic in either profile, and bit [i] of the result is
    set exactly when bit [i] of the selector is and the source bit numbered by
    the selector bits below [i] is. *)
Theorem deposit_bits_u128_spec source selector :
  is_u 128 source → is_u 128 selector → selector ≠ 2 ^ 127 →
  ∃ r, deposit_bits_u128 source selector = Ok r ∧ is_u 128 r ∧
    ∀ i, (i < 128)%nat → Z.testbit r (Z.of_nat i) =
      Z.testbit selector (Z.of_nat i) && Z.testbit source (Z.of_nat (count_ones i selector)).
Proof.
  intros Hs Hsel Hne.
  destruct (deposit_bits_loop_ok 128 source selector 0 0) as (r & Hr & Hb);
    [lia | done | by right | apply count_ones_le | apply Hs |].
  exists r. split; [done|]. split.
  - apply u_of_bits; [lia| |].
    + apply Z.bits_iff_nonneg_ex. exists 128. intros i Hi. rewrite Hb by lia. unfold deposit_rest.
      rewrite Z.bits_0, (testbit_u_high 128 selector) by (done || lia). by rewrite andb_false_r.
    + intros i Hi. rewrite Hb by lia. unfold deposit_rest.
      rewrite Z.bits_0, (testbit_u_high 128 selector) by (done || lia). by rewrite andb_false_r.
  - intros i Hi. rewrite Hb by lia. unfold deposit_rest. rewrite Z.bits_0, Z.sub_0_r, Nat2Z.id.
    case_cmps. done.
Qed.
End deposit.

Lemma deposit_bits_u128_spec_witness :
  ∃ r, deposit_bits_u128 (P:=Dev) 0xB 0xC9 = Ok r ∧ r = 0x89.
Proof.
  destruct (deposit_bits_u128_spec (P:=Dev) 0xB 0xC9) as (r & Hr & _);
    [split; [lia | reflexivity] | split; [lia | reflexivity] | discriminate |].
  exists r. split; [exact Hr|]. vm_compute in Hr. congruence.
Defined.


(** In the [release] profile the checked operations always return. *)
Lemma add_u_release w a b : ∃ c, add_u (P:=Release) w a b = Ok c.
Proof. unfold add_u. case_bool_decide; eauto. Qed.
Lemma shl_u_release w x k : ∃ c, shl_u (P:=Release) w x k = Ok c.
Proof. unfold shl_u, shift_amount. case_cmps; eauto. Qed.

(** With the selector [1 << 127] the final shift of [deposit_bits_u128] is by
    the full width: the [dev] build panics, and the [release] build masks the
    amount to zero and never leaves the loop, whatever the source. *)
Theorem deposit_bits_u128_top_selector source :
  deposit_bits_u128 (P:=Dev) source (2 ^ 127) = Panic ∧
  ∀ fuel, deposit_bits_loop (P:=Release) fuel source (2 ^ 127) 0 0 = OutOfFuel.
Proof.
  assert (Z.of_nat (trailing_zeros 128 (2 ^ 127)) = 127) as Htz by reflexivity.
  split.
  - unfold deposit_bits_u128. rewrite deposit_bits_loop_S, Htz by done.
    by autorewrite with rust.
  - intros fuel. generalize 0 at 2 as d. generalize 0 as dest.
    revert source. induction fuel as [|fuel IH]; intros source dest d; [done|].
    rewrite deposit_bits_loop_S, Htz by done.
    destruct (add_u_release 32 d 127) as [k ->].
    destruct (shl_u_release 128 (Z.land source 1) k) as [b Hb].
    destruct (add_u_release 32 d (127 + 1)) as [d' ->].
    rewrite !M_bind_Ok, Hb, !M_bind_Ok, (shr_ok 128 source 1), M_bind_Ok by lia.
    assert (shr (P:=Release) 128 (2 ^ 127) (127 + 1) = Ok (2 ^ 127)) as -> by reflexivity.
    apply IH.
Qed.

(** ** Little-endian decoding *)

Lemma create_from_le_bytes_eq {T} (bytes : list Z) (process_u64 process_u128 : Z → M T) :
  create_from_le_bytes bytes process_u64 process_u128 =
  if (length bytes =? 0)%nat then Panic
  else if (length bytes <=? 8)%nat then process_u64 (from_le_bytes bytes)
  else process_u128 (from_le_bytes (take 16 bytes)).
Proof.
  do 16 (destruct bytes as [|? bytes];
    [cbn -[Z.lor Z.shiftl]; rewrite ?Z.shiftl_0_l, ?Z.lor_0_r, ?Z.shiftl_lor, ?Z.shiftl_shiftl, ?Z.lor_assoc
      by lia; reflexivity|]).
  cbn -[Z.lor Z.shiftl take]. destruct bytes; unfold slice;
  cbn -[Z.lor Z.shiftl]; rewrite ?Z.shiftl_0_l, ?Z.lor_0_r, ?Z.shiftl_lor, ?Z.shiftl_shiftl, ?Z.lor_assoc
      by lia; reflexivity.
Qed.

(** [create_from_le_bytes] decodes every non-empty byte string of up to 16
    bytes to its little-endian value: through [process_u64] up to 8 bytes,
    through [process_u128] from 9 to 16 bytes.  Longer strings use their first
    16 bytes, the empty string panics. *)
Theorem create_from_le_bytes_spec {T} (bytes : list Z) (process_u64 process_u128 : Z → M T) :
  create_from_le_bytes bytes process_u64 process_u128 =
  if (length bytes =? 0)%nat then Panic
  else if (length bytes <=? 8)%nat then process_u64 (from_le_bytes bytes)
  else process_u128 (from_le_bytes (take 16 bytes)).
Proof. apply create_from_le_bytes_eq. Qed.
