(* ===== verification/Ops.v ===== *)
(** * Operations of expressions

    Models [liblisa/src/semantics/default/ops.rs]: the [Op] instruction set, the
    [FastOpImpl] combinators with their [compute] functions on [i128], and
    [Op::eval_from_stack], one step of the stack machine.  An [i128] is a [Z];
    the conversion, overflow and shift behaviour of each operation is written
    out with the definitions of MachInt. *)
From S2P Require Import Prelude MachInt Utils.

(** ** The instruction set *)

Inductive Op :=
| Hole (n : nat)
| Const (v : Z)
| Not
| Crop (num_bits : Z)
| SignExtend (num_bits : Z)
| Select (num_skip num_take : Z)
| Parity
| IsZero
| ByteMask
| BitMask
| TrailingZeros
| LeadingZeros
| PopCount
| SwapBytes (num_bits : Z)
| Add | Sub | Mul | CarrylessMul
| Div | UnsignedDiv | Rem | UnsignedRem
| Shl | Shr
| And | Or | Xor
| CmpLt
| Rol (num_bits : Z)
| DepositBits | ExtractBits
| IfZero.

#[export] Instance Op_eq_dec : EqDecision Op.
Proof. solve_decision. Defined.

Definition num_args (o : Op) : nat :=
  match o with
  | Hole _ | Const _ => 0
  | Not | IsZero | Crop _ | Select _ _ | Parity | SignExtend _ | ByteMask | BitMask
  | TrailingZeros | LeadingZeros | PopCount | SwapBytes _ => 1
  | Add | Sub | Mul | CarrylessMul | Div | UnsignedDiv | Rem | UnsignedRem | Shl | Shr
  | And | Or | Xor | CmpLt | Rol _ | DepositBits | ExtractBits => 2
  | IfZero => 3
  end.

Definition is_commutative (o : Op) : bool :=
  match o with Add | Mul | And | Or | Xor => true | _ => (num_args o <=? 1)%nat end.

Definition is_associative (o : Op) : bool :=
  match o with Add | Mul | And | Or | Xor => true | _ => (num_args o <=? 1)%nat end.

Definition const_default : Op := Hole 0.

(** ** The [compute] function of each operation, on evaluated arguments *)

Section compute.
Context {P : profile}.

Definition bool_as_i128 (b : bool) : Z := if b then 1 else 0.

Definition not_op (a : Z) : M Z := Ok (Z.lnot a).

(** [(1i128 << n) - 1]. *)
Definition low_mask (n : Z) : M Z := t ← shl_i 128 1 n; sub_i 128 t 1.

Definition crop_op (num_bits a : Z) : M Z := m ← low_mask num_bits; Ok (Z.land a m).

Definition sign_extend_op (num_bits a : Z) : M Z :=
  m ← low_mask num_bits; sign_extend (Z.land a m) num_bits.

Definition select_op (num_skip num_take a : Z) : M Z :=
  t ← shr 128 a num_skip; m ← low_mask num_take; Ok (Z.land t m).

Definition parity_op (a : Z) : M Z :=
  Ok (Z.of_nat ((count_ones 8 (wrap 8 a) + 1) mod 2)).

Definition is_zero_op (a : Z) : M Z := Ok (bool_as_i128 (a =? 0)).

Definition byte_mask_step (v acc : Z) (i : nat) : Z :=
  Z.lor acc (swrap 128 (Z.shiftl (Z.land (Z.shiftr v (Z.of_nat i * 8 + 7)) 1) (Z.of_nat i))).
Definition byte_mask_op (v : Z) : M Z := Ok (foldl (byte_mask_step v) 0 (seq 0 16)).

Definition bit_mask_op (v : Z) : M Z :=
  Ok (if 128 <=? v then -1 else swrap 128 (wrapping_shl_i 128 1 (wrap 32 v) - 1)).

Definition trailing_zeros_op (a : Z) : M Z := Ok (Z.of_nat (trailing_zeros 128 a)).
Definition leading_zeros_op (a : Z) : M Z := Ok (Z.of_nat (leading_zeros 128 a)).
Definition popcount_op (a : Z) : M Z := Ok (Z.of_nat (count_ones 128 a)).

(** [i128::swap_bytes] followed by an arithmetic shift; [128 - num_bits] is
    computed on [u8]. *)
Definition swap_bytes_op (num_bits a : Z) : M Z :=
  k ← sub_u 8 128 num_bits;
  shr 128 (swrap 128 (swap_bytes 16 a)) (k `div` 8 * 8).

Definition add_op (a b : Z) : M Z := Ok (swrap 128 (a + b)).
Definition sub_op (a b : Z) : M Z := Ok (swrap 128 (a - b)).
Definition mul_op (a b : Z) : M Z := Ok (swrap 128 (a * b)).

Definition carryless_mul_step (x y result : Z) (i : nat) : Z :=
  if negb (Z.land (Z.shiftr x (Z.of_nat i)) 1 =? 0)
  then Z.lxor result (swrap 128 (Z.shiftl y (Z.of_nat i))) else result.
Definition carryless_mul_op (x y : Z) : M Z := Ok (foldl (carryless_mul_step x y) 0 (seq 0 128)).

Definition div_op (a b : Z) : M Z := Ok (if b =? 0 then 0 else swrap 128 (Z.quot a b)).
Definition unsigned_div_op (a b : Z) : M Z :=
  let a := wrap 128 a in let b := wrap 128 b in
  Ok (if b =? 0 then 0 else swrap 128 (a `div` b)).
Definition rem_op (a b : Z) : M Z := Ok (if b =? 0 then 0 else Z.rem a b).
Definition unsigned_rem_op (a b : Z) : M Z :=
  let a := wrap 128 a in let b := wrap 128 b in
  Ok (if b =? 0 then 0 else swrap 128 (a `mod` b)).

Definition shl_op (a b : Z) : M Z := Ok (wrapping_shl_i 128 a (wrap 32 b)).
Definition shr_op (a b : Z) : M Z := Ok (wrapping_shr_i 128 a (wrap 32 b)).
Definition and_op (a b : Z) : M Z := Ok (Z.land a b).
Definition or_op (a b : Z) : M Z := Ok (Z.lor a b).
Definition xor_op (a b : Z) : M Z := Ok (Z.lxor a b).
Definition cmp_lt_op (a b : Z) : M Z := Ok (bool_as_i128 (a <? b)).

(** [compute_rol]: [128 - num_bits] is on [u8], a remainder by zero panics in
    both profiles, and the shifts are those of [i128]. *)
Definition compute_rol (val n num_bits : Z) : M Z :=
  k ← sub_u 8 128 num_bits;
  t ← shr 128 U128_MAX k;
  let mask := swrap 128 t in
  let a := Z.land val mask in
  assert! negb (num_bits =? 0);
  let n := wrap 32 n `mod` num_bits in
  m ← sub_u 32 num_bits n;
  Ok (Z.land (Z.lor (wrapping_shl_i 128 a n) (wrapping_shr_i 128 a m)) mask).

Definition deposit_bits_op (a b : Z) : M Z :=
  r ← deposit_bits_u128 (wrap 128 a) (wrap 128 b); Ok (swrap 128 r).

(** The [while selector != 0] loop of [ExtractBitsOp::compute]. *)
Fixpoint extract_bits_loop (fuel : nat) (source selector dest dest_bit : Z) : M Z :=
  if selector =? 0 then Ok dest else
  match fuel with
  | O => OutOfFuel
  | S fuel =>
      let bit_index := Z.of_nat (trailing_zeros 128 selector) in
      source ← shr 128 source bit_index;
      let bit := Z.land source 1 in
      selector ← shr 128 selector (bit_index + 1);
      source ← shr 128 source 1;
      b ← shl_u 128 bit dest_bit;
      let dest := Z.lor dest b in
      dest_bit ← add_u 32 dest_bit 1;
      extract_bits_loop fuel source selector dest dest_bit
  end.

Definition extract_bits_op (a b : Z) : M Z :=
  r ← extract_bits_loop 128 (wrap 128 a) (wrap 128 b) 0 0; Ok (swrap 128 r).

Definition if_zero_op (condition zero nonzero : Z) : M Z :=
  Ok (if condition =? 0 then zero else nonzero).
End compute.

(** ** The stack machine: one operation

    The stack is an [ArrayVec] of capacity [N], kept with its last element
    first; the topmost value is held apart, as in the source. *)
Definition push (N : nat) (stack : list Z) (x : Z) : M (list Z) :=
  if (length stack <? N)%nat then Ok (x :: stack) else Panic.
Definition pop (stack : list Z) : M (Z * list Z) :=
  match stack with [] => Panic | x :: stack => Ok (x, stack) end.

Definition unop (f : Z → M Z) (top : Z) (stack : list Z) : M (Z * list Z) :=
  r ← f top; Ok (r, stack).
Definition binop (f : Z → Z → M Z) (top : Z) (stack : list Z) : M (Z * list Z) :=
  '(a, stack) ← pop stack; r ← f a top; Ok (r, stack).

Definition eval_from_stack {P : profile} (N : nat) (o : Op) (args : nat → M Z)
    (top : Z) (stack : list Z) : M (Z * list Z) :=
  match o with
  | Const v => stack ← push N stack top; Ok (v, stack)
  | Hole n => stack ← push N stack top; v ← args n; Ok (v, stack)
  | Add => binop add_op top stack
  | Sub => binop sub_op top stack
  | Mul => binop mul_op top stack
  | CarrylessMul => binop carryless_mul_op top stack
  | Div => binop div_op top stack
  | UnsignedDiv => binop unsigned_div_op top stack
  | Rem => binop rem_op top stack
  | UnsignedRem => binop unsigned_rem_op top stack
  | Shl => binop shl_op top stack
  | Shr => binop shr_op top stack
  | And => binop and_op top stack
  | Or => binop or_op top stack
  | Xor => binop xor_op top stack
  | CmpLt => binop cmp_lt_op top stack
  | Rol num_bits => binop (λ a b, compute_rol a b num_bits) top stack
  | DepositBits => binop deposit_bits_op top stack
  | ExtractBits => binop extract_bits_op top stack
  | Not => unop not_op top stack
  | Parity => unop parity_op top stack
  | IsZero => unop is_zero_op top stack
  | Crop num_bits => unop (crop_op num_bits) top stack
  | SignExtend num_bits => unop (sign_extend_op num_bits) top stack
  | Select num_skip num_take => unop (select_op num_skip num_take) top stack
  | IfZero =>
      '(zero, stack) ← pop stack;
      '(condition, stack) ← pop stack;
      r ← if_zero_op condition zero top; Ok (r, stack)
  | ByteMask => unop byte_mask_op top stack
  | BitMask => unop bit_mask_op top stack
  | TrailingZeros => unop trailing_zeros_op top stack
  | LeadingZeros => unop leading_zeros_op top stack
  | PopCount => unop popcount_op top stack
  | SwapBytes num_bits => unop (swap_bytes_op num_bits) top stack
  end.

(** ** The [FastOpImpl] trees

    One constructor per implementing struct; [compute] is the trait method. *)
Inductive FastOp :=
| Val (v : Z)
| HoleOp (INDEX : nat)
| ConstOp (CONST : Z)
| NotOp (V : FastOp)
| CropOp (NUM_BITS : Z) (V : FastOp)
| SignExtendOp (NUM_BITS : Z) (V : FastOp)
| SelectOp (NUM_SKIP NUM_TAKE : Z) (V : FastOp)
| ParityOp (V : FastOp)
| IsZeroOp (V : FastOp)
| ByteMaskOp (V : FastOp)
| BitMaskOp (V : FastOp)
| TrailingZerosOp (V : FastOp)
| LeadingZerosOp (V : FastOp)
| PopCountOp (V : FastOp)
| SwapBytesOp (NUM_BITS : Z) (V : FastOp)
| AddOp (V W : FastOp)
| SubOp (V W : FastOp)
| MulOp (V W : FastOp)
| CarrylessMulOp (V W : FastOp)
| DivOp (V W : FastOp)
| UnsignedDivOp (V W : FastOp)
| RemOp (V W : FastOp)
| UnsignedRemOp (V W : FastOp)
| ShlOp (V W : FastOp)
| ShrOp (V W : FastOp)
| AndOp (V W : FastOp)
| OrOp (V W : FastOp)
| XorOp (V W : FastOp)
| CmpLtOp (V W : FastOp)
| RolOp (NUM_BITS : Z) (V W : FastOp)
| IfZeroOp (COND ZERO NZERO : FastOp)
| DepositBitsOp (V W : FastOp)
| ExtractBitsOp (V W : FastOp).

Definition un (f : Z → M Z) (a : M Z) : M Z := a ← a; f a.
Definition bin (f : Z → Z → M Z) (a b : M Z) : M Z := a ← a; b ← b; f a b.

Fixpoint compute {P : profile} (e : FastOp) (args : nat → M Z) : M Z :=
  match e with
  | Val v => Ok v
  | HoleOp n => args n
  | ConstOp v => Ok v
  | NotOp v => un not_op (compute v args)
  | CropOp n v => un (crop_op n) (compute v args)
  | SignExtendOp n v => un (sign_extend_op n) (compute v args)
  | SelectOp s t v => un (select_op s t) (compute v args)
  | ParityOp v => un parity_op (compute v args)
  | IsZeroOp v => un is_zero_op (compute v args)
  | ByteMaskOp v => un byte_mask_op (compute v args)
  | BitMaskOp v => un bit_mask_op (compute v args)
  | TrailingZerosOp v => un trailing_zeros_op (compute v args)
  | LeadingZerosOp v => un leading_zeros_op (compute v args)
  | PopCountOp v => un popcount_op (compute v args)
  | SwapBytesOp n v => un (swap_bytes_op n) (compute v args)
  | AddOp v w => bin add_op (compute v args) (compute w args)
  | SubOp v w => bin sub_op (compute v args) (compute w args)
  | MulOp v w => bin mul_op (compute v args) (compute w args)
  | CarrylessMulOp v w => bin carryless_mul_op (compute v args) (compute w args)
  | DivOp v w => bin div_op (compute v args) (compute w args)
  | UnsignedDivOp v w => bin unsigned_div_op (compute v args) (compute w args)
  | RemOp v w => bin rem_op (compute v args) (compute w args)
  | UnsignedRemOp v w => bin unsigned_rem_op (compute v args) (compute w args)
  | ShlOp v w => bin shl_op (compute v args) (compute w args)
  | ShrOp v w => bin shr_op (compute v args) (compute w args)
  | AndOp v w => bin and_op (compute v args) (compute w args)
  | OrOp v w => bin or_op (compute v args) (compute w args)
  | XorOp v w => bin xor_op (compute v args) (compute w args)
  | CmpLtOp v w => bin cmp_lt_op (compute v args) (compute w args)
  | RolOp n v w => bin (λ a b, compute_rol a b n) (compute v args) (compute w args)
  | IfZeroOp c z nz =>
      c ← compute c args; z ← compute z args; nz ← compute nz args; if_zero_op c z nz
  | DepositBitsOp v w => bin deposit_bits_op (compute v args) (compute w args)
  | ExtractBitsOp v w => bin extract_bits_op (compute v args) (compute w args)
  end.
