(* ===== verification/OpsFacts.v ===== *)
(** * Theorems about the operations

    The results of the operations of Ops: they stay in [i128], the stack
    machine consumes [num_args] values and produces one, the operations declared
    commutative and associative are so, rotation, bit extraction, byte swapping
    and carry-less multiplication meet their bit-level specification, and the
    arguments at which an operation panics or departs from its documentation. *)
From S2P Require Import Prelude MachInt Utils Ops.
#[local] Opaque ones.

(** ** Masks *)

Lemma low_mask_ok {P : profile} n : 0 <= n <= 126 → low_mask n = Ok (Z.ones n).
Proof.
  intros Hn. unfold low_mask. rewrite shl_i_ok, M_bind_Ok, Z.shiftl_1_l by lia.
  assert (2 ^ n <= 2 ^ 126) by (apply Z.pow_le_mono_r; lia). pose proof (pow2_pos n ltac:(lia)).
  rewrite swrap_small by (lia || (split; [change (2 ^ (128 - 1)) with (2 * 2 ^ 126); lia|];
    change (2 ^ (128 - 1)) with (2 * 2 ^ 126); lia)).
  unfold sub_i. rewrite bool_decide_true; [|split; change (2 ^ (128 - 1)) with (2 * 2 ^ 126); lia].
  rewrite Z.ones_equiv. f_equal; lia.
Qed.
Lemma low_mask_bad n : 127 <= n → low_mask (P:=Dev) n = Panic.
Proof.
  intros Hn. unfold low_mask, shl_i, shift_amount. case_cmps; [|done].
  replace n with 127 by lia. reflexivity.
Qed.
Lemma land_ones_wrap a n : 0 <= n → Z.land a (Z.ones n) = wrap n a.
Proof. apply Z.land_ones. Qed.

Section masks.
Context {P : profile}.
Lemma crop_op_ok n a : 0 <= n <= 126 → crop_op n a = Ok (wrap n a).
Proof. intros. unfold crop_op. by rewrite low_mask_ok, M_bind_Ok, land_ones_wrap by lia. Qed.
Lemma sign_extend_op_ok n a : 1 <= n <= 126 → sign_extend_op n a = Ok (swrap n a).
Proof.
  intros. unfold sign_extend_op. rewrite low_mask_ok, M_bind_Ok, land_ones_wrap by lia.
  rewrite sign_extend_ok by lia. f_equal. apply swrap_wrap; lia.
Qed.
Lemma select_op_ok s t a : 0 <= s < 128 → 0 <= t <= 126 →
  select_op s t a = Ok (wrap t (Z.shiftr a s)).
Proof.
  intros. unfold select_op. rewrite shr_ok, M_bind_Ok by lia.
  by rewrite low_mask_ok, M_bind_Ok, land_ones_wrap by lia.
Qed.

(** Up to 126 bits, [Crop], [SignExtend] and [Select] compute what their
    documentation says, in both profiles: the low bits, the signed reading of
    the low bits, and the selected bit field. *)
Theorem mask_ops_spec n skip a :
  1 <= n <= 126 → 0 <= skip < 128 →
  crop_op n a = Ok (wrap n a) ∧ sign_extend_op n a = Ok (swrap n a) ∧
  select_op skip n a = Ok (wrap n (Z.shiftr a skip)).
Proof.
  intros Hn Hs. split_and!; [apply crop_op_ok | apply sign_extend_op_ok | apply select_op_ok]; lia.
Qed.
End masks.

Lemma mask_ops_spec_witness :
  crop_op (P:=Dev) 8 (-1) = Ok 255 ∧ sign_extend_op (P:=Dev) 8 0x1ff = Ok (-1) ∧
  select_op (P:=Dev) 4 8 0xabcd = Ok 0xbc.
Proof.
  split_and!.
  - apply (mask_ops_spec (P:=Dev) 8 4 (-1)); lia.
  - apply (mask_ops_spec (P:=Dev) 8 4 0x1ff); lia.
  - apply (mask_ops_spec (P:=Dev) 8 4 0xabcd); lia.
Defined.

(** [Crop { num_bits: 128 }], which should keep all 128 bits, panics in the
    [dev] profile and returns 0 for every argument in [release], because
    [1i128 << 128] overflows; [num_bits: 127] panics in [dev]. *)
Theorem crop_full_width a :
  crop_op (P:=Dev) 128 a = Panic ∧ crop_op (P:=Release) 128 a = Ok 0 ∧
  crop_op (P:=Dev) 127 a = Panic ∧ crop_op (P:=Release) 127 a = Ok (wrap 127 a).
Proof.
  unfold crop_op. split_and!; try by rewrite low_mask_bad by lia.
  - change (low_mask (P:=Release) 128) with (Ok 0). cbn [mbind M_bind]. by rewrite Z.land_0_r.
  - assert (low_mask (P:=Release) 127 = Ok (Z.ones 127)) as -> by reflexivity.
    rewrite M_bind_Ok. f_equal. by apply land_ones_wrap.
Qed.

(** ** Results stay in [i128] *)

Notation i128 := (is_i 128) (only parsing).

Definition op_wf (o : Op) : Prop :=
  match o with
  | Const v => is_i 8 v
  | Crop n | SignExtend n | SwapBytes n | Rol n => is_u 8 n
  | Select s t => is_u 8 s ∧ is_u 8 t
  | _ => True
  end.

Lemma i128_small x : 0 <= x < 2 ^ 126 → i128 x.
Proof. intros. split; change (2 ^ (128 - 1)) with (2 * 2 ^ 126); lia. Qed.
Lemma i128_swrap x : i128 (swrap 128 x).
Proof. apply swrap_is_i; lia. Qed.
Lemma i128_of_nat n : (n <= 256)%nat → i128 (Z.of_nat n).
Proof. intros. apply i128_small. lia. Qed.
Lemma i128_land a b : i128 a → i128 b → i128 (Z.land a b).
Proof. apply is_i_land; lia. Qed.
Lemma i128_bool b : i128 (bool_as_i128 b).
Proof. apply i128_small. destruct b; cbn; lia. Qed.
Lemma i128_foldl {A} (f : Z → A → Z) l a :
  (∀ x y, i128 x → i128 (f x y)) → i128 a → i128 (foldl f a l).
Proof. intros Hf. revert a. induction l; cbn; auto. Qed.
Create HintDb i128.
#[export] Hint Resolve i128_swrap i128_land i128_bool : i128.

Section closed.
Context {P : profile}.

Lemma shr_closed x k r : 0 <= k → i128 x → shr 128 x k = Ok r → i128 r.
Proof.
  intros Hk Hx H. unfold shr in H. M_inv H. injection H as <-. apply is_i_shiftr; [lia | done |].
  unfold shift_amount in E. revert E. case_cmp; [by intros [= <-]|].
  destruct P; [done|]. intros [= <-]. apply Z.mod_pos_bound; lia.
Qed.
Lemma sub_u_nonneg w a b r : 0 <= w → sub_u w a b = Ok r → 0 <= r.
Proof.
  unfold sub_u. intros Hw. case_bool_decide as Hd; [intros [= <-]; apply Hd|].
  destruct P; [done|]. intros [= <-]. by apply wrap_is_u.
Qed.
Lemma low_mask_closed n r : low_mask n = Ok r → i128 r.
Proof.
  unfold low_mask. intros H. M_inv H. unfold sub_i in H. revert H. case_bool_decide as Hd.
  - by intros [= <-].
  - destruct P; [done|]. intros [= <-]. auto with i128.
Qed.
Lemma sign_extend_closed v n r : i128 v → sign_extend v n = Ok r → i128 r.
Proof.
  intros Hv H. unfold sign_extend in H. M_inv H. unfold shl_i in E0. M_inv E0. injection E0 as <-.
  eapply shr_closed; [|apply i128_swrap|done]. by apply (sub_u_nonneg 64) in E; lia.
Qed.

Lemma crop_closed n a r : i128 a → crop_op n a = Ok r → i128 r.
Proof. intros Ha H. unfold crop_op in H. M_inv H. injection H as <-. eauto using low_mask_closed with i128. Qed.
Lemma sign_extend_op_closed n a r : i128 a → sign_extend_op n a = Ok r → i128 r.
Proof.
  intros Ha H. unfold sign_extend_op in H. M_inv H. eapply sign_extend_closed; [|done].
  eauto using low_mask_closed with i128.
Qed.
Lemma select_closed s t a r : 0 <= s → i128 a → select_op s t a = Ok r → i128 r.
Proof.
  intros Hs Ha H. unfold select_op in H. M_inv H. injection H as <-.
  apply i128_land; eauto using shr_closed, low_mask_closed.
Qed.
Lemma swap_bytes_closed n a r : swap_bytes_op n a = Ok r → i128 r.
Proof.
  intros H. unfold swap_bytes_op in H. M_inv H. eapply shr_closed; [| |done]; [|apply i128_swrap].
  apply sub_u_nonneg in E; [|lia]. Z.to_euclidean_division_equations; lia.
Qed.
Lemma compute_rol_closed a b n r : compute_rol a b n = Ok r → i128 a → i128 r.
Proof.
  intros H Ha. unfold compute_rol in H. M_inv H. injection H as <-.
  apply i128_land; [|apply i128_swrap]. apply is_i_lor; [lia | apply i128_swrap |].
  apply is_i_shiftr; [lia | apply i128_land; auto with i128 | apply Z.mod_pos_bound; lia].
Qed.
Lemma byte_mask_closed a r : byte_mask_op a = Ok r → i128 r.
Proof.
  intros H. apply (inj Ok) in H as <-. apply i128_foldl; [|by apply i128_small].
  intros x y Hx. apply is_i_lor; [lia | done | apply i128_swrap].
Qed.
Lemma carryless_mul_closed a b r : carryless_mul_op a b = Ok r → i128 r.
Proof.
  intros H. apply (inj Ok) in H as <-. apply i128_foldl; [|by apply i128_small].
  intros x y Hx. unfold carryless_mul_step. case_match; [|done]. apply is_i_lxor; [lia | done | apply i128_swrap].
Qed.
Lemma rem_closed a b r : i128 a → rem_op a b = Ok r → i128 r.
Proof.
  intros [Ha1 Ha2] [= <-]. case_cmps; [by apply i128_small|].
  destruct (Z.le_ge_cases 0 a).
  - pose proof (Z.rem_nonneg a b ltac:(lia) ltac:(lia)).
    pose proof (Z.rem_le a (Z.abs b) ltac:(lia) ltac:(lia)) as Hle.
    rewrite Z.rem_abs_r in Hle by lia. split; lia.
  - pose proof (Z.rem_nonpos a b ltac:(lia) ltac:(lia)).
    pose proof (Z.rem_le (- a) (Z.abs b) ltac:(lia) ltac:(lia)) as Hle.
    rewrite Z.rem_abs_r, Z.rem_opp_l in Hle by lia. split; lia.
Qed.
Lemma div_closed a b r : div_op a b = Ok r → i128 r.
Proof. intros [= <-]. case_cmps; [by apply i128_small | auto with i128]. Qed.
Lemma unsigned_div_closed a b r : unsigned_div_op a b = Ok r → i128 r.
Proof. intros [= <-]. case_cmps; [by apply i128_small | auto with i128]. Qed.
Lemma unsigned_rem_closed a b r : unsigned_rem_op a b = Ok r → i128 r.
Proof. intros [= <-]. case_cmps; [by apply i128_small | auto with i128]. Qed.
Lemma bit_mask_closed a r : bit_mask_op a = Ok r → i128 r.
Proof. intros [= <-]. case_cmps; [done | auto with i128]. Qed.
End closed.

(** Closure of a unary or binary operation, as the stack machine needs it. *)
Definition closed1 (f : Z → M Z) : Prop := ∀ a r, i128 a → f a = Ok r → i128 r.
Definition closed2 (f : Z → Z → M Z) : Prop :=
  ∀ a b r, i128 a → i128 b → f a b = Ok r → i128 r.

Section step_type.
Context {P : profile}.

Lemma ret_swrap_closed (f : M Z) r : (x ← f; Ok (swrap 128 x)) = Ok r → i128 r.
Proof. intros H. M_inv H. apply (inj Ok) in H as <-. auto with i128. Qed.

Lemma unop_closed f top stack top' stack' : closed1 f → i128 top → Forall i128 stack →
  unop f top stack = Ok (top', stack') → i128 top' ∧ Forall i128 stack'.
Proof. intros Hf Ht Hs H. unfold unop in H. M_inv H. injection H as <- <-. eauto. Qed.
Lemma binop_closed f top stack top' stack' : closed2 f → i128 top → Forall i128 stack →
  binop f top stack = Ok (top', stack') → i128 top' ∧ Forall i128 stack'.
Proof.
  intros Hf Ht Hs H. unfold binop in H. destruct stack as [|a stack]; cbn in H; [done|].
  apply Forall_cons in Hs as [Ha Hs]. M_inv H. injection H as <- <-. eauto.
Qed.
Lemma push_closed N stack x stack' : i128 x → Forall i128 stack →
  push N stack x = Ok stack' → Forall i128 stack'.
Proof. unfold push. intros. case_match; simplify_eq; auto. Qed.

(** The stack machine is type correct: from a stack of [i128] values and
    arguments in [i128], every operation leaves [i128] values only (no
    operation produces an integer that does not fit). *)
Theorem eval_from_stack_type N o args top stack top' stack' :
  op_wf o → (∀ n v, args n = Ok v → i128 v) → i128 top → Forall i128 stack →
  eval_from_stack N o args top stack = Ok (top', stack') →
  i128 top' ∧ Forall i128 stack'.
Proof.
  intros Hwf Hargs Ht Hs H.
  destruct o; cbn [eval_from_stack] in H;
    try (eapply unop_closed in H; [exact H| |done|done]; intros a r Ha Hr);
    try (eapply binop_closed in H; [exact H| |done|done]; intros a b r Ha Hb Hr).
  all: try (unfold not_op, parity_op, is_zero_op, trailing_zeros_op, leading_zeros_op, popcount_op,
    add_op, sub_op, mul_op, shl_op, shr_op, and_op, or_op, xor_op, cmp_lt_op in Hr;
    apply (inj Ok) in Hr as <-; auto with i128; fail).
  - M_inv H. injection H as <- <-. eauto using push_closed.
  - M_inv H. injection H as <- <-. split; [|eauto using push_closed].
    destruct Hwf. split; change (2 ^ (128 - 1)) with (2 * 2 ^ 126); lia.
  - apply (inj Ok) in Hr as <-. by apply is_i_lnot.
  - by eapply crop_closed.
  - by eapply sign_extend_op_closed.
  - eapply select_closed; [|done..]. by destruct Hwf as [[? _] _].
  - apply (inj Ok) in Hr as <-. apply i128_of_nat.
    pose proof (Nat.mod_upper_bound (count_ones 8 (wrap 8 a) + 1) 2). lia.
  - by eapply byte_mask_closed.
  - by eapply bit_mask_closed.
  - apply (inj Ok) in Hr as <-. apply i128_of_nat. unfold trailing_zeros.
    destruct (ones 128 a) as [|k l] eqn:E; cbn [List.hd]; [lia|]. apply ones_head in E. lia.
  - apply (inj Ok) in Hr as <-. apply i128_of_nat. unfold leading_zeros. case_match; lia.
  - apply (inj Ok) in Hr as <-. apply i128_of_nat. pose proof (count_ones_le 128 a). lia.
  - by eapply swap_bytes_closed.
  - by eapply carryless_mul_closed.
  - by eapply div_closed.
  - by eapply unsigned_div_closed.
  - by apply (rem_closed a b).
  - by eapply unsigned_rem_closed.
  - apply (inj Ok) in Hr as <-. apply i128_swrap.
  - apply (inj Ok) in Hr as <-. apply is_i_shiftr; [lia | done | apply Z.mod_pos_bound; lia].
  - apply (inj Ok) in Hr as <-. by apply is_i_lor.
  - apply (inj Ok) in Hr as <-. by apply is_i_lxor.
  - by eapply compute_rol_closed.
  - by eapply ret_swrap_closed.
  - by eapply ret_swrap_closed.
  - destruct stack as [|z [|c stack]]; [done..|]. cbn in H. injection H as <- <-.
    rewrite !Forall_cons in Hs. destruct_and!. split; [|done]. by case_match.
Qed.

Lemma unop_effect f top stack r : unop f top stack = Ok r → r.2 = stack.
Proof. intros H. unfold unop in H. M_inv H. by apply (inj Ok) in H as <-. Qed.
Lemma binop_effect f top stack r : binop f top stack = Ok r →
  r.2 = drop 1 stack ∧ (1 <= length stack)%nat.
Proof.
  intros H. unfold binop in H. destruct stack as [|a stack]; [done|]. cbn [pop mbind M_bind] in H.
  M_inv H. apply (inj Ok) in H as <-. cbn. split; [done | lia].
Qed.

(** An operation consumes exactly [num_args] values and produces one; with
    fewer values than that it panics ([stack.pop().unwrap()]). *)
Theorem eval_from_stack_effect N o args top stack top' stack' :
  eval_from_stack N o args top stack = Ok (top', stack') →
  stack' = match num_args o with O => top :: stack | S n => drop n stack end ∧
  (num_args o <= S (length stack))%nat.
Proof.
  intros H. destruct o; cbn [eval_from_stack num_args] in *;
    first [ apply unop_effect in H; cbn in H; subst; split; [done | lia]
          | apply binop_effect in H; cbn [snd] in H; destruct H as [-> ?]; split; [done | lia]
          | idtac ].
  - unfold push in H. case_match; [|done]. M_inv H. simplify_eq. split; [done | lia].
  - unfold push in H. case_match; [|done]. M_inv H. simplify_eq. split; [done | lia].
  - destruct stack as [|z [|c stack]]; [done..|]. cbn in H. simplify_eq. cbn. split; [done | lia].
Qed.
End step_type.

Lemma eval_from_stack_type_witness :
  eval_from_stack (P:=Dev) 4 Mul (vget [5]) (2 ^ 100) [2 ^ 100; 3] = Ok (0, [3]) ∧ i128 0 ∧ Forall i128 [3].
Proof.
  assert (eval_from_stack (P:=Dev) 4 Mul (vget [5]) (2 ^ 100) [2 ^ 100; 3] = Ok (0, [3])) as E
    by (vm_compute; reflexivity).
  split; [exact E|].
  refine (eval_from_stack_type (P:=Dev) 4 Mul (vget [5]) (2 ^ 100) [2 ^ 100; 3] 0 [3] I _ _ _ E).
  - intros n v H%vget_Ok_inv. destruct n; [|done]. injection H as <-. split; vm_compute; congruence.
  - split; vm_compute; congruence.
  - repeat constructor; vm_compute; congruence.
Defined.
Lemma eval_from_stack_effect_witness :
  eval_from_stack (P:=Dev) 4 IfZero (vget []) 7 [6; 0; 5] = Ok (6, [5]) ∧ [5] = drop 2 [6; 0; 5].
Proof.
  assert (eval_from_stack (P:=Dev) 4 IfZero (vget []) 7 [6; 0; 5] = Ok (6, [5])) as E by reflexivity.
  split; [exact E|]. apply (eval_from_stack_effect (P:=Dev) 4 IfZero (vget []) 7 [6; 0; 5] 6 [5] E).
Defined.

(** ** Commutative and associative operations *)

(** A binary operation run on the machine, first argument below the second. *)
Definition run_binary {P : profile} (o : Op) (a b : Z) : M Z :=
  r ← eval_from_stack 1 o (λ _, Panic) b [a]; Ok r.1.

(** The binary operations that [is_commutative] and [is_associative] accept
    are commutative and associative on all 128-bit values. *)
Theorem is_commutative_associative_sound {P : profile} o a b c :
  num_args o = 2%nat →
  (is_commutative o = true → run_binary o a b = run_binary o b a) ∧
  (is_associative o = true →
    (x ← run_binary o a b; run_binary o x c) = (y ← run_binary o b c; run_binary o a y)).
Proof.
  intros Hn. split; intros H; destruct o; try done; unfold run_binary; cbn -[swrap].
  - by rewrite Z.add_comm.
  - by rewrite Z.mul_comm.
  - by rewrite Z.land_comm.
  - by rewrite Z.lor_comm.
  - by rewrite Z.lxor_comm.
  - f_equal. rewrite <- swrap_add, swrap_swrap, swrap_add by lia. rewrite <- Z.add_assoc.
    rewrite <- (swrap_add 128 a (swrap _ _)), swrap_swrap, swrap_add by lia. done.
  - f_equal. rewrite <- swrap_mul, swrap_swrap, swrap_mul by lia. rewrite <- Z.mul_assoc.
    rewrite <- (swrap_mul 128 a (swrap _ _)), swrap_swrap, swrap_mul by lia. done.
  - by rewrite Z.land_assoc.
  - by rewrite Z.lor_assoc.
  - by rewrite Z.lxor_assoc.
Qed.

Lemma is_commutative_associative_sound_witness :
  run_binary (P:=Release) Add (2 ^ 127 - 1) 1 = run_binary (P:=Release) Add 1 (2 ^ 127 - 1) ∧
  run_binary (P:=Release) Add (2 ^ 127 - 1) 1 = Ok (- 2 ^ 127).
Proof.
  split; [|reflexivity].
  apply (is_commutative_associative_sound (P:=Release) Add (2 ^ 127 - 1) 1 0 eq_refl). reflexivity.
Defined.

(** ** Rotation *)

Lemma rol_mask_ok {P : profile} n : 1 <= n <= 127 →
  (k ← sub_u 8 128 n; t ← shr 128 U128_MAX k; Ok (swrap 128 t)) = Ok (Z.ones n).
Proof.
  intros Hn. rewrite sub_u_ok, M_bind_Ok by (unfold is_u; lia).
  rewrite shr_ok, M_bind_Ok by lia. f_equal. replace U128_MAX with (Z.ones 128) by done.
  bitwise i Hi; done.
Qed.

Section rol.
Context {P : profile}.

Lemma compute_rol_ok val n nb : 1 <= nb <= 127 →
  let m := wrap 32 n `mod` nb in
  compute_rol val n nb =
  Ok (Z.land (Z.lor (wrapping_shl_i 128 (wrap nb val) m) (Z.shiftr (wrap nb val) (nb - m))) (Z.ones nb)).
Proof.
  intros Hn m. unfold compute_rol. pose proof (rol_mask_ok nb Hn) as Hmask. M_inv Hmask.
  apply (inj Ok) in Hmask. rewrite E, M_bind_Ok, E0, M_bind_Ok. cbv zeta. rewrite Hmask.
  assert (negb (nb =? 0) = true) as -> by (case_cmps; done). cbn [rassert]. rewrite M_bind_Ok.
  pose proof (Z.mod_pos_bound (wrap 32 n) nb ltac:(lia)) as Hm. fold m in Hm |- *.
  rewrite sub_u_ok, M_bind_Ok by (unfold is_u; lia).
  rewrite (land_ones_wrap val) by lia. unfold wrapping_shr_i. rewrite (Z.mod_small (nb - m) 128) by lia.
  done.
Qed.

(** [Rol { num_bits }] for 1 to 127 bits rotates: it returns in both
    profiles, the result has [num_bits] bits, and its bit [i] is the bit of the
    argument [n] places to the right, modulo the width. *)
Theorem compute_rol_spec val n nb : 1 <= nb <= 127 →
  ∃ r, compute_rol val n nb = Ok r ∧ is_u nb r ∧
    ∀ i, 0 <= i < nb → Z.testbit r i = Z.testbit val ((i - wrap 32 n) `mod` nb).
Proof.
  intros Hn. rewrite compute_rol_ok by done. eexists; split; [done|].
  set (m := wrap 32 n `mod` nb).
  pose proof (Z.mod_pos_bound (wrap 32 n) nb ltac:(lia)) as Hm. fold m in Hm.
  split; [rewrite land_ones_wrap by lia; apply wrap_is_u; lia|].
  intros i Hi. rewrite Z.land_spec, Z.lor_spec, Z.testbit_ones_nonneg by lia.
  rewrite Zminus_mod. fold m. rewrite (Z.mod_small i nb) by lia.
  unfold wrapping_shl_i. rewrite (Z.mod_small m 128), testbit_swrap, Z.shiftr_spec by lia.
  destruct (Z.le_gt_cases m i).
  - rewrite Z.mod_small by lia. bits_simpl. done.
  - replace ((i - m) `mod` nb) with (i - m + nb)
      by (apply Z.mod_unique with (-1); [left; lia | lia]).
    bits_simpl; rewrite (Z.testbit_neg_r _ (i - m)) by lia; cbn [orb]; f_equal; lia.
Qed.
End rol.

Lemma compute_rol_spec_witness : ∃ r, compute_rol (P:=Dev) 0xf0 3 8 = Ok r ∧ r = 0x87.
Proof.
  destruct (compute_rol_spec (P:=Dev) 0xf0 3 8 ltac:(lia)) as (r & Hr & _).
  exists r. split; [exact Hr|]. vm_compute in Hr. congruence.
Defined.

(** At the full width, [Rol { num_bits: 128 }] is not a rotation: the right
    shift is arithmetic, so rotating [1 << 127] (the least [i128]) left by one
    gives all ones instead of 1. *)
Theorem compute_rol_128_not_rotation {P : profile} :
  compute_rol (- 2 ^ 127) 1 128 = Ok (-1) ∧
  Z.testbit (-1) 1 ≠ Z.testbit (- 2 ^ 127) ((1 - 1) `mod` 128).
Proof. split; [reflexivity | done]. Qed.

(** ** Bit extraction *)

(** Rank and select on the one bits of a word. *)
Lemma ones_lookup_rank w x i : (i < w)%nat → Z.testbit x (Z.of_nat i) = true →
  ones w x !! count_ones i x = Some i.
Proof.
  intros Hi Ht. replace w with (i + (1 + (w - i - 1)))%nat by lia.
  rewrite ones_app, lookup_app_r, Nat.sub_diag by done.
  rewrite ones_app, ones_1, Z.shiftr_spec, Z.add_0_l, Ht by lia. cbn. f_equal; lia.
Qed.
Lemma ones_rank_lookup w x m p : ones w x !! m = Some p → count_ones p x = m.
Proof.
  intros H. assert (p ∈ ones w x) as [Hp Ht]%elem_of_ones by (by eapply list_elem_of_lookup_2).
  eapply NoDup_lookup; [apply (ones_NoDup w x) | by apply ones_lookup_rank | done].
Qed.

Lemma ones_u_le (w v : nat) x : is_u (Z.of_nat v) x → (v <= w)%nat → ones w x = ones v x.
Proof.
  intros Hx Hv. replace w with (v + (w - v))%nat by lia. rewrite ones_app.
  rewrite (proj2 (ones_nil (w - v) (Z.shiftr x (Z.of_nat v)))); [by rewrite app_nil_r|].
  intros i Hi. rewrite Z.shiftr_spec by lia. apply (testbit_u_high (Z.of_nat v)); [done | lia].
Qed.
Lemma ones_split_lowest (w : nat) sel : is_u (Z.of_nat w) sel → sel ≠ 0 →
  let tz := trailing_zeros w sel in
  ones w sel = tz :: (Nat.add (S tz) <$> ones w (Z.shiftr sel (Z.of_nat tz + 1))).
Proof.
  intros Hsel Hne tz.
  destruct (trailing_zeros_nonzero w sel Hsel Hne) as (H1 & H2 & H3). fold tz in H1, H2, H3.
  assert (ones w (Z.shiftr sel (Z.of_nat tz + 1)) = ones (w - S tz) (Z.shiftr sel (Z.of_nat (S tz)))) as ->.
  { replace (Z.of_nat tz + 1) with (Z.of_nat (S tz)) by lia. apply ones_u_le; [|lia].
    replace (Z.of_nat (w - S tz)) with (Z.of_nat w - Z.of_nat (S tz)) by lia.
    apply is_u_shiftr_sub; [lia | done]. }
  transitivity (ones (S tz + (w - S tz)) sel); [f_equal; lia|]. rewrite ones_app.
  replace (ones (S tz) sel) with [tz]; [done|].
  replace (S tz) with (tz + 1)%nat by lia. rewrite ones_app, ones_1, Z.shiftr_spec, Z.add_0_l, H2 by lia.
  rewrite (proj2 (ones_nil tz sel)) by done. cbn. f_equal; lia.
Qed.

(** The specification of PEXT: bit [m] of the result is the source bit at the
    position of the [m]-th one bit of the selector. *)
Definition pext_bit (source sel : Z) (m : nat) : bool :=
  match ones 128 sel !! m with Some p => Z.testbit source (Z.of_nat p) | None => false end.

Section extract.
Context {P : profile}.

Lemma extract_bits_loop_0 fuel source dest d : extract_bits_loop fuel source 0 dest d = Ok dest.
Proof. by destruct fuel. Qed.
Lemma extract_bits_loop_S fuel source sel dest d : sel ≠ 0 →
  extract_bits_loop (S fuel) source sel dest d =
  (source1 ← shr 128 source (Z.of_nat (trailing_zeros 128 sel));
   sel' ← shr 128 sel (Z.of_nat (trailing_zeros 128 sel) + 1);
   source' ← shr 128 source1 1;
   b ← shl_u 128 (Z.land source1 1) d;
   d' ← add_u 32 d 1;
   extract_bits_loop fuel source' sel' (Z.lor dest b) d').
Proof. intros H. apply Z.eqb_neq in H. cbn [extract_bits_loop]. by rewrite H. Qed.

Lemma pext_bit_step source sel m : is_u 128 sel → sel ≠ 0 →
  let tz := Z.of_nat (trailing_zeros 128 sel) in
  pext_bit source sel m =
  match m with
  | O => Z.testbit (Z.shiftr source tz) 0
  | S m => pext_bit (Z.shiftr (Z.shiftr source tz) 1) (Z.shiftr sel (tz + 1)) m
  end.
Proof.
  intros Hsel Hne tz. unfold pext_bit. rewrite (ones_split_lowest 128 sel) by done. fold tz.
  rewrite lookup_cons. destruct m as [|m].
  - by rewrite Z.shiftr_spec, Z.add_0_l by lia.
  - rewrite list_lookup_fmap. destruct (ones 128 (Z.shiftr sel (tz + 1)) !! m) as [p|]; [|done].
    cbn [fmap option_fmap option_map]. rewrite !Z.shiftr_spec by lia.
    replace (Z.of_nat p + 1 + tz) with (Z.of_nat (S (trailing_zeros 128 sel) + p)) by lia. done.
Qed.

Lemma extract_bits_loop_ok fuel : ∀ source sel dest d,
  is_u 128 sel → (0 <= d <= 128) → d + Z.of_nat (count_ones 128 sel) <= 128 → sel ≠ 2 ^ 127 →
  (count_ones 128 sel <= fuel)%nat →
  ∃ r, extract_bits_loop fuel source sel dest d = Ok r ∧
    ∀ i, 0 <= i → Z.testbit r i =
      Z.testbit dest i || (d <=? i) && pext_bit source sel (Z.to_nat (i - d)).
Proof.
  induction fuel as [|fuel IH]; intros source sel dest d Hsel Hd Hdc Hok Hf;
    destruct (decide (sel = 0)) as [->|Hne].
  1,3: exists dest; split; [apply extract_bits_loop_0|]; intros i Hi; unfold pext_bit;
       rewrite (proj2 (ones_nil 128 0)) by (intros; apply Z.bits_0); rewrite lookup_nil;
       by rewrite andb_false_r, orb_false_r.
  - exfalso. destruct (selector_facts 0 sel ltac:(lia) Hsel Hne) as (H0 & H1 & H2 & _).
    pose proof (count_ones_pos 128 sel (trailing_zeros 128 sel) ltac:(lia) H2). lia.
  - destruct (selector_facts 0 sel ltac:(lia) Hsel Hne) as (H0 & H1 & H2 & _).
    pose proof (selector_shift_ok 0 sel ltac:(lia) Hsel Hne (or_intror Hok)) as Hsh.
    pose proof (selector_fuel 0 sel ltac:(lia) Hsel Hne fuel Hf) as Hf'.
    pose proof (count_ones_pos 128 sel (trailing_zeros 128 sel) ltac:(lia) H2) as Hpos.
    pose proof (selector_fuel 0 sel ltac:(lia) Hsel Hne (pred (count_ones 128 sel)) ltac:(lia)) as Hc.
    rewrite extract_bits_loop_S by done.
    set (tz := Z.of_nat (trailing_zeros 128 sel)) in *. autorewrite with rust.
    pose proof (is_u_shiftr_sub 128 (tz + 1) sel ltac:(lia) Hsel) as Hrest.
    edestruct (IH (Z.shiftr (Z.shiftr source tz) 1) (Z.shiftr sel (tz + 1))
      (Z.lor dest (wrap 128 (Z.shiftl (Z.land (Z.shiftr source tz) 1) d))) (d + 1)) as (r & Hr & Hb).
    + by apply (is_u_mono (128 - (tz + 1))); [lia|].
    + lia.
    + lia.
    + intros E. rewrite E in Hrest. destruct Hrest as [_ Hrest].
      apply Z.pow_lt_mono_r_iff in Hrest; lia.
    + done.
    + exists r. split; [done|]. intros i Hi. rewrite Hb by done.
      rewrite Z.lor_spec, testbit_one_bit by lia.
      rewrite (pext_bit_step source sel) by done. fold tz.
      destruct (Z.leb_spec d i); [|case_cmps; cbn [andb]; by rewrite !orb_false_r].
      destruct (Z.eqb_spec i d) as [->|].
      * rewrite Z.sub_diag. case_cmps. cbn [andb Z.to_nat]. by rewrite orb_false_r.
      * replace (Z.to_nat (i - d)) with (S (Z.to_nat (i - (d + 1)))) by lia.
        case_cmps. cbn [andb]. by rewrite orb_false_r.
Qed.

Lemma extract_bits_op_bits source selector : i128 selector → selector ≠ - 2 ^ 127 →
  ∃ r, extract_bits_op source selector = Ok (swrap 128 r) ∧ is_u 128 r ∧
    ∀ m, Z.testbit r (Z.of_nat m) = pext_bit (wrap 128 source) (wrap 128 selector) m.
Proof.
  intros Hi Hne. pose proof (count_ones_le 128 (wrap 128 selector)) as Hc.
  destruct (extract_bits_loop_ok 128 (wrap 128 source) (wrap 128 selector) 0 0) as (r & Hr & Hb).
  - apply wrap_is_u; lia.
  - lia.
  - lia.
  - intros E. apply Hne. rewrite <- (swrap_small 128 selector), <- swrap_wrap, E by (done || lia).
    reflexivity.
  - done.
  - assert (∀ m, Z.testbit r (Z.of_nat m) = pext_bit (wrap 128 source) (wrap 128 selector) m) as Hbits.
    { intros m. rewrite Hb, Z.bits_0, Z.sub_0_r, Nat2Z.id by lia. case_cmps. done. }
    assert (∀ i, 128 <= i → Z.testbit r i = false) as Hhigh.
    { intros i Hi'. rewrite <- (Z2Nat.id i), Hbits by lia. unfold pext_bit.
      rewrite lookup_ge_None_2; [done|]. fold (count_ones 128 (wrap 128 selector)). lia. }
    exists r. split; [unfold extract_bits_op; by rewrite Hr|]. split; [|done].
    apply u_of_bits; [lia | | done]. apply Z.bits_iff_nonneg_ex. exists 128. intros; apply Hhigh; lia.
Qed.

(** [ExtractBits] is PEXT for every selector but [1 << 127]: the loop ends
    without a panic in either profile and bit [m] of the result is the source
    bit at the [m]-th one bit of the selector. *)
Theorem extract_bits_spec source selector : i128 selector → selector ≠ - 2 ^ 127 →
  ∃ r, extract_bits_op source selector = Ok (swrap 128 r) ∧ is_u 128 r ∧
    ∀ m, Z.testbit r (Z.of_nat m) = pext_bit (wrap 128 source) (wrap 128 selector) m.
Proof. apply extract_bits_op_bits. Qed.
End extract.

Lemma extract_bits_spec_witness : ∃ r, extract_bits_op (P:=Release) 0x4B 0xC9 = Ok r ∧ r = 0x7.
Proof.
  destruct (extract_bits_spec (P:=Release) 0x4B 0xC9) as (r & Hr & _);
    [split; vm_compute; congruence | discriminate |].
  exists (swrap 128 r). split; [exact Hr|].
  assert (extract_bits_op (P:=Release) 0x4B 0xC9 = Ok 7) as E by (vm_compute; reflexivity).
  rewrite E in Hr. apply (inj Ok) in Hr. done.
Defined.

(** ** Deposit and extract are inverse *)

Section pdep_pext.
Context {P : profile} (x s : Z).
Context (Hx : i128 x) (Hs : i128 s) (Hne : s ≠ - 2 ^ 127).

Lemma selector_not_top : wrap 128 s ≠ 2 ^ 127.
Proof using Hs Hne.
  intros E. apply Hne. by rewrite <- (swrap_small 128 s), <- swrap_wrap, E by (done || lia).
Qed.
Lemma deposit_op_bits y : i128 y → ∃ r, deposit_bits_op y s = Ok (swrap 128 r) ∧ is_u 128 r ∧
  ∀ i, (i < 128)%nat → Z.testbit r (Z.of_nat i) =
    Z.testbit s (Z.of_nat i) && Z.testbit y (Z.of_nat (count_ones i s)).
Proof using Hs Hne.
  intros Hy. destruct (deposit_bits_loop_ok (P:=P) 128 (wrap 128 y) (wrap 128 s) 0 0) as (r & Hr & Hb).
  1: lia. 1: rewrite Z.sub_0_r; apply wrap_is_u; lia. 1: right; apply selector_not_top.
  1: apply count_ones_le. 1: apply wrap_is_u; lia.
  assert (∀ i, 0 <= i → Z.testbit r i =
    Z.testbit (wrap 128 s) i && Z.testbit (wrap 128 y) (Z.of_nat (count_ones (Z.to_nat i) (wrap 128 s)))) as Hb'.
  { intros i Hi. rewrite Hb by done. unfold deposit_rest. rewrite Z.bits_0, Z.sub_0_r. by case_cmps. }
  exists r. split; [|split].
  - unfold deposit_bits_op, deposit_bits_u128. by rewrite Hr.
  - apply u_of_bits; [lia| |].
    + apply Z.bits_iff_nonneg_ex. exists 128. intros i Hi.
      rewrite Hb', testbit_wrap by lia. by case_cmps.
    + intros i Hi. rewrite Hb', testbit_wrap by lia. by case_cmps.
  - intros i Hi. rewrite Hb', Nat2Z.id, (count_ones_wrap i 128), !testbit_wrap by lia.
    pose proof (count_ones_le i s). case_cmps; done.
Qed.

(** Depositing and extracting with the same selector are inverse: extracting
    what was deposited gives back the low [popcount] bits of the source, and
    depositing what was extracted keeps exactly the selected bits. *)
Theorem deposit_extract_roundtrip :
  (d ← deposit_bits_op x s; extract_bits_op d s) =
    Ok (swrap 128 (wrap (Z.of_nat (count_ones 128 s)) x)) ∧
  (e ← extract_bits_op x s; deposit_bits_op e s) = Ok (Z.land x s).
Proof using All.
  assert (∀ p, (p < 128)%nat → count_ones p s = count_ones p (wrap 128 s)) as Hcw
    by (intros; symmetry; by apply (count_ones_wrap p 128); lia).
  split.
  - destruct (deposit_op_bits x Hx) as (d & -> & Hd & Hdb). rewrite M_bind_Ok.
    destruct (extract_bits_op_bits (P:=P) (swrap 128 d) s Hs Hne) as (r & -> & Hr & Hrb).
    f_equal. apply wrap_eq_swrap; [lia|]. f_equal. apply Z.bits_inj'; intros i Hi.
    rewrite <- (Z2Nat.id i), Hrb by done. unfold pext_bit. set (m := Z.to_nat i).
    rewrite testbit_wrap by lia. rewrite <- (count_ones_wrap 128 128 s) by lia. change (Z.of_nat 128) with 128.
    destruct (ones 128 (wrap 128 s) !! m) as [p|] eqn:E.
    + pose proof (lookup_lt_Some _ _ _ E) as Hlt. fold (count_ones 128 (wrap 128 s)) in Hlt.
      assert (p ∈ ones 128 (wrap 128 s)) as [Hp Ht]%elem_of_ones by (by eapply list_elem_of_lookup_2).
      apply ones_rank_lookup in E. rewrite testbit_wrap in Ht by lia.
      rewrite wrap_swrap, testbit_wrap, Hdb, Hcw, E by lia.
      case_cmps. cbn [andb] in *. by rewrite Ht.
    + apply lookup_ge_None_1 in E. fold (count_ones 128 (wrap 128 s)) in E. by case_cmps.
  - destruct (extract_bits_op_bits (P:=P) x s Hs Hne) as (e & -> & He & Heb). rewrite M_bind_Ok.
    destruct (deposit_op_bits (swrap 128 e) (i128_swrap e)) as (r & -> & Hr & Hrb). f_equal.
    apply (i_ext 128); [lia | apply i128_swrap | by apply i128_land |].
    intros i Hi. rewrite testbit_swrap by lia. case_cmps.
    rewrite <- (Z2Nat.id i), Hrb, Z.land_spec by lia. set (p := Z.to_nat i).
    destruct (Z.testbit s (Z.of_nat p)) eqn:Ht; [|by rewrite andb_false_r]. cbn [andb].
    pose proof (count_ones_le p s). rewrite andb_true_r, testbit_swrap by lia. case_cmps.
    rewrite Heb. unfold pext_bit. rewrite Hcw by lia.
    rewrite ones_lookup_rank; [|lia|rewrite testbit_wrap by lia; case_cmps; done].
    rewrite testbit_wrap by lia. case_cmps. done.
Qed.
End pdep_pext.

Lemma deposit_extract_roundtrip_witness :
  (d ← deposit_bits_op (P:=Dev) 0xB 0xC9; extract_bits_op (P:=Dev) d 0xC9) = Ok 0xB.
Proof.
  destruct (deposit_extract_roundtrip (P:=Dev) 0xB 0xC9) as [H _];
    [split; vm_compute; congruence | split; vm_compute; congruence | discriminate |].
  rewrite H. vm_compute. reflexivity.
Defined.

(** ** Byte swapping *)

Section swap.
Context {P : profile}.

Lemma swap_bytes_op_ok num_bits a : 1 <= num_bits <= 128 →
  let n := bytes_for num_bits in
  swap_bytes_op num_bits a = Ok (swrap (8 * Z.of_nat n) (swap_bytes n a)).
Proof.
  intros Hn n. unfold swap_bytes_op. rewrite sub_u_ok, M_bind_Ok by (unfold is_u; lia).
  rewrite shr_ok by (Z.to_euclidean_division_equations; lia). f_equal.
  assert (Z.of_nat n = (num_bits + 7) / 8) as Hz by (unfold n, bytes_for; rewrite Z2Nat.id; [done|apply Z.div_pos; lia]).
  assert (1 <= Z.of_nat n <= 16) by (rewrite Hz; Z.to_euclidean_division_equations; lia).
  replace ((128 - num_bits) `div` 8 * 8) with (8 * (Z.of_nat 16 - Z.of_nat n))
    by (rewrite Hz; Z.to_euclidean_division_equations; lia).
  apply Z.bits_inj'; intros i Hi. rewrite Z.shiftr_spec, !testbit_swrap by lia.
  rewrite <- (shifted_swap_bytes 16 n) by lia. case_cmps; rewrite Z.shiftr_spec by lia; f_equal; lia.
Qed.

(** [SwapBytes { num_bits }] reverses the [ceil(num_bits / 8)] low bytes of
    its argument, in both profiles; above them the result is the sign extension
    of the swapped value, so the documented clearing of the high bits does not
    hold when the lowest byte of the argument has its top bit set. *)
Theorem swap_bytes_op_spec num_bits a : 1 <= num_bits <= 128 →
  let n := bytes_for num_bits in
  swap_bytes_op num_bits a = Ok (swrap (8 * Z.of_nat n) (swap_bytes n a)).
Proof. apply swap_bytes_op_ok. Qed.
End swap.

Lemma swap_bytes_op_spec_witness :
  swap_bytes_op (P:=Dev) 16 0x1234 = Ok 0x3412 ∧ swap_bytes_op (P:=Dev) 16 0x80 = Ok (-0x8000).
Proof.
  split.
  - rewrite (swap_bytes_op_spec (P:=Dev) 16 0x1234 ltac:(lia)). vm_compute. reflexivity.
  - rewrite (swap_bytes_op_spec (P:=Dev) 16 0x80 ltac:(lia)). vm_compute. reflexivity.
Defined.

(** ** Carry-less multiplication and byte masks *)

Definition xor_sum (f : nat → bool) (k : nat) : bool :=
  foldl (λ b i, xorb b (f i)) false (seq 0 k).

Lemma foldl_seq_S {A} (f : A → nat → A) a k :
  foldl f a (seq 0 (S k)) = f (foldl f a (seq 0 k)) k.
Proof. by rewrite seq_S, foldl_app. Qed.

Lemma land_1_nonzero x i : 0 <= i → negb (Z.land (Z.shiftr x i) 1 =? 0) = Z.testbit x i.
Proof.
  intros Hi. rewrite <- (Z.add_0_l i) at 2. rewrite <- Z.shiftr_spec by lia.
  generalize (Z.shiftr x i) as y. intros y. change 1 with (Z.ones 1).
  rewrite Z.land_ones by lia. change (2 ^ 1) with 2. rewrite Zmod_odd, Z.bit0_odd.
  by destruct (Z.odd y).
Qed.

Section loops.
Context (x y : Z).

Lemma carryless_mul_bits k j : 0 <= j < 128 →
  Z.testbit (foldl (carryless_mul_step x y) 0 (seq 0 k)) j =
  xor_sum (λ i, Z.testbit x (Z.of_nat i) && Z.testbit y (j - Z.of_nat i)) k.
Proof.
  intros Hj. induction k as [|k IH]; [by rewrite Z.bits_0|].
  unfold xor_sum. rewrite !foldl_seq_S. fold (xor_sum (λ i, Z.testbit x (Z.of_nat i) && Z.testbit y (j - Z.of_nat i)) k).
  rewrite <- IH. unfold carryless_mul_step at 1. rewrite land_1_nonzero by lia.
  destruct (Z.testbit x (Z.of_nat k)); cbn [andb]; [|by rewrite xorb_false_r].
  rewrite Z.lxor_spec, testbit_swrap by lia. case_cmps. by rewrite Z.shiftl_spec by lia.
Qed.

Lemma byte_mask_bits k j : 0 <= j < 128 →
  Z.testbit (foldl (byte_mask_step x) 0 (seq 0 k)) j =
  (j <? Z.of_nat k) && Z.testbit x (8 * j + 7).
Proof.
  intros Hj. induction k as [|k IH].
  { rewrite Z.bits_0. case_cmps. done. }
  rewrite foldl_seq_S. unfold byte_mask_step at 1. rewrite Z.lor_spec, IH, testbit_swrap by lia.
  case_cmps; rewrite Z.shiftl_spec by lia.
  - rewrite (Z.testbit_neg_r _ (j - Z.of_nat k)), orb_false_r by lia. done.
  - replace j with (Z.of_nat k) by lia. rewrite Z.sub_diag, testbit_land_1, Z.shiftr_spec by lia.
    cbn. f_equal. lia.
  - rewrite testbit_land_1 by lia. by case_cmps.
Qed.
End loops.

(** [CarrylessMul] is multiplication of polynomials over GF(2), truncated to
    128 bits: bit [j] is the exclusive or of all products [x_i y_(j-i)]. *)
Theorem carryless_mul_spec {P : profile} x y :
  ∃ r, carryless_mul_op x y = Ok r ∧ i128 r ∧
    ∀ j, 0 <= j < 128 → Z.testbit r j =
      xor_sum (λ i, Z.testbit x (Z.of_nat i) && Z.testbit y (j - Z.of_nat i)) 128.
Proof.
  eexists. split; [done|]. split; [by eapply carryless_mul_closed|].
  intros j Hj. by apply carryless_mul_bits.
Qed.

(** [ByteMask] collects the top bit of each of the 16 bytes, and [BitMask]
    of a non-negative count gives that many low ones, all of them from 128 on. *)
Theorem mask_building_spec {P : profile} v :
  (∃ r, byte_mask_op v = Ok r ∧
    ∀ j, 0 <= j < 128 → Z.testbit r j = (j <? 16) && Z.testbit v (8 * j + 7)) ∧
  (0 <= v → bit_mask_op v = Ok (if 128 <=? v then -1 else Z.ones v)).
Proof.
  split.
  - eexists. split; [done|]. intros j Hj. by apply byte_mask_bits.
  - intros Hv. unfold bit_mask_op. case_cmp; [done|]. f_equal.
    unfold wrapping_shl_i. rewrite (wrap_small 32 v) by (split; lia).
    rewrite Z.mod_small, Z.shiftl_1_l by lia.
    pose proof (swrap_add 128 (2 ^ v) (-1) ltac:(lia)) as Hadd.
    change (swrap 128 (-1)) with (-1) in Hadd.
    replace (swrap 128 (2 ^ v) - 1) with (swrap 128 (2 ^ v) + -1) by lia. rewrite Hadd.
    rewrite Z.ones_equiv. apply swrap_small; [lia|]. apply u_is_i; [lia|].
    pose proof (pow2_pos v Hv). assert (2 ^ v <= 2 ^ (128 - 1)) by (apply Z.pow_le_mono_r; lia).
    split; lia.
Qed.
