(* ===== verification/Expr.v ===== *)
(** * Expressions and their evaluation

    Models [liblisa/src/semantics/default/mod.rs] ([Expr], its evaluation on the
    stack and through compiled [fast_eval] functions, the [expr!] macro) and
    [liblisa/src/semantics/default/builder.rs] ([OpWriter], [ExprBuilder] and the
    builder functions).  The main theorems are in ExprFacts: the postfix code
    that a builder writes, run on the stack machine, computes what the tree of
    [FastOpImpl] structs computes. *)
From S2P Require Import Prelude MachInt Utils Ops.

(** ** Expressions *)

Record FastEval := {
  eval : list Z → M Z;
  eval_indirect : list Z → list nat → M Z;
  eval_indirect_u64 : list Z → list nat → M Z;
  eval_indirect_bool : list Z → list nat → M bool;
}.

Record Expr := { ops : list Op; fast_eval : option FastEval }.

Definition new (l : list Op) : Expr := {| ops := l; fast_eval := None |}.
Definition with_fast_eval (e : Expr) (f : FastEval) : Expr :=
  {| ops := ops e; fast_eval := Some f |}.
Definition without_fast_eval (e : Expr) : Expr := {| ops := ops e; fast_eval := None |}.

(** [TRUE] and [FALSE]. *)
Definition const_fast_eval (v : Z) : FastEval := {|
  eval := λ _, Ok v;
  eval_indirect := λ _ _, Ok v;
  eval_indirect_u64 := λ _ _, Ok v;
  eval_indirect_bool := λ _ _, Ok (v =? 1);
|}.
Definition TRUE : Expr := {| ops := [Const 1]; fast_eval := Some (const_fast_eval 1) |}.
Definition FALSE : Expr := {| ops := [Const 0]; fast_eval := Some (const_fast_eval 0) |}.

(** [Expr::count_holes]: marks the holes in a table of 4096 entries, counts the
    leading marks and asserts that no mark follows them. *)
Definition MAX_HOLES : nat := 4096.
Fixpoint mark_holes (l : list Op) (args_seen : list bool) : M (list bool) :=
  match l with
  | [] => Ok args_seen
  | Hole n :: l => args_seen ← vset args_seen n true; mark_holes l args_seen
  | _ :: l => mark_holes l args_seen
  end.
Fixpoint leading_marks (args_seen : list bool) (num_args : nat) : M nat :=
  match args_seen with
  | [] => Panic
  | true :: args_seen => leading_marks args_seen (S num_args)
  | false :: _ => Ok num_args
  end.
Definition count_holes (l : list Op) : M nat :=
  args_seen ← mark_holes l (replicate MAX_HOLES false);
  num_args ← leading_marks args_seen 0;
  assert! forallb negb (drop num_args args_seen);
  Ok num_args.

Section evaluate.
Context {P : profile}.

(** The loop over the operations shared by [evaluate_on_stack] and
    [evaluate_indirect_on_stack]. *)
Fixpoint run (N : nat) (l : list Op) (args : nat → M Z) (top : Z) (stack : list Z) : M (Z * list Z) :=
  match l with
  | [] => Ok (top, stack)
  | o :: l => '(top, stack) ← eval_from_stack N o args top stack; run N l args top stack
  end.

Definition STACK_SIZE : nat := 1024.

Definition evaluate_indirect_on_stack (l : list Op) (arg : nat → M Z) : M Z :=
  '(top, _) ← run STACK_SIZE l arg 0 []; Ok top.
Definition evaluate_on_stack (l : list Op) (args : list Z) : M Z :=
  '(top, _) ← run STACK_SIZE l (vget args) 0 []; Ok top.

(** [all_args[mapping[n] as usize]]. *)
Definition indirect (all_args : list Z) (mapping : list nat) (n : nat) : M Z :=
  i ← vget mapping n; vget all_args i.

Definition evaluate (e : Expr) (args : list Z) : M Z :=
  match fast_eval e with
  | Some f => eval f args
  | None => evaluate_on_stack (ops e) args
  end.
Definition evaluate_indirect (e : Expr) (all_args : list Z) (mapping : list nat) : M Z :=
  match fast_eval e with
  | Some f => eval_indirect f all_args mapping
  | None => evaluate_indirect_on_stack (ops e) (indirect all_args mapping)
  end.
Definition evaluate_indirect_as_u64 (e : Expr) (all_args : list Z) (mapping : list nat) : M Z :=
  match fast_eval e with
  | Some f => eval_indirect_u64 f all_args mapping
  | None => r ← evaluate_indirect_on_stack (ops e) (indirect all_args mapping); Ok (wrap 64 r)
  end.
Definition evaluate_indirect_as_bool (e : Expr) (all_args : list Z) (mapping : list nat) : M bool :=
  match fast_eval e with
  | Some f => eval_indirect_bool f all_args mapping
  | None =>
      r ← evaluate_indirect_on_stack (ops e) (indirect all_args mapping);
      Ok (negb (Z.land (wrap 64 r) 1 =? 0))
  end.
End evaluate.

(** ** The operation writer *)

Definition MAX_OPS : nat := 1024.

Record OpWriter := { data : list Op; index : nat }.

Definition new_writer : OpWriter := {| data := replicate MAX_OPS const_default; index := 0 |}.
Definition write (self : OpWriter) (op : Op) : M OpWriter :=
  d ← vset (data self) (index self) op;
  Ok {| data := d; index := index self + 1 |}.

(** [write_builder] copies the first [ops.index] entries of the other writer to
    position [self.index]. *)
Definition write_builder (self other : OpWriter) : M OpWriter :=
  assert! (index self + index other <? MAX_OPS)%nat;
  Ok {| data := take (index self) (data self) ++ take (index other) (data other) ++
                drop (index self + index other) (data self);
        index := index self + index other |}.
Definition as_slice (self : OpWriter) : M (list Op) :=
  assert! (index self <=? MAX_OPS)%nat;
  Ok (take (index self) (data self)).
Fixpoint copy_to_loop (count n : nat) (src target : list Op) : M (list Op) :=
  match count with
  | O => Ok target
  | S count =>
      op ← vget src n; target ← vset target n op; copy_to_loop count (S n) src target
  end.
Definition copy_to (self : OpWriter) (target : list Op) : M (list Op) :=
  copy_to_loop (index self) 0 (data self) target.

(** ** Builders

    [const_N] is the const generic parameter of [ExprBuilder<N, I>], [num_ops] the
    field of the same name. *)
Record ExprBuilder := {
  const_N : nat;
  num_ops : nat;
  writer : OpWriter;
  builder : FastOp;
}.

Definition unop_writer (val : ExprBuilder) (suffix : Op) : M OpWriter := write (writer val) suffix.
Definition binop_writer (lhs rhs : ExprBuilder) (suffix : Op) : M OpWriter :=
  w ← write_builder (writer lhs) (writer rhs); write w suffix.

(** Methods of [ExprBuilder]: they add to the [num_ops] field. *)
Definition method1 (self : ExprBuilder) (w : M OpWriter) (t : FastOp) : M ExprBuilder :=
  w ← w; Ok {| const_N := const_N self + 1; num_ops := num_ops self + 1; writer := w; builder := t |}.
Definition method2 (self rhs : ExprBuilder) (w : M OpWriter) (t : FastOp) : M ExprBuilder :=
  w ← w; Ok {| const_N := const_N self + const_N rhs + 1; num_ops := num_ops self + num_ops rhs + 1;
               writer := w; builder := t |}.
(** Free functions: they compute [num_ops] from the const parameters. *)
Definition fn1 (a : ExprBuilder) (op : Op) (t : FastOp) : M ExprBuilder :=
  w ← unop_writer a op; Ok {| const_N := const_N a + 1; num_ops := const_N a + 1; writer := w; builder := t |}.
Definition fn2 (a b : ExprBuilder) (op : Op) (t : FastOp) : M ExprBuilder :=
  w ← binop_writer a b op;
  Ok {| const_N := const_N a + const_N b + 1; num_ops := const_N a + const_N b + 1; writer := w; builder := t |}.
Definition leaf (op : Op) (t : FastOp) : M ExprBuilder :=
  w ← write new_writer op; Ok {| const_N := 1; num_ops := 1; writer := w; builder := t |}.

Module Build.
Definition crop (NUM_BITS : Z) (self : ExprBuilder) : M ExprBuilder :=
  method1 self (write (writer self) (Crop NUM_BITS)) (CropOp NUM_BITS (builder self)).
Definition rol (NUM_BITS : Z) (self rhs : ExprBuilder) : M ExprBuilder :=
  method2 self rhs (binop_writer self rhs (Rol NUM_BITS)) (RolOp NUM_BITS (builder self) (builder rhs)).
Definition sign_extend (NUM_BITS : Z) (self : ExprBuilder) : M ExprBuilder :=
  method1 self (write (writer self) (SignExtend NUM_BITS)) (SignExtendOp NUM_BITS (builder self)).
Definition if_zero (self zero nonzero : ExprBuilder) : M ExprBuilder :=
  w ← write_builder new_writer (writer self);
  w ← write_builder w (writer zero);
  w ← write_builder w (writer nonzero);
  w ← write w IfZero;
  Ok {| const_N := const_N self + const_N zero + const_N nonzero + 1;
        num_ops := num_ops self + num_ops zero + num_ops nonzero + 1;
        writer := w;
        builder := IfZeroOp (builder self) (builder zero) (builder nonzero) |}.
Definition byte_mask (self : ExprBuilder) : M ExprBuilder :=
  method1 self (unop_writer self ByteMask) (ByteMaskOp (builder self)).
Definition trailing_zeros (self : ExprBuilder) : M ExprBuilder :=
  method1 self (unop_writer self TrailingZeros) (TrailingZerosOp (builder self)).
Definition leading_zeros (self : ExprBuilder) : M ExprBuilder :=
  method1 self (unop_writer self LeadingZeros) (LeadingZerosOp (builder self)).
Definition popcount (self : ExprBuilder) : M ExprBuilder :=
  method1 self (unop_writer self PopCount) (PopCountOp (builder self)).
Definition abs (self : ExprBuilder) : M ExprBuilder :=
  w ← write_builder new_writer (writer self);
  w ← write w (Select 127 1);
  w ← write_builder w (writer self);
  w ← write_builder w (writer self);
  w ← write w Not;
  w ← write w (Const 1);
  w ← write w Add;
  w ← write w IfZero;
  Ok {| const_N := const_N self * 3 + 5;
        num_ops := num_ops self * 3 + 5;
        writer := w;
        builder := IfZeroOp (SelectOp 127 1 (builder self)) (builder self)
                     (AddOp (NotOp (builder self)) (ConstOp 1)) |}.
Definition extract_bits (self selector : ExprBuilder) : M ExprBuilder :=
  method2 self selector (binop_writer self selector ExtractBits)
    (ExtractBitsOp (builder self) (builder selector)).
Definition deposit_bits (self selector : ExprBuilder) : M ExprBuilder :=
  method2 self selector (binop_writer self selector DepositBits)
    (DepositBitsOp (builder self) (builder selector)).

Definition mul (a b : ExprBuilder) := fn2 a b Mul (MulOp (builder a) (builder b)).
Definition carryless_mul (a b : ExprBuilder) :=
  fn2 a b CarrylessMul (CarrylessMulOp (builder a) (builder b)).
Definition div (a b : ExprBuilder) := fn2 a b Div (DivOp (builder a) (builder b)).
Definition udiv (a b : ExprBuilder) := fn2 a b UnsignedDiv (UnsignedDivOp (builder a) (builder b)).
Definition rem (a b : ExprBuilder) := fn2 a b Rem (RemOp (builder a) (builder b)).
Definition urem (a b : ExprBuilder) := fn2 a b UnsignedRem (UnsignedRemOp (builder a) (builder b)).
Definition shl (a b : ExprBuilder) := fn2 a b Shl (ShlOp (builder a) (builder b)).
Definition shr (a b : ExprBuilder) := fn2 a b Shr (ShrOp (builder a) (builder b)).
Definition and (a b : ExprBuilder) := fn2 a b And (AndOp (builder a) (builder b)).
Definition add (a b : ExprBuilder) := fn2 a b Add (AddOp (builder a) (builder b)).
Definition sub (a b : ExprBuilder) := fn2 a b Sub (SubOp (builder a) (builder b)).
Definition or (a b : ExprBuilder) := fn2 a b Or (OrOp (builder a) (builder b)).
Definition xor (a b : ExprBuilder) := fn2 a b Xor (XorOp (builder a) (builder b)).
Definition not (a : ExprBuilder) := fn1 a Not (NotOp (builder a)).
Definition parity (a : ExprBuilder) := fn1 a Parity (ParityOp (builder a)).
Definition select (NUM_SKIP NUM_TAKE : Z) (a : ExprBuilder) :=
  fn1 a (Select NUM_SKIP NUM_TAKE) (SelectOp NUM_SKIP NUM_TAKE (builder a)).
Definition concat_bit (a b : ExprBuilder) : M ExprBuilder :=
  w ← write_builder new_writer (writer a);
  w ← write w (Const 1);
  w ← write w Shl;
  w ← write_builder w (writer b);
  w ← write w Or;
  Ok {| const_N := (const_N a + 2) + const_N b + 1;
        num_ops := const_N a + const_N b + 1;
        writer := w;
        builder := OrOp (ShlOp (builder a) (ConstOp 1)) (builder b) |}.
Definition is_zero (a : ExprBuilder) := fn1 a IsZero (IsZeroOp (builder a)).
Definition less_than (a b : ExprBuilder) := fn2 a b CmpLt (CmpLtOp (builder a) (builder b)).
Definition bit_mask (a : ExprBuilder) := fn1 a BitMask (BitMaskOp (builder a)).
Definition hole (n : nat) : M ExprBuilder := leaf (Hole n) (HoleOp n).
Definition c (VAL : Z) : M ExprBuilder := leaf (Const VAL) (ConstOp VAL).
Definition zero : M ExprBuilder := c 0.
Definition one : M ExprBuilder := c 1.
End Build.

(** ** [reconstruct] and the [expr!] macro *)

(** [FastOpImpl::reconstruct] rebuilds the tree from its type; it exists for
    every struct but [Val]. *)
Fixpoint reconstruct (e : FastOp) : M FastOp :=
  match e with
  | Val _ => Panic
  | HoleOp n => Ok (HoleOp n)
  | ConstOp v => Ok (ConstOp v)
  | NotOp v => NotOp <$> reconstruct v
  | CropOp n v => CropOp n <$> reconstruct v
  | SignExtendOp n v => SignExtendOp n <$> reconstruct v
  | SelectOp s t v => SelectOp s t <$> reconstruct v
  | ParityOp v => ParityOp <$> reconstruct v
  | IsZeroOp v => IsZeroOp <$> reconstruct v
  | ByteMaskOp v => ByteMaskOp <$> reconstruct v
  | BitMaskOp v => BitMaskOp <$> reconstruct v
  | TrailingZerosOp v => TrailingZerosOp <$> reconstruct v
  | LeadingZerosOp v => LeadingZerosOp <$> reconstruct v
  | PopCountOp v => PopCountOp <$> reconstruct v
  | SwapBytesOp n v => SwapBytesOp n <$> reconstruct v
  | AddOp v w => v ← reconstruct v; w ← reconstruct w; Ok (AddOp v w)
  | SubOp v w => v ← reconstruct v; w ← reconstruct w; Ok (SubOp v w)
  | MulOp v w => v ← reconstruct v; w ← reconstruct w; Ok (MulOp v w)
  | CarrylessMulOp v w => v ← reconstruct v; w ← reconstruct w; Ok (CarrylessMulOp v w)
  | DivOp v w => v ← reconstruct v; w ← reconstruct w; Ok (DivOp v w)
  | UnsignedDivOp v w => v ← reconstruct v; w ← reconstruct w; Ok (UnsignedDivOp v w)
  | RemOp v w => v ← reconstruct v; w ← reconstruct w; Ok (RemOp v w)
  | UnsignedRemOp v w => v ← reconstruct v; w ← reconstruct w; Ok (UnsignedRemOp v w)
  | ShlOp v w => v ← reconstruct v; w ← reconstruct w; Ok (ShlOp v w)
  | ShrOp v w => v ← reconstruct v; w ← reconstruct w; Ok (ShrOp v w)
  | AndOp v w => v ← reconstruct v; w ← reconstruct w; Ok (AndOp v w)
  | OrOp v w => v ← reconstruct v; w ← reconstruct w; Ok (OrOp v w)
  | XorOp v w => v ← reconstruct v; w ← reconstruct w; Ok (XorOp v w)
  | CmpLtOp v w => v ← reconstruct v; w ← reconstruct w; Ok (CmpLtOp v w)
  | RolOp n v w => v ← reconstruct v; w ← reconstruct w; Ok (RolOp n v w)
  | IfZeroOp c z nz =>
      c ← reconstruct c; z ← reconstruct z; nz ← reconstruct nz; Ok (IfZeroOp c z nz)
  | DepositBitsOp v w => v ← reconstruct v; w ← reconstruct w; Ok (DepositBitsOp v w)
  | ExtractBitsOp v w => v ← reconstruct v; w ← reconstruct w; Ok (ExtractBitsOp v w)
  end.

Section macro.
Context {P : profile}.

(** [ExprBuilder::compute]. *)
Definition builder_compute (b : ExprBuilder) (args : nat → M Z) : M Z :=
  t ← reconstruct (builder b); compute t args.

(** The four functions the [expr!] macro generates: each checks the number of
    arguments first. *)
Definition macro_fast_eval (b : ExprBuilder) (NUM_HOLES : nat) : FastEval := {|
  eval := λ args,
    assert! (NUM_HOLES <=? length args)%nat; builder_compute b (vget args);
  eval_indirect := λ all_args mapping,
    assert! (NUM_HOLES <=? length mapping)%nat; builder_compute b (indirect all_args mapping);
  eval_indirect_u64 := λ all_args mapping,
    assert! (NUM_HOLES <=? length mapping)%nat;
    r ← builder_compute b (indirect all_args mapping); Ok (wrap 64 r);
  eval_indirect_bool := λ all_args mapping,
    assert! (NUM_HOLES <=? length mapping)%nat;
    r ← builder_compute b (indirect all_args mapping); Ok (negb (Z.land (wrap 64 r) 1 =? 0));
|}.

Definition expr_macro (b : ExprBuilder) : M Expr :=
  OPS ← as_slice (writer b);
  NUM_HOLES ← count_holes OPS;
  Ok (with_fast_eval (new OPS) (macro_fast_eval b NUM_HOLES)).
End macro.
