(* ===== verification/ExprFacts.v ===== *)
(** * Compiled expressions compute what their tree computes

    The correctness of [expr!]: for every builder made with the builder
    functions, evaluating the generated operations on the stack and calling the
    generated [fast_eval] functions give the same result, panics included. *)
From S2P Require Import Prelude MachInt Utils Ops Expr.

(** ** The postfix code of a tree *)

Fixpoint postfix (e : FastOp) : list Op :=
  match e with
  | Val _ => []
  | HoleOp n => [Hole n]
  | ConstOp v => [Const v]
  | NotOp v => postfix v ++ [Not]
  | CropOp n v => postfix v ++ [Crop n]
  | SignExtendOp n v => postfix v ++ [SignExtend n]
  | SelectOp s t v => postfix v ++ [Select s t]
  | ParityOp v => postfix v ++ [Parity]
  | IsZeroOp v => postfix v ++ [IsZero]
  | ByteMaskOp v => postfix v ++ [ByteMask]
  | BitMaskOp v => postfix v ++ [BitMask]
  | TrailingZerosOp v => postfix v ++ [TrailingZeros]
  | LeadingZerosOp v => postfix v ++ [LeadingZeros]
  | PopCountOp v => postfix v ++ [PopCount]
  | SwapBytesOp n v => postfix v ++ [SwapBytes n]
  | AddOp v w => postfix v ++ postfix w ++ [Add]
  | SubOp v w => postfix v ++ postfix w ++ [Sub]
  | MulOp v w => postfix v ++ postfix w ++ [Mul]
  | CarrylessMulOp v w => postfix v ++ postfix w ++ [CarrylessMul]
  | DivOp v w => postfix v ++ postfix w ++ [Div]
  | UnsignedDivOp v w => postfix v ++ postfix w ++ [UnsignedDiv]
  | RemOp v w => postfix v ++ postfix w ++ [Rem]
  | UnsignedRemOp v w => postfix v ++ postfix w ++ [UnsignedRem]
  | ShlOp v w => postfix v ++ postfix w ++ [Shl]
  | ShrOp v w => postfix v ++ postfix w ++ [Shr]
  | AndOp v w => postfix v ++ postfix w ++ [And]
  | OrOp v w => postfix v ++ postfix w ++ [Or]
  | XorOp v w => postfix v ++ postfix w ++ [Xor]
  | CmpLtOp v w => postfix v ++ postfix w ++ [CmpLt]
  | RolOp n v w => postfix v ++ postfix w ++ [Rol n]
  | IfZeroOp c z nz => postfix c ++ postfix z ++ postfix nz ++ [IfZero]
  | DepositBitsOp v w => postfix v ++ postfix w ++ [DepositBits]
  | ExtractBitsOp v w => postfix v ++ postfix w ++ [ExtractBits]
  end.

(** The trees [reconstruct] accepts (those without [Val]) are the ones it leaves
    unchanged; the lemma below reduces [reconstruct] to this test. *)
Fixpoint no_val (e : FastOp) : bool :=
  match e with
  | Val _ => false
  | HoleOp _ | ConstOp _ => true
  | NotOp v | CropOp _ v | SignExtendOp _ v | SelectOp _ _ v | ParityOp v | IsZeroOp v
  | ByteMaskOp v | BitMaskOp v | TrailingZerosOp v | LeadingZerosOp v | PopCountOp v
  | SwapBytesOp _ v => no_val v
  | AddOp v w | SubOp v w | MulOp v w | CarrylessMulOp v w | DivOp v w | UnsignedDivOp v w
  | RemOp v w | UnsignedRemOp v w | ShlOp v w | ShrOp v w | AndOp v w | OrOp v w | XorOp v w
  | CmpLtOp v w | RolOp _ v w | DepositBitsOp v w | ExtractBitsOp v w => no_val v && no_val w
  | IfZeroOp c z nz => no_val c && no_val z && no_val nz
  end.

Lemma reconstruct_no_val e : no_val e = true → reconstruct e = Ok e.
Proof.
  induction e; cbn [no_val reconstruct]; rewrite ?andb_true_iff; intros; destruct_and?; try done;
    repeat match goal with IH : ?p → reconstruct _ = _, H : ?p |- _ => rewrite (IH H); clear IH end;
    reflexivity.
Qed.

(** ** Running postfix code *)

Section run.
Context {P : profile} (args : nat → M Z).

Lemma run_app N l k top stack :
  run N (l ++ k) args top stack = ('(top, stack) ← run N l args top stack; run N k args top stack).
Proof.
  revert top stack. induction l as [|o l IH]; intros top stack; [done|]. cbn [app run].
  rewrite M_bind_assoc. apply M_bind_ext; intros [top' stack']. apply IH.
Qed.

(** What it means for code to push the value of a computation. *)
Definition pushes (N : nat) (l : list Op) (m : M Z) : Prop :=
  ∀ top stack, (length stack + length l <= N)%nat →
    run N l args top stack = (v ← m; Ok (v, top :: stack)).

Lemma pushes_un N l m o f : pushes N l m →
  (∀ top stack, eval_from_stack N o args top stack = unop f top stack) →
  pushes N (l ++ [o]) (un f m).
Proof.
  intros Hl Ho top stack Hlen. rewrite length_app in Hlen. cbn [length] in Hlen.
  rewrite run_app, Hl, M_bind_assoc by lia. unfold un. rewrite M_bind_assoc.
  apply M_bind_ext; intros v. rewrite M_bind_Ok. cbn [run]. rewrite Ho. unfold unop.
  by destruct (f v).
Qed.
Lemma pushes_bin N l1 l2 m1 m2 o f : pushes N l1 m1 → pushes N l2 m2 → l1 ≠ [] →
  (∀ top stack, eval_from_stack N o args top stack = binop f top stack) →
  pushes N (l1 ++ l2 ++ [o]) (bin f m1 m2).
Proof.
  intros H1 H2 Hne Ho top stack Hlen. rewrite !length_app in Hlen. cbn [length] in Hlen.
  assert (0 < length l1)%nat by (destruct l1; [done | cbn; lia]).
  rewrite run_app, H1, M_bind_assoc by lia. unfold bin. rewrite M_bind_assoc.
  apply M_bind_ext; intros v. rewrite M_bind_Ok, run_app, H2, !M_bind_assoc by (cbn; lia).
  apply M_bind_ext; intros w. rewrite M_bind_Ok. cbn [run]. rewrite Ho. unfold binop.
  cbn [pop mbind M_bind]. by destruct (f v w).
Qed.

Lemma postfix_nonempty e : no_val e = true → postfix e ≠ [].
Proof.
  destruct e; cbn [no_val postfix]; try done; intros _ H; by repeat apply app_eq_nil in H as [_ H].
Qed.

Lemma postfix_pushes N e : no_val e = true → pushes N (postfix e) (compute e args).
Proof.
  induction e; cbn [no_val postfix compute]; rewrite ?andb_true_iff; intros He; destruct_and?; try done;
    try (apply pushes_un; [auto | done]);
    try (apply pushes_bin; [auto | auto | by apply postfix_nonempty | done]).
  - intros top stack Hlen. cbn [length] in Hlen. cbn [run eval_from_stack]. unfold push.
    case_cmps. rewrite !M_bind_Ok, M_bind_assoc. by apply M_bind_ext.
  - intros top stack Hlen. cbn [length] in Hlen. cbn [run eval_from_stack]. unfold push.
    case_cmps. done.
  - intros top stack Hlen. rewrite !length_app in Hlen. cbn [length] in Hlen.
    assert (∀ e, no_val e = true → 0 < length (postfix e))%nat as Hpos.
    { intros e He. pose proof (postfix_nonempty e He). destruct (postfix e); [done | cbn; lia]. }
    pose proof (Hpos e1 ltac:(done)). pose proof (Hpos e2 ltac:(done)).
    rewrite run_app, IHe1, !M_bind_assoc by (done || lia). apply M_bind_ext; intros c.
    rewrite M_bind_Ok, run_app, IHe2, !M_bind_assoc by (done || cbn; lia). apply M_bind_ext; intros z.
    rewrite M_bind_Ok, run_app, IHe3, !M_bind_assoc by (done || cbn; lia). apply M_bind_ext; intros nz.
    done.
Qed.
End run.

Lemma evaluate_indirect_postfix {P : profile} e arg :
  no_val e = true → (length (postfix e) <= STACK_SIZE)%nat →
  evaluate_indirect_on_stack (postfix e) arg = compute e arg.
Proof.
  intros He Hlen. unfold evaluate_indirect_on_stack.
  rewrite (postfix_pushes arg STACK_SIZE e He) by done. rewrite M_bind_assoc. apply M_bind_ret.
Qed.

(** ** What the builder functions write *)

Definition writer_wf (w : OpWriter) : Prop := length (data w) = MAX_OPS ∧ (index w <= MAX_OPS)%nat.
Definition written (w : OpWriter) : list Op := take (index w) (data w).

Lemma written_length w : writer_wf w → length (written w) = index w.
Proof. intros [H1 H2]. unfold written. rewrite length_take. lia. Qed.
Lemma new_writer_wf : writer_wf new_writer.
Proof. split; [apply length_replicate | cbn; lia]. Qed.
Lemma write_spec w op w' : writer_wf w → write w op = Ok w' →
  writer_wf w' ∧ written w' = written w ++ [op].
Proof.
  intros [Hl Hi] H. unfold write in H. M_inv H. subst. apply (inj Ok) in H as <-.
  unfold writer_wf, written; cbn [data index]. rewrite length_insert.
  split; [split; lia|]. rewrite Nat.add_1_r.
  rewrite (take_S_r _ _ op) by (apply list_lookup_insert_eq; lia).
  by rewrite take_insert_ge.
Qed.
Lemma write_builder_spec w v w' : writer_wf w → writer_wf v → write_builder w v = Ok w' →
  writer_wf w' ∧ written w' = written w ++ written v.
Proof.
  intros [Hl Hi] [Hl' Hi'] H. unfold write_builder in H. M_inv H. apply Nat.ltb_lt in E.
  apply (inj Ok) in H as <-. unfold writer_wf, written; cbn [data index].
  rewrite !length_app, !length_take, length_drop. split; [split; lia|].
  rewrite app_assoc, take_app_le by (rewrite length_app, !length_take; lia).
  apply take_ge. rewrite length_app, !length_take. lia.
Qed.

(** A builder is well formed when its writer holds the postfix code of its tree
    and its const parameter is the number of operations. *)
Record builder_wf (b : ExprBuilder) : Prop := {
  bwf_writer : writer_wf (writer b);
  bwf_code : written (writer b) = postfix (builder b);
  bwf_no_val : no_val (builder b) = true;
  bwf_N : const_N b = index (writer b);
}.

(** A writer holding a given list of operations; the builder functions are
    sequences of [write] and [write_builder] on such writers. *)
Definition holds (w : OpWriter) (l : list Op) : Prop := writer_wf w ∧ written w = l.

Lemma holds_index w l : holds w l → index w = length l.
Proof. intros [Hw <-]. by rewrite written_length. Qed.
Lemma holds_new : holds new_writer [].
Proof. split; [apply new_writer_wf | done]. Qed.
Lemma holds_write w l op w' : holds w l → write w op = Ok w' → holds w' (l ++ [op]).
Proof. intros [Hw <-] H. by apply write_spec. Qed.
Lemma holds_write_builder w l v k w' : holds w l → holds v k → write_builder w v = Ok w' →
  holds w' (l ++ k).
Proof. intros [Hw <-] [Hv <-] H. by apply write_builder_spec. Qed.
Lemma holds_binop a b op w' l k : holds (writer a) l → holds (writer b) k →
  binop_writer a b op = Ok w' → holds w' (l ++ k ++ [op]).
Proof.
  intros Ha Hb H. unfold binop_writer in H. M_inv H. rewrite app_assoc.
  eauto using holds_write, holds_write_builder.
Qed.
Lemma builder_wf_holds b : builder_wf b → holds (writer b) (postfix (builder b)).
Proof. by intros []. Qed.
Lemma builder_wf_intro n k w t : holds w (postfix t) → no_val t = true → n = length (postfix t) →
  builder_wf {| const_N := n; num_ops := k; writer := w; builder := t |}.
Proof. intros Hw Ht Hn. pose proof (holds_index w _ Hw). destruct Hw. split; cbn; congruence. Qed.
Lemma builder_wf_N b : builder_wf b → const_N b = length (postfix (builder b)).
Proof. intros Hb. rewrite (bwf_N b Hb). apply holds_index, builder_wf_holds, Hb. Qed.
#[export] Hint Resolve holds_new holds_write holds_write_builder holds_binop builder_wf_holds bwf_no_val : rust.

Section builder_functions.
Context (a b : ExprBuilder) (Ha : builder_wf a) (Hb : builder_wf b).

Lemma fn1_wf op t r : postfix t = postfix (builder a) ++ [op] → no_val t = no_val (builder a) →
  fn1 a op t = Ok r → builder_wf r.
Proof using Ha.
  intros Hp Hn H. unfold fn1, unop_writer in H. M_inv H. apply (inj Ok) in H as <-.
  apply builder_wf_intro; rewrite Hp || rewrite Hn; [eauto with rust | by apply bwf_no_val |].
  rewrite length_app, (builder_wf_N a) by done. cbn; lia.
Qed.
Lemma method1_wf op t r : postfix t = postfix (builder a) ++ [op] → no_val t = no_val (builder a) →
  method1 a (write (writer a) op) t = Ok r → builder_wf r.
Proof using Ha.
  intros Hp Hn H. unfold method1 in H. M_inv H. apply (inj Ok) in H as <-.
  apply builder_wf_intro; rewrite Hp || rewrite Hn; [eauto with rust | by apply bwf_no_val |].
  rewrite length_app, (builder_wf_N a) by done. cbn; lia.
Qed.
Lemma fn2_wf op t r : postfix t = postfix (builder a) ++ postfix (builder b) ++ [op] →
  no_val t = no_val (builder a) && no_val (builder b) →
  fn2 a b op t = Ok r → builder_wf r.
Proof using Ha Hb.
  intros Hp Hn H. unfold fn2 in H. M_inv H. apply (inj Ok) in H as <-.
  apply builder_wf_intro; rewrite Hp || rewrite Hn;
    [eauto with rust | by rewrite (bwf_no_val a Ha), (bwf_no_val b Hb) |].
  rewrite !length_app, (builder_wf_N a), (builder_wf_N b) by done. cbn; lia.
Qed.
Lemma method2_wf op t r : postfix t = postfix (builder a) ++ postfix (builder b) ++ [op] →
  no_val t = no_val (builder a) && no_val (builder b) →
  method2 a b (binop_writer a b op) t = Ok r → builder_wf r.
Proof using Ha Hb.
  intros Hp Hn H. unfold method2 in H. M_inv H. apply (inj Ok) in H as <-.
  apply builder_wf_intro; rewrite Hp || rewrite Hn;
    [eauto with rust | by rewrite (bwf_no_val a Ha), (bwf_no_val b Hb) |].
  rewrite !length_app, (builder_wf_N a), (builder_wf_N b) by done. cbn; lia.
Qed.
Lemma concat_bit_wf r : Build.concat_bit a b = Ok r → builder_wf r.
Proof using Ha Hb.
  intros H. unfold Build.concat_bit in H. M_inv H. apply (inj Ok) in H as <-.
  apply builder_wf_intro.
  - replace (postfix _) with (((([] ++ postfix (builder a)) ++ [Const 1]) ++ [Shl]) ++ postfix (builder b) ++ [Or])
      by (cbn [postfix app]; by rewrite <- !app_assoc).
    rewrite app_assoc. eauto 10 with rust.
  - cbn. by rewrite (bwf_no_val a Ha), (bwf_no_val b Hb).
  - cbn [postfix]. rewrite !length_app, (builder_wf_N a), (builder_wf_N b) by done. cbn; lia.
Qed.
End builder_functions.

Lemma leaf_wf op t r : postfix t = [op] → no_val t = true → leaf op t = Ok r → builder_wf r.
Proof.
  intros Hp Hn H. unfold leaf in H. M_inv H. apply (inj Ok) in H as <-.
  apply builder_wf_intro; rewrite ?Hp; [|done|done].
  change [op] with ([] ++ [op]). eauto with rust.
Qed.
Lemma if_zero_wf a b c r : builder_wf a → builder_wf b → builder_wf c →
  Build.if_zero a b c = Ok r → builder_wf r.
Proof.
  intros Ha Hb Hc H. unfold Build.if_zero in H. M_inv H. apply (inj Ok) in H as <-.
  apply builder_wf_intro.
  - replace (postfix _) with ((([] ++ postfix (builder a)) ++ postfix (builder b)) ++ postfix (builder c) ++ [IfZero])
      by (cbn [postfix app]; by rewrite <- !app_assoc).
    rewrite app_assoc. eauto 10 with rust.
  - cbn. by rewrite (bwf_no_val a Ha), (bwf_no_val b Hb), (bwf_no_val c Hc).
  - cbn [postfix]. rewrite !length_app, (builder_wf_N a), (builder_wf_N b), (builder_wf_N c) by done. cbn; lia.
Qed.
Lemma abs_wf a r : builder_wf a → Build.abs a = Ok r → builder_wf r.
Proof.
  intros Ha H. unfold Build.abs in H. M_inv H. apply (inj Ok) in H as <-.
  apply builder_wf_intro.
  - replace (postfix _) with (((((((([] ++ postfix (builder a)) ++ [Select 127 1]) ++ postfix (builder a)) ++
      postfix (builder a)) ++ [Not]) ++ [Const 1]) ++ [Add]) ++ [IfZero])
      by (cbn [postfix app]; by rewrite <- !app_assoc).
    eauto 20 with rust.
  - cbn. by rewrite (bwf_no_val a Ha).
  - cbn [postfix]. rewrite !length_app, (builder_wf_N a) by done. cbn; lia.
Qed.

(** ** Builders made with the public functions *)

Inductive built : ExprBuilder → Prop :=
| built_hole n r : Build.hole n = Ok r → built r
| built_c v r : Build.c v = Ok r → built r
| built_zero r : Build.zero = Ok r → built r
| built_one r : Build.one = Ok r → built r
| built_not a r : built a → Build.not a = Ok r → built r
| built_crop n a r : built a → Build.crop n a = Ok r → built r
| built_sign_extend n a r : built a → Build.sign_extend n a = Ok r → built r
| built_select s t a r : built a → Build.select s t a = Ok r → built r
| built_parity a r : built a → Build.parity a = Ok r → built r
| built_is_zero a r : built a → Build.is_zero a = Ok r → built r
| built_byte_mask a r : built a → Build.byte_mask a = Ok r → built r
| built_bit_mask a r : built a → Build.bit_mask a = Ok r → built r
| built_trailing_zeros a r : built a → Build.trailing_zeros a = Ok r → built r
| built_leading_zeros a r : built a → Build.leading_zeros a = Ok r → built r
| built_popcount a r : built a → Build.popcount a = Ok r → built r
| built_abs a r : built a → Build.abs a = Ok r → built r
| built_rol n a b r : built a → built b → Build.rol n a b = Ok r → built r
| built_extract_bits a b r : built a → built b → Build.extract_bits a b = Ok r → built r
| built_deposit_bits a b r : built a → built b → Build.deposit_bits a b = Ok r → built r
| built_mul a b r : built a → built b → Build.mul a b = Ok r → built r
| built_carryless_mul a b r : built a → built b → Build.carryless_mul a b = Ok r → built r
| built_div a b r : built a → built b → Build.div a b = Ok r → built r
| built_udiv a b r : built a → built b → Build.udiv a b = Ok r → built r
| built_rem a b r : built a → built b → Build.rem a b = Ok r → built r
| built_urem a b r : built a → built b → Build.urem a b = Ok r → built r
| built_shl a b r : built a → built b → Build.shl a b = Ok r → built r
| built_shr a b r : built a → built b → Build.shr a b = Ok r → built r
| built_and a b r : built a → built b → Build.and a b = Ok r → built r
| built_add a b r : built a → built b → Build.add a b = Ok r → built r
| built_sub a b r : built a → built b → Build.sub a b = Ok r → built r
| built_or a b r : built a → built b → Build.or a b = Ok r → built r
| built_xor a b r : built a → built b → Build.xor a b = Ok r → built r
| built_less_than a b r : built a → built b → Build.less_than a b = Ok r → built r
| built_concat_bit a b r : built a → built b → Build.concat_bit a b = Ok r → built r
| built_if_zero a b c r : built a → built b → built c → Build.if_zero a b c = Ok r → built r.

Lemma built_wf b : built b → builder_wf b.
Proof.
  induction 1 as
    [? ? H|? ? H|? H|? H|? ? ? ? H|? ? ? ? ? H|? ? ? ? ? H|? ? ? ? ? ? H|? ? ? ? H|? ? ? ? H|? ? ? ? H|? ? ? ? H
    |? ? ? ? H|? ? ? ? H|? ? ? ? H|? ? ? Ha H|? ? ? ? ? ? ? ? H|? ? ? ? ? ? ? H|? ? ? ? ? ? ? H|? ? ? ? ? ? ? H
    |? ? ? ? ? ? ? H|? ? ? ? ? ? ? H|? ? ? ? ? ? ? H|? ? ? ? ? ? ? H|? ? ? ? ? ? ? H|? ? ? ? ? ? ? H|? ? ? ? ? ? ? H
    |? ? ? ? ? ? ? H|? ? ? ? ? ? ? H|? ? ? ? ? ? ? H|? ? ? ? ? ? ? H|? ? ? ? ? ? ? H|? ? ? ? ? ? ? H
    |? ? ? ? Ha ? Hb H|? ? ? ? ? Ha ? Hb ? Hc H];
  lazymatch type of H with
  | Build.abs _ = _ => exact (abs_wf _ _ Ha H)
  | Build.concat_bit _ _ = _ => exact (concat_bit_wf _ _ Ha Hb _ H)
  | Build.if_zero _ _ _ = _ => exact (if_zero_wf _ _ _ _ Ha Hb Hc H)
  | ?f = _ =>
      let f' := eval cbv delta [Build.hole Build.c Build.zero Build.one Build.not Build.crop
        Build.sign_extend Build.select Build.parity Build.is_zero Build.byte_mask Build.bit_mask
        Build.trailing_zeros Build.leading_zeros Build.popcount Build.rol Build.extract_bits
        Build.deposit_bits Build.mul Build.carryless_mul Build.div Build.udiv Build.rem Build.urem
        Build.shl Build.shr Build.and Build.add Build.sub Build.or Build.xor Build.less_than
        unop_writer] beta in f in
      change (f' = Ok r) in H
  end.
  all: lazymatch type of H with
  | leaf _ _ = _ => by refine (leaf_wf _ _ _ _ _ H)
  | fn1 _ _ _ = _ => by refine (fn1_wf _ _ _ _ _ _ _ H)
  | method1 _ _ _ = _ => by refine (method1_wf _ _ _ _ _ _ _ H)
  | fn2 _ _ _ _ = _ => by refine (fn2_wf _ _ _ _ _ _ _ _ _ H)
  | method2 _ _ _ _ = _ => by refine (method2_wf _ _ _ _ _ _ _ _ _ H)
  end.
Qed.

(** C27: the writer invariant holds for every builder made with the builder
    functions: the operations written are the postfix code of the tree, their
    number is the const parameter of the builder type and at most [MAX_OPS],
    and the tree can be rebuilt from its type. *)
Theorem built_invariant b : built b →
  as_slice (writer b) = Ok (postfix (builder b)) ∧
  length (postfix (builder b)) = const_N b ∧ (const_N b <= MAX_OPS)%nat ∧
  reconstruct (builder b) = Ok (builder b).
Proof.
  intros Hb%built_wf. pose proof (builder_wf_holds b Hb) as [[Hl Hi] Hw].
  unfold as_slice. rewrite (proj2 (Nat.leb_le _ _) Hi). cbn [rassert mbind M_bind].
  unfold written in Hw. rewrite Hw, (builder_wf_N b Hb), (reconstruct_no_val _ (bwf_no_val b Hb)).
  split_and!; [done..| |done]. rewrite <- Hw, length_take. lia.
Qed.

(** The example of the test suite: [or(hole::<0>(), shl(hole::<2>(), hole::<1>().crop::<3>()))]. *)
Definition bit_set_builder : M ExprBuilder :=
  h0 ← Build.hole 0; h1 ← Build.hole 1; h2 ← Build.hole 2;
  cr ← Build.crop 3 h1; sh ← Build.shl h2 cr; Build.or h0 sh.

Lemma bit_set_built b : bit_set_builder = Ok b → built b.
Proof.
  unfold bit_set_builder. intros H. M_inv H.
  match goal with
  | H0 : Build.hole 0 = Ok ?h0, H1 : Build.hole 1 = Ok ?h1, H2 : Build.hole 2 = Ok ?h2,
    Hc : Build.crop 3 _ = Ok ?cr, Hs : Build.shl _ _ = Ok ?sh |- _ =>
      exact (built_or h0 sh b (built_hole 0 h0 H0)
        (built_shl h2 cr sh (built_hole 2 h2 H2) (built_crop 3 h1 cr (built_hole 1 h1 H1) Hc) Hs) H)
  end.
Qed.

Lemma built_invariant_witness :
  ∃ b, bit_set_builder = Ok b ∧
    as_slice (writer b) = Ok [Hole 0; Hole 2; Hole 1; Crop 3; Shl; Or].
Proof.
  destruct bit_set_builder as [b| |] eqn:E; [|vm_compute in E; discriminate..].
  exists b. split; [done|]. destruct (built_invariant b (bit_set_built b E)) as [-> _].
  vm_compute in E. by simplify_eq.
Defined.

(** ** Counting the holes *)

Definition has_hole (l : list Op) (n : nat) : bool := bool_decide (Hole n ∈ l).

Lemma mark_holes_spec l : ∀ seen seen', mark_holes l seen = Ok seen' →
  length seen' = length seen ∧
  ∀ n, (n < length seen)%nat →
    seen' !! n = Some true ↔ seen !! n = Some true ∨ Hole n ∈ l.
Proof.
  induction l as [|o l IH]; intros seen seen' H; cbn [mark_holes] in H.
  { apply (inj Ok) in H as <-. split; [done|]. intros. set_solver. }
  destruct o; try (destruct (IH _ _ H) as [? Hn]; split; [done|]; intros; rewrite Hn by done; set_solver).
  M_inv H. subst. destruct (IH _ _ H) as [Hlen Hn]. rewrite length_insert in *. split; [done|].
  intros k Hk. rewrite Hn by done. destruct (decide (k = n)) as [->|].
  - rewrite list_lookup_insert_eq by done. set_solver.
  - rewrite list_lookup_insert_ne by done. set_solver.
Qed.
Lemma mark_holes_ok l : ∀ seen, (∀ n, Hole n ∈ l → (n < length seen)%nat) →
  ∃ seen', mark_holes l seen = Ok seen'.
Proof.
  induction l as [|o l IH]; intros seen Hl; cbn [mark_holes]; [eauto|].
  destruct o; try (apply IH; set_solver).
  rewrite vset_lt by (apply Hl; left). rewrite M_bind_Ok. apply IH.
  intros k Hk. rewrite length_insert. apply Hl; by right.
Qed.
Lemma mark_holes_bound l : ∀ seen seen', mark_holes l seen = Ok seen' →
  ∀ n, Hole n ∈ l → (n < length seen)%nat.
Proof.
  induction l as [|o l IH]; intros seen seen' H k Hk; [by apply not_elem_of_nil in Hk|].
  cbn [mark_holes] in H. destruct o;
    try (apply elem_of_cons in Hk as [Hk|Hk]; [discriminate Hk | exact (IH _ _ H k Hk)]).
  M_inv H. subst. apply elem_of_cons in Hk as [[= ->]|Hk]; [done|].
  pose proof (IH _ _ H k Hk) as Hlt. by rewrite length_insert in Hlt.
Qed.
Lemma leading_marks_spec l : ∀ k n,
  leading_marks l k = Ok n ↔ (k <= n)%nat ∧ l !! (n - k)%nat = Some false ∧
    ∀ i, (i < n - k)%nat → l !! i = Some true.
Proof.
  induction l as [|[] l IH]; intros k n; cbn [leading_marks].
  - split; [done|]. intros (_ & H & _). by rewrite lookup_nil in H.
  - rewrite IH. split.
    + intros (H1 & H2 & H3). replace (n - k)%nat with (S (n - S k)) by lia. split_and!; [lia|done|].
      intros [|i] Hi; [done|]. apply H3; lia.
    + intros (H1 & H2 & H3). destruct (decide (n = k)) as [->|].
      { by rewrite Nat.sub_diag in H2. }
      replace (n - k)%nat with (S (n - S k)) in * by lia. split_and!; [lia|done|].
      intros i Hi. apply (H3 (S i)). lia.
  - split.
    + intros [= <-]. rewrite Nat.sub_diag. split_and!; [done..|]. intros; lia.
    + intros (H1 & H2 & H3). destruct (decide (n = k)) as [->|]; [done|].
      specialize (H3 0%nat ltac:(lia)). done.
Qed.

#[local] Opaque MAX_HOLES.
(** [count_holes] returns [n] exactly when the holes that occur in the
    operations are the numbers below [n] (no gaps) and there are fewer than
    4096 of them; in every other case it panics. *)
Theorem count_holes_spec l n : count_holes l = Ok n ↔
  (∀ h, Hole h ∈ l ↔ (h < n)%nat) ∧ (n < MAX_HOLES)%nat.
Proof.
  unfold count_holes. split.
  - intros H. M_inv H. destruct (mark_holes_spec _ _ _ E) as [Hlen Hseen].
    rewrite length_replicate in *. apply (inj Ok) in H as ->.
    apply leading_marks_spec in E0 as (_ & Hfalse & Htrue). rewrite Nat.sub_0_r in *.
    pose proof (lookup_lt_Some _ _ _ Hfalse) as Hn. rewrite Hlen in Hn. split; [|done].
    assert (∀ h, (h < MAX_HOLES)%nat → a !! h = Some true ↔ Hole h ∈ l) as Hmark.
    { intros h Hh. rewrite Hseen by done. rewrite lookup_replicate. split; [intros [[Hf _]|]; done|auto]. }
    intros h. split.
    + intros Hh. destruct (decide (h < n)%nat) as [|Hge]; [done|exfalso].
      assert (h < MAX_HOLES)%nat as Hlt by exact (mark_holes_bound _ _ _ E h Hh).
      apply Hmark in Hh; [|done]. apply forallb_forall with (x := true) in E1; [done|].
      apply list_elem_of_In, (list_elem_of_lookup_2 _ (h - n)). rewrite lookup_drop.
      by replace (n + (h - n))%nat with h by lia.
    + intros Hh. apply Hmark; [lia|]. by apply Htrue.
  - intros [Hh Hn].
    destruct (mark_holes_ok l (replicate MAX_HOLES false)) as [seen E].
    { intros h ?%Hh. rewrite length_replicate. lia. }
    rewrite E, M_bind_Ok. destruct (mark_holes_spec _ _ _ E) as [Hlen Hseen].
    rewrite length_replicate in *.
    assert (∀ h, (h < MAX_HOLES)%nat → seen !! h = Some (bool_decide (h < n)%nat)) as Hmark.
    { intros h Hlt. destruct (lookup_lt_is_Some_2 seen h) as [b Hb]; [lia|]. rewrite Hb. f_equal.
      specialize (Hseen h Hlt). rewrite lookup_replicate, Hh, Hb in Hseen.
      case_bool_decide; destruct b; naive_solver. }
    rewrite (proj2 (leading_marks_spec seen 0 n)).
    2:{ rewrite Nat.sub_0_r. split_and!; [lia| |].
        - rewrite Hmark by done. by rewrite bool_decide_false by lia.
        - intros i Hi. rewrite Hmark by lia. by rewrite bool_decide_true. }
    rewrite M_bind_Ok. replace (forallb negb _) with true; [done|]. symmetry.
    apply forallb_forall. intros b Hb%list_elem_of_In. apply list_elem_of_lookup_1 in Hb as [i Hi].
    rewrite lookup_drop in Hi. pose proof (lookup_lt_Some _ _ _ Hi).
    rewrite Hmark in Hi by lia. rewrite bool_decide_false in Hi by lia. by simplify_eq.
Qed.

(** ** The [expr!] macro *)

Lemma builder_compute_wf {P : profile} b args : builder_wf b →
  builder_compute b args = compute (builder b) args.
Proof.
  intros Hb. unfold builder_compute. by rewrite (reconstruct_no_val _ (bwf_no_val b Hb)), M_bind_Ok.
Qed.
Lemma written_evaluates {P : profile} b arg : builder_wf b →
  evaluate_indirect_on_stack (written (writer b)) arg = compute (builder b) arg.
Proof.
  intros Hb. rewrite (bwf_code b Hb). apply evaluate_indirect_postfix; [by apply bwf_no_val|].
  rewrite <- (builder_wf_N b Hb), (bwf_N b Hb). apply (bwf_writer b Hb).
Qed.
Lemma expr_macro_inv {P : profile} b e : builder_wf b → expr_macro b = Ok e →
  ∃ n, count_holes (written (writer b)) = Ok n ∧
       e = with_fast_eval (new (written (writer b))) (macro_fast_eval b n).
Proof.
  intros Hb H. unfold expr_macro, as_slice in H. M_inv H. apply (inj Ok) in H as <-.
  apply (inj Ok) in E as <-. eauto.
Qed.

(** C1: an expression made with [expr!] means the same whether its compiled
    functions are called or its operations are interpreted: [evaluate],
    [evaluate_indirect], [evaluate_indirect_as_u64] and
    [evaluate_indirect_as_bool] all equal their interpreted version on
    [without_fast_eval], panics included, whenever there are enough arguments;
    and the interpreted value is the one the tree of operations computes. *)
Theorem expr_macro_correct {P : profile} b e : built b → expr_macro b = Ok e →
  ∃ n, count_holes (ops e) = Ok n ∧
    (∀ args, (n <= length args)%nat →
      evaluate e args = evaluate (without_fast_eval e) args ∧
      evaluate e args = compute (builder b) (vget args)) ∧
    (∀ all_args mapping, (n <= length mapping)%nat →
      evaluate_indirect e all_args mapping = evaluate_indirect (without_fast_eval e) all_args mapping ∧
      evaluate_indirect_as_u64 e all_args mapping =
        evaluate_indirect_as_u64 (without_fast_eval e) all_args mapping ∧
      evaluate_indirect_as_bool e all_args mapping =
        evaluate_indirect_as_bool (without_fast_eval e) all_args mapping).
Proof.
  intros Hb%built_wf (n & Hn & ->)%expr_macro_inv; [|done]. exists n. split; [done|].
  split; [intros args Hlen | intros all_args mapping Hlen];
    cbn [evaluate evaluate_indirect evaluate_indirect_as_u64 evaluate_indirect_as_bool
      fast_eval ops with_fast_eval without_fast_eval new macro_fast_eval eval eval_indirect
      eval_indirect_u64 eval_indirect_bool];
    rewrite (proj2 (Nat.leb_le _ _) Hlen); cbn [rassert]; rewrite !M_bind_Ok, !builder_compute_wf by done.
  - change (evaluate_on_stack ?l args) with (evaluate_indirect_on_stack l (vget args)).
    by rewrite written_evaluates.
  - by rewrite !written_evaluates.
Qed.

Lemma bit_set_code b : bit_set_builder = Ok b →
  written (writer b) = [Hole 0; Hole 2; Hole 1; Crop 3; Shl; Or].
Proof.
  intros Hb. assert ((written ∘ writer) <$> bit_set_builder = Ok [Hole 0; Hole 2; Hole 1; Crop 3; Shl; Or])
    as H by (vm_compute; reflexivity).
  rewrite Hb in H. by apply (inj Ok) in H.
Qed.
Lemma count_holes_bit_set : count_holes [Hole 0; Hole 2; Hole 1; Crop 3; Shl; Or] = Ok 3%nat.
Proof. vm_compute. reflexivity. Qed.

Lemma expr_macro_correct_witness :
  ∃ b e, bit_set_builder = Ok b ∧ @expr_macro Dev b = Ok e ∧
    @evaluate Dev e [1; 11; 1] = @evaluate Dev (without_fast_eval e) [1; 11; 1].
Proof.
  destruct bit_set_builder as [b| |] eqn:Eb; [|vm_compute in Eb; discriminate..].
  pose proof (bit_set_code b Eb) as Hc. pose proof (bit_set_built b Eb) as Hb.
  assert (∃ e, @expr_macro Dev b = Ok e) as [e Ee].
  { unfold expr_macro, as_slice. destruct (bwf_writer b (built_wf b Hb)) as [_ Hi].
    rewrite (proj2 (Nat.leb_le _ _) Hi). cbn [rassert]. rewrite !M_bind_Ok.
    change (take _ _) with (written (writer b)). rewrite Hc, count_holes_bit_set, M_bind_Ok. eauto. }
  exists b, e. split_and!; [done..|].
  destruct (expr_macro_correct b e Hb Ee) as (n & Hn & Hev & _).
  apply Hev. destruct (expr_macro_inv b e (built_wf b Hb) Ee) as (m & Hm & ->).
  cbn [ops with_fast_eval new] in Hn. rewrite Hc, count_holes_bit_set in Hn.
  apply (inj Ok) in Hn as <-. cbn; lia.
Defined.

(** The constants [TRUE] and [FALSE], whose compiled functions are written by
    hand, evaluate to 1 and 0, as their operations do. *)
Theorem constants_agree {P : profile} :
  (∀ args, evaluate TRUE args = Ok 1 ∧ evaluate (without_fast_eval TRUE) args = Ok 1 ∧
     evaluate FALSE args = Ok 0 ∧ evaluate (without_fast_eval FALSE) args = Ok 0) ∧
  (∀ all_args mapping e, e = TRUE ∨ e = FALSE →
     evaluate_indirect e all_args mapping = evaluate_indirect (without_fast_eval e) all_args mapping ∧
     evaluate_indirect_as_u64 e all_args mapping =
       evaluate_indirect_as_u64 (without_fast_eval e) all_args mapping ∧
     evaluate_indirect_as_bool e all_args mapping =
       evaluate_indirect_as_bool (without_fast_eval e) all_args mapping).
Proof. split; [done|]. intros ? ? ? [->| ->]; done. Qed.

(** [concat_bit] records two operations fewer in [num_ops] than it writes
    (the number of operations is the const parameter of its type). *)
Theorem concat_bit_num_ops a b r : Build.concat_bit a b = Ok r → (num_ops r + 2 = const_N r)%nat.
Proof.
  unfold Build.concat_bit. intros H. M_inv H. apply (inj Ok) in H as <-. cbn. lia.
Qed.
Lemma concat_bit_num_ops_witness : ∃ r,
  (a ← Build.hole 0; b ← Build.hole 1; Build.concat_bit a b) = Ok r ∧ (num_ops r + 2 = const_N r)%nat.
Proof.
  destruct (Build.hole 0) as [a| |] eqn:Ea; [|vm_compute in Ea; discriminate..].
  destruct (Build.hole 1) as [b| |] eqn:Eb; [|vm_compute in Eb; discriminate..].
  assert ((const_N <$> (a ← Build.hole 0; b ← Build.hole 1; Build.concat_bit a b)) = Ok 5%nat)
    as H by (vm_compute; reflexivity).
  rewrite Ea, Eb, !M_bind_Ok in *. destruct (Build.concat_bit a b) as [r| |] eqn:E; [|discriminate H..].
  exists r. split; [done|]. exact (concat_bit_num_ops a b r E).
Defined.
