(* ===== verification/Size.v ===== *)
(** * Byte ranges

    Models [Size] of [liblisa/src/encoding/dataflows/locs.rs]: an inclusive
    range of byte indices of a register or a memory access.  Its operations are
    specified by the set of byte indices a size stands for. *)
From S2P Require Import Prelude MachInt Utils.

(** A [usize] is a [Z] below 2^64. *)
Record Size := { start_byte : Z; end_byte : Z }.

#[export] Instance Size_eq_dec : EqDecision Size.
Proof. solve_decision. Defined.

Module SizeOps.
Section ops.
Context {P : profile}.

Definition size_default : Size := {| start_byte := 0; end_byte := U64_MAX |}.
Definition new (start_byte end_byte : Z) : Size :=
  {| start_byte := start_byte; end_byte := end_byte |}.
Definition qword : Size := {| start_byte := 0; end_byte := 7 |}.
Definition union (self other : Size) : Size :=
  {| start_byte := Z.min (start_byte self) (start_byte other);
     end_byte := Z.max (end_byte self) (end_byte other) |}.
Definition contains (self other : Size) : bool :=
  (start_byte self <=? start_byte other) && (end_byte other <=? end_byte self).
Definition overlaps (self other : Size) : bool :=
  (start_byte other <=? end_byte self) && (start_byte self <=? end_byte other).
Definition overlapping_area (self other : Size) : option Size :=
  let start_byte := Z.max (start_byte self) (start_byte other) in
  let end_byte := Z.min (end_byte self) (end_byte other) in
  if start_byte <=? end_byte then Some (new start_byte end_byte) else None.
Definition split_by_overlap (self existing_size : Size) : M (option (option Size * Size * option Size)) :=
  let u := union self existing_size in
  match overlapping_area self existing_size with
  | None => Ok None
  | Some overlapping =>
      before ← (if start_byte u <? start_byte overlapping
                then e ← sub_u 64 (start_byte overlapping) 1; Ok (Some (new (start_byte u) e))
                else Ok None);
      after ← (if end_byte overlapping <? end_byte u
               then s ← add_u 64 (end_byte overlapping) 1; Ok (Some (new s (end_byte u)))
               else Ok None);
      Ok (Some (before, overlapping, after))
  end.
Definition num_bytes (self : Size) : M Z :=
  n ← sub_u 64 (end_byte self) (start_byte self); add_u 64 n 1.
Definition try_glue (self other : Size) : M (option Size) :=
  e ← add_u 64 (end_byte self) 1;
  if e =? start_byte other then Ok (Some (new (start_byte self) (end_byte other))) else
  e' ← add_u 64 (end_byte other) 1;
  if start_byte self =? e' then Ok (Some (new (start_byte other) (end_byte self))) else
  Ok None.
(** [usize] multiplication by 8 and the [u64] mask [(1 << bits) - 1]. *)
Definition mul8 (n : Z) : M Z :=
  if bool_decide (is_u 64 (n * 8)) then Ok (n * 8)
  else match P with Dev => Panic | Release => Ok (wrap 64 (n * 8)) end.
Definition select_mask (self : Size) (mask : option Z) : M (option Z) :=
  match mask with
  | None => Ok None
  | Some mask =>
      shift ← mul8 (start_byte self);
      n ← num_bytes self;
      bits ← mul8 n;
      one ← shl_u 64 1 bits;
      select ← sub_u 64 one 1;
      m ← shr 64 mask shift;
      Ok (Some (Z.land m select))
  end.
Definition iter_byte_indices (self : Size) : list Z :=
  (λ i, start_byte self + Z.of_nat i) <$> seq 0 (Z.to_nat (end_byte self - start_byte self + 1)).
End ops.
End SizeOps.
Import SizeOps.

Lemma mul8_ok {P : profile} n : is_u 64 (n * 8) → mul8 n = Ok (n * 8).
Proof. intros. unfold mul8. by rewrite bool_decide_true. Qed.
#[export] Hint Rewrite @mul8_ok using (unfold is_u in *; lia) : rust.

(** ** The set of bytes of a size *)

Definition has (s : Size) (i : Z) : Prop := start_byte s <= i <= end_byte s.
(** A non-empty range of [usize] indices whose length fits a [usize]. *)
Record size_wf (s : Size) : Prop := {
  wf_start : 0 <= start_byte s;
  wf_range : start_byte s <= end_byte s;
  wf_end : end_byte s + 1 < 2 ^ 64;
}.

Lemma elem_of_iter_byte_indices s i : i ∈ iter_byte_indices s ↔ has s i.
Proof.
  unfold iter_byte_indices, has. rewrite list_elem_of_fmap. setoid_rewrite elem_of_seq. split.
  - intros (j & -> & Hj). lia.
  - intros Hi. exists (Z.to_nat (i - start_byte s)). lia.
Qed.

Ltac size_solve :=
  unfold contains, overlaps, overlapping_area, union, has, new in *; cbn [start_byte end_byte] in *;
  rewrite ?andb_true_iff, ?Z.leb_le in *.

(** On non-empty ranges the operations of [Size] are those of the sets of
    bytes: [contains] is inclusion, [overlaps] a common byte,
    [overlapping_area] the intersection (none when it is empty), [union] the
    least range that includes both, and [iter_byte_indices] lists the set. *)
Theorem size_set_semantics s t : size_wf s → size_wf t →
  (contains s t = true ↔ ∀ i, has t i → has s i) ∧
  (overlaps s t = true ↔ ∃ i, has s i ∧ has t i) ∧
  (overlaps s t = bool_decide (is_Some (overlapping_area s t))) ∧
  (∀ a, overlapping_area s t = Some a → ∀ i, has a i ↔ has s i ∧ has t i) ∧
  (∀ u, contains u (union s t) = true ↔ (∀ i, has s i ∨ has t i → has u i)) ∧
  (∀ i, i ∈ iter_byte_indices s ↔ has s i).
Proof.
  intros [Hs1 Hs2 Hs3] [Ht1 Ht2 Ht3]. split_and!.
  - size_solve. split; [intros; lia|]. intros H.
    pose proof (H (start_byte t)). pose proof (H (end_byte t)). lia.
  - size_solve. split; [|intros (i & ? & ?); lia].
    intros. exists (Z.max (start_byte s) (start_byte t)). lia.
  - size_solve. destruct (Z.leb_spec (start_byte t) (end_byte s)), (Z.leb_spec (start_byte s) (end_byte t)),
      (Z.leb_spec (Z.max (start_byte s) (start_byte t)) (Z.min (end_byte s) (end_byte t)));
      try lia; symmetry; first [by apply bool_decide_true | by apply bool_decide_false; intros [? [=]]].
  - intros a. size_solve. case_match; intros [= <-] i; cbn; lia.
  - intros u. size_solve. split; [intros; lia|]. intros H.
    pose proof (H (start_byte s)). pose proof (H (end_byte s)).
    pose proof (H (start_byte t)). pose proof (H (end_byte t)). lia.
  - apply elem_of_iter_byte_indices.
Qed.

(** [split_by_overlap] cuts the union at the overlap: it never panics, it
    returns nothing exactly when the sizes are disjoint, and otherwise the three
    parts are non-empty, consecutive and cover the union. *)
Theorem split_by_overlap_spec {P : profile} s t : size_wf s → size_wf t →
  ∃ r, split_by_overlap s t = Ok r ∧
  match r with
  | None => ∀ i, ~ (has s i ∧ has t i)
  | Some (before, o, after) =>
      (∀ i, has o i ↔ has s i ∧ has t i) ∧
      (∀ b, before = Some b → size_wf b ∧ end_byte b + 1 = start_byte o) ∧
      (∀ a, after = Some a → size_wf a ∧ end_byte o + 1 = start_byte a) ∧
      (∀ i, has (union s t) i ↔
         (∃ b, before = Some b ∧ has b i) ∨ has o i ∨ (∃ a, after = Some a ∧ has a i))
  end.
Proof.
  intros [Hs1 Hs2 Hs3] [Ht1 Ht2 Ht3]. unfold split_by_overlap, overlapping_area.
  case_cmp; [|exists None; split; [done|]; intros i; unfold has; lia].
  cbn [start_byte end_byte new]. unfold union; cbn [start_byte end_byte].
  repeat case_cmp; autorewrite with rust; (eexists; split; [reflexivity|]); unfold has; cbn [start_byte end_byte new].
  all: split_and!; try (intros i; lia); try (intros ? [=<-]; split; [split|]; cbn [start_byte end_byte new]; lia); try done.
  all: intros i; cbn; split; [intros Hi | intros [(? & [=<-] & ?)|[?|(? & [=<-] & ?)]]; cbn in *; lia].
  all: destruct (Z.lt_ge_cases i (Z.max (start_byte s) (start_byte t)));
    [first [exfalso; lia | left; eexists; split; [reflexivity|]; cbn; lia]|].
  all: destruct (Z.lt_ge_cases (Z.min (end_byte s) (end_byte t)) i);
    [first [exfalso; lia | right; right; eexists; split; [reflexivity|]; cbn; lia] | right; left; lia].
Qed.

(** [try_glue] joins two ranges exactly when one starts where the other ends,
    and the result is the set of both. *)
Theorem try_glue_spec {P : profile} s t : size_wf s → size_wf t →
  ∃ r, try_glue s t = Ok r ∧
  (is_Some r ↔ end_byte s + 1 = start_byte t ∨ end_byte t + 1 = start_byte s) ∧
  ∀ g, r = Some g → ∀ i, has g i ↔ has s i ∨ has t i.
Proof.
  intros [Hs1 Hs2 Hs3] [Ht1 Ht2 Ht3]. unfold try_glue. autorewrite with rust. case_cmp.
  { eexists; split; [done|]. split; [naive_solver|]. intros g [= <-] i. unfold has; cbn; lia. }
  autorewrite with rust. case_cmp; (eexists; split; [done|]).
  - split; [naive_solver|]. intros g [= <-] i. unfold has; cbn; lia.
  - split; [|done]. split; [by intros [? [=]] | lia].
Qed.

(** [select_mask] extracts the bits of the range from a register mask, for
    ranges of less than eight bytes within the register. *)
Theorem select_mask_spec {P : profile} s mask : size_wf s → end_byte s < 8 →
  end_byte s - start_byte s < 7 → is_u 64 mask →
  ∃ r, select_mask s (Some mask) = Ok (Some r) ∧
  ∀ i, 0 <= i → Z.testbit r i =
    (i <? 8 * (end_byte s - start_byte s + 1)) && Z.testbit mask (8 * start_byte s + i).
Proof.
  intros [Hs1 Hs2 Hs3] He Hn Hm. unfold select_mask, num_bytes. autorewrite with rust.
  set (n := end_byte s - start_byte s + 1) in *.
  assert (2 ^ 0 <= 2 ^ (n * 8) < 2 ^ 64) as Hpow
    by (split; [apply Z.pow_le_mono_r | apply Z.pow_lt_mono_r]; lia).
  rewrite wrap_small by (rewrite Z.shiftl_1_l; unfold is_u; lia).
  rewrite Z.shiftl_1_l, sub_u_ok, M_bind_Ok by (unfold is_u; lia).
  rewrite ?shr_ok, ?M_bind_Ok by lia. eexists; split; [done|]. intros i Hi.
  replace (2 ^ (n * 8) - 1) with (Z.ones (n * 8)) by (rewrite Z.ones_equiv; lia).
  rewrite Z.land_spec, Z.shiftr_spec, Z.testbit_ones_nonneg by lia.
  rewrite andb_comm. f_equal; f_equal; lia.
Qed.

(** For the eight bytes of [Size::qword], the shift in [select_mask] is by
    the full width: it panics in the [dev] profile, and in [release] the mask it
    returns is always empty. *)
Theorem select_mask_qword mask :
  select_mask (P:=Dev) qword (Some mask) = Panic ∧
  select_mask (P:=Release) qword (Some mask) = Ok (Some 0).
Proof.
  split; [done|]. rewrite <- (Z.land_0_r (Z.shiftr mask 0)). reflexivity.
Qed.

(** ** Concrete instances *)

Lemma size_wf_small a b : 0 <= a <= b → b < 2 ^ 32 → size_wf (new a b).
Proof. intros. split; cbn; lia. Qed.

Lemma size_set_semantics_witness :
  contains (new 0 7) (new 2 3) = true ∧ (∀ i, has (new 2 3) i → has (new 0 7) i).
Proof.
  split; [reflexivity|].
  apply (size_set_semantics (new 0 7) (new 2 3)); [apply size_wf_small; lia.. | reflexivity].
Defined.
Lemma split_by_overlap_spec_witness :
  ∃ r, split_by_overlap (P:=Dev) (new 0 3) (new 2 7) = Ok r ∧
       r = Some (Some (new 0 1), new 2 3, Some (new 4 7)).
Proof.
  destruct (split_by_overlap_spec (P:=Dev) (new 0 3) (new 2 7)) as (r & Hr & _);
    [apply size_wf_small; lia.. |].
  exists r. split; [exact Hr|]. vm_compute in Hr. injection Hr as <-. reflexivity.
Defined.
Lemma try_glue_spec_witness :
  ∃ r, try_glue (P:=Dev) (new 4 7) (new 0 3) = Ok r ∧ r = Some (new 0 7).
Proof.
  destruct (try_glue_spec (P:=Dev) (new 4 7) (new 0 3)) as (r & Hr & _); [apply size_wf_small; lia.. |].
  exists r. split; [exact Hr|]. vm_compute in Hr. injection Hr as <-. reflexivity.
Defined.
Lemma select_mask_spec_witness :
  ∃ r, select_mask (P:=Dev) (new 1 2) (Some 0xabcdef12) = Ok (Some r) ∧ r = 0xcdef.
Proof.
  destruct (select_mask_spec (P:=Dev) (new 1 2) 0xabcdef12) as (r & Hr & _);
    [apply size_wf_small; lia | cbn; lia | cbn; lia | split; vm_compute; congruence |].
  exists r. split; [exact Hr|]. vm_compute in Hr. injection Hr as <-. reflexivity.
Defined.
