(* ===== verification/Value.v ===== *)
(** * Values

    Models [liblisa/src/value.rs].  [OwnedValue] (backed by a [Vec<u8>]) and
    [Value] (backed by a slice) have the same contents and are one type here;
    a method of [MutValue], which writes through a mutable reference, takes the
    old contents and returns the new ones. *)
From S2P Require Import Prelude MachInt Utils Size.
Import SizeOps.

Inductive Value := Num (n : Z) | Bytes (b : list Z).
#[export] Instance Value_eq_dec : EqDecision Value.
Proof. solve_decision. Defined.

Inductive ValueType := NumType | BytesType (num_bytes : nat).

(** ** [AsValue] *)

Definition unwrap_num (v : Value) : M Z := match v with Num n => Ok n | Bytes _ => Panic end.
Definition unwrap_bytes (v : Value) : M (list Z) := match v with Bytes b => Ok b | Num _ => Panic end.
Definition interpret_as_bool (v : Value) : M bool := n ← unwrap_num v; Ok (negb (n =? 0)).
Definition value_eqb (a b : Value) : bool :=
  match a, b with
  | Num a, Num b => a =? b
  | Bytes a, Bytes b => bool_decide (a = b)
  | _, _ => false
  end.
(** [ValueArrayEquality::value_eq]. *)
Definition value_eq (a b : list Value) : bool :=
  (length a =? length b)%nat && forallb (λ '(x, y), value_eqb x y) (zip a b).

(** ** [MutValue] *)

(** [for (x, y) in dst.iter_mut().zip(src) { *x = y }]. *)
Fixpoint zip_fill (dst src : list Z) : list Z :=
  match dst, src with
  | _ :: dst, y :: src => y :: zip_fill dst src
  | dst, _ => dst
  end.
(** [for (index, b) in iter.enumerate().take(8) { n |= (b as u64) << (index * 8) }]. *)
Definition gather_bytes (l : list Z) : Z :=
  foldl (λ n '(index, b), Z.lor n (wrap 64 (Z.shiftl b (Z.of_nat index * 8)))) 0
        (zip (seq 0 8) l).
Definition to_be_bytes (n : nat) (x : Z) : list Z := reverse (to_le_bytes n x).

Section mut_value.
Context {P : profile}.
Definition fill_le_from_value (self : Value) (num_bytes_in_value : Z) (value : Value) : M Value :=
  match self with
  | Num _ =>
      match value with
      | Num n => w ← mul8 num_bytes_in_value; r ← switch_endianness_u64 n w; Ok (Num r)
      | Bytes b => Ok (Num (gather_bytes b))
      end
  | Bytes b =>
      match value with
      | Num n => Ok (Bytes (zip_fill b (to_le_bytes 8 n)))
      | Bytes b2 => Ok (Bytes (zip_fill b (reverse b2)))
      end
  end.
Definition fill_be_from_value (self value : Value) : Value :=
  match self with
  | Num _ =>
      match value with
      | Num n => Num n
      | Bytes b => Num (gather_bytes (reverse b))
      end
  | Bytes b =>
      match value with
      | Num n => Bytes (zip_fill b (to_be_bytes 8 n))
      | Bytes b2 => Bytes (zip_fill b b2)
      end
  end.
(** [copy_from]: [copy_from_slice] panics when the lengths differ. *)
Definition copy_from (self val : Value) : M Value :=
  match self, val with
  | Num _, Num s => Ok (Num s)
  | Bytes d, Bytes s => assert! (length d =? length s)%nat; Ok (Bytes s)
  | _, _ => Panic
  end.

(** ** [Value] *)

Definition value_to_le_bytes (self : Value) : list Z :=
  match self with Num n => to_le_bytes 8 n | Bytes v => v end.
Definition select_byte (self : Value) (index : nat) : M Z :=
  match self with
  | Num n => k ← mul8 (Z.of_nat index); s ← shr 64 n k; Ok (wrap 8 s)
  | Bytes v => vget v index
  end.
(** [&b[start..end]] panics when [start > end] or [end > len]. *)
Definition slice_range (b : list Z) (start stop : Z) : M (list Z) :=
  assert! (start <=? stop) && (stop <=? Z.of_nat (length b));
  Ok (slice b (Z.to_nat start) (Z.to_nat stop)).
Definition value_slice (self : Value) (size : Size) : M Value :=
  d ← sub_u 64 (end_byte size) (start_byte size);
  d ← add_u 64 d 1;
  w ← mul8 d;
  match self with
  | Num n =>
      k ← mul8 (start_byte size);
      s ← shr 64 n k;
      m ← (if w =? 64 then Ok 0xffffffffffffffff
           else one ← shl_u 64 1 w; sub_u 64 one 1);
      Ok (Num (Z.land s m))
  | Bytes b =>
      l ← sub_u 64 (Z.of_nat (length b)) 1;
      e ← add_u 64 (end_byte size) 1;
      let start := Z.min (start_byte size) l in
      let stop := Z.min e (Z.of_nat (length b)) in
      b ← slice_range b start stop;
      Ok (Bytes b)
  end.
End mut_value.

(** [xor], [or] and [and] give the combined value to [f]; mixed kinds panic. *)
Definition bitop {T} (op : Z → Z → Z) (a b : Value) (f : Value → M T) : M T :=
  match a, b with
  | Num a, Num b => f (Num (op a b))
  | Bytes a, Bytes b => f (Bytes ((λ '(x, y), op x y) <$> zip a b))
  | _, _ => Panic
  end.
Definition value_xor {T} (self b : Value) (f : Value → M T) : M T := bitop Z.lxor self b f.
Definition value_or {T} (self b : Value) (f : Value → M T) : M T := bitop Z.lor self b f.
Definition value_and {T} (self b : Value) (f : Value → M T) : M T := bitop Z.land self b f.

(** ** Equality *)

Definition value_wf (v : Value) : Prop :=
  match v with Num n => is_u 64 n | Bytes b => is_bytes b end.
#[export] Instance value_wf_dec v : Decision (value_wf v).
Proof. destruct v; cbn; apply _. Defined.

Lemma value_eqb_eq a b : value_eqb a b = true ↔ a = b.
Proof.
  destruct a, b; cbn; rewrite ?Z.eqb_eq, ?bool_decide_eq_true; naive_solver.
Qed.

(** [value_eq] decides equality of two arrays of values: same length and
    equal values position by position. *)
Theorem value_eq_spec a b : value_eq a b = true ↔ a = b.
Proof.
  unfold value_eq. revert b. induction a as [|x a IH]; intros [|y b]; cbn; [done..|].
  specialize (IH b). pose proof (value_eqb_eq x y) as Hxy. rewrite !andb_true_iff in *.
  split; [intros (? & ? & ?) | intros [= -> ->]]; [f_equal|]; tauto.
Qed.

(** ** Filling *)

Lemma gather_from l : ∀ k n, is_bytes l → (k + length l <= 8)%nat →
  foldl (λ n '(index, b), Z.lor n (wrap 64 (Z.shiftl b (Z.of_nat index * 8)))) n (zip (seq k (length l)) l) =
  Z.lor n (Z.shiftl (from_le_bytes l) (Z.of_nat k * 8)).
Proof.
  induction l as [|b l IH]; intros k n Hl Hk; cbn [length seq zip zip_with foldl from_le_bytes].
  { by rewrite Z.shiftl_0_l, Z.lor_0_r. }
  apply Forall_cons in Hl as [Hb Hl]. cbn [length] in Hk.
  rewrite IH by (done || lia). rewrite wrap_small.
  - rewrite Z.shiftl_lor, Z.shiftl_shiftl, Z.lor_assoc by lia. do 2 f_equal. lia.
  - destruct Hb as [Hb0 Hb8]. rewrite Z.shiftl_mul_pow2 by lia. split; [nia|].
    apply Z.lt_le_trans with (2 ^ 8 * 2 ^ (Z.of_nat k * 8)); [apply Z.mul_lt_mono_pos_r; [apply pow2_pos; lia|done]|].
    rewrite <- Z.pow_add_r by lia. apply Z.pow_le_mono_r; lia.
Qed.
Lemma gather_bytes_ok l : is_bytes l → gather_bytes l = from_le_bytes (take 8 l).
Proof.
  intros Hl. unfold gather_bytes.
  assert (zip (seq 0 8) l = zip (seq 0 (length (take 8 l))) (take 8 l)) as ->.
  { do 9 (destruct l as [|? l]; [reflexivity|]). cbn. reflexivity. }
  rewrite gather_from; [cbn; by rewrite Z.shiftl_0_r | by apply Forall_take | rewrite length_take; lia].
Qed.
Lemma zip_fill_eq dst src : length dst = length src → zip_fill dst src = src.
Proof.
  revert src. induction dst as [|x dst IH]; intros [|y src] H; cbn in *; [done..|].
  f_equal. apply IH. lia.
Qed.
Lemma zip_fill_take dst src : (length dst <= length src)%nat → zip_fill dst src = take (length dst) src.
Proof.
  revert src. induction dst as [|x dst IH]; intros [|y src] H; cbn in *; try done || lia.
  by rewrite IH by lia.
Qed.
Lemma take_to_le_bytes n m x : (n <= m)%nat → take n (to_le_bytes m x) = to_le_bytes n x.
Proof.
  revert m x. induction n as [|n IH]; intros m x H; [done|]. destruct m as [|m]; [lia|].
  cbn [to_le_bytes take]. by rewrite IH by lia.
Qed.

(** Little-endian filling is lossless up to eight bytes: a byte string
    written to an integer and that integer written to a byte string of the same
    length give the bytes back; between byte strings it reverses the bytes, and
    between integers it reverses the low bytes. *)
Theorem fill_le_roundtrip {P : profile} (b old : list Z) (m : Z) :
  is_bytes b → (1 <= length b <= 8)%nat → length old = length b →
  (v ← fill_le_from_value (Num m) 0 (Bytes b); fill_le_from_value (Bytes old) 0 v) = Ok (Bytes b) ∧
  fill_le_from_value (Bytes old) 0 (Bytes b) = Ok (Bytes (reverse b)) ∧
  (v ← fill_le_from_value (Num m) 0 (Bytes b);
   fill_le_from_value (Num m) (Z.of_nat (length b)) v) = Ok (fill_be_from_value (Num m) (Bytes b)).
Proof.
  intros Hb Hlen Hold. cbn [fill_le_from_value fill_be_from_value].
  rewrite !gather_bytes_ok, !M_bind_Ok by (done || by apply is_bytes_reverse).
  rewrite !take_ge by (rewrite ?length_reverse; lia). cbn [fill_le_from_value]. split_and!.
  - rewrite zip_fill_take by (rewrite length_to_le_bytes; lia).
    rewrite take_to_le_bytes, Hold, to_from_le_bytes by (done || lia). done.
  - by rewrite zip_fill_eq by (rewrite length_reverse; lia).
  - rewrite mul8_ok, M_bind_Ok by (unfold is_u; lia).
    rewrite switch_endianness_u64_ok, M_bind_Ok by lia. do 2 f_equal.
    unfold swap_bytes, bytes_for.
    replace (Z.to_nat ((Z.of_nat (length b) * 8 + 7) / 8)) with (length b)
      by (Z.to_euclidean_division_equations; lia).
    by rewrite to_from_le_bytes.
Qed.
Lemma fill_le_roundtrip_witness :
  (v ← fill_le_from_value (P:=Dev) (Num 0) 0 (Bytes [0x12; 0x34]);
   fill_le_from_value (P:=Dev) (Bytes [0; 0]) 0 v) = Ok (Bytes [0x12; 0x34]).
Proof.
  apply (fill_le_roundtrip (P:=Dev) [0x12; 0x34] [0; 0] 0); [|cbn; lia|reflexivity].
  apply (bool_decide_unpack _). vm_compute. exact I.
Defined.

(** Big-endian filling of a byte string from an integer takes the most
    significant bytes of the 64-bit integer, so an integer read big-endian from
    fewer than eight bytes is not written back: below eight bytes the round
    trip yields zeros for every source. *)
Theorem fill_be_loses_short {b old : list Z} {m : Z} :
  is_bytes b → (2 * length b <= 8)%nat → length old = length b →
  fill_be_from_value (Bytes old) (fill_be_from_value (Num m) (Bytes b)) = Bytes (replicate (length b) 0).
Proof.
  intros Hb Hlen Hold. cbn [fill_be_from_value]. f_equal.
  rewrite gather_bytes_ok by (by apply is_bytes_reverse).
  rewrite take_ge by (rewrite length_reverse; lia).
  unfold to_be_bytes. rewrite zip_fill_take by (rewrite length_reverse, length_to_le_bytes; lia).
  rewrite Hold. apply list_eq_same_length with (length b);
    rewrite ?length_take, ?length_reverse, ?length_to_le_bytes, ?length_replicate; [lia..|].
  intros i x y Hi. rewrite lookup_take_lt, reverse_lookup, length_to_le_bytes, lookup_to_le_bytes
    by (rewrite ?length_to_le_bytes; lia).
  rewrite lookup_replicate. intros [= <-] [-> _]. apply Z.bits_inj'; intros j Hj.
  rewrite testbit_wrap, Z.shiftr_spec, Z.bits_0 by lia. case_cmp; [|done]. cbn [andb].
  apply (testbit_u_high (8 * Z.of_nat (length (reverse b)))).
  - by apply from_le_bytes_is_u, is_bytes_reverse.
  - rewrite length_reverse. lia.
Qed.
Lemma fill_be_loses_short_witness :
  fill_be_from_value (Bytes [0; 0]) (fill_be_from_value (Num 0) (Bytes [0x12; 0x34])) = Bytes [0; 0].
Proof.
  apply (fill_be_loses_short (b := [0x12; 0x34]) (old := [0; 0]) (m := 0)); [|cbn; lia|reflexivity].
  apply (bool_decide_unpack _). vm_compute. exact I.
Defined.

(** ** Bytes and slices *)

Lemma select_byte_lookup {P : profile} v i : (i < length (value_to_le_bytes v))%nat →
  ∃ b, select_byte v i = Ok b ∧ value_to_le_bytes v !! i = Some b.
Proof.
  destruct v as [n|b]; cbn [value_to_le_bytes select_byte]; intros Hi.
  - rewrite length_to_le_bytes in Hi. rewrite mul8_ok, M_bind_Ok by (unfold is_u; lia).
    rewrite shr_ok, M_bind_Ok, lookup_to_le_bytes by lia. eexists; split; [done|]. do 3 f_equal. lia.
  - by apply vget_lt.
Qed.
Lemma mask_bits {P : profile} w : 8 <= w <= 64 →
  (if w =? 64 then Ok 0xffffffffffffffff else one ← shl_u 64 1 w; sub_u 64 one 1) = Ok (Z.ones w).
Proof.
  intros Hw. case_cmp; [by subst|]. rewrite shl_u_ok, M_bind_Ok, Z.shiftl_1_l by lia.
  assert (0 < 2 ^ w < 2 ^ 64) by (split; [apply pow2_pos | apply Z.pow_lt_mono_r]; lia).
  rewrite wrap_small, sub_u_ok, Z.ones_equiv by (unfold is_u; lia). f_equal; lia.
Qed.

(** [slice] and [select_byte] agree with the little-endian bytes of the
    value: a slice within bounds never panics, its byte [i] is byte
    [start_byte + i] of the value, and it has nothing beyond the range (an
    integer slice is zero above, a byte slice has exactly the length). *)
Theorem value_slice_spec {P : profile} v size : value_wf v → size_wf size →
  end_byte size < Z.of_nat (length (value_to_le_bytes v)) → Z.of_nat (length (value_to_le_bytes v)) < 2 ^ 32 →
  ∃ r, value_slice v size = Ok r ∧ value_wf r ∧
    (∀ i, 0 <= i <= end_byte size - start_byte size →
       ∃ b, select_byte r (Z.to_nat i) = Ok b ∧ select_byte v (Z.to_nat (start_byte size + i)) = Ok b) ∧
    match r with
    | Num n => is_u (8 * (end_byte size - start_byte size + 1)) n
    | Bytes b => Z.of_nat (length b) = end_byte size - start_byte size + 1
    end.
Proof.
  intros Hv [Hs1 Hs2 Hs3] He Hlen. unfold value_slice.
  destruct v as [n|b]; cbn [value_to_le_bytes value_wf] in *;
    rewrite ?length_to_le_bytes in He; autorewrite with rust.
  - set (w := (end_byte size - start_byte size + 1) * 8) in *. rewrite mask_bits, M_bind_Ok by lia.
    eexists; split; [done|]. rewrite Z.land_ones by lia. fold (wrap w (Z.shiftr n (start_byte size * 8))).
    split_and!.
    + eapply (is_u_mono w); [lia|]. apply wrap_is_u; lia.
    + intros i Hi. cbn [select_byte]. rewrite !mul8_ok, !M_bind_Ok by (unfold is_u; lia).
      rewrite !shr_ok, !M_bind_Ok by lia. eexists; split; [done|]. f_equal.
      bitwise j Hj; f_equal; lia.
    + replace (8 * _) with w by lia. apply wrap_is_u; lia.
  - unfold slice_range. rewrite !Z.min_l by lia.
    replace (_ && _) with true by (symmetry; rewrite andb_true_iff, !Z.leb_le; lia).
    cbn [rassert]. rewrite !M_bind_Ok. eexists; split; [done|]. unfold slice. split_and!.
    + by apply Forall_take, Forall_drop.
    + intros i Hi. destruct (vget_lt b (Z.to_nat (start_byte size + i))) as (x & Hx & Hx'); [lia|].
      exists x. split; [|done]. cbn [select_byte]. rewrite vget_Ok_inv, lookup_take_lt, lookup_drop by lia.
      rewrite <- Hx'. f_equal. lia.
    + rewrite length_take, length_drop. lia.
Qed.
Lemma value_slice_spec_witness :
  ∃ r, value_slice (P:=Dev) (Num 0x1122334455667788) (new 1 2) = Ok r ∧ r = Num 0x6677.
Proof.
  destruct (value_slice_spec (P:=Dev) (Num 0x1122334455667788) (new 1 2)) as (r & Hr & _);
    [split; vm_compute; congruence | apply size_wf_small; lia | vm_compute; reflexivity.. |].
  exists r. split; [exact Hr|]. vm_compute in Hr. injection Hr as <-. reflexivity.
Defined.
