(* ===== verification/Computation.v ===== *)
(** * Computations

    Models [IoType] and [OutputType] of [liblisa/src/semantics/mod.rs] and
    [liblisa/src/semantics/default/computation.rs]: the interpretation of input
    values as arguments, the encoding of results, prepared comparisons, and the
    combination of computations ([if_zero], [chain], [and], [or], [not]).  The
    theorems are in ComputationFacts and CombineFacts. *)
From S2P Require Import Prelude MachInt Utils Size Value Ops Expr.

#[export] Instance Op_eq_dec : EqDecision Op.
Proof. solve_decision. Defined.

(** ** Input and output types *)

Inductive IoType := Integer (num_bits : Z) | BytesIo (num_bytes : nat).
#[export] Instance IoType_eq_dec : EqDecision IoType.
Proof. solve_decision. Defined.

Inductive OutputType := Number (mask : Z) | BytesOut (num_bytes : nat).

Definition num_bits (t : IoType) : Z :=
  match t with Integer num_bits => num_bits | BytesIo num_bytes => Z.of_nat num_bytes * 8 end.

(** [OutputType::const_from]; [NonZeroU64::new] fails on 0. *)
Definition const_from {P : profile} (value : IoType) : M OutputType :=
  match value with
  | Integer num_bits => mask ← bitmask_u64 (wrap 32 num_bits);
                        if mask =? 0 then Panic else Ok (Number mask)
  | BytesIo num_bytes => Ok (BytesOut num_bytes)
  end.

Inductive OutputEncoding := OutLittleEndian | OutBigEndian.
#[export] Instance OutputEncoding_eq_dec : EqDecision OutputEncoding.
Proof. solve_decision. Defined.

Inductive ArgEncoding := SignedLittleEndian | SignedBigEndian | UnsignedLittleEndian | UnsignedBigEndian.
#[export] Instance ArgEncoding_eq_dec : EqDecision ArgEncoding.
Proof. solve_decision. Defined.

(** [encoding as u8]. *)
Definition encoding_as_u8 (e : ArgEncoding) : Z :=
  match e with
  | SignedLittleEndian => 0 | SignedBigEndian => 1
  | UnsignedLittleEndian => 2 | UnsignedBigEndian => 3
  end.
Definition is_signed (e : ArgEncoding) : bool := encoding_as_u8 e <? 2.
Definition is_le (e : ArgEncoding) : bool := Z.land (encoding_as_u8 e) 1 =? 0.

(** ** Arguments *)

Inductive Arg :=
| Input (index : nat) (num_bits : Z) (encoding : ArgEncoding)
| TinyConst (v : Z)
| ConstArg (index : nat).
#[export] Instance Arg_eq_dec : EqDecision Arg.
Proof. solve_decision. Defined.

Section args.
Context {P : profile}.
Definition interpret_signed_u64 (n num_bits : Z) (encoding : ArgEncoding) : M Z :=
  match encoding with
  | SignedBigEndian | SignedLittleEndian => sign_extend_u64 n num_bits
  | UnsignedBigEndian | UnsignedLittleEndian => Ok n
  end.
Definition interpret_be_u64 (n num_bits : Z) (encoding : ArgEncoding) : M Z :=
  n_le ← switch_endianness_u64 n num_bits;
  let n := cmov_if_and_imm_zero 1 n n_le (encoding_as_u8 encoding) in
  interpret_signed_u64 n num_bits encoding.
Definition interpret_le_u64 (n num_bits : Z) (encoding : ArgEncoding) : M Z :=
  n_be ← switch_endianness_u64 n num_bits;
  let n := cmov_if_and_imm_nonzero 1 n n_be (encoding_as_u8 encoding) in
  interpret_signed_u64 n num_bits encoding.
Definition interpret_u128 (encoding : ArgEncoding) (n num_bits : Z) : M Z :=
  n ← match encoding with
      | SignedLittleEndian | UnsignedLittleEndian => Ok n
      | SignedBigEndian | UnsignedBigEndian => switch_endianness_u128 n num_bits
      end;
  match encoding with
  | SignedLittleEndian | SignedBigEndian => sign_extend (swrap 128 n) num_bits
  | UnsignedLittleEndian | UnsignedBigEndian => Ok (swrap 128 n)
  end.
Definition interpret_inputs (self : Arg) (inputs : list Value) (consts : list Z) : M Z :=
  match self with
  | Input index num_bits encoding =>
      v ← vget inputs index;
      match v with
      | Num n => interpret_be_u64 n num_bits encoding
      | Bytes b => create_from_le_bytes b
                     (λ n, interpret_le_u64 n num_bits encoding)
                     (λ n, interpret_u128 encoding n num_bits)
      end
  | TinyConst v => Ok v
  | ConstArg index => vget consts index
  end.
End args.

(** ** [ExprComputation] *)

Record ExprComputation := {
  expr : Expr;
  output_encoding : OutputEncoding;
  internal_output_type : OutputType;
}.

Definition new_expr_computation {P : profile} (e : Expr) (enc : OutputEncoding) (t : IoType) : M ExprComputation :=
  t ← const_from t; Ok {| expr := e; output_encoding := enc; internal_output_type := t |}.
Definition expr_computation_default : ExprComputation :=
  {| expr := new [Hole 0]; output_encoding := OutBigEndian; internal_output_type := Number U64_MAX |}.

(** The loop [for b in bytes.iter_mut() { *b = v as u8; v >>= 8 }]. *)
Fixpoint write_le (bytes : list Z) (v : Z) : list Z :=
  match bytes with [] => [] | _ :: bytes => wrap 8 v :: write_le bytes (Z.shiftr v 8) end.
Definition i128_as_bytes (self : ExprComputation) (num_bytes : nat) (result : Z) : Value :=
  let bytes := replicate num_bytes 0 in
  match output_encoding self with
  | OutLittleEndian => Bytes (write_le bytes result)
  | OutBigEndian => Bytes (reverse (write_le (reverse bytes) result))
  end.
Definition i128_to_output (self : ExprComputation) (result : Z) : Value :=
  match internal_output_type self with
  | Number mask => Num (Z.land (wrap 64 result) mask)
  | BytesOut num_bytes => i128_as_bytes self num_bytes result
  end.

(** The loop [for b in expected.. { if *b != v as u8 { return false } v >>= 8 }]. *)
Fixpoint compare_le (expected : list Z) (v : Z) : bool :=
  match expected with
  | [] => true
  | b :: expected => if negb (b =? wrap 8 v) then false else compare_le expected (Z.shiftr v 8)
  end.
Definition i128_compare_eq (self : ExprComputation) (expected : Value) (result : Z) : M bool :=
  match internal_output_type self with
  | Number mask => Ok (value_eqb expected (Num (Z.land (wrap 64 result) mask)))
  | BytesOut num_bytes =>
      expected_bytes ← unwrap_bytes expected;
      if negb (length expected_bytes =? num_bytes)%nat then Ok false else
      match output_encoding self with
      | OutLittleEndian => Ok (compare_le expected_bytes result)
      | OutBigEndian => Ok (compare_le (reverse expected_bytes) result)
      end
  end.

Section eval.
Context {P : profile}.
Definition evaluate_with_args (self : ExprComputation) (args : list Z) : M Value :=
  result ← evaluate (expr self) args; Ok (i128_to_output self result).
Definition evaluate_with_args_indirect (self : ExprComputation) (all_args : list Z) (mapping : list nat) : M Value :=
  match internal_output_type self with
  | Number mask =>
      result ← evaluate_indirect_as_u64 (expr self) all_args mapping; Ok (Num (Z.land result mask))
  | BytesOut num_bytes =>
      result ← evaluate_indirect (expr self) all_args mapping; Ok (i128_as_bytes self num_bytes result)
  end.
Definition evaluate_as_bool_with_args_indirect (self : ExprComputation) (all_args : list Z) (mapping : list nat) : M bool :=
  result ← evaluate_indirect_as_u64 (expr self) all_args mapping;
  match internal_output_type self with
  | Number mask => Ok (negb (Z.land result mask =? 0))
  | BytesOut _ => Panic
  end.
Definition compare_eq_with_args (self : ExprComputation) (args : list Z) (expected : Value) : M bool :=
  result ← evaluate (expr self) args; i128_compare_eq self expected result.
Definition compare_eq_with_args_indirect (self : ExprComputation) (all_args : list Z) (mapping : list nat)
    (expected : Value) : M bool :=
  result ← evaluate_indirect (expr self) all_args mapping; i128_compare_eq self expected result.
End eval.

(** [mask.get().trailing_ones()]. *)
Definition trailing_ones (x : Z) : Z := Z.of_nat (trailing_zeros 64 (not_u 64 x)).
Definition output_type (self : ExprComputation) : IoType :=
  match internal_output_type self with
  | Number mask => Integer (trailing_ones mask)
  | BytesOut num_bytes => BytesIo num_bytes
  end.

(** ** Prepared comparisons *)

Record PreparedComparison := { little_endian : Z; big_endian : Z }.
Record CompareResult := { le_equal : bool; be_equal : bool }.

Section prepared.
Context {P : profile}.
Definition prepared_from (value : Value) : M PreparedComparison :=
  match value with
  | Num n => Ok {| little_endian := n; big_endian := n |}
  | Bytes bytes =>
      v ← create_from_le_bytes bytes Ok Ok;
      be ← switch_endianness_u128 v (Z.of_nat (length bytes) * 8);
      Ok {| little_endian := swrap 128 v; big_endian := swrap 128 be |}
  end.
(** [!(-1i128 << (8 * num_bytes))]. *)
Definition compare_mask (num_bytes : nat) : M Z :=
  m ← shl_i 128 (-1) (8 * Z.of_nat num_bytes); Ok (Z.lnot m).
Definition compare (self : PreparedComparison) (t : OutputType) (enc : OutputEncoding) (result : Z) : M bool :=
  match t with
  | Number mask => Ok (Z.land (wrap 64 result) mask =? Z.land (wrap 64 (big_endian self)) mask)
  | BytesOut num_bytes =>
      mask ← compare_mask num_bytes;
      match enc with
      | OutLittleEndian => Ok (Z.land result mask =? Z.land (little_endian self) mask)
      | OutBigEndian => Ok (Z.land result mask =? Z.land (big_endian self) mask)
      end
  end.
Definition compare_dual (self : PreparedComparison) (t : OutputType) (result : Z) : M CompareResult :=
  match t with
  | Number mask =>
      let v := Z.land (wrap 64 result) mask =? Z.land (wrap 64 (big_endian self)) mask in
      Ok {| le_equal := v; be_equal := v |}
  | BytesOut num_bytes =>
      mask ← (if (num_bytes =? 16)%nat then Ok (-1) else compare_mask num_bytes);
      Ok {| le_equal := Z.land result mask =? Z.land (little_endian self) mask;
            be_equal := Z.land result mask =? Z.land (big_endian self) mask |}
  end.
Definition prepared_compare_eq_with_args_indirect (self : ExprComputation) (all_args : list Z)
    (mapping : list nat) (expected : PreparedComparison) : M bool :=
  result ← evaluate_indirect (expr self) all_args mapping;
  match internal_output_type self with
  | Number mask => Ok (Z.land (wrap 64 result) mask =? Z.land (wrap 64 (big_endian expected)) mask)
  | BytesOut num_bytes =>
      mask ← compare_mask num_bytes;
      match output_encoding self with
      | OutLittleEndian => Ok (Z.land result mask =? Z.land (little_endian expected) mask)
      | OutBigEndian => Ok (Z.land result mask =? Z.land (big_endian expected) mask)
      end
  end.
End prepared.

(** ** Computation references and the types that provide them *)

Record ComputationRef := {
  template : ExprComputation;
  arg_interpretation : list Arg;
  consts : list Z;
}.
(** [ExpressionComputation] keeps its arguments in an [ArrayVec<Arg, 8>]. *)
Record ExpressionComputation := {
  ec_expr : Expr;
  ec_arg_interpretation : list Arg;
  ec_output_encoding : OutputEncoding;
  ec_output_type : IoType;
}.
Record SynthesizedComputation := {
  sc_expr : Expr;
  sc_arg_interpretation : list Arg;
  sc_consts : list Z;
  sc_output_encoding : OutputEncoding;
  sc_output_type : IoType;
}.

(** The trait [AsComputationRef]: its required method.  The provided methods
    below are functions over any instance. *)
Class AsComputationRef (T : Type) := as_internal : T → M ComputationRef.

(** The reference of a reference has no constants, as in the source. *)
#[export] Instance ComputationRef_as_ref : AsComputationRef ComputationRef := λ self,
  Ok {| template := template self; consts := []; arg_interpretation := arg_interpretation self |}.
#[export] Instance ExpressionComputation_as_ref {P : profile} : AsComputationRef ExpressionComputation := λ self,
  t ← new_expr_computation (ec_expr self) (ec_output_encoding self) (ec_output_type self);
  Ok {| template := t; consts := []; arg_interpretation := ec_arg_interpretation self |}.
#[export] Instance SynthesizedComputation_as_ref {P : profile} : AsComputationRef SynthesizedComputation := λ self,
  t ← new_expr_computation (sc_expr self) (sc_output_encoding self) (sc_output_type self);
  Ok {| template := t; consts := sc_consts self; arg_interpretation := sc_arg_interpretation self |}.

Definition ref_output_type (r : ComputationRef) : IoType := output_type (template r).
Definition ref_output_encoding (r : ComputationRef) : OutputEncoding := output_encoding (template r).

(** [ComputationRef::to_expression_computation]: collecting more than 8
    arguments into the [ArrayVec] panics. *)
Definition to_expression_computation (self : ComputationRef) : M ExpressionComputation :=
  assert! bool_decide (consts self = []);
  assert! (length (arg_interpretation self) <=? 8)%nat;
  Ok {| ec_expr := expr (template self); ec_arg_interpretation := arg_interpretation self;
        ec_output_encoding := ref_output_encoding self; ec_output_type := ref_output_type self |}.

(** [Expression::push_op]: the compiled functions, if any, stay. *)
Definition push_op (self : Expr) (op : Op) : Expr :=
  {| ops := ops self ++ [op]; fast_eval := fast_eval self |}.

(** ** Evaluation ([impl Computation for ComputationRef]) *)

Section evaluation.
Context {P : profile}.
(** Both branches of the length test in the source collect the same arguments,
    into an [ArrayVec] of 128 or a [Vec]. *)
Definition interpret_args (self : ComputationRef) (inputs : list Value) : M (list Z) :=
  mapM (λ arg, interpret_inputs arg inputs (consts self)) (arg_interpretation self).
Definition evaluate_ref (self : ComputationRef) (inputs : list Value) : M Value :=
  args ← interpret_args self inputs; evaluate_with_args (template self) args.
Definition compare_eq_ref (self : ComputationRef) (inputs : list Value) (expected : Value) : M bool :=
  args ← interpret_args self inputs; compare_eq_with_args (template self) args expected.

Definition used_input_indices (self : ComputationRef) : list nat :=
  omap (λ arg, match arg with Input index _ _ => Some index | _ => None end) (arg_interpretation self).

Definition is_identity (self : ComputationRef) : bool :=
  match arg_interpretation self with
  | [Input index nb encoding] =>
      (index =? 0)%nat && (num_bits (ref_output_type self) <=? nb) &&
      match encoding, ref_output_encoding self with
      | SignedLittleEndian, OutLittleEndian | UnsignedLittleEndian, OutLittleEndian => true
      | SignedBigEndian, OutBigEndian | UnsignedBigEndian, OutBigEndian => true
      | _, _ => false
      end && bool_decide (ops (expr (template self)) = [Hole 0])
  | _ => false
  end.

(** [remap_inputs] of the owned computations: [map[index].expect(..)], converted
    to [u8]. *)
Definition remap_arg (map : list (option nat)) (arg : Arg) : M Arg :=
  match arg with
  | Input index nb enc =>
      o ← vget map index; i ← unwrap o;
      assert! (i <=? 255)%nat; Ok (Input i nb enc)
  | _ => Ok arg
  end.
Definition remap_inputs (self : SynthesizedComputation) (map : list (option nat)) : M SynthesizedComputation :=
  args ← mapM (remap_arg map) (sc_arg_interpretation self);
  Ok {| sc_expr := sc_expr self; sc_arg_interpretation := args; sc_consts := sc_consts self;
        sc_output_encoding := sc_output_encoding self; sc_output_type := sc_output_type self |}.

(** [impl Computation for SynthesizedComputation]. *)
Definition evaluate_synthesized (self : SynthesizedComputation) (inputs : list Value) : M Value :=
  r ← as_internal self; evaluate_ref r inputs.
Definition always (e : Expr) : SynthesizedComputation :=
  {| sc_expr := e; sc_arg_interpretation := []; sc_consts := [];
     sc_output_encoding := OutBigEndian; sc_output_type := Integer 1 |}.
Definition always_false : SynthesizedComputation := always FALSE.
Definition always_true : SynthesizedComputation := always TRUE.
Definition set_output_encoding (self : SynthesizedComputation) (enc : OutputEncoding) : SynthesizedComputation :=
  {| sc_expr := sc_expr self; sc_arg_interpretation := sc_arg_interpretation self;
     sc_consts := sc_consts self; sc_output_encoding := enc; sc_output_type := sc_output_type self |}.
End evaluation.

(** ** Combining computations (the provided methods of [AsComputationRef]) *)

Section combine.
Context {P : profile}.

(** [Arg::Const(index + k as u16)]. *)
Definition shift_const (k : nat) (arg : Arg) : M Arg :=
  match arg with
  | ConstArg index => i ← add_u 16 (Z.of_nat index) (wrap 16 (Z.of_nat k)); Ok (ConstArg (Z.to_nat i))
  | _ => Ok arg
  end.
(** [Op::Hole(n.checked_add(offset as u16).unwrap())]. *)
Definition shift_hole (offset : nat) (op : Op) : M Op :=
  match op with
  | Hole n =>
      let s := Z.of_nat n + wrap 16 (Z.of_nat offset) in
      assert! bool_decide (is_u 16 s); Ok (Hole (Z.to_nat s))
  | _ => Ok op
  end.

Section methods.
Context {A B C : Type} `{AsComputationRef A, AsComputationRef B, AsComputationRef C}.

Definition to_synthesized_computation (self : A) : M SynthesizedComputation :=
  i ← as_internal self;
  Ok {| sc_expr := expr (template i); sc_consts := consts i; sc_arg_interpretation := arg_interpretation i;
        sc_output_type := ref_output_type i; sc_output_encoding := ref_output_encoding i |}.

Definition if_zero (self : A) (if_zero : B) (if_nonzero : C) : M SynthesizedComputation :=
  if_zero ← as_internal if_zero;
  if_nonzero ← as_internal if_nonzero;
  self ← as_internal self;
  assert! bool_decide (ref_output_type if_zero = ref_output_type if_nonzero);
  let need_bit_swap_nonzero :=
    ((8 <? num_bits (ref_output_type if_zero)) || (8 <? num_bits (ref_output_type if_nonzero))) &&
    negb (bool_decide (ref_output_encoding if_zero = ref_output_encoding if_nonzero)) in
  zero_args ← mapM (shift_const (length (consts if_nonzero))) (arg_interpretation if_zero);
  self_args ← mapM (λ arg, match arg with
                           | ConstArg index =>
                               i ← add_u 16 (Z.of_nat index) (wrap 16 (Z.of_nat (length (consts if_nonzero))));
                               i ← add_u 16 i (wrap 16 (Z.of_nat (length (consts if_zero))));
                               Ok (ConstArg (Z.to_nat i))
                           | _ => Ok arg
                           end) (arg_interpretation self);
  let offset_a := length (arg_interpretation if_nonzero) in
  let offset_b := (offset_a + length (arg_interpretation if_zero))%nat in
  cond_ops ← mapM (shift_hole offset_b) (ops (expr (template self)));
  zero_ops ← mapM (shift_hole offset_a) (ops (expr (template if_zero)));
  Ok {| sc_expr := new (
          cond_ops ++ [Crop (wrap 8 (num_bits (ref_output_type self)))] ++
          zero_ops ++ [Crop (wrap 8 (num_bits (ref_output_type if_zero)))] ++
          ops (expr (template if_nonzero)) ++ [Crop (wrap 8 (num_bits (ref_output_type if_nonzero)))] ++
          (if need_bit_swap_nonzero
           then [SwapBytes (wrap 8 (num_bits (ref_output_type if_nonzero)))] else []) ++
          [IfZero]);
        sc_consts := consts if_nonzero ++ consts if_zero ++ consts self;
        sc_arg_interpretation := arg_interpretation if_nonzero ++ zero_args ++ self_args;
        sc_output_encoding := ref_output_encoding if_zero;
        sc_output_type := ref_output_type if_zero |}.

(** [arg_interpretation.iter().position(|a| a == &new_arg)], pushing the
    argument when it is absent; the index must fit a [u16]. *)
Definition find_or_push (args : list Arg) (new_arg : Arg) : M (list Arg * nat) :=
  let '(args, index) := match list_find (λ a, a = new_arg) args with
                        | Some (index, _) => (args, index)
                        | None => (args ++ [new_arg], length args)
                        end in
  assert! bool_decide (is_u 16 (Z.of_nat index)); Ok (args, index).
Fixpoint chain_ops (self_args : list Arg) (l : list Op) (args : list Arg) : M (list Arg * list Op) :=
  match l with
  | [] => Ok (args, [])
  | Hole n :: l =>
      new_arg ← vget self_args n;
      '(args, index) ← find_or_push args new_arg;
      '(args, l) ← chain_ops self_args l args;
      Ok (args, Hole index :: l)
  | op :: l => '(args, l) ← chain_ops self_args l args; Ok (args, op :: l)
  end.
Definition chain (self : A) (other : B) : M SynthesizedComputation :=
  other ← as_internal other;
  self ← as_internal self;
  assert! bool_decide (ref_output_type self = ref_output_type other);
  assert! negb ((8 <? num_bits (ref_output_type self)) || (8 <? num_bits (ref_output_type other))) ||
          bool_decide (ref_output_encoding self = ref_output_encoding other);
  other_args ← mapM (shift_const (length (consts self))) (arg_interpretation other);
  '(args, self_ops) ← chain_ops (arg_interpretation self) (ops (expr (template self))) other_args;
  Ok {| sc_expr := new (ops (expr (template other)) ++ self_ops);
        sc_consts := consts self ++ consts other;
        sc_arg_interpretation := args;
        sc_output_encoding := ref_output_encoding self;
        sc_output_type := ref_output_type self |}.

Definition with_expr (c : SynthesizedComputation) (e : Expr) : SynthesizedComputation :=
  {| sc_expr := e; sc_arg_interpretation := sc_arg_interpretation c; sc_consts := sc_consts c;
     sc_output_encoding := sc_output_encoding c; sc_output_type := sc_output_type c |}.
End methods.

Section logic.
Context {A : Type} `{AsComputationRef A}.
Definition computation_and (self : A) (other : SynthesizedComputation) : M SynthesizedComputation :=
  result ← chain self other; Ok (with_expr result (push_op (sc_expr result) And)).
Definition computation_or (self : A) (other : SynthesizedComputation) : M SynthesizedComputation :=
  result ← chain self other; Ok (with_expr result (push_op (sc_expr result) Or)).
Definition append_ops (self : A) (suffix : list Op) : M SynthesizedComputation :=
  i ← as_internal self;
  Ok {| sc_expr := new (ops (expr (template i)) ++ suffix); sc_arg_interpretation := arg_interpretation i;
        sc_consts := consts i; sc_output_encoding := ref_output_encoding i; sc_output_type := ref_output_type i |}.
Definition computation_not (self : A) : M SynthesizedComputation := append_ops self [Not].
Definition not_crop (self : A) : M SynthesizedComputation := append_ops self [Not; Crop 1].
End logic.
End combine.
