(* ===== verification/ComputationFacts.v ===== *)
(** * Theorems about computations

    Encoding and comparison of results, the interpretation of arguments and its
    round trip with the encoding, prepared comparisons, [is_identity], and what
    conversions between computations keep. *)
From S2P Require Import Prelude MachInt Utils Size Value Ops OpsFacts Expr ExprFacts Computation.
#[local] Opaque ones.

(** ** Encoding of results *)

Lemma write_le_eq l v : write_le l v = to_le_bytes (length l) v.
Proof. revert v. induction l as [|b l IH]; intros v; cbn; [done|]. by rewrite IH. Qed.
(** The bytes of a result, in the order of the output encoding. *)
Definition encode (enc : OutputEncoding) (n : nat) (v : Z) : list Z :=
  match enc with OutLittleEndian => to_le_bytes n v | OutBigEndian => to_be_bytes n v end.
Lemma i128_as_bytes_eq c n v : i128_as_bytes c n v = Bytes (encode (output_encoding c) n v).
Proof.
  unfold i128_as_bytes, encode, to_be_bytes.
  destruct (output_encoding c); by rewrite write_le_eq, ?length_reverse, length_replicate.
Qed.
Lemma length_encode enc n v : length (encode enc n v) = n.
Proof. destruct enc; cbn; unfold to_be_bytes; by rewrite ?length_reverse, length_to_le_bytes. Qed.
Lemma encode_is_bytes enc n v : is_bytes (encode enc n v).
Proof. destruct enc; cbn; unfold to_be_bytes; [|apply is_bytes_reverse]; apply to_le_bytes_is_bytes. Qed.

Lemma compare_le_eq l v : compare_le l v = bool_decide (l = to_le_bytes (length l) v).
Proof.
  revert v. induction l as [|b l IH]; intros v; cbn [compare_le length to_le_bytes]; [done|].
  rewrite IH. case_cmp; cbn [negb]; [subst|].
  - apply bool_decide_ext. split; [by intros <- | intros E; by injection E].
  - symmetry. apply bool_decide_false. intros E. by injection E.
Qed.
(** Comparing a result with an expected value is encoding it and comparing; an
    expected integer for a byte output panics. *)
Lemma i128_compare_eq_eq c expected v :
  i128_compare_eq c expected v =
  match internal_output_type c, expected with
  | BytesOut _, Num _ => Panic
  | _, _ => Ok (value_eqb expected (i128_to_output c v))
  end.
Proof.
  unfold i128_compare_eq, i128_to_output. destruct (internal_output_type c) as [mask|n]; [done|].
  destruct expected as [m|b]; [done|]. cbn [unwrap_bytes]. rewrite M_bind_Ok, i128_as_bytes_eq. cbn [value_eqb].
  destruct (Nat.eqb_spec (length b) n) as [<-|Hn]; cbn [negb].
  - destruct (output_encoding c); cbn [encode]; rewrite compare_le_eq; [done|].
    unfold to_be_bytes. rewrite length_reverse. f_equal. apply bool_decide_ext.
    split; intros E; [by rewrite <- E, reverse_involutive | rewrite E at 1; by rewrite reverse_involutive].
  - f_equal. symmetry. apply bool_decide_false. intros ->. by rewrite length_encode in Hn.
Qed.

(** [compare_eq] of a computation is [evaluate] followed by a comparison with
    the expected value, panics included, for every expected value of the kind of
    the output; an expected integer for a byte output panics once the
    computation is evaluated. *)
Theorem compare_eq_correct {P : profile} r inputs expected :
  compare_eq_ref r inputs expected =
  (v ← evaluate_ref r inputs;
   match v, expected with
   | Bytes _, Num _ => Panic
   | _, _ => Ok (value_eqb expected v)
   end).
Proof.
  unfold compare_eq_ref, evaluate_ref, compare_eq_with_args, evaluate_with_args.
  rewrite M_bind_assoc. apply M_bind_ext; intros args. rewrite M_bind_assoc. apply M_bind_ext; intros v.
  rewrite M_bind_Ok, i128_compare_eq_eq. unfold i128_to_output.
  destruct (internal_output_type (template r)); [done|]. rewrite i128_as_bytes_eq. by destruct expected.
Qed.

(** ** Interpretation of arguments *)

(** The integer an encoding reads from a value: [u] is the value with its most
    significant byte first. *)
Definition read_int (enc : ArgEncoding) (nb u : Z) : Z := if is_signed enc then swrap nb u else u.

Section interpret.
Context {P : profile} (nb : Z) (enc : ArgEncoding).

Lemma interpret_be_u64_ok n : 1 <= nb <= 64 →
  interpret_be_u64 n nb enc = Ok (read_int enc nb (if is_le enc then swap_bytes (bytes_for nb) n else n)).
Proof.
  intros Hnb. unfold interpret_be_u64. rewrite switch_endianness_u64_ok, M_bind_Ok by lia.
  destruct enc; cbn; rewrite ?sign_extend_u64_ok by lia; done.
Qed.
Lemma interpret_le_u64_ok n : 1 <= nb <= 64 →
  interpret_le_u64 n nb enc = Ok (read_int enc nb (if is_le enc then n else swap_bytes (bytes_for nb) n)).
Proof.
  intros Hnb. unfold interpret_le_u64. rewrite switch_endianness_u64_ok, M_bind_Ok by lia.
  destruct enc; cbn; rewrite ?sign_extend_u64_ok by lia; done.
Qed.
Lemma interpret_u128_ok n : 1 <= nb <= 128 →
  interpret_u128 enc n nb =
  Ok (let u := if is_le enc then n else swap_bytes (bytes_for nb) n in
      if is_signed enc then swrap nb (swrap 128 u) else swrap 128 u).
Proof.
  intros Hnb. unfold interpret_u128.
  destruct enc; cbn; rewrite ?switch_endianness_u128_ok, ?M_bind_Ok, ?sign_extend_ok by lia; done.
Qed.
End interpret.

Lemma bytes_for_8 n : bytes_for (8 * Z.of_nat n) = n.
Proof. unfold bytes_for. Z.to_euclidean_division_equations; lia. Qed.

(** The little-endian number of the bytes that an encoding reads first to last. *)
Lemma swap_from_le b : is_bytes b → swap_bytes (length b) (from_le_bytes b) = from_le_bytes (reverse b).
Proof. intros Hb. unfold swap_bytes. by rewrite to_from_le_bytes. Qed.
Definition arg_is_le (enc : ArgEncoding) (b : list Z) : list Z := if is_le enc then b else reverse b.
Lemma arg_is_le_bytes enc b : is_bytes b → is_bytes (arg_is_le enc b).
Proof. unfold arg_is_le. case_match; [done | apply is_bytes_reverse]. Qed.
Lemma length_arg_is_le enc b : length (arg_is_le enc b) = length b.
Proof. unfold arg_is_le. case_match; [done | apply length_reverse]. Qed.

Lemma swrap_swrap_le v w x : 0 < v <= w → swrap v (swrap w x) = swrap v x.
Proof.
  intros H. rewrite <- (swrap_wrap v (swrap w x)), wrap_swrap_le, swrap_wrap by lia. done.
Qed.

Lemma interpret_bytes {P : profile} index enc b inputs consts :
  inputs !! index = Some (Bytes b) → is_bytes b → (1 <= length b <= 16)%nat →
  interpret_inputs (Input index (8 * Z.of_nat (length b)) enc) inputs consts =
  Ok (if is_signed enc then swrap (8 * Z.of_nat (length b)) (from_le_bytes (arg_is_le enc b))
      else swrap 128 (from_le_bytes (arg_is_le enc b))).
Proof.
  intros Hi Hb Hlen. cbn [interpret_inputs]. rewrite (proj2 (vget_Ok_inv _ _ _) Hi), M_bind_Ok.
  rewrite create_from_le_bytes_eq. pose proof (from_le_bytes_is_u _ (arg_is_le_bytes enc b Hb)) as Hu.
  rewrite length_arg_is_le in Hu. unfold arg_is_le in *.
  case_cmps.
  - rewrite interpret_le_u64_ok, bytes_for_8, swap_from_le by (done || lia). unfold read_int. f_equal.
    destruct (is_le enc), (is_signed enc); try done; symmetry; apply swrap_small; try lia.
    all: apply u_is_i; [lia|]; eapply is_u_mono; [|exact Hu]; lia.
  - rewrite take_ge, interpret_u128_ok, bytes_for_8, swap_from_le by (done || lia). cbv zeta. f_equal.
    destruct (is_le enc), (is_signed enc); try done; rewrite swrap_swrap_le by lia; done.
Qed.

(** The output encoding with the byte order of an argument encoding. *)
Definition same_order (a : ArgEncoding) : OutputEncoding := if is_le a then OutLittleEndian else OutBigEndian.

(** C38: encoding a result as bytes and reading it back as an argument with the
    same byte order gives the result, cropped to the width: sign-extended for a
    signed argument, and as a 128-bit pattern for an unsigned one. *)
Theorem encode_interpret_roundtrip {P : profile} e enc n v :
  (1 <= n <= 16)%nat →
  let c := {| expr := e; output_encoding := same_order enc; internal_output_type := BytesOut n |} in
  interpret_inputs (Input 0 (8 * Z.of_nat n) enc) [i128_to_output c v] [] =
  Ok (if is_signed enc then swrap (8 * Z.of_nat n) v else swrap 128 (wrap (8 * Z.of_nat n) v)).
Proof.
  intros Hn c. unfold i128_to_output; cbn [internal_output_type c]. rewrite i128_as_bytes_eq.
  set (b := encode (output_encoding c) n v). assert (length b = n) as Hlen by apply length_encode.
  rewrite <- Hlen at 1. rewrite (interpret_bytes 0 enc b) by (done || apply encode_is_bytes || lia).
  assert (from_le_bytes (arg_is_le enc b) = wrap (8 * Z.of_nat n) v) as ->.
  { subst b c. unfold arg_is_le, same_order; cbn [output_encoding].
    destruct (is_le enc); cbn [encode]; unfold to_be_bytes; rewrite ?reverse_involutive; apply from_to_le_bytes. }
  rewrite Hlen. f_equal. case_match; [|done]. by rewrite swrap_wrap by lia.
Qed.
Lemma encode_interpret_roundtrip_witness :
  interpret_inputs (P:=Dev) (Input 0 24 SignedBigEndian)
    [i128_to_output {| expr := new []; output_encoding := OutBigEndian; internal_output_type := BytesOut 3 |} (-5)] []
  = Ok (-5).
Proof.
  exact (encode_interpret_roundtrip (P:=Dev) (new []) SignedBigEndian 3 (-5)
           ltac:(split; apply Nat.leb_le; reflexivity)).
Defined.

(** ** Prepared comparisons *)

Lemma compare_mask_ok {P : profile} n : (n <= 15)%nat → compare_mask n = Ok (Z.ones (8 * Z.of_nat n)).
Proof.
  intros Hn. unfold compare_mask. rewrite shl_i_ok, M_bind_Ok by lia. f_equal.
  apply Z.bits_inj'; intros i Hi. rewrite Z.lnot_spec, Z.testbit_ones_nonneg, testbit_swrap by lia.
  assert (∀ j, 0 <= j → Z.testbit (Z.shiftl (-1) (8 * Z.of_nat n)) j = negb (j <? 8 * Z.of_nat n)) as Hs.
  { intros j Hj. rewrite Z.shiftl_spec by lia. case_cmp; [apply Z.testbit_neg_r | apply Z.bits_m1]; lia. }
  destruct (i <? 128) eqn:E; rewrite Hs, negb_involutive by lia; [done|].
  apply Z.ltb_ge in E. case_cmps; done.
Qed.

(** The expected value read with the byte order of an output encoding. *)
Definition expected_int (enc : OutputEncoding) (b : list Z) : Z :=
  from_le_bytes (match enc with OutLittleEndian => b | OutBigEndian => reverse b end).

Lemma prepared_from_bytes {P : profile} b : is_bytes b → (1 <= length b <= 16)%nat →
  prepared_from (Bytes b) =
  Ok {| little_endian := swrap 128 (expected_int OutLittleEndian b);
        big_endian := swrap 128 (expected_int OutBigEndian b) |}.
Proof.
  intros Hb Hlen. unfold prepared_from, expected_int. rewrite create_from_le_bytes_eq.
  case_cmps; rewrite M_bind_Ok, ?take_ge by lia;
    rewrite switch_endianness_u128_ok, M_bind_Ok by lia;
    replace (Z.of_nat (length b) * 8) with (8 * Z.of_nat (length b)) by lia;
    by rewrite bytes_for_8, swap_from_le.
Qed.
(** Two values agree on their low [n] bytes exactly when their encodings do. *)
Lemma encode_eq_iff enc n v b : is_bytes b → length b = n →
  b = encode enc n v ↔ wrap (8 * Z.of_nat n) v = expected_int enc b.
Proof.
  intros Hb Hlen. unfold expected_int. rewrite <- from_to_le_bytes. split.
  - intros ->. destruct enc; cbn [encode]; unfold to_be_bytes; by rewrite ?reverse_involutive.
  - intros E. apply from_le_bytes_inj in E;
      [| apply to_le_bytes_is_bytes | destruct enc; [done | by apply is_bytes_reverse]
       | destruct enc; rewrite ?length_reverse, length_to_le_bytes; lia].
    destruct enc; cbn [encode]; unfold to_be_bytes; rewrite E; by rewrite ?reverse_involutive.
Qed.
Lemma masked_eq_iff enc n v b : is_bytes b → length b = n → (n <= 16)%nat →
  wrap (8 * Z.of_nat n) v = wrap (8 * Z.of_nat n) (swrap 128 (expected_int enc b)) ↔ b = encode enc n v.
Proof.
  intros Hb Hlen Hn. rewrite encode_eq_iff by done.
  assert (is_u (8 * Z.of_nat n) (expected_int enc b)) as Hu.
  { unfold expected_int. destruct enc; rewrite <- Hlen; [|rewrite <- (length_reverse b)];
      apply from_le_bytes_is_u; [done | by apply is_bytes_reverse]. }
  destruct n as [|n].
  { unfold wrap. rewrite Z.mul_0_r, !Z.mod_1_r. destruct Hu as [H1 H2]. cbn in H2. lia. }
  by rewrite wrap_swrap_le, (wrap_small _ _ Hu) by lia.
Qed.

Section prepared_correct.
Context {P : profile}.

(** The result of a comparison in terms of the encoded output. *)
Lemma masked_compare_bytes enc b v n : is_bytes b → length b = n → (n <= 16)%nat →
  (Z.land v (Z.ones (8 * Z.of_nat n)) =? Z.land (swrap 128 (expected_int enc b)) (Z.ones (8 * Z.of_nat n)))
  = bool_decide (b = encode enc n v).
Proof.
  intros Hb Hlen Hn. rewrite !Z.land_ones by lia. change (?x mod 2 ^ ?w) with (wrap w x).
  pose proof (masked_eq_iff enc n v b Hb Hlen Hn) as H.
  case_cmp; symmetry; [by apply bool_decide_true, H | by apply bool_decide_false; rewrite <- H].
Qed.
Lemma masked_compare_num mask v n : is_u 64 n → Z.land n mask = n →
  (Z.land (wrap 64 v) mask =? Z.land (wrap 64 n) mask) = value_eqb (Num n) (Num (Z.land (wrap 64 v) mask)).
Proof. intros Hn Hm. rewrite (wrap_small 64 n), Hm by done. cbn. apply Z.eqb_sym. Qed.

Lemma land_m1_ones a b : is_i 128 a → is_i 128 b →
  (Z.land a (-1) =? Z.land b (-1)) = (Z.land a (Z.ones 128) =? Z.land b (Z.ones 128)).
Proof.
  intros Ha Hb. rewrite !Z.land_m1_r, !Z.land_ones by lia.
  change (?x mod 2 ^ 128) with (wrap 128 x). apply eq_true_iff_eq. rewrite !Z.eqb_eq.
  rewrite (wrap_eq_swrap 128 a b), !swrap_small by (done || lia). done.
Qed.

(** An expected value that fits the output: an integer within the mask, or a
    byte string of the output's length. *)
Definition expected_fits (t : OutputType) (expected : Value) : Prop :=
  match t, expected with
  | Number mask, Num n => is_u 64 n ∧ Z.land n mask = n
  | BytesOut num_bytes, Bytes b => is_bytes b ∧ length b = num_bytes ∧ (1 <= num_bytes <= 16)%nat
  | _, _ => False
  end.

Lemma compare_ok p expected t enc e v : expected_fits t expected → prepared_from expected = Ok p →
  t ≠ BytesOut 16 →
  compare p t enc v =
  Ok (value_eqb expected
        (i128_to_output {| expr := e; output_encoding := enc; internal_output_type := t |} v)).
Proof.
  intros Hfit Hp Hne. unfold i128_to_output. destruct t as [mask|n], expected as [m|b]; try done;
    cbn [internal_output_type expected_fits] in *.
  - destruct Hfit as [Hm Hmask]. cbn in Hp. injection Hp as <-. cbn [compare big_endian].
    by rewrite masked_compare_num.
  - destruct Hfit as (Hb & Hlen & Hn). rewrite prepared_from_bytes in Hp by (done || lia).
    injection Hp as <-. cbn [compare little_endian big_endian]. rewrite i128_as_bytes_eq.
    assert (n ≠ 16%nat) by congruence. rewrite compare_mask_ok, M_bind_Ok by lia.
    destruct enc; by rewrite masked_compare_bytes by (done || lia).
Qed.
Lemma compare_dual_ok p expected t e v :
  is_i 128 v → expected_fits t expected → prepared_from expected = Ok p →
  let out enc := i128_to_output {| expr := e; output_encoding := enc; internal_output_type := t |} v in
  compare_dual p t v = Ok {| le_equal := value_eqb expected (out OutLittleEndian);
                             be_equal := value_eqb expected (out OutBigEndian) |}.
Proof.
  intros Hv Hfit Hp out. subst out. unfold i128_to_output. destruct t as [mask|n], expected as [m|b]; try done;
    cbn [internal_output_type expected_fits] in *.
  - destruct Hfit as [Hm Hmask]. cbn in Hp. injection Hp as <-. cbn [compare_dual big_endian].
    by rewrite masked_compare_num.
  - destruct Hfit as (Hb & Hlen & Hn). rewrite prepared_from_bytes in Hp by (done || lia).
    injection Hp as <-. cbn [compare_dual little_endian big_endian]. rewrite !i128_as_bytes_eq.
    cbn [output_encoding value_eqb].
    rewrite <- !(masked_compare_bytes _ b v n) by (done || lia). destruct (Nat.eqb_spec n 16) as [->|].
    + rewrite M_bind_Ok. change (Z.ones (8 * Z.of_nat 16)) with (Z.ones 128).
      by rewrite !land_m1_ones by (done || apply i128_swrap).
    + by rewrite compare_mask_ok by lia.
Qed.

(** A prepared comparison answers what comparing the encoded result with the
    expected value answers: when the computation is evaluated and compared at
    once (integers and byte outputs of up to 15 bytes), and for both byte orders
    at the same time with [compare_dual] (up to 16 bytes). *)
Theorem prepared_compare_correct c all_args mapping p expected v :
  expected_fits (internal_output_type c) expected → prepared_from expected = Ok p →
  (internal_output_type c ≠ BytesOut 16 →
   prepared_compare_eq_with_args_indirect c all_args mapping p =
   compare_eq_with_args_indirect c all_args mapping expected) ∧
  (is_i 128 v →
   let out enc := i128_to_output {| expr := expr c; output_encoding := enc;
                                    internal_output_type := internal_output_type c |} v in
   compare_dual p (internal_output_type c) v =
   Ok {| le_equal := value_eqb expected (out OutLittleEndian);
         be_equal := value_eqb expected (out OutBigEndian) |}).
Proof.
  intros Hfit Hp. split; [intros Hne | intros Hv; by apply compare_dual_ok].
  unfold prepared_compare_eq_with_args_indirect, compare_eq_with_args_indirect.
  apply M_bind_ext; intros r. rewrite i128_compare_eq_eq.
  change (compare p (internal_output_type c) (output_encoding c) r =
    match internal_output_type c, expected with
    | BytesOut _, Num _ => Panic
    | _, _ => Ok (value_eqb expected (i128_to_output c r)) end).
  rewrite (compare_ok p expected _ _ (expr c)) by done.
  destruct c as [e enc t]; cbn in *. by destruct t, expected.
Qed.
End prepared_correct.

Lemma prepared_compare_correct_witness :
  let c := {| expr := new [Hole 0]; output_encoding := OutBigEndian; internal_output_type := BytesOut 2 |} in
  prepared_compare_eq_with_args_indirect (P:=Dev) c [0x51234] [0%nat]
    {| little_endian := 0x3412; big_endian := 0x1234 |} =
  compare_eq_with_args_indirect (P:=Dev) c [0x51234] [0%nat] (Bytes [0x12; 0x34]).
Proof.
  intros c.
  apply (prepared_compare_correct (P:=Dev) c [0x51234] [0%nat] {| little_endian := 0x3412; big_endian := 0x1234 |}
           (Bytes [0x12; 0x34]) 0); [|vm_compute; reflexivity|discriminate].
  split; [apply (bool_decide_unpack _); vm_compute; exact I | split; cbn; lia].
Defined.

(** For a 16-byte output the mask of [PreparedComparison::compare] is built by
    a shift of the full width: it panics in the [dev] profile, and in [release]
    the mask is empty, so that every result compares equal. *)
Theorem prepared_compare_16_bytes p enc v :
  compare (P:=Dev) p (BytesOut 16) enc v = Panic ∧
  compare (P:=Release) p (BytesOut 16) enc v = Ok true.
Proof.
  split; [done|]. unfold compare. replace (compare_mask (P:=Release) 16) with (Ok 0) by reflexivity.
  rewrite M_bind_Ok, !Z.land_0_r. by destruct enc.
Qed.

(** ** Identity computations *)

Lemma evaluate_hole_0 {P : profile} x : evaluate_on_stack [Hole 0] [x] = Ok x.
Proof. reflexivity. Qed.
Lemma is_identity_inv r : is_identity r = true →
  ∃ nb enc, arg_interpretation r = [Input 0 nb enc] ∧ num_bits (ref_output_type r) <= nb ∧
    ref_output_encoding r = same_order enc ∧ ops (expr (template r)) = [Hole 0].
Proof.
  unfold is_identity. destruct (arg_interpretation r) as [|[index nb enc| |] [|]]; try done.
  rewrite !andb_true_iff, Nat.eqb_eq, Z.leb_le, bool_decide_eq_true. intros [[[-> Hnb] Henc] Hops].
  exists nb, enc. split_and!; try done. unfold same_order. by destruct enc, (ref_output_encoding r).
Qed.
Lemma wrap_read_int n enc b : is_bytes b → length b = n → (1 <= n <= 16)%nat →
  wrap (8 * Z.of_nat n)
    (if is_signed enc then swrap (8 * Z.of_nat n) (from_le_bytes (arg_is_le enc b))
     else swrap 128 (from_le_bytes (arg_is_le enc b))) = expected_int (same_order enc) b.
Proof.
  intros Hb Hlen Hn. pose proof (from_le_bytes_is_u _ (arg_is_le_bytes enc b Hb)) as Hu.
  rewrite length_arg_is_le, Hlen in Hu.
  replace (expected_int (same_order enc) b) with (from_le_bytes (arg_is_le enc b))
    by (unfold expected_int, same_order, arg_is_le; by destruct (is_le enc)).
  case_match; [rewrite wrap_swrap by lia | rewrite wrap_swrap_le by lia]; by apply wrap_small.
Qed.

Lemma trailing_ones_ones k : 0 <= k <= 64 → trailing_ones (Z.ones k) = k.
Proof.
  intros Hk. unfold trailing_ones. rewrite <- (Z2Nat.id k) at 2 by lia. f_equal.
  assert (∀ i, 0 <= i → Z.testbit (not_u 64 (Z.ones k)) i = (k <=? i) && (i <? 64)) as Hb.
  { intros i Hi. unfold not_u. rewrite testbit_wrap, Z.lnot_spec, Z.testbit_ones_nonneg by lia.
    case_cmps; done. }
  destruct (decide (k = 64)) as [->|].
  - unfold trailing_zeros. rewrite (proj2 (ones_nil 64 _)); [done|]. intros i Hi. rewrite Hb by lia. case_cmps; done.
  - apply trailing_zeros_spec; [lia | rewrite Hb by lia; case_cmps; done|].
    intros i Hi. rewrite Hb by lia. case_cmps; done.
Qed.

(** A computation for which [is_identity] holds returns its input: any byte
    string of the output's length when the argument has that width, and any
    integer of the output's width that is read most significant byte first. *)
Theorem is_identity_sound {P : profile} r v nb enc : is_identity r = true → fast_eval (expr (template r)) = None →
  arg_interpretation r = [Input 0 nb enc] →
  match v, ref_output_type r with
  | Bytes b, BytesIo n => is_bytes b ∧ length b = n ∧ (1 <= n <= 16)%nat ∧ nb = 8 * Z.of_nat n
  | Num n, Integer k => internal_output_type (template r) = Number (Z.ones k) ∧
                        1 <= k ∧ is_u k n ∧ nb <= 64 ∧ is_le enc = false
  | _, _ => False
  end →
  evaluate_ref r [v] = Ok v.
Proof.
  intros (nb' & enc' & Ha & Hnb & Henc & Hops)%is_identity_inv Hfast Ha' Hv.
  rewrite Ha in Ha'. injection Ha' as -> ->.
  unfold evaluate_ref, interpret_args. rewrite Ha. cbn [mapM]. unfold evaluate_with_args, evaluate, i128_to_output.
  rewrite Hfast, Hops. unfold ref_output_encoding in Henc. unfold ref_output_type, output_type in *.
  destruct v as [n|b], (internal_output_type (template r)) as [mask|k] eqn:Hty; try done.
  - set (k := trailing_ones mask) in *. destruct Hv as (Hm & Hk & Hn & Hnb' & Hbe). injection Hm as Hm.
    cbn [num_bits] in Hnb. rewrite Hm.
    cbn [interpret_inputs vget lookup list_lookup unwrap].
    rewrite M_bind_Ok, interpret_be_u64_ok, Hbe, !M_bind_Ok, evaluate_hole_0, M_bind_Ok by lia. do 2 f_equal.
    rewrite Z.land_ones by lia. change (?x mod 2 ^ ?w) with (wrap w x). rewrite wrap_wrap_le by lia.
    rewrite <- (wrap_small k n Hn) at 2. unfold read_int. case_match; [|done]. by rewrite wrap_swrap_le by lia.
  - destruct Hv as (Hb & Hlen & Hk & ->). rewrite <- Hlen at 1.
    rewrite (interpret_bytes 0 enc b), !M_bind_Ok, evaluate_hole_0, M_bind_Ok by (done || lia).
    rewrite i128_as_bytes_eq, Henc, Hlen. do 2 f_equal. symmetry. apply encode_eq_iff; [done..|].
    by apply wrap_read_int.
Qed.
Lemma is_identity_sound_witness :
  evaluate_ref (P:=Dev)
    {| template := {| expr := new [Hole 0]; output_encoding := OutBigEndian; internal_output_type := BytesOut 3 |};
       arg_interpretation := [Input 0 24 SignedBigEndian]; consts := [] |} [Bytes [0xfe; 2; 3]] =
  Ok (Bytes [0xfe; 2; 3]).
Proof.
  apply (is_identity_sound (P:=Dev) _ _ 24 SignedBigEndian); [vm_compute; reflexivity|reflexivity|reflexivity|].
  split; [apply (bool_decide_unpack _); vm_compute; exact I|]. split; [reflexivity|]. split; [cbn; lia | reflexivity].
Defined.

(** For an integer with the least significant byte first, [is_identity] holds
    of a computation that is not the identity: the argument is read with its
    bytes reversed, and [i128_to_output] does not reverse an integer output
    back. *)
Theorem is_identity_little_endian_integer {P : profile} :
  let r := {| template := {| expr := new [Hole 0]; output_encoding := OutLittleEndian;
                             internal_output_type := Number (Z.ones 16) |};
              arg_interpretation := [Input 0 16 UnsignedLittleEndian]; consts := [] |} in
  is_identity r = true ∧ evaluate_ref r [Num 0x1234] = Ok (Num 0x3412).
Proof. destruct P; vm_compute; split; reflexivity. Qed.

(** [as_internal] of a [ComputationRef] drops the constants: a computation
    that reads a constant cannot be evaluated any more after
    [to_synthesized_computation]. *)
Theorem computation_ref_drops_consts {P : profile} :
  let r := {| template := {| expr := new [Hole 0]; output_encoding := OutBigEndian;
                             internal_output_type := Number (Z.ones 64) |};
              arg_interpretation := [ConstArg 0]; consts := [42] |} in
  evaluate_ref r [] = Ok (Num 42) ∧
  (s ← to_synthesized_computation r; evaluate_synthesized s []) = Panic.
Proof. destruct P; vm_compute; split; reflexivity. Qed.

(** [push_op] keeps the compiled functions of the expression it extends, so
    the extended expression evaluates as if the operation were not there. *)
Theorem push_op_stale_fast_eval {P : profile} e op f args : fast_eval e = Some f →
  evaluate (push_op e op) args = evaluate e args.
Proof. intros Hf. unfold evaluate, push_op. cbn. by rewrite Hf. Qed.
Lemma push_op_stale_fast_eval_witness : 
  evaluate (P:=Dev) (push_op TRUE IsZero) [] = Ok 1 ∧
  evaluate (P:=Dev) (without_fast_eval (push_op TRUE IsZero)) [] = Ok 0.
Proof.
  split; [|vm_compute; reflexivity].
  rewrite (push_op_stale_fast_eval (P:=Dev) TRUE IsZero (const_fast_eval 1) [] eq_refl). reflexivity.
Defined.
