(* ===== verification/CombineFacts.v ===== *)
(** * The meaning of combined computations

    [if_zero], [and], [or], [not] and [not_crop] build the operations of a new
    computation from those of their arguments, renumbering holes and constants.
    The theorems say that the new computation evaluates to the combination of the
    values of its parts, and that it is again well formed. *)
From S2P Require Import Prelude MachInt Utils Size Value Ops OpsFacts Expr ExprFacts Computation ComputationFacts.
#[local] Opaque ones.

(** ** Renaming holes *)

Definition rename_op (f : nat → nat) (o : Op) : Op := match o with Hole n => Hole (f n) | o => o end.

Fixpoint rename (f : nat → nat) (e : FastOp) : FastOp :=
  match e with
  | Val v => Val v
  | HoleOp n => HoleOp (f n)
  | ConstOp v => ConstOp v
  | NotOp v => NotOp (rename f v)
  | CropOp n v => CropOp n (rename f v)
  | SignExtendOp n v => SignExtendOp n (rename f v)
  | SelectOp s t v => SelectOp s t (rename f v)
  | ParityOp v => ParityOp (rename f v)
  | IsZeroOp v => IsZeroOp (rename f v)
  | ByteMaskOp v => ByteMaskOp (rename f v)
  | BitMaskOp v => BitMaskOp (rename f v)
  | TrailingZerosOp v => TrailingZerosOp (rename f v)
  | LeadingZerosOp v => LeadingZerosOp (rename f v)
  | PopCountOp v => PopCountOp (rename f v)
  | SwapBytesOp n v => SwapBytesOp n (rename f v)
  | AddOp v w => AddOp (rename f v) (rename f w)
  | SubOp v w => SubOp (rename f v) (rename f w)
  | MulOp v w => MulOp (rename f v) (rename f w)
  | CarrylessMulOp v w => CarrylessMulOp (rename f v) (rename f w)
  | DivOp v w => DivOp (rename f v) (rename f w)
  | UnsignedDivOp v w => UnsignedDivOp (rename f v) (rename f w)
  | RemOp v w => RemOp (rename f v) (rename f w)
  | UnsignedRemOp v w => UnsignedRemOp (rename f v) (rename f w)
  | ShlOp v w => ShlOp (rename f v) (rename f w)
  | ShrOp v w => ShrOp (rename f v) (rename f w)
  | AndOp v w => AndOp (rename f v) (rename f w)
  | OrOp v w => OrOp (rename f v) (rename f w)
  | XorOp v w => XorOp (rename f v) (rename f w)
  | CmpLtOp v w => CmpLtOp (rename f v) (rename f w)
  | RolOp n v w => RolOp n (rename f v) (rename f w)
  | IfZeroOp c z nz => IfZeroOp (rename f c) (rename f z) (rename f nz)
  | DepositBitsOp v w => DepositBitsOp (rename f v) (rename f w)
  | ExtractBitsOp v w => ExtractBitsOp (rename f v) (rename f w)
  end.

Lemma postfix_rename f e : postfix (rename f e) = rename_op f <$> postfix e.
Proof.
  induction e; cbn [rename postfix]; rewrite ?fmap_app;
    repeat match goal with IH : postfix (rename f ?x) = _ |- _ => rewrite IH; clear IH end; reflexivity.
Qed.
Lemma no_val_rename f e : no_val (rename f e) = no_val e.
Proof. induction e; cbn [rename no_val]; try done; congruence. Qed.

(** A tree reads its arguments through its holes only. *)
Lemma compute_rename {P : profile} f e args args' :
  (∀ n, Hole n ∈ postfix e → args' (f n) = args n) → compute (rename f e) args' = compute e args.
Proof.
  induction e; cbn [rename compute postfix]; intros H; try done;
    try (unfold un, bin;
         repeat match goal with
         | IH : _ → compute (rename f ?x) _ = compute ?x _ |- context [compute (rename f ?x) _] =>
             rewrite IH by (intros; apply H; set_solver)
         end; done).
  apply H. set_solver.
Qed.
Lemma rename_id e : rename (λ n, n) e = e.
Proof. induction e; cbn [rename]; congruence. Qed.
Lemma compute_ext {P : profile} e args args' :
  (∀ n, Hole n ∈ postfix e → args' n = args n) → compute e args' = compute e args.
Proof. intros H. rewrite <- (rename_id e) at 1. by apply compute_rename. Qed.

(** ** Well-formed computations *)

(** The operations are the postfix code of a tree, small enough for the
    evaluation stack; compiled functions agree with the operations; holes and
    constants are in range; the output is an integer of 1 to 64 bits or a byte
    string of 1 to 15 bytes (the widths that [Crop] handles). *)
Record ref_wf (r : ComputationRef) (t : FastOp) : Prop := {
  rwf_tree : no_val t = true;
  rwf_ops : ops (expr (template r)) = postfix t;
  rwf_holes : ∀ n, Hole n ∈ postfix t → (n < length (arg_interpretation r))%nat;
  rwf_consts : ∀ i, ConstArg i ∈ arg_interpretation r → (i < length (consts r))%nat;
  rwf_type : match internal_output_type (template r) with
             | Number mask => ∃ k, 1 <= k <= 64 ∧ mask = Z.ones k
             | BytesOut n => (1 <= n <= 15)%nat
             end;
}.
Definition compiled_ok {P : profile} (r : ComputationRef) (t : FastOp) : Prop :=
  ∀ args, length args = length (arg_interpretation r) →
    evaluate (expr (template r)) args = compute t (vget args).

Lemma compiled_ok_stack {P : profile} r t : ref_wf r t → fast_eval (expr (template r)) = None →
  (length (postfix t) <= STACK_SIZE)%nat → compiled_ok r t.
Proof.
  intros Hr Hf Hl args _. unfold evaluate. rewrite Hf, (rwf_ops r t Hr).
  apply evaluate_indirect_postfix; [apply Hr | done].
Qed.

(** The value of the tree on the interpreted arguments, before encoding. *)
Definition raw {P : profile} (r : ComputationRef) (t : FastOp) (inputs : list Value) : M Z :=
  args ← interpret_args r inputs; compute t (vget args).

Lemma evaluate_ref_raw {P : profile} r t inputs : compiled_ok r t →
  evaluate_ref r inputs = (v ← raw r t inputs; Ok (i128_to_output (template r) v)).
Proof.
  intros Hc. unfold evaluate_ref, raw, evaluate_with_args. rewrite M_bind_assoc.
  destruct (interpret_args r inputs) as [args| |] eqn:E; [|done..].
  cbn [mbind M_bind]. by rewrite Hc by (by apply mapM_length in E).
Qed.

(** ** Output types *)

Lemma const_from_output_type {P : profile} r t : ref_wf r t →
  const_from (ref_output_type r) = Ok (internal_output_type (template r)).
Proof.
  intros Hr. pose proof (rwf_type r t Hr) as Ht. unfold ref_output_type, output_type.
  destruct (internal_output_type (template r)) as [mask|n]; [|done].
  destruct Ht as (k & Hk & ->). rewrite trailing_ones_ones by lia. cbn [const_from].
  rewrite wrap_small, bitmask_u64_ok, M_bind_Ok by (unfold is_u; lia). destruct (Z.eqb_spec (Z.ones k) 0) as [E|]; [|done].
  rewrite Z.ones_equiv in E. pose proof (Z.pow_gt_1 2 k). lia.
Qed.
Lemma output_bits_range r t : ref_wf r t → 1 <= num_bits (ref_output_type r) <= 120.
Proof.
  intros Hr. pose proof (rwf_type r t Hr) as Ht. unfold ref_output_type, output_type.
  destruct (internal_output_type (template r)) as [mask|n]; cbn [num_bits]; [|lia].
  destruct Ht as (k & Hk & ->). rewrite trailing_ones_ones by lia. lia.
Qed.

Definition is_zero_value (v : Value) : bool :=
  match v with Num n => n =? 0 | Bytes b => forallb (λ x, x =? 0) b end.

Lemma to_le_bytes_wrap n v : to_le_bytes n (wrap (8 * Z.of_nat n) v) = to_le_bytes n v.
Proof.
  apply from_le_bytes_inj; [apply to_le_bytes_is_bytes.. | by rewrite !length_to_le_bytes |].
  by rewrite !from_to_le_bytes, wrap_wrap by lia.
Qed.
Lemma encode_wrap enc n v : encode enc n (wrap (8 * Z.of_nat n) v) = encode enc n v.
Proof. destruct enc; cbn [encode]; unfold to_be_bytes; by rewrite to_le_bytes_wrap. Qed.
Lemma encode_swap enc enc' n v : enc ≠ enc' → (1 <= n)%nat →
  encode enc n (swrap (8 * Z.of_nat n) (swap_bytes n v)) = encode enc' n v.
Proof.
  intros Hne Hn. rewrite <- encode_wrap, wrap_swrap by lia.
  rewrite encode_wrap. unfold swap_bytes, encode, to_be_bytes.
  assert (to_le_bytes n (from_le_bytes (reverse (to_le_bytes n v))) = reverse (to_le_bytes n v)) as E.
  { rewrite <- (length_to_le_bytes n v) at 1. rewrite <- length_reverse.
    apply to_from_le_bytes, is_bytes_reverse, to_le_bytes_is_bytes. }
  destruct enc, enc'; try done; rewrite E; by rewrite ?reverse_involutive.
Qed.
Lemma forallb_reverse {A} (p : A → bool) l : forallb p (reverse l) = forallb p l.
Proof.
  induction l as [|x l IH]; [done|]. rewrite reverse_cons, forallb_app, IH. cbn.
  by rewrite andb_true_r, andb_comm.
Qed.
Lemma to_le_bytes_zero n v : forallb (λ x, x =? 0) (to_le_bytes n v) = (wrap (8 * Z.of_nat n) v =? 0).
Proof.
  apply eq_true_iff_eq. rewrite forallb_forall, Z.eqb_eq, <- from_to_le_bytes.
  split; intros H.
  - generalize dependent (to_le_bytes n v). intros l H.
    induction l as [|b l IH]; [done|]. cbn [from_le_bytes]. rewrite IH by (intros; apply H; by right).
    rewrite (proj1 (Z.eqb_eq b 0)) by (apply H; by left). done.
  - intros x Hx%list_elem_of_In%list_elem_of_lookup_1. destruct Hx as [i Hi].
    assert (to_le_bytes n v = to_le_bytes n 0) as E.
    { apply from_le_bytes_inj; [apply to_le_bytes_is_bytes.. | by rewrite !length_to_le_bytes |].
      rewrite H, from_to_le_bytes. by rewrite wrap_small by (split; [done | apply pow2_pos; lia]). }
    rewrite E in Hi. pose proof (lookup_lt_Some _ _ _ Hi) as Hlt. rewrite length_to_le_bytes in Hlt.
    rewrite lookup_to_le_bytes, Z.shiftr_0_l in Hi by done. injection Hi as <-. done.
Qed.

Section output.
Context (r : ComputationRef) (t : FastOp) (Hr : ref_wf r t).

Lemma to_output_crop v :
  i128_to_output (template r) (wrap (num_bits (ref_output_type r)) v) = i128_to_output (template r) v.
Proof using Hr.
  pose proof (rwf_type r t Hr) as Ht. unfold i128_to_output, ref_output_type, output_type.
  destruct (internal_output_type (template r)) as [mask|n]; cbn [num_bits].
  - destruct Ht as (k & Hk & ->). rewrite trailing_ones_ones, !Z.land_ones by lia.
    change (?x mod 2 ^ ?w) with (wrap w x). rewrite !wrap_wrap_le by lia. done.
  - rewrite !i128_as_bytes_eq, Z.mul_comm. by rewrite encode_wrap.
Qed.
Lemma to_output_zero v :
  is_zero_value (i128_to_output (template r) v) = (wrap (num_bits (ref_output_type r)) v =? 0).
Proof using Hr.
  pose proof (rwf_type r t Hr) as Ht. unfold i128_to_output, ref_output_type, output_type.
  destruct (internal_output_type (template r)) as [mask|n]; cbn [num_bits].
  - destruct Ht as (k & Hk & ->). rewrite trailing_ones_ones, Z.land_ones by lia.
    change (?x mod 2 ^ ?w) with (wrap w x). cbn [is_zero_value]. by rewrite wrap_wrap_le by lia.
  - rewrite i128_as_bytes_eq, Z.mul_comm, <- to_le_bytes_zero. cbn [is_zero_value].
    destruct (output_encoding (template r)); cbn [encode]; unfold to_be_bytes; by rewrite ?forallb_reverse.
Qed.
End output.

(** ** Renumbering constants and holes *)

Definition offset_arg (k : nat) (arg : Arg) : Arg :=
  match arg with ConstArg i => ConstArg (i + k) | _ => arg end.
Definition consts_below (k : nat) (l : list Arg) : Prop := ∀ i, ConstArg i ∈ l → (i < k)%nat.
Definition holes_below (k : nat) (l : list Op) : Prop := ∀ n, Hole n ∈ l → (n < k)%nat.

Lemma offset_arg_0 arg : offset_arg 0 arg = arg.
Proof. destruct arg; cbn; [done..|]. f_equal. lia. Qed.
Lemma fmap_offset_arg_0 (l : list Arg) : offset_arg 0 <$> l = l.
Proof. induction l as [|a l IH]; [done|]. cbn. by rewrite offset_arg_0, IH. Qed.

Section renumber.
Context {P : profile}.

Lemma shift_const_ok k m l : consts_below m l → Z.of_nat (m + k) <= 2 ^ 16 →
  mapM (shift_const k) l = Ok (offset_arg k <$> l).
Proof.
  intros Hl Hk. apply mapM_Ok. intros [| |i] Hi; try done. cbn [shift_const offset_arg].
  specialize (Hl _ Hi). rewrite wrap_small, add_u_ok, M_bind_Ok by (unfold is_u; lia). do 2 f_equal. lia.
Qed.
Lemma shift_hole_ok k m l : holes_below m l → Z.of_nat (m + k) <= 2 ^ 16 →
  mapM (shift_hole k) l = Ok (rename_op (λ n, n + k)%nat <$> l).
Proof.
  intros Hl Hk. apply mapM_Ok. intros o Ho. destruct o; try done. cbn [shift_hole rename_op].
  specialize (Hl _ Ho). rewrite wrap_small, bool_decide_true by (unfold is_u; lia). cbn [rassert].
  rewrite M_bind_Ok. do 2 f_equal. lia.
Qed.

Lemma interpret_offset inputs pre cs post arg :
  (∀ i, arg = ConstArg i → (i < length cs)%nat) →
  interpret_inputs (offset_arg (length pre) arg) inputs (pre ++ cs ++ post) = interpret_inputs arg inputs cs.
Proof.
  intros Hi. destruct arg as [| |i]; try done. cbn [offset_arg interpret_inputs]. unfold vget. f_equal.
  rewrite lookup_app_r, Nat.add_sub by lia. apply lookup_app_l. by apply Hi.
Qed.
Lemma interpret_args_offset inputs pre cs post l : consts_below (length cs) l →
  mapM (λ arg, interpret_inputs arg inputs (pre ++ cs ++ post)) (offset_arg (length pre) <$> l) =
  mapM (λ arg, interpret_inputs arg inputs cs) l.
Proof.
  induction l as [|arg l IH]; intros Hl; [done|]. cbn [fmap list_fmap mapM].
  rewrite interpret_offset by (intros i ->; apply Hl; left). apply M_bind_ext; intros v.
  change (list_fmap _ _ (offset_arg (length pre)) l) with (offset_arg (length pre) <$> l).
  rewrite IH; [done|]. intros i Hi. apply Hl. by right.
Qed.
Lemma interpret_args_prefix inputs cs post l : consts_below (length cs) l →
  mapM (λ arg, interpret_inputs arg inputs (cs ++ post)) l = mapM (λ arg, interpret_inputs arg inputs cs) l.
Proof.
  intros Hl. rewrite <- (interpret_args_offset inputs [] cs post l Hl). cbn [length app].
  by rewrite fmap_offset_arg_0.
Qed.
End renumber.

(** A single byte is the same in both byte orders, and an integer output has no
    byte order. *)
Lemma to_output_encoding r r' v t : ref_wf r t →
  internal_output_type (template r) = internal_output_type (template r') →
  num_bits (ref_output_type r) <= 8 ∨ output_encoding (template r) = output_encoding (template r') ∨
    (∃ mask, internal_output_type (template r) = Number mask) →
  i128_to_output (template r) v = i128_to_output (template r') v.
Proof.
  intros Hr Hty H. pose proof (rwf_type r t Hr) as Ht. unfold i128_to_output. rewrite <- Hty.
  unfold ref_output_type, output_type in H.
  destruct (internal_output_type (template r)) as [mask|n]; [done|]. rewrite !i128_as_bytes_eq. f_equal.
  cbn [num_bits] in H. destruct H as [H|[->|[? [=]]]]; [|done]. assert (n = 1%nat) as -> by lia.
  by destruct (output_encoding (template r)), (output_encoding (template r')).
Qed.

(** ** [if_zero] *)

Lemma vget_app_l {A} (l k : list A) n : (n < length l)%nat → vget (l ++ k) n = vget l n.
Proof. intros H. unfold vget. by rewrite lookup_app_l. Qed.
Lemma vget_app_r {A} (l k : list A) n m : m = length l → vget (l ++ k) (n + m) = vget k n.
Proof. intros ->. unfold vget. rewrite lookup_app_r by lia. do 2 f_equal. lia. Qed.

Lemma bits_u8 r t : ref_wf r t → wrap 8 (num_bits (ref_output_type r)) = num_bits (ref_output_type r).
Proof. intros Hr%output_bits_range. apply wrap_small. unfold is_u; lia. Qed.

Section if_zero.
Context {P : profile} {A B C : Type} `{AsComputationRef A, AsComputationRef B, AsComputationRef C}.
Context (c : A) (a : B) (b : C) (rc ra rb : ComputationRef) (tc ta tb : FastOp).
Context (Hc : as_internal c = Ok rc) (Ha : as_internal a = Ok ra) (Hb : as_internal b = Ok rb).
Context (Wc : ref_wf rc tc) (Wa : ref_wf ra ta) (Wb : ref_wf rb tb).
Context (Htype : ref_output_type ra = ref_output_type rb).
Context (Hargs : Z.of_nat (length (arg_interpretation rb) + length (arg_interpretation ra) +
                           length (arg_interpretation rc)) <= 2 ^ 16).
Context (Hconsts : Z.of_nat (length (consts rb) + length (consts ra) + length (consts rc)) <= 2 ^ 16).

Definition needs_swap : bool :=
  (8 <? num_bits (ref_output_type ra)) && negb (bool_decide (ref_output_encoding ra = ref_output_encoding rb)).
Definition off_a : nat := length (arg_interpretation rb).
Definition off_b : nat := off_a + length (arg_interpretation ra).
(** The tree of the combined computation. *)
Definition if_zero_tree : FastOp :=
  let nonzero := CropOp (num_bits (ref_output_type rb)) tb in
  IfZeroOp (CropOp (num_bits (ref_output_type rc)) (rename (λ n, n + off_b)%nat tc))
           (CropOp (num_bits (ref_output_type ra)) (rename (λ n, n + off_a)%nat ta))
           (if needs_swap then SwapBytesOp (num_bits (ref_output_type rb)) nonzero else nonzero).
Definition if_zero_ref : ComputationRef := {|
  template := {| expr := new (postfix if_zero_tree); output_encoding := output_encoding (template ra);
                 internal_output_type := internal_output_type (template ra) |};
  arg_interpretation := arg_interpretation rb ++ (offset_arg (length (consts rb)) <$> arg_interpretation ra) ++
    (offset_arg (length (consts rb) + length (consts ra)) <$> arg_interpretation rc);
  consts := consts rb ++ consts ra ++ consts rc |}.

Lemma self_args_ok :
  mapM (λ arg, match arg with
               | ConstArg index =>
                   i ← add_u 16 (Z.of_nat index) (wrap 16 (Z.of_nat (length (consts rb))));
                   i ← add_u 16 i (wrap 16 (Z.of_nat (length (consts ra))));
                   Ok (ConstArg (Z.to_nat i))
               | _ => Ok arg
               end) (arg_interpretation rc) =
  Ok (offset_arg (length (consts rb) + length (consts ra)) <$> arg_interpretation rc).
Proof using Wc Hconsts Hargs.
  apply mapM_Ok. intros [| |i] Hi; try done. cbn [offset_arg].
  pose proof (rwf_consts rc tc Wc _ Hi). rewrite !wrap_small by (unfold is_u; lia).
  rewrite add_u_ok, M_bind_Ok, add_u_ok, M_bind_Ok by (unfold is_u; lia). do 2 f_equal. lia.
Qed.
Lemma if_zero_eq :
  if_zero c a b = Ok {| sc_expr := expr (template if_zero_ref); sc_consts := consts if_zero_ref;
                        sc_arg_interpretation := arg_interpretation if_zero_ref;
                        sc_output_encoding := output_encoding (template ra);
                        sc_output_type := ref_output_type ra |}.
Proof using All.
  unfold if_zero. rewrite Hc, Ha, Hb, !M_bind_Ok, (bool_decide_true _ Htype). cbn [rassert]. rewrite M_bind_Ok.
  rewrite (shift_const_ok _ (length (consts ra))) by (exact (rwf_consts ra ta Wa) || lia).
  rewrite M_bind_Ok, self_args_ok, M_bind_Ok, (rwf_ops rc tc Wc), (rwf_ops ra ta Wa), (rwf_ops rb tb Wb).
  cbv zeta. fold off_a. change (off_a + length (arg_interpretation ra))%nat with off_b.
  rewrite (shift_hole_ok off_b (length (arg_interpretation rc)) (postfix tc)),
    (shift_hole_ok off_a (length (arg_interpretation ra)) (postfix ta))
    by (exact (rwf_holes rc tc Wc) || exact (rwf_holes ra ta Wa) || (unfold off_b, off_a; lia)).
  rewrite M_bind_Ok.
  rewrite M_bind_Ok, (bits_u8 rc tc Wc), (bits_u8 ra ta Wa), (bits_u8 rb tb Wb). do 2 f_equal.
  unfold if_zero_ref; cbn [expr template]. f_equal. unfold if_zero_tree. cbn [postfix].
  rewrite !postfix_rename, <- !app_assoc. rewrite Htype, orb_diag. unfold needs_swap, ref_output_encoding.
  rewrite <- Htype. fold off_a off_b. do 4 f_equal. case_match; cbn [postfix]; by rewrite <- ?app_assoc.
Qed.

Lemma same_internal_type : internal_output_type (template ra) = internal_output_type (template rb).
Proof using P Wa Wb Htype.
  pose proof (const_from_output_type ra ta Wa) as E. rewrite Htype in E.
  rewrite (const_from_output_type rb tb Wb) in E. by apply (inj Ok) in E.
Qed.
Lemma if_zero_as_internal r : if_zero c a b = Ok r → as_internal r = Ok if_zero_ref.
Proof using All.
  rewrite if_zero_eq. intros [= <-]. unfold as_internal, SynthesizedComputation_as_ref, new_expr_computation.
  cbn [sc_expr sc_output_encoding sc_output_type sc_consts sc_arg_interpretation].
  by rewrite (const_from_output_type ra ta Wa), !M_bind_Ok.
Qed.
Lemma if_zero_tree_holes n : Hole n ∈ postfix if_zero_tree →
  (Hole n ∈ postfix tb) ∨ (∃ m, Hole m ∈ postfix ta ∧ n = m + off_a)%nat ∨
  (∃ m, Hole m ∈ postfix tc ∧ n = m + off_b)%nat.
Proof using.
  unfold if_zero_tree. cbn [postfix]. rewrite !postfix_rename. intros Hn.
  assert (∀ f t, Hole n ∈ rename_op f <$> postfix t → ∃ m, Hole m ∈ postfix t ∧ n = f m) as Hf.
  { intros f t ([] & [=] & Ho)%list_elem_of_fmap. eauto. }
  rewrite !elem_of_app, !list_elem_of_singleton in Hn.
  destruct Hn as [[Hn|Hn]|[[Hn|Hn]|[Hn|Hn]]]; try done; eauto.
  destruct needs_swap; cbn [postfix] in Hn; rewrite !elem_of_app, !list_elem_of_singleton in Hn;
    intuition (try done).
Qed.
Lemma if_zero_ref_wf : ref_wf if_zero_ref if_zero_tree.
Proof using All.
  split.
  - unfold if_zero_tree. cbn [no_val]. rewrite !no_val_rename, (rwf_tree _ _ Wc), (rwf_tree _ _ Wa). cbn [andb].
    destruct needs_swap; cbn [no_val]; apply Wb.
  - done.
  - intros n Hn%if_zero_tree_holes. cbn [arg_interpretation if_zero_ref].
    rewrite !length_app, !length_fmap. unfold off_b, off_a in *. destruct Hn as [Hn|[(m & Hn & ->)|(m & Hn & ->)]].
    + apply (rwf_holes rb tb Wb) in Hn. lia.
    + apply (rwf_holes ra ta Wa) in Hn. lia.
    + apply (rwf_holes rc tc Wc) in Hn. lia.
  - cbn [arg_interpretation consts if_zero_ref]. intros i. rewrite !elem_of_app, !list_elem_of_fmap, !length_app.
    intros [Hi|[([] & [=] & Hi)|([] & [=] & Hi)]].
    + apply (rwf_consts rb tb Wb) in Hi. lia.
    + apply (rwf_consts ra ta Wa) in Hi. lia.
    + apply (rwf_consts rc tc Wc) in Hi. lia.
  - apply (rwf_type ra ta Wa).
Qed.

Lemma if_zero_raw inputs vc va vb :
  raw rc tc inputs = Ok vc → raw ra ta inputs = Ok va → raw rb tb inputs = Ok vb →
  raw if_zero_ref if_zero_tree inputs =
  (nz ← (if needs_swap then swap_bytes_op (num_bits (ref_output_type rb)) (wrap (num_bits (ref_output_type rb)) vb)
         else Ok (wrap (num_bits (ref_output_type rb)) vb));
   Ok (if wrap (num_bits (ref_output_type rc)) vc =? 0 then wrap (num_bits (ref_output_type ra)) va else nz)).
Proof using All.
  unfold raw, interpret_args. intros Ec Ea Eb. M_inv Ec. M_inv Ea. M_inv Eb.
  rename a0 into argc, a1 into arga, a2 into argb. cbn [arg_interpretation consts if_zero_ref].
  rewrite !mapM_app.
  rewrite (interpret_args_prefix inputs (consts rb) _ (arg_interpretation rb)) by exact (rwf_consts rb tb Wb).
  rewrite E1, M_bind_Ok.
  rewrite (interpret_args_offset inputs (consts rb) (consts ra) _ (arg_interpretation ra)) by exact (rwf_consts ra ta Wa).
  rewrite E0, M_bind_Ok. rewrite <- length_app.
  replace (consts rb ++ consts ra ++ consts rc) with ((consts rb ++ consts ra) ++ consts rc ++ [])
    by (by rewrite app_nil_r, app_assoc).
  rewrite (interpret_args_offset inputs (consts rb ++ consts ra) (consts rc) [] (arg_interpretation rc)) by exact (rwf_consts rc tc Wc).
  rewrite E, !M_bind_Ok. apply mapM_length in E, E0, E1.
  unfold if_zero_tree. cbn [compute].
  rewrite (compute_rename (λ n, n + off_b)%nat tc (vget argc)).
  2:{ intros n Hn. unfold off_b, off_a. rewrite app_assoc. apply vget_app_r. rewrite length_app. lia. }
  rewrite (compute_rename (λ n, n + off_a)%nat ta (vget arga)).
  2:{ intros n Hn. unfold off_a. rewrite vget_app_r by lia. apply vget_app_l.
      rewrite E0. by apply (rwf_holes ra ta Wa). }
  rewrite Ec, Ea. cbn [un mbind M_bind].
  pose proof (output_bits_range rc tc Wc). pose proof (output_bits_range ra ta Wa).
  pose proof (output_bits_range rb tb Wb). rewrite !crop_op_ok by lia. cbn [mbind M_bind].
  assert (compute tb (vget (argb ++ arga ++ argc)) = Ok vb) as Eb'.
  { rewrite (compute_ext tb (vget argb)); [done|]. intros n Hn. apply vget_app_l. rewrite E1.
    by apply (rwf_holes rb tb Wb). }
  destruct needs_swap; cbn [compute]; rewrite Eb'; cbn [un mbind M_bind]; rewrite crop_op_ok by lia; done.
Qed.

(** Encoding the result with the byte order of [ra] gives the output of [rb]. *)
Lemma if_zero_nonzero_output vb nz :
  (needs_swap = true → ∃ n, internal_output_type (template ra) = BytesOut n) →
  (if needs_swap then swap_bytes_op (num_bits (ref_output_type rb)) (wrap (num_bits (ref_output_type rb)) vb)
   else Ok (wrap (num_bits (ref_output_type rb)) vb)) = Ok nz →
  i128_to_output (template ra) nz = i128_to_output (template rb) vb.
Proof using All.
  intros Hswap Hnz. pose proof same_internal_type as Hty. destruct needs_swap eqn:Hs.
  - destruct (Hswap eq_refl) as [n Hn]. pose proof (rwf_type ra ta Wa) as Hw. rewrite Hn in Hw.
    unfold needs_swap in Hs. apply andb_true_iff in Hs as [_ Hs]. apply negb_true_iff, bool_decide_eq_false in Hs.
    unfold i128_to_output. rewrite <- Hty, Hn, !i128_as_bytes_eq. f_equal.
    assert (num_bits (ref_output_type rb) = 8 * Z.of_nat n) as Hb8.
    { unfold ref_output_type, output_type. rewrite <- Hty, Hn. cbn [num_bits]. lia. }
    rewrite Hb8, swap_bytes_op_ok in Hnz by lia. cbv zeta in Hnz. rewrite bytes_for_8 in Hnz. injection Hnz as <-.
    rewrite (encode_swap _ (output_encoding (template rb))) by (done || lia). apply encode_wrap.
  - injection Hnz as <-. rewrite <- (to_output_crop rb tb Wb vb). apply (to_output_encoding ra rb _ ta Wa Hty).
    unfold needs_swap, ref_output_encoding in Hs. apply andb_false_iff in Hs as [Hs|Hs].
    + left. by apply Z.ltb_ge in Hs.
    + right; left. by apply negb_false_iff, bool_decide_eq_true in Hs.
Qed.

(** C17: [if_zero] builds a computation that chooses between its branches: it
    succeeds, the result is again well formed, and wherever the three parts
    evaluate, it evaluates to the value of [a] when the value of the condition is
    zero and to the value of [b] otherwise.  The branches may have different byte
    orders for byte outputs (the second is swapped) and for outputs of up to one
    byte. *)
Theorem if_zero_correct :
  (needs_swap = true → ∃ n, internal_output_type (template ra) = BytesOut n) →
  compiled_ok rc tc → compiled_ok ra ta → compiled_ok rb tb →
  ∃ r rr t, if_zero c a b = Ok r ∧ as_internal r = Ok rr ∧ ref_wf rr t ∧
    ((length (ops (sc_expr r)) <= STACK_SIZE)%nat →
     ∀ inputs vc va vb,
       evaluate_ref rc inputs = Ok vc → evaluate_ref ra inputs = Ok va → evaluate_ref rb inputs = Ok vb →
       evaluate_synthesized r inputs = Ok (if is_zero_value vc then va else vb)).
Proof using All.
  intros Hswap Cc Ca Cb. do 3 eexists. split; [apply if_zero_eq|].
  split; [apply if_zero_as_internal, if_zero_eq|]. split; [apply if_zero_ref_wf|].
  intros Hlen inputs vc va vb Ec Ea Eb. cbn [sc_expr expr template if_zero_ref new ops] in Hlen.
  unfold evaluate_synthesized. rewrite (if_zero_as_internal _ if_zero_eq), M_bind_Ok.
  rewrite (evaluate_ref_raw if_zero_ref if_zero_tree) by (apply compiled_ok_stack; [apply if_zero_ref_wf | done..]).
  rewrite (evaluate_ref_raw rc tc) in Ec by done. rewrite (evaluate_ref_raw ra ta) in Ea by done.
  rewrite (evaluate_ref_raw rb tb) in Eb by done. M_inv Ec. M_inv Ea. M_inv Eb.
  apply (inj Ok) in Ec as <-, Ea as <-, Eb as <-.
  rewrite (if_zero_raw inputs _ _ _ E E0 E1). rewrite (to_output_zero rc tc Wc).
  destruct (if needs_swap then _ else _) as [nz| |] eqn:Enz.
  - cbn [mbind M_bind]. f_equal. change (i128_to_output (template if_zero_ref)) with (i128_to_output (template ra)).
    destruct (_ =? 0); [apply (to_output_crop ra ta Wa) | by apply if_zero_nonzero_output].
  - exfalso. destruct needs_swap; [|done]. pose proof (output_bits_range rb tb Wb).
    by rewrite swap_bytes_op_ok in Enz by lia.
  - exfalso. destruct needs_swap; [|done]. pose proof (output_bits_range rb tb Wb).
    by rewrite swap_bytes_op_ok in Enz by lia.
Qed.
End if_zero.

(** The branches of the test suite: constants 0, 3 and 5. *)
Definition const_computation (v : Z) : SynthesizedComputation :=
  {| sc_expr := new [Hole 0]; sc_arg_interpretation := [TinyConst v]; sc_consts := [];
     sc_output_encoding := OutBigEndian; sc_output_type := Integer 64 |}.
Definition const_ref (v : Z) : ComputationRef :=
  {| template := {| expr := new [Hole 0]; output_encoding := OutBigEndian;
                    internal_output_type := Number (Z.ones 64) |};
     arg_interpretation := [TinyConst v]; consts := [] |}.
Lemma const_ref_wf v : ref_wf (const_ref v) (HoleOp 0).
Proof.
  split; try done; cbn.
  - intros n Hn. rewrite list_elem_of_singleton in Hn. injection Hn as ->. lia.
  - intros i Hi. by rewrite list_elem_of_singleton in Hi.
  - exists 64. split; [lia | done].
Qed.
Lemma const_ref_compiled {P : profile} v : compiled_ok (const_ref v) (HoleOp 0).
Proof. apply compiled_ok_stack; [apply const_ref_wf | done | apply Nat.leb_le; reflexivity]. Qed.

Section if_zero_example.
#[local] Instance if_zero_profile : profile := Dev.
Lemma if_zero_correct_witness :
  ∃ r, if_zero (const_computation 3) (const_computation 3) (const_computation 5) = Ok r ∧
       evaluate_synthesized r [] = Ok (Num 5).
Proof.
  assert (∀ v, as_internal (const_computation v) = Ok (const_ref v)) as Hi by (intros v; vm_compute; reflexivity).
  destruct (if_zero_correct (const_computation 3) (const_computation 3) (const_computation 5)
    (const_ref 3) (const_ref 3) (const_ref 5) (HoleOp 0) (HoleOp 0) (HoleOp 0) (Hi 3) (Hi 3) (Hi 5)
    (const_ref_wf 3) (const_ref_wf 3) (const_ref_wf 5) eq_refl
    ltac:(vm_compute; discriminate) ltac:(vm_compute; discriminate) ltac:(vm_compute; discriminate)
    (const_ref_compiled 3) (const_ref_compiled 3) (const_ref_compiled 5))
    as (r & rr & t & Hr & _ & _ & Hev).
  exists r. split; [exact Hr|].
  rewrite (Hev ltac:(vm_compute in Hr; injection Hr as <-; apply Nat.leb_le; reflexivity) [] (Num 3) (Num 3) (Num 5)
    ltac:(vm_compute; reflexivity) ltac:(vm_compute; reflexivity) ltac:(vm_compute; reflexivity)).
  reflexivity.
Defined.
End if_zero_example.

(** ** [chain] *)

Definition first_index (args : list Arg) (a : Arg) : nat :=
  match list_find (λ x, x = a) args with Some (i, _) => i | None => 0 end.
Definition chain_index (args self_args : list Arg) (n : nat) : nat :=
  match self_args !! n with Some a => first_index args a | None => 0 end.

Lemma first_index_lookup args a : a ∈ args → args !! first_index args a = Some a.
Proof.
  intros Ha. unfold first_index. destruct (list_find_elem_of (λ x, x = a) args a Ha eq_refl) as [[i x] Hi].
  rewrite Hi. by apply list_find_Some in Hi as (? & -> & _).
Qed.
Lemma first_index_app args k a : a ∈ args → first_index (args ++ k) a = first_index args a.
Proof.
  intros Ha. unfold first_index. destruct (list_find_elem_of (λ x, x = a) args a Ha eq_refl) as [[i x] Hi].
  rewrite Hi. by rewrite (list_find_app_l _ _ _ _ _ Hi).
Qed.
Lemma first_index_push args a : a ∉ args → first_index (args ++ [a]) a = length args.
Proof.
  intros Ha. unfold first_index. rewrite list_find_app_r.
  - cbn. rewrite decide_True by done. cbn. lia.
  - apply list_find_None, Forall_forall. by intros x Hx ->.
Qed.

Lemma find_or_push_spec args a args' i : find_or_push args a = Ok (args', i) →
  ∃ s, args' = args ++ s ∧ (∀ x, x ∈ s → x = a) ∧ a ∈ args' ∧ i = first_index args' a.
Proof.
  unfold find_or_push. intros H. destruct (list_find (λ x, x = a) args) as [[j x]|] eqn:E.
  - M_inv H. injection H as <- <-. exists []. rewrite app_nil_r. unfold first_index. rewrite E.
    apply list_find_Some in E as (Hj & -> & _). split_and!; try done; [set_solver|]. by eapply list_elem_of_lookup_2.
  - M_inv H. injection H as <- <-. exists [a]. split_and!; [done|set_solver|set_solver|].
    symmetry. apply first_index_push. intros Ha. apply list_find_None in E.
    by eapply Forall_forall in E; [apply E|].
Qed.
Lemma find_or_push_ok args a : Z.of_nat (length args) < 2 ^ 16 →
  ∃ args' i, find_or_push args a = Ok (args', i) ∧ (length args' <= length args + 1)%nat.
Proof.
  intros H. unfold find_or_push. destruct (list_find (λ x, x = a) args) as [[j x]|] eqn:E.
  - apply list_find_Some in E as (Hj & _). apply lookup_lt_Some in Hj.
    rewrite bool_decide_true by (unfold is_u; lia). do 2 eexists; split; [done|]. lia.
  - rewrite bool_decide_true by (unfold is_u; lia). do 2 eexists; split; [done|]. rewrite length_app. cbn. lia.
Qed.

Lemma chain_ops_spec self_args l : ∀ args args' l', chain_ops self_args l args = Ok (args', l') →
  ∃ s, args' = args ++ s ∧ (∀ x, x ∈ s → x ∈ self_args) ∧
    l' = rename_op (chain_index args' self_args) <$> l ∧
    ∀ n, Hole n ∈ l → args' !! chain_index args' self_args n = self_args !! n.
Proof.
  induction l as [|o l IH]; intros args args' l' H.
  { cbn in H. injection H as <- <-. exists []. rewrite app_nil_r. split_and!; set_solver. }
  destruct o; try (cbn [chain_ops] in H; M_inv H; destruct a as [args1 l1];
    injection H as <- <-; destruct (IH _ _ _ E) as (s & -> & Hs & -> & Hn);
    exists s; split_and!; try done; intros n' Hn'; apply Hn; set_solver).
  cbn [chain_ops] in H. M_inv H. destruct a0 as [args1 i]. M_inv H. destruct a0 as [args2 l2].
  injection H as <- <-. apply find_or_push_spec in E0 as (s1 & -> & Hs1 & Ha & ->).
  destruct (IH _ _ _ E1) as (s2 & -> & Hs2 & -> & Hn). exists (s1 ++ s2). rewrite app_assoc.
  assert (a ∈ self_args) by (by eapply list_elem_of_lookup_2).
  assert (chain_index ((args ++ s1) ++ s2) self_args n = first_index (args ++ s1) a) as Hi.
  { unfold chain_index. rewrite E. by apply first_index_app. }
  split_and!; [done| |cbn; by rewrite Hi|].
  - intros x [Hx|Hx]%elem_of_app; [by rewrite (Hs1 x Hx) | by apply Hs2].
  - intros m [[= ->]|Hm]%elem_of_cons; [|by apply Hn].
    rewrite Hi, E, lookup_app_l; [by apply first_index_lookup|].
    eapply lookup_lt_Some. by apply first_index_lookup.
Qed.
Lemma chain_ops_ok self_args l : ∀ args, holes_below (length self_args) l →
  Z.of_nat (length args + length l) <= 2 ^ 16 → ∃ r, chain_ops self_args l args = Ok r.
Proof.
  induction l as [|o l IH]; intros args Hl Hlen; [by eexists|].
  assert (holes_below (length self_args) l) as Hl' by (intros n Hn; apply Hl; by right).
  destruct o; cbn [chain_ops length] in *;
    try (destruct (IH args Hl' ltac:(lia)) as [[args' l'] ->]; by eexists).
  destruct (vget_lt self_args n ltac:(apply Hl; left)) as (a & -> & _). rewrite M_bind_Ok.
  destruct (find_or_push_ok args a ltac:(lia)) as (args1 & i & -> & Hlen1). rewrite M_bind_Ok.
  destruct (IH args1 Hl' ltac:(lia)) as [[args' l'] ->]. by eexists.
Qed.

Section chain.
Context {P : profile} {A : Type} `{AsComputationRef A}.
Context (c : A) (o : SynthesizedComputation) (rc ro : ComputationRef) (tc to : FastOp).
Context (Hc : as_internal c = Ok rc) (Ho : as_internal o = Ok ro).
Context (Wc : ref_wf rc tc) (Wo : ref_wf ro to).
Context (Htype : ref_output_type rc = ref_output_type ro).
Context (Henc : 8 < num_bits (ref_output_type rc) → ref_output_encoding rc = ref_output_encoding ro).
Context (Hargs : Z.of_nat (length (arg_interpretation ro) + length (postfix tc)) <= 2 ^ 16).
Context (Hconsts : Z.of_nat (length (consts ro) + length (consts rc)) <= 2 ^ 16).

(** The result of [chain]: the code of [other], then that of [self] with its
    holes renamed by [f]. *)
Record chained (r : SynthesizedComputation) (f : nat → nat) (args : list Arg) : Prop := {
  ch_result : chain c o = Ok r;
  ch_ops : sc_expr r = new (postfix to ++ postfix (rename f tc));
  ch_args : sc_arg_interpretation r = (offset_arg (length (consts rc)) <$> arg_interpretation ro) ++ args;
  ch_self : ∀ x, x ∈ args → x ∈ arg_interpretation rc;
  ch_consts : sc_consts r = consts rc ++ consts ro;
  ch_holes : ∀ n, Hole n ∈ postfix tc →
    sc_arg_interpretation r !! f n = arg_interpretation rc !! n;
  ch_enc : sc_output_encoding r = ref_output_encoding rc;
  ch_type : sc_output_type r = ref_output_type rc;
}.

Lemma chain_ok : ∃ r f args, chained r f args.
Proof using All.
  destruct (chain_ops_ok (arg_interpretation rc) (postfix tc)
    (offset_arg (length (consts rc)) <$> arg_interpretation ro)) as [[args' l'] Hch].
  { exact (rwf_holes rc tc Wc). }
  { rewrite length_fmap. lia. }
  destruct (chain_ops_spec _ _ _ _ _ Hch) as (s & Hs & Hself & Hl & Hh).
  eexists _, (chain_index args' (arg_interpretation rc)), s. split.
  - unfold chain. rewrite Hc, Ho, !M_bind_Ok, (bool_decide_true _ Htype). cbn [rassert]. rewrite M_bind_Ok.
    replace (negb _ || _) with true.
    2:{ rewrite <- Htype, orb_diag. destruct (Z.ltb_spec 8 (num_bits (ref_output_type rc))); [|done].
        by rewrite (bool_decide_true _ (Henc ltac:(lia))). }
    cbn [rassert]. rewrite M_bind_Ok.
    rewrite (shift_const_ok _ (length (consts ro))) by (exact (rwf_consts ro to Wo) || lia).
    rewrite M_bind_Ok, (rwf_ops rc tc Wc), Hch, M_bind_Ok, (rwf_ops ro to Wo). reflexivity.
  - cbn [sc_expr]. by rewrite postfix_rename, Hl.
  - done.
  - done.
  - done.
  - done.
  - done.
  - done.
Qed.

Section combined.
Context (r : SynthesizedComputation) (f : nat → nat) (args : list Arg) (Hr : chained r f args).
(** [and] and [or] push one operation on two chained computations. *)
Context (op : Op) (g : Z → Z → Z) (Hop : ∀ n, op ≠ Hole n).
Context (mk : FastOp → FastOp → FastOp) (Hmk : ∀ x y, postfix (mk x y) = postfix x ++ postfix y ++ [op])
        (Hval : ∀ x y, no_val (mk x y) = no_val x && no_val y)
        (Hcomp : ∀ x y env, compute (mk x y) env = bin (λ a b, Ok (g a b)) (compute x env) (compute y env)).

Definition combined : SynthesizedComputation := with_expr r (push_op (sc_expr r) op).
Definition combined_tree : FastOp := mk to (rename f tc).
Definition combined_ref : ComputationRef :=
  {| template := {| expr := new (postfix combined_tree); output_encoding := output_encoding (template rc);
                    internal_output_type := internal_output_type (template rc) |};
     arg_interpretation := sc_arg_interpretation r; consts := consts rc ++ consts ro |}.

Lemma combined_as_internal : as_internal combined = Ok combined_ref.
Proof using All.
  unfold as_internal, SynthesizedComputation_as_ref, new_expr_computation, combined, with_expr, push_op.
  cbn [sc_expr sc_output_encoding sc_output_type sc_consts sc_arg_interpretation].
  rewrite (ch_type r f args Hr), (const_from_output_type rc tc Wc), !M_bind_Ok.
  unfold combined_ref, combined_tree.
  by rewrite (ch_ops r f args Hr), (ch_enc r f args Hr), (ch_consts r f args Hr), Hmk, app_assoc.
Qed.
Lemma combined_wf : ref_wf combined_ref combined_tree.
Proof using All.
  split.
  - unfold combined_tree. rewrite Hval, no_val_rename, (rwf_tree _ _ Wo), (rwf_tree _ _ Wc). done.
  - done.
  - cbn [arg_interpretation combined_ref]. intros n. unfold combined_tree.
    rewrite Hmk, postfix_rename, !elem_of_app. intros [Hn|[Hn|Hn]].
    + apply (rwf_holes ro to Wo) in Hn. rewrite (ch_args r f args Hr), length_app, length_fmap. lia.
    + apply list_elem_of_fmap in Hn as ([] & [=] & Hn). subst n. pose proof (ch_holes r f args Hr _ Hn) as Hl.
      apply (rwf_holes rc tc Wc) in Hn. apply lookup_lt_is_Some_2 in Hn as [x Hx].
      rewrite Hx in Hl. by eapply lookup_lt_Some.
    + apply list_elem_of_singleton in Hn. by destruct (Hop n).
  - cbn [arg_interpretation consts combined_ref]. intros i. rewrite (ch_args r f args Hr), elem_of_app, length_app.
    intros [([] & [=] & Hi)%list_elem_of_fmap|Hi].
    + apply (rwf_consts ro to Wo) in Hi. lia.
    + apply (ch_self r f args Hr), (rwf_consts rc tc Wc) in Hi. lia.
  - apply (rwf_type rc tc Wc).
Qed.

Lemma interpret_self inputs x : x ∈ arg_interpretation rc →
  interpret_inputs x inputs (consts rc ++ consts ro) = interpret_inputs x inputs (consts rc).
Proof using Wc.
  intros Hx. rewrite <- (interpret_offset inputs [] (consts rc) (consts ro) x); [by rewrite offset_arg_0|].
  intros i ->. by apply (rwf_consts rc tc Wc).
Qed.
Lemma combined_args inputs argc argo :
  interpret_args rc inputs = Ok argc → interpret_args ro inputs = Ok argo →
  ∃ l, interpret_args combined_ref inputs = Ok (argo ++ l) ∧
    ∀ n, Hole n ∈ postfix tc → vget (argo ++ l) (f n) = vget argc n.
Proof using All.
  unfold interpret_args. intros Ec Eo. rewrite mapM_Forall2 in Ec.
  set (interp := λ x, interpret_inputs x inputs (consts rc ++ consts ro)).
  assert (∃ l, mapM interp args = Ok l) as [l Hl].
  { apply mapM_exists. intros x Hx%(ch_self r f args Hr). unfold interp. rewrite interpret_self by done.
    apply list_elem_of_lookup_1 in Hx as [i Hi]. destruct (Forall2_lookup_l _ _ _ _ _ Ec Hi) as (y & _ & Hy).
    eauto. }
  assert (mapM interp (sc_arg_interpretation r) = Ok (argo ++ l)) as Hall.
  { rewrite (ch_args r f args Hr), mapM_app, Hl.
    pose proof (interpret_args_offset inputs (consts rc) (consts ro) [] (arg_interpretation ro)
      (rwf_consts ro to Wo)) as Eoff. rewrite app_nil_r in Eoff. fold interp in Eoff.
    by rewrite Eoff, Eo. }
  exists l. split; [exact Hall|]. intros n Hn. apply mapM_Forall2 in Hall.
  pose proof (ch_holes r f args Hr n Hn) as Hx. pose proof (rwf_holes rc tc Wc n Hn) as Hlt.
  apply lookup_lt_is_Some_2 in Hlt as [x Hx']. rewrite Hx' in Hx.
  destruct (Forall2_lookup_l _ _ _ _ _ Ec Hx') as (y & Hy & Hy').
  destruct (Forall2_lookup_l _ _ _ _ _ Hall Hx) as (z & Hz & Hz').
  unfold interp in Hz'. rewrite interpret_self, Hy' in Hz' by (by eapply list_elem_of_lookup_2).
  apply (inj Ok) in Hz' as <-. unfold vget. by rewrite Hy, Hz.
Qed.
Lemma combined_raw inputs vc vo : raw rc tc inputs = Ok vc → raw ro to inputs = Ok vo →
  raw combined_ref combined_tree inputs = Ok (g vo vc).
Proof using All.
  unfold raw. intros Ec Eo. M_inv Ec. M_inv Eo. rename a into argc, a0 into argo.
  destruct (combined_args inputs argc argo E E0) as (l & -> & Hl). rewrite M_bind_Ok.
  unfold combined_tree. rewrite Hcomp, (compute_rename f tc (vget argc)) by done.
  rewrite (compute_ext to (vget argo)), Ec, Eo; [done|]. intros n Hn. apply vget_app_l.
  apply mapM_length in E0. rewrite E0. by apply (rwf_holes ro to Wo).
Qed.
End combined.
End chain.

(** ** Bitwise operations on encoded values *)

Section bitwise.
Context (g : Z → Z → Z) (gb : bool → bool → bool) (Hgb : gb false false = false).
Context (Hg : ∀ x y i, 0 <= i → Z.testbit (g x y) i = gb (Z.testbit x i) (Z.testbit y i)).
Context (Hcomm : ∀ x y, g x y = g y x).

Lemma wrap_bitop w x y : 0 <= w → wrap w (g x y) = g (wrap w x) (wrap w y).
Proof using Hgb Hg.
  intros Hw. apply Z.bits_inj'; intros i Hi. rewrite Hg, !testbit_wrap, Hg by lia. by case_cmp.
Qed.
Lemma shiftr_bitop k x y : 0 <= k → Z.shiftr (g x y) k = g (Z.shiftr x k) (Z.shiftr y k).
Proof using Hg. intros Hk. apply Z.bits_inj'; intros i Hi. by rewrite Hg, !Z.shiftr_spec, Hg by lia. Qed.
Lemma to_le_bytes_bitop n : ∀ x y,
  to_le_bytes n (g x y) = (λ '(a, b), g a b) <$> zip (to_le_bytes n x) (to_le_bytes n y).
Proof using Hgb Hg.
  induction n as [|n IH]; intros x y; [done|]. cbn [to_le_bytes]. rewrite wrap_bitop, shiftr_bitop, IH by lia. done.
Qed.
Lemma reverse_fmap_zip l k : length l = length k →
  reverse ((λ '(a, b), g a b) <$> zip l k) = (λ '(a, b), g a b) <$> zip (reverse l) (reverse k).
Proof using.
  revert k. induction l as [|a l IH]; intros [|b k] E; try done. cbn [length] in E. rewrite !reverse_cons.
  rewrite zip_with_app by (rewrite !length_reverse; lia). rewrite fmap_app, <- IH by lia.
  change (zip (a :: l) (b :: k)) with ((a, b) :: zip l k). by rewrite fmap_cons, reverse_cons.
Qed.
Lemma encode_bitop enc n x y :
  encode enc n (g x y) = (λ '(a, b), g a b) <$> zip (encode enc n x) (encode enc n y).
Proof using Hgb Hg.
  destruct enc; cbn [encode]; [apply to_le_bytes_bitop|]. unfold to_be_bytes.
  rewrite to_le_bytes_bitop. apply reverse_fmap_zip. by rewrite !length_to_le_bytes.
Qed.
(** The output of the combined result is the combination of the outputs. *)
Lemma to_output_bitop r r' t x y : ref_wf r t →
  internal_output_type (template r) = internal_output_type (template r') →
  num_bits (ref_output_type r) <= 8 ∨ output_encoding (template r) = output_encoding (template r') →
  bitop g (i128_to_output (template r) x) (i128_to_output (template r') y) Ok =
  Ok (i128_to_output (template r) (g y x)).
Proof using All.
  intros Hr Hty Henc. rewrite <- (to_output_encoding r r' y t Hr Hty) by tauto.
  pose proof (rwf_type r t Hr) as Ht. unfold i128_to_output.
  destruct (internal_output_type (template r)) as [mask|n].
  - destruct Ht as (k & Hk & ->). cbn [bitop]. rewrite !Z.land_ones by lia. change (?x mod 2 ^ ?w) with (wrap w x).
    rewrite !wrap_wrap_le by lia. by rewrite Hcomm, <- wrap_bitop by lia.
  - rewrite !i128_as_bytes_eq. cbn [bitop]. by rewrite Hcomm, encode_bitop.
Qed.
End bitwise.

Section logic.
Context {P : profile} {A : Type} `{AsComputationRef A}.
Context (c : A) (rc : ComputationRef) (tc : FastOp).
Context (Hc : as_internal c = Ok rc) (Wc : ref_wf rc tc) (Cc : compiled_ok rc tc).

Section binary.
Context (o : SynthesizedComputation) (ro : ComputationRef) (to : FastOp).
Context (Ho : as_internal o = Ok ro) (Wo : ref_wf ro to) (Co : compiled_ok ro to).
Context (Htype : ref_output_type rc = ref_output_type ro).
Context (Henc : 8 < num_bits (ref_output_type rc) → ref_output_encoding rc = ref_output_encoding ro).
Context (Hargs : Z.of_nat (length (arg_interpretation ro) + length (postfix tc)) <= 2 ^ 16).
Context (Hconsts : Z.of_nat (length (consts ro) + length (consts rc)) <= 2 ^ 16).

Lemma chained_correct op g gb mk :
  (∀ n, op ≠ Hole n) → (∀ x y, postfix (mk x y) = postfix x ++ postfix y ++ [op]) →
  (∀ x y, no_val (mk x y) = no_val x && no_val y) →
  (∀ x y env, compute (mk x y) env = bin (λ a b, Ok (g a b)) (compute x env) (compute y env)) →
  gb false false = false → (∀ x y i, 0 <= i → Z.testbit (g x y) i = gb (Z.testbit x i) (Z.testbit y i)) →
  (∀ x y, g x y = g y x) →
  ∃ r rr t, (x ← chain c o; Ok (with_expr x (push_op (sc_expr x) op))) = Ok r ∧
    as_internal r = Ok rr ∧ ref_wf rr t ∧
    ((length (ops (sc_expr r)) <= STACK_SIZE)%nat →
     ∀ inputs vc vo, evaluate_ref rc inputs = Ok vc → evaluate_ref ro inputs = Ok vo →
       evaluate_synthesized r inputs = bitop g vc vo Ok).
Proof using All.
  intros Hop Hmk Hval Hcomp Hgb Hg Hcomm.
  destruct (chain_ok c o rc ro tc to Hc Ho Wc Wo Htype Henc Hargs Hconsts) as (x & f & args & Hx).
  set (r := combined x op). set (t := combined_tree tc to f mk). set (rr := combined_ref rc ro tc to x f mk).
  assert (as_internal r = Ok rr) as Hi by (eapply combined_as_internal; done).
  assert (ref_wf rr t) as Hw by (eapply combined_wf; done).
  exists r, rr, t. split; [by rewrite (ch_result _ _ _ _ _ _ _ _ _ Hx), M_bind_Ok|]. split_and!; [done..|].
  intros Hlen inputs vc vo Ec Eo. unfold evaluate_synthesized. rewrite Hi, M_bind_Ok.
  assert (ops (sc_expr r) = postfix t) as Hops.
  { unfold r, combined, with_expr, push_op. cbn [sc_expr ops].
    rewrite (ch_ops _ _ _ _ _ _ _ _ _ Hx). cbn [ops new]. unfold t, combined_tree. by rewrite Hmk, app_assoc. }
  rewrite (evaluate_ref_raw rr t) by (apply compiled_ok_stack; [done | done | by rewrite <- Hops]).
  rewrite (evaluate_ref_raw rc tc) in Ec by done. rewrite (evaluate_ref_raw ro to) in Eo by done.
  M_inv Ec. M_inv Eo. apply (inj Ok) in Ec as <-, Eo as <-.
  pose proof (combined_raw c o rc ro tc to Hc Ho Wc Wo Htype Henc Hargs Hconsts x f args Hx op g Hop mk Hmk Hval Hcomp
    inputs _ _ E E0) as Eraw. fold rr t in Eraw. rewrite Eraw, M_bind_Ok.
  symmetry. apply (to_output_bitop g gb Hgb Hg Hcomm rc ro tc); [done| |].
  - pose proof (const_from_output_type rc tc Wc) as E'. rewrite Htype, (const_from_output_type ro to Wo) in E'.
    by apply (inj Ok) in E'.
  - destruct (Z.le_gt_cases (num_bits (ref_output_type rc)) 8); [by left | right; by apply Henc; lia].
Qed.

(** C37: [and] and [or] of two computations of the same type succeed, are again
    well formed, and evaluate to the bitwise AND and OR of the two values, bytes
    position by position. *)
Theorem and_or_correct :
  ∃ ra ta rra ro' to' rro,
    computation_and c o = Ok ra ∧ as_internal ra = Ok rra ∧ ref_wf rra ta ∧
    computation_or c o = Ok ro' ∧ as_internal ro' = Ok rro ∧ ref_wf rro to' ∧
    ((length (ops (sc_expr ra)) <= STACK_SIZE)%nat → (length (ops (sc_expr ro')) <= STACK_SIZE)%nat →
     ∀ inputs vc vo, evaluate_ref rc inputs = Ok vc → evaluate_ref ro inputs = Ok vo →
       evaluate_synthesized ra inputs = value_and vc vo Ok ∧
       evaluate_synthesized ro' inputs = value_or vc vo Ok).
Proof using All.
  destruct (chained_correct And Z.land andb AndOp) as (ra & rra & ta & Ha & Hia & Hwa & Hea);
    [done..|intros; by apply Z.land_spec|apply Z.land_comm|].
  destruct (chained_correct Or Z.lor orb OrOp) as (rb & rrb & tb & Hb & Hib & Hwb & Heb);
    [done..|intros; by apply Z.lor_spec|apply Z.lor_comm|].
  exists ra, ta, rra, rb, tb, rrb. split_and!; try done. intros. split; [by apply Hea | by apply Heb].
Qed.
End binary.

(** The complement of a value within its width. *)
Definition complement (t : IoType) (v : Value) : Value :=
  match v with
  | Num n => Num (Z.lxor n (Z.ones (num_bits t)))
  | Bytes b => Bytes (not_u 8 <$> b)
  end.
Lemma to_le_bytes_lnot n : ∀ v, to_le_bytes n (Z.lnot v) = not_u 8 <$> to_le_bytes n v.
Proof using.
  induction n as [|n IH]; intros v; [done|]. cbn [to_le_bytes]. rewrite fmap_cons, <- IH. f_equal.
  - unfold not_u. bitwise i Hi; done.
  - f_equal. bitwise i Hi; done.
Qed.
Lemma to_output_lnot v :
  i128_to_output (template rc) (Z.lnot v) = complement (ref_output_type rc) (i128_to_output (template rc) v).
Proof using Wc.
  pose proof (rwf_type rc tc Wc) as Ht. unfold i128_to_output, ref_output_type, output_type.
  destruct (internal_output_type (template rc)) as [mask|n].
  - destruct Ht as (k & Hk & ->). cbn [complement num_bits]. rewrite trailing_ones_ones by lia. f_equal.
    bitwise i Hi; done.
  - rewrite !i128_as_bytes_eq. cbn [complement]. f_equal.
    destruct (output_encoding (template rc)); cbn [encode]; unfold to_be_bytes;
      by rewrite to_le_bytes_lnot, ?fmap_reverse.
Qed.

Section unary.
Context (suffix : list Op) (t : FastOp) (h : Z → Z).
Context (Ht : postfix t = postfix tc ++ suffix) (Hv : no_val t = true)
        (Hh : ∀ n, Hole n ∉ suffix) (Hcomp : ∀ env, compute t env = (v ← compute tc env; Ok (h v))).

Definition appended : SynthesizedComputation :=
  {| sc_expr := new (postfix t); sc_arg_interpretation := arg_interpretation rc; sc_consts := consts rc;
     sc_output_encoding := ref_output_encoding rc; sc_output_type := ref_output_type rc |}.
Definition appended_ref : ComputationRef :=
  {| template := {| expr := new (postfix t); output_encoding := output_encoding (template rc);
                    internal_output_type := internal_output_type (template rc) |};
     arg_interpretation := arg_interpretation rc; consts := consts rc |}.

Lemma appended_correct : append_ops c suffix = Ok appended ∧ as_internal appended = Ok appended_ref ∧
  ref_wf appended_ref t ∧
  ((length (postfix t) <= STACK_SIZE)%nat → ∀ inputs,
     evaluate_synthesized appended inputs =
     (v ← raw rc tc inputs; Ok (i128_to_output (template rc) (h v)))).
Proof using All.
  assert (as_internal appended = Ok appended_ref) as Hi.
  { unfold as_internal, SynthesizedComputation_as_ref, new_expr_computation, appended.
    cbn [sc_expr sc_output_encoding sc_output_type sc_consts sc_arg_interpretation].
    by rewrite (const_from_output_type rc tc Wc), !M_bind_Ok. }
  assert (ref_wf appended_ref t) as Hw.
  { split; [done|done| |apply Wc|apply (rwf_type rc tc Wc)].
    intros n. rewrite Ht, elem_of_app. intros [Hn|Hn]; [by apply (rwf_holes rc tc Wc) | by destruct (Hh n)]. }
  split_and!; [|done|done|].
  - unfold append_ops. by rewrite Hc, M_bind_Ok, (rwf_ops rc tc Wc), <- Ht.
  - intros Hlen inputs. unfold evaluate_synthesized. rewrite Hi, M_bind_Ok.
    rewrite (evaluate_ref_raw appended_ref t) by (by apply compiled_ok_stack).
    unfold raw. rewrite !M_bind_assoc. apply M_bind_ext; intros args. rewrite Hcomp, M_bind_assoc.
    by apply M_bind_ext.
Qed.
End unary.

(** [not] evaluates to the complement of the value within its width, and
    [not_crop] to the negation of a one-bit integer; both are well formed. *)
Theorem not_correct :
  ∃ rn rrn tn rx rrx tx,
    computation_not c = Ok rn ∧ as_internal rn = Ok rrn ∧ ref_wf rrn tn ∧
    not_crop c = Ok rx ∧ as_internal rx = Ok rrx ∧ ref_wf rrx tx ∧
    ((length (ops (sc_expr rn)) < STACK_SIZE)%nat → ∀ inputs vc, evaluate_ref rc inputs = Ok vc →
       evaluate_synthesized rn inputs = Ok (complement (ref_output_type rc) vc) ∧
       (ref_output_type rc = Integer 1 → ∀ n, vc = Num n →
          evaluate_synthesized rx inputs = Ok (Num (1 - n)))).
Proof using All.
  destruct (appended_correct [Not] (NotOp tc) Z.lnot) as (Hn & Hin & Hwn & Hen); try done; try apply Wc.
  { set_solver. }
  destruct (appended_correct [Not; Crop 1] (CropOp 1 (NotOp tc)) (λ v, wrap 1 (Z.lnot v)))
    as (Hx & Hix & Hwx & Hex).
  { cbn [postfix]. by rewrite <- app_assoc. }
  { apply Wc. }
  { set_solver. }
  { intros env. cbn [compute]. unfold un. rewrite M_bind_assoc. apply M_bind_ext; intros v. cbn [not_op mbind M_bind].
    by rewrite crop_op_ok by lia. }
  do 6 eexists. split_and!; try done. cbn [sc_expr appended new ops]. intros Hlen inputs vc Hvc.
  rewrite (evaluate_ref_raw rc tc) in Hvc by done. M_inv Hvc. apply (inj Ok) in Hvc as <-. split.
  - rewrite Hen, E, M_bind_Ok by lia. by rewrite to_output_lnot.
  - intros Hty n Hv. rewrite Hex by (cbn [postfix] in *; rewrite !length_app in *; cbn [length] in *; lia).
    rewrite E, M_bind_Ok. f_equal.
    replace 1 with (num_bits (ref_output_type rc)) at 1 by (by rewrite Hty).
    rewrite (to_output_crop rc tc Wc), to_output_lnot, Hv, Hty. cbn [complement num_bits]. f_equal.
    assert (is_u 1 n) as Hu; [|by assert (n = 0 ∨ n = 1) as [->| ->] by (unfold is_u in Hu; lia)].
    pose proof (rwf_type rc tc Wc) as Hw. unfold ref_output_type, output_type, i128_to_output in *.
    destruct (internal_output_type (template rc)) as [mask|]; [|done]. destruct Hw as (k & Hk & ->).
    rewrite trailing_ones_ones in Hty by lia. injection Hty as ->. injection Hv as <-.
    rewrite Z.land_ones by lia. apply wrap_is_u; lia.
Qed.
End logic.

Section logic_example.
#[local] Instance logic_profile : profile := Dev.
Lemma and_or_correct_witness :
  ∃ r, computation_and (const_computation 12) (const_computation 10) = Ok r ∧
       evaluate_synthesized r [] = Ok (Num 8).
Proof.
  assert (∀ v, as_internal (const_computation v) = Ok (const_ref v)) as Hi by (intros v; vm_compute; reflexivity).
  destruct (and_or_correct (const_computation 12) (const_ref 12) (HoleOp 0) (Hi 12) (const_ref_wf 12)
    (const_ref_compiled 12) (const_computation 10) (const_ref 10) (HoleOp 0) (Hi 10) (const_ref_wf 10)
    (const_ref_compiled 10) eq_refl ltac:(reflexivity) ltac:(vm_compute; discriminate)
    ltac:(vm_compute; discriminate)) as (ra & ta & rra & ro & to & rro & Ha & _ & _ & Ho & _ & _ & Hev).
  exists ra. split; [exact Ha|].
  destruct (Hev ltac:(vm_compute in Ha; injection Ha as <-; apply Nat.leb_le; reflexivity)
                ltac:(vm_compute in Ho; injection Ho as <-; apply Nat.leb_le; reflexivity)
                [] (Num 12) (Num 10) ltac:(vm_compute; reflexivity) ltac:(vm_compute; reflexivity)) as [-> _].
  reflexivity.
Defined.
Lemma not_correct_witness :
  ∃ r, computation_not (const_computation 5) = Ok r ∧
       evaluate_synthesized r [] = Ok (Num 0xfffffffffffffffa).
Proof.
  assert (as_internal (const_computation 5) = Ok (const_ref 5)) as Hi by (vm_compute; reflexivity).
  destruct (not_correct (const_computation 5) (const_ref 5) (HoleOp 0) Hi (const_ref_wf 5) (const_ref_compiled 5))
    as (rn & rrn & tn & rx & rrx & tx & Hn & _ & _ & _ & _ & _ & Hev).
  exists rn. split; [exact Hn|].
  destruct (Hev ltac:(vm_compute in Hn; injection Hn as <-; apply Nat.ltb_lt; reflexivity) [] (Num 5)
    ltac:(vm_compute; reflexivity)) as [-> _].
  reflexivity.
Defined.
End logic_example.

(** ** Remapping inputs *)

(** The effect of [remap_inputs] on an argument that is in use. *)
Lemma remap_arg_interpret {P : profile} map arg arg' inputs inputs' cs :
  remap_arg map arg = Ok arg' →
  (∀ i nb enc j, arg = Input i nb enc → map !! i = Some (Some j) → inputs' !! j = inputs !! i) →
  interpret_inputs arg' inputs' cs = interpret_inputs arg inputs cs.
Proof.
  intros Hm Hin. destruct arg as [i nb enc|v|k]; cbn [remap_arg] in Hm; [|by injection Hm as <-..].
  M_inv Hm. destruct a as [j|]; cbn [unwrap] in E0; [|done]. injection E0 as ->. injection Hm as <-.
  cbn [interpret_inputs]. unfold vget. by rewrite (Hin i nb enc a0 eq_refl E).
Qed.

(** [remap_inputs] renames the inputs of a computation: it succeeds exactly
    when every input in use has a new index below 256 (an input without one makes
    it panic), and the renamed computation on inputs arranged by the map
    evaluates as the original did. *)
Theorem remap_inputs_correct {P : profile} s map :
  ((∃ s', remap_inputs s map = Ok s') ↔
     ∀ i nb enc, Input i nb enc ∈ sc_arg_interpretation s →
       ∃ j, map !! i = Some (Some j) ∧ (j <= 255)%nat) ∧
  (∀ s' inputs inputs', remap_inputs s map = Ok s' →
     (∀ i nb enc j, Input i nb enc ∈ sc_arg_interpretation s → map !! i = Some (Some j) →
        inputs' !! j = inputs !! i) →
     evaluate_synthesized s' inputs' = evaluate_synthesized s inputs).
Proof.
  split.
  - split.
    + intros [s' Hs'] i nb enc Hi. unfold remap_inputs in Hs'. M_inv Hs'. apply mapM_Forall2 in E.
      apply list_elem_of_lookup_1 in Hi as [k Hk]. destruct (Forall2_lookup_l _ _ _ _ _ E Hk) as (y & _ & Hy).
      cbn [remap_arg] in Hy. M_inv Hy. destruct a0 as [j|]; [|done]. injection E1 as ->.
      exists a1. split; [done|]. by apply Nat.leb_le.
    + intros Hall. unfold remap_inputs.
      destruct (mapM_exists (remap_arg map) (sc_arg_interpretation s)) as [l ->]; [|by eexists].
      intros [i nb enc| |] Harg; cbn [remap_arg]; [|by eexists..].
      destruct (Hall i nb enc Harg) as (j & Hj & Hle). rewrite (proj2 (vget_Ok_inv _ _ _) Hj), M_bind_Ok.
      cbn [unwrap]. rewrite M_bind_Ok, (proj2 (Nat.leb_le _ _) Hle). by eexists.
  - intros s' inputs inputs' Hs' Hin. unfold remap_inputs in Hs'. M_inv Hs'. injection Hs' as <-.
    unfold evaluate_synthesized, as_internal, SynthesizedComputation_as_ref.
    cbn [sc_expr sc_arg_interpretation sc_consts sc_output_encoding sc_output_type].
    rewrite !M_bind_assoc. apply M_bind_ext; intros t. rewrite !M_bind_Ok. unfold evaluate_ref, interpret_args.
    cbn [arg_interpretation consts template]. f_equal. clear t.
    apply mapM_Forall2 in E. induction E as [|x y l k Hxy E IH]; [done|]. cbn [mapM].
    rewrite (remap_arg_interpret _ _ _ inputs inputs' _ Hxy) by (intros i nb enc j -> ?; eapply Hin; [left|done]).
    rewrite IH; [done|]. intros i nb enc j Hi ?. eapply Hin; [by right | done].
Qed.
