(* ===== verification/Instruction.v ===== *)
(** * Instructions

    Models [liblisa/src/instr/mod.rs]: an instruction is an array of 15 bytes
    with a length; equality, hashing and the order look at the first [len] bytes
    only, so two instructions that differ in the unused part of the array are
    equivalent.  Conversion from and to hexadecimal strings (crate [hex]) is not
    modelled. *)
From S2P Require Import Prelude MachInt Utils.

Record Instruction := { data : list Z; len : nat }.

Module Instr.
Definition MAX_LEN : nat := 15.

Definition new (d : list Z) : M Instruction :=
  assert! (length d <=? MAX_LEN)%nat;
  Ok {| data := d ++ replicate (MAX_LEN - length d) 0; len := length d |}.
(** [from_iter]: [slice[len] = byte] panics past the array. *)
Definition from_iter (l : list Z) : M Instruction :=
  assert! (length l <=? MAX_LEN)%nat;
  Ok {| data := l ++ replicate (MAX_LEN - length l) 0; len := length l |}.

Definition bytes (self : Instruction) : list Z := take (len self) (data self).
Definition byte_len (self : Instruction) : nat := length (bytes self).
Definition bit_len (self : Instruction) : nat := byte_len self * 8.

Definition eq (self other : Instruction) : bool := bool_decide (bytes self = bytes other).
(** [Ord::cmp]: the loop over the zipped bytes, then the lengths. *)
Fixpoint cmp_bytes (a b : list Z) : comparison :=
  match a, b with
  | x :: a, y :: b => match Z.compare x y with Eq => cmp_bytes a b | o => o end
  | a, b => Nat.compare (length a) (length b)
  end.
Definition cmp (self other : Instruction) : comparison := cmp_bytes (bytes self) (bytes other).

(** [resize]: the fill loop runs over [data[byte_len..num_bytes]]. *)
Definition resize (self : Instruction) (num_bytes : nat) (fill : Z) : M Instruction :=
  assert! (num_bytes <? 15)%nat;
  Ok {| data := take (byte_len self) (data self) ++
                replicate (num_bytes - byte_len self) fill ++
                drop (Nat.max (byte_len self) num_bytes) (data self);
        len := num_bytes |}.
Definition extend (self : Instruction) : M Instruction := resize self (byte_len self + 1) 0.
Definition starts_with (self p : Instruction) : M bool :=
  if (byte_len p <=? byte_len self)%nat then r ← resize self (byte_len p) 0; Ok (eq r p) else Ok false.

(** A [usize] subtraction of indices that then index an array: an underflow is
    a panic in either profile (in [release] the wrapped index is out of range). *)
Definition index_sub (a b : nat) : M nat := if (b <=? a)%nat then Ok (a - b)%nat else Panic.

(** [(x & !(1 << k)) | bit << k] on [u8]. *)
Definition set_bit_u8 (x : Z) (k : nat) (bit : Z) : Z :=
  Z.lor (Z.land x (not_u 8 (Z.shiftl 1 (Z.of_nat k)))) (wrap 8 (Z.shiftl bit (Z.of_nat k))).
Definition is_bit (bit : Z) : bool := (bit =? 0) || (bit =? 1).

Definition set_nth_bit_from_right (self : Instruction) (index : nat) (bit : Z) : M Instruction :=
  assert! is_bit bit;
  j ← index_sub (len self) 1; i ← index_sub j (index / 8);
  x ← vget (data self) i;
  d ← vset (data self) i (set_bit_u8 x (index `mod` 8) bit);
  Ok {| data := d; len := len self |}.

(** [set_multiple_bits_from_right]: an index that wrapped below 0, here [None], is
    out of range when it is used. *)
Fixpoint set_bytes_left (count : nat) (i : option nat) (data : Z) (d : list Z) : M (list Z) :=
  match count with
  | O => Ok d
  | S count =>
      i ← unwrap i;
      d ← vset d i (wrap 8 data);
      set_bytes_left count (match i with O => None | S i => Some i end) (Z.shiftr data 8) d
  end.
Definition set_multiple_bits_from_right {P : profile} (self : Instruction) (index : nat) (data_ : Z) (num : nat) : M Instruction :=
  assert! ((num `mod` 8 =? 0) && (index `mod` 8 =? 0))%nat;
  i ← (if (1 + index / 8 <=? len self)%nat then Ok (Some (len self - 1 - index / 8)%nat)
       else match P with Dev => Panic | Release => Ok None end);
  d ← set_bytes_left (num / 8) i data_ (data self);
  Ok {| data := d; len := len self |}.

Definition with_nth_bit_from_right_flipped (self : Instruction) (index : nat) : M Instruction :=
  instr ← new (bytes self);
  j ← index_sub (len instr) 1; i ← index_sub j (index / 8);
  x ← vget (data instr) i;
  d ← vset (data instr) i (Z.lxor x (Z.shiftl 1 (Z.of_nat (index `mod` 8))));
  Ok {| data := d; len := len instr |}.
Definition with_nth_bit_from_right (self : Instruction) (index : nat) (bit : Z) : M Instruction :=
  assert! is_bit bit;
  instr ← new (bytes self);
  set_nth_bit_from_right instr index bit.
Definition with_nth_bit_from_left (self : Instruction) (index : nat) (bit : Z) : M Instruction :=
  assert! is_bit bit;
  instr ← new (bytes self);
  x ← vget (data instr) (index / 8);
  d ← vset (data instr) (index / 8) (set_bit_u8 x (7 - index `mod` 8) bit);
  Ok {| data := d; len := len instr |}.
Fixpoint with_rightmost_bits_loop (count i : nat) (instr : Instruction) (bit : Z) : M Instruction :=
  match count with
  | O => Ok instr
  | S count => instr ← with_nth_bit_from_right instr i bit; with_rightmost_bits_loop count (S i) instr bit
  end.
Definition with_rightmost_bits (self : Instruction) (num : nat) (bit : Z) : M Instruction :=
  assert! is_bit bit; with_rightmost_bits_loop num 0 self bit.

Definition nth_bit_from_right (self : Instruction) (index : nat) : M Z :=
  j ← index_sub (byte_len self) 1; i ← index_sub j (index / 8);
  x ← vget (bytes self) i; Ok (Z.land (Z.shiftr x (Z.of_nat (index `mod` 8))) 1).
Definition nth_bit_from_left (self : Instruction) (index : nat) : M Z :=
  x ← vget (bytes self) (index / 8);
  Ok (Z.land (Z.shiftr x (Z.of_nat (7 - index `mod` 8))) 1).
End Instr.
