(* ===== verification/InstructionFacts.v ===== *)
(** * Theorems about instructions

    The array invariant and its preservation, the laws of reading and writing
    bits from either side, the order, and prefixes. *)
From S2P Require Import Prelude MachInt Utils Instruction.
Import Instr.

(** ** Invariant and equivalence *)

Record instr_wf (i : Instruction) : Prop := {
  iwf_data : length (data i) = MAX_LEN;
  iwf_bytes : is_bytes (data i);
  iwf_len : (len i <= MAX_LEN)%nat;
}.

(** [PartialEq]: equality of the used bytes. *)
#[export] Instance Instruction_equiv : Equiv Instruction := λ a b, bytes a = bytes b.
#[export] Instance Instruction_equivalence : Equivalence (≡@{Instruction}).
Proof. split; repeat intro; unfold equiv, Instruction_equiv in *; congruence. Qed.
#[export] Instance byte_len_proper : Proper ((≡) ==> (=)) byte_len.
Proof. intros a b H. unfold byte_len. by rewrite (H : bytes a = bytes b). Qed.
#[export] Instance cmp_proper : Proper ((≡) ==> (≡) ==> (=)) cmp.
Proof. intros a b H c d H'. unfold cmp. by rewrite (H : bytes a = bytes b), (H' : bytes c = bytes d). Qed.
#[export] Instance nth_bit_from_left_proper : Proper ((≡) ==> (=) ==> (=)) nth_bit_from_left.
Proof. intros a b H k ? <-. unfold nth_bit_from_left. by rewrite (H : bytes a = bytes b). Qed.
#[export] Instance nth_bit_from_right_proper : Proper ((≡) ==> (=) ==> (=)) nth_bit_from_right.
Proof. intros a b H k ? <-. unfold nth_bit_from_right, byte_len. by rewrite (H : bytes a = bytes b). Qed.

Lemma byte_len_wf i : instr_wf i → byte_len i = len i.
Proof. intros [H1 _ H2]. unfold byte_len, bytes. rewrite length_take. lia. Qed.
Lemma bytes_wf i : instr_wf i → is_bytes (bytes i) ∧ (length (bytes i) <= MAX_LEN)%nat.
Proof. intros [H1 H2 H3]. split; [by apply Forall_take|]. unfold bytes. rewrite length_take. lia. Qed.

Lemma new_ok l : (length l <= MAX_LEN)%nat →
  new l = Ok {| data := l ++ replicate (MAX_LEN - length l) 0; len := length l |}.
Proof. intros H. unfold new. by rewrite (proj2 (Nat.leb_le _ _) H). Qed.
Lemma new_wf l i : is_bytes l → new l = Ok i → instr_wf i ∧ bytes i = l.
Proof.
  intros Hl H. unfold new in H. M_inv H. apply Nat.leb_le in E. apply (inj Ok) in H as <-.
  split; [split|].
  - cbn [data len]. rewrite length_app, length_replicate. lia.
  - apply Forall_app. split; [done|]. apply Forall_replicate. split; [done|]. reflexivity.
  - done.
  - unfold bytes. cbn [data len]. by rewrite take_app_length.
Qed.

(** ** Bits *)

Lemma is_byte_testbit x j : is_byte x → (8 <= j)%nat → Z.testbit x (Z.of_nat j) = false.
Proof. intros Hx Hj. apply (testbit_u_high 8); [done | lia]. Qed.
Lemma is_bit_cases b : is_bit b = true → b = 0 ∨ b = 1.
Proof. unfold is_bit. rewrite orb_true_iff, !Z.eqb_eq. done. Qed.
Lemma bit_of_bool_land x k : Z.land (Z.shiftr x (Z.of_nat k)) 1 = Z.b2z (Z.testbit x (Z.of_nat k)).
Proof.
  change 1 with (Z.ones 1). rewrite Z.land_ones by lia. change (2 ^ 1) with 2.
  rewrite <- Z.bit0_mod. by rewrite Z.shiftr_spec, Z.add_0_l by lia.
Qed.

Lemma testbit_set_bit_u8 x k b j : is_byte x → (k < 8)%nat → is_bit b = true →
  Z.testbit (set_bit_u8 x k b) (Z.of_nat j) =
  if (j =? k)%nat then Z.odd b else Z.testbit x (Z.of_nat j).
Proof.
  intros Hx Hk Hb. unfold set_bit_u8, not_u.
  rewrite Z.lor_spec, Z.land_spec, !testbit_wrap, Z.lnot_spec, !Z.shiftl_spec by lia.
  destruct (Nat.eqb_spec j k) as [->|Hjk].
  - rewrite Z.sub_diag. apply is_bit_cases in Hb as [->| ->]; case_cmps; cbn; by rewrite ?andb_false_r.
  - assert (∀ c, is_bit c = true → Z.testbit c (Z.of_nat j - Z.of_nat k) = false) as Hz.
    { intros c Hc. destruct (Z.lt_ge_cases (Z.of_nat j) (Z.of_nat k)); [apply Z.testbit_neg_r; lia|].
      apply (testbit_u_high 1); [|lia]. apply is_bit_cases in Hc as [->| ->]; split; done. }
    rewrite !Hz by done. destruct (Nat.lt_ge_cases j 8).
    + case_cmps. cbn. by rewrite andb_true_r, orb_false_r.
    + rewrite is_byte_testbit by done. case_cmps. done.
Qed.
Lemma set_bit_u8_byte x k b : is_byte x → (k < 8)%nat → is_bit b = true → is_byte (set_bit_u8 x k b).
Proof.
  intros Hx Hk Hb. apply u_of_bits; [lia| |].
  - unfold set_bit_u8. apply Z.lor_nonneg. split.
    + apply Z.land_nonneg. left. apply Hx.
    + apply wrap_is_u; lia.
  - intros j Hj. rewrite <- (Z2Nat.id j), testbit_set_bit_u8 by (done || lia). case_cmp; [lia|].
    apply is_byte_testbit; [done | lia].
Qed.

(** Bit [k] from the left of a byte string. *)
Definition lbit (l : list Z) (k : nat) : bool :=
  Z.testbit (default 0 (l !! (k / 8)%nat)) (Z.of_nat (7 - k `mod` 8)).

Lemma nth_bit_from_left_lbit i k : (k < 8 * length (bytes i))%nat →
  nth_bit_from_left i k = Ok (Z.b2z (lbit (bytes i) k)).
Proof.
  intros Hk. unfold nth_bit_from_left, lbit.
  destruct (vget_lt (bytes i) (k / 8)) as (x & -> & ->); [apply Nat.Div0.div_lt_upper_bound; lia|].
  rewrite M_bind_Ok. f_equal. apply bit_of_bool_land.
Qed.
Lemma div_mod_8_eq j k : (j / 8 = k / 8)%nat → (7 - j `mod` 8 = 7 - k `mod` 8)%nat → j = k.
Proof.
  intros H1 H2. pose proof (Nat.mod_upper_bound j 8). pose proof (Nat.mod_upper_bound k 8).
  rewrite (Nat.div_mod j 8), (Nat.div_mod k 8) by lia. lia.
Qed.
Lemma lbit_set l k b j : is_bytes l → (k < 8 * length l)%nat → is_bit b = true →
  lbit (<[(k / 8)%nat := set_bit_u8 (default 0 (l !! (k / 8)%nat)) (7 - k `mod` 8) b]> l) j =
  if (j =? k)%nat then Z.odd b else lbit l j.
Proof.
  intros Hl Hk Hb. assert (k / 8 < length l)%nat as Hi by (apply Nat.Div0.div_lt_upper_bound; lia).
  destruct (lookup_lt_is_Some_2 l (k / 8) Hi) as [x Hx]. rewrite Hx. cbn [from_option id].
  assert (is_byte x) as Hxb by (by eapply Forall_lookup_1 in Hx). unfold lbit.
  destruct (decide (j / 8 = k / 8)%nat) as [E|E].
  - rewrite E, list_lookup_insert_eq, Hx by done. cbn [from_option id].
    rewrite testbit_set_bit_u8 by (done || lia).
    destruct (Nat.eqb_spec (7 - j `mod` 8) (7 - k `mod` 8)) as [E'|E'].
    + rewrite (div_mod_8_eq j k) by done. by rewrite Nat.eqb_refl.
    + case_cmps; [by subst | done].
  - rewrite list_lookup_insert_ne by done. case_cmps; [by subst | done].
Qed.

Lemma with_nth_bit_from_left_ok i k b : instr_wf i → (k < 8 * len i)%nat → is_bit b = true →
  ∃ r, with_nth_bit_from_left i k b = Ok r ∧ instr_wf r ∧
    bytes r = <[(k / 8)%nat := set_bit_u8 (default 0 (bytes i !! (k / 8)%nat)) (7 - k `mod` 8) b]> (bytes i).
Proof.
  intros Hi Hk Hb. destruct (bytes_wf i Hi) as [Hbytes Hle]. pose proof (byte_len_wf i Hi) as Hlen.
  unfold byte_len in Hlen. assert (k / 8 < len i)%nat as Hk8 by (apply Nat.Div0.div_lt_upper_bound; lia).
  unfold with_nth_bit_from_left. rewrite Hb. cbn [rassert]. rewrite M_bind_Ok, new_ok, M_bind_Ok by done.
  cbn [data len]. destruct (lookup_lt_is_Some_2 (bytes i) (k / 8)) as [x Hx]; [lia|].
  assert ((bytes i ++ replicate (MAX_LEN - length (bytes i)) 0) !! (k / 8)%nat = Some x) as Hx'
    by (rewrite lookup_app_l by lia; done).
  rewrite (proj2 (vget_Ok_inv _ _ _) Hx'), M_bind_Ok, vset_lt, M_bind_Ok
    by (rewrite length_app, length_replicate; lia).
  assert (is_byte x) as Hxb by (by eapply Forall_lookup_1 in Hx).
  eexists; split; [done|]. rewrite Hx. cbn [from_option id]. split; [split|]; cbn [data len].
  - rewrite length_insert, length_app, length_replicate. lia.
  - apply Forall_insert; [|by apply set_bit_u8_byte; [|lia|]].
    apply Forall_app. split; [done|]. apply Forall_replicate. split; [done|]. reflexivity.
  - lia.
  - unfold bytes at 1. cbn [data len]. rewrite insert_app_l by lia.
    by rewrite take_app_length' by (by rewrite length_insert).
Qed.

(** Writing one bit of an instruction from the left changes that bit and no
    other, keeps the length and the array invariant, and never panics for a
    position within the instruction. *)
Theorem with_nth_bit_from_left_spec i k b : instr_wf i → (k < bit_len i)%nat → is_bit b = true →
  ∃ r, with_nth_bit_from_left i k b = Ok r ∧ instr_wf r ∧ byte_len r = byte_len i ∧
    ∀ j, (j < bit_len i)%nat →
      nth_bit_from_left r j = if (j =? k)%nat then Ok b else nth_bit_from_left i j.
Proof.
  intros Hi Hk Hb. unfold bit_len in *. rewrite (byte_len_wf i Hi) in *.
  destruct (with_nth_bit_from_left_ok i k b Hi ltac:(lia) Hb) as (r & Hr & Hw & Hbytes).
  destruct (bytes_wf i Hi) as [Hbi _]. pose proof (byte_len_wf i Hi) as Hlen. unfold byte_len in Hlen.
  assert (length (bytes r) = len i) as Hlr by (rewrite Hbytes, length_insert; done).
  exists r. split_and!; [done..|]. intros j Hj.
  rewrite !nth_bit_from_left_lbit, Hbytes, lbit_set by (done || lia). case_cmp; [|done].
  apply is_bit_cases in Hb as [->| ->]; done.
Qed.

(** ** Counting from the right *)

Lemma index_sub_ok a b : (b <= a)%nat → index_sub a b = Ok (a - b)%nat.
Proof. intros H. unfold index_sub. by rewrite (proj2 (Nat.leb_le _ _) H). Qed.
Lemma right_index n k : (k < 8 * n)%nat →
  ((8 * n - 1 - k) / 8 = n - 1 - k / 8)%nat ∧ (7 - (8 * n - 1 - k) `mod` 8 = k `mod` 8)%nat ∧ (k / 8 <= n - 1)%nat.
Proof.
  intros Hk. pose proof (Nat.div_mod k 8 ltac:(lia)) as E. pose proof (Nat.mod_upper_bound k 8 ltac:(lia)) as U.
  assert (8 * n - 1 - k = 8 * (n - 1 - k / 8) + (7 - k `mod` 8))%nat as E2 by lia.
  rewrite (Nat.div_unique (8 * n - 1 - k) 8 (n - 1 - k / 8) (7 - k `mod` 8)) by lia.
  rewrite <- (Nat.mod_unique (8 * n - 1 - k) 8 (n - 1 - k / 8) (7 - k `mod` 8)) by lia. lia.
Qed.
Lemma nth_bit_from_right_left i k : (k < 8 * length (bytes i))%nat →
  nth_bit_from_right i k = nth_bit_from_left i (8 * length (bytes i) - 1 - k).
Proof.
  intros Hk. destruct (right_index _ k Hk) as (E1 & E2 & E3). unfold nth_bit_from_right, nth_bit_from_left, byte_len.
  rewrite index_sub_ok, M_bind_Ok, index_sub_ok, M_bind_Ok by lia. by rewrite E1, E2.
Qed.
Lemma with_nth_bit_from_right_left i k b : instr_wf i → (k < 8 * length (bytes i))%nat →
  with_nth_bit_from_right i k b = with_nth_bit_from_left i (8 * length (bytes i) - 1 - k) b.
Proof.
  intros Hi Hk. destruct (right_index _ k Hk) as (E1 & E2 & E3). destruct (bytes_wf i Hi) as [_ Hle].
  unfold with_nth_bit_from_right, with_nth_bit_from_left, set_nth_bit_from_right.
  destruct (is_bit b); [|done]. cbn [rassert]. rewrite !M_bind_Ok, new_ok, !M_bind_Ok by done. cbn [data len].
  rewrite index_sub_ok, M_bind_Ok, index_sub_ok, M_bind_Ok by lia. by rewrite E1, E2.
Qed.

(** The accessors that count from the right are the ones that count from the
    left, mirrored: reading, writing and, for writing then reading, the change of
    exactly one bit. *)
Theorem right_left_duality i k b : instr_wf i → (k < bit_len i)%nat → is_bit b = true →
  nth_bit_from_right i k = nth_bit_from_left i (bit_len i - 1 - k) ∧
  with_nth_bit_from_right i k b = with_nth_bit_from_left i (bit_len i - 1 - k) b ∧
  ∃ r, with_nth_bit_from_right i k b = Ok r ∧
    ∀ j, (j < bit_len i)%nat →
      nth_bit_from_right r j = if (j =? k)%nat then Ok b else nth_bit_from_right i j.
Proof.
  intros Hi Hk Hb. unfold bit_len, byte_len in *. rewrite !(Nat.mul_comm _ 8) in *.
  split_and!; [by apply nth_bit_from_right_left | by apply with_nth_bit_from_right_left|].
  rewrite with_nth_bit_from_right_left by done. pose proof (byte_len_wf i Hi) as Hlen. unfold byte_len in Hlen.
  destruct (with_nth_bit_from_left_ok i (8 * length (bytes i) - 1 - k) b Hi ltac:(lia) Hb) as (r & Hr & Hw & Hbytes).
  assert (length (bytes r) = length (bytes i)) as Hlr by (by rewrite Hbytes, length_insert).
  exists r. split; [done|]. intros j Hj. rewrite !nth_bit_from_right_left, Hlr by lia.
  rewrite !nth_bit_from_left_lbit, Hbytes, lbit_set by (lia || apply (bytes_wf i Hi) || done).
  destruct (Nat.eqb_spec j k), (Nat.eqb_spec (8 * length (bytes i) - 1 - j) (8 * length (bytes i) - 1 - k));
    try lia; [|done]. apply is_bit_cases in Hb as [->| ->]; done.
Qed.

Lemma with_rightmost_bits_loop_ok b count : ∀ i from, instr_wf i → is_bit b = true →
  (from + count <= 8 * length (bytes i))%nat →
  ∃ r, with_rightmost_bits_loop count from i b = Ok r ∧ instr_wf r ∧ length (bytes r) = length (bytes i) ∧
    ∀ j, (j < 8 * length (bytes i))%nat → nth_bit_from_right r j =
      if bool_decide (from <= j < from + count)%nat then Ok b else nth_bit_from_right i j.
Proof.
  induction count as [|count IH]; intros i from Hi Hb Hle; cbn [with_rightmost_bits_loop].
  { exists i. split_and!; try done. intros j Hj. rewrite bool_decide_false by lia. done. }
  pose proof (byte_len_wf i Hi) as Hlen. unfold byte_len in Hlen.
  rewrite with_nth_bit_from_right_left by (done || lia).
  destruct (with_nth_bit_from_left_ok i (8 * length (bytes i) - 1 - from) b Hi ltac:(lia) Hb) as (r & -> & Hw & Hbytes).
  assert (length (bytes r) = length (bytes i)) as Hlr by (by rewrite Hbytes, length_insert). rewrite M_bind_Ok.
  destruct (IH r (S from) Hw Hb ltac:(lia)) as (r' & Hr' & Hw' & Hl' & Hbits). exists r'.
  split_and!; [done|done|lia|]. intros j Hj. rewrite Hbits by lia.
  assert (nth_bit_from_right r j = if (j =? from)%nat then Ok b else nth_bit_from_right i j) as Hj'.
  { rewrite !nth_bit_from_right_left, Hlr, !nth_bit_from_left_lbit, Hbytes, lbit_set
      by (lia || apply (bytes_wf i Hi) || done).
    destruct (Nat.eqb_spec j from), (Nat.eqb_spec (8 * length (bytes i) - 1 - j) (8 * length (bytes i) - 1 - from));
      try lia; [|done]. apply is_bit_cases in Hb as [->| ->]; done. }
  rewrite Hj'. destruct (Nat.eqb_spec j from) as [->|].
  - rewrite bool_decide_false, bool_decide_true by lia. done.
  - erewrite bool_decide_ext; [done|]. lia.
Qed.

(** [with_rightmost_bits] sets exactly the [num] rightmost bits. *)
Theorem with_rightmost_bits_spec i num b : instr_wf i → is_bit b = true → (num <= bit_len i)%nat →
  ∃ r, with_rightmost_bits i num b = Ok r ∧ instr_wf r ∧ byte_len r = byte_len i ∧
    ∀ j, (j < bit_len i)%nat →
      nth_bit_from_right r j = if (j <? num)%nat then Ok b else nth_bit_from_right i j.
Proof.
  intros Hi Hb Hn. unfold bit_len, byte_len in *. rewrite (Nat.mul_comm _ 8) in *.
  destruct (with_rightmost_bits_loop_ok b num i 0 Hi Hb ltac:(lia)) as (r & Hr & Hw & Hl & Hbits).
  exists r. unfold with_rightmost_bits. rewrite Hb. cbn [rassert]. rewrite M_bind_Ok. split_and!; try done.
  intros j Hj. rewrite Hbits by done. case_bool_decide; case_cmps; done || lia.
Qed.

(** ** The order *)

(** The big-endian value of a byte string. *)
Definition be_value (l : list Z) : Z := from_le_bytes (reverse l).

Lemma cmp_bytes_eq a : ∀ b, cmp_bytes a b = Eq ↔ a = b.
Proof.
  induction a as [|x a IH]; intros [|y b]; cbn; [done..|]. destruct (Z.compare_spec x y) as [->| |].
  - rewrite IH. split; [by intros -> | intros E; by injection E].
  - split; [done|]. intros [= -> _]. lia.
  - split; [done|]. intros [= -> _]. lia.
Qed.
Lemma cmp_bytes_antisym a : ∀ b, cmp_bytes b a = CompOpp (cmp_bytes a b).
Proof.
  induction a as [|x a IH]; intros [|y b]; cbn; [done..|]. rewrite (Z.compare_antisym x y).
  destruct (Z.compare x y); cbn; [apply IH | done | done].
Qed.
Lemma cmp_bytes_trans a : ∀ b c, cmp_bytes a b = Lt → cmp_bytes b c = Lt → cmp_bytes a c = Lt.
Proof.
  induction a as [|x a IH]; intros [|y b] [|z c]; cbn; try done.
  destruct (Z.compare_spec x y) as [->|Hxy|], (Z.compare_spec y z) as [->|Hyz|]; try done; intros H1 H2;
    try (by rewrite (proj2 (Z.compare_lt_iff _ _)) by lia).
  by eapply IH.
Qed.
Lemma be_value_cons x l : is_byte x → is_bytes l → be_value (x :: l) = x * 2 ^ (8 * Z.of_nat (length l)) + be_value l.
Proof.
  intros Hx Hl. unfold be_value. rewrite reverse_cons, from_le_bytes_app by (by apply is_bytes_reverse).
  cbn [from_le_bytes]. rewrite Z.shiftl_0_l, Z.lor_0_r, length_reverse.
  pose proof (from_le_bytes_is_u (reverse l) (is_bytes_reverse l Hl)) as Hu. rewrite length_reverse in Hu.
  rewrite <- Z.shiftl_mul_pow2, Z.add_comm by lia. rewrite <- Z.add_lor_land.
  replace (Z.land _ _) with 0; [lia|]. symmetry. apply Z.bits_inj'; intros i Hi.
  rewrite Z.land_spec, Z.bits_0. destruct (Z.lt_ge_cases i (8 * Z.of_nat (length l))).
  - rewrite (Z.shiftl_spec x), (Z.testbit_neg_r x) by lia. apply andb_false_r.
  - by rewrite (testbit_u_high (8 * Z.of_nat (length l))) by (done || lia).
Qed.
Lemma be_value_is_u l : is_bytes l → is_u (8 * Z.of_nat (length l)) (be_value l).
Proof.
  intros Hl. unfold be_value. rewrite <- length_reverse. by apply from_le_bytes_is_u, is_bytes_reverse.
Qed.
Lemma cmp_bytes_value a : ∀ b, is_bytes a → is_bytes b → length a = length b →
  cmp_bytes a b = Z.compare (be_value a) (be_value b).
Proof.
  induction a as [|x a IH]; intros [|y b] Ha Hb Hlen; try done. cbn [cmp_bytes].
  apply Forall_cons in Ha as [Hx Ha]. apply Forall_cons in Hb as [Hy Hb]. cbn [length] in Hlen.
  injection Hlen as Hlen. rewrite !be_value_cons, <- Hlen by done.
  pose proof (be_value_is_u a Ha) as [Ha1 Ha2]. pose proof (be_value_is_u b Hb) as [Hb1 Hb2]. rewrite <- Hlen in Hb2.
  set (m := 2 ^ (8 * Z.of_nat (length a))) in *. destruct (Z.compare_spec x y) as [->|Hxy|Hxy].
  - rewrite IH by done. symmetry. rewrite !(Z.add_comm (y * m)).
    destruct (Z.compare_spec (be_value a) (be_value b)), (Z.compare_spec (be_value a + y * m) (be_value b + y * m));
      done || lia.
  - symmetry. apply Z.compare_lt_iff. nia.
  - symmetry. apply Z.compare_gt_iff. nia.
Qed.

(** [Ord] for instructions is a total order on the used bytes that agrees with
    [PartialEq], and between instructions of one length it is the order of their
    values as big-endian numbers. *)
Theorem cmp_order a b c : instr_wf a → instr_wf b →
  (cmp a b = Eq ↔ eq a b = true) ∧ cmp b a = CompOpp (cmp a b) ∧
  (cmp a b = Lt → cmp b c = Lt → cmp a c = Lt) ∧
  (byte_len a = byte_len b → cmp a b = Z.compare (be_value (bytes a)) (be_value (bytes b))).
Proof.
  intros Ha Hb. unfold cmp, eq. rewrite bool_decide_eq_true. split_and!.
  - apply cmp_bytes_eq.
  - apply cmp_bytes_antisym.
  - apply cmp_bytes_trans.
  - intros Hlen. apply cmp_bytes_value; [apply (bytes_wf a Ha) | apply (bytes_wf b Hb) | done].
Qed.

(** ** Resizing and prefixes *)

Lemma resize_ok i n fill : instr_wf i → is_byte fill → (n < 15)%nat →
  ∃ r, resize i n fill = Ok r ∧ instr_wf r ∧
    bytes r = take n (bytes i) ++ replicate (n - length (bytes i)) fill.
Proof.
  intros Hi Hf Hn. unfold resize. rewrite (proj2 (Nat.ltb_lt _ _) Hn). cbn [rassert]. rewrite M_bind_Ok.
  pose proof (byte_len_wf i Hi) as Hlen. destruct Hi as [H1 H2 H3]. unfold MAX_LEN in *.
  eexists; split; [done|]. split; [split|]; cbn [data len].
  - rewrite !length_app, length_take, length_replicate, length_drop. unfold MAX_LEN. lia.
  - apply Forall_app. split; [by apply Forall_take|]. apply Forall_app.
    split; [by apply Forall_replicate | by apply Forall_drop].
  - unfold MAX_LEN. lia.
  - unfold bytes at 1. cbn [data len]. fold (byte_len i). rewrite Hlen.
    change (take (len i) (data i)) with (bytes i). assert (length (bytes i) = len i) as Hl by done.
    destruct (Nat.le_gt_cases n (len i)).
    + rewrite take_app_le by lia. replace (n - len i)%nat with 0%nat by lia. by rewrite app_nil_r.
    + rewrite take_app_ge by lia. rewrite Hl, (take_ge (bytes i)) by lia. f_equal.
      rewrite take_app_le by (rewrite length_replicate; lia). apply take_ge. rewrite length_replicate. lia.
Qed.

(** [starts_with] decides whether the bytes of the prefix begin the
    instruction, for prefixes of up to 14 bytes. *)
Theorem starts_with_spec i p : instr_wf i → instr_wf p → (byte_len p < 15)%nat →
  ∃ r, starts_with i p = Ok r ∧ (r = true ↔ bytes p `prefix_of` bytes i).
Proof.
  intros Hi Hp Hlen. unfold starts_with, byte_len in *. case_cmp.
  - destruct (resize_ok i (length (bytes p)) 0 Hi ltac:(done) Hlen) as (r & -> & _ & Hr).
    rewrite M_bind_Ok. eexists; split; [done|]. unfold eq. rewrite bool_decide_eq_true, Hr.
    replace (_ - _)%nat with 0%nat by lia. cbn [replicate]. rewrite app_nil_r. split.
    + intros E. exists (drop (length (bytes p)) (bytes i)). rewrite <- E at 1. by rewrite take_drop.
    + intros [k ->]. by rewrite take_app_length.
  - eexists; split; [done|]. split; [done|]. intros ?%prefix_length. lia.
Qed.

(** A 15-byte prefix, the longest instruction, makes [starts_with] panic: the
    assertion of [resize] admits 14 bytes at most; for the same reason [extend]
    panics on an instruction of 14 bytes. *)
Theorem resize_max_length_panics i p : byte_len i = 15%nat → byte_len p = 15%nat →
  starts_with i p = Panic ∧ ∀ j, byte_len j = 14%nat → extend j = Panic.
Proof.
  intros Hi Hp. split.
  - unfold starts_with. by rewrite Hi, Hp.
  - intros j Hj. unfold extend, resize. by rewrite Hj.
Qed.

(** ** Concrete instances *)

Definition example_instr (l : list Z) : Instruction :=
  {| data := l ++ replicate (15 - length l) 0; len := length l |}.
Lemma example_wf l : is_bytes l → (length l <= 15)%nat → instr_wf (example_instr l).
Proof. intros Hl Hle. apply (new_wf l); [done|]. by apply new_ok. Qed.
Ltac example_wf := apply example_wf; [apply (bool_decide_unpack _); vm_compute; exact I | cbn; lia].

Lemma with_nth_bit_from_left_spec_witness : ∃ r,
  with_nth_bit_from_left (example_instr [0x47; 0xf0]) 12 1 = Ok r ∧ bytes r = [0x47; 0xf8].
Proof.
  destruct (with_nth_bit_from_left_spec (example_instr [0x47; 0xf0]) 12 1) as (r & Hr & _);
    [example_wf | cbn; lia | reflexivity |].
  exists r. split; [exact Hr|]. vm_compute in Hr. injection Hr as <-. reflexivity.
Defined.
Lemma right_left_duality_witness :
  nth_bit_from_right (example_instr [0x47; 0xf0]) 4 = nth_bit_from_left (example_instr [0x47; 0xf0]) 11.
Proof.
  apply (right_left_duality (example_instr [0x47; 0xf0]) 4 0); [example_wf | cbn; lia | reflexivity].
Defined.
Lemma with_rightmost_bits_spec_witness : ∃ r,
  with_rightmost_bits (example_instr [0x47; 0xf0]) 10 0 = Ok r ∧ bytes r = [0x44; 0x00].
Proof.
  destruct (with_rightmost_bits_spec (example_instr [0x47; 0xf0]) 10 0) as (r & Hr & _);
    [example_wf | reflexivity | cbn; lia |].
  exists r. split; [exact Hr|]. vm_compute in Hr. injection Hr as <-. reflexivity.
Defined.
Lemma cmp_order_witness :
  cmp (example_instr [0x47; 0xf0]) (example_instr [0x48; 0x89; 0xbb]) = Lt ∧
  cmp (example_instr [0x48; 0x89; 0xbb]) (example_instr [0x47; 0xf0]) = Gt.
Proof.
  destruct (cmp_order (example_instr [0x47; 0xf0]) (example_instr [0x48; 0x89; 0xbb]) (example_instr []))
    as (_ & Hanti & _); [example_wf..|].
  split; [vm_compute; reflexivity|]. rewrite Hanti. vm_compute. reflexivity.
Defined.
Lemma starts_with_spec_witness : ∃ r,
  starts_with (example_instr [0x48; 0x89; 0xbb]) (example_instr [0x48; 0x89]) = Ok r ∧ r = true.
Proof.
  destruct (starts_with_spec (example_instr [0x48; 0x89; 0xbb]) (example_instr [0x48; 0x89])) as (r & Hr & _);
    [example_wf.. | cbn; lia |].
  exists r. split; [exact Hr|]. vm_compute in Hr. injection Hr as <-. reflexivity.
Defined.
Lemma resize_max_length_panics_witness :
  starts_with (example_instr (replicate 15 1)) (example_instr (replicate 15 1)) = Panic.
Proof. apply (resize_max_length_panics (example_instr (replicate 15 1))); reflexivity. Defined.
