(* ===== verification/Filter.v ===== *)
(** * Instruction filters

    Models [liblisa/src/instr/filter.rs]: filters on single bytes ([ByteFilter])
    and on instructions ([InstructionFilter], one byte filter per byte), with the
    operations on the sets of instructions they stand for, and [merge_filters].
    The conversions from and to strings are not modelled.  The theorems are in
    FilterFacts, MergeFacts and NextMatching. *)
From S2P Require Import Prelude MachInt Utils Instruction.

Inductive FilterBit := Is0 | Is1 | Wildcard.
#[export] Instance FilterBit_eq_dec : EqDecision FilterBit.
Proof. solve_decision. Defined.
Definition as_u8 (b : FilterBit) : option Z :=
  match b with Is0 => Some 0 | Is1 => Some 1 | Wildcard => None end.

(** A byte [b] matches the filter if [b & mask == value]. *)
Record ByteFilter := { mask : Z; value : Z }.
#[export] Instance ByteFilter_eq_dec : EqDecision ByteFilter.
Proof. solve_decision. Defined.

Module BF.
Section ops.
Context {P : profile}.

Definition consistency_check (self : ByteFilter) : M unit :=
  debug_assert (Z.land (value self) (not_u 8 (mask self)) =? 0).
Definition new (mask value : Z) : M ByteFilter :=
  debug_assert! Z.land value (not_u 8 mask) =? 0;
  Ok {| mask := mask; value := value |}.
Definition matches (self : ByteFilter) (v : Z) : bool := Z.land v (mask self) =? value self.
Definition max_matching_val (self : ByteFilter) : Z := Z.lor (value self) (not_u 8 (mask self)).
Definition min_matching_val (self : ByteFilter) : Z := Z.land (value self) (mask self).
Definition matches_anything (self : ByteFilter) : bool := mask self =? 0.
Definition covers (self other : ByteFilter) : bool :=
  (Z.land (value self) (mask self) =? Z.land (value other) (mask self)) &&
  (Z.land (mask other) (mask self) =? mask self).
Definition can_intersect (self other : ByteFilter) : bool :=
  let intersect_mask := Z.land (mask self) (mask other) in
  Z.land intersect_mask (value self) =? Z.land intersect_mask (value other).
Definition can_merge (self other : ByteFilter) : bool :=
  if (value self =? value other) && (mask self =? mask other) then false
  else (mask self =? mask other) &&
       is_power_of_two 8 (Z.land (Z.lxor (value self) (value other)) (mask other)).
Definition merge (self other : ByteFilter) : M ByteFilter :=
  let filter := not_u 8 (Z.land (Z.lxor (value self) (value other)) (mask other)) in
  debug_assert! (count_ones 8 filter =? 7)%nat;
  let self := {| mask := Z.land (mask self) filter; value := Z.land (value self) filter |} in
  _ ← consistency_check self; Ok self.
Definition can_exclude (self other : ByteFilter) : bool :=
  if covers other self then false
  else
    let combined_mask := Z.land (mask self) (mask other) in
    is_power_of_two 8 (Z.land (not_u 8 (mask self)) (mask other)) &&
    (Z.land (value self) combined_mask =? Z.land (value other) combined_mask).
Definition exclude (self other : ByteFilter) : M ByteFilter :=
  debug_assert! can_exclude self other;
  let excluded_bit := Z.land (not_u 8 (mask self)) (mask other) in
  let self := {| mask := Z.lor (mask self) excluded_bit;
                 value := Z.lor (Z.land (value self) (not_u 8 excluded_bit))
                                (Z.land (not_u 8 (value other)) excluded_bit) |} in
  _ ← consistency_check self; Ok self.
Definition intersect (self other : ByteFilter) : M ByteFilter :=
  debug_assert! can_intersect self other || can_intersect other self;
  let new_mask := Z.lor (mask self) (mask other) in
  debug_assert! Z.land (value self) (mask other) =? Z.land (value other) (mask self);
  let self := {| value := Z.lor (value self) (value other); mask := new_mask |} in
  _ ← consistency_check self; Ok self.
Definition num_wildcard_bits (self : ByteFilter) : nat := count_zeros 8 (mask self).
Definition as_value (self : ByteFilter) : option Z := if mask self =? 0xff then Some (value self) else None.
End ops.
End BF.

(** [ArrayVec<ByteFilter, 16>]: collecting more than 16 elements panics. *)
Record InstructionFilter := { bfs : list ByteFilter }.
#[export] Instance InstructionFilter_eq_dec : EqDecision InstructionFilter.
Proof. solve_decision. Defined.

Module Filter.
Definition MAX_BYTES : nat := 16.
Definition new (d : list ByteFilter) : M InstructionFilter :=
  assert! (length d <=? MAX_BYTES)%nat; Ok {| bfs := d |}.

Definition len (self : InstructionFilter) : nat := length (bfs self).
Definition is_empty (self : InstructionFilter) : bool := (len self =? 0)%nat.
Definition bit_len (self : InstructionFilter) : nat := length (bfs self) * 8.
Definition byte_len (self : InstructionFilter) : nat := length (bfs self).

(** The loop of [matches] over the byte filters, with the remaining bytes of the
    instruction. *)
Fixpoint matches_bytes (l : list ByteFilter) (b : list Z) : bool :=
  match l, b with
  | [], _ => true
  | bf :: l, x :: b => if negb (BF.matches bf x) then false else matches_bytes l b
  | bf :: l, [] => if negb (BF.matches_anything bf) then false else matches_bytes l []
  end.
Definition matches (self : InstructionFilter) (instr : Instruction) : bool :=
  matches_bytes (bfs self) (Instr.bytes instr).
Definition matches_smaller_instr_partially (self : InstructionFilter) (instr : Instruction) : bool :=
  if (len self <? Instr.byte_len instr)%nat then false
  else forallb (λ '(bf, x), BF.matches bf x) (zip (bfs self) (Instr.bytes instr)).
Definition covers (self other : InstructionFilter) : bool :=
  (length (bfs self) <=? length (bfs other))%nat &&
  forallb (λ '(a, b), BF.covers a b) (zip (bfs self) (bfs other)).
Definition overlaps (self other : InstructionFilter) : bool :=
  forallb (λ '(a, b), BF.can_intersect a b) (zip (bfs self) (bfs other)).

Definition nth_bit_from_left (self : InstructionFilter) (index : nat) : M FilterBit :=
  byte ← vget (bfs self) (index / 8);
  let bit := Z.of_nat (7 - index `mod` 8) in
  let val := Z.land (Z.shiftr (value byte) bit) 1 in
  let m := Z.land (Z.shiftr (mask byte) bit) 1 in
  Ok (if m =? 1 then if val =? 1 then Is1 else Is0 else Wildcard).
Definition nth_bit_from_right (self : InstructionFilter) (index : nat) : M FilterBit :=
  j ← Instr.index_sub (bit_len self) 1; i ← Instr.index_sub j index; nth_bit_from_left self i.
(** [fold(0, |acc, item| (acc << 8) | item as u128)]. *)
Definition concat_u128 (l : list Z) : Z := foldl (λ acc item, Z.lor (wrap 128 (Z.shiftl acc 8)) item) 0 l.
Definition value_as_u128 (self : InstructionFilter) : Z := concat_u128 (value <$> bfs self).
Definition mask_as_u128 (self : InstructionFilter) : Z := concat_u128 (mask <$> bfs self).
Definition num_wildcard_bits (self : InstructionFilter) : nat :=
  sum_list (BF.num_wildcard_bits <$> bfs self).

Definition set_nth_bit_from_left (self : InstructionFilter) (index : nat) (bit : FilterBit) : M InstructionFilter :=
  byte ← vget (bfs self) (index / 8);
  let b := Z.shiftl 1 (Z.of_nat (7 - index `mod` 8)) in
  let byte := match bit with
    | Is0 => {| mask := Z.lor (mask byte) b; value := Z.land (value byte) (not_u 8 b) |}
    | Is1 => {| mask := Z.lor (mask byte) b; value := Z.lor (value byte) b |}
    | Wildcard => {| mask := Z.land (mask byte) (not_u 8 b); value := Z.land (value byte) (not_u 8 b) |}
    end in
  d ← vset (bfs self) (index / 8) byte; Ok {| bfs := d |}.
Definition set_nth_bit_from_right (self : InstructionFilter) (index : nat) (bit : FilterBit) : M InstructionFilter :=
  j ← Instr.index_sub (bit_len self) 1; i ← Instr.index_sub j index; set_nth_bit_from_left self i bit.

Definition smallest_matching_instruction (self : InstructionFilter) : M Instruction :=
  Instr.from_iter ((λ bf, Z.land (value bf) (mask bf)) <$> bfs self).
Definition largest_matching_instruction (self : InstructionFilter) : M Instruction :=
  Instr.from_iter ((λ bf, Z.lor (Z.land (value bf) (mask bf)) (not_u 8 (mask bf))) <$> bfs self).

Section ops.
Context {P : profile}.
Definition from_instruction (instr : Instruction) : M InstructionFilter :=
  d ← mapM (λ b, BF.new 0xff b) (Instr.bytes instr); new d.

Definition intersect (self other : InstructionFilter) : M InstructionFilter :=
  assert! (len self =? len other)%nat;
  d ← mapM (λ '(a, b), BF.intersect a b) (zip (bfs self) (bfs other));
  Ok {| bfs := d |}.

(** [self.data.iter().for_each(ByteFilter::consistency_check)], in debug builds. *)
Fixpoint check_all (l : list ByteFilter) : M unit :=
  match l with [] => Ok tt | bf :: l => _ ← BF.consistency_check bf; check_all l end.
(** The loop of [try_merge]: the first index at which the filters can be merged
    with the rest equal; it stops at the first difference. *)
Fixpoint merge_index (l : list (ByteFilter * ByteFilter)) (index : nat) : option nat :=
  match l with
  | [] => None
  | (a, b) :: l =>
      if BF.can_merge a b && forallb (λ '(a, b), bool_decide (a = b)) l then Some index
      else if negb (bool_decide (a = b)) then None
      else merge_index l (S index)
  end.
Definition try_merge (self other : InstructionFilter) : M (option InstructionFilter) :=
  if negb (length (bfs self) =? length (bfs other))%nat then Ok None else
  _ ← check_all (bfs self);
  _ ← check_all (bfs other);
  match merge_index (zip (bfs self) (bfs other)) 0 with
  | Some i =>
      a ← vget (bfs self) i; b ← vget (bfs other) i;
      m ← BF.merge a b;
      d ← vset (bfs self) i m; Ok (Some {| bfs := d |})
  | None => Ok None
  end.

(** The loop of [try_exclude]: [exclude_index] is overwritten until the loop stops
    at the first byte that [other] does not cover. *)
Fixpoint exclude_index (l : list (ByteFilter * ByteFilter)) (index : nat) (found : option nat) : option nat :=
  match l with
  | [] => found
  | (a, b) :: l =>
      let found := if BF.can_exclude a b && forallb (λ '(a, b), BF.covers b a) l then Some index else found in
      if negb (BF.covers b a) then found else exclude_index l (S index) found
  end.
Definition try_exclude (self other : InstructionFilter) : M (option InstructionFilter) :=
  if negb (length (bfs self) =? length (bfs other))%nat then Ok None else
  match exclude_index (zip (bfs self) (bfs other)) 0 None with
  | Some i =>
      a ← vget (bfs self) i; b ← vget (bfs other) i;
      m ← BF.exclude a b;
      d ← vset (bfs self) i m; Ok (Some {| bfs := d |})
  | None => Ok None
  end.

(** ** [merge_filters] *)

(** The first filter after [index] that merges with [item], with its position. *)
Fixpoint find_merge (item : InstructionFilter) (l : list InstructionFilter) (i : nat)
  : M (option (nat * InstructionFilter)) :=
  match l with
  | [] => Ok None
  | other :: l =>
      r ← try_merge item other;
      match r with Some m => Ok (Some (i, m)) | None => find_merge item l (S i) end
  end.
(** The inner [loop]: every iteration removes a filter, so the number of filters
    bounds the iterations. *)
Fixpoint merge_at (fuel : nat) (filters : list InstructionFilter) (index : nat) : M (list InstructionFilter) :=
  match fuel with
  | O => OutOfFuel
  | S fuel =>
      item ← vget filters index;
      r ← find_merge item (drop (index + 1) filters) (index + 1);
      match r with
      | Some (merged_index, merged) =>
          filters ← vset filters index merged;
          merge_at fuel (delete merged_index filters) index
      | None => Ok filters
      end
  end.
(** [for index in (0..filters.len()).rev()]. *)
Fixpoint merge_from (n : nat) (filters : list InstructionFilter) : M (list InstructionFilter) :=
  match n with
  | O => Ok filters
  | S index => filters ← merge_at (length filters) filters index; merge_from index filters
  end.
Definition merge_filters (filters : list InstructionFilter) : M (list InstructionFilter) :=
  merge_from (length filters) filters.
End ops.

(** ** [next_matching_instruction] *)

(** The first [while bit < len] loop. *)
Fixpoint follow (n : nat) (self : InstructionFilter) (instr result : Instruction) (bit : nat) : M Instruction :=
  match n with
  | O => Ok result
  | S n =>
      a ← Instr.nth_bit_from_left instr bit;
      b ← Instr.nth_bit_from_left result bit;
      if a =? b then follow n self instr result (S bit)
      else if a =? 1 then
        f ← nth_bit_from_left self bit;
        if bool_decide (f = Wildcard)
        then result ← Instr.with_nth_bit_from_left result bit 1; follow n self instr result (S bit)
        else Ok result
      else Ok result
  end.
(** [for bit in (0..len).rev()], with [bit = n - 1]. *)
Fixpoint carry (n : nat) (self : InstructionFilter) (instr result : Instruction) : M Instruction :=
  match n with
  | O => Ok result
  | S bit =>
      f ← nth_bit_from_left self bit;
      if bool_decide (f = Wildcard) then
        val ← Instr.nth_bit_from_left result bit;
        if val =? 0 then
          new ← Instr.with_nth_bit_from_left result bit 1;
          match Instr.cmp new instr with Gt => Ok new | _ => carry bit self instr result end
        else
          result ← Instr.with_nth_bit_from_left result bit 0;
          carry bit self instr result
      else carry bit self instr result
  end.
Definition next_matching_instruction (self : InstructionFilter) (instr : Instruction) : M (option Instruction) :=
  largest ← largest_matching_instruction self;
  match Instr.cmp instr largest with
  | Gt => Ok None
  | _ =>
      result ← smallest_matching_instruction self;
      let len := Nat.min (Instr.bit_len result) (Instr.bit_len instr) in
      result ← follow len self instr result 0;
      match Instr.cmp result instr with
      | Lt => result ← carry len self instr result; Ok (Some result)
      | _ => Ok (Some result)
      end
  end.
End Filter.
