(* ===== verification/FilterFacts.v ===== *)
(** * Filters as sets of instructions

    Every operation on filters is specified by the set of bytes or instructions
    the filter matches: [covers] is inclusion, [overlaps] a common element,
    [intersect] the intersection; on bytes, [merge] is a union and [exclude] a
    difference. *)
From S2P Require Import Prelude MachInt Utils Instruction InstructionFacts Filter.
Import Filter.

(** ** Byte filters *)

(** [ByteFilter]'s documented invariant: bits outside the mask are zero. *)
Record bf_wf (f : ByteFilter) : Prop := {
  bwf_mask : is_u 8 (mask f);
  bwf_value : is_u 8 (value f);
  bwf_cons : ∀ j, 0 <= j < 8 → Z.testbit (value f) j = true → Z.testbit (mask f) j = true;
}.

Lemma u8_ext a b : is_u 8 a → is_u 8 b → a = b ↔ ∀ j, 0 <= j < 8 → Z.testbit a j = Z.testbit b j.
Proof. intros Ha Hb. split; [by intros -> | intros H; by apply (u_ext 8)]. Qed.
Lemma not_u_is_u x : is_u 8 (not_u 8 x).
Proof. apply wrap_is_u; lia. Qed.
Lemma testbit_not_u x j : 0 <= j < 8 → Z.testbit (not_u 8 x) j = negb (Z.testbit x j).
Proof. intros Hj. unfold not_u. rewrite testbit_wrap, Z.lnot_spec by lia. by case_cmps. Qed.
Lemma is_u_land_l w a b : 0 <= w → is_u w a → is_u w (Z.land a b).
Proof.
  intros Hw Ha. apply u_of_bits; [done | apply Z.land_nonneg; left; apply Ha|].
  intros i Hi. rewrite Z.land_spec, (testbit_u_high w a) by (done || lia). done.
Qed.
Lemma is_u_land_r w a b : 0 <= w → is_u w b → is_u w (Z.land a b).
Proof. intros. rewrite Z.land_comm. by apply is_u_land_l. Qed.
Create HintDb u8.
#[export] Hint Resolve not_u_is_u bwf_mask bwf_value : u8.
#[export] Hint Extern 2 (is_u 8 (Z.land _ _)) => first [apply is_u_land_l; [lia|] | apply is_u_land_r; [lia|]] : u8.
#[export] Hint Extern 2 (is_u 8 (Z.lor _ _)) => apply is_u_lor; [lia| |] : u8.
#[export] Hint Extern 2 (is_u 8 (Z.lxor _ _)) => apply is_u_lxor; [lia| |] : u8.

(** Equality of bytes, bit by bit. *)
Lemma land_eqb_iff a b c d : is_u 8 a → is_u 8 c →
  (Z.land a b =? Z.land c d) = true ↔
  ∀ j, 0 <= j < 8 → Z.testbit a j && Z.testbit b j = Z.testbit c j && Z.testbit d j.
Proof.
  intros Ha Hc. rewrite Z.eqb_eq, u8_ext by auto using is_u_land_l with lia.
  setoid_rewrite Z.land_spec. done.
Qed.
Lemma is_power_of_two_iff z : is_power_of_two 8 z = true →
  ∃ k, 0 <= k < 8 ∧ ∀ j, 0 <= j < 8 → Z.testbit z j = (j =? k).
Proof.
  unfold is_power_of_two, count_ones. rewrite Nat.eqb_eq. intros H.
  destruct (ones 8 z) as [|k [|]] eqn:E; try done. exists (Z.of_nat k).
  assert (∀ i, i ∈ ones 8 z ↔ i = k) as Hin by (intros i; rewrite E; apply list_elem_of_singleton).
  setoid_rewrite elem_of_ones in Hin. destruct (proj2 (Hin k) eq_refl) as [Hk Ht]. split; [lia|].
  intros j Hj. specialize (Hin (Z.to_nat j)). rewrite Z2Nat.id in Hin by lia.
  destruct (Z.eqb_spec j (Z.of_nat k)) as [->|Hne]; [done|].
  destruct (Z.testbit z j) eqn:Ej; [|done]. exfalso. apply Hne. destruct Hin as [Hin _]. rewrite <- (Hin ltac:(lia)). lia.
Qed.

Section byte_filter.
Context (a : ByteFilter) (Ha : bf_wf a).

Lemma matches_iff x : is_byte x → BF.matches a x = true ↔
  ∀ j, 0 <= j < 8 → Z.testbit (mask a) j = true → Z.testbit x j = Z.testbit (value a) j.
Proof using Ha.
  intros Hx. unfold BF.matches. rewrite Z.eqb_eq, u8_ext by auto using is_u_land_l with u8 lia.
  setoid_rewrite Z.land_spec. split; intros H j Hj.
  - intros Hm. rewrite <- H, Hm by done. by rewrite andb_true_r.
  - pose proof (bwf_cons a Ha j Hj). specialize (H j Hj).
    destruct (Z.testbit (mask a) j); rewrite ?andb_true_r, ?andb_false_r; [auto|].
    destruct (Z.testbit (value a) j); [|done]. exfalso. by assert (false = true) by auto.
Qed.
Lemma matches_value : BF.matches a (value a) = true.
Proof using Ha. apply matches_iff; [apply Ha | done]. Qed.
Lemma max_byte : is_byte (BF.max_matching_val a).
Proof using Ha. unfold BF.max_matching_val, is_byte. auto with u8. Qed.
Lemma testbit_max j : 0 <= j < 8 →
  Z.testbit (BF.max_matching_val a) j = Z.testbit (value a) j || negb (Z.testbit (mask a) j).
Proof using. intros Hj. unfold BF.max_matching_val. by rewrite Z.lor_spec, testbit_not_u. Qed.
Lemma matches_max : BF.matches a (BF.max_matching_val a) = true.
Proof using Ha.
  apply matches_iff; [apply max_byte|]. intros j Hj Hm. rewrite testbit_max, Hm by done. apply orb_false_r.
Qed.
Lemma matches_anything_iff : BF.matches_anything a = true ↔ ∀ j, 0 <= j < 8 → Z.testbit (mask a) j = false.
Proof using Ha.
  unfold BF.matches_anything. rewrite Z.eqb_eq, u8_ext by (auto with u8 || done). setoid_rewrite Z.bits_0. done.
Qed.
Lemma consistency_check_ok {P : profile} : BF.consistency_check a = Ok tt.
Proof using Ha.
  unfold BF.consistency_check. replace (_ =? 0) with true; [by destruct P|]. symmetry.
  rewrite Z.eqb_eq, u8_ext by (auto with u8 || done). intros j Hj.
  rewrite Z.land_spec, testbit_not_u, Z.bits_0 by done. pose proof (bwf_cons a Ha j Hj).
  destruct (Z.testbit (value a) j); [|done]. by rewrite H.
Qed.
End byte_filter.

Section byte_filters.
Context (a b : ByteFilter) (Ha : bf_wf a) (Hb : bf_wf b).

Lemma covers_iff : BF.covers a b = true ↔
  ∀ j, 0 <= j < 8 → Z.testbit (mask a) j = true →
    Z.testbit (mask b) j = true ∧ Z.testbit (value b) j = Z.testbit (value a) j.
Proof using Ha Hb.
  unfold BF.covers. rewrite andb_true_iff, land_eqb_iff by auto with u8.
  rewrite Z.eqb_eq, u8_ext by auto with u8. setoid_rewrite Z.land_spec. split.
  - intros [H1 H2] j Hj Hm. specialize (H1 j Hj). specialize (H2 j Hj). rewrite Hm in *.
    rewrite !andb_true_r in *. by rewrite H1.
  - intros H. split; intros j Hj; specialize (H j Hj);
      destruct (Z.testbit (mask a) j); rewrite ?andb_true_r, ?andb_false_r; try done; by destruct H.
Qed.
(** [covers] is inclusion of the matched bytes. *)
Lemma covers_matches : BF.covers a b = true ↔
  ∀ x, is_byte x → BF.matches b x = true → BF.matches a x = true.
Proof using Ha Hb.
  rewrite covers_iff. split.
  - intros H x Hx. rewrite !matches_iff by done. intros Hm j Hj Hj'.
    destruct (H j Hj Hj') as [H1 H2]. rewrite <- H2. auto.
  - intros H j Hj Hm.
    assert (∀ x, is_byte x → BF.matches b x = true → Z.testbit x j = Z.testbit (value a) j) as H'.
    { intros x Hx Hx'. by apply (proj1 (matches_iff a Ha x Hx) (H x Hx Hx')). }
    pose proof (H' (value b) ltac:(apply Hb) (matches_value b Hb)) as E1.
    pose proof (H' _ (max_byte b Hb) (matches_max b Hb)) as E2. rewrite testbit_max in E2 by done.
    split; [|done]. destruct (Z.testbit (mask b) j) eqn:Em; [done|]. rewrite orb_true_r in E2.
    rewrite <- E2 in E1. by rewrite (bwf_cons b Hb j Hj E1) in Em.
Qed.
Lemma can_intersect_iff : BF.can_intersect a b = true ↔
  ∀ j, 0 <= j < 8 → Z.testbit (mask a) j = true → Z.testbit (mask b) j = true →
    Z.testbit (value a) j = Z.testbit (value b) j.
Proof using Ha Hb.
  unfold BF.can_intersect. rewrite land_eqb_iff by auto with u8. setoid_rewrite Z.land_spec.
  split; intros H j Hj; specialize (H j Hj).
  - intros E1 E2. by rewrite E1, E2 in H.
  - destruct (Z.testbit (mask a) j), (Z.testbit (mask b) j); cbn; auto.
Qed.
(** [can_intersect] holds when some byte matches both. *)
Lemma can_intersect_matches : BF.can_intersect a b = true ↔
  ∃ x, is_byte x ∧ BF.matches a x = true ∧ BF.matches b x = true.
Proof using Ha Hb.
  rewrite can_intersect_iff. split.
  - intros H. exists (Z.lor (value a) (value b)). assert (is_byte (Z.lor (value a) (value b))) as Hx
      by (unfold is_byte; auto with u8).
    split; [done|]. rewrite !matches_iff by done. setoid_rewrite Z.lor_spec.
    split; intros j Hj Hm; specialize (H j Hj); pose proof (bwf_cons a Ha j Hj); pose proof (bwf_cons b Hb j Hj);
      destruct (Z.testbit (value a) j), (Z.testbit (value b) j); try done; by rewrite H by auto.
  - intros (x & Hx & Hxa & Hxb) j Hj E1 E2. rewrite matches_iff in Hxa, Hxb by done.
    by rewrite <- Hxa, <- Hxb.
Qed.
End byte_filters.

(** What an operation on two byte filters must produce: a well-formed filter that
    matches the bytes selected by [p]. *)
Definition bf_result (m : M ByteFilter) (p : Z → Prop) : Prop :=
  ∃ r, m = Ok r ∧ bf_wf r ∧ ∀ x, is_byte x → BF.matches r x = true ↔ p x.

Lemma debug_assert_ok {P : profile} c : c = true → debug_assert c = Ok tt.
Proof. intros ->. by destruct P. Qed.
Lemma bf_result_intro {P : profile} r p : bf_wf r → (∀ x, is_byte x → BF.matches r x = true ↔ p x) →
  bf_result (_ ← BF.consistency_check r; Ok r) p.
Proof. intros Hr Hp. exists r. by rewrite consistency_check_ok, M_bind_Ok. Qed.

Section byte_results.
Context {P : profile} (a b : ByteFilter) (Ha : bf_wf a) (Hb : bf_wf b).

Lemma intersect_result : BF.can_intersect a b = true →
  bf_result (BF.intersect a b) (λ x, BF.matches a x = true ∧ BF.matches b x = true).
Proof using Ha Hb.
  intros Hc. unfold BF.intersect. rewrite (debug_assert_ok (_ || _)), M_bind_Ok by (by rewrite Hc).
  pose proof (proj1 (can_intersect_iff a b Ha Hb) Hc) as Hi.
  rewrite debug_assert_ok, M_bind_Ok.
  2:{ rewrite land_eqb_iff by auto with u8. intros j Hj. specialize (Hi j Hj).
      pose proof (bwf_cons a Ha j Hj). pose proof (bwf_cons b Hb j Hj).
      destruct (Z.testbit (value a) j), (Z.testbit (value b) j), (Z.testbit (mask a) j), (Z.testbit (mask b) j);
        cbn; naive_solver. }
  assert (bf_wf {| mask := Z.lor (mask a) (mask b); value := Z.lor (value a) (value b) |}) as Hr.
  { split; cbn [mask value]; [auto with u8..|]. intros j Hj. rewrite !Z.lor_spec, !orb_true_iff.
    pose proof (bwf_cons a Ha j Hj). pose proof (bwf_cons b Hb j Hj). tauto. }
  apply bf_result_intro; [done|]. intros x Hx. rewrite !matches_iff by done. cbn [mask value].
  setoid_rewrite Z.lor_spec. split.
  - intros H. split; intros j Hj Hm; specialize (H j Hj); specialize (Hi j Hj);
      pose proof (bwf_cons a Ha j Hj); pose proof (bwf_cons b Hb j Hj);
      rewrite Hm, ?orb_true_r in H; rewrite H by done;
      destruct (Z.testbit (value a) j), (Z.testbit (value b) j); try done; by rewrite Hi by auto.
  - intros [H1 H2] j Hj. specialize (H1 j Hj). specialize (H2 j Hj).
    pose proof (bwf_cons a Ha j Hj). pose proof (bwf_cons b Hb j Hj).
    rewrite orb_true_iff. intros Hm. destruct (Z.testbit x j), (Z.testbit (value a) j), (Z.testbit (value b) j);
      naive_solver.
Qed.

Lemma can_merge_iff : BF.can_merge a b = true → mask a = mask b ∧
  ∃ k, 0 <= k < 8 ∧ Z.testbit (mask a) k = true ∧
    ∀ j, 0 <= j < 8 → Z.testbit (mask a) j = true →
      Z.testbit (value a) j = xorb (Z.testbit (value b) j) (j =? k).
Proof using Ha Hb.
  unfold BF.can_merge. case_match; [done|]. rewrite andb_true_iff, Z.eqb_eq. intros [Hm Hp].
  apply is_power_of_two_iff in Hp as (k & Hk & Hz). split; [done|]. exists k.
  rewrite Hm. setoid_rewrite Z.land_spec in Hz. setoid_rewrite Z.lxor_spec in Hz.
  split; [done|]. split.
  - specialize (Hz k Hk). rewrite Z.eqb_refl, andb_true_iff in Hz. by destruct Hz.
  - intros j Hj Hj'. specialize (Hz j Hj). rewrite Hj', andb_true_r in Hz. rewrite <- Hz.
    by destruct (Z.testbit (value a) j), (Z.testbit (value b) j).
Qed.
Lemma merge_filter_bits k j : mask a = mask b → 0 <= j < 8 →
  (∀ j, 0 <= j < 8 → Z.testbit (mask a) j = true →
      Z.testbit (value a) j = xorb (Z.testbit (value b) j) (j =? k)) → Z.testbit (mask a) k = true →
  Z.testbit (not_u 8 (Z.land (Z.lxor (value a) (value b)) (mask b))) j = negb (j =? k).
Proof using Ha Hb.
  intros Hm Hj Hv Hk. rewrite testbit_not_u, Z.land_spec, Z.lxor_spec, <- Hm by done. f_equal.
  specialize (Hv j Hj). destruct (Z.testbit (mask a) j) eqn:E; rewrite ?andb_true_r, ?andb_false_r.
  - rewrite Hv by done. by destruct (Z.testbit (value b) j), (j =? k).
  - case_cmp; [|done]. congruence.
Qed.
Lemma count_ones_not_bit f k : 0 <= k < 8 → (∀ j, 0 <= j < 8 → Z.testbit f j = negb (j =? k)) →
  count_ones 8 f = 7%nat.
Proof using.
  intros Hk Hf. unfold count_ones, ones.
  rewrite (List.filter_ext_in _ (λ i, negb (Z.of_nat i =? k))).
  2:{ intros i Hi%List.in_seq. apply Hf. lia. }
  assert (k = 0 ∨ k = 1 ∨ k = 2 ∨ k = 3 ∨ k = 4 ∨ k = 5 ∨ k = 6 ∨ k = 7) as Hc by lia.
  by destruct Hc as [->|[->|[->|[->|[->|[->|[->| ->]]]]]]].
Qed.
Lemma merge_result : BF.can_merge a b = true →
  bf_result (BF.merge a b) (λ x, BF.matches a x = true ∨ BF.matches b x = true).
Proof using Ha Hb.
  intros (Hm & k & Hk & Hmk & Hv)%can_merge_iff. unfold BF.merge.
  set (filter := not_u 8 _). assert (∀ j, 0 <= j < 8 → Z.testbit filter j = negb (j =? k)) as Hf
    by (intros; by apply merge_filter_bits).
  rewrite debug_assert_ok, M_bind_Ok by (by rewrite (count_ones_not_bit filter k)).
  assert (bf_wf {| mask := Z.land (mask a) filter; value := Z.land (value a) filter |}) as Hr.
  { split; cbn [mask value]; [auto with u8..|]. intros j Hj. rewrite !Z.land_spec, !andb_true_iff.
    pose proof (bwf_cons a Ha j Hj). tauto. }
  apply bf_result_intro; [done|]. intros x Hx. rewrite !matches_iff by done. cbn [mask value].
  setoid_rewrite Z.land_spec. rewrite <- Hm. split.
  - intros H. assert (∀ j, 0 <= j < 8 → Z.testbit (mask a) j = true → j ≠ k → Z.testbit x j = Z.testbit (value a) j) as H'.
    { intros j Hj Hj' Hne. specialize (H j Hj). rewrite Hf, Hj', (proj2 (Z.eqb_neq j k) Hne) in H by done.
      rewrite !andb_true_r in H. by apply H. }
    destruct (bool_decide (Z.testbit x k = Z.testbit (value a) k)) eqn:E.
    + apply bool_decide_eq_true in E. left. intros j Hj Hj'. destruct (decide (j = k)) as [->|]; auto.
    + apply bool_decide_eq_false in E. right. intros j Hj Hj'. pose proof (Hv j Hj Hj') as Hvj.
      destruct (Z.eqb_spec j k) as [->|Hne].
      * destruct (Z.testbit x k), (Z.testbit (value a) k), (Z.testbit (value b) k); done.
      * rewrite H', Hvj by done. by destruct (Z.testbit (value b) j).
  - intros [H|H] j Hj; rewrite Hf, !andb_true_iff, negb_true_iff by done; intros [Hj' Hne]; rewrite Hne;
      rewrite andb_true_r, H by done; [done|]. rewrite Hv, Hne by done. by destruct (Z.testbit (value b) j).
Qed.

Lemma can_exclude_iff : BF.can_exclude a b = true →
  ∃ k, 0 <= k < 8 ∧ Z.testbit (mask a) k = false ∧ Z.testbit (mask b) k = true ∧
    ∀ j, 0 <= j < 8 → Z.testbit (mask b) j = true →
      j = k ∨ (Z.testbit (mask a) j = true ∧ Z.testbit (value a) j = Z.testbit (value b) j).
Proof using Ha Hb.
  unfold BF.can_exclude. case_match; [done|]. rewrite andb_true_iff, land_eqb_iff by auto with u8.
  intros [(k & Hk & Hz)%is_power_of_two_iff Hv]. setoid_rewrite Z.land_spec in Hz. setoid_rewrite Z.land_spec in Hv.
  exists k. pose proof (Hz k Hk) as Hzk. rewrite testbit_not_u, Z.eqb_refl, andb_true_iff, negb_true_iff in Hzk by done.
  destruct Hzk. split_and!; [lia..|done|done|]. intros j Hj Hm. specialize (Hz j Hj). specialize (Hv j Hj).
  rewrite testbit_not_u, Hm, andb_true_r in Hz by done. rewrite Hm, !andb_true_r in Hv.
  destruct (Z.testbit (mask a) j); cbn [negb] in Hz; [right; by rewrite !andb_true_r in Hv|].
  left. symmetry in Hz. by apply Z.eqb_eq in Hz.
Qed.
Lemma exclude_result : BF.can_exclude a b = true →
  bf_result (BF.exclude a b) (λ x, BF.matches a x = true ∧ BF.matches b x = false).
Proof using Ha Hb.
  intros Hc. unfold BF.exclude. rewrite debug_assert_ok, M_bind_Ok by done.
  destruct (can_exclude_iff Hc) as (k & Hk & Hak & Hbk & Hv).
  set (bit := Z.land (not_u 8 (mask a)) (mask b)).
  assert (∀ j, 0 <= j < 8 → Z.testbit bit j = (j =? k)) as Hbit.
  { intros j Hj. unfold bit. rewrite Z.land_spec, testbit_not_u by done. case_cmp; [by subst; rewrite Hak, Hbk|].
    destruct (Z.testbit (mask b) j) eqn:E; [|apply andb_false_r]. destruct (Hv j Hj E) as [|[-> _]]; done. }
  assert (Z.testbit (value a) k = false) as Hvk.
  { destruct (Z.testbit (value a) k) eqn:E; [|done]. by rewrite (bwf_cons a Ha k Hk E) in Hak. }
  set (v := Z.lor (Z.land (value a) (not_u 8 bit)) (Z.land (not_u 8 (value b)) bit)).
  assert (∀ j, 0 <= j < 8 → Z.testbit v j = if j =? k then negb (Z.testbit (value b) j) else Z.testbit (value a) j) as Hval.
  { intros j Hj. unfold v. rewrite Z.lor_spec, !Z.land_spec, !testbit_not_u, !Hbit by done. case_cmp; cbn.
    - by rewrite andb_false_r, andb_true_r.
    - by rewrite andb_false_r, andb_true_r, orb_false_r. }
  assert (bf_wf {| mask := Z.lor (mask a) bit; value := v |}) as Hr.
  { split; cbn [mask value]; [unfold bit; auto with u8 | unfold v, bit; auto 8 with u8|]. intros j Hj.
    rewrite Hval, Z.lor_spec, Hbit by done. case_cmp; [by rewrite orb_true_r|].
    intros H%(bwf_cons a Ha j Hj). by rewrite H. }
  apply bf_result_intro; [done|]. intros x Hx. rewrite <- not_true_iff_false, !matches_iff by done. cbn [mask value].
  setoid_rewrite Z.lor_spec. split.
  - intros H. split.
    + intros j Hj Hm. specialize (H j Hj). rewrite Hval, Hm in H by done.
      rewrite H by done. case_cmp; [by subst; rewrite Hak in Hm | done].
    + intros H'. specialize (H k Hk). specialize (H' k Hk). rewrite Hval, Hbit, Z.eqb_refl, orb_true_r in H by done.
      rewrite H' in H by done. specialize (H eq_refl). by destruct (Z.testbit (value b) k).
  - intros [H1 H2] j Hj. rewrite Hval, Hbit by done.
    destruct (Z.eqb_spec j k) as [->|]; [|by rewrite orb_false_r; intros; apply H1].
    intros _. destruct (Z.testbit x k) eqn:Ex, (Z.testbit (value b) k) eqn:Eb; try done; exfalso; apply H2;
      intros j Hj' Hj''; destruct (Hv j Hj' Hj'') as [->|[Hm Hv']]; try congruence; rewrite H1 by done; done.
Qed.
End byte_results.

(** The operations of [ByteFilter] on well-formed filters are those of the
    sets of bytes they match, in both profiles: [covers] decides inclusion,
    [can_intersect] whether a common byte exists, and whenever its test allows
    the operation, [intersect], [merge] and [exclude] return a well-formed filter
    for the intersection, the union and the difference; [min_matching_val] and
    [max_matching_val] are the least and the greatest matching byte. *)
Theorem byte_filter_set_semantics {P : profile} a b : bf_wf a → bf_wf b →
  (BF.covers a b = true ↔ ∀ x, is_byte x → BF.matches b x = true → BF.matches a x = true) ∧
  (BF.can_intersect a b = true ↔ ∃ x, is_byte x ∧ BF.matches a x = true ∧ BF.matches b x = true) ∧
  (BF.can_intersect a b = true →
     bf_result (BF.intersect a b) (λ x, BF.matches a x = true ∧ BF.matches b x = true)) ∧
  (BF.can_merge a b = true →
     bf_result (BF.merge a b) (λ x, BF.matches a x = true ∨ BF.matches b x = true)) ∧
  (BF.can_exclude a b = true →
     bf_result (BF.exclude a b) (λ x, BF.matches a x = true ∧ BF.matches b x = false)) ∧
  (∀ x, is_byte x → BF.matches a x = true → BF.min_matching_val a <= x <= BF.max_matching_val a).
Proof.
  intros Ha Hb. split_and!; [by apply covers_matches | by apply can_intersect_matches | by apply intersect_result
    | by apply merge_result | by apply exclude_result |].
  intros x Hx Hm. rewrite matches_iff in Hm by done.
  assert (∀ u w, is_u 8 u → is_u 8 w → (∀ j, 0 <= j < 8 → Z.testbit u j = true → Z.testbit w j = true) → u <= w) as Hsub.
  { intros u w Hu Hw H. assert (Z.ldiff u w = 0) as E.
    { apply Z.bits_inj'; intros j Hj. rewrite Z.ldiff_spec, Z.bits_0. destruct (Z.lt_ge_cases j 8).
      - specialize (H j ltac:(lia)). destruct (Z.testbit u j); [by rewrite H | done].
      - by rewrite (testbit_u_high 8 u) by (done || lia). }
    pose proof (Z.sub_nocarry_ldiff w u E). pose proof (proj2 (Z.ldiff_nonneg w u) (or_introl (proj1 Hw))). lia. }
  unfold BF.min_matching_val. split; apply Hsub; auto with u8; [| by apply (max_byte a) |].
  - intros j Hj. rewrite Z.land_spec, andb_true_iff. intros [Hv Hma]. by rewrite Hm.
  - intros j Hj Hxj. rewrite testbit_max by done. destruct (Z.testbit (mask a) j) eqn:E; [|apply orb_true_r].
    by rewrite <- Hm, Hxj.
Qed.

(** ** Instruction filters *)

Definition filter_wf (f : InstructionFilter) : Prop := Forall bf_wf (bfs f).
(** One byte filter against one byte of the instruction, if there is one. *)
Definition matches_at (bf : ByteFilter) (x : option Z) : bool :=
  match x with Some x => BF.matches bf x | None => BF.matches_anything bf end.

Lemma matches_bytes_iff l : ∀ b, matches_bytes l b = true ↔
  ∀ i bf, l !! i = Some bf → matches_at bf (b !! i) = true.
Proof.
  induction l as [|bf l IH]; intros b; cbn [matches_bytes]; [done|].
  assert (∀ c b', (if negb c then false else matches_bytes l b') = true ↔ c = true ∧ matches_bytes l b' = true) as Hif
    by (intros [] ?; cbn; naive_solver).
  destruct b as [|x b]; rewrite Hif, IH; split.
  - intros [H1 H2] [|i] bf' Hi; cbn in Hi; [by injection Hi as <-|]. apply H2 in Hi. done.
  - intros H. split; [apply (H 0%nat bf eq_refl)|]. intros i bf' Hi. apply (H (S i) bf' Hi).
  - intros [H1 H2] [|i] bf' Hi; cbn in Hi; [by injection Hi as <-|]. by apply H2.
  - intros H. split; [apply (H 0%nat bf eq_refl)|]. intros i bf' Hi. apply (H (S i) bf' Hi).
Qed.
Lemma instr_byte i k x : instr_wf i → Instr.bytes i !! k = Some x → is_byte x.
Proof. intros Hi Hk. destruct (bytes_wf i Hi) as [H _]. by eapply Forall_lookup_1 in Hk. Qed.

Lemma forallb_zip {A B} (p : A → B → bool) l k :
  forallb (λ '(a, b), p a b) (zip l k) = true ↔
  ∀ i a b, l !! i = Some a → k !! i = Some b → p a b = true.
Proof.
  revert k. induction l as [|a l IH]; intros k; [by cbn|]. destruct k as [|b k]; [by cbn|].
  cbn. rewrite andb_true_iff, IH. split.
  - intros [H1 H2] [|i] a' b' Ha Hb; cbn in *; [by injection Ha as <-; injection Hb as <-|]. eauto.
  - intros H. split; [by apply (H 0%nat)|]. intros i a' b' Ha Hb. by apply (H (S i)).
Qed.

(** An instruction with given bytes. *)
Lemma instr_of_bytes l : is_bytes l → (length l <= 15)%nat → ∃ i, instr_wf i ∧ Instr.bytes i = l.
Proof. intros Hl Hlen. exists (example_instr l). apply new_wf; [done|]. by apply new_ok. Qed.

Lemma covers_at_sound a b x : bf_wf a → bf_wf b → (∀ y, x = Some y → is_byte y) →
  BF.covers a b = true → matches_at b x = true → matches_at a x = true.
Proof.
  intros Ha Hb Hx Hc. destruct x as [y|]; cbn.
  - intros Hm. by apply (proj1 (covers_matches a b Ha Hb) Hc y (Hx y eq_refl)).
  - rewrite !matches_anything_iff by done. intros Hm j Hj. specialize (Hm j Hj).
    rewrite covers_iff in Hc by done. specialize (Hc j Hj).
    destruct (Z.testbit (mask a) j); [|done]. destruct Hc as [Hc _]; [done|]. congruence.
Qed.

Section filters.
Context (f g : InstructionFilter) (Hf : filter_wf f) (Hg : filter_wf g).

Lemma filter_covers_iff : covers f g = true ↔ (len f <= len g)%nat ∧
  ∀ i a b, bfs f !! i = Some a → bfs g !! i = Some b → BF.covers a b = true.
Proof using. unfold covers, len. rewrite andb_true_iff, Nat.leb_le, forallb_zip. done. Qed.

Lemma filter_covers_sound i : instr_wf i → covers f g = true → matches g i = true → matches f i = true.
Proof using Hf Hg.
  intros Hi (Hlen & Hc)%filter_covers_iff Hm. unfold matches in *. rewrite matches_bytes_iff in *.
  intros k a Ha. destruct (lookup_lt_is_Some_2 (bfs g) k) as [b Hb].
  { apply lookup_lt_Some in Ha. unfold len in Hlen. lia. }
  apply (covers_at_sound a b).
  - by eapply Forall_lookup_1 in Ha.
  - by eapply Forall_lookup_1 in Hb.
  - intros y. by apply instr_byte.
  - by eapply Hc.
  - by apply Hm.
Qed.
Lemma filter_covers_complete : (len f <= len g <= 15)%nat →
  (∀ i, instr_wf i → matches g i = true → matches f i = true) → covers f g = true.
Proof using Hf Hg.
  intros Hlen H. apply filter_covers_iff. split; [lia|]. intros k a b Ha Hb.
  assert (bf_wf a) as Wa by (by eapply Forall_lookup_1 in Ha). assert (bf_wf b) as Wb by (by eapply Forall_lookup_1 in Hb).
  apply covers_matches; [done..|]. intros x Hx Hmx. pose proof (lookup_lt_Some _ _ _ Hb) as Hk.
  destruct (instr_of_bytes (<[k:=x]> (value <$> bfs g))) as (i & Hi & Hbytes).
  { apply Forall_insert; [|done]. apply Forall_fmap. eapply Forall_impl; [exact Hg|]. by intros c []. }
  { rewrite length_insert, length_fmap. unfold len in Hlen. lia. }
  assert (matches g i = true) as Hmg.
  { unfold matches. rewrite matches_bytes_iff, Hbytes. intros j c Hc. destruct (decide (j = k)) as [->|].
    - rewrite Hb in Hc. injection Hc as <-. by rewrite list_lookup_insert_eq by (by rewrite length_fmap).
    - rewrite list_lookup_insert_ne, list_lookup_fmap, Hc by done. cbn. apply matches_value.
      by eapply Forall_lookup_1 in Hc. }
  specialize (H i Hi Hmg). unfold matches in H. rewrite matches_bytes_iff, Hbytes in H. specialize (H k a Ha).
  by rewrite list_lookup_insert_eq in H by (by rewrite length_fmap).
Qed.
End filters.

(** Bytes that match both filters, position by position. *)
Fixpoint common (l k : list ByteFilter) : list Z :=
  match l, k with
  | a :: l, b :: k => Z.lor (value a) (value b) :: common l k
  | [], k => value <$> k
  | l, [] => value <$> l
  end.
Lemma length_common l : ∀ k, length (common l k) = Nat.max (length l) (length k).
Proof.
  induction l as [|a l IH]; intros [|b k]; cbn [common length]; rewrite ?length_fmap; cbn [length];
    rewrite ?IH; lia.
Qed.
Lemma common_bytes l : ∀ k, Forall bf_wf l → Forall bf_wf k → is_bytes (common l k).
Proof.
  assert (∀ l, Forall bf_wf l → is_bytes (value <$> l)) as Hv.
  { intros l' H. apply Forall_fmap. eapply Forall_impl; [exact H|]. by intros c []. }
  induction l as [|a l IH]; intros [|b k] Hl Hk; cbn [common]; [constructor | by apply Hv | by apply Hv|].
  apply Forall_cons in Hl as [Ha Hl]. apply Forall_cons in Hk as [Hb Hk]. constructor; [|by apply IH].
  unfold is_byte. auto with u8.
Qed.
Lemma can_intersect_sym a b : BF.can_intersect a b = BF.can_intersect b a.
Proof. unfold BF.can_intersect. rewrite (Z.land_comm (mask b)). apply Z.eqb_sym. Qed.
Lemma common_sym l : ∀ k, common l k = common k l.
Proof.
  induction l as [|a l IH]; intros [|b k]; cbn; [done..|]. by rewrite Z.lor_comm, IH.
Qed.
Lemma matches_lor a b : bf_wf a → bf_wf b → BF.can_intersect a b = true →
  BF.matches a (Z.lor (value a) (value b)) = true.
Proof.
  intros Ha Hb Hc. rewrite can_intersect_iff in Hc by done.
  apply matches_iff; [done | unfold is_byte; auto with u8|]. intros j Hj Hm. rewrite Z.lor_spec.
  specialize (Hc j Hj Hm). pose proof (bwf_cons b Hb j Hj).
  destruct (Z.testbit (value a) j), (Z.testbit (value b) j); try done.
  exfalso. by assert (false = true) by auto.
Qed.
Lemma common_matches l : ∀ k, Forall bf_wf l → Forall bf_wf k →
  (∀ i a b, l !! i = Some a → k !! i = Some b → BF.can_intersect a b = true) →
  matches_bytes l (common l k) = true.
Proof.
  induction l as [|a l IH]; intros [|b k] Hl Hk H; [done..| |]; apply Forall_cons in Hl as [Ha Hl].
  - apply matches_bytes_iff. intros i c Hc. change (common (a :: l) []) with (value <$> a :: l).
    rewrite list_lookup_fmap, Hc. cbn. apply matches_value.
    eapply Forall_lookup_1; [|exact Hc]. by constructor.
  - apply Forall_cons in Hk as [Hb Hk]. cbn [common matches_bytes].
    rewrite (matches_lor a b) by (done || by apply (H 0%nat)). cbn [negb].
    apply IH; [done..|]. intros i x y Hx Hy. by apply (H (S i)).
Qed.

Section filters2.
Context (f g : InstructionFilter) (Hf : filter_wf f) (Hg : filter_wf g).

Lemma filter_overlaps_iff : overlaps f g = true ↔
  ∀ i a b, bfs f !! i = Some a → bfs g !! i = Some b → BF.can_intersect a b = true.
Proof using. apply forallb_zip. Qed.
Lemma filter_overlaps_sound i : instr_wf i → matches f i = true → matches g i = true → overlaps f g = true.
Proof using Hf Hg.
  intros Hi H1 H2. apply filter_overlaps_iff. intros k a b Ha Hb. unfold matches in *.
  rewrite matches_bytes_iff in H1, H2. specialize (H1 k a Ha). specialize (H2 k b Hb).
  assert (bf_wf a) as Wa by (by eapply Forall_lookup_1 in Ha). assert (bf_wf b) as Wb by (by eapply Forall_lookup_1 in Hb).
  destruct (Instr.bytes i !! k) as [x|] eqn:Ex; cbn in *.
  - apply can_intersect_matches; [done..|]. exists x. split; [by eapply instr_byte|]. done.
  - rewrite can_intersect_iff by done. rewrite matches_anything_iff in H1 by done. intros j Hj Hm.
    by rewrite H1 in Hm.
Qed.
Lemma filter_overlaps_complete : (len f <= 15)%nat → (len g <= 15)%nat → overlaps f g = true →
  ∃ i, instr_wf i ∧ matches f i = true ∧ matches g i = true.
Proof using Hf Hg.
  intros Hlf Hlg Ho. rewrite filter_overlaps_iff in Ho.
  destruct (instr_of_bytes (common (bfs f) (bfs g))) as (i & Hi & Hb).
  { by apply common_bytes. }
  { rewrite length_common. unfold len in *. lia. }
  exists i. split; [done|]. unfold matches. rewrite Hb. split; [by apply common_matches|].
  rewrite common_sym. apply common_matches; [done..|]. intros k a b Ha Hb'. rewrite can_intersect_sym. eauto.
Qed.
End filters2.

(** [covers] and [overlaps] decide inclusion and intersection of the sets of
    instructions that two filters match: [covers] is sound, and complete when the
    first filter is not longer; [overlaps] holds exactly when some instruction
    matches both filters. *)
Theorem filter_covers_overlaps f g : filter_wf f → filter_wf g → (len f <= 15)%nat → (len g <= 15)%nat →
  (covers f g = true → ∀ i, instr_wf i → matches g i = true → matches f i = true) ∧
  ((len f <= len g)%nat → (∀ i, instr_wf i → matches g i = true → matches f i = true) → covers f g = true) ∧
  (overlaps f g = true ↔ ∃ i, instr_wf i ∧ matches f i = true ∧ matches g i = true).
Proof.
  intros Hf Hg Hlf Hlg. split_and!.
  - intros Hc i Hi. by apply filter_covers_sound.
  - intros Hle. apply filter_covers_complete; [done..|lia].
  - split; [by apply filter_overlaps_complete|]. intros (i & Hi & H1 & H2). by eapply filter_overlaps_sound.
Qed.

(** ** Intersection *)

Lemma intersect_at {P : profile} a b m x : bf_wf a → bf_wf b → BF.can_intersect a b = true →
  BF.intersect a b = Ok m → (∀ y, x = Some y → is_byte y) →
  matches_at m x = true ↔ matches_at a x = true ∧ matches_at b x = true.
Proof.
  intros Ha Hb Hc Hm Hx. destruct (intersect_result a b Ha Hb Hc) as (m' & Hm' & Wm & Hmm).
  rewrite Hm in Hm'. apply (inj Ok) in Hm' as <-. destruct x as [y|]; cbn [matches_at]; [by apply Hmm, Hx|].
  rewrite !matches_anything_iff by done.
  assert (mask m = Z.lor (mask a) (mask b)) as -> by (unfold BF.intersect in Hm; M_inv Hm; by apply (inj Ok) in Hm as <-).
  setoid_rewrite Z.lor_spec. setoid_rewrite orb_false_iff. naive_solver.
Qed.

(** [intersect] of two overlapping filters of one length matches exactly the
    instructions that both match; it panics for different lengths. *)
Theorem filter_intersect_spec {P : profile} f g : filter_wf f → filter_wf g → overlaps f g = true →
  (len f = len g → ∃ r, intersect f g = Ok r ∧ filter_wf r ∧ len r = len f ∧
     ∀ i, instr_wf i → matches r i = true ↔ matches f i = true ∧ matches g i = true) ∧
  (len f ≠ len g → intersect f g = Panic).
Proof.
  intros Hf Hg Ho. rewrite filter_overlaps_iff in Ho. unfold intersect, len in *. split.
  2:{ intros Hne. by rewrite (proj2 (Nat.eqb_neq _ _) Hne). }
  intros Hlen. rewrite (proj2 (Nat.eqb_eq _ _) Hlen). cbn [rassert]. rewrite M_bind_Ok.
  assert (∀ k a b, bfs f !! k = Some a → bfs g !! k = Some b → bf_wf a ∧ bf_wf b) as Hwf
    by (intros k a b Ha Hb; split; [by eapply Forall_lookup_1 in Ha | by eapply Forall_lookup_1 in Hb]).
  destruct (mapM_exists (λ '(a, b), BF.intersect a b) (zip (bfs f) (bfs g))) as [r Hr].
  { intros [a b] (k & Hk)%list_elem_of_lookup_1. apply lookup_zip_Some in Hk as [Ha Hb].
    destruct (Hwf k a b Ha Hb) as [Wa Wb]. destruct (intersect_result a b Wa Wb (Ho k a b Ha Hb)) as (m & Hm & _). eauto. }
  rewrite Hr, M_bind_Ok. eexists; split; [done|]. apply mapM_Forall2 in Hr. cbn [bfs].
  pose proof (Forall2_length _ _ _ Hr) as Hl. rewrite length_zip in Hl.
  assert (∀ k m, r !! k = Some m → ∃ a b, bfs f !! k = Some a ∧ bfs g !! k = Some b ∧ BF.intersect a b = Ok m) as Hrk.
  { intros k m Hk. destruct (Forall2_lookup_r _ _ _ _ _ Hr Hk) as ([a b] & Hab & Hm).
    apply lookup_zip_Some in Hab as [Ha Hb]. eauto. }
  split_and!; [| lia |].
  - apply Forall_lookup. intros k m Hk. destruct (Hrk k m Hk) as (a & b & Ha & Hb & Hm).
    destruct (Hwf k a b Ha Hb) as [Wa Wb]. destruct (intersect_result a b Wa Wb (Ho k a b Ha Hb)) as (m' & Hm' & Wm & _).
    rewrite Hm in Hm'. by apply (inj Ok) in Hm' as <-.
  - intros i Hi. unfold matches. rewrite !matches_bytes_iff. cbn [bfs].
    assert (∀ k a b m, bfs f !! k = Some a → bfs g !! k = Some b → BF.intersect a b = Ok m →
      matches_at m (Instr.bytes i !! k) = true ↔
      matches_at a (Instr.bytes i !! k) = true ∧ matches_at b (Instr.bytes i !! k) = true) as Hat.
    { intros k a b m Ha Hb Hm. destruct (Hwf k a b Ha Hb). apply intersect_at; eauto using instr_byte. }
    split.
    + intros H. assert (∀ k a b, bfs f !! k = Some a → bfs g !! k = Some b →
        matches_at a (Instr.bytes i !! k) = true ∧ matches_at b (Instr.bytes i !! k) = true) as H'.
      { intros k a b Ha Hb. destruct (lookup_lt_is_Some_2 r k) as [m Hm].
        { apply lookup_lt_Some in Ha, Hb. lia. }
        destruct (Hrk k m Hm) as (a' & b' & Ha' & Hb' & Hm'). rewrite Ha in Ha'. rewrite Hb in Hb'.
        injection Ha' as <-. injection Hb' as <-. apply (Hat k a b m); auto. }
      split; intros k c Hc.
      * destruct (lookup_lt_is_Some_2 (bfs g) k) as [b Hb]; [apply lookup_lt_Some in Hc; lia|]. by apply (H' k c b).
      * destruct (lookup_lt_is_Some_2 (bfs f) k) as [a Ha]; [apply lookup_lt_Some in Hc; lia|]. by apply (H' k a c).
    + intros [H1 H2] k m Hk. destruct (Hrk k m Hk) as (a & b & Ha & Hb & Hm). apply (Hat k a b m); auto.
Qed.

(** ** Witnesses *)

(** A decidable form of [bf_wf], for concrete filters. *)
Definition bf_check (f : ByteFilter) : bool :=
  ((0 <=? mask f) && (mask f <? 256) && (0 <=? value f) && (value f <? 256) &&
   (Z.land (value f) (not_u 8 (mask f)) =? 0))%Z.
Lemma bf_check_wf f : bf_check f = true → bf_wf f.
Proof.
  unfold bf_check. rewrite !andb_true_iff, !Z.leb_le, !Z.ltb_lt, Z.eqb_eq. intros ((((? & ?) & ?) & ?) & Hz).
  split; [split; done..|]. intros j Hj Hv. apply (f_equal (λ z, Z.testbit z j)) in Hz.
  rewrite Z.land_spec, testbit_not_u, Z.bits_0, Hv in Hz by done. by destruct (Z.testbit (mask f) j).
Qed.
Lemma filter_check_wf f : forallb bf_check (bfs f) = true → filter_wf f.
Proof.
  intros H. apply Forall_forall. intros b Hb. apply bf_check_wf. rewrite List.forallb_forall in H.
  by apply H, list_elem_of_In.
Qed.
Ltac filter_wf := apply filter_check_wf; vm_compute; reflexivity.

Lemma byte_filter_set_semantics_witness :
  bf_result (BF.merge (P:=Dev) {| mask := 0xff; value := 0x48 |} {| mask := 0xff; value := 0x4c |})
    (λ x, x = 0x48 ∨ x = 0x4c).
Proof.
  destruct (byte_filter_set_semantics (P:=Dev) {| mask := 0xff; value := 0x48 |} {| mask := 0xff; value := 0x4c |})
    as (_ & _ & _ & H & _); [by apply bf_check_wf..|].
  destruct (H ltac:(vm_compute; reflexivity)) as (r & Hr & Wr & Hm). exists r. split; [done|]. split; [done|].
  intros x Hx. rewrite (Hm x Hx). unfold BF.matches. cbn [mask value]. rewrite !Z.eqb_eq.
  change 0xff with (Z.ones 8). rewrite Z.land_ones, Z.mod_small by (done || lia). done.
Defined.
Lemma filter_covers_overlaps_witness :
  covers {| bfs := [{| mask := 0xf0; value := 0x40 |}] |} {| bfs := [{| mask := 0xff; value := 0x48 |}; {| mask := 0; value := 0 |}] |} = true ∧
  matches {| bfs := [{| mask := 0xf0; value := 0x40 |}] |} (example_instr [0x48; 0x31; 0xd0]) = true.
Proof.
  assert (covers {| bfs := [{| mask := 0xf0; value := 0x40 |}] |}
    {| bfs := [{| mask := 0xff; value := 0x48 |}; {| mask := 0; value := 0 |}] |} = true) as Hc by (vm_compute; reflexivity).
  split; [exact Hc|]. refine (proj1 (filter_covers_overlaps _ {| bfs := [{| mask := 0xff; value := 0x48 |}; {| mask := 0; value := 0 |}] |} _ _ _ _) Hc _ _ _);
    [filter_wf | filter_wf | cbn; lia | cbn; lia | example_wf | vm_compute; reflexivity].
Defined.
Lemma filter_intersect_spec_witness : ∃ r,
  intersect (P:=Dev) {| bfs := [{| mask := 0xf0; value := 0x40 |}] |} {| bfs := [{| mask := 0x0f; value := 0x08 |}] |} = Ok r ∧
  matches r (example_instr [0x48; 0x31; 0xd0]) = true ∧ matches r (example_instr [0x49]) = false.
Proof.
  destruct (filter_intersect_spec (P:=Dev) {| bfs := [{| mask := 0xf0; value := 0x40 |}] |} {| bfs := [{| mask := 0x0f; value := 0x08 |}] |})
    as [H _]; [filter_wf | filter_wf | vm_compute; reflexivity |].
  destruct (H eq_refl) as (r & Hr & _ & _ & Hm). exists r. split; [exact Hr|]. split.
  - apply Hm; [example_wf | split; vm_compute; reflexivity].
  - apply not_true_iff_false. rewrite Hm by example_wf. intros [_ Hn]. by vm_compute in Hn.
Defined.
