(* ===== verification/MergeFacts.v ===== *)
(** * Merging and excluding filters

    [try_merge] is a union, [try_exclude] a difference, and [merge_filters]
    keeps the set of instructions that a list of filters matches, ends, and
    leaves no pair that can still be merged. *)
From Stdlib Require Import Sorting.Sorted.
From S2P Require Import Prelude MachInt Utils Instruction InstructionFacts Filter FilterFacts.
Import Filter.

(** ** One byte filter replaced *)

Lemma matches_bytes_insert l k c b : (k < length l)%nat →
  matches_bytes (<[k:=c]> l) b = true ↔
  matches_at c (b !! k) = true ∧ ∀ j a, j ≠ k → l !! j = Some a → matches_at a (b !! j) = true.
Proof.
  intros Hk. rewrite matches_bytes_iff. split.
  - intros H. split; [by apply (H k), list_lookup_insert_eq|]. intros j a Hne Hj. apply (H j).
    by rewrite list_lookup_insert_ne.
  - intros [Hc H] j a. destruct (decide (j = k)) as [->|Hne].
    + rewrite list_lookup_insert_eq by done. by intros [= <-].
    + rewrite list_lookup_insert_ne by done. by apply H.
Qed.
Lemma matches_split f k a i : bfs f !! k = Some a →
  matches f i = true ↔
  matches_at a (Instr.bytes i !! k) = true ∧
  ∀ j a, j ≠ k → bfs f !! j = Some a → matches_at a (Instr.bytes i !! j) = true.
Proof.
  intros Ha. rewrite <- (matches_bytes_insert (bfs f) k a (Instr.bytes i)) by (by eapply lookup_lt_Some).
  by rewrite list_insert_id.
Qed.
Lemma filter_wf_insert f k m : filter_wf f → bf_wf m → filter_wf {| bfs := <[k:=m]> (bfs f) |}.
Proof. intros. by apply Forall_insert. Qed.
Lemma wf_lookup f k a : filter_wf f → bfs f !! k = Some a → bf_wf a.
Proof. intros Hf Hk. by eapply Forall_lookup_1 in Hk. Qed.

(** ** [try_merge] *)

(** The filters differ in one byte only, where they can be merged. *)
Definition mergeable_at (l : list (ByteFilter * ByteFilter)) (k : nat) : Prop :=
  (∃ a b, l !! k = Some (a, b) ∧ BF.can_merge a b = true) ∧
  ∀ j a b, j ≠ k → l !! j = Some (a, b) → a = b.

Lemma forallb_eq l : forallb (λ '(a, b), bool_decide (a = b)) l = true ↔
  ∀ j (a b : ByteFilter), l !! j = Some (a, b) → a = b.
Proof.
  rewrite List.forallb_forall. split.
  - intros H j a b Hj. apply list_elem_of_lookup_2, list_elem_of_In, H in Hj. by apply bool_decide_eq_true in Hj.
  - intros H [a b] (j & Hj)%list_elem_of_In%list_elem_of_lookup_1. apply bool_decide_eq_true. eauto.
Qed.
Lemma can_merge_refl a : BF.can_merge a a = false.
Proof. unfold BF.can_merge. by rewrite !Z.eqb_refl. Qed.

Lemma mergeable_at_0 a b l :
  mergeable_at ((a, b) :: l) 0 ↔ BF.can_merge a b = true ∧ forallb (λ '(a, b), bool_decide (a = b)) l = true.
Proof.
  rewrite forallb_eq. split.
  - intros [(x & y & [= <- <-] & Hm) He]. split; [done|]. intros j x y Hj. by apply (He (S j)).
  - intros [Hm He]. split; [eauto|]. intros [|j] x y Hne Hj; [done|]. by apply (He j).
Qed.
Lemma mergeable_at_S a b l k : mergeable_at ((a, b) :: l) (S k) ↔ a = b ∧ mergeable_at l k.
Proof.
  split.
  - intros [H He]. split; [by apply (He 0%nat)|]. split; [done|]. intros j x y Hne Hj. apply (He (S j)); [lia|done].
  - intros [-> [H He]]. split; [done|]. intros [|j] x y Hne Hj; [by injection Hj as <- <-|]. apply (He j); [lia|done].
Qed.
Lemma merge_index_Some l : ∀ s i, merge_index l s = Some i → ∃ k, i = (s + k)%nat ∧ mergeable_at l k.
Proof.
  induction l as [|[a b] l IH]; intros s i; cbn [merge_index]; [done|].
  destruct (BF.can_merge a b && _) eqn:E.
  - intros [= <-]. exists 0%nat. split; [lia|]. apply mergeable_at_0. by apply andb_true_iff in E.
  - case_bool_decide as Hab; cbn [negb]; [|done]. intros (k & -> & Hk)%IH. exists (S k). split; [lia|].
    by apply mergeable_at_S.
Qed.
Lemma merge_index_complete l : ∀ s k, mergeable_at l k → is_Some (merge_index l s).
Proof.
  induction l as [|[a b] l IH]; intros s k Hk; cbn [merge_index]; [by destruct Hk as [(? & ? & ? & _) _]|].
  destruct (BF.can_merge a b && _) eqn:E; [by eexists|]. destruct k as [|k].
  - apply mergeable_at_0 in Hk as [H1 H2]. by rewrite H1, H2 in E.
  - apply mergeable_at_S in Hk as [-> Hk]. rewrite bool_decide_eq_true_2 by done. by apply (IH (S s) k).
Qed.

Lemma merge_mask {P : profile} a b m : BF.merge a b = Ok m →
  mask m = Z.land (mask a) (not_u 8 (Z.land (Z.lxor (value a) (value b)) (mask b))).
Proof. unfold BF.merge. intros H. M_inv H. by apply (inj Ok) in H as <-. Qed.
Lemma check_all_ok {P : profile} l : Forall bf_wf l → check_all l = Ok tt.
Proof. induction 1 as [|a l Ha _ IH]; [done|]. cbn [check_all]. by rewrite consistency_check_ok, M_bind_Ok. Qed.

(** What [try_merge] promises about the filter it returns. *)
Record merged (f g m : InstructionFilter) : Prop := {
  merged_wf : filter_wf m;
  merged_len_l : len m = len f;
  merged_len_r : len m = len g;
  merged_upper : ∀ i, instr_wf i → matches f i = true ∨ matches g i = true → matches m i = true;
  merged_union : ∀ i, instr_wf i → (len m <= Instr.byte_len i)%nat →
    matches m i = true → matches f i = true ∨ matches g i = true;
}.

Section try_merge.
Context {P : profile} (f g : InstructionFilter) (Hf : filter_wf f) (Hg : filter_wf g).

Lemma merge_at_iff a b m x : bf_wf a → bf_wf b → BF.can_merge a b = true → BF.merge a b = Ok m →
  (∀ y, x = Some y → is_byte y) →
  (matches_at a x = true ∨ matches_at b x = true → matches_at m x = true) ∧
  (is_Some x → matches_at m x = true → matches_at a x = true ∨ matches_at b x = true).
Proof using.
  intros Ha Hb Hc Hm Hx. destruct (merge_result a b Ha Hb Hc) as (m' & Hm' & Wm & Hmm).
  rewrite Hm in Hm'. apply (inj Ok) in Hm' as <-. destruct x as [y|]; cbn [matches_at].
  - specialize (Hmm y (Hx y eq_refl)). split; [|intros _]; by rewrite Hmm.
  - split; [|by intros []]. destruct (can_merge_iff a b Ha Hb Hc) as [Hab _].
    unfold BF.matches_anything. rewrite (merge_mask _ _ _ Hm), <- Hab, !Z.eqb_eq.
    intros [->| ->]; by rewrite Z.land_0_l.
Qed.
Lemma merged_insert k a b m : len f = len g → mergeable_at (zip (bfs f) (bfs g)) k →
  bfs f !! k = Some a → bfs g !! k = Some b → BF.can_merge a b = true → BF.merge a b = Ok m →
  bf_wf m → merged f g {| bfs := <[k:=m]> (bfs f) |}.
Proof using Hf Hg.
  intros Hlen [_ He] Ha Hb Hc Hm Wm. pose proof (lookup_lt_Some _ _ _ Ha) as Hk.
  assert (∀ j x, j ≠ k → bfs f !! j = Some x ↔ bfs g !! j = Some x) as Heq.
  { intros j x Hne. split; intros Hx.
    - destruct (lookup_lt_is_Some_2 (bfs g) j) as [y Hy]; [apply lookup_lt_Some in Hx; unfold len in Hlen; lia|].
      rewrite Hy. f_equal. symmetry. apply (He j x y Hne). by apply lookup_zip_Some.
    - destruct (lookup_lt_is_Some_2 (bfs f) j) as [y Hy]; [apply lookup_lt_Some in Hx; unfold len in Hlen; lia|].
      rewrite Hy. f_equal. apply (He j y x Hne). by apply lookup_zip_Some. }
  assert (∀ i, matches {| bfs := <[k:=m]> (bfs f) |} i = true ↔
    matches_at m (Instr.bytes i !! k) = true ∧
    ∀ j a, j ≠ k → bfs f !! j = Some a → matches_at a (Instr.bytes i !! j) = true) as Hmi.
  { intros i. by apply matches_bytes_insert. }
  assert (∀ i, instr_wf i → (∀ y, Instr.bytes i !! k = Some y → is_byte y)) as Hby by eauto using instr_byte.
  pose proof (wf_lookup f k a Hf Ha) as Wa. pose proof (wf_lookup g k b Hg Hb) as Wb.
  split; [by apply filter_wf_insert | apply length_insert | unfold len in *; cbn; by rewrite length_insert | |].
  - intros i Hi Hor. destruct (merge_at_iff a b m _ Wa Wb Hc Hm (Hby i Hi)) as [Hup _]. apply Hmi.
    destruct Hor as [H|H]; [rewrite (matches_split f k a) in H by done | rewrite (matches_split g k b) in H by done];
      destruct H as [H1 H2]; split; auto. intros j x Hne Hx. apply (H2 j x Hne). by apply Heq.
  - intros i Hi Hl [H1 H2]%Hmi. destruct (merge_at_iff a b m _ Wa Wb Hc Hm (Hby i Hi)) as [_ Hdn].
    rewrite (matches_split f k a), (matches_split g k b) by done. destruct Hdn as [H|H]; [|done|by left|right].
    { apply lookup_lt_is_Some_2. unfold len, Instr.byte_len in Hl. cbn in Hl. rewrite length_insert in Hl. lia. }
    split; [done|]. intros j x Hne Hx. apply (H2 j x Hne). by apply Heq.
Qed.

Lemma try_merge_result : ∃ r, try_merge f g = Ok r ∧
  match r with
  | Some m => merged f g m
  | None => len f ≠ len g ∨ ∀ k, ¬ mergeable_at (zip (bfs f) (bfs g)) k
  end.
Proof using Hf Hg.
  unfold try_merge, len. destruct (Nat.eqb_spec (length (bfs f)) (length (bfs g))) as [Hlen|Hne]; cbn [negb].
  2:{ exists None. eauto. }
  rewrite !check_all_ok, !M_bind_Ok by done. destruct (merge_index _ 0) as [i|] eqn:E.
  - apply merge_index_Some in E as (k & -> & Hk). destruct Hk as [(a & b & Hab & Hc) He].
    pose proof Hab as [Ha Hb]%lookup_zip_Some.
    pose proof (wf_lookup f k a Hf Ha) as Wa. pose proof (wf_lookup g k b Hg Hb) as Wb.
    destruct (merge_result a b Wa Wb Hc) as (m & Hm & Wm & _). cbn [Nat.add].
    rewrite (proj2 (vget_Ok_inv _ _ a) Ha), M_bind_Ok, (proj2 (vget_Ok_inv _ _ b) Hb), M_bind_Ok, Hm, M_bind_Ok,
      vset_lt, M_bind_Ok by (by eapply lookup_lt_Some).
    eexists; split; [done|]. cbv beta iota. eapply (merged_insert k a b); eauto. by split; [eauto|].
  - exists None. split; [done|]. right. intros k Hk. apply (merge_index_complete _ 0) in Hk as [? ?]. congruence.
Qed.
End try_merge.

(** [try_merge] never panics on well-formed filters.  A filter it returns is
    well-formed, of the same length, and matches exactly the instructions that
    one of the two matches, among the instructions that are not shorter than the
    filter (a shorter one may match the merged filter only); [None] means that the
    lengths differ or that no single byte accounts for the difference. *)
Theorem try_merge_spec {P : profile} f g : filter_wf f → filter_wf g → ∃ r, try_merge f g = Ok r ∧
  match r with
  | Some m => filter_wf m ∧ len m = len f ∧ len m = len g ∧
      (∀ i, instr_wf i → matches f i = true ∨ matches g i = true → matches m i = true) ∧
      (∀ i, instr_wf i → (len m <= Instr.byte_len i)%nat →
         matches m i = true → matches f i = true ∨ matches g i = true)
  | None => len f ≠ len g ∨ ∀ k, ¬ mergeable_at (zip (bfs f) (bfs g)) k
  end.
Proof.
  intros Hf Hg. destruct (try_merge_result f g Hf Hg) as (r & Hr & H). exists r. split; [done|].
  destruct r as [m|]; [|done]. destruct H. auto.
Qed.

(** ** [try_exclude] *)

(** [other] covers [self] in every byte but one, where it can be excluded. *)
Definition excludable_at (l : list (ByteFilter * ByteFilter)) (k : nat) : Prop :=
  (∃ a b, l !! k = Some (a, b) ∧ BF.can_exclude a b = true) ∧
  ∀ j a b, j ≠ k → l !! j = Some (a, b) → BF.covers b a = true.

Lemma can_exclude_covers a b : BF.can_exclude a b = true → BF.covers b a = false.
Proof. unfold BF.can_exclude. by destruct (BF.covers b a). Qed.
Lemma forallb_covers l : forallb (λ '(a, b), BF.covers b a) l = true ↔
  ∀ j a b, l !! j = Some (a, b) → BF.covers b a = true.
Proof.
  rewrite List.forallb_forall. split.
  - intros H j a b Hj. by apply list_elem_of_lookup_2, list_elem_of_In, H in Hj.
  - intros H [a b] (j & Hj)%list_elem_of_In%list_elem_of_lookup_1. eauto.
Qed.
Lemma excludable_at_0 a b l :
  excludable_at ((a, b) :: l) 0 ↔ BF.can_exclude a b = true ∧ forallb (λ '(a, b), BF.covers b a) l = true.
Proof.
  rewrite forallb_covers. split.
  - intros [(x & y & [= <- <-] & Hm) He]. split; [done|]. intros j x y Hj. by apply (He (S j)).
  - intros [Hm He]. split; [eauto|]. intros [|j] x y Hne Hj; [done|]. by apply (He j).
Qed.
Lemma excludable_at_S a b l k : excludable_at ((a, b) :: l) (S k) ↔ BF.covers b a = true ∧ excludable_at l k.
Proof.
  split.
  - intros [H He]. split; [by apply (He 0%nat)|]. split; [done|]. intros j x y Hne Hj. apply (He (S j)); [lia|done].
  - intros [Hc [H He]]. split; [done|]. intros [|j] x y Hne Hj; [by injection Hj as <- <-|]. apply (He j); [lia|done].
Qed.
Lemma exclude_index_Some l : ∀ s i, exclude_index l s None = Some i → ∃ k, i = (s + k)%nat ∧ excludable_at l k.
Proof.
  induction l as [|[a b] l IH]; intros s i; cbn [exclude_index]; [done|].
  destruct (BF.can_exclude a b) eqn:E; cbn [andb].
  - rewrite can_exclude_covers by done. cbn [negb]. case_match eqn:Hl; [|done]. intros [= <-]. exists 0%nat.
    split; [lia|]. by apply excludable_at_0.
  - destruct (BF.covers b a) eqn:Hc; cbn [negb]; [|done]. intros (k & -> & Hk)%IH. exists (S k). split; [lia|].
    by apply excludable_at_S.
Qed.
Lemma exclude_index_complete l : ∀ s k, excludable_at l k → is_Some (exclude_index l s None).
Proof.
  induction l as [|[a b] l IH]; intros s k Hk; cbn [exclude_index]; [by destruct Hk as [(? & ? & ? & _) _]|].
  destruct k as [|k].
  - apply excludable_at_0 in Hk as [H1 H2]. rewrite can_exclude_covers, H1, H2 by done. by eexists.
  - apply excludable_at_S in Hk as [Hc Hk]. destruct (BF.can_exclude a b) eqn:E.
    + apply can_exclude_covers in E. congruence.
    + rewrite Hc. by apply (IH (S s) k).
Qed.

Section try_exclude.
Context {P : profile} (f g : InstructionFilter) (Hf : filter_wf f) (Hg : filter_wf g).

Lemma exclude_at_iff a b m x : bf_wf a → bf_wf b → BF.can_exclude a b = true → BF.exclude a b = Ok m →
  (∀ y, x = Some y → is_byte y) →
  (matches_at m x = true → matches_at a x = true ∧ matches_at b x = false) ∧
  (is_Some x → matches_at a x = true → matches_at b x = false → matches_at m x = true).
Proof using.
  intros Ha Hb Hc Hm Hx. destruct (exclude_result a b Ha Hb Hc) as (m' & Hm' & Wm & Hmm).
  rewrite Hm in Hm'. apply (inj Ok) in Hm' as <-. destruct x as [y|]; cbn [matches_at].
  - specialize (Hmm y (Hx y eq_refl)). rewrite Hmm. tauto.
  - split; [|by intros []]. destruct (can_exclude_iff a b Ha Hb Hc) as (k & Hk & Hak & Hbk & _).
    rewrite matches_anything_iff by done.
    assert (mask m = Z.lor (mask a) (Z.land (not_u 8 (mask a)) (mask b))) as ->
      by (unfold BF.exclude in Hm; M_inv Hm; by apply (inj Ok) in Hm as <-).
    intros H. specialize (H k Hk). by rewrite Z.lor_spec, Z.land_spec, testbit_not_u, Hak, Hbk in H by done.
Qed.
(** Where [other] covers [self], a match of [self] is a match of [other]. *)
Lemma rest_covered k i : instr_wf i → len f = len g → excludable_at (zip (bfs f) (bfs g)) k →
  (∀ j a, j ≠ k → bfs f !! j = Some a → matches_at a (Instr.bytes i !! j) = true) →
  ∀ j b, j ≠ k → bfs g !! j = Some b → matches_at b (Instr.bytes i !! j) = true.
Proof using Hf Hg.
  intros Hi Hlen [_ Hcov] H j b Hne Hb.
  destruct (lookup_lt_is_Some_2 (bfs f) j) as [a Ha]; [apply lookup_lt_Some in Hb; unfold len in Hlen; lia|].
  apply (covers_at_sound b a); eauto using wf_lookup, instr_byte. apply (Hcov j a b Hne). by apply lookup_zip_Some.
Qed.

Lemma excluded_insert k a b m : len f = len g → excludable_at (zip (bfs f) (bfs g)) k →
  bfs f !! k = Some a → bfs g !! k = Some b → BF.can_exclude a b = true → BF.exclude a b = Ok m →
  let r := {| bfs := <[k:=m]> (bfs f) |} in
  (∀ i, instr_wf i → matches r i = true → matches f i = true ∧ matches g i = false) ∧
  (∀ i, instr_wf i → (len f <= Instr.byte_len i)%nat →
     matches f i = true → matches g i = false → matches r i = true).
Proof using Hf Hg.
  intros Hlen Hex Ha Hb Hc Hm r. pose proof (lookup_lt_Some _ _ _ Ha) as Hk.
  pose proof (wf_lookup f k a Hf Ha) as Wa. pose proof (wf_lookup g k b Hg Hb) as Wb.
  assert (∀ i, instr_wf i → (∀ y, Instr.bytes i !! k = Some y → is_byte y)) as Hby by eauto using instr_byte.
  split; intros i Hi; rewrite <- not_true_iff_false, (matches_split f k a), (matches_split g k b) by done;
    unfold matches; cbn [bfs r]; rewrite matches_bytes_insert by done;
    destruct (exclude_at_iff a b m _ Wa Wb Hc Hm (Hby i Hi)) as [H1 H2].
  - intros [Hmk Hrest]. destruct (H1 Hmk) as [Hak Hbk]. split; [done|]. intros [Hbk' _]. congruence.
  - intros Hl [Hak Hrest] Hng. split; [|done]. apply H2; [|done|].
    + apply lookup_lt_is_Some_2. unfold len, Instr.byte_len in Hl. lia.
    + apply not_true_iff_false. intros Hbk. apply Hng. split; [done|]. by apply (rest_covered k).
Qed.
End try_exclude.

(** The excluded bit is a wildcard that gets a value. *)
Lemma filter_length_mono {A} (p q : A → bool) l : (∀ x, p x = true → q x = true) → (length (List.filter p l) <= length (List.filter q l))%nat.
Proof.
  intros Hpq. induction l as [|x l IH]; [done|]. cbn [List.filter]. destruct (p x) eqn:E; [rewrite (Hpq x E); cbn [length]; lia|].
  destruct (q x); cbn [length]; lia.
Qed.
Lemma filter_length_lt {A} (p q : A → bool) l x : (∀ x, p x = true → q x = true) → x ∈ l → p x = false → q x = true →
  (length (List.filter p l) < length (List.filter q l))%nat.
Proof.
  intros Hpq Hx Hp Hq. induction l as [|y l IH]; [by apply not_elem_of_nil in Hx|]. cbn [List.filter].
  pose proof (filter_length_mono p q l Hpq). apply elem_of_cons in Hx as [->|Hx].
  - rewrite Hp, Hq. cbn [length]. lia.
  - specialize (IH Hx). destruct (p y) eqn:E; [rewrite (Hpq y E); cbn [length]; lia|]. destruct (q y); cbn [length]; lia.
Qed.
Lemma exclude_wildcards {P : profile} a b m : bf_wf a → bf_wf b → BF.can_exclude a b = true → BF.exclude a b = Ok m →
  (BF.num_wildcard_bits m < BF.num_wildcard_bits a)%nat.
Proof.
  intros Ha Hb Hc Hm. destruct (can_exclude_iff a b Ha Hb Hc) as (k & Hk & Hak & Hbk & _).
  assert (mask m = Z.lor (mask a) (Z.land (not_u 8 (mask a)) (mask b))) as Em
    by (unfold BF.exclude in Hm; M_inv Hm; by apply (inj Ok) in Hm as <-).
  unfold BF.num_wildcard_bits, count_zeros. pose proof (count_ones_le 8 (mask m)).
  enough (count_ones 8 (mask a) < count_ones 8 (mask m))%nat by lia. rewrite Em. unfold count_ones, ones.
  apply (filter_length_lt _ _ _ (Z.to_nat k)).
  - intros j Hj. by rewrite Z.lor_spec, Hj.
  - rewrite list_elem_of_In, List.in_seq. lia.
  - by rewrite Z2Nat.id by lia.
  - rewrite Z2Nat.id, Z.lor_spec, Z.land_spec, testbit_not_u, Hak, Hbk by lia. done.
Qed.
Lemma sum_insert (f : ByteFilter → nat) l k a m : l !! k = Some a → (f m < f a)%nat → (sum_list (f <$> <[k := m]> l) < sum_list (f <$> l))%nat.
Proof.
  revert k. induction l as [|x l IH]; intros [|k] Hk Hf; cbn in Hk; [done..|injection Hk as ->|].
  - cbn. lia.
  - apply Nat.add_lt_mono_l, (IH k Hk Hf).
Qed.
Lemma try_exclude_result {P : profile} f g : filter_wf f → filter_wf g → ∃ r, try_exclude f g = Ok r ∧
  match r with
  | Some m => filter_wf m ∧ len m = len f ∧ (num_wildcard_bits m < num_wildcard_bits f)%nat ∧
      (∀ i, instr_wf i → matches m i = true → matches f i = true ∧ matches g i = false) ∧
      (∀ i, instr_wf i → (len m <= Instr.byte_len i)%nat →
         matches f i = true → matches g i = false → matches m i = true)
  | None => len f ≠ len g ∨ ∀ k, ¬ excludable_at (zip (bfs f) (bfs g)) k
  end.
Proof.
  intros Hf Hg. unfold try_exclude, len.
  destruct (Nat.eqb_spec (length (bfs f)) (length (bfs g))) as [Hlen|Hne]; cbn [negb]; [|exists None; eauto].
  destruct (exclude_index _ 0 None) as [i|] eqn:E.
  - apply exclude_index_Some in E as (k & -> & Hk). pose proof Hk as [(a & b & Hab & Hc) _].
    pose proof Hab as [Ha Hb]%lookup_zip_Some.
    pose proof (wf_lookup f k a Hf Ha) as Wa. pose proof (wf_lookup g k b Hg Hb) as Wb.
    destruct (exclude_result a b Wa Wb Hc) as (m & Hm & Wm & _). cbn [Nat.add].
    rewrite (proj2 (vget_Ok_inv _ _ a) Ha), M_bind_Ok, (proj2 (vget_Ok_inv _ _ b) Hb), M_bind_Ok, Hm, M_bind_Ok,
      vset_lt, M_bind_Ok by (by eapply lookup_lt_Some).
    destruct (excluded_insert f g Hf Hg k a b m Hlen Hk Ha Hb Hc Hm) as [H1 H2].
    eexists; split; [done|]. cbv beta iota. cbn [bfs]. rewrite length_insert.
    split_and!; [by apply filter_wf_insert | done | | done | done].
    unfold num_wildcard_bits. cbn [bfs]. by apply (sum_insert _ _ _ a); [|apply (exclude_wildcards a b)].
  - exists None. split; [done|]. right. intros k Hk. apply (exclude_index_complete _ 0) in Hk as [? ?]. congruence.
Qed.

(** [try_exclude] never panics on well-formed filters.  A filter it returns is
    well-formed, of the same length, and matches exactly the instructions that
    [self] matches and [other] does not, among the instructions that are not
    shorter than the filter (a shorter one may be lost); [None] means that the
    lengths differ or that the difference is not a single filter of this form. *)
Theorem try_exclude_spec {P : profile} f g : filter_wf f → filter_wf g → ∃ r, try_exclude f g = Ok r ∧
  match r with
  | Some m => filter_wf m ∧ len m = len f ∧
      (∀ i, instr_wf i → matches m i = true → matches f i = true ∧ matches g i = false) ∧
      (∀ i, instr_wf i → (len m <= Instr.byte_len i)%nat →
         matches f i = true → matches g i = false → matches m i = true)
  | None => len f ≠ len g ∨ ∀ k, ¬ excludable_at (zip (bfs f) (bfs g)) k
  end.
Proof.
  intros Hf Hg. destruct (try_exclude_result f g Hf Hg) as (r & E & H). exists r. split; [done|]. destruct r; [|done].
  destruct H as (? & ? & _ & ? & ?). done.
Qed.

(** ** [merge_filters] *)

(** One list of filters stands for the same instructions as another. *)
Record kept (fs fs' : list InstructionFilter) : Prop := {
  kept_wf : Forall filter_wf fs → Forall filter_wf fs';
  kept_count : (length fs' <= length fs)%nat;
  kept_len : ∀ f', f' ∈ fs' → ∃ f, f ∈ fs ∧ len f' = len f ∧ (∀ i, instr_wf i → matches f i = true → matches f' i = true);
  kept_upper : Forall filter_wf fs → ∀ i f, instr_wf i → f ∈ fs → matches f i = true →
    ∃ f', f' ∈ fs' ∧ matches f' i = true;
  kept_union : Forall filter_wf fs → ∀ i, instr_wf i → (∀ f, f ∈ fs → (len f <= Instr.byte_len i)%nat) →
    ∀ f', f' ∈ fs' → matches f' i = true → ∃ f, f ∈ fs ∧ matches f i = true;
}.
#[export] Instance kept_refl : Reflexive kept.
Proof. intros fs. split; eauto. Qed.
#[export] Instance kept_trans : Transitive kept.
Proof.
  intros a b c [W1 C1 L1 U1 D1] [W2 C2 L2 U2 D2]. split.
  - auto.
  - lia.
  - intros f Hf. destruct (L2 f Hf) as (g & Hg & -> & Hgf). destruct (L1 g Hg) as (h & Hh & -> & Hhg). eauto 10.
  - intros W i f Hi Hf Hm. destruct (U1 W i f Hi Hf Hm) as (g & Hg & Hgm). by apply (U2 (W1 W) i g).
  - intros W i Hi Hlen f Hf Hm. destruct (D2 (W1 W) i Hi) with f as (g & Hg & Hgm); [|done..|by eapply (D1 W)].
    intros g Hg. destruct (L1 g Hg) as (h & Hh & -> & _). auto.
Qed.
Lemma kept_app_l pre a b : kept a b → kept (pre ++ a) (pre ++ b).
Proof.
  intros [W C L U D]. split.
  - rewrite !Forall_app. tauto.
  - rewrite !length_app. lia.
  - intros f [Hf|Hf]%elem_of_app; [exists f; set_solver|]. destruct (L f Hf) as (g & Hg & E & H). exists g. rewrite elem_of_app. auto.
  - rewrite Forall_app. intros [_ Wa] i f Hi [Hf|Hf]%elem_of_app Hm; [exists f; set_solver|].
    destruct (U Wa i f Hi Hf Hm) as (g & Hg & E). exists g. set_solver.
  - rewrite Forall_app. intros [_ Wa] i Hi Hlen f [Hf|Hf]%elem_of_app Hm; [exists f; set_solver|].
    destruct (D Wa i Hi) with f as (g & Hg & E); [|done..|]; [|exists g]; set_solver.
Qed.
(** Replacing two filters by their merge. *)
Lemma kept_merge item post k other m : filter_wf item → Forall filter_wf post → post !! k = Some other →
  merged item other m → kept (item :: post) (m :: delete k post).
Proof.
  intros Wi Wp Hk [W L1 L2 U D]. assert (∀ f, f ∈ post ↔ f = other ∨ f ∈ delete k post) as Hpost.
  { intros f. rewrite <- elem_of_cons. pose proof (delete_Permutation post k other Hk) as Hp.
    split; intros Hf; [by rewrite <- Hp | by rewrite Hp]. }
  assert (other ∈ post) as Ho by (by apply Hpost; left). split.
  - intros _. constructor; [done|]. by apply Forall_delete.
  - cbn [length]. pose proof (lookup_lt_Some _ _ _ Hk). rewrite length_delete by eauto. lia.
  - intros f [->|Hf]%elem_of_cons; [exists item | exists f]; set_solver.
  - intros _ i f Hi Hf Hm. rewrite elem_of_cons, Hpost in Hf. setoid_rewrite elem_of_cons.
    destruct Hf as [->|[->|Hf]]; [exists m | exists m | exists f]; naive_solver.
  - intros _ i Hi Hlen f [->|Hf]%elem_of_cons Hm; [|exists f; set_solver].
    destruct (D i Hi) as [H|H]; [|done|exists item; set_solver|exists other; set_solver].
    rewrite L1. apply Hlen. left.
Qed.

Section merge_filters.
Context {P : profile}.
(** [a] cannot be merged with [b]. *)
Definition unmergeable (a b : InstructionFilter) : Prop := try_merge a b = Ok None.

Lemma find_merge_result item l : filter_wf item → Forall filter_wf l → ∀ s, ∃ r, find_merge item l s = Ok r ∧
  match r with
  | Some (i, m) => ∃ k other, i = (s + k)%nat ∧ l !! k = Some other ∧ merged item other m
  | None => Forall (unmergeable item) l
  end.
Proof.
  intros Wi. induction 1 as [|other l Wo _ IH]; intros s; cbn [find_merge]; [by exists None; repeat constructor|].
  destruct (try_merge_result item other Wi Wo) as (r & Hr & H). rewrite Hr, M_bind_Ok. destruct r as [m|].
  - eexists; split; [done|]. exists 0%nat, other. split_and!; [lia|done|done].
  - destruct (IH (S s)) as (r & Hr' & H'). exists r. split; [done|]. destruct r as [[i m]|]; [|by constructor].
    destruct H' as (k & o & -> & Ho & Hm). exists (S k), o. split_and!; [lia|done|done].
Qed.

Lemma drop_middle {A} (pre : list A) x post : drop (length pre + 1) (pre ++ x :: post) = post.
Proof. by rewrite <- drop_drop, drop_app_length. Qed.
Lemma insert_middle {A} (pre : list A) x y post : <[length pre := y]> (pre ++ x :: post) = pre ++ y :: post.
Proof. induction pre; cbn; [done|]. by f_equal. Qed.
Lemma delete_middle_r {A} (pre : list A) x post k :
  delete (length pre + 1 + k)%nat (pre ++ x :: post) = pre ++ x :: delete k post.
Proof. induction pre; cbn; [done|]. by f_equal. Qed.

Lemma merge_at_result fuel : ∀ pre item post, filter_wf item → Forall filter_wf post → (length post < fuel)%nat →
  ∃ item' post', merge_at fuel (pre ++ item :: post) (length pre) = Ok (pre ++ item' :: post') ∧
    kept (item :: post) (item' :: post') ∧ post' `sublist_of` post ∧ Forall (unmergeable item') post'.
Proof.
  induction fuel as [|fuel IH]; intros pre item post Wi Wp Hfuel; [lia|]. cbn [merge_at].
  rewrite (proj2 (vget_Ok_inv _ _ item)), M_bind_Ok, drop_middle by (by rewrite list_lookup_middle).
  destruct (find_merge_result item post Wi Wp (length pre + 1)) as (r & Hr & H). rewrite Hr, M_bind_Ok.
  destruct r as [[i m]|]; [|by exists item, post].
  destruct H as (k & other & -> & Hk & Hm).
  rewrite vset_lt, M_bind_Ok, insert_middle, delete_middle_r by (rewrite length_app; cbn; lia).
  pose proof (lookup_lt_Some _ _ _ Hk). destruct (IH pre m (delete k post)) as (item' & post' & Heq & Hkept & Hsub & Hun).
  - by destruct Hm.
  - by apply Forall_delete.
  - rewrite length_delete by eauto. lia.
  - exists item', post'. split; [done|]. split; [|split; [|done]].
    + etrans; [|exact Hkept]. by eapply kept_merge.
    + etrans; [exact Hsub|]. apply sublist_delete.
Qed.

Lemma StronglySorted_sublist {A} (R : A → A → Prop) l k :
  l `sublist_of` k → StronglySorted R k → StronglySorted R l.
Proof.
  induction 1 as [|x l k H IH|x l k H IH]; [done| |]; intros [Hk HR]%StronglySorted_inv.
  - constructor; [by apply IH|]. apply Forall_forall. intros y Hy. rewrite Forall_forall in HR. apply HR.
    by eapply sublist_subseteq.
  - auto.
Qed.
Lemma merge_from_result pre : ∀ rest, Forall filter_wf (pre ++ rest) → StronglySorted unmergeable rest →
  ∃ r, merge_from (length pre) (pre ++ rest) = Ok r ∧ kept (pre ++ rest) r ∧ StronglySorted unmergeable r.
Proof.
  induction pre as [|item pre IH] using rev_ind; intros rest W Hs.
  - by exists rest.
  - rewrite length_app, Nat.add_comm. cbn [length Nat.add merge_from]. rewrite <- !app_assoc in *. cbn [app] in *.
    pose proof W as [_ [Wi Wr]%Forall_cons]%Forall_app.
    destruct (merge_at_result (length (pre ++ item :: rest)) pre item rest) as (item' & post' & Heq & Hk & Hsub & Hun);
      [done|done|rewrite length_app; cbn; lia|].
    rewrite Heq, M_bind_Ok. apply (kept_app_l pre) in Hk. destruct (IH (item' :: post')) as (r & Hr & Hkr & Hsr).
    + by apply Hk.
    + constructor; [by eapply StronglySorted_sublist | done].
    + exists r. split; [done|]. split; [by etrans | done].
Qed.
End merge_filters.

(** C26: [merge_filters] terminates without a panic on well-formed filters.  An
    instruction that is not shorter than any of the filters matches one of the
    filters it returns exactly when it matches one of the given ones; a shorter
    one is not lost; the result is well-formed, and no filter of it can be merged
    with a later one. *)
Theorem merge_filters_spec {P : profile} fs : Forall filter_wf fs → ∃ r, merge_filters fs = Ok r ∧
  Forall filter_wf r ∧ StronglySorted unmergeable r ∧
  (∀ i f, instr_wf i → f ∈ fs → matches f i = true → ∃ f', f' ∈ r ∧ matches f' i = true) ∧
  (∀ i, instr_wf i → (∀ f, f ∈ fs → (len f <= Instr.byte_len i)%nat) →
     ((∃ f', f' ∈ r ∧ matches f' i = true) ↔ (∃ f, f ∈ fs ∧ matches f i = true))).
Proof.
  intros W. destruct (merge_from_result fs []) as (r & Hr & Hk & Hs); [by rewrite app_nil_r | constructor|].
  rewrite app_nil_r in *. exists r. destruct Hk as [Hw _ _ Hup Hun]. split_and!; [done | auto | done | by apply Hup |].
  intros i Hi Hlen. split; [|naive_solver]. intros (f' & Hf' & Hm). by eapply Hun.
Qed.

(** ** Witnesses *)

Lemma try_merge_spec_witness : ∃ m,
  try_merge (P:=Dev) {| bfs := [{| mask := 0xff; value := 0x48 |}; {| mask := 0; value := 0 |}] |}
    {| bfs := [{| mask := 0xff; value := 0x4c |}; {| mask := 0; value := 0 |}] |} = Ok (Some m) ∧
  matches m (example_instr [0x48; 0x31]) = true ∧ matches m (example_instr [0x49; 0x31]) = false.
Proof.
  destruct (try_merge_spec (P:=Dev) {| bfs := [{| mask := 0xff; value := 0x48 |}; {| mask := 0; value := 0 |}] |}
    {| bfs := [{| mask := 0xff; value := 0x4c |}; {| mask := 0; value := 0 |}] |}) as (r & Hr & H); [filter_wf..|].
  destruct r as [m|]; [|exfalso; by vm_compute in Hr]. exists m. split; [exact Hr|].
  destruct H as (_ & Hl & _ & Hup & Hun). split.
  - apply Hup; [example_wf | left; vm_compute; reflexivity].
  - apply not_true_iff_false. intros Hm. apply Hun in Hm; [|example_wf|rewrite Hl; vm_compute; lia].
    destruct Hm as [Hm|Hm]; by vm_compute in Hm.
Defined.
Lemma try_exclude_spec_witness : ∃ m,
  try_exclude (P:=Dev) {| bfs := [{| mask := 0xf0; value := 0x40 |}] |} {| bfs := [{| mask := 0xf8; value := 0x48 |}] |} = Ok (Some m) ∧
  matches m (example_instr [0x45]) = true ∧ matches m (example_instr [0x49]) = false.
Proof.
  destruct (try_exclude_spec (P:=Dev) {| bfs := [{| mask := 0xf0; value := 0x40 |}] |} {| bfs := [{| mask := 0xf8; value := 0x48 |}] |})
    as (r & Hr & H); [filter_wf..|].
  destruct r as [m|]; [|exfalso; by vm_compute in Hr]. exists m. split; [exact Hr|].
  destruct H as (_ & Hl & Hdn & Hup). split.
  - apply Hup; [example_wf | rewrite Hl; vm_compute; lia | vm_compute; reflexivity..].
  - apply not_true_iff_false. intros Hm. apply Hdn in Hm as [_ Hm]; [by vm_compute in Hm | example_wf].
Defined.
Lemma merge_filters_spec_witness : ∃ r,
  merge_filters (P:=Dev) (Build_InstructionFilter <$> [[{| mask := 0xff; value := 0x48 |}]; [{| mask := 0xff; value := 0x90 |}];
    [{| mask := 0xff; value := 0x4c |}]; [{| mask := 0xfb; value := 0x49 |}]]) = Ok r ∧
  (∃ f, f ∈ r ∧ matches f (example_instr [0x4d]) = true) ∧ length r = 2%nat.
Proof.
  destruct (merge_filters_spec (P:=Dev) (Build_InstructionFilter <$> [[{| mask := 0xff; value := 0x48 |}]; [{| mask := 0xff; value := 0x90 |}];
    [{| mask := 0xff; value := 0x4c |}]; [{| mask := 0xfb; value := 0x49 |}]])) as (r & Hr & _ & _ & Hup & _).
  { repeat (constructor; [filter_wf|]). constructor. }
  exists r. split; [exact Hr|]. split.
  - apply (Hup (example_instr [0x4d]) {| bfs := [{| mask := 0xfb; value := 0x49 |}] |}); [example_wf | set_solver | vm_compute; reflexivity].
  - vm_compute in Hr. by apply (inj Ok) in Hr as <-.
Defined.
