(* ===== verification/NextMatching.v ===== *)
(** * The next matching instruction

    [InstructionFilter::next_matching_instruction] works bit by bit from the left;
    here the order of instructions and the filters are described the same way,
    and the function is shown to return the least instruction of the filter's
    length that matches and is not below the given one. *)
From S2P Require Import Prelude MachInt Utils Instruction InstructionFacts Filter FilterFacts.
Import Filter.

(** ** The order, bit by bit *)

(** Two integers whose bits above [k] agree are ordered by bit [k]. *)
Lemma compare_by_bit x y k : 0 <= k → Z.shiftr x (k + 1) = Z.shiftr y (k + 1) →
  Z.testbit x k = false → Z.testbit y k = true → x < y.
Proof.
  intros Hk Hs Hx Hy.
  assert (∀ z, z / 2 ^ k = 2 * Z.shiftr z (k + 1) + Z.b2z (Z.testbit z k)) as Hd.
  { intros z. rewrite <- Z.shiftr_div_pow2, <- (Z.shiftr_shiftr z k 1), <- Z.div2_spec, Z.testbit_odd by lia.
    apply Z.div2_odd. }
  apply Z.lt_nge. intros Hle. apply (Z.div_le_mono _ _ (2 ^ k)) in Hle; [|by apply pow2_pos].
  rewrite !Hd, Hs, Hx, Hy in Hle. cbn in Hle. lia.
Qed.
(** Different bytes have a first bit, from the left, in which they differ. *)
Lemma byte_first_diff x y : is_byte x → is_byte y → x ≠ y → ∃ k, 0 <= k < 8 ∧
  Z.testbit x k ≠ Z.testbit y k ∧ Z.shiftr x (k + 1) = Z.shiftr y (k + 1).
Proof.
  intros Hx Hy Hne. set (d := Z.lxor x y). assert (is_u 8 d) as Hd by (apply is_u_lxor; [lia|done|done]).
  assert (d ≠ 0) as Hd0 by (intros H; by apply Z.lxor_eq in H). assert (0 < d) as Hpos by (unfold is_u in Hd; lia).
  exists (Z.log2 d). split.
  - split; [apply Z.log2_nonneg|]. apply Z.log2_lt_pow2; [done|]. apply Hd.
  - pose proof (Z.log2_nonneg d). split.
    + pose proof (Z.bit_log2 d Hpos) as Hb. unfold d in Hb at 1. rewrite Z.lxor_spec in Hb.
      by destruct (Z.testbit x _), (Z.testbit y _).
    + apply Z.bits_inj'; intros i Hi. rewrite !Z.shiftr_spec by done.
      pose proof (Z.bits_above_log2 d (i + (Z.log2 d + 1)) ltac:(lia) ltac:(lia)) as Hb. unfold d in Hb at 1.
      rewrite Z.lxor_spec in Hb. by destruct (Z.testbit x _), (Z.testbit y _).
Qed.

(** The byte strings differ first at bit [t]. *)
Definition first_diff (a b : list Z) (t : nat) : Prop :=
  (t < 8 * Nat.min (length a) (length b))%nat ∧ (∀ u, (u < t)%nat → lbit a u = lbit b u) ∧ lbit a t ≠ lbit b t.

Lemma lbit_head x l k : (k < 8)%nat → lbit (x :: l) k = Z.testbit x (Z.of_nat (7 - k)).
Proof. intros Hk. unfold lbit. by rewrite Nat.div_small, Nat.mod_small by done. Qed.
Lemma lbit_tail x l k : lbit (x :: l) (8 + k) = lbit l k.
Proof.
  unfold lbit. replace (8 + k)%nat with (k + 1 * 8)%nat by lia.
  rewrite Nat.Div0.mod_add, Nat.div_add, Nat.add_1_r by lia. done.
Qed.
Lemma lbit_cons_eq x a b k : (∀ u, (u < k)%nat → lbit a u = lbit b u) →
  ∀ u, (u < 8 + k)%nat → lbit (x :: a) u = lbit (x :: b) u.
Proof.
  intros H u Hu. destruct (Nat.lt_ge_cases u 8); [by rewrite !lbit_head|].
  replace u with (8 + (u - 8))%nat by lia. rewrite !lbit_tail. apply H. lia.
Qed.

(** [cmp] is decided by the first bit that differs, or by the lengths. *)
Lemma cmp_bits a : ∀ b, is_bytes a → is_bytes b →
  (∃ t, first_diff a b t ∧ Instr.cmp_bytes a b = if lbit a t then Gt else Lt) ∨
  ((∀ u, (u < 8 * Nat.min (length a) (length b))%nat → lbit a u = lbit b u) ∧
   Instr.cmp_bytes a b = Nat.compare (length a) (length b)).
Proof.
  induction a as [|x a IH]; intros [|y b] Ha Hb; cbn [Instr.cmp_bytes]; try (right; split; [cbn [length]; lia|done]).
  apply Forall_cons in Ha as [Hx Ha]. apply Forall_cons in Hb as [Hy Hb].
  destruct (decide (x = y)) as [<-|Hne].
  - rewrite Z.compare_refl. cbn [length]. replace (8 * Nat.min (S (length a)) (S (length b)))%nat
      with (8 + 8 * Nat.min (length a) (length b))%nat by lia.
    destruct (IH b Ha Hb) as [(t & (H1 & H2 & H3) & Hc)|[H1 Hc]].
    + left. exists (8 + t)%nat. rewrite lbit_tail. split; [|done]. split_and!; [cbn [length]; lia | by apply lbit_cons_eq |].
      by rewrite !lbit_tail.
    + right. split; [by apply lbit_cons_eq | done].
  - left. destruct (byte_first_diff x y Hx Hy Hne) as (k & Hk & Hd & Hs).
    assert (7 - (7 - Z.to_nat k) = Z.to_nat k)%nat as E by lia. exists (7 - Z.to_nat k)%nat.
    rewrite lbit_head, E, Z2Nat.id by lia. split.
    + split_and!; [cbn [length]; lia| |by rewrite !lbit_head, E, Z2Nat.id by lia]. intros u Hu.
      rewrite !lbit_head by lia. apply (f_equal (λ z, Z.testbit z (Z.of_nat (7 - u) - (k + 1)))) in Hs.
      rewrite !Z.shiftr_spec in Hs by lia. by rewrite Z.sub_add in Hs.
    + destruct (Z.testbit x k) eqn:Ex, (Z.testbit y k) eqn:Ey; try done.
      * rewrite (proj2 (Z.compare_gt_iff _ _)); [done|]. apply (compare_by_bit y x k); done || lia.
      * rewrite (proj2 (Z.compare_lt_iff _ _)); [done|]. apply (compare_by_bit x y k); done || lia.
Qed.
Lemma first_diff_unique a b t u : first_diff a b t → first_diff a b u → t = u.
Proof.
  intros (H1 & H2 & H3) (K1 & K2 & K3). destruct (Nat.lt_trichotomy t u) as [H|[H|H]]; [|done|].
  - by destruct H3; apply K2.
  - by destruct K3; apply H2.
Qed.
Lemma cmp_first_diff a b t : is_bytes a → is_bytes b → first_diff a b t →
  Instr.cmp_bytes a b = if lbit a t then Gt else Lt.
Proof.
  intros Ha Hb Ht. destruct (cmp_bits a b Ha Hb) as [(u & Hu & ->)|[H _]].
  - by rewrite (first_diff_unique a b u t).
  - destruct Ht as (H1 & _ & H3). by destruct H3; apply H.
Qed.
Lemma cmp_lt_inv a b : is_bytes a → is_bytes b → length a = length b → Instr.cmp_bytes a b = Lt →
  ∃ t, first_diff a b t ∧ lbit a t = false ∧ lbit b t = true.
Proof.
  intros Ha Hb Hl Hlt. destruct (cmp_bits a b Ha Hb) as [(t & Ht & Hc)|[_ Hc]].
  - exists t. rewrite Hlt in Hc. pose proof Ht as (_ & _ & Hd). by destruct (lbit a t), (lbit b t).
  - rewrite Hl, Nat.compare_refl in Hc. congruence.
Qed.

(** ** Filters, bit by bit *)

Definition fm (f : InstructionFilter) (k : nat) : bool := lbit (mask <$> bfs f) k.
Definition fv (f : InstructionFilter) (k : nat) : bool := lbit (value <$> bfs f) k.

Lemma lbit_bound k n : (k < 8 * n)%nat → (k / 8 < n)%nat.
Proof. intros. apply Nat.Div0.div_lt_upper_bound. lia. Qed.
Lemma lbit_fmap (p : ByteFilter → Z) f k b : bfs f !! (k / 8)%nat = Some b →
  lbit (p <$> bfs f) k = Z.testbit (p b) (Z.of_nat (7 - k `mod` 8)).
Proof. intros Hb. unfold lbit. by rewrite list_lookup_fmap, Hb. Qed.
Lemma bit_pos k : 0 <= Z.of_nat (7 - k `mod` 8) < 8.
Proof. lia. Qed.

Section filter.
Context (f : InstructionFilter) (Hf : filter_wf f).
Notation n := (8 * len f)%nat.

Lemma filter_byte k : (k < n)%nat → ∃ b, bfs f !! (k / 8)%nat = Some b ∧ bf_wf b.
Proof using Hf.
  intros Hk. destruct (lookup_lt_is_Some_2 (bfs f) (k / 8)) as [b Hb]; [by apply lbit_bound|].
  exists b. split; [done|]. by eapply Forall_lookup_1 in Hb.
Qed.
Lemma fv_fm k : (k < n)%nat → fv f k = true → fm f k = true.
Proof using Hf.
  intros (b & Hb & Wb)%filter_byte. unfold fv, fm. rewrite !(lbit_fmap _ f k b) by done.
  apply (bwf_cons b Wb), bit_pos.
Qed.
Lemma filter_nth_bit k : (k < n)%nat →
  nth_bit_from_left f k = Ok (if fm f k then if fv f k then Is1 else Is0 else Wildcard).
Proof using Hf.
  intros (b & Hb & Wb)%filter_byte. unfold nth_bit_from_left, fm, fv. rewrite !(lbit_fmap _ f k b) by done.
  rewrite (proj2 (vget_Ok_inv _ _ b) Hb), M_bind_Ok, !bit_of_bool_land.
  by destruct (Z.testbit (mask b) _), (Z.testbit (value b) _).
Qed.
Lemma wildcard_iff k : (k < n)%nat →
  (x ← nth_bit_from_left f k; Ok (bool_decide (x = Wildcard))) = Ok (negb (fm f k)).
Proof using Hf. intros Hk. rewrite filter_nth_bit, M_bind_Ok by done. by destruct (fm f k), (fv f k). Qed.

Lemma matches_bits y : instr_wf y → length (Instr.bytes y) = len f →
  matches f y = true ↔ ∀ k, (k < n)%nat → fm f k = true → lbit (Instr.bytes y) k = fv f k.
Proof using Hf.
  intros Hy Hlen. unfold matches. rewrite matches_bytes_iff. unfold fm, fv. split.
  - intros H k Hk. destruct (filter_byte k Hk) as (b & Hb & Wb). rewrite !(lbit_fmap _ f k b) by done. unfold lbit.
    specialize (H _ _ Hb). destruct (Instr.bytes y !! (k / 8)%nat) as [x|] eqn:Ex.
    + cbn in *. rewrite matches_iff in H by (done || by eapply instr_byte). apply H, bit_pos.
    + apply lookup_ge_None in Ex. apply lbit_bound in Hk. lia.
  - intros H j b Hb. pose proof (lookup_lt_Some _ _ _ Hb) as Hj. unfold len in *.
    destruct (lookup_lt_is_Some_2 (Instr.bytes y) j) as [x Hx]; [lia|]. rewrite Hx. cbn [matches_at].
    assert (bf_wf b) as Wb by (by eapply Forall_lookup_1 in Hb).
    apply matches_iff; [done | by eapply instr_byte|]. intros k Hk Hm.
    pose (u := (8 * j + (7 - Z.to_nat k))%nat). assert (u / 8 = j ∧ u `mod` 8 = 7 - Z.to_nat k)%nat as [E1 E2].
    { unfold u. rewrite (Nat.mul_comm 8 j), Nat.add_comm, Nat.div_add, Nat.Div0.mod_add, Nat.div_small, Nat.mod_small by lia. lia. }
    assert (Z.of_nat (7 - u `mod` 8) = k) as E3 by (rewrite E2; lia).
    specialize (H u ltac:(unfold u; lia)). rewrite !(lbit_fmap _ f u b), E3 in H by (by rewrite E1).
    unfold lbit in H. rewrite E1, E3, Hx in H. by apply H.
Qed.

(** Instructions made from the filter byte by byte. *)
Lemma instr_of_filter (p : ByteFilter → Z) : (len f <= 15)%nat → (∀ b, bf_wf b → is_byte (p b)) →
  ∃ s, Instr.from_iter (p <$> bfs f) = Ok s ∧ instr_wf s ∧ Instr.bytes s = p <$> bfs f.
Proof using Hf.
  intros Hl Hp. assert (length (p <$> bfs f) <= 15)%nat as Hl' by (by rewrite length_fmap).
  eexists; split; [by apply new_ok|]. apply new_wf; [|by apply new_ok].
  apply Forall_fmap. eapply Forall_impl; [exact Hf|]. exact Hp.
Qed.
Lemma smallest_ok : (len f <= 15)%nat → ∃ s, smallest_matching_instruction f = Ok s ∧ instr_wf s ∧
  length (Instr.bytes s) = len f ∧ ∀ k, (k < n)%nat → lbit (Instr.bytes s) k = fv f k.
Proof using Hf.
  intros Hl. destruct (instr_of_filter (λ bf, Z.land (value bf) (mask bf)) Hl) as (s & Hs & Ws & Hb).
  { intros b Wb. unfold is_byte. auto with u8. }
  exists s. split_and!; [done..| by rewrite Hb, length_fmap|]. intros k Hk. rewrite Hb.
  pose proof (fv_fm k Hk) as Hc. destruct (filter_byte k Hk) as (b & Hk' & Wb). unfold fv, fm in *.
  rewrite !(lbit_fmap _ f k b) in * by done. rewrite Z.land_spec.
  destruct (Z.testbit (value b) _); [|done]. by rewrite Hc.
Qed.
Definition fmax (k : nat) : bool := fv f k || negb (fm f k).
Lemma largest_ok : (len f <= 15)%nat → ∃ s, largest_matching_instruction f = Ok s ∧ instr_wf s ∧
  length (Instr.bytes s) = len f ∧ ∀ k, (k < n)%nat → lbit (Instr.bytes s) k = fmax k.
Proof using Hf.
  intros Hl. destruct (instr_of_filter (λ bf, Z.lor (Z.land (value bf) (mask bf)) (not_u 8 (mask bf))) Hl)
    as (s & Hs & Ws & Hb).
  { intros b Wb. unfold is_byte. auto with u8. }
  exists s. split_and!; [done..| by rewrite Hb, length_fmap|]. intros k Hk. rewrite Hb. unfold fmax.
  pose proof (fv_fm k Hk) as Hc. destruct (filter_byte k Hk) as (b & Hk' & Wb). unfold fv, fm in *.
  rewrite !(lbit_fmap _ f k b) in * by done. rewrite Z.lor_spec, Z.land_spec, testbit_not_u by lia.
  destruct (Z.testbit (value b) _); [|done]. by rewrite Hc.
Qed.
End filter.

(** ** The two loops *)

Section next.
Context (f : InstructionFilter) (Hf : filter_wf f) (i : Instruction) (Hi : instr_wf i).
Notation n := (8 * len f)%nat.
Notation x := (lbit (Instr.bytes i)).
Notation m := (Nat.min n (8 * length (Instr.bytes i))).

(** An instruction of the filter's length, given by its bits. *)
Definition bits_are (r : Instruction) (p : nat → bool) : Prop :=
  instr_wf r ∧ length (Instr.bytes r) = len f ∧ ∀ u, (u < n)%nat → lbit (Instr.bytes r) u = p u.
(** The first [k] bits are those of the instruction, the rest the smallest. *)
Definition shape (k u : nat) : bool := if (u <? k)%nat then x u else fv f u.
(** The first [k] bits of the instruction match. *)
Definition prefix_ok (k : nat) : Prop := ∀ u, (u < k)%nat → fm f u = true → x u = fv f u.

Lemma set_bit_ok r p k b : bits_are r p → (k < n)%nat → Instr.is_bit b = true →
  ∃ r', Instr.with_nth_bit_from_left r k b = Ok r' ∧ bits_are r' (λ u, if (u =? k)%nat then Z.odd b else p u).
Proof using.
  intros (Wr & Hl & Hp) Hk Hb. pose proof (byte_len_wf r Wr) as Hlen. unfold Instr.byte_len in Hlen.
  destruct (with_nth_bit_from_left_ok r k b) as (r' & Hr' & Wr' & Hbytes); [done|lia|done|].
  exists r'. split; [done|]. split; [done|]. split; [by rewrite Hbytes, length_insert|].
  intros u Hu. rewrite Hbytes, lbit_set by (apply (bytes_wf r Wr) || done || lia). case_cmp; [done|]. by apply Hp.
Qed.
Lemma bits_are_ext r p q : (∀ u, (u < n)%nat → p u = q u) → bits_are r p → bits_are r q.
Proof using. intros H (W & L & B). split_and!; [done..|]. intros u Hu. rewrite <- H by done. auto. Qed.
Lemma read_bit r p k : bits_are r p → (k < n)%nat → Instr.nth_bit_from_left r k = Ok (Z.b2z (p k)).
Proof using. intros (W & L & B) Hk. rewrite nth_bit_from_left_lbit, B by (done || lia). done. Qed.
Lemma read_instr k : (k < m)%nat → Instr.nth_bit_from_left i k = Ok (Z.b2z (x k)).
Proof using. intros Hk. apply nth_bit_from_left_lbit. lia. Qed.
Lemma shape_step k u : (u = k → x k = fv f k) → shape k u = shape (S k) u.
Proof using. intros H. unfold shape. case_cmps; try done. assert (u = k) as -> by lia. by rewrite H. Qed.

Lemma prefix_ok_step k : prefix_ok k → (fm f k = true → x k = fv f k) → prefix_ok (S k).
Proof using. intros H Hk u Hu. destruct (decide (u = k)) as [->|]; [done|]. apply H. lia. Qed.

Lemma follow_ok c : ∀ k r, (k + c = m)%nat → bits_are r (shape k) → prefix_ok k →
  ∃ r' k', follow c f i r k = Ok r' ∧ (k' <= m)%nat ∧ bits_are r' (shape k') ∧ prefix_ok k' ∧
    (k' = m ∨ ((k' < m)%nat ∧ fm f k' = true ∧ x k' ≠ fv f k')).
Proof using Hf Hi.
  induction c as [|c IH]; intros k r Hk Hr Hpre; cbn [follow].
  { exists r, k. split_and!; [done|lia|done|done|left; lia]. }
  assert (k < m)%nat as Hkm by lia. assert (k < n)%nat as Hkn by lia.
  rewrite read_instr, M_bind_Ok, (read_bit r (shape k)), M_bind_Ok by done.
  assert (shape k k = fv f k) as -> by (unfold shape; case_cmps; done).
  destruct (decide (x k = fv f k)) as [E|E].
  - rewrite E, Z.eqb_refl. apply IH; [lia| |by apply prefix_ok_step].
    eapply bits_are_ext; [|exact Hr]. intros u _. by apply shape_step.
  - rewrite (proj2 (Z.eqb_neq _ _)) by (by intros ?%Z.b2z_inj).
    assert (∀ w, fm f k = true → bits_are w (shape k) →
      ∃ r' k', Ok w = Ok r' ∧ (k' <= m)%nat ∧ bits_are r' (shape k') ∧ prefix_ok k' ∧
      (k' = m ∨ ((k' < m)%nat ∧ fm f k' = true ∧ x k' ≠ fv f k'))) as Hstop.
    { intros w Hm Hw. exists w, k. split_and!; [done|lia|done|done|by right]. }
    destruct (x k) eqn:Ex; cbn [Z.b2z Z.eqb Pos.eqb].
    + rewrite filter_nth_bit, M_bind_Ok by done. destruct (fm f k) eqn:Em.
      * destruct (fv f k); [done|]. rewrite bool_decide_eq_false_2 by done. by apply Hstop.
      * rewrite bool_decide_eq_true_2 by done. destruct (set_bit_ok r (shape k) k 1) as (r' & -> & Hr'); [done..|]. rewrite M_bind_Ok.
        apply IH; [lia| |apply prefix_ok_step; [done|congruence]]. eapply bits_are_ext; [|exact Hr'].
        intros u _. unfold shape. case_cmps; subst; cbn; try done; lia || (by rewrite Ex).
    + apply Hstop; [|done]. apply fv_fm; [done..|]. by destruct (fv f k).
Qed.

Lemma is_bytes_i : is_bytes (Instr.bytes i).
Proof using Hi. apply (bytes_wf i Hi). Qed.
Lemma cmp_at r p t : bits_are r p → (t < m)%nat → (∀ u, (u < t)%nat → p u = x u) → p t ≠ x t →
  Instr.cmp r i = if p t then Gt else Lt.
Proof using Hi.
  intros (W & L & B) Ht Hu Hd. unfold Instr.cmp.
  rewrite (cmp_first_diff _ _ t); [by rewrite B by lia | apply (bytes_wf r W) | apply is_bytes_i|].
  split_and!; [lia| |by rewrite B by lia]. intros u Hu'. rewrite B by lia. by apply Hu.
Qed.

(** [carry], started where [follow] stopped at [k] below the instruction. *)
Context (k : nat) (Hk : (k <= m)%nat) (Hpre : prefix_ok k)
  (Hstop : k = m ∨ ((k < m)%nat ∧ fm f k = true ∧ x k = true ∧ fv f k = false)).

(** The instruction that [carry] finds: bit [t], a zero in the instruction where
    the filter has a wildcard, becomes one. *)
Record found (r : Instruction) (t : nat) : Prop := {
  found_lt : (t < k)%nat;
  found_zero : x t = false;
  found_wild : fm f t = false;
  found_bits : bits_are r (λ u, if (u =? t)%nat then true else shape t u);
  found_max : ∀ u, (t < u < k)%nat → x u = fmax f u;
}.

Lemma carry_ok b : ∀ r, (b <= m)%nat → bits_are r (shape (Nat.min b k)) →
  (∀ u, (b <= u < k)%nat → x u = fmax f u) →
  ∃ r', carry b f i r = Ok r' ∧ ((∃ t, found r' t) ∨ ∀ u, (u < k)%nat → x u = fmax f u).
Proof using All.
  induction b as [|t IH]; intros r Hb Hr Hmax; cbn [carry].
  { exists r. split; [done|]. right. intros u Hu. apply Hmax. lia. }
  assert (t < n)%nat as Htn by lia. rewrite filter_nth_bit, M_bind_Ok by done.
  destruct (Nat.lt_ge_cases t k) as [Htk|Htk].
  - replace (Nat.min (S t) k) with (S t) in Hr by lia. replace (Nat.min t k) with t in IH by lia.
    assert (shape (S t) t = x t) as Ht by (unfold shape; case_cmps; done).
    destruct (fm f t) eqn:Em.
    + rewrite bool_decide_eq_false_2 by (by destruct (fv f t)). pose proof (Hpre t Htk Em) as Hx.
      apply IH; [lia| |].
      * eapply bits_are_ext; [|exact Hr]. intros u _. symmetry. by apply shape_step.
      * intros u Hu. destruct (decide (u = t)) as [->|]; [|apply Hmax; lia].
        unfold fmax. by rewrite Em, Hx, orb_false_r.
    + rewrite bool_decide_eq_true_2, (read_bit r (shape (S t))), Ht, M_bind_Ok by done.
      destruct (x t) eqn:Ex; cbn [Z.b2z Z.eqb].
      * destruct (set_bit_ok r _ t 0 Hr) as (r' & -> & Hr'); [done..|]. rewrite M_bind_Ok. apply IH; [lia| |].
        -- eapply bits_are_ext; [|exact Hr']. intros u Hu. unfold shape. case_cmps; subst; try done; try lia.
           symmetry. destruct (fv f t) eqn:Ev; [|done]. apply fv_fm in Ev; [congruence|done..].
        -- intros u Hu. destruct (decide (u = t)) as [->|]; [|apply Hmax; lia].
           unfold fmax. by rewrite Em, Ex, orb_true_r.
      * destruct (set_bit_ok r _ t 1 Hr) as (r' & -> & Hr'); [done..|]. rewrite M_bind_Ok.
        rewrite (cmp_at r' _ t Hr'); [|lia|intros u Hu; unfold shape; case_cmps; done|by rewrite Nat.eqb_refl, Ex].
        rewrite Nat.eqb_refl. exists r'. split; [done|]. left. exists t. split; [done..| |].
        -- eapply bits_are_ext; [|exact Hr']. intros u Hu. unfold shape. case_cmps; done || lia.
        -- intros u Hu. apply Hmax. lia.
  - destruct Hstop as [->|(Hkm & Emk & Exk & Evk)]; [lia|].
    replace (Nat.min (S t) k) with k in Hr by lia. replace (Nat.min t k) with k in IH by lia.
    assert (∃ r', carry t f i r = Ok r' ∧ ((∃ t, found r' t) ∨ ∀ u, (u < k)%nat → x u = fmax f u)) as Hrest
      by (apply IH; [lia|done|intros; lia]).
    destruct (fm f t) eqn:Em; [rewrite bool_decide_eq_false_2 by (by destruct (fv f t)); exact Hrest|].
    assert (shape k t = false) as Ht.
    { unfold shape. case_cmps. destruct (fv f t) eqn:Ev; [|done]. apply fv_fm in Ev; [congruence|done..]. }
    rewrite bool_decide_eq_true_2, (read_bit r (shape k)), Ht, M_bind_Ok by done. cbn [Z.b2z Z.eqb].
    destruct (set_bit_ok r _ t 1 Hr) as (r' & -> & Hr'); [done..|]. rewrite M_bind_Ok.
    assert (k ≠ t) by congruence.
    assert ((if (k =? t)%nat then Z.odd 1 else shape k k) = false) as Hkk
      by (unfold shape; case_cmps; try done; lia).
    rewrite (cmp_at r' _ k Hr'); [by rewrite Hkk|lia| |by rewrite Hkk, Exk].
    intros u Hu. unfold shape. case_cmps; done || lia.
Qed.

(** Below the instruction in the order. *)
Lemma below y p t : bits_are y p → (t < m)%nat → (∀ u, (u < t)%nat → p u = x u) → p t = false → x t = true →
  Instr.cmp i y = Gt.
Proof using Hi.
  clear Hk Hstop Hpre. intros Hy Ht Hu Hp Hx. unfold Instr.cmp. rewrite cmp_bytes_antisym.
  fold (Instr.cmp y i). rewrite (cmp_at y p t) by (done || congruence). by rewrite Hp.
Qed.
Lemma agree_cmp r p : bits_are r p → (∀ u, (u < m)%nat → p u = x u) →
  Instr.cmp r i = Nat.compare (len f) (length (Instr.bytes i)).
Proof using Hi.
  clear Hk Hstop Hpre. intros (W & L & B) H. unfold Instr.cmp.
  destruct (cmp_bits (Instr.bytes r) (Instr.bytes i)) as [(t & (Ht & _ & Hd) & _)|[_ Hc]];
    [apply (bytes_wf r W) | apply is_bytes_i | | by rewrite Hc, L].
  destruct Hd. rewrite B by lia. apply H. lia.
Qed.

(** Some bit is found when the instruction is not above the largest match. *)
Lemma not_above_largest r s : bits_are r (shape k) → Instr.cmp r i = Lt → bits_are s (fmax f) →
  Instr.cmp i s ≠ Gt → ¬ ∀ u, (u < k)%nat → x u = fmax f u.
Proof using Hi Hk Hstop.
  intros Hr Hlt Hs Hle Hmax. apply Hle. destruct Hstop as [E|(Hkm & Em & Ex & Ev)].
  - unfold Instr.cmp. rewrite cmp_bytes_antisym. fold (Instr.cmp s i).
    rewrite (agree_cmp s (fmax f)) by (done || (intros; symmetry; apply Hmax; lia)).
    rewrite (agree_cmp r (shape k)) in Hlt by (done || (intros; unfold shape; case_cmps; done || lia)). by rewrite Hlt.
  - apply (below s (fmax f) k); [done|done| |by unfold fmax; rewrite Em, Ev|done]. intros. symmetry. by apply Hmax.
Qed.

(** A match that is below [r] and not below the instruction. *)
Section minimal.
Context (y : Instruction) (Wy : instr_wf y) (Ly : length (Instr.bytes y) = len f) (My : matches f y = true)
  (Hy : Instr.cmp i y ≠ Gt).
Notation yb := (lbit (Instr.bytes y)).

Lemma y_bits : bits_are y yb.
Proof using Wy Ly. done. Qed.
Lemma y_fv u : (u < n)%nat → fv f u = true → yb u = true.
Proof using Hf Wy Ly My.
  clear Hk Hstop Hpre. intros Hu Hv. rewrite (proj1 (matches_bits f Hf y Wy Ly) My) by (done || by apply fv_fm). done.
Qed.
Lemma y_max u : (u < n)%nat → fmax f u = false → yb u = false.
Proof using Hf Wy Ly My.
  clear Hk Hstop Hpre. intros Hu [Hv Hm]%orb_false_iff. apply negb_false_iff in Hm.
  by rewrite (proj1 (matches_bits f Hf y Wy Ly) My).
Qed.
Lemma y_not_below t : (t < m)%nat → (∀ u, (u < t)%nat → yb u = x u) → x t = true → yb t = true.
Proof using Hi Wy Ly Hy.
  clear Hk Hstop Hpre. intros Ht Hu Hx. destruct (yb t) eqn:E; [done|]. destruct Hy. by apply (below y yb t).
Qed.
(** [r] is minimal if no bit of [y] below a one of [r] is zero. *)
Lemma minimal_at r p : bits_are r p →
  (∀ t, (t < n)%nat → (∀ u, (u < t)%nat → yb u = p u) → p t = true → yb t = true) → Instr.cmp r y ≠ Gt.
Proof using Wy Ly.
  clear Hk Hstop Hpre. intros (W & L & B) H Hgt. unfold Instr.cmp in Hgt.
  assert (Instr.cmp_bytes (Instr.bytes y) (Instr.bytes r) = Lt) as Hlt by (by rewrite cmp_bytes_antisym, Hgt).
  apply cmp_lt_inv in Hlt as (t & (Ht & Hu & _) & E1 & E2);
    [|apply (bytes_wf y Wy)|apply (bytes_wf r W)|by rewrite L].
  rewrite H in E1; [done|lia| |by rewrite <- B by lia]. intros u Hu'. rewrite <- B by lia. by apply Hu.
Qed.

Lemma follow_minimal r : bits_are r (shape k) → Instr.cmp r y ≠ Gt.
Proof using Hf Hi Hk Wy Ly My Hy.
  intros Hr. apply (minimal_at r _ Hr). clear Hstop Hpre. intros t Ht Hu. unfold shape at 1. case_cmp; [|by apply y_fv].
  apply y_not_below; [lia|]. intros u Hu'. rewrite Hu by done. unfold shape. case_cmps; done || lia.
Qed.
Lemma found_minimal r0 r t : bits_are r0 (shape k) → Instr.cmp r0 i = Lt → found r t → Instr.cmp r y ≠ Gt.
Proof using Hf Hi Hk Hstop Wy Ly My Hy.
  intros Hr0 Hlt [Htk Hx0 Hw Hr Hmax]. apply (minimal_at r _ Hr). intros u Hu Hpre'. case_cmp; [subst u|].
  - intros _. destruct (yb t) eqn:Ey; [done|]. exfalso.
    assert (∀ v, (v < k)%nat → yb v = x v) as Hall.
    { intros v. induction v as [v IHv] using lt_wf_ind. intros Hv. destruct (Nat.lt_trichotomy v t) as [H|[->|H]].
      - rewrite Hpre' by done. unfold shape. case_cmps; done || lia.
      - congruence.
      - destruct (x v) eqn:Ex; [apply y_not_below; [lia| |done]; intros w Hw'; apply IHv; lia|].
        apply y_max; [lia|]. rewrite <- Hmax by lia. done. }
    destruct Hstop as [E|(Hkm & Em & Ex & Ev)].
    + apply Hy. unfold Instr.cmp. rewrite cmp_bytes_antisym. fold (Instr.cmp y i).
      rewrite (agree_cmp y yb) by (apply y_bits || (intros; apply Hall; lia)).
      rewrite (agree_cmp r0 (shape k)) in Hlt by (done || (intros; unfold shape; case_cmps; done || lia)). by rewrite Hlt.
    + assert (yb k = false) by (apply y_max; [lia | by unfold fmax; rewrite Em, Ev]).
      rewrite y_not_below in H; done.
  - unfold shape. case_cmp; [|by apply y_fv]. apply y_not_below; [lia|]. intros v Hv. rewrite Hpre' by done.
    unfold shape. case_cmps; done || lia.
Qed.
End minimal.
End next.

(** Least among the matches of the filter's length that are not below [i]. *)
Definition least_match (f : InstructionFilter) (i r : Instruction) : Prop :=
  instr_wf r ∧ Instr.byte_len r = len f ∧ matches f r = true ∧ Instr.cmp i r ≠ Gt ∧
  ∀ y, instr_wf y → Instr.byte_len y = len f → matches f y = true → Instr.cmp i y ≠ Gt → Instr.cmp r y ≠ Gt.

Lemma cmp_flip a b : Instr.cmp a b = CompOpp (Instr.cmp b a).
Proof. unfold Instr.cmp. apply cmp_bytes_antisym. Qed.
Lemma bits_are_matches f r p : filter_wf f → bits_are f r p →
  (∀ u, (u < 8 * len f)%nat → fm f u = true → p u = fv f u) → matches f r = true.
Proof. intros Hf (W & L & B) H. apply matches_bits; [done..|]. intros u Hu Hm. rewrite B by done. auto. Qed.

Section least.
Context (f : InstructionFilter) (Hf : filter_wf f) (i : Instruction) (Hi : instr_wf i).
Context (k : nat) (Hk : (k <= Nat.min (8 * len f) (8 * length (Instr.bytes i)))%nat) (Hpre : prefix_ok f i k).

Lemma shape_match u : (u < 8 * len f)%nat → fm f u = true → shape f i k u = fv f u.
Proof using Hpre. intros Hu Hm. unfold shape. case_cmp; [by apply Hpre | done]. Qed.
Lemma follow_least r : bits_are f r (shape f i k) → Instr.cmp r i ≠ Lt → least_match f i r.
Proof using All.
  intros Hr Hc. pose proof Hr as (W & L & _). split_and!; [done|done| | |].
  - eapply bits_are_matches; [done|exact Hr|]. exact shape_match.
  - rewrite cmp_flip. by destruct (Instr.cmp r i).
  - intros y Wy Ly My Hy. by apply (follow_minimal f Hf i Hi k Hk y Wy Ly My Hy).
Qed.
Lemma found_least r0 r t : bits_are f r0 (shape f i k) → Instr.cmp r0 i = Lt →
  (k = Nat.min (8 * len f) (8 * length (Instr.bytes i)) ∨
   ((k < Nat.min (8 * len f) (8 * length (Instr.bytes i)))%nat ∧ fm f k = true ∧
    lbit (Instr.bytes i) k = true ∧ fv f k = false)) →
  found f i k r t → least_match f i r.
Proof using All.
  intros Hr0 Hlt Hstop Hfd. pose proof Hfd as [Htk Hx0 Hw Hr _]. pose proof Hr as (W & L & _).
  split_and!; [done|done| | |].
  - eapply bits_are_matches; [done|exact Hr|]. intros u Hu Hm. cbn. case_cmp; [congruence|].
    unfold shape. case_cmp; [apply Hpre; [lia|done] | done].
  - rewrite cmp_flip, (cmp_at f i Hi r _ t Hr); [by rewrite Nat.eqb_refl|lia| |by rewrite Nat.eqb_refl, Hx0].
    intros u Hu. unfold shape. case_cmps; done || lia.
  - intros y Wy Ly My Hy. eapply (found_minimal f Hf i Hi k Hk Hstop y Wy Ly My Hy r0 r t); done.
Qed.
End least.

(** Where [follow] stops below the instruction, the filter has a zero. *)
Lemma stop_above f i (Hi : instr_wf i) k r : bits_are f r (shape f i k) →
  (k < Nat.min (8 * len f) (8 * length (Instr.bytes i)))%nat → Instr.cmp r i = Lt →
  lbit (Instr.bytes i) k ≠ fv f k → lbit (Instr.bytes i) k = true ∧ fv f k = false.
Proof.
  intros Hr Hk Hc Hd. assert (shape f i k k = fv f k) as Es by (unfold shape; case_cmps; done).
  rewrite (cmp_at f i Hi r _ k Hr) in Hc; [|done|intros u Hu; unfold shape; case_cmps; done|congruence].
  rewrite Es in Hc. by destruct (fv f k), (lbit (Instr.bytes i) k).
Qed.
Lemma none_match f i s y : filter_wf f → bits_are f s (fmax f) → Instr.cmp i s = Gt →
  instr_wf y → Instr.byte_len y = len f → matches f y = true → Instr.cmp i y = Gt.
Proof.
  intros Hf Hs Hgt Wy Ly My. unfold Instr.cmp in *.
  destruct (Instr.cmp_bytes (Instr.bytes s) (Instr.bytes y)) eqn:E.
  - apply cmp_bytes_eq in E. by rewrite <- E.
  - apply cmp_lt_inv in E as (t & (Ht & _) & E1 & E2); [|apply (bytes_wf s); apply Hs|apply (bytes_wf y Wy)|].
    2:{ destruct Hs as (_ & L & _). rewrite L. by rewrite <- Ly. }
    pose proof Hs as (_ & L & B). rewrite B in E1 by lia. exfalso.
    rewrite (y_max f Hf y Wy Ly My t) in E2; [done|lia|done].
  - rewrite (cmp_bytes_antisym (Instr.bytes y)), (cmp_bytes_trans _ (Instr.bytes s)); [done| |].
    + by rewrite cmp_bytes_antisym, E.
    + by rewrite cmp_bytes_antisym, Hgt.
Qed.

Lemma next_matching_ok f i : filter_wf f → (len f <= 15)%nat → instr_wf i →
  ∃ o, next_matching_instruction f i = Ok o ∧
  match o with
  | Some r => least_match f i r
  | None => ∀ y, instr_wf y → Instr.byte_len y = len f → matches f y = true → Instr.cmp i y = Gt
  end.
Proof.
  intros Hf Hlen Hi. unfold next_matching_instruction.
  destruct (largest_ok f Hf Hlen) as (L & -> & HL). rewrite M_bind_Ok.
  assert (Instr.cmp i L = Gt ∨ Instr.cmp i L ≠ Gt) as [Hgt|Hle] by (destruct (Instr.cmp i L); auto).
  { rewrite Hgt. exists None. split; [done|]. intros y Wy Ly My. by apply (none_match f i L). }
  destruct (smallest_ok f Hf Hlen) as (s & -> & Hs). rewrite M_bind_Ok.
  destruct (follow_ok f Hf i Hi (Nat.min (8 * len f) (8 * length (Instr.bytes i))) 0 s) as (r & k & Hr & Hk & Hbits & Hpre & Hend);
    [done | done | intros u Hu; lia|].
  replace (Nat.min (Instr.bit_len s) (Instr.bit_len i)) with (Nat.min (8 * len f) (8 * length (Instr.bytes i)))
    by (unfold Instr.bit_len, Instr.byte_len; destruct Hs as (_ & -> & _); lia).
  rewrite Hr, M_bind_Ok. destruct (Instr.cmp r i) eqn:Hc.
  1,3: exists (Some r); split; [by destruct (Instr.cmp i L)|]; apply (follow_least f Hf i Hi k Hk Hpre); [done|congruence].
  assert (k = Nat.min (8 * len f) (8 * length (Instr.bytes i)) ∨
    ((k < Nat.min (8 * len f) (8 * length (Instr.bytes i)))%nat ∧ fm f k = true ∧
     lbit (Instr.bytes i) k = true ∧ fv f k = false)) as Hstop.
  { destruct Hend as [|(Hkm & Hm & Hd)]; [by left|right]. pose proof (stop_above f i Hi k r Hbits Hkm Hc Hd). tauto. }
  destruct (carry_ok f Hf i Hi k Hk Hpre Hstop (Nat.min (8 * len f) (8 * length (Instr.bytes i))) r) as (r' & Hr' & Hfound);
    [done | by rewrite Nat.min_r | intros; lia |].
  rewrite Hr', M_bind_Ok. exists (Some r'). split; [by destruct (Instr.cmp i L)|]. destruct Hfound as [[t Ht]|Hmax].
  - by eapply found_least.
  - by destruct (not_above_largest f i Hi k Hk Hstop r L Hbits Hc HL Hle).
Qed.
(** C18: [next_matching_instruction] returns the least instruction of the filter's
    length that matches the filter and is not below the given instruction, or
    [None] exactly when every such match is below it; it never panics for filters
    of at most 15 bytes, and instructions of any length. *)
Theorem next_matching_instruction_spec f i : filter_wf f → (len f <= 15)%nat → instr_wf i →
  ∃ o, next_matching_instruction f i = Ok o ∧
  match o with
  | Some r => least_match f i r
  | None => ∀ y, instr_wf y → Instr.byte_len y = len f → matches f y = true → Instr.cmp i y = Gt
  end.
Proof. apply next_matching_ok. Qed.

Definition next_example : InstructionFilter := {| bfs := [{| mask := 0xf0; value := 0x40 |}; {| mask := 0x0f; value := 0x08 |}] |}.
Lemma next_matching_instruction_spec_witness : ∃ r,
  next_matching_instruction next_example (example_instr [0x45; 0xf9]) = Ok (Some r) ∧
  Instr.bytes r = [0x46; 0x08] ∧ least_match next_example (example_instr [0x45; 0xf9]) r.
Proof.
  destruct (next_matching_instruction_spec next_example (example_instr [0x45; 0xf9])) as (o & Ho & H);
    [filter_wf | cbn; lia | example_wf |].
  assert (∃ r, next_matching_instruction next_example (example_instr [0x45; 0xf9]) = Ok (Some r) ∧
    Instr.bytes r = [0x46; 0x08]) as (r & Hr & Hb) by (eexists; split; vm_compute; reflexivity).
  exists r. split; [exact Hr|]. split; [exact Hb|]. rewrite Hr in Ho. by apply (inj Ok) in Ho as <-.
Defined.

(** The documentation of [next_matching_instruction] says that an instruction
    that matches the filter is returned; one longer than the filter is not: the
    result has the filter's length, and is [None] for [48 00] and the filter [48]. *)
Theorem next_matching_longer :
  let f := {| bfs := [{| mask := 0xff; value := 0x48 |}] |} in
  matches f (example_instr [0x48; 0x00]) = true ∧
  next_matching_instruction f (example_instr [0x48; 0x00]) = Ok None.
Proof. split; vm_compute; reflexivity. Qed.
