(* ===== verification/Bitmap.v ===== *)
(** * Bitmaps

    Models [liblisa/src/utils/bitmap/mod.rs] and
    [liblisa/src/utils/bitmap/fixed.rs]: the trait [BitmapSlice] as a class with
    its default methods, the lazy combinations of two slices as instances, and
    [FixedBitmapU64], an array of [N] words of 64 bits, with the operations of the
    trait [Bitmap].  [iter_data] is the list of words it yields; the slices
    [AllOnes] and [AllZeros], whose iterators never end, are not modelled. *)
From S2P Require Import Prelude MachInt Utils.

Class BitmapSlice (B : Type) := {
  get : B → nat → bool;
  len : B → nat;
  iter_data : B → list Z;
}.

(** [(item >> index) & 1 != 0]. *)
Definition bit_of (item : Z) (index : nat) : bool := negb (Z.land (Z.shiftr item (Z.of_nat index)) 1 =? 0).
(** [iter.chain(repeat(0))], as far as a partner of [n] words reads it. *)
Definition chain_zeros (l : list Z) (n : nat) : list Z := l ++ replicate n 0.

(** ** Combined slices *)

Record AndWith A B := { and_a : A; and_b : B }.
Record OrWith A B := { or_a : A; or_b : B }.
Record XorWith A B := { xor_a : A; xor_b : B }.
Record ClearFrom A B := { clear_a : A; clear_b : B }.
Record Flipped A := { flipped_a : A }.
Arguments and_a {A B}. Arguments and_b {A B}. Arguments or_a {A B}. Arguments or_b {A B}.
Arguments xor_a {A B}. Arguments xor_b {A B}. Arguments clear_a {A B}. Arguments clear_b {A B}.
Arguments flipped_a {A}.

Fixpoint zip_longest (f : Z → Z → Z) (l k : list Z) : list Z :=
  match l, k with
  | a :: l, b :: k => f a b :: zip_longest f l k
  | [], k => k
  | l, [] => l
  end.
(** The closure of [Flipped::iter_data], with its captured [remaining]. *)
Fixpoint flip_words (remaining : nat) (l : list Z) : list Z :=
  match l with
  | [] => []
  | x :: l =>
      if (64 <=? remaining)%nat then not_u 64 x :: flip_words (remaining - 64) l
      else Z.land (not_u 64 x) (Z.shiftl 1 (Z.of_nat remaining) - 1) :: flip_words remaining l
  end.

Section combined.
Context {A B} `{BitmapSlice A, BitmapSlice B}.
#[export] Instance AndWith_slice : BitmapSlice (AndWith A B) := {
  get self index := get (and_a self) index && get (and_b self) index;
  len self := Nat.min (len (and_a self)) (len (and_b self));
  iter_data self := zip_with Z.land (iter_data (and_a self)) (iter_data (and_b self));
}.
#[export] Instance OrWith_slice : BitmapSlice (OrWith A B) := {
  get self index := get (or_a self) index || get (or_b self) index;
  len self := Nat.max (len (or_a self)) (len (or_b self));
  iter_data self := zip_longest Z.lor (iter_data (or_a self)) (iter_data (or_b self));
}.
#[export] Instance XorWith_slice : BitmapSlice (XorWith A B) := {
  get self index := xorb (get (xor_a self) index) (get (xor_b self) index);
  len self := Nat.max (len (xor_a self)) (len (xor_b self));
  iter_data self := zip_longest Z.lxor (iter_data (xor_a self)) (iter_data (xor_b self));
}.
#[export] Instance ClearFrom_slice : BitmapSlice (ClearFrom A B) := {
  get self index := get (clear_a self) index && negb (get (clear_b self) index);
  len self := len (clear_a self);
  iter_data self := let a := iter_data (clear_a self) in
    zip_with (λ a b, Z.land a (not_u 64 b)) a (chain_zeros (iter_data (clear_b self)) (length a));
}.
#[export] Instance Flipped_slice : BitmapSlice (Flipped A) := {
  get self index := negb (get (flipped_a self) index);
  len self := len (flipped_a self);
  iter_data self := flip_words (len (flipped_a self)) (iter_data (flipped_a self));
}.
End combined.

(** ** Default methods *)

Module Slice.
Section methods.
Context {A B} `{BitmapSlice A, BitmapSlice B}.
Definition is_empty (self : A) : bool := (len self =? 0)%nat.
Definition anded_with (self : A) (other : B) : AndWith A B := {| and_a := self; and_b := other |}.
Definition ored_with (self : A) (other : B) : OrWith A B := {| or_a := self; or_b := other |}.
Definition xored_with (self : A) (other : B) : XorWith A B := {| xor_a := self; xor_b := other |}.
Definition cleared_from (self : A) (other : B) : ClearFrom A B := {| clear_a := self; clear_b := other |}.
Definition flipped (self : A) : Flipped A := {| flipped_a := self |}.
Definition is_all_zeros (self : A) : bool := forallb (λ x, x =? 0) (iter_data self).
Definition is_subset_of (self : A) (other : B) : bool :=
  forallb (λ '(subset, whole), Z.lor subset whole =? whole)
    (zip (chain_zeros (iter_data self) (length (iter_data other))) (iter_data other)).
Definition one_indices (offset : nat) (item : Z) : list nat :=
  (λ index, (index + offset * 64)%nat) <$> List.filter (bit_of item) (seq 0 64).
Definition iter_one_indices (self : A) : list nat := concat (imap one_indices (iter_data self)).
Definition iter (self : A) : list bool := concat ((λ val, bit_of val <$> seq 0 64) <$> iter_data self).
Definition count_ones (self : A) : nat := sum_list (MachInt.count_ones 64 <$> iter_data self).
Definition count_zeros {P : profile} (self : A) : M Z :=
  sub_u 64 (Z.of_nat (sum_list (MachInt.count_zeros 64 <$> iter_data self))) (Z.of_nat (64 - len self `mod` 64)).
End methods.

Section overlap.
Context {A B} `{BitmapSlice A, BitmapSlice B}.
Definition count_overlapping_with (self : A) (other : B) : nat :=
  sum_list (MachInt.count_ones 64 <$> iter_data (anded_with self other)).
Definition overlaps_with (self : A) (other : B) : bool :=
  existsb (λ x, negb (x =? 0)) (iter_data (anded_with self other)).
End overlap.
End Slice.

(** ** [FixedBitmapU64] *)

Record FixedBitmapU64 (N : nat) := { data : list Z }.
Arguments data {N}.

#[export] Instance FixedBitmapU64_slice N : BitmapSlice (FixedBitmapU64 N) := {
  get self x := bit_of (default 0 (data self !! (x / 64)%nat)) (x `mod` 64);
  len self := (N * 64)%nat;
  iter_data self := data self;
}.

Module Fixed.
(** [for (a, b) in data.iter_mut().zip(..)] with the flag [changed]. *)
Fixpoint update_words (f : Z → Z → Z) (l k : list Z) (changed : bool) : list Z * bool :=
  match l, k with
  | a :: l, b :: k =>
      let new := f a b in
      let '(r, c) := update_words f l k (changed || negb (a =? new)) in (new :: r, c)
  | l, _ => (l, changed)
  end.

Section ops.
Context {N : nat}.
Definition default : FixedBitmapU64 N := {| data := replicate N 0 |}.
Definition set (self : FixedBitmapU64 N) (x : nat) : M (FixedBitmapU64 N * bool) :=
  let mask := Z.shiftl 1 (Z.of_nat (x `mod` 64)) in
  w ← vget (data self) (x / 64);
  let changed := Z.land w mask =? 0 in
  d ← vset (data self) (x / 64) (Z.lor w mask);
  Ok ({| data := d |}, changed).
Definition clear (self : FixedBitmapU64 N) (x : nat) : M (FixedBitmapU64 N * bool) :=
  let mask := Z.shiftl 1 (Z.of_nat (x `mod` 64)) in
  w ← vget (data self) (x / 64);
  let changed := negb (Z.land w mask =? 0) in
  d ← vset (data self) (x / 64) (Z.land w (not_u 64 mask));
  Ok ({| data := d |}, changed).
Fixpoint set_many (self : FixedBitmapU64 N) (indices : list nat) : M (FixedBitmapU64 N) :=
  match indices with [] => Ok self | item :: l => r ← set self item; set_many (fst r) l end.
Fixpoint clear_many (self : FixedBitmapU64 N) (indices : list nat) : M (FixedBitmapU64 N) :=
  match indices with [] => Ok self | item :: l => r ← clear self item; clear_many (fst r) l end.

Section with_other.
Context {B} `{BitmapSlice B}.
Definition update (f : Z → Z → Z) (self : FixedBitmapU64 N) (other : B) : FixedBitmapU64 N * bool :=
  let '(d, changed) := update_words f (data self) (chain_zeros (iter_data other) (length (data self))) false in
  ({| data := d |}, changed).
Definition and_with := update Z.land.
Definition clear_from := update (λ a b, Z.land a (not_u 64 b)).
Definition or_with := update Z.lor.
Definition xor_with := update Z.lxor.
End with_other.

Definition is_all_ones (self : FixedBitmapU64 N) : bool := forallb (λ x, x =? U64_MAX) (data self).
Definition is_superset_of (self other : FixedBitmapU64 N) : bool :=
  forallb (λ '(a, b), Z.lor a b =? a) (zip (data self) (data other)).
Definition new_all_zeros (len : nat) : M (FixedBitmapU64 N) :=
  assert! (len <=? N * 64)%nat; Ok default.
(** [while len >= 64], at most [fuel] iterations. *)
Fixpoint fill_ones (fuel : nat) (d : list Z) (index len : nat) : M (list Z * nat * nat) :=
  match fuel with
  | O => OutOfFuel
  | S fuel =>
      if (64 <=? len)%nat then d ← vset d index U64_MAX; fill_ones fuel d (index + 1) (len - 64)
      else Ok (d, index, len)
  end.
Definition new_all_ones (len : nat) : M (FixedBitmapU64 N) :=
  result ← new_all_zeros len;
  '(d, index, len) ← fill_ones (S len) (data result) 0 len;
  if (0 <? len)%nat then
    assert! (len <? 64)%nat;
    d ← vset d index (Z.shiftr U64_MAX (Z.of_nat (64 - len))); Ok {| data := d |}
  else Ok {| data := d |}.
(** [FromIterator<bool>] and [FromIterator<usize>]. *)
Fixpoint from_bools_loop (self : FixedBitmapU64 N) (index : nat) (l : list bool) : M (FixedBitmapU64 N) :=
  match l with
  | [] => Ok self
  | b :: l =>
      if (N * 64 <=? index)%nat then Panic else
      if b then r ← set self index; from_bools_loop (fst r) (S index) l
      else from_bools_loop self (S index) l
  end.
Definition from_bools (l : list bool) : M (FixedBitmapU64 N) := from_bools_loop default 0 l.
Definition from_indices (l : list nat) : M (FixedBitmapU64 N) := set_many default l.
Definition iter_one_indices_rev (self : FixedBitmapU64 N) : list nat :=
  concat (reverse (imap (λ offset item,
    (λ index, (index + offset * 64)%nat) <$> List.filter (bit_of item) (reverse (seq 0 64))) (data self))).
End ops.
Definition from_u64 (value : Z) : FixedBitmapU64 1 := {| data := [value] |}.
Definition as_u64 (self : FixedBitmapU64 1) : M Z := vget (data self) 0.
End Fixed.
