(* ===== verification/BitmapFacts.v ===== *)
(** * Bitmaps as sets of indices

    The laws a [BitmapSlice] must satisfy, as a class that the combined slices
    and [FixedBitmapU64] are instances of; the default methods are proved against
    these laws, and the operations of [FixedBitmapU64] by the bits they change. *)
From S2P Require Import Prelude MachInt Utils Bitmap.

(** Bit [i] of a list of words. *)
Definition word_bit (l : list Z) (i : nat) : bool :=
  Z.testbit (default 0 (l !! (i / 64)%nat)) (Z.of_nat (i `mod` 64)).

(** What users of a slice rely on: words of 64 bits, exactly as many as the length
    needs (what [GrowingBitmap::from_slice] asserts), that hold the bits below
    the length and zeros from there on. *)
Class SliceOk {B} `{BitmapSlice B} (b : B) : Prop := {
  words_u64 : Forall (is_u 64) (iter_data b);
  words_tight : (len b <= 64 * length (iter_data b) < len b + 64)%nat;
  get_word : ∀ i, (i < len b)%nat → get b i = word_bit (iter_data b) i;
  zero_tail : ∀ i, (len b <= i)%nat → word_bit (iter_data b) i = false;
}.
(** The slice can be read past its end, and has zeros there. *)
Class ZeroBeyond {B} `{BitmapSlice B} (b : B) : Prop :=
  get_beyond : ∀ i, (len b <= i)%nat → get b i = false.

Lemma bit_of_testbit x i : bit_of x i = Z.testbit x (Z.of_nat i).
Proof.
  unfold bit_of. change 1 with (Z.ones 1). rewrite Z.land_ones by lia. change (2 ^ 1) with 2.
  rewrite <- Z.bit0_mod, Z.shiftr_spec, Z.add_0_l by lia. by destruct (Z.testbit x _).
Qed.
Lemma word_bit_past l i : (64 * length l <= i)%nat → word_bit l i = false.
Proof.
  intros Hi. unfold word_bit. rewrite (proj2 (lookup_ge_None l (i / 64))); [apply Z.bits_0|].
  apply Nat.div_le_lower_bound; lia.
Qed.
Lemma word_bit_app_l l k i : (i < 64 * length l)%nat → word_bit (l ++ k) i = word_bit l i.
Proof.
  intros Hi. unfold word_bit. rewrite lookup_app_l; [done|]. apply Nat.Div0.div_lt_upper_bound. lia.
Qed.
Lemma word_bit_last l x i : (i < 64)%nat → word_bit (l ++ [x]) (64 * length l + i) = Z.testbit x (Z.of_nat i).
Proof.
  intros Hi. unfold word_bit. rewrite (Nat.mul_comm 64), (Nat.add_comm _ i), Nat.div_add, Nat.Div0.mod_add by lia.
  rewrite Nat.div_small, Nat.mod_small, Nat.add_0_l, list_lookup_middle by done. done.
Qed.
Lemma word_bit_at l j x i : l !! j = Some x → (i < 64)%nat → word_bit l (64 * j + i) = Z.testbit x (Z.of_nat i).
Proof.
  intros Hj Hi. unfold word_bit. rewrite (Nat.mul_comm 64), (Nat.add_comm _ i), Nat.div_add, Nat.Div0.mod_add by lia.
  by rewrite Nat.div_small, Nat.mod_small, Nat.add_0_l, Hj by done.
Qed.

(** ** Walking over the words *)

(** The indices of the ones, in increasing order. *)
Definition set_bits (l : list Z) : list nat := List.filter (word_bit l) (seq 0 (64 * length l)).

Lemma set_bits_snoc l x : set_bits (l ++ [x]) = set_bits l ++ (Nat.add (64 * length l) <$> ones 64 x).
Proof.
  unfold set_bits, ones. rewrite length_app. cbn [length].
  replace (64 * (length l + 1))%nat with (64 * length l + 64)%nat by lia.
  rewrite seq_app, List.filter_app, Nat.add_0_l, (filter_seq_shift _ (64 * length l)). f_equal.
  - apply List.filter_ext_in. intros i Hi%List.in_seq. apply word_bit_app_l. lia.
  - f_equal. apply List.filter_ext_in. intros i Hi%List.in_seq. apply word_bit_last. lia.
Qed.
Lemma one_indices_eq offset x : Slice.one_indices offset x = Nat.add (64 * offset) <$> ones 64 x.
Proof.
  unfold Slice.one_indices, ones. rewrite (List.filter_ext (bit_of x) _ (bit_of_testbit x)).
  apply list_fmap_ext. intros _ i _. lia.
Qed.
Lemma concat_one_indices l : concat (imap Slice.one_indices l) = set_bits l.
Proof.
  induction l as [|x l IH] using rev_ind; [done|].
  rewrite imap_app, concat_app, IH, set_bits_snoc. f_equal. cbn [imap concat].
  by rewrite app_nil_r, Nat.add_0_r, one_indices_eq.
Qed.
Lemma sum_count_ones l : sum_list (count_ones 64 <$> l) = length (set_bits l).
Proof.
  induction l as [|x l IH] using rev_ind; [done|].
  rewrite fmap_app, sum_list_with_app, IH, set_bits_snoc, length_app, length_fmap. f_equal. apply Nat.add_0_r.
Qed.
Lemma elem_of_set_bits l i : i ∈ set_bits l ↔ word_bit l i = true.
Proof.
  unfold set_bits. rewrite list_elem_of_In, List.filter_In, List.in_seq. split; [tauto|]. intros H. split; [|done].
  destruct (Nat.lt_ge_cases i (64 * length l)); [lia|]. by rewrite word_bit_past in H.
Qed.
Lemma word_zero_iff l : Forall (is_u 64) l → forallb (λ x, x =? 0) l = true ↔ ∀ i, word_bit l i = false.
Proof.
  intros Hl. rewrite List.forallb_forall. split.
  - intros H i. unfold word_bit. destruct (l !! (i / 64)%nat) as [x|] eqn:E; [|apply Z.bits_0].
    apply list_elem_of_lookup_2, list_elem_of_In, H, Z.eqb_eq in E as ->. apply Z.bits_0.
  - intros H x (j & Hj)%list_elem_of_In%list_elem_of_lookup_1. apply Z.eqb_eq.
    apply (u_ext 64); [lia | by eapply Forall_lookup_1 in Hj | by split |]. intros k Hk. rewrite Z.bits_0.
    specialize (H (64 * j + Z.to_nat k)%nat). rewrite (word_bit_at l j x) in H by (done || lia).
    by rewrite Z2Nat.id in H by lia.
Qed.

(** ** Instances of the laws *)

Lemma word_bit_bound i : (i `mod` 64 < 64)%nat.
Proof. apply Nat.mod_upper_bound. lia. Qed.
Lemma words_eq l k : Forall (is_u 64) l → Forall (is_u 64) k → length l = length k →
  (∀ i, word_bit l i = word_bit k i) → l = k.
Proof.
  intros Hl Hk Hlen H. apply (list_eq_same_length l k (length l)); [done..|]. intros j x y Hj Hx Hy.
  apply (u_ext 64); [lia | by eapply Forall_lookup_1 in Hx | by eapply Forall_lookup_1 in Hy |]. intros i Hi.
  specialize (H (64 * j + Z.to_nat i)%nat). rewrite (word_bit_at l j x), (word_bit_at k j y) in H by (done || lia).
  by rewrite Z2Nat.id in H by lia.
Qed.

Lemma lookup_zip_longest f l : ∀ k j, zip_longest f l k !! j =
  match l !! j, k !! j with Some a, Some b => Some (f a b) | Some a, None => Some a | None, o => o end.
Proof.
  induction l as [|a l IH]; intros [|b k] [|j]; cbn [zip_longest lookup list_lookup]; try done.
  by destruct (l !! j).
Qed.
Lemma length_zip_longest f l : ∀ k, length (zip_longest f l k) = Nat.max (length l) (length k).
Proof. induction l as [|a l IH]; intros [|b k]; cbn [zip_longest length]; try lia. rewrite IH. lia. Qed.
Lemma zip_longest_u64 f l : ∀ k, (∀ a b, is_u 64 a → is_u 64 b → is_u 64 (f a b)) →
  Forall (is_u 64) l → Forall (is_u 64) k → Forall (is_u 64) (zip_longest f l k).
Proof.
  induction l as [|a l IH]; intros [|b k] Hf Hl Hk; cbn [zip_longest]; try done.
  apply Forall_cons in Hl as [Ha Hl]. apply Forall_cons in Hk as [Hb Hk]. constructor; auto.
Qed.

Lemma word_bit_land l k i : word_bit (zip_with Z.land l k) i = word_bit l i && word_bit k i.
Proof.
  unfold word_bit. rewrite lookup_zip_with. destruct (l !! (i / 64)%nat), (k !! (i / 64)%nat); cbn;
    rewrite ?Z.bits_0, ?andb_false_r; try done. apply Z.land_spec.
Qed.
Lemma word_bit_zip_longest f g l k i :
  (∀ a b j, Z.testbit (f a b) j = g (Z.testbit a j) (Z.testbit b j)) →
  (∀ c, g c false = c) → (∀ c, g false c = c) →
  word_bit (zip_longest f l k) i = g (word_bit l i) (word_bit k i).
Proof.
  intros Hf H0 H1. unfold word_bit. rewrite lookup_zip_longest.
  destruct (l !! (i / 64)%nat), (k !! (i / 64)%nat); cbn; rewrite ?Z.bits_0, ?H0, ?H1; try done.
Qed.
Lemma word_bit_clear l k i :
  word_bit (zip_with (λ a b, Z.land a (not_u 64 b)) l (chain_zeros k (length l))) i = word_bit l i && negb (word_bit k i).
Proof.
  unfold word_bit. rewrite lookup_zip_with. destruct (l !! (i / 64)%nat) as [a|] eqn:E; [|by cbn; rewrite Z.bits_0].
  cbn [mbind option_bind from_option id].
  pose proof (word_bit_bound i). apply lookup_lt_Some in E.
  assert (∀ b, Z.testbit (Z.land a (not_u 64 b)) (Z.of_nat (i `mod` 64)) =
    Z.testbit a (Z.of_nat (i `mod` 64)) && negb (Z.testbit b (Z.of_nat (i `mod` 64)))) as Hb.
  { intros b. unfold not_u. rewrite Z.land_spec, testbit_wrap, Z.lnot_spec by lia. by case_cmps. }
  unfold chain_zeros. destruct (k !! (i / 64)%nat) as [b|] eqn:Ek.
  - rewrite lookup_app_l, Ek by (by eapply lookup_lt_Some). apply Hb.
  - apply lookup_ge_None in Ek. rewrite lookup_app_r, lookup_replicate_2 by lia. cbn [mbind option_bind from_option id]. by rewrite Hb, Z.bits_0.
Qed.

Lemma length_flip_words l : ∀ r, length (flip_words r l) = length l.
Proof. induction l as [|x l IH]; intros r; cbn [flip_words length]; [done|]. case_match; cbn [length]; by rewrite IH. Qed.
Lemma testbit_not_u64 x j : (j < 64)%nat → Z.testbit (not_u 64 x) (Z.of_nat j) = negb (Z.testbit x (Z.of_nat j)).
Proof. intros Hj. unfold not_u. rewrite testbit_wrap, Z.lnot_spec by lia. by case_cmps. Qed.
Lemma word_bit_head x l i : (i < 64)%nat → word_bit (x :: l) i = Z.testbit x (Z.of_nat i).
Proof. intros Hi. by apply (word_bit_at (x :: l) 0 x i). Qed.
Lemma word_bit_tail x l i : word_bit (x :: l) (64 + i) = word_bit l i.
Proof.
  unfold word_bit. replace (64 + i)%nat with (i + 1 * 64)%nat by lia.
  rewrite Nat.Div0.mod_add, Nat.div_add, Nat.add_1_r by lia. done.
Qed.
(** The last word needs the mask; there is no word after it. *)
Lemma word_bit_flip l : ∀ r i, (r <= 64 * length l < r + 64)%nat →
  word_bit (flip_words r l) i = (i <? r)%nat && negb (word_bit l i).
Proof.
  induction l as [|x l IH]; intros r i Hlen.
  - cbn [length] in Hlen. assert (r = 0)%nat as -> by lia. cbn [flip_words]. by rewrite word_bit_past by (cbn; lia).
  - cbn [length flip_words] in *. destruct (Nat.leb_spec 64 r) as [Hr|Hr].
    + assert (r - 64 <= 64 * length l < r - 64 + 64)%nat as Hl by lia. destruct (Nat.lt_ge_cases i 64) as [Hi|Hi].
      * rewrite !word_bit_head, testbit_not_u64 by done. case_cmps. done.
      * replace i with (64 + (i - 64))%nat by lia. rewrite !word_bit_tail, IH by done. f_equal. case_cmps; done || lia.
    + assert (l = []) as -> by (apply length_zero_iff_nil; lia). cbn [flip_words].
      destruct (Nat.lt_ge_cases i 64) as [Hi|Hi].
      * rewrite !word_bit_head, Z.land_spec, testbit_not_u64, andb_comm by done. f_equal.
        replace (Z.shiftl 1 (Z.of_nat r) - 1) with (Z.ones (Z.of_nat r)) by (rewrite Z.ones_equiv, Z.shiftl_1_l; lia).
        rewrite Z.testbit_ones_nonneg by lia. case_cmps; done || lia.
      * rewrite word_bit_past by (cbn; lia). case_cmps. done.
Qed.

Lemma flip_words_u64 l : ∀ r, Forall (is_u 64) (flip_words r l).
Proof.
  assert (∀ x, is_u 64 (not_u 64 x)) as Hn by (intros; apply wrap_is_u; lia).
  induction l as [|x l IH]; intros r; cbn [flip_words]; [constructor|]. case_match; constructor; auto.
  apply u_of_bits; [lia | apply Z.land_nonneg; left; apply Hn|]. intros i Hi.
  by rewrite Z.land_spec, (testbit_u_high 64 (not_u 64 x)) by (done || lia).
Qed.
Lemma zip_with_u64 (f : Z → Z → Z) l k : (∀ a b, is_u 64 a → is_u 64 (f a b)) → Forall (is_u 64) l → Forall (is_u 64) (zip_with f l k).
Proof. intros Hf Hl. revert k. induction Hl; intros [|y k]; constructor; auto. Qed.
Lemma land_u64 a b : is_u 64 a → is_u 64 (Z.land a b).
Proof.
  intros Ha. apply u_of_bits; [lia | apply Z.land_nonneg; left; apply Ha|].
  intros i Hi. rewrite Z.land_spec, (testbit_u_high 64 a) by (done || lia). done.
Qed.

Lemma get_word_all {B} `{BitmapSlice B} (b : B) `{!SliceOk b, !ZeroBeyond b} i : get b i = word_bit (iter_data b) i.
Proof.
  destruct (Nat.lt_ge_cases i (len b)); [by apply get_word|]. by rewrite get_beyond, zero_tail by done.
Qed.

Section instances.
Context {A B} `{BitmapSlice A, BitmapSlice B} (a : A) (b : B) `{Ha : !SliceOk a, Hb : !SliceOk b}.

#[export] Instance AndWith_ok : SliceOk (Slice.anded_with a b).
Proof using Ha Hb.
  pose proof (words_tight (b:=a)). pose proof (words_tight (b:=b)). split; cbn [iter_data len get AndWith_slice and_a and_b Slice.anded_with].
  - apply zip_with_u64; [intros; by apply land_u64 | apply words_u64].
  - rewrite length_zip_with. lia.
  - intros i Hi. rewrite word_bit_land, !get_word by lia. done.
  - intros i Hi. rewrite word_bit_land. destruct (Nat.lt_ge_cases i (len a)).
    + rewrite (zero_tail (b:=b)) by lia. apply andb_false_r.
    + by rewrite (zero_tail (b:=a)).
Qed.
#[export] Instance Flipped_ok : SliceOk (Slice.flipped a).
Proof using Ha.
  pose proof (words_tight (b:=a)). split; cbn [iter_data len get Flipped_slice flipped_a Slice.flipped].
  - apply flip_words_u64.
  - by rewrite length_flip_words.
  - intros i Hi. rewrite word_bit_flip, get_word by done. case_cmps. done.
  - intros i Hi. rewrite word_bit_flip by done. case_cmps. done.
Qed.

Context `{Za : !ZeroBeyond a, Zb : !ZeroBeyond b}.
#[export] Instance AndWith_zero : ZeroBeyond (Slice.anded_with a b).
Proof using Za Zb.
  intros i Hi. cbn in *. destruct (Nat.lt_ge_cases i (len a)).
  - rewrite (get_beyond (b:=b)) by lia. apply andb_false_r.
  - by rewrite (get_beyond (b:=a)).
Qed.
Lemma longest_ok f g (Hf : ∀ a b j, Z.testbit (f a b) j = g (Z.testbit a j) (Z.testbit b j))
  (Hr : ∀ c, g c false = c) (Hl : ∀ c, g false c = c) (Hu : ∀ a b, is_u 64 a → is_u 64 b → is_u 64 (f a b)) :
  let l := zip_longest f (iter_data a) (iter_data b) in let n := Nat.max (len a) (len b) in
  Forall (is_u 64) l ∧ (n <= 64 * length l < n + 64)%nat ∧
  (∀ i, (i < n)%nat → g (get a i) (get b i) = word_bit l i) ∧
  (∀ i, (n <= i)%nat → word_bit l i = false) ∧ (∀ i, (n <= i)%nat → g (get a i) (get b i) = false).
Proof using Ha Hb Za Zb.
  pose proof (words_tight (b:=a)). pose proof (words_tight (b:=b)). intros l n. split; [|split; [|split; [|split]]].
  - apply zip_longest_u64; [done | apply words_u64..].
  - unfold l, n. rewrite length_zip_longest. lia.
  - unfold l, n. intros i Hi. by rewrite (word_bit_zip_longest f g), !get_word_all.
  - unfold l, n. intros i Hi. by rewrite (word_bit_zip_longest f g), !zero_tail, Hr by (done || lia).
  - unfold n. intros i Hi. by rewrite !get_beyond, Hr by lia.
Qed.
#[export] Instance OrWith_ok : SliceOk (Slice.ored_with a b).
Proof using Ha Hb Za Zb.
  destruct (longest_ok Z.lor orb Z.lor_spec orb_false_r orb_false_l (λ a b, is_u_lor 64 a b ltac:(lia))) as (?&?&?&?&?).
  by split.
Qed.
#[export] Instance OrWith_zero : ZeroBeyond (Slice.ored_with a b).
Proof using Ha Hb Za Zb.
  by destruct (longest_ok Z.lor orb Z.lor_spec orb_false_r orb_false_l (λ a b, is_u_lor 64 a b ltac:(lia))) as (?&?&?&?&?).
Qed.
#[export] Instance XorWith_ok : SliceOk (Slice.xored_with a b).
Proof using Ha Hb Za Zb.
  destruct (longest_ok Z.lxor xorb Z.lxor_spec xorb_false_r xorb_false_l (λ a b, is_u_lxor 64 a b ltac:(lia))) as (?&?&?&?&?).
  by split.
Qed.
#[export] Instance XorWith_zero : ZeroBeyond (Slice.xored_with a b).
Proof using Ha Hb Za Zb.
  by destruct (longest_ok Z.lxor xorb Z.lxor_spec xorb_false_r xorb_false_l (λ a b, is_u_lxor 64 a b ltac:(lia))) as (?&?&?&?&?).
Qed.
#[export] Instance ClearFrom_ok : SliceOk (Slice.cleared_from a b).
Proof using Ha Hb Zb.
  pose proof (words_tight (b:=a)). split; cbn [iter_data len get ClearFrom_slice clear_a clear_b Slice.cleared_from].
  - apply zip_with_u64; [intros; by apply land_u64 | apply words_u64].
  - unfold chain_zeros. rewrite length_zip_with, length_app, length_replicate. lia.
  - intros i Hi. by rewrite word_bit_clear, (get_word (b:=a)), (get_word_all b).
  - intros i Hi. by rewrite word_bit_clear, zero_tail.
Qed.
#[export] Instance ClearFrom_zero : ZeroBeyond (Slice.cleared_from a b).
Proof using Za. intros i Hi. cbn in *. by rewrite get_beyond. Qed.
End instances.

(** A bitmap of [N] words. *)
Record fixed_wf {N} (f : FixedBitmapU64 N) : Prop := {
  fwf_len : length (data f) = N;
  fwf_u64 : Forall (is_u 64) (data f);
}.
Existing Class fixed_wf.
Lemma fixed_get {N} (f : FixedBitmapU64 N) i : get f i = word_bit (data f) i.
Proof. cbn. unfold word_bit. by rewrite bit_of_testbit. Qed.
#[export] Instance fixed_ok {N} (f : FixedBitmapU64 N) `{!fixed_wf f} : SliceOk f.
Proof.
  pose proof (fwf_len f _). split; cbn [iter_data len FixedBitmapU64_slice]; [by apply fwf_u64 | lia | by intros; apply fixed_get|].
  intros i Hi. apply word_bit_past. lia.
Qed.
#[export] Instance fixed_zero {N} (f : FixedBitmapU64 N) `{!fixed_wf f} : ZeroBeyond f.
Proof. intros i Hi. rewrite fixed_get. pose proof (fwf_len f _). apply word_bit_past. cbn in Hi. lia. Qed.

(** ** Default methods, against the laws *)

(** The indices below the length at which [p] holds. *)
Definition indices (n : nat) (p : nat → bool) : list nat := List.filter p (seq 0 n).
Lemma indices_ext n p q : (∀ i, (i < n)%nat → p i = q i) → indices n p = indices n q.
Proof. intros H. apply List.filter_ext_in. intros i Hi%List.in_seq. apply H. lia. Qed.
Lemma elem_of_indices n p i : i ∈ indices n p ↔ (i < n)%nat ∧ p i = true.
Proof. unfold indices. rewrite list_elem_of_In, List.filter_In, List.in_seq. naive_solver lia. Qed.
Lemma indices_tail n m p : (n <= m)%nat → (∀ i, (n <= i)%nat → p i = false) → indices m p = indices n p.
Proof.
  intros Hnm Hp. unfold indices. replace m with (n + (m - n))%nat by lia. rewrite seq_app, List.filter_app.
  assert (List.filter p (seq (0 + n) (m - n)) = []) as ->; [|apply app_nil_r].
  rewrite (List.filter_ext_in _ (λ _, false)) by (intros i Hi%List.in_seq; apply Hp; lia).
  by induction (seq (0 + n) (m - n)).
Qed.

Section methods.
Context {A} `{BitmapSlice A} (a : A) `{Ha : !SliceOk a}.
Lemma set_bits_slice : set_bits (iter_data a) = indices (len a) (get a).
Proof using Ha.
  pose proof (words_tight (b:=a)). unfold set_bits. fold (indices (64 * length (iter_data a)) (word_bit (iter_data a))).
  rewrite (indices_tail (len a)) by (lia || by apply zero_tail). apply indices_ext. intros. by rewrite get_word.
Qed.
Lemma iter_one_indices_eq : Slice.iter_one_indices a = indices (len a) (get a).
Proof using Ha. unfold Slice.iter_one_indices. by rewrite concat_one_indices, set_bits_slice. Qed.
Lemma count_ones_eq : Slice.count_ones a = length (indices (len a) (get a)).
Proof using Ha. unfold Slice.count_ones. by rewrite sum_count_ones, set_bits_slice. Qed.
Lemma all_zeros_iff : Slice.is_all_zeros a = true ↔ ∀ i, (i < len a)%nat → get a i = false.
Proof using Ha.
  unfold Slice.is_all_zeros. rewrite word_zero_iff by apply words_u64. split; intros Hz i.
  - intros Hi. by rewrite get_word.
  - destruct (Nat.lt_ge_cases i (len a)); [rewrite <- get_word by done; auto | by apply zero_tail].
Qed.
Lemma length_indices_negb n p : (length (indices n p) + length (indices n (λ i, negb (p i))) = n)%nat.
Proof using. unfold indices. by rewrite List.filter_length, List.length_seq. Qed.
Lemma sum_count_zeros l : (sum_list (count_zeros 64 <$> l) + sum_list (count_ones 64 <$> l) = 64 * length l)%nat.
Proof using.
  induction l as [|x l IH]; [done|]. rewrite !fmap_cons. cbn [sum_list_with length]. unfold id at 1 3.
  pose proof (count_ones_le 64 x). unfold count_zeros at 1. lia.
Qed.
Lemma count_zeros_eq {P : profile} : Z.of_nat (len a) < 2 ^ 64 →
  let z := Z.of_nat (length (indices (len a) (λ i, negb (get a i)))) in
  Slice.count_zeros a = if (len a `mod` 64 =? 0)%nat then sub_u 64 z 64 else Ok z.
Proof using Ha.
  intros Hlen z. unfold Slice.count_zeros. pose proof (sum_count_zeros (iter_data a)) as Hs.
  rewrite sum_count_ones, set_bits_slice in Hs. pose proof (length_indices_negb (len a) (get a)) as Hn.
  pose proof (words_tight (b:=a)) as Ht.
  pose proof (Nat.div_mod (len a) 64 ltac:(lia)). pose proof (Nat.mod_upper_bound (len a) 64 ltac:(lia)).
  destruct (Nat.eqb_spec (len a `mod` 64) 0) as [E|E].
  - rewrite E. f_equal. unfold z. lia.
  - rewrite sub_u_ok by (split; lia). f_equal. unfold z. lia.
Qed.
End methods.

Lemma lor_absorb_iff s w : is_u 64 s → is_u 64 w → (Z.lor s w =? w) = true ↔
  ∀ j, (j < 64)%nat → Z.testbit s (Z.of_nat j) = true → Z.testbit w (Z.of_nat j) = true.
Proof.
  intros Hs Hw. rewrite Z.eqb_eq. split.
  - intros E j Hj Hb. rewrite <- E, Z.lor_spec, Hb. done.
  - intros Hb. apply (u_ext 64); [lia | by apply is_u_lor | done |]. intros i Hi. rewrite Z.lor_spec.
    specialize (Hb (Z.to_nat i) ltac:(lia)). rewrite Z2Nat.id in Hb by lia.
    destruct (Z.testbit s i); [by rewrite Hb | done].
Qed.
(** Word by word inclusion over the words of the second list. *)
Lemma absorb_words l k n : Forall (is_u 64) l → Forall (is_u 64) k → (length k <= length l + n)%nat →
  forallb (λ '(s, w), Z.lor s w =? w) (zip (chain_zeros l n) k) = true ↔
  ∀ i, (i < 64 * length k)%nat → word_bit l i = true → word_bit k i = true.
Proof.
  intros Hl Hk Hn. assert (∀ j s, chain_zeros l n !! j = Some s → s = default 0 (l !! j) ∧ is_u 64 s) as Hc.
  { intros j s Hj. unfold chain_zeros in Hj. apply lookup_app_Some in Hj as [Hj|[Hge Hj]].
    - rewrite Hj. split; [done|]. by eapply Forall_lookup_1 in Hj.
    - apply lookup_replicate in Hj as [-> _]. rewrite (proj2 (lookup_ge_None l j) Hge). by repeat split. }
  rewrite List.forallb_forall. split.
  - intros H i Hi. assert (i / 64 < length k)%nat as Hi' by (apply Nat.Div0.div_lt_upper_bound; lia).
    destruct (lookup_lt_is_Some_2 k (i / 64) Hi') as [w Hw].
    destruct (lookup_lt_is_Some_2 (chain_zeros l n) (i / 64)) as [s Hs].
    { unfold chain_zeros. rewrite length_app, length_replicate. lia. }
    specialize (H (s, w)). destruct (Hc _ _ Hs) as [Es Hu]. unfold word_bit. rewrite <- Es, Hw. cbn [from_option id].
    apply lor_absorb_iff; [done | by eapply Forall_lookup_1 in Hw | | apply word_bit_bound].
    apply H, list_elem_of_In, (list_elem_of_lookup_2 _ (i / 64)). by apply lookup_zip_Some.
  - intros H [s w] (j & [Hs Hw]%lookup_zip_Some)%list_elem_of_In%list_elem_of_lookup_1.
    destruct (Hc _ _ Hs) as [Es Hu]. apply lor_absorb_iff; [done | by eapply Forall_lookup_1 in Hw |].
    intros i Hi Hb. pose proof (lookup_lt_Some _ _ _ Hw). specialize (H (64 * j + i)%nat ltac:(lia)).
    rewrite (word_bit_at k j w) in H by done. apply H. destruct (l !! j) as [x|] eqn:Ex; cbn in Es.
    + subst x. by rewrite (word_bit_at l j s).
    + by rewrite Es, Z.bits_0 in Hb.
Qed.

Section methods2.
Context {A B} `{BitmapSlice A, BitmapSlice B} (a : A) (b : B) `{Ha : !SliceOk a, Hb : !SliceOk b}.
Lemma subset_eq : (len a <= len b)%nat →
  Slice.is_subset_of a b = true ↔ ∀ i, (i < len a)%nat → get a i = true → get b i = true.
Proof using Ha Hb.
  intros Hle. pose proof (words_tight (b:=b)). unfold Slice.is_subset_of.
  rewrite absorb_words by (apply words_u64 || lia). split; intros Hs i Hi.
  - rewrite !get_word by lia. apply Hs. lia.
  - destruct (Nat.lt_ge_cases i (len a)) as [Hia|Hia]; [|by rewrite zero_tail].
    rewrite <- !get_word by lia. by apply Hs.
Qed.
Lemma overlaps_iff : Slice.overlaps_with a b = true ↔
  ∃ i, (i < Nat.min (len a) (len b))%nat ∧ get a i = true ∧ get b i = true.
Proof using Ha Hb.
  unfold Slice.overlaps_with. rewrite <- (negb_involutive (existsb _ _)), negb_true_iff.
  assert (negb (existsb (λ x, negb (x =? 0)) (iter_data (Slice.anded_with a b))) =
    Slice.is_all_zeros (Slice.anded_with a b)) as ->.
  { unfold Slice.is_all_zeros. induction (iter_data (Slice.anded_with a b)) as [|x l IH]; [done|]. cbn.
    rewrite negb_orb, IH, negb_involutive. done. }
  rewrite <- not_true_iff_false, (all_zeros_iff (Slice.anded_with a b)). cbn. split.
  - intros Hn. destruct (indices (Nat.min (len a) (len b)) (λ i, get a i && get b i)) as [|i l] eqn:E.
    + exfalso. apply Hn. intros i Hi. destruct (get a i && get b i) eqn:Eg; [|done].
      assert (i ∈ @nil nat) as Hin by (rewrite <- E; by apply elem_of_indices). by apply not_elem_of_nil in Hin.
    + assert (i ∈ i :: l) as Hin by left. rewrite <- E in Hin. apply elem_of_indices in Hin as [Hi Hg].
      apply andb_true_iff in Hg as [??]. eauto.
  - intros (i & Hi & Hga & Hgb) Hz. specialize (Hz i Hi). by rewrite Hga, Hgb in Hz.
Qed.
End methods2.

(** The default methods of [BitmapSlice], for any slices that satisfy the laws:
    [iter_one_indices] lists the ones in order, [count_ones] and
    [count_overlapping_with] count them, [is_all_zeros], [overlaps_with] and (for a
    first slice that is not longer) [is_subset_of] decide what they say;
    [count_zeros] counts the zeros unless the length is a multiple of 64, where
    it subtracts 64 too many. *)
Theorem slice_methods_spec {P : profile} {A B} `{BitmapSlice A, BitmapSlice B} (a : A) (b : B)
    `{!SliceOk a, !SliceOk b} :
  Slice.iter_one_indices a = indices (len a) (get a) ∧
  Slice.count_ones a = length (indices (len a) (get a)) ∧
  Slice.count_overlapping_with a b = length (indices (Nat.min (len a) (len b)) (λ i, get a i && get b i)) ∧
  (Slice.is_all_zeros a = true ↔ ∀ i, (i < len a)%nat → get a i = false) ∧
  (Slice.overlaps_with a b = true ↔ ∃ i, (i < Nat.min (len a) (len b))%nat ∧ get a i = true ∧ get b i = true) ∧
  ((len a <= len b)%nat →
     Slice.is_subset_of a b = true ↔ ∀ i, (i < len a)%nat → get a i = true → get b i = true) ∧
  (Z.of_nat (len a) < 2 ^ 64 →
     let z := Z.of_nat (length (indices (len a) (λ i, negb (get a i)))) in
     Slice.count_zeros a = if (len a `mod` 64 =? 0)%nat then sub_u 64 z 64 else Ok z).
Proof.
  split_and!; [by apply iter_one_indices_eq | by apply count_ones_eq | | by apply all_zeros_iff | by apply overlaps_iff
    | by apply subset_eq | by apply count_zeros_eq].
  etrans; [exact (count_ones_eq (Slice.anded_with a b)) | done].
Qed.

(** ** [FixedBitmapU64] *)

Lemma word_index_lt i n : (i < n * 64)%nat → (i / 64 < n)%nat.
Proof. intros. apply Nat.Div0.div_lt_upper_bound. lia. Qed.
(** One word replaced. *)
Lemma word_bit_insert l j w i : (j < length l)%nat →
  word_bit (<[j:=w]> l) i = if (i / 64 =? j)%nat then Z.testbit w (Z.of_nat (i `mod` 64)) else word_bit l i.
Proof.
  intros Hj. unfold word_bit. destruct (Nat.eqb_spec (i / 64) j) as [->|Hne].
  - by rewrite list_lookup_insert_eq.
  - by rewrite list_lookup_insert_ne.
Qed.
Lemma same_index i x : (i / 64 = x / 64)%nat → (i `mod` 64 = x `mod` 64)%nat → i = x.
Proof. intros H1 H2. rewrite (Nat.div_mod i 64), (Nat.div_mod x 64) by lia. lia. Qed.
Lemma testbit_mask k j : Z.testbit (Z.shiftl 1 (Z.of_nat k)) (Z.of_nat j) = (j =? k)%nat.
Proof.
  rewrite Z.shiftl_1_l, Z.pow2_bits_eqb by lia. destruct (Nat.eqb_spec j k) as [->|]; [apply Z.eqb_refl|].
  apply Z.eqb_neq. lia.
Qed.
Lemma mask_u64 k : (k < 64)%nat → is_u 64 (Z.shiftl 1 (Z.of_nat k)).
Proof.
  intros Hk. rewrite Z.shiftl_1_l. split; [apply Z.pow_nonneg; lia|]. apply Z.pow_lt_mono_r; lia.
Qed.
Lemma land_mask_zero w k : (k < 64)%nat → (Z.land w (Z.shiftl 1 (Z.of_nat k)) =? 0) = negb (Z.testbit w (Z.of_nat k)).
Proof.
  intros Hk. destruct (Z.testbit w (Z.of_nat k)) eqn:E; cbn [negb].
  - apply Z.eqb_neq. intros H0. apply (f_equal (λ z, Z.testbit z (Z.of_nat k))) in H0.
    by rewrite Z.land_spec, testbit_mask, E, Nat.eqb_refl, Z.bits_0 in H0.
  - apply Z.eqb_eq, Z.bits_inj'. intros j Hj. rewrite Z.land_spec, Z.bits_0, <- (Z2Nat.id j), testbit_mask by done.
    case_cmp; [|apply andb_false_r]. subst. by rewrite E.
Qed.

(** One bit replaced. *)
Lemma replace_bit l x w (v : bool) w' : l !! (x / 64)%nat = Some w →
  (∀ j, (j < 64)%nat → Z.testbit w' (Z.of_nat j) = if (j =? x `mod` 64)%nat then v else Z.testbit w (Z.of_nat j)) →
  ∀ i, word_bit (<[(x / 64)%nat:=w']> l) i = if (i =? x)%nat then v else word_bit l i.
Proof.
  intros Hw Hb i. rewrite word_bit_insert by (by eapply lookup_lt_Some).
  destruct (Nat.eqb_spec (i / 64) (x / 64)) as [E|E].
  - rewrite Hb by apply word_bit_bound. destruct (Nat.eqb_spec (i `mod` 64) (x `mod` 64)) as [E'|E'].
    + rewrite (same_index i x) by done. by rewrite Nat.eqb_refl.
    + case_cmp; [by subst|]. unfold word_bit. by rewrite E, Hw.
  - case_cmp; [by subst | done].
Qed.

Section fixed.
Context {N : nat} (f : FixedBitmapU64 N) `{Wf : !fixed_wf f}.

(** Replacing bit [x]. *)
Lemma replace_word x w (v : bool) : (x < N * 64)%nat → data f !! (x / 64)%nat = Some w → ∀ w', is_u 64 w' →
  (∀ j, (j < 64)%nat → Z.testbit w' (Z.of_nat j) = if (j =? x `mod` 64)%nat then v else Z.testbit w (Z.of_nat j)) →
  vset (data f) (x / 64) w' = Ok (<[(x / 64)%nat:=w']> (data f)) ∧
  fixed_wf (N:=N) {| data := <[(x / 64)%nat:=w']> (data f) |} ∧
  ∀ i, word_bit (<[(x / 64)%nat:=w']> (data f)) i = if (i =? x)%nat then v else word_bit (data f) i.
Proof using Wf.
  intros Hx Hw w' Hu Hb. pose proof (word_index_lt _ _ Hx) as Hj. pose proof (fwf_len f Wf) as Hl.
  split; [apply vset_lt; lia|]. split; [split; cbn [data]; [by rewrite length_insert | apply Forall_insert; [apply Wf | done]]|].
  by apply (replace_bit _ x w).
Qed.
Lemma fixed_word x : (x < N * 64)%nat → ∃ w, data f !! (x / 64)%nat = Some w ∧ is_u 64 w ∧ get f x = Z.testbit w (Z.of_nat (x `mod` 64)).
Proof using Wf.
  intros Hx. destruct (lookup_lt_is_Some_2 (data f) (x / 64)) as [w Hw].
  { rewrite (fwf_len f Wf). by apply word_index_lt. }
  exists w. split; [done|]. split; [by eapply Forall_lookup_1; [apply Wf|]|]. rewrite fixed_get. unfold word_bit. by rewrite Hw.
Qed.

Lemma set_ok x : (x < N * 64)%nat → ∃ r, Fixed.set f x = Ok (r, negb (get f x)) ∧ fixed_wf r ∧
  ∀ i, get r i = if (i =? x)%nat then true else get f i.
Proof using Wf.
  intros Hx. destruct (fixed_word x Hx) as (w & Hw & Hu & Hg). pose proof (word_bit_bound x) as Hm.
  destruct (replace_word x w true Hx Hw (Z.lor w (Z.shiftl 1 (Z.of_nat (x `mod` 64))))) as (Hv & Hwf & Hb).
  { apply is_u_lor; [lia | done | by apply mask_u64]. }
  { intros j Hj. rewrite Z.lor_spec, testbit_mask. case_cmp; [apply orb_true_r | apply orb_false_r]. }
  unfold Fixed.set. rewrite (proj2 (vget_Ok_inv _ _ w) Hw), M_bind_Ok, Hv, M_bind_Ok, land_mask_zero, <- Hg by done.
  eexists; split; [done|]. split; [done|]. intros i. rewrite !fixed_get. apply Hb.
Qed.
Lemma clear_ok x : (x < N * 64)%nat → ∃ r, Fixed.clear f x = Ok (r, get f x) ∧ fixed_wf r ∧
  ∀ i, get r i = if (i =? x)%nat then false else get f i.
Proof using Wf.
  intros Hx. destruct (fixed_word x Hx) as (w & Hw & Hu & Hg). pose proof (word_bit_bound x) as Hm.
  destruct (replace_word x w false Hx Hw (Z.land w (not_u 64 (Z.shiftl 1 (Z.of_nat (x `mod` 64)))))) as (Hv & Hwf & Hb).
  { by apply land_u64. }
  { intros j Hj. rewrite Z.land_spec, testbit_not_u64, testbit_mask by done.
    case_cmp; [apply andb_false_r | apply andb_true_r]. }
  unfold Fixed.clear. rewrite (proj2 (vget_Ok_inv _ _ w) Hw), M_bind_Ok, Hv, M_bind_Ok, land_mask_zero, negb_involutive, <- Hg by done.
  eexists; split; [done|]. split; [done|]. intros i. rewrite !fixed_get. apply Hb.
Qed.
Lemma set_clear_panic x : (N * 64 <= x)%nat → Fixed.set f x = Panic ∧ Fixed.clear f x = Panic.
Proof using Wf.
  intros Hx. unfold Fixed.set, Fixed.clear, vget. rewrite (proj2 (lookup_ge_None _ _)); [done|].
  rewrite (fwf_len f Wf). apply Nat.div_le_lower_bound; lia.
Qed.
End fixed.

(** The outcome of an operation that changes a bitmap: the new bits, and whether
    one of them differs. *)
Definition updates {N} (f : FixedBitmapU64 N) (r : FixedBitmapU64 N * bool) (p : nat → bool) : Prop :=
  fixed_wf (fst r) ∧ (∀ i, (i < N * 64)%nat → get (fst r) i = p i) ∧
  (snd r = true ↔ ∃ i, (i < N * 64)%nat ∧ p i ≠ get f i).

Lemma update_words_eq f l : ∀ k c, (length l <= length k)%nat →
  Fixed.update_words f l k c = (zip_with f l k, c || negb (bool_decide (l = zip_with f l k))).
Proof.
  induction l as [|a l IH]; intros [|b k] c Hl; cbn [Fixed.update_words zip_with length] in *; try lia.
  1,2: by rewrite orb_false_r.
  rewrite IH by lia. f_equal. destruct (Z.eqb_spec a (f a b)) as [E|E]; cbn [negb].
  - rewrite orb_false_r. f_equal. f_equal. rewrite <- E. apply bool_decide_ext. split; [by intros <- | by intros [= <-]].
  - rewrite orb_true_r, (bool_decide_eq_false_2 (a :: l = _)) by (by intros [= ??]). by rewrite orb_true_r.
Qed.
Lemma chain_zeros_u64 k n : Forall (is_u 64) k → Forall (is_u 64) (chain_zeros k n).
Proof. intros Hk. apply Forall_app. split; [done|]. apply Forall_replicate. by split. Qed.
Lemma word_bit_zip_chain f g l k i : (∀ a b j, (j < 64)%nat →
    Z.testbit (f a b) (Z.of_nat j) = g (Z.testbit a (Z.of_nat j)) (Z.testbit b (Z.of_nat j))) →
  (i < 64 * length l)%nat →
  word_bit (zip_with f l (chain_zeros k (length l))) i = g (word_bit l i) (word_bit k i).
Proof.
  intros Hf Hi. assert (i / 64 < length l)%nat as Hj by (apply Nat.Div0.div_lt_upper_bound; lia).
  destruct (lookup_lt_is_Some_2 l (i / 64) Hj) as [a Ha]. unfold word_bit. rewrite lookup_zip_with, Ha.
  cbn [mbind option_bind]. unfold chain_zeros. destruct (k !! (i / 64)%nat) as [b|] eqn:Ek.
  - rewrite lookup_app_l, Ek by (by eapply lookup_lt_Some). cbn [mbind option_bind from_option id].
    apply Hf, word_bit_bound.
  - apply lookup_ge_None in Ek. rewrite lookup_app_r, lookup_replicate_2 by lia.
    cbn [mbind option_bind from_option id]. apply Hf, word_bit_bound.
Qed.

Section update.
Context {N : nat} (f : FixedBitmapU64 N) `{Wf : !fixed_wf f}.
Lemma differ_iff (r : FixedBitmapU64 N) `{!fixed_wf r} :
  data f ≠ data r ↔ ∃ i, (i < N * 64)%nat ∧ get r i ≠ get f i.
Proof using Wf.
  split; [|intros (i & _ & Hi) E; apply Hi; by rewrite !fixed_get, E].
  intros Hne. destruct (indices (N * 64) (λ i, xorb (get r i) (get f i))) as [|i l] eqn:E.
  - exfalso. apply Hne. apply words_eq; [apply Wf | by apply fwf_u64 | by rewrite (fwf_len f Wf), (fwf_len r _) |].
    intros i. rewrite <- !fixed_get. destruct (Nat.lt_ge_cases i (N * 64)) as [Hi|Hi].
    + assert (i ∉ indices (N * 64) (λ i, xorb (get r i) (get f i))) as Hn by (rewrite E; apply not_elem_of_nil).
      rewrite elem_of_indices in Hn. destruct (get r i), (get f i); cbn in Hn; try done; by destruct Hn.
    + by rewrite !get_beyond.
  - assert (i ∈ i :: l) as Hin by left. rewrite <- E in Hin. apply elem_of_indices in Hin as [Hi Hx].
    exists i. split; [done|]. by destruct (get r i), (get f i).
Qed.
Lemma updates_intro r (p : nat → bool) : fixed_wf (fst r) → (∀ i, (i < N * 64)%nat → get (fst r) i = p i) →
  snd r = negb (bool_decide (data f = data (fst r))) → updates f r p.
Proof using Wf.
  intros Wr Hp Hc. split; [done|]. split; [done|]. rewrite Hc, negb_true_iff, bool_decide_eq_false, (differ_iff (fst r)).
  split; intros (i & Hi & Hne); exists i; (split; [done|]); [by rewrite <- Hp | by rewrite Hp].
Qed.
Lemma update_ok {B} `{BitmapSlice B} (o : B) `{!SliceOk o, !ZeroBeyond o} op g :
  (∀ a b j, (j < 64)%nat → Z.testbit (op a b) (Z.of_nat j) = g (Z.testbit a (Z.of_nat j)) (Z.testbit b (Z.of_nat j))) →
  (∀ a b, is_u 64 a → is_u 64 b → is_u 64 (op a b)) →
  updates f (Fixed.update op f o) (λ i, g (get f i) (get o i)).
Proof using Wf.
  intros Hop Hu. unfold Fixed.update. pose proof (fwf_len f Wf) as Hl.
  assert (length (data f) <= length (chain_zeros (iter_data o) (length (data f))))%nat as Hc
    by (unfold chain_zeros; rewrite length_app, length_replicate; lia).
  rewrite update_words_eq by done. apply updates_intro; cbn [fst snd data]; [|intros i Hi|done].
  - split; cbn [data]; [rewrite length_zip_with; lia|]. apply Forall_lookup. intros j x Hx.
    apply lookup_zip_with_Some in Hx as (u & v & -> & Hu' & Hv'). apply Hu.
    + eapply Forall_lookup_1; [apply (fwf_u64 f Wf) | done].
    + eapply Forall_lookup_1; [apply chain_zeros_u64, words_u64 | done].
  - rewrite !fixed_get. cbn [data]. rewrite (word_bit_zip_chain op g) by (done || lia). by rewrite (get_word_all o).
Qed.
End update.

Lemma flag_iff {N} (f : FixedBitmapU64 N) x (v : bool) : (x < N * 64)%nat →
  xorb v (get f x) = true ↔ ∃ i, (i < N * 64)%nat ∧ (if (i =? x)%nat then v else get f i) ≠ get f i.
Proof.
  intros Hx. split.
  - intros Hv. exists x. rewrite Nat.eqb_refl. split; [done|]. by destruct v, (get f x).
  - intros (i & Hi & Hne). destruct (Nat.eqb_spec i x) as [->|]; [|done]. by destruct v, (get f x).
Qed.

(** The operations of [Bitmap] on a well-formed [FixedBitmapU64] change the bits
    as the set operations they stand for, and report whether a bit changed; [set]
    and [clear] panic past the end, and the other bitmap of a bulk operation may
    have any length. *)
Theorem fixed_ops_spec {N} (f : FixedBitmapU64 N) {B} `{BitmapSlice B} (o : B) x :
  fixed_wf f → SliceOk o → ZeroBeyond o →
  ((x < N * 64)%nat → (∃ r, Fixed.set f x = Ok r ∧ updates f r (λ i, if (i =? x)%nat then true else get f i)) ∧
                      (∃ r, Fixed.clear f x = Ok r ∧ updates f r (λ i, if (i =? x)%nat then false else get f i))) ∧
  ((N * 64 <= x)%nat → Fixed.set f x = Panic ∧ Fixed.clear f x = Panic) ∧
  updates f (Fixed.and_with f o) (λ i, get f i && get o i) ∧
  updates f (Fixed.or_with f o) (λ i, get f i || get o i) ∧
  updates f (Fixed.xor_with f o) (λ i, xorb (get f i) (get o i)) ∧
  updates f (Fixed.clear_from f o) (λ i, get f i && negb (get o i)).
Proof.
  intros Wf Ho Zo. split; [|split; [by apply set_clear_panic|]].
  - intros Hx. split.
    + destruct (set_ok f x Hx) as (r & Hr & Wr & Hb). eexists; split; [done|]. split; [done|]. split; [by intros|].
      rewrite <- (flag_iff f x true Hx). by destruct (get f x).
    + destruct (clear_ok f x Hx) as (r & Hr & Wr & Hb). eexists; split; [done|]. split; [done|]. split; [by intros|].
      rewrite <- (flag_iff f x false Hx). by destruct (get f x).
  - split_and!.
    + apply (update_ok f o Z.land andb); [intros; apply Z.land_spec | intros; by apply land_u64].
    + apply (update_ok f o Z.lor orb); [intros; apply Z.lor_spec | intros; by apply is_u_lor].
    + apply (update_ok f o Z.lxor xorb); [intros; apply Z.lxor_spec | intros; by apply is_u_lxor].
    + apply (update_ok f o _ (λ a b, a && negb b)); [intros; by rewrite Z.land_spec, testbit_not_u64 | intros; by apply land_u64].
Qed.

(** ** Building bitmaps *)

Section build.
Context {N : nat}.
#[export] Instance default_wf : fixed_wf (Fixed.default (N:=N)).
Proof. split; cbn [data Fixed.default]; [apply length_replicate|]. apply Forall_replicate. by split. Qed.
Lemma default_get i : get (Fixed.default (N:=N)) i = false.
Proof.
  rewrite fixed_get. unfold word_bit. cbn [data Fixed.default].
  destruct (replicate N 0 !! (i / 64)%nat) as [x|] eqn:E; [apply lookup_replicate in E as [-> _]|]; apply Z.bits_0.
Qed.
Lemma set_many_ok l : ∀ f : FixedBitmapU64 N, fixed_wf f → Forall (λ x, x < N * 64)%nat l →
  ∃ r, Fixed.set_many f l = Ok r ∧ fixed_wf r ∧ ∀ i, get r i = bool_decide (i ∈ l) || get f i.
Proof.
  induction l as [|x l IH]; intros f Wf Hl; cbn [Fixed.set_many]; [by exists f|].
  apply Forall_cons in Hl as [Hx Hl]. destruct (set_ok f x Hx) as (g & Hg & Wg & Hb).
  rewrite Hg, M_bind_Ok. destruct (IH g Wg Hl) as (r & Hr & Wr & Hrb). exists r. split; [done|]. split; [done|].
  intros i. rewrite Hrb, Hb, (bool_decide_ext (i ∈ x :: l) (i = x ∨ i ∈ l)) by apply elem_of_cons.
  destruct (Nat.eqb_spec i x) as [->|Hne].
  - rewrite (bool_decide_eq_true_2 (x = x ∨ _)) by auto. apply orb_true_r.
  - f_equal. apply bool_decide_ext. naive_solver.
Qed.
Lemma set_many_panic l : ∀ f : FixedBitmapU64 N, fixed_wf f → Exists (λ x, N * 64 <= x)%nat l → Fixed.set_many f l = Panic.
Proof.
  induction l as [|x l IH]; intros f Wf Hl; [by apply Exists_nil in Hl|]. cbn [Fixed.set_many].
  destruct (Nat.lt_ge_cases x (N * 64)) as [Hx|Hx].
  - destruct (set_ok f x Hx) as (g & Hg & Wg & _). rewrite Hg, M_bind_Ok. apply Exists_cons in Hl as [?|?]; [lia|]. by apply IH.
  - by rewrite (proj1 (set_clear_panic f x Hx)).
Qed.
Lemma from_bools_loop_ok l : ∀ (f : FixedBitmapU64 N) k, fixed_wf f → (k + length l <= N * 64)%nat →
  ∃ r, Fixed.from_bools_loop f k l = Ok r ∧ fixed_wf r ∧
    ∀ i, get r i = ((k <=? i)%nat && default false (l !! (i - k)%nat)) || get f i.
Proof.
  induction l as [|b l IH]; intros f k Wf Hl; cbn [Fixed.from_bools_loop length] in *.
  { exists f. split; [done|]. split; [done|]. intros i. by rewrite lookup_nil, andb_false_r. }
  rewrite (proj2 (Nat.leb_gt _ _)) by lia.
  assert (∃ g, fixed_wf g ∧ (∀ i, get g i = (b && (i =? k)%nat) || get f i) ∧
    (if b then r ← Fixed.set f k; Fixed.from_bools_loop (fst r) (S k) l else Fixed.from_bools_loop f (S k) l) =
    Fixed.from_bools_loop g (S k) l) as (g & Wg & Hg & ->).
  { destruct b; [|by exists f]. destruct (set_ok f k) as (g & Hg & Wg & Hb); [lia|]. exists g. rewrite Hg, M_bind_Ok.
    split; [done|]. split; [|done]. intros i. rewrite Hb. by case_cmp. }
  destruct (IH g (S k) Wg ltac:(lia)) as (r & Hr & Wr & Hb). exists r. split; [done|]. split; [done|].
  intros i. rewrite Hb, Hg. destruct (Nat.eqb_spec i k) as [->|Hne].
  - rewrite Nat.sub_diag, (proj2 (Nat.leb_gt (S k) k)), Nat.leb_refl by lia. cbn. by rewrite andb_true_r.
  - rewrite andb_false_r. cbn [orb]. destruct (Nat.leb_spec (S k) i) as [Hi|Hi].
    + rewrite (proj2 (Nat.leb_le k i)) by lia. replace (i - k)%nat with (S (i - S k)) by lia. done.
    + rewrite (proj2 (Nat.leb_gt k i)) by lia. done.
Qed.

Lemma testbit_u64_max j : (j < 64)%nat → Z.testbit U64_MAX (Z.of_nat j) = true.
Proof. intros Hj. change U64_MAX with (Z.ones 64). apply Z.ones_spec_low. lia. Qed.
Lemma fill_ones_ok fuel : ∀ d k n, (n < fuel)%nat → (64 * k + n <= 64 * length d)%nat → Forall (is_u 64) d →
  ∃ d' k' n', Fixed.fill_ones fuel d k n = Ok (d', k', n') ∧ (n' < 64)%nat ∧ (64 * k' + n' = 64 * k + n)%nat ∧
    length d' = length d ∧ Forall (is_u 64) d' ∧
    ∀ i, word_bit d' i = ((64 * k <=? i)%nat && (i <? 64 * k')%nat) || word_bit d i.
Proof.
  induction fuel as [|fuel IH]; intros d k n Hf Hn Hd; [lia|]. cbn [Fixed.fill_ones].
  destruct (Nat.leb_spec 64 n) as [H64|H64].
  - assert (k < length d)%nat as Hk by lia. rewrite vset_lt, M_bind_Ok by done.
    destruct (IH (<[k:=U64_MAX]> d) (k + 1)%nat (n - 64)%nat) as (d' & k' & n' & Hr & Hn' & He & Hl & Hu & Hb);
      [lia | rewrite length_insert; lia | apply Forall_insert; [done | by split] |].
    exists d', k', n'. split; [done|]. split; [done|]. split; [lia|]. split; [by rewrite Hl, length_insert|]. split; [done|].
    intros i. rewrite Hb, word_bit_insert by done. pose proof (Nat.div_mod i 64 ltac:(lia)). pose proof (word_bit_bound i).
    destruct (Nat.eqb_spec (i / 64) k) as [E|E].
    + rewrite testbit_u64_max, orb_true_r by done. case_cmps. done.
    + f_equal. case_cmps; done || lia.
  - exists d, k, n. split_and!; try done. intros i. case_cmps; done || lia.
Qed.
Lemma new_all_ones_ok n : (n <= N * 64)%nat → ∃ r : FixedBitmapU64 N, Fixed.new_all_ones n = Ok r ∧ fixed_wf r ∧
  ∀ i, get r i = (i <? n)%nat.
Proof.
  intros Hn. unfold Fixed.new_all_ones, Fixed.new_all_zeros. rewrite (proj2 (Nat.leb_le _ _) Hn). cbn [rassert].
  rewrite !M_bind_Ok. pose proof (fwf_len (Fixed.default (N:=N)) _) as Hl.
  destruct (fill_ones_ok (S n) (data (Fixed.default (N:=N))) 0 n) as (d & k & m & Hr & Hm & He & Hld & Hu & Hb);
    [lia | lia | apply default_wf |].
  rewrite Hr, M_bind_Ok. assert (∀ i, word_bit d i = (i <? 64 * k)%nat) as Hd.
  { intros i. rewrite Hb, <- fixed_get, default_get. apply orb_false_r. }
  destruct (Nat.ltb_spec 0 m) as [Hm0|Hm0].
  - rewrite (proj2 (Nat.ltb_lt _ _) Hm). cbn [rassert]. assert (k < length d)%nat as Hk by lia.
    rewrite M_bind_Ok, vset_lt, M_bind_Ok by done. eexists; split; [done|]. split.
    + split; cbn [data]; [rewrite length_insert; lia|]. apply Forall_insert; [done|]. apply is_u_shiftr; [lia|lia|]. by split.
    + intros i. rewrite fixed_get. cbn [data]. rewrite word_bit_insert by done.
      pose proof (Nat.div_mod i 64 ltac:(lia)). pose proof (word_bit_bound i). destruct (Nat.eqb_spec (i / 64) k) as [E|E].
      * change U64_MAX with (Z.ones 64). rewrite Z.shiftr_spec, Z.testbit_ones_nonneg by lia. case_cmps; done || lia.
      * rewrite Hd. case_cmps; done || lia.
  - eexists; split; [done|]. split; [split; cbn [data]; [lia | done]|].
    intros i. rewrite fixed_get. cbn [data]. rewrite Hd. case_cmps; done || lia.
Qed.
Lemma fixed_ext (f g : FixedBitmapU64 N) : fixed_wf f → fixed_wf g → (∀ i, (i < N * 64)%nat → get f i = get g i) → f = g.
Proof.
  intros Wf Wg H. destruct f as [df], g as [dg]. f_equal.
  destruct (decide (df = dg)) as [|Hne]; [done|]. exfalso.
  destruct (proj1 (differ_iff {| data := df |} {| data := dg |}) Hne) as (i & Hi & Hd). by apply Hd; rewrite H.
Qed.
End build.

Lemma superset_iff {N} (f g : FixedBitmapU64 N) : fixed_wf f → fixed_wf g →
  Fixed.is_superset_of f g = true ↔ ∀ i, (i < N * 64)%nat → get g i = true → get f i = true.
Proof.
  intros Wf Wg. unfold Fixed.is_superset_of.
  assert (forallb (λ '(a, b), Z.lor a b =? a) (zip (data f) (data g)) =
    forallb (λ '(s, w), Z.lor s w =? w) (zip (chain_zeros (data g) 0) (data f))) as ->.
  { unfold chain_zeros. rewrite app_nil_r. generalize (data f) (data g). intros l.
    induction l as [|a l IH]; intros [|b k]; cbn; [done..|]. by rewrite Z.lor_comm, IH. }
  rewrite absorb_words by (by apply fwf_u64 || (rewrite (fwf_len f Wf), (fwf_len g Wg); lia)).
  rewrite (fwf_len f Wf), Nat.mul_comm. by setoid_rewrite fixed_get.
Qed.
Lemma filter_reverse {A} (p : A → bool) l : List.filter p (reverse l) = reverse (List.filter p l).
Proof.
  induction l as [|x l IH]; [done|]. rewrite reverse_cons, List.filter_app, IH. cbn [List.filter].
  destruct (p x); [by rewrite reverse_cons | apply app_nil_r].
Qed.
Lemma iter_one_indices_rev_eq {N} (f : FixedBitmapU64 N) :
  Fixed.iter_one_indices_rev f = reverse (Slice.iter_one_indices f).
Proof.
  unfold Fixed.iter_one_indices_rev, Slice.iter_one_indices. cbn [iter_data FixedBitmapU64_slice].
  induction (data f) as [|x l IH] using rev_ind; [done|]. rewrite !imap_app, reverse_app, !concat_app, reverse_app, IH.
  f_equal. cbn [imap concat]. rewrite reverse_singleton. cbn [concat]. rewrite !app_nil_r. unfold Slice.one_indices.
  by rewrite filter_reverse, fmap_reverse.
Qed.

(** The constructors of [FixedBitmapU64]: collecting indices or booleans gives
    exactly their bits and panics when one is out of range, [new_all_ones] ends and
    sets the first [n] bits or panics when there are not as many, and a bitmap is
    rebuilt from its indices, which [iter_one_indices_rev] lists in decreasing
    order. *)
Theorem fixed_build_spec {N} (f : FixedBitmapU64 N) l bs n : fixed_wf f →
  (Forall (λ x, x < N * 64)%nat l → ∃ r : FixedBitmapU64 N, Fixed.from_indices l = Ok r ∧ fixed_wf r ∧
     ∀ i, get r i = bool_decide (i ∈ l)) ∧
  (Exists (λ x, N * 64 <= x)%nat l → Fixed.from_indices (N:=N) l = Panic) ∧
  ((length bs <= N * 64)%nat → ∃ r : FixedBitmapU64 N, Fixed.from_bools bs = Ok r ∧ fixed_wf r ∧
     ∀ i, get r i = default false (bs !! i)) ∧
  ((n <= N * 64)%nat → ∃ r : FixedBitmapU64 N, Fixed.new_all_ones n = Ok r ∧ fixed_wf r ∧ ∀ i, get r i = (i <? n)%nat) ∧
  ((N * 64 < n)%nat → Fixed.new_all_ones (N:=N) n = Panic) ∧
  Fixed.from_indices (Slice.iter_one_indices f) = Ok f ∧
  Fixed.iter_one_indices_rev f = reverse (Slice.iter_one_indices f).
Proof.
  intros Wf. split; [|split; [|split; [|split; [|split; [|split]]]]].
  - intros Hl. destruct (set_many_ok (N:=N) l Fixed.default default_wf Hl) as (r & Hr & Wr & Hb). exists r.
    split; [done|]. split; [done|]. intros i. by rewrite Hb, default_get, orb_false_r.
  - intros Hl. by apply set_many_panic; [apply default_wf|].
  - intros Hl. destruct (from_bools_loop_ok (N:=N) bs Fixed.default 0 default_wf Hl) as (r & Hr & Wr & Hb). exists r.
    split; [done|]. split; [done|]. intros i. by rewrite Hb, default_get, orb_false_r, Nat.sub_0_r.
  - apply new_all_ones_ok.
  - intros Hn. unfold Fixed.new_all_ones, Fixed.new_all_zeros. by rewrite (proj2 (Nat.leb_gt _ _) Hn).
  - rewrite iter_one_indices_eq by apply _.
    destruct (set_many_ok (N:=N) (indices (N * 64) (get f)) Fixed.default default_wf) as (r & Hr & Wr & Hb).
    { apply Forall_forall. intros i [Hi _]%elem_of_indices. done. }
    unfold Fixed.from_indices. etrans; [exact Hr|]. f_equal. apply fixed_ext; [done..|]. intros i Hi.
    rewrite Hb, default_get, orb_false_r. destruct (get f i) eqn:E.
    + apply bool_decide_eq_true_2. by apply elem_of_indices.
    + apply bool_decide_eq_false_2. rewrite elem_of_indices. intros [_ E']. congruence.
  - apply iter_one_indices_rev_eq.
Qed.

(** ** Witnesses and edge cases *)

Definition example_bitmap : FixedBitmapU64 2 := {| data := [5; 2 ^ 63] |}.
#[export] Instance example_bitmap_wf : fixed_wf example_bitmap.
Proof. split; [done|]. repeat constructor; done. Qed.

Lemma slice_methods_spec_witness :
  Slice.iter_one_indices example_bitmap = [0; 2; 127]%nat ∧
  Slice.count_overlapping_with example_bitmap (Slice.flipped example_bitmap) = 0%nat ∧
  Slice.count_zeros (P:=Release) example_bitmap = Ok 61.
Proof.
  destruct (slice_methods_spec (P:=Release) example_bitmap (Slice.flipped example_bitmap)) as (H1 & _ & H3 & _ & _ & _ & H7).
  split; [rewrite H1; vm_compute; reflexivity|]. split; [rewrite H3; vm_compute; reflexivity|].
  rewrite H7; [vm_compute; reflexivity | done].
Defined.
Lemma fixed_ops_spec_witness : ∃ r,
  Fixed.set example_bitmap 64 = Ok r ∧ get (fst r) 64 = true ∧ Fixed.set example_bitmap 128 = Panic.
Proof.
  destruct (fixed_ops_spec example_bitmap example_bitmap 64) as (H & _); [apply _..|].
  destruct (fixed_ops_spec example_bitmap example_bitmap 128) as (_ & H' & _); [apply _..|].
  destruct (H ltac:(lia)) as [(r & Hr & _ & Hb & _) _]. exists r. split; [exact Hr|]. split.
  - rewrite Hb by lia. reflexivity.
  - apply H'. lia.
Defined.
Lemma fixed_build_spec_witness :
  Fixed.from_indices [0; 2; 127]%nat = Ok example_bitmap ∧ Fixed.from_indices (N:=1) [64]%nat = Panic.
Proof.
  destruct (fixed_build_spec example_bitmap [] [] 0 _) as (_ & _ & _ & _ & _ & H & _).
  destruct (fixed_build_spec (Fixed.default (N:=1)) [64]%nat [] 0 _) as (_ & H' & _).
  split; [exact H | apply H'; left; lia].
Defined.

(** [count_zeros] of a [FixedBitmapU64], whose length is always a multiple of 64, is
    64 too small: a bitmap without zeros makes it panic in the [dev] profile. *)
Theorem count_zeros_full :
  Slice.count_zeros (P:=Dev) (Fixed.from_u64 U64_MAX) = Panic ∧
  Slice.count_zeros (P:=Release) (Fixed.from_u64 U64_MAX) = Ok (2 ^ 64 - 64) ∧
  Slice.count_zeros (P:=Dev) (Fixed.from_u64 0) = Ok 0.
Proof. split_and!; vm_compute; reflexivity. Qed.
(** [is_subset_of] does not look at the words past the end of the other bitmap. *)
Theorem is_subset_of_ignores_tail :
  Slice.is_subset_of example_bitmap (Fixed.from_u64 5) = true ∧
  get example_bitmap 127 = true ∧ get (Fixed.from_u64 5) 127 = false.
Proof. split_and!; vm_compute; reflexivity. Qed.
