(* ===== verification/FilterTree.v ===== *)
(** * Filter trees

    Models [liblisa/src/instr/tree.rs]: a binary decision tree over the bits of an
    instruction, kept in an arena ([entries]) with a free list ([empty]).  A node
    index is a leaf ([Enumerate]: not matched by a filter, [Skip]: matched) or the
    position of a node.  Every function that changes the tree takes the arena and
    returns the new one; the recursive ones walk down the arena and take the
    number of levels they may visit as fuel.  [Debug] is not modelled.  The theorems are
    in FilterTreeFacts and FindNext. *)
From S2P Require Import Prelude MachInt Utils Instruction Filter.

(** ** 40-bit indices *)

Module U40.
Record U40 := { hi : Z; lo : Z }.
Definition new (val : Z) : M U40 :=
  assert! (val <=? 0x00ffffffffff); Ok {| hi := wrap 8 (Z.shiftr val 32); lo := wrap 32 val |}.
Definition value (self : U40) : Z := Z.lor (lo self) (Z.shiftl (hi self) 32).
End U40.

(** An index is written as the number it stands for; making one checks its size. *)
Inductive NodeIndex := Enumerate | Skip | Index (index : nat).
Inductive Node := Branch (is_0 is_1 : NodeIndex) | Ignore (next : NodeIndex).
#[export] Instance NodeIndex_eq_dec : EqDecision NodeIndex.
Proof. solve_decision. Defined.
#[export] Instance Node_eq_dec : EqDecision Node.
Proof. solve_decision. Defined.
Definition new_index (index : nat) : M NodeIndex := _ ← U40.new (Z.of_nat index); Ok (Index index).
Definition unwrap_index (self : NodeIndex) : M nat := match self with Index i => Ok i | _ => Panic end.

(** The free list is a stack: its head is the element that [pop] returns. *)
Record FilterTree := { entries : list Node; empty : list nat }.

Definition set_entry (self : FilterTree) (index : nat) (node : Node) : M FilterTree :=
  e ← vset (entries self) index node; Ok {| entries := e; empty := empty self |}.

Module Tree.
Definition new : FilterTree := {| entries := [Ignore Enumerate]; empty := [] |}.
Definition len (self : FilterTree) : nat := length (entries self) - length (empty self).

Definition new_node (self : FilterTree) (node : Node) : M (FilterTree * NodeIndex) :=
  match empty self with
  | index :: rest =>
      e ← vset (entries self) index node; i ← new_index index;
      Ok ({| entries := e; empty := rest |}, i)
  | [] =>
      i ← new_index (length (entries self));
      Ok ({| entries := entries self ++ [node]; empty := [] |}, i)
  end.

(** [NodeRef::eq] within one tree. *)
Definition same_tree_eq (self : FilterTree) (a b : NodeIndex) : M bool :=
  match a, b with
  | Enumerate, Enumerate | Skip, Skip => Ok true
  | Index lhs, Index rhs =>
      if (lhs =? rhs)%nat then Ok true
      else x ← vget (entries self) lhs; y ← vget (entries self) rhs; Ok (bool_decide (x = y))
  | _, _ => Ok false
  end.
(** [NodeRef::eq] between different trees. *)
Fixpoint other_tree_eq (fuel : nat) (self other : FilterTree) (a b : NodeIndex) : M bool :=
  match a, b with
  | Enumerate, Enumerate | Skip, Skip => Ok true
  | Index i, Index j =>
      match fuel with
      | O => OutOfFuel
      | S fuel =>
          x ← vget (entries self) i; y ← vget (entries other) j;
          match x, y with
          | Branch l0 l1, Branch r0 r1 =>
              e ← other_tree_eq fuel self other l0 r0;
              if e : bool then other_tree_eq fuel self other l1 r1 else Ok false
          | Ignore l, Ignore r => other_tree_eq fuel self other l r
          | _, _ => Ok false
          end
      end
  | Enumerate, _ | Skip, _ => Ok false
  | Index i, _ => _ ← vget (entries self) i; Ok false
  end.

Section ops.
Context {P : profile}.

(** [self.entries.len() - 1] underflows for an arena without entries. *)
Definition free_entry (self : FilterTree) (index : nat) : M FilterTree :=
  match length (entries self) with
  | O => match P with Dev => Panic | Release => Ok {| entries := []; empty := index :: empty self |} end
  | S last =>
      if (index =? last)%nat then Ok {| entries := take last (entries self); empty := empty self |}
      else Ok {| entries := entries self; empty := index :: empty self |}
  end.
Fixpoint free_node (fuel : nat) (self : FilterTree) (index : NodeIndex) : M FilterTree :=
  match index with
  | Enumerate | Skip => Ok self
  | Index i =>
      match fuel with
      | O => OutOfFuel
      | S fuel =>
          node ← vget (entries self) i;
          self ← match node with
                 | Branch is_0 is_1 => self ← free_node fuel self is_0; free_node fuel self is_1
                 | Ignore next => free_node fuel self next
                 end;
          free_entry self i
      end
  end.
Fixpoint deep_clone_node (fuel : nat) (self : FilterTree) (index : NodeIndex) : M (FilterTree * NodeIndex) :=
  match index with
  | Enumerate => Ok (self, Enumerate)
  | Skip => Ok (self, Skip)
  | Index i =>
      match fuel with
      | O => OutOfFuel
      | S fuel =>
          node ← vget (entries self) i;
          match node with
          | Branch is_0 is_1 =>
              '(self, is_0) ← deep_clone_node fuel self is_0;
              '(self, is_1) ← deep_clone_node fuel self is_1;
              new_node self (Branch is_0 is_1)
          | Ignore next =>
              '(self, next) ← deep_clone_node fuel self next;
              new_node self (Ignore next)
          end
      end
  end.
(** Fuel for a walk down the arena: no path is longer than the arena. *)
Definition levels (self : FilterTree) : nat := length (entries self).

Definition node_to_index (self : FilterTree) (node : NodeIndex) (update : FilterTree → NodeIndex → M FilterTree)
    : M (FilterTree * option nat) :=
  match node with
  | Enumerate =>
      '(self, new) ← new_node self (Ignore Enumerate);
      self ← update self new;
      i ← unwrap_index new; Ok (self, Some i)
  | Skip => Ok (self, None)
  | Index i => Ok (self, Some i)
  end.

(** [while len > 1 && filter.nth_bit_from_left(len - 1) == Wildcard]. *)
Fixpoint trim (filter : InstructionFilter) (len : nat) : M nat :=
  match len with
  | S (S k as len') =>
      b ← Filter.nth_bit_from_left filter len';
      if bool_decide (b = Wildcard) then trim filter len' else Ok len
  | _ => Ok len
  end.
Definition real_len (filter : InstructionFilter) : M nat := trim filter (Filter.bit_len filter).

(** The iteration of [add_internal] for the last bit. *)
Definition add_last (self : FilterTree) (cur_index : nat) (bit : FilterBit) : M (FilterTree * bool) :=
  node ← vget (entries self) cur_index;
  match node with
  | Branch is_0 is_1 =>
      match bit with
      | Is0 => if bool_decide (is_0 = Skip) then Ok (self, false) else
               self ← free_node (levels self) self is_0;
               self ← set_entry self cur_index (Branch Skip is_1); Ok (self, true)
      | Is1 => if bool_decide (is_1 = Skip) then Ok (self, false) else
               self ← free_node (levels self) self is_1;
               self ← set_entry self cur_index (Branch is_0 Skip); Ok (self, true)
      | Wildcard => self ← free_node (levels self) self is_0;
                    self ← free_node (levels self) self is_1;
                    self ← set_entry self cur_index (Ignore Skip); Ok (self, true)
      end
  | Ignore next =>
      match bit with
      | Is0 => self ← set_entry self cur_index (Branch Skip next); Ok (self, true)
      | Is1 => self ← set_entry self cur_index (Branch next Skip); Ok (self, true)
      | Wildcard => if bool_decide (next = Skip) then Ok (self, false) else
                    self ← free_node (levels self) self next;
                    self ← set_entry self cur_index (Ignore Skip); Ok (self, true)
      end
  end.
(** [for n in filter_index..real_len] with [count] iterations left, [n] the next. *)
Fixpoint add_loop (count : nat) (self : FilterTree) (cur_index : nat) (filter : InstructionFilter) (n : nat)
    (modified : bool) : M (FilterTree * bool) :=
  match count with
  | O => Ok (self, modified)
  | S O =>
      bit ← Filter.nth_bit_from_left filter n;
      '(self, m) ← add_last self cur_index bit; Ok (self, modified || m)
  | S count =>
      let follow (modified : bool) (r : FilterTree * option nat) : M (FilterTree * bool) :=
        match r with
        | (self, Some index) => add_loop count self index filter (n + 1) modified
        | (self, None) => Ok (self, modified)
        end in
      bit ← Filter.nth_bit_from_left filter n;
      node ← vget (entries self) cur_index;
      match node, bit with
      | Branch is_0 is_1, Is0 =>
          r ← node_to_index self is_0 (λ me new, set_entry me cur_index (Branch new is_1)); follow modified r
      | Branch is_0 is_1, Is1 =>
          r ← node_to_index self is_1 (λ me new, set_entry me cur_index (Branch is_0 new)); follow modified r
      | Branch is_0 is_1, Wildcard =>
          '(self, i) ← node_to_index self is_0 (λ me new, set_entry me cur_index (Branch new is_1));
          '(self, m) ← match i with
                       | Some index => add_loop count self index filter (n + 1) false
                       | None => Ok (self, false)
                       end;
          let modified := modified || m in
          '(self, i) ← node_to_index self is_1 (λ me new,
             e ← vget (entries me) cur_index;
             match e with Branch is_0 _ => set_entry me cur_index (Branch is_0 new) | Ignore _ => Panic end);
          '(self, m) ← match i with
                       | Some index => add_loop count self index filter (n + 1) false
                       | None => Ok (self, false)
                       end;
          Ok (self, modified || m)
      | Ignore next, Is0 =>
          '(self, is_1) ← deep_clone_node (levels self) self next;
          self ← set_entry self cur_index (Branch next is_1);
          r ← node_to_index self next (λ me new, set_entry me cur_index (Branch new is_1)); follow true r
      | Ignore next, Is1 =>
          '(self, is_1) ← deep_clone_node (levels self) self next;
          self ← set_entry self cur_index (Branch next is_1);
          r ← node_to_index self is_1 (λ me new, set_entry me cur_index (Branch next new)); follow true r
      | Ignore next, Wildcard =>
          r ← node_to_index self next (λ me new, set_entry me cur_index (Ignore new)); follow modified r
      end
  end.
Definition add_internal (self : FilterTree) (cur_index : nat) (filter : InstructionFilter) (filter_index : nat)
    : M (FilterTree * bool) :=
  l ← real_len filter; add_loop (l - filter_index) self cur_index filter filter_index false.

Definition or_else {A} (o : option A) (d : A) : A := match o with Some a => a | None => d end.
Fixpoint optimize (fuel : nat) (self : FilterTree) (cur_index : NodeIndex) (path : InstructionFilter) (k : nat)
    : M (FilterTree * option NodeIndex) :=
  match cur_index with
  | Enumerate | Skip => Ok (self, Some cur_index)
  | Index cur =>
      match fuel with
      | O => OutOfFuel
      | S fuel =>
          node ← vget (entries self) cur;
          match node with
          | Branch is_0 is_1 =>
              b ← Filter.nth_bit_from_left path k;
              '(self, new_is_0) ← match b with
                                  | Is0 | Wildcard => optimize fuel self is_0 path (k + 1)
                                  | Is1 => Ok (self, None)
                                  end;
              '(self, new_is_1) ← match b with
                                  | Is1 | Wildcard => optimize fuel self is_1 path (k + 1)
                                  | Is0 => Ok (self, None)
                                  end;
              '(self, is_0, is_1) ←
                 match new_is_0, new_is_1 with
                 | None, None => Ok (self, is_0, is_1)
                 | _, _ =>
                     let is_0 := or_else new_is_0 is_0 in
                     let is_1 := or_else new_is_1 is_1 in
                     self ← set_entry self cur (Branch is_0 is_1); Ok (self, is_0, is_1)
                 end;
              same ← same_tree_eq self is_0 is_1;
              if same : bool then
                match is_0 with
                | Enumerate | Skip =>
                    self ← free_node (levels self) self is_1;
                    self ← free_entry self cur; Ok (self, Some is_0)
                | Index _ =>
                    self ← set_entry self cur (Ignore is_0);
                    self ← free_node (levels self) self is_1; Ok (self, None)
                end
              else Ok (self, None)
          | Ignore next =>
              '(self, r) ← optimize fuel self next path (k + 1);
              match r with
              | Some (Enumerate as next) | Some (Skip as next) =>
                  self ← free_entry self cur; Ok (self, Some next)
              | Some (Index i) => self ← set_entry self cur (Ignore (Index i)); Ok (self, None)
              | None => Ok (self, None)
              end
          end
      end
  end.

Definition filter (self : FilterTree) (f : InstructionFilter) : M FilterTree :=
  '(self, modified) ← add_internal self 0 f 0;
  if modified : bool then
    '(self, r) ← optimize (levels self) self (Index 0) f 0;
    match r with
    | Some (Enumerate as index) | Some (Skip as index) => Ok {| entries := [Ignore index]; empty := [] |}
    | Some (Index i) =>
        e ← vget (entries self) i; self ← set_entry self 0 e; free_entry self i
    | None => Ok self
    end
  else Ok self.

(** The loop of [prune] over the bits of the instruction. *)
Fixpoint prune_loop (count : nat) (self : FilterTree) (cur_index : NodeIndex) (instruction : Instruction) (n : nat)
    : M FilterTree :=
  match count with
  | O => Ok self
  | S count =>
      bit ← Instr.nth_bit_from_left instruction n;
      match cur_index with
      | Enumerate | Skip => prune_loop count self cur_index instruction (n + 1)
      | Index i =>
          node ← vget (entries self) i;
          match node with
          | Branch is_0 is_1 =>
              if bit =? 0 then
                match is_1 with
                | Enumerate | Skip => prune_loop count self is_0 instruction (n + 1)
                | Index _ => self ← set_entry self i (Branch is_0 Enumerate); free_node (levels self) self is_1
                end
              else
                match is_0 with
                | Enumerate | Skip => prune_loop count self is_1 instruction (n + 1)
                | Index _ => self ← set_entry self i (Branch Enumerate is_1); free_node (levels self) self is_0
                end
          | Ignore next => prune_loop count self next instruction (n + 1)
          end
      end
  end.
Definition prune (self : FilterTree) (instruction : Instruction) : M FilterTree :=
  prune_loop (Instr.bit_len instruction) self (Index 0) instruction 0.

(** The filter of the instructions that agree with [instr0] but for its last [i] bits:
    [0xffu8.checked_shl(bits_to_mask).unwrap_or(0)] masks the bytes from the right. *)
Definition suffix_filter (instr0 : Instruction) (i : nat) : M InstructionFilter :=
  d ← mapM (λ '(index, b),
        let bits_to_mask := (i - index * 8)%nat in
        BF.new (if (bits_to_mask <? 8)%nat then wrap 8 (Z.shiftl 0xff (Z.of_nat bits_to_mask)) else 0) b)
      (imap pair (reverse (Instr.bytes instr0)));
  Filter.new (reverse d).
Fixpoint filter_below_loop (count : nat) (self : FilterTree) (below : Instruction) (i : nat) : M FilterTree :=
  match count with
  | O => Ok self
  | S count =>
      x ← Instr.with_nth_bit_from_right below i 0; instr0 ← Instr.with_rightmost_bits x i 0;
      y ← Instr.with_nth_bit_from_right below i 0; instr1 ← Instr.with_rightmost_bits y i 1;
      self ← (match Instr.cmp instr1 below with
              | Lt => f ← suffix_filter instr0 i; filter self f
              | _ => Ok self
              end);
      filter_below_loop count self below (i + 1)
  end.
Definition filter_below (self : FilterTree) (below : Instruction) : M FilterTree :=
  filter_below_loop (Instr.bit_len below) self below 0.
Fixpoint filter_above_loop (count : nat) (self : FilterTree) (start : Instruction) (i : nat) : M FilterTree :=
  match count with
  | O => Ok self
  | S count =>
      x ← Instr.with_nth_bit_from_right start i 1; instr0 ← Instr.with_rightmost_bits x i 0;
      self ← (match Instr.cmp instr0 start with
              | Gt => f ← suffix_filter instr0 i; filter self f
              | _ => Ok self
              end);
      filter_above_loop count self start (i + 1)
  end.
Definition filter_above (self : FilterTree) (start : Instruction) : M FilterTree :=
  filter_above_loop (Instr.bit_len start) self start 0.
End ops.

(** ** Queries *)

(** The tree and the instruction so far; the result says whether an instruction was
    found.  [path] is mutated in place by the source. *)
Definition set_and_cut (path : Instruction) (k : nat) (bit : Z) : M Instruction :=
  p ← Instr.with_nth_bit_from_left path k bit; Instr.resize p (k / 8 + 1) 0.
Definition extend_to (path : Instruction) (k : nat) : M Instruction :=
  if (Instr.bit_len path <=? k)%nat then Instr.extend path else Ok path.
Fixpoint find_next_internal (fuel : nat) (self : FilterTree) (node : NodeIndex) (k : nat) (path : Instruction)
    : M (bool * Instruction) :=
  match node with
  | Enumerate => Ok (true, path)
  | Skip =>
      path ← (if (k <? Instr.bit_len path)%nat then Instr.with_rightmost_bits path (Instr.bit_len path - k) 0 else Ok path);
      Ok (false, path)
  | Index i =>
      match fuel with
      | O => OutOfFuel
      | S fuel =>
          entry ← vget (entries self) i;
          path ← extend_to path k;
          match entry with
          | Branch is_0 is_1 =>
              b ← Instr.nth_bit_from_left path k;
              '(found, path) ← (if b =? 0 then find_next_internal fuel self is_0 (k + 1) path else Ok (false, path));
              if found : bool then Ok (true, path) else
              b ← Instr.nth_bit_from_left path k;
              path ← (if b =? 0 then set_and_cut path k 1 else Ok path);
              '(found, path) ← find_next_internal fuel self is_1 (k + 1) path;
              if found : bool then Ok (true, path)
              else path ← set_and_cut path k 0; Ok (false, path)
          | Ignore next =>
              '(found, path) ← find_next_internal fuel self next (k + 1) path;
              if found : bool then Ok (true, path) else
              b ← Instr.nth_bit_from_left path k;
              '(found, path) ← (if b =? 0
                                then path ← set_and_cut path k 1; find_next_internal fuel self next (k + 1) path
                                else Ok (false, path));
              if found : bool then Ok (true, path)
              else path ← set_and_cut path k 0; Ok (false, path)
          end
      end
  end.
Definition find_next (self : FilterTree) (instr : Instruction) : M (option Instruction) :=
  '(found, next) ← find_next_internal (length (entries self)) self (Index 0) 0 instr;
  Ok (if found : bool then Some next else None).

(** [for n in filter_index..real_len] of [covers_internal]. *)
Fixpoint covers_loop (count : nat) (self : FilterTree) (cur_index : nat) (filter : InstructionFilter) (n : nat) : M bool :=
  match count with
  | O => Ok false
  | S count =>
      bit ← Filter.nth_bit_from_left filter n;
      node ← vget (entries self) cur_index;
      let follow (x : NodeIndex) : M bool :=
        match x with
        | Enumerate => Ok false
        | Skip => Ok true
        | Index index => covers_loop count self index filter (n + 1)
        end in
      match node, bit with
      | Branch is_0 _, Is0 => follow is_0
      | Branch _ is_1, Is1 => follow is_1
      | Branch is_0 is_1, Wildcard =>
          match is_0 with
          | Enumerate => Ok false
          | Skip => Ok true
          | Index index =>
              c ← covers_loop count self index filter (n + 1);
              if negb c then Ok false else follow is_1
          end
      | Ignore next, _ => follow next
      end
  end.
Definition covers (self : FilterTree) (filter : InstructionFilter) : M bool :=
  l ← real_len filter; covers_loop l self 0 filter 0.

(** [count_nodes]: the stack of nodes to visit. *)
Fixpoint count_loop (fuel : nat) (self : FilterTree) (queue : list NodeIndex) (count : nat) : M nat :=
  match queue with
  | [] => Ok count
  | node :: queue =>
      match fuel with
      | O => OutOfFuel
      | S fuel =>
          match node with
          | Enumerate | Skip => count_loop fuel self queue (count + 1)
          | Index i =>
              entry ← vget (entries self) i;
              match entry with
              | Branch is_0 is_1 => count_loop fuel self (is_1 :: is_0 :: queue) (count + 1)
              | Ignore next => count_loop fuel self (next :: queue) (count + 1)
              end
          end
      end
  end.
Definition count_nodes (self : FilterTree) : M nat :=
  count_loop (2 * length (entries self) + 1) self [Index 0] 0.
End Tree.
