(* ===== verification/FilterArena.v ===== *)
(** * The arena of filter trees

    The nodes of a filter tree live in [entries]; the free list [empty] holds the
    positions that may be reused.  A subtree owns the positions of its nodes (its
    footprint), and [arena] says that the owned positions and the free ones are all
    the positions, each exactly once: nothing is shared, leaked or freed twice.
    The functions on nodes are specified by what they do to the subtree they are
    given, with the rest of the owned positions [R] as a frame. *)
From S2P Require Import Prelude MachInt Utils Instruction Filter FilterTree.
Import Tree.

(** ** Trees and the sets they stand for *)

Inductive tree := TEnum | TSkip | TBranch (is_0 is_1 : tree) | TIgnore (next : tree).

(** A stream of bits, from the left. *)
Definition stream := nat → bool.
Definition rest (s : stream) : stream := λ n, s (S n).
Fixpoint covered (t : tree) (s : stream) : bool :=
  match t with
  | TEnum => false
  | TSkip => true
  | TBranch is_0 is_1 => covered (if s 0%nat then is_1 else is_0) (rest s)
  | TIgnore next => covered next (rest s)
  end.
Fixpoint depth (t : tree) : nat :=
  match t with
  | TEnum | TSkip => 0
  | TBranch a b => S (Nat.max (depth a) (depth b))
  | TIgnore t => S (depth t)
  end.
Fixpoint size (t : tree) : nat :=
  match t with TEnum | TSkip => 0 | TBranch a b => S (size a + size b) | TIgnore t => S (size t) end.

(** Trees that cover the same streams. *)
#[export] Instance tree_equiv : Equiv tree := λ a b, ∀ s, covered a s = covered b s.
#[export] Instance tree_equivalence : Equivalence (≡@{tree}).
Proof.
  split; [by intros t s | by intros a b H s | intros a b c H1 H2 s; by rewrite (H1 s)].
Qed.
#[export] Instance TBranch_proper : Proper ((≡) ==> (≡) ==> (≡)) TBranch.
Proof. intros a a' Ha b b' Hb s. cbn. by destruct (s 0%nat). Qed.
#[export] Instance TIgnore_proper : Proper ((≡) ==> (≡)) TIgnore.
Proof. intros a a' Ha s. apply Ha. Qed.
Lemma branch_same t : TBranch t t ≡ TIgnore t.
Proof. intros s. cbn. by destruct (s 0%nat). Qed.

(** ** Ownership *)

Inductive rep (E : list Node) : tree → NodeIndex → list nat → Prop :=
| rep_enum : rep E TEnum Enumerate []
| rep_skip : rep E TSkip Skip []
| rep_branch k i0 i1 a b fa fb : E !! k = Some (Branch i0 i1) → rep E a i0 fa → rep E b i1 fb →
    rep E (TBranch a b) (Index k) (k :: fa ++ fb)
| rep_ignore k i t fp : E !! k = Some (Ignore i) → rep E t i fp → rep E (TIgnore t) (Index k) (k :: fp).

Notation occ l j := (count_occ Nat.eq_dec l j).
Definition inside (n j : nat) : nat := if (j <? n)%nat then 1 else 0.
Definition arena (T : FilterTree) (live : list nat) : Prop :=
  ∀ j, (occ live j + occ (empty T) j = inside (length (entries T)) j)%nat.
Definition keeps (R : list nat) (T T' : FilterTree) : Prop :=
  ∀ j, j ∈ R → entries T' !! j = entries T !! j.

Lemma occ_seq j n : occ (seq 0 n) j = inside n j.
Proof.
  unfold inside. case_cmp.
  - apply NoDup_count_occ'; [apply List.seq_NoDup | apply List.in_seq; lia].
  - apply count_occ_not_In. rewrite List.in_seq. lia.
Qed.
(** The owned and the free positions are a permutation of all of them. *)
Lemma arena_permutation T live : arena T live ↔ live ++ empty T ≡ₚ seq 0 (length (entries T)).
Proof.
  unfold arena. rewrite (Permutation_count_occ Nat.eq_dec). split; intros H j; specialize (H j);
    rewrite count_occ_app, occ_seq in *; done.
Qed.
Lemma occ_elem_of l j : j ∈ l ↔ (0 < occ l j)%nat.
Proof. rewrite list_elem_of_In, (count_occ_In Nat.eq_dec). lia. Qed.
Lemma occ_cons k l j : occ (k :: l) j = ((if (k =? j)%nat then 1 else 0) + occ l j)%nat.
Proof. cbn. case_cmp; destruct (Nat.eq_dec k j); lia. Qed.
Lemma arena_live T live j : arena T live → j ∈ live → (j < length (entries T))%nat.
Proof. intros H Hj%occ_elem_of. specialize (H j). unfold inside in H. revert H. case_cmp; lia. Qed.

(** Goals about owned positions are linear arithmetic on numbers of occurrences. *)
Ltac occs :=
  rewrite ?count_occ_app, ?occ_cons, ?count_occ_app in *; cbn [count_occ] in *.
Lemma arena_length T live : arena T live → (length live <= length (entries T))%nat.
Proof.
  intros H%arena_permutation%Permutation_length. rewrite length_app, length_seq in H. lia.
Qed.
Lemma arena_nodup T live : arena T live → NoDup live.
Proof.
  intros H%arena_permutation. apply (NoDup_app live (empty T)). rewrite H. apply NoDup_seq.
Qed.
Lemma arena_proper T live live' : live ≡ₚ live' → arena T live → arena T live'.
Proof. intros E H j. rewrite <- (proj1 (Permutation_count_occ Nat.eq_dec _ _) E). apply H. Qed.

Lemma rep_live E t i fp : rep E t i fp → ∀ j, j ∈ fp → is_Some (E !! j).
Proof.
  induction 1; intros j Hj; [by apply not_elem_of_nil in Hj..| |];
    apply elem_of_cons in Hj as [->|Hj]; eauto. apply elem_of_app in Hj as [Hj|Hj]; eauto.
Qed.
Lemma rep_frame E E' t i fp : rep E t i fp → (∀ j, j ∈ fp → E' !! j = E !! j) → rep E' t i fp.
Proof.
  induction 1 as [| |k i0 i1 a b fa fb Hk Ha IHa Hb IHb|k i t fp Hk Ht IHt]; intros Hj; econstructor;
    first [rewrite Hj by left; eassumption | apply IHa | apply IHb | apply IHt]; intros j Hin;
    apply Hj; rewrite ?elem_of_cons, ?elem_of_app; auto.
Qed.
Lemma rep_keeps R T T' t i fp : rep (entries T) t i fp → keeps R T T' → fp ⊆ R → rep (entries T') t i fp.
Proof. intros H HR Hsub. eapply rep_frame; [done|]. intros j Hj. by apply HR, Hsub. Qed.
Lemma rep_length E t i fp : rep E t i fp → length fp = size t.
Proof. induction 1; cbn; rewrite ?length_app; lia. Qed.
Lemma depth_size t : (depth t <= size t)%nat.
Proof. induction t; cbn; lia. Qed.
Lemma rep_depth T t i fp R : rep (entries T) t i fp → arena T (fp ++ R) → (depth t <= levels T)%nat.
Proof.
  intros Hr%rep_length Ha%arena_length. rewrite length_app in Ha. pose proof (depth_size t). unfold levels. lia.
Qed.
(** Two disjoint subtrees with the same index are leaves. *)
Lemma rep_shared E a b i fa fb : rep E a i fa → rep E b i fb → (∀ j, j ∈ fa → j ∈ fb → False) →
  a = b ∧ fa = [] ∧ fb = [].
Proof.
  destruct 1; inversion 1; subst; intros Hd; try done; exfalso; apply (Hd k); left.
Qed.

Lemma keeps_refl R T : keeps R T T.
Proof. by intros j _. Qed.
Lemma keeps_trans R T1 T2 T3 : keeps R T1 T2 → keeps R T2 T3 → keeps R T1 T3.
Proof. intros H1 H2 j Hj. by rewrite H2, H1. Qed.
Lemma keeps_sub R R' T T' : R ⊆ R' → keeps R' T T' → keeps R T T'.
Proof. intros Hs H j Hj. by apply H, Hs. Qed.
#[export] Hint Resolve keeps_refl : rust.

(** The arena is small enough for [n] more nodes with 40-bit indices. *)
Definition room (T : FilterTree) (n : nat) : Prop := Z.of_nat (length (entries T) + n) <= 2 ^ 40.

Lemma new_index_ok i : or_panic (2 ^ 40 <= Z.of_nat i) (new_index i) (λ r, r = Index i).
Proof.
  unfold new_index, U40.new. destruct (Z.leb_spec (Z.of_nat i) 0x00ffffffffff) as [H|H]; [right; by eexists | left; split; [done | lia]].
Qed.
(** [U40] keeps every value that it accepts. *)
Lemma U40_roundtrip v : 0 <= v → v < 2 ^ 40 → ∃ u, U40.new v = Ok u ∧ U40.value u = v ∧
  is_u 8 (U40.hi u) ∧ is_u 32 (U40.lo u).
Proof.
  intros H0 H. unfold U40.new. rewrite (proj2 (Z.leb_le _ _)) by lia. eexists. split; [done|].
  unfold U40.value. cbn [U40.hi U40.lo]. split; [|split; apply wrap_is_u; lia].
  apply Z.bits_inj'. intros n Hn. rewrite Z.lor_spec, Z.shiftl_spec, !testbit_wrap by lia.
  case_cmps; cbn; rewrite ?andb_false_r, ?orb_false_r; try done; rewrite ?Z.shiftr_spec by lia; try (by f_equal; lia).
  all: try (rewrite (Z.testbit_neg_r _ (n - 32)) by lia; by rewrite orb_false_r).
  symmetry. apply (testbit_u_high 40); [split; [lia|] |lia]. change (2 ^ 40) with (2 ^ 40). lia.
Qed.

(** ** Single nodes *)

(** [owns R T T' fp]: from [T] to [T'], the frame is kept and [fp] is owned beside it. *)
Record owned (R : list nat) (T T' : FilterTree) (fp : list nat) : Prop := {
  owned_arena : arena T' (fp ++ R);
  owned_keeps : keeps R T T' }.

(** Without room the index does not fit, which is a panic. *)
Lemma new_node_ok T R n : arena T R → or_panic (¬ room T 1) (new_node T n) (λ '(T', i), ∃ k,
  i = Index k ∧ entries T' !! k = Some n ∧ owned R T T' [k] ∧ (length (entries T') <= S (length (entries T)))%nat).
Proof.
  intros Ha. unfold new_node. destruct (empty T) as [|k free] eqn:Ee.
  - eapply or_panic_bind; [apply new_index_ok | unfold room; lia|]. intros i ->. apply or_panic_ok. eexists. split; [done|]. cbn [entries].
    assert (∀ j, j ∈ R → (entries T ++ [n]) !! j = entries T !! j) as Hk.
    { intros j Hj. apply lookup_app_l. by eapply arena_live. }
    split; [by rewrite list_lookup_middle|]. split; [|rewrite length_app; cbn; lia].
    split; [|done]. intros j. specialize (Ha j). rewrite Ee in Ha. cbn [entries empty]. occs.
    unfold inside in *. rewrite length_app. cbn [length]. revert Ha. case_cmps; lia.
  - assert (k < length (entries T))%nat as Hk.
    { specialize (Ha k). rewrite Ee in Ha. occs. rewrite Nat.eqb_refl in Ha. unfold inside in Ha. revert Ha. case_cmps; lia. }
    rewrite vset_lt, M_bind_Ok by done. eapply or_panic_bind; [apply new_index_ok | unfold room; lia|]. intros i ->. apply or_panic_ok.
    eexists. split; [done|]. cbn [entries]. rewrite list_lookup_insert_eq by done. split; [done|].
    rewrite length_insert. split; [|lia]. split; [intros j|intros j Hj]; cbn [entries empty]; pose proof (Ha j) as Hj'; rewrite Ee in Hj'.
    + rewrite length_insert. occs. revert Hj'. case_cmps; lia.
    + apply list_lookup_insert_ne. intros <-. apply occ_elem_of in Hj. occs. rewrite Nat.eqb_refl in Hj'.
      unfold inside in Hj'. revert Hj'. case_cmps; lia.
Qed.

Lemma set_entry_ok T live k n : arena T live → k ∈ live → ∃ T', set_entry T k n = Ok T' ∧
  entries T' !! k = Some n ∧ (∀ j, j ≠ k → entries T' !! j = entries T !! j) ∧ arena T' live ∧
  length (entries T') = length (entries T).
Proof.
  intros Ha Hk. pose proof (arena_live _ _ _ Ha Hk). unfold set_entry. rewrite vset_lt, M_bind_Ok by done.
  eexists. split; [done|]. cbn [entries]. rewrite list_lookup_insert_eq by done.
  split; [done|]. split; [intros j Hj; by rewrite list_lookup_insert_ne|].
  split; [|apply length_insert]. intros j. cbn [entries empty]. rewrite length_insert. apply Ha.
Qed.

Section ops.
Context {P : profile}.

Lemma free_entry_ok T k R : arena T (k :: R) → ∃ T', free_entry T k = Ok T' ∧ owned R T T' [] ∧
  (length (entries T') <= length (entries T))%nat.
Proof.
  intros Ha. assert (k < length (entries T))%nat as Hk by (eapply arena_live; [done|left]).
  unfold free_entry. destruct (length (entries T)) as [|last] eqn:El; [lia|]. case_cmp.
  - subst k. eexists. split; [done|]. cbn [entries]. rewrite length_take. split; [|lia].
    split; cbn [app entries empty]; intros j; pose proof (Ha j) as Hj; occs; unfold inside in *; rewrite El in Hj.
    + cbn [entries empty]. rewrite length_take. revert Hj. case_cmps; lia.
    + intros Hin%occ_elem_of. cbn [entries]. apply lookup_take_lt. revert Hj. case_cmps; lia.
  - eexists. split; [done|]. cbn [entries]. split; [|lia]. split; [|done].
    intros j. specialize (Ha j). cbn [entries empty app]. occs. rewrite El in *. lia.
Qed.

Lemma free_node_ok fuel : ∀ T t i fp R, rep (entries T) t i fp → arena T (fp ++ R) → (depth t <= fuel)%nat →
  ∃ T', free_node fuel T i = Ok T' ∧ owned R T T' [] ∧ (length (entries T') <= length (entries T))%nat.
Proof.
  induction fuel as [|fuel IH]; intros T t i fp R Hr Ha Hd.
  - inversion Hr; subst; cbn in Hd; try lia; cbn; eexists; by repeat split.
  - destruct Hr as [| |k i0 i1 a b fa fb Hk Hra Hrb|k i t fp Hk Ht]; cbn [free_node depth] in *;
      [eexists; by repeat split..| |]; rewrite (proj2 (vget_Ok_inv _ _ _) Hk), M_bind_Ok.
    + destruct (IH T a i0 fa (k :: fb ++ R) Hra) as (T1 & -> & [Ha1 Hk1] & Hl1);
        [intros j; rewrite <- (Ha j); occs; lia | lia | rewrite !M_bind_Ok].
      destruct (IH T1 b i1 fb (k :: R)) as (T2 & -> & [Ha2 Hk2] & Hl2);
        [eapply rep_keeps; [done..|set_solver] | intros j; rewrite <- (Ha1 j); occs; lia | lia | rewrite M_bind_Ok].
      destruct (free_entry_ok T2 k R Ha2) as (T3 & -> & [Ha3 Hk3] & Hl3). eexists. split; [done|]. split; [|lia].
      split; [done|]. eapply keeps_trans; [|done]. eapply keeps_trans; eapply keeps_sub; [|done| |done]; set_solver.
    + destruct (IH T t i fp (k :: R) Ht) as (T1 & -> & [Ha1 Hk1] & Hl1);
        [intros j; rewrite <- (Ha j); occs; lia | lia | rewrite !M_bind_Ok].
      destruct (free_entry_ok T1 k R Ha1) as (T3 & -> & [Ha3 Hk3] & Hl3). eexists. split; [done|]. split; [|lia].
      split; [done|]. eapply keeps_trans; [|done]. eapply keeps_sub; [|done]; set_solver.
Qed.
Lemma free_node_levels_ok T t i fp R : rep (entries T) t i fp → arena T (fp ++ R) →
  ∃ T', free_node (levels T) T i = Ok T' ∧ owned R T T' [] ∧ (length (entries T') <= length (entries T))%nat.
Proof. intros Hr Ha. eapply free_node_ok; [done..|]. by eapply rep_depth. Qed.
End ops.

Lemma deep_clone_node_ok fuel : ∀ T t i fp R, rep (entries T) t i fp → arena T (fp ++ R) → (depth t <= fuel)%nat →
  or_panic (¬ room T (size t)) (deep_clone_node fuel T i) (λ '(T', i'), ∃ fp', rep (entries T') t i' fp' ∧
    owned (fp ++ R) T T' fp' ∧ (length (entries T') <= length (entries T) + size t)%nat).
Proof.
  unfold room. induction fuel as [|fuel IH]; intros T t i fp R Hr Ha Hd.
  - inversion Hr; subst; cbn in Hd; try lia; cbn; apply or_panic_ok; eexists; (split; [constructor|]);
      (split; [by split|lia]).
  - destruct Hr as [| |k i0 i1 a b fa fb Hk Hra Hrb|k i t fp Hk Ht]; cbn [deep_clone_node depth size] in *;
      [apply or_panic_ok; eexists; (split; [constructor|]); (split; [by split|lia])..| |];
      rewrite (proj2 (vget_Ok_inv _ _ _) Hk), M_bind_Ok.
    + eapply or_panic_bind; [apply (IH T a i0 fa (k :: fb ++ R) Hra);
        [intros j; rewrite <- (Ha j); occs; lia | lia] | lia |]. intros [T1 i0'] (fa' & Hr1 & [Ha1 Hk1] & Hl1).
      eapply or_panic_bind; [apply (IH T1 b i1 fb (fa' ++ k :: fa ++ R));
        [eapply rep_keeps; [done..|set_solver] | intros j; rewrite <- (Ha1 j); occs; lia | lia] | lia |].
      intros [T2 i1'] (fb' & Hr2 & [Ha2 Hk2] & Hl2).
      eapply or_panic_mono; [apply (new_node_ok T2 _ (Branch i0' i1') Ha2) | unfold room; lia |].
      intros [T3 i'] (k' & -> & Hn & [Ha3 Hk3] & Hl3).
      exists (k' :: fa' ++ fb'). split; [|split; [split|lia]].
      * econstructor; [done|..].
        -- eapply rep_keeps; [|done|set_solver]. eapply rep_keeps; [done..|set_solver].
        -- eapply rep_keeps; [done..|set_solver].
      * intros j. rewrite <- (Ha3 j). occs; lia.
      * intros j Hj. rewrite Hk3, Hk2, Hk1 by set_solver. done.
    + eapply or_panic_bind; [apply (IH T t i fp (k :: R) Ht);
        [intros j; rewrite <- (Ha j); occs; lia | lia] | lia |]. intros [T1 i'] (fp' & Hr1 & [Ha1 Hk1] & Hl1).
      eapply or_panic_mono; [apply (new_node_ok T1 _ (Ignore i') Ha1) | unfold room; lia |].
      intros [T3 i''] (k' & -> & Hn & [Ha3 Hk3] & Hl3).
      exists (k' :: fp'). split; [|split; [split|lia]].
      * econstructor; [done|]. eapply rep_keeps; [done..|set_solver].
      * intros j. rewrite <- (Ha3 j). occs; lia.
      * intros j Hj. rewrite Hk3, Hk1 by set_solver. done.
Qed.
