(* ===== verification/FilterTreeFacts.v ===== *)
(** * Adding filters to filter trees

    [filter] keeps the arena well formed and adds exactly the bit strings that the
    new filter matches to the set that the tree covers; a tree refines the set of
    the filters that were added to it.  [prune] only ever removes. *)
From S2P Require Import Prelude MachInt Utils Instruction InstructionFacts Filter FilterFacts FilterTree FilterArena.
Import Tree.

(** ** The effect of adding a filter *)

Fixpoint bmatch (bits : list FilterBit) (s : stream) : bool :=
  match bits with
  | [] => true
  | Is0 :: bits => negb (s 0%nat) && bmatch bits (rest s)
  | Is1 :: bits => s 0%nat && bmatch bits (rest s)
  | Wildcard :: bits => bmatch bits (rest s)
  end.

(** A leaf that must be refined gets a node first. *)
Definition grow (t : tree) : tree := match t with TEnum => TIgnore TEnum | t => t end.
Definition tadd_last (bit : FilterBit) (t : tree) : tree :=
  match bit, t with
  | Is0, TBranch _ b => TBranch TSkip b
  | Is1, TBranch a _ => TBranch a TSkip
  | Is0, TIgnore t => TBranch TSkip t
  | Is1, TIgnore t => TBranch t TSkip
  | Wildcard, TBranch _ _ | Wildcard, TIgnore _ => TIgnore TSkip
  | _, t => t
  end.
Fixpoint tadd (bits : list FilterBit) (t : tree) : tree :=
  match bits with
  | [] => t
  | bit :: bits =>
      let down t := match t with TSkip => TSkip | t => tadd bits (grow t) end in
      match bits with
      | [] => tadd_last bit t
      | _ =>
          match t, bit with
          | TBranch a b, Is0 => TBranch (down a) b
          | TBranch a b, Is1 => TBranch a (down b)
          | TBranch a b, Wildcard => TBranch (down a) (down b)
          | TIgnore t, Is0 => TBranch (down t) t
          | TIgnore t, Is1 => TBranch t (down t)
          | TIgnore t, Wildcard => TIgnore (down t)
          | t, _ => t
          end
      end
  end.
Definition down (bits : list FilterBit) (t : tree) : tree :=
  match t with TSkip => TSkip | t => tadd bits (grow t) end.
(** How many nodes that takes at most. *)
Definition leaf_alloc (t : tree) : nat := match t with TEnum => 1 | _ => 0 end.
Fixpoint allocs (bits : list FilterBit) (t : tree) : nat :=
  match bits with
  | [] | [_] => 0
  | bit :: bits =>
      let down t := match t with TSkip => 0 | t => leaf_alloc t + allocs bits (grow t) end%nat in
      match t, bit with
      | TBranch a b, Is0 => down a
      | TBranch a b, Is1 => down b
      | TBranch a b, Wildcard => down a + down b
      | TIgnore t, Is0 | TIgnore t, Is1 => size t + down t
      | TIgnore t, Wildcard => down t
      | _, _ => 0
      end
  end.
Definition down_allocs (bits : list FilterBit) (t : tree) : nat :=
  match t with TSkip => 0 | t => leaf_alloc t + allocs bits (grow t) end.
Definition inner (t : tree) : Prop := match t with TBranch _ _ | TIgnore _ => True | _ => False end.

Lemma tadd_cons bit b bits t : tadd (bit :: b :: bits) t =
  let down := down (b :: bits) in
  match t, bit with
  | TBranch a b, Is0 => TBranch (down a) b
  | TBranch a b, Is1 => TBranch a (down b)
  | TBranch a b, Wildcard => TBranch (down a) (down b)
  | TIgnore t, Is0 => TBranch (down t) t
  | TIgnore t, Is1 => TBranch t (down t)
  | TIgnore t, Wildcard => TIgnore (down t)
  | t, _ => t
  end.
Proof. reflexivity. Qed.
Lemma allocs_cons bit b bits t : allocs (bit :: b :: bits) t =
  let down := down_allocs (b :: bits) in
  match t, bit with
  | TBranch a b, Is0 => down a
  | TBranch a b, Is1 => down b
  | TBranch a b, Wildcard => down a + down b
  | TIgnore t, Is0 | TIgnore t, Is1 => size t + down t
  | TIgnore t, Wildcard => down t
  | _, _ => 0
  end%nat.
Proof. reflexivity. Qed.

Lemma down_covered bits t : (∀ t s, inner t → covered (tadd bits t) s = covered t s || bmatch bits s) →
  ∀ s, covered (down bits t) s = covered t s || bmatch bits s.
Proof. intros IH s. destruct t; cbn [down grow]; rewrite ?IH by done; done. Qed.
Lemma tadd_covered bits : bits ≠ [] → ∀ t s, inner t → covered (tadd bits t) s = covered t s || bmatch bits s.
Proof.
  induction bits as [|bit [|b bits] IH]; [done|..]; intros _ t s Ht.
  - destruct t, bit; cbn in *; try done; destruct (s 0%nat); cbn; rewrite ?orb_true_r, ?orb_false_r; done.
  - specialize (IH ltac:(done)). pose proof (λ t, down_covered _ t IH) as Hd. revert Hd. rewrite tadd_cons.
    generalize (down (b :: bits)). generalize (b :: bits). intros bits' f Hd. cbv zeta.
    destruct t, bit; try done; cbn [covered bmatch]; destruct (s 0%nat) eqn:Es; cbn [covered];
      rewrite ?Hd, ?andb_true_l, ?andb_false_l, ?orb_false_r; done.
Qed.

Lemma tadd_depth bits : ∀ t, (depth (tadd bits t) <= Nat.max (depth t) (length bits))%nat.
Proof.
  induction bits as [|bit [|b bits] IH]; intros t; [cbn; lia | destruct t, bit; cbn; lia|].
  assert (∀ t, depth (down (b :: bits) t) <= Nat.max (depth t) (length (b :: bits)))%nat as Hd.
  { intros u. destruct u; cbn [down]; [|cbn; lia|..]; etransitivity; [apply IH|cbn; lia|apply IH|cbn; lia|apply IH|cbn; lia]. }
  rewrite tadd_cons. revert Hd. generalize (down (b :: bits)). intros f Hd. cbv zeta.
  destruct t, bit; cbn [depth length] in *;
    repeat match goal with |- context [f ?u] => pose proof (Hd u); generalize dependent (f u); intros end; cbn in *; lia.
Qed.

(** ** [add_internal] *)

Definition bits_from (f : InstructionFilter) (n : nat) (bits : list FilterBit) : Prop :=
  ∀ j b, bits !! j = Some b → Filter.nth_bit_from_left f (n + j) = Ok b.
Lemma bits_from_tail f n b bits : bits_from f n (b :: bits) →
  Filter.nth_bit_from_left f n = Ok b ∧ bits_from f (n + 1) bits.
Proof.
  intros H. split; [rewrite <- (Nat.add_0_r n); by apply H|].
  intros j c Hj. replace (n + 1 + j)%nat with (n + S j)%nat by lia. by apply H.
Qed.

(** The node at position [k] in terms of its children. *)
Lemma rep_node_inv E t k fp : rep E t (Index k) fp →
  (∃ a b i0 i1 fa fb, t = TBranch a b ∧ E !! k = Some (Branch i0 i1) ∧ rep E a i0 fa ∧ rep E b i1 fb ∧ fp = k :: fa ++ fb) ∨
  (∃ u i fu, t = TIgnore u ∧ E !! k = Some (Ignore i) ∧ rep E u i fu ∧ fp = k :: fu).
Proof. inversion 1; subst; [left|right]; eauto 12. Qed.

(** A subtree whose positions are owned apart from [k] survives an update of [k]. *)
Lemma rep_update T T' t i fp k R : rep (entries T) t i fp → (∀ j, j ≠ k → entries T' !! j = entries T !! j) →
  arena T (k :: fp ++ R) → rep (entries T') t i fp.
Proof.
  intros Hr Hk Ha%arena_nodup. eapply rep_frame; [done|]. intros j Hj. apply Hk. intros ->.
  apply NoDup_cons in Ha as [Ha _]. set_solver.
Qed.

Section ops.
Context {P : profile}.

Definition add_result (bits : list FilterBit) T cur t R f n modified : Prop :=
  or_panic (¬ room T (allocs bits t)) (add_loop (length bits) T cur f n modified) (λ '(T', m), ∃ fp',
    rep (entries T') (tadd bits t) (Index cur) fp' ∧ owned R T T' fp' ∧
    (length (entries T') <= length (entries T) + allocs bits t)%nat).
Definition add_spec (bits : list FilterBit) : Prop := ∀ T cur t fp R f n modified,
  rep (entries T) t (Index cur) fp → arena T (fp ++ R) → bits_from f n bits → add_result bits T cur t R f n modified.

(** One child of the node at [cur]: it gets a node if it has none, and the rest of
    the filter is added to it. *)
Definition down_result (bits : list FilterBit) T cur (mk : NodeIndex → Node) c R (r : M (FilterTree * bool)) : Prop :=
  or_panic (¬ room T (down_allocs bits c)) r (λ '(T', m), ∃ ic' fc',
    rep (entries T') (down bits c) ic' fc' ∧ entries T' !! cur = Some (mk ic') ∧ arena T' (cur :: fc' ++ R) ∧
    keeps R T T' ∧ (length (entries T') <= length (entries T) + down_allocs bits c)%nat).
Lemma down_ok bits T cur mk c ic fc R f n update : add_spec bits → rep (entries T) c ic fc →
  arena T (cur :: fc ++ R) → entries T !! cur = Some (mk ic) → bits_from f n bits →
  (∀ me new, entries me !! cur = Some (mk ic) → update me new = set_entry me cur (mk new)) →
  or_panic (¬ room T (down_allocs bits c)) (node_to_index T ic update) (λ '(T1, o), ∀ md, down_result bits T cur mk c R
    match o with Some index => add_loop (length bits) T1 index f n md | None => Ok (T1, md) end).
Proof.
  intros Hadd Hr Ha Hcur Hbits Hup. unfold down_result.
  assert (∀ k, ic = Index k → down bits c = tadd bits c → down_allocs bits c = allocs bits c → or_panic (¬ room T (down_allocs bits c))
    (node_to_index T ic update) (λ '(T1, o), ∀ md, down_result bits T cur mk c R
      match o with Some index => add_loop (length bits) T1 index f n md | None => Ok (T1, md) end)) as Hindex.
  { intros k -> Ed Ec. apply or_panic_ok. intros md. unfold down_result. rewrite Ed, Ec.
    eapply or_panic_mono; [apply (Hadd T k c fc (cur :: R) f n md Hr); [intros j; rewrite <- (Ha j); occs; lia | done] | done |].
    intros [T' m] (fc' & Hr' & [Ha' Hk'] & Hl'). exists (Index k), fc'. split; [done|]. rewrite (Hk' cur) by left. split; [done|].
    split; [intros j; rewrite <- (Ha' j); occs; lia|]. split; [eapply keeps_sub; [|done]; set_solver | lia]. }
  destruct Hr as [| |k i0 i1 a b fa fb Hk Hra Hrb|k i t fp Hk Ht];
    [|apply or_panic_ok; intros md; apply or_panic_ok; exists Skip, []; repeat split; [constructor|done..|lia]
     |by eapply Hindex..].
  clear Hindex. cbn [down down_allocs leaf_alloc grow app] in *. unfold node_to_index.
  eapply or_panic_bind; [apply (new_node_ok T (cur :: R) (Ignore Enumerate)); done | unfold room; lia|].
  intros [T1 i] (k & -> & Hk & [Ha1 Hk1] & Hl1).
  destruct (set_entry_ok T1 (k :: cur :: R) cur (mk (Index k)) Ha1) as (T2 & Hset & Hcur2 & Hk2 & Ha2 & Hl2); [set_solver|].
  rewrite Hup, Hset, M_bind_Ok by (by rewrite (Hk1 cur) by left). apply or_panic_ok. intros md. assert (k ≠ cur) as Hne.
  { intros ->. apply arena_nodup in Ha1. apply NoDup_cons in Ha1 as [Ha1 _]. set_solver. }
  eapply or_panic_mono; [apply (Hadd T2 k (TIgnore TEnum) [k] (cur :: R) f n md);
    [econstructor; [by rewrite Hk2|constructor] | done | done] | unfold room; lia |].
  intros [T' m] (fc' & Hr' & [Ha' Hk'] & Hl'). exists (Index k), fc'. split; [done|]. rewrite (Hk' cur) by left. split; [done|].
  split; [intros j; rewrite <- (Ha' j); occs; lia|]. split; [|lia].
  intros j Hj. rewrite (Hk' j), (Hk2 j), (Hk1 j) by
    (first [set_solver | intros ->; apply arena_nodup in Ha; apply NoDup_cons in Ha as [Ha _]; set_solver]). done.
Qed.

(** Write the node at [cur]; the positions of [R] are kept. *)
Lemma set_own T cur node R : arena T (cur :: R) → ∃ T', set_entry T cur node = Ok T' ∧
  entries T' !! cur = Some node ∧ arena T' (cur :: R) ∧ keeps R T T' ∧ length (entries T') = length (entries T).
Proof.
  intros Ha. destruct (set_entry_ok T (cur :: R) cur node Ha) as (T' & -> & Hcur & Hk & Ha' & Hl); [left|].
  exists T'. repeat split; try done. intros j Hj. apply Hk. intros ->.
  apply arena_nodup in Ha. apply NoDup_cons in Ha as [Ha _]. done.
Qed.
(** Free a subtree and overwrite the node that pointed to it. *)
Lemma free_set_ok T cur u i fu R node : rep (entries T) u i fu → arena T (cur :: fu ++ R) → ∃ T1 T',
  free_node (levels T) T i = Ok T1 ∧ set_entry T1 cur node = Ok T' ∧ entries T' !! cur = Some node ∧
  arena T' (cur :: R) ∧ keeps R T T' ∧ (length (entries T') <= length (entries T))%nat.
Proof.
  intros Hr Ha. destruct (free_node_levels_ok T u i fu (cur :: R) Hr) as (T1 & E1 & [Ha1 Hk1] & Hl1);
    [intros j; rewrite <- (Ha j); occs; lia|].
  destruct (set_own T1 cur node R Ha1) as (T' & E2 & Hcur & Ha' & Hk' & Hl').
  exists T1, T'. repeat split; try done; [|lia]. eapply keeps_trans; [|done]. eapply keeps_sub; [|done]. set_solver.
Qed.

Lemma add_last_ok T cur t fp R bit : rep (entries T) t (Index cur) fp → arena T (fp ++ R) →
  ∃ T' m fp', add_last T cur bit = Ok (T', m) ∧ rep (entries T') (tadd_last bit t) (Index cur) fp' ∧
    owned R T T' fp' ∧ (length (entries T') <= length (entries T))%nat.
Proof.
  intros Hr Ha. unfold add_last.
  destruct (rep_node_inv _ _ _ _ Hr) as [(a & b & i0 & i1 & fa & fb & -> & Hk & Hra & Hrb & ->)|(u & i & fu & -> & Hk & Hu & ->)];
    rewrite (proj2 (vget_Ok_inv _ _ _) Hk), M_bind_Ok; destruct bit; cbn [tadd_last].
  - case_bool_decide as Hs.
    + subst i0. exists T, false. inversion Hra; subst. exists (cur :: fb). repeat split; [|done..].
      by apply (rep_branch _ cur Skip i1 TSkip b []).
    + destruct (free_set_ok T cur a i0 fa (fb ++ R) (Branch Skip i1) Hra) as (T1 & T' & -> & E2 & Hcur & Ha' & Hk' & Hl);
        [intros j; rewrite <- (Ha j); occs; lia|]. rewrite M_bind_Ok, E2. exists T', true, (cur :: fb). split; [done|].
      split; [|split; [split; [done|eapply keeps_sub; [|done]; set_solver]|done]].
      apply (rep_branch _ cur Skip i1 TSkip b []); [done|constructor|]. eapply rep_keeps; [done..|set_solver].
  - case_bool_decide as Hs.
    + subst i1. exists T, false. inversion Hrb; subst. exists (cur :: fa ++ []). repeat split; [|done..].
      by apply (rep_branch _ cur i0 Skip a TSkip fa []).
    + destruct (free_set_ok T cur b i1 fb (fa ++ R) (Branch i0 Skip) Hrb) as (T1 & T' & -> & E2 & Hcur & Ha' & Hk' & Hl);
        [intros j; rewrite <- (Ha j); occs; lia|]. rewrite M_bind_Ok, E2. exists T', true, (cur :: fa ++ []). split; [done|].
      split; [|split; [split; [by rewrite app_nil_r|eapply keeps_sub; [|done]; set_solver]|done]].
      apply (rep_branch _ cur i0 Skip a TSkip fa []); [done| |constructor]. eapply rep_keeps; [done..|set_solver].
  - destruct (free_node_levels_ok T a i0 fa (cur :: fb ++ R) Hra) as (T0 & -> & [Ha0 Hk0] & Hl0);
      [intros j; rewrite <- (Ha j); occs; lia|]. rewrite M_bind_Ok.
    destruct (free_set_ok T0 cur b i1 fb R (Ignore Skip)) as (T1 & T' & -> & E2 & Hcur & Ha' & Hk' & Hl);
      [eapply rep_keeps; [done..|set_solver] | done|]. rewrite M_bind_Ok, E2. exists T', true, [cur]. split; [done|].
    split; [econstructor; [done|constructor]|]. split; [split; [done|]|lia].
    eapply keeps_trans; [|done]. eapply keeps_sub; [|done]. set_solver.
  - destruct (set_own T cur (Branch Skip i) (fu ++ R) Ha) as (T' & -> & Hcur & Ha' & Hk' & Hl).
    exists T', true, (cur :: fu). split; [done|]. split; [|split; [split; [done|eapply keeps_sub; [|done]; set_solver]|lia]].
    apply (rep_branch _ cur Skip i TSkip u []); [done|constructor|]. eapply rep_keeps; [done..|set_solver].
  - destruct (set_own T cur (Branch i Skip) (fu ++ R) Ha) as (T' & -> & Hcur & Ha' & Hk' & Hl).
    exists T', true, (cur :: fu ++ []). split; [done|].
    split; [|split; [split; [by rewrite app_nil_r|eapply keeps_sub; [|done]; set_solver]|lia]].
    apply (rep_branch _ cur i Skip u TSkip fu []); [done| |constructor]. eapply rep_keeps; [done..|set_solver].
  - case_bool_decide as Hs.
    + subst i. exists T, false. inversion Hu; subst. exists [cur]. repeat split; done.
    + destruct (free_set_ok T cur u i fu R (Ignore Skip) Hu Ha) as (T1 & T' & -> & E2 & Hcur & Ha' & Hk' & Hl).
      rewrite M_bind_Ok, E2. exists T', true, [cur]. split; [done|].
      split; [econstructor; [done|constructor]|]. split; [by split|lia].
Qed.

(** A node that ignores its bit becomes a branch with two copies of its child. *)
Lemma split_ignore_ok T cur u i fu R : rep (entries T) u i fu → arena T (cur :: fu ++ R) →
  or_panic (¬ room T (size u)) (deep_clone_node (levels T) T i) (λ '(T1, i1), ∃ T2 fb, set_entry T1 cur (Branch i i1) = Ok T2 ∧
    rep (entries T2) u i fu ∧ rep (entries T2) u i1 fb ∧ entries T2 !! cur = Some (Branch i i1) ∧
    arena T2 (cur :: fu ++ fb ++ R) ∧ keeps R T T2 ∧ (length (entries T2) <= length (entries T) + size u)%nat).
Proof.
  intros Hu Ha. assert (arena T (fu ++ cur :: R)) as Ha' by (intros j; rewrite <- (Ha j); occs; lia).
  eapply or_panic_mono; [apply (deep_clone_node_ok (levels T) T u i fu (cur :: R) Hu Ha'); by eapply rep_depth | done |].
  intros [T1 i1] (fb & Hr1 & [Ha1 Hk1] & Hl1).
  destruct (set_own T1 cur (Branch i i1) (fu ++ fb ++ R)) as (T2 & E2 & Hcur & Ha2 & Hk2 & Hl2);
    [intros j; rewrite <- (Ha1 j); occs; lia|].
  exists T2, fb. split; [done|].
  split; [eapply rep_keeps; [eapply rep_keeps; [done..|set_solver]|done|set_solver]|].
  split; [eapply rep_keeps; [done..|set_solver]|]. split; [done|]. split; [done|]. split; [|lia].
  eapply keeps_trans; eapply keeps_sub; [|done| |done]; set_solver.
Qed.
Lemma add_branch_intro T T' cur x y i0 i1 fa fb R (b : nat) :
  entries T' !! cur = Some (Branch i0 i1) → rep (entries T') x i0 fa → rep (entries T') y i1 fb →
  arena T' (cur :: (fa ++ fb) ++ R) → keeps R T T' → (length (entries T') <= length (entries T) + b)%nat →
  ∃ fp', rep (entries T') (TBranch x y) (Index cur) fp' ∧
    owned R T T' fp' ∧ (length (entries T') <= length (entries T) + b)%nat.
Proof. intros Hcur Hx Hy Ha Hk Hl. exists (cur :: fa ++ fb). split; [by econstructor|]. by split. Qed.

(** One iteration of the loop before the last bit, at a branch. *)
Lemma add_at_branch bit b bits T cur x y i0 i1 fa fb R f n modified : add_spec (b :: bits) →
  entries T !! cur = Some (Branch i0 i1) → rep (entries T) x i0 fa → rep (entries T) y i1 fb →
  arena T ((cur :: fa ++ fb) ++ R) → Filter.nth_bit_from_left f n = Ok bit → bits_from f (n + 1) (b :: bits) →
  add_result (bit :: b :: bits) T cur (TBranch x y) R f n modified.
Proof.
  intros IH Hk Hra Hrb Ha Hbit Hbits.
  unfold add_result. rewrite allocs_cons in *. rewrite tadd_cons. cbv zeta in *.
  change (length (bit :: b :: bits)) with (S (length (b :: bits))).
  remember (length (b :: bits)) as count eqn:Ec. cbn [add_loop]. destruct count as [|c]; [done|].
  rewrite Hbit, M_bind_Ok, Ec. clear Ec c. revert Hbits IH. generalize (b :: bits). clear b bits. intros bits Hbits IH.
  rewrite (proj2 (vget_Ok_inv _ _ _) Hk), M_bind_Ok; destruct bit.
  - eapply or_panic_bind; [apply (down_ok bits T cur (λ v, Branch v i1) x i0 fa (fb ++ R) f (n + 1)
      (λ me v, set_entry me cur (Branch v i1)) IH Hra); [intros j; rewrite <- (Ha j); occs; lia | done..] | done |].
    intros [T1 o] Hdown. eapply or_panic_mono; [apply (Hdown modified) | done |].
    intros [T' m] (i' & f' & Hr' & Hcur & Ha' & Hk' & Hl).
    by eapply add_branch_intro with (fa := f') (fb := fb); [done..|eapply rep_keeps; [done..|set_solver]| |
      eapply keeps_sub; [|done]; set_solver|]; [rewrite <- app_assoc|].
  - eapply or_panic_bind; [apply (down_ok bits T cur (Branch i0) y i1 fb (fa ++ R) f (n + 1)
      (λ me v, set_entry me cur (Branch i0 v)) IH Hrb); [intros j; rewrite <- (Ha j); occs; lia | done..] | done |].
    intros [T1 o] Hdown. eapply or_panic_mono; [apply (Hdown modified) | done |].
    intros [T' m] (i' & f' & Hr' & Hcur & Ha' & Hk' & Hl).
    eapply add_branch_intro with (fa := fa) (fb := f'); [done..|eapply rep_keeps; [done..|set_solver]|done| |
      eapply keeps_sub; [|done]; set_solver|done]. intros j; rewrite <- (Ha' j); occs; lia.
  - eapply or_panic_bind; [apply (down_ok bits T cur (λ v, Branch v i1) x i0 fa (fb ++ R) f (n + 1)
      (λ me v, set_entry me cur (Branch v i1)) IH Hra); [intros j; rewrite <- (Ha j); occs; lia | done..] | unfold room; lia |].
    intros [T1 o] Hdown. eapply or_panic_bind; [apply (Hdown false) | unfold room; lia |].
    intros [T2 m] (i0' & fa' & Hr2 & Hcur2 & Ha2 & Hk2 & Hl2).
    eapply or_panic_bind; [apply (down_ok bits T2 cur (Branch i0') y i1 fb (fa' ++ R) f (n + 1)
      (λ me v, e ← vget (entries me) cur;
               match e with Branch is_0 _ => set_entry me cur (Branch is_0 v) | Ignore _ => Panic end) IH);
      [eapply rep_keeps; [done..|set_solver] | intros j; rewrite <- (Ha2 j); occs; lia | done | done
      | intros me v E; by rewrite (proj2 (vget_Ok_inv _ _ _) E), M_bind_Ok] | unfold room; lia |].
    intros [T3 o'] Hdown'. eapply or_panic_bind; [apply (Hdown' false) | unfold room; lia |].
    intros [T' m'] (i1' & fb' & Hr' & Hcur' & Ha' & Hk' & Hl'). apply or_panic_ok.
    eapply add_branch_intro with (fa := fa') (fb := fb'); [done..|eapply rep_keeps; [done..|set_solver]|done| | |lia].
    + intros j; rewrite <- (Ha' j); occs; lia.
    + eapply keeps_trans; eapply keeps_sub; [|done| |done]; set_solver.
Qed.
(** The same at a node that ignores its bit. *)
Lemma add_at_ignore bit b bits T cur u i fu R f n modified : add_spec (b :: bits) →
  entries T !! cur = Some (Ignore i) → rep (entries T) u i fu →
  arena T ((cur :: fu) ++ R) → Filter.nth_bit_from_left f n = Ok bit → bits_from f (n + 1) (b :: bits) →
  add_result (bit :: b :: bits) T cur (TIgnore u) R f n modified.
Proof.
  intros IH Hk Hu Ha Hbit Hbits.
  unfold add_result. rewrite allocs_cons in *. rewrite tadd_cons. cbv zeta in *.
  change (length (bit :: b :: bits)) with (S (length (b :: bits))).
  remember (length (b :: bits)) as count eqn:Ec. cbn [add_loop]. destruct count as [|c]; [done|].
  rewrite Hbit, M_bind_Ok, Ec. clear Ec c. revert Hbits IH. generalize (b :: bits). clear b bits. intros bits Hbits IH.
  rewrite (proj2 (vget_Ok_inv _ _ _) Hk), M_bind_Ok; destruct bit.
  - eapply or_panic_bind; [by apply (split_ignore_ok T cur u i fu R Hu Ha) | unfold room; lia |].
    intros [T1 i1] (T2 & fb & E2 & Hr1 & Hr2 & Hcur2 & Ha2 & Hk2 & Hl2). rewrite E2, M_bind_Ok.
    eapply or_panic_bind; [apply (down_ok bits T2 cur (λ v, Branch v i1) u i fu (fb ++ R) f (n + 1)
      (λ me v, set_entry me cur (Branch v i1)) IH Hr1); done | unfold room; lia |].
    intros [T3 o] Hdown. eapply or_panic_mono; [apply (Hdown true) | unfold room; lia |].
    intros [T' m] (i' & f' & Hr' & Hcur & Ha' & Hk' & Hl).
    eapply add_branch_intro with (fa := f') (fb := fb); [done..|eapply rep_keeps; [done..|set_solver]| | |lia].
    + by rewrite <- app_assoc.
    + eapply keeps_trans; [done|]. eapply keeps_sub; [|done]; set_solver.
  - eapply or_panic_bind; [by apply (split_ignore_ok T cur u i fu R Hu Ha) | unfold room; lia |].
    intros [T1 i1] (T2 & fb & E2 & Hr1 & Hr2 & Hcur2 & Ha2 & Hk2 & Hl2). rewrite E2, M_bind_Ok.
    eapply or_panic_bind; [apply (down_ok bits T2 cur (Branch i) u i1 fb (fu ++ R) f (n + 1)
      (λ me v, set_entry me cur (Branch i v)) IH Hr2); [intros j; rewrite <- (Ha2 j); occs; lia | done..] | unfold room; lia |].
    intros [T3 o] Hdown. eapply or_panic_mono; [apply (Hdown true) | unfold room; lia |].
    intros [T' m] (i' & f' & Hr' & Hcur & Ha' & Hk' & Hl).
    eapply add_branch_intro with (fa := fu) (fb := f'); [done..|eapply rep_keeps; [done..|set_solver]|done| | |lia].
    + intros j; rewrite <- (Ha' j); occs; lia.
    + eapply keeps_trans; [done|]. eapply keeps_sub; [|done]; set_solver.
  - eapply or_panic_bind; [by apply (down_ok bits T cur Ignore u i fu R f (n + 1) (λ me v, set_entry me cur (Ignore v)) IH Hu Ha Hk Hbits)
      | done |].
    intros [T1 o] Hdown. eapply or_panic_mono; [apply (Hdown modified) | done |].
    intros [T' m] (i' & f' & Hr' & Hcur & Ha' & Hk' & Hl).
    exists (cur :: f'). split; [by econstructor|]. split; [by split|done].
Qed.
Lemma add_loop_ok bits : bits ≠ [] → add_spec bits.
Proof.
  induction bits as [|bit [|b bits] IH]; [done|..]; intros _ T cur t fp R f n modified Hr Ha Hbits;
    apply bits_from_tail in Hbits as [Hbit Hbits].
  - unfold add_result. cbn [length add_loop]. rewrite Hbit, M_bind_Ok.
    destruct (add_last_ok T cur t fp R bit Hr Ha) as (T' & m & fp' & -> & Hr' & Ho & Hl). rewrite M_bind_Ok.
    apply or_panic_ok. exists fp'. repeat split; [done|apply Ho|apply Ho|cbn; lia].
  - specialize (IH ltac:(done)).
    destruct (rep_node_inv _ _ _ _ Hr) as [(x & y & i0 & i1 & fa & fb & -> & Hk & Hra & Hrb & ->)|(u & i & fu & -> & Hk & Hu & ->)];
      [by eapply add_at_branch | by eapply add_at_ignore].
Qed.
End ops.

(** ** [optimize] *)

(** The path reaches a leaf before it runs out of bits. *)
Fixpoint opt_ok (bits : list FilterBit) (t : tree) : Prop :=
  match t with
  | TEnum | TSkip => True
  | TIgnore t => opt_ok (tail bits) t
  | TBranch a b =>
      match bits with
      | [] => False
      | bit :: bits => (bit ≠ Is1 → opt_ok bits a) ∧ (bit ≠ Is0 → opt_ok bits b)
      end
  end.
Lemma tadd_opt_ok more bits : bits ≠ [] → ∀ t, inner t → opt_ok (bits ++ more) (tadd bits t).
Proof.
  induction bits as [|bit [|b bits] IH]; [done|..]; intros _ t Ht; [by destruct t, bit|].
  specialize (IH ltac:(done)). assert (∀ t, opt_ok ((b :: bits) ++ more) (down (b :: bits) t)) as Hd.
  { intros u. destruct u; [apply IH|..]; try apply IH; done. }
  rewrite tadd_cons. revert Hd. generalize (down (b :: bits)). intros g Hd. cbv zeta.
  destruct t, bit; cbn [opt_ok app tail] in *; try done; split; intros; try done; apply Hd.
Qed.

Section optimize.
Context {P : profile}.

Definition opt_result (R : list nat) (T T' : FilterTree) (r : option NodeIndex) (i : NodeIndex) (t : tree) : Prop :=
  ∃ t' fp', rep (entries T') t' (or_else r i) fp' ∧ t' ≡ t ∧ (depth t' <= depth t)%nat ∧ owned R T T' fp' ∧
    (r ≠ None → fp' = []) ∧ (length (entries T') <= length (entries T))%nat.

Lemma same_tree_eq_sound T k a b i0 i1 fa fb R : rep (entries T) a i0 fa → rep (entries T) b i1 fb →
  arena T (k :: fa ++ fb ++ R) → ∃ r, same_tree_eq T i0 i1 = Ok r ∧ (r = true → a = b).
Proof.
  intros Ha Hb Har%arena_nodup.
  assert (∀ j, j ∈ fa → j ∈ fb → False) as Hd.
  { apply NoDup_cons in Har as [_ Har]. apply NoDup_app in Har as (_ & Har & _). intros j H1 H2. apply (Har j); set_solver. }
  destruct i0 as [| |l], i1 as [| |r]; cbn [same_tree_eq]; try (eexists; split; [done|]; by inversion Ha; inversion Hb).
  destruct (rep_node_inv _ _ _ _ Ha) as [(a0 & a1 & j0 & j1 & fa0 & fa1 & -> & El & H0 & H1 & ->)|(u & j & fu & -> & El & Hu & ->)];
  destruct (rep_node_inv _ _ _ _ Hb) as [(b0 & b1 & k0 & k1 & fb0 & fb1 & -> & Er & G0 & G1 & ->)|(v & j' & fv & -> & Er & Hv & ->)];
    (case_cmp; [subst; exfalso; eapply Hd; left|]);
    rewrite (proj2 (vget_Ok_inv _ _ _) El), (proj2 (vget_Ok_inv _ _ _) Er), !M_bind_Ok; eexists; (split; [done|]);
    intros E%bool_decide_eq_true; simplify_eq.
  - destruct (rep_shared _ _ _ _ _ _ H0 G0) as [-> _]; [intros z Z1 Z2; apply (Hd z); set_solver|].
    destruct (rep_shared _ _ _ _ _ _ H1 G1) as [-> _]; [intros z Z1 Z2; apply (Hd z); set_solver|]. done.
  - destruct (rep_shared _ _ _ _ _ _ Hu Hv) as [-> _]; [intros z Z1 Z2; apply (Hd z); set_solver|]. done.
Qed.

Lemma free_node_leaf fuel T i : (∀ k, i ≠ Index k) → free_node fuel T i = Ok T.
Proof. intros H. destruct fuel, i; try done; by destruct (H index). Qed.
(** The end of the step for a branch: equal children are folded into one. *)
Definition fold_branch (self : FilterTree) (cur : nat) (is_0 is_1 : NodeIndex) : M (FilterTree * option NodeIndex) :=
  same ← same_tree_eq self is_0 is_1;
  if same : bool then
    match is_0 with
    | Enumerate | Skip =>
        self ← free_node (levels self) self is_1;
        self ← free_entry self cur; Ok (self, Some is_0)
    | Index _ =>
        self ← set_entry self cur (Ignore is_0);
        self ← free_node (levels self) self is_1; Ok (self, None)
    end
  else Ok (self, None).
Lemma fold_branch_ok T cur a b i0 i1 fa fb R : entries T !! cur = Some (Branch i0 i1) →
  rep (entries T) a i0 fa → rep (entries T) b i1 fb → arena T (cur :: fa ++ fb ++ R) →
  ∃ T' r, fold_branch T cur i0 i1 = Ok (T', r) ∧ opt_result R T T' r (Index cur) (TBranch a b).
Proof.
  intros Hcur Ha Hb Har. unfold fold_branch.
  destruct (same_tree_eq_sound T cur a b i0 i1 fa fb R Ha Hb Har) as ([|] & -> & Heq); rewrite M_bind_Ok.
  - specialize (Heq eq_refl) as <-.
    destruct i0 as [| |k].
    1,2: inversion Ha; subst; inversion Hb; subst; rewrite free_node_leaf, M_bind_Ok by done;
      destruct (free_entry_ok T cur R Har) as (T' & -> & Ho & Hl); rewrite M_bind_Ok; do 2 eexists; (split; [done|]);
      do 2 eexists; cbn [or_else]; (split; [constructor|]); (split; [intros s; cbn; by destruct (s 0%nat)|]); (split; [cbn; lia|]); (split; [exact Ho|]); (split; [done|exact Hl]).
    destruct (set_own T cur (Ignore (Index k)) (fa ++ fb ++ R) Har) as (T1 & -> & Hcur1 & Ha1 & Hk1 & Hl1). rewrite M_bind_Ok.
    destruct (free_node_levels_ok T1 a i1 fb (cur :: fa ++ R)) as (T2 & -> & [Ha2 Hk2] & Hl2);
      [eapply rep_keeps; [done..|set_solver] | intros j; rewrite <- (Ha1 j); occs; lia|]. rewrite M_bind_Ok.
    do 2 eexists. split; [done|]. exists (TIgnore a), (cur :: fa). cbn [or_else]. split; [|split; [by rewrite branch_same|]].
    + econstructor; [by rewrite (Hk2 cur) by left|]. eapply rep_keeps; [|done|set_solver]. eapply rep_keeps; [done..|set_solver].
    + split; [cbn; lia|]. split; [split; [done|]|]; [|split; [done|lia]].
      eapply keeps_trans; eapply keeps_sub; [|done| |done]; set_solver.
  - do 2 eexists. split; [done|]. exists (TBranch a b), (cur :: fa ++ fb). cbn [or_else].
    split; [by econstructor|]. split; [done|]. split; [done|]. split; [|done]. split; [|done].
    intros j. rewrite <- (Har j). occs; lia.
Qed.

(** The children of a branch, and the node that is written back. *)
Definition write_branch (self : FilterTree) (cur : nat) (new_is_0 new_is_1 : option NodeIndex) (is_0 is_1 : NodeIndex)
    : M (FilterTree * NodeIndex * NodeIndex) :=
  match new_is_0, new_is_1 with
  | None, None => Ok (self, is_0, is_1)
  | _, _ =>
      let is_0 := or_else new_is_0 is_0 in
      let is_1 := or_else new_is_1 is_1 in
      self ← set_entry self cur (Branch is_0 is_1); Ok (self, is_0, is_1)
  end.
Lemma write_branch_ok T cur r0 r1 i0 i1 live : arena T (cur :: live) → entries T !! cur = Some (Branch i0 i1) →
  ∃ T', write_branch T cur r0 r1 i0 i1 = Ok (T', or_else r0 i0, or_else r1 i1) ∧
    entries T' !! cur = Some (Branch (or_else r0 i0) (or_else r1 i1)) ∧ arena T' (cur :: live) ∧ keeps live T T' ∧
    length (entries T') = length (entries T).
Proof.
  intros Ha Hcur. unfold write_branch.
  destruct (set_own T cur (Branch (or_else r0 i0) (or_else r1 i1)) live Ha) as (T' & E & H).
  destruct r0, r1; cbn [or_else] in *; rewrite ?E, ?M_bind_Ok; [by exists T'..|]. exists T. by repeat split.
Qed.

(** The step for a branch, in these terms. *)
Lemma optimize_branch fuel T cur path k i0 i1 : entries T !! cur = Some (Branch i0 i1) →
  optimize (S fuel) T (Index cur) path k =
  (b ← Filter.nth_bit_from_left path k;
   '(T, r0) ← (if bool_decide (b = Is1) then Ok (T, None) else optimize fuel T i0 path (k + 1));
   '(T, r1) ← (if bool_decide (b = Is0) then Ok (T, None) else optimize fuel T i1 path (k + 1));
   '(T, i0, i1) ← write_branch T cur r0 r1 i0 i1; fold_branch T cur i0 i1).
Proof.
  intros Hcur. cbn [optimize]. rewrite (proj2 (vget_Ok_inv _ _ _) Hcur), M_bind_Ok.
  apply M_bind_ext. by intros [].
Qed.

Definition opt_spec (fuel : nat) : Prop := ∀ T t i fp R path k bits,
  rep (entries T) t i fp → arena T (fp ++ R) → (depth t <= fuel)%nat → bits_from path k bits → opt_ok bits t →
  ∃ T' r, optimize fuel T i path k = Ok (T', r) ∧ opt_result R T T' r i t.
Lemma opt_skip R T i t fp : rep (entries T) t i fp → arena T (fp ++ R) → opt_result R T T None i t.
Proof. intros Hr Ha. exists t, fp. by repeat split. Qed.
(** One child, which is visited or not. *)
Lemma opt_child_ok fuel T t i fp R path k bits (skip : bool) : opt_spec fuel →
  rep (entries T) t i fp → arena T (fp ++ R) → (depth t <= fuel)%nat → bits_from path k bits →
  (skip = false → opt_ok bits t) →
  ∃ T' r, (if skip then Ok (T, None) else optimize fuel T i path k) = Ok (T', r) ∧ opt_result R T T' r i t.
Proof.
  intros IH Hr Ha Hd Hb Hok. destruct skip; [|by eapply IH; eauto]. exists T, None. split; [done|]. by eapply opt_skip.
Qed.

Lemma opt_at_branch fuel T cur i0 i1 a b fa fb R path k bits : opt_spec fuel → entries T !! cur = Some (Branch i0 i1) →
  rep (entries T) a i0 fa → rep (entries T) b i1 fb → arena T ((cur :: fa ++ fb) ++ R) →
  (depth (TBranch a b) <= S fuel)%nat → bits_from path k bits → opt_ok bits (TBranch a b) →
  ∃ T' r, optimize (S fuel) T (Index cur) path k = Ok (T', r) ∧ opt_result R T T' r (Index cur) (TBranch a b).
Proof.
  intros IH Hcur Hra Hrb Ha Hd Hb Hok.
  rewrite (optimize_branch _ _ _ _ _ i0 i1 Hcur). cbn [opt_ok depth] in *.
  destruct bits as [|bit bits]; [done|]. destruct Hok as [Hok0 Hok1]. apply bits_from_tail in Hb as [-> Hb].
  rewrite M_bind_Ok.
  destruct (opt_child_ok fuel T a i0 fa (cur :: fb ++ R) path (k + 1) bits (bool_decide (bit = Is1)) IH Hra)
    as (T1 & r0 & -> & (a' & fa' & Hra' & Ea & Da & [Ha1 Hk1] & _ & Hl1));
    [intros j; rewrite <- (Ha j); occs; lia | lia | done | by rewrite bool_decide_eq_false|]. rewrite M_bind_Ok.
  destruct (opt_child_ok fuel T1 b i1 fb (cur :: fa' ++ R) path (k + 1) bits (bool_decide (bit = Is0)) IH)
    as (T2 & r1 & -> & (b' & fb' & Hrb' & Eb & Db & [Ha2 Hk2] & _ & Hl2));
    [eapply rep_keeps; [done..|set_solver] | intros j; rewrite <- (Ha1 j); occs; lia | lia | done
    | by rewrite bool_decide_eq_false|]. rewrite M_bind_Ok.
  destruct (write_branch_ok T2 cur r0 r1 i0 i1 (fa' ++ fb' ++ R)) as (T3 & -> & Hcur3 & Ha3 & Hk3 & Hl3);
    [intros j; rewrite <- (Ha2 j); occs; lia | rewrite (Hk2 cur), (Hk1 cur) by left; done|]. rewrite M_bind_Ok.
  destruct (fold_branch_ok T3 cur a' b' (or_else r0 i0) (or_else r1 i1) fa' fb' R Hcur3)
    as (T4 & r & -> & (t' & f' & Hr4 & E4 & D4 & [Ha4 Hk4] & Hleaf & Hl4)); [| |done|].
  - eapply rep_keeps; [|done|set_solver]. eapply rep_keeps; [done..|set_solver].
  - eapply rep_keeps; [done..|set_solver].
  - do 2 eexists. split; [done|]. exists t', f'. split; [done|]. split; [by rewrite E4, Ea, Eb|].
    split; [cbn in *; lia|]. split; [split; [done|]|split; [done|lia]].
    intros j Hj. rewrite (Hk4 j), (Hk3 j), (Hk2 j), (Hk1 j) by set_solver. done.
Qed.
Lemma opt_at_ignore fuel T cur i u fu R path k bits : opt_spec fuel → entries T !! cur = Some (Ignore i) →
  rep (entries T) u i fu → arena T ((cur :: fu) ++ R) →
  (depth (TIgnore u) <= S fuel)%nat → bits_from path k bits → opt_ok bits (TIgnore u) →
  ∃ T' r, optimize (S fuel) T (Index cur) path k = Ok (T', r) ∧ opt_result R T T' r (Index cur) (TIgnore u).
Proof.
  intros IH Hcur Hu Ha Hd Hb Hok.
  cbn [optimize opt_ok depth] in *. rewrite (proj2 (vget_Ok_inv _ _ _) Hcur), M_bind_Ok.
  assert (bits_from path (k + 1) (tail bits)) as Hb'.
  { destruct bits; [by intros j ? ?|]. by apply bits_from_tail in Hb as [_ Hb]. }
  destruct (IH T u i fu (cur :: R) path (k + 1)%nat (tail bits) Hu)
    as (T1 & r & -> & (t' & f' & Hr1 & E1 & D1 & [Ha1 Hk1] & Hleaf & Hl1));
    [intros j; rewrite <- (Ha j); occs; lia | lia | done..|]. rewrite M_bind_Ok.
  assert (entries T1 !! cur = Some (Ignore i)) as Hcur1 by (by rewrite (Hk1 cur) by left).
  destruct r as [x|]; cbn [or_else] in *.
  - specialize (Hleaf ltac:(done)) as ->. destruct (free_entry_ok T1 cur R Ha1) as (T2 & Hfree & [Ha2 Hk2] & Hl2).
    inversion Hr1; subst; rewrite Hfree, M_bind_Ok; (do 2 eexists; split; [done|]); do 2 eexists; cbn [or_else];
      (split; [constructor|]); (split; [by rewrite <- E1; intros s|]); (split; [cbn; lia|]);
      (split; [split; [done|]|split; [done|lia]]); eapply keeps_trans; [|done| |done]; eapply keeps_sub; [|done| |done]; set_solver.
  - do 2 eexists. split; [done|]. exists (TIgnore t'), (cur :: f'). cbn [or_else]. split; [by econstructor|].
    split; [by rewrite E1|]. split; [cbn; lia|]. split; [split|split; [done|lia]].
    + intros j. rewrite <- (Ha1 j). occs; lia.
    + eapply keeps_sub; [|done]. set_solver.
Qed.
Lemma optimize_ok fuel : opt_spec fuel.
Proof.
  induction fuel as [|fuel IH]; intros T t i fp R path k bits Hr Ha Hd Hb Hok; destruct Hr; cbn in Hd; try lia;
    try (by eapply opt_at_branch); try (by eapply opt_at_ignore);
    cbn; (do 2 eexists; split; [done|]); do 2 eexists; cbn [or_else]; (split; [constructor|]); by repeat split.
Qed.
End optimize.

(** ** The bits of a filter and of an instruction *)

Definition bit_at (f : InstructionFilter) (n : nat) : FilterBit :=
  match Filter.nth_bit_from_left f n with Ok b => b | _ => Wildcard end.
Definition filter_bits (f : InstructionFilter) : list FilterBit := bit_at f <$> seq 0 (Filter.bit_len f).
Definition stream_of (i : Instruction) : stream := lbit (Instr.bytes i).

Lemma nth_bit_at f n : (n < Filter.bit_len f)%nat → Filter.nth_bit_from_left f n = Ok (bit_at f n).
Proof.
  intros Hn. unfold bit_at, Filter.nth_bit_from_left, Filter.bit_len in *.
  destruct (vget_lt (bfs f) (n / 8)) as (x & -> & _); [apply Nat.Div0.div_lt_upper_bound; lia|]. done.
Qed.
Lemma length_filter_bits f : length (filter_bits f) = Filter.bit_len f.
Proof. unfold filter_bits. by rewrite length_fmap, length_seq. Qed.
Lemma filter_bits_lookup f n : (n < Filter.bit_len f)%nat → filter_bits f !! n = Some (bit_at f n).
Proof. intros Hn. unfold filter_bits. rewrite list_lookup_fmap, lookup_seq_lt by done. done. Qed.
Lemma filter_bits_from f n : bits_from f 0 (take n (filter_bits f)).
Proof.
  intros j b [Hj Hlt]%lookup_take_Some. pose proof (lookup_lt_Some _ _ _ Hj) as Hl. rewrite length_filter_bits in Hl.
  rewrite filter_bits_lookup in Hj by done. injection Hj as <-. by apply nth_bit_at.
Qed.

Definition bit_ok (b : FilterBit) (x : bool) : bool :=
  match b with Is0 => negb x | Is1 => x | Wildcard => true end.
Lemma bmatch_iff bits : ∀ s, bmatch bits s = true ↔ ∀ j b, bits !! j = Some b → bit_ok b (s j) = true.
Proof.
  induction bits as [|b bits IH]; intros s; [done|].
  assert (bmatch (b :: bits) s = bit_ok b (s 0%nat) && bmatch bits (rest s)) as -> by (by destruct b).
  rewrite andb_true_iff, IH. split.
  - intros [H0 H] [|j] c Hj; [by injection Hj as <-|]. by apply H.
  - intros H. split; [by apply (H 0%nat)|]. intros j c Hj. by apply (H (S j)).
Qed.
Lemma bmatch_filter_iff f s : bmatch (filter_bits f) s = true ↔
  ∀ n, (n < Filter.bit_len f)%nat → bit_ok (bit_at f n) (s n) = true.
Proof.
  rewrite bmatch_iff. split; intros H.
  - intros n Hn. apply H. by apply filter_bits_lookup.
  - intros j b Hj. pose proof (lookup_lt_Some _ _ _ Hj) as Hl. rewrite length_filter_bits in Hl.
    rewrite filter_bits_lookup in Hj by done. injection Hj as <-. by apply H.
Qed.

Lemma bit_at_spec f n bf : bfs f !! (n / 8)%nat = Some bf → bit_at f n =
  let k := Z.of_nat (7 - n `mod` 8) in
  if Z.testbit (mask bf) k then if Z.testbit (value bf) k then Is1 else Is0 else Wildcard.
Proof.
  intros H. unfold bit_at, Filter.nth_bit_from_left. rewrite (proj2 (vget_Ok_inv _ _ _) H), M_bind_Ok.
  rewrite !bit_of_bool_land. by destruct (Z.testbit (mask bf) _), (Z.testbit (value bf) _).
Qed.
(** Matching by bytes is matching by bits, for instructions that have all the bytes
    of the filter. *)
Lemma matches_stream f i : filter_wf f → instr_wf i → (Filter.byte_len f <= Instr.byte_len i)%nat →
  Filter.matches f i = bmatch (filter_bits f) (stream_of i).
Proof.
  intros Hf Hi Hlen. apply eq_true_iff_eq. unfold Filter.matches. rewrite matches_bytes_iff, bmatch_filter_iff.
  unfold Filter.byte_len, Instr.byte_len, Filter.bit_len in *. split; intros H.
  - intros n Hn. assert (n / 8 < length (bfs f))%nat as Hd by (apply Nat.Div0.div_lt_upper_bound; lia).
    destruct (lookup_lt_is_Some_2 _ _ Hd) as [bf Hbf]. rewrite (bit_at_spec _ _ _ Hbf). cbv zeta.
    destruct (lookup_lt_is_Some_2 (Instr.bytes i) (n / 8)) as [x Hx]; [lia|].
    specialize (H _ _ Hbf). rewrite Hx in H. cbn [matches_at] in H. unfold stream_of, lbit. rewrite Hx. cbn [default from_option].
    rewrite matches_iff in H by (eauto using instr_byte || by eapply Forall_lookup_1 in Hbf).
    pose proof (Nat.mod_upper_bound n 8 ltac:(lia)).
    specialize (H (Z.of_nat (7 - n `mod` 8)) ltac:(lia)).
    destruct (Z.testbit (mask bf) _); [|done].
    change (id x) with x. rewrite H by done. by destruct (Z.testbit (value bf) _).
  - intros k bf Hk. pose proof (lookup_lt_Some _ _ _ Hk) as Hd.
    destruct (lookup_lt_is_Some_2 (Instr.bytes i) k) as [x Hx]; [lia|]. rewrite Hx. cbn [matches_at].
    rewrite matches_iff by (eauto using instr_byte || by eapply Forall_lookup_1 in Hk).
    intros j Hj Hm. set (n := (k * 8 + (7 - Z.to_nat j))%nat).
    assert (n / 8 = k ∧ n `mod` 8 = 7 - Z.to_nat j)%nat as [E1 E2].
    { unfold n. split; [rewrite Nat.div_add_l, (Nat.div_small (7 - _)) by lia; lia|].
      rewrite Nat.add_comm, Nat.Div0.mod_add, Nat.mod_small by lia. lia. }
    specialize (H n ltac:(lia)). rewrite (bit_at_spec _ n bf) in H by (by rewrite E1). unfold stream_of, lbit in H.
    rewrite E1, E2, Hx in H. cbn [default from_option] in H. cbv zeta in H.
    replace (Z.of_nat (7 - (7 - Z.to_nat j))) with j in H by lia. rewrite Hm in H. revert H.
    change (id x) with x. destruct (Z.testbit (value bf) j), (Z.testbit x j); done.
Qed.

(** Trailing wildcards do not matter. *)
Lemma trim_ok f len : (len <= Filter.bit_len f)%nat → ∃ l, trim f len = Ok l ∧ (l <= len)%nat ∧
  (0 < len → 0 < l)%nat ∧ ∀ n, (l <= n < len)%nat → bit_at f n = Wildcard.
Proof.
  induction len as [|[|k] IH]; intros Hlen; [exists 0%nat; repeat split; lia | exists 1%nat; repeat split; lia|].
  change (trim f (S (S k))) with (b ← Filter.nth_bit_from_left f (S k);
    if bool_decide (b = Wildcard) then trim f (S k) else Ok (S (S k))).
  rewrite nth_bit_at, M_bind_Ok by lia. case_bool_decide as Hw.
  - destruct IH as (l & -> & H1 & H2 & H3); [lia|]. exists l. split; [done|]. split; [lia|]. split; [lia|].
    intros n Hn. destruct (decide (n = S k)) as [->|]; [done|]. apply H3. lia.
  - exists (S (S k)). repeat split; lia.
Qed.
Lemma real_len_ok f : (0 < Filter.bit_len f)%nat → ∃ l, real_len f = Ok l ∧ (0 < l <= Filter.bit_len f)%nat ∧
  ∀ s, bmatch (take l (filter_bits f)) s = bmatch (filter_bits f) s.
Proof.
  intros H0. unfold real_len. destruct (trim_ok f (Filter.bit_len f)) as (l & -> & H1 & H2 & H3); [done|].
  exists l. split; [done|]. split; [lia|]. intros s. apply eq_true_iff_eq. rewrite bmatch_filter_iff, bmatch_iff.
  split; intros H.
  - intros n Hn. destruct (decide (n < l)%nat) as [Hl|]; [|by rewrite H3 by lia].
    apply H. rewrite lookup_take_lt by done. by apply filter_bits_lookup.
  - intros j b [Hj Hlt]%lookup_take_Some. rewrite filter_bits_lookup in Hj by lia. injection Hj as <-. apply H. lia.
Qed.

(** ** Trees *)

(** The tree at the root, and nothing else, is allocated. *)
Definition tree_wf (T : FilterTree) (t : tree) : Prop := ∃ fp, rep (entries T) t (Index 0) fp ∧ arena T fp.
Definition any_match (fs : list InstructionFilter) (s : stream) : bool := existsb (λ f, bmatch (filter_bits f) s) fs.
(** What clients of a tree rely on: it stands for a set of filters. *)
Definition refines (T : FilterTree) (fs : list InstructionFilter) : Prop :=
  ∃ t, tree_wf T t ∧ ∀ s, covered t s = any_match fs s.

Lemma new_tree_wf : tree_wf new (TIgnore TEnum).
Proof.
  exists [0%nat]. split; [econstructor; [done|constructor]|]. intros j. unfold inside, new. cbn [entries empty length].
  occs. case_cmps; lia.
Qed.
Lemma leaf_tree_wf (b : bool) : tree_wf {| entries := [Ignore (if b then Skip else Enumerate)]; empty := [] |}
  (TIgnore (if b then TSkip else TEnum)).
Proof.
  exists [0%nat]. split; [econstructor; [done|destruct b; constructor]|]. intros j. unfold inside. cbn [entries empty length].
  occs. case_cmps; lia.
Qed.
Lemma rep_det E t i fp : rep E t i fp → ∀ t' fp', rep E t' i fp' → t' = t ∧ fp' = fp.
Proof.
  induction 1 as [| |k i0 i1 a b fa fb Hk Ha IHa Hb IHb|k i t fp Hk Ht IHt]; inversion 1; simplify_eq; try done.
  - destruct (IHa _ _ ltac:(eassumption)) as [-> ->]. by destruct (IHb _ _ ltac:(eassumption)) as [-> ->].
  - by destruct (IHt _ _ ltac:(eassumption)) as [-> ->].
Qed.
Lemma tree_wf_det T t t' : tree_wf T t → tree_wf T t' → t' = t.
Proof. intros (fp & H & _) (fp' & H' & _). by destruct (rep_det _ _ _ _ H _ _ H') as [-> _]. Qed.

Lemma allocs_take bits : ∀ l t, (allocs (take l bits) t <= allocs bits t)%nat.
Proof.
  induction bits as [|bit [|b bits] IH]; intros [|[|l]] t; cbn [take]; try (cbn; lia).
  rewrite !allocs_cons. change (b :: take l bits) with (take (S l) (b :: bits)).
  assert (∀ u, down_allocs (take (S l) (b :: bits)) u <= down_allocs (b :: bits) u)%nat as Hd.
  { intros u. pose proof (IH (S l) (grow u)). destruct u; cbn [down_allocs leaf_alloc grow] in *; lia. }
  cbv zeta. destruct t as [| |a c|t], bit; try lia; first [pose proof (Hd a); pose proof (Hd c); lia | pose proof (Hd t); lia].
Qed.

Section filter.
Context {P : profile}.

Lemma add_internal_ok T t f : tree_wf T t → (0 < Filter.bit_len f)%nat →
  or_panic (¬ room T (allocs (filter_bits f) t)) (add_internal T 0 f 0) (λ '(T', m), ∃ t' l, tree_wf T' t' ∧
    t' = tadd (take l (filter_bits f)) t ∧ inner t ∧
    take l (filter_bits f) ≠ [] ∧ (∀ s, bmatch (take l (filter_bits f)) s = bmatch (filter_bits f) s) ∧
    (length (entries T') <= length (entries T) + allocs (filter_bits f) t)%nat).
Proof.
  intros (fp & Hr & Ha) H0. unfold add_internal.
  destruct (real_len_ok f H0) as (l & -> & Hl & Hm). rewrite M_bind_Ok, Nat.sub_0_r.
  assert (length (take l (filter_bits f)) = l) as El by (rewrite length_take, length_filter_bits; lia).
  assert (take l (filter_bits f) ≠ []) as Hne by (intros E; rewrite E in El; cbn in El; lia).
  pose proof (allocs_take (filter_bits f) l t) as Hle. rewrite <- El at 1.
  eapply or_panic_mono; [apply (add_loop_ok _ Hne T 0%nat t fp [] f 0%nat false Hr); [by rewrite app_nil_r | apply filter_bits_from]
    | unfold room; lia |].
  intros [T' m] (fp' & Hr' & [Ha' _] & Hlen). exists (tadd (take l (filter_bits f)) t), l.
  rewrite app_nil_r in Ha'. split; [by exists fp'|]. split; [done|]. split; [by inversion Hr|]. split; [done|]. split; [done|]. lia.
Qed.

(** Insertion, whether or not there is room: it may panic if there is not, and is
    right whenever it returns. *)
Lemma filter_any T t f : tree_wf T t → (0 < Filter.bit_len f)%nat →
  or_panic (¬ room T (allocs (filter_bits f) t)) (filter T f) (λ T', ∃ t', tree_wf T' t' ∧
    (∀ s, covered t' s = covered t s || bmatch (filter_bits f) s) ∧
    (depth t' <= Nat.max (depth t) (Filter.bit_len f))%nat ∧ (length (entries T') <= length (entries T) + allocs (filter_bits f) t)%nat).
Proof.
  intros Hwf H0. unfold filter. eapply or_panic_bind; [by apply add_internal_ok | done |].
  intros [T1 m] (t1' & l & (fp & Hr & Ha) & -> & Hin & Hne & Hm & Hlen). set (t1 := tadd (take l (filter_bits f)) t) in *.
  assert (∀ s, covered t1 s = covered t s || bmatch (filter_bits f) s) as Hc.
  { intros s. unfold t1. by rewrite tadd_covered, Hm by done. }
  assert (depth t1 <= Nat.max (depth t) (Filter.bit_len f))%nat as Hd.
  { unfold t1. etransitivity; [apply tadd_depth|]. rewrite length_take, length_filter_bits. lia. }
  destruct m; [|by apply or_panic_ok; exists t1; split; [by exists fp|]].
  assert (arena T1 (fp ++ [])) as Ha0 by (by rewrite app_nil_r).
  destruct (optimize_ok (levels T1) T1 t1 (Index 0) fp [] f 0%nat (filter_bits f) Hr Ha0) as
    (T2 & r & -> & (t2 & f2 & Hr2 & E2 & D2 & [Ha2 _] & Hleaf & Hlen2));
    [by eapply rep_depth | rewrite <- (firstn_all (filter_bits f)); apply filter_bits_from | |].
  { rewrite <- (take_drop l (filter_bits f)) at 1. unfold t1. by apply tadd_opt_ok. }
  rewrite M_bind_Ok. destruct r as [x|]; cbn [or_else] in *.
  - specialize (Hleaf ltac:(done)) as ->.
    assert (∃ b : bool, x = (if b then Skip else Enumerate) ∧ t2 = (if b then TSkip else TEnum)) as (b & -> & ->).
    { inversion Hr2; subst; [by exists false|by exists true]. }
    right. exists {| entries := [Ignore (if b then Skip else Enumerate)]; empty := [] |}. split; [by destruct b|].
    exists (TIgnore (if b then TSkip else TEnum)). split; [apply leaf_tree_wf|]. split.
    + intros s. rewrite <- Hc, <- (E2 s). by destruct b.
    + split; [destruct b; cbn; lia|]. destruct Hwf as (fp0 & Hr0 & _). cbn [entries length].
      assert (0 < length (entries T))%nat by (inversion Hr0; subst; eapply lookup_lt_Some; eassumption). lia.
  - apply or_panic_ok. exists t2. rewrite app_nil_r in Ha2. split; [by exists f2|]. split; [|split; [lia|]]; [|lia].
    intros s. rewrite <- Hc. apply E2.
Qed.
Lemma filter_ok T t f : tree_wf T t → (0 < Filter.bit_len f)%nat → room T (allocs (filter_bits f) t) →
  ∃ T' t', filter T f = Ok T' ∧ tree_wf T' t' ∧ (∀ s, covered t' s = covered t s || bmatch (filter_bits f) s) ∧
    (depth t' <= Nat.max (depth t) (Filter.bit_len f))%nat ∧ (length (entries T') <= length (entries T) + allocs (filter_bits f) t)%nat.
Proof.
  intros Hwf H0 Hroom. destruct (or_panic_never _ _ _ (filter_any T t f Hwf H0)) as (T' & E & t' & H); [by intros Hn; apply Hn|].
  by exists T', t'.
Qed.

(** C11: inserting a non-empty filter succeeds while the arena has room, leaves a
    well-formed arena (every position is owned by the tree or free, exactly once)
    and the tree covers exactly what it covered before and what the filter matches;
    the tree gets no deeper than its deepest filter. *)
Theorem filter_tree_insert T t f : tree_wf T t → (0 < Filter.bit_len f)%nat → room T (allocs (filter_bits f) t) →
  ∃ T' t', filter T f = Ok T' ∧ tree_wf T' t' ∧ (∀ s, covered t' s = covered t s || bmatch (filter_bits f) s) ∧
    (depth t' <= Nat.max (depth t) (Filter.bit_len f))%nat.
Proof.
  intros Hwf H0 Hroom. destruct (filter_ok T t f Hwf H0 Hroom) as (T' & t' & ? & ? & ? & ? & _). by exists T', t'.
Qed.

(** The trees that [new] and [filter] make. *)
Inductive built : FilterTree → list InstructionFilter → Prop :=
| built_new : built new []
| built_filter T T' fs f : built T fs → (0 < Filter.bit_len f)%nat →
    (∀ t, tree_wf T t → room T (allocs (filter_bits f) t)) → filter T f = Ok T' → built T' (f :: fs).
Lemma built_refines T fs : built T fs → refines T fs.
Proof.
  induction 1 as [|T T' fs f Hb (t & Hwf & Hc) H0 Hroom Hf]; [exists (TIgnore TEnum); split; [apply new_tree_wf|done]|].
  destruct (filter_ok T t f Hwf H0 (Hroom t Hwf)) as (T1 & t1 & E & Hwf1 & Hc1 & _).
  rewrite E in Hf. injection Hf as ->. exists t1. split; [done|]. intros s. rewrite Hc1, Hc. cbn [any_match existsb].
  apply orb_comm.
Qed.

(** C28: refinement.  A tree built by inserting filters stands for the set of these
    filters: an instruction that has all the bytes of every filter is covered if and
    only if one of the filters matches it. *)
Theorem filter_tree_refines T fs : built T fs → ∃ t, tree_wf T t ∧
  ∀ i, instr_wf i → Forall filter_wf fs → Forall (λ f, Filter.byte_len f <= Instr.byte_len i)%nat fs →
    covered t (stream_of i) = existsb (λ f, Filter.matches f i) fs.
Proof.
  intros (t & Hwf & Hc)%built_refines. exists t. split; [done|]. intros i Hi Hfs Hlen. rewrite Hc. clear Hc Hwf t T.
  induction Hfs as [|f fs Hf Hfs IH]; [done|]. apply Forall_cons in Hlen as [Hl Hlen]. cbn [existsb any_match].
  rewrite matches_stream by done. f_equal. by apply IH.
Qed.
End filter.

(** ** [prune] *)

Section prune.
Context {P : profile}.

Definition bits_of (i : Instruction) (n count : nat) (s : stream) : Prop :=
  ∀ j, (j < count)%nat → s j = stream_of i (n + j)%nat.
Definition pruned (i : Instruction) (n count : nat) (t t' : tree) : Prop :=
  (∀ s, covered t' s = true → covered t s = true) ∧ (∀ s, bits_of i n count s → covered t' s = covered t s) ∧
  (size t' <= size t)%nat ∧ (depth t' <= depth t)%nat.
Lemma pruned_refl i n count t : pruned i n count t t.
Proof. done. Qed.
Lemma bits_of_rest i n count s : bits_of i n (S count) s → s 0%nat = stream_of i n ∧ bits_of i (n + 1) count (rest s).
Proof.
  intros H. split; [rewrite (H 0%nat) by lia; f_equal; lia|]. intros j Hj. unfold rest. rewrite H by lia. f_equal. lia.
Qed.
(** Cutting one side of a branch, off the instruction's path or on the way down. *)
Lemma pruned_branch i n count a a' b b' : (stream_of i n = false → pruned i (n + 1) count a a' ∧ (b' = b ∨ b' = TEnum)) →
  (stream_of i n = true → pruned i (n + 1) count b b' ∧ (a' = a ∨ a' = TEnum)) →
  pruned i n (S count) (TBranch a b) (TBranch a' b').
Proof.
  intros H0 H1. destruct (stream_of i n) eqn:Es;
    [destruct (H1 eq_refl) as [(P1 & P2 & P3 & P4) Hs] | destruct (H0 eq_refl) as [(P1 & P2 & P3 & P4) Hs]]; (split; [|split; [|split]]).
  - intros s. cbn. destruct (s 0%nat); [apply P1 | by destruct Hs as [->| ->]].
  - intros s [E Hb]%bits_of_rest. cbn. rewrite E, Es. by apply P2.
  - cbn. destruct Hs as [->| ->]; cbn; lia.
  - cbn. destruct Hs as [->| ->]; cbn; lia.
  - intros s. cbn. destruct (s 0%nat); [by destruct Hs as [->| ->] | apply P1].
  - intros s [E Hb]%bits_of_rest. cbn. rewrite E, Es. by apply P2.
  - cbn. destruct Hs as [->| ->]; cbn; lia.
  - cbn. destruct Hs as [->| ->]; cbn; lia.
Qed.
Lemma pruned_ignore i n count t t' : pruned i (n + 1) count t t' → pruned i n (S count) (TIgnore t) (TIgnore t').
Proof.
  intros (P1 & P2 & P3 & P4). split; [intros s; apply P1|]. split; [|cbn; lia]. intros s [_ Hb]%bits_of_rest. by apply P2.
Qed.

Lemma prune_loop_leaf count : ∀ T i instr n, (∀ k, i ≠ Index k) → (n + count <= 8 * length (Instr.bytes instr))%nat →
  prune_loop count T i instr n = Ok T.
Proof.
  induction count as [|count IH]; intros T i instr n Hi Hn; [done|]. cbn [prune_loop].
  rewrite nth_bit_from_left_lbit, M_bind_Ok by lia. destruct i; [apply IH; [done|lia]..|by destruct (Hi index)].
Qed.
Definition prune_result (R : list nat) T instr n count i t T' : Prop :=
  ∃ t' fp', rep (entries T') t' i fp' ∧ owned R T T' fp' ∧ pruned instr n count t t' ∧
    (length (entries T') <= length (entries T))%nat.

(** Cut the child [b] with index [j] of the node at [k]. *)
Lemma cut_ok T k j b fb R node : rep (entries T) b j fb → arena T (k :: fb ++ R) → ∃ T1 T',
  set_entry T k node = Ok T1 ∧ free_node (levels T1) T1 j = Ok T' ∧ entries T' !! k = Some node ∧
  arena T' (k :: R) ∧ keeps R T T' ∧ (length (entries T') <= length (entries T))%nat.
Proof.
  intros Hr Ha. destruct (set_own T k node (fb ++ R) Ha) as (T1 & E1 & Hk1 & Ha1 & Hkeep1 & Hl1).
  destruct (free_node_levels_ok T1 b j fb (k :: R)) as (T' & E2 & [Ha' Hkeep] & Hl');
    [eapply rep_keeps; [done..|set_solver] | intros z; rewrite <- (Ha1 z); occs; lia|].
  exists T1, T'. split; [done|]. split; [done|]. split; [by rewrite (Hkeep k) by left|]. split; [done|]. split; [|lia].
  eapply keeps_trans; eapply keeps_sub; [|done| |done]; set_solver.
Qed.

Lemma prune_id R T instr n count i t fp : rep (entries T) t i fp → arena T (fp ++ R) → prune_result R T instr n count i t T.
Proof. intros Hr Ha. exists t, fp. by repeat split. Qed.
Lemma prune_loop_ok count : ∀ T t i fp R instr n, rep (entries T) t i fp → arena T (fp ++ R) →
  (n + count <= 8 * length (Instr.bytes instr))%nat →
  ∃ T', prune_loop count T i instr n = Ok T' ∧ prune_result R T instr n count i t T'.
Proof.
  induction count as [|count IH]; intros T t i fp R instr n Hr Ha Hn; [exists T; split; [done|]; by eapply prune_id|].
  destruct i as [| |k]; [exists T; split; [by apply prune_loop_leaf|by eapply prune_id]..|].
  cbn [prune_loop]. rewrite nth_bit_from_left_lbit, M_bind_Ok by lia. fold (stream_of instr n).
  destruct (rep_node_inv _ _ _ _ Hr) as [(a & b & i0 & i1 & fa & fb & -> & Hk & Hra & Hrb & ->)|(u & i & fu & -> & Hk & Hu & ->)];
    rewrite (proj2 (vget_Ok_inv _ _ _) Hk), M_bind_Ok.
  - destruct (stream_of instr n) eqn:Es; cbn [Z.b2z]; case_cmp; try lia.
    + destruct i0 as [| |j].
      3: { destruct (cut_ok T k (Index j) a fa (fb ++ R) (Branch Enumerate i1) Hra) as (T1 & T' & -> & E2 & Hk' & Ha' & Hkeep & Hl);
             [intros z; rewrite <- (Ha z); occs; lia|]. rewrite M_bind_Ok, E2. exists T'. split; [done|].
           exists (TBranch TEnum b), (k :: fb). split; [|split; [split|split; [|lia]]].
           - apply (rep_branch _ k Enumerate i1 TEnum b []); [done|constructor|]. eapply rep_keeps; [done..|set_solver].
           - done.
           - eapply keeps_sub; [|done]. set_solver.
           - apply pruned_branch; rewrite Es; [done|]. intros _. split; [done|by right]. }
      all: destruct (IH T b i1 fb (k :: fa ++ R) instr (n + 1)%nat Hrb) as (T' & E & (b' & fb' & Hrb' & [Ha' Hkeep] & Hpr & Hl));
        [intros z; rewrite <- (Ha z); occs; lia | lia |]; exists T'; split; [done|];
        exists (TBranch a b'), (k :: fa ++ fb'); (split; [|split; [split|split; [|lia]]]);
        [econstructor; [by rewrite (Hkeep k) by left|eapply rep_keeps; [done..|set_solver]|done]
        | intros z; rewrite <- (Ha' z); occs; lia | eapply keeps_sub; [|done]; set_solver
        | apply pruned_branch; rewrite Es; [done|]; intros _; split; [done|by left]].
    + destruct i1 as [| |j].
      3: { destruct (cut_ok T k (Index j) b fb (fa ++ R) (Branch i0 Enumerate) Hrb) as (T1 & T' & -> & E2 & Hk' & Ha' & Hkeep & Hl);
             [intros z; rewrite <- (Ha z); occs; lia|]. rewrite M_bind_Ok, E2. exists T'. split; [done|].
           exists (TBranch a TEnum), (k :: fa ++ []). split; [|split; [split|split; [|lia]]].
           - apply (rep_branch _ k i0 Enumerate a TEnum fa []); [done| |constructor]. eapply rep_keeps; [done..|set_solver].
           - by rewrite app_nil_r.
           - eapply keeps_sub; [|done]. set_solver.
           - apply pruned_branch; rewrite Es; [|done]. intros _. split; [done|by right]. }
      all: destruct (IH T a i0 fa (k :: fb ++ R) instr (n + 1)%nat Hra) as (T' & E & (a' & fa' & Hra' & [Ha' Hkeep] & Hpr & Hl));
        [intros z; rewrite <- (Ha z); occs; lia | lia |]; exists T'; split; [done|];
        exists (TBranch a' b), (k :: fa' ++ fb); (split; [|split; [split|split; [|lia]]]);
        [econstructor; [by rewrite (Hkeep k) by left|done|eapply rep_keeps; [done..|set_solver]]
        | intros z; rewrite <- (Ha' z); occs; lia | eapply keeps_sub; [|done]; set_solver
        | apply pruned_branch; rewrite Es; [|done]; intros _; split; [done|by left]].
  - destruct (IH T u i fu (k :: R) instr (n + 1)%nat Hu) as (T' & E & (u' & fu' & Hu' & [Ha' Hkeep] & Hpr & Hl));
      [intros z; rewrite <- (Ha z); occs; lia | lia |]. exists T'. split; [done|].
    exists (TIgnore u'), (k :: fu'). split; [econstructor; [by rewrite (Hkeep k) by left|done]|].
    split; [split|split; [by apply pruned_ignore|lia]].
    + intros z; rewrite <- (Ha' z); occs; lia.
    + eapply keeps_sub; [|done]; set_solver.
Qed.

(** Pruning frees nodes and forgets filters, but never the ones that decide the
    given instruction: the result is well formed, covers nothing new, and covers the
    streams that start with the instruction as before. *)
Theorem prune_spec T t i : tree_wf T t → ∃ T' t', prune T i = Ok T' ∧ tree_wf T' t' ∧
  (∀ s, covered t' s = true → covered t s = true) ∧
  (∀ s, (∀ j, (j < Instr.bit_len i)%nat → s j = stream_of i j) → covered t' s = covered t s) ∧
  (len T' <= len T)%nat ∧ (depth t' <= depth t)%nat.
Proof.
  intros (fp & Hr & Ha). assert (arena T (fp ++ [])) as Ha0 by (by rewrite app_nil_r). unfold prune.
  destruct (prune_loop_ok (Instr.bit_len i) T t (Index 0) fp [] i 0 Hr Ha0) as (T' & -> & (t' & fp' & Hr' & [Ha' _] & (P1 & P2 & P3 & P4) & Hl));
    [unfold Instr.bit_len, Instr.byte_len; lia|]. rewrite app_nil_r in Ha'.
  exists T', t'. split; [done|]. split; [by exists fp'|]. split; [done|]. split; [intros s Hs; by apply P2|].
  split; [|done]. unfold len. apply arena_permutation, Permutation_length in Ha, Ha'. rewrite length_app, length_seq in Ha, Ha'.
  apply rep_length in Hr, Hr'. lia.
Qed.
End prune.

(** ** Concrete trees *)

Definition example_tree_filter : InstructionFilter :=
  {| bfs := [{| mask := 0xff; value := 0x0c |}; {| mask := 0xe4; value := 0 |}] |}.
Lemma filter_tree_insert_witness : ∃ T', filter (P := Dev) new example_tree_filter = Ok T' ∧ length (entries T') = 14%nat.
Proof.
  destruct (filter_tree_insert (P := Dev) new (TIgnore TEnum) example_tree_filter) as (T' & t' & E & _);
    [apply new_tree_wf | vm_compute; lia | vm_compute; discriminate|].
  exists T'. split; [exact E|]. vm_compute in E. injection E as <-. reflexivity.
Defined.
Lemma filter_tree_refines_witness : ∃ T t, filter (P := Dev) new example_tree_filter = Ok T ∧ tree_wf T t ∧
  covered t (stream_of (example_instr [0x0c; 0x1b])) = true ∧ covered t (stream_of (example_instr [0x0c; 0x3b])) = false.
Proof.
  assert (∃ T, filter (P := Dev) new example_tree_filter = Ok T) as (T & E) by (eexists; vm_compute; reflexivity).
  destruct (filter_tree_refines (P := Dev) T [example_tree_filter]) as (t & Hwf & Hc).
  - apply (built_filter new); [constructor | vm_compute; lia | | exact E].
    intros t Ht. rewrite (tree_wf_det _ _ _ new_tree_wf Ht). vm_compute. discriminate.
  - exists T, t. split; [exact E|]. split; [exact Hwf|].
    assert (Forall filter_wf [example_tree_filter]) as Hf by (constructor; [by apply filter_check_wf|constructor]).
    split; (rewrite Hc; [reflexivity | example_wf | exact Hf | constructor; [vm_compute; lia|constructor]]).
Defined.
Lemma prune_spec_witness : ∃ T T', filter (P := Dev) new example_tree_filter = Ok T ∧ len T = 14%nat ∧
  prune (P := Dev) T (example_instr [0x8c]) = Ok T' ∧ len T' = 1%nat.
Proof.
  destruct (filter_ok (P := Dev) new (TIgnore TEnum) example_tree_filter) as (T & t & E & Hwf & _);
    [apply new_tree_wf | vm_compute; lia | vm_compute; discriminate|].
  destruct (prune_spec (P := Dev) T t (example_instr [0x8c]) Hwf) as (T' & t' & E' & _).
  exists T, T'. split; [exact E|]. vm_compute in E. injection E as <-. split; [reflexivity|]. split; [exact E'|].
  vm_compute in E'. injection E' as <-. reflexivity.
Defined.
