(* ===== verification/FindNext.v ===== *)
(** * Queries of filter trees

    [find_next] returns the least instruction, in lexicographic order of the bits,
    that is not covered and not below its argument.  [covers] is complete, and sound
    for filters whose wildcards are all at the end; it is not sound in general. *)
From S2P Require Import Prelude MachInt Utils Instruction InstructionFacts Filter FilterFacts FilterTree FilterArena FilterTreeFacts.
Import Tree.

(** ** The lexicographic order of streams *)

Definition slt (s s' : stream) : Prop := ∃ n, (∀ j, (j < n)%nat → s j = s' j) ∧ s n = false ∧ s' n = true.
Definition shift (k : nat) (s : stream) : stream := λ n, s (k + n)%nat.

Lemma slt_cons s s' : slt s s' ↔ (s 0%nat = false ∧ s' 0%nat = true) ∨ (s 0%nat = s' 0%nat ∧ slt (rest s) (rest s')).
Proof.
  split.
  - intros ([|n] & Ha & H0 & H1); [by left|]. right. split; [apply Ha; lia|]. exists n. split; [|done].
    intros j Hj. apply Ha. lia.
  - intros [[H0 H1]|[H (n & Ha & H0 & H1)]]; [by exists 0%nat; split; [lia|]|].
    exists (S n). split; [|done]. intros [|j] Hj; [done|]. apply Ha. lia.
Qed.
Lemma slt_ext s1 s2 s1' s2' : (∀ j, s1 j = s1' j) → (∀ j, s2 j = s2' j) → slt s1 s2 → slt s1' s2'.
Proof. intros E1 E2 (n & Ha & H0 & H1). exists n. split; [intros j Hj; by rewrite <- E1, <- E2, Ha | by rewrite <- E1, <- E2]. Qed.
Lemma slt_irrefl s : ¬ slt s s.
Proof. intros (n & _ & H0 & H1). congruence. Qed.
Lemma not_slt_zeros s z : (∀ j, z j = false) → ¬ slt s z.
Proof. intros Hz (n & _ & _ & H1). by rewrite Hz in H1. Qed.
Lemma covered_ext t : ∀ s s', (∀ j, s j = s' j) → covered t s = covered t s'.
Proof.
  induction t as [| |a IHa b IHb|t IH]; intros s s' E; cbn; try done.
  - rewrite E. destruct (s' 0%nat); [apply IHb|apply IHa]; intros j; apply E.
  - apply IH. intros j. apply E.
Qed.

(** [p'] is the least uncovered stream that is not below [p], if there is one. *)
Definition next_ok (t : tree) (found : bool) (p p' : stream) : Prop :=
  if found then covered t p' = false ∧ ¬ slt p' p ∧ ∀ s, ¬ slt s p → slt s p' → covered t s = true
  else ∀ s, ¬ slt s p → covered t s = true.
Lemma next_ok_ext t found p q p' q' : (∀ j, p j = q j) → (∀ j, p' j = q' j) → next_ok t found p p' → next_ok t found q q'.
Proof.
  intros E E'. assert (∀ s, slt s p ↔ slt s q) as Hpq by (intros s; split; apply slt_ext; done).
  assert (∀ s, slt s p' ↔ slt s q') as Hpq' by (intros s; split; apply slt_ext; done).
  destruct found; cbn; [|by setoid_rewrite Hpq].
  intros (H1 & H2 & H3). split; [by rewrite <- (covered_ext t p' q')|].
  setoid_rewrite <- Hpq. setoid_rewrite <- Hpq'. split; [|done]. intros H. apply H2. eapply slt_ext; [|done|exact H]. done.
Qed.

Section branch.
Context (a b : tree) (p p' : stream).

(** The zero side has it. *)
Lemma next_branch_0 : p 0%nat = false → p' 0%nat = false → next_ok a true (rest p) (rest p') → next_ok (TBranch a b) true p p'.
Proof.
  intros H0 H0' (H1 & H2 & H3). split; [cbn; by rewrite H0'|]. split; [rewrite slt_cons, H0; by intros [[_ ?]|[_ ?]]|].
  intros s Hs. rewrite slt_cons, H0'. intros [[_ ?]|[E Hlt]]; [done|]. cbn. rewrite E.
  apply H3; [|done]. intros Hr. apply Hs, slt_cons. right. by rewrite E.
Qed.
(** The zero side has none, the one side is searched from its start. *)
Lemma next_branch_01 found z q : p 0%nat = false → next_ok a false (rest p) q → (∀ j, z j = false) → p' 0%nat = true →
  next_ok b found z (rest p') → next_ok (TBranch a b) found p p'.
Proof.
  intros H0 Ha Hz H0' Hb. assert (∀ s, ¬ slt s p → s 0%nat = false → covered a (rest s) = true) as Hzero.
  { intros s Hs Es. apply Ha. intros Hr. apply Hs, slt_cons. right. by rewrite Es. }
  destruct found.
  - destruct Hb as (H1 & H2 & H3). split; [cbn; by rewrite H0'|]. split.
    { rewrite slt_cons, H0, H0'. by intros [[? _]|[? _]]. }
    intros s Hs. rewrite slt_cons, H0'. cbn. intros [[E _]|[E Hlt]]; rewrite E; [by apply Hzero|].
    apply H3; [by apply not_slt_zeros|done].
  - intros s Hs. cbn. destruct (s 0%nat) eqn:E; [|by apply Hzero]. apply Hb. by apply not_slt_zeros.
Qed.
(** The search starts on the one side. *)
Lemma next_branch_1 found : p 0%nat = true → p' 0%nat = true → next_ok b found (rest p) (rest p') → next_ok (TBranch a b) found p p'.
Proof.
  intros H0 H0' Hb. assert (∀ s, ¬ slt s p → s 0%nat = true ∧ ¬ slt (rest s) (rest p)) as Hone.
  { intros s Hs. destruct (s 0%nat) eqn:E; [|destruct Hs; apply slt_cons; by left]. split; [done|]. intros Hr.
    apply Hs, slt_cons. right. by rewrite E. }
  destruct found.
  - destruct Hb as (H1 & H2 & H3). split; [cbn; by rewrite H0'|]. split.
    { rewrite slt_cons, H0'. by intros [[? _]|[_ ?]]. }
    intros s [E Hs]%Hone. rewrite slt_cons, E. cbn. rewrite E. intros [[? _]|[_ Hlt]]; [done|]. by apply H3.
  - intros s [E Hs]%Hone. cbn. rewrite E. by apply Hb.
Qed.
End branch.
Lemma next_ok_equiv t t' found p p' : t ≡ t' → next_ok t found p p' → next_ok t' found p p'.
Proof.
  intros E. destruct found; cbn; [intros (H1 & H2 & H3); split; [by rewrite <- (E p')|]; split; [done|]|intros H3];
    intros; rewrite <- (E s); by apply H3.
Qed.
Lemma next_ok_false t p p' q : next_ok t false p p' → next_ok t false p q.
Proof. done. Qed.

(** ** The steps on the path *)

Lemma lbit_take n l j : lbit (take n l) j = if (j <? 8 * n)%nat then lbit l j else false.
Proof.
  unfold lbit. case_cmp.
  - rewrite lookup_take_lt by (apply Nat.Div0.div_lt_upper_bound; lia). done.
  - rewrite lookup_take_ge; [apply Z.testbit_0_l|]. apply Nat.div_le_lower_bound; lia.
Qed.
Lemma lbit_app_zeros l m j : lbit (l ++ replicate m 0) j = lbit l j.
Proof.
  unfold lbit. destruct (decide (j / 8 < length l)%nat) as [Hl|Hl]; [by rewrite lookup_app_l|].
  rewrite lookup_app_r, (lookup_ge_None_2 l) by lia. destruct (replicate m 0 !! _) eqn:E; [|done].
  by apply lookup_replicate in E as [-> _].
Qed.
Lemma lbit_ge l j : (8 * length l <= j)%nat → lbit l j = false.
Proof. intros H. unfold lbit. rewrite lookup_ge_None_2; [apply Z.testbit_0_l|]. apply Nat.div_le_lower_bound; lia. Qed.
Lemma stream_resize i n : instr_wf i → (n < 15)%nat → ∃ r, Instr.resize i n 0 = Ok r ∧ instr_wf r ∧ Instr.byte_len r = n ∧
  ∀ j, stream_of r j = if (j <? 8 * n)%nat then stream_of i j else false.
Proof.
  intros Hi Hn. destruct (resize_ok i n 0 Hi ltac:(done) Hn) as (r & -> & Hr & E). exists r. split; [done|].
  split; [done|]. split.
  - unfold Instr.byte_len. rewrite E, length_app, length_take, length_replicate. lia.
  - intros j. unfold stream_of. by rewrite E, lbit_app_zeros, lbit_take.
Qed.

(** A path has at most fourteen bytes after it was changed, so these two steps panic
    at the earliest at bit 112. *)
Lemma extend_to_ok path k : instr_wf path → (k <= Instr.bit_len path)%nat → or_panic (112 <= k)%nat (extend_to path k)
  (λ r, instr_wf r ∧ (k < Instr.bit_len r)%nat ∧ ∀ j, stream_of r j = stream_of path j).
Proof.
  intros Hw Hk. unfold extend_to. case_cmp; [|by apply or_panic_ok]. unfold Instr.extend, Instr.bit_len in *.
  destruct (decide (Instr.byte_len path + 1 < 15)%nat) as [Hb|Hb].
  - destruct (stream_resize path (Instr.byte_len path + 1) Hw) as (r & -> & Hr & El & Es); [done|].
    apply or_panic_ok. split; [done|]. rewrite El. split; [lia|]. intros j. rewrite Es. case_cmp; [done|].
    unfold stream_of, Instr.byte_len in *. rewrite lbit_ge; [done|]. lia.
  - left. unfold Instr.resize. rewrite (proj2 (Nat.ltb_ge _ _)) by lia. split; [done | lia].
Qed.
Lemma read_stream_bit path k : (k < Instr.bit_len path)%nat → Instr.nth_bit_from_left path k = Ok (Z.b2z (stream_of path k)).
Proof. intros Hk. apply nth_bit_from_left_lbit. unfold Instr.bit_len, Instr.byte_len in Hk. lia. Qed.
Lemma b2z_eq0 b : (Z.b2z b =? 0) = negb b.
Proof. by destruct b. Qed.

(** [set_and_cut] on a path whose bits after [k] are zero. *)
Lemma set_and_cut_ok path k (b : bool) : instr_wf path → (k < Instr.bit_len path)%nat →
  (∀ j, (k < j)%nat → stream_of path j = false) → or_panic (112 <= k)%nat (set_and_cut path k (Z.b2z b))
    (λ r, instr_wf r ∧ (k < Instr.bit_len r)%nat ∧
      ∀ j, stream_of r j = if (j =? k)%nat then b else if (j <? k)%nat then stream_of path j else false).
Proof.
  intros Hw Hk Hz. unfold set_and_cut. assert (Instr.is_bit (Z.b2z b) = true) as Hb by (by destruct b).
  unfold Instr.bit_len, Instr.byte_len in Hk. destruct (bytes_wf _ Hw) as [Hbytes _]. pose proof (byte_len_wf _ Hw) as Elen.
  unfold Instr.byte_len in Elen.
  destruct (with_nth_bit_from_left_ok path k (Z.b2z b) Hw ltac:(lia) Hb) as (p & -> & Hp & Ep). rewrite M_bind_Ok.
  pose proof (Nat.div_mod k 8 ltac:(lia)). pose proof (Nat.mod_upper_bound k 8 ltac:(lia)).
  destruct (decide (k / 8 + 1 < 15)%nat) as [Hdiv|Hdiv].
  - destruct (stream_resize p (k / 8 + 1) Hp Hdiv) as (r & -> & Hr & El & Es). apply or_panic_ok. split; [done|].
    unfold Instr.bit_len. rewrite El. split; [lia|]. intros j. rewrite Es. unfold stream_of in *. rewrite Ep, lbit_set by (done || lia).
    case_cmps; try done; [by destruct b|]. apply Hz. lia.
  - left. unfold Instr.resize. rewrite (proj2 (Nat.ltb_ge _ _)) by lia. split; [done | lia].
Qed.
Lemma clear_suffix_ok path k : instr_wf path → (k <= Instr.bit_len path)%nat → ∃ r,
  (if (k <? Instr.bit_len path)%nat then Instr.with_rightmost_bits path (Instr.bit_len path - k) 0 else Ok path) = Ok r ∧
  instr_wf r ∧ (k <= Instr.bit_len r)%nat ∧ ∀ j, stream_of r j = if (j <? k)%nat then stream_of path j else false.
Proof.
  intros Hw Hk. case_cmp.
  - unfold Instr.bit_len, Instr.byte_len in *. unfold Instr.with_rightmost_bits. change (rassert (Instr.is_bit 0)) with (Ok tt). rewrite M_bind_Ok.
    destruct (with_rightmost_bits_loop_ok 0 (length (Instr.bytes path) * 8 - k) path 0 Hw) as (r & -> & Hr & El & Es); [done|lia|].
    exists r. split; [done|]. split; [done|]. rewrite El. split; [lia|]. intros j.
    destruct (decide (j < 8 * length (Instr.bytes path))%nat) as [Hj|Hj].
    + specialize (Es (8 * length (Instr.bytes path) - 1 - j)%nat ltac:(lia)).
      rewrite !nth_bit_from_right_left in Es by lia. rewrite El in Es.
      replace (8 * length (Instr.bytes path) - 1 - (8 * length (Instr.bytes path) - 1 - j))%nat with j in Es by lia.
      rewrite !nth_bit_from_left_lbit in Es by lia. unfold stream_of. revert Es. case_cmps; intros Es.
      * injection Es. by destruct (lbit (Instr.bytes r) j), (lbit (Instr.bytes path) j).
      * injection Es. by destruct (lbit (Instr.bytes r) j).
    + unfold stream_of. rewrite lbit_ge by lia. case_cmp; [|done]. by rewrite lbit_ge by lia.
  - exists path. split; [done|]. split; [done|]. split; [done|]. intros j. case_cmp; [done|].
    unfold stream_of. rewrite lbit_ge; [done|]. unfold Instr.bit_len, Instr.byte_len in *. lia.
Qed.

(** ** [find_next] *)

Record find_result (t : tree) (k : nat) (path : Instruction) (found : bool) (path' : Instruction) : Prop := {
  fr_wf : instr_wf path';
  fr_len : (k <= Instr.bit_len path')%nat;
  fr_prefix : ∀ j, (j < k)%nat → stream_of path' j = stream_of path j;
  fr_zero : found = false → ∀ j, (k <= j)%nat → stream_of path' j = false;
  fr_next : next_ok t found (shift k (stream_of path)) (shift k (stream_of path')) }.

Lemma rest_shift k s j : rest (shift k s) j = shift (k + 1) s j.
Proof. unfold rest, shift. f_equal. lia. Qed.
Lemma shift_head k s : shift k s 0%nat = s k.
Proof. unfold shift. f_equal. lia. Qed.
Lemma fr_rest t k path found path' q : find_result t (k + 1) path found path' → (∀ j, (k < j)%nat → stream_of path j = q j) →
  next_ok t found (rest (shift k q)) (rest (shift k (stream_of path'))).
Proof.
  intros [_ _ _ _ H] E. eapply next_ok_ext; [..|exact H]; intros j; rewrite rest_shift; [|done].
  unfold shift. apply E. lia.
Qed.
(** The end of the step for a node: a failed search clears the bit. *)
Lemma find_finish t b k path path1 found path2 : find_result b (k + 1) path1 found path2 →
  (∀ j, (j < k)%nat → stream_of path1 j = stream_of path j) →
  next_ok t found (shift k (stream_of path)) (shift k (stream_of path2)) →
  or_panic (112 <= k)%nat (if found then Ok (true, path2) else p ← set_and_cut path2 k 0; Ok (false, p))
    (λ '(found, path'), find_result t k path found path').
Proof.
  intros [Hw Hl Hp Hz _] Hpre Hn. destruct found.
  - apply or_panic_ok. split; [done|lia| |done|done]. intros j Hj. by rewrite Hp, Hpre by lia.
  - eapply or_panic_bind; [apply (set_and_cut_ok path2 k false Hw); [lia|intros; apply Hz; [done|lia]] | done |].
    intros r (Hr & Hlr & Er). apply or_panic_ok. split; [done|lia| | |by eapply next_ok_false].
    + intros j Hj. rewrite Er. case_cmps. by rewrite Hp, Hpre by lia.
    + intros _ j Hj. rewrite Er. by case_cmps.
Qed.

Section find.
Context (T : FilterTree).
Definition find_spec (fuel : nat) : Prop := ∀ t i fp k path, rep (entries T) t i fp → (depth t <= fuel)%nat →
  instr_wf path → (k <= Instr.bit_len path)%nat →
  or_panic (112 < k + depth t)%nat (find_next_internal fuel T i k path) (λ '(found, path'), find_result t k path found path').

(** From a path with a zero at [k] and after it: try the one side. *)
Lemma find_one fuel t b i fp k path path1 : find_spec fuel → rep (entries T) b i fp → (depth b <= fuel)%nat →
  (S (depth b) <= depth t)%nat → instr_wf path1 → (k < Instr.bit_len path1)%nat →
  (∀ j, (j < k)%nat → stream_of path1 j = stream_of path j) → (∀ j, (k <= j)%nat → stream_of path1 j = false) →
  (∀ found path3, stream_of path3 k = true → next_ok b found (λ _, false) (rest (shift k (stream_of path3))) →
    next_ok t found (shift k (stream_of path)) (shift k (stream_of path3))) →
  or_panic (112 < k + depth t)%nat
    (path2 ← set_and_cut path1 k 1; '(found, path3) ← find_next_internal fuel T i (k + 1) path2;
     if found : bool then Ok (true, path3) else p ← set_and_cut path3 k 0; Ok (false, p))
    (λ '(found, path'), find_result t k path found path').
Proof.
  intros IH Hr Hd Hk Hw Hl Hpre Hz Hnext.
  eapply or_panic_bind; [apply (set_and_cut_ok path1 k true Hw Hl); intros; apply Hz; lia | lia |].
  intros path2 (Hw2 & Hl2 & Es2). eapply or_panic_bind; [apply (IH b i fp (k + 1)%nat path2 Hr Hd Hw2); lia | lia |].
  intros [found path3] Hfr. eapply or_panic_mono; [eapply (find_finish t b k path path2 found path3 Hfr) | lia | done].
  - intros j Hj. rewrite Es2, <- Hpre by done. by case_cmps.
  - apply Hnext; [rewrite (fr_prefix _ _ _ _ _ Hfr) by lia; rewrite Es2; by case_cmps|].
    eapply next_ok_ext; [|done|eapply fr_rest; [exact Hfr|done]]. intros j. rewrite rest_shift. unfold shift. rewrite Es2. by case_cmps.
Qed.

Lemma find_branch fuel k path cur i0 i1 a b fa fb : find_spec fuel → entries T !! cur = Some (Branch i0 i1) →
  rep (entries T) a i0 fa → rep (entries T) b i1 fb → (depth (TBranch a b) <= S fuel)%nat →
  instr_wf path → (k <= Instr.bit_len path)%nat →
  or_panic (112 < k + depth (TBranch a b))%nat (find_next_internal (S fuel) T (Index cur) k path)
    (λ '(found, path'), find_result (TBranch a b) k path found path').
Proof.
  intros IH Hcur Hra Hrb Hd Hw Hl. cbn [depth] in Hd. cbn [find_next_internal].
  rewrite (proj2 (vget_Ok_inv _ _ _) Hcur), M_bind_Ok.
  eapply or_panic_bind; [by apply extend_to_ok | cbn [depth]; lia |]. intros p0 (Hw0 & Hl0 & Es0).
  rewrite read_stream_bit, M_bind_Ok, b2z_eq0 by done.
  destruct (stream_of p0 k) eqn:Ek; cbn [negb].
  - rewrite M_bind_Ok, read_stream_bit, M_bind_Ok, b2z_eq0, Ek by done. cbn [negb]. rewrite M_bind_Ok.
    eapply or_panic_bind; [apply (IH b i1 fb (k + 1)%nat p0 Hrb); [lia|done|lia] | cbn [depth]; lia |]. intros [found p1] Hfr.
    eapply or_panic_mono; [eapply (find_finish (TBranch a b) b k path p0 found p1 Hfr) | cbn [depth]; lia | done];
      [intros; apply Es0|].
    apply next_branch_1; rewrite ?shift_head, <- ?Es0; [done| |eapply fr_rest; [done|intros; apply Es0]].
    by rewrite (fr_prefix _ _ _ _ _ Hfr) by lia.
  - eapply or_panic_bind; [apply (IH a i0 fa (k + 1)%nat p0 Hra); [lia|done|lia] | cbn [depth]; lia |]. intros [f0 p1] Hfr.
    assert (stream_of p1 k = false) as Ek1 by (by rewrite (fr_prefix _ _ _ _ _ Hfr) by lia).
    assert (∀ j, (j < k)%nat → stream_of p1 j = stream_of path j) as Hpre.
    { intros j Hj. rewrite (fr_prefix _ _ _ _ _ Hfr), Es0 by lia. done. }
    destruct f0.
    + apply or_panic_ok. split; [apply Hfr|pose proof (fr_len _ _ _ _ _ Hfr); lia|done|done|].
      apply next_branch_0; rewrite ?shift_head, <- ?Es0; [done..|]. eapply fr_rest; [done|intros; apply Es0].
    + pose proof (fr_len _ _ _ _ _ Hfr) as Hl1. rewrite read_stream_bit, M_bind_Ok, b2z_eq0, Ek1 by lia. cbn [negb].
      eapply (find_one fuel (TBranch a b) b i1 fb k path p1 IH Hrb); [lia | cbn [depth]; lia | apply Hfr | lia | done | |].
      { intros j Hj. destruct (decide (j = k)) as [->|]; [done|]. apply (fr_zero _ _ _ _ _ Hfr); [done|lia]. }
      intros found p3 Hk3 Hn3.
      eapply next_branch_01; [by rewrite shift_head, <- Es0|eapply fr_rest; [exact Hfr|intros; apply Es0]| | |exact Hn3]; [done|].
      by rewrite shift_head.
Qed.
Lemma find_ignore fuel k path cur i t fp : find_spec fuel → entries T !! cur = Some (Ignore i) →
  rep (entries T) t i fp → (depth (TIgnore t) <= S fuel)%nat → instr_wf path → (k <= Instr.bit_len path)%nat →
  or_panic (112 < k + depth (TIgnore t))%nat (find_next_internal (S fuel) T (Index cur) k path)
    (λ '(found, path'), find_result (TIgnore t) k path found path').
Proof.
  intros IH Hcur Hr Hd Hw Hl. cbn [depth] in Hd. cbn [find_next_internal].
  rewrite (proj2 (vget_Ok_inv _ _ _) Hcur), M_bind_Ok.
  eapply or_panic_bind; [by apply extend_to_ok | cbn [depth]; lia |]. intros p0 (Hw0 & Hl0 & Es0).
  eapply or_panic_bind; [apply (IH t i fp (k + 1)%nat p0 Hr); [lia|done|lia] | cbn [depth]; lia |]. intros [f0 p1] Hfr.
  assert (stream_of p1 k = stream_of p0 k) as Ek1 by (by rewrite (fr_prefix _ _ _ _ _ Hfr) by lia).
  assert (∀ j, (j < k)%nat → stream_of p1 j = stream_of path j) as Hpre.
  { intros j Hj. rewrite (fr_prefix _ _ _ _ _ Hfr), Es0 by lia. done. }
  pose proof (fr_len _ _ _ _ _ Hfr) as Hl1.
  assert (next_ok t f0 (rest (shift k (stream_of path))) (rest (shift k (stream_of p1)))) as Hn0.
  { eapply fr_rest; [done|intros; apply Es0]. }
  destruct f0.
  - apply or_panic_ok. split; [apply Hfr|lia|done|done|]. apply (next_ok_equiv (TBranch t t)); [apply branch_same|].
    destruct (stream_of p0 k) eqn:Ek.
    + apply next_branch_1; rewrite ?shift_head, <- ?Es0; by rewrite ?Ek1.
    + apply next_branch_0; rewrite ?shift_head, <- ?Es0; by rewrite ?Ek1.
  - rewrite read_stream_bit, M_bind_Ok, b2z_eq0, Ek1 by lia. destruct (stream_of p0 k) eqn:Ek; cbn [negb].
    + rewrite M_bind_Ok. eapply or_panic_mono; [eapply (find_finish (TIgnore t) t k path p0 false p1 Hfr) | cbn [depth]; lia | done];
        [intros; apply Es0|].
      apply (next_ok_equiv (TBranch t t)); [apply branch_same|]. apply next_branch_1; rewrite ?shift_head, <- ?Es0; by rewrite ?Ek1.
    + rewrite M_bind_assoc.
      eapply (find_one fuel (TIgnore t) t i fp k path p1 IH Hr); [lia | cbn [depth]; lia | apply Hfr | lia | done | |].
      { intros j Hj. destruct (decide (j = k)) as [->|]; [done|]. apply (fr_zero _ _ _ _ _ Hfr); [done|lia]. }
      intros found p3 Hk3 Hn3. apply (next_ok_equiv (TBranch t t)); [apply branch_same|].
      eapply next_branch_01; [by rewrite shift_head, <- Es0|exact Hn0| | |exact Hn3]; [done|].
      by rewrite shift_head.
Qed.
Lemma find_next_internal_ok fuel : find_spec fuel.
Proof.
  induction fuel as [|fuel IH]; intros t i fp k path Hr Hd Hw Hl; destruct Hr; cbn [depth] in Hd; try lia.
  1,3: apply or_panic_ok; split; try done; cbn; split; [done|]; split; [apply slt_irrefl|];
    intros s H1 H2; by destruct H1.
  1,2: destruct (clear_suffix_ok path k Hw Hl) as (r & E & Hr' & Hl' & Es); cbn [find_next_internal];
    rewrite E, M_bind_Ok; apply or_panic_ok; split; try done; [intros j Hj; rewrite Es; by case_cmps|intros _ j Hj; rewrite Es; by case_cmps].
  - by eapply find_branch.
  - by eapply find_ignore.
Qed.
End find.

(** C12: [find_next] returns the least bit string (an instruction followed by zeros)
    that is not below its argument and not covered by the tree, and [None] exactly
    if everything from the argument on is covered.  This holds for every well-formed
    tree; the one exception is a panic, which needs a tree that looks at more than
    112 bits (a filter with a fixed bit in the fifteenth byte), and a tree that looks
    at fewer never panics. *)
Theorem find_next_least T t i : tree_wf T t → instr_wf i →
  (find_next T i = Panic ∧ (112 < depth t)%nat) ∨ ∃ r, find_next T i = Ok r ∧
  match r with
  | Some y => instr_wf y ∧ covered t (stream_of y) = false ∧ ¬ slt (stream_of y) (stream_of i) ∧
              ∀ s, ¬ slt s (stream_of i) → slt s (stream_of y) → covered t s = true
  | None => ∀ s, ¬ slt s (stream_of i) → covered t s = true
  end.
Proof.
  intros (fp & Hr & Ha) Hi. unfold find_next.
  destruct (find_next_internal_ok T (length (entries T)) t (Index 0) fp 0%nat i Hr) as [[-> H]|([found y] & -> & [Hw _ _ _ Hn])];
    [eapply rep_depth; [done|by rewrite app_nil_r] | done | lia | left; split; [done | lia] |].
  right. exists (if found then Some y else None). split; [done|]. destruct found; [|exact Hn]. split; [done|exact Hn].
Qed.

(** A tree that is deeper makes [find_next] panic: the path would need a
    fifteenth byte, which [resize] does not allow. *)
Theorem find_next_panics_at_15_bytes T i (n : nat) : entries T !! n = Some (Ignore Enumerate) → instr_wf i →
  Instr.byte_len i = 14%nat → find_next_internal 1 T (Index n) 112 i = Panic.
Proof.
  intros Hn Hi Hlen. cbn [find_next_internal]. rewrite (proj2 (vget_Ok_inv _ _ _) Hn), M_bind_Ok.
  unfold extend_to, Instr.bit_len. rewrite Hlen, (proj2 (Nat.leb_le _ _)) by lia. unfold Instr.extend. by rewrite Hlen.
Qed.

(** ** [covers] *)

Fixpoint tcovers (bits : list FilterBit) (t : tree) : bool :=
  match bits with
  | [] => false
  | bit :: bits =>
      let follow t := match t with TEnum => false | TSkip => true | t => tcovers bits t end in
      match t with
      | TBranch a b =>
          match bit with
          | Is0 => follow a
          | Is1 => follow b
          | Wildcard =>
              match a with
              | TEnum => false
              | TSkip => true
              | a => if negb (tcovers bits a) then false else follow b
              end
          end
      | TIgnore t => follow t
      | _ => false
      end
  end.
Lemma covers_follow E bits t i fp (k : nat → M bool) : rep E t i fp →
  (∀ j, i = Index j → k j = Ok (tcovers bits t)) →
  match i with Enumerate => Ok false | Skip => Ok true | Index j => k j end =
  Ok (match t with TEnum => false | TSkip => true | t => tcovers bits t end).
Proof. intros Hr Hk. destruct Hr; try done; by apply Hk. Qed.
Lemma covers_loop_ok T f bits : ∀ t k fp n, rep (entries T) t (Index k) fp → bits_from f n bits →
  covers_loop (length bits) T k f n = Ok (tcovers bits t).
Proof.
  induction bits as [|bit bits IH]; intros t k fp n Hr Hb; [done|]. apply bits_from_tail in Hb as [Hbit Hb].
  cbn [length covers_loop tcovers]. rewrite Hbit, M_bind_Ok.
  assert (∀ t i fp, rep (entries T) t i fp → ∀ j, i = Index j → covers_loop (length bits) T j f (n + 1) = Ok (tcovers bits t)) as IH'.
  { intros u i fu Hu j ->. by eapply IH. }
  destruct (rep_node_inv _ _ _ _ Hr) as [(a & b & i0 & i1 & fa & fb & -> & Hk & Hra & Hrb & ->)|(u & i & fu & -> & Hk & Hu & ->)];
    rewrite (proj2 (vget_Ok_inv _ _ _) Hk), M_bind_Ok.
  - destruct bit; [eapply covers_follow; eauto..|].
    destruct Hra; try done; erewrite IH' by (reflexivity || by econstructor);
      rewrite M_bind_Ok; case_match; try done; by eapply covers_follow; eauto.
  - destruct bit; eapply covers_follow; eauto.
Qed.
Lemma tcovers_sound bits : Forall (λ b, b ≠ Wildcard) bits → ∀ t s, tcovers bits t = true → bmatch bits s = true → covered t s = true.
Proof.
  induction 1 as [|bit bits Hw Hbits IH]; intros t s Hc Hm; [done|].
  assert (bmatch bits (rest s) = true) as Hm' by (destruct bit; cbn in Hm; [by apply andb_true_iff in Hm as [_ Hm]..|done]).
  assert (∀ u, match u with TEnum => false | TSkip => true | u => tcovers bits u end = true → covered u (rest s) = true) as Hf.
  { intros u Hu. destruct u; try done; by apply IH. }
  destruct t as [| |a b|t], bit; try done; cbn [covered bmatch tcovers] in *.
  - apply andb_true_iff in Hm as [E _]. destruct (s 0%nat); [done|]. by apply Hf.
  - apply andb_true_iff in Hm as [E _]. rewrite E. by apply Hf.
  - by apply Hf.
  - by apply Hf.
Qed.

(** [covers] ends, and for a filter without wildcards up to its last fixed bit a
    positive answer is right: every matching bit string is covered. *)
Theorem covers_sound T t f : tree_wf T t → (0 < Filter.bit_len f)%nat → ∃ r l, covers T f = Ok r ∧ real_len f = Ok l ∧
  (r = true → (∀ n, (n < l)%nat → bit_at f n ≠ Wildcard) → ∀ s, bmatch (filter_bits f) s = true → covered t s = true).
Proof.
  intros (fp & Hr & Ha) H0. unfold covers. destruct (real_len_ok f H0) as (l & -> & Hl & Hm). rewrite M_bind_Ok.
  assert (length (take l (filter_bits f)) = l) as El by (rewrite length_take, length_filter_bits; lia).
  pose proof (covers_loop_ok T f (take l (filter_bits f)) t 0%nat fp 0%nat Hr (filter_bits_from f l)) as E. rewrite El in E.
  rewrite E. exists (tcovers (take l (filter_bits f)) t), l. split; [done|]. split; [done|]. intros Hc Hw s Hs.
  eapply tcovers_sound; [|exact Hc|by rewrite Hm]. apply Forall_lookup. intros n b [Hn Hlt]%lookup_take_Some.
  rewrite filter_bits_lookup in Hn by lia. injection Hn as <-. by apply Hw.
Qed.

(** With a wildcard in the middle the answer can be wrong.  The tree of the
    filter [0_______] is said to cover [_1______], but [11000000] matches it and is
    not covered. *)
Theorem covers_unsound : ∃ f g T t i, filter (P := Release) new f = Ok T ∧ tree_wf T t ∧ covers T g = Ok true ∧
  instr_wf i ∧ Filter.matches g i = true ∧ covered t (stream_of i) = false.
Proof.
  set (f := {| bfs := [{| mask := 0x80; value := 0 |}] |}). set (g := {| bfs := [{| mask := 0x40; value := 0x40 |}] |}).
  exists f, g, {| entries := [Branch Skip Enumerate]; empty := [] |}, (TBranch TSkip TEnum), (example_instr [0xc0]).
  split; [reflexivity|]. split; [exists [0%nat]; split|].
  - apply (rep_branch _ 0 Skip Enumerate TSkip TEnum [] []); [done|constructor..].
  - intros j. unfold inside. cbn [entries empty length]. occs. case_cmps; lia.
  - split; [reflexivity|]. split; [example_wf|]. by split.
Qed.

(** ** [filter_below] and [filter_above] *)

Definition suffix_mask (i index : nat) : Z :=
  let bits_to_mask := (i - index * 8)%nat in
  if (bits_to_mask <? 8)%nat then wrap 8 (Z.shiftl 0xff (Z.of_nat bits_to_mask)) else 0.
Lemma suffix_mask_u8 i index : is_u 8 (suffix_mask i index).
Proof. unfold suffix_mask. case_cmp; [apply wrap_is_u; lia | done]. Qed.
Lemma testbit_suffix_mask i index k : (k < 8)%nat → Z.testbit (suffix_mask i index) (Z.of_nat k) = bool_decide (i <= 8 * index + k)%nat.
Proof.
  intros Hk. unfold suffix_mask. case_cmp.
  - rewrite testbit_wrap, Z.shiftl_spec by lia. change 0xff with (Z.ones 8). case_cmps; cbn [andb].
    + apply Z.ones_spec_low. lia.
    + apply Z.testbit_neg_r. lia.
  - rewrite Z.testbit_0_l. case_cmps; lia || done.
Qed.

Section suffix.
Context {P : profile} (x : Instruction) (i : nat).
Context (Hx : instr_wf x) (Hi : (i <= Instr.bit_len x)%nat).
Context (Hz : ∀ j, (Instr.bit_len x - i <= j)%nat → stream_of x j = false).

(** The byte at position [m] from the left, with its mask. *)
Lemma suffix_byte m b : Instr.bytes x !! m = Some b →
  BF.new (suffix_mask i (length (Instr.bytes x) - 1 - m)) b =
  Ok {| mask := suffix_mask i (length (Instr.bytes x) - 1 - m); value := b |}.
Proof using Hx Hi Hz.
  intros Hm. unfold BF.new. rewrite debug_assert_ok; [done|]. apply Z.eqb_eq.
  pose proof (instr_byte _ _ _ Hx Hm) as Hb. pose proof (lookup_lt_Some _ _ _ Hm) as Hlt.
  apply u8_ext; [apply is_u_land_l; [lia|exact Hb] | done |]. intros j Hj. rewrite Z.land_spec, testbit_not_u, Z.testbit_0_l by done.
  specialize (Hz (8 * m + (7 - Z.to_nat j))). unfold stream_of, lbit, Instr.bit_len, Instr.byte_len in *.
  assert ((8 * m + (7 - Z.to_nat j)) / 8 = m ∧ (8 * m + (7 - Z.to_nat j)) `mod` 8 = 7 - Z.to_nat j)%nat as [E1 E2].
  { rewrite Nat.mul_comm. split; [rewrite Nat.div_add_l, Nat.div_small by lia; lia|].
    rewrite Nat.add_comm, Nat.Div0.mod_add, Nat.mod_small by lia. lia. }
  rewrite E1, E2, Hm in Hz. replace (Z.of_nat (7 - (7 - Z.to_nat j))) with j in Hz by lia.
  change (default 0 (Some b)) with b in Hz. replace j with (Z.of_nat (Z.to_nat j)) at 2 by lia. rewrite testbit_suffix_mask by lia.
  case_bool_decide; [by rewrite andb_false_r|]. rewrite Hz by lia. done.
Qed.
Lemma suffix_filter_ok : ∃ f, suffix_filter x i = Ok f ∧ Filter.bit_len f = Instr.bit_len x ∧
  ∀ s, bmatch (filter_bits f) s = true ↔ ∀ j, (j < Instr.bit_len x - i)%nat → s j = stream_of x j.
Proof using Hx Hi Hz.
  set (L := length (Instr.bytes x)). set (g := λ p : nat * Z, {| mask := suffix_mask i (fst p); value := snd p |}).
  assert (suffix_filter x i = Ok {| bfs := reverse (g <$> imap pair (reverse (Instr.bytes x))) |}) as ->.
  { unfold suffix_filter. rewrite (mapM_Ok _ g).
    - rewrite M_bind_Ok. unfold Filter.new. rewrite length_reverse, length_fmap, length_imap, length_reverse.
      destruct (bytes_wf _ Hx) as [_ Hle]. unfold Instr.MAX_LEN, Filter.MAX_BYTES in *. by rewrite (proj2 (Nat.leb_le _ _)) by lia.
    - intros [index b] Hin. apply list_elem_of_lookup in Hin as [k Hk]. apply list_lookup_imap_Some in Hk as (b' & Hk & [= -> ->]).
      fold (suffix_mask i k). pose proof (lookup_lt_Some _ _ _ Hk) as Hlt. rewrite length_reverse in Hlt.
      rewrite reverse_lookup in Hk by done. pose proof (suffix_byte _ _ Hk) as E.
      replace (length (Instr.bytes x) - 1 - (length (Instr.bytes x) - S k))%nat with k in E by lia. exact E. }
  eexists. split; [done|]. unfold Filter.bit_len. cbn [bfs].
  rewrite length_reverse, length_fmap, length_imap, length_reverse. split; [done|]. intros s. rewrite bmatch_filter_iff.
  unfold Filter.bit_len. cbn [bfs]. rewrite length_reverse, length_fmap, length_imap, length_reverse. fold L.
  assert (∀ n, (n < L * 8)%nat → bit_at {| bfs := reverse (g <$> imap pair (reverse (Instr.bytes x))) |} n =
    if bool_decide (n < L * 8 - i)%nat then if stream_of x n then Is1 else Is0 else Wildcard) as Hbit.
  { intros n Hn. assert (n / 8 < L)%nat as Hd by (apply Nat.Div0.div_lt_upper_bound; lia).
    destruct (lookup_lt_is_Some_2 (Instr.bytes x) (n / 8) Hd) as [b Hb].
    rewrite (bit_at_spec _ n (g (L - 1 - n / 8, b)%nat)).
    - cbv zeta. cbn [g fst snd mask value]. pose proof (Nat.mod_upper_bound n 8 ltac:(lia)). pose proof (Nat.div_mod n 8 ltac:(lia)).
      rewrite testbit_suffix_mask by lia. unfold stream_of, lbit. rewrite Hb. change (default 0 (Some b)) with b.
      case_cmps; done.
    - cbn [bfs]. rewrite reverse_lookup by (rewrite length_fmap, length_imap, length_reverse; done).
      rewrite length_fmap, length_imap, length_reverse, list_lookup_fmap, list_lookup_imap, reverse_lookup by (fold L; lia).
      fold L. replace (L - S (L - S (n / 8)))%nat with (n / 8)%nat by lia. rewrite Hb.
      replace (L - S (n / 8))%nat with (L - 1 - n / 8)%nat by lia. done. }
  unfold Instr.bit_len, Instr.byte_len. fold L. split; intros H j Hj.
  - specialize (H j ltac:(lia)). rewrite Hbit, bool_decide_eq_true_2 in H by lia. destruct (stream_of x j), (s j); done.
  - rewrite Hbit by done. case_bool_decide; [|done]. rewrite H by done. by destruct (stream_of x j).
Qed.
End suffix.

(** The order of instructions of the same length is the order of their bits. *)
Lemma bits_lt x y k : 0 <= k → (∀ j, k < j → Z.testbit x j = Z.testbit y j) →
  Z.testbit x k = false → Z.testbit y k = true → x < y.
Proof.
  intros Hk Ha Hx Hy. pose proof (pow2_pos k Hk) as Hp.
  assert (Z.shiftr x (k + 1) = Z.shiftr y (k + 1)) as E.
  { apply Z.bits_inj'. intros n Hn. rewrite !Z.shiftr_spec by done. apply Ha. lia. }
  rewrite !Z.shiftr_div_pow2, pow2_split, <- !Z.div_div in E by lia. change (2 ^ 1) with 2 in E.
  pose proof (Z.testbit_spec' x k Hk) as Ex. pose proof (Z.testbit_spec' y k Hk) as Ey. rewrite Hx in Ex. rewrite Hy in Ey.
  cbn [Z.b2z] in *. pose proof (Z.div_mod (x / 2 ^ k) 2). pose proof (Z.div_mod (y / 2 ^ k) 2).
  pose proof (Z.mul_succ_div_gt x (2 ^ k) Hp). pose proof (Z.mul_div_le y (2 ^ k) Hp). nia.
Qed.
Lemma lt_bits x y : 0 <= x → x < y → ∃ k, 0 <= k ∧ (∀ j, k < j → Z.testbit x j = Z.testbit y j) ∧
  Z.testbit x k = false ∧ Z.testbit y k = true.
Proof.
  intros Hx Hlt. set (d := Z.lxor x y). assert (0 < d) as Hd.
  { assert (0 <= d) by (apply Z.lxor_nonneg; lia). assert (d ≠ 0) by (intros E%Z.lxor_eq; lia). lia. }
  exists (Z.log2 d). pose proof (Z.log2_nonneg d). split; [done|].
  assert (∀ j, Z.log2 d < j → Z.testbit x j = Z.testbit y j) as Ha.
  { intros j Hj. pose proof (Z.bits_above_log2 d j ltac:(lia) Hj) as E. unfold d in E. rewrite Z.lxor_spec in E.
    by destruct (Z.testbit x j), (Z.testbit y j). }
  split; [done|]. pose proof (Z.bit_log2 d Hd) as E. unfold d in E at 1. rewrite Z.lxor_spec in E.
  destruct (Z.testbit x (Z.log2 d)) eqn:Ex, (Z.testbit y (Z.log2 d)) eqn:Ey; try done.
  pose proof (bits_lt y x (Z.log2 d) ltac:(done) (λ j Hj, eq_sym (Ha j Hj)) Ey Ex). lia.
Qed.
Lemma testbit_be_value l j : is_bytes l → (j < 8 * length l)%nat →
  Z.testbit (be_value l) (Z.of_nat (8 * length l - 1 - j)) = lbit l j.
Proof.
  intros Hl Hj. unfold be_value, lbit. rewrite testbit_from_le_bytes by (by apply is_bytes_reverse || lia).
  destruct (right_index (length l) (8 * length l - 1 - j)) as (E1 & E2 & E3); [lia|].
  replace (8 * length l - 1 - (8 * length l - 1 - j))%nat with j in * by lia.
  set (m := (8 * length l - 1 - j)%nat) in *. 
  rewrite Z2Nat.inj_div, Nat2Z.id by lia. change (Z.to_nat 8) with 8%nat.
  rewrite reverse_lookup by (apply Nat.Div0.div_lt_upper_bound; lia). rewrite E1.
  replace (length l - S (m / 8))%nat with (length l - 1 - m / 8)%nat by lia. f_equal. 
  rewrite E2, Nat2Z.inj_mod. done.
Qed.
Lemma cmp_stream a b : instr_wf a → instr_wf b → Instr.byte_len a = Instr.byte_len b →
  Instr.cmp a b = Lt ↔ slt (stream_of a) (stream_of b).
Proof.
  intros Ha Hb Hlen. destruct (bytes_wf _ Ha) as [Hba _], (bytes_wf _ Hb) as [Hbb _]. unfold Instr.cmp, Instr.byte_len in *.
  rewrite cmp_bytes_value, Z.compare_lt_iff by done. pose proof (be_value_is_u _ Hba) as Ua. pose proof (be_value_is_u _ Hbb) as Ub.
  rewrite <- Hlen in Ub. set (L := length (Instr.bytes a)) in *. split.
  - intros (k & Hk & Hag & H0 & H1)%lt_bits; [|apply Ua].
    destruct (Z_lt_dec k (8 * Z.of_nat L)) as [HkL|HkL];
      [|rewrite (testbit_u_high (8 * Z.of_nat L)) in H1 by (done || lia); done].
    assert (∀ j, (j < 8 * L)%nat → lbit (Instr.bytes a) j = Z.testbit (be_value (Instr.bytes a)) (Z.of_nat (8 * L - 1 - j))) as Ea
      by (intros j Hj; by rewrite testbit_be_value).
    assert (∀ j, (j < 8 * L)%nat → lbit (Instr.bytes b) j = Z.testbit (be_value (Instr.bytes b)) (Z.of_nat (8 * L - 1 - j))) as Eb
      by (intros j Hj; rewrite Hlen; rewrite testbit_be_value by (done || lia); done).
    exists (8 * L - 1 - Z.to_nat k)%nat. unfold stream_of. split; [intros j Hj; rewrite Ea, Eb by lia; apply Hag; lia|].
    rewrite Ea, Eb by lia. replace (Z.of_nat (8 * L - 1 - (8 * L - 1 - Z.to_nat k))) with k by lia. done.
  - intros (n & Hag & H0 & H1). unfold stream_of in *.
    assert (n < 8 * L)%nat as Hn by (destruct (decide (n < 8 * L)%nat); [done|]; rewrite lbit_ge in H1 by lia; done).
    apply (bits_lt _ _ (Z.of_nat (8 * L - 1 - n))); [lia| | |].
    + intros j Hj. destruct (Z_lt_dec j (8 * Z.of_nat L)) as [HjL|HjL];
        [|rewrite !(testbit_u_high (8 * Z.of_nat L)) by (done || lia); done].
      specialize (Hag (8 * L - 1 - Z.to_nat j)%nat ltac:(lia)).
      rewrite <- !testbit_be_value in Hag by (done || lia). fold L in Hag. rewrite <- Hlen in Hag.
      replace (Z.of_nat (8 * L - 1 - (8 * L - 1 - Z.to_nat j))) with j in Hag by lia. done.
    + unfold L. by rewrite testbit_be_value.
    + rewrite Hlen, testbit_be_value by (done || lia). done.
Qed.

Section ranges.
Context {P : profile}.
Context (x : Instruction) (Hx : instr_wf x).
Notation n := (Instr.bit_len x).

(** [x] with bit [i] from the right replaced by [b] and the bits right of it by [c]. *)
Lemma with_suffix_ok i (b c : bool) : (i < n)%nat → ∃ y r, Instr.with_nth_bit_from_right x i (Z.b2z b) = Ok y ∧
  Instr.with_rightmost_bits y i (Z.b2z c) = Ok r ∧ instr_wf r ∧ Instr.bit_len r = n ∧
  ∀ j, stream_of r j = if (j <? n - 1 - i)%nat then stream_of x j else if (j =? n - 1 - i)%nat then b
                       else if (j <? n)%nat then c else false.
Proof using Hx.
  intros Hi. unfold Instr.bit_len, Instr.byte_len in *. set (L := length (Instr.bytes x)) in *.
  destruct (bytes_wf _ Hx) as [Hb _]. pose proof (byte_len_wf _ Hx) as El. unfold Instr.byte_len in El. fold L in El.
  assert (∀ v : bool, Instr.is_bit (Z.b2z v) = true) as Hbit by (by intros []).
  destruct (with_nth_bit_from_left_ok x (8 * L - 1 - i) (Z.b2z b) Hx ltac:(lia) (Hbit b)) as (y & E & Hy & Ey).
  assert (length (Instr.bytes y) = L) as ELy by (rewrite Ey; apply length_insert).
  destruct (with_rightmost_bits_loop_ok (Z.b2z c) i y 0 Hy (Hbit c)) as (r & Er & Hr & Elr & Es); [lia|].
  exists y, r. rewrite with_nth_bit_from_right_left by (done || lia). split; [done|]. unfold Instr.with_rightmost_bits.
  rewrite Hbit. change (rassert true) with (Ok tt). rewrite M_bind_Ok. split; [done|]. split; [done|]. rewrite Elr, ELy.
  split; [done|]. intros j. unfold stream_of. destruct (decide (j < 8 * L)%nat) as [Hj|Hj].
  - specialize (Es (8 * L - 1 - j)%nat ltac:(lia)). rewrite !nth_bit_from_right_left in Es by lia. rewrite Elr, ELy in Es.
    replace (8 * L - 1 - (8 * L - 1 - j))%nat with j in Es by lia. rewrite !nth_bit_from_left_lbit in Es by lia.
    rewrite Ey, lbit_set in Es by (done || lia). revert Es. case_cmps; intros Es; injection Es; clear;
      repeat match goal with |- context [lbit ?l ?k] => destruct (lbit l k) end; try destruct b; try destruct c; done.
  - rewrite lbit_ge by lia. case_cmps; done.
Qed.

(** The filters that the loops insert. *)
Fixpoint filter_all (fs : list InstructionFilter) (self : FilterTree) : M FilterTree :=
  match fs with [] => Ok self | f :: fs => self ← filter self f; filter_all fs self end.
(** The bit string agrees with [x] up to bit [i] from the right, where it has [b]
    and [x] has the other value. *)
Definition leaves_at (i : nat) (b : bool) (s : stream) : Prop :=
  (∀ j, (j < n - 1 - i)%nat → s j = stream_of x j) ∧ s (n - 1 - i)%nat = b ∧ stream_of x (n - 1 - i)%nat = negb b.

Lemma suffix_filter_leaves i b r : (i < n)%nat → instr_wf r → Instr.bit_len r = n →
  (∀ j, stream_of r j = if (j <? n - 1 - i)%nat then stream_of x j else if (j =? n - 1 - i)%nat then b else false) →
  stream_of x (n - 1 - i)%nat = negb b →
  ∃ f, suffix_filter r i = Ok f ∧ Filter.bit_len f = n ∧ ∀ s, bmatch (filter_bits f) s = true ↔ leaves_at i b s.
Proof.
  intros Hi Hr El Es Ex. destruct (suffix_filter_ok r i Hr) as (f & Ef & Elf & Hf);
    [lia | rewrite El; intros j Hj; rewrite Es; by case_cmps|].
  exists f. split; [done|]. split; [by rewrite Elf, El|]. intros s. rewrite Hf, El. unfold leaves_at. split.
  - intros H. split; [intros j Hj; rewrite H, Es by lia; by case_cmps|]. split; [|done]. rewrite H, Es by lia. by case_cmps.
  - intros (H1 & H2 & _) j Hj. rewrite Es. case_cmps; [by apply H1|congruence].
Qed.

(** The bit strings that leave [x] at one of the bits [i .. i + count]. *)
Definition leaves_in (i count : nat) (b : bool) (s : stream) : Prop :=
  ∃ k, (i <= k < i + count)%nat ∧ leaves_at k b s.
Lemma leaves_in_cons i count b f fs : (∀ s, bmatch (filter_bits f) s = true ↔ leaves_at i b s) →
  (∀ s, any_match fs s = true ↔ leaves_in (i + 1) count b s) →
  ∀ s, any_match (f :: fs) s = true ↔ leaves_in i (S count) b s.
Proof.
  intros Hf Hfs s. cbn [any_match existsb]. unfold any_match in Hfs. rewrite orb_true_iff, Hf, Hfs. split.
  - intros [H|(k & Hk & H)]; [exists i; split; [lia|done]|exists k; split; [lia|done]].
  - intros (k & Hk & H). destruct (decide (k = i)) as [->|]; [by left|]. right. exists k. split; [lia|done].
Qed.
Lemma leaves_in_skip i count b fs : stream_of x (n - 1 - i)%nat = b →
  (∀ s, any_match fs s = true ↔ leaves_in (i + 1) count b s) →
  ∀ s, any_match fs s = true ↔ leaves_in i (S count) b s.
Proof.
  intros Eb Hfs s. rewrite Hfs. split; [intros (k & Hk & H); exists k; split; [lia|done]|].
  intros (k & Hk & H). destruct (decide (k = i)) as [->|]; [|exists k; split; [lia|done]].
  destruct H as (_ & _ & H). rewrite Eb in H. by destruct b.
Qed.

Definition range_result (loop : FilterTree → M FilterTree) (i count : nat) (b : bool) : Prop :=
  ∃ fs, (∀ T, loop T = filter_all fs T) ∧ (Forall (λ f, Filter.bit_len f = n) fs ∧ (length fs <= count)%nat) ∧
    ∀ s, any_match fs s = true ↔ leaves_in i count b s.
Lemma range_result_nil i b loop : (∀ T, loop T = Ok T) → range_result loop i 0 b.
Proof.
  intros H. exists []. split; [done|]. split; [by split; [constructor|]|]. intros s. split; [done|]. intros (k & Hk & _). lia.
Qed.

Lemma filter_below_loop_ok count : ∀ i, (i + count <= n)%nat →
  range_result (λ T, filter_below_loop count T x i) i count false.
Proof using Hx.
  induction count as [|count IH]; intros i Hi; [by apply range_result_nil|].
  destruct (IH (i + 1)%nat ltac:(lia)) as (fs & Hloop & [Hlen Hcount] & Hfs).
  destruct (with_suffix_ok i false false ltac:(lia)) as (y0 & r0 & E0 & Er0 & Hr0 & El0 & Es0).
  destruct (with_suffix_ok i false true ltac:(lia)) as (y1 & r1 & E1 & Er1 & Hr1 & El1 & Es1).
  assert (y1 = y0) as -> by congruence. cbn [Z.b2z] in *.
  assert (Instr.cmp r1 x = Lt ↔ stream_of x (n - 1 - i)%nat = true) as Hcmp.
  { rewrite cmp_stream by (done || unfold Instr.bit_len in *; lia). split.
    - intros (m & Hag & Hm0 & H1). rewrite Es1 in Hm0. revert Hm0. case_cmps; intros Hm0; try congruence.
      unfold stream_of in H1. rewrite lbit_ge in H1; [done|]. unfold Instr.bit_len, Instr.byte_len in *. lia.
    - intros Hb. exists (n - 1 - i)%nat. rewrite Es1. split; [|case_cmps; done]. intros j Hj. rewrite Es1. by case_cmps. }
  destruct (stream_of x (n - 1 - i)%nat) eqn:Eb.
  - destruct (suffix_filter_leaves i false r0) as (f & Ef & Elf & Hf); [lia|done|done|intros j; rewrite Es0; by case_cmps|done|].
    exists (f :: fs). split; [|split; [split; [by constructor | cbn; lia]|by apply leaves_in_cons]].
    intros T. cbn [filter_below_loop]. rewrite E0, M_bind_Ok, Er0, M_bind_Ok, M_bind_Ok, Er1, M_bind_Ok by done.
    rewrite (proj2 Hcmp eq_refl), Ef, M_bind_Ok. cbn [filter_all]. apply M_bind_ext. apply Hloop.
  - exists fs. split; [|split; [split; [done | lia]|by apply leaves_in_skip]].
    intros T. cbn [filter_below_loop]. rewrite E0, M_bind_Ok, Er0, M_bind_Ok, M_bind_Ok, Er1, M_bind_Ok by done.
    destruct (Instr.cmp r1 x); [|by destruct Hcmp as [Hc _]; specialize (Hc eq_refl)|]; rewrite M_bind_Ok; apply Hloop.
Qed.
Lemma filter_above_loop_ok count : ∀ i, (i + count <= n)%nat →
  range_result (λ T, filter_above_loop count T x i) i count true.
Proof using Hx.
  induction count as [|count IH]; intros i Hi; [by apply range_result_nil|].
  destruct (IH (i + 1)%nat ltac:(lia)) as (fs & Hloop & [Hlen Hcount] & Hfs).
  destruct (with_suffix_ok i true false ltac:(lia)) as (y0 & r0 & E0 & Er0 & Hr0 & El0 & Es0). cbn [Z.b2z] in *.
  assert (Instr.cmp r0 x = Gt ↔ stream_of x (n - 1 - i)%nat = false) as Hcmp.
  { assert (Instr.cmp r0 x = Gt ↔ Instr.cmp x r0 = Lt) as ->.
    { unfold Instr.cmp. rewrite (cmp_bytes_antisym (Instr.bytes r0)). by destruct (Instr.cmp_bytes _ _). }
    rewrite cmp_stream by (done || unfold Instr.bit_len in *; lia). split.
    - intros (m & Hag & H0 & Hm1). rewrite Es0 in Hm1. revert Hm1. case_cmps; intros Hm1; try congruence.
    - intros Hb. exists (n - 1 - i)%nat. rewrite Es0. split; [|case_cmps; done]. intros j Hj. rewrite Es0. by case_cmps. }
  destruct (stream_of x (n - 1 - i)%nat) eqn:Eb.
  - exists fs. split; [|split; [split; [done | lia]|by apply leaves_in_skip]].
    intros T. cbn [filter_above_loop]. rewrite E0, M_bind_Ok, Er0, M_bind_Ok by done.
    destruct (Instr.cmp r0 x); [..|by destruct Hcmp as [Hc _]; specialize (Hc eq_refl)]; rewrite M_bind_Ok; apply Hloop.
  - destruct (suffix_filter_leaves i true r0) as (f & Ef & Elf & Hf); [lia|done|done|intros j; rewrite Es0; by case_cmps|done|].
    exists (f :: fs). split; [|split; [split; [by constructor | cbn; lia]|by apply leaves_in_cons]].
    intros T. cbn [filter_above_loop]. rewrite E0, M_bind_Ok, Er0, M_bind_Ok by done.
    rewrite (proj2 Hcmp eq_refl), Ef, M_bind_Ok. cbn [filter_all]. apply M_bind_ext. apply Hloop.
Qed.
End ranges.

(** A bit string whose first difference to [x] is a one, among the bits of [x]. *)
Definition above (x : Instruction) (s : stream) : Prop :=
  ∃ m, (m < Instr.bit_len x)%nat ∧ (∀ j, (j < m)%nat → s j = stream_of x j) ∧ stream_of x m = false ∧ s m = true.
Lemma stream_bit_lt x m : stream_of x m = true → (m < Instr.bit_len x)%nat.
Proof.
  intros H. destruct (decide (m < Instr.bit_len x)%nat); [done|]. unfold stream_of in H. rewrite lbit_ge in H; [done|].
  unfold Instr.bit_len, Instr.byte_len in *. lia.
Qed.
Lemma leaves_in_iff x b s : leaves_in x 0 (Instr.bit_len x) b s ↔
  ∃ m, (m < Instr.bit_len x)%nat ∧ (∀ j, (j < m)%nat → s j = stream_of x j) ∧ s m = b ∧ stream_of x m = negb b.
Proof.
  split; [intros (k & Hk & H); exists (Instr.bit_len x - 1 - k)%nat; split; [lia | exact H]|].
  intros (m & Hm & H). exists (Instr.bit_len x - 1 - m)%nat. split; [lia|]. unfold leaves_at.
  by replace (Instr.bit_len x - 1 - (Instr.bit_len x - 1 - m))%nat with m by lia.
Qed.
Lemma filter_below_ok {P : profile} x : instr_wf x → ∃ fs, (∀ T, filter_below T x = filter_all fs T) ∧
  (Forall (λ f, Filter.bit_len f = Instr.bit_len x) fs ∧ (length fs <= Instr.bit_len x)%nat) ∧
  ∀ s, any_match fs s = true ↔ slt s (stream_of x).
Proof.
  intros Hx. destruct (filter_below_loop_ok x Hx (Instr.bit_len x) 0) as (fs & Hb & Lb & Sb); [lia|].
  exists fs. split; [exact Hb|]. split; [done|]. intros s. rewrite Sb, leaves_in_iff. split.
  - intros (m & _ & Hag & H0 & H1). by exists m.
  - intros (m & Hag & H0 & H1). exists m. by split; [apply stream_bit_lt|].
Qed.
Lemma filter_above_ok {P : profile} x : instr_wf x → ∃ fs, (∀ T, filter_above T x = filter_all fs T) ∧
  (Forall (λ f, Filter.bit_len f = Instr.bit_len x) fs ∧ (length fs <= Instr.bit_len x)%nat) ∧
  ∀ s, any_match fs s = true ↔ above x s.
Proof.
  intros Hx. destruct (filter_above_loop_ok x Hx (Instr.bit_len x) 0) as (fs & Ha & La & Sa); [lia|].
  exists fs. split; [exact Ha|]. split; [done|]. intros s. rewrite Sa, leaves_in_iff. unfold above. cbn [negb]. split;
    intros (m & Hm & Hag & H0 & H1); by exists m.
Qed.

(** [filter_below] and [filter_above] insert filters that together match exactly
    the bit strings below, respectively above, the instruction: those whose first
    difference to it (among its bits) is a zero, respectively a one. *)
Theorem filter_ranges {P : profile} x : instr_wf x → ∃ below above,
  (∀ T, filter_below T x = filter_all below T) ∧ (∀ T, filter_above T x = filter_all above T) ∧
  Forall (λ f, Filter.bit_len f = Instr.bit_len x) (below ++ above) ∧
  (∀ s, any_match below s = true ↔ slt s (stream_of x)) ∧
  (∀ y, instr_wf y → Instr.byte_len y = Instr.byte_len x → any_match above (stream_of y) = true ↔ slt (stream_of x) (stream_of y)).
Proof.
  intros Hx. destruct (filter_below_ok x Hx) as (fb & Hb & [Lb _] & Sb), (filter_above_ok x Hx) as (fa & Ha & [La _] & Sa).
  exists fb, fa. split; [exact Hb|]. split; [exact Ha|]. split; [by apply Forall_app|]. split; [done|].
  intros y Hy Hlen. rewrite Sa. split.
  - intros (m & Hm & Hag & H0 & H1). exists m. split; [intros j Hj; symmetry; by apply Hag | done].
  - intros (m & Hag & H0 & H1). exists m. split; [|split; [intros j Hj; symmetry; by apply Hag | done]].
    unfold Instr.bit_len. rewrite <- Hlen. by apply stream_bit_lt.
Qed.

(** ** [count_nodes] and [len] *)

Fixpoint nodes (t : tree) : nat :=
  match t with TEnum | TSkip => 1 | TBranch a b => S (nodes a + nodes b) | TIgnore t => S (nodes t) end.
Lemma nodes_size t : (nodes t <= 2 * size t + 1)%nat.
Proof. induction t; cbn; lia. Qed.
Lemma nodes_pos t : (0 < nodes t)%nat.
Proof. destruct t; cbn; lia. Qed.
Fixpoint total (ts : list tree) : nat := match ts with [] => 0 | t :: ts => nodes t + total ts end.
Lemma count_loop_ok T fuel : ∀ q ts count, Forall2 (λ i t, ∃ fp, rep (entries T) t i fp) q ts →
  (total ts <= fuel)%nat → count_loop fuel T q count = Ok (count + total ts)%nat.
Proof.
  induction fuel as [|fuel IH]; intros q ts count Hq Hf.
  - destruct Hq as [|i t q ts]; [cbn; f_equal; lia|]. cbn [total] in Hf. pose proof (nodes_pos t). lia.
  - destruct Hq as [|i t q ts (fp & Hr) Hq]; cbn [count_loop]; [f_equal; cbn; lia|].
    cbn [total] in *.
    destruct Hr as [| |k i0 i1 a b fa fb Hk Ha Hb|k i t fp Hk Ht]; cbn [nodes] in *.
    1,2: rewrite (IH q ts) by (done || lia); f_equal; lia.
    + rewrite (proj2 (vget_Ok_inv _ _ _) Hk), M_bind_Ok, (IH _ (b :: a :: ts)).
      * cbn [total]. f_equal. lia.
      * constructor; [by exists fb|]. constructor; [by exists fa|done].
      * cbn [total]. lia.
    + rewrite (proj2 (vget_Ok_inv _ _ _) Hk), M_bind_Ok, (IH _ (t :: ts)).
      * cbn [total]. f_equal. lia.
      * constructor; [by exists fp|done].
      * cbn [total]. lia.
Qed.
(** [len] is the number of nodes of the tree, the arena holds no others;
    [count_nodes] ends and counts the leaves as well. *)
Theorem node_counts T t : tree_wf T t → len T = size t ∧ count_nodes T = Ok (nodes t).
Proof.
  intros (fp & Hr & Ha). pose proof (rep_length _ _ _ _ Hr) as Hs.
  apply arena_permutation, Permutation_length in Ha. rewrite length_app, length_seq in Ha. unfold len. split; [lia|].
  unfold count_nodes. rewrite (count_loop_ok T _ _ [t]); [cbn; f_equal; lia | by constructor; [exists fp|] |].
  cbn. pose proof (nodes_size t). lia.
Qed.

(** ** Equality of trees *)

#[export] Instance tree_eq_dec : EqDecision tree.
Proof. solve_decision. Defined.
Lemma other_tree_eq_ok fuel T T' : ∀ t t' i i' fp fp', rep (entries T) t i fp → rep (entries T') t' i' fp' →
  (depth t <= fuel)%nat → other_tree_eq fuel T T' i i' = Ok (bool_decide (t = t')).
Proof.
  induction fuel as [|fuel IH]; intros t t' i i' fp fp' Hr Hr' Hd; destruct Hr as [| |k i0 i1 a b fa fb Hk Ha Hb|k i t fp Hk Ht];
    cbn [depth] in Hd; try lia; destruct Hr' as [| |k' i0' i1' a' b' fa' fb' Hk' Ha' Hb'|k' i' t' fp' Hk' Ht']; try done;
    cbn [other_tree_eq]; rewrite (proj2 (vget_Ok_inv _ _ _) Hk), M_bind_Ok; try done;
    rewrite (proj2 (vget_Ok_inv _ _ _) Hk'), M_bind_Ok; try done.
  - rewrite (IH a a' i0 i0' fa fa') by (done || lia). rewrite M_bind_Ok. case_bool_decide as E1.
    + rewrite (IH b b' i1 i1' fb fb') by (done || lia). f_equal. apply bool_decide_ext. naive_solver.
    + rewrite bool_decide_eq_false_2 by naive_solver. done.
  - rewrite (IH t t' i i' fp fp') by (done || lia). f_equal. apply bool_decide_ext. naive_solver.
Qed.
(** Trees are compared by their shape, wherever their nodes are in the arenas. *)
Theorem tree_eq_spec T T' t t' : tree_wf T t → tree_wf T' t' →
  other_tree_eq (length (entries T)) T T' (Index 0) (Index 0) = Ok (bool_decide (t = t')).
Proof.
  intros (fp & Hr & Ha) (fp' & Hr' & Ha'). eapply other_tree_eq_ok; [done..|]. eapply rep_depth; [done|by rewrite app_nil_r].
Qed.

(** ** Concrete trees *)

Lemma tree_eq_spec_witness : other_tree_eq 1 new new (Index 0) (Index 0) = Ok true.
Proof. exact (tree_eq_spec new new (TIgnore TEnum) (TIgnore TEnum) new_tree_wf new_tree_wf). Defined.

Lemma find_next_least_witness : ∃ T, filter (P := Dev) new example_tree_filter = Ok T ∧
  find_next T (example_instr [0x0c; 0x1b]) = Ok (Some (example_instr [0x0c; 0x1c])).
Proof.
  destruct (filter_ok (P := Dev) new (TIgnore TEnum) example_tree_filter) as (T & t & E & Hwf & _ & Hd & _);
    [apply new_tree_wf | vm_compute; lia | vm_compute; discriminate|].
  destruct (find_next_least T t (example_instr [0x0c; 0x1b]) Hwf) as [[Hp Hdeep]|(r & Hr & _)];
    [example_wf | apply Nat.lt_nge in Hdeep; destruct Hdeep; etransitivity; [exact Hd|vm_compute; lia] |].
  exists T. split; [exact E|]. rewrite Hr. vm_compute in E. injection E as <-. vm_compute in Hr. injection Hr as <-. reflexivity.
Defined.
Lemma find_next_panics_at_15_bytes_witness :
  find_next_internal 1 new (Index 0) 112 (example_instr (replicate 14 0)) = Panic.
Proof. apply find_next_panics_at_15_bytes; [reflexivity | example_wf | reflexivity]. Defined.
Lemma covers_sound_witness : ∃ T, filter (P := Dev) new example_tree_filter = Ok T ∧
  covers T {| bfs := [{| mask := 0xff; value := 0x0c |}; {| mask := 0xfc; value := 0x18 |}] |} = Ok true.
Proof.
  destruct (filter_ok (P := Dev) new (TIgnore TEnum) example_tree_filter) as (T & t & E & Hwf & _);
    [apply new_tree_wf | vm_compute; lia | vm_compute; discriminate|].
  destruct (covers_sound T t {| bfs := [{| mask := 0xff; value := 0x0c |}; {| mask := 0xfc; value := 0x18 |}] |} Hwf)
    as (r & l & Hr & _); [vm_compute; lia|].
  exists T. split; [exact E|]. rewrite Hr. vm_compute in E. injection E as <-. vm_compute in Hr. injection Hr as <-. reflexivity.
Defined.
Lemma filter_ranges_witness : ∃ below above, (∀ T, filter_below (P := Dev) T (example_instr [0x03]) = filter_all (P := Dev) below T) ∧
  any_match below (stream_of (example_instr [0x02])) = true ∧ any_match above (stream_of (example_instr [0x04])) = true.
Proof.
  destruct (filter_ranges (P := Dev) (example_instr [0x03])) as (below & above & Hb & _ & _ & Sb & Sa); [example_wf|].
  exists below, above. split; [exact Hb|]. split.
  - apply Sb. exists 7%nat. split; [|done]. intros j Hj. do 7 (destruct j as [|j]; [done|]). lia.
  - apply Sa; [example_wf | done |]. exists 5%nat. split; [|done]. intros j Hj. do 5 (destruct j as [|j]; [done|]). lia.
Defined.
Lemma node_counts_witness : len new = 1%nat ∧ count_nodes new = Ok 2%nat.
Proof. apply (node_counts new (TIgnore TEnum) new_tree_wf). Defined.
