(* ===== verification/FilterSets.v ===== *)
(** * Lists and maps of filters

    Models [liblisa/src/instr/set.rs] ([FilterList]: a list of filters that merges
    what is added to it) and [liblisa/src/instr/map.rs] ([FilterMap]: filters with
    data, indexed by the length of the filter and by the first byte of the
    instruction).  A list stands for the union of its filters, and a map for the
    list of the entries that were added to it. *)
From S2P Require Import Prelude MachInt Utils Instruction InstructionFacts Filter FilterFacts MergeFacts NextMatching.

(** ** Lists *)

Record FilterList := { filters : list InstructionFilter }.

Module FList.
Definition new : FilterList := {| filters := [] |}.
Definition len (self : FilterList) : nat := length (filters self).
Definition is_empty (self : FilterList) : bool := (length (filters self) =? 0)%nat.

Section ops.
Context {P : profile}.

(** The first loop of [add] replaces filters of the list by their union with the new
    one, the second the new filter by its union with filters of the list. *)
Definition absorb (f filter : InstructionFilter) : M InstructionFilter :=
  r ← Filter.try_merge f filter;
  match r with
  | Some new => if Filter.covers new f then Ok new else Ok f
  | None => Ok f
  end.
Fixpoint merge_into (filter : InstructionFilter) (l : list InstructionFilter) : M InstructionFilter :=
  match l with
  | [] => Ok filter
  | f :: l => filter ← absorb filter f; merge_into filter l
  end.
Definition add (self : FilterList) (filter : InstructionFilter) : M FilterList :=
  if existsb (λ f, Filter.covers f filter || bool_decide (f = filter)) (filters self) then Ok self
  else
    l ← mapM (λ f, absorb f filter) (filters self);
    filter ← merge_into filter l;
    Ok {| filters := List.filter (λ f, negb (Filter.covers filter f)) l ++ [filter] |}.
End ops.
Definition add_nomerge (self : FilterList) (filter : InstructionFilter) : FilterList :=
  if negb (existsb (λ f, Filter.covers f filter) (filters self)) then {| filters := filters self ++ [filter] |} else self.
Definition should_extend (self : FilterList) (instr : Instruction) : bool :=
  existsb (λ f, (Instr.byte_len instr <? Filter.len f)%nat && Filter.matches_smaller_instr_partially f instr) (filters self).
Definition matching_filter (self : FilterList) (instr : Instruction) : option InstructionFilter :=
  List.find (λ f, Filter.matches f instr && forallb (λ bf, mask bf =? 0) (drop (Instr.byte_len instr) (bfs f)))
    (reverse (filters self)).
Fixpoint next_loop (l : list InstructionFilter) (instr : Instruction) (next : option Instruction) : M (option Instruction) :=
  match l with
  | [] => Ok next
  | filter :: l =>
      r ← Filter.next_matching_instruction filter instr;
      next_loop l instr
        match r with
        | Some nmi =>
            match next with
            | Some n => match Instr.cmp nmi n with Lt => Some nmi | _ => next end
            | None => Some nmi
            end
        | None => next
        end
  end.
Definition next_matching_instruction (self : FilterList) (instr : Instruction) : M (option Instruction) :=
  next_loop (filters self) instr None.
End FList.

(** ** Maps *)

(** [[FilterGroup<T>; 16]], each [[Vec<(InstructionFilter, T)>; 256]]. *)
Record FilterGroup (T : Type) := { group : list (list (InstructionFilter * T)) }.
Arguments group {T} _.
Record FilterMap (T : Type) := { groups : list (FilterGroup T) }.
Arguments groups {T} _.

Module FMap.
Section map.
Context {T : Type}.
Definition new_group : FilterGroup T := {| group := replicate 256 [] |}.
Definition new : FilterMap T := {| groups := replicate 16 new_group |}.
(** [self.filters[len].filters[index].push(entry)]. *)
Definition push (self : FilterMap T) (len index : nat) (entry : InstructionFilter * T) : M (FilterMap T) :=
  g ← vget (groups self) len;
  l ← vget (group g) index;
  l ← vset (group g) index (l ++ [entry]);
  gs ← vset (groups self) len {| group := l |};
  Ok {| groups := gs |}.
(** [for index in 0..256], with [count] iterations left. *)
Fixpoint add_each (count : nat) (self : FilterMap T) (b : ByteFilter) (entry : InstructionFilter * T) (index : nat) : M (FilterMap T) :=
  match count with
  | O => Ok self
  | S count =>
      self ← (if BF.matches b (Z.of_nat index) then push self (Filter.len (fst entry)) index entry else Ok self);
      add_each count self b entry (index + 1)
  end.
Definition add (self : FilterMap T) (filter : InstructionFilter) (data : T) : M (FilterMap T) :=
  b ← vget (bfs filter) 0;
  match BF.as_value b with
  | Some index => push self (Filter.len filter) (Z.to_nat index) (filter, data)
  | None => add_each 256 self b (filter, data) 0
  end.
Fixpoint first_match (l : list (InstructionFilter * T)) (instruction : Instruction) : option T :=
  match l with
  | [] => None
  | (filter, data) :: l => if Filter.matches filter instruction then Some data else first_match l instruction
  end.
Definition filters (self : FilterMap T) (instruction : Instruction) : M (option T) :=
  g ← vget (groups self) (Instr.byte_len instruction);
  b ← vget (Instr.bytes instruction) 0;
  l ← vget (group g) (Z.to_nat b);
  Ok (first_match l instruction).
End map.
End FMap.

(** ** The set that a list stands for *)

Definition list_wf (l : list InstructionFilter) : Prop := Forall filter_wf l.
Definition in_list (l : list InstructionFilter) (i : Instruction) : Prop := ∃ f, f ∈ l ∧ Filter.matches f i = true.
(** The instructions for which sets of filters are compared: none of the filters is
    longer. *)
Definition long_for (l : list InstructionFilter) (i : Instruction) : Prop :=
  instr_wf i ∧ Forall (λ f, Filter.len f <= Instr.byte_len i)%nat l.

Section list.
Context {P : profile}.

(** [r] is [f] or the union of [f] and [g]. *)
Record absorbed (f g r : InstructionFilter) : Prop := {
  absorbed_wf : filter_wf r;
  absorbed_len : Filter.len r = Filter.len f;
  absorbed_up : ∀ i, instr_wf i → Filter.matches f i = true → Filter.matches r i = true;
  absorbed_down : ∀ i, instr_wf i → (Filter.len f <= Instr.byte_len i)%nat → Filter.matches r i = true →
    Filter.matches f i = true ∨ Filter.matches g i = true }.
Lemma absorb_ok f g : filter_wf f → filter_wf g → ∃ r, FList.absorb f g = Ok r ∧ absorbed f g r.
Proof.
  intros Hf Hg. unfold FList.absorb. destruct (try_merge_result f g Hf Hg) as (r & -> & Hr). rewrite M_bind_Ok.
  assert (absorbed f g f) as Hid by (split; auto). destruct r as [m|]; [|by exists f].
  destruct (Filter.covers m f); [|by exists f]. exists m. split; [done|]. destruct Hr as [Hw Hl _ Hup Hdn].
  split; [done|done|auto|]. intros i Hi Hlen. apply Hdn; [done|lia].
Qed.
Lemma merge_into_ok l : list_wf l → ∀ f, filter_wf f → ∃ r, FList.merge_into f l = Ok r ∧ filter_wf r ∧
  Filter.len r = Filter.len f ∧ (∀ i, instr_wf i → Filter.matches f i = true → Filter.matches r i = true) ∧
  (∀ i, instr_wf i → (Filter.len f <= Instr.byte_len i)%nat → Filter.matches r i = true → Filter.matches f i = true ∨ in_list l i).
Proof.
  induction 1 as [|g l Hg Hl IH]; intros f Hf; cbn [FList.merge_into]; [exists f; by repeat (split; [by auto|]); auto|].
  destruct (absorb_ok f g Hf Hg) as (r & -> & [Hw Hlen Hup Hdn]). rewrite M_bind_Ok.
  destruct (IH r Hw) as (r' & -> & Hw' & Hlen' & Hup' & Hdn'). exists r'. split; [done|]. split; [done|]. split; [congruence|].
  split; [auto|]. intros i Hi Hle [H|(h & Hin & H)]%Hdn'; [|right; exists h; split; [by right|done]|done|lia].
  destruct (Hdn i Hi Hle H) as [?|?]; [by left|]. right. exists g. split; [left|done].
Qed.

Lemma absorb_all_ok l g : list_wf l → filter_wf g → ∃ l', mapM (λ f, FList.absorb f g) l = Ok l' ∧ list_wf l' ∧
  Filter.len <$> l' = Filter.len <$> l ∧ ∀ i, long_for l i → (in_list l' i → in_list l i ∨ Filter.matches g i = true) ∧
    (in_list l i → in_list l' i).
Proof.
  intros Hl Hg. induction Hl as [|f l Hf Hl (l' & IH1 & IH2 & IH3 & IH4)]; cbn [mapM].
  - exists []. split; [done|]. split; [constructor|]. split; [done|]. intros i _. split; [by left|done].
  - destruct (absorb_ok f g Hf Hg) as (r & -> & [Hw Hlen Hup Hdn]). rewrite M_bind_Ok, IH1, M_bind_Ok.
    exists (r :: l'). split; [done|]. split; [by constructor|]. split; [by rewrite !fmap_cons, Hlen, IH3|].
    intros i [Hi [Hlf Hll]%Forall_cons]. destruct (IH4 i) as [IHdn IHup]; [by split|]. split.
    + intros (h & [->|Hin]%elem_of_cons & Hm).
      * destruct (Hdn i Hi Hlf Hm) as [?|?]; [left; exists f; split; [left|done] | by right].
      * destruct IHdn as [(h' & ? & ?)|?]; [by exists h | left; exists h'; split; [by right|done] | by right].
    + intros (h & [->|Hin]%elem_of_cons & Hm); [exists r; split; [left|by apply Hup]|].
      destruct IHup as (h' & ? & ?); [by exists h|]. exists h'. split; [by right|done].
Qed.

(** Adding a filter to a list succeeds, keeps the filters well formed, and the
    list then matches exactly the instructions that it or the filter matched before
    (among the instructions that are not shorter than one of the filters). *)
Theorem filter_list_add l f : list_wf (filters l) → filter_wf f → ∃ l', FList.add l f = Ok l' ∧ list_wf (filters l') ∧
  ∀ i, long_for (f :: filters l) i → in_list (filters l') i ↔ in_list (filters l) i ∨ Filter.matches f i = true.
Proof.
  intros Hl Hf. unfold FList.add. destruct (existsb _ _) eqn:Ex.
  - exists l. split; [done|]. split; [done|]. intros i [Hi _]. split; [by left|]. intros [H|H]; [done|].
    apply existsb_exists in Ex as (g & Hin & Hc). apply list_elem_of_In in Hin. exists g. split; [done|].
    apply orb_true_iff in Hc as [Hc|Hc%bool_decide_eq_true]; [|by subst].
    apply (filter_covers_sound g f); [by eapply Forall_forall in Hin|done..].
  - clear Ex. destruct (absorb_all_ok (filters l) f Hl Hf) as (l' & -> & Hl' & Elen & Hset). rewrite M_bind_Ok.
    destruct (merge_into_ok l' Hl' f Hf) as (r & -> & Hr & Elr & Hup & Hdn). rewrite M_bind_Ok. eexists. split; [done|].
    cbn [filters]. split; [apply Forall_app; split; [|by constructor]; apply Forall_forall; intros g (Hg & _)%list_elem_of_In%filter_In;
      apply list_elem_of_In in Hg; by eapply Forall_forall in Hg|].
    intros i [Hi [Hlf Hll]%Forall_cons]. destruct (Hset i) as [Hset1 Hset2]; [by split|].
    split.
    + intros (g & [Hin|Hin]%elem_of_app & Hm).
      * apply list_elem_of_In, filter_In in Hin as [Hin _]. apply Hset1. exists g. split; [by apply list_elem_of_In|done].
      * apply list_elem_of_singleton in Hin as ->. destruct (Hdn i Hi Hlf Hm) as [?|?]; [by right|by apply Hset1].
    + assert (∀ g, g ∈ l' → Filter.matches g i = true → in_list (List.filter (λ f0, negb (Filter.covers r f0)) l' ++ [r]) i) as Hkeep.
      { intros g Hin Hm. destruct (Filter.covers r g) eqn:Ec.
        - exists r. split; [apply elem_of_app; right; left|]. apply (filter_covers_sound r g); [done| |done..].
          by eapply Forall_forall in Hin.
        - exists g. split; [|done]. apply elem_of_app. left. apply list_elem_of_In, filter_In.
          split; [by apply list_elem_of_In|]. by rewrite Ec. }
      intros [H|H]; [destruct (Hset2 H) as (g & Hin & Hm); by apply (Hkeep g)|].
      exists r. split; [apply elem_of_app; right; left|]. by apply Hup.
Qed.
End list.

(** ** Queries of lists *)

Lemma matches_no_more f i : Filter.matches f i = true → forallb (λ bf, mask bf =? 0) (drop (Instr.byte_len i) (bfs f)) = true.
Proof.
  unfold Filter.matches. rewrite matches_bytes_iff. intros H. apply forallb_forall. intros bf Hin.
  apply list_elem_of_In, list_elem_of_lookup in Hin as [k Hk]. rewrite lookup_drop in Hk. specialize (H _ _ Hk).
  unfold Instr.byte_len in H. rewrite lookup_ge_None_2 in H by lia. exact H.
Qed.
(** [matching_filter] returns the last filter of the list that matches; its second
    test never decides. *)
Theorem matching_filter_spec l i : FList.matching_filter l i = List.find (λ f, Filter.matches f i) (reverse (filters l)) ∧
  (FList.matching_filter l i = None ↔ ¬ in_list (filters l) i) ∧
  ∀ f, FList.matching_filter l i = Some f → ∃ a b, filters l = a ++ f :: b ∧ Filter.matches f i = true ∧ ¬ in_list b i.
Proof.
  assert (FList.matching_filter l i = List.find (λ f, Filter.matches f i) (reverse (filters l))) as E.
  { unfold FList.matching_filter. induction (reverse (filters l)) as [|f k IH]; [done|]. cbn [List.find].
    rewrite IH. destruct (Filter.matches f i) eqn:Em; [|done]. by rewrite matches_no_more. }
  split; [done|]. rewrite E. clear E. split.
  - split.
    + intros H (f & Hin & Hm). eapply find_none in H; [|apply list_elem_of_In; by apply elem_of_reverse]. by rewrite Hm in H.
    + intros H. destruct (List.find _ _) as [f|] eqn:Ef; [|done]. apply find_some in Ef as [Hin Hm]. destruct H. exists f.
      split; [|done]. apply elem_of_reverse. by apply list_elem_of_In.
  - intros f Hf. rewrite <- (reverse_involutive (filters l)). revert Hf. generalize (reverse (filters l)). intros k.
    induction k as [|g k IH]; cbn [List.find]; [done|]. destruct (Filter.matches g i) eqn:Em.
    + intros [= ->]. exists (reverse k), []. split; [by rewrite reverse_cons|]. split; [done|]. by intros (? & ?%not_elem_of_nil & _).
    + intros (a & b & Ek & Hm & Hb)%IH. exists a, (b ++ [g]). rewrite reverse_cons, Ek, <- app_assoc. split; [done|].
      split; [done|]. intros (h & [Hh| ->%list_elem_of_singleton]%elem_of_app & Hmh); [apply Hb; by exists h | congruence].
Qed.

(** [should_extend] holds exactly if some filter is longer than the instruction and
    matches a completion of it to its length. *)
Theorem should_extend_spec l i : list_wf (filters l) → Forall (λ f, Filter.len f <= 15)%nat (filters l) → instr_wf i →
  FList.should_extend l i = true ↔ ∃ f y, f ∈ filters l ∧ (Instr.byte_len i < Filter.len f)%nat ∧ instr_wf y ∧
    Instr.bytes i `prefix_of` Instr.bytes y ∧ Instr.byte_len y = Filter.len f ∧ Filter.matches f y = true.
Proof.
  intros Hl Hlen Hi. unfold FList.should_extend. rewrite existsb_exists. split.
  - intros (f & Hin%list_elem_of_In & [H1%Nat.ltb_lt H2]%andb_true_iff).
    assert (filter_wf f) as Hf by (by eapply Forall_forall in Hin).
    assert (Filter.len f <= 15)%nat as Hlf by (eapply Forall_forall in Hlen; done).
    unfold Filter.matches_smaller_instr_partially in H2. revert H2. case_cmp; [done|]. rewrite forallb_zip. intros H2.
    unfold Filter.len, Instr.byte_len in *.
    destruct (instr_of_bytes (Instr.bytes i ++ drop (length (Instr.bytes i)) (value <$> bfs f))) as (y & Hy & Ey).
    { apply Forall_app. split; [apply (bytes_wf i Hi)|]. apply Forall_drop, Forall_fmap. eapply Forall_impl; [exact Hf|]. by intros c []. }
    { rewrite length_app, length_drop, length_fmap. lia. }
    exists f, y. split; [done|]. split; [done|]. split; [done|]. rewrite Ey. split; [by eexists|].
    split; [rewrite length_app, length_drop, length_fmap; lia|]. unfold Filter.matches. rewrite matches_bytes_iff, Ey.
    intros k bf Hk. destruct (decide (k < length (Instr.bytes i))%nat) as [Hlt|Hge].
    + rewrite lookup_app_l by done. destruct (lookup_lt_is_Some_2 _ _ Hlt) as [b Hb]. rewrite Hb. by eapply H2.
    + rewrite lookup_app_r, lookup_drop by lia. replace (length (Instr.bytes i) + (k - length (Instr.bytes i)))%nat with k by lia.
      rewrite list_lookup_fmap, Hk. cbn. apply matches_value. by eapply Forall_lookup_1 in Hk.
  - intros (f & y & Hin & Hlt & Hy & [z Hz] & Hly & Hm). exists f. split; [by apply list_elem_of_In|].
    apply andb_true_iff. split; [by apply Nat.ltb_lt|]. unfold Filter.matches_smaller_instr_partially.
    rewrite (proj2 (Nat.ltb_ge _ _)) by lia. apply forallb_zip. intros k bf b Hk Hb. unfold Filter.matches in Hm.
    rewrite matches_bytes_iff in Hm. specialize (Hm k bf Hk). rewrite Hz, lookup_app_l, Hb in Hm by (by eapply lookup_lt_Some). done.
Qed.

(** The matches of a list that have the length of their filter. *)
Definition exact_match (l : list InstructionFilter) (y : Instruction) : Prop :=
  ∃ f, f ∈ l ∧ instr_wf y ∧ Instr.byte_len y = Filter.len f ∧ Filter.matches f y = true.
Lemma cmp_ge_trans a b c : Instr.cmp a b ≠ Gt → Instr.cmp b c ≠ Gt → Instr.cmp a c ≠ Gt.
Proof.
  unfold Instr.cmp. intros H1 H2. destruct (Instr.cmp_bytes (Instr.bytes a) (Instr.bytes b)) eqn:E1; [|..|done].
  - apply cmp_bytes_eq in E1. congruence.
  - destruct (Instr.cmp_bytes (Instr.bytes b) (Instr.bytes c)) eqn:E2; [|..|done].
    + apply cmp_bytes_eq in E2. congruence.
    + by rewrite (cmp_bytes_trans _ _ _ E1 E2).
Qed.
Lemma next_loop_ok l i : list_wf l → Forall (λ f, Filter.len f <= 15)%nat l → instr_wf i → ∀ next done_,
  (match next with
   | Some r => exact_match done_ r ∧ Instr.cmp i r ≠ Gt ∧ ∀ y, exact_match done_ y → Instr.cmp i y ≠ Gt → Instr.cmp r y ≠ Gt
   | None => ∀ y, exact_match done_ y → Instr.cmp i y = Gt
   end) → ∃ o, FList.next_loop l i next = Ok o ∧
  match o with
  | Some r => exact_match (done_ ++ l) r ∧ Instr.cmp i r ≠ Gt ∧ ∀ y, exact_match (done_ ++ l) y → Instr.cmp i y ≠ Gt → Instr.cmp r y ≠ Gt
  | None => ∀ y, exact_match (done_ ++ l) y → Instr.cmp i y = Gt
  end.
Proof.
  intros Hl Hlen Hi. revert Hlen. induction Hl as [|f l Hf Hl IH]; intros Hlen next done_ Hnext; cbn [FList.next_loop].
  - exists next. split; [done|]. by rewrite app_nil_r.
  - apply Forall_cons in Hlen as [Hlf Hlen]. destruct (next_matching_ok f i Hf Hlf Hi) as (o & -> & Ho). rewrite M_bind_Ok.
    assert (∀ y, exact_match (done_ ++ [f]) y ↔ exact_match done_ y ∨ (instr_wf y ∧ Instr.byte_len y = Filter.len f ∧ Filter.matches f y = true)) as Hsplit.
    { intros y. split.
      - intros (g & [Hg| ->%list_elem_of_singleton]%elem_of_app & H); [left; by exists g|by right].
      - intros [(g & Hg & H)|H]; [exists g|exists f]; (split; [apply elem_of_app|done]); [by left|right; left]. }
    replace (done_ ++ f :: l) with ((done_ ++ [f]) ++ l) by (by rewrite <- app_assoc).
    apply IH; [done|]. clear IH. destruct o as [r|], next as [n|].
    + destruct Ho as (Hw & Hlr & Hm & Hge & Hleast). destruct Hnext as (Hx & Hgx & Hlx).
      assert (∀ y, exact_match done_ y → Instr.cmp i y ≠ Gt → Instr.cmp n y ≠ Gt) as Hn by done.
      destruct (Instr.cmp r n) eqn:Ec.
      1,3: assert (Instr.cmp n r ≠ Gt) as Hnr by (rewrite cmp_flip, Ec; done); split; [apply Hsplit; by left|]; (split; [done|]);
        intros y [Hy|(H1 & H2 & H3)]%Hsplit Hiy; [by apply Hn|]; apply (cmp_ge_trans n r y Hnr); by apply Hleast.
      assert (Instr.cmp r n ≠ Gt) as Hrn by (by rewrite Ec). split; [apply Hsplit; by right|]. split; [done|].
      intros y [Hy|(H1 & H2 & H3)]%Hsplit Hiy; [|by apply Hleast]. apply (cmp_ge_trans r n y Hrn). by apply Hn.
    + destruct Ho as (Hw & Hlr & Hm & Hge & Hleast). split; [apply Hsplit; by right|]. split; [done|].
      intros y [Hy|(H1 & H2 & H3)]%Hsplit Hiy; [by rewrite (Hnext y Hy) in Hiy|by apply Hleast].
    + destruct Hnext as (Hx & Hgx & Hlx). split; [apply Hsplit; by left|]. split; [done|].
      intros y [Hy|(H1 & H2 & H3)]%Hsplit Hiy; [by apply Hlx|]. by rewrite (Ho y H1 H2 H3) in Hiy.
    + intros y [Hy|(H1 & H2 & H3)]%Hsplit; [by apply Hnext|by apply Ho].
Qed.
(** The list's [next_matching_instruction] is the least of the matches of all its
    filters (of the length of their filter) that are not below the instruction. *)
Theorem filter_list_next l i : list_wf (filters l) → Forall (λ f, Filter.len f <= 15)%nat (filters l) → instr_wf i →
  ∃ o, FList.next_matching_instruction l i = Ok o ∧
  match o with
  | Some r => exact_match (filters l) r ∧ Instr.cmp i r ≠ Gt ∧
              ∀ y, exact_match (filters l) y → Instr.cmp i y ≠ Gt → Instr.cmp r y ≠ Gt
  | None => ∀ y, exact_match (filters l) y → Instr.cmp i y = Gt
  end.
Proof.
  intros Hl Hlen Hi. apply (next_loop_ok (filters l) i Hl Hlen Hi None []). by intros y (f & ?%not_elem_of_nil & _).
Qed.

(** ** Maps *)

Section map.
Context {T : Type}.
Implicit Types (m : FilterMap T) (es : list (InstructionFilter * T)).

(** The entries that the bucket for length [n] and first byte [b] must have. *)
Definition first_byte_ok (f : InstructionFilter) (b : nat) : bool :=
  match bfs f !! 0%nat with Some bf => BF.matches bf (Z.of_nat b) | None => false end.
Definition belongs (n b : nat) (e : InstructionFilter * T) : bool :=
  (Filter.len (fst e) =? n)%nat && first_byte_ok (fst e) b.
Definition bucket m (n b : nat) : option (list (InstructionFilter * T)) := g ← groups m !! n; group g !! b.
(** The map holds the entries [es], in the order in which they were added. *)
Record holds m es : Prop := {
  holds_groups : ∀ n, (n < 16)%nat → ∃ g, groups m !! n = Some g ∧ length (group g) = 256%nat;
  holds_len : length (groups m) = 16%nat;
  holds_bucket : ∀ n b, (n < 16)%nat → (b < 256)%nat → bucket m n b = Some (List.filter (belongs n b) es) }.

Lemma replicate_lookup {A} (x : A) n i : (i < n)%nat → replicate n x !! i = Some x.
Proof. intros H. by apply lookup_replicate_2. Qed.
Lemma new_holds : holds FMap.new [].
Proof.
  split.
  - intros n Hn. exists FMap.new_group. unfold FMap.new. cbn [groups]. rewrite replicate_lookup by done.
    split; [done|]. apply length_replicate.
  - apply length_replicate.
  - intros n b Hn Hb. unfold bucket, FMap.new, FMap.new_group. cbn [groups]. rewrite replicate_lookup by done.
    cbn [mbind option_bind group]. by rewrite replicate_lookup.
Qed.

(** The shape of the arrays, and the effect of a push on the buckets. *)
Definition shaped m : Prop := length (groups m) = 16%nat ∧ ∀ n g, groups m !! n = Some g → length (group g) = 256%nat.
Lemma push_ok m n b e : shaped m → (n < 16)%nat → (b < 256)%nat → ∃ m' old, FMap.push m n b e = Ok m' ∧ shaped m' ∧
  bucket m n b = Some old ∧ bucket m' n b = Some (old ++ [e]) ∧
  ∀ n' b', (n', b') ≠ (n, b) → bucket m' n' b' = bucket m n' b'.
Proof.
  intros [Hl Hg] Hn Hb. unfold FMap.push. destruct (vget_lt (groups m) n ltac:(lia)) as (g & -> & Eg). rewrite M_bind_Ok.
  pose proof (Hg _ _ Eg) as Elg. destruct (vget_lt (group g) b ltac:(lia)) as (old & -> & Eo). rewrite M_bind_Ok.
  rewrite vset_lt, M_bind_Ok by lia. rewrite vset_lt, M_bind_Ok by lia. do 2 eexists. split; [done|].
  unfold bucket. cbn [groups]. split; [split|split; [|split]].
  - cbn [groups]. by rewrite length_insert.
  - cbn [groups]. intros n' g' [(-> & <- & _)|(Hne & Hg')]%list_lookup_insert_Some; [cbn; by rewrite length_insert|by eapply Hg].
  - rewrite Eg. exact Eo.
  - rewrite list_lookup_insert_eq by lia. cbn [mbind option_bind group]. by rewrite list_lookup_insert_eq by lia.
  - intros n' b' Hne. destruct (decide (n' = n)) as [->|].
    + rewrite list_lookup_insert_eq, Eg by lia. cbn [mbind option_bind group]. apply list_lookup_insert_ne. congruence.
    + by rewrite list_lookup_insert_ne by done.
Qed.
Lemma holds_shaped m es : holds m es → shaped m.
Proof.
  intros [H1 H2 _]. split; [done|]. intros n g Hg. destruct (H1 n) as (g' & Hg' & E); [apply lookup_lt_Some in Hg; lia|].
  by simplify_eq.
Qed.
Lemma holds_intro m es : shaped m → (∀ n b, (n < 16)%nat → (b < 256)%nat → bucket m n b = Some (List.filter (belongs n b) es)) →
  holds m es.
Proof.
  intros [H1 H2] H. split; [|done|done]. intros n Hn. destruct (lookup_lt_is_Some_2 (groups m) n ltac:(lia)) as [g Hg]. eauto.
Qed.

Lemma index_range_S (n l b index count : nat) : (n = l → b ≠ index) →
  bool_decide (n = l ∧ (index + 1 <= b < index + 1 + count)%nat) = bool_decide (n = l ∧ (index <= b < index + S count)%nat).
Proof. intros H. apply bool_decide_ext. split; intros [-> ?]; (split; [done|]); specialize (H eq_refl); lia. Qed.
Lemma add_each_ok f d bf : bfs f !! 0%nat = Some bf → (Filter.len f < 16)%nat → ∀ count m index, shaped m →
  (index + count <= 256)%nat → ∃ m', FMap.add_each count m bf (f, d) index = Ok m' ∧ shaped m' ∧
  ∀ n b old, bucket m n b = Some old → bucket m' n b =
    Some (if bool_decide (n = Filter.len f ∧ (index <= b < index + count)%nat) && BF.matches bf (Z.of_nat b)
          then old ++ [(f, d)] else old).
Proof.
  intros Hbf Hlen. induction count as [|count IH]; intros m index Hs Hi; cbn [FMap.add_each].
  - exists m. split; [done|]. split; [done|]. intros n b old ->. rewrite bool_decide_eq_false_2 by lia. done.
  - cbn [fst]. destruct (BF.matches bf (Z.of_nat index)) eqn:Em.
    + destruct (push_ok m (Filter.len f) index (f, d) Hs Hlen) as (m1 & old1 & -> & Hs1 & E0 & E1 & Hrest); [lia|]. rewrite M_bind_Ok.
      destruct (IH m1 (index + 1)%nat Hs1) as (m' & -> & Hs' & Hb'); [lia|]. exists m'. split; [done|]. split; [done|].
      intros n b old Hold. destruct (decide ((n, b) = (Filter.len f, index))) as [[= -> ->]|Hne].
      * rewrite (Hb' _ _ _ E1). rewrite E0 in Hold. injection Hold as ->.
        rewrite (bool_decide_eq_false_2 (_ ∧ index + 1 <= _ < _)%nat) by lia. rewrite bool_decide_eq_true_2 by (split; [done|lia]).
        by rewrite Em.
      * rewrite (Hb' n b old) by (by rewrite Hrest). rewrite index_range_S; [done|]. congruence.
    + rewrite M_bind_Ok. destruct (IH m (index + 1)%nat Hs) as (m' & -> & Hs' & Hb'); [lia|]. exists m'. split; [done|].
      split; [done|]. intros n b old Hold. rewrite (Hb' n b old Hold). f_equal.
      destruct (decide (b = index)) as [->|]; [by rewrite Em, !andb_false_r|]. by rewrite index_range_S.
Qed.
Lemma filter_snoc {A} (p : A → bool) l x : List.filter p (l ++ [x]) = List.filter p l ++ (if p x then [x] else []).
Proof. rewrite List.filter_app. cbn. by destruct (p x). Qed.
Lemma as_value_matches bf v b : bf_wf bf → BF.as_value bf = Some v → (b < 256)%nat →
  is_byte v ∧ BF.matches bf (Z.of_nat b) = (b =? Z.to_nat v)%nat.
Proof.
  intros [H1 H2 H3] Hv Hb. unfold BF.as_value in Hv. destruct (Z.eqb_spec (mask bf) 0xff) as [Em|]; [|done]. injection Hv as <-.
  split; [done|]. unfold BF.matches. rewrite Em. change 0xff with (Z.ones 8). rewrite Z.land_ones, Z.mod_small by lia.
  destruct H2 as [H2 _]. case_cmps; lia || done.
Qed.

Lemma belongs_first f d bf n b : bfs f !! 0%nat = Some bf →
  belongs n b (f, d) = (Filter.len f =? n)%nat && BF.matches bf (Z.of_nat b).
Proof. intros H. unfold belongs, first_byte_ok. cbn [fst]. by rewrite H. Qed.

(** Refinement.  Adding an entry to a map that holds a list of entries makes it
    hold the entry as well, after the others; the filter needs 1 to 15 bytes. *)
Theorem filter_map_add m es f d : holds m es → filter_wf f → (0 < Filter.len f < 16)%nat →
  ∃ m', FMap.add m f d = Ok m' ∧ holds m' (es ++ [(f, d)]).
Proof.
  intros Hm Hf Hlen. unfold FMap.add. pose proof (holds_shaped _ _ Hm) as Hs.
  destruct (vget_lt (bfs f) 0 ltac:(unfold Filter.len in Hlen; lia)) as (bf & -> & Hbf). rewrite M_bind_Ok.
  assert (bf_wf bf) as Hwf by (by eapply Forall_lookup_1 in Hbf). destruct (BF.as_value bf) as [v|] eqn:Ev.
  - destruct (as_value_matches bf v 0 Hwf Ev ltac:(lia)) as [[Hv1 Hv2] _]. change (2 ^ 8) with 256 in Hv2.
    destruct (push_ok m (Filter.len f) (Z.to_nat v) (f, d) Hs ltac:(lia) ltac:(lia)) as (m' & old & -> & Hs' & E0 & E1 & Hrest).
    exists m'. split; [done|]. apply holds_intro; [done|]. intros n b Hn Hb. rewrite filter_snoc, (belongs_first f d bf n b Hbf).
    destruct (as_value_matches bf v b Hwf Ev Hb) as [_ ->].
    rewrite (holds_bucket _ _ Hm) in E0 by lia. injection E0 as <-.
    destruct (decide ((n, b) = (Filter.len f, Z.to_nat v))) as [[= -> ->]|Hne]; [by rewrite !Nat.eqb_refl|].
    assert ((Filter.len f =? n)%nat && (b =? Z.to_nat v)%nat = false) as ->.
    { apply andb_false_iff. rewrite !Nat.eqb_neq. destruct (decide (Filter.len f = n)); [right|left]; congruence. }
    rewrite Hrest by done. rewrite app_nil_r. by apply (holds_bucket _ _ Hm).
  - destruct (add_each_ok f d bf Hbf ltac:(lia) 256 m 0 Hs ltac:(lia)) as (m' & -> & Hs' & Hb). exists m'. split; [done|].
    apply holds_intro; [done|]. intros n b Hn Hlt. rewrite (Hb _ _ _ (holds_bucket _ _ Hm n b Hn Hlt)), filter_snoc.
    rewrite (belongs_first f d bf n b Hbf). f_equal.
    destruct (Nat.eqb_spec (Filter.len f) n) as [->|]; cbn [andb].
    + rewrite bool_decide_eq_true_2 by (split; [done|lia]). cbn [andb]. destruct (BF.matches bf (Z.of_nat b)); [done|by rewrite app_nil_r].
    + rewrite bool_decide_eq_false_2 by (intros [? _]; congruence). by rewrite app_nil_r.
Qed.
Lemma first_match_filter (p : InstructionFilter * T → bool) i es :
  (∀ e, e ∈ es → Filter.matches (fst e) i = true → p e = true) → FMap.first_match (List.filter p es) i = FMap.first_match es i.
Proof.
  induction es as [|[f d] es IH]; intros H; [done|]. cbn [List.filter FMap.first_match].
  destruct (Filter.matches f i) eqn:Em.
  - rewrite (H (f, d)) by (done || left). cbn. by rewrite Em.
  - rewrite <- IH by (intros e He; apply H; by right). destruct (p (f, d)); cbn; by rewrite ?Em.
Qed.
Lemma filter_filter_and {A} (p q : A → bool) l : List.filter p (List.filter q l) = List.filter (λ x, q x && p x) l.
Proof. induction l as [|x l IH]; cbn; [done|]. destruct (q x); cbn; rewrite IH; by destruct (p x). Qed.

(** A lookup returns the data of the first entry, in the order of insertion, whose
    filter has the length of the instruction and matches it. *)
Theorem filter_map_lookup m es i : holds m es → instr_wf i → (0 < Instr.byte_len i)%nat →
  FMap.filters m i = Ok (FMap.first_match (List.filter (λ e, Filter.len (fst e) =? Instr.byte_len i)%nat es) i).
Proof.
  intros Hm Hi H0. destruct (bytes_wf i Hi) as [Hbytes Hle]. unfold FMap.filters, Instr.byte_len in *.
  change Instr.MAX_LEN with 15%nat in Hle. set (n := length (Instr.bytes i)) in *.
  destruct (holds_groups _ _ Hm n ltac:(lia)) as (g & Hg & Elg). rewrite (proj2 (vget_Ok_inv _ _ _) Hg), M_bind_Ok.
  destruct (vget_lt (Instr.bytes i) 0 ltac:(lia)) as (b & -> & Hb). rewrite M_bind_Ok.
  assert (0 <= b < 256) as Hbb by (by apply (instr_byte i 0)).
  pose proof (holds_bucket _ _ Hm n (Z.to_nat b) ltac:(lia) ltac:(lia)) as Eb. unfold bucket in Eb. rewrite Hg in Eb.
  cbn [mbind option_bind] in Eb. rewrite (proj2 (vget_Ok_inv _ _ _) Eb), M_bind_Ok. f_equal.
  rewrite <- (first_match_filter (λ e, first_byte_ok (fst e) (Z.to_nat b)) i (List.filter (λ e, Filter.len (fst e) =? n)%nat es)).
  - by rewrite filter_filter_and.
  - intros [f d] [Hin Hl]%list_elem_of_In%filter_In Hmf. cbn [fst] in *. apply Nat.eqb_eq in Hl. unfold first_byte_ok.
    destruct (lookup_lt_is_Some_2 (bfs f) 0) as [bf Hbf]; [unfold Filter.len in Hl; lia|]. rewrite Hbf.
    unfold Filter.matches in Hmf. rewrite matches_bytes_iff in Hmf. specialize (Hmf _ _ Hbf). rewrite Hb in Hmf. cbn in Hmf.
    by rewrite Z2Nat.id by lia.
Qed.

Lemma add_each_panics f d bf m : (∀ b e, FMap.push m (Filter.len f) b e = Panic) → ∀ count index k,
  (index <= k < index + count)%nat → BF.matches bf (Z.of_nat k) = true → FMap.add_each count m bf (f, d) index = Panic.
Proof.
  intros Hp. induction count as [|count IH]; intros index k Hk Hm; [lia|]. cbn [FMap.add_each fst].
  destruct (BF.matches bf (Z.of_nat index)) eqn:Em; [by rewrite Hp|]. rewrite M_bind_Ok. apply (IH _ k); [|done].
  assert (k ≠ index) by congruence. lia.
Qed.

(** The corner cases panic: an empty filter, a filter of 16 bytes (which
    [InstructionFilter] allows), a lookup of the empty instruction. *)
Theorem filter_map_panics es m : holds m es →
  (∀ d, FMap.add m {| bfs := [] |} d = Panic) ∧
  (∀ f d, filter_wf f → Filter.len f = 16%nat → FMap.add m f d = Panic) ∧
  (∀ i, Instr.bytes i = [] → FMap.filters m i = Panic).
Proof.
  intros Hm. split; [done|]. split.
  - intros f d Hf Hl. unfold FMap.add. destruct (vget_lt (bfs f) 0 ltac:(unfold Filter.len in Hl; lia)) as (bf & -> & Hbf).
    rewrite M_bind_Ok. assert (∀ b e, FMap.push m (Filter.len f) b e = Panic) as Hp.
    { intros b e. unfold FMap.push. assert (vget (groups m) (Filter.len f) = Panic) as ->; [|done].
      unfold vget. by rewrite lookup_ge_None_2 by (rewrite (holds_len _ _ Hm); lia). }
    destruct (BF.as_value bf) eqn:Ev; [apply Hp|]. assert (bf_wf bf) as Hwf by (by eapply Forall_lookup_1 in Hbf).
    destruct (bwf_value _ Hwf) as [Hv1 Hv2]. change (2 ^ 8) with 256 in Hv2.
    apply (add_each_panics f d bf m Hp 256 0 (Z.to_nat (value bf))); [lia|]. rewrite Z2Nat.id by lia. by apply matches_value.
  - intros i Hi. unfold FMap.filters, Instr.byte_len. rewrite Hi. cbn [length].
    destruct (holds_groups _ _ Hm 0 ltac:(lia)) as (g & Hg & _). by rewrite (proj2 (vget_Ok_inv _ _ _) Hg).
Qed.
End map.

(** ** Concrete lists and maps *)

Definition example_list : FilterList :=
  {| filters := [{| bfs := [{| mask := 0xff; value := 0x48 |}; {| mask := 0; value := 0 |}] |}] |}.
Definition example_add : InstructionFilter := {| bfs := [{| mask := 0xff; value := 0x4c |}; {| mask := 0; value := 0 |}] |}.
Lemma example_list_wf : list_wf (filters example_list).
Proof. constructor; [by apply filter_check_wf|constructor]. Qed.
Lemma filter_list_add_witness : ∃ l', FList.add (P := Dev) example_list example_add = Ok l' ∧
  filters l' = [{| bfs := [{| mask := 0xfb; value := 0x48 |}; {| mask := 0; value := 0 |}] |}; example_add].
Proof.
  destruct (filter_list_add (P := Dev) example_list example_add example_list_wf) as (l' & E & _); [by apply filter_check_wf|].
  exists l'. split; [exact E|]. vm_compute in E. injection E as <-. reflexivity.
Defined.
Lemma should_extend_spec_witness : FList.should_extend example_list (example_instr [0x48]) = true ∧
  ∃ f y, f ∈ filters example_list ∧ Filter.matches f y = true ∧ Instr.byte_len y = 2%nat.
Proof.
  split; [reflexivity|].
  destruct (proj1 (should_extend_spec example_list (example_instr [0x48]) example_list_wf
    ltac:(constructor; [cbn; lia|constructor]) ltac:(example_wf)) eq_refl) as (f & y & Hf & _ & _ & _ & Hl & Hm).
  exists f, y. split; [exact Hf|]. split; [exact Hm|]. rewrite Hl. apply list_elem_of_singleton in Hf as ->. reflexivity.
Defined.
Lemma filter_list_next_witness : ∃ r, FList.next_matching_instruction example_list (example_instr [0x47]) = Ok (Some r) ∧
  Instr.bytes r = [0x48; 0].
Proof.
  destruct (filter_list_next example_list (example_instr [0x47]) example_list_wf) as (o & Ho & _);
    [constructor; [cbn; lia|constructor] | example_wf |].
  assert (∃ r, o = Some r ∧ Instr.bytes r = [0x48; 0]) as (r & -> & Hr).
  { vm_compute in Ho. injection Ho as <-. eexists. split; reflexivity. }
  exists r. split; [exact Ho|exact Hr].
Defined.
Lemma filter_map_add_witness : ∃ m', FMap.add FMap.new example_add 7%nat = Ok m' ∧ holds m' [(example_add, 7%nat)].
Proof. apply (filter_map_add FMap.new [] example_add 7%nat new_holds); [by apply filter_check_wf | cbn; lia]. Defined.
Lemma filter_map_lookup_witness : FMap.filters (T := nat) FMap.new (example_instr [0x4c; 0]) = Ok None.
Proof. apply (filter_map_lookup FMap.new [] (example_instr [0x4c; 0]) new_holds); [example_wf | cbn; lia]. Defined.
Lemma filter_map_panics_witness : FMap.add (T := nat) FMap.new {| bfs := [] |} 7%nat = Panic.
Proof. destruct (filter_map_panics (T := nat) [] FMap.new new_holds) as [H _]. apply H. Defined.
