(* ===== verification/Shmqueue.v ===== *)
(** * The shared-memory queue of the observer

    Models [arch/x64/liblisa-x64-observer-shmqueue/src] (queue.rs, frame/control.rs,
    frame/command.rs), the host's side of it in [liblisa-x64-observer/src/vm.rs]
    ([VmObserver], [PageAllocator]) and the client's side in
    [build-vmimage/vmimage-x86-64/src/queue.rs] ([Incoming]).

    The shared memory is a control frame, the command frames and the page frames.  A
    reference to a command frame is its index.  The contents of the register areas of
    a command frame, which the queue does not look at, are a parameter, and so is
    what a request writes there.  Indices are [u32] in the source and stay below
    the number of frames.  Theorems: ShmqueueFacts and PagesFacts. *)
From S2P Require Import Prelude MachInt Utils.

(** ** Memory mappings *)

Inductive Permissions := Executable | Read | ReadWrite.
#[export] Instance Permissions_eq_dec : EqDecision Permissions.
Proof. solve_decision. Defined.
Definition permissions_u8 (p : Permissions) : Z := match p with Executable => 0 | Read => 1 | ReadWrite => 2 end.
(** [transmute::<u8, Permissions>]: another value is undefined behaviour, here [None]. *)
Definition permissions_of_u8 (x : Z) : option Permissions :=
  if x =? 0 then Some Executable else if x =? 1 then Some Read else if x =? 2 then Some ReadWrite else None.

Record MemoryMapping := { packed_page_info : Z; frame_index_ : Z }.
Module Mapping.
Definition new {P : profile} (page_start_addr frame_index : Z) (permissions : Permissions) : M MemoryMapping :=
  debug_assert! frame_index <=? 0xffff;
  let page := Z.shiftr page_start_addr 12 in
  Ok {| packed_page_info := Z.lor page (wrap 64 (Z.shiftl (permissions_u8 permissions) 52));
        frame_index_ := wrap 16 frame_index |}.
Definition empty : MemoryMapping := {| packed_page_info := 0; frame_index_ := 0 |}.
Definition permissions (self : MemoryMapping) : option Permissions :=
  permissions_of_u8 (wrap 8 (Z.shiftr (packed_page_info self) 52)).
Definition page_start_addr (self : MemoryMapping) : Z := wrap 64 (Z.shiftl (packed_page_info self) 12).
Definition frame_index (self : MemoryMapping) : Z := frame_index_ self.
End Mapping.

(** [MemoryMappings([MemoryMapping; 64], u8)]. *)
Record MemoryMappings := { mappings : list MemoryMapping; count : nat }.
Module Mappings.
Definition MAX_LEN : nat := 64.
Definition default : MemoryMappings := {| mappings := replicate MAX_LEN Mapping.empty; count := 0 |}.
Definition len (self : MemoryMappings) : nat := count self.
Definition active (self : MemoryMappings) : M (list MemoryMapping) :=
  if (count self <=? length (mappings self))%nat then Ok (take (count self) (mappings self)) else Panic.
(** The loop [self.0[count] = mapping; count += 1]. *)
Fixpoint fill (l : list MemoryMapping) (data : list MemoryMapping) (count : nat) : M (list MemoryMapping * nat) :=
  match l with
  | [] => Ok (data, count)
  | mapping :: l => data ← vset data count mapping; fill l data (count + 1)
  end.
Definition recycle (self : MemoryMappings) (iter : list MemoryMapping) : M MemoryMappings :=
  '(data, n) ← fill iter (mappings self) 0; Ok {| mappings := data; count := n |}.
Definition from_iter (iter : list MemoryMapping) : M MemoryMappings :=
  '(data, n) ← fill iter (replicate 64 Mapping.empty) 0; Ok {| mappings := data; count := n |}.
End Mappings.

(** ** The control frame *)

Record ControlFrameData := { cf_next : nat; cf_current : nat; num_command_frames : nat }.
(** [a % b] panics for [b = 0]. *)
Definition rem (a b : nat) : M nat := if (b =? 0)%nat then Panic else Ok (a `mod` b)%nat.

Inductive Host := host.
Inductive Client := client.
Module Control.
Definition current (self : ControlFrameData) : M nat := rem (cf_current self) (num_command_frames self).
Definition update_next (self : ControlFrameData) (index : nat) : ControlFrameData :=
  {| cf_next := index; cf_current := cf_current self; num_command_frames := num_command_frames self |}.
Definition next (self : ControlFrameData) : M nat := rem (cf_next self) (num_command_frames self).
Definition update_current (self : ControlFrameData) (index : nat) : ControlFrameData :=
  {| cf_next := cf_next self; cf_current := index; num_command_frames := num_command_frames self |}.
End Control.

(** The position up to which there is something to read, for either side. *)
Class CurrentPos (K : Type) := current_pos : ControlFrameData → M nat.
#[export] Instance Host_CurrentPos : CurrentPos Host := Control.current.
#[export] Instance Client_CurrentPos : CurrentPos Client := Control.next.

(** ** The queue *)

Record Queue (K : Type) := { read_index : nat; cached_current_pos : nat; total_size : nat }.
Arguments read_index {K} _.
Arguments cached_current_pos {K} _.
Arguments total_size {K} _.

Module Ring.
Section ring.
Context {K : Type}.
Definition new (queue_byte_size : nat) : Queue K :=
  {| read_index := 0; cached_current_pos := 0; total_size := queue_byte_size |}.
(** The index of the frame; the pointer arithmetic itself is not checked. *)
Definition command_frame {P : profile} (ctl : ControlFrameData) (index : nat) : M nat :=
  debug_assert! (index <? num_command_frames ctl)%nat; Ok index.

Context `{CurrentPos K}.
Definition request_available (ctl : ControlFrameData) (self : Queue K) : M (Queue K * bool) :=
  if negb (read_index self =? cached_current_pos self)%nat then Ok (self, true)
  else
    pos ← current_pos ctl;
    Ok ({| read_index := read_index self; cached_current_pos := pos; total_size := total_size self |},
        negb (read_index self =? pos)%nat).
Definition try_dequeue {P : profile} (ctl : ControlFrameData) (self : Queue K) : M (Queue K * option nat) :=
  '(self, available) ← request_available ctl self;
  if available : bool then
    let frame_index := read_index self in
    read ← rem (read_index self + 1) (num_command_frames ctl);
    frame ← command_frame ctl frame_index;
    Ok ({| read_index := read; cached_current_pos := cached_current_pos self; total_size := total_size self |}, Some frame)
  else Ok (self, None).
End ring.
End Ring.

(** ** The client *)

(** Every queue has its own control frame. *)
Record Incoming := { queues : list (Queue Client); current_queue : nat }.
Module In.
Definition FRAME_SIZE : nat := 4096.
Section incoming.
Context {P : profile}.
(** [Err(())] is the inner [None]. *)
Fixpoint check_queues (l : list (ControlFrameData * Queue Client)) : M bool :=
  match l with
  | [] => Ok true
  | (ctl, q) :: l =>
      if (num_command_frames ctl =? 0)%nat then Ok false
      else if (total_size q <? (num_command_frames ctl + 1) * FRAME_SIZE)%nat then Panic
      else check_queues l
  end.
Definition new (ctls : list ControlFrameData) (queues : list (Queue Client)) : M (option Incoming) :=
  ok ← check_queues (zip ctls queues);
  Ok (if ok : bool then Some {| queues := queues; current_queue := 0 |} else None).
(** [offset_translator]: the offset of the first page frame. *)
Definition base_offset (ctls : list ControlFrameData) : nat :=
  sum_list ((λ ctl, 1 + num_command_frames ctl)%nat <$> ctls) * FRAME_SIZE.
Definition page_offset (base index : nat) : nat := base + index * FRAME_SIZE.
(** [for shift in 0..num_queues], with [count] iterations left; the result is the
    queue and the frame. *)
Fixpoint receive_loop (count : nat) (ctls : list ControlFrameData) (self : Incoming) (shift : nat)
    : M (Incoming * option (nat * nat)) :=
  match count with
  | O => Ok (self, None)
  | S count =>
      index ← rem (current_queue self + shift) (length (queues self));
      ctl ← vget ctls index; q ← vget (queues self) index;
      '(q, available) ← Ring.request_available (K := Client) ctl q;
      qs ← vset (queues self) index q;
      if available : bool then
        '(q, frame) ← Ring.try_dequeue (K := Client) ctl q;
        qs ← vset qs index q;
        Ok ({| queues := qs; current_queue := index |}, option_map (pair index) frame)
      else receive_loop count ctls {| queues := qs; current_queue := current_queue self |} (shift + 1)
  end.
Definition receive_request (ctls : list ControlFrameData) (self : Incoming) : M (Incoming * option (nat * nat)) :=
  receive_loop (length (queues self)) ctls self 0.
Definition mark_processed (ctls : list ControlFrameData) (self : Incoming) : M (list ControlFrameData * Incoming) :=
  q ← vget (queues self) (current_queue self);
  ctl ← vget ctls (current_queue self);
  ctls ← vset ctls (current_queue self) (Control.update_current ctl (read_index q));
  c ← rem (current_queue self + 1) (length (queues self));
  Ok (ctls, {| queues := queues self; current_queue := c |}).
End incoming.
End In.

(** ** Page frames *)

Record PageMapper := { min_index : nat; num_page_frames : nat }.
(** The page frames, the ring of allocations, and the mapper: what a [PageAllocator]
    borrows. *)
Record PageAllocator := { next_page_frame : nat; page_frames_allocated : nat; mapper : PageMapper; pages : list (list Z) }.

Module Alloc.
(** [page_mut]: the bounds of the queue's own page frames. *)
Definition page_mut (self : PageMapper) (index : nat) : M nat :=
  assert! (index <? min_index self + num_page_frames self)%nat;
  assert! (min_index self <=? index)%nat; Ok index.
Definition page (self : PageMapper) (pages : list (list Z)) (index : nat) : M (list Z) :=
  i ← page_mut self index; vget pages i.
(** [page[offset..offset + data.len()].copy_from_slice(data)]. *)
Definition copy_into (page : list Z) (offset : nat) (data : list Z) : M (list Z) :=
  if (offset + length data <=? length page)%nat
  then Ok (take offset page ++ data ++ drop (offset + length data) page) else Panic.

Section alloc.
Context {P : profile}.
(** The start of the four functions: take the next page frame of the ring. *)
Definition take_frame (self : PageAllocator) : M (PageAllocator * nat) :=
  let frame_index := (next_page_frame self + min_index (mapper self))%nat in
  n ← rem (next_page_frame self + 1) (num_page_frames (mapper self));
  let allocated := (page_frames_allocated self + 1)%nat in
  if (num_page_frames (mapper self) <=? allocated)%nat then Panic
  else
    i ← page_mut (mapper self) frame_index;
    Ok ({| next_page_frame := n; page_frames_allocated := allocated; mapper := mapper self; pages := pages self |}, i).
Definition set_page (self : PageAllocator) (i : nat) (page : list Z) : M PageAllocator :=
  ps ← vset (pages self) i page;
  Ok {| next_page_frame := next_page_frame self; page_frames_allocated := page_frames_allocated self;
        mapper := mapper self; pages := ps |}.
Definition page_offset (address : Z) : nat := Z.to_nat (Z.land address 0xfff).
Definition page_base (address : Z) : Z := Z.land address (not_u 64 0xfff).

(** [fill_and_allocate_page] and [allocate_page]. *)
Definition allocate_page (fill : bool) (self : PageAllocator) (address : Z) (data : list Z) (permissions : Permissions)
    : M (PageAllocator * MemoryMapping) :=
  '(self, i) ← take_frame self;
  page ← vget (pages self) i;
  let page := if fill then replicate (length page) 0xCC else page in
  page ← copy_into page (page_offset address) data;
  self ← set_page self i page;
  m ← Mapping.new (page_base address) (Z.of_nat i) permissions;
  Ok (self, m).
(** [fill_and_allocate_multi_page] and [allocate_multi_page]; an entry that crosses the
    page panics with its own message. *)
Fixpoint copy_entries (entries : list (Z * list Z)) (page : list Z) : M (list Z) :=
  match entries with
  | [] => Ok page
  | (address, data) :: entries =>
      if (length page <? page_offset address + length data)%nat then Panic
      else page ← copy_into page (page_offset address) data; copy_entries entries page
  end.
Definition allocate_multi_page (fill : bool) (self : PageAllocator) (base_address : Z) (entries : list (Z * list Z))
    (permissions : Permissions) : M (PageAllocator * MemoryMapping) :=
  '(self, i) ← take_frame self;
  page ← vget (pages self) i;
  let page := if fill then replicate (length page) 0xCC else page in
  page ← copy_entries entries page;
  self ← set_page self i page;
  m ← Mapping.new (page_base base_address) (Z.of_nat i) permissions;
  Ok (self, m).
End alloc.
End Alloc.

(** ** The host *)

Section host.
Context {P : profile} {Regs : Type}.

Record CommandFrame := { regs : Regs; memory_mappings : MemoryMappings }.
Record VmObserver := {
  queue : Queue Host;
  next_command_frame : nat;
  num_queued : nat;
  alloc : PageAllocator;
  waiting : nat;
  num_to_discard : nat;
  max_len : nat }.

(** The subtraction [num_page_frames() - MAX_LEN] of [usize]. *)
Definition usize_sub (a b : nat) : M Z :=
  if (b <=? a)%nat then Ok (Z.of_nat (a - b))
  else match P with Dev => Panic | Release => Ok (wrap 64 (Z.of_nat a - Z.of_nat b)) end.
Definition queue_full (self : VmObserver) : M bool :=
  if (max_len self <=? num_queued self)%nat then Ok true
  else
    limit ← usize_sub (num_page_frames (mapper (alloc self))) Mappings.MAX_LEN;
    Ok (limit <=? Z.of_nat (page_frames_allocated (alloc self))).
Definition queue_empty (ctl : ControlFrameData) (self : VmObserver) : M (Queue Host * bool) :=
  if (num_queued self =? 0)%nat then
    '(q, available) ← Ring.request_available ctl (queue self); Ok (q, negb available)
  else Ok (queue self, false).

(** [ObservationRequest::setup] writes the frame and allocates pages. *)
Class ObservationRequest (R : Type) :=
  setup : R → CommandFrame → PageAllocator → M (CommandFrame * PageAllocator).

(** The first part of [enqueue_command_unchecked]: the frame is written. *)
Definition write_command `{ObservationRequest R} (ctl : ControlFrameData) (frames : list CommandFrame) (self : VmObserver) (request : R)
    : M (list CommandFrame * VmObserver) :=
  full ← queue_full self;
  debug_assert! negb full;
  i ← Ring.command_frame ctl (next_command_frame self);
  frame ← vget frames i;
  '(frame, a) ← setup request frame (alloc self);
  frames ← vset frames i frame;
  Ok (frames, {| queue := queue self; next_command_frame := next_command_frame self; num_queued := num_queued self;
                 alloc := a; waiting := waiting self; num_to_discard := num_to_discard self; max_len := max_len self |}).
(** The second part: it is handed to the client. *)
Definition publish_command (ctl : ControlFrameData) (self : VmObserver) : M (ControlFrameData * VmObserver) :=
  next ← rem (next_command_frame self + 1) (num_command_frames ctl);
  Ok (Control.update_next ctl next,
      {| queue := queue self; next_command_frame := next; num_queued := num_queued self + 1;
         alloc := alloc self; waiting := waiting self; num_to_discard := num_to_discard self; max_len := max_len self |}).
Definition enqueue_command_unchecked `{ObservationRequest R} (ctl : ControlFrameData) (frames : list CommandFrame) (self : VmObserver)
    (request : R) : M (ControlFrameData * list CommandFrame * VmObserver) :=
  '(frames, self) ← write_command ctl frames self request;
  '(ctl, self) ← publish_command ctl self;
  Ok (ctl, frames, self).

(** [self.page_frames_allocated -= n] and [self.num_queued -= 1]. *)
Definition nat_sub (a b : nat) : M nat := if (b <=? a)%nat then Ok (a - b)%nat else Panic.
(** [exited]: the answer of [self.process.try_wait()], which is asked every ten
    million attempts. *)
Definition receive_result_unchecked (ctl : ControlFrameData) (frames : list CommandFrame) (self : VmObserver) (exited : bool)
    : M (VmObserver * option CommandFrame) :=
  debug_assert! (0 <? num_queued self)%nat;
  '(q, o) ← Ring.try_dequeue ctl (queue self);
  match o with
  | Some i =>
      frame ← vget frames i;
      p ← nat_sub (page_frames_allocated (alloc self)) (Mappings.len (memory_mappings frame));
      n ← nat_sub (num_queued self) 1;
      Ok ({| queue := q; next_command_frame := next_command_frame self; num_queued := n;
             alloc := {| next_page_frame := next_page_frame (alloc self); page_frames_allocated := p;
                         mapper := mapper (alloc self); pages := pages (alloc self) |};
             waiting := waiting self; num_to_discard := num_to_discard self; max_len := max_len self |}, Some frame)
  | None =>
      let w := Z.of_nat (waiting self) + 1 in
      if (10000000 <=? w) && exited then Panic
      else Ok ({| queue := q; next_command_frame := next_command_frame self; num_queued := num_queued self; alloc := alloc self;
                  waiting := if 10000000 <=? w then 0 else Z.to_nat w;
                  num_to_discard := num_to_discard self; max_len := max_len self |}, None)
  end.
Definition discard_pending (self : VmObserver) : VmObserver :=
  {| queue := queue self; next_command_frame := next_command_frame self; num_queued := num_queued self; alloc := alloc self;
     waiting := waiting self; num_to_discard := num_queued self; max_len := max_len self |}.
Definition set_discard (self : VmObserver) (n : nat) : VmObserver :=
  {| queue := queue self; next_command_frame := next_command_frame self; num_queued := num_queued self; alloc := alloc self;
     waiting := waiting self; num_to_discard := n; max_len := max_len self |}.

(** [batch_iter]: one pass of the outer loop, [count] the value of [num_to_discard];
    the result says whether to break.  [spinwait_step] changes nothing. *)
Fixpoint discard_received (count : nat) (ctl : ControlFrameData) (frames : list CommandFrame) (self : VmObserver) (exited : bool)
    : M VmObserver :=
  match count with
  | O => Ok self
  | S count =>
      '(self, r) ← receive_result_unchecked ctl frames self exited;
      match r with
      | Some _ => discard_received count ctl frames (set_discard self count) exited
      | None => Ok self
      end
  end.
Definition discard_pass (ctl : ControlFrameData) (frames : list CommandFrame) (self : VmObserver) (exited : bool) : M (VmObserver * bool) :=
  self ← discard_received (num_to_discard self) ctl frames self exited;
  full ← queue_full self; Ok (self, negb full).

(** [ObserveIter::next]: fill the queue, then wait for the first pending request; the
    requests that are sent are appended to the pending ones. *)
Fixpoint fill_queue `{ObservationRequest R} (requests : list R) (pending : list R) (ctl : ControlFrameData) (frames : list CommandFrame)
    (self : VmObserver) : M (list R * list R * ControlFrameData * list CommandFrame * VmObserver) :=
  full ← queue_full self;
  if full : bool then Ok (requests, pending, ctl, frames, self)
  else
    match requests with
    | [] => Ok ([], pending, ctl, frames, self)
    | request :: requests =>
        '(ctl, frames, self) ← enqueue_command_unchecked ctl frames self request;
        fill_queue requests (pending ++ [request]) ctl frames self
    end.
(** One iteration of the [loop] for the pending entry. *)
Definition attempt (ctl : ControlFrameData) (frames : list CommandFrame) (self : VmObserver) (exited : bool)
    : M (VmObserver * option CommandFrame) :=
  let d := num_to_discard self in
  '(self, r) ← receive_result_unchecked ctl frames self exited;
  match r with
  | Some frame =>
      if (0 <? d)%nat then n ← nat_sub (num_to_discard self) 1; Ok (set_discard self n, None)
      else Ok (self, Some frame)
  | None => Ok (self, None)
  end.
End host.

(** The sizes that [VmOptions::start] chooses for [num] queues: the command and the page
    frames of each. *)
Definition SHMEM_FRAMES : nat := 1024.
Definition start_layout (num : nat) : nat * nat :=
  let total_frames_per_queue := ((SHMEM_FRAMES - num) / num)%nat in
  let command_frames_per_queue := (total_frames_per_queue / 4)%nat in
  (command_frames_per_queue, total_frames_per_queue - command_frames_per_queue)%nat.
