(* ===== verification/ShmqueueFacts.v ===== *)
(** * Correctness of the shared-memory queue

    The host and the client run concurrently on the shared memory.  A step of the
    system is an access of one side that the other can observe: the host writes a
    command frame, publishes it, or looks for a result; the client takes a request,
    replaces it by its result, or publishes that.  For every interleaving: the
    indices are in range and nothing panics, no frame is accessed by both sides, the
    results arrive in the order of the requests (the queue refines a bounded FIFO),
    and the client finishes pending requests in a bounded number of its steps. *)
From S2P Require Import Prelude MachInt Utils Shmqueue.

(** ** Indices of a ring *)

Lemma rem_ok a b : (0 < b)%nat → rem a b = Ok (a `mod` b)%nat.
Proof. intros H. unfold rem. by destruct b; [lia|]. Qed.
Lemma ring_eq n a b : (0 < n)%nat → (a <= b < a + n)%nat → (a `mod` n = b `mod` n)%nat → a = b.
Proof.
  intros Hn Hab E. pose proof (Nat.div_mod a n ltac:(lia)) as Ea. pose proof (Nat.div_mod b n ltac:(lia)) as Eb.
  assert (a / n <= b / n)%nat by (apply Nat.Div0.div_le_mono; lia).
  assert (b / n = a / n)%nat; [|lia]. destruct (decide (b / n = a / n)%nat) as [|Hne]; [done|].
  assert (n * S (a / n) <= n * (b / n))%nat by (apply Nat.mul_le_mono_l; lia). lia.
Qed.
Lemma ring_eqb n a b : (0 < n)%nat → (a <= b < a + n)%nat → (a `mod` n =? b `mod` n)%nat = (a =? b)%nat.
Proof. intros Hn Hab. case_cmps; try done; [by apply ring_eq in e|congruence]. Qed.
Lemma ring_S n a : (((a `mod` n) + 1) `mod` n = (S a) `mod` n)%nat.
Proof. rewrite Nat.Div0.add_mod_idemp_l. f_equal. lia. Qed.
Lemma ring_lt n a : (0 < n)%nat → (a `mod` n < n)%nat.
Proof. intros H. apply Nat.mod_upper_bound. lia. Qed.

(** ** The ring seen by one reader *)

Section reader.
Context {K : Type} `{CurrentPos K} {P : profile}.
(** The reader has read [r] frames in total and knows that [c] are available; the
    writer has made [w] available. *)
Record reads (n r c w : nat) (ctl : ControlFrameData) (q : Queue K) : Prop := {
  reads_n : num_command_frames ctl = n;
  reads_read : read_index q = (r `mod` n)%nat;
  reads_cached : cached_current_pos q = (c `mod` n)%nat;
  reads_pos : current_pos ctl = Ok (w `mod` n)%nat;
  reads_order : (r <= c <= w)%nat;
  reads_window : (w < r + n)%nat }.

Lemma request_available_ok n r c w ctl q : reads n r c w ctl q → ∃ q' c', Ring.request_available ctl q = Ok (q', negb (r =? w)%nat) ∧
  reads n r c' w ctl q' ∧ (r ≠ w → r ≠ c').
Proof.
  intros [Hn Hr Hc Hp Ho Hw]. unfold Ring.request_available. rewrite Hr, Hc, ring_eqb by lia. case_cmp; cbn [negb].
  - subst c. rewrite Hp, M_bind_Ok, ring_eqb by lia. eexists _, w. split; [done|]. split; [|done]. split; try done; cbn; lia.
  - exists q, c. split; [by rewrite (proj2 (Nat.eqb_neq r w)) by lia|]. split; [by split|done].
Qed.
Lemma try_dequeue_ok n r c w ctl q : reads n r c w ctl q → ∃ q' c',
  Ring.try_dequeue ctl q = Ok (q', if (r =? w)%nat then None else Some (r `mod` n)%nat) ∧
  reads n (if (r =? w)%nat then r else S r) c' w ctl q'.
Proof.
  intros Hrd. pose proof Hrd as [Hn _ _ _ Ho Hw]. unfold Ring.try_dequeue.
  destruct (request_available_ok _ _ _ _ _ _ Hrd) as (q1 & c1 & -> & [Hn1 Hr1 Hc1 Hp1 Ho1 Hw1] & Hne). rewrite M_bind_Ok.
  destruct (Nat.eqb_spec r w) as [->|Hrw]; cbn [negb]; [exists q1, c1; split; [done|by split]|].
  specialize (Hne Hrw). rewrite Hr1, Hn1, rem_ok, M_bind_Ok, ring_S by lia. unfold Ring.command_frame.
  assert (debug_assert ((r `mod` n) <? num_command_frames ctl)%nat = Ok tt) as ->.
  { pose proof (ring_lt n r ltac:(lia)). rewrite Hn, (proj2 (Nat.ltb_lt _ _)) by done. by destruct P. }
  rewrite !M_bind_Ok. eexists _, c1. split; [done|]. split; cbn; try done; lia.
Qed.
Lemma reads_more n r c w w' ctl ctl' q : reads n r c w ctl q → num_command_frames ctl' = n →
  current_pos ctl' = Ok (w' `mod` n)%nat → (w <= w' < r + n)%nat → reads n r c w' ctl' q.
Proof. intros [Hn Hr Hc Hp Ho Hw] Hn' Hp' Hw'. split; try done; lia. Qed.
End reader.

(** ** What a request may do *)

Definition PAGE : nat := 4096.
Record alloc_wf (a : PageAllocator) : Prop := {
  awf_next : (next_page_frame a < num_page_frames (mapper a))%nat;
  awf_allocated : (page_frames_allocated a < num_page_frames (mapper a))%nat;
  awf_pages : (min_index (mapper a) + num_page_frames (mapper a) <= length (pages a))%nat;
  awf_page : ∀ i p, pages a !! i = Some p → length p = PAGE;
  awf_index : Z.of_nat (min_index (mapper a) + num_page_frames (mapper a)) <= 2 ^ 16 }.
(** The array of mappings has its length. *)
Definition frame_wf {Regs} (f : @CommandFrame Regs) : Prop := length (mappings (memory_mappings f)) = Mappings.MAX_LEN.
(** The contract of [setup]: with room for [MAX_LEN] pages it succeeds, and allocates
    exactly the pages that the frame then maps. *)
Class RequestOk {Regs R : Type} (req : ObservationRequest (Regs := Regs) R) : Prop :=
  setup_ok : ∀ (r : R) f a, frame_wf f → alloc_wf a → (page_frames_allocated a + Mappings.MAX_LEN < num_page_frames (mapper a))%nat →
    ∃ f' a', setup r f a = Ok (f', a') ∧ frame_wf f' ∧ alloc_wf a' ∧ mapper a' = mapper a ∧
      page_frames_allocated a' = (page_frames_allocated a + Mappings.len (memory_mappings f'))%nat ∧
      (Mappings.len (memory_mappings f') <= Mappings.MAX_LEN)%nat.

(** ** The system *)

Section system.
Context {P : profile} {Regs R : Type} `{req : ObservationRequest Regs R}.
Notation frame := (@CommandFrame Regs).
(** What the client does to a frame; it leaves the mappings alone. *)
Context (observe : frame → frame).

Inductive client_phase := Idle | Busy (i : nat) | Done (i : nat).
Record state := {
  ctl : ControlFrameData;
  frames : list frame;
  obs : VmObserver;
  written : bool;
  cl : Queue Client;
  phase : client_phase }.

(** What an outside observer sees of a step. *)
Inductive label := Enq (f : frame) | Deq (f : frame) | Proc | Tau.
Definition deq_label (o : option frame) : label := match o with Some f => Deq f | None => Tau end.
Definition taken (o : option nat) : client_phase := match o with Some i => Busy i | None => Idle end.

Inductive client_step : state → label → state → Prop :=
| client_receive s q o : phase s = Idle → Ring.try_dequeue (ctl s) (cl s) = Ok (q, o) →
    client_step s Tau {| ctl := ctl s; frames := frames s; obs := obs s; written := written s; cl := q; phase := taken o |}
| client_observe s i f : phase s = Busy i → frames s !! i = Some f →
    client_step s Tau {| ctl := ctl s; frames := <[i := observe f]> (frames s); obs := obs s; written := written s; cl := cl s;
                         phase := Done i |}
| client_publish s i : phase s = Done i →
    client_step s Proc {| ctl := Control.update_current (ctl s) (read_index (cl s)); frames := frames s; obs := obs s;
                          written := written s; cl := cl s; phase := Idle |}.
Inductive step : state → label → state → Prop :=
| host_write s r fs o : written s = false → queue_full (obs s) = Ok false →
    write_command (ctl s) (frames s) (obs s) r = Ok (fs, o) →
    step s Tau {| ctl := ctl s; frames := fs; obs := o; written := true; cl := cl s; phase := phase s |}
| host_publish s f c o : written s = true → frames s !! next_command_frame (obs s) = Some f →
    publish_command (ctl s) (obs s) = Ok (c, o) →
    step s (Enq f) {| ctl := c; frames := frames s; obs := o; written := false; cl := cl s; phase := phase s |}
| host_receive s o r : written s = false → (0 < num_queued (obs s))%nat →
    receive_result_unchecked (ctl s) (frames s) (obs s) false = Ok (o, r) →
    step s (deq_label r) {| ctl := ctl s; frames := frames s; obs := o; written := written s; cl := cl s; phase := phase s |}
| client s l s' : client_step s l s' → step s l s'.

(** Executions, with the frames that were published and the ones that were received. *)
Inductive runs (s0 : state) : list frame → list frame → state → Prop :=
| runs_nil : runs s0 [] [] s0
| runs_step sent received s l s' : runs s0 sent received s → step s l s' →
    runs s0 (sent ++ match l with Enq f => [f] | _ => [] end) (received ++ match l with Deq f => [f] | _ => [] end) s'.
Lemma runs_snoc s0 sent received s l s' sent' received' : runs s0 sent received s → step s l s' →
  sent' = sent ++ match l with Enq f => [f] | _ => [] end → received' = received ++ match l with Deq f => [f] | _ => [] end →
  runs s0 sent' received' s'.
Proof. intros Hr Hs -> ->. by econstructor. Qed.

(** ** The invariant *)

Context (Hreq : RequestOk req).
Definition maps (f : frame) : nat := Mappings.len (memory_mappings f).
Hypothesis observe_maps : ∀ f, memory_mappings (observe f) = memory_mappings f.

(** How many frames hold results: the client publishes one after it is written. *)
Definition processed (s : state) (p : nat) : nat := match phase s with Done _ => S p | _ => p end.
(** [p]: published results; [t]: requests taken by the client; [hc], [cc]: what the
    host and the client last saw of the other side. *)
Record inv (s : state) (sent received : list frame) (p t hc cc : nat) : Prop := {
  inv_frames : length (frames s) = num_command_frames (ctl s);
  inv_max : max_len (obs s) = (num_command_frames (ctl s) - 1)%nat;
  inv_host : reads (num_command_frames (ctl s)) (length received) hc p (ctl s) (queue (obs s));
  inv_client : reads (num_command_frames (ctl s)) t cc (length sent) (ctl s) (cl s);
  inv_next : next_command_frame (obs s) = (length sent `mod` num_command_frames (ctl s))%nat;
  inv_window : (length sent + (if written s then 1 else 0) < length received + num_command_frames (ctl s))%nat;
  inv_queued : (num_queued (obs s) + length received = length sent)%nat;
  inv_phase : match phase s with Idle => t = p | Busy i | Done i => t = S p ∧ i = (p `mod` num_command_frames (ctl s))%nat end;
  inv_content : ∀ j f, sent !! j = Some f → (length received <= j)%nat →
    frames s !! (j `mod` num_command_frames (ctl s))%nat = Some (if (j <? processed s p)%nat then observe f else f);
  inv_received : received = take (length received) (observe <$> sent);
  inv_wf : Forall frame_wf (frames s);
  inv_alloc : alloc_wf (alloc (obs s));
  inv_room : (Mappings.MAX_LEN <= num_page_frames (mapper (alloc (obs s))))%nat;
  inv_pages : ∃ k, page_frames_allocated (alloc (obs s)) = (sum_list (maps <$> drop (length received) sent) + k)%nat ∧
    if written s then ∃ f, frames s !! next_command_frame (obs s) = Some f ∧ k = maps f else k = 0%nat }.

(** Other frames of the window are at other positions. *)
Lemma content_insert s sent received p t hc cc k f j g : inv s sent received p t hc cc →
  (length received <= k <= length sent)%nat → (k < length received + num_command_frames (ctl s))%nat →
  sent !! j = Some g → (length received <= j)%nat → j ≠ k →
  <[(k `mod` num_command_frames (ctl s))%nat := f]> (frames s) !! (j `mod` num_command_frames (ctl s))%nat =
  frames s !! (j `mod` num_command_frames (ctl s))%nat.
Proof.
  intros Hinv Hk Hkw Hj Hle Hne. apply list_lookup_insert_ne. intros E. pose proof (lookup_lt_Some _ _ _ Hj) as Hlt.
  pose proof (inv_window _ _ _ _ _ _ _ Hinv) as Hw. apply Hne.
  destruct (Nat.le_ge_cases j k); [symmetry in E; apply ring_eq in E | apply ring_eq in E]; try lia; destruct (written s); lia.
Qed.

Lemma queue_full_false o : (Mappings.MAX_LEN <= num_page_frames (mapper (alloc o)))%nat → queue_full o = Ok false →
  (num_queued o < max_len o)%nat ∧ (page_frames_allocated (alloc o) + Mappings.MAX_LEN < num_page_frames (mapper (alloc o)))%nat.
Proof.
  intros Hroom H. unfold queue_full in H. destruct (Nat.leb_spec (max_len o) (num_queued o)) as [|Hq]; [done|]. split; [done|].
  unfold usize_sub in H. rewrite (proj2 (Nat.leb_le _ _) Hroom), M_bind_Ok in H. injection H as H. apply Z.leb_gt in H. lia.
Qed.
Lemma command_frame_ok ctl i : (i < num_command_frames ctl)%nat → Ring.command_frame ctl i = Ok i.
Proof. intros H. unfold Ring.command_frame. rewrite (proj2 (Nat.ltb_lt _ _) H). by destruct P. Qed.

(** The frame that the host may write. *)
Lemma inv_pos s sent received p t hc cc : inv s sent received p t hc cc → (0 < num_command_frames (ctl s))%nat.
Proof. intros [_ _ _ _ _ H]. destruct (written s); lia. Qed.
Lemma write_command_ok s sent received p t hc cc r : inv s sent received p t hc cc → written s = false →
  queue_full (obs s) = Ok false → ∃ f' a, 
  write_command (ctl s) (frames s) (obs s) r = Ok (<[next_command_frame (obs s) := f']> (frames s),
    {| queue := queue (obs s); next_command_frame := next_command_frame (obs s); num_queued := num_queued (obs s); alloc := a;
       waiting := waiting (obs s); num_to_discard := num_to_discard (obs s); max_len := max_len (obs s) |}) ∧
  frame_wf f' ∧ alloc_wf a ∧ mapper a = mapper (alloc (obs s)) ∧
  page_frames_allocated a = (page_frames_allocated (alloc (obs s)) + maps f')%nat.
Proof using Hreq.
  intros Hinv Hw Hfull. unfold write_command. rewrite Hfull, M_bind_Ok.
  assert (debug_assert (negb false) = Ok tt) as -> by (by destruct P). rewrite M_bind_Ok.
  destruct (queue_full_false _ (inv_room _ _ _ _ _ _ _ Hinv) Hfull) as [Hq Hp].
  pose proof (ring_lt _ (length sent) (inv_pos _ _ _ _ _ _ _ Hinv)) as Hlt. rewrite <- (inv_next _ _ _ _ _ _ _ Hinv) in Hlt.
  rewrite command_frame_ok, M_bind_Ok by done. rewrite <- (inv_frames _ _ _ _ _ _ _ Hinv) in Hlt.
  destruct (vget_lt _ _ Hlt) as (f & -> & Hf). rewrite M_bind_Ok.
  assert (frame_wf f) as Hfw by (eapply Forall_lookup_1; [exact (inv_wf _ _ _ _ _ _ _ Hinv)|exact Hf]).
  destruct (setup_ok r f (alloc (obs s)) Hfw (inv_alloc _ _ _ _ _ _ _ Hinv) Hp) as (f' & a & -> & Hf' & Ha & Hm & Hal & _).
  rewrite M_bind_Ok, vset_lt, M_bind_Ok by done. by exists f', a.
Qed.
Lemma inv_write s sent received p t hc cc r fs o : inv s sent received p t hc cc → written s = false →
  queue_full (obs s) = Ok false → write_command (ctl s) (frames s) (obs s) r = Ok (fs, o) →
  inv {| ctl := ctl s; frames := fs; obs := o; written := true; cl := cl s; phase := phase s |} sent received p t hc cc.
Proof using Hreq.
  intros Hinv Hw Hfull Hwrite.
  destruct (queue_full_false _ (inv_room _ _ _ _ _ _ _ Hinv) Hfull) as [Hq Hp].
  destruct (write_command_ok _ _ _ _ _ _ _ r Hinv Hw Hfull) as (f' & a & E & Hfw' & Ha & Hm & Hal). rewrite E in Hwrite. injection Hwrite as <- <-.
  pose proof Hinv as [Hf Hmax Hh Hc Hn Hwin Hqd Hph Hct Hrec Hfw _ Hroom (k & Hk & Hk0)]. rewrite Hw in Hwin, Hk0. subst k.
  pose proof (inv_pos _ _ _ _ _ _ _ Hinv) as Hpos.
  assert (next_command_frame (obs s) < length (frames s))%nat as Hlt by (rewrite Hn, Hf; by apply ring_lt).
  split; cbn [ctl frames obs written cl phase next_command_frame queue num_queued max_len alloc]; try done.
  - by rewrite length_insert.
  - rewrite Hmax in Hq. lia.
  - intros j f Hj Hle. rewrite Hn. erewrite content_insert; [by apply Hct|done|lia|lia|done|done|]. apply lookup_lt_Some in Hj. lia.
  - by apply Forall_insert.
  - by rewrite Hm.
  - eexists. split; [rewrite Hal, Hk, Nat.add_0_r; reflexivity|]. exists f'. split; [|done]. by apply list_lookup_insert_eq.
Qed.

Lemma publish_command_ok s sent received p t hc cc : inv s sent received p t hc cc →
  publish_command (ctl s) (obs s) = Ok (Control.update_next (ctl s) (S (length sent) `mod` num_command_frames (ctl s))%nat,
    {| queue := queue (obs s); next_command_frame := (S (length sent) `mod` num_command_frames (ctl s))%nat;
       num_queued := num_queued (obs s) + 1; alloc := alloc (obs s); waiting := waiting (obs s);
       num_to_discard := num_to_discard (obs s); max_len := max_len (obs s) |}).
Proof.
  intros Hinv. unfold publish_command. rewrite (inv_next _ _ _ _ _ _ _ Hinv), rem_ok by (by eapply inv_pos).
  by rewrite M_bind_Ok, ring_S.
Qed.
Lemma inv_publish s sent received p t hc cc f c o : inv s sent received p t hc cc → written s = true →
  frames s !! next_command_frame (obs s) = Some f → publish_command (ctl s) (obs s) = Ok (c, o) →
  inv {| ctl := c; frames := frames s; obs := o; written := false; cl := cl s; phase := phase s |} (sent ++ [f]) received p t hc cc.
Proof.
  intros Hinv Hw Hf Hpub. rewrite (publish_command_ok _ _ _ _ _ _ _ Hinv) in Hpub. injection Hpub as <- <-.
  pose proof Hinv as [Hfr Hmax Hh Hc Hn Hwin Hqd Hph Hct Hrec Hfw Ha Hroom (k & Hk & Hk0)]. rewrite Hw in Hwin, Hk0.
  destruct Hk0 as (f0 & Hf0 & ->). rewrite Hf in Hf0. injection Hf0 as <-. pose proof (inv_pos _ _ _ _ _ _ _ Hinv) as Hpos.
  pose proof (reads_order _ _ _ _ _ _ Hh) as Oh. pose proof (reads_order _ _ _ _ _ _ Hc) as Oc.
  assert (length received <= length sent)%nat as Hrs by lia.
  assert (p <= t)%nat as Hpt by (destruct (phase s); destruct Hph; lia).
  split; cbn [ctl frames obs written cl phase next_command_frame queue num_queued max_len alloc Control.update_next num_command_frames];
    rewrite ?length_app; cbn [length]; rewrite ?Nat.add_1_r; try done.
  - eapply reads_more; [exact Hh|done| |pose proof (reads_window _ _ _ _ _ _ Hh); lia]. apply (reads_pos _ _ _ _ _ _ Hh).
  - eapply reads_more; [exact Hc|done| |lia]. unfold current_pos, Client_CurrentPos, Control.next.
    cbn [cf_next Control.update_next num_command_frames]. rewrite rem_ok by done. by rewrite Nat.Div0.mod_mod.
  - lia.
  - lia.
  - intros j g [Hj|[Hj1 Hj2]]%lookup_app_Some Hle; [by apply Hct|]. apply list_lookup_singleton_Some in Hj2 as [Hj2 <-].
    assert (j = length sent) as -> by lia. rewrite Hn in Hf. rewrite Hf. unfold processed. cbn [phase].
    rewrite (proj2 (Nat.ltb_ge _ _)); [done|]. destruct (phase s); destruct Hph; lia.
  - rewrite fmap_app, take_app_le by (rewrite length_fmap; lia). done.
  - exists 0%nat. split; [|done]. rewrite drop_app_le, fmap_app by lia. rewrite sum_list_with_app. cbn. unfold maps in *. lia.
Qed.

(** The order of the four counters. *)
Lemma inv_order s sent received p t hc cc : inv s sent received p t hc cc →
  (length received <= p <= processed s p)%nat ∧ (processed s p <= t <= length sent)%nat ∧ (t <= S p)%nat.
Proof.
  intros [_ _ Hh Hc _ _ _ Hph _]. pose proof (reads_order _ _ _ _ _ _ Hh). pose proof (reads_order _ _ _ _ _ _ Hc).
  unfold processed. destruct (phase s); destruct Hph; lia.
Qed.
Lemma sum_drop_S (l : list frame) i f : l !! i = Some f →
  sum_list (maps <$> drop i l) = (maps f + sum_list (maps <$> drop (S i) l))%nat.
Proof. intros H. by rewrite (drop_S _ _ _ H). Qed.

(** The result of a look for a result. *)
Lemma receive_result_ok s sent received p t hc cc : inv s sent received p t hc cc → (0 < num_queued (obs s))%nat →
  ∃ o r, receive_result_unchecked (ctl s) (frames s) (obs s) false = Ok (o, r) ∧
  (r = None ↔ length received = p) ∧
  ∃ hc', inv {| ctl := ctl s; frames := frames s; obs := o; written := written s; cl := cl s; phase := phase s |} sent
    (received ++ match r with Some f => [f] | None => [] end) p t hc' cc.
Proof using observe_maps.
  intros Hinv Hq. pose proof (inv_order _ _ _ _ _ _ _ Hinv) as (O1 & O2 & _).
  pose proof Hinv as [Hfr Hmax Hh Hc Hn Hwin Hqd Hph Hct Hrec Hfw Ha Hroom (k & Hk & Hk0)].
  unfold receive_result_unchecked. assert (debug_assert (0 <? num_queued (obs s))%nat = Ok tt) as ->.
  { rewrite (proj2 (Nat.ltb_lt _ _) Hq). by destruct P. }
  rewrite M_bind_Ok. destruct (try_dequeue_ok _ _ _ _ _ _ Hh) as (q' & hc' & -> & Hh'). rewrite M_bind_Ok.
  destruct (Nat.eqb_spec (length received) p) as [Erp|Hne].
  - rewrite andb_false_r. do 2 eexists. split; [done|]. split; [done|]. exists hc'. rewrite app_nil_r.
    split; cbn [ctl frames obs written cl phase next_command_frame queue num_queued max_len alloc]; try done. by exists k.
  - destruct (lookup_lt_is_Some_2 sent (length received)) as [f Hf]; [lia|].
    pose proof (Hct _ _ Hf ltac:(lia)) as Hfrm. rewrite (proj2 (Nat.ltb_lt _ _)) in Hfrm by lia.
    rewrite (proj2 (vget_Ok_inv _ _ _) Hfrm), M_bind_Ok.
    pose proof (sum_drop_S sent (length received) f Hf) as Hsum. unfold maps in Hsum at 2.
    assert (Mappings.len (memory_mappings (observe f)) = Mappings.len (memory_mappings f)) as Em by (by rewrite observe_maps).
    unfold nat_sub. rewrite Em, (proj2 (Nat.leb_le (Mappings.len _) _)), M_bind_Ok by lia.
    rewrite (proj2 (Nat.leb_le 1 _)), M_bind_Ok by lia. do 2 eexists. split; [done|]. split; [split; [done|lia]|]. exists hc'.
    split; cbn [ctl frames obs written cl phase next_command_frame queue num_queued max_len alloc page_frames_allocated mapper];
      rewrite ?length_app; cbn [length]; rewrite ?Nat.add_1_r; try done.
    + lia.
    + lia.
    + intros j g Hj Hle. apply Hct; [done|lia].
    + rewrite Hrec at 1. symmetry. apply take_S_r. by rewrite list_lookup_fmap, Hf.
    + destruct Ha as [A1 A2 A3 A4 A5]. split; cbn; try done. lia.
    + exists k. split; [unfold maps in *; lia|]. done.
Qed.
Lemma inv_client_receive s sent received p t hc cc : inv s sent received p t hc cc → phase s = Idle →
  ∃ q o cc', Ring.try_dequeue (ctl s) (cl s) = Ok (q, o) ∧ (o = None ↔ p = length sent) ∧
  inv {| ctl := ctl s; frames := frames s; obs := obs s; written := written s; cl := q; phase := taken o |} sent received p
    (if (p =? length sent)%nat then p else S p) hc cc'.
Proof.
  intros Hinv Hidle. pose proof Hinv as [Hfr Hmax Hh Hc Hn Hwin Hqd Hph Hct Hrec Hfw Ha Hroom Hpg]. rewrite Hidle in Hph. subst t.
  destruct (try_dequeue_ok _ _ _ _ _ _ Hc) as (q' & cc' & E & Hc'). rewrite E.
  do 3 eexists. split; [done|]. split; [case_cmp; done|].
  split; cbn [ctl frames obs written cl phase]; try done.
  - case_cmp; by cbn [taken].
  - intros j f Hj Hle. rewrite (Hct j f Hj Hle). unfold processed. rewrite Hidle. cbn [phase]. by destruct (p =? length sent)%nat.
Qed.
Lemma inv_observe s sent received p t hc cc i f : inv s sent received p t hc cc → phase s = Busy i → frames s !! i = Some f →
  inv {| ctl := ctl s; frames := <[i := observe f]> (frames s); obs := obs s; written := written s; cl := cl s; phase := Done i |}
    sent received p t hc cc.
Proof using observe_maps.
  intros Hinv Hb Hf. pose proof (inv_order _ _ _ _ _ _ _ Hinv) as (O1 & O2 & O3).
  pose proof Hinv as [Hfr Hmax Hh Hc Hn Hwin Hqd Hph Hct Hrec Hfw Ha Hroom (k & Hk & Hk0)]. rewrite Hb in Hph. destruct Hph as [-> ->].
  pose proof (inv_pos _ _ _ _ _ _ _ Hinv) as Hpos.
  assert (p < length sent)%nat as Hlt by lia. destruct (lookup_lt_is_Some_2 sent p Hlt) as [g Hg].
  assert (f = g) as ->.
  { pose proof (Hct p g Hg ltac:(lia)) as E. unfold processed in E. rewrite Hb, Nat.ltb_irrefl in E. congruence. }
  assert (length sent `mod` num_command_frames (ctl s) ≠ p `mod` num_command_frames (ctl s))%nat as Hne.
  { intros E. symmetry in E. apply ring_eq in E; [lia|done|]. destruct (written s); lia. }
  split; cbn [ctl frames obs written cl phase]; try done.
  - by rewrite length_insert.
  - intros j h Hj Hle. unfold processed. cbn [phase]. destruct (decide (j = p)) as [->|Hjp].
    + rewrite list_lookup_insert_eq by (rewrite Hfr; by apply ring_lt). rewrite Hg in Hj. injection Hj as ->.
      by rewrite (proj2 (Nat.ltb_lt _ _)) by lia.
    + erewrite content_insert; [|done|lia|destruct (written s); lia|done|done|done]. rewrite (Hct j h Hj Hle).
      unfold processed. rewrite Hb. case_cmps; done || lia.
  - apply Forall_insert; [done|]. unfold frame_wf. rewrite observe_maps. by eapply (Forall_lookup_1 frame_wf) in Hf.
  - exists k. split; [done|]. destruct (written s); [|done]. destruct Hk0 as (h & Hh0 & ->). exists h. split; [|done].
    rewrite list_lookup_insert_ne; [done|]. rewrite Hn. congruence.
Qed.
Lemma inv_client_publish s sent received p t hc cc i : inv s sent received p t hc cc → phase s = Done i →
  inv {| ctl := Control.update_current (ctl s) (read_index (cl s)); frames := frames s; obs := obs s; written := written s;
         cl := cl s; phase := Idle |} sent received (S p) t hc cc.
Proof.
  intros Hinv Hd. pose proof (inv_order _ _ _ _ _ _ _ Hinv) as (O1 & O2 & O3).
  pose proof Hinv as [Hfr Hmax Hh Hc Hn Hwin Hqd Hph Hct Hrec Hfw Ha Hroom Hpg]. rewrite Hd in Hph. destruct Hph as [-> ->].
  pose proof (inv_pos _ _ _ _ _ _ _ Hinv) as Hpos.
  split; cbn [ctl frames obs written cl phase Control.update_current num_command_frames]; try done.
  - eapply reads_more; [exact Hh|done| |destruct (written s); lia]. unfold current_pos, Host_CurrentPos, Control.current.
    cbn [cf_current Control.update_current num_command_frames]. rewrite rem_ok, (reads_read _ _ _ _ _ _ Hc) by done. by rewrite Nat.Div0.mod_mod.
  - eapply reads_more; [exact Hc|done| |lia]. apply (reads_pos _ _ _ _ _ _ Hc).
  - intros j f Hj Hle. rewrite (Hct j f Hj Hle). unfold processed. rewrite Hd. done.
Qed.

(** ** Executions *)

Record initial (s : state) : Prop := {
  init_next : cf_next (ctl s) = 0%nat;
  init_current : cf_current (ctl s) = 0%nat;
  init_n : (0 < num_command_frames (ctl s))%nat;
  init_frames : length (frames s) = num_command_frames (ctl s) ∧ Forall frame_wf (frames s);
  init_host : read_index (queue (obs s)) = 0%nat ∧ cached_current_pos (queue (obs s)) = 0%nat;
  init_obs : next_command_frame (obs s) = 0%nat ∧ num_queued (obs s) = 0%nat ∧ max_len (obs s) = (num_command_frames (ctl s) - 1)%nat;
  init_alloc : alloc_wf (alloc (obs s)) ∧ page_frames_allocated (alloc (obs s)) = 0%nat ∧
    (Mappings.MAX_LEN <= num_page_frames (mapper (alloc (obs s))))%nat;
  init_client : read_index (cl s) = 0%nat ∧ cached_current_pos (cl s) = 0%nat ∧ phase s = Idle ∧ written s = false }.
Lemma initial_inv s : initial s → inv s [] [] 0 0 0 0.
Proof.
  intros [I1 I2 I3 [I4 I4'] [I5 I6] (I7 & I8 & I9) (I10 & I11 & I12) (I13 & I14 & I15 & I16)].
  assert (0 `mod` num_command_frames (ctl s) = 0)%nat as E0 by apply Nat.Div0.mod_0_l.
  split; cbn [length]; rewrite ?I15, ?I16, ?E0; try done; try lia.
  - split; rewrite ?E0; try done; try lia. unfold current_pos, Host_CurrentPos, Control.current. by rewrite I2, rem_ok, E0.
  - split; rewrite ?E0; try done; try lia. unfold current_pos, Client_CurrentPos, Control.next. by rewrite I1, rem_ok, E0.
  - exists 0%nat. by rewrite I11.
Qed.

(** The abstract queue: requests that wait and results that wait, in order. *)
Record fifo := { pending : list frame; results : list frame }.
Inductive fifo_step (capacity : nat) : fifo → label → fifo → Prop :=
| fifo_enq q f : (length (pending q) + length (results q) < capacity)%nat →
    fifo_step capacity q (Enq f) {| pending := pending q ++ [f]; results := results q |}
| fifo_proc f l r : fifo_step capacity {| pending := f :: l; results := r |} Proc {| pending := l; results := r ++ [observe f] |}
| fifo_deq f l r : fifo_step capacity {| pending := l; results := f :: r |} (Deq f) {| pending := l; results := r |}
| fifo_tau q : fifo_step capacity q Tau q.

Definition abs (sent received : list frame) (p : nat) : fifo :=
  {| pending := drop p sent; results := observe <$> drop (length received) (take p sent) |}.
Definition out (l : label) : list frame := match l with Deq f => [f] | _ => [] end.
Definition into (l : label) : list frame := match l with Enq f => [f] | _ => [] end.

Lemma client_simulation s sent received p t hc cc l s' : inv s sent received p t hc cc → client_step s l s' →
  ∃ p' t' cc', inv s' sent received p' t' hc cc' ∧ into l = [] ∧ out l = [] ∧
    fifo_step (max_len (obs s)) (abs sent received p) l (abs sent received p').
Proof using observe_maps.
  intros Hinv Hst. destruct Hst as [s q o Hidle Hq|s i f Hb Hf|s i Hd].
  - destruct (inv_client_receive _ _ _ _ _ _ _ Hinv Hidle) as (q' & o' & cc' & E & _ & Hinv'). rewrite E in Hq. injection Hq as <- <-.
    do 3 eexists. split; [exact Hinv'|]. split; [done|]. split; [done|]. constructor.
  - do 3 eexists. split; [by eapply inv_observe|]. split; [done|]. split; [done|]. constructor.
  - pose proof (inv_order _ _ _ _ _ _ _ Hinv) as (O1 & O2 & O3). pose proof (inv_phase _ _ _ _ _ _ _ Hinv) as Hph.
    rewrite Hd in Hph. destruct Hph as [-> _]. destruct (lookup_lt_is_Some_2 sent p) as [f Hf]; [lia|].
    do 3 eexists. split; [by eapply inv_client_publish|]. split; [done|]. split; [done|]. unfold abs.
    rewrite (drop_S _ _ _ Hf), (take_S_r _ _ _ Hf), drop_app_le, fmap_app by (rewrite length_take; lia). constructor.
Qed.
Lemma simulation s sent received p t hc cc l s' : inv s sent received p t hc cc → step s l s' →
  ∃ p' t' hc' cc', inv s' (sent ++ into l) (received ++ out l) p' t' hc' cc' ∧
    fifo_step (max_len (obs s)) (abs sent received p) l (abs (sent ++ into l) (received ++ out l) p').
Proof using All.
  intros Hinv Hst. pose proof (inv_order _ _ _ _ _ _ _ Hinv) as (O1 & O2 & O3).
  destruct Hst as [s r fs o Hw Hfull Hwr|s f c o Hw Hf Hpub|s o r Hw Hq Hrec|s l s' Hc].
  - cbn [into out]. rewrite !app_nil_r. do 4 eexists. split; [by eapply inv_write|]. constructor.
  - cbn [into out]. rewrite !app_nil_r. do 4 eexists. split; [by eapply inv_publish|]. unfold abs.
    rewrite drop_app_le, take_app_le by lia. apply (fifo_enq _ (abs sent received p)). cbn [pending results abs].
    rewrite length_fmap, !length_drop, length_take. pose proof (inv_window _ _ _ _ _ _ _ Hinv) as Hwin. rewrite Hw in Hwin.
    rewrite (inv_max _ _ _ _ _ _ _ Hinv). lia.
  - destruct (receive_result_ok _ _ _ _ _ _ _ Hinv Hq) as (o' & r' & E & Hnone & hc' & Hinv'). rewrite E in Hrec. injection Hrec as <- <-.
    exists p, t, hc', cc. destruct r' as [f|]; cbn [deq_label into out] in *; rewrite ?app_nil_r in *; [|split; [done|constructor]].
    split; [done|]. unfold abs. assert (length received ≠ p) as Hne by (intros Ep; by apply Hnone in Ep).
    destruct (lookup_lt_is_Some_2 sent (length received)) as [g Hg]; [lia|].
    assert (f = observe g) as ->.
    { pose proof (inv_received _ _ _ _ _ _ _ Hinv') as Hr. rewrite length_app in Hr. cbn [length] in Hr. rewrite Nat.add_1_r in Hr.
      rewrite (take_S_r _ _ (observe g)), <- (inv_received _ _ _ _ _ _ _ Hinv) in Hr by (by rewrite list_lookup_fmap, Hg).
      apply app_inj_2 in Hr as [_ Hr]; [by injection Hr|done]. }
    rewrite length_app. cbn [length]. rewrite Nat.add_1_r.
    rewrite (drop_S (take p sent) g (length received)) by (rewrite lookup_take_lt by lia; done). constructor.
  - destruct (client_simulation _ _ _ _ _ _ _ _ _ Hinv Hc) as (p' & t' & cc' & Hinv' & -> & -> & Hf).
    rewrite !app_nil_r. by exists p', t', hc, cc'.
Qed.
Lemma step_max s l s' sent received p t hc cc : inv s sent received p t hc cc → step s l s' →
  num_command_frames (ctl s') = num_command_frames (ctl s).
Proof.
  intros Hinv Hst. destruct Hst as [s r fs o _ _ _|s f c o _ _ Hpub|s o r _ _ _|s l s' Hc]; [done| |done|by destruct Hc].
  cbn [ctl].
  rewrite (publish_command_ok _ _ _ _ _ _ _ Hinv) in Hpub. by injection Hpub as <- <-.
Qed.
Lemma runs_inv s0 sent received s : initial s0 → runs s0 sent received s → ∃ p t hc cc, inv s sent received p t hc cc.
Proof using All.
  intros H0 Hr. induction Hr as [|sent received s l s' Hr (p & t & hc & cc & IH) Hst];
    [do 4 eexists; by apply initial_inv|].
  destruct (simulation _ _ _ _ _ _ _ _ _ IH Hst) as (p' & t' & hc' & cc' & Hinv & _). by exists p', t', hc', cc'.
Qed.

(** ** Theorems about the system *)

(** C2: refinement.  The system implements a bounded FIFO queue of capacity
    [num_command_frames - 1]: starting from the empty queue, every step of any
    interleaving is the step of the abstract queue with the same label, or none. *)
Theorem queue_refines_fifo s0 : initial s0 → ∃ related : state → fifo → Prop,
  related s0 {| pending := []; results := [] |} ∧
  ∀ s q l s', related s q → step s l s' → ∃ q',
    fifo_step (num_command_frames (ctl s0) - 1) q l q' ∧ related s' q'.
Proof using All.
  intros H0. exists (λ s q, num_command_frames (ctl s) = num_command_frames (ctl s0) ∧ ∃ sent received p t hc cc,
    inv s sent received p t hc cc ∧ q = abs sent received p). split.
  - split; [done|]. exists [], [], 0%nat, 0%nat, 0%nat, 0%nat. split; [by apply initial_inv|done].
  - intros s q l s' [Hn (sent & received & p & t & hc & cc & Hinv & ->)] Hst.
    destruct (simulation _ _ _ _ _ _ _ _ _ Hinv Hst) as (p' & t' & hc' & cc' & Hinv' & Hf).
    rewrite (inv_max _ _ _ _ _ _ _ Hinv), Hn in Hf. eexists. split; [exact Hf|].
    split; [by rewrite (step_max _ _ _ _ _ _ _ _ _ Hinv Hst)|]. by do 6 eexists.
Qed.

(** In every execution the host has received the results of the first requests it
    sent, in the order in which it sent them. *)
Theorem results_in_order s0 sent received s : initial s0 → runs s0 sent received s →
  received = take (length received) (observe <$> sent) ∧ (num_queued (obs s) + length received = length sent)%nat.
Proof using All.
  intros H0 Hr. destruct (runs_inv _ _ _ _ H0 Hr) as (p & t & hc & cc & Hinv).
  split; [by apply (inv_received _ _ _ _ _ _ _ Hinv)|by apply (inv_queued _ _ _ _ _ _ _ Hinv)].
Qed.

(** C25: safety.  While the client works on a frame, it is not the frame that the host
    writes next, nor a frame whose result the host can read; the host never writes a
    frame that holds a request or a result that has not been received. *)
Theorem no_shared_frame s0 sent received s : initial s0 → runs s0 sent received s →
  (∀ i, phase s = Busy i ∨ phase s = Done i → i ≠ next_command_frame (obs s)) ∧
  (∀ i o f, phase s = Busy i ∨ phase s = Done i → (0 < num_queued (obs s))%nat →
    receive_result_unchecked (ctl s) (frames s) (obs s) false = Ok (o, Some f) → i ≠ read_index (queue (obs s))) ∧
  (∀ j, (length received <= j < length sent)%nat → (j `mod` num_command_frames (ctl s))%nat ≠ next_command_frame (obs s)).
Proof using All.
  intros H0 Hr. destruct (runs_inv _ _ _ _ H0 Hr) as (p & t & hc & cc & Hinv).
  pose proof (inv_order _ _ _ _ _ _ _ Hinv) as (O1 & O2 & O3). pose proof (inv_pos _ _ _ _ _ _ _ Hinv) as Hpos.
  assert (∀ j, (length received <= j < length sent)%nat → (j `mod` num_command_frames (ctl s))%nat ≠ next_command_frame (obs s)) as Hfree.
  { intros j Hj. rewrite (inv_next _ _ _ _ _ _ _ Hinv). intros E. pose proof (inv_window _ _ _ _ _ _ _ Hinv) as Hw.
    apply ring_eq in E; [lia|done|]. destruct (written s); lia. }
  assert (∀ i, phase s = Busy i ∨ phase s = Done i → t = S p ∧ i = (p `mod` num_command_frames (ctl s))%nat) as Hi.
  { pose proof (inv_phase _ _ _ _ _ _ _ Hinv) as Hph. intros i [E|E]; by rewrite E in Hph. }
  split; [|split; [|done]].
  - intros i [-> ->]%Hi. apply Hfree. lia.
  - intros i o f [-> ->]%Hi Hq Hrec. destruct (receive_result_ok _ _ _ _ _ _ _ Hinv Hq) as (o' & r' & E & Hnone & _).
    rewrite E in Hrec. injection Hrec as _ ->. rewrite (reads_read _ _ _ _ _ _ (inv_host _ _ _ _ _ _ _ Hinv)).
    intros Ep. symmetry in Ep. pose proof (reads_window _ _ _ _ _ _ (inv_host _ _ _ _ _ _ _ Hinv)).
    apply ring_eq in Ep; [|done|lia]. by apply Hnone in Ep.
Qed.

(** C29: bounds.  No operation of either side panics in a reachable state, the queue is
    never longer than [max_len], and every frame index is in range. *)
Theorem queue_never_panics s0 sent received s : initial s0 → runs s0 sent received s →
  (num_queued (obs s) <= max_len (obs s))%nat ∧ (next_command_frame (obs s) < length (frames s))%nat ∧
  (∃ b, queue_full (obs s) = Ok b) ∧
  (∀ r, written s = false → queue_full (obs s) = Ok false → ∃ x, write_command (ctl s) (frames s) (obs s) r = Ok x) ∧
  (∃ x, publish_command (ctl s) (obs s) = Ok x) ∧
  ((0 < num_queued (obs s))%nat → ∃ x, receive_result_unchecked (ctl s) (frames s) (obs s) false = Ok x) ∧
  (phase s = Idle → ∃ x, Ring.try_dequeue (ctl s) (cl s) = Ok x).
Proof using All.
  intros H0 Hr. destruct (runs_inv _ _ _ _ H0 Hr) as (p & t & hc & cc & Hinv). pose proof (inv_pos _ _ _ _ _ _ _ Hinv) as Hpos.
  pose proof (inv_window _ _ _ _ _ _ _ Hinv) as Hwin. pose proof (inv_queued _ _ _ _ _ _ _ Hinv) as Hqd.
  rewrite (inv_max _ _ _ _ _ _ _ Hinv). split; [destruct (written s); lia|].
  split; [rewrite (inv_next _ _ _ _ _ _ _ Hinv), (inv_frames _ _ _ _ _ _ _ Hinv); by apply ring_lt|].
  split; [|split; [|split; [|split]]].
  - unfold queue_full. case_cmp; [by eexists|]. unfold usize_sub. rewrite (proj2 (Nat.leb_le _ _) (inv_room _ _ _ _ _ _ _ Hinv)). by eexists.
  - intros r Hw Hfull. destruct (write_command_ok _ _ _ _ _ _ _ r Hinv Hw Hfull) as (f' & a & -> & _). by eexists.
  - rewrite (publish_command_ok _ _ _ _ _ _ _ Hinv). by eexists.
  - intros Hq. destruct (receive_result_ok _ _ _ _ _ _ _ Hinv Hq) as (o & r & -> & _). by eexists.
  - intros Hidle. destruct (inv_client_receive _ _ _ _ _ _ _ Hinv Hidle) as (q & o & cc' & -> & _). by eexists.
Qed.

(** ** Progress *)

Inductive client_run : nat → state → state → Prop :=
| client_run_0 s : client_run 0 s s
| client_run_S k s l s1 s' : client_step s l s1 → client_run k s1 s' → client_run (S k) s s'.
Definition stage (s : state) : nat := match phase s with Idle => 0 | Busy _ => 1 | Done _ => 2 end.
(** One step of the client with a request outstanding. *)
Lemma client_step_ok s sent received p t hc cc : inv s sent received p t hc cc → (p < length sent)%nat →
  (∃ l s', client_step s l s') ∧ ∀ l s', client_step s l s' → ∃ p' t' cc', inv s' sent received p' t' hc cc' ∧
    (3 * p' + stage s' = S (3 * p + stage s))%nat ∧ num_queued (obs s') = num_queued (obs s).
Proof using observe_maps.
  intros Hinv Hp. pose proof (inv_phase _ _ _ _ _ _ _ Hinv) as Hph. split.
  - destruct (phase s) as [|i|i] eqn:E.
    + destruct (inv_client_receive _ _ _ _ _ _ _ Hinv E) as (q & o & cc' & Hq & _). do 2 eexists. by eapply client_receive.
    + destruct Hph as [_ ->]. destruct (lookup_lt_is_Some_2 (frames s) (p `mod` num_command_frames (ctl s))) as [f Hf].
      { rewrite (inv_frames _ _ _ _ _ _ _ Hinv). apply ring_lt. by eapply inv_pos. }
      do 2 eexists. by eapply client_observe.
    + do 2 eexists. by eapply client_publish.
  - intros l s' Hst. destruct Hst as [s q o Hidle Hq|s i f Hb Hf|s i Hd].
    + destruct (inv_client_receive _ _ _ _ _ _ _ Hinv Hidle) as (q' & o' & cc' & E & Ho & Hinv'). rewrite E in Hq. injection Hq as <- <-.
      do 3 eexists. split; [exact Hinv'|]. split; [|done]. unfold stage. cbn [phase]. rewrite Hidle.
      destruct o' as [i|]; [cbn; lia|]. destruct Ho as [Ho _]. specialize (Ho eq_refl). lia.
    + do 3 eexists. split; [by eapply inv_observe|]. split; [|done]. unfold stage. cbn [phase]. rewrite Hb. lia.
    + do 3 eexists. split; [by eapply inv_client_publish|]. split; [|done]. unfold stage. cbn [phase]. rewrite Hd. lia.
Qed.
Lemma client_run_ok k : ∀ s sent received p t hc cc, inv s sent received p t hc cc →
  (3 * p + stage s + k <= 3 * length sent)%nat → (∃ s', client_run k s s') ∧
  ∀ s', client_run k s s' → ∃ p' t' cc', inv s' sent received p' t' hc cc' ∧
    (3 * p' + stage s' = 3 * p + stage s + k)%nat ∧ num_queued (obs s') = num_queued (obs s).
Proof using observe_maps.
  induction k as [|k IH]; intros s sent received p t hc cc Hinv Hk.
  - split; [eexists; constructor|]. intros s' Hr. inversion Hr; subst. exists p, t, cc. split; [done|]. split; [lia|done].
  - destruct (client_step_ok _ _ _ _ _ _ _ Hinv) as [(l & s1 & H1) Hall]; [lia|]. split.
    + destruct (Hall l s1 H1) as (p1 & t1 & cc1 & Hinv1 & E1 & _).
      destruct (IH _ _ _ _ _ _ _ Hinv1) as [[s' Hr] _]; [lia|]. exists s'. by econstructor.
    + intros s' Hr. inversion Hr as [|? ? l0 s2 ? H2 Hr2]; subst. destruct (Hall l0 s2 H2) as (p1 & t1 & cc1 & Hinv1 & E1 & Q1).
      destruct (IH _ _ _ _ _ _ _ Hinv1) as [_ Hall2]; [lia|]. destruct (Hall2 s' Hr2) as (p' & t' & cc' & Hinv' & E' & Q').
      exists p', t', cc'. split; [done|]. split; [lia|congruence].
Qed.

(** C35: liveness.  If the host waits for a result, the client can take up to three
    steps, and after these, whichever they are, the host's next look finds the result
    of the oldest request. *)
Theorem result_arrives s0 sent received s f : initial s0 → runs s0 sent received s → sent !! length received = Some f →
  ∃ k, (k <= 3)%nat ∧ (∃ s', client_run k s s') ∧ ∀ s', client_run k s s' → ∃ o,
    receive_result_unchecked (ctl s') (frames s') (obs s') false = Ok (o, Some (observe f)).
Proof using All.
  intros H0 Hr Hf. destruct (runs_inv _ _ _ _ H0 Hr) as (p & t & hc & cc & Hinv).
  pose proof (inv_order _ _ _ _ _ _ _ Hinv) as (O1 & O2 & O3). pose proof (lookup_lt_Some _ _ _ Hf) as Hlt.
  pose proof (inv_queued _ _ _ _ _ _ _ Hinv) as Hqd.
  set (k := if (length received =? p)%nat then (3 - stage s)%nat else 0%nat). exists k.
  assert (stage s <= 2)%nat as Hst by (unfold stage; destruct (phase s); lia).
  assert (k <= 3)%nat as Hk3 by (unfold k; case_cmp; lia). split; [done|].
  destruct (client_run_ok k _ _ _ _ _ _ _ Hinv) as [Hex Hall].
  { unfold k. case_cmp; [lia|]. pose proof (inv_phase _ _ _ _ _ _ _ Hinv) as Hph. unfold stage. destruct (phase s); [lia|destruct Hph; lia..]. }
  split; [done|]. intros s' Hr'. destruct (Hall s' Hr') as (p' & t' & cc' & Hinv' & E & Q).
  destruct (receive_result_ok _ _ _ _ _ _ _ Hinv' ltac:(lia)) as (o & r & Erec & Hnone & hc' & Hinv2). exists o. rewrite Erec.
  assert (length received < p')%nat as Hp'.
  { unfold k in E. assert (stage s' <= 2)%nat by (unfold stage; destruct (phase s'); lia).
    revert E. case_cmp; intros E; lia. }
  destruct r as [g|]; [|exfalso; destruct Hnone as [Hn _]; specialize (Hn eq_refl); lia]. f_equal. f_equal. f_equal.
  pose proof (inv_received _ _ _ _ _ _ _ Hinv2) as Hrr. rewrite length_app in Hrr. cbn [length] in Hrr. rewrite Nat.add_1_r in Hrr.
  rewrite (take_S_r _ _ (observe f)), <- (inv_received _ _ _ _ _ _ _ Hinv) in Hrr by (by rewrite list_lookup_fmap, Hf).
  apply app_inj_2 in Hrr as [_ Hrr]; [by injection Hrr|done].
Qed.
End system.
