(* ===== verification/PagesFacts.v ===== *)
(** * Memory mappings and page frames of the observer

    The packed representation of mappings, the fixed array of mappings of a command
    frame, the ring of page frames, and a kind of request that meets the contract of
    the queue. *)
From S2P Require Import Prelude MachInt Utils Shmqueue ShmqueueFacts.

(** ** Packed mappings *)

Lemma shiftl_perm_testbit p k : 0 <= k → Z.testbit (wrap 64 (Z.shiftl (permissions_u8 p) 52)) k =
  (k <? 64) && Z.testbit (permissions_u8 p) (k - 52).
Proof. intros Hk. rewrite testbit_wrap, Z.shiftl_spec by lia. done. Qed.
Lemma permissions_u8_high p k : 2 <= k → Z.testbit (permissions_u8 p) k = false.
Proof. intros Hk. apply (testbit_u_high 2); [destruct p; done|lia]. Qed.

Lemma mapping_ok {P : profile} addr i p : is_u 64 addr → 0 <= i → i < 2 ^ 16 → ∃ m, Mapping.new addr i p = Ok m ∧
  Mapping.permissions m = Some p ∧ Mapping.page_start_addr m = Z.land addr (not_u 64 0xfff) ∧ Mapping.frame_index m = i ∧
  is_u 64 (packed_page_info m) ∧ is_u 16 (frame_index_ m).
Proof.
  intros Ha Hi0 Hi. unfold Mapping.new. assert (debug_assert (i <=? 0xffff) = Ok tt) as ->.
  { rewrite (proj2 (Z.leb_le _ _)) by lia. by destruct P. }
  rewrite M_bind_Ok. eexists. split; [done|]. unfold Mapping.permissions, Mapping.page_start_addr, Mapping.frame_index.
  cbn [packed_page_info frame_index_]. assert (is_u 64 (Z.lor (Z.shiftr addr 12) (wrap 64 (Z.shiftl (permissions_u8 p) 52)))) as Hu.
  { apply is_u_lor; [lia|apply is_u_shiftr; [lia|lia|done]|apply wrap_is_u; lia]. }
  split; [|split; [|split; [|split; [done|apply wrap_is_u; lia]]]].
  - replace (wrap 8 _) with (permissions_u8 p); [by destruct p|].
    apply (u_ext 8); [lia|destruct p; done|apply wrap_is_u; lia|]. intros k Hk.
    rewrite testbit_wrap, Z.shiftr_spec, Z.lor_spec, Z.shiftr_spec, shiftl_perm_testbit by lia.
    rewrite (testbit_u_high 64 addr) by (done || lia). replace (k + 52 - 52) with k by lia. case_cmps; done.
  - apply (u_ext 64); [lia|apply wrap_is_u; lia|apply is_u_land; [lia|done|apply wrap_is_u; lia]|]. intros k Hk.
    rewrite testbit_wrap, Z.shiftl_spec, Z.land_spec by lia. unfold not_u. rewrite testbit_wrap, Z.lnot_spec by lia.
    change 0xfff with (Z.ones 12). destruct (Z.ltb_spec k 64); [|lia]. cbn [andb]. destruct (Z_lt_dec k 12).
    + rewrite Z.testbit_neg_r, Z.ones_spec_low by lia. by rewrite andb_false_r.
    + rewrite Z.lor_spec, Z.shiftr_spec, shiftl_perm_testbit, Z.ones_spec_high by lia. rewrite andb_true_r.
      replace (k - 12 + 12) with k by lia. rewrite (Z.testbit_neg_r (permissions_u8 p)) by lia. by rewrite andb_false_r, orb_false_r.
  - apply wrap_small. by split.
Qed.
(** A mapping holds the page of the address, the frame index and the permissions;
    the low 12 bits of the address are dropped and nothing else. *)
Theorem mapping_roundtrip {P : profile} addr i p : is_u 64 addr → 0 <= i → i < 2 ^ 16 → ∃ m, Mapping.new addr i p = Ok m ∧
  Mapping.permissions m = Some p ∧ Mapping.page_start_addr m = Z.land addr (not_u 64 0xfff) ∧ Mapping.frame_index m = i ∧
  is_u 64 (packed_page_info m) ∧ is_u 16 (frame_index_ m).
Proof. apply mapping_ok. Qed.
Lemma mapping_roundtrip_witness : ∃ m, Mapping.new (P := Dev) 0x7fff12345678 3 ReadWrite = Ok m ∧
  Mapping.page_start_addr m = 0x7fff12345000.
Proof.
  destruct (mapping_roundtrip (P := Dev) 0x7fff12345678 3 ReadWrite) as (m & Hm & _ & Ha & _); [done|lia|lia|].
  exists m. split; [exact Hm|]. rewrite Ha. reflexivity.
Defined.

(** ** Arrays of mappings *)

Lemma fill_ok l : ∀ data k, (k + length l <= length data)%nat → ∃ data', Mappings.fill l data k = Ok (data', k + length l)%nat ∧
  length data' = length data ∧ take (k + length l) data' = take k data ++ l.
Proof.
  induction l as [|m l IH]; intros data k Hk; cbn [Mappings.fill length] in *.
  - exists data. rewrite Nat.add_0_r, app_nil_r. done.
  - rewrite vset_lt, M_bind_Ok by lia. destruct (IH (<[k:=m]> data) (k + 1)%nat) as (d & -> & Hl & Ht); [rewrite length_insert; lia|].
    exists d. replace (k + S (length l))%nat with (k + 1 + length l)%nat by lia. rewrite Hl, length_insert. split; [done|]. split; [done|].
    rewrite Ht. rewrite Nat.add_1_r, (take_S_r _ _ m) by (apply list_lookup_insert_eq; lia). rewrite take_insert_ge by lia.
    by rewrite <- app_assoc.
Qed.
Lemma fill_panics l : ∀ data k, (k <= length data)%nat → (length data < k + length l)%nat → Mappings.fill l data k = Panic.
Proof.
  induction l as [|m l IH]; intros data k Hk Hl; cbn [Mappings.fill length] in *; [lia|]. unfold vset.
  case_bool_decide; [|done]. rewrite M_bind_Ok. apply IH; rewrite length_insert; lia.
Qed.
(** A command frame takes up to 64 mappings, whatever it held before, and gives
    them back in order; more of them panic. *)
Theorem recycle_active self l : length (mappings self) = Mappings.MAX_LEN →
  ((length l <= Mappings.MAX_LEN)%nat → ∃ m, Mappings.recycle self l = Ok m ∧ Mappings.active m = Ok l ∧
     Mappings.len m = length l ∧ length (mappings m) = Mappings.MAX_LEN) ∧
  ((Mappings.MAX_LEN < length l)%nat → Mappings.recycle self l = Panic).
Proof.
  intros Hs. split; intros Hl; unfold Mappings.recycle.
  - destruct (fill_ok l (mappings self) 0) as (d & -> & Hd & Ht); [lia|]. rewrite M_bind_Ok. eexists. split; [done|].
    unfold Mappings.active, Mappings.len. cbn [count mappings]. rewrite (proj2 (Nat.leb_le _ _)) by lia. rewrite Ht. repeat split; lia || done.
  - rewrite fill_panics by lia. done.
Qed.
Lemma recycle_active_witness : ∃ m, Mappings.recycle Mappings.default [Mapping.empty] = Ok m ∧ Mappings.active m = Ok [Mapping.empty].
Proof.
  destruct (recycle_active Mappings.default [Mapping.empty]) as [H _]; [reflexivity|]. destruct H as (m & H1 & H2 & _); [cbn; unfold Mappings.MAX_LEN; lia|].
  exists m. split; [exact H1|exact H2].
Defined.

(** ** The ring of page frames *)

(** [total] allocations so far; the last [page_frames_allocated] of them are in use. *)
Record ring_alloc (a : PageAllocator) (total : nat) : Prop := {
  ra_next : next_page_frame a = (total `mod` num_page_frames (mapper a))%nat;
  ra_live : (page_frames_allocated a <= total)%nat;
  ra_wf : alloc_wf a }.
Definition page_frame (m : PageMapper) (k : nat) : nat := (k `mod` num_page_frames m + min_index m)%nat.
Lemma take_frame_ok a total : ring_alloc a total → (page_frames_allocated a + 1 < num_page_frames (mapper a))%nat →
  ∃ a', Alloc.take_frame a = Ok (a', page_frame (mapper a) total) ∧ ring_alloc a' (S total) ∧ mapper a' = mapper a ∧ pages a' = pages a ∧
    page_frames_allocated a' = S (page_frames_allocated a).
Proof.
  intros [Hn Hl [W1 W2 W3 W4 W5]] Hroom. unfold Alloc.take_frame. rewrite Hn, rem_ok, M_bind_Ok, ring_S by lia.
  rewrite (proj2 (Nat.leb_gt _ _)) by lia. pose proof (ring_lt (num_page_frames (mapper a)) total ltac:(lia)).
  unfold Alloc.page_mut. rewrite (proj2 (Nat.ltb_lt _ _)) by lia. cbn [rassert]. rewrite M_bind_Ok.
  rewrite (proj2 (Nat.leb_le _ _)) by lia. cbn [rassert]. rewrite !M_bind_Ok. eexists. split; [done|].
  cbn [mapper pages page_frames_allocated]. rewrite Nat.add_1_r. repeat split; cbn; try done; try lia.
  apply ring_lt. lia.
Qed.
(** Safety.  The page frame of a new allocation belongs to the queue and is none of
    the page frames in use (the last ones allocated, which are freed in order). *)
Theorem page_frame_fresh a total a' i : ring_alloc a total → Alloc.take_frame a = Ok (a', i) →
  ring_alloc a' (S total) ∧ (min_index (mapper a) <= i < min_index (mapper a) + num_page_frames (mapper a))%nat ∧
  ∀ k, (total - page_frames_allocated a <= k < total)%nat → i ≠ page_frame (mapper a) k.
Proof.
  intros Hra Ht. pose proof Hra as [Hn Hl [W1 W2 W3 W4 W5]].
  destruct (decide (page_frames_allocated a + 1 < num_page_frames (mapper a))%nat) as [Hroom|Hfull].
  - destruct (take_frame_ok a total Hra Hroom) as (a1 & E & Hra1 & _). rewrite E in Ht. injection Ht as <- <-. split; [done|].
    unfold page_frame. pose proof (ring_lt (num_page_frames (mapper a)) total ltac:(lia)). split; [lia|].
    intros k Hk E2. assert (k `mod` num_page_frames (mapper a) = total `mod` num_page_frames (mapper a))%nat as E3 by lia.
    apply ring_eq in E3; lia.
  - unfold Alloc.take_frame in Ht. rewrite rem_ok, M_bind_Ok, (proj2 (Nat.leb_le _ _)) in Ht by lia. done.
Qed.
Definition example_alloc : PageAllocator :=
  {| next_page_frame := 0; page_frames_allocated := 0; mapper := {| min_index := 0; num_page_frames := 66 |};
     pages := replicate 66 (replicate 4096 0) |}.
Lemma example_alloc_wf : alloc_wf example_alloc.
Proof.
  split; cbn [next_page_frame page_frames_allocated mapper num_page_frames min_index pages example_alloc]; [lia..|rewrite length_replicate; lia| |lia].
  intros i p [-> _]%lookup_replicate. apply length_replicate.
Qed.
Lemma page_frame_fresh_witness : ∃ a', Alloc.take_frame example_alloc = Ok (a', 0%nat) ∧ ring_alloc a' 1.
Proof.
  destruct (take_frame_ok example_alloc 0) as (a' & E & _); [split; [reflexivity|cbn; lia|apply example_alloc_wf]|cbn; lia|].
  exists a'. split; [exact E|]. apply (page_frame_fresh example_alloc 0 a' 0%nat); [|exact E].
  split; [reflexivity|cbn; lia|apply example_alloc_wf].
Defined.

(** ** Writing pages *)

Lemma copy_into_ok page off data : (off + length data <= length page)%nat → ∃ page', Alloc.copy_into page off data = Ok page' ∧
  length page' = length page ∧ ∀ k, page' !! k =
    if bool_decide (off <= k < off + length data)%nat then data !! (k - off)%nat else page !! k.
Proof.
  intros H. unfold Alloc.copy_into. rewrite (proj2 (Nat.leb_le _ _) H). eexists. split; [done|]. split.
  - rewrite !length_app, length_take, length_drop. lia.
  - intros k. case_bool_decide.
    + rewrite lookup_app_r by (rewrite length_take; lia). rewrite length_take, lookup_app_l by lia. f_equal. lia.
    + destruct (decide (k < off)%nat).
      * rewrite lookup_app_l, lookup_take_lt by (rewrite ?length_take; lia). done.
      * rewrite lookup_app_r, lookup_app_r, lookup_drop by (rewrite ?length_take; lia). f_equal. rewrite length_take. lia.
Qed.
Lemma page_offset_lt addr : (Alloc.page_offset addr < PAGE)%nat.
Proof.
  unfold Alloc.page_offset. change 0xfff with (Z.ones 12). rewrite Z.land_ones by lia.
  pose proof (Z.mod_pos_bound addr (2 ^ 12) ltac:(lia)). change (2 ^ 12) with 4096 in *. unfold PAGE. lia.
Qed.
Definition page_base_u64 addr : is_u 64 addr → is_u 64 (Alloc.page_base addr).
Proof. intros H. apply is_u_land; [lia|done|apply wrap_is_u; lia]. Qed.

Lemma allocate_page_ok {P : profile} fill a total addr data p : ring_alloc a total →
  (page_frames_allocated a + 1 < num_page_frames (mapper a))%nat → is_u 64 addr →
  (Alloc.page_offset addr + length data <= PAGE)%nat →
  ∃ a' m page', Alloc.allocate_page fill a addr data p = Ok (a', m) ∧ ring_alloc a' (S total) ∧ mapper a' = mapper a ∧
    page_frames_allocated a' = S (page_frames_allocated a) ∧
    Mapping.frame_index m = Z.of_nat (page_frame (mapper a) total) ∧ Mapping.permissions m = Some p ∧
    Mapping.page_start_addr m = Z.land addr (not_u 64 0xfff) ∧
    pages a' = <[page_frame (mapper a) total := page']> (pages a) ∧
    (∀ k, (k < length data)%nat → page' !! (Alloc.page_offset addr + k)%nat = data !! k) ∧
    (fill = true → ∀ k, (k < Alloc.page_offset addr)%nat → page' !! k = Some 0xCC).
Proof.
  intros Hra Hroom Haddr Hdata. unfold Alloc.allocate_page.
  destruct (take_frame_ok a total Hra Hroom) as (a1 & -> & Hra1 & Hm1 & Hp1 & Hal1). rewrite M_bind_Ok.
  set (i := page_frame (mapper a) total). pose proof (ra_wf _ _ Hra) as [W1 W2 W3 W4 W5].
  assert (i < min_index (mapper a) + num_page_frames (mapper a))%nat as Hi.
  { unfold i, page_frame. pose proof (ring_lt (num_page_frames (mapper a)) total ltac:(lia)). lia. }
  rewrite Hp1. destruct (vget_lt (pages a) i ltac:(lia)) as (page & -> & Hpage). rewrite M_bind_Ok. pose proof (W4 _ _ Hpage) as Hlen.
  set (page0 := if fill then replicate (length page) 0xCC else page).
  assert (length page0 = PAGE) as Hl0 by (unfold page0; destruct fill; rewrite ?length_replicate; done).
  destruct (copy_into_ok page0 (Alloc.page_offset addr) data) as (page' & -> & Hl' & Hlk); [lia|]. rewrite M_bind_Ok.
  unfold Alloc.set_page. rewrite Hp1, vset_lt, !M_bind_Ok by lia.
  destruct (mapping_ok (Alloc.page_base addr) (Z.of_nat i) p) as (m & -> & Hperm & Hstart & Hidx & _);
    [by apply page_base_u64|lia|lia|]. rewrite M_bind_Ok.
  do 2 eexists. exists page'. split; [done|]. cbn [mapper pages page_frames_allocated].
  split; [|split; [done|split; [done|split; [done|split; [done|split; [|split; [done|]]]]]]].
  - destruct Hra1 as [R1 R2 [R3 R4 R5 R6 R7]]. split; cbn; try done. split; cbn; try done; [by rewrite length_insert, <- Hp1|].
    intros j q [(_ & <- & _)|(_ & Hq)]%list_lookup_insert_Some; [lia|by eapply W4].
  - rewrite Hstart. unfold Alloc.page_base. rewrite <- Z.land_assoc. by rewrite Z.land_diag.
  - split.
    + intros k Hk. rewrite Hlk, bool_decide_eq_true_2 by lia. f_equal. lia.
    + intros -> k Hk. rewrite Hlk, bool_decide_eq_false_2 by lia. unfold page0. apply lookup_replicate_2.
      pose proof (page_offset_lt addr). lia.
Qed.
(** [allocate_page] takes a fresh page frame, writes the data at the offset of the
    address (over the old contents, or over [0xCC] when it fills), leaves every other
    page alone and returns the mapping of the page. *)
Theorem allocate_page_spec {P : profile} fill a total addr data p : ring_alloc a total →
  (page_frames_allocated a + 1 < num_page_frames (mapper a))%nat → is_u 64 addr →
  (Alloc.page_offset addr + length data <= PAGE)%nat →
  ∃ a' m page', Alloc.allocate_page fill a addr data p = Ok (a', m) ∧ ring_alloc a' (S total) ∧ mapper a' = mapper a ∧
    page_frames_allocated a' = S (page_frames_allocated a) ∧
    Mapping.frame_index m = Z.of_nat (page_frame (mapper a) total) ∧ Mapping.permissions m = Some p ∧
    Mapping.page_start_addr m = Z.land addr (not_u 64 0xfff) ∧
    pages a' = <[page_frame (mapper a) total := page']> (pages a) ∧
    (∀ k, (k < length data)%nat → page' !! (Alloc.page_offset addr + k)%nat = data !! k) ∧
    (fill = true → ∀ k, (k < Alloc.page_offset addr)%nat → page' !! k = Some 0xCC).
Proof. apply allocate_page_ok. Qed.
Lemma allocate_page_spec_witness : ∃ a' m, Alloc.allocate_page (P := Dev) true example_alloc 0x1004 [7] Read = Ok (a', m) ∧
  Mapping.frame_index m = 0 ∧ Mapping.page_start_addr m = 0x1000.
Proof.
  destruct (allocate_page_spec (P := Dev) true example_alloc 0 0x1004 [7] Read) as (a' & m & page' & E & _ & _ & _ & Hi & _ & Hs & _).
  - split; [reflexivity|cbn; lia|apply example_alloc_wf].
  - cbn. lia.
  - done.
  - change (Alloc.page_offset 0x1004) with 4%nat. unfold PAGE. cbn [length]. lia.
  - exists a', m. split; [exact E|]. split; [rewrite Hi; reflexivity|rewrite Hs; reflexivity].
Defined.

(** ** A request that meets the contract *)

(** Registers and pages: address, data and permissions. *)
Definition page_fits (x : Z * list Z * Permissions) : bool :=
  let '(addr, data, _) := x in
  (0 <=? addr) && (addr <? 2 ^ 64) && (Alloc.page_offset addr + length data <=? PAGE)%nat.
Record page_request (Regs : Type) := {
  pr_regs : Regs;
  pr_pages : list (Z * list Z * Permissions);
  pr_fits : forallb page_fits pr_pages = true;
  pr_len : (length pr_pages <= Mappings.MAX_LEN)%nat }.
Arguments pr_regs {Regs} _.
Arguments pr_pages {Regs} _.

Section request.
Context {P : profile} {Regs : Type}.
Fixpoint allocate_all (a : PageAllocator) (l : list (Z * list Z * Permissions)) : M (PageAllocator * list MemoryMapping) :=
  match l with
  | [] => Ok (a, [])
  | (addr, data, p) :: l =>
      '(a, m) ← Alloc.allocate_page false a addr data p;
      '(a, ms) ← allocate_all a l; Ok (a, m :: ms)
  end.
#[export] Instance page_request_setup : ObservationRequest (Regs := Regs) (page_request Regs) := λ r f a,
  '(a, ms) ← allocate_all a (pr_pages r);
  mm ← Mappings.recycle (memory_mappings f) ms;
  Ok ({| regs := pr_regs r; memory_mappings := mm |}, a).

Lemma ring_alloc_exists a : alloc_wf a → ∃ total, ring_alloc a total.
Proof.
  intros H. pose proof H as [W1 W2 W3 W4 W5]. exists (next_page_frame a + num_page_frames (mapper a))%nat. split; [|lia|done].
  replace (next_page_frame a + num_page_frames (mapper a))%nat with (next_page_frame a + 1 * num_page_frames (mapper a))%nat by lia.
  by rewrite Nat.Div0.mod_add, Nat.mod_small.
Qed.
Lemma allocate_all_ok l : forallb page_fits l = true → ∀ a, alloc_wf a →
  (page_frames_allocated a + length l < num_page_frames (mapper a))%nat →
  ∃ a' ms, allocate_all a l = Ok (a', ms) ∧ length ms = length l ∧ alloc_wf a' ∧ mapper a' = mapper a ∧
    page_frames_allocated a' = (page_frames_allocated a + length l)%nat.
Proof.
  induction l as [|[[addr data] p] l IH]; intros Hl a Ha Hroom; cbn [allocate_all length forallb] in *.
  - exists a, []. split; [done|]. split; [done|]. split; [done|]. split; [done|lia].
  - apply andb_true_iff in Hl as [Hx Hl]. unfold page_fits in Hx. rewrite !andb_true_iff, Z.leb_le, Z.ltb_lt, Nat.leb_le in Hx.
    destruct (ring_alloc_exists a Ha) as [total Hra].
    destruct (allocate_page_ok false a total addr data p Hra ltac:(lia)) as (a1 & m & pg & -> & Hra1 & Hm1 & Hal1 & _);
      [split; apply Hx|apply Hx|]. rewrite M_bind_Ok.
    destruct (IH Hl a1) as (a2 & ms & -> & Hlen & Ha2 & Hm2 & Hal2); [apply Hra1|rewrite Hm1; lia|].
    rewrite M_bind_Ok. exists a2, (m :: ms). split; [done|]. cbn [length]. split; [by rewrite Hlen|]. split; [done|].
    split; [congruence|lia].
Qed.
#[export] Instance page_request_ok : RequestOk page_request_setup.
Proof.
  intros r f a Hf Ha Hroom. unfold setup, page_request_setup. pose proof (pr_len _ r) as Hlen.
  destruct (allocate_all_ok (pr_pages r) (pr_fits _ r) a Ha ltac:(lia)) as (a' & ms & -> & Hms & Ha' & Hm & Hal). rewrite M_bind_Ok.
  unfold Mappings.recycle. destruct (fill_ok ms (mappings (memory_mappings f)) 0) as (d & -> & Hd & _); [unfold frame_wf in Hf; lia|].
  rewrite !M_bind_Ok. do 2 eexists. split; [done|]. unfold frame_wf, Mappings.len in *. cbn [memory_mappings mappings count].
  split; [lia|]. split; [done|]. split; [done|]. split; [lia|lia].
Qed.
End request.

(** ** Sizes *)

(** Bounds.  Up to 11 queues leave every queue more than [MAX_LEN] page frames;
    with 12 or more, [queue_full] subtracts [MAX_LEN] from a smaller number of page
    frames: it panics in [dev], and in [release] it no longer limits the page frames. *)
Theorem start_layout_room num : (0 < num <= 1024)%nat →
  ((num <= 11)%nat ↔ (Mappings.MAX_LEN < snd (start_layout num))%nat) ∧
  ((11 < num)%nat → ∀ (o : VmObserver), num_page_frames (mapper (alloc o)) = snd (start_layout num) → (num_queued o < max_len o)%nat →
     queue_full (P := Dev) o = Panic ∧
     (Z.of_nat (page_frames_allocated (alloc o)) < 2 ^ 63 → queue_full (P := Release) o = Ok false)).
Proof.
  intros Hn. unfold start_layout, SHMEM_FRAMES, Mappings.MAX_LEN. cbn [snd].
  set (q := ((1024 - num) / num)%nat).
  pose proof (Nat.div_mod (1024 - num) num ltac:(lia)) as E1. pose proof (Nat.mod_upper_bound (1024 - num) num ltac:(lia)) as E2.
  fold q in E1. pose proof (Nat.div_mod q 4 ltac:(lia)) as E3. pose proof (Nat.mod_upper_bound q 4 ltac:(lia)) as E4.
  assert ((num <= 11)%nat → (92 <= q)%nat) as H1.
  { intros H. destruct (decide (92 <= q)%nat); [done|]. assert (num * S q <= 11 * 92)%nat by (apply Nat.mul_le_mono; lia). lia. }
  assert ((11 < num)%nat → (q <= 84)%nat) as H2.
  { intros H. destruct (decide (q <= 84)%nat); [done|]. assert (12 * 85 <= num * q)%nat by (apply Nat.mul_le_mono; lia). lia. }
  split; [split; intros H; [specialize (H1 H); lia | destruct (decide (num <= 11)%nat); [done|]; lia]|].
  intros H o Ho Hq. specialize (H2 H). unfold queue_full. rewrite (proj2 (Nat.leb_gt _ _)) by lia. unfold usize_sub, Mappings.MAX_LEN.
  rewrite (proj2 (Nat.leb_gt _ _)) by lia. split; [done|]. intros Hp. rewrite M_bind_Ok. f_equal. apply Z.leb_gt.
  set (x := (Z.of_nat (num_page_frames (mapper (alloc o))) - Z.of_nat 64)).
  assert (wrap 64 x = x + 2 ^ 64) as ->; [|unfold x; lia].
  unfold wrap. rewrite <- (Z.mod_add x 1) by lia. rewrite Z.mod_small; unfold x; lia.
Qed.
Lemma start_layout_room_witness : start_layout 12 = (21, 63)%nat ∧ ¬ (Mappings.MAX_LEN < snd (start_layout 12))%nat.
Proof.
  split; [reflexivity|]. destruct (start_layout_room 12) as [H _]; [lia|]. intros H'. apply H in H'. lia.
Defined.

(** ** A concrete system *)

(** Four command frames, 66 page frames, registers that are one number, and a client
    that increments it. *)
Definition example_frame (n : nat) : @CommandFrame nat := {| regs := n; memory_mappings := Mappings.default |}.
Definition example_observer : VmObserver :=
  {| queue := Ring.new 0; next_command_frame := 0; num_queued := 0; alloc := example_alloc; waiting := 0; num_to_discard := 0;
     max_len := 3 |}.
Definition example_system : @state nat :=
  {| ctl := {| cf_next := 0; cf_current := 0; num_command_frames := 4 |}; frames := replicate 4 (example_frame 0);
     obs := example_observer; written := false; cl := Ring.new 0; phase := Idle |}.
Definition example_observe (f : @CommandFrame nat) : @CommandFrame nat := {| regs := S (regs f); memory_mappings := memory_mappings f |}.
Lemma example_observe_maps f : memory_mappings (example_observe f) = memory_mappings f.
Proof. done. Qed.
Lemma example_initial : initial example_system.
Proof.
  split; try done; cbn [ctl frames obs num_command_frames example_system].
  - lia.
  - split; [done|]. repeat constructor.
  - split; [apply example_alloc_wf|]. split; [done|]. cbn. unfold Mappings.MAX_LEN. lia.
Qed.
Definition example_request : page_request nat := {| pr_regs := 5%nat; pr_pages := []; pr_fits := eq_refl; pr_len := Nat.le_0_l _ |}.
Notation example_runs := (runs (P := Dev) (req := page_request_setup (P := Dev)) example_observe example_system).
(** One request is sent. *)
Lemma example_run : ∃ s, example_runs [example_frame 5] [] s ∧ num_queued (obs s) = 1%nat.
Proof.
  assert (∃ fs o, write_command (P := Dev) (H := page_request_setup (P := Dev)) (ctl example_system) (frames example_system) (obs example_system) example_request = Ok (fs, o) ∧
    fs = <[0%nat := example_frame 5]> (frames example_system) ∧ next_command_frame o = 0%nat ∧ num_queued o = 0%nat) as (fs & o & E & Efs & Eo & Eq).
  { do 2 eexists. split; [reflexivity|]. split; [reflexivity|]. split; reflexivity. }
  set (s1 := {| ctl := ctl example_system; frames := fs; obs := o; written := true; cl := cl example_system; phase := Idle |}).
  assert (example_runs [] [] s1) as H1.
  { eapply (runs_snoc _ _ [] [] _ Tau); [apply runs_nil|exact (host_write (P := Dev) (req := page_request_setup (P := Dev)) example_observe example_system example_request fs o eq_refl eq_refl E)|reflexivity..]. }
  eexists. split.
  - eapply (runs_snoc _ _ [] [] _ (Enq (example_frame 5)) _ _ _ H1); [|reflexivity|reflexivity].
    apply host_publish; [reflexivity|cbn; rewrite Eo, Efs; reflexivity|]. unfold publish_command. cbn [obs ctl s1]. rewrite Eo. reflexivity.
  - cbn [obs num_queued]. rewrite Eq. reflexivity.
Qed.
Lemma queue_refines_fifo_witness : ∃ related : @state nat → @fifo nat → Prop, related example_system {| pending := []; results := [] |}.
Proof.
  destruct (queue_refines_fifo (P := Dev) (req := page_request_setup (P := Dev)) example_observe page_request_ok example_observe_maps example_system example_initial) as (r & H & _).
  exists r. exact H.
Defined.
Lemma results_in_order_witness : ∃ s, example_runs [example_frame 5] [] s ∧
  [] = take 0 (example_observe <$> [example_frame 5]).
Proof.
  destruct example_run as (s & Hs & _). exists s. split; [exact Hs|].
  apply (results_in_order (P := Dev) (req := page_request_setup (P := Dev)) example_observe page_request_ok example_observe_maps example_system _ _ s example_initial Hs).
Defined.
Lemma no_shared_frame_witness : ∃ s, example_runs [example_frame 5] [] s ∧ (0 `mod` num_command_frames (ctl s))%nat ≠ next_command_frame (obs s).
Proof.
  destruct example_run as (s & Hs & _). exists s. split; [exact Hs|].
  apply (no_shared_frame (P := Dev) (req := page_request_setup (P := Dev)) example_observe page_request_ok example_observe_maps example_system _ _ s example_initial Hs). cbn. lia.
Defined.
Lemma queue_never_panics_witness : ∃ s, example_runs [example_frame 5] [] s ∧
  ∃ x, receive_result_unchecked (P := Dev) (ctl s) (frames s) (obs s) false = Ok x.
Proof.
  destruct example_run as (s & Hs & Hq). exists s. split; [exact Hs|].
  apply (queue_never_panics (P := Dev) (req := page_request_setup (P := Dev)) example_observe page_request_ok example_observe_maps example_system _ _ s example_initial Hs). rewrite Hq. lia.
Defined.
Lemma result_arrives_witness : ∃ s s' o, example_runs [example_frame 5] [] s ∧
  receive_result_unchecked (P := Dev) (ctl s') (frames s') (obs s') false = Ok (o, Some (example_frame 6)).
Proof.
  destruct example_run as (s & Hs & Hq).
  destruct (result_arrives (P := Dev) (req := page_request_setup (P := Dev)) example_observe page_request_ok example_observe_maps example_system _ _ s (example_frame 5) example_initial Hs eq_refl)
    as (k & _ & [s' Hr] & H). destruct (H s' Hr) as [o Ho]. exists s, s', o. split; [exact Hs|exact Ho].
Defined.
