(* ===== verification/IncomingFacts.v ===== *)
(** * The client's round robin

    [Incoming] serves several queues.  It takes the first queue with a request, going
    round from the one after the last it served, so that every queue with a request
    is served within as many services as there are queues. *)
From S2P Require Import Prelude MachInt Utils Shmqueue ShmqueueFacts.

Section incoming.
Context {P : profile}.

(** Queue [i] has taken [r i] of the [w i] requests of its host. *)
Record incoming_ok (ctls : list ControlFrameData) (self : Incoming) (r w : nat → nat) : Prop := {
  io_len : length ctls = length (queues self);
  io_current : (current_queue self < length (queues self))%nat;
  io_reads : ∀ i ctl q, ctls !! i = Some ctl → queues self !! i = Some q →
    ∃ c, reads (num_command_frames ctl) (r i) c (w i) ctl q }.
Definition bump (r : nat → nat) (i : nat) : nat → nat := λ j, if (j =? i)%nat then S (r j) else r j.
Definition at_ (self : Incoming) (s : nat) : nat := ((current_queue self + s) `mod` length (queues self))%nat.

Lemma io_get ctls self r w i : incoming_ok ctls self r w → (i < length (queues self))%nat → ∃ ctl q c,
  ctls !! i = Some ctl ∧ queues self !! i = Some q ∧ reads (num_command_frames ctl) (r i) c (w i) ctl q.
Proof.
  intros [Hl _ Hr] Hi. destruct (lookup_lt_is_Some_2 ctls i ltac:(lia)) as [ctl Hctl].
  destruct (lookup_lt_is_Some_2 (queues self) i Hi) as [q Hq]. destruct (Hr _ _ _ Hctl Hq) as [c Hc]. by exists ctl, q, c.
Qed.
(** Replacing queue [i] by one that has taken [r' i]. *)
Lemma io_update ctls self r w i ctl q c r' : incoming_ok ctls self r w → ctls !! i = Some ctl →
  reads (num_command_frames ctl) (r' i) c (w i) ctl q → (∀ j, j ≠ i → r' j = r j) → ∀ cur, (cur < length (queues self))%nat →
  incoming_ok ctls {| queues := <[i := q]> (queues self); current_queue := cur |} r' w.
Proof.
  intros [Hl Hc Hr] Hctl Hq Hne cur Hcur. split; cbn [queues current_queue]; rewrite ?length_insert; try done.
  intros j ctl' q' Hj [(-> & <- & _)|(Hji & Hq')]%list_lookup_insert_Some; [|rewrite Hne by done; by eapply Hr].
  exists c. congruence.
Qed.

Lemma receive_loop_ok count : ∀ ctls self r w shift, incoming_ok ctls self r w →
  (shift + count = length (queues self))%nat → (∀ s, (s < shift)%nat → r (at_ self s) = w (at_ self s)) →
  ∃ self' o, In.receive_loop count ctls self shift = Ok (self', o) ∧ length (queues self') = length (queues self) ∧
  match o with
  | None => (∀ s, (s < length (queues self))%nat → r (at_ self s) = w (at_ self s)) ∧ incoming_ok ctls self' r w ∧
            current_queue self' = current_queue self
  | Some (i, _) => ∃ s, (s < length (queues self))%nat ∧ i = at_ self s ∧ r i ≠ w i ∧ current_queue self' = i ∧
      (∀ s', (s' < s)%nat → r (at_ self s') = w (at_ self s')) ∧ incoming_ok ctls self' (bump r i) w
  end.
Proof.
  induction count as [|count IH]; intros ctls self r w shift Hok Hk Hbefore; cbn [In.receive_loop].
  - exists self, None. split; [done|]. split; [done|]. split; [intros s Hs; apply Hbefore; lia|done].
  - pose proof (io_current _ _ _ _ Hok) as Hcur. rewrite rem_ok, M_bind_Ok by lia.
    set (i := ((current_queue self + shift) `mod` length (queues self))%nat).
    assert (i < length (queues self))%nat as Hi by (apply ring_lt; lia).
    destruct (io_get _ _ _ _ i Hok Hi) as (ctl & q & c & Hctl & Hq & Hrd).
    rewrite (proj2 (vget_Ok_inv _ _ _) Hctl), M_bind_Ok, (proj2 (vget_Ok_inv _ _ _) Hq), M_bind_Ok.
    destruct (request_available_ok _ _ _ _ _ _ Hrd) as (q1 & c1 & -> & Hrd1 & _). rewrite M_bind_Ok, vset_lt, M_bind_Ok by done.
    destruct (Nat.eqb_spec (r i) (w i)) as [E|Hne]; cbn [negb].
    + set (self1 := {| queues := <[i:=q1]> (queues self); current_queue := current_queue self |}).
      assert (∀ s, at_ self1 s = at_ self s) as Eat by (intros s; unfold at_, self1; cbn; by rewrite length_insert).
      destruct (IH ctls self1 r w (shift + 1)%nat) as (self' & o & -> & Hlen & Ho).
      * by apply (io_update ctls self r w i ctl q1 c1).
      * unfold self1. cbn. rewrite length_insert. lia.
      * intros s Hs. rewrite Eat. destruct (decide (s = shift)) as [->|]; [exact E|]. apply Hbefore. lia.
      * assert (length (queues self1) = length (queues self)) as El by apply length_insert. rewrite El in Hlen, Ho.
        exists self', o. split; [done|]. split; [done|]. destruct o as [[j f]|]; setoid_rewrite Eat in Ho; exact Ho.
    + destruct (try_dequeue_ok _ _ _ _ _ _ Hrd1) as (q2 & c2 & -> & Hrd2). rewrite (proj2 (Nat.eqb_neq _ _) Hne) in *.
      rewrite M_bind_Ok, vset_lt, M_bind_Ok, list_insert_insert_eq by (rewrite length_insert; done). do 2 eexists.
      split; [done|]. cbn [queues current_queue option_map]. rewrite length_insert. split; [done|].
      exists shift. split; [lia|]. split; [done|]. split; [done|]. split; [done|]. split; [done|].
      apply (io_update ctls self r w i ctl q2 c2); [done|done| | |done].
      * unfold bump. by rewrite Nat.eqb_refl.
      * intros j Hj. unfold bump. by rewrite (proj2 (Nat.eqb_neq _ _) Hj).
Qed.
Lemma mark_processed_ok ctls self r w : incoming_ok ctls self r w → ∃ ctls' self', In.mark_processed ctls self = Ok (ctls', self') ∧
  incoming_ok ctls' self' r w ∧ queues self' = queues self ∧ current_queue self' = at_ self 1 ∧
  ∀ i ctl, ctls !! i = Some ctl → ctls' !! i = Some (if (i =? current_queue self)%nat
    then Control.update_current ctl (r i `mod` num_command_frames ctl)%nat else ctl).
Proof.
  intros Hok. pose proof Hok as [Hl Hc Hr]. unfold In.mark_processed.
  destruct (io_get _ _ _ _ _ Hok Hc) as (ctl & q & c & Hctl & Hq & Hrd).
  rewrite (proj2 (vget_Ok_inv _ _ _) Hctl), (proj2 (vget_Ok_inv _ _ _) Hq), !M_bind_Ok, vset_lt, M_bind_Ok by lia.
  rewrite rem_ok, M_bind_Ok by lia. do 2 eexists. split; [done|]. split; [|split; [done|split; [done|]]].
  - split; cbn [queues current_queue]; [by rewrite length_insert|apply ring_lt; lia|].
    intros i ctl' q' [(<- & <- & _)|(_ & Hctl')]%list_lookup_insert_Some Hq'; [|by eapply Hr].
    rewrite Hq in Hq'. injection Hq' as <-. exists c. destruct Hrd as [R1 R2 R3 R4 R5 R6]. by split.
  - intros i ctl' Hi. destruct (Nat.eqb_spec i (current_queue self)) as [->|Hne].
    + rewrite list_lookup_insert_eq by lia. rewrite Hctl in Hi. injection Hi as <-. by rewrite (reads_read _ _ _ _ _ _ Hrd).
    + by rewrite list_lookup_insert_ne.
Qed.

(** How many queues the client looks at before queue [j]. *)
Definition wait (self : Incoming) (j : nat) : nat :=
  ((j + length (queues self) - current_queue self) `mod` length (queues self))%nat.
Lemma wait_lt self j : (0 < length (queues self))%nat → (wait self j < length (queues self))%nat.
Proof. intros H. apply ring_lt. lia. Qed.
Lemma at_wait self j : (current_queue self < length (queues self))%nat → (j < length (queues self))%nat → at_ self (wait self j) = j.
Proof.
  intros Hc Hj. unfold at_, wait. rewrite Nat.Div0.add_mod_idemp_r.
  replace (current_queue self + (j + length (queues self) - current_queue self))%nat with (j + 1 * length (queues self))%nat by lia.
  by rewrite Nat.Div0.mod_add, Nat.mod_small.
Qed.
Lemma wait_at self s : (current_queue self < length (queues self))%nat → (s < length (queues self))%nat → wait self (at_ self s) = s.
Proof.
  intros Hc Hs. symmetry. unfold wait. set (k := length (queues self)) in *. set (c := current_queue self) in *.
  assert ((at_ self s + k - c) `mod` k = ((c + s) + (k - c)) `mod` k)%nat as ->.
  { unfold at_. fold k c. rewrite <- (Nat.Div0.add_mod_idemp_l (c + s)). f_equal. pose proof (ring_lt k (c + s)). lia. }
  replace ((c + s) + (k - c))%nat with (s + 1 * k)%nat by lia. by rewrite Nat.Div0.mod_add, Nat.mod_small.
Qed.
Lemma wait_next self self' s sj : (current_queue self < length (queues self))%nat → queues self' = queues self →
  current_queue self' = (S (at_ self s) `mod` length (queues self))%nat → (s < sj < length (queues self))%nat →
  wait self' (at_ self sj) = (sj - s - 1)%nat.
Proof.
  intros Hc Eq Ec Hs. assert (at_ self sj = at_ self' (sj - s - 1)) as ->.
  { unfold at_ in *. rewrite Eq, Ec, Nat.Div0.add_mod_idemp_l.
    replace (S ((current_queue self + s) `mod` length (queues self)) + (sj - s - 1))%nat
      with ((current_queue self + s) `mod` length (queues self) + (sj - s))%nat by lia.
    rewrite Nat.Div0.add_mod_idemp_l. f_equal. lia. }
  apply wait_at; rewrite Eq; [|lia]. rewrite Ec. apply ring_lt. lia.
Qed.

(** Queue [j] is served within [n] services, whatever requests the hosts add meanwhile. *)
Fixpoint served_within (n j : nat) (ctls : list ControlFrameData) (self : Incoming) (r w : nat → nat) : Prop :=
  match n with
  | O => False
  | S n => ∃ self1 i f ctls' self', In.receive_request ctls self = Ok (self1, Some (i, f)) ∧
      In.mark_processed ctls self1 = Ok (ctls', self') ∧
      (i = j ∨ ∀ ctls2 w2, incoming_ok ctls2 self' (bump r i) w2 → (∀ x, w x <= w2 x)%nat →
                 served_within n j ctls2 self' (bump r i) w2)
  end.
Lemma served_within_ok n : ∀ j ctls self r w, incoming_ok ctls self r w → (j < length (queues self))%nat → (r j < w j)%nat →
  (wait self j < n)%nat → served_within n j ctls self r w.
Proof.
  induction n as [|n IH]; intros j ctls self r w Hok Hj Hjw Hn; [lia|]. cbn [served_within]. pose proof (io_current _ _ _ _ Hok) as Hc.
  destruct (receive_loop_ok (length (queues self)) ctls self r w 0 Hok) as (self1 & o & E & Hlen & Ho); [lia|lia|].
  pose proof (at_wait self j Hc Hj) as Ej. pose proof (wait_lt self j ltac:(lia)) as Hw.
  destruct o as [[i f]|]; [|destruct Ho as [Ho _]; specialize (Ho _ Hw); rewrite Ej in Ho; lia].
  destruct Ho as (s & Hs & -> & Hne & Hcur1 & Hbefore & Hok1).
  destruct (mark_processed_ok _ _ _ _ Hok1) as (ctls' & self' & Em & Hok' & Eq & Hcur' & _).
  exists self1, (at_ self s), f, ctls', self'. split; [exact E|]. split; [exact Em|].
  destruct (decide (at_ self s = j)) as [|Hij]; [by left|]. right. intros ctls2 w2 Hok2 Hw2.
  assert (s < wait self j)%nat as Hsw.
  { destruct (decide (s < wait self j)%nat); [done|]. destruct (decide (s = wait self j)) as [->|]; [congruence|].
    specialize (Hbefore (wait self j) ltac:(lia)). rewrite Ej in Hbefore. lia. }
  assert (length (queues self') = length (queues self)) as El by (by rewrite Eq).
  apply IH; [done|by rewrite El| |].
  - unfold bump. rewrite (proj2 (Nat.eqb_neq _ _)) by congruence. specialize (Hw2 j). lia.
  - set (self2 := {| queues := queues self; current_queue := current_queue self' |}).
    assert (wait self' j = wait self2 j) as -> by (unfold wait, self2; cbn; by rewrite El).
    rewrite <- Ej, (wait_next self self2 s (wait self j)); [lia|done|done| |lia].
    unfold self2. cbn [current_queue]. rewrite Hcur'. unfold at_. rewrite Hcur1, Hlen, Nat.add_1_r. done.
Qed.

(** C36: liveness.  Every queue with a request is served within as many services as
    there are queues, whatever the other hosts do. *)
Theorem no_starvation ctls self r w j : incoming_ok ctls self r w → (j < length (queues self))%nat → (r j < w j)%nat →
  served_within (length (queues self)) j ctls self r w.
Proof. intros Hok Hj Hjw. apply served_within_ok; [done..|]. apply wait_lt. lia. Qed.

(** [receive_request] finds a request exactly if some queue has one, takes it from
    the first such queue in the round and leaves the others alone; [mark_processed]
    then publishes that queue's position and moves on to the next queue. *)
Theorem receive_request_spec ctls self r w : incoming_ok ctls self r w → ∃ self' o, In.receive_request ctls self = Ok (self', o) ∧
  match o with
  | None => (∀ i, (i < length (queues self))%nat → r i = w i) ∧ incoming_ok ctls self' r w
  | Some (i, _) => r i ≠ w i ∧ (∀ j, (j < length (queues self))%nat → (wait self j < wait self i)%nat → r j = w j) ∧
      incoming_ok ctls self' (bump r i) w ∧ ∃ ctls' self'', In.mark_processed ctls self' = Ok (ctls', self'') ∧
        incoming_ok ctls' self'' (bump r i) w ∧ current_queue self'' = (S i `mod` length (queues self))%nat ∧
        ∀ ctl, ctls !! i = Some ctl → ctls' !! i = Some (Control.update_current ctl (S (r i) `mod` num_command_frames ctl)%nat)
  end.
Proof.
  intros Hok. pose proof (io_current _ _ _ _ Hok) as Hc.
  destruct (receive_loop_ok (length (queues self)) ctls self r w 0 Hok) as (self1 & o & E & Hlen & Ho); [lia|lia|].
  exists self1, o. split; [exact E|]. destruct o as [[i f]|].
  - destruct Ho as (s & Hs & -> & Hne & Hcur1 & Hbefore & Hok1). split; [done|]. split.
    { intros j Hj Hw. rewrite wait_at in Hw by lia. specialize (Hbefore _ Hw). by rewrite at_wait in Hbefore. }
    split; [done|]. destruct (mark_processed_ok _ _ _ _ Hok1) as (ctls' & self' & Em & Hok' & Eq & Hcur' & Hctl).
    exists ctls', self'. split; [done|]. split; [done|]. split; [rewrite Hcur'; unfold at_; by rewrite Hcur1, Hlen, Nat.add_1_r|].
    intros ctl Hl. rewrite (Hctl _ _ Hl), Hcur1, Nat.eqb_refl. unfold bump. by rewrite Nat.eqb_refl.
  - destruct Ho as (Hno & Hok1 & _). split; [|done]. intros i Hi. rewrite <- (at_wait self i Hc Hi). apply Hno. apply wait_lt. lia.
Qed.
End incoming.

(** ** A client with two queues *)

Definition example_ctl (next : nat) : ControlFrameData := {| cf_next := next; cf_current := 0; num_command_frames := 4 |}.
Definition example_incoming : Incoming := {| queues := [Ring.new 0; Ring.new 0]; current_queue := 0 |}.
Definition example_w (i : nat) : nat := match i with O => 2 | _ => 1 end.
Lemma example_incoming_ok : incoming_ok [example_ctl 2; example_ctl 1] example_incoming (λ _, 0%nat) example_w.
Proof.
  split; [done|cbn; lia|]. intros [|[|i]] ctl q Hctl Hq; cbn in Hctl, Hq; simplify_eq; exists 0%nat; split; cbn; try done; lia.
Qed.
Lemma no_starvation_witness : served_within (P := Dev) 2 1 [example_ctl 2; example_ctl 1] example_incoming (λ _, 0%nat) example_w.
Proof. apply (no_starvation (P := Dev) _ example_incoming); [apply example_incoming_ok|cbn; lia|cbn; lia]. Defined.
Lemma receive_request_spec_witness : ∃ self', In.receive_request (P := Dev) [example_ctl 2; example_ctl 1] example_incoming = Ok (self', Some (0, 0)%nat).
Proof.
  destruct (receive_request_spec (P := Dev) _ _ _ _ example_incoming_ok) as (self' & o & E & _).
  exists self'. rewrite E. vm_compute in E. injection E as <- <-. reflexivity.
Defined.
