(* ===== verification/Growing.v ===== *)
(** * Growing bitmaps

    Models [liblisa/src/utils/bitmap/growing.rs] and
    [liblisa/src/utils/matrix.rs]: [GrowingBitmap], a vector of 64-bit words with a
    length in bits, its slices and mutable slices, the trait [BitmapSliceMut] of
    [liblisa/src/utils/bitmap/mod.rs], [DenseSet] and [Symmetric2DMatrix].  A mutable
    slice borrows words of its bitmap; [write_back] puts them back when the borrow
    ends.  Lengths and indices are [nat] (a bitmap has fewer than [2^64] bits); the
    subtractions that can go below zero are written out at 64 bits. *)
From S2P Require Import Prelude MachInt Utils Bitmap.

(** A closure that is called once per word; the state it captures is an iterator over
    the words of another slice. *)
Notation word_closure := (list Z → Z → M (Z * list Z)).
Class BitmapSliceMut (B : Type) := modify : word_closure → list Z → B → M B.

(** [vec.resize(n, x)]. *)
Definition vec_resize (l : list Z) (n : nat) : list Z := take n l ++ replicate (n - length l) 0.

Module Growing.
Record GrowingBitmap := { data : list Z; len : nat }.

#[export] Instance GrowingBitmap_eq_dec : EqDecision GrowingBitmap.
Proof. solve_decision. Defined.

Definition new : GrowingBitmap := {| data := []; len := 0 |}.
(** [index(x)]: the word and the offset in it. *)
Definition index (x : nat) : nat * nat := ((x / 64)%nat, (x `mod` 64)%nat).
Definition bit_mask (offset : nat) : Z := Z.shiftl 1 (Z.of_nat offset).

Definition zeroize_past_end (self : GrowingBitmap) : GrowingBitmap :=
  if negb (len self `mod` 64 =? 0)%nat && negb (bool_decide (data self = [])) then
    let last_index := (length (data self) - 1)%nat in
    {| data := alter (λ w, Z.land w (bit_mask (len self `mod` 64) - 1)) last_index (data self); len := len self |}
  else self.

Section from.
Context {P : profile} {B} `{BitmapSlice B}.
Definition from_slice (slice : B) : M GrowingBitmap :=
  let data := iter_data slice in
  debug_assert! (length data =? (Bitmap.len slice + 63) / 64)%nat;
  Ok {| data := data; len := Bitmap.len slice |}.
Definition clone_from_slice (self : GrowingBitmap) (slice : B) : M GrowingBitmap :=
  let self := {| data := iter_data slice; len := Bitmap.len slice |} in
  debug_assert! (length (data self) =? (Bitmap.len slice + 63) / 64)%nat;
  Ok self.
End from.
Definition new_all_ones (num : nat) : GrowingBitmap :=
  zeroize_past_end {| data := replicate ((num + 63) / 64) U64_MAX; len := num |}.
Definition new_all_zeros (num : nat) : GrowingBitmap := {| data := replicate (num / 64 + 1) 0; len := num |}.

(** ** Single bits *)

Definition get (self : GrowingBitmap) (n : nat) : bool :=
  let '(index, offset) := index n in bit_of (default 0 (data self !! index)) offset.
Definition get_then_reset (self : GrowingBitmap) (n : nat) : GrowingBitmap * bool :=
  let '(index, offset) := index n in
  match data self !! index with
  | Some x =>
      let mask := bit_mask offset in
      ({| data := <[index := Z.land x (not_u 64 mask)]> (data self); len := len self |}, negb (Z.land x mask =? 0))
  | None => (self, false)
  end.
Definition internal_resize (self : GrowingBitmap) (n index : nat) : GrowingBitmap :=
  {| data := if (length (data self) <=? index)%nat then vec_resize (data self) (index + 1) else data self; len := n + 1 |}.
Definition set (self : GrowingBitmap) (n : nat) : M (GrowingBitmap * bool) :=
  let '(index, offset) := index n in
  let self := if (len self <=? n)%nat then internal_resize self n index else self in
  let mask := bit_mask offset in
  w ← vget (data self) index;
  d ← vset (data self) index (Z.lor w mask);
  Ok ({| data := d; len := len self |}, Z.land w mask =? 0).
Definition reset (self : GrowingBitmap) (n : nat) : M (GrowingBitmap * bool) :=
  let '(index, offset) := index n in
  let self := if (len self <=? n)%nat then internal_resize self n index else self in
  let mask := bit_mask offset in
  w ← vget (data self) index;
  d ← vset (data self) index (Z.land w (not_u 64 mask));
  Ok ({| data := d; len := len self |}, negb (Z.land w mask =? 0)).
(** [for n in range { self.set(n); }] and the same with [reset]. *)
Fixpoint each_bit (f : GrowingBitmap → nat → M (GrowingBitmap * bool)) (self : GrowingBitmap) (range : list nat) : M GrowingBitmap :=
  match range with [] => Ok self | n :: range => '(self, _) ← f self n; each_bit f self range end.
Definition set_range (self : GrowingBitmap) (start stop : nat) : M GrowingBitmap := each_bit set self (seq start (stop - start)).
Definition clear_range (self : GrowingBitmap) (start stop : nat) : M GrowingBitmap := each_bit reset self (seq start (stop - start)).

(** ** Whole bitmaps *)

Section with_slice.
Context {B} `{BitmapSlice B}.
Definition and_with (self : GrowingBitmap) (rhs : B) : GrowingBitmap * bool :=
  let '(d, changed) := Fixed.update_words Z.land (data self) (chain_zeros (iter_data rhs) (length (data self))) false in
  ({| data := d; len := len self |}, changed).
Definition or_with (self : GrowingBitmap) (rhs : B) : GrowingBitmap * bool :=
  let '(d, changed) := Fixed.update_words Z.lor (data self) (chain_zeros (iter_data rhs) (length (data self))) false in
  ({| data := d; len := len self |}, changed).
Definition overlaps_with (self : GrowingBitmap) (other : B) : bool :=
  existsb (λ '(a, b), negb (Z.land a b =? 0)) (zip (data self) (iter_data other)).
(** The words past the end of [other] stay. *)
Definition clear_from (self : GrowingBitmap) (other : B) : GrowingBitmap :=
  {| data := fst (Fixed.update_words (λ a b, Z.land a (not_u 64 b)) (data self) (iter_data other) false); len := len self |}.
End with_slice.

(** The loop of [extend]: the position of the next bit is [next_index], [next_offset]. *)
Fixpoint extend_loop (self : GrowingBitmap) (next_index next_offset : nat) (items : list bool) : M GrowingBitmap :=
  match items with
  | [] => Ok self
  | item :: items =>
      w ← vget (data self) next_index;
      d ← vset (data self) next_index (Z.lor w (Z.shiftl (Z.b2z item) (Z.of_nat next_offset)));
      let self := {| data := d; len := len self + 1 |} in
      let next_offset := (next_offset + 1)%nat in
      if (next_offset =? 64)%nat then
        let next_index := (next_index + 1)%nat in
        let d := if (length (data self) <=? next_index)%nat then vec_resize (data self) (next_index + 1) else data self in
        extend_loop {| data := d; len := len self |} next_index 0 items
      else extend_loop self next_index next_offset items
  end.
Definition extend (self : GrowingBitmap) (items : list bool) : M GrowingBitmap :=
  let '(next_index, next_offset) := index (len self) in
  let d := if (length (data self) <=? next_index)%nat then vec_resize (data self) (next_index + 1) else data self in
  extend_loop {| data := d; len := len self |} next_index next_offset items.
Definition from_iter (items : list bool) : M GrowingBitmap := extend new items.

(** [GrowingBitmapIterator]: all bits, from the words [d] at the offset [i], [n] bits
    left. *)
Fixpoint iter_loop (d : list Z) (i n : nat) : M (list bool) :=
  match n with
  | O => Ok []
  | S n =>
      w ← vget d 0;
      let b := negb (Z.land w (bit_mask i) =? 0) in
      l ← (if (64 <=? i + 1)%nat then iter_loop (drop 1 d) 0 n else iter_loop d (i + 1) n);
      Ok (b :: l)
  end.
Definition iter (self : GrowingBitmap) : M (list bool) := iter_loop (data self) 0 (len self).
Definition append (self bitmap : GrowingBitmap) : M GrowingBitmap := items ← iter bitmap; extend self items.

(** [GrowingBitmapOnesIterator::next]: the next index of a one and the new state. *)
Fixpoint ones_next (d : list Z) (base_index : nat) (current_element : Z) : option (nat * (list Z * nat * Z)) :=
  if current_element =? 0 then
    match d with
    | next :: d => ones_next d (base_index + 64) next
    | [] => None
    end
  else
    let offset := trailing_zeros 64 current_element in
    let mask := wrap 64 (Z.shiftl (wrap 64 (Z.shiftl U64_MAX (Z.of_nat offset))) 1) in
    Some ((base_index + offset)%nat, (d, base_index, Z.land current_element mask)).
Fixpoint collect_ones (fuel : nat) (d : list Z) (base_index : nat) (current_element : Z) : M (list nat) :=
  match fuel with
  | O => OutOfFuel
  | S fuel =>
      match ones_next d base_index current_element with
      | None => Ok []
      | Some (i, (d, base_index, current_element)) => l ← collect_ones fuel d base_index current_element; Ok (i :: l)
      end
  end.
(** At most 64 ones per word are yielded. *)
Definition iter_one_indices (self : GrowingBitmap) : M (list nat) :=
  let fuel := S (64 * length (data self)) in
  match data self with
  | [] => collect_ones fuel [] 0 0
  | w :: d => collect_ones fuel d 0 w
  end.

Definition fill_with_ones (self : GrowingBitmap) : GrowingBitmap :=
  zeroize_past_end {| data := replicate (length (data self)) U64_MAX; len := len self |}.
Definition set_all_zero (self : GrowingBitmap) : GrowingBitmap :=
  {| data := (λ _, 0) <$> data self; len := len self |}.
Definition count_ones (self : GrowingBitmap) : nat := sum_list (MachInt.count_ones 64 <$> data self).
Definition count_zeros {P : profile} (self : GrowingBitmap) : M Z :=
  sub_u 64 (Z.of_nat (sum_list (MachInt.count_zeros 64 <$> data self))) (Z.of_nat (64 - len self `mod` 64)).
Definition is_all_zeros (self : GrowingBitmap) : bool := forallb (λ n, n =? 0) (data self).
Definition is_all_ones (self : GrowingBitmap) : M bool :=
  '(full_u64s, ok) ←
    (if (len self `mod` 64 =? 0)%nat then
       assert! (len self / 64 <=? length (data self))%nat; Ok (take (len self / 64) (data self), true)
     else if negb (bool_decide (data self = [])) then
       v ← vget (data self) (length (data self) - 1);
       Ok (take (length (data self) - 1) (data self), v =? bit_mask (len self `mod` 64) - 1)
     else Ok ([], true));
  Ok (ok && forallb (λ n, n =? U64_MAX) full_u64s).

(** [self.len -= n]. *)
Definition len_sub {P : profile} (self : GrowingBitmap) (n : nat) : M GrowingBitmap :=
  l ← sub_u 64 (Z.of_nat (len self)) (Z.of_nat n); Ok {| data := data self; len := Z.to_nat l |}.
Fixpoint remove_loop (self : GrowingBitmap) (range : list nat) : M GrowingBitmap :=
  match range with
  | [] => Ok self
  | i :: range =>
      '(self, _) ← (if get self (i + 1) then set self i else reset self i);
      remove_loop self range
  end.
Definition remove {P : profile} (self : GrowingBitmap) (n : nat) : M (GrowingBitmap * bool) :=
  let b := get self n in
  self ← remove_loop self (seq n (len self - n));
  self ← len_sub self 1;
  Ok (self, b).
(** [self.data[n] = (self.data[n] >> shift) | (self.data[n + 1] << (64 - shift))], for
    every word in increasing order. *)
Fixpoint shift_words (shift : nat) (l : list Z) : list Z :=
  match l with
  | [] => []
  | w :: l =>
      Z.lor (Z.shiftr w (Z.of_nat shift)) (wrap 64 (Z.shiftl (default 0 (head l)) (Z.of_nat (64 - shift)))) :: shift_words shift l
  end.
Definition remove_front (self : GrowingBitmap) (num : nat) : M GrowingBitmap :=
  let num := Nat.min num (len self) in
  let u64s := (num / 64)%nat in
  assert! (u64s <=? length (data self))%nat;
  let d := drop u64s (data self) in
  let shift := (num `mod` 64)%nat in
  let d := if negb (shift =? 0)%nat then shift_words shift d else d in
  let len := (len self - num)%nat in
  let data_len_needed := ((len + 63) / 64)%nat in
  let d := if (data_len_needed <? length d)%nat then take data_len_needed d else d in
  Ok (zeroize_past_end {| data := d; len := len |}).
Definition remove_back {P : profile} (self : GrowingBitmap) (num : nat) : M GrowingBitmap :=
  assert! (len self <=? num)%nat;
  self ← len_sub self num;
  n ← add_u 64 (Z.of_nat (len self)) 63;
  Ok (zeroize_past_end {| data := vec_resize (data self) (Z.to_nat (n / 64)); len := len self |}).
Definition resize (self : GrowingBitmap) (len : nat) : GrowingBitmap :=
  let required_len := ((len + 63) / 64)%nat in
  zeroize_past_end
    {| data := if negb (required_len =? length (data self))%nat then vec_resize (data self) required_len else data self; len := len |}.

(** ** Searching *)

(** [iter.find(|(_, v)| v != 0).map(|(index, v)| base + index * 64 + v.trailing_zeros())]. *)
Fixpoint find_word (base : nat) (l : list Z) : option nat :=
  match l with
  | [] => None
  | v :: l => if negb (v =? 0) then Some (base + trailing_zeros 64 v)%nat else find_word (base + 64) l
  end.
Definition mask_first (start_index : nat) (l : list Z) : list Z :=
  match l with
  | [] => []
  | v :: l => Z.land v (not_u 64 (bit_mask (start_index `mod` 64) - 1)) :: l
  end.
Definition first_bit_set (self : GrowingBitmap) : option nat := find_word 0 (data self).
Definition first_bit_set_from (self : GrowingBitmap) (start_index : nat) : option nat :=
  let base_index := (start_index / 64 * 64)%nat in
  find_word base_index (mask_first start_index (drop (start_index / 64) (data self))).
Definition first_bit_unset_from (self : GrowingBitmap) (start_index : nat) : option nat :=
  let base_index := (start_index / 64 * 64)%nat in
  match find_word base_index (mask_first start_index (not_u 64 <$> drop (start_index / 64) (data self))) with
  | Some n => if (len self <=? n)%nat then None else Some n
  | None => None
  end.
(** The words are read only until one is found. *)
Fixpoint find_many (items : list GrowingBitmap) (start_index : nat) (range : list nat) : M (option nat) :=
  match range with
  | [] => Ok None
  | index :: range =>
      ws ← mapM (λ map, vget (data map) index) items;
      v ← match ws with [] => Panic | w :: ws => Ok (foldl Z.land w ws) end;
      let v := if (index =? start_index / 64)%nat then Z.land v (not_u 64 (bit_mask (start_index `mod` 64) - 1)) else v in
      if negb (v =? 0) then Ok (Some (index * 64 + trailing_zeros 64 v)%nat) else find_many items start_index range
  end.
Definition first_bit_set_after_many (items : list GrowingBitmap) (start_index end_index : nat) : M (option nat) :=
  let start := (start_index / 64)%nat in
  let stop := ((end_index + 63) / 64)%nat in
  find_many items start_index (seq start (stop - start)).
Definition is_superset_of (self other : GrowingBitmap) : bool :=
  if (len self <? len other)%nat && bool_decide (is_Some (first_bit_set_from other (len self))) then false
  else forallb (λ '(a, b), Z.lor a b =? a) (zip (data self) (data other)).

(** ** Operators *)

Definition bitand (self rhs : GrowingBitmap) : GrowingBitmap :=
  {| data := zip_with Z.land (data self) (data rhs); len := Nat.min (len self) (len rhs) |}.
Definition bitor (self rhs : GrowingBitmap) : GrowingBitmap :=
  let n := Nat.max (length (data self)) (length (data rhs)) in
  {| data := (λ index, Z.lor (default 0 (data self !! index)) (default 0 (data rhs !! index))) <$> seq 0 n;
     len := Nat.max (len self) (len rhs) |}.
Definition bitand_assign (self rhs : GrowingBitmap) : GrowingBitmap :=
  {| data := zip_with Z.land (data self) (chain_zeros (data rhs) (length (data self))); len := len self |}.
Definition bitor_assign (self rhs : GrowingBitmap) : GrowingBitmap :=
  let self := if (len self <? len rhs)%nat then resize self (len rhs) else self in
  {| data := zip_with Z.lor (data self) (chain_zeros (data rhs) (length (data self))); len := len self |}.
Definition eq (self other : GrowingBitmap) : bool := (len self =? len other)%nat && bool_decide (data self = data other).
End Growing.
Notation GrowingBitmap := Growing.GrowingBitmap.

#[export] Instance GrowingBitmap_slice : BitmapSlice GrowingBitmap := {
  get self index := Growing.get self index;
  len self := Growing.len self;
  iter_data self := Growing.data self;
}.

(** ** [BitmapSliceMut] *)

(** [for item in self.data.iter_mut()], which replaces every word by what [f] returns. *)
Fixpoint map_words (f : word_closure) (s : list Z) (l : list Z) : M (list Z * list Z) :=
  match l with
  | [] => Ok ([], s)
  | w :: l => '(w, s) ← f s w; '(l, s) ← map_words f s l; Ok (w :: l, s)
  end.
#[export] Instance GrowingBitmap_slice_mut : BitmapSliceMut GrowingBitmap := λ f s self,
  '(d, _) ← map_words f s (Growing.data self);
  Ok (Growing.zeroize_past_end {| Growing.data := d; Growing.len := Growing.len self |}).

Module SliceMut.
(** [iter.next()]. *)
Definition next (s : list Z) : option Z * list Z := match s with [] => (None, []) | w :: s => (Some w, s) end.
Section methods.
Context {A B} `{BitmapSlice A, BitmapSliceMut A, BitmapSlice B}.
Definition clear (self : A) : M A := modify (λ s _, Ok (0, s)) [] self.
Definition copy_from (self : A) (other : B) : M A :=
  assert! (len self =? len other)%nat;
  modify (λ s _, let '(o, s) := next s in w ← unwrap o; Ok (w, s)) (iter_data other) self.
Definition clear_from (self : A) (other : B) : M A :=
  modify (λ s d, let '(o, s) := next s in Ok (Z.land d (not_u 64 (default 0 o)), s)) (iter_data other) self.
Definition or_with (self : A) (other : B) : M A :=
  modify (λ s d, let '(o, s) := next s in Ok (Z.lor d (default 0 o), s)) (iter_data other) self.
End methods.
End SliceMut.

(** ** Slices *)

(** [BitmapSliceU64] and [BitmapSliceMutU64]; the latter owns the words it borrows until
    they are written back. *)
Record BitmapSliceU64 := { slice_data : list Z; offset : nat; crop : nat }.

Definition create_iter (data : list Z) (offset crop : nat) : list Z :=
  let shift := (64 - offset)%nat in
  let count := if (1 <? length data)%nat && (64 <=? crop + offset)%nat then (length data - 1)%nat else length data in
  imap (λ index first,
    if (index + 1 =? length data)%nat then
      let crop_mask := Z.shiftr U64_MAX (Z.of_nat crop) in
      Z.shiftr (Z.land first crop_mask) (Z.of_nat offset)
    else if (offset =? 0)%nat then first
    else
      let next := default 0 (data !! (index + 1)%nat) in
      let next_crop_mask := if (index + 2 =? length data)%nat then Z.shiftr U64_MAX (Z.of_nat crop) else U64_MAX in
      Z.lor (Z.shiftr first (Z.of_nat offset))
        (default 0 (checked_shl_u 64 (Z.land next next_crop_mask) (Z.of_nat shift)))) (take count data).

(** The length does not go below zero for the slices that [slice] makes of a range with
    [start <= end]. *)
#[export] Instance BitmapSliceU64_slice : BitmapSlice BitmapSliceU64 := {
  get self n :=
    let '(index, offset) := Growing.index (n + offset self) in bit_of (default 0 (slice_data self !! index)) offset;
  len self := (length (slice_data self) * 64 - offset self - crop self)%nat;
  iter_data self := create_iter (slice_data self) (offset self) (crop self);
}.

(** [modify] for an offset that is not zero: the words from the second on, with what is
    left to read ([buffer_in]) and to write ([buffer_out]) of the one before; the words
    before the last one and the buffers at the end. *)
Fixpoint modify_words (f : word_closure) (s : list Z) (offset : nat) (buffer_in buffer_out : Z) (l : list Z)
    : M (list Z * Z * Z * list Z) :=
  let shift := (64 - offset)%nat in
  match l with
  | [] => Ok ([], buffer_in, buffer_out, s)
  | item :: l =>
      let old_val := Z.lor buffer_in (wrap 64 (Z.shiftl item (Z.of_nat shift))) in
      let buffer_in := Z.shiftr item (Z.of_nat offset) in
      '(new_val, s) ← f s old_val;
      let write := Z.lor buffer_out (wrap 64 (Z.shiftl new_val (Z.of_nat offset))) in
      let buffer_out := Z.shiftr new_val (Z.of_nat shift) in
      '(d, buffer_in, buffer_out, s) ← modify_words f s offset buffer_in buffer_out l;
      Ok (write :: d, buffer_in, buffer_out, s)
  end.
(** [modify] for an offset of zero. *)
Fixpoint modify_aligned (f : word_closure) (s : list Z) (crop : nat) (l : list Z) : M (list Z) :=
  match l with
  | [] => Ok []
  | [old] =>
      '(val, _) ← f s old;
      let mask := Z.shiftr U64_MAX (Z.of_nat crop) in
      Ok [Z.lor (Z.land old (not_u 64 mask)) (Z.land val mask)]
  | item :: l => '(w, s) ← f s item; l ← modify_aligned f s crop l; Ok (w :: l)
  end.
Definition modify_slice (f : word_closure) (s : list Z) (self : BitmapSliceU64) : M BitmapSliceU64 :=
  match slice_data self with
  | [] => Ok self
  | first :: rest =>
      if (offset self =? 0)%nat then
        d ← modify_aligned f s (crop self) (slice_data self);
        Ok {| slice_data := d; offset := offset self; crop := crop self |}
      else
        let shift := (64 - offset self)%nat in
        let buffer_in := Z.shiftr first (Z.of_nat (offset self)) in
        let buffer_out := Z.land first (not_u 64 (wrap 64 (Z.shiftl U64_MAX (Z.of_nat (offset self))))) in
        '(d, buffer_in, buffer_out, s) ← modify_words f s (offset self) buffer_in buffer_out rest;
        let len := length (slice_data self) in
        last ← vget (slice_data self) (len - 1);
        let crop_mask := Z.shiftr U64_MAX (Z.of_nat (crop self)) in
        let item := Z.land last crop_mask in
        let old_val := Z.lor buffer_in (wrap 64 (Z.shiftl item (Z.of_nat shift))) in
        '(new_val, _) ← (if (len <=? 1)%nat || (crop self + offset self <? 64)%nat then f s old_val else Ok (0, s));
        let write := Z.lor buffer_out (wrap 64 (Z.shiftl new_val (Z.of_nat (offset self)))) in
        Ok {| slice_data := d ++ [Z.lor (Z.land last (not_u 64 crop_mask)) (Z.land write crop_mask)];
              offset := offset self; crop := crop self |}
  end.
#[export] Instance BitmapSliceU64_slice_mut : BitmapSliceMut BitmapSliceU64 := modify_slice.

Module Growing_slice.
Import Growing.
(** The words [start_index..end_index] of a range, and the slice of them; both [slice]
    and [slice_mut]. *)
Definition bounds (start stop : nat) : nat * nat * nat * nat :=
  let '(start_index, start_offset) := index start in
  let '(end_index, end_offset) := index stop in
  if negb (end_offset =? 0)%nat then (start_index, start_offset, end_index + 1, 64 - end_offset)%nat
  else (start_index, start_offset, end_index, 0)%nat.
Definition slice (self : GrowingBitmap) (start stop : nat) : M BitmapSliceU64 :=
  if (start =? stop)%nat then Ok {| slice_data := []; offset := 0; crop := 0 |}
  else
    let '(start_index, start_offset, end_index, crop) := bounds start stop in
    assert! (start_index <=? end_index)%nat;
    assert! (end_index <=? length (data self))%nat;
    Ok {| slice_data := Utils.slice (data self) start_index end_index; offset := start_offset; crop := crop |}.
(** What the bitmap is when the borrow of [slice_mut(start..stop)] ends. *)
Definition write_back (self : GrowingBitmap) (start stop : nat) (s : BitmapSliceU64) : GrowingBitmap :=
  if (start =? stop)%nat then self
  else
    let '(start_index, start_offset, end_index, crop) := bounds start stop in
    {| data := take start_index (data self) ++ slice_data s ++ drop end_index (data self); len := len self |}.
End Growing_slice.

(** ** [DenseSet] *)

Module Dense.
Record DenseSet := { bitmap : GrowingBitmap; num_items : nat }.
Definition new : DenseSet := {| bitmap := Growing.new; num_items := 0 |}.
Definition contains (self : DenseSet) (x : nat) : bool := Growing.get (bitmap self) x.
Definition set (self : DenseSet) (index : nat) : M (DenseSet * bool) :=
  '(b, changed) ← Growing.set (bitmap self) index;
  Ok ({| bitmap := b; num_items := if changed : bool then num_items self + 1 else num_items self |}, changed).
Definition iter (self : DenseSet) : M (list nat) := Growing.iter_one_indices (bitmap self).
Definition len (self : DenseSet) : nat := num_items self.
Definition is_empty (self : DenseSet) : bool := (len self =? 0)%nat.
End Dense.

(** ** [Symmetric2DMatrix] *)

Module Matrix.
Record Symmetric2DMatrix := { data : GrowingBitmap; size : nat }.
Definition new : Symmetric2DMatrix := {| data := Growing.new; size := 0 |}.
Definition index (x y : nat) : nat :=
  let '(x, y) := (Nat.min x y, Nat.max x y) in
  let base_index := ((y + 1) * y / 2)%nat in (base_index + x)%nat.
Definition get (self : Symmetric2DMatrix) (x y : nat) : bool := Growing.get (data self) (index x y).
Definition set (self : Symmetric2DMatrix) (x y : nat) : M (Symmetric2DMatrix * bool) :=
  let size := Nat.max (Nat.max (size self) (x + 1)) (y + 1) in
  '(d, changed) ← Growing.set (data self) (index x y);
  Ok ({| data := d; size := size |}, changed).
Definition iter_row_indices (self : Symmetric2DMatrix) (y : nat) : list nat :=
  List.filter (λ x, get self x y) (seq 0 (size self)).
End Matrix.
