(* ===== verification/GrowingFacts.v ===== *)
(** * Growing bitmaps as lists of bits

    [holds b l]: the bitmap [b] stands for the list of bits [l]; it may have more
    words than it needs, and the bits past the end are zero.  Every operation is
    proved against the operation on lists; iterating gives the list back. *)
From S2P Require Import Prelude MachInt Utils Bitmap BitmapFacts Growing.
Import Growing.

(** Bit [i] of a list, [false] past the end. *)
Definition bit_at (l : list bool) (i : nat) : bool := default false (l !! i).
Record holds (b : GrowingBitmap) (l : list bool) : Prop := {
  holds_u64 : Forall (is_u 64) (data b);
  holds_len : len b = length l;
  holds_room : (length l <= 64 * length (data b))%nat;
  holds_bits : ∀ i, word_bit (data b) i = bit_at l i;
}.
(** No word more than the bits need; what equality and [is_all_ones] rely on. *)
Definition tight (b : GrowingBitmap) : Prop := (64 * length (data b) < len b + 64)%nat.
(** [l], with zeros up to a length of at least [n]. *)
Definition pad (n : nat) (l : list bool) : list bool := l ++ replicate (n - length l) false.

(** ** Lists of bits *)

Lemma bit_at_ge l i : (length l <= i)%nat → bit_at l i = false.
Proof. intros Hi. unfold bit_at. by rewrite (proj2 (lookup_ge_None l i) Hi). Qed.
Lemma bit_at_app l k i : bit_at (l ++ k) i = if (i <? length l)%nat then bit_at l i else bit_at k (i - length l).
Proof. unfold bit_at. case_cmps; [by rewrite lookup_app_l | by rewrite lookup_app_r]. Qed.
Lemma bit_at_replicate n i : bit_at (replicate n false) i = false.
Proof.
  unfold bit_at. destruct (replicate n false !! i) eqn:E; [|done]. by apply lookup_replicate in E as [-> _].
Qed.
Lemma bit_at_pad n l i : bit_at (pad n l) i = bit_at l i.
Proof. unfold pad. rewrite bit_at_app. case_cmps; [done|]. by rewrite bit_at_replicate, bit_at_ge. Qed.
Lemma length_pad n l : length (pad n l) = Nat.max n (length l).
Proof. unfold pad. rewrite length_app, length_replicate. lia. Qed.
Lemma bit_at_insert l n v i : (n < length l)%nat → bit_at (<[n := v]> l) i = if (i =? n)%nat then v else bit_at l i.
Proof.
  intros Hn. unfold bit_at. case_cmps; [subst; by rewrite list_lookup_insert_eq | by rewrite list_lookup_insert_ne].
Qed.
Lemma bit_at_take n l i : bit_at (take n l) i = (i <? n)%nat && bit_at l i.
Proof. unfold bit_at. case_cmps; [by rewrite lookup_take_lt | by rewrite lookup_take_ge]. Qed.
Lemma bit_at_drop n l i : bit_at (drop n l) i = bit_at l (n + i).
Proof. unfold bit_at. by rewrite lookup_drop. Qed.
Lemma bits_ext l k : length l = length k → (∀ i, bit_at l i = bit_at k i) → l = k.
Proof.
  intros Hlen H. apply (list_eq_same_length l k (length l)); [done..|]. intros i x y Hi Hx Hy. specialize (H i).
  unfold bit_at in H. by rewrite Hx, Hy in H.
Qed.

(** ** Words *)

Lemma word_bit_zeros l n i : word_bit (l ++ replicate n 0) i = word_bit l i.
Proof.
  unfold word_bit. destruct (Nat.lt_ge_cases (i / 64) (length l)) as [Hi|Hi].
  - by rewrite lookup_app_l.
  - rewrite lookup_app_r, (proj2 (lookup_ge_None l _) Hi) by done.
    destruct (replicate n 0 !! (i / 64 - length l)%nat) eqn:E; [|done]. by apply lookup_replicate in E as [-> _].
Qed.
Lemma word_bit_take n l i : word_bit (take n l) i = (i <? 64 * n)%nat && word_bit l i.
Proof.
  unfold word_bit. destruct (Nat.ltb_spec i (64 * n)) as [Hi|Hi]; cbn [andb].
  - rewrite lookup_take_lt; [done|]. apply word_index_lt. lia.
  - rewrite lookup_take_ge; [apply Z.bits_0|]. apply Nat.div_le_lower_bound; lia.
Qed.
Lemma word_bit_drop n l i : word_bit (drop n l) i = word_bit l (64 * n + i).
Proof.
  unfold word_bit. rewrite lookup_drop. replace (64 * n + i)%nat with (i + n * 64)%nat by lia.
  rewrite Nat.Div0.mod_add, Nat.div_add by lia. by rewrite Nat.add_comm.
Qed.
Lemma vec_resize_u64 l n : Forall (is_u 64) l → Forall (is_u 64) (vec_resize l n).
Proof.
  intros Hl. apply Forall_app. split; [by apply Forall_take|]. apply Forall_replicate. by split.
Qed.
Lemma length_vec_resize l n : length (vec_resize l n) = n.
Proof. unfold vec_resize. rewrite length_app, length_take, length_replicate. lia. Qed.
Lemma word_bit_resize l n i : word_bit (vec_resize l n) i = (i <? 64 * n)%nat && word_bit l i.
Proof. unfold vec_resize. by rewrite word_bit_zeros, word_bit_take. Qed.
Lemma word_bit_fill d : Forall (λ w, w = U64_MAX) d → ∀ i, word_bit d i = (i <? 64 * length d)%nat.
Proof.
  intros Hd i. destruct (Nat.ltb_spec i (64 * length d)) as [Hi|Hi]; [|by apply word_bit_past].
  unfold word_bit. destruct (lookup_lt_is_Some_2 d (i / 64)) as [w Hw]; [apply word_index_lt; lia|].
  rewrite Hw. rewrite Forall_lookup in Hd. rewrite (Hd _ _ Hw). apply testbit_u64_max, word_bit_bound.
Qed.
Lemma word_bit_app_r l k i : word_bit (l ++ k) (64 * length l + i) = word_bit k i.
Proof.
  unfold word_bit. replace (64 * length l + i)%nat with (i + length l * 64)%nat by lia.
  rewrite Nat.Div0.mod_add, Nat.div_add by lia. rewrite lookup_app_r by lia. do 3 f_equal. lia.
Qed.

(** ** Construction and single bits *)

Lemma growing_new : holds new [].
Proof. split; [constructor | done | cbn; lia |]. intros i. by rewrite word_bit_past by (cbn; lia). Qed.
Lemma get_eq b l n : holds b l → get b n = bit_at l n.
Proof. intros H. unfold get, index. rewrite bit_of_testbit. apply (holds_bits _ _ H). Qed.
Lemma holds_ext b l k : holds b l → holds b k → l = k.
Proof.
  intros Hl Hk. apply bits_ext; [by rewrite <- (holds_len _ _ Hl), <- (holds_len _ _ Hk)|].
  intros i. by rewrite <- (holds_bits _ _ Hl), <- (holds_bits _ _ Hk).
Qed.
(** Two tight bitmaps that hold the same bits are equal. *)
Lemma holds_tight_eq b c l : holds b l → holds c l → tight b → tight c → b = c.
Proof.
  intros Hb Hc Tb Tc. destruct b as [d n], c as [e m]. unfold tight in *. destruct Hb as [Ub Lb Rb Bb], Hc as [Uc Lc Rc Bc].
  cbn [data len] in *. subst n m. f_equal. apply words_eq; [done..|lia|]. intros i. by rewrite Bb, Bc.
Qed.

(** Room for word [k]. *)
Lemma grow_words d n l k : holds {| data := d; len := n |} l →
  let d' := if (length d <=? k)%nat then vec_resize d (k + 1) else d in
  holds {| data := d'; len := n |} l ∧ (k < length d')%nat.
Proof.
  intros [Hu Hl Hr Hb]. cbn [data len] in *. cbn zeta. split; [|case_cmps; rewrite ?length_vec_resize; lia].
  split; cbn [data len]; [case_match; [by apply vec_resize_u64 | done] | done | case_cmps; rewrite ?length_vec_resize; lia |].
  intros i. rewrite <- Hb. case_cmps; [|done]. rewrite word_bit_resize. case_cmps; [done|]. by rewrite word_bit_past by lia.
Qed.
(** Setting or clearing the bit [n]: what [set], [reset] and [get_then_reset] share. *)
Lemma grow_for b l n : holds b l →
  let b' := if (len b <=? n)%nat then internal_resize b n (n / 64) else b in
  holds b' (pad (n + 1) l) ∧ (n / 64 < length (data b'))%nat ∧ len b' = Nat.max (n + 1) (length l) ∧ (tight b → tight b').
Proof.
  intros H. destruct H as [Hu Hl Hr Hb]. pose proof (Nat.div_mod n 64 ltac:(lia)) as Hd. pose proof (word_bit_bound n).
  cbn zeta. unfold tight. destruct (Nat.leb_spec (len b) n) as [Hn|Hn].
  - unfold internal_resize. cbn [data len]. destruct b as [d m]. cbn [data len] in *.
    destruct (grow_words d m l (n / 64)) as [[Hu' _ Hr' Hb'] Hk]; [by split|]. cbn [data] in *.
    repeat split; cbn [data len]; try done; rewrite ?length_pad; try lia.
    + intros i. by rewrite Hb', bit_at_pad.
    + case_cmps; rewrite ?length_vec_resize; lia.
  - assert (pad (n + 1) l = l) as ->.
    { unfold pad. replace (n + 1 - length l)%nat with 0%nat by lia. apply app_nil_r. }
    repeat split; try done; [|lia]. apply word_index_lt. lia.
Qed.
Lemma put_bit b l n w w' v : holds b l → (n < length l)%nat → data b !! (n / 64)%nat = Some w → is_u 64 w' →
  (∀ j, (j < 64)%nat → Z.testbit w' (Z.of_nat j) = if (j =? n `mod` 64)%nat then v else Z.testbit w (Z.of_nat j)) →
  holds {| data := <[(n / 64)%nat := w']> (data b); len := len b |} (<[n := v]> l).
Proof.
  intros [Hu Hl Hr Hb] Hn Hw Hu' Hj.
  split; cbn [data len]; [by apply Forall_insert | by rewrite length_insert | by rewrite !length_insert|].
  intros i. rewrite (replace_bit _ n w v) by done. rewrite bit_at_insert by done. case_cmps; done.
Qed.
Lemma holds_word b l n : holds b l → (n / 64 < length (data b))%nat → ∃ w, data b !! (n / 64)%nat = Some w ∧ is_u 64 w ∧
  Z.testbit w (Z.of_nat (n `mod` 64)) = bit_at l n.
Proof.
  intros [Hu Hl Hr Hb] Hn. destruct (lookup_lt_is_Some_2 _ _ Hn) as [w Hw]. exists w. split; [done|].
  split; [by eapply Forall_lookup_1 in Hw|]. rewrite <- Hb. unfold word_bit. by rewrite Hw.
Qed.
Lemma set_mask_bits w n j : (n < 64)%nat → (j < 64)%nat →
  Z.testbit (Z.lor w (bit_mask n)) (Z.of_nat j) = (if (j =? n)%nat then true else Z.testbit w (Z.of_nat j)) ∧
  Z.testbit (Z.land w (not_u 64 (bit_mask n))) (Z.of_nat j) = (if (j =? n)%nat then false else Z.testbit w (Z.of_nat j)).
Proof.
  intros Hn Hj. unfold bit_mask. rewrite Z.lor_spec, Z.land_spec, testbit_not_u64, testbit_mask by done.
  case_cmp; by destruct (Z.testbit w (Z.of_nat j)).
Qed.

Lemma set_eq b l n : holds b l → ∃ b', set b n = Ok (b', negb (bit_at l n)) ∧ holds b' (<[n := true]> (pad (n + 1) l)) ∧
  (tight b → tight b').
Proof.
  intros H. destruct (grow_for b l n H) as (Hg & Hn & Hl & Ht). unfold set, index.
  set (b' := if (len b <=? n)%nat then _ else _) in *. destruct (holds_word _ _ n Hg Hn) as (w & Hw & Hu & E).
  unfold vget. rewrite Hw. cbn [unwrap]. rewrite M_bind_Ok, vset_lt, M_bind_Ok by done.
  pose proof (word_bit_bound n). eexists. split; [|split].
  - unfold bit_mask. rewrite land_mask_zero, E, bit_at_pad by done. done.
  - apply (put_bit b' _ n w); [done | rewrite length_pad; lia | done | apply is_u_lor; [lia | done | by apply mask_u64] |].
    intros j Hj. by apply set_mask_bits.
  - unfold tight in *. cbn [data len]. by rewrite length_insert.
Qed.
Lemma reset_eq b l n : holds b l → ∃ b', reset b n = Ok (b', bit_at l n) ∧ holds b' (<[n := false]> (pad (n + 1) l)) ∧
  (tight b → tight b').
Proof.
  intros H. destruct (grow_for b l n H) as (Hg & Hn & Hl & Ht). unfold reset, index.
  set (b' := if (len b <=? n)%nat then _ else _) in *. destruct (holds_word _ _ n Hg Hn) as (w & Hw & Hu & E).
  unfold vget. rewrite Hw. cbn [unwrap]. rewrite M_bind_Ok, vset_lt, M_bind_Ok by done.
  pose proof (word_bit_bound n). eexists. split; [|split].
  - unfold bit_mask. rewrite land_mask_zero, E, bit_at_pad, negb_involutive by done. done.
  - apply (put_bit b' _ n w); [done | rewrite length_pad; lia | done | by apply land_u64 |].
    intros j Hj. by apply set_mask_bits.
  - unfold tight in *. cbn [data len]. by rewrite length_insert.
Qed.
Lemma get_then_reset_eq b l n : holds b l → ∃ b', get_then_reset b n = (b', bit_at l n) ∧ holds b' (alter (λ _, false) n l) ∧
  (tight b → tight b').
Proof.
  intros H. unfold get_then_reset, index. pose proof (word_bit_bound n).
  destruct (Nat.lt_ge_cases (n / 64) (length (data b))) as [Hn|Hn].
  - destruct (holds_word _ _ n H Hn) as (w & Hw & Hu & E). rewrite Hw. eexists. split; [|split].
    + unfold bit_mask. rewrite land_mask_zero, E, negb_involutive by done. done.
    + destruct (Nat.lt_ge_cases n (length l)) as [Hl|Hl].
      * replace (alter (λ _, false) n l) with (<[n := false]> l).
        2: { destruct (lookup_lt_is_Some_2 l n Hl) as [x Hx]. apply bits_ext; [by rewrite length_insert, length_alter|].
             intros i. rewrite bit_at_insert by done. unfold bit_at. case_cmps; [subst; by rewrite list_lookup_alter_eq, Hx|].
             by rewrite list_lookup_alter_ne by done. }
        apply (put_bit b l n w); [done.. | by apply land_u64 |]. intros j Hj. by apply set_mask_bits.
      * replace (alter (λ _, false) n l) with l by (symmetry; by apply list_alter_ge || (apply list_eq; intros i;
          destruct (decide (i = n)) as [->|]; [rewrite list_lookup_alter_eq, (proj2 (lookup_ge_None l n)) by done; done | by rewrite list_lookup_alter_ne])).
        destruct H as [Hu' Hl' Hr Hb]. split; cbn [data len]; [apply Forall_insert; [done | by apply land_u64] | done | by rewrite length_insert|].
        intros i. rewrite (replace_bit _ n w false) by (done || intros j Hj; by apply set_mask_bits).
        rewrite <- Hb. case_cmps; [|done]. subst. by rewrite Hb, bit_at_ge.
    + unfold tight. cbn [data len]. by rewrite length_insert.
  - rewrite (proj2 (lookup_ge_None _ _) Hn). destruct H as [Hu Hl Hr Hb].
    assert (length l <= n)%nat as Hln by (pose proof (Nat.div_mod n 64 ltac:(lia)); lia). exists b.
    rewrite bit_at_ge by done. split; [done|]. split; [|done].
    replace (alter (λ _, false) n l) with l; [done|]. apply list_eq. intros i. destruct (decide (i = n)) as [->|].
    + by rewrite list_lookup_alter_eq, (proj2 (lookup_ge_None l n)).
    + by rewrite list_lookup_alter_ne.
Qed.

(** ** Lengths *)

Lemma words_needed n k : (64 * k < n + 64)%nat → (n <= 64 * k)%nat → ((n + 63) / 64)%nat = k.
Proof. intros H1 H2. symmetry. apply (Nat.div_unique _ 64 k (n + 63 - 64 * k)); lia. Qed.
Lemma words_needed_bounds n : (n <= 64 * ((n + 63) / 64) < n + 64)%nat.
Proof. pose proof (Nat.div_mod (n + 63) 64 ltac:(lia)). pose proof (Nat.mod_upper_bound (n + 63) 64 ltac:(lia)). lia. Qed.

(** With exactly the words it needs, [zeroize_past_end] clears the bits past the end. *)
Lemma zeroize_eq d n l : Forall (is_u 64) d → length l = n → (n <= 64 * length d < n + 64)%nat →
  (∀ i, (i < n)%nat → word_bit d i = bit_at l i) →
  let b := zeroize_past_end {| data := d; len := n |} in holds b l ∧ tight b.
Proof.
  intros Hu Hl Hd Hb. unfold zeroize_past_end. cbn [data len].
  pose proof (Nat.div_mod n 64 ltac:(lia)) as Hdm. pose proof (word_bit_bound n) as Hm.
  destruct (Nat.eqb_spec (n `mod` 64) 0) as [E|E]; cbn [negb andb].
  { cbn zeta. unfold tight. split; [split|]; cbn [data len]; try done; try lia. intros i.
    destruct (Nat.lt_ge_cases i n); [by apply Hb|]. by rewrite word_bit_past, bit_at_ge by lia. }
  destruct d as [|w d' _] using rev_ind; [cbn [length] in *; lia|].
  rewrite length_app in *. cbn [length] in *. rewrite Nat.add_sub, bool_decide_eq_false_2 by (by destruct d'). cbn [negb].
  rewrite alter_app_r_alt, Nat.sub_diag by done. cbn [alter list_alter].
  apply Forall_app in Hu as [Hu [Hw _]%Forall_cons].
  replace (bit_mask (n `mod` 64) - 1) with (Z.ones (Z.of_nat (n `mod` 64))) by (unfold bit_mask; rewrite Z.ones_equiv, Z.shiftl_1_l; lia).
  cbn zeta. unfold tight. split; [split|]; cbn [data len]; rewrite ?length_app; cbn [length]; try done; try lia.
  - apply Forall_app; split; [done|]. constructor; [by apply land_u64 | constructor].
  - intros i. destruct (Nat.lt_ge_cases i (64 * length d')) as [Hi|Hi].
    { rewrite word_bit_app_l by done. rewrite <- (word_bit_app_l d' [w]) by done. apply Hb. lia. }
    destruct (Nat.lt_ge_cases i (64 * length d' + 64)) as [Hi'|Hi'].
    2: { by rewrite word_bit_past, bit_at_ge by (rewrite ?length_app; cbn [length]; lia). }
    replace i with (64 * length d' + (i - 64 * length d'))%nat by lia. rewrite word_bit_last, Z.land_spec, Z.testbit_ones_nonneg by lia.
    assert (n `div` 64 = length d')%nat as En by lia.
    destruct (Nat.lt_ge_cases i n) as [Hin|Hin].
    + rewrite <- Hb, word_bit_last by lia. case_cmps. by rewrite andb_true_r.
    + rewrite bit_at_ge by lia. case_cmps. by rewrite andb_false_r.
Qed.
Lemma resize_eq b l n : holds b l → holds (resize b n) (take n (pad n l)) ∧ tight (resize b n).
Proof.
  intros [Hu Hl Hr Hb]. unfold resize. pose proof (words_needed_bounds n) as Hw.
  set (r := ((n + 63) / 64)%nat) in *.
  assert (∀ d, Forall (is_u 64) d → length d = r → (∀ i, (i < n)%nat → word_bit d i = bit_at l i) →
    holds (zeroize_past_end {| data := d; len := n |}) (take n (pad n l)) ∧ tight (zeroize_past_end {| data := d; len := n |})) as Hz.
  { intros d Hud Hld Hbd. apply zeroize_eq; [done | rewrite length_take, length_pad; lia | lia |].
    intros i Hi. rewrite Hbd, bit_at_take, bit_at_pad by done. by case_cmps. }
  destruct (Nat.eqb_spec r (length (data b))) as [E|E]; cbn [negb].
  - apply Hz; [done | done | intros; apply Hb].
  - apply Hz; [by apply vec_resize_u64 | apply length_vec_resize |]. intros i Hi. rewrite word_bit_resize, Hb. by case_cmps.
Qed.

(** ** Extending and iterating *)

Lemma shiftl_b2z (v : bool) k j : (k < 64)%nat → Z.testbit (Z.shiftl (Z.b2z v) (Z.of_nat k)) (Z.of_nat j) = (j =? k)%nat && v.
Proof.
  intros Hk. destruct v; cbn [Z.b2z].
  - by rewrite testbit_mask, andb_true_r.
  - by rewrite Z.shiftl_0_l, Z.bits_0, andb_false_r.
Qed.
Lemma extend_loop_eq items : ∀ b l, holds b l → (length l < 64 * length (data b))%nat → ∃ b',
  extend_loop b (length l / 64) (length l `mod` 64) items = Ok b' ∧ holds b' (l ++ items).
Proof.
  induction items as [|v items IH]; intros b l H Hroom; cbn [extend_loop].
  { exists b. by rewrite app_nil_r. }
  assert (length l / 64 < length (data b))%nat as Hn by (apply word_index_lt; lia). pose proof (word_bit_bound (length l)) as Hm.
  destruct (holds_word _ _ _ H Hn) as (w & Hw & Hu & E). unfold vget. rewrite Hw. cbn [unwrap]. rewrite M_bind_Ok, vset_lt, M_bind_Ok by done.
  cbn zeta. cbn [data len]. set (w' := Z.lor w _). set (d := <[_ := w']> _).
  assert (holds {| data := d; len := len b + 1 |} (l ++ [v])) as H'.
  { destruct H as [Hu' Hl Hr Hb]. split; cbn [data len]; unfold d; rewrite ?length_insert, ?length_app; cbn [length]; try lia.
    - apply Forall_insert; [done|]. apply is_u_lor; [lia | done|]. destruct v; [by apply mask_u64 | by rewrite Z.shiftl_0_l].
    - intros i. rewrite (replace_bit _ (length l) w v).
      + rewrite bit_at_app, Hb. case_cmps; subst; [done | by rewrite Nat.sub_diag |]. rewrite !bit_at_ge by (cbn [length]; lia). done.
      + done.
      + intros j Hj. unfold w'. rewrite Z.lor_spec, shiftl_b2z by done. case_cmp; cbn [andb]; [|apply orb_false_r].
        subst j. rewrite E, bit_at_ge by lia. done. }
  destruct (grow_words d _ _ (length (l ++ [v]) / 64) H') as [H'' Hk].
  destruct (IH _ _ H'') as (b' & Eb & Hb').
  { cbn [data]. pose proof (Nat.div_mod (length (l ++ [v])) 64 ltac:(lia)). pose proof (word_bit_bound (length (l ++ [v]))). lia. }
  rewrite <- app_assoc in Hb'. exists b'. split; [|done]. rewrite <- Eb.
  pose proof (Nat.div_mod (length l) 64 ltac:(lia)) as Hd. rewrite length_app. cbn [length].
  destruct (Nat.eqb_spec (length l `mod` 64 + 1) 64) as [E64|E64].
  - assert ((length l + 1) / 64 = length l / 64 + 1)%nat as -> by (symmetry; apply (Nat.div_unique _ 64 _ 0); lia).
    assert ((length l + 1) `mod` 64 = 0)%nat as -> by (symmetry; apply (Nat.mod_unique _ 64 (length l / 64 + 1)); lia). done.
  - assert ((length l + 1) / 64 = length l / 64)%nat as -> by (symmetry; apply (Nat.div_unique _ 64 _ (length l `mod` 64 + 1)); lia).
    assert ((length l + 1) `mod` 64 = length l `mod` 64 + 1)%nat as -> by (symmetry; apply (Nat.mod_unique _ 64 (length l / 64)); lia).
    rewrite (proj2 (Nat.leb_gt _ _)); [done|]. unfold d. by rewrite length_insert.
Qed.
Lemma extend_eq b l items : holds b l → ∃ b', extend b items = Ok b' ∧ holds b' (l ++ items).
Proof.
  intros H. destruct b as [d n]. assert (n = length l) as -> by apply (holds_len _ _ H).
  destruct (grow_words d _ l (length l / 64) H) as [H' Hk]. unfold extend, index. cbn [len data].
  apply (extend_loop_eq items); [done|]. cbn [data]. pose proof (Nat.div_mod (length l) 64 ltac:(lia)). pose proof (word_bit_bound (length l)). lia.
Qed.
Lemma from_iter_eq items : ∃ b, from_iter items = Ok b ∧ holds b items.
Proof. apply (extend_eq new [] items growing_new). Qed.

Lemma iter_loop_eq n : ∀ d i, (i < 64)%nat → (i + n <= 64 * length d)%nat →
  iter_loop d i n = Ok ((λ k, word_bit d (i + k)) <$> seq 0 n).
Proof.
  induction n as [|n IH]; intros d i Hi Hn; [done|]. destruct d as [|w d]; cbn [length] in Hn; [lia|].
  cbn [iter_loop vget lookup list_lookup unwrap]. rewrite M_bind_Ok. cbn zeta. unfold bit_mask.
  rewrite land_mask_zero, negb_involutive by done. cbn [seq]. rewrite <- fmap_S_seq, fmap_cons, <- list_fmap_compose, Nat.add_0_r.
  assert ((if (64 <=? i + 1)%nat then iter_loop (drop 1 (w :: d)) 0 n else iter_loop (w :: d) (i + 1) n) =
    Ok ((λ k, word_bit (w :: d) (i + S k)) <$> seq 0 n)) as ->.
  { destruct (Nat.leb_spec 64 (i + 1)) as [Hc|Hc].
    - cbn [drop]. rewrite drop_0, IH by lia. f_equal. apply list_fmap_ext. intros _ k _.
      replace (i + S k)%nat with (64 + (0 + k))%nat by lia. by rewrite word_bit_tail.
    - rewrite IH by (cbn [length]; lia). f_equal. apply list_fmap_ext. intros _ k _. f_equal. lia. }
  rewrite M_bind_Ok. by rewrite word_bit_head by done.
Qed.
Lemma map_bits l : bit_at l <$> seq 0 (length l) = l.
Proof.
  apply list_eq. intros i. rewrite list_lookup_fmap. destruct (Nat.lt_ge_cases i (length l)) as [Hi|Hi].
  - rewrite lookup_seq_lt by done. cbn. unfold bit_at. by destruct (lookup_lt_is_Some_2 l i Hi) as [x ->].
  - rewrite lookup_seq_ge, (proj2 (lookup_ge_None l i)) by done. done.
Qed.
Lemma iter_eq b l : holds b l → iter b = Ok l.
Proof.
  intros [Hu Hl Hr Hb]. unfold iter. rewrite iter_loop_eq by lia. f_equal. rewrite Hl.
  etrans; [|apply (map_bits l)]. apply list_fmap_ext. intros _ k _. apply Hb.
Qed.

(** ** Listing and searching the ones *)

Lemma set_bits_cons w d : set_bits (w :: d) = ones 64 w ++ (Nat.add 64 <$> set_bits d).
Proof.
  unfold set_bits, ones. cbn [length]. replace (64 * S (length d))%nat with (64 + 64 * length d)%nat by lia.
  rewrite seq_app, List.filter_app, Nat.add_0_l, (filter_seq_shift _ 64). apply (f_equal2 app).
  - apply List.filter_ext_in. intros i Hi%List.in_seq. apply word_bit_head. lia.
  - apply (f_equal (fmap (Nat.add 64))). apply List.filter_ext. intros i. apply word_bit_tail.
Qed.
Lemma fmap_add_add a b (l : list nat) : Nat.add a <$> (Nat.add b <$> l) = Nat.add (a + b) <$> l.
Proof. rewrite <- list_fmap_compose. apply list_fmap_ext. intros _ k _. cbn. lia. Qed.
Lemma ones_zero w : ones w 0 = [].
Proof. apply ones_nil. intros. apply Z.bits_0. Qed.
Lemma ones_tail w x y k l : ones w x = k :: l →
  (∀ i, 0 <= i < Z.of_nat w → Z.testbit y i = (Z.of_nat k <? i) && Z.testbit x i) → ones w y = l.
Proof.
  intros E Hy. destruct (ones_head _ _ _ _ E) as (Hk & Hb & Hz). revert E.
  replace w with (S k + (w - S k))%nat by lia. rewrite !ones_app.
  assert (ones (S k) x = [k]) as ->.
  { rewrite <- Nat.add_1_r, ones_app, (proj2 (ones_nil k x) Hz), ones_1, Z.shiftr_spec, Z.add_0_l, Hb by lia. cbn. f_equal. lia. }
  intros [= <-]. rewrite (proj2 (ones_nil (S k) y)), app_nil_l.
  - f_equal. unfold ones. apply List.filter_ext_in. intros i Hi%List.in_seq. rewrite !Z.shiftr_spec, Hy by lia. by case_cmps.
  - intros i Hi. rewrite Hy by lia. by case_cmps.
Qed.
Lemma length_set_bits d : (length (set_bits d) <= 64 * length d)%nat.
Proof. unfold set_bits. etrans; [apply List.filter_length_le|]. by rewrite List.length_seq. Qed.
Lemma set_bits_eq b l : holds b l → set_bits (data b) = indices (length l) (bit_at l).
Proof.
  intros [Hu Hl Hr Hb]. unfold set_bits. fold (indices (64 * length (data b)) (word_bit (data b))).
  rewrite (indices_tail (length l)); [by apply indices_ext | done |]. intros i Hi. by rewrite Hb, bit_at_ge.
Qed.
(** The least index at or after [start] at which [p] holds. *)
Definition first_from (p : nat → bool) (start : nat) (o : option nat) : Prop :=
  match o with
  | Some n => (start <= n)%nat ∧ p n = true ∧ ∀ i, (start <= i < n)%nat → p i = false
  | None => ∀ i, (start <= i)%nat → p i = false
  end.
Lemma head_filter_seq (p : nat → bool) n : ∀ a, (∀ i, (a + n <= i)%nat → p i = false) →
  first_from p a (head (List.filter p (seq a n))).
Proof.
  induction n as [|n IH]; intros a Hp; cbn [seq List.filter].
  { intros i Hi. apply Hp. lia. }
  destruct (p a) eqn:E; cbn [head first_from].
  - split; [lia|]. split; [done|]. intros i Hi. lia.
  - specialize (IH (S a)). destruct (head _) as [k|]; cbn [first_from] in *.
    + destruct IH as (Hk & Hpk & H); [intros i Hi; apply Hp; lia|]. split; [lia|]. split; [done|]. intros i Hi.
      destruct (decide (i = a)) as [->|]; [done|]. apply H. lia.
    + intros i Hi. destruct (decide (i = a)) as [->|]; [done|]. apply IH; [intros j Hj; apply Hp; lia | lia].
Qed.
Lemma head_set_bits d : first_from (word_bit d) 0 (head (set_bits d)).
Proof. apply head_filter_seq. intros i Hi. by apply word_bit_past. Qed.
#[local] Opaque ones set_bits.

(** What the iterator has still to yield. *)
Definition rest_ones (d : list Z) (base : nat) (w : Z) : list nat :=
  (Nat.add base <$> ones 64 w) ++ (Nat.add (base + 64) <$> set_bits d).
(** The mask [(u64::MAX << k) << 1]. *)
Definition above_mask (k : nat) : Z := wrap 64 (Z.shiftl (wrap 64 (Z.shiftl U64_MAX (Z.of_nat k))) 1).
Lemma ones_above w k l : ones 64 w = k :: l → ones 64 (Z.land w (above_mask k)) = l.
Proof.
  intros E. eapply ones_tail; [done|]. intros i Hi. unfold above_mask.
  rewrite Z.land_spec, andb_comm, testbit_wrap, Z.shiftl_spec, testbit_wrap by lia. f_equal. destruct (Z.ltb_spec (Z.of_nat k) i).
  - rewrite Z.shiftl_spec, <- (Z2Nat.id (i - 1 - Z.of_nat k)), testbit_u64_max by lia. by case_cmps.
  - rewrite Z.shiftl_spec_low by lia. by rewrite !andb_false_r.
Qed.
Lemma ones_nonzero w : is_u 64 w → w ≠ 0 → ∃ k l, ones 64 w = k :: l ∧ trailing_zeros 64 w = k.
Proof.
  intros Hw Hne. unfold trailing_zeros. destruct (ones 64 w) as [|k l] eqn:E; [|by exists k, l]. destruct Hne.
  apply (u_ext 64); [lia | done | by split|]. intros i Hi. rewrite ones_nil in E. rewrite E, Z.bits_0 by lia. done.
Qed.
Lemma ones_next_nonzero d base w k l : w ≠ 0 → ones 64 w = k :: l → trailing_zeros 64 w = k →
  ones_next d base w = Some ((base + k)%nat, (d, base, Z.land w (above_mask k))) ∧
  rest_ones d base w = (base + k)%nat :: rest_ones d base (Z.land w (above_mask k)).
Proof.
  intros Hne E Ek. split.
  - destruct d; cbn [ones_next]; by rewrite (proj2 (Z.eqb_neq w 0) Hne), Ek.
  - unfold rest_ones. rewrite E, (ones_above w k l E), fmap_cons. apply app_comm_cons.
Qed.
Lemma ones_next_eq d : ∀ base w, is_u 64 w → Forall (is_u 64) d →
  match ones_next d base w with
  | None => rest_ones d base w = []
  | Some (i, (d', base', w')) => rest_ones d base w = i :: rest_ones d' base' w' ∧ is_u 64 w' ∧ Forall (is_u 64) d'
  end.
Proof.
  induction d as [|v d IH]; intros base w Hw Hd; destruct (Z.eqb_spec w 0) as [->|Hne].
  2,4: destruct (ones_nonzero w Hw Hne) as (k & l & E & Ek); edestruct ones_next_nonzero as [-> ->]; [done..|];
    split; [done | split; [by apply land_u64 | done]].
  - unfold rest_ones. cbn. by rewrite ones_zero.
  - cbn [ones_next]. change (0 =? 0) with true. cbn iota. apply Forall_cons in Hd as [Hv Hd]. specialize (IH (base + 64)%nat v Hv Hd).
    assert (rest_ones (v :: d) base 0 = rest_ones d (base + 64) v) as ->; [|done].
    unfold rest_ones. by rewrite ones_zero, set_bits_cons, fmap_app, fmap_add_add, fmap_nil, app_nil_l.
Qed.
Lemma collect_ones_eq fuel : ∀ d base w, is_u 64 w → Forall (is_u 64) d → (length (rest_ones d base w) < fuel)%nat →
  collect_ones fuel d base w = Ok (rest_ones d base w).
Proof.
  induction fuel as [|fuel IH]; intros d base w Hw Hd Hf; [lia|]. cbn [collect_ones].
  pose proof (ones_next_eq d base w Hw Hd) as H. destruct (ones_next d base w) as [[i [[d' base'] w']]|]; [|by rewrite H].
  destruct H as (E & Hw' & Hd'). rewrite E in *. cbn [length] in Hf. by rewrite IH by (done || lia).
Qed.
Lemma iter_ones_eq b l : holds b l → iter_one_indices b = Ok (indices (length l) (bit_at l)).
Proof.
  intros H. rewrite <- (set_bits_eq b l H). pose proof (holds_u64 _ _ H) as Hu. unfold iter_one_indices.
  pose proof (length_set_bits (data b)) as Hs. destruct (data b) as [|w d]; [done|]. apply Forall_cons in Hu as [Hw Hd].
  assert (rest_ones d 0 w = set_bits (w :: d)) as E.
  { unfold rest_ones. rewrite set_bits_cons, Nat.add_0_l. f_equal. rewrite <- (list_fmap_id (ones 64 w)) at 2. by apply list_fmap_ext. }
  rewrite <- E in *. apply collect_ones_eq; try done. lia.
Qed.

(** [find_word] returns the first of the ones. *)
Lemma find_word_eq l : ∀ base, Forall (is_u 64) l → find_word base l = Nat.add base <$> head (set_bits l).
Proof.
  induction l as [|w l IH]; intros base Hl; [done|]. apply Forall_cons in Hl as [Hw Hl]. cbn [find_word]. rewrite set_bits_cons.
  destruct (Z.eqb_spec w 0) as [->|Hne]; cbn [negb].
  - rewrite IH, ones_zero by done. cbn [app]. destruct (set_bits l) as [|i t]; cbn; [done|]. f_equal. lia.
  - destruct (ones_nonzero w Hw Hne) as (k & t & -> & ->). done.
Qed.
Lemma testbit_high_mask k j : (k < 64)%nat → (j < 64)%nat → Z.testbit (not_u 64 (bit_mask k - 1)) (Z.of_nat j) = (k <=? j)%nat.
Proof.
  intros Hk Hj. rewrite testbit_not_u64 by done.
  replace (bit_mask k - 1) with (Z.ones (Z.of_nat k)) by (unfold bit_mask; rewrite Z.ones_equiv, Z.shiftl_1_l; lia).
  rewrite Z.testbit_ones_nonneg by lia. case_cmps; done.
Qed.
Lemma word_bit_mask_first start d i : word_bit (mask_first start d) i = (start `mod` 64 <=? i)%nat && word_bit d i.
Proof.
  pose proof (word_bit_bound start) as Hs. destruct d as [|w d]; cbn [mask_first].
  { rewrite word_bit_past by (cbn; lia). by rewrite andb_false_r. }
  destruct (Nat.lt_ge_cases i 64) as [Hi|Hi].
  - by rewrite !word_bit_head, Z.land_spec, testbit_high_mask, andb_comm by done.
  - replace i with (64 + (i - 64))%nat by lia. rewrite !word_bit_tail. case_cmps. done.
Qed.
Lemma mask_first_u64 start d : Forall (is_u 64) d → Forall (is_u 64) (mask_first start d).
Proof. intros [|w d' Hw Hd]; cbn [mask_first]; [constructor|]. constructor; [by apply land_u64 | done]. Qed.
(** Searching the words from that of [start] on, with the bits before [start] masked. *)
Lemma find_from d p start : Forall (is_u 64) d → (∀ i, p i = word_bit d i) →
  first_from p start (find_word (start / 64 * 64) (mask_first start (drop (start / 64) d))).
Proof.
  intros Hd Hp. rewrite find_word_eq by (by apply mask_first_u64, Forall_drop).
  pose proof (head_set_bits (mask_first start (drop (start / 64) d))) as H. pose proof (Nat.div_mod start 64 ltac:(lia)) as Hm.
  pose proof (word_bit_bound start) as Hs.
  destruct (head _) as [k|]; cbn [fmap option_fmap option_map first_from] in *.
  - destruct H as (_ & Hk & H). rewrite word_bit_mask_first, word_bit_drop in Hk. apply andb_true_iff in Hk as [Hk Hb].
    apply Nat.leb_le in Hk. split; [lia|]. rewrite Hp. split; [rewrite <- Hb; f_equal; lia|]. intros i Hi.
    specialize (H (i - start / 64 * 64)%nat ltac:(lia)). rewrite word_bit_mask_first, word_bit_drop in H.
    rewrite Hp. revert H. case_cmps; cbn [andb]. intros <-. f_equal. lia.
  - intros i Hi. specialize (H (i - start / 64 * 64)%nat ltac:(lia)). rewrite word_bit_mask_first, word_bit_drop in H.
    rewrite Hp. revert H. case_cmps; cbn [andb]. intros <-. f_equal. lia.
Qed.
Lemma word_bit_not d i : word_bit (not_u 64 <$> d) i = (i <? 64 * length d)%nat && negb (word_bit d i).
Proof.
  destruct (Nat.ltb_spec i (64 * length d)) as [Hi|Hi]; cbn [andb]; [|by rewrite word_bit_past by (by rewrite length_fmap)].
  unfold word_bit. rewrite list_lookup_fmap. destruct (lookup_lt_is_Some_2 d (i / 64)) as [w ->]; [apply word_index_lt; lia|].
  apply testbit_not_u64, word_bit_bound.
Qed.
Lemma first_set_eq b l start : holds b l →
  first_from (bit_at l) 0 (first_bit_set b) ∧ first_from (bit_at l) start (first_bit_set_from b start) ∧
  first_from (λ i, (i <? length l)%nat && negb (bit_at l i)) start (first_bit_unset_from b start).
Proof.
  intros [Hu Hl Hr Hb]. split; [|split].
  - unfold first_bit_set. rewrite find_word_eq by done. pose proof (head_set_bits (data b)) as H.
    destruct (head _) as [k|]; cbn in *; [|intros i Hi; rewrite <- Hb; by apply H].
    destruct H as (H1 & H2 & H3). split; [lia|]. rewrite <- Hb. split; [done|]. intros i Hi. rewrite <- Hb. apply H3. lia.
  - apply find_from; [done|]. intros i. symmetry. apply Hb.
  - unfold first_bit_unset_from. rewrite fmap_drop.
    pose proof (find_from (not_u 64 <$> data b) (word_bit (not_u 64 <$> data b)) start) as H.
    assert (Forall (is_u 64) (not_u 64 <$> data b)) as Hn.
    { apply Forall_fmap, Forall_forall. intros w _. apply wrap_is_u. lia. }
    specialize (H Hn (λ _, eq_refl)). destruct (find_word _ _) as [k|]; cbn [first_from] in H.
    + destruct H as (H1 & H2 & H3). rewrite word_bit_not, Hb in H2. apply andb_true_iff in H2 as [_ H2].
      assert (∀ i, (start <= i < k)%nat → (i <? length l)%nat && negb (bit_at l i) = false) as H4.
      { intros i Hi. specialize (H3 i Hi). rewrite word_bit_not, Hb in H3. revert H3. case_cmps; done. }
      rewrite Hl. destruct (Nat.leb_spec (length l) k) as [Hk|Hk]; cbn [first_from].
      * intros i Hi. destruct (Nat.lt_ge_cases i k); [by apply H4|]. by case_cmps.
      * split; [done|]. split; [rewrite H2; by case_cmps | done].
    + cbn [first_from]. intros i Hi. specialize (H i Hi). rewrite word_bit_not, Hb in H. revert H. case_cmps; done.
Qed.

(** ** Removing bits *)

Lemma insert_eq_pad l n v : (n < length l)%nat → <[n := v]> (pad (n + 1) l) = <[n := v]> l.
Proof. intros Hn. unfold pad. replace (n + 1 - length l)%nat with 0%nat by lia. by rewrite app_nil_r. Qed.
Lemma remove_loop_eq k : ∀ b l n, holds b l → (n + k)%nat = length l → ∃ b' l', remove_loop b (seq n k) = Ok b' ∧ holds b' l' ∧
  length l' = length l ∧ ∀ i, bit_at l' i = if (i <? n)%nat then bit_at l i else bit_at l (i + 1).
Proof.
  induction k as [|k IH]; intros b l n H Hn; cbn [seq remove_loop].
  { exists b, l. split; [done|]. split; [done|]. split; [done|]. intros i. case_cmps; [done|]. by rewrite !bit_at_ge by lia. }
  assert (∃ b1, (if get b (n + 1) then set b n else reset b n) = Ok b1 ∧ holds (fst b1) (<[n := bit_at l (n + 1)]> l)) as (b1 & -> & H1).
  { rewrite (get_eq b l) by done. destruct (bit_at l (n + 1)).
    - destruct (set_eq b l n H) as (b1 & -> & H1 & _). rewrite insert_eq_pad in H1 by lia. eauto.
    - destruct (reset_eq b l n H) as (b1 & -> & H1 & _). rewrite insert_eq_pad in H1 by lia. eauto. }
  destruct b1 as [b1 c]. cbn [fst] in H1. rewrite M_bind_Ok.
  destruct (IH b1 _ (S n) H1) as (b' & l' & E & H' & Hl' & Hb'); [rewrite length_insert; lia|].
  exists b', l'. split; [done|]. split; [done|]. rewrite length_insert in Hl'. split; [done|]. intros i. rewrite Hb', !bit_at_insert by lia.
  case_cmps; subst; done.
Qed.
Lemma bit_at_delete l n i : bit_at (delete n l) i = if (i <? n)%nat then bit_at l i else bit_at l (i + 1).
Proof.
  unfold bit_at. case_cmps; [by rewrite list_lookup_delete_lt|]. rewrite list_lookup_delete_ge by lia. by rewrite Nat.add_1_r.
Qed.
Lemma remove_eq {P : profile} b l n : holds b l → (n < length l)%nat → Z.of_nat (length l) < 2 ^ 64 → ∃ b',
  remove b n = Ok (b', bit_at l n) ∧ holds b' (delete n l).
Proof.
  intros H Hn Hmax. unfold remove. rewrite (get_eq b l), (holds_len _ _ H) by done.
  destruct (remove_loop_eq (length l - n) b l n H) as (b' & l' & -> & H' & Hl & Hb); [lia|]. rewrite M_bind_Ok.
  unfold len_sub. rewrite (holds_len _ _ H'), sub_u_ok, !M_bind_Ok by (split; lia). eexists. split; [done|].
  pose proof (length_delete l n ltac:(apply lookup_lt_is_Some_2; lia)) as Hd.
  destruct H' as [Hu' Hl' Hr' Hb']. split; cbn [data len]; [done | lia | lia |].
  intros i. by rewrite Hb', Hb, bit_at_delete.
Qed.
Lemma length_shift_words s d : length (shift_words s d) = length d.
Proof. induction d as [|w d IH]; cbn [shift_words length]; [done|]. by rewrite IH. Qed.
Lemma shift_words_u64 s d : Forall (is_u 64) d → Forall (is_u 64) (shift_words s d).
Proof.
  induction 1 as [|w d Hw Hd IH]; cbn [shift_words]; constructor; [|done].
  apply is_u_lor; [lia | apply is_u_shiftr; [lia | lia | done] | apply wrap_is_u; lia].
Qed.
(** The high bits of one word and the low bits of the next one. *)
Lemma testbit_glue a b s r : is_u 64 a → (0 < s < 64)%nat → (r < 64)%nat →
  Z.testbit (Z.lor (Z.shiftr a (Z.of_nat s)) (wrap 64 (Z.shiftl b (Z.of_nat (64 - s))))) (Z.of_nat r) =
  if (r + s <? 64)%nat then Z.testbit a (Z.of_nat (r + s)) else Z.testbit b (Z.of_nat (r + s - 64)).
Proof.
  intros Ha Hs Hr. rewrite Z.lor_spec, Z.shiftr_spec, testbit_wrap by lia. destruct (Nat.ltb_spec (r + s) 64) as [H|H].
  - rewrite Z.shiftl_spec_low, andb_false_r, orb_false_r by lia. f_equal. lia.
  - rewrite (testbit_u_high 64), Z.shiftl_spec by (done || lia). case_cmps. cbn [orb andb]. f_equal. lia.
Qed.
Lemma word_bit_shift_words s d : Forall (is_u 64) d → (0 < s < 64)%nat → ∀ i, word_bit (shift_words s d) i = word_bit d (i + s).
Proof.
  intros Hd Hs. induction Hd as [|w d Hw Hd IH]; intros i; cbn [shift_words].
  { by rewrite !word_bit_past by (cbn [length]; lia). }
  destruct (Nat.lt_ge_cases i 64) as [Hi|Hi].
  - rewrite word_bit_head, testbit_glue by done. case_cmps; [by rewrite word_bit_head|].
    replace (i + s)%nat with (64 + (i + s - 64))%nat by lia. rewrite word_bit_tail. destruct d as [|v d]; cbn [head default].
    + rewrite word_bit_past by (cbn [length]; lia). cbn. apply Z.bits_0.
    + rewrite word_bit_head by lia. cbn. f_equal. lia.
  - replace i with (64 + (i - 64))%nat by lia. rewrite word_bit_tail, IH.
    replace (64 + (i - 64) + s)%nat with (64 + (i - 64 + s))%nat by lia. by rewrite word_bit_tail.
Qed.
Lemma remove_front_eq b l num : holds b l → ∃ b', remove_front b num = Ok b' ∧ holds b' (drop num l) ∧ tight b'.
Proof.
  intros [Hu Hl Hr Hb]. unfold remove_front. rewrite Hl. set (m := Nat.min num (length l)).
  pose proof (Nat.div_mod m 64 ltac:(lia)) as Hm. pose proof (word_bit_bound m) as Hs.
  rewrite (proj2 (Nat.leb_le _ _)) by lia. cbn [rassert]. rewrite M_bind_Ok. cbn zeta. eexists. split; [done|].
  set (d2 := if negb (m `mod` 64 =? 0)%nat then _ else _).
  assert (Forall (is_u 64) d2 ∧ length d2 = (length (data b) - m / 64)%nat ∧ ∀ i, word_bit d2 i = word_bit (data b) (m + i)) as (Hu2 & Hl2 & Hb2).
  { unfold d2. destruct (Nat.eqb_spec (m `mod` 64) 0) as [E|E]; cbn [negb].
    - rewrite length_drop. split; [by apply Forall_drop|]. split; [done|]. intros i. rewrite word_bit_drop. f_equal. lia.
    - rewrite length_shift_words, length_drop. split; [by apply shift_words_u64, Forall_drop|]. split; [done|].
      intros i. rewrite word_bit_shift_words, word_bit_drop by (by apply Forall_drop || lia). f_equal. lia. }
  pose proof (words_needed_bounds (length l - m)) as Hn.
  apply zeroize_eq; [case_match; [by apply Forall_take | done] | rewrite length_drop; lia | case_cmps; rewrite ?length_take; lia |].
  intros i Hi. rewrite bit_at_drop. replace (num + i)%nat with (m + i)%nat by lia. rewrite <- Hb, <- Hb2.
  case_cmps; [|done]. rewrite word_bit_take. by case_cmps.
Qed.

(** [remove_back]: the assertion has the wrong direction, so that only removing all
    the bits works. *)
Lemma remove_back_eq {P : profile} b l num : holds b l → Z.of_nat (length l) < 2 ^ 63 →
  ((num < length l)%nat → remove_back b num = Panic) ∧
  (num = length l → ∃ b', remove_back b num = Ok b' ∧ holds b' []).
Proof.
  intros [Hu Hl Hr Hb] Hmax. unfold remove_back. rewrite Hl. split.
  - intros Hn. by rewrite (proj2 (Nat.leb_gt _ _)).
  - intros ->. rewrite Nat.leb_refl. cbn [rassert]. rewrite M_bind_Ok. unfold len_sub. rewrite Hl.
    rewrite sub_u_ok by (split; lia). rewrite !M_bind_Ok. cbn [len data]. rewrite Z.sub_diag. cbn [Z.to_nat].
    rewrite add_u_ok by (split; lia). rewrite M_bind_Ok. eexists. split; [done|]. apply zeroize_eq; [by apply vec_resize_u64 | done | rewrite length_vec_resize; change (Z.to_nat ((Z.of_nat (Z.to_nat 0) + 63) / 64)) with 0%nat; cbn; lia|].
    intros i Hi. cbn in Hi. lia.
Qed.

(** ** Slices *)

(** The words of a slice: offset and crop are less than a word, and a slice of one
    word has bits left. *)
Definition slice_shape (d : list Z) (o c : nat) : Prop :=
  Forall (is_u 64) d ∧ (o < 64)%nat ∧ (c < 64)%nat ∧ (o + c < 64 * length d)%nat.
Lemma testbit_crop_mask c j : (c < 64)%nat → Z.testbit (Z.shiftr U64_MAX (Z.of_nat c)) (Z.of_nat j) = (j + c <? 64)%nat.
Proof.
  intros Hc. rewrite Z.shiftr_spec, <- Nat2Z.inj_add by lia. destruct (Nat.ltb_spec (j + c) 64) as [H|H].
  - by apply testbit_u64_max.
  - apply (testbit_u_high 64); [by split | lia].
Qed.
Lemma create_iter_u64 d o c : slice_shape d o c → Forall (is_u 64) (create_iter d o c).
Proof.
  intros (Hu & Ho & Hc & Hd). unfold create_iter. apply Forall_lookup. intros i w. rewrite list_lookup_imap.
  intros (a & Ha & ->)%fmap_Some. apply lookup_take_Some in Ha as [Ha _].
  assert (is_u 64 a) as Hau by (by eapply Forall_lookup_1 in Ha).
  cbn zeta. destruct (_ =? length d)%nat; [apply is_u_shiftr; [lia..|]; by apply land_u64|].
  destruct (o =? 0)%nat; [done|]. apply is_u_lor; [lia | apply is_u_shiftr; [lia | lia | done]|].
  unfold checked_shl_u. destruct (_ <? 64); [apply wrap_is_u; lia | by split].
Qed.
Lemma word_bit_lookup d j r w : d !! j = Some w → (r < 64)%nat → word_bit d (64 * j + r) = Z.testbit w (Z.of_nat r).
Proof. apply word_bit_at. Qed.
Lemma word_bit_create_iter d o c i : slice_shape d o c →
  word_bit (create_iter d o c) i = (i <? 64 * length d - o - c)%nat && word_bit d (i + o).
Proof.
  intros (Hu & Ho & Hc & Hd). pose proof (Nat.div_mod i 64 ltac:(lia)) as Hi. pose proof (word_bit_bound i) as Hr.
  set (j := (i / 64)%nat) in *. set (r := (i `mod` 64)%nat) in *. unfold create_iter. cbn zeta.
  set (count := if (1 <? length d)%nat && _ then _ else _).
  assert (length d - 1 <= count <= length d ∧ 64 * length d - o - c <= 64 * count)%nat as [Hc1 Hc2].
  { unfold count. destruct (Nat.ltb_spec 1 (length d)), (Nat.leb_spec 64 (c + o)); cbn [andb]; lia. }
  unfold word_bit at 1. fold j r. rewrite list_lookup_imap. destruct (Nat.lt_ge_cases j count) as [Hj|Hj].
  2: { rewrite lookup_take_ge by done. cbn [fmap option_fmap option_map from_option]. rewrite Z.bits_0.
       by rewrite (proj2 (Nat.ltb_ge i _)) by lia. }
  rewrite lookup_take_lt by done. destruct (lookup_lt_is_Some_2 d j) as [w Hw]; [lia|]. rewrite Hw. cbn [fmap option_fmap option_map from_option id].
  assert (is_u 64 w) as Hwu by (by eapply Forall_lookup_1 in Hw).
  destruct (Nat.eqb_spec (j + 1) (length d)) as [E|E].
  - rewrite Z.shiftr_spec, <- Nat2Z.inj_add, Z.land_spec, testbit_crop_mask, andb_comm by lia.
    destruct (Nat.ltb_spec (r + o + c) 64) as [H|H]; cbn [andb]; case_cmps; [|done].
    replace (i + o)%nat with (64 * j + (r + o))%nat by lia. by rewrite (word_bit_at d j w) by (done || lia).
  - destruct (lookup_lt_is_Some_2 d (j + 1)) as [v Hv]; [lia|]. destruct (Nat.eqb_spec o 0) as [->|Ho0].
    { case_cmps. cbn [andb]. by rewrite Nat.add_0_r, Hi, (word_bit_at d j w) by done. }
    unfold checked_shl_u. rewrite (proj2 (Z.ltb_lt _ _)), Hv by lia. cbn [from_option id]. rewrite testbit_glue by (done || lia).
    destruct (Nat.ltb_spec (r + o) 64) as [H|H].
    { case_cmps. replace (i + o)%nat with (64 * j + (r + o))%nat by lia. by rewrite (word_bit_at d j w) by done. }
    replace (i + o)%nat with (64 * (j + 1) + (r + o - 64))%nat by lia. rewrite (word_bit_at d (j + 1) v), Z.land_spec, andb_comm by (done || lia).
    f_equal. destruct (Nat.eqb_spec (j + 2) (length d)) as [E2|E2].
    + rewrite testbit_crop_mask by done. case_cmps; done.
    + rewrite testbit_u64_max by lia. by case_cmps.
Qed.
Lemma length_create_iter d o c : slice_shape d o c →
  let n := (64 * length d - o - c)%nat in (n <= 64 * length (create_iter d o c) < n + 64)%nat.
Proof.
  intros (Hu & Ho & Hc & Hd). unfold create_iter. rewrite length_imap, length_take.
  destruct (Nat.ltb_spec 1 (length d)), (Nat.leb_spec 64 (c + o)); cbn [andb]; lia.
Qed.
#[export] Instance slice_u64_ok d o c : slice_shape d o c → SliceOk {| slice_data := d; offset := o; crop := c |}.
Proof.
  intros H. pose proof (length_create_iter d o c H) as Hlen. cbn zeta in Hlen. split; cbn [iter_data Bitmap.len Bitmap.get BitmapSliceU64_slice slice_data offset crop].
  - by apply create_iter_u64.
  - lia.
  - intros i Hi. unfold index. rewrite bit_of_testbit, word_bit_create_iter by done. by case_cmps.
  - intros i Hi. rewrite word_bit_create_iter by done. by case_cmps.
Qed.
(** The range [start..stop] of a bitmap: the words it borrows and how they are cut. *)
Lemma slice_parts b l start stop : holds b l → (start < stop <= length l)%nat →
  let '(si, so, ei, c) := Growing_slice.bounds start stop in
  (si <= ei <= length (data b))%nat ∧ slice_shape (Utils.slice (data b) si ei) so c ∧ length (Utils.slice (data b) si ei) = (ei - si)%nat ∧
  start = (64 * si + so)%nat ∧ stop = (64 * ei - c)%nat ∧ (c < 64)%nat.
Proof.
  intros [Hu Hl Hr Hb] Hs. unfold Growing_slice.bounds, index. unfold slice_shape.
  pose proof (Nat.div_mod start 64 ltac:(lia)). pose proof (word_bit_bound start).
  pose proof (Nat.div_mod stop 64 ltac:(lia)). pose proof (word_bit_bound stop).
  assert (∀ a e, (e <= length (data b))%nat → length (Utils.slice (data b) a e) = (e - a)%nat ∧ Forall (is_u 64) (Utils.slice (data b) a e)) as Hsl.
  { intros a e He. unfold Utils.slice. rewrite length_take, length_drop. split; [lia|]. by apply Forall_take, Forall_drop. }
  destruct (Nat.eqb_spec (stop `mod` 64) 0) as [E|E]; cbn [negb].
  - destruct (Hsl (start / 64) (stop / 64))%nat as [-> Hf]; [lia|]. split_and!; try done; lia.
  - destruct (Hsl (start / 64) (stop / 64 + 1))%nat as [-> Hf]; [lia|]. split_and!; try done; lia.
Qed.
Lemma slice_eq b l start stop : holds b l → (start <= stop <= length l)%nat → ∃ s, Growing_slice.slice b start stop = Ok s ∧
  SliceOk s ∧ Bitmap.len s = (stop - start)%nat ∧ ∀ i, (i < stop - start)%nat → Bitmap.get s i = bit_at l (start + i).
Proof.
  intros H Hs. unfold Growing_slice.slice. destruct (Nat.eqb_spec start stop) as [<-|Hne].
  { eexists. split; [done|]. split; [|split; [cbn; lia | intros; lia]]. split; cbn; try done; try lia.
    intros i _. by rewrite word_bit_past by (cbn; lia). }
  pose proof (slice_parts b l start stop H ltac:(lia)) as Hp. destruct (Growing_slice.bounds start stop) as [[[si so] ei] c].
  destruct Hp as (Hr & Hsh & Hlen & Es & Ee & Hc). rewrite !(proj2 (Nat.leb_le _ _)) by lia. cbn [rassert]. rewrite !M_bind_Ok.
  eexists. split; [done|]. split; [by apply slice_u64_ok|]. cbn [Bitmap.len Bitmap.get BitmapSliceU64_slice slice_data offset crop].
  rewrite Hlen. split; [lia|]. intros i Hi. unfold index. rewrite bit_of_testbit. fold (word_bit (Utils.slice (data b) si ei) (i + so)).
  unfold Utils.slice. rewrite word_bit_take, word_bit_drop, (holds_bits _ _ H). case_cmps. cbn [andb]. f_equal. lia.
Qed.

(** ** Mutable slices *)

(** A closure that works bit by bit: the [k]-th call gets the captured iterator [s]
    advanced by [k] words. *)
Definition bitwise (f : word_closure) (s : list Z) (n : nat) (g : nat → bool → bool) : Prop := ∀ k w, (k < n)%nat → is_u 64 w →
  ∃ v, f (drop k s) w = Ok (v, drop (S k) s) ∧ is_u 64 v ∧
    ∀ j, (j < 64)%nat → Z.testbit v (Z.of_nat j) = g (64 * k + j)%nat (Z.testbit w (Z.of_nat j)).
Section modify.
Context (f : word_closure) (s : list Z) (n : nat) (g : nat → bool → bool) (Hf : bitwise f s n g).

Lemma map_words_eq d : ∀ k, Forall (is_u 64) d → (k + length d <= n)%nat → ∃ d' s', map_words f (drop k s) d = Ok (d', s') ∧
  Forall (is_u 64) d' ∧ length d' = length d ∧ ∀ i, (i < 64 * length d)%nat → word_bit d' i = g (64 * k + i)%nat (word_bit d i).
Proof using Hf.
  induction d as [|w d IH]; intros k Hd Hk; cbn [map_words length] in *.
  { eexists _, _. split; [done|]. split; [done|]. split; [done|]. intros i Hi. lia. }
  apply Forall_cons in Hd as [Hw Hd]. destruct (Hf k w ltac:(lia) Hw) as (v & -> & Hv & Hb). rewrite M_bind_Ok.
  destruct (IH (S k) Hd ltac:(lia)) as (d' & s' & -> & Hd' & Hl' & Hb'). rewrite M_bind_Ok.
  eexists _, _. split; [done|]. split; [by constructor|]. split; [cbn [length]; lia|]. intros i Hi.
  destruct (Nat.lt_ge_cases i 64) as [Hi'|Hi'].
  - rewrite !word_bit_head by done. by apply Hb.
  - replace i with (64 + (i - 64))%nat by lia. rewrite !word_bit_tail, Hb' by lia. f_equal. lia.
Qed.
Lemma modify_bitmap_eq b l : holds b l → tight b → (length (data b) <= n)%nat → ∃ b', modify f s b = Ok b' ∧
  holds b' (imap g l) ∧ tight b'.
Proof using Hf.
  intros [Hu Hl Hr Hb] Ht Hn. unfold modify, GrowingBitmap_slice_mut. unfold tight in Ht.
  destruct (map_words_eq (data b) 0 Hu ltac:(lia)) as (d' & s' & E & Hd' & Hl' & Hb'). rewrite drop_0 in E. rewrite E, M_bind_Ok.
  eexists. split; [done|]. rewrite Hl in *. apply zeroize_eq; [done | by rewrite length_imap | lia |]. intros i Hi.
  rewrite Hb', Hb by lia. cbn [Nat.mul Nat.add]. unfold bit_at. rewrite list_lookup_imap.
  by destruct (lookup_lt_is_Some_2 l i Hi) as [x ->].
Qed.

(** The word under the mask of a crop, and the old word outside of it. *)
Lemma testbit_crop old new c j : (c < 64)%nat → (j < 64)%nat → let mask := Z.shiftr U64_MAX (Z.of_nat c) in
  Z.testbit (Z.lor (Z.land old (not_u 64 mask)) (Z.land new mask)) (Z.of_nat j) =
  if (j + c <? 64)%nat then Z.testbit new (Z.of_nat j) else Z.testbit old (Z.of_nat j).
Proof using.
  intros Hc Hj. cbn zeta. rewrite Z.lor_spec, !Z.land_spec, testbit_not_u64, testbit_crop_mask by done.
  destruct (j + c <? 64)%nat; cbn [negb]; rewrite ?andb_false_r, ?andb_true_r, ?orb_false_r; done.
Qed.
Lemma crop_u64 old new mask : is_u 64 old → is_u 64 new → is_u 64 (Z.lor (Z.land old (not_u 64 mask)) (Z.land new mask)).
Proof using. intros Ho Hn. apply is_u_lor; [lia | by apply land_u64..]. Qed.

Lemma modify_aligned_eq c d : ∀ k, Forall (is_u 64) d → (c < 64)%nat → (k + length d <= n)%nat → ∃ d', modify_aligned f (drop k s) c d = Ok d' ∧
  Forall (is_u 64) d' ∧ length d' = length d ∧
  ∀ i, (i < 64 * length d)%nat → word_bit d' i = if (i + c <? 64 * length d)%nat then g (64 * k + i)%nat (word_bit d i) else word_bit d i.
Proof using Hf.
  induction d as [|w d IH]; intros k Hd Hc Hk; cbn [length] in *.
  { exists []. split; [done|]. split; [constructor|]. split; [done|]. intros i Hi. lia. }
  apply Forall_cons in Hd as [Hw Hd]. destruct (Hf k w ltac:(lia) Hw) as (v & Ev & Hv & Hb). destruct d as [|u d].
  - cbn [modify_aligned]. rewrite Ev, M_bind_Ok. eexists. split; [done|].
    split; [constructor; [by apply crop_u64 | constructor]|]. split; [done|]. intros i Hi. cbn [length] in *.
    rewrite !word_bit_head, testbit_crop, Hb by lia. by case_cmps.
  - change (modify_aligned f (drop k s) c (w :: u :: d)) with
      ('(w0, s0) ← f (drop k s) w; l0 ← modify_aligned f s0 c (u :: d); Ok (w0 :: l0)). rewrite Ev, M_bind_Ok.
    destruct (IH (S k) Hd Hc ltac:(lia)) as (d' & -> & Hd' & Hl' & Hb'). rewrite M_bind_Ok. eexists. split; [done|].
    split; [by constructor|]. split; [cbn [length] in *; lia|]. intros i Hi. destruct (Nat.lt_ge_cases i 64) as [Hi'|Hi'].
    + rewrite !word_bit_head, Hb by done. case_cmps; [done|]. cbn [length] in *. lia.
    + replace i with (64 + (i - 64))%nat by lia. rewrite !word_bit_tail, Hb' by lia. cbn [length] in *. case_cmps; try lia; [|done].
      f_equal. lia.
Qed.

(** The words that [modify_words] writes.  [new p] is the new value of bit [p], counted
    from the first bit of the word before [l]: the first [o] bits come from [bo]. *)
Definition new_bit (k o : nat) (bo : Z) (d : list Z) (p : nat) : bool :=
  if (p <? o)%nat then Z.testbit bo (Z.of_nat p) else g (64 * k + p - o)%nat (word_bit d p).
Lemma modify_words_eq o l : ∀ prev k bo, (0 < o < 64)%nat → Forall (is_u 64) (prev :: l) → is_u 64 bo →
  (∀ j, (o <= j < 64)%nat → Z.testbit bo (Z.of_nat j) = false) → (k + length l <= n)%nat → ∃ d bo',
  modify_words f (drop k s) o (Z.shiftr prev (Z.of_nat o)) bo l =
    Ok (d, Z.shiftr (default prev (last l)) (Z.of_nat o), bo', drop (k + length l) s) ∧
  Forall (is_u 64) d ∧ length d = length l ∧ is_u 64 bo' ∧
  (∀ j, (j < 64)%nat → Z.testbit bo' (Z.of_nat j) = (j <? o)%nat && new_bit k o bo (prev :: l) (64 * length l + j)) ∧
  ∀ p, (p < 64 * length l)%nat → word_bit d p = new_bit k o bo (prev :: l) p.
Proof using Hf.
  induction l as [|item l IH]; intros prev k bo Ho Hu Hbo Hz Hk; cbn [modify_words length] in *.
  { exists [], bo. rewrite Nat.add_0_r. split; [done|]. split; [constructor|]. split; [done|]. split; [done|]. split.
    - intros j Hj. unfold new_bit. cbn [Nat.mul Nat.add]. destruct (Nat.ltb_spec j o); cbn [andb]; [done|]. apply Hz. lia.
    - intros p Hp. lia. }
  apply Forall_cons in Hu as [Hp Hu]. pose proof Hu as Hu'. apply Forall_cons in Hu' as [Hi Hl].
  set (old := Z.lor _ _). assert (is_u 64 old) as Hold.
  { apply is_u_lor; [lia | apply is_u_shiftr; [lia | lia | done] | apply wrap_is_u; lia]. }
  destruct (Hf k old ltac:(lia) Hold) as (v & -> & Hv & Hb). rewrite M_bind_Ok.
  set (w := Z.lor bo _). assert (is_u 64 w) as Hw by (apply is_u_lor; [lia | done | apply wrap_is_u; lia]).
  destruct (IH item (S k) (Z.shiftr v (Z.of_nat (64 - o))) Ho Hu) as (d & bo' & E & Hd & Hld & Hbo' & Hbits & Hwords); [| |lia|].
  { apply is_u_shiftr; [lia | lia | done]. }
  { intros j Hj. rewrite Z.shiftr_spec, (testbit_u_high 64) by (done || lia). done. }
  replace (default item (last l)) with (default prev (last (item :: l))) in E by (by rewrite last_cons; destruct (last l)).
  replace (S k + length l)%nat with (k + S (length l))%nat in E by lia.
  assert (∀ p, new_bit (S k) o (Z.shiftr v (Z.of_nat (64 - o))) (item :: l) p = new_bit k o bo (prev :: item :: l) (64 + p)) as Hnew.
  { intros p. unfold new_bit. rewrite word_bit_tail. destruct (Nat.ltb_spec p o) as [H|H]; case_cmps.
    - rewrite Z.shiftr_spec, <- Nat2Z.inj_add, Hb by lia. f_equal; [lia|]. unfold old. rewrite testbit_glue by (done || lia).
      case_cmps. rewrite word_bit_head by lia. do 2 f_equal. lia.
    - f_equal. lia. }
  exists (w :: d), bo'. rewrite E, M_bind_Ok. split; [done|]. split; [by constructor|]. split; [cbn [length]; lia|]. split; [done|]. split.
  - intros j Hj. rewrite Hbits, Hnew by done. do 2 f_equal. lia.
  - intros p Hp'. destruct (Nat.lt_ge_cases p 64) as [H64|H64].
    2: { replace p with (64 + (p - 64))%nat by lia. rewrite word_bit_tail, Hwords, Hnew by lia. done. }
    rewrite word_bit_head by done. unfold w, new_bit. rewrite Z.lor_spec, testbit_wrap by lia. destruct (Nat.ltb_spec p o) as [H|H].
    + by rewrite Z.shiftl_spec_low, andb_false_r, orb_false_r by lia.
    + rewrite Hz, Z.shiftl_spec by lia. case_cmps. cbn [orb andb]. rewrite <- Nat2Z.inj_sub, Hb, word_bit_head by lia. f_equal; [lia|].
      unfold old. rewrite testbit_glue by (done || lia). case_cmps. f_equal. lia.
Qed.

Lemma vget_last (first : Z) rest : vget (first :: rest) (length rest) = Ok (default first (last rest)).
Proof using.
  unfold vget. destruct rest as [|x r _] using rev_ind; [done|]. rewrite last_snoc, length_app, Nat.add_1_r.
  rewrite lookup_cons. by rewrite list_lookup_middle.
Qed.
(** The last call of the closure, if the slice has bits left in the last word. *)
Lemma last_call o c m lw : (0 < o < 64)%nat → is_u 64 lw → (m + (if (m <=? 0)%nat || (c + o <? 64)%nat then 1 else 0) <= n)%nat →
  let old_val := Z.lor (Z.shiftr lw (Z.of_nat o)) (wrap 64 (Z.shiftl (Z.land lw (Z.shiftr U64_MAX (Z.of_nat c))) (Z.of_nat (64 - o)))) in
  ∃ v s', (if (m <=? 0)%nat || (c + o <? 64)%nat then f (drop m s) old_val else Ok (0, drop m s)) = Ok (v, s') ∧ is_u 64 v ∧
    ((m <=? 0)%nat || (c + o <? 64)%nat = true → ∀ j, (j + o < 64)%nat →
       Z.testbit v (Z.of_nat j) = g (64 * m + j)%nat (Z.testbit lw (Z.of_nat (j + o)))).
Proof using Hf.
  intros Ho Hlw. cbn zeta. set (old := Z.lor _ _). destruct ((m <=? 0)%nat || (c + o <? 64)%nat); intros Hn.
  - assert (is_u 64 old) as Hold by (apply is_u_lor; [lia | apply is_u_shiftr; [lia | lia | done] | apply wrap_is_u; lia]).
    destruct (Hf m old ltac:(lia) Hold) as (v & E & Hv & Hb). exists v, (drop (S m) s). split; [exact E|]. split; [done|].
    intros _ j Hj. unfold old in Hb. rewrite Hb, testbit_glue by (done || lia). by case_cmps.
  - eexists 0, _. split; [done|]. split; [by split | done].
Qed.
(** The bits that are kept of the first word. *)
Lemma kept_bits first o j : (0 < o < 64)%nat → (j < 64)%nat →
  Z.testbit (Z.land first (not_u 64 (wrap 64 (Z.shiftl U64_MAX (Z.of_nat o))))) (Z.of_nat j) = (j <? o)%nat && Z.testbit first (Z.of_nat j).
Proof using.
  intros Ho Hj. rewrite Z.land_spec, testbit_not_u64, testbit_wrap, andb_comm by lia. f_equal. destruct (Nat.ltb_spec j o).
  - rewrite Z.shiftl_spec_low by lia. by rewrite andb_false_r.
  - rewrite Z.shiftl_spec, <- Nat2Z.inj_sub, testbit_u64_max by lia. by case_cmps.
Qed.
Lemma new_bit_all first rest o p : (0 < o < 64)%nat →
  new_bit 0 o (Z.land first (not_u 64 (wrap 64 (Z.shiftl U64_MAX (Z.of_nat o))))) (first :: rest) p =
  if (o <=? p)%nat then g (p - o)%nat (word_bit (first :: rest) p) else word_bit (first :: rest) p.
Proof using.
  intros Ho. unfold new_bit. case_cmps; [|done]. rewrite kept_bits, word_bit_head by lia. by case_cmps.
Qed.
Lemma modify_slice_eq d o c : slice_shape d o c → (length (create_iter d o c) <= n)%nat → ∃ d',
  modify_slice f s {| slice_data := d; offset := o; crop := c |} = Ok {| slice_data := d'; offset := o; crop := c |} ∧
  Forall (is_u 64) d' ∧ length d' = length d ∧ ∀ p, (p < 64 * length d)%nat →
    word_bit d' p = if (o <=? p)%nat && (p + c <? 64 * length d)%nat then g (p - o)%nat (word_bit d p) else word_bit d p.
Proof using Hf.
  intros (Hu & Ho & Hc & Hd) Hn. unfold create_iter in Hn. rewrite length_imap, length_take in Hn. unfold modify_slice. cbn [slice_data offset crop].
  destruct d as [|first rest]; [cbn [length] in Hd; lia|]. destruct (Nat.eqb_spec o 0) as [->|Ho0].
  { destruct (modify_aligned_eq c (first :: rest) 0 Hu Hc) as (d' & E & Hd' & Hl' & Hb').
    - revert Hn. rewrite (proj2 (Nat.leb_gt 64 (c + 0))), andb_false_r by lia. lia.
    - rewrite drop_0 in E. rewrite E, M_bind_Ok. exists d'. split; [done|]. split; [done|]. split; [done|]. intros p Hp. rewrite Hb' by done.
      cbn [Nat.leb andb]. by rewrite Nat.sub_0_r. }
  set (bo := Z.land first _). pose proof Hu as [Hfirst Hrest]%Forall_cons. cbn [length] in *.
  assert (length rest + (if (length rest <=? 0)%nat || (c + o <? 64)%nat then 1 else 0) <= n)%nat as Hcalls.
  { revert Hn. destruct (Nat.ltb_spec 1 (S (length rest))), (Nat.leb_spec 64 (c + o)), (Nat.leb_spec (length rest) 0), (Nat.ltb_spec (c + o) 64); cbn [andb orb]; lia. }
  destruct (modify_words_eq o rest first 0 bo) as (d & bo' & E & Hd' & Hl' & Hbo' & Hbits & Hwords);
    [lia | done | by apply land_u64 | intros j Hj; unfold bo; rewrite kept_bits by lia; by case_cmps | lia |].
  rewrite drop_0 in E. rewrite E, M_bind_Ok. clear E. cbn zeta. rewrite Nat.sub_succ, Nat.sub_0_r, Nat.add_0_l, vget_last, M_bind_Ok.
  set (lw := default first (last rest)). assert (is_u 64 lw ∧ ∀ r, (r < 64)%nat → word_bit (first :: rest) (64 * length rest + r) = Z.testbit lw (Z.of_nat r)) as [Hlw Hlast].
  { pose proof (vget_last first rest) as Hv%vget_Ok_inv. split; [by eapply Forall_lookup_1 in Hv|]. intros r Hr. by apply word_bit_at. }
  change (S (length rest) <=? 1)%nat with (length rest <=? 0)%nat.
  destruct (last_call o c (length rest) lw ltac:(lia) Hlw Hcalls) as (v & s' & -> & Hv & Hvb). rewrite M_bind_Ok.
  eexists. split; [done|]. split; [apply Forall_app; split; [done|]; constructor; [|constructor]; apply crop_u64; [done|]; apply is_u_lor; [lia | done | apply wrap_is_u; lia]|].
  split; [rewrite length_app; cbn [length]; lia|]. intros p Hp. destruct (Nat.lt_ge_cases p (64 * length d)) as [Hpd|Hpd].
  { rewrite word_bit_app_l, Hwords by lia. unfold bo. rewrite new_bit_all by lia. case_cmps; [|done]. cbn [andb]. by case_cmps. }
  replace p with (64 * length d + (p - 64 * length d))%nat at 1 by lia. rewrite word_bit_last, testbit_crop by lia.
  set (r := (p - 64 * length d)%nat). replace p with (64 * length rest + r)%nat by lia. rewrite Hlast by lia.
  destruct (Nat.ltb_spec (r + c) 64) as [Hrc|Hrc]; [|case_cmps; by rewrite ?andb_false_r].
  rewrite Z.lor_spec, Hbits, testbit_wrap by lia. unfold bo. rewrite new_bit_all, Hlast by lia.
  rewrite (proj2 (Nat.ltb_lt (64 * length rest + r + c) _)), andb_true_r by lia. destruct (Nat.ltb_spec r o) as [Hro|Hro]; cbn [andb orb].
  - by rewrite Z.shiftl_spec_low, andb_false_r, orb_false_r by lia.
  - rewrite Z.shiftl_spec, <- Nat2Z.inj_sub by lia. rewrite Hvb by (lia || (rewrite (proj2 (Nat.ltb_lt _ _)) by lia; apply orb_true_r)).
    case_cmps. cbn [andb]. do 2 f_equal; [lia|]. f_equal. lia.
Qed.
End modify.

(** A mutable slice of a range changes the bits of the range, and no other. *)
Lemma modify_range f s g b l start stop : holds b l → (start <= stop <= length l)%nat → bitwise f s ((stop - start + 63) / 64) g →
  ∃ sl sl', Growing_slice.slice b start stop = Ok sl ∧ modify f s sl = Ok sl' ∧
  holds (Growing_slice.write_back b start stop sl') (imap (λ i x, if (start <=? i)%nat && (i <? stop)%nat then g (i - start)%nat x else x) l).
Proof.
  intros H Hs Hf. unfold Growing_slice.slice, Growing_slice.write_back. destruct (Nat.eqb_spec start stop) as [<-|Hne].
  { eexists _, _. split; [done|]. split; [done|]. replace (imap _ l) with l; [done|]. apply list_eq. intros i.
    rewrite list_lookup_imap. destruct (l !! i); cbn [fmap option_fmap option_map]; [|done]. f_equal.
    destruct (Nat.leb_spec start i), (Nat.ltb_spec i start); cbn [andb]; try done; lia. }
  pose proof (slice_parts b l start stop H ltac:(lia)) as Hp. destruct (Growing_slice.bounds start stop) as [[[si so] ei] c].
  destruct Hp as (Hr & Hsh & Hlen & Es & Ee & Hc). rewrite !(proj2 (Nat.leb_le _ _)) by lia. cbn [rassert]. rewrite !M_bind_Ok.
  pose proof (length_create_iter _ _ _ Hsh) as Hn. cbn zeta in Hn. rewrite Hlen in Hn. destruct Hsh as (Hu & Hso & _ & Hb0).
  destruct (modify_slice_eq f s ((stop - start + 63) / 64) g Hf (Utils.slice (data b) si ei) so c) as (d' & E & Hd' & Hl' & Hb'); [by split_and!| |].
  { rewrite (words_needed (stop - start) (length (create_iter (Utils.slice (data b) si ei) so c))); lia. }
  eexists _, _. split; [done|]. split; [exact E|]. rewrite Hlen in *. destruct H as [Hu0 Hl0 Hr0 Hbits]. cbn [slice_data].
  split; cbn [data len].
  - apply Forall_app; split; [by apply Forall_take|]. apply Forall_app; split; [done | by apply Forall_drop].
  - by rewrite length_imap.
  - rewrite length_imap, !length_app, length_take, length_drop. lia.
  - intros i. assert (bit_at (imap (λ i x, if (start <=? i)%nat && (i <? stop)%nat then g (i - start)%nat x else x) l) i =
      if (start <=? i)%nat && (i <? stop)%nat then g (i - start)%nat (bit_at l i) else bit_at l i) as ->.
    { unfold bit_at. rewrite list_lookup_imap. destruct (l !! i) as [x|] eqn:Ei; cbn [fmap option_fmap option_map from_option]; [done|].
      apply lookup_ge_None in Ei. by rewrite (proj2 (Nat.ltb_ge i stop)), andb_false_r by lia. }
    rewrite <- Hbits. destruct (Nat.lt_ge_cases i (64 * si)) as [H1|H1].
    { rewrite word_bit_app_l, word_bit_take by (rewrite length_take; lia). by case_cmps. }
    replace i with (64 * length (take si (data b)) + (i - 64 * si))%nat at 1 by (rewrite length_take; lia).
    rewrite word_bit_app_r. destruct (Nat.lt_ge_cases i (64 * ei)) as [H2|H2].
    + rewrite word_bit_app_l, Hb' by lia. unfold Utils.slice. rewrite word_bit_take, word_bit_drop.
      replace (64 * si + (i - 64 * si))%nat with i by lia. rewrite (proj2 (Nat.ltb_lt (i - 64 * si) (64 * (ei - si)))) by lia. cbn [andb].
      destruct (Nat.leb_spec so (i - 64 * si)), (Nat.ltb_spec (i - 64 * si + c) (64 * (ei - si))), (Nat.leb_spec start i), (Nat.ltb_spec i stop); cbn [andb]; try done; try lia.
      f_equal. lia.
    + replace (i - 64 * si)%nat with (64 * length d' + (i - 64 * ei))%nat by lia. rewrite word_bit_app_r, word_bit_drop.
      replace (64 * ei + (i - 64 * ei))%nat with i by lia. case_cmps; by rewrite ?andb_false_r.
Qed.
