(* ===== verification/GrowingSpec.v ===== *)
(** * What growing bitmaps, dense sets and symmetric matrices compute

    The operations of [GrowingBitmap] on whole bitmaps against lists of bits, the
    methods of mutable slices, [DenseSet] as a set of numbers and
    [Symmetric2DMatrix] as a symmetric relation. *)
From S2P Require Import Prelude MachInt Utils Bitmap BitmapFacts Growing GrowingFacts.
Import Growing.

(** The list of the bits [p i] for [i < n]. *)
Definition bits_of (n : nat) (p : nat → bool) : list bool := p <$> seq 0 n.
Lemma length_bits_of n p : length (bits_of n p) = n.
Proof. unfold bits_of. by rewrite length_fmap, length_seq. Qed.
Lemma bit_at_bits_of n p i : bit_at (bits_of n p) i = (i <? n)%nat && p i.
Proof.
  unfold bit_at, bits_of. rewrite list_lookup_fmap. destruct (Nat.ltb_spec i n).
  - by rewrite lookup_seq_lt.
  - by rewrite lookup_seq_ge.
Qed.
Lemma bits_of_ext n p q : (∀ i, (i < n)%nat → p i = q i) → bits_of n p = bits_of n q.
Proof. intros H. apply list_fmap_ext. intros j i Hj%lookup_seq. apply H. lia. Qed.

(** ** Whole bitmaps *)

Lemma holds_of_bits d n p : Forall (is_u 64) d → (n <= 64 * length d)%nat → (∀ i, word_bit d i = (i <? n)%nat && p i) →
  holds {| data := d; len := n |} (bits_of n p).
Proof.
  intros Hu Hn Hb. split; cbn [data len]; rewrite ?length_bits_of; try done. intros i. by rewrite bit_at_bits_of.
Qed.
Lemma zip_with_u64_both (op : Z → Z → Z) d c : (∀ x y, is_u 64 x → is_u 64 y → is_u 64 (op x y)) →
  Forall (is_u 64) d → Forall (is_u 64) c → Forall (is_u 64) (zip_with op d c).
Proof. intros Hop Hd. revert c. induction Hd; intros c [|y c' Hy Hc]; constructor; auto. Qed.
Section binary.
Context (a b : GrowingBitmap) (l k : list bool) (Ha : holds a l) (Hb : holds b k).

Lemma bitand_eq : holds (bitand a b) (bits_of (Nat.min (length l) (length k)) (λ i, bit_at l i && bit_at k i)).
Proof using Ha Hb.
  destruct Ha as [Ua La Ra Ba], Hb as [Ub Lb Rb Bb]. unfold bitand. rewrite La, Lb. apply holds_of_bits.
  - apply zip_with_u64; [intros; by apply land_u64 | done].
  - rewrite length_zip_with. lia.
  - intros i. rewrite word_bit_land, Ba, Bb. destruct (Nat.ltb_spec i (Nat.min (length l) (length k))); [done|].
    destruct (Nat.lt_ge_cases i (length l)); [rewrite (bit_at_ge k) by lia | by rewrite bit_at_ge]. apply andb_false_r.
Qed.
Lemma or_tail i : (Nat.max (length l) (length k) <= i)%nat → bit_at l i || bit_at k i = false.
Proof using. intros Hi. by rewrite !bit_at_ge by lia. Qed.
Lemma bitor_eq : holds (bitor a b) (bits_of (Nat.max (length l) (length k)) (λ i, bit_at l i || bit_at k i)).
Proof using Ha Hb.
  destruct Ha as [Ua La Ra Ba], Hb as [Ub Lb Rb Bb]. unfold bitor. rewrite La, Lb.
  assert (∀ d j, Forall (is_u 64) d → is_u 64 (default 0 (d !! j))) as Hd.
  { intros d j Hd. destruct (d !! j) eqn:E; cbn; [by eapply Forall_lookup_1 in E | by split]. }
  apply holds_of_bits.
  - apply Forall_fmap, Forall_forall. intros j _. cbn. apply is_u_lor; [lia | by apply Hd..].
  - rewrite length_fmap, length_seq. lia.
  - intros i. unfold word_bit. rewrite list_lookup_fmap.
    assert (Z.testbit (Z.lor (default 0 (data a !! (i / 64)%nat)) (default 0 (data b !! (i / 64)%nat))) (Z.of_nat (i `mod` 64)) =
      bit_at l i || bit_at k i) as E by (rewrite Z.lor_spec; by rewrite <- Ba, <- Bb).
    destruct (Nat.lt_ge_cases (i / 64) (Nat.max (length (data a)) (length (data b)))) as [Hi|Hi].
    + rewrite lookup_seq_lt by done. cbn [fmap option_fmap option_map from_option id]. rewrite Nat.add_0_l, E.
      destruct (Nat.ltb_spec i (Nat.max (length l) (length k))); [done | by apply or_tail].
    + rewrite lookup_seq_ge by done. cbn [fmap option_fmap option_map from_option]. rewrite Z.bits_0.
      pose proof (Nat.div_mod i 64 ltac:(lia)). by rewrite (proj2 (Nat.ltb_ge i _)) by lia.
Qed.
Lemma zip_chain_eq (op : Z → Z → Z) (g : bool → bool → bool) d n m : Forall (is_u 64) d → (m <= 64 * length d)%nat →
  (∀ x y, is_u 64 x → is_u 64 y → is_u 64 (op x y)) → (∀ x y j, Z.testbit (op x y) j = g (Z.testbit x j) (Z.testbit y j)) →
  (∀ i, word_bit d i = (i <? n)%nat && bit_at l i) → (∀ i, (m <= i)%nat → g ((i <? n)%nat && bit_at l i) (bit_at k i) = false) →
  holds {| data := zip_with op d (chain_zeros (data b) (length d)); len := m |} (bits_of m (λ i, g ((i <? n)%nat && bit_at l i) (bit_at k i))).
Proof using Hb.
  intros Hd Hm Hop Hg Hbits Htail. destruct Hb as [Ub Lb Rb Bb]. apply holds_of_bits.
  - apply zip_with_u64_both; [done..|]. by apply chain_zeros_u64.
  - unfold chain_zeros. rewrite length_zip_with, length_app, length_replicate. lia.
  - intros i. destruct (Nat.lt_ge_cases i (64 * length d)) as [Hi|Hi].
    + rewrite (word_bit_zip_chain op g), Hbits, Bb by (done || intros; apply Hg).
      destruct (Nat.ltb_spec i m); [done | by apply Htail].
    + rewrite word_bit_past by (rewrite length_zip_with; lia). by rewrite (proj2 (Nat.ltb_ge i m)) by lia.
Qed.
Lemma bitand_assign_eq : holds (bitand_assign a b) (bits_of (length l) (λ i, bit_at l i && bit_at k i)).
Proof using Ha Hb.
  destruct Ha as [Ua La Ra Ba]. unfold bitand_assign. rewrite La.
  pose proof (zip_chain_eq Z.land andb (data a) (length l) (length l) Ua Ra) as H.
  replace (bits_of _ (λ i, bit_at l i && bit_at k i)) with (bits_of (length l) (λ i, (i <? length l)%nat && bit_at l i && bit_at k i)).
  2: { apply bits_of_ext. intros i Hi. by case_cmps. }
  apply H; [intros; by apply land_u64 | intros; apply Z.land_spec | |intros i Hi; by case_cmps].
  intros i. rewrite Ba. destruct (Nat.ltb_spec i (length l)); [done | by apply bit_at_ge].
Qed.
Lemma bitor_assign_eq : holds (bitor_assign a b) (bits_of (Nat.max (length l) (length k)) (λ i, bit_at l i || bit_at k i)).
Proof using Ha Hb.
  unfold bitor_assign. rewrite (holds_len _ _ Ha), (holds_len _ _ Hb).
  set (a' := if (length l <? length k)%nat then resize a (length k) else a).
  assert (∃ l', holds a' l' ∧ length l' = Nat.max (length l) (length k) ∧ ∀ i, bit_at l' i = bit_at l i) as (l' & [U L R B] & Hl' & Hbit).
  { unfold a'. destruct (Nat.ltb_spec (length l) (length k)); [|exists l; split; [done|]; split; [lia | done]].
    eexists. split; [by apply resize_eq|]. rewrite length_take, length_pad. split; [lia|]. intros i. rewrite bit_at_take, bit_at_pad.
    case_cmps; [done|]. symmetry. apply bit_at_ge. lia. }
  rewrite L, Hl'. set (m := Nat.max (length l) (length k)) in *.
  replace (bits_of m (λ i, bit_at l i || bit_at k i)) with (bits_of m (λ i, ((i <? m)%nat && bit_at l i) || bit_at k i)).
  2: { apply bits_of_ext. intros i Hi. by case_cmps. }
  apply (zip_chain_eq Z.lor orb (data a') m m U); [lia | intros; apply is_u_lor; [lia | done..] | intros; apply Z.lor_spec | |].
  - intros i. rewrite B, Hbit. destruct (Nat.ltb_spec i m); [done|]. apply bit_at_ge. lia.
  - intros i Hi. case_cmps. cbn [andb orb]. apply bit_at_ge. lia.
Qed.
Lemma is_superset_iff : is_superset_of a b = true ↔ ∀ i, bit_at k i = true → bit_at l i = true.
Proof using Ha Hb.
  pose proof (first_set_eq b k (length l) Hb) as (_ & Hfirst & _). destruct Ha as [Ua La Ra Ba], Hb as [Ub Lb Rb Bb].
  assert (forallb (λ '(x, y), Z.lor x y =? x) (zip (data a) (data b)) = true ↔
    ∀ i, (i < 64 * Nat.min (length (data a)) (length (data b)))%nat → bit_at k i = true → bit_at l i = true) as Hz.
  { rewrite List.forallb_forall. split.
    - intros H i Hi Hk. rewrite <- Ba. rewrite <- Bb in Hk. unfold word_bit in *.
      destruct (lookup_lt_is_Some_2 (data a) (i / 64)) as [x Hx]; [apply word_index_lt; lia|].
      destruct (lookup_lt_is_Some_2 (data b) (i / 64)) as [y Hy]; [apply word_index_lt; lia|]. rewrite Hx, Hy in *.
      cbn [from_option id] in *. assert ((Z.lor y x =? x) = true) as Hxy.
      { rewrite Z.lor_comm. apply (H (x, y)), list_elem_of_In, (list_elem_of_lookup_2 _ (i / 64)). by apply lookup_zip_Some. }
      rewrite lor_absorb_iff in Hxy; [by apply Hxy, Hk; apply word_bit_bound | by eapply Forall_lookup_1 in Hy | by eapply Forall_lookup_1 in Hx].
    - intros H [x y] (j & [Hx Hy]%lookup_zip_Some)%list_elem_of_In%list_elem_of_lookup_1. rewrite Z.lor_comm.
      apply lor_absorb_iff; [by eapply Forall_lookup_1 in Hy | by eapply Forall_lookup_1 in Hx|]. intros i Hi.
      pose proof (lookup_lt_Some _ _ _ Hx). pose proof (lookup_lt_Some _ _ _ Hy).
      specialize (H (64 * j + i)%nat ltac:(lia)). rewrite <- Ba, <- Bb in H. by rewrite (word_bit_at (data a) j x), (word_bit_at (data b) j y) in H by done. }
  unfold is_superset_of. rewrite La, Lb. destruct (first_bit_set_from b (length l)) as [n|] eqn:E; cbn [first_from] in Hfirst.
  - destruct Hfirst as (H1 & H2 & _). assert (n < length k)%nat.
    { destruct (Nat.lt_ge_cases n (length k)); [done|]. by rewrite bit_at_ge in H2. }
    rewrite (proj2 (Nat.ltb_lt _ _)), bool_decide_eq_true_2 by (done || lia). cbn [andb]. split; [done|].
    intros Hsub. apply Hsub in H2. by rewrite bit_at_ge in H2.
  - rewrite (bool_decide_eq_false_2 (is_Some None)), andb_false_r by (by intros [? ?]). rewrite Hz. split; [|auto].
    intros H i Hi. destruct (Nat.lt_ge_cases i (length l)) as [Hil|Hil]; [|by rewrite Hfirst in Hi]. apply H; [|done].
    destruct (Nat.lt_ge_cases i (length k)); [lia|]. by rewrite bit_at_ge in Hi.
Qed.
End binary.

(** The number of ones and of zeros of a list of bits. *)
Lemma length_indices_bits l : length (indices (length l) (bit_at l)) = length (List.filter id l).
Proof.
  induction l as [|x l IH] using rev_ind; [done|]. rewrite List.filter_app, !length_app, Nat.add_1_r. cbn [length].
  unfold indices. rewrite seq_S, List.filter_app, length_app. cbn [Nat.add]. rewrite <- IH. f_equal.
  - f_equal. apply indices_ext. intros i Hi. rewrite bit_at_app. by case_cmps.
  - cbn [List.filter]. rewrite bit_at_app, Nat.sub_diag. case_cmps. by destruct x.
Qed.
Lemma growing_count_ones_eq b l : holds b l → count_ones b = length (List.filter id l).
Proof. intros H. unfold count_ones. by rewrite sum_count_ones, (set_bits_eq b l), length_indices_bits. Qed.
Lemma length_filter_negb l : (length (List.filter id l) + length (List.filter negb l) = length l)%nat.
Proof. induction l as [|[] l IH]; cbn; lia. Qed.
Lemma growing_count_zeros_eq {P : profile} b l : holds b l → tight b → (length l `mod` 64 ≠ 0)%nat → Z.of_nat (length l) < 2 ^ 64 →
  count_zeros b = Ok (Z.of_nat (length (List.filter negb l))).
Proof.
  intros H Ht Hmod Hmax. unfold count_zeros, sub_u. pose proof (sum_count_zeros (data b)) as Hs.
  change (sum_list (MachInt.count_ones 64 <$> data b)) with (count_ones b) in Hs. rewrite (growing_count_ones_eq b l H) in Hs.
  pose proof (length_filter_negb l) as Hn. pose proof (holds_room _ _ H) as Hr. pose proof (holds_len _ _ H) as El. unfold tight in Ht.
  rewrite El in *. pose proof (Nat.div_mod (length l) 64 ltac:(lia)). pose proof (Nat.mod_upper_bound (length l) 64 ltac:(lia)).
  set (zeros := sum_list _) in *.
  replace (Z.of_nat zeros - Z.of_nat (64 - length l `mod` 64)) with (Z.of_nat (length (List.filter negb l))) by nia.
  by rewrite bool_decide_eq_true_2 by (split; lia).
Qed.

(** C23: refinement.  A [GrowingBitmap] refines a list of bits: reading, setting,
    clearing, extending, appending, resizing and removing are the operations on
    lists, they never panic on bitmaps that hold a list (indices past the end grow
    the bitmap, [remove] needs an index in range), and iterating gives the list.
    [count_ones] is the number of ones; [count_zeros] is the number of zeros of a
    bitmap that has no spare words and whose length is not a multiple of 64 (for
    multiples it is off by 64, [growing_count_zeros_full]). *)
Theorem growing_refines_list {P : profile} b c l k n items : holds b l → holds c k → Z.of_nat (length l) < 2 ^ 64 →
  get b n = bit_at l n ∧ iter b = Ok l ∧ count_ones b = length (List.filter id l) ∧
  (tight b → (length l `mod` 64 ≠ 0)%nat → count_zeros b = Ok (Z.of_nat (length (List.filter negb l)))) ∧
  (∃ b', set b n = Ok (b', negb (bit_at l n)) ∧ holds b' (<[n := true]> (pad (n + 1) l))) ∧
  (∃ b', reset b n = Ok (b', bit_at l n) ∧ holds b' (<[n := false]> (pad (n + 1) l))) ∧
  (∃ b', get_then_reset b n = (b', bit_at l n) ∧ holds b' (alter (λ _, false) n l)) ∧
  (∃ b', extend b items = Ok b' ∧ holds b' (l ++ items)) ∧
  (∃ b', append b c = Ok b' ∧ holds b' (l ++ k)) ∧
  holds (resize b n) (take n (pad n l)) ∧
  (∃ b', remove_front b n = Ok b' ∧ holds b' (drop n l)) ∧
  ((n < length l)%nat → ∃ b', remove b n = Ok (b', bit_at l n) ∧ holds b' (delete n l)).
Proof.
  intros Hb Hc Hmax. split_and!.
  - by apply get_eq.
  - by apply iter_eq.
  - by apply growing_count_ones_eq.
  - intros Ht Hmod. by apply growing_count_zeros_eq.
  - destruct (set_eq b l n Hb) as (b' & ? & ? & _). eauto.
  - destruct (reset_eq b l n Hb) as (b' & ? & ? & _). eauto.
  - destruct (get_then_reset_eq b l n Hb) as (b' & ? & ? & _). eauto.
  - by apply extend_eq.
  - unfold append. rewrite (iter_eq c k Hc), M_bind_Ok. by apply extend_eq.
  - by apply resize_eq.
  - destruct (remove_front_eq b l n Hb) as (b' & ? & ? & _). eauto.
  - intros Hn. by apply remove_eq.
Qed.

(** The operators of two bitmaps are those of the sets of their indices; the
    length of the result is the smaller one for [&] and the larger one for [|].
    [is_superset_of] decides inclusion for any lengths. *)
Theorem growing_operators a b l k : holds a l → holds b k →
  holds (bitand a b) (bits_of (Nat.min (length l) (length k)) (λ i, bit_at l i && bit_at k i)) ∧
  holds (bitor a b) (bits_of (Nat.max (length l) (length k)) (λ i, bit_at l i || bit_at k i)) ∧
  holds (bitand_assign a b) (bits_of (length l) (λ i, bit_at l i && bit_at k i)) ∧
  holds (bitor_assign a b) (bits_of (Nat.max (length l) (length k)) (λ i, bit_at l i || bit_at k i)) ∧
  (is_superset_of a b = true ↔ ∀ i, bit_at k i = true → bit_at l i = true).
Proof.
  intros Ha Hb. split_and!; [by apply bitand_eq | by apply bitor_eq | by apply bitand_assign_eq | by apply bitor_assign_eq | by apply is_superset_iff].
Qed.

(** Searching and listing.  [iter_one_indices] ends and yields the indices of the
    ones in order; the searches return the first one (or zero below the length) from
    the given index on, and [None] if there is none. *)
Theorem growing_search b l start : holds b l →
  iter_one_indices b = Ok (indices (length l) (bit_at l)) ∧ count_ones b = length (indices (length l) (bit_at l)) ∧
  first_from (bit_at l) 0 (first_bit_set b) ∧ first_from (bit_at l) start (first_bit_set_from b start) ∧
  first_from (λ i, (i <? length l)%nat && negb (bit_at l i)) start (first_bit_unset_from b start).
Proof.
  intros H. split; [by apply iter_ones_eq|]. split; [|by apply first_set_eq].
  unfold count_ones. by rewrite sum_count_ones, (set_bits_eq b l).
Qed.

(** ** Several bitmaps *)

(** The first index from [start] on and before [stop], if there is one. *)
Definition first_between (p : nat → bool) (start stop : nat) (o : option nat) : Prop :=
  match o with
  | Some n => (start <= n < stop)%nat ∧ p n = true ∧ ∀ i, (start <= i < n)%nat → p i = false
  | None => ∀ i, (start <= i < stop)%nat → p i = false
  end.
Definition in_all (items : list GrowingBitmap) (i : nat) : bool := forallb (λ b, word_bit (data b) i) items.
Lemma foldl_land_spec ws : ∀ w j, Z.testbit (foldl Z.land w ws) j = Z.testbit w j && forallb (λ x, Z.testbit x j) ws.
Proof.
  induction ws as [|x ws IH]; intros w j; cbn [foldl forallb]; [by rewrite andb_true_r|]. by rewrite IH, Z.land_spec, andb_assoc.
Qed.
Lemma mapM_words items index : Forall (λ b, index < length (data b))%nat items → Forall (λ b, Forall (is_u 64) (data b)) items →
  ∃ ws, mapM (λ map, vget (data map) index) items = Ok ws ∧ length ws = length items ∧ Forall (is_u 64) ws ∧
    ∀ r, (r < 64)%nat → forallb (λ x, Z.testbit x (Z.of_nat r)) ws = in_all items (64 * index + r).
Proof.
  induction items as [|b items IH]; intros Hi Hu; cbn [mapM].
  { exists []. split; [done|]. split; [done|]. split; [constructor | done]. }
  apply Forall_cons in Hi as [Hb Hi]. apply Forall_cons in Hu as [Hub Hu]. destruct (IH Hi Hu) as (ws & -> & Hl & Hw & Hbits).
  destruct (lookup_lt_is_Some_2 _ _ Hb) as [x Hx]. rewrite (proj2 (vget_Ok_inv _ _ x) Hx), !M_bind_Ok. exists (x :: ws).
  split; [done|]. split; [cbn [length]; by rewrite Hl|]. split; [constructor; [by eapply Forall_lookup_1 in Hx | done]|].
  intros r Hr. cbn [forallb in_all]. unfold in_all in *. cbn [forallb]. by rewrite Hbits, (word_bit_at _ _ x) by done.
Qed.
Lemma find_many_eq items start stop : items ≠ [] → Forall (λ b, Forall (is_u 64) (data b) ∧ stop <= length (data b))%nat items →
  ∀ m a, (start / 64 <= a)%nat → (a + m)%nat = stop → ∃ o, find_many items start (seq a m) = Ok o ∧
    first_between (in_all items) (Nat.max start (64 * a)) (64 * stop) o.
Proof.
  intros Hne Hall. assert (Forall (λ b, Forall (is_u 64) (data b)) items) as Hu by (eapply Forall_impl; [exact Hall | by intros b [H _]]).
  pose proof (Nat.div_mod start 64 ltac:(lia)) as Hd. pose proof (word_bit_bound start) as Hs.
  induction m as [|m IH]; intros a Ha Hm; cbn [seq find_many].
  { eexists. split; [done|]. intros i Hi. lia. }
  destruct (mapM_words items a) as (ws & -> & Hl & Hw & Hbits); [|done|].
  { eapply Forall_impl; [exact Hall|]. cbn. intros b [_ H]. lia. }
  rewrite M_bind_Ok. destruct ws as [|w ws]; [by destruct items|]. rewrite M_bind_Ok. cbn zeta.
  set (v := if (a =? start / 64)%nat then _ else _).
  assert (is_u 64 v ∧ ∀ r, (r < 64)%nat → Z.testbit v (Z.of_nat r) = (start <=? 64 * a + r)%nat && in_all items (64 * a + r)) as [Hv Hvb].
  { assert (is_u 64 (foldl Z.land w ws)) as Hf.
    { apply Forall_cons in Hw as [Hw _]. clear -Hw. revert w Hw. induction ws as [|x ws IH]; intros w Hw; cbn [foldl]; [done|]. by apply IH, land_u64. }
    unfold v. split; [case_match; [by apply land_u64 | done]|]. intros r Hr.
    assert (Z.testbit (foldl Z.land w ws) (Z.of_nat r) = in_all items (64 * a + r)) as E by (rewrite foldl_land_spec; by apply Hbits).
    destruct (Nat.eqb_spec a (start / 64)) as [->|Hneq].
    - rewrite Z.land_spec, testbit_high_mask, E, andb_comm by done. f_equal. case_cmps; done.
    - rewrite E. case_cmps. done. }
  destruct (Z.eqb_spec v 0) as [Ev|Ev]; cbn [negb].
  - destruct (IH (S a) ltac:(lia) ltac:(lia)) as (o & Eo & Ho). exists o. split; [done|].
    assert (∀ i, (Nat.max start (64 * a) <= i < 64 * S a)%nat → in_all items i = false) as Hz.
    { intros i Hi. specialize (Hvb (i - 64 * a)%nat ltac:(lia)). rewrite Ev, Z.bits_0 in Hvb.
      replace (64 * a + (i - 64 * a))%nat with i in Hvb by lia. revert Hvb. case_cmps; done. }
    destruct o as [k|]; cbn [first_between] in *.
    + destruct Ho as (H1 & H2 & H3). split; [lia|]. split; [done|]. intros i Hi.
      destruct (Nat.lt_ge_cases i (64 * S a)); [apply Hz | apply H3]; lia.
    + intros i Hi. destruct (Nat.lt_ge_cases i (64 * S a)); [apply Hz | apply Ho]; lia.
  - eexists. split; [done|]. cbn [first_between].
    destruct (trailing_zeros_nonzero 64 v Hv Ev) as (Hk & Hb & Hz). rewrite Hvb in Hb by done.
    apply andb_true_iff in Hb as [Hb1%Nat.leb_le Hb2]. rewrite (Nat.mul_comm a). split; [lia|]. split; [done|].
    intros i Hi. specialize (Hz (Z.of_nat (i - 64 * a)) ltac:(lia)). rewrite Hvb in Hz by lia.
    replace (64 * a + (i - 64 * a))%nat with i in Hz by lia. revert Hz. case_cmps; done.
Qed.
(** [first_bit_set_after_many] returns the first index from [start_index] on that is
    in every bitmap; it searches whole words, so the result can lie up to 63 past
    [end_index]. *)
Theorem first_bit_set_after_many_spec items start_index end_index : items ≠ [] →
  Forall (λ b, (∃ l, holds b l) ∧ (end_index + 63) / 64 <= length (data b))%nat items → (start_index < end_index)%nat →
  ∃ o, first_bit_set_after_many items start_index end_index = Ok o ∧
    first_between (λ i, forallb (λ b, get b i) items) start_index (64 * ((end_index + 63) / 64)) o.
Proof.
  intros Hne Hall Hse. pose proof (words_needed_bounds end_index) as Hn. pose proof (Nat.div_mod start_index 64 ltac:(lia)) as Hd.
  unfold first_bit_set_after_many. set (stop := ((end_index + 63) / 64)%nat) in *.
  destruct (find_many_eq items start_index stop Hne) with (m := (stop - start_index / 64)%nat) (a := (start_index / 64)%nat) as (o & Eo & Ho); [|lia..|].
  { eapply Forall_impl; [exact Hall|]. intros b [[l Hl] H]. split; [apply Hl | done]. }
  exists o. split; [done|]. replace (Nat.max start_index (64 * (start_index / 64))) with start_index in Ho by lia.
  assert (∀ i, in_all items i = forallb (λ b, get b i) items) as E.
  { intros i. unfold in_all. clear -Hall. induction Hall as [|b items [[l Hl] _] _ IH]; cbn [forallb]; [done|].
    by rewrite IH, (get_eq b l), <- (holds_bits b l). }
  destruct o; cbn [first_between] in *; [|intros i Hi; rewrite <- E; by apply Ho].
  destruct Ho as (H1 & H2 & H3). split; [done|]. rewrite <- E. split; [done|]. intros i Hi. rewrite <- E. by apply H3.
Qed.

(** ** Mutable slices *)

Lemma next_drop k s : SliceMut.next (drop k s) = (s !! k, drop (S k) s).
Proof.
  destruct (s !! k) as [w|] eqn:E.
  - by rewrite (drop_S s w k E).
  - apply lookup_ge_None in E. by rewrite !drop_ge by lia.
Qed.
(** The closures of the methods, bit by bit. *)
Lemma clear_bitwise n : bitwise (λ s _, Ok (0, s)) [] n (λ _ _, false).
Proof. intros k w _ _. exists 0. rewrite !drop_nil. split; [done|]. split; [by split|]. intros. apply Z.bits_0. Qed.
Lemma copy_bitwise s n : (n <= length s)%nat → Forall (is_u 64) s →
  bitwise (λ s _, let '(o, s) := SliceMut.next s in w ← unwrap o; Ok (w, s)) s n (λ i _, word_bit s i).
Proof.
  intros Hn Hs k w Hk _. rewrite next_drop. destruct (lookup_lt_is_Some_2 s k) as [x Hx]; [lia|]. rewrite Hx. exists x.
  split; [done|]. split; [by eapply Forall_lookup_1 in Hx|]. intros j Hj. by rewrite (word_bit_at s k x).
Qed.
Lemma default_word s k : Forall (is_u 64) s → is_u 64 (default 0 (s !! k)) ∧
  ∀ j, (j < 64)%nat → Z.testbit (default 0 (s !! k)) (Z.of_nat j) = word_bit s (64 * k + j).
Proof.
  intros Hs. destruct (s !! k) as [x|] eqn:E; cbn [from_option id].
  - split; [by eapply Forall_lookup_1 in E|]. intros j Hj. by rewrite (word_bit_at s k x).
  - apply lookup_ge_None in E. split; [by split|]. intros j Hj. rewrite word_bit_past by lia. apply Z.bits_0.
Qed.
Lemma clear_from_bitwise s n : Forall (is_u 64) s →
  bitwise (λ s d, let '(o, s) := SliceMut.next s in Ok (Z.land d (not_u 64 (default 0 o)), s)) s n (λ i x, x && negb (word_bit s i)).
Proof.
  intros Hs k w Hk Hw. rewrite next_drop. destruct (default_word s k Hs) as [_ Hb]. eexists. split; [done|].
  split; [by apply land_u64|]. intros j Hj. by rewrite Z.land_spec, testbit_not_u64, Hb.
Qed.
Lemma or_with_bitwise s n : Forall (is_u 64) s →
  bitwise (λ s d, let '(o, s) := SliceMut.next s in Ok (Z.lor d (default 0 o), s)) s n (λ i x, x || word_bit s i).
Proof.
  intros Hs k w Hk Hw. rewrite next_drop. destruct (default_word s k Hs) as [Hu Hb]. eexists. split; [done|].
  split; [apply is_u_lor; [lia | done..]|]. intros j Hj. by rewrite Z.lor_spec, Hb.
Qed.
(** The list after an operation on [start..stop]. *)
Definition on_range (start stop : nat) (g : nat → bool → bool) (l : list bool) : list bool :=
  imap (λ i x, if (start <=? i)%nat && (i <? stop)%nat then g (i - start)%nat x else x) l.
Lemma on_range_ext start stop g h l : (∀ i x, (i < stop - start)%nat → g i x = h i x) → on_range start stop g l = on_range start stop h l.
Proof.
  intros H. unfold on_range. apply list_eq. intros i. rewrite !list_lookup_imap. destruct (l !! i); cbn [fmap option_fmap option_map]; [|done]. f_equal.
  destruct (Nat.leb_spec start i), (Nat.ltb_spec i stop); cbn [andb]; try done. apply H. lia.
Qed.

(** The methods of a mutable slice [start..stop] of a bitmap change exactly the bits
    of the range: [clear] resets them, [copy_from] copies a slice of the same length
    (another length panics), [or_with] and [clear_from] combine them with any slice. *)
Theorem slice_mut_spec b l start stop {B} `{BitmapSlice B} (o : B) `{!SliceOk o, !ZeroBeyond o} :
  holds b l → (start <= stop <= length l)%nat →
  ∃ sl, Growing_slice.slice b start stop = Ok sl ∧ Bitmap.len sl = (stop - start)%nat ∧
    (∀ i, (i < stop - start)%nat → Bitmap.get sl i = bit_at l (start + i)) ∧
    (∃ s, SliceMut.clear sl = Ok s ∧ holds (Growing_slice.write_back b start stop s) (on_range start stop (λ _ _, false) l)) ∧
    (Bitmap.len o = (stop - start)%nat → ∃ s, SliceMut.copy_from sl o = Ok s ∧
       holds (Growing_slice.write_back b start stop s) (on_range start stop (λ i _, Bitmap.get o i) l)) ∧
    (Bitmap.len o ≠ (stop - start)%nat → SliceMut.copy_from sl o = Panic) ∧
    (∃ s, SliceMut.or_with sl o = Ok s ∧
       holds (Growing_slice.write_back b start stop s) (on_range start stop (λ i x, x || Bitmap.get o i) l)) ∧
    (∃ s, SliceMut.clear_from sl o = Ok s ∧
       holds (Growing_slice.write_back b start stop s) (on_range start stop (λ i x, x && negb (Bitmap.get o i)) l)).
Proof.
  intros Hb Hs. destruct (slice_eq b l start stop Hb Hs) as (sl & Esl & Hok & Hlen & Hget). exists sl.
  pose proof (words_u64 (b := o)) as Hu. pose proof (words_tight (b := o)) as Ht.
  assert (∀ f s g, bitwise f s ((stop - start + 63) / 64) g → ∃ sl', modify f s sl = Ok sl' ∧
    holds (Growing_slice.write_back b start stop sl') (on_range start stop g l)) as Hmod.
  { intros f s g Hf. destruct (modify_range f s g b l start stop Hb Hs Hf) as (s1 & s2 & E1 & E2 & H2).
    rewrite Esl in E1. injection E1 as <-. eauto. }
  split; [done|]. split; [done|]. split; [done|]. split; [apply Hmod, clear_bitwise|]. split; [|split; [|split]].
  - intros E. unfold SliceMut.copy_from. rewrite Hlen, E, Nat.eqb_refl. cbn [rassert]. rewrite M_bind_Ok.
    rewrite (on_range_ext _ _ _ (λ i _, word_bit (iter_data o) i)) by (intros i x Hi; apply get_word; lia).
    apply Hmod, copy_bitwise; [|done]. rewrite (words_needed _ (length (iter_data o))); lia.
  - intros E. unfold SliceMut.copy_from. by rewrite Hlen, (proj2 (Nat.eqb_neq _ _)) by done.
  - rewrite (on_range_ext _ _ _ (λ i x, x || word_bit (iter_data o) i)) by (intros i x _; f_equal; by apply get_word_all).
    by apply Hmod, or_with_bitwise.
  - rewrite (on_range_ext _ _ _ (λ i x, x && negb (word_bit (iter_data o) i))) by (intros i x _; do 2 f_equal; by apply get_word_all).
    by apply Hmod, clear_from_bitwise.
Qed.

(** ** [DenseSet] and [Symmetric2DMatrix] *)

(** The sets and matrices that insertions build. *)
Inductive dense_built : Dense.DenseSet → list nat → Prop :=
  | dense_new : dense_built Dense.new []
  | dense_set s xs x s' c : dense_built s xs → Dense.set s x = Ok (s', c) → dense_built s' (x :: xs).
Inductive matrix_built : Matrix.Symmetric2DMatrix → list (nat * nat) → Prop :=
  | matrix_new : matrix_built Matrix.new []
  | matrix_set m es x y m' c : matrix_built m es → Matrix.set m x y = Ok (m', c) → matrix_built m' ((x, y) :: es).

Lemma indices_insert l x : (bit_at l x = false) →
  length (indices (length (<[x := true]> (pad (x + 1) l))) (bit_at (<[x := true]> (pad (x + 1) l)))) = S (length (indices (length l) (bit_at l))).
Proof.
  intros Hx. set (l' := <[x := true]> (pad (x + 1) l)). set (n := Nat.max (x + 1) (length l)).
  assert (length l <= n ∧ x < n)%nat as [Hn1 Hn2] by (unfold n; lia).
  assert (length l' = n) as -> by (unfold l', n; by rewrite length_insert, length_pad).
  assert (∀ i, bit_at l' i = (i =? x)%nat || bit_at l i) as Hb.
  { intros i. unfold l'. rewrite bit_at_insert, bit_at_pad by (rewrite length_pad; lia). by case_cmps. }
  assert (∀ k a, (∀ i, (a <= i < a + k)%nat → i ≠ x) →
    List.filter (λ i, (i =? x)%nat || bit_at l i) (seq a k) = List.filter (bit_at l) (seq a k)) as Hother.
  { intros k a Hk. apply List.filter_ext_in. intros i Hi%List.in_seq. specialize (Hk i ltac:(lia)). by case_cmps. }
  rewrite (indices_ext n _ (λ i, (i =? x)%nat || bit_at l i)) by (intros; apply Hb).
  rewrite <- (indices_tail (length l) n (bit_at l)) by (done || (intros; by apply bit_at_ge)).
  unfold indices. replace n with (x + (1 + (n - x - 1)))%nat by lia. rewrite !seq_app, !List.filter_app, !length_app.
  rewrite (Hother x 0%nat), (Hother (n - x - 1)%nat (0 + x + 1)%nat) by lia. cbn [seq List.filter Nat.add]. rewrite Nat.eqb_refl, Hx. cbn [orb length]. lia.
Qed.

(** [DenseSet] is a set of numbers: it contains what was inserted, lists it without
    duplicates in increasing order, and [len] is the number of its elements. *)
Theorem dense_set_spec s xs : dense_built s xs →
  (∀ x, Dense.contains s x = true ↔ x ∈ xs) ∧ (∃ l, Dense.iter s = Ok l ∧ NoDup l ∧ (∀ x, x ∈ l ↔ x ∈ xs) ∧ Dense.len s = length l) ∧
  (∀ x, ∃ s', Dense.set s x = Ok (s', negb (bool_decide (x ∈ xs)))).
Proof.
  intros Hs. assert (∃ l, holds (Dense.bitmap s) l ∧ (∀ x, bit_at l x = bool_decide (x ∈ xs)) ∧
    Dense.num_items s = length (indices (length l) (bit_at l))) as (l & Hl & Hx & Hn).
  { induction Hs as [|s xs x s' c Hs (l & Hl & Hx & Hn) E].
    - exists []. split; [apply growing_new|]. split; [|done]. intros x. rewrite bit_at_ge by (cbn; lia). symmetry. apply bool_decide_eq_false_2, not_elem_of_nil.
    - unfold Dense.set in E. destruct (set_eq _ _ x Hl) as (b' & Es & Hb' & _). rewrite Es, M_bind_Ok in E. apply (inj Ok) in E as [= <- <-].
      cbn [Dense.bitmap Dense.num_items]. eexists. split; [done|]. split.
      + intros y. rewrite bit_at_insert, bit_at_pad, Hx by (rewrite length_pad; lia). destruct (Nat.eqb_spec y x) as [->|Hne].
        * symmetry. apply bool_decide_eq_true_2. left.
        * apply bool_decide_ext. rewrite elem_of_cons. naive_solver.
      + destruct (bit_at l x) eqn:Eb; cbn [negb]; [|rewrite indices_insert by done; lia].
        assert (x < length l)%nat by (destruct (Nat.lt_ge_cases x (length l)); [done | by rewrite bit_at_ge in Eb]).
        rewrite Hn, insert_eq_pad, list_insert_id by (done || unfold bit_at in Eb; by destruct (l !! x) as [[]|]). done. }
  split; [intros x; unfold Dense.contains; rewrite (get_eq _ l), Hx by done; apply bool_decide_eq_true|]. split.
  - eexists. unfold Dense.iter. rewrite (iter_ones_eq _ l) by done. split; [done|]. split; [apply NoDup_ListNoDup, List.NoDup_filter, List.seq_NoDup|].
    split; [|done]. intros x. rewrite elem_of_indices, Hx, bool_decide_eq_true. split; [tauto|]. intros H. split; [|done].
    destruct (Nat.lt_ge_cases x (length l)); [done|]. assert (bit_at l x = true) as E by (rewrite Hx; by apply bool_decide_eq_true_2). by rewrite bit_at_ge in E.
  - intros x. unfold Dense.set. destruct (set_eq _ _ x Hl) as (b' & -> & _). rewrite M_bind_Ok, Hx. eauto.
Qed.

(** Triangular numbers. *)
Lemma triangle_S y : ((S y + 1) * S y / 2 = (y + 1) * y / 2 + S y)%nat.
Proof. replace ((S y + 1) * S y)%nat with ((y + 1) * y + S y * 2)%nat by lia. by rewrite Nat.div_add by lia. Qed.
Lemma triangle_lt y y' : (y < y' → (y + 1) * y / 2 + y < (y' + 1) * y' / 2)%nat.
Proof.
  induction y' as [|y' IH]; intros H; [lia|]. rewrite triangle_S. destruct (decide (y = y')) as [->|]; [lia|].
  specialize (IH ltac:(lia)). lia.
Qed.
Lemma matrix_index_inj x y x' y' : Matrix.index x y = Matrix.index x' y' ↔ (x = x' ∧ y = y') ∨ (x = y' ∧ y = x').
Proof.
  unfold Matrix.index. split.
  - intros E. assert (Nat.max x y = Nat.max x' y') as Em.
    { destruct (Nat.lt_trichotomy (Nat.max x y) (Nat.max x' y')) as [H|[H|H]]; [|done|]; apply triangle_lt in H; lia. }
    rewrite Em in E. lia.
  - intros [[-> ->]|[-> ->]]; [done|]. by rewrite (Nat.min_comm y' x'), (Nat.max_comm y' x').
Qed.
(** [Symmetric2DMatrix] is a symmetric relation: it holds the pairs that were set, in
    both orders, and no others; a row lists the related numbers in increasing order. *)
Theorem matrix_spec m es : matrix_built m es →
  (∀ x y, Matrix.get m x y = bool_decide ((x, y) ∈ es ∨ (y, x) ∈ es)) ∧
  (∀ x y, Matrix.get m x y = Matrix.get m y x) ∧
  (∀ x y, x ∈ Matrix.iter_row_indices m y ↔ (x, y) ∈ es ∨ (y, x) ∈ es) ∧
  (∀ x y, ∃ m', Matrix.set m x y = Ok (m', negb (Matrix.get m x y))).
Proof.
  intros Hm. assert (∃ l, holds (Matrix.data m) l ∧ (∀ x y, bit_at l (Matrix.index x y) = bool_decide ((x, y) ∈ es ∨ (y, x) ∈ es)) ∧
    ∀ x y, (x, y) ∈ es → (x < Matrix.size m ∧ y < Matrix.size m)%nat) as (l & Hl & Hg & Hs).
  { induction Hm as [|m es x y m' c Hm (l & Hl & Hg & Hs) E].
    - exists []. split; [apply growing_new|]. split; [|by intros x y ?%not_elem_of_nil]. intros x y. rewrite bit_at_ge by (cbn; lia). symmetry.
      apply bool_decide_eq_false_2. intros [H|H]; by apply not_elem_of_nil in H.
    - unfold Matrix.set in E. destruct (set_eq _ _ (Matrix.index x y) Hl) as (b' & Es & Hb' & _). rewrite Es, M_bind_Ok in E.
      apply (inj Ok) in E as [= <- <-]. cbn [Matrix.data Matrix.size]. eexists. split; [done|]. split.
      + intros u v. rewrite bit_at_insert, bit_at_pad, Hg by (rewrite length_pad; lia).
        destruct (Nat.eqb_spec (Matrix.index u v) (Matrix.index x y)) as [Ei|Ei].
        * symmetry. apply bool_decide_eq_true_2. apply matrix_index_inj in Ei as [[-> ->]|[-> ->]]; [left | right]; left.
        * apply bool_decide_ext. rewrite matrix_index_inj in Ei. rewrite !elem_of_cons. split; [tauto|].
          intros [[[= -> ->]|?]|[[= -> ->]|?]]; tauto.
      + intros u v [[= -> ->]|Hin]%elem_of_cons; [lia|]. specialize (Hs u v Hin). lia. }
  assert (∀ x y, Matrix.get m x y = bool_decide ((x, y) ∈ es ∨ (y, x) ∈ es)) as Hget.
  { intros x y. unfold Matrix.get. by rewrite (get_eq _ l). }
  split; [done|]. split; [intros x y; rewrite !Hget; apply bool_decide_ext; tauto|]. split.
  - intros x y. unfold Matrix.iter_row_indices. rewrite list_elem_of_In, List.filter_In, List.in_seq, Hget, bool_decide_eq_true.
    split; [tauto|]. intros H. split; [|done]. destruct H as [H|H]; apply Hs in H; lia.
  - intros x y. unfold Matrix.set. destruct (set_eq _ _ (Matrix.index x y) Hl) as (b' & -> & _).
    rewrite M_bind_Ok, Hget, Hg. eauto.
Qed.

(** ** Where the code departs from the lists *)

Lemma word_bit_replicate n i : word_bit (replicate n 0) i = false.
Proof. rewrite (word_bit_zeros [] n). apply word_bit_past. cbn. lia. Qed.

(** [new_all_zeros] allocates a word too many for a multiple of 64, and [eq] compares
    the words: the result differs from an equal bitmap made by [resize]. *)
Lemma eq_sees_spare_words :
  holds (new_all_zeros 64) (replicate 64 false) ∧ holds (resize new 64) (replicate 64 false) ∧ eq (new_all_zeros 64) (resize new 64) = false.
Proof.
  split; [|split; [|done]].
  - change (replicate 64 false) with (bits_of 64 (λ _, false)). apply holds_of_bits; [by repeat constructor | cbn; lia |].
    intros i. cbn beta. rewrite andb_false_r. apply word_bit_replicate.
  - change (replicate 64 false) with (take 64 (pad 64 [])). apply (resize_eq new [] 64 growing_new).
Qed.
(** [or_with] a longer slice sets bits past the end. *)
Lemma or_with_past_end : ∃ a b, holds a [false] ∧ holds b [false; true] ∧ get (fst (or_with a b)) 1 = true ∧ len (fst (or_with a b)) = 1%nat.
Proof.
  exists {| data := [0]; len := 1 |}, {| data := [2]; len := 2 |}. split_and!; [| |done..].
  - change [false] with (bits_of 1 (λ _, false)). apply holds_of_bits; [by repeat constructor | cbn; lia|]. intros i. cbn beta. rewrite andb_false_r. apply (word_bit_replicate 1).
  - change [false; true] with (bits_of 2 (λ i, (i =? 1)%nat)). apply holds_of_bits; [by repeat constructor | cbn; lia|]. intros i.
    destruct (Nat.lt_ge_cases i 64) as [Hi|Hi]; [|rewrite word_bit_past by (cbn; lia); by case_cmps].
    rewrite word_bit_head by done. change 2 with (2 ^ 1). rewrite Z.pow2_bits_eqb by lia.
    destruct (Z.eqb_spec 1 (Z.of_nat i)), (Nat.ltb_spec i 2), (Nat.eqb_spec i 1); done || lia.
Qed.
(** [count_zeros] subtracts 64 for the unused bits of the last word when no bit is
    unused. *)
Lemma growing_count_zeros_full : count_zeros (P := Dev) (new_all_ones 64) = Panic ∧ count_zeros (P := Release) (new_all_ones 64) = Ok (2 ^ 64 - 64).
Proof. by vm_compute. Qed.

(** ** Witnesses *)

Definition example_bits : list bool := [true; false; true; true; false].
Lemma example_holds : ∃ b, from_iter example_bits = Ok b ∧ holds b example_bits.
Proof. apply from_iter_eq. Qed.
Lemma growing_refines_list_witness : ∃ b b', from_iter example_bits = Ok b ∧ remove (P := Dev) b 1 = Ok (b', false) ∧ holds b' [true; true; true; false].
Proof.
  destruct example_holds as (b & E & H).
  destruct (growing_refines_list (P := Dev) b b _ _ 1 [] H H ltac:(by vm_compute)) as (_ & _ & _ & _ & _ & _ & _ & _ & _ & _ & _ & Hr).
  destruct Hr as (b' & Er & Hb'); [cbn; lia|]. by exists b, b'.
Defined.
Lemma growing_operators_witness : ∃ a b, holds a example_bits ∧ holds b [true] ∧ is_superset_of a b = true.
Proof.
  destruct example_holds as (a & _ & Ha). destruct (from_iter_eq [true]) as (b & _ & Hb). exists a, b.
  destruct (growing_operators a b _ _ Ha Hb) as (_ & _ & _ & _ & Hs). split; [done|]. split; [done|]. apply Hs.
  by intros [|[|i]].
Defined.
Lemma growing_search_witness : ∃ b, holds b example_bits ∧ iter_one_indices b = Ok [0; 2; 3]%nat.
Proof. destruct example_holds as (b & _ & H). destruct (growing_search b _ 0 H) as (E & _). by exists b. Defined.
Lemma first_bit_set_after_many_spec_witness : ∃ b o, holds b example_bits ∧ first_bit_set_after_many [b] 1 5 = Ok o.
Proof.
  destruct example_holds as (b & _ & H). destruct (first_bit_set_after_many_spec [b] 1 5) as (o & E & _); [done | | lia | by exists b, o].
  constructor; [|constructor]. split; [by exists example_bits|]. pose proof (holds_room _ _ H) as Hr.
  change ((5 + 63) / 64)%nat with 1%nat. cbn in Hr. lia.
Defined.
Lemma slice_mut_spec_witness : ∃ b sl s, holds b example_bits ∧ Growing_slice.slice b 1 4 = Ok sl ∧ SliceMut.clear sl = Ok s ∧
  holds (Growing_slice.write_back b 1 4 s) [true; false; false; false; false].
Proof.
  destruct example_holds as (b & _ & H).
  assert (fixed_wf (Fixed.default (N := 1))) as Hw by (split; [done | by repeat constructor]).
  destruct (slice_mut_spec b example_bits 1 4 (Fixed.default (N := 1))) as (sl & E & _ & _ & (s & Ec & Hc) & _); [done | cbn; lia |].
  by exists b, sl, s.
Defined.
Lemma dense_set_spec_witness : ∃ s, dense_built s [3; 1]%nat ∧ Dense.contains s 3 = true.
Proof.
  destruct (Dense.set Dense.new 1) as [[s1 c1]| |] eqn:E1; [|done..]. destruct (Dense.set s1 3) as [[s2 c2]| |] eqn:E2; [|by vm_compute in E1; simplify_eq..].
  exists s2. assert (dense_built s2 [3; 1]%nat) as H by (eapply dense_set; [eapply dense_set; [apply dense_new | exact E1] | exact E2]).
  split; [done|]. apply (dense_set_spec s2 _ H). left.
Defined.
Lemma matrix_spec_witness : ∃ m, matrix_built m [(5, 1)]%nat ∧ Matrix.get m 1 5 = true.
Proof.
  destruct (Matrix.set Matrix.new 5 1) as [[m c]| |] eqn:E; [|done..]. exists m.
  assert (matrix_built m [(5, 1)]%nat) as H by (eapply matrix_set; [apply matrix_new | exact E]).
  split; [done|]. destruct (matrix_spec m _ H) as (-> & _). by vm_compute.
Defined.
