(* ===== verification/Minisat.v ===== *)
(** * The satisfiability solver

    Models [liblisa/src/utils/minisat.rs]: a solver for a conjunction of assigned
    variables ([terms]), of disjunctions and of one disjunction of conjunctions.
    The backtracking of [check_disjunctions] keeps a stack of positions and one
    array of assumptions that it changes and resets; the model does the same.  The
    callback [found] is a closure that may change what it captured, so it takes
    and returns a state. *)
From S2P Require Import Prelude MachInt Growing.

Record Term := { var : nat; value : bool }.
#[export] Instance Term_eq_dec : EqDecision Term.
Proof. solve_decision. Defined.
Definition tt (var : nat) : Term := {| var := var; value := true |}.
Definition ff (var : nat) : Term := {| var := var; value := false |}.
(** [!term]. *)
Definition not (self : Term) : Term := {| var := var self; value := negb (value self) |}.

Notation Conjunction := (list Term).
Notation Disjunction := (list Term).
Notation assumptions := (list (option bool)).

Record SatSolver := {
  terms : assumptions;
  disjunctions : list Disjunction;
  disjunction_of_conjunctions : list Conjunction;
  has_disjunction_of_conjunctions : bool;
  unsat : bool;
}.
Inductive SolverResult := Sat (conf : GrowingBitmap) | Unsat.

Definition new (max_terms : nat) : SatSolver :=
  {| terms := replicate max_terms None; disjunctions := []; disjunction_of_conjunctions := [];
     has_disjunction_of_conjunctions := false; unsat := false |}.

Fixpoint and_conjunction_loop (terms : assumptions) (items : list Term) : M (assumptions * bool) :=
  match items with
  | [] => Ok (terms, false)
  | item :: items =>
      t ← vget terms (var item);
      if bool_decide (t = Some (negb (value item))) then Ok (terms, true)
      else terms ← vset terms (var item) (Some (value item)); and_conjunction_loop terms items
  end.
Definition and_conjunction (self : SatSolver) (items : list Term) : M SatSolver :=
  if unsat self then Ok self
  else
    '(ts, conflict) ← and_conjunction_loop (terms self) items;
    Ok {| terms := ts; disjunctions := disjunctions self; disjunction_of_conjunctions := disjunction_of_conjunctions self;
          has_disjunction_of_conjunctions := has_disjunction_of_conjunctions self; unsat := conflict |}.
Definition and_not_conjunction (self : SatSolver) (items : list Term) : SatSolver :=
  {| terms := terms self; disjunctions := disjunctions self ++ [not <$> items];
     disjunction_of_conjunctions := disjunction_of_conjunctions self;
     has_disjunction_of_conjunctions := has_disjunction_of_conjunctions self; unsat := unsat self |}.

(** [iter.enumerate().skip(k).find(p)] for a predicate that can panic. *)
Fixpoint find_from {A} (p : A → M bool) (l : list A) (i skip : nat) : M (option nat) :=
  match l with
  | [] => Ok None
  | x :: l =>
      match skip with
      | S skip => find_from p l (S i) skip
      | O => b ← p x; if b : bool then Ok (Some i) else find_from p l (S i) 0
      end
  end.
(** [assumptions[term.var.index()] == Some(term.value)], for some term. *)
Fixpoint satisfied (a : assumptions) (d : Disjunction) : M bool :=
  match d with
  | [] => Ok false
  | t :: d => v ← vget a (var t); if bool_decide (v = Some (value t)) then Ok true else satisfied a d
  end.

Section check.
Context {S T : Type} (found : S → assumptions → S * option T).

(** One iteration of the [while] loop for each unit of [fuel].  The head of the stack
    is its top. *)
Fixpoint check_loop (fuel : nat) (ds : list Disjunction) (stack : list (nat * option nat)) (a : assumptions) (s : S)
    : M (S * option T) :=
  match stack with
  | [] => Ok (s, None)
  | (depth, term_index) :: stack =>
      match fuel with
      | O => OutOfFuel
      | Datatypes.S fuel =>
          disjunction ← vget ds depth;
          '(a, num_done) ← match term_index with
                           | Some term_index =>
                               t ← vget disjunction term_index;
                               a ← vset a (var t) None; Ok (a, (term_index + 1)%nat)
                           | None => Ok (a, 0%nat)
                           end;
          next ← find_from (λ t, v ← vget a (var t); Ok (bool_decide (v = None))) disjunction 0 num_done;
          match next with
          | Some new_index =>
              new_term ← vget disjunction new_index;
              a ← vset a (var new_term) (Some (value new_term));
              next_depth ← find_from (λ d, b ← satisfied a d; Ok (negb b)) ds 0 (depth + 1);
              match next_depth with
              | Some next_depth => check_loop fuel ds ((next_depth, None) :: (depth, Some new_index) :: stack) a s
              | None =>
                  match found s a with
                  | (s, Some result) => Ok (s, Some result)
                  | (s, None) => check_loop fuel ds ((depth, Some new_index) :: stack) a s
                  end
              end
          | None => check_loop fuel ds stack a s
          end
      end
  end.
Definition check_disjunctions (fuel : nat) (self : SatSolver) (a : assumptions) (s : S) : M (S * option T) :=
  match disjunctions self with
  | [] => Ok (found s a)
  | ds => check_loop fuel ds [(0%nat, None)] a s
  end.

(** [retain(|term| self.terms[term.var.index()] != Some(!term.value))] *)
Fixpoint retain_terms (ts : assumptions) (d : list Term) : M (list Term) :=
  match d with
  | [] => Ok []
  | t :: d =>
      v ← vget ts (var t); d ← retain_terms ts d;
      Ok (if bool_decide (v = Some (negb (value t))) then d else t :: d)
  end.
(** [conj.0.iter().all(..)] *)
Fixpoint consistent (ts : assumptions) (c : Conjunction) : M bool :=
  match c with
  | [] => Ok true
  | t :: c => v ← vget ts (var t); if bool_decide (v = Some (negb (value t))) then Ok false else consistent ts c
  end.
Fixpoint retain_conjunctions (ts : assumptions) (cs : list Conjunction) : M (list Conjunction) :=
  match cs with
  | [] => Ok []
  | c :: cs => b ← consistent ts c; cs ← retain_conjunctions ts cs; Ok (if b : bool then c :: cs else cs)
  end.
(** [sort_by_key(|d| d.0.len())], a stable sort. *)
Fixpoint insert_by_len (d : Disjunction) (ds : list Disjunction) : list Disjunction :=
  match ds with
  | [] => [d]
  | e :: ds => if (length d <=? length e)%nat then d :: e :: ds else e :: insert_by_len d ds
  end.
Definition sort_by_len (ds : list Disjunction) : list Disjunction := foldr insert_by_len [] ds.

Fixpoint assume (a : assumptions) (c : Conjunction) : M assumptions :=
  match c with [] => Ok a | t :: c => a ← vset a (var t) (Some (value t)); assume a c end.
Fixpoint solve_conjunctions (fuel : nat) (self : SatSolver) (cs : list Conjunction) (seen : list assumptions) (s : S) : M (S * option T) :=
  match cs with
  | [] => Ok (s, None)
  | c :: cs =>
      a ← assume (terms self) c;
      if bool_decide (a ∈ seen) then solve_conjunctions fuel self cs seen s
      else
        '(s, r) ← check_disjunctions fuel self a s;
        match r with
        | Some result => Ok (s, Some result)
        | None => solve_conjunctions fuel self cs (a :: seen) s
        end
  end.
Definition solve_with (fuel : nat) (self : SatSolver) (s : S) : M (SatSolver * S * option T) :=
  cs ← retain_conjunctions (terms self) (disjunction_of_conjunctions self);
  ds ← mapM (retain_terms (terms self)) (disjunctions self);
  let self := {| terms := terms self; disjunctions := sort_by_len ds; disjunction_of_conjunctions := cs;
                 has_disjunction_of_conjunctions := has_disjunction_of_conjunctions self; unsat := unsat self |} in
  '(s, r) ← (if negb (has_disjunction_of_conjunctions self) then check_disjunctions fuel self (terms self) s
             else solve_conjunctions fuel self (disjunction_of_conjunctions self) [] s);
  Ok (self, s, r).
End check.

(** The closure of [solve] collects the assumptions in a bitmap, an unassigned variable
    as [false]; it captures nothing. *)
Definition solve (fuel : nat) (self : SatSolver) : M (SatSolver * SolverResult) :=
  '(self, _, r) ← solve_with (λ (s : unit) solution, (s, Some (Growing.from_iter (default false <$> solution)))) fuel self Datatypes.tt;
  match r with
  | Some conf => conf ← conf; Ok (self, Sat conf)
  | None => Ok (self, Unsat)
  end.
