(* ===== verification/MinisatFacts.v ===== *)
(** * The solver is sound and, without satisfied disjunctions, complete

    [leaves] are the arrays of assumptions that the backtracking reaches; the loop
    with its stack calls the callback on them in order and ends.  Every leaf
    satisfies all disjunctions, and every model of the formula extends a leaf unless
    a disjunction is satisfied before the search starts; [solve_misses_satisfied] says
    when satisfied disjunctions are a problem. *)
From S2P Require Import Prelude MachInt Bitmap BitmapFacts Growing GrowingFacts Minisat.

(** ** Searching *)

Fixpoint findi {A} (p : A → bool) (l : list A) (i skip : nat) : option nat :=
  match l with
  | [] => None
  | x :: l =>
      match skip with
      | S skip => findi p l (S i) skip
      | O => if p x then Some i else findi p l (S i) 0
      end
  end.
Lemma find_from_eq {A} (p : A → M bool) (q : A → bool) l : ∀ i k, (∀ x, x ∈ l → p x = Ok (q x)) → find_from p l i k = Ok (findi q l i k).
Proof.
  induction l as [|x l IH]; intros i k H; [done|]. cbn [find_from findi]. destruct k as [|k].
  - rewrite H, M_bind_Ok by left. destruct (q x); [done|]. apply IH. intros y Hy. apply H. by right.
  - apply IH. intros y Hy. apply H. by right.
Qed.
Lemma findi_Some {A} (p : A → bool) l : ∀ i k n, findi p l i k = Some n → ∃ j x, n = (i + j)%nat ∧ (k <= j)%nat ∧ l !! j = Some x ∧ p x = true ∧
  ∀ j' y, (k <= j' < j)%nat → l !! j' = Some y → p y = false.
Proof.
  induction l as [|x l IH]; intros i k n H; [done|]. cbn [findi] in H. destruct k as [|k]; [destruct (p x) eqn:E|].
  - injection H as <-. exists 0%nat, x. split; [lia|]. split; [lia|]. split; [done|]. split; [done|]. intros; lia.
  - apply IH in H as (j & y & -> & _ & Hj & Hy & H). exists (S j), y. split; [lia|]. split; [lia|]. split; [done|]. split; [done|].
    intros [|j'] z Hj' Hz; cbn in Hz; [by injection Hz as <-|]. apply (H j'); [lia | done].
  - apply IH in H as (j & y & -> & Hk & Hj & Hy & H). exists (S j), y. split; [lia|]. split; [lia|]. split; [done|]. split; [done|].
    intros [|j'] z Hj' Hz; [lia|]. apply (H j'); [lia | done].
Qed.
Lemma findi_None {A} (p : A → bool) l : ∀ i k j x, findi p l i k = None → (k <= j)%nat → l !! j = Some x → p x = false.
Proof.
  induction l as [|y l IH]; intros i k j x H Hk Hj; [done|]. cbn [findi] in H. destruct k as [|k]; [destruct (p y) eqn:E|]; [done|..].
  - destruct j as [|j]; [by injection Hj as <-|]. eapply IH; [done | lia | done].
  - destruct j as [|j]; [lia|]. eapply IH; [done | | done]. lia.
Qed.
Lemma findi_shift {A} (p : A → bool) l : ∀ i k, findi p l (S i) k = S <$> findi p l i k.
Proof.
  induction l as [|x l IH]; intros i k; [done|]. cbn [findi]. destruct k as [|k]; [|apply IH]. destruct (p x); [done | apply IH].
Qed.

(** ** Assumptions and models *)

Definition unassigned (a : assumptions) (t : Term) : bool := bool_decide (a !! var t = Some None).
Definition holds_in (a : assumptions) (t : Term) : bool := bool_decide (a !! var t = Some (Some (value t))).
Definition satisfiedb (a : assumptions) (d : Disjunction) : bool := existsb (holds_in a) d.
Definition in_range (a : assumptions) (d : list Term) : Prop := Forall (λ t, var t < length a)%nat d.
(** An assignment of all variables agrees with the assumptions; it makes a disjunction
    true. *)
Definition extends (σ : nat → bool) (a : assumptions) : Prop := ∀ v b, a !! v = Some (Some b) → σ v = b.
Definition models (σ : nat → bool) (d : Disjunction) : Prop := ∃ t, t ∈ d ∧ σ (var t) = value t.

Lemma vget_in_range {A} (l : list A) i : (i < length l)%nat → ∃ x, vget l i = Ok x ∧ l !! i = Some x.
Proof. intros H. destruct (lookup_lt_is_Some_2 l i H) as [x Hx]. exists x. unfold vget. by rewrite Hx. Qed.
Lemma satisfied_eq a d : in_range a d → satisfied a d = Ok (satisfiedb a d).
Proof.
  induction 1 as [|t d Ht Hd IH]; [done|]. cbn [satisfied satisfiedb existsb]. destruct (vget_in_range a (var t) Ht) as (v & -> & Hv).
  rewrite M_bind_Ok. unfold holds_in at 1. rewrite Hv. destruct (decide (v = Some (value t))) as [->|Hne].
  - by rewrite !bool_decide_eq_true_2.
  - rewrite !bool_decide_eq_false_2; [done | congruence | done].
Qed.
Lemma satisfiedb_iff a d : satisfiedb a d = true ↔ ∃ t, t ∈ d ∧ a !! var t = Some (Some (value t)).
Proof.
  unfold satisfiedb. rewrite List.existsb_exists. unfold holds_in. split.
  - intros (t & Ht & E%bool_decide_eq_true). exists t. by rewrite list_elem_of_In.
  - intros (t & Ht & E). exists t. rewrite <- list_elem_of_In, bool_decide_eq_true. done.
Qed.
Lemma unassigned_eq a t : (var t < length a)%nat → (v ← vget a (var t); Ok (bool_decide (v = None))) = Ok (unassigned a t).
Proof.
  intros Ht. destruct (vget_in_range a (var t) Ht) as (v & -> & Hv). rewrite M_bind_Ok. unfold unassigned. rewrite Hv. f_equal.
  apply bool_decide_ext. split; congruence.
Qed.

(** The disjunction to satisfy next. *)
Definition next_unsatisfied (ds : list Disjunction) (a : assumptions) (k : nat) : option nat := findi (λ d, negb (satisfiedb a d)) ds 0 k.
(** [assign a t]: the assumptions after choosing the term [t]. *)
Definition assign (a : assumptions) (t : Term) : assumptions := <[var t := Some (value t)]> a.
(** The assumptions at which the search below the disjunction [depth] ends; [n] bounds
    the number of disjunctions left. *)
Fixpoint leaves (n : nat) (ds : list Disjunction) (depth : nat) (a : assumptions) : list assumptions :=
  match n with
  | O => []
  | S n =>
      concat ((λ t,
        if unassigned a t then
          match next_unsatisfied ds (assign a t) (depth + 1) with
          | Some next => leaves n ds next (assign a t)
          | None => [assign a t]
          end
        else []) <$> default [] (ds !! depth))
  end.
(** The leaves below one term. *)
Definition branch (n : nat) (ds : list Disjunction) (depth : nat) (a : assumptions) (t : Term) : list assumptions :=
  if unassigned a t then
    match next_unsatisfied ds (assign a t) (depth + 1) with
    | Some next => leaves n ds next (assign a t)
    | None => [assign a t]
    end
  else [].
Lemma leaves_S n ds depth a d : ds !! depth = Some d → leaves (S n) ds depth a = concat (branch n ds depth a <$> d).
Proof. intros H. cbn [leaves]. by rewrite H. Qed.

(** ** The loop visits the leaves *)

Section loop.
Context {S T : Type} (found : S → assumptions → S * option T) (ds : list Disjunction).

(** The callback is called until it returns a result. *)
Fixpoint call_all (l : list assumptions) (s : S) : S * option T :=
  match l with
  | [] => (s, None)
  | a :: l => match found s a with (s, Some r) => (s, Some r) | (s, None) => call_all l s end
  end.
Lemma call_all_app l k s : call_all (l ++ k) s = match call_all l s with (s, Some r) => (s, Some r) | (s, None) => call_all k s end.
Proof.
  revert s. induction l as [|a l IH]; intros s; [done|]. cbn [app call_all]. destruct (found s a) as [s' [r|]]; [done | apply IH].
Qed.

(** The part of an iteration after the reset of the last assumption. *)
Definition attempt (fuel depth num_done : nat) (stack : list (nat * option nat)) (a : assumptions) (s : S) : M (S * option T) :=
  disjunction ← vget ds depth;
  next ← find_from (λ t, v ← vget a (var t); Ok (bool_decide (v = None))) disjunction 0 num_done;
  match next with
  | Some new_index =>
      new_term ← vget disjunction new_index;
      a ← vset a (var new_term) (Some (value new_term));
      next_depth ← find_from (λ d, b ← satisfied a d; Ok (negb b)) ds 0 (depth + 1);
      match next_depth with
      | Some next_depth => check_loop found fuel ds ((next_depth, None) :: (depth, Some new_index) :: stack) a s
      | None =>
          match found s a with
          | (s, Some result) => Ok (s, Some result)
          | (s, None) => check_loop found fuel ds ((depth, Some new_index) :: stack) a s
          end
      end
  | None => check_loop found fuel ds stack a s
  end.
Lemma check_loop_first fuel depth stack a s : is_Some (ds !! depth) →
  check_loop found (Datatypes.S fuel) ds ((depth, None) :: stack) a s = attempt fuel depth 0 stack a s.
Proof. intros [d Hd]. cbn [check_loop]. unfold attempt, vget. rewrite Hd. done. Qed.
Lemma check_loop_next fuel depth i stack a s d t : ds !! depth = Some d → d !! i = Some t → a !! var t = Some None →
  check_loop found (Datatypes.S fuel) ds ((depth, Some i) :: stack) (assign a t) s = attempt fuel depth (i + 1) stack a s.
Proof.
  intros Hd Ht Ha. cbn [check_loop]. unfold attempt, vget. rewrite Hd. cbn [unwrap]. rewrite !M_bind_Ok, Ht. cbn [unwrap].
  rewrite M_bind_Ok. unfold assign. pose proof (lookup_lt_Some _ _ _ Ha). rewrite vset_lt by (by rewrite length_insert). rewrite !M_bind_Ok.
  by rewrite list_insert_insert_eq, list_insert_id.
Qed.

(** What the search leaves to do for the rest of the stack. *)
Definition continue (fuel : nat) (stack : list (nat * option nat)) (a : assumptions) (r : S * option T) : M (S * option T) :=
  match r with
  | (s, Some r) => Ok (s, Some r)
  | (s, None) => check_loop found fuel ds stack a s
  end.
Definition visits (fuel0 depth j : nat) (a : assumptions) (l : list assumptions) : Prop :=
  ∀ fuel stack s, attempt (fuel0 + fuel) depth j stack a s = continue fuel stack a (call_all l s).

Lemma in_range_assign a t d : in_range a d → in_range (assign a t) d.
Proof. unfold in_range, assign. by rewrite length_insert. Qed.
Lemma next_depth_eq a k : Forall (in_range a) ds →
  find_from (λ d, b ← satisfied a d; Ok (negb b)) ds 0 k = Ok (next_unsatisfied ds a k).
Proof.
  intros H. apply find_from_eq. intros d Hd. rewrite Forall_forall in H. by rewrite satisfied_eq by auto.
Qed.

Lemma branch_skip n depth a d j i t : (j <= i)%nat → d !! i = Some t →
  (∀ k y, (j <= k < i)%nat → d !! k = Some y → unassigned a y = false) →
  concat (branch n ds depth a <$> drop j d) = branch n ds depth a t ++ concat (branch n ds depth a <$> drop (i + 1) d).
Proof.
  intros Hj Ht H. remember (i - j)%nat as m eqn:Em. revert j Hj H Em. induction m as [|m IH]; intros j Hj H Em.
  - assert (j = i) as -> by lia. by rewrite (drop_S d t i Ht), fmap_cons, Nat.add_1_r.
  - destruct (lookup_lt_is_Some_2 d j) as [y Hy]; [apply lookup_lt_Some in Ht; lia|].
    rewrite (drop_S d y j Hy), fmap_cons. cbn [concat]. unfold branch at 1. rewrite (H j y) by (done || lia). cbn [app].
    apply IH; [lia | intros k z Hk; apply H; lia | lia].
Qed.
Lemma branch_none n depth a d j : (∀ k y, (j <= k)%nat → d !! k = Some y → unassigned a y = false) →
  concat (branch n ds depth a <$> drop j d) = [].
Proof.
  intros H. assert (Forall (λ t, unassigned a t = false) (drop j d)) as Hf.
  { apply Forall_lookup. intros k y Hy. rewrite lookup_drop in Hy. apply (H (j + k)%nat); [lia | done]. }
  induction Hf as [|t l Ht Hl IH]; [done|]. rewrite fmap_cons. cbn [concat]. unfold branch at 1. by rewrite Ht.
Qed.

(** The terms of one disjunction from [j] on, when the search below them is right. *)
Lemma visits_terms n depth a d : ds !! depth = Some d → Forall (in_range a) ds →
  (∀ next a', (depth < next < length ds)%nat → Forall (in_range a') ds → ∃ k, visits k next 0 a' (leaves n ds next a')) →
  ∀ m j, (length d - j <= m)%nat → ∃ k, visits k depth j a (concat (branch n ds depth a <$> drop j d)).
Proof.
  intros Hd Hr IHn. induction m as [|m IH]; intros j Hm.
  all: assert (in_range a d) as Hrd by (by eapply Forall_lookup_1 in Hd; [|done]).
  all: assert (find_from (λ t, v ← vget a (var t); Ok (bool_decide (v = None))) d 0 j = Ok (findi (unassigned a) d 0 j)) as Ef
    by (apply find_from_eq; intros t Ht; apply unassigned_eq; unfold in_range in Hrd; rewrite Forall_forall in Hrd; auto).
  all: destruct (findi (unassigned a) d 0 j) as [i|] eqn:E.
  1: { apply findi_Some in E as (i' & t & -> & Hi & Ht & _). apply lookup_lt_Some in Ht. lia. }
  1, 3: exists 0%nat; intros fuel stack s; unfold attempt; rewrite (proj2 (vget_Ok_inv ds depth d) Hd), M_bind_Ok, Ef, M_bind_Ok;
    rewrite branch_none; [done | intros k y Hk; eapply findi_None; [exact E | done]].
  apply findi_Some in E as (i' & t & -> & Hi & Ht & Hu & Hno). cbn [Nat.add] in *. rename i' into i.
  pose proof Hu as Ha%bool_decide_eq_true. pose proof (lookup_lt_Some _ _ _ Ha) as Hv.
  destruct (IH (i + 1)%nat) as [k2 H2]; [apply lookup_lt_Some in Ht; lia|].
  assert (Forall (in_range (assign a t)) ds) as Hr' by (eapply Forall_impl; [exact Hr | intros; by apply in_range_assign]).
  rewrite (branch_skip n depth a d j i t Hi Ht Hno). unfold branch at 1. rewrite Hu.
  assert (∀ fuel stack s, attempt fuel depth j stack a s =
    match next_unsatisfied ds (assign a t) (depth + 1) with
    | Some next_depth => check_loop found fuel ds ((next_depth, None) :: (depth, Some i) :: stack) (assign a t) s
    | None => match found s (assign a t) with
              | (s, Some result) => Ok (s, Some result)
              | (s, None) => check_loop found fuel ds ((depth, Some i) :: stack) (assign a t) s
              end
    end) as Estep.
  { intros fuel stack s. unfold attempt. rewrite (proj2 (vget_Ok_inv ds depth d) Hd), M_bind_Ok, Ef, M_bind_Ok.
    rewrite (proj2 (vget_Ok_inv d i t) Ht), M_bind_Ok, vset_lt, M_bind_Ok by done. fold (assign a t). by rewrite next_depth_eq, M_bind_Ok. }
  destruct (next_unsatisfied ds (assign a t) (depth + 1)) as [nd|] eqn:End.
  - unfold next_unsatisfied in End. apply findi_Some in End as (nd' & e & -> & Hnd & He & _). cbn [Nat.add] in *.
    pose proof (lookup_lt_Some _ _ _ He). destruct (IHn nd' (assign a t)) as [k1 H1]; [lia | done|].
    exists (Datatypes.S (k1 + Datatypes.S k2)). intros fuel stack s. rewrite Estep. rewrite Nat.add_succ_l, check_loop_first by done.
    rewrite <- Nat.add_assoc, H1, call_all_app. destruct (call_all _ s) as [s' [r|]]; [done|]. cbn [continue].
    rewrite Nat.add_succ_l. erewrite check_loop_next; [apply H2 | done..].
  - exists (Datatypes.S k2). intros fuel stack s. rewrite Estep. cbn [app call_all]. destruct (found s (assign a t)) as [s' [r|]]; [done|].
    rewrite Nat.add_succ_l. erewrite check_loop_next; [apply H2 | done..].
Qed.
Lemma visits_leaves n : ∀ depth a, (depth < length ds)%nat → (length ds - depth <= n)%nat → Forall (in_range a) ds →
  ∃ k, visits k depth 0 a (leaves n ds depth a).
Proof.
  induction n as [|n IH]; intros depth a Hd Hn Hr; [lia|]. destruct (lookup_lt_is_Some_2 ds depth Hd) as [d Ed].
  rewrite (leaves_S n ds depth a d Ed). rewrite <- (drop_0 d). apply (visits_terms n depth a d Ed Hr) with (m := length d); [|lia].
  intros next a' Hnext Hr'. apply IH; [lia | lia | done].
Qed.
(** The loop ends, having called the callback on the leaves. *)
Lemma check_disjunctions_eq a : Forall (in_range a) ds → ∃ k, ∀ fuel self s, (k <= fuel)%nat → disjunctions self = ds →
  check_disjunctions found fuel self a s = Ok (call_all (match ds with [] => [a] | _ => leaves (length ds) ds 0 a end) s).
Proof.
  intros Hr. destruct ds as [|d ds'] eqn:Eds.
  - exists 0%nat. intros fuel self s _ E. unfold check_disjunctions. rewrite E. cbn [call_all]. by destruct (found s a) as [s' [r|]].
  - rewrite <- Eds in *. destruct (visits_leaves (length ds) 0 a) as [k Hk]; [subst; cbn; lia | lia | done|].
    exists (Datatypes.S k). intros fuel self s Hf E. unfold check_disjunctions. rewrite E, Eds. rewrite <- Eds.
    replace fuel with (Datatypes.S (k + (fuel - Datatypes.S k)))%nat by lia. rewrite check_loop_first by (by rewrite Eds).
    rewrite Hk. destruct (call_all _ s) as [s' [r|]]; [done|]. unfold continue. by destruct (fuel - Datatypes.S k)%nat.
Qed.
End loop.

(** ** Leaves and models *)

Definition more_assigned (a a' : assumptions) : Prop := length a' = length a ∧ ∀ v b, a !! v = Some (Some b) → a' !! v = Some (Some b).
Lemma satisfied_mono a a' d : more_assigned a a' → satisfiedb a d = true → satisfiedb a' d = true.
Proof. intros [_ H]. rewrite !satisfiedb_iff. intros (t & Ht & E). eauto. Qed.
Lemma assign_more a t : unassigned a t = true → more_assigned a (assign a t) ∧ assign a t !! var t = Some (Some (value t)).
Proof.
  intros Ha%bool_decide_eq_true. pose proof (lookup_lt_Some _ _ _ Ha). unfold assign. split; [split; [apply length_insert|]|].
  - intros v b Hv. rewrite list_lookup_insert_ne; [done|]. intros E. rewrite <- E in Hv. congruence.
  - by apply list_lookup_insert_eq.
Qed.
Lemma elem_of_concat_fmap {A B} (f : A → list B) l y : y ∈ concat (f <$> l) ↔ ∃ x, x ∈ l ∧ y ∈ f x.
Proof.
  induction l as [|x l IH]; cbn [fmap list_fmap concat].
  - split; [by intros ?%not_elem_of_nil | by intros (x & ?%not_elem_of_nil & _)].
  - rewrite elem_of_app. fold (f <$> l). rewrite IH. set_solver.
Qed.
(** A leaf extends the assumptions and satisfies every disjunction. *)
Lemma leaves_sound n ds : ∀ depth a, (∀ j d, (j < depth)%nat → ds !! j = Some d → satisfiedb a d = true) →
  ∀ a', a' ∈ leaves n ds depth a → more_assigned a a' ∧ ∀ d, d ∈ ds → satisfiedb a' d = true.
Proof.
  induction n as [|n IH]; intros depth a Hbefore a' Ha'; [by apply not_elem_of_nil in Ha'|].
  cbn [leaves] in Ha'. apply elem_of_concat_fmap in Ha' as (t & Ht & Ha').
  destruct (ds !! depth) as [d|] eqn:Ed; cbn [from_option id] in Ht; [|by apply not_elem_of_nil in Ht].
  destruct (unassigned a t) eqn:Eu; [|by apply not_elem_of_nil in Ha']. destruct (assign_more a t Eu) as [Hm Hval].
  assert (∀ j e, (j < depth + 1)%nat → ds !! j = Some e → satisfiedb (assign a t) e = true) as Hupto.
  { intros j e Hj He. destruct (decide (j = depth)) as [->|].
    - rewrite Ed in He. injection He as <-. apply satisfiedb_iff. eauto.
    - eapply satisfied_mono; [done|]. apply (Hbefore j); [lia | done]. }
  destruct (next_unsatisfied ds (assign a t) (depth + 1)) as [nd|] eqn:En; unfold next_unsatisfied in En.
  - apply findi_Some in En as (j & e & -> & Hj & He & Hu & Hno). cbn [Nat.add] in *.
    destruct (IH j (assign a t)) with (a' := a') as [[Hl Hm'] Hs]; [|done|].
    + intros k x Hk Hx. destruct (Nat.lt_ge_cases k (depth + 1)); [by apply (Hupto k)|].
      specialize (Hno k x ltac:(lia) Hx). by apply negb_false_iff in Hno.
    + split; [|done]. destruct Hm as [Hl0 Hm0]. split; [lia|]. intros v b Hv. by apply Hm', Hm0.
  - apply list_elem_of_singleton in Ha' as ->. split; [done|]. intros e (j & Hj)%list_elem_of_lookup_1.
    destruct (Nat.lt_ge_cases j (depth + 1)); [by apply (Hupto j)|]. apply negb_false_iff.
    by eapply (findi_None (λ d, negb (satisfiedb (assign a t) d))).
Qed.
Lemma extends_assign σ a t : extends σ a → unassigned a t = true → σ (var t) = value t → extends σ (assign a t).
Proof.
  intros He Hu Hσ v b Hv. unfold assign in Hv. destruct (decide (v = var t)) as [->|Hne].
  - apply bool_decide_eq_true in Hu. apply lookup_lt_Some in Hu. rewrite list_lookup_insert_eq in Hv by done. congruence.
  - rewrite list_lookup_insert_ne in Hv by done. by apply He.
Qed.
(** A model that extends the assumptions extends a leaf, if the disjunction at which the
    search starts is not satisfied yet. *)
Lemma leaves_complete n ds σ : (∀ d, d ∈ ds → models σ d) → ∀ depth a, (length ds - depth <= n)%nat → Forall (in_range a) ds →
  (∃ d, ds !! depth = Some d ∧ satisfiedb a d = false) → extends σ a → ∃ a', a' ∈ leaves n ds depth a ∧ extends σ a'.
Proof.
  intros Hm. induction n as [|n IH]; intros depth a Hn Hr (d & Hd & Hs) He.
  { apply lookup_lt_Some in Hd. lia. }
  destruct (Hm d (list_elem_of_lookup_2 _ _ _ Hd)) as (t & Ht & Hσ).
  assert (unassigned a t = true) as Hu.
  { apply bool_decide_eq_true. assert (in_range a d) as Hrd by (by eapply Forall_lookup_1 in Hd; [|done]).
    unfold in_range in Hrd. rewrite Forall_forall in Hrd. destruct (lookup_lt_is_Some_2 a (var t) (Hrd t Ht)) as [[b|] Hb]; [|done].
    assert (satisfiedb a d = true) as Hc; [|by rewrite Hc in Hs]. apply satisfiedb_iff. exists t. split; [done|].
    rewrite Hb. by rewrite <- (He _ _ Hb), Hσ. }
  pose proof (extends_assign σ a t He Hu Hσ) as He'.
  assert (∃ a', a' ∈ branch n ds depth a t ∧ extends σ a') as (a' & Ha' & Hea).
  { unfold branch. rewrite Hu. destruct (next_unsatisfied ds (assign a t) (depth + 1)) as [nd|] eqn:En; unfold next_unsatisfied in En.
    - apply findi_Some in En as (j & e & -> & Hj & Hej & Hsat & _). cbn [Nat.add] in *. apply IH; [lia | | | done].
      + eapply Forall_impl; [exact Hr | intros; by apply in_range_assign].
      + exists e. split; [done|]. by apply negb_true_iff.
    - exists (assign a t). split; [apply list_elem_of_singleton | ]; done. }
  exists a'. split; [|done]. rewrite (leaves_S n ds depth a d Hd). apply elem_of_concat_fmap. eauto.
Qed.

(** ** Preparing the formula *)

(** What [retain] keeps: the terms that the assigned variables do not contradict. *)
Definition retained (ts : assumptions) (d : list Term) : list Term :=
  List.filter (λ t, negb (bool_decide (ts !! var t = Some (Some (negb (value t)))))) d.
Lemma retain_terms_eq ts d : in_range ts d → retain_terms ts d = Ok (retained ts d).
Proof.
  induction 1 as [|t d Ht Hd IH]; [done|]. cbn [retain_terms retained List.filter]. destruct (vget_in_range ts (var t) Ht) as (v & -> & Hv).
  rewrite M_bind_Ok, IH, M_bind_Ok, Hv. destruct (decide (v = Some (negb (value t)))) as [->|Hne].
  - by rewrite !bool_decide_eq_true_2.
  - by rewrite !bool_decide_eq_false_2 by congruence.
Qed.
Lemma mapM_retain ts ds : Forall (in_range ts) ds → mapM (retain_terms ts) ds = Ok (retained ts <$> ds).
Proof. induction 1 as [|d ds Hd Hds IH]; [done|]. cbn [mapM]. by rewrite retain_terms_eq, M_bind_Ok, IH. Qed.
Lemma elem_of_insert_by_len d e ds : d ∈ insert_by_len e ds ↔ d = e ∨ d ∈ ds.
Proof. induction ds as [|x ds IH]; cbn [insert_by_len]; [set_solver|]. case_match; [set_solver|]. rewrite !elem_of_cons, IH. tauto. Qed.
Lemma elem_of_sort d ds : d ∈ sort_by_len ds ↔ d ∈ ds.
Proof. induction ds as [|x ds IH]; [done|]. cbn [sort_by_len foldr]. rewrite elem_of_insert_by_len. fold (sort_by_len ds). rewrite IH. set_solver. Qed.
Lemma elem_of_retained ts d t : t ∈ retained ts d ↔ t ∈ d ∧ ts !! var t ≠ Some (Some (negb (value t))).
Proof. unfold retained. rewrite list_elem_of_In, List.filter_In, <- list_elem_of_In, negb_true_iff, bool_decide_eq_false. done. Qed.

(** The formula of a solver. *)
Definition satisfies (σ : nat → bool) (self : SatSolver) : Prop := extends σ (terms self) ∧ ∀ d, d ∈ disjunctions self → models σ d.
Lemma models_retained σ ts d : extends σ ts → models σ (retained ts d) ↔ models σ d.
Proof.
  intros He. split; intros (t & Ht & Hσ).
  - apply elem_of_retained in Ht as [Ht _]. by exists t.
  - exists t. split; [|done]. apply elem_of_retained. split; [done|]. intros E%He. rewrite Hσ in E. by destruct (value t).
Qed.
(** The arrays that the search reaches in order. *)
Definition solutions (self : SatSolver) : list assumptions :=
  let ds := sort_by_len (retained (terms self) <$> disjunctions self) in
  match ds with
  | [] => [terms self]
  | _ => leaves (length ds) ds 0 (terms self)
  end.
Lemma solutions_sound self a : a ∈ solutions self → more_assigned (terms self) a ∧ ∀ d, d ∈ disjunctions self → satisfiedb a d = true.
Proof.
  intros Ha. assert (more_assigned (terms self) a ∧ ∀ d, d ∈ sort_by_len (retained (terms self) <$> disjunctions self) → satisfiedb a d = true) as [Hm Hs].
  { unfold solutions in Ha. destruct (sort_by_len _) as [|d ds].
    - apply list_elem_of_singleton in Ha as ->. split; [by split|]. by intros d ?%not_elem_of_nil.
    - eapply leaves_sound; [|exact Ha]. intros; lia. }
  split; [done|]. intros d Hd. specialize (Hs (retained (terms self) d)). rewrite elem_of_sort, satisfiedb_iff in Hs.
  destruct Hs as (t & [Ht _]%elem_of_retained & Et); [by apply list_elem_of_fmap_2|]. apply satisfiedb_iff. eauto.
Qed.
Lemma retained_in_range ts d : in_range ts d → in_range ts (retained ts d).
Proof. unfold in_range. rewrite !Forall_forall. intros H t [Ht _]%elem_of_retained. auto. Qed.
Lemma prepared_in_range self : Forall (in_range (terms self)) (disjunctions self) →
  Forall (in_range (terms self)) (sort_by_len (retained (terms self) <$> disjunctions self)).
Proof.
  rewrite !Forall_forall. intros H d Hd. rewrite elem_of_sort in Hd. apply list_elem_of_fmap in Hd as (e & -> & He). by apply retained_in_range, H.
Qed.
Lemma solutions_complete self σ : Forall (in_range (terms self)) (disjunctions self) →
  (∀ d, d ∈ disjunctions self → satisfiedb (terms self) d = false) → satisfies σ self → ∃ a, a ∈ solutions self ∧ extends σ a.
Proof.
  intros Hr Hno [He Hm]. pose proof (prepared_in_range self Hr) as Hr'.
  assert (∀ d, d ∈ sort_by_len (retained (terms self) <$> disjunctions self) → models σ d ∧ satisfiedb (terms self) d = false) as Hd.
  { intros d Hd. rewrite elem_of_sort in Hd. apply list_elem_of_fmap in Hd as (e & -> & Hin). split; [by apply models_retained; [|apply Hm]|].
    apply not_true_iff_false. rewrite satisfiedb_iff. intros (t & [Ht _]%elem_of_retained & Et).
    assert (satisfiedb (terms self) e = true) as Hc by (apply satisfiedb_iff; eauto). by rewrite Hno in Hc. }
  unfold solutions. destruct (sort_by_len _) as [|d ds].
  - exists (terms self). split; [apply list_elem_of_singleton|]; done.
  - apply (leaves_complete _ (d :: ds)); [intros e Hin; by apply Hd | lia | done | | done]. exists d. split; [done|]. apply Hd. left.
Qed.
Lemma solve_with_eq {S T} (found : S → assumptions → S * option T) self : has_disjunction_of_conjunctions self = false →
  disjunction_of_conjunctions self = [] → Forall (in_range (terms self)) (disjunctions self) →
  ∃ k self', ∀ fuel s, (k <= fuel)%nat →
    solve_with found fuel self s = Ok (self', (call_all found (solutions self) s).1, (call_all found (solutions self) s).2).
Proof.
  intros Hc Hcs Hr. destruct (check_disjunctions_eq found _ (terms self) (prepared_in_range self Hr)) as [k Hk].
  eexists k, _. intros fuel s Hf. unfold solve_with. rewrite Hcs. cbn [retain_conjunctions]. rewrite M_bind_Ok, mapM_retain, M_bind_Ok by done.
  cbn [has_disjunction_of_conjunctions terms]. rewrite Hc. cbn [negb]. rewrite Hk by done. fold (solutions self).
  destruct (call_all found (solutions self) s). by rewrite M_bind_Ok.
Qed.

(** C16: the search of [solve_with] ends, and the arrays on which it calls the callback
    describe exactly the models of the formula: each of them satisfies the formula
    however the unassigned variables are set, and, unless a disjunction is satisfied
    by the terms alone, every model extends one of them. *)
Theorem solve_with_spec {S T} (found : S → assumptions → S * option T) self : has_disjunction_of_conjunctions self = false →
  disjunction_of_conjunctions self = [] → Forall (in_range (terms self)) (disjunctions self) →
  ∃ l k self', (∀ fuel s, (k <= fuel)%nat → solve_with found fuel self s = Ok (self', (call_all found l s).1, (call_all found l s).2)) ∧
    (∀ a σ, a ∈ l → extends σ a → satisfies σ self) ∧
    ((∀ d, d ∈ disjunctions self → satisfiedb (terms self) d = false) → ∀ σ, satisfies σ self → ∃ a, a ∈ l ∧ extends σ a).
Proof.
  intros Hc Hcs Hr. destruct (solve_with_eq found self Hc Hcs Hr) as (k & self' & Hk). exists (solutions self), k, self'.
  split; [done|]. split; [|intros Hno σ; by apply solutions_complete]. intros a σ Ha He.
  destruct (solutions_sound self a Ha) as [[_ Hm] Hs]. split; [intros v b Hv; by apply He, Hm|].
  intros d Hd. apply Hs, satisfiedb_iff in Hd as (t & Ht & E). exists t. split; [done | by apply He].
Qed.

(** [solve] ends, and answers [Unsat] if the search reaches nothing. *)
Lemma solve_solutions self : has_disjunction_of_conjunctions self = false → disjunction_of_conjunctions self = [] →
  Forall (in_range (terms self)) (disjunctions self) → ∃ k self' r, (∀ fuel, (k <= fuel)%nat → solve fuel self = Ok (self', r)) ∧
    (r = Unsat ↔ solutions self = []).
Proof.
  intros Hc Hcs Hr.
  destruct (solve_with_eq (λ (s : unit) sol, (s, Some (Growing.from_iter (default false <$> sol)))) self Hc Hcs Hr) as (k & self' & Hk).
  destruct (solutions self) as [|a l]; cbn [call_all fst snd] in Hk.
  - exists k, self', Unsat. split; [intros fuel Hf; unfold solve; by rewrite Hk | done].
  - destruct (from_iter_eq (default false <$> a)) as (b & Eb & _). exists k, self', (Sat b).
    split; [intros fuel Hf; unfold solve; rewrite Hk, M_bind_Ok by done; by rewrite Eb | done].
Qed.
(** What an answer of the solver means for the formula. *)
Definition decided (self : SatSolver) (r : SolverResult) : Prop :=
  match r with
  | Sat conf => ∃ l, holds conf l ∧ length l = length (terms self) ∧ satisfies (bit_at l) self
  | Unsat => (∀ d, d ∈ disjunctions self → satisfiedb (terms self) d = false) → ∀ σ, ¬ satisfies σ self
  end.
Lemma solve_decided self : has_disjunction_of_conjunctions self = false → disjunction_of_conjunctions self = [] →
  Forall (in_range (terms self)) (disjunctions self) → ∃ k self' r, (∀ fuel, (k <= fuel)%nat → solve fuel self = Ok (self', r)) ∧ decided self r.
Proof.
  intros Hc Hcs Hr.
  destruct (solve_with_eq (λ (s : unit) sol, (s, Some (Growing.from_iter (default false <$> sol)))) self Hc Hcs Hr) as (k & self' & Hk).
  destruct (solutions self) as [|a l] eqn:E; cbn [call_all fst snd] in Hk.
  - exists k, self', Unsat. split; [intros fuel Hf; unfold solve; by rewrite Hk|]. intros Hno σ Hσ.
    destruct (solutions_complete self σ Hr Hno Hσ) as (a & Ha & _). rewrite E in Ha. by apply not_elem_of_nil in Ha.
  - destruct (from_iter_eq (default false <$> a)) as (b & Eb & Hb). exists k, self', (Sat b).
    split; [intros fuel Hf; unfold solve; rewrite Hk, M_bind_Ok by done; by rewrite Eb|]. exists (default false <$> a).
    assert (a ∈ solutions self) as Ha by (rewrite E; left). destruct (solutions_sound self a Ha) as [[Hl Hm] Hs].
    split; [done|]. rewrite length_fmap. split; [done|].
    assert (extends (bit_at (default false <$> a)) a) as He.
    { intros v c Hv. unfold bit_at. by rewrite list_lookup_fmap, Hv. }
    split; [intros v c Hv; by apply He, Hm|]. intros d Hd. apply Hs, satisfiedb_iff in Hd as (t & Ht & Et). exists t. split; [done | by apply He].
Qed.
(** [solve] ends; its answer [Sat] comes with a model of the formula, and [Unsat]
    means that there is none, unless a disjunction is satisfied by the terms alone. *)
Theorem solve_spec self : has_disjunction_of_conjunctions self = false → disjunction_of_conjunctions self = [] →
  Forall (in_range (terms self)) (disjunctions self) → ∃ k self' r, (∀ fuel, (k <= fuel)%nat → solve fuel self = Ok (self', r)) ∧
  match r with
  | Sat conf => ∃ l, holds conf l ∧ length l = length (terms self) ∧ satisfies (bit_at l) self
  | Unsat => (∀ d, d ∈ disjunctions self → satisfiedb (terms self) d = false) → ∀ σ, ¬ satisfies σ self
  end.
Proof. apply solve_decided. Qed.

(** ** Building a formula *)

Lemma new_empty n : has_disjunction_of_conjunctions (new n) = false ∧ disjunction_of_conjunctions (new n) = [] ∧ disjunctions (new n) = [] ∧
  terms (new n) = replicate n None.
Proof. done. Qed.
(** [and_conjunction] of terms over distinct variables that are not assigned. *)
Lemma and_conjunction_eq self items : unsat self = false → in_range (terms self) items → NoDup (var <$> items) →
  Forall (λ t, terms self !! var t = Some None) items → ∃ self', and_conjunction self items = Ok self' ∧
  disjunctions self' = disjunctions self ∧ disjunction_of_conjunctions self' = disjunction_of_conjunctions self ∧
  has_disjunction_of_conjunctions self' = has_disjunction_of_conjunctions self ∧ unsat self' = false ∧
  terms self' = foldl assign (terms self) items.
Proof.
  intros Hu Hr Hnd Hno. unfold and_conjunction. rewrite Hu.
  assert (and_conjunction_loop (terms self) items = Ok (foldl assign (terms self) items, false)) as ->.
  { revert Hr Hnd Hno. generalize (terms self) as ts. induction items as [|t items IH]; intros ts Hr Hnd Hno; [done|].
    cbn [and_conjunction_loop foldl]. apply Forall_cons in Hr as [Ht Hr]. apply Forall_cons in Hno as [Hn Hno].
    rewrite fmap_cons in Hnd. apply NoDup_cons in Hnd as [Hnin Hnd].
    rewrite (proj2 (vget_Ok_inv _ _ _) Hn), M_bind_Ok, bool_decide_eq_false_2, vset_lt, M_bind_Ok by done. apply IH; [by apply in_range_assign | done|].
    rewrite Forall_forall in *. intros u Hin. unfold assign. rewrite list_lookup_insert_ne; [by apply Hno|].
    intros E. apply Hnin. rewrite E. by apply list_elem_of_fmap_2. }
  rewrite M_bind_Ok. eexists. split; [done|]. done.
Qed.

(** ** Where the solver is wrong *)

(** A conflict between conjunctions sets [unsat], which [solve] does not look at. *)
Theorem solve_ignores_conflict : ∃ s, and_conjunction (new 1) [tt 0; ff 0] = Ok s ∧ unsat s = true ∧ ∃ s' conf, solve 10 s = Ok (s', Sat conf).
Proof. eexists. split; [vm_compute; reflexivity|]. split; [done|]. eexists _, _. vm_compute. reflexivity. Qed.
(** The search with all disjunctions satisfied from the start: the first disjunction is
    searched for an unassigned variable all the same. *)
Lemma next_unsatisfied_none ds a k : (∀ d, d ∈ ds → satisfiedb a d = true) → next_unsatisfied ds a k = None.
Proof.
  intros H. unfold next_unsatisfied. destruct (findi _ ds 0 k) as [n|] eqn:E; [|done].
  apply findi_Some in E as (j & d & _ & _ & Hd & Hn & _). by rewrite (H d (list_elem_of_lookup_2 _ _ _ Hd)) in Hn.
Qed.
Lemma leaves_satisfied n ds d a : ds !! 0%nat = Some d → (∀ e, e ∈ ds → satisfiedb a e = true) →
  leaves (S n) ds 0 a = [] ↔ Forall (λ t, unassigned a t = false) d.
Proof.
  intros Hd Hs. rewrite (leaves_S n ds 0 a d Hd), Forall_forall. split.
  - intros E t Ht. destruct (unassigned a t) eqn:Hu; [|done]. exfalso.
    assert (assign a t ∈ ([] : list assumptions)) as ?%not_elem_of_nil; [|done]. rewrite <- E. apply elem_of_concat_fmap. exists t.
    split; [done|]. unfold branch. rewrite Hu, next_unsatisfied_none; [by left|].
    intros e He. eapply satisfied_mono; [by apply assign_more | by apply Hs].
  - intros H. destruct (concat _) as [|x l] eqn:E; [done|].
    assert (x ∈ concat (branch n ds 0 a <$> d)) as (t & Ht & Hx)%elem_of_concat_fmap by (rewrite E; left).
    unfold branch in Hx. rewrite (H t Ht) in Hx. by apply not_elem_of_nil in Hx.
Qed.
Lemma retained_satisfied ts d : satisfiedb ts d = true → satisfiedb ts (retained ts d) = true.
Proof.
  rewrite !satisfiedb_iff. intros (t & Ht & E). exists t. split; [|done]. apply elem_of_retained. split; [done|].
  rewrite E. intros [= Hb]. by destruct (value t).
Qed.
(** The disjunctions in the order of the search. *)
Definition prepared (self : SatSolver) : list Disjunction := sort_by_len (retained (terms self) <$> disjunctions self).
(** All variables of the first disjunction are assigned. *)
Definition first_assigned (self : SatSolver) : Prop :=
  ∃ d, head (prepared self) = Some d ∧ Forall (λ t, unassigned (terms self) t = false) d.
Lemma satisfied_solutions self : (∀ d, d ∈ disjunctions self → satisfiedb (terms self) d = true) →
  solutions self = [] ↔ first_assigned self.
Proof.
  intros Hs. assert (∀ e, e ∈ prepared self → satisfiedb (terms self) e = true) as Hp.
  { intros e. unfold prepared. rewrite elem_of_sort. intros (d & -> & Hd)%list_elem_of_fmap. by apply retained_satisfied, Hs. }
  unfold solutions, first_assigned. fold (prepared self). destruct (prepared self) as [|d ds].
  - split; [done | by intros (d & ? & _)].
  - cbn [length]. rewrite (leaves_satisfied (length ds) (d :: ds) d) by done. cbn [head]. naive_solver.
Qed.
Lemma terms_model self : (∀ d, d ∈ disjunctions self → satisfiedb (terms self) d = true) →
  satisfies (λ v, default false (mjoin (terms self !! v))) self.
Proof.
  intros Hs. split; [intros v b Hv; by rewrite Hv|]. intros d (t & Ht & E)%Hs%satisfiedb_iff. exists t. by rewrite E.
Qed.
(** C39: for a formula without a disjunction of conjunctions and with variables in range:
    if the terms satisfy every disjunction, so that the formula is satisfiable, [solve]
    still ends, and it answers [Unsat] for exactly those formulas in which all
    variables of the first disjunction are assigned: the shortest one, after the
    literals that the terms contradict were removed.  This is how far its answer
    [Unsat] can be wrong: the search starts at the first disjunction without testing
    whether it is satisfied. *)
Theorem solve_misses_satisfied self : has_disjunction_of_conjunctions self = false → disjunction_of_conjunctions self = [] →
  Forall (in_range (terms self)) (disjunctions self) → (∀ d, d ∈ disjunctions self → satisfiedb (terms self) d = true) →
  ∃ k self' r, (∀ fuel, (k <= fuel)%nat → solve fuel self = Ok (self', r)) ∧ (∃ σ, satisfies σ self) ∧
    (r = Unsat ↔ ∃ d, head (sort_by_len (retained (terms self) <$> disjunctions self)) = Some d ∧
                      Forall (λ t, unassigned (terms self) t = false) d).
Proof.
  intros Hc Hcs Hr Hs. destruct (solve_solutions self Hc Hcs Hr) as (k & self' & r & Hk & Hu). exists k, self', r.
  split; [done|]. split; [eexists; by apply terms_model|]. rewrite Hu. by apply satisfied_solutions.
Qed.

(** ** Witnesses *)

Definition example_solver : SatSolver :=
  {| terms := [Some true; None; None; Some false]; disjunctions := [[ff 0; tt 1; ff 2]; [ff 1; tt 3]];
     disjunction_of_conjunctions := []; has_disjunction_of_conjunctions := false; unsat := false |}.
Lemma example_in_range : Forall (in_range (terms example_solver)) (disjunctions example_solver).
Proof. repeat constructor. Qed.
Lemma solve_spec_witness : ∃ k self' conf l, (∀ fuel, (k <= fuel)%nat → solve fuel example_solver = Ok (self', Sat conf)) ∧
  holds conf l ∧ satisfies (bit_at l) example_solver.
Proof.
  destruct (solve_spec example_solver eq_refl eq_refl example_in_range) as (k & self' & r & Hk & Hr). destruct r as [conf|].
  - destruct Hr as (l & Hl & _ & Hs). by exists k, self', conf, l.
  - exfalso. apply (Hr) with (λ v, (v =? 0)%nat).
    + intros d. cbn. intros [->|[->|[]%not_elem_of_nil]%elem_of_cons]%elem_of_cons; done.
    + split.
      * intros v b Hv. destruct v as [|[|[|[|v]]]]; by simplify_eq/=.
      * intros d. cbn. intros [->|[->|[]%not_elem_of_nil]%elem_of_cons]%elem_of_cons; [exists (ff 2) | exists (ff 1)]; split; try done; set_solver.
Defined.
Lemma solve_with_spec_witness : ∃ l k self', ∀ fuel, (k <= fuel)%nat →
  solve_with (λ (s : list assumptions) a, (a :: s, None (A := unit))) fuel example_solver [] = Ok (self', l, None).
Proof.
  destruct (solve_with_spec (λ (s : list assumptions) a, (a :: s, None (A := unit))) example_solver eq_refl eq_refl example_in_range)
    as (l & k & self' & Hk & _).
  assert (∀ l s, snd (call_all (λ (s : list assumptions) a, (a :: s, None (A := unit))) l s) = None) as Hn.
  { clear. induction l as [|a l IH]; intros s; [done|]. apply IH. }
  eexists _, k, self'. intros fuel Hf. rewrite Hk by done. by rewrite Hn.
Defined.
(** [$0 and not (not $0)], which any assignment of [$0] to true satisfies. *)
Lemma solve_misses_satisfied_witness : ∃ k self' s, and_conjunction (new 1) [tt 0] = Ok s ∧
  (∀ fuel, (k <= fuel)%nat → solve fuel (and_not_conjunction s [ff 0]) = Ok (self', Unsat)) ∧ ∃ σ, satisfies σ (and_not_conjunction s [ff 0]).
Proof.
  set (s := {| terms := [Some true]; disjunctions := []; disjunction_of_conjunctions := []; has_disjunction_of_conjunctions := false; unsat := false |}).
  destruct (solve_misses_satisfied (and_not_conjunction s [ff 0])) as (k & self' & r & Hk & Hsat & Hr);
    [reflexivity | reflexivity | repeat constructor | intros d Hd; apply list_elem_of_singleton in Hd as ->; reflexivity |].
  assert (r = Unsat) as ->; [apply Hr; eexists; split; [reflexivity | repeat constructor]|].
  exists k, self', s. split; [reflexivity|]. split; [exact Hk | exact Hsat].
Defined.
