(* ===== verification/Extended.v ===== *)
(** * Filters with exceptions

    Models [liblisa/src/instr/extended.rs] and
    [InstructionFilter::find_uncovered_instr] of [liblisa/src/instr/filter.rs]: a
    filter together with filters that must not match.  The constructor simplifies the
    filters in a loop and asks the solver for an instruction that matches.  [fuel] is
    for the search of the solver; the loop has as much fuel as there are filters and
    wildcards, one of which goes in every iteration that changes something. *)
From S2P Require Import Prelude MachInt Instruction Filter Growing Minisat.

Record ExtendedFilter := { matching : InstructionFilter; nonmatching : list InstructionFilter; matching_instr : Instruction }.

Module Ext.
(** The term of bit [n], with the variable as [u8]. *)
Definition as_term (n : nat) (b : FilterBit) : M (list Term) :=
  match b with
  | Is0 => assert! (n <? 256)%nat; Ok [ff n]
  | Is1 => assert! (n <? 256)%nat; Ok [Minisat.tt n]
  | Wildcard => Ok []
  end.
Fixpoint as_terms_from (filter : InstructionFilter) (range : list nat) : M (list Term) :=
  match range with
  | [] => Ok []
  | n :: range => b ← Filter.nth_bit_from_left filter n; t ← as_term n b; l ← as_terms_from filter range; Ok (t ++ l)
  end.
Definition as_terms (filter : InstructionFilter) : M (list Term) := as_terms_from filter (seq 0 (Filter.bit_len filter)).
Definition matches (self : ExtendedFilter) (instr : Instruction) : bool :=
  Filter.matches (matching self) instr && negb (existsb (λ nm, Filter.matches nm instr) (nonmatching self)).

Section new_ex.
Context {P : profile}.
(** [for nm in nonmatching.iter()] *)
Fixpoint exclude_all (matching : InstructionFilter) (nonmatching : list InstructionFilter) (changed : bool) : M (InstructionFilter * bool) :=
  match nonmatching with
  | [] => Ok (matching, changed)
  | nm :: l =>
      r ← Filter.try_exclude matching nm;
      match r with
      | Some f => exclude_all f l true
      | None => exclude_all matching l changed
      end
  end.
(** The [loop]; [None] where it returns [None]. *)
Fixpoint simplify (fuel : nat) (merge : bool) (matching : InstructionFilter) (nonmatching : list InstructionFilter)
    : M (option (InstructionFilter * list InstructionFilter)) :=
  match fuel with
  | O => OutOfFuel
  | S fuel =>
      if existsb (λ f, Filter.covers f matching) nonmatching then Ok None
      else
        let len_before := length nonmatching in
        let nonmatching := List.filter (λ f, Filter.overlaps f matching) nonmatching in
        let changed := negb (len_before =? length nonmatching)%nat in
        '(nonmatching, changed) ←
          (if merge then
             let len_before := length nonmatching in
             nonmatching ← Filter.merge_filters nonmatching;
             Ok (nonmatching, changed || negb (len_before =? length nonmatching)%nat)
           else Ok (nonmatching, changed));
        '(matching, changed) ← exclude_all matching nonmatching changed;
        if changed : bool then simplify fuel merge matching nonmatching
        else Ok (Some (matching, nonmatching))
  end.
Fixpoint and_not_all (sat : SatSolver) (nonmatching : list InstructionFilter) : M SatSolver :=
  match nonmatching with
  | [] => Ok sat
  | f :: l => t ← as_terms f; and_not_all (and_not_conjunction sat t) l
  end.
(** [for (index, bit) in conf.iter().enumerate()] *)
Fixpoint set_bits (instr : Instruction) (index : nat) (conf : list bool) : M Instruction :=
  match conf with
  | [] => Ok instr
  | bit :: conf => instr ← Instr.with_nth_bit_from_left instr index (Z.b2z bit); set_bits instr (index + 1) conf
  end.
Definition new_ex (fuel : nat) (matching : InstructionFilter) (nonmatching : list InstructionFilter) (merge : bool)
    : M (option ExtendedFilter) :=
  r ← simplify (S (length nonmatching + Filter.num_wildcard_bits matching)) merge matching nonmatching;
  match r with
  | None => Ok None
  | Some (matching, nonmatching) =>
      t ← as_terms matching;
      sat ← and_conjunction (Minisat.new (Filter.bit_len matching)) t;
      sat ← and_not_all sat nonmatching;
      '(_, r) ← solve fuel sat;
      match r with
      | Sat conf =>
          instr ← Instr.new (replicate (Filter.bit_len matching / 8) 0);
          bits ← Growing.iter conf;
          instr ← set_bits instr 0 bits;
          let extended_filter := {| matching := matching; nonmatching := nonmatching; matching_instr := instr |} in
          debug_assert! matches extended_filter instr;
          Ok (Some extended_filter)
      | Unsat => Ok None
      end
  end.
Definition find_uncovered_instr (fuel : nat) (self : InstructionFilter) (covering_filters : list InstructionFilter) : M (option Instruction) :=
  r ← new_ex fuel self covering_filters false; Ok (option_map matching_instr r).
End new_ex.
End Ext.
