(* ===== verification/ExtendedFacts.v ===== *)
(** * Filters with exceptions are decided

    The terms of a filter stand for the filter, the simplification keeps the set of
    instructions that match without an exception, and the solver finds one of them
    exactly if there is one. *)
From S2P Require Import Prelude MachInt Instruction InstructionFacts Filter FilterFacts MergeFacts FilterTree FilterArena.
From S2P Require Import Bitmap BitmapFacts Growing GrowingFacts Minisat MinisatFacts FilterTreeFacts Extended.
Import Ext.

(** ** Terms of a filter *)

Definition term_of (f : InstructionFilter) (n : nat) : list Term :=
  match FilterTreeFacts.bit_at f n with Is0 => [ff n] | Is1 => [Minisat.tt n] | Wildcard => [] end.
Definition terms_of (f : InstructionFilter) : list Term := concat (term_of f <$> seq 0 (Filter.bit_len f)).
Lemma as_terms_eq f : (Filter.bit_len f <= 256)%nat → as_terms f = Ok (terms_of f).
Proof.
  intros Hf. unfold as_terms, terms_of. assert (Forall (λ n, n < Filter.bit_len f)%nat (seq 0 (Filter.bit_len f))) as Hr.
  { apply Forall_forall. intros n Hn%elem_of_seq. lia. }
  induction Hr as [|n l Hn Hl IH]; [done|]. cbn [as_terms_from]. rewrite nth_bit_at, M_bind_Ok, fmap_cons by done. cbn [concat].
  assert (as_term n (FilterTreeFacts.bit_at f n) = Ok (term_of f n)) as ->.
  { unfold as_term, term_of. destruct (FilterTreeFacts.bit_at f n); [| |done]; by rewrite (proj2 (Nat.ltb_lt n 256)) by lia. }
  by rewrite M_bind_Ok, IH.
Qed.
Lemma elem_of_terms f t : t ∈ terms_of f ↔ (var t < Filter.bit_len f)%nat ∧ FilterTreeFacts.bit_at f (var t) = if value t then Is1 else Is0.
Proof.
  unfold terms_of. rewrite elem_of_concat_fmap. split.
  - intros (n & Hn%elem_of_seq & Ht). unfold term_of in Ht.
    destruct (FilterTreeFacts.bit_at f n) eqn:E; [apply list_elem_of_singleton in Ht as ->..|by apply not_elem_of_nil in Ht]; split; cbn; done || lia.
  - intros [Hv Hb]. exists (var t). split; [apply elem_of_seq; lia|]. unfold term_of. rewrite Hb. destruct t as [v []]; cbn; by apply list_elem_of_singleton.
Qed.
Lemma terms_NoDup f : NoDup (var <$> terms_of f).
Proof.
  unfold terms_of. generalize 0%nat as a. induction (Filter.bit_len f) as [|n IH]; intros a; [constructor|]. cbn [seq]. rewrite fmap_cons. cbn [concat].
  assert (∀ v, v ∈ var <$> concat (term_of f <$> seq (S a) n) → (a < v)%nat) as Hgt.
  { intros v (t & -> & Ht)%list_elem_of_fmap. apply elem_of_concat_fmap in Ht as (k & Hk%elem_of_seq & Ht).
    unfold term_of in Ht. destruct (FilterTreeFacts.bit_at f k); [apply list_elem_of_singleton in Ht as ->; cbn; lia..|by apply not_elem_of_nil in Ht]. }
  unfold term_of at 1. destruct (FilterTreeFacts.bit_at f a); [| |apply IH]; cbn [app]; rewrite fmap_cons; (apply NoDup_cons; split; [|apply IH]); intros H%Hgt; cbn in H; lia.
Qed.
Lemma terms_match f σ : (∀ t, t ∈ terms_of f → σ (var t) = value t) ↔ bmatch (filter_bits f) σ = true.
Proof.
  rewrite bmatch_filter_iff. split.
  - intros H n Hn. destruct (FilterTreeFacts.bit_at f n) eqn:E; [| |done].
    + assert (σ n = false) as -> by (apply (H (ff n)); by apply elem_of_terms). done.
    + assert (σ n = true) as -> by (apply (H (Minisat.tt n)); by apply elem_of_terms). done.
  - intros H t [Hv Hb]%elem_of_terms. specialize (H _ Hv). rewrite Hb in H. destruct (value t); cbn in H; [done | by apply negb_true_iff].
Qed.
Lemma models_not f σ : models σ (Minisat.not <$> terms_of f) ↔ bmatch (filter_bits f) σ = false.
Proof.
  rewrite <- not_true_iff_false, <- terms_match. split.
  - intros (t & (u & -> & Hu)%list_elem_of_fmap & E) H. cbn in E. rewrite (H u Hu) in E. by destruct (value u).
  - intros H. destruct (decide (Exists (λ t, σ (var t) ≠ value t) (terms_of f))) as [(t & Ht & Hne)%Exists_exists|Hno].
    + exists (Minisat.not t). split; [by apply list_elem_of_fmap_2|]. cbn. by destruct (σ (var t)), (value t).
    + exfalso. apply H. intros t Ht. destruct (decide (σ (var t) = value t)) as [|Hne]; [done|]. exfalso. apply Hno, Exists_exists. eauto.
Qed.

(** ** The formula *)

Lemma foldl_assign_lookup ts : NoDup (var <$> ts) → ∀ a v, Forall (λ t, var t < length a)%nat ts →
  (∀ t, t ∈ ts → var t = v → foldl assign a ts !! v = Some (Some (value t))) ∧
  ((∀ t, t ∈ ts → var t ≠ v) → foldl assign a ts !! v = a !! v) ∧ length (foldl assign a ts) = length a.
Proof.
  induction ts as [|u ts IH]; intros Hnd a v Hr; cbn [foldl].
  { split; [by intros t ?%not_elem_of_nil | done]. }
  rewrite fmap_cons in Hnd. apply NoDup_cons in Hnd as [Hu Hnd]. apply Forall_cons in Hr as [Hru Hr].
  destruct (IH Hnd (assign a u) v) as (H1 & H2 & H3); [unfold assign; by rewrite length_insert|]. split; [|split].
  - intros t [->|Ht]%elem_of_cons E; [|by apply H1]. rewrite H2; [unfold assign; rewrite E in *; by rewrite list_lookup_insert_eq|].
    intros x Hx Ex. apply Hu. rewrite E, <- Ex. by apply list_elem_of_fmap_2.
  - intros H. rewrite H2 by (intros t Ht; apply H; by right). unfold assign. apply list_lookup_insert_ne. apply H. left.
  - rewrite H3. unfold assign. apply length_insert.
Qed.
(** The solver that [new_ex] builds. *)
Lemma solver_of f nms : (Filter.bit_len f <= 256)%nat → Forall (λ g, Filter.bit_len g <= Filter.bit_len f)%nat nms → ∃ sat0 sat,
  and_conjunction (Minisat.new (Filter.bit_len f)) (terms_of f) = Ok sat0 ∧ and_not_all sat0 nms = Ok sat ∧
  has_disjunction_of_conjunctions sat = false ∧ disjunction_of_conjunctions sat = [] ∧
  length (terms sat) = Filter.bit_len f ∧ disjunctions sat = (λ g, Minisat.not <$> terms_of g) <$> nms ∧
  (∀ v b, terms sat !! v = Some (Some b) ↔ (v < Filter.bit_len f)%nat ∧ FilterTreeFacts.bit_at f v = if b : bool then Is1 else Is0).
Proof.
  intros Hf Hn. assert (Forall (λ t, var t < length (replicate (Filter.bit_len f) (None (A := bool))))%nat (terms_of f)) as Hr.
  { apply Forall_forall. intros t [Ht _]%elem_of_terms. by rewrite length_replicate. }
  destruct (and_conjunction_eq (Minisat.new (Filter.bit_len f)) (terms_of f)) as (sat0 & E0 & Hd & Hc & Hh & _ & Ht); [done | done | apply terms_NoDup | |].
  { eapply Forall_impl; [exact Hr|]. cbn. intros t Hv. rewrite length_replicate in Hv. by rewrite lookup_replicate_2. }
  assert (∀ sat l, Forall (λ g, Filter.bit_len g <= 256)%nat l → and_not_all sat l =
    Ok {| terms := terms sat; disjunctions := disjunctions sat ++ ((λ g, Minisat.not <$> terms_of g) <$> l);
          disjunction_of_conjunctions := disjunction_of_conjunctions sat;
          has_disjunction_of_conjunctions := has_disjunction_of_conjunctions sat; unsat := unsat sat |}) as Hall.
  { intros sat l Hl. revert sat. induction Hl as [|g l Hg Hl IH]; intros sat; cbn [and_not_all].
    - rewrite app_nil_r. by destruct sat.
    - rewrite as_terms_eq, M_bind_Ok, IH by done. unfold and_not_conjunction. cbn [terms disjunctions disjunction_of_conjunctions has_disjunction_of_conjunctions unsat].
      by rewrite fmap_cons, <- app_assoc. }
  eexists sat0, _. split; [done|]. split; [apply Hall; eapply Forall_impl; [exact Hn | cbn; intros; lia]|].
  cbn [terms disjunctions disjunction_of_conjunctions has_disjunction_of_conjunctions]. rewrite Hd, Hc, Hh, Ht.
  pose proof (foldl_assign_lookup (terms_of f) (terms_NoDup f) _ 0%nat Hr) as (_ & _ & Hlen). cbn [terms Minisat.new] in *.
  split; [done|]. split; [done|]. split; [rewrite Hlen; apply length_replicate|]. split; [done|]. intros v b.
  destruct (foldl_assign_lookup (terms_of f) (terms_NoDup f) _ v Hr) as (H1 & H2 & _). split.
  - intros Hv. destruct (decide (Exists (λ t, var t = v) (terms_of f))) as [(t & Hin & Et)%Exists_exists|Hno].
    + rewrite (H1 t Hin Et) in Hv. injection Hv as <-. rewrite <- Et. by apply elem_of_terms.
    + rewrite H2 in Hv; [by apply lookup_replicate in Hv as [? _]|]. intros t Hin Et. apply Hno, Exists_exists. eauto.
  - intros [Hv Hb]. apply (H1 {| var := v; value := b |}); [|done]. by apply elem_of_terms.
Qed.

(** ** Simplification *)

(** The instructions for which filters of the length of [m] are compared, and those that
    match [m] and no exception. *)
Definition long (m : InstructionFilter) (i : Instruction) : Prop := instr_wf i ∧ (Filter.len m <= Instr.byte_len i)%nat.
Definition unexcepted (m : InstructionFilter) (nms : list InstructionFilter) (i : Instruction) : Prop :=
  Filter.matches m i = true ∧ ∀ nm, nm ∈ nms → Filter.matches nm i = false.
Section simplify.
Context {P : profile}.
Lemma exclude_all_eq nms : ∀ m changed, filter_wf m → Forall filter_wf nms → ∃ m' c, exclude_all m nms changed = Ok (m', c) ∧
  filter_wf m' ∧ Filter.len m' = Filter.len m ∧
  ((c = changed ∧ m' = m) ∨ (c = true ∧ (Filter.num_wildcard_bits m' < Filter.num_wildcard_bits m)%nat)) ∧
  ∀ i, long m i → unexcepted m' nms i ↔ unexcepted m nms i.
Proof.
  induction nms as [|nm nms IH]; intros m changed Hm Hw; cbn [exclude_all].
  { exists m, changed. do 3 (split; [done|]). split; [by left | done]. }
  apply Forall_cons in Hw as [Hnm Hw]. destruct (try_exclude_result m nm Hm Hnm) as (r & -> & Hr). rewrite M_bind_Ok. destruct r as [f|].
  - destruct Hr as (Hf & Hl & Hwild & Hsub & Hsup). destruct (IH f true Hf Hw) as (m' & c & E & Hm' & Hl' & Hc & Hi).
    exists m', c. split; [done|]. split; [done|]. split; [congruence|]. split.
    + right. destruct Hc as [[-> ->]|[-> H]]; split; done || lia.
    + intros i [Hwf Hlen]. assert (long f i) as Hlf by (split; [done | by rewrite Hl]). specialize (Hi i Hlf). unfold unexcepted in *.
      setoid_rewrite elem_of_cons. split.
      * intros [H1 H2]. destruct (proj1 Hi) as [H3 H4]; [split; [done | intros; apply H2; by right]|].
        apply Hsub in H3 as [H3 H5]; [|done]. split; [done|]. intros x [->|Hx]; [done | by apply H4].
      * intros [H1 H2]. destruct (proj2 Hi) as [H3 H4]; [split; [apply Hsup; [done | by rewrite Hl | done | apply H2; by left] | intros; apply H2; by right]|].
        split; [done | exact H2].
  - destruct (IH m changed Hm Hw) as (m' & c & E & Hm' & Hl' & Hc & Hi). exists m', c. do 4 (split; [done|]).
    intros i Hlong. specialize (Hi i Hlong). unfold unexcepted in *. setoid_rewrite elem_of_cons. split; intros [H1 H2].
    + destruct (proj1 Hi) as [H3 H4]; [split; [done | intros; apply H2; by right]|]. done.
    + destruct (proj2 Hi) as [H3 H4]; [split; [done | intros; apply H2; by right]|]. done.
Qed.
Definition simplified (m : InstructionFilter) (nms : list InstructionFilter) (r : option (InstructionFilter * list InstructionFilter)) : Prop :=
  match r with
  | None => ∀ i, long m i → ¬ unexcepted m nms i
  | Some (m', nms') => filter_wf m' ∧ Filter.len m' = Filter.len m ∧ Forall filter_wf nms' ∧
      Forall (λ f, Filter.len f <= Filter.len m)%nat nms' ∧ Forall (λ f, Filter.overlaps f m' = true) nms' ∧
      ∀ i, long m i → unexcepted m' nms' i ↔ unexcepted m nms i
  end.
Lemma retain_overlaps m nms i : filter_wf m → Forall filter_wf nms → instr_wf i →
  unexcepted m (List.filter (λ f, Filter.overlaps f m) nms) i ↔ unexcepted m nms i.
Proof.
  intros Hm Hw Hi. unfold unexcepted. split; intros [H1 H2]; (split; [done|]); intros nm Hnm.
  - destruct (Filter.overlaps nm m) eqn:E.
    + apply H2. rewrite list_elem_of_In, List.filter_In, <- list_elem_of_In. done.
    + apply not_true_iff_false. intros Hc. rewrite Forall_forall in Hw.
      rewrite (filter_overlaps_sound nm m (Hw nm Hnm) Hm i Hi Hc H1) in E. done.
  - apply H2. rewrite list_elem_of_In, List.filter_In, <- list_elem_of_In in Hnm. tauto.
Qed.
Lemma filter_length_eq {A} (p : A → bool) l : length (List.filter p l) = length l → List.filter p l = l.
Proof.
  induction l as [|x l IH]; [done|]. cbn [List.filter]. destruct (p x); cbn [length]; [intros [= H]; by rewrite IH|].
  pose proof (List.filter_length_le p l). lia.
Qed.
(** Retaining and merging: fewer filters, or the same number and all of them overlap. *)
Lemma prepare_eq merge m nms : filter_wf m → Forall filter_wf nms → (Filter.len m <= 15)%nat → Forall (λ f, Filter.len f <= Filter.len m)%nat nms →
  let kept := List.filter (λ f, Filter.overlaps f m) nms in
  let changed := negb (length nms =? length kept)%nat in
  ∃ nms' c, (if merge : bool then
               nonmatching ← Filter.merge_filters kept; Ok (nonmatching, changed || negb (length kept =? length nonmatching)%nat)
             else Ok (kept, changed)) = Ok (nms', c) ∧
    Forall filter_wf nms' ∧ Forall (λ f, Filter.len f <= Filter.len m)%nat nms' ∧ Forall (λ f, Filter.overlaps f m = true) nms' ∧
    (length nms' <= length nms)%nat ∧ (c = true → (length nms' < length nms)%nat) ∧
    ∀ i, long m i → unexcepted m nms' i ↔ unexcepted m nms i.
Proof.
  intros Hm Hw Hl15 Hl kept changed. pose proof (List.filter_length_le (λ f, Filter.overlaps f m) nms) as Hle. fold kept in Hle.
  assert (Forall filter_wf kept ∧ Forall (λ f, Filter.len f <= Filter.len m)%nat kept ∧ Forall (λ f, Filter.overlaps f m = true) kept) as (Kw & Kl & Ko).
  { unfold kept. rewrite !Forall_forall in *. split_and!; intros f Hf; rewrite list_elem_of_In, List.filter_In, <- list_elem_of_In in Hf; naive_solver. }
  assert (∀ i, long m i → unexcepted m kept i ↔ unexcepted m nms i) as Ki by (intros i [Hi _]; by apply retain_overlaps).
  assert (changed = true → (length kept < length nms)%nat) as Hch.
  { unfold changed. rewrite negb_true_iff, Nat.eqb_neq. lia. }
  destruct merge; [|exists kept, changed; do 4 (split; [done|]); split; [lia | by split]].
  destruct (merge_from_result kept []) as (r & Er & Hk & _); [by rewrite app_nil_r | constructor|]. rewrite app_nil_r in *.
  unfold Filter.merge_filters. rewrite Er, M_bind_Ok. destruct Hk as [Hkw Hkc Hkl Hku Hkn]. eexists _, _. split; [done|].
  split; [by apply Hkw|]. split; [|split; [|split; [|split]]].
  - rewrite Forall_forall in *. intros f (g & Hg & -> & _)%Hkl. by apply Kl.
  - rewrite Forall_forall in *. intros f Hf. destruct (Hkl f Hf) as (g & Hg & Hlen & Hsub).
    destruct (filter_overlaps_complete g m (Kw g Hg) Hm) as (i & Hi & Hgi & Hmi); [specialize (Kl g Hg); cbn in Kl; lia | done | by apply Ko|].
    pose proof (Hkw Kw) as Hrw. rewrite Forall_forall in Hrw.
    apply (filter_overlaps_sound f m (Hrw f Hf) Hm i Hi); [by apply Hsub | done].
  - lia.
  - intros [H%Hch|H]%orb_true_iff; [lia|]. rewrite negb_true_iff, Nat.eqb_neq in H. lia.
  - intros i [Hi Hlen]. rewrite <- Ki by done. unfold unexcepted. split; intros [H1 H2]; (split; [done|]); intros f Hf; apply not_true_iff_false; intros Hc.
    + destruct (Hku Kw i f Hi Hf Hc) as (f' & Hf' & Hm'). by rewrite H2 in Hm'.
    + destruct (Hkn Kw i Hi) with f as (g & Hg & Hgm); [|done..|by rewrite H2 in Hgm]. intros g Hg. rewrite Forall_forall in Kl. specialize (Kl g Hg). cbn in Kl. lia.
Qed.
Lemma simplify_eq merge fuel : ∀ m nms, filter_wf m → Forall filter_wf nms → (Filter.len m <= 15)%nat → Forall (λ f, Filter.len f <= Filter.len m)%nat nms →
  (length nms + Filter.num_wildcard_bits m < fuel)%nat → ∃ r, simplify fuel merge m nms = Ok r ∧ simplified m nms r.
Proof.
  induction fuel as [|fuel IH]; intros m nms Hm Hw Hl15 Hl Hfuel; [lia|]. cbn [simplify].
  destruct (existsb (λ f, Filter.covers f m) nms) eqn:Ec.
  { exists None. split; [done|]. intros i [Hi _] [H1 H2]. apply List.existsb_exists in Ec as (f & Hf%list_elem_of_In & Hc).
    rewrite Forall_forall in Hw. specialize (H2 f Hf). by rewrite (filter_covers_sound f m (Hw f Hf) Hm i Hi Hc H1) in H2. }
  destruct (prepare_eq merge m nms Hm Hw Hl15 Hl) as (nms' & c & -> & Hw' & Hl' & Ho' & Hle & Hlt & Hi'). rewrite M_bind_Ok.
  destruct (exclude_all_eq nms' m c Hm Hw') as (m' & c' & -> & Hm' & Hlm' & Hc' & Hi''). rewrite M_bind_Ok.
  assert (∀ i, long m i → unexcepted m' nms' i ↔ unexcepted m nms i) as Hboth by (intros i Hi; by rewrite Hi'', Hi').
  destruct c'.
  - destruct (IH m' nms' Hm' Hw') as (r & Er & Hr); [by rewrite Hlm' | by rewrite Hlm' | destruct Hc' as [[<- ->]|[_ H]]; [specialize (Hlt eq_refl)|]; lia|].
    exists r. split; [done|]. unfold simplified in *. unfold long in Hr. rewrite Hlm' in Hr. destruct r as [[m2 nms2]|].
    + destruct Hr as (H1 & H2 & H3 & H4 & H5 & H6). do 5 (split; [done|]). intros i Hi. by rewrite H6, Hboth.
    + intros i Hi Hu. apply (Hr i Hi). by apply Hboth.
  - exists (Some (m', nms')). split; [done|]. destruct Hc' as [[_ ->]|[? _]]; [|done]. by split_and!.
Qed.
End simplify.

(** ** The instruction of a model *)

Lemma set_conf_eq conf : ∀ i k, instr_wf i → (k + length conf <= 8 * Instr.byte_len i)%nat → ∃ r, set_bits i k conf = Ok r ∧ instr_wf r ∧
  Instr.byte_len r = Instr.byte_len i ∧
  ∀ j, stream_of r j = if (k <=? j)%nat && (j <? k + length conf)%nat then GrowingFacts.bit_at conf (j - k) else stream_of i j.
Proof.
  induction conf as [|b conf IH]; intros i k Hi Hk; cbn [set_bits length] in *.
  { exists i. split; [done|]. split; [done|]. split; [done|]. intros j. destruct (Nat.leb_spec k j), (Nat.ltb_spec j (k + 0)); cbn [andb]; done || lia. }
  assert (Instr.is_bit (Z.b2z b) = true) as Hb by (by destruct b). pose proof (byte_len_wf i Hi) as Hlen.
  destruct (with_nth_bit_from_left_ok i k (Z.b2z b) Hi ltac:(lia) Hb) as (p & -> & Hp & Ep). rewrite M_bind_Ok.
  assert (Instr.byte_len p = Instr.byte_len i) as Hpl by (unfold Instr.byte_len; by rewrite Ep, length_insert).
  destruct (IH p (k + 1)%nat Hp ltac:(lia)) as (r & Er & Hr & Hrl & Hs). exists r. split; [done|]. split; [done|]. split; [congruence|].
  destruct (bytes_wf i Hi) as [Hbytes _].
  intros j. rewrite Hs. assert (stream_of p j = if (j =? k)%nat then b else stream_of i j) as ->.
  { unfold stream_of. rewrite Ep, lbit_set by (done || unfold Instr.byte_len in *; lia). by destruct b. }
  destruct (Nat.eqb_spec j k) as [->|Hne].
  - rewrite (proj2 (Nat.leb_gt (k + 1) k)) by lia. cbn [andb]. rewrite (proj2 (Nat.leb_le k k)), (proj2 (Nat.ltb_lt k _)) by lia. cbn [andb]. by rewrite Nat.sub_diag.
  - destruct (Nat.leb_spec (k + 1) j), (Nat.leb_spec k j), (Nat.ltb_spec j (k + 1 + length conf)), (Nat.ltb_spec j (k + S (length conf))); cbn [andb]; try done; try lia.
    replace (j - k)%nat with (S (j - (k + 1))) by lia. done.
Qed.
(** Filters that overlap have no bit fixed to different values. *)
Lemma overlaps_bits f g n (b : bool) : filter_wf f → filter_wf g → Filter.overlaps f g = true →
  (n < Filter.bit_len f)%nat → (n < Filter.bit_len g)%nat →
  FilterTreeFacts.bit_at f n = (if b then Is1 else Is0) → FilterTreeFacts.bit_at g n ≠ if b then Is0 else Is1.
Proof.
  intros Hf Hg Ho Hn1 Hn2. unfold Filter.bit_len in *.
  destruct (lookup_lt_is_Some_2 (bfs f) (n / 8)) as [x Hx]; [apply Nat.Div0.div_lt_upper_bound; lia|].
  destruct (lookup_lt_is_Some_2 (bfs g) (n / 8)) as [y Hy]; [apply Nat.Div0.div_lt_upper_bound; lia|].
  rewrite filter_overlaps_iff in Ho. specialize (Ho (n / 8)%nat x y Hx Hy).
  rewrite can_intersect_iff in Ho by eauto using wf_lookup.
  pose proof (Nat.mod_upper_bound n 8 ltac:(lia)). specialize (Ho (Z.of_nat (7 - n `mod` 8)) ltac:(lia)).
  rewrite (bit_at_spec f n x Hx), (bit_at_spec g n y Hy). cbv zeta.
  destruct (Z.testbit (Filter.mask x) _), (Z.testbit (Filter.mask y) _); try (by destruct b); rewrite Ho by done; by destruct (Z.testbit (Filter.value y) _), b.
Qed.

(** ** The constructor *)

(** The formula of the solver says that [m] matches and none of [nms] does. *)
Lemma formula_iff m nms sat σ : disjunctions sat = (λ g, Minisat.not <$> terms_of g) <$> nms → length (terms sat) = Filter.bit_len m →
  (∀ v b, terms sat !! v = Some (Some b) ↔ (v < Filter.bit_len m)%nat ∧ FilterTreeFacts.bit_at m v = if b : bool then Is1 else Is0) →
  satisfies σ sat ↔ bmatch (filter_bits m) σ = true ∧ ∀ nm, nm ∈ nms → bmatch (filter_bits nm) σ = false.
Proof.
  intros Hd Hl Ht. unfold satisfies, extends. rewrite Hd, <- terms_match. split; intros [H1 H2]; split.
  - intros t Hin%elem_of_terms. by apply H1, Ht.
  - intros nm Hnm. apply models_not, H2. by apply (list_elem_of_fmap_2 (λ g, Minisat.not <$> terms_of g)).
  - intros v b Hv%Ht. by apply (H1 {| var := v; value := b |}), elem_of_terms.
  - intros d (nm & -> & Hnm)%list_elem_of_fmap. by apply models_not, H2.
Qed.
Lemma not_satisfied m nms sat : filter_wf m → Forall filter_wf nms → Forall (λ f, Filter.overlaps f m = true) nms →
  disjunctions sat = (λ g, Minisat.not <$> terms_of g) <$> nms →
  (∀ v b, terms sat !! v = Some (Some b) ↔ (v < Filter.bit_len m)%nat ∧ FilterTreeFacts.bit_at m v = if b : bool then Is1 else Is0) →
  ∀ d, d ∈ disjunctions sat → satisfiedb (terms sat) d = false.
Proof.
  intros Hm Hw Ho Hd Ht d Hin. rewrite Hd in Hin. apply list_elem_of_fmap in Hin as (nm & -> & Hnm). rewrite Forall_forall in Hw, Ho.
  apply not_true_iff_false. rewrite satisfiedb_iff. intros (t & (u & -> & [Hu Eu]%elem_of_terms)%list_elem_of_fmap & [Hv Hb]%Ht). cbn [var value Minisat.not] in *.
  eapply (overlaps_bits nm m (var u) (value u)); [eauto.. | exact Eu |]. by destruct (value u).
Qed.
(** The instruction whose bits are [conf]. *)
Lemma instr_of_bits n conf : (n <= 15)%nat → length conf = (n * 8)%nat → ∃ i0 i, Instr.new (replicate (n * 8 / 8) 0) = Ok i0 ∧
  set_bits i0 0 conf = Ok i ∧ instr_wf i ∧ Instr.byte_len i = n ∧ ∀ j, (j < n * 8)%nat → stream_of i j = GrowingFacts.bit_at conf j.
Proof.
  intros Hn Hl. rewrite Nat.div_mul by lia. pose proof (InstructionFacts.new_ok (replicate n 0)) as E0. rewrite length_replicate in E0.
  specialize (E0 ltac:(unfold Instr.MAX_LEN; lia)).
  destruct (InstructionFacts.new_wf (replicate n 0) _ ltac:(apply Forall_replicate; by split) E0) as [Hw Hb].
  destruct (set_conf_eq conf _ 0%nat Hw) as (i & Ei & Hi & Hlen & Hs); [unfold Instr.byte_len; rewrite Hb, length_replicate; lia|].
  eexists _, i. split; [exact E0|]. split; [exact Ei|]. split; [done|]. split; [rewrite Hlen; unfold Instr.byte_len; by rewrite Hb, length_replicate|].
  intros j Hj. rewrite Hs. cbn [Nat.leb andb]. rewrite (proj2 (Nat.ltb_lt j (0 + length conf))) by lia. by rewrite Nat.sub_0_r.
Qed.
Lemma bmatch_agree f σ τ : (∀ j, (j < Filter.bit_len f)%nat → σ j = τ j) → bmatch (filter_bits f) σ = bmatch (filter_bits f) τ.
Proof.
  intros H. apply eq_true_iff_eq. rewrite !bmatch_filter_iff. split; intros Hm n Hn; specialize (Hm n Hn); [rewrite <- H | rewrite H]; done.
Qed.
Lemma ext_matches_iff m nms i0 i : matches {| matching := m; nonmatching := nms; matching_instr := i0 |} i = true ↔ unexcepted m nms i.
Proof.
  unfold matches, unexcepted. cbn [matching nonmatching]. rewrite andb_true_iff, negb_true_iff, <- not_true_iff_false, List.existsb_exists. split; intros [H1 H2]; (split; [done|]).
  - intros nm Hnm. apply not_true_iff_false. intros Hc. apply H2. exists nm. by rewrite <- list_elem_of_In.
  - intros (nm & Hnm%list_elem_of_In & Hc). by rewrite H2 in Hc.
Qed.
Lemma unexcepted_stream m nms i : filter_wf m → Forall filter_wf nms → Forall (λ f, Filter.len f <= Filter.len m)%nat nms → long m i →
  unexcepted m nms i ↔ bmatch (filter_bits m) (stream_of i) = true ∧ ∀ nm, nm ∈ nms → bmatch (filter_bits nm) (stream_of i) = false.
Proof.
  intros Hm Hw Hl [Hi Hlen]. unfold unexcepted. rewrite matches_stream by done. rewrite Forall_forall in Hw, Hl.
  apply and_iff_compat_l. split; intros H nm Hnm; specialize (H nm Hnm); specialize (Hl nm Hnm); cbn in Hl;
    [rewrite <- matches_stream | rewrite matches_stream]; try done; auto; unfold Filter.byte_len, Filter.len in *; lia.
Qed.

Section construct.
Context {P : profile}.
(** What the constructor promises for the filter [m] and the exceptions [nms]. *)
Definition constructed (m : InstructionFilter) (nms : list InstructionFilter) (r : option ExtendedFilter) : Prop :=
  match r with
  | Some e => long m (matching_instr e) ∧ Instr.byte_len (matching_instr e) = Filter.len m ∧ unexcepted m nms (matching_instr e) ∧
      ∀ i, long m i → matches e i = true ↔ unexcepted m nms i
  | None => ∀ i, long m i → ¬ unexcepted m nms i
  end.
(** After the simplification: the solver, and the instruction of its model. *)
Lemma solved_eq m nms : filter_wf m → (Filter.len m <= 15)%nat → Forall filter_wf nms → Forall (λ f, Filter.len f <= Filter.len m)%nat nms →
  Forall (λ f, Filter.overlaps f m = true) nms → ∃ k r, constructed m nms r ∧ ∀ fuel, (k <= fuel)%nat →
  (t ← as_terms m; sat ← and_conjunction (Minisat.new (Filter.bit_len m)) t; sat ← and_not_all sat nms; '(_, r) ← solve fuel sat;
   match r with
   | Sat conf =>
       instr ← Instr.new (replicate (Filter.bit_len m / 8) 0); bits ← Growing.iter conf; instr ← set_bits instr 0 bits;
       let extended_filter := {| matching := m; nonmatching := nms; matching_instr := instr |} in
       debug_assert! matches extended_filter instr; Ok (Some extended_filter)
   | Unsat => Ok None
   end) = Ok r.
Proof.
  intros Hm H15 Hw Hl Ho. assert (Filter.bit_len m = Filter.len m * 8)%nat as Ebl by done.
  assert (Forall (λ g, Filter.bit_len g <= Filter.bit_len m)%nat nms) as Hbl.
  { eapply Forall_impl; [exact Hl|]. cbn. intros g. unfold Filter.bit_len, Filter.len. lia. }
  destruct (solver_of m nms ltac:(lia) Hbl) as (sat0 & sat & E0 & E1 & Hc & Hcs & Hlen & Hd & Ht).
  destruct (solve_decided sat Hc Hcs) as (k & sat' & r & Hk & Hr).
  { rewrite Hd, Forall_fmap. eapply Forall_impl; [exact Hbl|]. cbn. intros g Hg. unfold in_range. rewrite Forall_fmap, Forall_forall.
    intros t [Hv _]%elem_of_terms. cbn. lia. }
  assert (∀ σ, satisfies σ sat ↔ bmatch (filter_bits m) σ = true ∧ ∀ nm, nm ∈ nms → bmatch (filter_bits nm) σ = false) as Hf
    by (intros σ; by apply formula_iff).
  destruct r as [conf|].
  - destruct Hr as (l & Hl1 & Hl2 & Hs). destruct (instr_of_bits (Filter.len m) l H15 ltac:(lia)) as (i0 & i & Ei0 & Ei & Hi & Hil & Hbits).
    assert (long m i) as Hlong by (split; [done | lia]).
    assert (unexcepted m nms i) as Hu.
    { apply unexcepted_stream; [done..|]. apply Hf in Hs as [H1 H2]. rewrite Forall_forall in Hbl. split.
      - rewrite <- H1. apply bmatch_agree. intros j Hj. apply Hbits. lia.
      - intros nm Hnm. rewrite <- (H2 nm Hnm). apply bmatch_agree. intros j Hj. apply Hbits. specialize (Hbl nm Hnm). cbn in Hbl. lia. }
    exists k, (Some {| matching := m; nonmatching := nms; matching_instr := i |}). split.
    + split; [done|]. split; [done|]. split; [done|]. intros j _. apply ext_matches_iff.
    + intros fuel Hfuel. rewrite as_terms_eq, M_bind_Ok, E0, M_bind_Ok, E1, M_bind_Ok, (Hk fuel Hfuel), M_bind_Ok by lia.
      rewrite Ebl, Ei0, M_bind_Ok, (iter_eq _ _ Hl1), M_bind_Ok, Ei, M_bind_Ok. cbv zeta.
      assert (matches {| matching := m; nonmatching := nms; matching_instr := i |} i = true) as -> by (by apply ext_matches_iff).
      unfold debug_assert. by destruct P.
  - exists k, None. split.
    + intros i Hi Hu. apply (Hr (not_satisfied m nms sat Hm Hw Ho Hd Ht) (stream_of i)), Hf. by apply unexcepted_stream.
    + intros fuel Hfuel. by rewrite as_terms_eq, M_bind_Ok, E0, M_bind_Ok, E1, M_bind_Ok, (Hk fuel Hfuel), M_bind_Ok by lia.
Qed.
Lemma new_ex_constructed m nms merge : filter_wf m → (Filter.len m <= 15)%nat → Forall filter_wf nms →
  Forall (λ f, Filter.len f <= Filter.len m)%nat nms →
  ∃ k r, (∀ fuel, (k <= fuel)%nat → new_ex fuel m nms merge = Ok r) ∧ constructed m nms r.
Proof.
  intros Hm H15 Hw Hl. destruct (simplify_eq merge (S (length nms + Filter.num_wildcard_bits m)) m nms Hm Hw H15 Hl ltac:(lia)) as (s & Es & Hs).
  unfold new_ex. setoid_rewrite Es. setoid_rewrite M_bind_Ok. destruct s as [[m' nms']|].
  - destruct Hs as (Hm' & Hlen & Hw' & Hl' & Ho' & Hi). destruct (solved_eq m' nms') as (k & r & Hr & Hk); [done | by rewrite Hlen | done | by rewrite Hlen | done|].
    exists k, r. split; [exact Hk|]. unfold constructed, long in Hr. rewrite Hlen in Hr. destruct r as [e|].
    + destruct Hr as (H1 & H2 & H3 & H4). split; [done|]. split; [done|]. split; [by apply Hi|]. intros i Hlong. rewrite H4 by done. by apply Hi.
    + intros i Hlong Hu. by apply (Hr i Hlong), Hi.
  - exists 0%nat, None. split; [done|]. exact Hs.
Qed.

(** C14: [ExtendedFilter::new_ex] ends for filters of at most 15 bytes whose exceptions are
    not longer.  It returns a filter exactly if some instruction matches without an
    exception: the filter then has the same instructions as the arguments, and
    [matching_instr] is one of them. *)
Theorem new_ex_spec m nms merge : filter_wf m → (Filter.len m <= 15)%nat → Forall filter_wf nms →
  Forall (λ f, Filter.len f <= Filter.len m)%nat nms →
  ∃ k r, (∀ fuel, (k <= fuel)%nat → new_ex fuel m nms merge = Ok r) ∧
  match r with
  | Some e => instr_wf (matching_instr e) ∧ Instr.byte_len (matching_instr e) = Filter.len m ∧ matches e (matching_instr e) = true ∧
      ∀ i, instr_wf i → (Filter.len m <= Instr.byte_len i)%nat →
        matches e i = Filter.matches m i && negb (existsb (λ nm, Filter.matches nm i) nms)
  | None => ∀ i, instr_wf i → (Filter.len m <= Instr.byte_len i)%nat → Filter.matches m i = true → existsb (λ nm, Filter.matches nm i) nms = true
  end.
Proof.
  intros Hm H15 Hw Hl. destruct (new_ex_constructed m nms merge Hm H15 Hw Hl) as (k & r & Hk & Hr). exists k, r. split; [done|]. destruct r as [e|].
  - destruct Hr as ([Hi Hlen] & El & Hu & He). do 2 (split; [done|]). split; [by apply He|]. intros i Hwi Hli. apply eq_true_iff_eq.
    rewrite He by done. symmetry. apply (ext_matches_iff m nms i i).
  - intros i Hwi Hli Hmi. apply not_false_iff_true. intros Hno. apply (Hr i); [done|]. rewrite <- (ext_matches_iff m nms i). unfold matches. cbn [matching nonmatching].
    by rewrite Hmi, Hno.
Qed.
(** [find_uncovered_instr] ends and decides whether covering filters that are not longer
    cover a filter: its instruction matches the filter and none of them, and without
    one every instruction that matches the filter matches one of them. *)
Theorem find_uncovered_instr_spec m nms : filter_wf m → (Filter.len m <= 15)%nat → Forall filter_wf nms →
  Forall (λ f, Filter.len f <= Filter.len m)%nat nms →
  ∃ k r, (∀ fuel, (k <= fuel)%nat → find_uncovered_instr fuel m nms = Ok r) ∧
  match r with
  | Some i => Filter.matches m i = true ∧ ∀ nm, nm ∈ nms → Filter.matches nm i = false
  | None => ∀ i, instr_wf i → (Filter.len m <= Instr.byte_len i)%nat → Filter.matches m i = true → ∃ nm, nm ∈ nms ∧ Filter.matches nm i = true
  end.
Proof.
  intros Hm H15 Hw Hl. destruct (new_ex_constructed m nms false Hm H15 Hw Hl) as (k & r & Hk & Hr). exists k, (option_map matching_instr r).
  split; [intros fuel Hf; unfold find_uncovered_instr; by rewrite Hk|]. destruct r as [e|]; cbn [option_map].
  - destruct Hr as (_ & _ & Hu & _). exact Hu.
  - intros i Hwi Hli Hmi. destruct (decide (Exists (λ nm, Filter.matches nm i = true) nms)) as [(nm & ?)%Exists_exists|Hno]; [by exists nm|].
    exfalso. apply (Hr i); [done|]. split; [done|]. intros nm Hnm. apply not_true_iff_false. intros Hc. apply Hno, Exists_exists. eauto.
Qed.
End construct.

(** An exception longer than the filter makes the solver index past its variables: the
    call panics although the instruction [00 01] matches the filter and not the
    exception. *)
Definition byte_filter (bytes : list (Z * Z)) : InstructionFilter := {| bfs := (λ b, {| mask := b.1; Filter.value := b.2 |}) <$> bytes |}.
Theorem new_ex_longer_panics :
  @find_uncovered_instr Dev 100 (byte_filter [(0xff, 0)]) [byte_filter [(0xff, 0); (0xff, 0)]] = Panic.
Proof. vm_compute. reflexivity. Qed.

(** ** Witnesses *)

(** [0000____] but not [0000__00] and not [000000__] leaves [00000101], for instance. *)
Definition low_nibble : InstructionFilter := byte_filter [(0xf0, 0)].
Definition exceptions : list InstructionFilter := [byte_filter [(0xf3, 0)]; byte_filter [(0xfc, 0)]].
Lemma exceptions_wf : Forall filter_wf exceptions ∧ Forall (λ f, Filter.len f <= Filter.len low_nibble)%nat exceptions.
Proof. split; do 2 (apply Forall_cons; split; [filter_wf || (cbn; lia)|]); constructor. Qed.
Lemma new_ex_spec_witness : ∃ k e, (∀ fuel, (k <= fuel)%nat → @new_ex Dev fuel low_nibble exceptions true = Ok (Some e)) ∧
  matches e (example_instr [0x05]) = true ∧ matches e (example_instr [0x01]) = false.
Proof.
  destruct exceptions_wf as [Hw Hl].
  destruct (new_ex_spec (P := Dev) low_nibble exceptions true ltac:(filter_wf) ltac:(cbn; lia) Hw Hl) as (k & [e|] & Hk & Hr).
  - destruct Hr as (_ & _ & _ & H). exists k, e. split; [done|]. split; (rewrite H; [reflexivity | example_wf | cbn; lia]).
  - specialize (Hr (example_instr [0x05]) ltac:(example_wf) ltac:(cbn; lia) eq_refl). discriminate Hr.
Defined.
Lemma find_uncovered_instr_spec_witness : ∃ k i, (∀ fuel, (k <= fuel)%nat → @find_uncovered_instr Dev fuel low_nibble exceptions = Ok (Some i)) ∧
  Filter.matches low_nibble i = true.
Proof.
  destruct exceptions_wf as [Hw Hl].
  destruct (find_uncovered_instr_spec (P := Dev) low_nibble exceptions ltac:(filter_wf) ltac:(cbn; lia) Hw Hl) as (k & [i|] & Hk & Hr).
  - exists k, i. split; [done | apply Hr].
  - destruct (Hr (example_instr [0x05]) ltac:(example_wf) ltac:(cbn; lia) eq_refl) as (nm & Hnm & Hm). exfalso.
    unfold exceptions in Hnm. apply elem_of_cons in Hnm as [-> | ->%list_elem_of_singleton]; discriminate Hm.
Defined.
