(* ===== verification/Counter.v ===== *)
(** * The instruction counter

    Models [liblisa/src/instr/counter.rs]: a position in instruction space that moves
    on by one, is extended or shortened, and skips the instructions that a list of
    filters matches.  The counter is passed and returned by every function that
    changes it.  [apply_filters_to_current] loops until no filter matches and takes
    fuel for its iterations; [println!] and [info!] are left out. *)
From S2P Require Import Prelude MachInt Instruction Filter FilterTree FilterSets.

Module Counter.
Record InstructionCounter := { data : list Z; len : nat; end_ : option Instruction; tunnel_pos : Z; num_tunneled : Z }.

Definition with_data (self : InstructionCounter) (d : list Z) : InstructionCounter :=
  {| data := d; len := len self; end_ := end_ self; tunnel_pos := tunnel_pos self; num_tunneled := num_tunneled self |}.
Definition with_len (self : InstructionCounter) (n : nat) : InstructionCounter :=
  {| data := data self; len := n; end_ := end_ self; tunnel_pos := tunnel_pos self; num_tunneled := num_tunneled self |}.
Definition with_tunnel_pos (self : InstructionCounter) (p : Z) : InstructionCounter :=
  {| data := data self; len := len self; end_ := end_ self; tunnel_pos := p; num_tunneled := num_tunneled self |}.
Definition with_num_tunneled (self : InstructionCounter) (n : Z) : InstructionCounter :=
  {| data := data self; len := len self; end_ := end_ self; tunnel_pos := tunnel_pos self; num_tunneled := n |}.
Definition set_end (self : InstructionCounter) (e : option Instruction) : InstructionCounter :=
  {| data := data self; len := len self; end_ := e; tunnel_pos := tunnel_pos self; num_tunneled := num_tunneled self |}.

(** [data[0..src.len()].copy_from_slice(src)] *)
Definition copy_front (d src : list Z) : M (list Z) :=
  assert! (length src <=? length d)%nat; Ok (src ++ drop (length src) d).
(** [data[i]] for an index that may have wrapped around. *)
Definition index (d : list Z) (i : Z) : M Z := assert! (i <? Z.of_nat (length d)); vget d (Z.to_nat i).

Definition current (self : InstructionCounter) : M Instruction :=
  assert! (len self <=? length (data self))%nat; Instr.new (take (len self) (data self)).

Section ops.
Context {P : profile}.

Definition set_current (self : InstructionCounter) (instr : Instruction) : M InstructionCounter :=
  d ← copy_front (data self) (Instr.bytes instr);
  p ← sub_u 64 (Z.of_nat (Instr.byte_len instr)) 1;
  Ok (with_tunnel_pos (with_len (with_data self d) (Instr.byte_len instr)) p).
Definition range (start : Instruction) (e : option Instruction) : M InstructionCounter :=
  p ← sub_u 64 (Z.of_nat (Instr.byte_len start)) 1;
  let result := {| data := replicate 32 0; len := Instr.byte_len start; end_ := e; tunnel_pos := p; num_tunneled := 0 |} in
  d ← copy_front (data result) (Instr.bytes start);
  Ok (with_data result d).

Definition extend_internal (self : InstructionCounter) (fast_tunnel : bool) : M InstructionCounter :=
  d ← vset (data self) (len self) 0;
  let self := with_len (with_data self d) (len self + 1) in
  if negb fast_tunnel then Ok (with_num_tunneled (with_tunnel_pos self (Z.of_nat (len self) - 1)) 0) else Ok self.

(** The loop of [next_single]: the position [i] is [tunnel_pos].  The result says whether
    the counter did not overflow. *)
Fixpoint next_loop (self : InstructionCounter) (i : nat) : M (InstructionCounter * bool) :=
  v ← vget (data self) i;
  if v <? 255 then
    d ← vset (data self) i (v + 1); Ok (with_tunnel_pos (with_data self d) (Z.of_nat i), true)
  else
    match i with
    | O => Ok (with_tunnel_pos (with_data self (replicate (length (data self)) 0xff)) 0, false)
    | S j => d ← vset (data self) i 0; next_loop (with_data self d) j
    end.
Definition next_single (self : InstructionCounter) : M (InstructionCounter * bool) :=
  _ ← index (data self) (tunnel_pos self);
  '(self, ok) ← next_loop self (Z.to_nat (tunnel_pos self));
  if ok : bool then
    match end_ self with
    | Some e => c ← current self; Ok (self, match Instr.cmp c e with Gt => false | _ => true end)
    | None => Ok (self, true)
    end
  else Ok (self, false).

(** [while filters.should_extend(&self.current()) { self.extend_internal(false); }]: the
    current instruction has at most 15 bytes, so the loop has at most 16 iterations. *)
Fixpoint extend_while (fuel : nat) (filters : FilterList) (self : InstructionCounter) : M InstructionCounter :=
  c ← current self;
  if FList.should_extend filters c then
    match fuel with
    | O => OutOfFuel
    | S fuel => self ← extend_internal self false; extend_while fuel filters self
    end
  else Ok self.
(** [while tree.len() >= 0x100_0000 { tree.prune(&self.current()); }] *)
Fixpoint prune_while (fuel : nat) (tree : FilterTree) (c : Instruction) : M FilterTree :=
  if 0x1000000 <=? Z.of_nat (Tree.len tree) then
    match fuel with
    | O => OutOfFuel
    | S fuel => tree ← Tree.prune tree c; prune_while fuel tree c
    end
  else Ok tree.
Definition filter_above_end (self : InstructionCounter) (tree : FilterTree) : M FilterTree :=
  match end_ self with Some e => Tree.filter_above tree e | None => Ok tree end.
Fixpoint apply_loop (fuel : nat) (self : InstructionCounter) (filters : FilterList) (tree : option FilterTree)
    (was_reduced_last : bool) : M (InstructionCounter * bool) :=
  match fuel with
  | O => OutOfFuel
  | S fuel =>
      self ← (if negb was_reduced_last then extend_while 16 filters self else Ok self);
      c ← current self;
      match FList.matching_filter filters c with
      | Some matching_filter =>
          tree ← match tree with Some tree => Ok tree | None => filter_above_end self Tree.new end;
          tree ← (if 0x1000000 <=? Z.of_nat (Tree.len tree)
                  then tree ← prune_while fuel tree c; filter_above_end self tree
                  else Ok tree);
          tree ← Tree.filter tree matching_filter;
          next ← Tree.find_next tree c;
          match next with
          | Some next =>
              tree ← Tree.filter_below tree c;
              self ← set_current self next;
              apply_loop fuel self filters (Some tree) false
          | None => Ok (self, false)
          end
      | None =>
          match end_ self with
          | Some e => match Instr.cmp c e with Gt => Ok (self, false) | _ => Ok (self, true) end
          | None => Ok (self, true)
          end
      end
  end.
Definition apply_filters_to_current (fuel : nat) (self : InstructionCounter) (filters : FilterList) (was_reduced_last : bool)
    : M (InstructionCounter * bool) :=
  if forallb (λ x, x =? 0xff) (data self) then Ok (self, false)
  else apply_loop fuel self filters None was_reduced_last.

Definition extend (fuel : nat) (self : InstructionCounter) (filters : FilterList) (fast_tunnel : bool) : M (InstructionCounter * bool) :=
  self ← extend_internal self fast_tunnel; apply_filters_to_current fuel self filters false.
(** [self.len -= 1] underflows to an index that is out of range. *)
Definition reduce (fuel : nat) (self : InstructionCounter) (filters : FilterList) (fast_tunnel : bool) : M (InstructionCounter * bool) :=
  n ← Instr.index_sub (len self) 1;
  d ← vset (data self) n 0;
  let self := with_len (with_data self d) n in
  self ← (if negb fast_tunnel || (Z.of_nat (len self) <=? tunnel_pos self)
          then p ← sub_u 64 (Z.of_nat (len self)) 1; Ok (with_num_tunneled (with_tunnel_pos self p) 0)
          else Ok self);
  apply_filters_to_current fuel self filters true.

Definition tunnel_next (fuel : nat) (self : InstructionCounter) (filters : FilterList) (tunnel_delay : Z) : M (InstructionCounter * bool) :=
  n ← add_u 64 (num_tunneled self) 1;
  let self := with_num_tunneled self n in
  self ← (if (num_tunneled self <? tunnel_delay) || (Z.of_nat (len self) <=? tunnel_pos self)
          then p ← sub_u 64 (Z.of_nat (len self)) 1; Ok (with_tunnel_pos self p)
          else Ok self);
  '(self, ok) ← next_single self;
  if negb ok then Ok (self, false)
  else
    let self := if num_tunneled self <? tunnel_delay then with_len self (Z.to_nat (tunnel_pos self) + 1) else self in
    apply_filters_to_current fuel self filters false.
Definition tunnel_next_ignore_filters (self : InstructionCounter) : M (InstructionCounter * bool) := next_single self.
End ops.

(** The bytes [from..=0xff]. *)
Definition bytes_from (from : Z) : list Z := (λ k, from + Z.of_nat k) <$> seq 0 (Z.to_nat (256 - from)).
Definition next_happy_group (self : InstructionCounter) : M (option (list Instruction)) :=
  v ← index (data self) (tunnel_pos self);
  if v <? 220 then
    l ← mapM (λ b,
          d ← vset (data self) (Z.to_nat (tunnel_pos self)) b;
          assert! (len self <=? length d)%nat; Instr.new (take (len self) d)) (bytes_from v);
    Ok (Some l)
  else Ok None.
Definition set_tunnel_pos (self : InstructionCounter) (pos : nat) : M InstructionCounter :=
  assert! (pos <? len self)%nat;
  assert! (pos + 1 <=? length (data self))%nat;
  Ok (with_data (with_tunnel_pos self (Z.of_nat pos)) (take (pos + 1) (data self) ++ replicate (length (data self) - (pos + 1)) 0)).
End Counter.
