(* ===== verification/CounterFacts.v ===== *)
(** * The counter stops at the next instruction that no filter matches

    [next_single] adds one to the bytes up to the tunnel position.  The loop of
    [apply_filters_to_current] ends after at most one iteration for each filter, and
    the counter is then at the least position, in the order of the bits, that no
    filter matches, or has passed its end.  The trees stay below the size at which
    they are pruned for filters of at most three bytes; for longer ones, the answers are
    right whenever the loop returns. *)
From S2P Require Import Prelude MachInt Utils Instruction InstructionFacts Filter FilterFacts NextMatching FilterTree FilterArena.
From S2P Require Import FilterTreeFacts FindNext FilterSets Counter.
Import Counter.

(** ** Order *)

Lemma slt_cotrans a b c : slt a c → slt a b ∨ slt b c.
Proof.
  intros (n & Hag & Ha & Hc). destruct (decide (Exists (λ j, b j ≠ a j) (seq 0 n))) as [He|Hne].
  - assert (∃ j, (j < n)%nat ∧ b j ≠ a j ∧ ∀ k, (k < j)%nat → b k = a k) as (j & Hj & Hne & Hbefore).
    { clear Ha Hc Hag. induction n as [|n IH]; [by inversion He|]. rewrite seq_S, Exists_app in He.
      destruct (decide (Exists (λ j, b j ≠ a j) (seq 0 n))) as [H|Hno]; [destruct (IH H) as (j & ? & ?); exists j; split; [lia | done]|].
      destruct He as [He|He]; [done|]. rewrite Exists_cons in He. destruct He as [He|He]; [|by inversion He]. exists n. split; [lia|]. split; [done|].
      intros k Hk. destruct (decide (b k = a k)) as [|Hk']; [done|]. exfalso. apply Hno, Exists_exists. exists k. split; [apply elem_of_seq; lia | done]. }
    destruct (a j) eqn:Ea, (b j) eqn:Eb; try done.
    + right. exists j. split; [intros k Hk; rewrite Hbefore, Hag by lia; done|]. split; [done|]. by rewrite <- Hag.
    + left. exists j. split; [intros k Hk; by rewrite Hbefore|]. done.
  - assert (∀ j, (j < n)%nat → b j = a j) as Hb.
    { intros j Hj. destruct (decide (b j = a j)) as [|H]; [done|]. exfalso. apply Hne, Exists_exists. exists j. split; [apply elem_of_seq; lia | done]. }
    destruct (b n) eqn:Eb.
    + left. exists n. split; [intros k Hk; by rewrite Hb|]. done.
    + right. exists n. split; [intros k Hk; by rewrite Hb, Hag by lia|]. done.
Qed.
(** Whether a bit string is below an instruction is decided by finitely many bits. *)
Lemma slt_dec s x : instr_wf x → slt s (stream_of x) ∨ ¬ slt s (stream_of x).
Proof.
  intros Hx. destruct (filter_below_ok (P := Release) x Hx) as (fs & _ & _ & H). rewrite <- H. destruct (any_match fs s); [by left | by right].
Qed.
Lemma slt_asym a b : slt a b → ¬ slt b a.
Proof.
  intros (n & H1 & Ha & Hb) (m & H2 & Hb' & Ha'). destruct (Nat.lt_trichotomy n m) as [H|[->|H]].
  - rewrite H2 in Hb by done. congruence.
  - congruence.
  - rewrite H1 in Ha' by done. congruence.
Qed.
Lemma above_slt x s : above x s → slt (stream_of x) s.
Proof. intros (m & _ & Hag & H0 & H1). exists m. split; [|done]. intros j Hj. symmetry. by apply Hag. Qed.
(** What is above the end stays above it further up. *)
Lemma above_mono x s s' : above x s → slt s s' → above x s'.
Proof.
  intros (m & Hm & Hag & H0 & H1) (n & Hs & Hn0 & Hn1). destruct (Nat.lt_trichotomy n m) as [H|[->|H]].
  - exists n. split; [lia|]. split; [intros j Hj; rewrite <- Hs, Hag by lia; done|]. split; [|done]. by rewrite <- Hag.
  - congruence.
  - exists m. split; [done|]. split; [intros j Hj; rewrite <- Hs, Hag by lia; done|]. split; [done|]. by rewrite <- Hs.
Qed.
(** The order of instructions agrees with the order of their bits. *)
Lemma cmp_bytes_slt la : ∀ lb, is_bytes la → is_bytes lb → Instr.cmp_bytes la lb = Gt → ¬ slt (lbit la) (lbit lb).
Proof.
  induction la as [|x la IH]; intros lb Ha Hb Hc; [by destruct lb|]. destruct lb as [|y lb].
  { apply not_slt_zeros. intros j. apply lbit_ge. cbn. lia. }
  cbn [Instr.cmp_bytes] in Hc. apply Forall_cons in Ha as [Hx Ha], Hb as [Hy Hb]. intros (n & Hag & H0 & H1).
  destruct (decide (n < 8)%nat) as [Hn|Hn].
  - rewrite lbit_head in H0, H1 by done. assert (x < y) as Hlt; [|apply Z.compare_lt_iff in Hlt; by rewrite Hlt in Hc].
    apply (bits_lt x y (Z.of_nat (7 - n))); [lia | | done | done]. intros j Hj. destruct (Z_lt_dec j 8).
    + specialize (Hag (7 - Z.to_nat j)%nat ltac:(lia)). rewrite !lbit_head in Hag by lia.
      by replace (Z.of_nat (7 - (7 - Z.to_nat j))) with j in Hag by lia.
    + by rewrite !(testbit_u_high 8) by (done || lia).
  - assert (x = y) as ->.
    { apply (u_ext 8); [lia | done | done|]. intros j Hj. specialize (Hag (7 - Z.to_nat j)%nat ltac:(lia)). rewrite !lbit_head in Hag by lia.
      by replace (Z.of_nat (7 - (7 - Z.to_nat j))) with j in Hag by lia. }
    rewrite Z.compare_refl in Hc. apply (IH lb Ha Hb Hc). exists (n - 8)%nat. replace n with (8 + (n - 8))%nat in H0, H1 by lia.
    rewrite lbit_tail in H0, H1. split; [|done]. intros j Hj. rewrite <- (lbit_tail y la), <- (lbit_tail y lb). apply Hag. lia.
Qed.
Lemma cmp_Gt_slt a b : instr_wf a → instr_wf b → Instr.cmp a b = Gt → ¬ slt (stream_of a) (stream_of b).
Proof. intros Ha Hb. apply cmp_bytes_slt; [apply (bytes_wf a Ha) | apply (bytes_wf b Hb)]. Qed.
(** A filter that matches, also one with wildcards past the instruction. *)
Lemma matches_bmatch f i : filter_wf f → instr_wf i → Filter.matches f i = true → bmatch (filter_bits f) (stream_of i) = true.
Proof.
  intros Hf Hi. unfold Filter.matches. rewrite matches_bytes_iff, bmatch_filter_iff. intros H n Hn.
  assert (n / 8 < length (bfs f))%nat as Hd by (apply Nat.Div0.div_lt_upper_bound; unfold Filter.bit_len in *; lia).
  destruct (lookup_lt_is_Some_2 _ _ Hd) as [bf Hbf]. rewrite (bit_at_spec _ _ _ Hbf). cbv zeta. specialize (H _ _ Hbf).
  destruct (Instr.bytes i !! (n / 8)%nat) as [x|] eqn:Hx; cbn [matches_at] in H.
  - rewrite matches_iff in H by (eauto using instr_byte || by eapply Forall_lookup_1 in Hbf). unfold stream_of, lbit. rewrite Hx. cbn [default from_option].
    pose proof (Nat.mod_upper_bound n 8 ltac:(lia)). specialize (H (Z.of_nat (7 - n `mod` 8)) ltac:(lia)).
    destruct (Z.testbit (mask bf) _); [|done]. change (id x) with x. rewrite H by done. by destruct (Z.testbit (value bf) _).
  - unfold BF.matches_anything in H. apply Z.eqb_eq in H. by rewrite H, Z.testbit_0_l.
Qed.

(** ** Sizes *)

Lemma pow2_nat_mono a b : (a <= b)%nat → (2 ^ a <= 2 ^ b)%nat.
Proof. intros H. apply Nat.pow_le_mono_r; lia. Qed.
Lemma size_depth t : (size t < 2 ^ depth t)%nat.
Proof.
  induction t as [| |a IHa b IHb|t IH]; cbn [size depth]; [cbn; lia..| |]; rewrite Nat.pow_succ_r'.
  - pose proof (pow2_nat_mono (depth a) (depth a `max` depth b) ltac:(lia)). pose proof (pow2_nat_mono (depth b) (depth a `max` depth b) ltac:(lia)). lia.
  - lia.
Qed.
Lemma chain_allocs b bits : down_allocs (b :: bits) TEnum = S (length bits).
Proof.
  revert b. induction bits as [|c bits IH]; intros b; [by destruct b|]. cbn [down_allocs leaf_alloc grow]. rewrite allocs_cons. cbv zeta.
  rewrite IH. by destruct b.
Qed.
Lemma allocs_bound bits : ∀ t d, (depth t <= d)%nat → (length bits <= d)%nat → (allocs bits t < 2 ^ d)%nat.
Proof.
  induction bits as [|bit [|b bits] IH]; intros t d Ht Hb; [cbn; pose proof (Nat.pow_nonzero 2 d); lia..|].
  assert (∀ u d, depth u <= d → length (b :: bits) <= d → down_allocs (b :: bits) u < 2 ^ d)%nat as Hd.
  { intros u e Hu He. destruct u as [| |u1 u2|u]; [|cbn; pose proof (Nat.pow_nonzero 2 e); lia|apply IH; done..].
    rewrite chain_allocs. cbn [length] in He. pose proof (Nat.pow_gt_lin_r 2 e). lia. }
  rewrite allocs_cons. cbv zeta. destruct d as [|d]; [cbn in Hb; lia|]. rewrite Nat.pow_succ_r'. cbn [length] in Hb, Hd.
  pose proof (Nat.pow_nonzero 2 d ltac:(lia)).
  destruct t as [| |x y|u], bit; cbn [depth] in Ht; try lia;
    try (pose proof (Hd x d ltac:(lia) ltac:(lia))); try (pose proof (Hd y d ltac:(lia) ltac:(lia))); try (pose proof (Hd u d ltac:(lia) ltac:(lia))); try lia;
    pose proof (size_depth u); pose proof (pow2_nat_mono (depth u) d ltac:(lia)); lia.
Qed.

(** Inserting filters into a tree of depth at most [d]. *)
Section insert.
Context {P : profile} (d : nat).
Definition sized (T : FilterTree) (t : tree) (budget : nat) : Prop :=
  tree_wf T t ∧ (depth t <= d)%nat ∧ room T (budget * 2 ^ d).
Lemma sized_mono T t b b' : (b' <= b)%nat → sized T t b → sized T t b'.
Proof. intros Hb (H1 & H2 & H3). split; [done|]. split; [done|]. unfold room in *. nia. Qed.
Lemma filter_sized T t b f : sized T t (S b) → (0 < Filter.bit_len f <= d)%nat →
  ∃ T' t', Tree.filter T f = Ok T' ∧ sized T' t' b ∧ ∀ s, covered t' s = covered t s || bmatch (filter_bits f) s.
Proof.
  intros (Hwf & Hd & Hr) Hf. pose proof (allocs_bound (filter_bits f) t d Hd ltac:(rewrite length_filter_bits; lia)) as Ha.
  destruct (filter_ok T t f Hwf) as (T' & t' & E & Hwf' & Hc & Hd' & Hl); [lia | unfold room in *; nia|].
  exists T', t'. split; [done|]. split; [|done]. split; [done|]. split; [lia|]. unfold room in *. nia.
Qed.
Lemma filter_all_sized fs : ∀ T t b, sized T t (length fs + b) → Forall (λ f, 0 < Filter.bit_len f <= d)%nat fs →
  ∃ T' t', filter_all fs T = Ok T' ∧ sized T' t' b ∧ ∀ s, covered t' s = covered t s || any_match fs s.
Proof.
  induction fs as [|f fs IH]; intros T t b Hs Hf; cbn [filter_all length].
  - exists T, t. split; [done|]. split; [done|]. intros s. by rewrite orb_false_r.
  - apply Forall_cons in Hf as [Hf Hfs]. destruct (filter_sized T t (length fs + b) f Hs Hf) as (T1 & t1 & -> & Hs1 & Hc1). rewrite M_bind_Ok.
    destruct (IH T1 t1 b Hs1 Hfs) as (T2 & t2 & -> & Hs2 & Hc2). exists T2, t2. split; [done|]. split; [done|]. intros s.
    rewrite Hc2, Hc1. cbn [any_match existsb]. by rewrite orb_assoc.
Qed.
Lemma short_filters x fs : (Instr.bit_len x <= d)%nat → Forall (λ f, Filter.bit_len f = Instr.bit_len x) fs → (length fs <= Instr.bit_len x)%nat →
  Forall (λ f, 0 < Filter.bit_len f <= d)%nat fs.
Proof.
  intros Hd Hl Hn. destruct (decide (Instr.bit_len x = 0%nat)) as [H0|]; [destruct fs; [constructor|]; cbn in Hn; lia|].
  eapply Forall_impl; [exact Hl|]. cbn. intros f ->. lia.
Qed.
Lemma filter_below_sized T t b x : instr_wf x → (Instr.bit_len x <= d)%nat → sized T t (d + b) →
  ∃ T' t', Tree.filter_below T x = Ok T' ∧ sized T' t' b ∧ ∀ s, covered t' s = true ↔ covered t s = true ∨ slt s (stream_of x).
Proof.
  intros Hx Hd Hs. destruct (filter_below_ok x Hx) as (fs & E & [Hl Hn] & Hm). rewrite E.
  destruct (filter_all_sized fs T t b) as (T' & t' & E' & Hs' & Hc); [eapply sized_mono; [|done]; lia | by eapply short_filters|].
  exists T', t'. split; [done|]. split; [done|]. intros s. by rewrite Hc, orb_true_iff, Hm.
Qed.
Lemma filter_above_sized T t b x : instr_wf x → (Instr.bit_len x <= d)%nat → sized T t (d + b) →
  ∃ T' t', Tree.filter_above T x = Ok T' ∧ sized T' t' b ∧ ∀ s, covered t' s = true ↔ covered t s = true ∨ above x s.
Proof.
  intros Hx Hd Hs. destruct (filter_above_ok x Hx) as (fs & E & [Hl Hn] & Hm). rewrite E.
  destruct (filter_all_sized fs T t b) as (T' & t' & E' & Hs' & Hc); [eapply sized_mono; [|done]; lia | by eapply short_filters|].
  exists T', t'. split; [done|]. split; [done|]. intros s. by rewrite Hc, orb_true_iff, Hm.
Qed.
(** The same without an assumption on the size: what is returned is right. *)
Definition bounded (T : FilterTree) (t : tree) : Prop := tree_wf T t ∧ (depth t <= d)%nat.
Lemma filter_returns T t f : bounded T t → (0 < Filter.bit_len f <= d)%nat →
  returns (Tree.filter T f) (λ T', ∃ t', bounded T' t' ∧ ∀ s, covered t' s = covered t s || bmatch (filter_bits f) s).
Proof.
  intros [Hwf Hd] Hf T' E. destruct (or_panic_returns _ _ _ (filter_any T t f Hwf ltac:(lia)) T' E) as (t' & Hwf' & Hc & Hd' & _).
  exists t'. split; [|done]. split; [done | lia].
Qed.
Lemma filter_all_returns fs : ∀ T t, bounded T t → Forall (λ f, 0 < Filter.bit_len f <= d)%nat fs →
  returns (filter_all fs T) (λ T', ∃ t', bounded T' t' ∧ ∀ s, covered t' s = covered t s || any_match fs s).
Proof.
  induction fs as [|f fs IH]; intros T t Hb Hf; cbn [filter_all].
  - apply returns_ok. exists t. split; [done|]. intros s. by rewrite orb_false_r.
  - apply Forall_cons in Hf as [Hf Hfs]. eapply returns_bind; [by eapply filter_returns|]. intros T1 (t1 & Hb1 & Hc1) T2 E.
    destruct (IH T1 t1 Hb1 Hfs T2 E) as (t2 & Hb2 & Hc2). exists t2. split; [done|]. intros s.
    rewrite Hc2, Hc1. cbn [any_match existsb]. by rewrite orb_assoc.
Qed.
Lemma filter_below_returns T t x : instr_wf x → (Instr.bit_len x <= d)%nat → bounded T t →
  returns (Tree.filter_below T x) (λ T', ∃ t', bounded T' t' ∧ ∀ s, covered t' s = true ↔ covered t s = true ∨ slt s (stream_of x)).
Proof.
  intros Hx Hd Hb. destruct (filter_below_ok x Hx) as (fs & E & [Hl Hn] & Hm). rewrite E. intros T' E'.
  destruct (filter_all_returns fs T t Hb ltac:(by eapply short_filters) T' E') as (t' & Hb' & Hc).
  exists t'. split; [done|]. intros s. by rewrite Hc, orb_true_iff, Hm.
Qed.
Lemma filter_above_returns T t x : instr_wf x → (Instr.bit_len x <= d)%nat → bounded T t →
  returns (Tree.filter_above T x) (λ T', ∃ t', bounded T' t' ∧ ∀ s, covered t' s = true ↔ covered t s = true ∨ above x s).
Proof.
  intros Hx Hd Hb. destruct (filter_above_ok x Hx) as (fs & E & [Hl Hn] & Hm). rewrite E. intros T' E'.
  destruct (filter_all_returns fs T t Hb ltac:(by eapply short_filters) T' E') as (t' & Hb' & Hc).
  exists t'. split; [done|]. intros s. by rewrite Hc, orb_true_iff, Hm.
Qed.
(** Pruning covers nothing new. *)
Lemma prune_while_returns fuel c : ∀ T t, bounded T t →
  returns (prune_while fuel T c) (λ T', ∃ t', bounded T' t' ∧ ∀ s, covered t' s = true → covered t s = true).
Proof.
  induction fuel as [|fuel IH]; intros T t Hb; cbn [prune_while]; destruct (_ <=? _); try (apply returns_ok; by exists t).
  - intros T' E. done.
  - destruct Hb as [Hwf Hd]. destruct (prune_spec T t c Hwf) as (T1 & t1 & -> & Hwf1 & Hc1 & _ & _ & Hd1). rewrite M_bind_Ok.
    intros T' E. destruct (IH T1 t1 ltac:(split; [done | lia]) T' E) as (t' & Hb' & Hc'). exists t'. split; [done|]. intros s Hs. by apply Hc1, Hc'.
Qed.
(** The trees stay below the limit at which they are pruned. *)
Lemma sized_small T t b : (d <= 24)%nat → sized T t b → Z.of_nat (Tree.len T) < 0x1000000.
Proof.
  intros H24 ((fp & Hr & Ha) & Hd & _). pose proof (rep_length _ _ _ _ Hr) as Hs. pose proof (size_depth t) as Hsz.
  apply arena_permutation, Permutation_length in Ha. rewrite length_app, length_seq in Ha. unfold Tree.len.
  pose proof (pow2_nat_mono _ _ Hd) as H1. pose proof (pow2_nat_mono _ _ H24) as H2.
  assert (Z.of_nat (2 ^ 24) = 0x1000000) as E by (rewrite Nat2Z.inj_pow; reflexivity). lia.
Qed.
End insert.

(** ** The length of the path *)

Section path_length.
Context (m : nat) (Hm15 : (m <= 15)%nat).
Definition shaped (i : Instruction) : Prop := length (Instruction.data i) = 15%nat ∧ (1 <= Instruction.len i <= m)%nat.
Lemma shaped_byte_len i : shaped i → Instr.byte_len i = Instruction.len i.
Proof using Hm15. intros [H1 H2]. unfold Instr.byte_len, Instr.bytes. rewrite length_take. lia. Qed.
Lemma wf_shaped i : instr_wf i → (1 <= Instr.byte_len i <= m)%nat → shaped i.
Proof using Hm15. intros Hi Hl. rewrite (byte_len_wf i Hi) in Hl. destruct Hi as [H1 _ _]. by split. Qed.
Lemma shaped_new i r : shaped i → Instr.new (Instr.bytes i) = Ok r → length (Instruction.data r) = 15%nat ∧ Instruction.len r = Instruction.len i.
Proof using Hm15.
  intros Hs H. pose proof (shaped_byte_len i Hs) as Hl. unfold Instr.byte_len in Hl. destruct Hs as [H1 H2]. unfold Instr.new in H. M_inv H. apply (inj Ok) in H as <-.
  cbn [Instruction.data Instruction.len]. rewrite length_app, length_replicate, Hl. unfold Instr.MAX_LEN. lia.
Qed.
Lemma shaped_left i k b r : shaped i → Instr.with_nth_bit_from_left i k b = Ok r → shaped r.
Proof using Hm15.
  intros Hs H. unfold Instr.with_nth_bit_from_left in H. M_inv H. apply (inj Ok) in H as <-. subst. destruct (shaped_new _ _ Hs E0) as [H1 H2].
  destruct Hs as [_ Hs]. split; cbn [Instruction.data Instruction.len]; [by rewrite length_insert | lia].
Qed.
Lemma shaped_right i k b r : shaped i → Instr.with_nth_bit_from_right i k b = Ok r → shaped r.
Proof using Hm15.
  intros Hs H. unfold Instr.with_nth_bit_from_right in H. M_inv H. destruct (shaped_new _ _ Hs E0) as [H1 H2].
  unfold Instr.set_nth_bit_from_right in H. M_inv H. apply (inj Ok) in H as <-. subst.
  destruct Hs as [_ Hs]. split; cbn [Instruction.data Instruction.len]; [by rewrite length_insert | lia].
Qed.
Lemma shaped_resize i n r : shaped i → (1 <= n <= m)%nat → Instr.resize i n 0 = Ok r → shaped r.
Proof using Hm15.
  intros Hs Hn H. pose proof (shaped_byte_len i Hs) as Hl. destruct Hs as [H1 H2]. unfold Instr.resize in H. M_inv H. apply (inj Ok) in H as <-.
  split; cbn [Instruction.data Instruction.len]; [|lia]. rewrite !length_app, length_take, length_replicate, length_drop. lia.
Qed.
Lemma shaped_cut i k b r : shaped i → (k < 8 * m)%nat → Tree.set_and_cut i k b = Ok r → shaped r.
Proof using Hm15.
  intros Hs Hk H. unfold Tree.set_and_cut in H. M_inv H. eapply shaped_resize; [by eapply shaped_left | | done].
  assert (k / 8 < m)%nat by (apply Nat.Div0.div_lt_upper_bound; lia). lia.
Qed.
Lemma shaped_clear i n r : shaped i → Instr.with_rightmost_bits i n 0 = Ok r → shaped r.
Proof using Hm15.
  intros Hs H. unfold Instr.with_rightmost_bits in H. M_inv H. clear E. revert i Hs H. generalize 0%nat as from. induction n as [|n IH]; intros from i Hs H; cbn [Instr.with_rightmost_bits_loop] in H.
  - by apply (inj Ok) in H as <-.
  - rewrite M_bind_Ok_inv in H. destruct H as (p & E & H). apply (IH (S from) p); [by eapply shaped_right | done].
Qed.
Lemma shaped_extend i k r : shaped i → (k < 8 * m)%nat → Tree.extend_to i k = Ok r → shaped r.
Proof using Hm15.
  intros Hs Hk. unfold Tree.extend_to. case_cmp; [|by intros [= <-]]. unfold Instr.extend. intros E. eapply shaped_resize; [done | | done].
  pose proof (shaped_byte_len i Hs). unfold Instr.bit_len in *. destruct Hs. lia.
Qed.
Lemma find_shaped fuel T : ∀ t i fp k path found path', rep (entries T) t i fp → (k + depth t <= 8 * m)%nat → shaped path →
  Tree.find_next_internal fuel T i k path = Ok (found, path') → shaped path'.
Proof using Hm15.
  induction fuel as [|fuel IH]; intros t i fp k path found path' Hr Hk Hs H.
  all: destruct Hr as [| |n i0 i1 a b fa fb Hn Ha Hb|n i t fp Hn Ht]; cbn [Tree.find_next_internal] in H.
  1, 5: by injection H as <- <-.
  1, 4: M_inv H; injection H as <- <-; revert E; case_cmp; [intros E; by eapply shaped_clear | by intros [= <-]].
  1, 2: done.
  all: cbn [depth] in Hk; rewrite (proj2 (vget_Ok_inv _ _ _) Hn), M_bind_Ok in H; rewrite M_bind_Ok_inv in H; destruct H as (p1 & E1 & H);
    apply shaped_extend in E1; [|done|lia].
  - rewrite M_bind_Ok_inv in H. destruct H as (v & _ & H). rewrite M_bind_Ok_inv in H. destruct H as ([f1 p2] & E2 & H).
    assert (shaped p2) as H2.
    { destruct (v =? 0); [eapply (IH a); [done | | done | done]; lia | by injection E2 as <- <-]. }
    destruct f1; [by injection H as <- <-|]. rewrite M_bind_Ok_inv in H. destruct H as (v2 & _ & H). rewrite M_bind_Ok_inv in H. destruct H as (p3 & E3 & H).
    assert (shaped p3) as H3 by (destruct (v2 =? 0); [eapply shaped_cut; [done | | done]; lia | by injection E3 as <-]).
    rewrite M_bind_Ok_inv in H. destruct H as ([f2 p4] & E4 & H). apply (IH b _ fb) in E4; [|done|lia|done].
    destruct f2; [by injection H as <- <-|]. rewrite M_bind_Ok_inv in H. destruct H as (p5 & E5 & [= <- <-]). apply shaped_cut in E5; [done | done | lia].
  - rewrite M_bind_Ok_inv in H. destruct H as ([f1 p2] & E2 & H). apply (IH t _ fp) in E2; [|done|lia|done].
    destruct f1; [by injection H as <- <-|]. rewrite M_bind_Ok_inv in H. destruct H as (v2 & _ & H). rewrite M_bind_Ok_inv in H. destruct H as ([f2 p3] & E3 & H).
    assert (shaped p3) as H3.
    { destruct (v2 =? 0); [|by injection E3 as <- <-]. rewrite M_bind_Ok_inv in E3. destruct E3 as (p5 & E5 & E3). apply shaped_cut in E5; [|done|lia]. eapply (IH t); [done | | exact E5 | exact E3]. lia. }
    destruct f2; [by injection H as <- <-|]. rewrite M_bind_Ok_inv in H. destruct H as (p5 & E5 & [= <- <-]). apply shaped_cut in E5; [done | done | lia].
Qed.
End path_length.

(** ** Counters *)

Section counter.
Context {P : profile} (m : nat) (Hm15 : (m <= 15)%nat).
(** The counter is at the instruction [i], which has between 1 and [m] bytes. *)
Record at_instr (c : InstructionCounter) (i : Instruction) : Prop := {
  at_data : length (data c) = 32%nat;
  at_bytes : is_bytes (data c);
  at_len : (1 <= len c <= m)%nat;
  at_current : current c = Ok i;
  at_wf : instr_wf i;
  at_i : Instr.bytes i = take (len c) (data c) }.
Lemma at_byte_len c i : at_instr c i → Instr.byte_len i = len c.
Proof using Hm15. intros [H1 _ H2 _ _ H3]. unfold Instr.byte_len. rewrite H3, length_take. lia. Qed.
Lemma at_instr_intro c : length (data c) = 32%nat → is_bytes (data c) → (1 <= len c <= m)%nat → ∃ i, at_instr c i.
Proof using Hm15.
  intros H1 H2 H3. assert (length (take (len c) (data c)) = len c) as Hl by (rewrite length_take; lia).
  pose proof (InstructionFacts.new_ok (take (len c) (data c))) as E. rewrite Hl in E. specialize (E ltac:(unfold Instr.MAX_LEN; lia)).
  destruct (InstructionFacts.new_wf (take (len c) (data c)) _ ltac:(by apply Forall_take) E) as [Hw Hb].
  eexists. split; [done | done | done | | exact Hw | exact Hb]. unfold current. rewrite (proj2 (Nat.leb_le (len c) (length (data c)))) by lia. exact E.
Qed.
Lemma same_stream c i c' i' : at_instr c i → at_instr c' i' → (∀ j, lbit (take (len c') (data c')) j = lbit (take (len c) (data c)) j) →
  ∀ j, stream_of i' j = stream_of i j.
Proof. intros H H' E j. unfold stream_of. by rewrite (at_i _ _ H), (at_i _ _ H'). Qed.

Lemma extend_internal_ok c i b : at_instr c i → (len c < m)%nat → ∃ c' i', extend_internal c b = Ok c' ∧ at_instr c' i' ∧
  end_ c' = end_ c ∧ len c' = S (len c) ∧ ∀ j, stream_of i' j = stream_of i j.
Proof using Hm15.
  intros H Hl. destruct H as [H1 H2 H3 H4 H5 H6]. unfold extend_internal. rewrite vset_lt by lia. rewrite M_bind_Ok.
  set (d := <[len c := 0]> (data c)).
  assert (∀ c', data c' = d → len c' = (len c + 1)%nat → ∃ i', at_instr c' i' ∧ ∀ j, stream_of i' j = stream_of i j) as Hat.
  { intros c' Ed El. destruct (at_instr_intro c') as [i' Hi']; [rewrite Ed; unfold d; by rewrite length_insert | rewrite Ed; unfold d; by apply Forall_insert | lia|].
    exists i'. split; [done|]. eapply same_stream; [by split | done|]. intros j. rewrite Ed, El. unfold d.
    rewrite take_insert_lt, Nat.add_1_r by lia. assert (take (S (len c)) (data c) = take (len c) (data c) ++ [default 0 (data c !! len c)]) as E.
    { destruct (lookup_lt_is_Some_2 (data c) (len c)) as [x Hx]; [lia|]. rewrite Hx. by apply take_S_r. }
    rewrite E, insert_app_r_alt by (rewrite length_take; lia). rewrite length_take, Nat.min_l, Nat.sub_diag by lia. apply (lbit_app_zeros _ 1). }
  destruct b; cbn [negb]; (match goal with |- ∃ c' i', Ok ?x = _ ∧ _ => destruct (Hat x) as (i' & Hi' & Hs) end; [done | done|]; eexists _, i';
    split; [done|]; split; [done|]; split; [done|]; split; [cbn; lia | done]).
Qed.
Lemma set_current_ok c i y : at_instr c i → instr_wf y → (1 <= Instr.byte_len y <= m)%nat → ∃ c' i', set_current c y = Ok c' ∧ at_instr c' i' ∧
  end_ c' = end_ c ∧ Instr.bytes i' = Instr.bytes y.
Proof using Hm15.
  intros H Hy Hl. destruct H as [H1 H2 H3 H4 H5 H6]. unfold set_current, copy_front. unfold Instr.byte_len in *.
  rewrite (proj2 (Nat.leb_le (length (Instr.bytes y)) (length (data c)))) by lia. cbn [rassert]. rewrite !M_bind_Ok.
  unfold sub_u. set (d := Instr.bytes y ++ drop (length (Instr.bytes y)) (data c)).
  assert (∀ p, ∃ i', at_instr (with_tunnel_pos (with_len (with_data c d) (length (Instr.bytes y))) p) i' ∧ Instr.bytes i' = Instr.bytes y) as Hat.
  { intros p. destruct (at_instr_intro (with_tunnel_pos (with_len (with_data c d) (length (Instr.bytes y))) p)) as [i' Hi']; cbn [data len with_tunnel_pos with_len with_data].
    - unfold d. rewrite length_app, length_drop. lia.
    - unfold d. apply Forall_app. split; [apply (bytes_wf y Hy) | by apply Forall_drop].
    - lia.
    - exists i'. split; [done|]. rewrite (at_i _ _ Hi'). cbn [data len with_tunnel_pos with_len with_data]. unfold d. by rewrite take_app_length. }
  rewrite bool_decide_eq_true_2 by (split; [lia|]; apply (Z.lt_trans _ 32); [lia | done]). rewrite M_bind_Ok.
  destruct (Hat (Z.of_nat (length (Instr.bytes y)) - 1)) as (i' & Hi' & Hb). by eexists _, i'.
Qed.
Lemma extend_while_ok fs fuel : Forall (λ f, Filter.len f <= m)%nat (filters fs) → ∀ c i, at_instr c i → (m - len c <= fuel)%nat → ∃ c' i',
  extend_while fuel fs c = Ok c' ∧ at_instr c' i' ∧ end_ c' = end_ c ∧ (∀ j, stream_of i' j = stream_of i j) ∧ FList.should_extend fs i' = false.
Proof using Hm15.
  intros Hfs. induction fuel as [|fuel IH]; intros c i Hi Hf; cbn [extend_while]; rewrite (at_current _ _ Hi), M_bind_Ok.
  all: destruct (FList.should_extend fs i) eqn:E; [|exists c, i; done].
  all: assert (len c < m)%nat as Hlt by (unfold FList.should_extend in E; apply List.existsb_exists in E as (f & Hin%list_elem_of_In & [H%Nat.ltb_lt _]%andb_true_iff);
    rewrite (at_byte_len _ _ Hi) in H; rewrite Forall_forall in Hfs; specialize (Hfs f Hin); cbn in Hfs; lia).
  - lia.
  - destruct (extend_internal_ok c i false Hi Hlt) as (c1 & i1 & -> & H1 & E1 & L1 & S1). rewrite M_bind_Ok.
    destruct (IH c1 i1 H1 ltac:(lia)) as (c2 & i2 & -> & H2 & E2 & S2 & N2). exists c2, i2. split; [done|]. split; [done|].
    split; [congruence|]. split; [|done]. intros j. by rewrite S2, S1.
Qed.
End counter.

(** An instruction that need not be extended and that no filter matches has bits that no
    filter matches. *)
Lemma unmatched_bits fs i : list_wf (filters fs) → instr_wf i → FList.should_extend fs i = false → ¬ in_list (filters fs) i →
  any_match (filters fs) (stream_of i) = false.
Proof.
  intros Hw Hi He Hn. apply not_true_iff_false. unfold any_match. rewrite List.existsb_exists. intros (f & Hin%list_elem_of_In & Hm).
  unfold list_wf in Hw. rewrite Forall_forall in Hw. specialize (Hw f Hin). destruct (decide (Filter.byte_len f <= Instr.byte_len i)%nat) as [Hl|Hl].
  { apply Hn. exists f. split; [done|]. by rewrite matches_stream. }
  assert (FList.should_extend fs i = true) as Ht; [|by rewrite Ht in He]. unfold FList.should_extend. apply List.existsb_exists. exists f.
  split; [by apply list_elem_of_In|]. apply andb_true_iff. unfold Filter.byte_len, Filter.len in *. split; [apply Nat.ltb_lt; lia|].
  unfold Filter.matches_smaller_instr_partially, Filter.len. rewrite (proj2 (Nat.ltb_ge _ _)) by lia. apply forallb_zip. intros k bf x Hbf Hx.
  rewrite matches_iff by (eauto using instr_byte || by eapply Forall_lookup_1 in Hbf). intros j Hj Hmask. rewrite bmatch_filter_iff in Hm.
  set (n := (k * 8 + (7 - Z.to_nat j))%nat).
  assert (n / 8 = k ∧ n `mod` 8 = 7 - Z.to_nat j)%nat as [E1 E2].
  { unfold n. split; [rewrite Nat.div_add_l, (Nat.div_small (7 - _)) by lia; lia|].
    rewrite Nat.add_comm, Nat.Div0.mod_add, Nat.mod_small by lia. lia. }
  pose proof (lookup_lt_Some _ _ _ Hbf). specialize (Hm n ltac:(unfold Filter.bit_len; lia)). rewrite (bit_at_spec _ n bf) in Hm by (by rewrite E1).
  unfold stream_of, lbit in Hm. rewrite E1, E2, Hx in Hm. cbn [default from_option] in Hm. cbv zeta in Hm.
  replace (Z.of_nat (7 - (7 - Z.to_nat j))) with j in Hm by lia. rewrite Hmask in Hm. revert Hm.
  change (id x) with x. destruct (Z.testbit (value bf) j), (Z.testbit x j); done.
Qed.

(** ** The loop *)

(** What [find_next] returns, also where it may panic. *)
Definition next_of (m : nat) (t : tree) (i : Instruction) (r : option Instruction) : Prop :=
  match r with
  | Some y => instr_wf y ∧ (1 <= Instr.byte_len y <= m)%nat ∧ covered t (stream_of y) = false ∧ ¬ slt (stream_of y) (stream_of i) ∧
              ∀ s, ¬ slt s (stream_of i) → slt s (stream_of y) → covered t s = true
  | None => ∀ s, ¬ slt s (stream_of i) → covered t s = true
  end.
Lemma find_next_bounded m T t i : (1 <= m <= 15)%nat → bounded (8 * m) T t → instr_wf i → (1 <= Instr.byte_len i <= m)%nat →
  or_panic (112 < depth t)%nat (Tree.find_next T i) (next_of m t i).
Proof.
  intros Hm [(fp & Hr & Ha) Hd] Hi Hl. unfold Tree.find_next.
  destruct (find_next_internal_ok T (length (entries T)) t (Index 0) fp 0%nat i Hr) as [[-> H]|([found y] & E & [Hw _ _ _ Hnext])];
    [eapply rep_depth; [done | by rewrite app_nil_r] | done | lia | left; split; [done | lia] |].
  rewrite E, M_bind_Ok. pose proof (find_shaped m ltac:(lia) _ T t _ fp 0%nat i found y Hr ltac:(lia) (wf_shaped m ltac:(lia) i Hi Hl) E) as Hs.
  apply or_panic_ok. destruct found; [|exact Hnext].
  split; [done|]. split; [rewrite (shaped_byte_len m ltac:(lia) y Hs); apply Hs | exact Hnext].
Qed.
Lemma find_next_sized m b T t i : (1 <= m <= 3)%nat → sized (8 * m) T t b → instr_wf i → (1 <= Instr.byte_len i <= m)%nat →
  ∃ r, Tree.find_next T i = Ok r ∧ next_of m t i r.
Proof.
  intros Hm (Hwf & Hd & _) Hi Hl. eapply or_panic_never; [apply (find_next_bounded m T t i); [lia | by split | done..] | lia].
Qed.

Section loop.
Context {P : profile} (m : nat) (Hm : (1 <= m <= 15)%nat) (fs : FilterList) (e : option Instruction).
Context (Hw : list_wf (filters fs)) (Hlen : Forall (λ f, 0 < Filter.len f <= m)%nat (filters fs)).
Context (He : ∀ x, e = Some x → instr_wf x ∧ (Instr.byte_len x <= m)%nat).
Notation d := (8 * m)%nat.
Notation n := (length (filters fs)).

Definition past (s : stream) : Prop := ∃ x, e = Some x ∧ above x s.
Definition skipped (s : stream) : Prop := any_match (filters fs) s = true ∨ past s.
(** The tree that the loop has built: it covers only what the filters match, what is past
    the end and what is before the start [s0], and not the current instruction; [seen]
    are the filters inserted, and [left] the number of filters that are left. *)
Record tree_inv (s0 cur : stream) (T : FilterTree) (left : nat) (t : tree) (seen : list InstructionFilter) : Prop := {
  ti_sized : sized d T t (left * S d);
  ti_current : covered t cur = false;
  ti_sound : ∀ s, ¬ slt s s0 → covered t s = true → skipped s;
  ti_past : ∀ s, past s → covered t s = true;
  ti_seen : ∀ f s, f ∈ seen → bmatch (filter_bits f) s = true → covered t s = true;
  ti_nodup : NoDup seen;
  ti_sub : seen ⊆ filters fs;
  ti_left : (left + length seen)%nat = n }.
(** Before the first match there is no tree, and the counter is at the start. *)
Definition loop_inv (s0 cur : stream) (tree : option FilterTree) (left : nat) : Prop :=
  ¬ slt cur s0 ∧ (∀ s, ¬ slt s s0 → slt s cur → skipped s) ∧
  match tree with
  | Some T => ∃ t seen, tree_inv s0 cur T left t seen
  | None => left = n ∧ ∀ s, ¬ slt s s0 → ¬ slt s cur
  end.

(** What of this does not depend on the size of the tree, or on whether it was pruned. *)
Definition sound_tree (s0 : stream) (T : FilterTree) (t : tree) : Prop :=
  bounded d T t ∧ (∀ s, ¬ slt s s0 → covered t s = true → skipped s) ∧ ∀ s, past s → covered t s = true.
Definition sound_inv (s0 cur : stream) (tree : option FilterTree) : Prop :=
  ¬ slt cur s0 ∧ (∀ s, ¬ slt s s0 → slt s cur → skipped s) ∧
  match tree with
  | Some T => ∃ t, sound_tree s0 T t ∧ covered t cur = false
  | None => ∀ s, ¬ slt s s0 → ¬ slt s cur
  end.
Lemma loop_inv_sound s0 cur tree left : loop_inv s0 cur tree left → sound_inv s0 cur tree.
Proof.
  intros (H1 & H2 & H3). split; [done|]. split; [done|]. destruct tree as [T|]; [|apply H3].
  destruct H3 as (t & seen & [(Hwf & Hd & _) G2 G3 G4 _ _ _ _]). exists t. split; [|done]. by split; [split|].
Qed.

(** Before the insertion of the matching filter. *)
Definition ready (s0 : stream) (T : FilterTree) (left : nat) (t : tree) (seen : list InstructionFilter) : Prop :=
  sized d T t (left * S d) ∧ (∀ s, ¬ slt s s0 → covered t s = true → skipped s) ∧ (∀ s, past s → covered t s = true) ∧
  (∀ f s, f ∈ seen → bmatch (filter_bits f) s = true → covered t s = true) ∧ NoDup seen ∧ seen ⊆ filters fs ∧ (left + length seen)%nat = n.
Lemma new_sized b : room Tree.new (b * 2 ^ d) → sized d Tree.new (TIgnore TEnum) b.
Proof using Hm. intros Hr. split; [apply new_tree_wf|]. split; [cbn; lia | done]. Qed.
Lemma first_tree s0 c : end_ c = e → room Tree.new ((d + n * S d) * 2 ^ d) → ∃ T t, filter_above_end c Tree.new = Ok T ∧ ready s0 T n t [].
Proof using Hm He.
  intros Ee Hroom. apply new_sized in Hroom. unfold filter_above_end. rewrite Ee. clear Ee. destruct e as [x|] eqn:Ex.
  - destruct (He x eq_refl) as [Hx Hl]. destruct (filter_above_sized d Tree.new (TIgnore TEnum) (n * S d) x Hx) as (T & t & E & Hs & Hc);
      [unfold Instr.bit_len; lia | done|]. exists T, t. split; [done|]. split; [done|]. split; [|split; [|split; [|split; [|split]]]].
    + intros s _ [?|?]%Hc; [done|]. right. by exists x.
    + intros s (y & Ey & ?). apply Hc. right. rewrite Ex in Ey. by injection Ey as <-.
    + intros f s ?%not_elem_of_nil. done.
    + constructor.
    + by intros ? ?%not_elem_of_nil.
    + cbn. lia.
  - exists Tree.new, (TIgnore TEnum). split; [done|]. split; [eapply sized_mono; [|done]; lia|]. split; [done|].
    split; [intros s (y & ? & _); congruence|]. split; [by intros f s ?%not_elem_of_nil|]. split; [constructor|]. split; [by intros ? ?%not_elem_of_nil | cbn; lia].
Qed.

Lemma matching_Some i f : FList.matching_filter fs i = Some f → f ∈ filters fs ∧ Filter.matches f i = true.
Proof.
  unfold FList.matching_filter. intros [Hin [Hf _]%andb_true_iff]%List.find_some. split; [|done]. by apply elem_of_reverse, list_elem_of_In.
Qed.
Lemma matching_None i : FList.matching_filter fs i = None → ¬ in_list (filters fs) i.
Proof.
  unfold FList.matching_filter. intros H (f & Hin & Hf). eapply List.find_none in H; [|apply list_elem_of_In; by apply elem_of_reverse].
  by rewrite Hf, matches_no_more in H.
Qed.
Lemma get_tree s0 c i tree left f : loop_inv s0 (stream_of i) tree left → end_ c = e → room Tree.new ((d + n * S d) * 2 ^ d) →
  f ∈ filters fs → bmatch (filter_bits f) (stream_of i) = true → ∃ T t seen left',
  match tree with Some T => Ok T | None => filter_above_end c Tree.new end = Ok T ∧ ready s0 T left t seen ∧ f ∉ seen ∧ left = S left'.
Proof using Hm He.
  intros (_ & _ & Ht) Ee Hroom Hin Hf.
  assert (∃ T t seen, match tree with Some T => Ok T | None => filter_above_end c Tree.new end = Ok T ∧ ready s0 T left t seen ∧ f ∉ seen) as (T & t & seen & E & Hr & Hn).
  { destruct tree as [T|].
    - destruct Ht as (t & seen & [H1 H2 H3 H4 H5 H6 H7 H8]). exists T, t, seen. split; [done|]. split; [by split_and!|].
      intros Hs. by rewrite (H5 f _ Hs Hf) in H2.
    - destruct Ht as [-> _]. destruct (first_tree s0 c Ee Hroom) as (T & t & E & Hr). exists T, t, []. split; [done|]. split; [done | apply not_elem_of_nil]. }
  destruct left as [|left']; [exfalso|by exists T, t, seen, left'].
  destruct Hr as (_ & _ & _ & _ & Hnd & Hsub & Hl). assert (length (f :: seen) <= n)%nat; [|cbn in *; lia].
  apply submseteq_length, NoDup_submseteq; [by apply NoDup_cons|]. intros g [->|Hg]%elem_of_cons; [done | by apply Hsub].
Qed.
(** What an iteration with a matching filter does. *)
Lemma matched_step s0 i T t seen left f : (m <= 3)%nat → ready s0 T (S left) t seen → ¬ slt (stream_of i) s0 →
  (∀ s, ¬ slt s s0 → slt s (stream_of i) → skipped s) → instr_wf i → (1 <= Instr.byte_len i <= m)%nat →
  f ∈ filters fs → f ∉ seen → bmatch (filter_bits f) (stream_of i) = true → ∃ T1 r, Tree.filter T f = Ok T1 ∧ Tree.find_next T1 i = Ok r ∧
  match r with
  | Some y => instr_wf y ∧ (1 <= Instr.byte_len y <= m)%nat ∧ ∃ T2, Tree.filter_below T1 i = Ok T2 ∧ loop_inv s0 (stream_of y) (Some T2) left
  | None => ∀ s, ¬ slt s s0 → skipped s
  end.
Proof using Hm Hlen.
  intros Hm3 (Hs & Hsound & Hpast & Hseen & Hnd & Hsub & Hl) H0 Hbefore Hi Hli Hin Hn Hf. rewrite Forall_forall in Hlen. pose proof (Hlen f Hin) as Hlf. cbn in Hlf.
  destruct (filter_sized d T t (d + left * S d) f Hs) as (T1 & t1 & E1 & Hs1 & Hc1); [unfold Filter.bit_len, Filter.len in *; lia|].
  assert (∀ s, ¬ slt s s0 → covered t1 s = true → skipped s) as Hsound1.
  { intros s Hge. rewrite Hc1, orb_true_iff. intros [H|H]; [by apply Hsound|]. left. unfold any_match. apply List.existsb_exists. exists f. by rewrite <- list_elem_of_In. }
  destruct (find_next_sized m _ T1 t1 i ltac:(lia) Hs1 Hi Hli) as (r & Er & Hr). exists T1, r. split; [done|]. split; [done|]. destruct r as [y|].
  - destruct Hr as (Hy & Hly & Hcy & Hge & Hbetween). split; [done|]. split; [done|].
    destruct (filter_below_sized d T1 t1 (left * S d) i Hi) as (T2 & t2 & E2 & Hs2 & Hc2); [unfold Instr.bit_len; lia | done|].
    exists T2. split; [done|]. split; [intros Hlt; destruct (slt_cotrans _ (stream_of i) _ Hlt); done|]. split.
    + intros s Hs0 Hlt. destruct (slt_dec s i Hi) as [Hsi|Hsi]; [by apply Hbefore | by apply Hsound1, Hbetween].
    + exists t2, (f :: seen). split; [done | | | | | by apply NoDup_cons | intros g [->|Hg]%elem_of_cons; [done | by apply Hsub] | cbn [length] in *; lia].
      * apply not_true_iff_false. rewrite Hc2. intros [H|H]; [by rewrite H in Hcy | done].
      * intros s Hs0 [H|H]%Hc2; [by apply Hsound1 | by apply Hbefore].
      * intros s Hp%Hpast. apply Hc2. left. by rewrite Hc1, Hp.
      * intros g s [->|Hg]%elem_of_cons Hb; apply Hc2; left; rewrite Hc1; [rewrite Hb; apply orb_true_r | by rewrite (Hseen g s Hg Hb)].
  - intros s Hs0. destruct (slt_dec s i Hi) as [Hsi|Hsi]; [by apply Hbefore | by apply Hsound1, Hr].
Qed.

(** The answer of the loop, when it was entered at the start [s0]. *)
Definition answer (s0 : stream) (c : InstructionCounter) (i : Instruction) (ok extended : bool) : Prop :=
  at_instr m c i ∧ end_ c = e ∧
  if ok then
    ¬ slt (stream_of i) s0 ∧ (∀ s, ¬ slt s s0 → slt s (stream_of i) → any_match (filters fs) s = true) ∧
    ¬ in_list (filters fs) i ∧ (extended = true → any_match (filters fs) (stream_of i) = false) ∧
    (∀ x, e = Some x → Instr.cmp i x ≠ Gt)
  else ∀ s, ¬ slt s s0 → any_match (filters fs) s = true ∨ ∃ x, e = Some x ∧ ¬ slt s (stream_of x).
Lemma skipped_past s : skipped s → any_match (filters fs) s = true ∨ ∃ x, e = Some x ∧ ¬ slt s (stream_of x).
Proof. intros [H|(x & Ex & Ha)]; [by left|]. right. exists x. split; [done|]. by apply slt_asym, above_slt. Qed.
(** Nothing between the start and an instruction that the tree does not cover is past the
    end. *)
Lemma between s0 cur tree : sound_inv s0 cur tree → ∀ s, ¬ slt s s0 → slt s cur → any_match (filters fs) s = true.
Proof.
  intros (_ & Hb & Ht) s Hs Hlt. destruct (Hb s Hs Hlt) as [H|(x & Ex & Ha)]; [done|]. exfalso. destruct tree as [T|]; [|by apply (Ht s)].
  destruct Ht as (t & (_ & _ & Hp) & Hc). assert (past cur) as Hcur by (exists x; split; [done | by eapply above_mono]).
  by rewrite (Hp _ Hcur) in Hc.
Qed.
Lemma sound_inv_ext s0 cur cur' tree : (∀ j, cur' j = cur j) → sound_inv s0 cur tree → sound_inv s0 cur' tree.
Proof.
  intros E (H1 & H2 & H3). assert (∀ j, cur j = cur' j) as E' by (intros; by symmetry).
  split; [intros H; apply H1; by eapply slt_ext; [exact E | | exact H]|]. split; [intros s Hs Hlt; apply H2; [done|]; by eapply slt_ext; [|exact E | exact Hlt]|].
  destruct tree as [T|].
  - destruct H3 as (t & Ht & Hc). exists t. split; [done|]. by rewrite (covered_ext t _ cur).
  - intros s Hs Hlt. apply (H3 s Hs). by eapply slt_ext; [|exact E | exact Hlt].
Qed.
Lemma loop_inv_ext s0 cur cur' tree left : (∀ j, cur' j = cur j) → loop_inv s0 cur tree left → loop_inv s0 cur' tree left.
Proof.
  intros E (H1 & H2 & H3). assert (∀ j, cur j = cur' j) as E' by (intros; by symmetry).
  split; [intros H; apply H1; by eapply slt_ext; [exact E | | exact H]|]. split; [intros s Hs Hlt; apply H2; [done|]; by eapply slt_ext; [|exact E | exact Hlt]|].
  destruct tree as [T|].
  - destruct H3 as (t & seen & [G1 G2 G3 G4 G5 G6 G7 G8]). exists t, seen. split; try done. by rewrite (covered_ext t _ cur).
  - destruct H3 as [-> H3]. split; [done|]. intros s Hs Hlt. apply (H3 s Hs). by eapply slt_ext; [|exact E | exact Hlt].
Qed.
Lemma unmatched_answer s0 c i tree extended : sound_inv s0 (stream_of i) tree → at_instr m c i → end_ c = e →
  FList.matching_filter fs i = None → (extended = true → FList.should_extend fs i = false) → ∃ ok,
  match end_ c with
  | Some x => match Instr.cmp i x with Gt => Ok (c, false) | _ => Ok (c, true) end
  | None => Ok (c, true)
  end = Ok (c, ok) ∧ answer s0 c i ok extended.
Proof using Hw He.
  intros Hinv Hi Ee Hn%matching_None Hext. rewrite Ee. pose proof (at_wf _ _ _ Hi) as Hwi.
  assert ((∀ x, e = Some x → Instr.cmp i x ≠ Gt) → answer s0 c i true extended) as Htrue.
  { intros Hx. split; [done|]. split; [done|]. split; [apply Hinv|]. split; [by eapply between|]. split; [done|]. split; [|done].
    intros H. apply unmatched_bits; auto. }
  destruct e as [x|] eqn:Ex; [|exists true; split; [done | apply Htrue; intros; congruence]].
  destruct (Instr.cmp i x) eqn:Ec; [exists true; split; [done|]; apply Htrue; intros y [= <-]; by rewrite Ec..|].
  exists false. split; [done|]. split; [done|]. split; [by rewrite Ex|]. intros s Hs. destruct (slt_dec s i Hwi) as [Hlt|Hge].
  - left. by eapply between.
  - right. exists x. split; [done|]. intros Hc. destruct (slt_cotrans _ (stream_of i) _ Hc) as [H|H]; [done|].
    destruct (He x eq_refl) as [Hx _]. by apply (cmp_Gt_slt i x Hwi Hx Ec).
Qed.
(** The extension at the start of an iteration. *)
Lemma extended_ok c i (reduced : bool) : at_instr m c i → end_ c = e → ∃ c1 i1,
  (if negb reduced then extend_while 16 fs c else Ok c) = Ok c1 ∧ at_instr m c1 i1 ∧ end_ c1 = e ∧
  (∀ j, stream_of i1 j = stream_of i j) ∧ (negb reduced = true → FList.should_extend fs i1 = false).
Proof using Hm Hlen.
  intros Hi Ee. destruct reduced; cbn [negb]; [by exists c, i|].
  destruct (extend_while_ok m ltac:(lia) fs 16) with (c := c) (i := i) as (c1 & i1 & E & H1 & H2 & H3 & H4);
    [eapply Forall_impl; [exact Hlen | cbn; lia] | done | lia|].
  exists c1, i1. split; [done|]. split; [done|]. split; [congruence|]. by split.
Qed.
Lemma apply_loop_ok fuel : (m <= 3)%nat → ∀ s0 c i tree left reduced, room Tree.new ((d + n * S d) * 2 ^ d) → loop_inv s0 (stream_of i) tree left →
  at_instr m c i → end_ c = e → (left < fuel)%nat →
  ∃ c' i' ok, apply_loop fuel c fs tree reduced = Ok (c', ok) ∧ answer s0 c' i' ok (negb reduced).
Proof using Hm Hw Hlen He.
  intros Hm3. induction fuel as [|fuel IH]; intros s0 c i tree left reduced Hroom Hinv Hi Ee Hfuel; [lia|]. cbn [apply_loop].
  destruct (extended_ok c i reduced Hi Ee) as (c1 & i1 & -> & Hi1 & Ee1 & Hsame & Hext).
  apply (loop_inv_ext _ _ (stream_of i1)) in Hinv as Hinv1; [|done].
  rewrite M_bind_Ok, (at_current _ _ _ Hi1), M_bind_Ok. destruct (FList.matching_filter fs i1) as [f|] eqn:Ef.
  2: { destruct (unmatched_answer s0 c1 i1 tree (negb reduced) (loop_inv_sound _ _ _ _ Hinv1) Hi1 Ee1 Ef Hext) as (ok & E & Ha). by exists c1, i1, ok. }
  pose proof (at_wf _ _ _ Hi1) as Hwi. pose proof (at_byte_len m ltac:(lia) _ _ Hi1) as Hbl. pose proof (at_len _ _ _ Hi1) as Hl1.
  apply matching_Some in Ef as [Hin Hmf]. unfold list_wf in Hw. rewrite Forall_forall in Hw. apply matches_bmatch in Hmf; [|by apply Hw|done].
  destruct (get_tree s0 c1 i1 tree left f Hinv1 Ee1 Hroom Hin Hmf) as (T & t & seen & left' & -> & Hr & Hn & ->). rewrite M_bind_Ok.
  destruct Hinv1 as (Hge & Hb & _). pose proof (sized_small d T t _ ltac:(lia) (proj1 Hr)) as Hsmall.
  rewrite (proj2 (Z.leb_gt _ _) Hsmall), M_bind_Ok.
  destruct (matched_step s0 i1 T t seen left' f Hm3 Hr Hge Hb Hwi ltac:(lia) Hin Hn Hmf) as (T1 & r & -> & E & Hres). rewrite M_bind_Ok, E, M_bind_Ok.
  destruct r as [y|].
  - destruct Hres as (Hy & Hly & T2 & -> & Hinv2). rewrite M_bind_Ok.
    destruct (set_current_ok m ltac:(lia) c1 i1 y Hi1 Hy Hly) as (c2 & i2 & -> & Hi2 & Ee2 & Eb). rewrite M_bind_Ok.
    destruct (IH s0 c2 i2 (Some T2) left' false Hroom) as (c3 & i3 & ok & E3 & Ha); [|done|congruence|lia|].
    + eapply loop_inv_ext; [|exact Hinv2]. intros j. unfold stream_of. by rewrite Eb.
    + exists c3, i3, ok. split; [done|]. destruct Ha as (A1 & A2 & A3). split; [done|]. split; [done|]. destruct ok; [|done].
      destruct A3 as (B1 & B2 & B3 & B4 & B5). do 3 (split; [done|]). split; [intros _; by apply B4 | done].
  - exists c1, i1, false. split; [done|]. split; [done|]. split; [done|]. intros s Hs. by apply skipped_past, Hres.
Qed.

(** The same without the limits on the size: the steps keep the invariant if they
    return. *)
Lemma above_end_returns c T t : bounded d T t → end_ c = e →
  returns (filter_above_end c T) (λ T', ∃ t', bounded d T' t' ∧ ∀ s, covered t' s = true ↔ covered t s = true ∨ past s).
Proof using Hm He.
  intros Hb Ee. unfold filter_above_end. rewrite Ee. clear Ee. destruct e as [x|] eqn:Ex.
  - destruct (He x eq_refl) as [Hx Hl]. intros T' E. destruct (filter_above_returns d T t x Hx ltac:(unfold Instr.bit_len; lia) Hb T' E) as (t' & Hb' & Hc).
    exists t'. split; [done|]. intros s. rewrite Hc. unfold past. rewrite Ex. naive_solver.
  - apply returns_ok. exists t. split; [done|]. intros s. unfold past. rewrite Ex. naive_solver.
Qed.
Lemma get_tree_returns s0 cur c tree : sound_inv s0 cur tree → end_ c = e →
  returns match tree with Some T => Ok T | None => filter_above_end c Tree.new end (λ T, ∃ t, sound_tree s0 T t).
Proof using Hm He.
  intros (_ & _ & Ht) Ee. destruct tree as [T|].
  - destruct Ht as (t & Ht & _). apply returns_ok. by exists t.
  - intros T E. destruct (above_end_returns c Tree.new (TIgnore TEnum) ltac:(split; [apply new_tree_wf | cbn; lia]) Ee T E) as (t & Hb & Hc).
    exists t. split; [done|]. split; [intros s _ [?|?]%Hc; [done | by right] | intros s Hs; apply Hc; by right].
Qed.
Lemma pruned_returns s0 c T t i fuel : sound_tree s0 T t → end_ c = e →
  returns (if 0x1000000 <=? Z.of_nat (Tree.len T) then T ← prune_while fuel T i; filter_above_end c T else Ok T) (λ T', ∃ t', sound_tree s0 T' t').
Proof using Hm He.
  intros (Hb & Hs & Hp) Ee. destruct (_ <=? _); [|by apply returns_ok; exists t].
  eapply returns_bind; [by eapply prune_while_returns|]. intros T1 (t1 & Hb1 & Hc1) T2 E.
  destruct (above_end_returns c T1 t1 Hb1 Ee T2 E) as (t2 & Hb2 & Hc2). exists t2. split; [done|].
  split; [intros s H0 [?%Hc1|?]%Hc2; [by apply Hs | by right] | intros s Hps; apply Hc2; by right].
Qed.
Lemma matched_returns s0 i T t f T1 : sound_tree s0 T t → ¬ slt (stream_of i) s0 →
  (∀ s, ¬ slt s s0 → slt s (stream_of i) → skipped s) → instr_wf i → (1 <= Instr.byte_len i <= m)%nat →
  f ∈ filters fs → Tree.filter T f = Ok T1 → returns (Tree.find_next T1 i) (λ r,
  match r with
  | Some y => instr_wf y ∧ (1 <= Instr.byte_len y <= m)%nat ∧ returns (Tree.filter_below T1 i) (λ T2, sound_inv s0 (stream_of y) (Some T2))
  | None => ∀ s, ¬ slt s s0 → skipped s
  end).
Proof using Hm Hlen.
  intros (Hb & Hsound & Hpast) H0 Hbefore Hi Hli Hin E1. rewrite Forall_forall in Hlen. pose proof (Hlen f Hin) as Hlf. cbn in Hlf.
  destruct (filter_returns d T t f Hb ltac:(unfold Filter.bit_len, Filter.len in *; lia) T1 E1) as (t1 & Hb1 & Hc1).
  assert (∀ s, ¬ slt s s0 → covered t1 s = true → skipped s) as Hsound1.
  { intros s Hge. rewrite Hc1, orb_true_iff. intros [H|H]; [by apply Hsound|]. left. unfold any_match. apply List.existsb_exists. exists f. by rewrite <- list_elem_of_In. }
  intros r Er. pose proof (or_panic_returns _ _ _ (find_next_bounded m T1 t1 i Hm Hb1 Hi Hli) r Er) as Hr. destruct r as [y|].
  - destruct Hr as (Hy & Hly & Hcy & Hge & Hbetween). split; [done|]. split; [done|]. intros T2 E2.
    destruct (filter_below_returns d T1 t1 i Hi ltac:(unfold Instr.bit_len; lia) Hb1 T2 E2) as (t2 & Hb2 & Hc2).
    split; [intros Hlt; destruct (slt_cotrans _ (stream_of i) _ Hlt); done|]. split.
    + intros s Hs0 Hlt. destruct (slt_dec s i Hi) as [Hsi|Hsi]; [by apply Hbefore | by apply Hsound1, Hbetween].
    + exists t2. split; [split; [done|]; split|].
      * intros s Hs0 [H|H]%Hc2; [by apply Hsound1 | by apply Hbefore].
      * intros s Hp%Hpast. apply Hc2. left. by rewrite Hc1, Hp.
      * apply not_true_iff_false. rewrite Hc2. intros [H|H]; [by rewrite H in Hcy | done].
  - intros s Hs0. destruct (slt_dec s i Hi) as [Hsi|Hsi]; [by apply Hbefore | by apply Hsound1, Hr].
Qed.
Lemma apply_loop_returns fuel : ∀ s0 c i tree reduced, sound_inv s0 (stream_of i) tree → at_instr m c i → end_ c = e →
  returns (apply_loop fuel c fs tree reduced) (λ '(c', ok), ∃ i', answer s0 c' i' ok (negb reduced)).
Proof using Hm Hw Hlen He.
  induction fuel as [|fuel IH]; intros s0 c i tree reduced Hinv Hi Ee; cbn [apply_loop]; [by intros r E|].
  destruct (extended_ok c i reduced Hi Ee) as (c1 & i1 & -> & Hi1 & Ee1 & Hsame & Hext).
  apply (sound_inv_ext _ _ (stream_of i1)) in Hinv as Hinv1; [|done].
  rewrite M_bind_Ok, (at_current _ _ _ Hi1), M_bind_Ok. destruct (FList.matching_filter fs i1) as [f|] eqn:Ef.
  2: { destruct (unmatched_answer s0 c1 i1 tree (negb reduced) Hinv1 Hi1 Ee1 Ef Hext) as (ok & -> & Ha). apply returns_ok. by exists i1. }
  pose proof (at_wf _ _ _ Hi1) as Hwi. pose proof (at_byte_len m ltac:(lia) _ _ Hi1) as Hbl. pose proof (at_len _ _ _ Hi1) as Hl1.
  apply matching_Some in Ef as [Hin _]. eapply returns_bind; [by eapply get_tree_returns|]. intros T (t & Ht).
  eapply returns_bind; [by eapply pruned_returns|]. intros T0 (t0 & Ht0). destruct Hinv1 as (Hge & Hb & _).
  intros r (T1 & E1 & H)%M_bind_Ok_inv.
  pose proof (matched_returns s0 i1 T0 t0 f T1 Ht0 Hge Hb Hwi ltac:(lia) Hin E1) as Hfound.
  apply M_bind_Ok_inv in H as (next & En & H). specialize (Hfound next En). destruct next as [y|].
  - destruct Hfound as (Hy & Hly & Hbelow). apply M_bind_Ok_inv in H as (T2 & E2 & H). specialize (Hbelow T2 E2).
    destruct (set_current_ok m ltac:(lia) c1 i1 y Hi1 Hy Hly) as (c2 & i2 & Eset & Hi2 & Ee2 & Eb). rewrite Eset, M_bind_Ok in H.
    assert (sound_inv s0 (stream_of i2) (Some T2)) as Hinv2.
    { eapply sound_inv_ext; [|exact Hbelow]. intros j. unfold stream_of. by rewrite Eb. }
    pose proof (IH s0 c2 i2 (Some T2) false Hinv2 Hi2 ltac:(congruence) r H) as Ha. destruct r as [c' ok]. destruct Ha as (i' & A1 & A2 & A3).
    exists i'. split; [done|]. split; [done|]. destruct ok; [|done].
    destruct A3 as (B1 & B2 & B3 & B4 & B5). do 3 (split; [done|]). split; [intros _; by apply B4 | done].
  - injection H as <-. exists i1. split; [done|]. split; [done|]. intros s Hs. by apply skipped_past, Hfound.
Qed.
End loop.

(** ** Adding one *)

Lemma bytes_255 k : is_bytes (replicate k 255).
Proof. apply Forall_replicate. split; [done | reflexivity]. Qed.
Lemma bytes_0 k : is_bytes (replicate k 0).
Proof. apply Forall_replicate. by split. Qed.
Lemma be_value_app a b : is_bytes a → is_bytes b → be_value (a ++ b) = be_value a * 2 ^ (8 * Z.of_nat (length b)) + be_value b.
Proof.
  intros Ha Hb. induction Ha as [|x a Hx Ha IH]; [done|]. rewrite <- app_comm_cons, !be_value_cons, IH, length_app by (done || by apply Forall_app).
  replace (8 * Z.of_nat (length a + length b)) with (8 * Z.of_nat (length a) + 8 * Z.of_nat (length b)) by lia. rewrite Z.pow_add_r by lia. ring.
Qed.
Lemma be_value_zeros k : be_value (replicate k 0) = 0.
Proof. induction k as [|k IH]; [done|]. cbn [replicate]. rewrite be_value_cons, IH by (apply bytes_0 || by split). done. Qed.
Lemma be_value_ones k : be_value (replicate k 255) = 2 ^ (8 * Z.of_nat k) - 1.
Proof.
  induction k as [|k IH]; [done|]. cbn [replicate]. rewrite be_value_cons, IH, length_replicate by (apply bytes_255 || by split).
  replace (8 * Z.of_nat (S k)) with (8 + 8 * Z.of_nat k) by lia. rewrite Z.pow_add_r by lia. ring.
Qed.
Lemma next_here c p w : data c !! p = Some w → 0 <= w < 255 → ∃ q a v, (q <= p)%nat ∧ 0 <= v < 255 ∧ length a = q ∧
  data c = a ++ v :: replicate (p - q) 255 ++ drop (S p) (data c) ∧
  (d ← vset (data c) p (w + 1); Ok (with_tunnel_pos (with_data c d) (Z.of_nat p), true)) =
  Ok (with_tunnel_pos (with_data c (a ++ (v + 1) :: replicate (p - q) 0 ++ drop (S p) (data c))) (Z.of_nat q), true).
Proof.
  intros Hp Hv. pose proof (lookup_lt_Some _ _ _ Hp). exists p, (take p (data c)), w. rewrite vset_lt, M_bind_Ok by done.
  split; [lia|]. split; [done|]. split; [by rewrite length_take_le by lia|]. rewrite Nat.sub_diag. cbn [replicate app].
  split; [symmetry; by apply take_drop_middle | by rewrite insert_take_drop].
Qed.
Lemma count_loop_next p : ∀ c, (p < length (data c))%nat → is_bytes (data c) →
  (take (S p) (data c) = replicate (S p) 255 ∧
   next_loop c p = Ok (with_tunnel_pos (with_data c (replicate (length (data c)) 0xff)) 0, false)) ∨
  (∃ q a v, (q <= p)%nat ∧ 0 <= v < 255 ∧ length a = q ∧ data c = a ++ v :: replicate (p - q) 255 ++ drop (S p) (data c) ∧
   next_loop c p = Ok (with_tunnel_pos (with_data c (a ++ (v + 1) :: replicate (p - q) 0 ++ drop (S p) (data c))) (Z.of_nat q), true)).
Proof.
  induction p as [|p IH]; intros c Hp Hb.
  all: destruct (lookup_lt_is_Some_2 _ _ Hp) as [v Hv]; pose proof (Forall_lookup_1 _ _ _ _ Hb Hv) as [Hv0 Hv1]; change (2 ^ 8) with 256 in Hv1;
    cbn [next_loop]; rewrite (proj2 (vget_Ok_inv _ _ _) Hv), M_bind_Ok; destruct (Z.ltb_spec v 255) as [Hlt|Hge].
  1, 3: right; eapply next_here; [done | lia].
  - left. assert (v = 255) as -> by lia. split; [|done]. rewrite (take_S_r _ _ _ Hv). done.
  - assert (v = 255) as -> by lia. rewrite vset_lt, M_bind_Ok by done. set (c1 := with_data c (<[S p := 0]> (data c))).
    assert (take (S p) (data c1) = take (S p) (data c)) as Et by (cbn [data c1 with_data]; by rewrite take_insert_ge by lia).
    destruct (IH c1) as [[Ha E]|(q & a & w & Hq & Hw & Hla & Ed & E)].
    + cbn [data c1 with_data]. rewrite length_insert. lia.
    + cbn [data c1 with_data]. apply Forall_insert; [done | by split].
    + left. rewrite E. cbn [data c1 with_data with_tunnel_pos]. rewrite length_insert. split; [|done].
      rewrite (take_S_r _ _ _ Hv), <- Et, Ha. by rewrite <- replicate_S_end.
    + right. exists q, a, w. assert (drop (S p) (data c1) = 0 :: drop (S (S p)) (data c)) as Edr.
      { cbn [data c1 with_data]. rewrite drop_insert_ge, Nat.sub_diag by lia. rewrite (drop_S _ _ _ Hv). done. }
      split; [lia|]. split; [done|]. split; [done|]. replace (S p - q)%nat with (S (p - q)) by lia. rewrite !replicate_S_end, <- !app_assoc. cbn [app]. split.
      * rewrite <- (take_drop (S p) (data c)) at 1. rewrite <- Et, (drop_S _ _ _ Hv), Ed, Edr.
        assert (take (S p) (a ++ w :: replicate (p - q) 255 ++ 0 :: drop (S (S p)) (data c)) = a ++ w :: replicate (p - q) 255) as ->.
        { rewrite app_comm_cons, app_assoc. rewrite take_app_le by (rewrite length_app; cbn [length]; rewrite length_replicate; lia).
          apply take_ge. rewrite length_app. cbn [length]. rewrite length_replicate. lia. }
        by rewrite <- app_assoc.
      * rewrite E, Edr. done.
Qed.
(** Where the addition stops: the byte [v] before the trailing bytes [255]. *)
Lemma be_value_succ a v k : is_bytes a → 0 <= v < 255 → be_value (a ++ (v + 1) :: replicate k 0) = be_value (a ++ v :: replicate k 255) + 1.
Proof.
  intros Ha Hv. assert (is_byte v ∧ is_byte (v + 1)) as [H1 H2] by (split; split; change (2 ^ 8) with 256; lia).
  pose proof (bytes_0 k). pose proof (bytes_255 k).
  rewrite !be_value_app by (done || by apply Forall_cons). rewrite !be_value_cons, be_value_zeros, be_value_ones by done.
  cbn [length]. rewrite !length_replicate. ring.
Qed.
Lemma next_single_ok c p : length (data c) = 32%nat → is_bytes (data c) → (len c <= 15)%nat → (p < 32)%nat → tunnel_pos c = Z.of_nat p →
  (be_value (take (S p) (data c)) = 2 ^ (8 * Z.of_nat (S p)) - 1 ∧
   next_single c = Ok (with_tunnel_pos (with_data c (replicate 32 255)) 0, false)) ∨
  (∃ q d i, (q <= p)%nat ∧ length d = 32%nat ∧ is_bytes d ∧ drop (S p) d = drop (S p) (data c) ∧
   be_value (take (S p) d) = be_value (take (S p) (data c)) + 1 ∧ take (S p) d = take (S q) d ++ replicate (p - q) 0 ∧
   current (with_tunnel_pos (with_data c d) (Z.of_nat q)) = Ok i ∧ instr_wf i ∧ Instr.bytes i = take (len c) d ∧
   next_single c = Ok (with_tunnel_pos (with_data c d) (Z.of_nat q),
     match end_ c with Some e => match Instr.cmp i e with Gt => false | _ => true end | None => true end)).
Proof.
  intros Hl Hb Hc Hp Et. unfold next_single, index. rewrite Et, (proj2 (Z.ltb_lt _ _)) by lia. cbn [rassert]. rewrite M_bind_Ok, Nat2Z.id.
  destruct (vget_lt (data c) p) as (v0 & -> & _); [lia|]. rewrite M_bind_Ok.
  destruct (count_loop_next p c) as [[Hall ->]|(q & a & v & Hq & Hv & Ha & Ed & ->)]; [lia | done | |]; rewrite M_bind_Ok.
  - left. rewrite Hall, be_value_ones, Hl. done.
  - right. set (z := drop (S p) (data c)) in *. exists q, (a ++ (v + 1) :: replicate (p - q) 0 ++ z).
    assert (length z = 32 - S p)%nat as Hz by (unfold z; rewrite length_drop; lia).
    assert (is_bytes a ∧ is_bytes z) as [Hba Hbz] by (rewrite Ed in Hb; apply Forall_app in Hb as [? [_ [_ ?]%Forall_app]%Forall_cons]; done).
    assert (length (a ++ (v + 1) :: replicate (p - q) 0) = S p) as L1 by (rewrite length_app; cbn [length]; rewrite length_replicate; lia).
    assert (length (a ++ v :: replicate (p - q) 255) = S p) as L2 by (rewrite length_app; cbn [length]; rewrite length_replicate; lia).
    assert (a ++ (v + 1) :: replicate (p - q) 0 ++ z = (a ++ (v + 1) :: replicate (p - q) 0) ++ z) as E1 by (by rewrite <- app_assoc).
    assert (data c = (a ++ v :: replicate (p - q) 255) ++ z) as E2 by (rewrite <- app_assoc; exact Ed).
    set (d := a ++ (v + 1) :: replicate (p - q) 0 ++ z) in *.
    assert (length d = 32%nat) as Ld by (rewrite E1, length_app, L1; lia).
    assert (is_bytes d) as Bd.
    { unfold d. apply Forall_app. split; [done|]. apply Forall_cons. split; [split; change (2 ^ 8) with 256; lia|]. apply Forall_app. split; [apply bytes_0 | done]. }
    assert (length (take (len c) d) = len c) as Lt by (rewrite length_take; lia).
    pose proof (InstructionFacts.new_ok (take (len c) d)) as En. rewrite Lt in En. specialize (En ltac:(unfold Instr.MAX_LEN; lia)).
    destruct (InstructionFacts.new_wf (take (len c) d) _ ltac:(by apply Forall_take) En) as [Hw Hib].
    assert (current (with_tunnel_pos (with_data c d) (Z.of_nat q)) = Instr.new (take (len c) d)) as Ec.
    { unfold current. cbn [data len with_tunnel_pos with_data]. by rewrite (proj2 (Nat.leb_le (len c) (length d))) by lia. }
    rewrite En in Ec. eexists. split; [done|]. split; [done|]. split; [done|]. split; [rewrite E1, drop_app_length' by done; done|].
    split; [|split; [|split; [exact Ec|split; [exact Hw|split; [exact Hib|]]]]].
    + rewrite E1, E2, !take_app_length' by done. by apply be_value_succ.
    + rewrite E1, take_app_length' by done. rewrite take_app_le by lia. replace (S q) with (length (a ++ [v + 1])) by (rewrite length_app; cbn; lia).
      replace (a ++ (v + 1) :: replicate (p - q) 0) with ((a ++ [v + 1]) ++ replicate (p - q) 0) at 2 by (by rewrite <- app_assoc). rewrite take_app_length. by rewrite <- app_assoc.
    + cbn [end_ with_tunnel_pos with_data]. destruct (end_ c) as [e|]; [|done]. rewrite Ec, M_bind_Ok. by destruct (Instr.cmp _ e).
Qed.

(** ** The counter *)

(** The size of the search: filters, end and position of at most [m] bytes, and few enough
    filters that the indices of the trees fit in 40 bits. *)
Record searchable (m : nat) (fs : FilterList) (e : option Instruction) : Prop := {
  se_m : (1 <= m <= 3)%nat;
  se_wf : list_wf (filters fs);
  se_len : Forall (λ f, 0 < Filter.len f <= m)%nat (filters fs);
  se_end : ∀ x, e = Some x → instr_wf x ∧ (Instr.byte_len x <= m)%nat;
  se_room : (8 * Z.of_nat m + Z.of_nat (length (filters fs)) * (8 * Z.of_nat m + 1)) * 2 ^ (8 * Z.of_nat m) < 2 ^ 40 }.
Lemma searchable_room m fs e : searchable m fs e → room Tree.new ((8 * m + length (filters fs) * S (8 * m)) * 2 ^ (8 * m)).
Proof.
  intros [_ _ _ _ H]. unfold room. cbn [length entries Tree.new]. rewrite Nat2Z.inj_add, Nat2Z.inj_mul, Nat2Z.inj_pow.
  replace (Z.of_nat (8 * m)) with (8 * Z.of_nat m) by lia. change (Z.of_nat 2) with 2.
  replace (Z.of_nat (8 * m + length (filters fs) * S (8 * m))) with (8 * Z.of_nat m + Z.of_nat (length (filters fs)) * (8 * Z.of_nat m + 1)) by lia. lia.
Qed.
Lemma apply_ok {P : profile} m fs c i reduced fuel : searchable m fs (end_ c) → at_instr m c i → forallb (λ x, x =? 0xff) (data c) = false →
  (length (filters fs) < fuel)%nat →
  ∃ c' i' ok, apply_filters_to_current fuel c fs reduced = Ok (c', ok) ∧ answer m fs (end_ c) (stream_of i) c' i' ok (negb reduced).
Proof.
  intros Hs Hi Hff Hfuel. unfold apply_filters_to_current. rewrite Hff. pose proof (searchable_room _ _ _ Hs) as Hroom. destruct Hs as [H1 H2 H3 H4 _].
  apply (apply_loop_ok m ltac:(lia) fs (end_ c) H2 H3 H4 fuel ltac:(lia) (stream_of i) c i None (length (filters fs)) reduced Hroom); [|done|done|done].
  split; [apply slt_irrefl|]. split; [done|]. split; [done|]. done.
Qed.

Lemma start_sound m fs e i : sound_inv m fs e (stream_of i) (stream_of i) None.
Proof. split; [apply slt_irrefl|]. by split. Qed.

(** C3: What [apply_filters_to_current] answers is right, for well-formed non-empty
    filters, an end and a position of up to fifteen bytes and a counter that has not
    overflowed (its bytes are not all 0xff), also when its tree grows so large that it
    is pruned.  It answers [true] at the first position, in the order of
    the bits and starting with the current one, whose bits no filter matches:
    everything before it is matched, and it is not past the end.  It answers [false]
    only if every position before the end is matched.  That it returns, with at most
    one iteration for each filter, is shown for searches that are so small that no tree
    is pruned ([searchable]: filters, end and position of at most three bytes, and
    fewer filters than fill the indices of the tree). *)
Theorem apply_filters_spec {P : profile} m fs c i reduced fuel : (1 <= m <= 15)%nat → list_wf (filters fs) →
  Forall (λ f, 0 < Filter.len f <= m)%nat (filters fs) → (∀ x, end_ c = Some x → instr_wf x ∧ (Instr.byte_len x <= m)%nat) →
  at_instr m c i → forallb (λ x, x =? 0xff) (data c) = false →
  (∀ c' ok, apply_filters_to_current fuel c fs reduced = Ok (c', ok) → ∃ i', current c' = Ok i' ∧ end_ c' = end_ c ∧
    if ok then
      ¬ slt (stream_of i') (stream_of i) ∧ (∀ s, ¬ slt s (stream_of i) → slt s (stream_of i') → any_match (filters fs) s = true) ∧
      ¬ in_list (filters fs) i' ∧ (reduced = false → any_match (filters fs) (stream_of i') = false) ∧
      (∀ x, end_ c = Some x → Instr.cmp i' x ≠ Gt)
    else ∀ s, ¬ slt s (stream_of i) → any_match (filters fs) s = true ∨ ∃ x, end_ c = Some x ∧ ¬ slt s (stream_of x)) ∧
  (searchable m fs (end_ c) → (length (filters fs) < fuel)%nat → ∃ c' ok, apply_filters_to_current fuel c fs reduced = Ok (c', ok)).
Proof.
  intros Hm Hw Hl He Hi Hff. split.
  - intros c' ok E. unfold apply_filters_to_current in E. rewrite Hff in E.
    destruct (apply_loop_returns m Hm fs (end_ c) Hw Hl He fuel (stream_of i) c i None reduced (start_sound _ _ _ _) Hi eq_refl _ E) as (i' & Hi' & Ee & Ha).
    exists i'. split; [apply Hi'|]. split; [done|]. destruct ok; [|done].
    destruct Ha as (A1 & A2 & A3 & A4 & A5). do 3 (split; [done|]). split; [|done]. intros ->. by apply A4.
  - intros Hs Hfuel. destruct (apply_ok m fs c i reduced fuel Hs Hi Hff Hfuel) as (c' & i' & ok & E & _). by exists c', ok.
Qed.

(** [next_single] adds one to the number in the bytes up to the tunnel position and
    leaves the bytes after it; the tunnel position moves to the last byte that is not
    zero after a carry.  If all these bytes are [0xff] it answers [false] and fills
    the counter; otherwise it answers whether the new position is within the end. *)
Theorem next_single_spec c p : length (data c) = 32%nat → is_bytes (data c) → (len c <= 15)%nat → (p < 32)%nat → tunnel_pos c = Z.of_nat p →
  let v := be_value (take (S p) (data c)) in
  ∃ c' ok, next_single c = Ok (c', ok) ∧ len c' = len c ∧ end_ c' = end_ c ∧
  if v =? 2 ^ (8 * Z.of_nat (S p)) - 1 then ok = false ∧ data c' = replicate 32 0xff
  else
    be_value (take (S p) (data c')) = v + 1 ∧ drop (S p) (data c') = drop (S p) (data c) ∧
    (∃ q, (q <= p)%nat ∧ tunnel_pos c' = Z.of_nat q ∧ take (S p) (data c') = take (S q) (data c') ++ replicate (p - q) 0) ∧
    ∃ i, current c' = Ok i ∧ ok = match end_ c with Some e => match Instr.cmp i e with Gt => false | _ => true end | None => true end.
Proof.
  intros Hl Hb Hc Hp Et v. assert (v <= 2 ^ (8 * Z.of_nat (S p)) - 1) as Hle.
  { unfold v. pose proof (be_value_is_u (take (S p) (data c)) ltac:(by apply Forall_take)) as [_ H]. rewrite length_take, Nat.min_l in H by lia. lia. }
  destruct (next_single_ok c p Hl Hb Hc Hp Et) as [[Hv E]|(q & d & i & Hq & Ld & Bd & Hdr & Hv & Ht & Ec & Hi & _ & E)].
  - eexists _, _. split; [exact E|]. split; [done|]. split; [done|]. fold v in Hv. by rewrite (proj2 (Z.eqb_eq _ _) Hv).
  - eexists _, _. split; [exact E|]. split; [done|]. split; [done|]. fold v in Hv.
    assert (be_value (take (S p) d) <= 2 ^ (8 * Z.of_nat (S p)) - 1).
    { pose proof (be_value_is_u (take (S p) d) ltac:(by apply Forall_take)) as [_ H]. rewrite length_take, Nat.min_l in H by lia. lia. }
    rewrite (proj2 (Z.eqb_neq _ _)) by lia. split; [done|]. split; [done|]. split; [by exists q|]. by exists i.
Qed.

(** ** Steps of the counter *)

Lemma not_all_ff d : d !! 31%nat = Some 0 → forallb (λ x, x =? 0xff) d = false.
Proof.
  intros H. apply not_true_iff_false. intros Hf. rewrite List.forallb_forall in Hf. apply list_elem_of_lookup_2, list_elem_of_In, Hf in H. done.
Qed.
(** The position after [next_single] and the truncation of the trailing zeros. *)
Lemma tunnel_apply {P : profile} m fs c1 j p q fuel : searchable m fs (end_ c1) → length (data c1) = 32%nat → is_bytes (data c1) → data c1 !! 31%nat = Some 0 →
  (q <= p < m)%nat → len c1 = (q + 1)%nat → Instr.bytes j = take (S p) (data c1) → take (S p) (data c1) = take (S q) (data c1) ++ replicate (p - q) 0 →
  (length (filters fs) < fuel)%nat →
  ∃ c' i' ok, apply_filters_to_current fuel c1 fs false = Ok (c', ok) ∧ answer m fs (end_ c1) (stream_of j) c' i' ok true.
Proof.
  intros Hs Ld Bd H31 Hq Hl Hjb Ht Hfuel. pose proof (se_m _ _ _ Hs) as Hm.
  destruct (at_instr_intro m ltac:(lia) c1) as [j1 Hj1]; [done | done | lia|].
  destruct (apply_ok m fs c1 j1 false fuel Hs Hj1) as (c' & i' & ok & E' & A1 & A2 & A3); [by apply not_all_ff | done|].
  exists c', i', ok. split; [exact E'|]. split; [done|]. split; [done|].
  assert (∀ k, stream_of j k = stream_of j1 k) as Hsame.
  { intros k. unfold stream_of. rewrite Hjb, (at_i _ _ _ Hj1), Hl, Ht, Nat.add_1_r. apply lbit_app_zeros. }
  assert (∀ s, slt s (stream_of j) ↔ slt s (stream_of j1)) as Hslt by (intros s; split; apply slt_ext; done).
  destruct ok; [|intros s Hs'; apply A3; by rewrite <- Hslt]. destruct A3 as (B1 & B2 & B3 & B4 & B5).
  split; [by rewrite Hslt|]. split; [intros s Hs'; apply B2; by rewrite <- Hslt|]. done.
Qed.
(** [tunnel_next], before the tunnel delay has passed, goes to the first position from
    the next instruction of the same length on that no filter matches.  It answers
    [false] for the last instruction of its length and when the next instruction or
    all unmatched ones are past the end. *)
Theorem tunnel_next_spec {P : profile} m fs c i fuel delay : searchable m fs (end_ c) → at_instr m c i → data c !! 31%nat = Some 0 →
  0 <= num_tunneled c → num_tunneled c + 1 < delay < 2 ^ 64 → (length (filters fs) < fuel)%nat →
  ∃ c' ok, tunnel_next fuel c fs delay = Ok (c', ok) ∧ end_ c' = end_ c ∧
  if be_value (Instr.bytes i) =? 2 ^ (8 * Z.of_nat (Instr.byte_len i)) - 1 then ok = false
  else ∃ i1, instr_wf i1 ∧ Instr.byte_len i1 = Instr.byte_len i ∧ be_value (Instr.bytes i1) = be_value (Instr.bytes i) + 1 ∧
    if match end_ c with Some e => match Instr.cmp i1 e with Gt => true | _ => false end | None => false end then ok = false
    else ∃ i', answer m fs (end_ c) (stream_of i1) c' i' ok true.
Proof.
  intros Hs Hi H31 Hn Hd Hfuel. pose proof (se_m _ _ _ Hs) as Hm. destruct Hi as [H1 H2 H3 H4 H5 H6].
  assert (Instr.byte_len i = len c) as Hbl by (unfold Instr.byte_len; rewrite H6, length_take; lia).
  unfold tunnel_next, add_u. rewrite bool_decide_eq_true_2 by (split; lia). rewrite M_bind_Ok. cbn [num_tunneled with_num_tunneled].
  rewrite (proj2 (Z.ltb_lt _ _)) by lia. cbn [orb]. unfold sub_u. cbn [len with_num_tunneled].
  rewrite bool_decide_eq_true_2 by (split; [lia|]; apply (Z.lt_trans _ 32); [lia | done]). rewrite !M_bind_Ok.
  set (c0 := with_tunnel_pos (with_num_tunneled c (num_tunneled c + 1)) (Z.of_nat (len c) - 1)). destruct (len c) as [|p] eqn:Ep; [lia|].
  destruct (next_single_ok c0 p) as [[Hv E]|(q & d & j & Hq & Ld & Bd & Hdr & Hv & Ht & Ec & Hj & Hjb & E)];
    [done | done | cbn; lia | lia | cbn; lia | |]; rewrite E, M_bind_Ok.
  - cbn [negb]. eexists _, _. split; [done|]. split; [done|]. rewrite H6, Hbl. cbn [data c0 with_tunnel_pos with_num_tunneled] in Hv. by rewrite (proj2 (Z.eqb_eq _ _) Hv).
  - cbn [data c0 with_tunnel_pos with_num_tunneled end_ with_data len] in *. rewrite Ep in Hjb.
    assert (Instr.byte_len j = S p) as Hjl by (unfold Instr.byte_len; rewrite Hjb, length_take; lia).
    pose proof (be_value_is_u _ (proj1 (bytes_wf j Hj))) as [_ Hju]. unfold Instr.byte_len in Hjl. rewrite Hjb, length_take, Nat.min_l in Hju by lia.
    set (past_end := match end_ c with Some e => match Instr.cmp j e with Gt => true | _ => false end | None => false end).
    assert (match end_ c with Some e => match Instr.cmp j e with Gt => false | _ => true end | None => true end = negb past_end) as ->
      by (unfold past_end; destruct (end_ c) as [e|]; [|done]; by destruct (Instr.cmp j e)).
    assert ((be_value (Instr.bytes i) =? 2 ^ (8 * Z.of_nat (Instr.byte_len i)) - 1) = false) as Hne by (rewrite H6, Hbl; apply Z.eqb_neq; lia).
    assert (∀ (c' : InstructionCounter) ok, (if past_end then ok = false else ∃ i', answer m fs (end_ c) (stream_of j) c' i' ok true) →
      if be_value (Instr.bytes i) =? 2 ^ (8 * Z.of_nat (Instr.byte_len i)) - 1 then ok = false
      else ∃ i1, instr_wf i1 ∧ Instr.byte_len i1 = Instr.byte_len i ∧ be_value (Instr.bytes i1) = be_value (Instr.bytes i) + 1 ∧
        if match end_ c with Some e => match Instr.cmp i1 e with Gt => true | _ => false end | None => false end then ok = false
        else ∃ i', answer m fs (end_ c) (stream_of i1) c' i' ok true) as Hgoal.
    { intros c' ok H. rewrite Hne. exists j. split; [done|]. split; [unfold Instr.byte_len at 1; congruence|]. by rewrite Hjb, H6. }
    destruct past_end; cbn [negb]; [eexists _, _; split; [done|]; split; [done|]; by apply Hgoal|].
    assert (num_tunneled (with_tunnel_pos (with_data c0 d) (Z.of_nat q)) = num_tunneled c + 1) as -> by done.
    rewrite (proj2 (Z.ltb_lt _ _)) by lia. cbn [tunnel_pos with_tunnel_pos]. rewrite Nat2Z.id.
    destruct (tunnel_apply m fs (with_len (with_tunnel_pos (with_data c0 d) (Z.of_nat q)) (q + 1)) j p q fuel) as (c' & i' & ok & E' & Ha); try done; [|lia|].
    + cbn. rewrite <- (take_drop (S p) d). rewrite lookup_app_r by (rewrite length_take; lia). rewrite length_take, Nat.min_l by lia.
      rewrite Hdr, lookup_drop. by replace (S p + (31 - S p))%nat with 31%nat by lia.
    + exists c', ok. split; [exact E'|]. split; [apply Ha|]. apply Hgoal. by exists i'.
Qed.

(** [extend] goes on from the current bits; [reduce] goes on from the bits of the
    shortened instruction, which it does not extend again if no filter matches it. *)
Theorem extend_reduce_spec {P : profile} m fs c i fuel fast : searchable m fs (end_ c) → at_instr m c i → data c !! 31%nat = Some 0 →
  (length (filters fs) < fuel)%nat →
  ((len c < m)%nat → ∃ c' i' ok, extend fuel c fs fast = Ok (c', ok) ∧ answer m fs (end_ c) (stream_of i) c' i' ok true) ∧
  ((1 < len c)%nat → ∃ i0 c' i' ok, reduce fuel c fs fast = Ok (c', ok) ∧ Instr.bytes i0 = take (len c - 1) (Instr.bytes i) ∧
     answer m fs (end_ c) (stream_of i0) c' i' ok false).
Proof.
  intros Hs Hi H31 Hfuel. pose proof (se_m _ _ _ Hs) as Hm. pose proof Hi as [H1 H2 H3 H4 H5 H6]. split; intros Hl.
  - destruct (extend_internal_ok m ltac:(lia) c i fast Hi Hl) as (c1 & i1 & E & Hi1 & Ee & El & Hsame). unfold extend. rewrite E, M_bind_Ok.
    rewrite <- Ee in *. assert (data c1 = <[len c := 0]> (data c)) as Ed.
    { unfold extend_internal in E. rewrite vset_lt, M_bind_Ok in E by lia. destruct fast; cbn [negb] in E; by injection E as <-. }
    destruct (apply_ok m fs c1 i1 false fuel Hs Hi1) as (c' & i' & ok & E' & A1 & A2 & A3); [|done|].
    { apply not_all_ff. rewrite Ed, list_lookup_insert_ne by lia. done. }
    exists c', i', ok. split; [done|]. split; [done|]. split; [done|].
    assert (∀ s, slt s (stream_of i1) ↔ slt s (stream_of i)) as Hslt by (intros s; split; apply slt_ext; done).
    destruct ok; [|intros s Hs'; apply A3; by rewrite Hslt]. destruct A3 as (B1 & B2 & B3 & B4 & B5).
    split; [by rewrite <- Hslt|]. split; [intros s Hs'; apply B2; by rewrite Hslt|]. done.
  - unfold reduce, Instr.index_sub. rewrite (proj2 (Nat.leb_le 1 (len c))), M_bind_Ok, vset_lt, M_bind_Ok by lia.
    set (d := <[(len c - 1)%nat := 0]> (data c)).
    assert (∃ c1, (if negb fast || (Z.of_nat (len (with_len (with_data c d) (len c - 1))) <=? tunnel_pos (with_len (with_data c d) (len c - 1)))
      then p ← sub_u 64 (Z.of_nat (len (with_len (with_data c d) (len c - 1)))) 1;
           Ok (with_num_tunneled (with_tunnel_pos (with_len (with_data c d) (len c - 1)) p) 0)
      else Ok (with_len (with_data c d) (len c - 1))) = Ok c1 ∧ data c1 = d ∧ len c1 = (len c - 1)%nat ∧ end_ c1 = end_ c) as (c1 & -> & Ed & El & Ee).
    { destruct (_ || _); [|by eexists]. unfold sub_u. cbn [len with_len]. rewrite bool_decide_eq_true_2, M_bind_Ok by (split; [lia|]; apply (Z.lt_trans _ 32); [lia | done]).
      by eexists. }
    rewrite M_bind_Ok. destruct (at_instr_intro m ltac:(lia) c1) as [i0 Hi0]; [rewrite Ed; unfold d; by rewrite length_insert | rewrite Ed; by apply Forall_insert | lia|].
    rewrite <- Ee in *. destruct (apply_ok m fs c1 i0 true fuel Hs Hi0) as (c' & i' & ok & E' & Ha); [|done|].
    { apply not_all_ff. rewrite Ed. unfold d. rewrite list_lookup_insert_ne by lia. done. }
    exists i0, c', i', ok. split; [done|]. split; [|done]. rewrite (at_i _ _ _ Hi0), El, Ed, H6. unfold d. rewrite take_insert_ge, take_take by lia.
    f_equal. lia.
Qed.
(** [next_happy_group] returns the instructions that differ from the current one in the
    byte at the tunnel position, from its value up to [0xff], if it is below 220. *)
Theorem next_happy_group_spec m c i p v : (m <= 15)%nat → at_instr m c i → tunnel_pos c = Z.of_nat p → (p < len c)%nat → data c !! p = Some v →
  ∃ r, next_happy_group c = Ok r ∧ if v <? 220 then ∃ l, r = Some l ∧ length l = Z.to_nat (256 - v) ∧
    ∀ k x, l !! k = Some x → instr_wf x ∧ Instr.bytes x = <[p := v + Z.of_nat k]> (Instr.bytes i)
  else r = None.
Proof.
  intros Hm [H1 H2 H3 H4 H5 H6] Hp Hlt Hv. unfold next_happy_group, index. rewrite Hp, (proj2 (Z.ltb_lt _ _)) by lia. cbn [rassert].
  rewrite M_bind_Ok, Nat2Z.id, (proj2 (vget_Ok_inv _ _ _) Hv), M_bind_Ok. destruct (Z.ltb_spec v 220) as [Hv220|]; [|by eexists].
  pose proof (Forall_lookup_1 _ _ _ _ H2 Hv) as [Hv0 _].
  assert (∀ b, b ∈ bytes_from v → 0 <= b < 256) as Hb by (intros b (k & -> & Hk%elem_of_seq)%list_elem_of_fmap; lia).
  destruct (mapM_exists (λ b, d ← vset (data c) p b; assert! (len c <=? length d)%nat; Instr.new (take (len c) d)) (bytes_from v)) as [l El].
  { intros b Hin. rewrite vset_lt, M_bind_Ok, length_insert, (proj2 (Nat.leb_le (len c) _)) by lia. cbn [rassert]. rewrite M_bind_Ok.
    eexists. apply InstructionFacts.new_ok. rewrite length_take. unfold Instr.MAX_LEN. lia. }
  rewrite El, M_bind_Ok. eexists. split; [done|]. exists l. split; [done|].
  split; [apply mapM_length in El; rewrite El; unfold bytes_from; by rewrite length_fmap, length_seq|].
  intros k x Hk. apply mapM_Forall2 in El. destruct (Forall2_lookup_r _ _ _ _ _ El Hk) as (b & Hbk & Ex).
  rewrite vset_lt, M_bind_Ok, length_insert, (proj2 (Nat.leb_le (len c) _)) in Ex by lia. cbn [rassert] in Ex. rewrite M_bind_Ok in Ex.
  apply InstructionFacts.new_wf in Ex as [Hwx ->].
  - split; [done|]. unfold bytes_from in Hbk. rewrite list_lookup_fmap in Hbk. destruct (seq 0 _ !! k) as [k'|] eqn:Ek; [|done]. cbn in Hbk. injection Hbk as <-.
    apply lookup_seq in Ek as [-> _]. rewrite H6. cbn [Nat.add]. by rewrite take_insert_lt by done.
  - apply Forall_take, Forall_insert; [done|]. apply list_elem_of_lookup_2, Hb in Hbk. split; [lia | change (2 ^ 8) with 256; lia].
Qed.

(** ** Witnesses *)

(** The filter [0000____], from the instruction [05] to the end [40]. *)
Definition example_filters : FilterList := {| filters := [{| bfs := [{| mask := 0xf0; value := 0 |}] |}] |}.
Definition example_counter (d : list Z) : InstructionCounter :=
  {| data := d ++ replicate (32 - length d) 0; len := length d; end_ := Some (example_instr [0x40]); tunnel_pos := Z.of_nat (length d) - 1; num_tunneled := 0 |}.
Lemma example_searchable m d : (1 <= m <= 2)%nat → searchable m example_filters (end_ (example_counter d)).
Proof.
  intros Hm. split; [lia | apply Forall_cons; split; [filter_wf | constructor] | apply Forall_cons; split; [cbn; lia | constructor] | |].
  - intros x [= <-]. split; [example_wf | cbn; lia].
  - assert (m = 1 ∨ m = 2)%nat as [->| ->] by lia; reflexivity.
Qed.
Lemma example_at m d : is_bytes d → (1 <= length d <= m)%nat → (m <= 15)%nat → at_instr m (example_counter d) (example_instr d).
Proof.
  intros Hb Hl Hm. assert (take (length d) (d ++ replicate (32 - length d) 0) = d) as Et by apply take_app_length.
  pose proof (InstructionFacts.new_ok d ltac:(unfold Instr.MAX_LEN; lia)) as En. destruct (InstructionFacts.new_wf d _ Hb En) as [Hw Hd].
  split; cbn [example_counter data len]; rewrite ?Et; [rewrite length_app, length_replicate; lia | apply Forall_app; split; [done | apply bytes_0] | done | | exact Hw | exact Hd].
  unfold current. cbn [example_counter data len]. rewrite Et, length_app, (proj2 (Nat.leb_le _ _)) by lia. exact En.
Qed.
Ltac example_bytes := apply (bool_decide_unpack _); vm_compute; exact I.
Lemma apply_filters_spec_witness : ∃ c' i', apply_filters_to_current (P := Dev) 2 (example_counter [0x05]) example_filters false = Ok (c', true) ∧
  current c' = Ok i' ∧ any_match (filters example_filters) (stream_of i') = false.
Proof.
  pose proof (example_searchable 1 [0x05] ltac:(lia)) as Hs. pose proof Hs as [_ Hw Hl He _].
  destruct (apply_filters_spec (P := Dev) 1 example_filters (example_counter [0x05]) (example_instr [0x05]) false 2) as [Hok Hret];
    [lia | done | done | done | apply example_at; [example_bytes | cbn; lia | lia] | reflexivity |].
  destruct (Hret Hs) as (c' & ok & E); [cbn; lia|]. destruct (Hok c' ok E) as (i' & Ec & _ & H).
  assert (ok = true) as -> by (vm_compute in E; by injection E). exists c', i'. split; [exact E|]. split; [exact Ec|]. by apply H.
Defined.
Lemma next_single_spec_witness : ∃ c', next_single (example_counter [0x05; 0xff]) = Ok (c', true) ∧ be_value (take 2 (data c')) = 0x600.
Proof.
  destruct (next_single_spec (example_counter [0x05; 0xff]) 1) as (c' & ok & E & _ & _ & H);
    [reflexivity | example_bytes | cbn; lia | lia | reflexivity|].
  assert (ok = true) as -> by (vm_compute in E; by injection E). exists c'. split; [exact E|]. destruct H as [-> _]. reflexivity.
Defined.
Lemma tunnel_next_spec_witness : ∃ c' ok i', tunnel_next (P := Dev) 2 (example_counter [0x05]) example_filters 200 = Ok (c', ok) ∧ current c' = Ok i'.
Proof.
  destruct (tunnel_next_spec (P := Dev) 1 example_filters (example_counter [0x05]) (example_instr [0x05]) 2 200) as (c' & ok & E & _ & H);
    [apply example_searchable; lia | apply example_at; [example_bytes | cbn; lia | lia] | reflexivity | done | done | cbn; lia|].
  assert ((be_value (Instr.bytes (example_instr [0x05])) =? 2 ^ (8 * Z.of_nat (Instr.byte_len (example_instr [0x05]))) - 1) = false) as Hne by reflexivity.
  rewrite Hne in H. destruct H as (i1 & _ & _ & _ & H). destruct (match end_ _ with Some _ => _ | None => _ end).
  - subst ok. vm_compute in E. discriminate E.
  - destruct H as (i' & Ha & _). exists c', ok, i'. split; [exact E | apply Ha].
Defined.
Lemma extend_reduce_spec_witness : ∃ c' ok, extend (P := Dev) 2 (example_counter [0x05]) example_filters true = Ok (c', ok).
Proof.
  destruct (extend_reduce_spec (P := Dev) 2 example_filters (example_counter [0x05]) (example_instr [0x05]) 2 true) as [H _];
    [apply example_searchable; lia | apply example_at; [example_bytes | cbn; lia | lia] | reflexivity | cbn; lia|].
  destruct H as (c' & _ & ok & E & _); [cbn; lia|]. by exists c', ok.
Defined.
Lemma next_happy_group_spec_witness : ∃ l, next_happy_group (example_counter [0x05; 0x10]) = Ok (Some l) ∧ length l = 240%nat.
Proof.
  destruct (next_happy_group_spec 2 (example_counter [0x05; 0x10]) (example_instr [0x05; 0x10]) 1 0x10) as (r & E & l & -> & Hl & _);
    [lia | apply example_at; [example_bytes | cbn; lia | lia] | reflexivity | cbn; lia | reflexivity|].
  exists l. split; [exact E | exact Hl].
Defined.
