(* ===== verification/Addr.v ===== *)
(** * Addresses, pages and memory areas

    Models [liblisa/src/state/addr.rs]: 64-bit addresses with wrap-around
    arithmetic, pages of [2^PAGE_BITS] bytes, and areas, which may run past
    the end of the address space and continue at 0.  [PAGE_BITS] is a constant
    of the [Arch] trait and an argument here.  The specification of an area is
    the set of addresses it holds ([within]). *)
From S2P Require Import Prelude MachInt Utils.

(** [u64::checked_add] and [u64::checked_sub]. *)
Definition checked_add_u (w a b : Z) : option Z :=
  if bool_decide (is_u w (a + b)) then Some (a + b) else None.
Definition checked_sub_u (w a b : Z) : option Z :=
  if bool_decide (is_u w (a - b)) then Some (a - b) else None.
(** [wrapping_add] and [wrapping_sub] on a [u64]. *)
Definition wrapping_add (a b : Z) : Z := wrap 64 (a + b).
Definition wrapping_sub (a b : Z) : Z := wrap 64 (a - b).

(** [Addr] is a [#[repr(transparent)]] wrapper of a [u64]; [Page] holds the
    index of the page. *)
Definition Addr := Z.
Definition Page := Z.
Record Area := { area_addr : Addr; area_size : Z }.

#[export] Instance Area_eq_dec : EqDecision Area.
Proof. solve_decision. Defined.

Module AddrOps.
Section ops.
Context {P : profile}.

(** [Area::new]. *)
Definition area_new (addr : Addr) (size : Z) : Area := {| area_addr := addr; area_size := size |}.
Definition into_area (self : Addr) (size : Z) : Area := area_new self size.
Definition page (PAGE_BITS : Z) (self : Addr) : M Page := shr 64 self PAGE_BITS.
Definition align_to_page_start (self : Addr) (page_bits : Z) : M Addr :=
  p ← shr 64 self page_bits; shl_u 64 p page_bits.
Definition addr_trailing_zeros (self : Addr) : nat := trailing_zeros 64 self.
Definition distance (self other : Addr) : M Z :=
  if other <? self then sub_u 64 self other else sub_u 64 other self.
Definition distance_between (self other : Addr) : Z :=
  Z.min (wrapping_sub self other) (wrapping_sub other self).
(** [Addr + u64], [Addr - u64] and [Addr - Addr]. *)
Definition addr_add (self : Addr) (rhs : Z) : Addr := wrapping_add self rhs.
Definition addr_sub (self : Addr) (rhs : Z) : Addr := wrapping_sub self rhs.
Definition addr_diff (self rhs : Addr) : Z := wrapping_sub self rhs.

(** [Page::start_addr] and its relatives. *)
Definition page_start_addr (PAGE_BITS : Z) (self : Page) : M Addr := shl_u 64 self PAGE_BITS.
Definition page_mask (PAGE_BITS : Z) : M Z := one ← shl_u 64 1 PAGE_BITS; sub_u 64 one 1.
Definition last_address_of_page (PAGE_BITS : Z) (self : Page) : M Addr :=
  s ← shl_u 64 self PAGE_BITS; m ← page_mask PAGE_BITS; Ok (Z.lor s m).
Definition first_address_after_page (PAGE_BITS : Z) (self : Page) : M Addr :=
  n ← add_u 64 self 1; shl_u 64 n PAGE_BITS.
Definition page_add (PAGE_BITS : Z) (self : Page) (rhs : Z) : M Page :=
  s ← shl_u 64 (wrapping_add self rhs) PAGE_BITS; shr 64 s PAGE_BITS.
Definition page_sub (PAGE_BITS : Z) (self : Page) (rhs : Z) : M Page :=
  s ← shl_u 64 (wrapping_sub self rhs) PAGE_BITS; shr 64 s PAGE_BITS.

Definition offset (self : Area) (offset : Z) : Area :=
  {| area_addr := addr_add (area_addr self) offset; area_size := area_size self |}.

(** [Area::contains] calls itself on the shifted area; the fuel counts the
    calls. *)
Fixpoint contains (fuel : nat) (self : Area) (addr : Addr) : M bool :=
  match fuel with
  | O => OutOfFuel
  | S fuel =>
      match checked_add_u 64 (area_addr self) (area_size self) with
      | Some end_addr =>
          Ok ((0 <? area_size self) && (area_addr self <=? addr) && (addr <? end_addr))
      | None =>
          o ← sub_u 64 (area_size self) (wrapping_add (area_addr self) (area_size self));
          contains fuel (offset self o) (addr_add addr o)
      end
  end.

(** [Area::end_addr]. *)
Definition end_addr (self : Area) : M Z :=
  n ← sub_u 64 (area_size self) 1; Ok (wrapping_add (area_addr self) n).
Definition first_address_after (self : Area) : Addr := wrapping_add (area_addr self) (area_size self).
Definition extend_before (self : Area) (size : Z) : M Area :=
  s ← add_u 64 (area_size self) size;
  Ok {| area_addr := wrapping_sub (area_addr self) size; area_size := s |}.
Definition crosses_page_bounds (self : Area) (page_bits : Z) : M bool :=
  start_index ← shr 64 (area_addr self) page_bits;
  e ← end_addr self;
  end_index ← shr 64 e page_bits;
  Ok (negb (start_index =? end_index)).
Definition expand_to_page (PAGE_BITS : Z) (self : Area) : M Area :=
  addr ← align_to_page_start (area_addr self) PAGE_BITS;
  new_size ← add_u 64 (area_size self) (addr_diff (area_addr self) addr);
  m ← page_mask PAGE_BITS;
  s ← add_u 64 new_size m;
  s ← shr 64 s PAGE_BITS;
  size ← shl_u 64 s PAGE_BITS;
  Ok {| area_addr := addr; area_size := size |}.

Definition last_addr (self : Area) : M (option Addr) :=
  n ← sub_u 64 (area_size self) 1; Ok (checked_add_u 64 (area_addr self) n).
Definition overlaps_with (self other : Area) : M bool :=
  l ← last_addr self;
  l' ← last_addr other;
  match l, l' with
  | Some end_, Some other_end =>
      Ok ((area_addr self <=? other_end) && (area_addr other <=? end_))
  | Some _, None | None, Some _ =>
      let offset_self_to_0 := wrapping_sub 0 (area_addr self) in
      o ← last_addr (offset other offset_self_to_0);
      let off := if bool_decide (is_Some o) then offset_self_to_0
                 else wrapping_sub 0 (area_addr other) in
      let new_self := offset self off in
      let new_other := offset other off in
      e ← last_addr new_self;
      end_ ← unwrap e;
      e ← last_addr new_other;
      other_end ← unwrap e;
      Ok ((area_addr new_self <=? other_end) && (area_addr new_other <=? end_))
  | None, None => Ok true
  end.
Definition shares_page_with (PAGE_BITS : Z) (self other : Area) : M bool :=
  a ← expand_to_page PAGE_BITS self;
  b ← expand_to_page PAGE_BITS other;
  overlaps_with a b.
End ops.
End AddrOps.
Import AddrOps.

(** ** The set of addresses of an area *)

(** [x] is one of the [size] addresses from [addr] on, counted modulo 2^64. *)
Definition within (a : Area) (x : Addr) : Prop :=
  is_u 64 x ∧ wrapping_sub x (area_addr a) < area_size a.
#[export] Instance within_dec a x : Decision (within a x).
Proof. unfold within; apply _. Defined.
Record area_wf (a : Area) : Prop := {
  area_wf_addr : is_u 64 (area_addr a);
  area_wf_size : 0 < area_size a <= 2 ^ 63;
}.

(** Case analysis on the wrap-around: the one step by which a sum or a
    difference of two 64-bit values leaves the range. *)
Lemma wrapping_add_cases a b : is_u 64 a → is_u 64 b →
  (a + b < 2 ^ 64 ∧ wrapping_add a b = a + b) ∨ (2 ^ 64 <= a + b ∧ wrapping_add a b = a + b - 2 ^ 64).
Proof.
  intros [Ha Ha'] [Hb Hb']. destruct (Z.lt_ge_cases (a + b) (2 ^ 64)); [left|right]; (split; [done|]).
  - apply wrap_small. split; lia.
  - unfold wrapping_add, wrap. symmetry. apply Z.mod_unique with 1; lia.
Qed.
Lemma wrapping_sub_cases a b : is_u 64 a → is_u 64 b →
  (b <= a ∧ wrapping_sub a b = a - b) ∨ (a < b ∧ wrapping_sub a b = a - b + 2 ^ 64).
Proof.
  intros [Ha Ha'] [Hb Hb']. destruct (Z.lt_ge_cases a b); [right|left]; (split; [done|]).
  - unfold wrapping_sub, wrap. symmetry. apply Z.mod_unique with (-1); lia.
  - apply wrap_small. split; lia.
Qed.
Lemma wrapping_add_u a b : is_u 64 (wrapping_add a b).
Proof. by apply wrap_is_u. Qed.
Lemma wrapping_sub_u a b : is_u 64 (wrapping_sub a b).
Proof. by apply wrap_is_u. Qed.
#[export] Hint Resolve wrapping_add_u wrapping_sub_u : rust.

Lemma is_u_64 x : is_u 64 x ↔ 0 <= x < 18446744073709551616.
Proof. done. Qed.

(** [wraps]: opens every wrapping sum and difference of the context and of the
    goal by cases; the literals keep [lia] away from the powers. *)
Ltac wrap_step :=
  match goal with
  | |- context [wrapping_add ?a ?b] => wrap_add_case a b
  | |- context [wrapping_sub ?a ?b] => wrap_sub_case a b
  | H : context [wrapping_add ?a ?b] |- _ => wrap_add_case a b
  | H : context [wrapping_sub ?a ?b] |- _ => wrap_sub_case a b
  end
with wrap_add_case a b :=
  let r := fresh "r" in
  let H := fresh "Hw" in
  pose proof (wrapping_add_cases a b ltac:(rewrite is_u_64 in *; lia) ltac:(rewrite is_u_64 in *; lia)) as H;
  pose proof (wrapping_add_u a b);
  generalize dependent (wrapping_add a b); intros r; intros
with wrap_sub_case a b :=
  let r := fresh "r" in
  let H := fresh "Hw" in
  pose proof (wrapping_sub_cases a b ltac:(rewrite is_u_64 in *; lia) ltac:(rewrite is_u_64 in *; lia)) as H;
  pose proof (wrapping_sub_u a b);
  generalize dependent (wrapping_sub a b); intros r; intros.
Ltac wraps :=
  repeat wrap_step; rewrite ?is_u_64 in *;
  change (2 ^ 64) with 18446744073709551616 in *; change (2 ^ 63) with 9223372036854775808 in *.

Lemma within_wrap a x : is_u 64 (area_addr a) → is_u 64 x →
  within a x ↔ (area_addr a <= x ∧ x < area_addr a + area_size a) ∨
               (x < area_addr a ∧ x + 2 ^ 64 < area_addr a + area_size a).
Proof. intros Ha Hx. unfold within. wraps. intuition lia. Qed.

Lemma within_offset a o x : is_u 64 (area_addr a) → is_u 64 o → is_u 64 x →
  within (offset a o) (wrapping_add x o) ↔ within a x.
Proof.
  intros Ha Ho Hx. unfold within, offset, addr_add. cbn [area_addr area_size].
  assert (wrapping_sub (wrapping_add x o) (wrapping_add (area_addr a) o) = wrapping_sub x (area_addr a)) as ->.
  { wraps. lia. }
  naive_solver auto with rust.
Qed.

Lemma checked_add_u_spec w a b r : checked_add_u w a b = r →
  (r = Some (a + b) ∧ is_u w (a + b)) ∨ (r = None ∧ ~ is_u w (a + b)).
Proof. unfold checked_add_u. intros <-. case_bool_decide; naive_solver. Qed.

(** The recursive call of [contains] is on an area that no longer wraps: it
    starts at 0. *)
Lemma contains_nowrap {P : profile} fuel a x : is_u 64 (area_addr a) → 0 <= area_size a → is_u 64 x →
  area_addr a + area_size a < 2 ^ 64 →
  contains (S fuel) a x = Ok (bool_decide (within a x)).
Proof.
  intros Ha Hs Hx H. cbn [contains]. unfold checked_add_u.
  rewrite bool_decide_true by (destruct Ha; split; lia). f_equal.
  apply Bool.eq_iff_eq_true. rewrite bool_decide_eq_true, within_wrap, !andb_true_iff by done.
  rewrite is_u_64 in *. change (2 ^ 64) with 18446744073709551616 in *. lia.
Qed.

(** [Area::contains] is membership modulo 2^64 for every area, also one that
    wraps around or is empty, and its recursion is at most one call deep. *)
Theorem contains_spec {P : profile} fuel a x :
  (2 <= fuel)%nat → is_u 64 (area_addr a) → is_u 64 (area_size a) → is_u 64 x →
  contains fuel a x = Ok (bool_decide (within a x)).
Proof.
  intros Hf Ha Hs Hx. destruct fuel as [|[|fuel]]; [lia|lia|].
  destruct (Z.lt_ge_cases (area_addr a + area_size a) (2 ^ 64)) as [Hn|Hw].
  { apply contains_nowrap; [done|apply Hs|done..]. }
  remember (S fuel) as fuel' eqn:Ef. cbn [contains]. unfold checked_add_u at 1. rewrite bool_decide_false by (unfold is_u; lia).
  assert (area_size a - wrapping_add (area_addr a) (area_size a) = 2 ^ 64 - area_addr a) as Ho by (wraps; lia).
  rewrite sub_u_ok, M_bind_Ok by (rewrite Ho; wraps; lia). rewrite Ho.
  set (o := 2 ^ 64 - area_addr a) in *. assert (is_u 64 o) by (unfold o; wraps; lia).
  subst fuel'. unfold addr_add. rewrite contains_nowrap; cbn [offset area_addr area_size]; unfold addr_add; auto with rust.
  - f_equal. apply bool_decide_ext. by apply within_offset.
  - apply Hs.
  - unfold o in *. wraps. lia.
Qed.

Lemma contains_witness :
  contains (P:=Dev) 2 (area_new (2 ^ 64 - 16) 32) 15 = Ok true ∧
  contains (P:=Dev) 2 (area_new (2 ^ 64 - 16) 32) 16 = Ok false.
Proof. split; rewrite (@contains_spec Dev); (done || unfold is_u; cbn; lia). Defined.

Lemma last_addr_ok {P : profile} a : area_wf a →
  last_addr a = Ok (checked_add_u 64 (area_addr a) (area_size a - 1)).
Proof. intros [Ha Hs]. unfold last_addr. rewrite sub_u_ok by (wraps; lia). done. Qed.
Lemma offset_wf a o : area_wf a → area_wf (offset a o).
Proof. intros [Ha Hs]. split; [apply wrapping_add_u | done]. Qed.

(** Two areas that do not wrap overlap when their intervals do. *)
Lemma overlap_nowrap a b : area_wf a → area_wf b →
  area_addr a + area_size a <= 2 ^ 64 → area_addr b + area_size b <= 2 ^ 64 →
  (area_addr a <=? area_addr b + (area_size b - 1)) && (area_addr b <=? area_addr a + (area_size a - 1)) = true ↔
  ∃ x, within a x ∧ within b x.
Proof.
  intros [Ha Hsa] [Hb Hsb] Ea Eb. rewrite andb_true_iff, !Z.leb_le. split.
  - intros. exists (Z.max (area_addr a) (area_addr b)).
    assert (is_u 64 (Z.max (area_addr a) (area_addr b))) by (wraps; lia).
    rewrite !within_wrap by done. wraps. lia.
  - intros (x & H1 & H2). pose proof H1 as [Hx _]. apply within_wrap in H1, H2; [|done..]. wraps. lia.
Qed.

Lemma overlap_offset a b o : area_wf a → area_wf b → is_u 64 o →
  (∃ x, within (offset a o) x ∧ within (offset b o) x) ↔ ∃ x, within a x ∧ within b x.
Proof.
  intros [Ha _] [Hb _] Ho. split; intros (x & H1 & H2); pose proof H1 as [Hx _].
  - exists (wrapping_sub x o). rewrite <- (within_offset a o), <- (within_offset b o) by auto with rust.
    assert (wrapping_add (wrapping_sub x o) o = x) as -> by (wraps; lia). done.
  - exists (wrapping_add x o). by rewrite !within_offset.
Qed.

(** Of two areas of which one wraps, [overlaps_with] picks a shift after which
    neither does. *)
Lemma overlap_shift {P : profile} a b : area_wf a → area_wf b →
  area_addr a + area_size a <= 2 ^ 64 ∨ area_addr b + area_size b <= 2 ^ 64 →
  let o := if bool_decide (is_Some (checked_add_u 64 (area_addr (offset b (wrapping_sub 0 (area_addr a)))) (area_size b - 1)))
           then wrapping_sub 0 (area_addr a) else wrapping_sub 0 (area_addr b) in
  is_u 64 o ∧
  area_addr (offset a o) + area_size a <= 2 ^ 64 ∧
  area_addr (offset b o) + area_size b <= 2 ^ 64.
Proof.
  intros [Ha Hsa] [Hb Hsb] Hn. cbn [offset area_addr]. unfold addr_add, checked_add_u.
  case_bool_decide as E; cbv zeta.
  - case_bool_decide as E'; [|by apply is_Some_None in E].
    split; [auto with rust|]. wraps. lia.
  - case_bool_decide as E'; [by destruct E|].
    split; [auto with rust|]. wraps. lia.
Qed.

Lemma overlap_one_wraps {P : profile} a b : area_wf a → area_wf b →
  area_addr a + area_size a <= 2 ^ 64 ∨ area_addr b + area_size b <= 2 ^ 64 →
  ∃ r, (let offset_self_to_0 := wrapping_sub 0 (area_addr a) in
        o ← last_addr (offset b offset_self_to_0);
        let off := if bool_decide (is_Some o) then offset_self_to_0 else wrapping_sub 0 (area_addr b) in
        e ← last_addr (offset a off);
        end_ ← unwrap e;
        e ← last_addr (offset b off);
        other_end ← unwrap e;
        Ok ((area_addr (offset a off) <=? other_end) && (area_addr (offset b off) <=? end_))) = Ok r ∧
       (r = true ↔ ∃ x, within a x ∧ within b x).
Proof.
  intros Ha Hb Hn. cbv zeta. rewrite last_addr_ok, M_bind_Ok by by apply offset_wf.
  pose proof (overlap_shift a b Ha Hb Hn) as Ho. cbn [offset area_size] in *.
  set (o := if bool_decide _ then _ else _) in *. destruct Ho as (Ho & Ea & Eb).
  pose proof (offset_wf _ o Ha) as Ha'. pose proof (offset_wf _ o Hb) as Hb'.
  rewrite !last_addr_ok, M_bind_Ok by done. cbn [offset area_size area_addr] in *.
  destruct (area_wf_addr _ Ha'), (area_wf_size _ Ha'), (area_wf_addr _ Hb'), (area_wf_size _ Hb').
  cbn [offset area_size area_addr] in *.
  unfold checked_add_u. rewrite !bool_decide_true by (split; lia).
  cbn [unwrap]. rewrite !M_bind_Ok. eexists. split; [done|].
  rewrite <- (overlap_offset a b o) by done. by apply (overlap_nowrap _ _ Ha' Hb').
Qed.

(** The answer of [overlaps_with], by the four cases of its match. *)
Lemma overlap_ok {P : profile} a b : area_wf a → area_wf b →
  ∃ r, overlaps_with a b = Ok r ∧ (r = true ↔ ∃ x, within a x ∧ within b x).
Proof.
  intros Ha Hb. unfold overlaps_with. rewrite (last_addr_ok a), (last_addr_ok b), !M_bind_Ok by done.
  destruct (checked_add_u 64 (area_addr a) _) eqn:Ea; apply checked_add_u_spec in Ea as [[E Ea]|[E Ea]];
    try discriminate E; destruct (checked_add_u 64 (area_addr b) _) eqn:Eb;
    apply checked_add_u_spec in Eb as [[E' Eb]|[E' Eb]]; try discriminate E'; simplify_eq.
  - eexists. split; [done|]. apply overlap_nowrap; try done; unfold is_u in *; lia.
  - apply overlap_one_wraps; try done. left. unfold is_u in *. lia.
  - apply overlap_one_wraps; try done. right. unfold is_u in *. lia.
  - eexists. split; [done|]. split; [|done]. intros _. exists (2 ^ 64 - 1). destruct Ha as [Ha ?], Hb as [Hb ?].
    rewrite !within_wrap by done. wraps. lia.
Qed.

(** ** Pages *)

Section pages.
Context {P : profile} (pb : Z) (Hpb : 0 <= pb < 64).

Lemma page_split : 2 ^ 64 = 2 ^ pb * 2 ^ (64 - pb).
Proof using Hpb. rewrite <- pow2_split by lia. f_equal; lia. Qed.
Lemma page_ok x : page pb x = Ok (x / 2 ^ pb).
Proof using Hpb. unfold page. rewrite shr_ok by lia. by rewrite Z.shiftr_div_pow2 by lia. Qed.
Lemma page_mask_ok : page_mask pb = Ok (2 ^ pb - 1).
Proof using Hpb.
  unfold page_mask. pose proof (pow2_pos pb). pose proof (Z.pow_lt_mono_r 2 pb 64).
  rewrite shl_u_ok, M_bind_Ok, Z.shiftl_1_l, wrap_small by (unfold is_u; lia).
  rewrite sub_u_ok by (unfold is_u; lia). done.
Qed.
(** Shifting left drops the bits of the page index beyond the address space. *)
Lemma shl_page p : shl_u 64 p pb = Ok (2 ^ pb * (p `mod` 2 ^ (64 - pb))).
Proof using Hpb.
  rewrite shl_u_ok by lia. f_equal. unfold wrap. rewrite Z.shiftl_mul_pow2 by lia.
  pose proof (pow2_pos pb). pose proof (pow2_pos (64 - pb)).
  rewrite page_split, (Z.mul_comm p), Z.mul_mod_distr_l by lia. done.
Qed.
Lemma page_index_range x : is_u 64 x → 0 <= x / 2 ^ pb < 2 ^ (64 - pb).
Proof using Hpb.
  intros [H1 H2]. pose proof (pow2_pos pb). split; [apply Z.div_pos; lia|].
  apply Z.div_lt_upper_bound; [lia|]. by rewrite <- page_split.
Qed.
Lemma align_ok x : is_u 64 x → align_to_page_start x pb = Ok (2 ^ pb * (x / 2 ^ pb)).
Proof using Hpb.
  intros Hx. unfold align_to_page_start. rewrite shr_ok, M_bind_Ok, shl_page, Z.shiftr_div_pow2 by lia.
  rewrite Z.mod_small by by apply page_index_range. done.
Qed.

(** The distance from the start of page [q'] to byte [r] of page [q]. *)
Lemma page_distance q r q' : 0 <= r < 2 ^ pb →
  wrapping_sub (2 ^ pb * q + r) (2 ^ pb * q') = 2 ^ pb * ((q - q') `mod` 2 ^ (64 - pb)) + r.
Proof using Hpb.
  intros Hr. unfold wrapping_sub, wrap. pose proof (pow2_pos pb ltac:(lia)) as HB.
  pose proof (pow2_pos (64 - pb) ltac:(lia)) as HN. rewrite page_split.
  generalize dependent (2 ^ pb). intros B Hr HB. generalize dependent (2 ^ (64 - pb)). intros N HN.
  symmetry. apply Z.mod_unique with ((q - q') / N); [left|].
  - pose proof (Z.mod_pos_bound (q - q') N HN). nia.
  - pose proof (Z.div_mod (q - q') N ltac:(lia)). nia.
Qed.

(** The two forms of the distance between bytes of pages [q] and [qa]. *)
Lemma page_offset q r qa ra : 0 <= q < 2 ^ (64 - pb) → 0 <= qa < 2 ^ (64 - pb) →
  0 <= r < 2 ^ pb → 0 <= ra < 2 ^ pb →
  let d := 2 ^ pb * ((q - qa) `mod` 2 ^ (64 - pb)) + r - ra in
  wrapping_sub (2 ^ pb * q + r) (2 ^ pb * qa + ra) = if d <? 0 then d + 2 ^ 64 else d.
Proof using Hpb.
  intros Hq Hqa Hr Hra d. pose proof (page_distance q r qa Hr) as Hd.
  pose proof page_split as H64.
  set (D := 2 ^ pb * ((q - qa) `mod` 2 ^ (64 - pb))) in *.
  assert (is_u 64 (2 ^ pb * q + r)) by (unfold is_u; rewrite H64; nia).
  assert (is_u 64 (2 ^ pb * qa + ra)) by (unfold is_u; rewrite H64; nia).
  assert (is_u 64 (2 ^ pb * qa)) by (unfold is_u in *; nia).
  clearbody D. generalize dependent (2 ^ pb * q + r). intros x Hd Hx.
  generalize dependent (2 ^ pb * qa). intros a Hd Ha Ha'. clear H64.
  generalize dependent (2 ^ pb). intros B Hr Hra. clear Hq Hqa.
  unfold d. case_cmp; wraps; lia.
Qed.

Lemma page_diff q q' : 0 <= q < 2 ^ (64 - pb) → 0 <= q' < 2 ^ (64 - pb) →
  let d := (q - q') `mod` 2 ^ (64 - pb) in 0 <= d < 2 ^ (64 - pb) ∧ (q ≠ q' → 0 < d).
Proof using Hpb.
  intros Hq Hq' d. pose proof (Z.mod_pos_bound (q - q') (2 ^ (64 - pb)) ltac:(lia)).
  split; [done|]. intros Hne. destruct (decide (d = 0)) as [Hd|]; [|unfold d in *; lia].
  apply Z.mod_divide in Hd as [z Hz]; [|lia]. assert (z = 0) by nia. subst z. lia.
Qed.

Lemma expand_ok a : area_wf a → area_size a + 2 * 2 ^ pb <= 2 ^ 63 →
  expand_to_page pb a = Ok {| area_addr := 2 ^ pb * (area_addr a / 2 ^ pb);
    area_size := 2 ^ pb * ((area_size a + area_addr a `mod` 2 ^ pb + (2 ^ pb - 1)) / 2 ^ pb) |}.
Proof using Hpb.
  intros [Ha Hs] Hb. unfold expand_to_page. rewrite align_ok, M_bind_Ok by done.
  pose proof (pow2_pos pb ltac:(lia)) as HB.
  pose proof (Z.mod_pos_bound (area_addr a) (2 ^ pb) HB) as Hm.
  assert (addr_diff (area_addr a) (2 ^ pb * (area_addr a / 2 ^ pb)) = area_addr a `mod` 2 ^ pb) as ->.
  { unfold addr_diff, wrapping_sub. rewrite <- Z.mod_eq by lia. apply wrap_small. unfold is_u; lia. }
  rewrite add_u_ok, M_bind_Ok, page_mask_ok, M_bind_Ok by (unfold is_u; lia).
  rewrite add_u_ok, M_bind_Ok by (unfold is_u; lia).
  rewrite shr_ok, M_bind_Ok, Z.shiftr_div_pow2, shl_page, M_bind_Ok by lia.
  rewrite Z.mod_small; [done|]. apply page_index_range. unfold is_u. lia.
Qed.

(** The expanded area holds exactly the addresses of the pages the area
    touches. *)
Lemma expand_spec a : area_wf a → area_size a + 2 * 2 ^ pb <= 2 ^ 63 →
  ∃ e, expand_to_page pb a = Ok e ∧ area_wf e ∧
    ∀ x, within e x ↔ is_u 64 x ∧ ∃ y, within a y ∧ page pb y = page pb x.
Proof using Hpb.
  intros Ha Hb. eexists. split; [by apply expand_ok|]. destruct Ha as [Ha Hs].
  pose proof (pow2_pos pb ltac:(lia)) as HB. pose proof (page_index_range _ Ha) as Hqa.
  pose proof (Z.div_mod (area_addr a) (2 ^ pb) ltac:(lia)) as Ea.
  pose proof (Z.mod_pos_bound (area_addr a) (2 ^ pb) HB) as Hra.
  set (qa := area_addr a / 2 ^ pb) in *. set (ra := area_addr a `mod` 2 ^ pb) in *.
  set (k := (area_size a + ra + (2 ^ pb - 1)) / 2 ^ pb).
  pose proof (Z.div_mod (area_size a + ra + (2 ^ pb - 1)) (2 ^ pb) ltac:(lia)) as Ek.
  pose proof (Z.mod_pos_bound (area_size a + ra + (2 ^ pb - 1)) (2 ^ pb) HB) as Hk.
  fold k in Ek. split; [split; cbn [area_addr area_size]; [unfold is_u; rewrite page_split at 1|]; nia|].
  intros x. unfold within at 1. cbn [area_addr area_size]. setoid_rewrite page_ok.
  split; (intros [Hx H]; split; [done|]); pose proof (page_index_range _ Hx) as Hqx;
    pose proof (Z.div_mod x (2 ^ pb) ltac:(lia)) as Ex; pose proof (Z.mod_pos_bound x (2 ^ pb) HB) as Hrx;
    set (qx := x / 2 ^ pb) in *; set (rx := x `mod` 2 ^ pb) in *.
  - rewrite Ex, page_distance in H by done. pose proof (page_diff qx qa Hqx Hqa) as [Hd0 Hd].
    destruct (decide (qx = qa)) as [E|E].
    + exists (area_addr a). split; [|by rewrite E]. split; [done|]. wraps. lia.
    + exists (2 ^ pb * qx). split.
      * pose proof (page_offset qx 0 qa ra Hqx Hqa ltac:(lia) Hra) as Ho. cbv zeta in Ho. rewrite !Z.add_0_r in Ho.
        split; [unfold is_u; rewrite page_split; nia|]. rewrite Ea, Ho. specialize (Hd E).
        assert ((qx - qa) `mod` 2 ^ (64 - pb) + 1 <= k) as Hdk by nia.
        apply (Z.mul_le_mono_nonneg_l _ _ (2 ^ pb)) in Hdk; [|lia]. rewrite Z.mul_add_distr_l in Hdk.
        case_cmp; nia.
      * f_equal. rewrite Z.mul_comm. apply Z.div_mul. lia.
  - destruct H as (y & [Hy Hlt] & [= Eq]). rewrite Ex, page_distance by done.
    pose proof (Z.div_mod y (2 ^ pb) ltac:(lia)) as Ey. pose proof (Z.mod_pos_bound y (2 ^ pb) HB) as Hry.
    rewrite Ea, Ey, Eq in Hlt. rewrite page_offset in Hlt by done.
    pose proof (page_diff qx qa Hqx Hqa) as [Hd0 _]. revert Hlt.
    generalize dependent ((qx - qa) `mod` 2 ^ (64 - pb)). intros d Hd Hlt.
    assert (2 ^ pb * d < 2 ^ pb * k) as Hdk by (revert Hlt; case_cmp; lia).
    apply Z.mul_lt_mono_pos_l in Hdk; [|done]. clear - HB Hdk Hrx. nia.
Qed.
End pages.

(** [Area::shares_page_with] never panics on non-empty areas that stay below
    2^63 bytes after rounding to pages, and tells whether some page holds an
    address of each. *)
Theorem shares_page_with_spec {P : profile} pb a b : 0 <= pb < 64 → area_wf a → area_wf b →
  area_size a + 2 * 2 ^ pb <= 2 ^ 63 → area_size b + 2 * 2 ^ pb <= 2 ^ 63 →
  ∃ r, shares_page_with pb a b = Ok r ∧
    (r = true ↔ ∃ x y, within a x ∧ within b y ∧ page pb x = page pb y).
Proof.
  intros Hpb Ha Hb Hsa Hsb.
  destruct (expand_spec pb Hpb a Ha Hsa) as (ea & Ea & Hea & Hina).
  destruct (expand_spec pb Hpb b Hb Hsb) as (eb & Eb & Heb & Hinb).
  unfold shares_page_with. rewrite Ea, Eb, !M_bind_Ok.
  destruct (overlap_ok ea eb Hea Heb) as (r & Er & Hr). exists r. split; [done|].
  rewrite Hr. setoid_rewrite Hina. setoid_rewrite Hinb. split.
  - intros (x & [_ (y & Hy & Ey)] & [_ (z & Hz & Ez)]). exists y, z. split_and!; [done..|congruence].
  - intros (x & y & Hx & Hy & E). exists y. split.
    + split; [apply Hy|]. by exists x.
    + split; [apply Hy|]. by exists y.
Qed.
Lemma shares_page_with_witness : ∃ r,
  @shares_page_with Dev 12 (area_new (2 ^ 64 - 16) 32) (area_new 4000 8) = Ok r ∧
  (r = true ↔ ∃ x y, within (area_new (2 ^ 64 - 16) 32) x ∧ within (area_new 4000 8) y ∧
                     @page Dev 12 x = @page Dev 12 y).
Proof. apply (@shares_page_with_spec Dev 12); repeat split; (lia || done). Defined.

(** [crosses_page_bounds] of a non-empty area of at most 2^63 bytes is true
    exactly when some address of the area lies on another page than its first
    address. *)
Lemma crosses_page_bounds_ok {P : profile} pb a : 0 <= pb < 64 → area_wf a →
  ∃ r, crosses_page_bounds a pb = Ok r ∧
    (r = true ↔ ∃ x, within a x ∧ page pb x ≠ page pb (area_addr a)).
Proof.
  intros Hpb [Ha Hs]. unfold crosses_page_bounds, end_addr.
  rewrite sub_u_ok by (unfold is_u; lia). rewrite !shr_ok, !M_bind_Ok by lia.
  rewrite shr_ok, M_bind_Ok, !Z.shiftr_div_pow2 by lia.
  eexists. split; [done|]. rewrite negb_true_iff, Z.eqb_neq. setoid_rewrite page_ok; [|done..].
  set (e := wrapping_add (area_addr a) (area_size a - 1)). assert (is_u 64 e) as He by (unfold e; auto with rust).
  split.
  - intros Hne. exists e. split; [|by intros [= E]; symmetry in E].
    apply within_wrap; [done..|]. unfold e in *. wraps. lia.
  - intros (x & Hin & Hne) E. apply Hne. f_equal. pose proof Hin as [Hx _].
    apply within_wrap in Hin; [|done..].
    assert (area_addr a <= x <= e) as [H1 H2].
    { pose proof (Z.div_mod e (2 ^ pb)). pose proof (Z.div_mod (area_addr a) (2 ^ pb)).
      pose proof (pow2_pos pb). pose proof (Z.mod_pos_bound e (2 ^ pb)).
      pose proof (Z.mod_pos_bound (area_addr a) (2 ^ pb)).
      assert (2 ^ pb <= 2 ^ 63) by (apply Z.pow_le_mono_r; lia).
      assert (e - area_addr a < 2 ^ 63 ∧ area_addr a - e < 2 ^ 63) by lia.
      unfold e in *. wraps. lia. }
    pose proof (pow2_pos pb). apply (Z.div_le_mono _ _ (2 ^ pb)) in H1, H2; lia.
Qed.

Lemma wrapping_mod_pages pb x : 0 <= pb < 64 → wrap 64 x `mod` 2 ^ (64 - pb) = x `mod` 2 ^ (64 - pb).
Proof. intros. change (wrap (64 - pb) (wrap 64 x) = wrap (64 - pb) x). apply wrap_wrap_le. lia. Qed.
Lemma lor_page pb p : 0 <= pb → Z.lor (p * 2 ^ pb) (2 ^ pb - 1) = p * 2 ^ pb + (2 ^ pb - 1).
Proof.
  intros Hpb. rewrite Z.sub_1_r, <- Z.ones_equiv, <- Z.shiftl_mul_pow2 by done.
  assert (Z.land (Z.shiftl p pb) (Z.ones pb) = 0) as E.
  { bitwise i Hi; [|done]. by rewrite Z.testbit_neg_r by lia. }
  by rewrite <- Z.lxor_lor, <- Z.add_nocarry_lxor.
Qed.

(** Page arithmetic is modular in the number of pages, the start of a page is
    its first and [last_address_of_page] its last address, and the address
    after the last page is 0. *)
Theorem page_arithmetic {P : profile} pb p n x : 0 < pb < 64 → is_u (64 - pb) p → is_u 64 n → is_u 64 x →
  page_add pb p n = Ok ((p + n) `mod` 2 ^ (64 - pb)) ∧
  page_sub pb p n = Ok ((p - n) `mod` 2 ^ (64 - pb)) ∧
  ∃ s l, page_start_addr pb p = Ok s ∧ last_address_of_page pb p = Ok l ∧ s < l ∧
    first_address_after_page pb p = Ok (wrapping_add l 1) ∧
    (page pb x = Ok p ↔ s <= x <= l).
Proof.
  intros Hpb Hp Hn Hx. pose proof (pow2_pos pb ltac:(lia)) as HB. pose proof (page_split pb ltac:(lia)) as H64.
  pose proof (pow2_pos (64 - pb) ltac:(lia)) as HN.
  unfold page_add, page_sub, page_start_addr, last_address_of_page, first_address_after_page.
  rewrite !shl_page, page_mask_ok by lia. rewrite !M_bind_Ok, !shr_ok, !Z.shiftr_div_pow2 by lia.
  rewrite !(Z.mul_comm (2 ^ pb) (_ `mod` _)), !Z.div_mul by lia.
  assert (2 <= 2 ^ pb) by (change 2 with (2 ^ 1) at 1; apply Z.pow_le_mono_r; lia).
  unfold wrapping_add at 1, wrapping_sub. rewrite !wrapping_mod_pages by lia. do 2 (split; [done|]).
  rewrite (Z.mod_small p) by done. destruct Hp as [Hp Hp'].
  eexists _, _. split; [done|]. split; [done|].
  rewrite lor_page by lia. split; [lia|].
  rewrite add_u_ok, M_bind_Ok, shl_page by (unfold is_u; nia). rewrite page_ok by lia. split.
  - f_equal. unfold wrapping_add, wrap. rewrite H64, <- Z.mul_mod_distr_l by lia. f_equal. lia.
  - pose proof (Z.div_mod x (2 ^ pb)). pose proof (Z.mod_pos_bound x (2 ^ pb)).
    split; [intros [= E]; nia|]. intros Hr. f_equal. symmetry.
    apply Z.div_unique with (x - p * 2 ^ pb); lia.
Qed.
Lemma page_arithmetic_witness :
  @page_add Dev 12 (2 ^ 52 - 1) 1 = Ok 0 ∧ @page_sub Dev 12 0 1 = Ok (2 ^ 52 - 1).
Proof.
  split.
  - apply (@page_arithmetic Dev 12 (2 ^ 52 - 1) 1 0); (unfold is_u; lia).
  - apply (@page_arithmetic Dev 12 0 1 0); (unfold is_u; lia).
Defined.

(** [Area::overlaps_with] of two non-empty areas of at most 2^63 bytes, each of
    which may wrap around, never panics, does not depend on the order of its
    arguments and tells whether the areas share an address. *)
Theorem overlaps_with_spec {P : profile} a b : area_wf a → area_wf b →
  overlaps_with a b = overlaps_with b a ∧
  ∃ r, overlaps_with a b = Ok r ∧ (r = true ↔ ∃ x, within a x ∧ within b x).
Proof.
  intros Ha Hb. destruct (overlap_ok a b Ha Hb) as (r & Er & Hr).
  destruct (overlap_ok b a Hb Ha) as (r' & Er' & Hr'). split; [|by exists r].
  rewrite Er, Er'. f_equal. apply Bool.eq_iff_eq_true. rewrite Hr, Hr'. naive_solver.
Qed.
Lemma overlaps_with_witness :
  overlaps_with (P:=Dev) (area_new (2 ^ 64 - 16) 32) (area_new 0 4) = Ok true.
Proof.
  destruct (@overlaps_with_spec Dev (area_new (2 ^ 64 - 16) 32) (area_new 0 4)) as (_ & r & -> & H);
    [repeat split; done..|].
  f_equal. apply H. exists 0. repeat split; done.
Defined.

(** [distance] is the difference of the addresses and [distance_between] the
    shorter way around the address space: at most 2^63, and one of the two
    addresses is that far after the other. *)
Lemma distance_spec {P : profile} a b : is_u 64 a → is_u 64 b →
  distance a b = Ok (Z.abs (a - b)) ∧
  distance_between a b = Z.min (Z.abs (a - b)) (2 ^ 64 - Z.abs (a - b)) ∧
  (addr_add a (distance_between a b) = b ∨ addr_add b (distance_between a b) = a).
Proof.
  intros Ha Hb. unfold distance_between, distance, addr_add. split_and!.
  - case_cmp; rewrite sub_u_ok by (unfold is_u in *; lia); f_equal; lia.
  - wraps. lia.
  - destruct (Z.min_spec (wrapping_sub a b) (wrapping_sub b a)) as [[? ->]|[? ->]]; wraps; lia.
Qed.

(** Outside of these bounds the code does not have the meaning of a set: an
    empty area makes [overlaps_with] panic in the [dev] profile, in [release]
    two empty areas overlap; areas of more than 2^63 bytes can be "too far
    apart"; and [extend_before] lets an area grow past the bound. *)
Theorem overlaps_with_limits a b : is_u 64 a → is_u 64 b → 0 < a → 0 < b →
  @overlaps_with Dev (area_new a 0) (area_new b 0) = Panic ∧
  @overlaps_with Release (area_new a 0) (area_new b 0) = Ok true ∧
  (∀ x, ~ within (area_new a 0) x) ∧
  (∀ P : profile, overlaps_with (area_new 1 (2 ^ 64 - 1)) (area_new (2 ^ 63) (2 ^ 63 + 2)) = Panic).
Proof.
  intros Ha Hb H1 H2. split_and!.
  - done.
  - unfold overlaps_with, last_addr. cbn [area_new area_size area_addr].
    change (@sub_u Release 64 0 1) with (Ok (2 ^ 64 - 1)). rewrite !M_bind_Ok.
    unfold checked_add_u. rewrite !bool_decide_false by (unfold is_u in *; lia). done.
  - intros x [_ Hx]. pose proof (wrapping_sub_u x a) as Hu. cbn [area_new area_size area_addr] in Hx.
    unfold is_u in *. lia.
  - by intros [].
Qed.
Lemma overlaps_with_limits_witness :
  @overlaps_with Dev (area_new 5 0) (area_new 7 0) = Panic ∧
  @overlaps_with Release (area_new 5 0) (area_new 7 0) = Ok true.
Proof. split; apply (overlaps_with_limits 5 7); (unfold is_u; lia). Defined.
