(* ===== verification/Arch.v ===== *)
(** * Architectures

    Models the traits [Arch], [Register] and [CpuState] of
    [liblisa/src/arch/mod.rs] as one class of types and operations ([Arch]),
    the default methods of [CpuState] as definitions over it, and what the rest
    of the library relies on as a class of laws ([ArchLaws]).  [FakeArch] of
    [liblisa/src/arch/fake.rs], the architecture of the unit tests, is an
    instance that discharges the laws.

    A closure [FnOnce(MutValue)] that updates a register in place is a function
    from the old contents to the outcome and the new contents. *)
From S2P Require Import Prelude MachInt Utils Size Value.
Import SizeOps.

Class Arch := {
  Reg : Type;
  Reg_eq_dec :: EqDecision Reg;
  (** [Ord] on registers. *)
  reg_cmp : Reg → Reg → comparison;
  GpReg : Type;
  Flag : Type;
  CpuState : Type;
  CpuState_eq_dec :: EqDecision CpuState;
  PAGE_BITS : Z;
  (** [Arch]. *)
  arch_reg : GpReg → Reg;
  try_reg_to_gpreg : Reg → option GpReg;
  iter_regs : list Reg;
  (** [Register]. *)
  reg_is_flags : Reg → bool;
  reg_is_zero : Reg → bool;
  reg_should_avoid : Reg → bool;
  reg_mask : Reg → option Z;
  byte_size : Reg → Z;
  reg_type : Reg → ValueType;
  (** [CpuState]. *)
  cpu_default : CpuState;
  cpu_gpreg : CpuState → GpReg → M Z;
  cpu_set_gpreg : CpuState → GpReg → Z → M CpuState;
  cpu_reg : CpuState → Reg → M Value;
  cpu_modify_reg : CpuState → Reg → (Value → M Value) → M CpuState;
  cpu_set_flag : CpuState → Flag → bool → M CpuState;
  cpu_size : Z;
  state_byte_to_reg : Z → M (Reg * Z);
  reg_to_state_byte : Reg → Z → M Z;
  (** The bytes [found] is called with, in order. *)
  cpu_find_differences : CpuState → CpuState → M (list Z);
  DiffMask : Type;
  cpu_create_diff_mask : list Z → M DiffMask;
  (** The arguments are the pairs [b] and [a] of states before and after. *)
  cpu_find_dataflows_masked : CpuState * CpuState → CpuState * CpuState → DiffMask → DiffMask → M (list Z);
}.

(** An update of a register keeps the kind and the number of bytes: the
    closure holds a [&mut u64] or a [&mut [u8]]. *)
Definition same_shape (a b : Value) : Prop :=
  match a, b with
  | Num _, Num _ => True
  | Bytes x, Bytes y => length x = length y
  | _, _ => False
  end.
#[export] Instance same_shape_dec a b : Decision (same_shape a b).
Proof. destruct a, b; cbn; apply _. Defined.
Definition has_type (v : Value) (t : ValueType) : Prop :=
  match v, t with
  | Num _, NumType => True
  | Bytes b, BytesType n => length b = n
  | _, _ => False
  end.

(** What Rust asks of an implementation of [Ord]: a total order that agrees
    with equality. *)
Class CmpLaws {T} (cmp : T → T → comparison) : Prop := {
  cmp_eq a b : cmp a b = Eq ↔ a = b;
  cmp_opp a b : cmp b a = CompOpp (cmp a b);
  cmp_trans a b c : cmp a b = Lt → cmp b c = Lt → cmp a c = Lt;
}.
#[export] Instance Z_cmp_laws : CmpLaws Z.compare.
Proof.
  split; intros; [apply Z.compare_eq_iff | apply Z.compare_antisym |].
  rewrite Z.compare_lt_iff in *. lia.
Qed.
#[export] Instance nat_cmp_laws : CmpLaws Nat.compare.
Proof.
  split; intros; [apply Nat.compare_eq_iff | apply Nat.compare_antisym |].
  rewrite Nat.compare_lt_iff in *. lia.
Qed.

(** The bits of a register that can be set, and values that have no others. *)
Definition reg_bits {A : Arch} (r : Reg) : Z := default (Z.ones (8 * byte_size r)) (reg_mask r).
Definition reg_fits {A : Arch} (r : Reg) (v : Value) : Prop :=
  match v with Num n => Z.land n (reg_bits r) = n | Bytes _ => True end.

(** In a well-formed state ([cpu_wf]) the registers of [iter_regs] can be read
    and hold values of their type that fit; an update of one with a value that fits
    stores the new contents and leaves the others alone. *)
Class ArchLaws (A : Arch) := {
  law_cmp :: CmpLaws reg_cmp;
  cpu_wf : CpuState → Prop;
  law_default : cpu_wf cpu_default;
  law_read s r : cpu_wf s → r ∈ iter_regs →
    ∃ v, cpu_reg s r = Ok v ∧ has_type v (reg_type r) ∧ value_wf v ∧ reg_fits r v;
  law_modify s r f v v' : cpu_wf s → r ∈ iter_regs → cpu_reg s r = Ok v → f v = Ok v' →
    same_shape v v' → value_wf v' → reg_fits r v' →
    ∃ s', cpu_modify_reg s r f = Ok s' ∧ cpu_wf s' ∧ cpu_reg s' r = Ok v' ∧
      ∀ r', r' ≠ r → cpu_reg s' r' = cpu_reg s r';
  law_modify_panic s r f v : cpu_wf s → r ∈ iter_regs → cpu_reg s r = Ok v → f v = Panic →
    cpu_modify_reg s r f = Panic;
  (** The closure is called once, on the contents of the register. *)
  law_modify_ext s r f g v : cpu_wf s → r ∈ iter_regs → cpu_reg s r = Ok v → f v = g v →
    cpu_modify_reg s r f = cpu_modify_reg s r g;
}.

(** ** Default methods of [CpuState] *)

Section cpu_state.
Context {P : profile} {A : Arch}.

Definition cpu_create (regval : Reg → Value → M Value) : M CpuState :=
  foldl (λ s reg, s ← s; cpu_modify_reg s reg (regval reg)) (Ok cpu_default) iter_regs.
Definition default_with_pc (PC : GpReg) (pc : Z) : M CpuState := cpu_set_gpreg cpu_default PC pc.

(** [StateByte::new], of [liblisa/src/state/byteview.rs]. *)
Definition StateByte_new (num : Z) : M Z :=
  debug_assert! num <? 2 ^ 32 - 1; Ok (wrap 32 num).
Definition get_state_byte (self : CpuState) (byte : Z) : M Z :=
  '(reg, index) ← state_byte_to_reg byte;
  v ← cpu_reg self reg;
  select_byte v (Z.to_nat index).
(** The [#[cfg(debug_assertions)]] block of [set_state_byte]. *)
Definition assert_masked (byte value : Z) : M unit :=
  match P with
  | Release => Ok tt
  | Dev =>
      '(reg, index) ← state_byte_to_reg byte;
      mask ← match reg_mask reg with
             | Some mask => k ← mul8 index; m ← shr 64 mask k; Ok (wrap 8 m)
             | None => Ok 0xff
             end;
      rassert (Z.land value (not_u 8 mask) =? 0)
  end.
Definition set_state_byte (self : CpuState) (byte value : Z) : M CpuState :=
  '(reg, index) ← state_byte_to_reg byte;
  cpu_modify_reg self reg (λ v,
    match v with
    | Num n =>
        shift ← mul8 index;
        mask ← shl_u 64 0xff shift;
        _ ← assert_masked byte value;
        x ← shl_u 64 value shift;
        Ok (Num (Z.lor (Z.land n (not_u 64 mask)) x))
    | Bytes b => b ← vset b (Z.to_nat index) value; Ok (Bytes b)
    end).
Definition state_bytes_unequal (self : CpuState) (dest : Z) (other : CpuState) : M bool :=
  a ← get_state_byte self dest; b ← get_state_byte other dest; Ok (negb (a =? b)).
Definition state_bytes_equal (self : CpuState) (dest : Z) (other : CpuState) : M bool :=
  b ← state_bytes_unequal self dest other; Ok (negb b).
(** The default [find_differences] and [find_dataflows_masked]. *)
Definition default_find_differences (self other : CpuState) : M (list Z) :=
  l ← mapM (λ b, b ← StateByte_new b; ne ← state_bytes_unequal self b other; Ok (b, ne)) (seqZ 0 cpu_size);
  Ok (fst <$> List.filter snd l).
Definition default_find_dataflows_masked (b a : CpuState * CpuState) (dest_diff_mask diff_mask : DiffMask) :
    M (list Z) :=
  x ← cpu_find_differences a.1 a.2;
  y ← cpu_find_differences b.1 b.2;
  Ok (x ++ y).
End cpu_state.

(** ** [FakeArch] *)

Module Fake.
Inductive FakeReg :=
  | R0 | R1 | R2 | R3 | R4 | R5 | R6 | R7 | R8 | R9 | R10 | R11 | R12 | R13 | R14 | R15
  | B0 | B1 | B2 | RF | RZ.
Inductive FakeFlag := F0 | F1 | F2.
#[export] Instance FakeReg_eq_dec : EqDecision FakeReg.
Proof. solve_decision. Defined.

(** [regs : [u64; 20]] and [byte_regs : [[u8; 8]; 3]]. *)
Record FakeState := { regs : list Z; byte_regs : list (list Z) }.
#[export] Instance FakeState_eq_dec : EqDecision FakeState.
Proof. solve_decision. Defined.

(** [reg as usize] and [NumberedRegister::as_num]. *)
Definition as_num (self : FakeReg) : nat :=
  match self with
  | R0 => 0 | R1 => 1 | R2 => 2 | R3 => 3 | R4 => 4 | R5 => 5 | R6 => 6 | R7 => 7
  | R8 => 8 | R9 => 9 | R10 => 10 | R11 => 11 | R12 => 12 | R13 => 13 | R14 => 14 | R15 => 15
  | B0 => 16 | B1 => 17 | B2 => 18 | RF => 19 | RZ => 20
  end.
Definition from_num (num : nat) : M FakeReg :=
  unwrap ([R0; R1; R2; R3; R4; R5; R6; R7; R8; R9; R10; R11; R12; R13; R14; R15; B0; B1; B2; RF; RZ] !! num).
Definition flag_num (f : FakeFlag) : Z := match f with F0 => 0 | F1 => 1 | F2 => 2 end.

(** The index of a byte register. *)
Definition byte_index (r : FakeReg) : option nat :=
  match r with B0 => Some 0%nat | B1 => Some 1%nat | B2 => Some 2%nat | _ => None end.

Definition state_default : FakeState :=
  {| regs := replicate 20 0; byte_regs := replicate 3 (replicate 8 0) |}.
Definition gpreg (self : FakeState) (reg : FakeReg) : M Z := vget (regs self) (as_num reg).
Definition set_gpreg (self : FakeState) (reg : FakeReg) (value : Z) : M FakeState :=
  l ← vset (regs self) (as_num reg) value; Ok {| regs := l; byte_regs := byte_regs self |}.
Definition reg (self : FakeState) (reg : FakeReg) : M Value :=
  match reg, byte_index reg with
  | RZ, _ => Panic
  | _, Some i => b ← vget (byte_regs self) i; Ok (Bytes b)
  | _, None => n ← vget (regs self) (as_num reg); Ok (Num n)
  end.
(** The closure sees a [&mut u64] or a [&mut [u8; 8]]: it cannot change the
    kind. *)
Definition modify_reg (self : FakeState) (reg : FakeReg) (update : Value → M Value) : M FakeState :=
  match reg, byte_index reg with
  | RZ, _ => Panic
  | _, Some i =>
      b ← vget (byte_regs self) i;
      v ← update (Bytes b);
      b ← unwrap_bytes v;
      l ← vset (byte_regs self) i b;
      Ok {| regs := regs self; byte_regs := l |}
  | _, None =>
      n ← vget (regs self) (as_num reg);
      v ← update (Num n);
      n ← unwrap_num v;
      l ← vset (regs self) (as_num reg) n;
      Ok {| regs := l; byte_regs := byte_regs self |}
  end.

Section fake_ops.
Context {P : profile}.
Definition flag (self : FakeState) (flag : FakeFlag) : M bool :=
  n ← gpreg self RF; s ← shr 64 n (flag_num flag * 8); Ok (0 <? Z.land s 1).
Definition set_flag (self : FakeState) (flag : FakeFlag) (value : bool) : M FakeState :=
  mask ← shl_u 64 1 (flag_num flag * 8);
  n ← gpreg self RF;
  set_gpreg self RF (if value then Z.lor n mask else Z.land n (not_u 64 mask)).
Definition fake_state_byte_to_reg (byte : Z) : M (FakeReg * Z) :=
  reg ← (match byte / 8 with 0 => Ok R0 | 1 => Ok R1 | 2 => Ok R2 | 3 => Ok R3 | _ => Panic end);
  Ok (reg, byte `mod` 8).
Definition fake_reg_to_state_byte (reg : FakeReg) (byte : Z) : M Z :=
  n ← add_u 64 (Z.of_nat (as_num reg) * 8) byte; StateByte_new n.
(** The bytes in which register [index] differs. *)
Definition reg_differences (index : nat) (left right : Z) : M (list Z) :=
  mapM (λ byte, StateByte_new (Z.of_nat index * 8 + byte))
    (List.filter (λ byte, negb (wrap 8 (Z.shiftr left (byte * 8)) =? wrap 8 (Z.shiftr right (byte * 8)))) (seqZ 0 8)).
Definition find_differences (self other : FakeState) : M (list Z) :=
  l ← mapM (λ '(index, (x, y)), if x =? y then Ok [] else reg_differences index x y)
    (imap pair (zip (regs self) (regs other)));
  Ok (concat l).
End fake_ops.

Definition is_flags (self : FakeReg) : bool := bool_decide (self = RF).
Definition fake_byte_size (self : FakeReg) : Z :=
  match self with RF => 3 | B0 | B1 | B2 => 32 | _ => 8 end.
Definition fake_mask (self : FakeReg) : option Z :=
  match self with RF => Some 0x010101 | _ => None end.
Definition fake_reg_type (self : FakeReg) : ValueType :=
  match self with B0 | B1 | B2 => BytesType 8 | _ => NumType end.
Definition fake_iter_regs : list FakeReg :=
  [R0; R1; R2; R3; R4; R5; R6; R7; R8; R9; R10; R11; R12; R13; R14; R15; B0; B1; B2; RF].

#[export] Instance FakeArch {P : profile} : Arch := {|
  Reg := FakeReg; GpReg := FakeReg; Flag := FakeFlag; CpuState := FakeState;
  reg_cmp a b := Nat.compare (as_num a) (as_num b);
  PAGE_BITS := 12;
  arch_reg r := r; try_reg_to_gpreg := Some; iter_regs := fake_iter_regs;
  reg_is_flags := is_flags; reg_is_zero r := bool_decide (r = RZ); reg_should_avoid _ := false; reg_mask := fake_mask; byte_size := fake_byte_size; reg_type := fake_reg_type;
  cpu_default := state_default; cpu_gpreg := gpreg; cpu_set_gpreg := set_gpreg;
  cpu_reg := reg; cpu_modify_reg := modify_reg; cpu_set_flag := set_flag;
  cpu_size := 16 * 8;
  state_byte_to_reg := fake_state_byte_to_reg; reg_to_state_byte := fake_reg_to_state_byte;
  cpu_find_differences := find_differences;
  DiffMask := unit; cpu_create_diff_mask _ := Ok tt;
  cpu_find_dataflows_masked b a _ _ :=
    x ← find_differences a.1 a.2; y ← find_differences b.1 b.2; Ok (x ++ y);
|}.

(** The arrays have their lengths and hold [u64]s and bytes. *)
Record fake_wf (s : FakeState) : Prop := {
  wf_regs_length : length (regs s) = 20%nat;
  wf_regs : Forall (is_u 64) (regs s);
  wf_byte_regs_length : length (byte_regs s) = 3%nat;
  wf_byte_regs : Forall (λ b, length b = 8%nat ∧ is_bytes b) (byte_regs s);
  wf_flags n : regs s !! as_num RF = Some n → Z.land n 0x010101 = n;
}.
(** The masks of the registers, as [reg_fits] reads them. *)
Definition fake_fits (r : FakeReg) (v : Value) : Prop :=
  match v with Num n => Z.land n (default (Z.ones (8 * fake_byte_size r)) (fake_mask r)) = n | Bytes _ => True end.

Lemma index_cases r : r ∈ fake_iter_regs →
  r ≠ RZ ∧ (as_num r < 20)%nat ∧ (∀ i, byte_index r = Some i → (i < 3)%nat ∧ fake_reg_type r = BytesType 8) ∧
  (byte_index r = None → fake_reg_type r = NumType).
Proof.
  intros Hr. destruct r; try (split_and!; [done|cbn; lia|intros i [= <-]; split; [lia|done]|done]);
    try (split_and!; [done|cbn; lia|done|done]). exfalso. revert Hr. by vm_compute; set_solver.
Qed.
Lemma as_num_inj r r' : as_num r = as_num r' → r = r'.
Proof. destruct r, r'; (done || discriminate). Qed.
Lemma byte_index_inj r r' i : byte_index r = Some i → byte_index r' = Some i → r = r'.
Proof. destruct r, r'; cbn; congruence. Qed.

Lemma reg_bytes s r i : r ≠ RZ → byte_index r = Some i → reg s r = b ← vget (byte_regs s) i; Ok (Bytes b).
Proof. destruct r; intros Hr [= <-]; done. Qed.
Lemma reg_num s r : r ≠ RZ → byte_index r = None → reg s r = n ← vget (regs s) (as_num r); Ok (Num n).
Proof. destruct r; (done || discriminate). Qed.
Lemma modify_bytes s r i f : r ≠ RZ → byte_index r = Some i → modify_reg s r f =
  b ← vget (byte_regs s) i; v ← f (Bytes b); b ← unwrap_bytes v; l ← vset (byte_regs s) i b;
  Ok {| regs := regs s; byte_regs := l |}.
Proof. destruct r; intros Hr [= <-]; done. Qed.
Lemma modify_num s r f : r ≠ RZ → byte_index r = None → modify_reg s r f =
  n ← vget (regs s) (as_num r); v ← f (Num n); n ← unwrap_num v; l ← vset (regs s) (as_num r) n;
  Ok {| regs := l; byte_regs := byte_regs s |}.
Proof. destruct r; (done || discriminate). Qed.

Lemma fake_read s r : fake_wf s → r ∈ fake_iter_regs →
  ∃ v, reg s r = Ok v ∧ has_type v (fake_reg_type r) ∧ value_wf v ∧ fake_fits r v.
Proof.
  intros [Hl Hu Hbl Hb Hf] (Hz & Hn & Hbi & Ht)%index_cases. destruct (byte_index r) as [i|] eqn:E.
  - destruct (Hbi i) as [Hi ->]; [done|]. rewrite (reg_bytes _ _ i) by done.
    destruct (vget_lt (byte_regs s) i) as (b & -> & Eb); [by rewrite Hbl|].
    destruct (Forall_lookup_1 _ _ _ _ Hb Eb). by exists (Bytes b).
  - rewrite (Ht eq_refl), reg_num by done.
    destruct (vget_lt (regs s) (as_num r)) as (n & -> & En); [by rewrite Hl|].
    assert (is_u 64 n) as H64 by by apply (Forall_lookup_1 _ _ _ _ Hu En). exists (Num n). split_and!; [done..|]. cbn.
    destruct r; try done; try (cbn; change 0xffffffffffffffff with (Z.ones 64); rewrite Z.land_ones by lia; by apply wrap_small). by apply Hf.
Qed.
(** Registers other than [r] do not see an update of [r]. *)
Lemma reg_other s r r' i x : r' ≠ r →
  (byte_index r = Some i → reg {| regs := regs s; byte_regs := <[i:=x]> (byte_regs s) |} r' = reg s r').
Proof.
  intros Hne Hi. destruct (decide (r' = RZ)) as [->|Hz]; [done|].
  destruct (byte_index r') as [j|] eqn:E.
  - rewrite !(reg_bytes _ _ j) by done. cbn. unfold vget. rewrite list_lookup_insert_ne; [done|].
    intros <-. apply Hne. by eapply byte_index_inj.
  - by rewrite !reg_num by done.
Qed.
Lemma reg_other_num s r r' x : r' ≠ r →
  reg {| regs := <[as_num r:=x]> (regs s); byte_regs := byte_regs s |} r' = reg s r'.
Proof.
  intros Hne. destruct (decide (r' = RZ)) as [->|Hz]; [done|].
  destruct (byte_index r') as [j|] eqn:E.
  - by rewrite !(reg_bytes _ _ j) by done.
  - rewrite !reg_num by done. cbn. unfold vget. rewrite list_lookup_insert_ne; [done|].
    intros Ha. apply Hne. by apply as_num_inj.
Qed.
Lemma fake_modify s r f v v' : fake_wf s → r ∈ fake_iter_regs → reg s r = Ok v → f v = Ok v' →
  same_shape v v' → value_wf v' → fake_fits r v' →
  ∃ s', modify_reg s r f = Ok s' ∧ fake_wf s' ∧ reg s' r = Ok v' ∧ ∀ r', r' ≠ r → reg s' r' = reg s r'.
Proof.
  intros Hwf (Hz & Hn & Hbi & Ht)%index_cases Hr Hf Hs Hv Hfit. destruct (byte_index r) as [i|] eqn:E.
  - destruct (Hbi i eq_refl) as [Hi _]. destruct Hwf as [Hl Hu Hbl Hb Hfl].
    rewrite (reg_bytes _ _ i) in Hr by done. rewrite (modify_bytes _ _ i) by done.
    destruct (vget_lt (byte_regs s) i) as (b & Eg & Eb); [by rewrite Hbl|].
    rewrite Eg, M_bind_Ok in *. injection Hr as <-. rewrite Hf, M_bind_Ok.
    destruct v' as [|b']; [done|]. destruct (Forall_lookup_1 _ _ _ _ Hb Eb). cbn [unwrap_bytes same_shape value_wf] in *.
    rewrite M_bind_Ok, vset_lt, M_bind_Ok by by rewrite Hbl. eexists. split_and!; [done| | |].
    + split; cbn; rewrite ?length_insert; [done..| |done]. apply Forall_insert; [done|]. split; [congruence|done].
    + rewrite (reg_bytes _ _ i) by done. unfold vget. cbn. by rewrite list_lookup_insert_eq by by rewrite Hbl.
    + intros r' Hne. by apply (reg_other _ r).
  - destruct Hwf as [Hl Hu Hbl Hb Hfl]. rewrite reg_num in Hr by done. rewrite modify_num by done.
    destruct (vget_lt (regs s) (as_num r)) as (n & Eg & En); [by rewrite Hl|].
    rewrite Eg, M_bind_Ok in *. injection Hr as <-. rewrite Hf, M_bind_Ok.
    destruct v' as [n'|]; [|done]. cbn [unwrap_num same_shape value_wf] in *.
    rewrite M_bind_Ok, vset_lt, M_bind_Ok by by rewrite Hl. eexists. split_and!; [done| | |].
    + split; cbn; rewrite ?length_insert; [done| |done..|]; [by apply Forall_insert|]. intros m Hm. destruct (decide (r = RF)) as [->|Hne].
      * rewrite list_lookup_insert_eq in Hm by by rewrite Hl. injection Hm as <-. exact Hfit.
      * rewrite list_lookup_insert_ne in Hm; [by apply Hfl|]. intros Ha. by apply Hne, as_num_inj.
    + rewrite reg_num by done. unfold vget. cbn. by rewrite list_lookup_insert_eq by by rewrite Hl.
    + intros r' Hne. by apply reg_other_num.
Qed.

#[global] Instance fake_laws {P : profile} : ArchLaws FakeArch.
Proof.
  refine (Build_ArchLaws FakeArch _ fake_wf _ _ _ _ _).
  - split; cbn; intros a b; [|by apply nat_cmp_laws|intros c; by apply nat_cmp_laws].
    rewrite Nat.compare_eq_iff. split; [apply as_num_inj|by intros ->].
  - split; [done|by apply Forall_replicate|done| |]; [apply Forall_replicate; split; [done|by apply Forall_replicate]|]. intros n Hn. cbn in Hn. by injection Hn as <-.
  - apply fake_read.
  - apply fake_modify.
  - intros s r f v Hwf (Hz & Hn & Hbi & Ht)%index_cases Hr Hf. cbn in Hr. cbn [cpu_modify_reg FakeArch].
    destruct (byte_index r) as [i|] eqn:E.
    + rewrite (reg_bytes _ _ i) in Hr by done. rewrite (modify_bytes _ _ i) by done.
      destruct (vget (byte_regs s) i); [|done..]. injection Hr as <-. by rewrite M_bind_Ok, Hf.
    + rewrite reg_num in Hr by done. rewrite modify_num by done.
      destruct (vget (regs s) (as_num r)); [|done..]. injection Hr as <-. by rewrite M_bind_Ok, Hf.
  - intros s r f g v Hwf (Hz & Hn & Hbi & Ht)%index_cases Hr Hf. cbn in Hr. cbn [cpu_modify_reg FakeArch].
    destruct (byte_index r) as [i|] eqn:E.
    + rewrite (reg_bytes _ _ i) in Hr by done. rewrite !(modify_bytes _ _ i) by done.
      destruct (vget (byte_regs s) i); [|done..]. injection Hr as <-. by rewrite !M_bind_Ok, Hf.
    + rewrite reg_num in Hr by done. rewrite !modify_num by done.
      destruct (vget (regs s) (as_num r)); [|done..]. injection Hr as <-. by rewrite !M_bind_Ok, Hf.
Defined.
End Fake.
