(* ===== verification/Locs.v ===== *)
(** * Storage locations, sources and inputs

    Models [Location] of [liblisa/src/state/locs.rs], [Dest] and [Source] of
    [liblisa/src/encoding/dataflows/locs.rs] and [Inputs] of
    [liblisa/src/encoding/dataflows/inputs.rs], over any architecture.  A
    destination stands for a set of bytes ([has_byte]). *)
From stdpp Require Import sorting.
From S2P Require Import Prelude MachInt Utils Size Value Arch.
Import SizeOps.

Inductive LocationKind := RegKind | MemoryKind.

Section types.
Context {A : Arch}.
Inductive Location := LReg (reg : Reg) | LMemory (index : nat).
Inductive Dest := DReg (reg : Reg) (size : Size) | DMem (index : nat) (size : Size).
(** [Source::Dest], [Source::Imm] and [Source::Const]. *)
Inductive Source := SDest (d : Dest) | SImm (index : nat) | SConst (value : Z) (num_bits : Z).
Record Inputs := { inputs : list Source }.

#[export] Instance Location_eq_dec : EqDecision Location.
Proof. solve_decision. Defined.
#[export] Instance Dest_eq_dec : EqDecision Dest.
Proof. solve_decision. Defined.
#[export] Instance Source_eq_dec : EqDecision Source.
Proof. solve_decision. Defined.
#[export] Instance Inputs_eq_dec : EqDecision Inputs.
Proof. solve_decision. Defined.
End types.

(** ** [Location] *)

Section locations.
Context {A : Arch}.
Definition location_kind (self : Location) : LocationKind :=
  match self with LReg _ => RegKind | LMemory _ => MemoryKind end.
#[export] Instance ValueType_eq_dec : EqDecision ValueType.
Proof. solve_decision. Defined.
Definition is_bytes_type (t : ValueType) : bool := match t with BytesType _ => true | NumType => false end.
Definition matches_value_type_with (self other : Location) : bool :=
  match self, other with
  | LReg a, LReg b => bool_decide (reg_type a = reg_type b)
  | LReg r, LMemory _ => is_bytes_type (reg_type r)
  | LMemory _, LReg r => is_bytes_type (reg_type r)
  | LMemory _, LMemory _ => true
  end.
Definition location_is_flags (self : Location) : bool :=
  match self with LReg reg => reg_is_flags reg | LMemory _ => false end.
End locations.

(** ** [Dest] *)

Section dests.
Context {P : profile} {A : Arch}.

(** [PartialEq<Location>] and [PartialEq<Reg>]. *)
Definition dest_eq_location (self : Dest) (other : Location) : bool :=
  match self, other with
  | DReg a _, LReg b => bool_decide (a = b)
  | DMem a _, LMemory b => bool_decide (a = b)
  | _, _ => false
  end.
Definition dest_eq_reg (self : Dest) (other : Reg) : bool :=
  match self with DReg reg _ => bool_decide (reg = other) | DMem _ _ => false end.

Definition dest_size (self : Dest) : Size := match self with DReg _ s | DMem _ s => s end.
Definition dest_with_size (self : Dest) (size : Size) : Dest :=
  match self with DReg r _ => DReg r size | DMem a _ => DMem a size end.
Definition dest_contains (self other : Dest) : bool :=
  match self, other with
  | DReg r1 s1, DReg r2 s2 => bool_decide (r1 = r2) && contains s1 s2
  | DMem m1 s1, DMem m2 s2 => bool_decide (m1 = m2) && contains s1 s2
  | _, _ => false
  end.
Definition dest_is_flags (self : Dest) : bool :=
  match self with DReg reg _ => reg_is_flags reg | DMem _ _ => false end.
Definition dest_mask (self : Dest) : M (option Z) :=
  match self with
  | DReg reg size =>
      match reg_mask reg with
      | None => Ok None
      | Some m =>
          k ← mul8 (start_byte size);
          a ← shr 64 m k;
          n ← num_bytes size;
          n ← mul8 n;
          w ← sub_u 64 64 n;
          b ← shr 64 U64_MAX w;
          Ok (Some (Z.land a b))
      end
  | DMem _ _ => Ok None
  end.
Definition dest_kind (self : Dest) : LocationKind :=
  match self with DReg _ _ => RegKind | DMem _ _ => MemoryKind end.
Definition dest_overlapping_area (self other : Dest) : option Size :=
  match self, other with
  | DReg a sa, DReg b sb => if bool_decide (a = b) then overlapping_area sa sb else None
  | DMem a sa, DMem b sb => if bool_decide (a = b) then overlapping_area sa sb else None
  | _, _ => None
  end.
Definition dest_overlaps (self other : Dest) : bool :=
  match dest_overlapping_area self other with Some _ => true | None => false end.
Definition dest_value_type (self : Dest) : M ValueType :=
  match self with
  | DReg reg size =>
      match reg_type reg with
      | NumType => Ok NumType
      | BytesType _ => n ← num_bytes size; Ok (BytesType (Z.to_nat n))
      end
  | DMem _ size => n ← num_bytes size; Ok (BytesType (Z.to_nat n))
  end.

(** [From<Location> for Dest] and back. *)
Definition dest_from_location (l : Location) : M Dest :=
  match l with
  | LReg reg => e ← sub_u 64 (byte_size reg) 1; Ok (DReg reg (new 0 e))
  | LMemory index => Ok (DMem index qword)
  end.
Definition location_from_dest (d : Dest) : Location :=
  match d with DReg reg _ => LReg reg | DMem index _ => LMemory index end.
Definition into_dest_with_size (self : Location) (size : Size) : Dest :=
  match self with LReg reg => DReg reg size | LMemory index => DMem index size end.

(** ** [Source] *)

Definition source_eq_location (self : Source) (other : Location) : bool :=
  match self with SDest d => dest_eq_location d other | _ => false end.
Definition source_eq_reg (self : Source) (other : Reg) : bool :=
  match self with SDest (DReg reg _) => bool_decide (reg = other) | _ => false end.
Definition source_size (self : Source) : M (option Size) :=
  match self with
  | SDest d => Ok (Some (dest_size d))
  | SConst _ num_bits => n ← sub_u 64 num_bits 1; Ok (Some (new 0 (n / 8)))
  | SImm _ => Ok None
  end.
Definition source_contains (self other : Source) : bool :=
  match self, other with SDest a, SDest b => dest_contains a b | _, _ => false end.
Definition unwrap_dest (self : Source) : M Dest :=
  match self with SDest d => Ok d | _ => Panic end.
Definition source_is_flags (self : Source) : bool :=
  match self with SDest d => dest_is_flags d | _ => false end.
Definition source_mask (self : Source) : M (option Z) :=
  match self with SDest d => dest_mask d | _ => Panic end.
Definition can_modify (self : Source) : bool :=
  match self with SDest _ => true | SImm _ | SConst _ _ => false end.
Definition source_with_size (self : Source) (size : Size) : Source :=
  match self with SDest d => SDest (dest_with_size d size) | other => other end.
Definition try_dest_from_source (s : Source) : option Dest :=
  match s with SDest d => Some d | _ => None end.
Definition try_location_from_source (s : Source) : option Location :=
  match s with SDest d => Some (location_from_dest d) | SImm _ | SConst _ _ => None end.
Definition into_source_with_size (self : Location) (size : Size) : Source :=
  SDest (into_dest_with_size self size).

(** The derived [Ord]: the variants in order of declaration, then the fields. *)
Definition lex (c d : comparison) : comparison := match c with Eq => d | c => c end.
Definition size_cmp (a b : Size) : comparison :=
  lex (start_byte a ?= start_byte b) (end_byte a ?= end_byte b).
Definition dest_cmp (a b : Dest) : comparison :=
  match a, b with
  | DReg r s, DReg r' s' => lex (reg_cmp r r') (size_cmp s s')
  | DReg _ _, DMem _ _ => Lt
  | DMem _ _, DReg _ _ => Gt
  | DMem i s, DMem i' s' => lex (Nat.compare i i') (size_cmp s s')
  end.
Definition source_cmp (a b : Source) : comparison :=
  match a, b with
  | SDest d, SDest d' => dest_cmp d d'
  | SDest _, _ => Lt
  | SImm _, SDest _ => Gt
  | SImm i, SImm j => Nat.compare i j
  | SImm _, SConst _ _ => Lt
  | SConst v n, SConst v' n' => lex (v ?= v') (n ?= n')
  | SConst _ _, _ => Gt
  end.
Definition source_le (a b : Source) : Prop := source_cmp a b ≠ Gt.
#[export] Instance source_le_dec : RelDecision source_le.
Proof. intros a b. unfold source_le. destruct (source_cmp a b); [left|left|right]; (done || congruence). Defined.

(** ** [Inputs] *)

Definition unsorted (l : list Source) : Inputs := {| inputs := l |}.
(** [Vec::sort] is a stable sort. *)
Definition sorted (l : list Source) : Inputs := unsorted (merge_sort source_le l).
Definition inputs_retain (self : Inputs) (f : Source → bool) : Inputs := unsorted (List.filter f (inputs self)).
Definition inputs_len (self : Inputs) : nat := length (inputs self).
Definition inputs_is_empty (self : Inputs) : bool := (inputs_len self =? 0)%nat.
Definition inputs_contains (self : Inputs) (item : Source) : bool := bool_decide (item ∈ inputs self).
Definition inputs_remove (self : Inputs) (item : Source) : Inputs :=
  inputs_retain self (λ input, negb (bool_decide (input = item))).
(** [Vec::remove] panics when the index is out of range. *)
Definition inputs_remove_index (self : Inputs) (index : nat) : M Inputs :=
  _ ← vget (inputs self) index; Ok (unsorted (delete index (inputs self))).
Definition inputs_push (self : Inputs) (item : Source) : Inputs := unsorted (inputs self ++ [item]).
(** [Index] and [IndexMut]. *)
Definition inputs_index (self : Inputs) (index : nat) : M Source := vget (inputs self) index.
Definition inputs_set (self : Inputs) (index : nat) (item : Source) : M Inputs :=
  l ← vset (inputs self) index item; Ok (unsorted l).
(** [PartialEq<[GpReg]>]. *)
Definition inputs_eq_gpregs (self : Inputs) (other : list GpReg) : bool :=
  (length (inputs self) =? length other)%nat &&
  forallb (λ '(a, b), match a with SDest (DReg reg _) => bool_decide (reg = arch_reg b) | _ => false end)
    (zip (inputs self) other).
End dests.

(** ** The derived order *)

Section lexicographic.
Context {T U} (f : T → T → comparison) (g : U → U → comparison) `{!CmpLaws f, !CmpLaws g}.

(** The lexicographic order of two fields. *)
Lemma lex_laws : CmpLaws (λ x y : T * U, lex (f x.1 y.1) (g x.2 y.2)).
Proof using All.
  split.
  - intros [a b] [c d]; cbn. rewrite pair_equal_spec, <- (cmp_eq (cmp:=f)), <- (cmp_eq (cmp:=g)).
    destruct (f a c); cbn; intuition congruence.
  - intros [a b] [c d]; cbn. rewrite (cmp_opp (cmp:=f) a c), (cmp_opp (cmp:=g) b d). by destruct (f a c).
  - intros [a b] [c d] [e h]; cbn. destruct (f a c) eqn:E1, (f c e) eqn:E2; cbn; try done; intros H1 H2.
    + apply (cmp_eq (cmp:=f)) in E1, E2. subst. rewrite (proj2 (cmp_eq (cmp:=f) e e) eq_refl). cbn.
      by eapply (cmp_trans (cmp:=g)).
    + apply (cmp_eq (cmp:=f)) in E1. subst. by rewrite E2.
    + apply (cmp_eq (cmp:=f)) in E2. subst. by rewrite E1.
    + by rewrite (cmp_trans (cmp:=f) _ _ _ E1 E2).
Qed.
End lexicographic.
(** A comparison through an injective view of the data. *)
Lemma cmp_via {T V} (f : T → T → comparison) `{!CmpLaws f} (h : V → T) : (∀ x y, h x = h y → x = y) → CmpLaws (λ x y, f (h x) (h y)).
Proof.
  intros Hinj. split; intros.
  - rewrite (cmp_eq (cmp:=f)). split; [apply Hinj | by intros ->].
  - apply cmp_opp.
  - by eapply (cmp_trans (cmp:=f)).
Qed.

#[export] Instance size_cmp_laws : CmpLaws size_cmp.
Proof.
  apply (cmp_via _ (CmpLaws0 := lex_laws Z.compare Z.compare) (λ s, (start_byte s, end_byte s))).
  by intros [] [] [= -> ->].
Qed.

(** A sum is ordered by its variants, then by their contents. *)
Lemma sum_laws {T U} (f : T → T → comparison) (g : U → U → comparison) `{!CmpLaws f, !CmpLaws g} :
  CmpLaws (λ x y : T + U, match x, y with
    | inl a, inl b => f a b | inl _, inr _ => Lt | inr _, inl _ => Gt | inr a, inr b => g a b end).
Proof.
  split.
  - intros [a|a] [b|b]; rewrite ?(cmp_eq (cmp:=f)), ?(cmp_eq (cmp:=g)); intuition congruence.
  - intros [a|a] [b|b]; (apply cmp_opp || done).
  - intros [a|a] [b|b] [c|c]; try done; apply cmp_trans.
Qed.

Section orders.
Context {A : Arch} {L : ArchLaws A}.
#[export] Instance dest_cmp_laws : CmpLaws dest_cmp.
Proof using L.
  pose proof (cmp_via _ (CmpLaws0 := sum_laws _ _ (CmpLaws0 := lex_laws reg_cmp size_cmp)
    (CmpLaws1 := lex_laws Nat.compare size_cmp))
    (λ d, match d with DReg r s => inl (r, s) | DMem i s => inr (i, s) end)) as H.
  destruct H as [H1 H2 H3]; [by intros [] []; intros; simplify_eq|].
  split; [intros a b; rewrite <- H1 | intros a b; generalize (H2 a b) | intros a b c; generalize (H3 a b c)];
    by destruct a, b; try destruct c.
Qed.
#[export] Instance source_cmp_laws : CmpLaws source_cmp.
Proof using L.
  pose proof (cmp_via _ (CmpLaws0 := sum_laws dest_cmp _
    (CmpLaws1 := sum_laws Nat.compare _ (CmpLaws1 := lex_laws Z.compare Z.compare)))
    (λ s, match s with SDest d => inl d | SImm i => inr (inl i) | SConst v n => inr (inr (v, n)) end)) as H.
  destruct H as [H1 H2 H3]; [by intros [] []; intros; simplify_eq|].
  split; [intros a b; rewrite <- H1 | intros a b; generalize (H2 a b) | intros a b c; generalize (H3 a b c)];
    by destruct a, b; try destruct c.
Qed.

#[export] Instance source_le_total : Total source_le.
Proof using L. intros a b. unfold source_le. rewrite (cmp_opp (cmp:=source_cmp) a b). destruct (source_cmp a b); naive_solver. Qed.
#[export] Instance source_le_trans : Transitive source_le.
Proof using L.
  intros a b c. unfold source_le. destruct (source_cmp a b) eqn:E1, (source_cmp b c) eqn:E2; try done; intros _ _.
  - apply (cmp_eq (cmp:=source_cmp)) in E1, E2. subst. by rewrite (proj2 (cmp_eq (cmp:=source_cmp) c c) eq_refl).
  - apply (cmp_eq (cmp:=source_cmp)) in E1. subst. by rewrite E2.
  - apply (cmp_eq (cmp:=source_cmp)) in E2. subst. by rewrite E1.
  - by rewrite (cmp_trans (cmp:=source_cmp) _ _ _ E1 E2).
Qed.
#[export] Instance source_le_antisym : AntiSymm (=) source_le.
Proof using L.
  intros a b. unfold source_le. rewrite (cmp_opp (cmp:=source_cmp) a b).
  destruct (source_cmp a b) eqn:E; [|done..]. by apply (cmp_eq (cmp:=source_cmp)) in E.
Qed.

(** [Inputs::sorted] orders the sources it is given and does not depend on the
    order they come in: it is the one sorted permutation. *)
Theorem sorted_canonical (l k : list Source) :
  inputs (sorted l) ≡ₚ l ∧ StronglySorted source_le (inputs (sorted l)) ∧
  (sorted l = sorted k ↔ l ≡ₚ k).
Proof using L.
  unfold sorted. cbn. split_and!; [apply merge_sort_Permutation | apply StronglySorted_merge_sort; apply _|].
  split.
  - intros [= E]. by rewrite <- (merge_sort_Permutation source_le l), E, merge_sort_Permutation.
  - intros Hp. f_equal. apply (StronglySorted_unique source_le); [apply StronglySorted_merge_sort; apply _..|].
    by rewrite !merge_sort_Permutation.
Qed.
End orders.

(** ** The bytes of a destination *)

Section bytes.
Context {P : profile} {A : Arch}.
Definition has_byte (d : Dest) (l : Location) (i : Z) : Prop :=
  location_from_dest d = l ∧ has (dest_size d) i.
Definition dest_wf (d : Dest) : Prop := size_wf (dest_size d).

Lemma dest_same_location d e :
  dest_overlapping_area d e =
    (if decide (location_from_dest d = location_from_dest e) then overlapping_area (dest_size d) (dest_size e) else None) ∧
  dest_contains d e = bool_decide (location_from_dest d = location_from_dest e) && contains (dest_size d) (dest_size e).
Proof.
  destruct d, e; cbn; split; try done.
  all: try (by destruct (decide _)). all: try (by rewrite bool_decide_false by done).
  all: try (case_bool_decide; destruct (decide _); naive_solver).
  all: f_equal; apply bool_decide_ext; naive_solver.
Qed.

(** The operations on destinations are those on sets of bytes: [contains] is
    inclusion, [overlaps] a common byte, [overlapping_area] their range; and a
    destination is its location with its size. *)
Theorem dest_set_semantics d e : dest_wf d → dest_wf e →
  (dest_contains d e = true ↔ ∀ l i, has_byte e l i → has_byte d l i) ∧
  (dest_overlaps d e = true ↔ ∃ l i, has_byte d l i ∧ has_byte e l i) ∧
  (∀ a, dest_overlapping_area d e = Some a →
     ∀ i, has a i ↔ has_byte d (location_from_dest e) i ∧ has_byte e (location_from_dest e) i) ∧
  into_dest_with_size (location_from_dest d) (dest_size d) = d.
Proof.
  intros [Hd1 Hd2 Hd3] [He1 He2 He3]. destruct (dest_same_location d e) as [Ho Hc].
  unfold dest_overlaps. rewrite Ho, Hc. unfold has_byte, has. split_and!.
  - rewrite andb_true_iff, bool_decide_eq_true. unfold contains. rewrite andb_true_iff, !Z.leb_le. split.
    + intros [-> ?] l i [? ?]. split; [done|lia].
    + intros H. destruct (H (location_from_dest e) (start_byte (dest_size e))) as [? ?]; [split; [done|lia]|].
      destruct (H (location_from_dest e) (end_byte (dest_size e))) as [_ ?]; [split; [done|lia]|]. split; [done|lia].
  - unfold overlapping_area. destruct (decide _) as [E|E].
    + case_cmp; [split; [|done]|split; [done|]].
      * intros _. eexists (location_from_dest e), (Z.max (start_byte (dest_size d)) (start_byte (dest_size e))).
        split; (split; [done|lia]).
      * intros (l & i & [? ?] & [? ?]). lia.
    + split; [done|]. intros (l & i & [? ?] & [? ?]). congruence.
  - intros a. unfold overlapping_area, new. destruct (decide _) as [E|E]; [|done].
    case_cmp; [|done]. intros [= <-] i. cbn. intuition (done || lia).
  - by destruct d.
Qed.

(** [Dest::mask] of a byte range of a register of at most 8 bytes is that range
    of the register's mask; it never panics, also for the full 8 bytes. *)
Lemma dest_mask_spec reg m s : reg_mask reg = Some m → is_u 64 m → size_wf s → end_byte s < 8 →
  ∃ r, dest_mask (DReg reg s) = Ok (Some r) ∧
    ∀ i, 0 <= i → Z.testbit r i = (i <? 8 * (end_byte s - start_byte s + 1)) && Z.testbit m (i + 8 * start_byte s).
Proof.
  intros Hm Hu [H1 H2 H3] H8. unfold dest_mask. rewrite Hm. unfold num_bytes.
  rewrite mul8_ok, M_bind_Ok, shr_ok, M_bind_Ok by (unfold is_u; lia).
  rewrite sub_u_ok, M_bind_Ok by (unfold is_u; lia). rewrite add_u_ok, M_bind_Ok by (unfold is_u; lia).
  rewrite mul8_ok, M_bind_Ok by (unfold is_u; lia). rewrite sub_u_ok, M_bind_Ok by (unfold is_u; lia).
  rewrite shr_ok, M_bind_Ok by lia. eexists. split; [done|]. intros i Hi.
  replace U64_MAX with (Z.ones 64) by done. rewrite Z.land_spec, !Z.shiftr_spec by lia.
  rewrite Z.testbit_ones_nonneg by lia. rewrite andb_comm. f_equal; [|f_equal; lia]. by case_cmps.
Qed.
End bytes.
