(* ===== verification/State.v ===== *)
(** * System states

    Models [liblisa/src/state/memory.rs] and [liblisa/src/state/mod.rs]: the
    memory mappings of a state, and the reads and writes of registers, memory
    mappings and byte ranges of them, over any architecture.  A [&mut] method
    takes the old state and returns the new one. *)
From stdpp Require Import sorting.
From S2P Require Import Prelude MachInt Utils Size Value Arch Locs Addr.
Import SizeOps AddrOps.

(** ** Memory *)

Inductive Permissions := Read | ReadWrite | Execute.
#[export] Instance Permissions_eq_dec : EqDecision Permissions.
Proof. solve_decision. Defined.

Definition MAX_MEMORY_SIZE : nat := 128.

(** [(Addr, Permissions, Vec<u8>)]. *)
Record MemoryEntry := { entry_addr : Addr; entry_perms : Permissions; entry_data : list Z }.
Record MemoryState := { mem_data : list MemoryEntry }.
#[export] Instance MemoryEntry_eq_dec : EqDecision MemoryEntry.
Proof. solve_decision. Defined.
#[export] Instance MemoryState_eq_dec : EqDecision MemoryState.
Proof. solve_decision. Defined.

Module Mem.
Definition default : MemoryState := {| mem_data := [] |}.
(** [MemoryState::new] and [from_vec]. *)
Definition new (items : list MemoryEntry) : MemoryState := {| mem_data := items |}.
Definition from_vec (data : list MemoryEntry) : MemoryState := {| mem_data := data |}.
Definition get (self : MemoryState) (index : nat) : M MemoryEntry := vget (mem_data self) index.
Definition get_checked (self : MemoryState) (index : nat) : option MemoryEntry := mem_data self !! index.
Definition addr (self : MemoryState) (index : nat) : M Addr := e ← get self index; Ok (entry_addr e).
Definition permissions (self : MemoryState) (index : nat) : M Permissions :=
  e ← get self index; Ok (entry_perms e).
Definition data (self : MemoryState) (index : nat) : M (list Z) := e ← get self index; Ok (entry_data e).
Definition len (self : MemoryState) : nat := length (mem_data self).
Definition is_empty (self : MemoryState) : bool := (len self =? 0)%nat.
Definition areas (self : MemoryState) : list Area :=
  (λ e, into_area (entry_addr e) (Z.of_nat (length (entry_data e)))) <$> mem_data self.

(** The methods of [MemoryStateItemMut], on the item of [get_mut(index)], which
    is looked up when the method runs. *)
Definition with_data (e : MemoryEntry) (d : list Z) : MemoryEntry :=
  {| entry_addr := entry_addr e; entry_perms := entry_perms e; entry_data := d |}.
Definition set_data (self : MemoryState) (index : nat) (new_data : list Z) : M MemoryState :=
  e ← get self index;
  l ← vset (mem_data self) index (with_data e new_data);
  Ok (from_vec l).
Definition modify_data (self : MemoryState) (index : nat) (f : list Z → M (list Z)) : M MemoryState :=
  e ← get self index;
  d ← f (entry_data e);
  l ← vset (mem_data self) index (with_data e d);
  Ok (from_vec l).
Definition crop_data (self : MemoryState) (index : nat) (max_size : nat) : M MemoryState :=
  e ← get self index;
  if (max_size <? length (entry_data e))%nat
  then l ← vset (mem_data self) index (with_data e (take max_size (entry_data e))); Ok (from_vec l)
  else Ok self.
Definition set_addr (self : MemoryState) (index : nat) (new_addr : Addr) : M MemoryState :=
  e ← get self index;
  l ← vset (mem_data self) index
    {| entry_addr := new_addr; entry_perms := entry_perms e; entry_data := entry_data e |};
  Ok (from_vec l).
End Mem.

(** ** [SystemState] *)

Section system_state.
Context {P : profile} {A : Arch}.

Record SystemState := {
  cpu : CpuState;
  memory : MemoryState;
  use_trap_flag : bool;
  contains_valid_addrs : bool;
}.
#[export] Instance SystemState_eq_dec : EqDecision SystemState.
Proof. solve_decision. Defined.

(** [SystemState::new] and [new_without_memory], [with_new_memory]. *)
Definition state_new (cpu : CpuState) (memory : MemoryState) : SystemState :=
  {| cpu := cpu; memory := memory; use_trap_flag := true; contains_valid_addrs := true |}.
Definition new_without_memory (cpu : CpuState) : SystemState := state_new cpu Mem.default.
Definition state_default : SystemState := new_without_memory cpu_default.
Definition with_new_memory (self : SystemState) (num_memory num_bytes : nat) (memory : MemoryState) : SystemState :=
  state_new (cpu self) memory.

(** Writing through [cpu_mut] and [memory_mut]. *)
Definition with_cpu (s : SystemState) (c : CpuState) : SystemState :=
  {| cpu := c; memory := memory s; use_trap_flag := use_trap_flag s;
     contains_valid_addrs := contains_valid_addrs s |}.
Definition with_memory (s : SystemState) (m : MemoryState) : SystemState :=
  {| cpu := cpu s; memory := m; use_trap_flag := use_trap_flag s;
     contains_valid_addrs := contains_valid_addrs s |}.

Definition location (self : SystemState) (loc : Location) : M Value :=
  match loc with
  | LReg reg => cpu_reg (cpu self) reg
  | LMemory n => d ← Mem.data (memory self) n; Ok (Bytes d)
  end.
Definition get_location (self : SystemState) (loc : Location) : M (option Value) :=
  match loc with
  | LReg reg => v ← cpu_reg (cpu self) reg; Ok (Some v)
  | LMemory n => Ok (Bytes ∘ entry_data <$> Mem.get_checked (memory self) n)
  end.
Definition set_reg (self : SystemState) (reg : Reg) (new_value : Value) : M SystemState :=
  c ← cpu_modify_reg (cpu self) reg (λ value,
    match value, new_value with
    | Num _, Num src => Ok (Num src)
    | Bytes dst, Bytes src => assert! (length dst =? length src)%nat; Ok (Bytes src)
    | _, _ => Panic
    end);
  Ok (with_cpu self c).
Definition set_location (self : SystemState) (loc : Location) (value : Value) : M SystemState :=
  match loc, value with
  | LReg reg, value => set_reg self reg value
  | LMemory index, Bytes v =>
      m ← Mem.modify_data (memory self) index (λ target, assert! (length target =? length v)%nat; Ok v);
      Ok (with_memory self m)
  | LMemory _, Num _ => Panic
  end.
Definition with_location (self : SystemState) (loc : Location) (value : Value) : M SystemState :=
  set_location self loc value.
Definition set_flag (self : SystemState) (flag : Flag) (value : bool) : M SystemState :=
  c ← cpu_set_flag (cpu self) flag value; Ok (with_cpu self c).

Definition get_dest (self : SystemState) (dest : Dest) : M Value :=
  value ← location self (location_from_dest dest);
  value_slice value (dest_size dest).

(** [size.end_byte - size.start_byte + 1] and the mask of that many bytes. *)
Definition range_len (size : Size) : M Z :=
  d ← sub_u 64 (end_byte size) (start_byte size); add_u 64 d 1.
Definition unshifted_mask (size : Size) : M Z :=
  n ← range_len size;
  w ← mul8 n;
  if w =? 64 then Ok 0xffffffffffffffff else one ← shl_u 64 1 w; sub_u 64 one 1.
(** The contents that [set_dest] stores in the whole location. *)
Definition spliced (size : Size) (current_value new_value : Value) : M Value :=
  match current_value, new_value with
  | Num current, Num new =>
      m ← unshifted_mask size;
      k ← mul8 (start_byte size);
      mask ← shl_u 64 m k;
      x ← shl_u 64 new k;
      Ok (Num (Z.lor (Z.land current (not_u 64 mask)) (Z.land x mask)))
  | Bytes current, Bytes new =>
      n ← range_len size;
      e ← add_u 64 (end_byte size) 1;
      Ok (Bytes (take (Z.to_nat (start_byte size)) current ++ take (Z.to_nat n) new ++
                 drop (Z.to_nat e) current))
  | _, new => Ok new
  end.
Definition set_dest (self : SystemState) (dest : Dest) (new_value : Value) : M SystemState :=
  let loc := location_from_dest dest in
  current_value ← location self loc;
  v ← spliced (dest_size dest) current_value new_value;
  set_location self loc v.
Definition with_dest (self : SystemState) (dest : Dest) (v : Value) : M SystemState := set_dest self dest v.

(** [modify(MutValue::Bytes(&mut bytes[start..=end]))]: the closure rewrites the
    slice in place. *)
Definition modify_slice (size : Size) (bytes : list Z) (modify : Value → M Value) : M (list Z) :=
  assert! end_byte size <? U64_MAX;
  b ← slice_range bytes (start_byte size) (end_byte size + 1);
  v ← modify (Bytes b);
  b ← unwrap_bytes v;
  Ok (take (Z.to_nat (start_byte size)) bytes ++ b ++ drop (Z.to_nat (end_byte size + 1)) bytes).
Definition modify_dest (self : SystemState) (dest : Dest) (modify : Value → M Value) : M SystemState :=
  match dest with
  | DReg reg size =>
      c ← cpu_modify_reg (cpu self) reg (λ value,
        match value with
        | Num current =>
            m ← unshifted_mask size;
            k ← mul8 (start_byte size);
            mask ← shl_u 64 m k;
            s ← shr 64 current k;
            v ← modify (Num (Z.land s m));
            val ← unwrap_num v;
            x ← shl_u 64 val k;
            Ok (Num (Z.lor (Z.land current (not_u 64 mask)) (Z.land x mask)))
        | Bytes bytes => b ← modify_slice size bytes modify; Ok (Bytes b)
        end);
      Ok (with_cpu self c)
  | DMem index size =>
      m ← Mem.modify_data (memory self) index (λ bytes, modify_slice size bytes modify);
      Ok (with_memory self m)
  end.
End system_state.
