(* ===== verification/StateFacts.v ===== *)
(** * Reads and writes of system states

    Theorems about [State.v], for every architecture that satisfies
    [ArchLaws]: [get_dest] and [set_dest] are a lens on every byte range that
    lies inside its register or mapping, and ranges that do not overlap are
    independent. *)
From stdpp Require Import sorting.
From S2P Require Import Prelude MachInt Utils Size Value Arch Locs Addr State.
Import SizeOps AddrOps.

(** ** Byte ranges of a value *)

Definition vlen (v : Value) : Z := match v with Num _ => 8 | Bytes b => Z.of_nat (length b) end.
Definition size_len (s : Size) : Z := end_byte s - start_byte s + 1.
(** The range [s] of a value, and the value with that range replaced. *)
Definition cut (s : Size) (v : Value) : Value :=
  match v with
  | Num n => Num (Z.land (Z.shiftr n (8 * start_byte s)) (Z.ones (8 * size_len s)))
  | Bytes b => Bytes (take (Z.to_nat (size_len s)) (drop (Z.to_nat (start_byte s)) b))
  end.
Definition range_mask (s : Size) : Z := Z.shiftl (Z.ones (8 * size_len s)) (8 * start_byte s).
Definition splice (s : Size) (cur new : Value) : Value :=
  match cur, new with
  | Num c, Num n => Num (Z.lor (Z.ldiff c (range_mask s)) (Z.land (Z.shiftl n (8 * start_byte s)) (range_mask s)))
  | Bytes c, Bytes n =>
      Bytes (take (Z.to_nat (start_byte s)) c ++ n ++ drop (Z.to_nat (end_byte s + 1)) c)
  | _, new => new
  end.
(** [new] is of the kind of [cur] and as long as the range. *)
Definition fits (s : Size) (cur new : Value) : Prop :=
  match cur, new with
  | Num _, Num n => is_u (8 * size_len s) n
  | Bytes _, Bytes b => Z.of_nat (length b) = size_len s ∧ is_bytes b
  | _, _ => False
  end.
Definition inside (s : Size) (v : Value) : Prop := size_wf s ∧ end_byte s < vlen v ∧ vlen v < 2 ^ 32.

Lemma inside_num s n : inside s (Num n) ↔ size_wf s ∧ end_byte s < 8.
Proof. unfold inside; cbn; intuition lia. Qed.

Section values.
Context {P : profile}.

Lemma range_len_ok s : size_wf s → range_len s = Ok (size_len s).
Proof.
  intros [H1 H2 H3]. unfold range_len, size_len. rewrite sub_u_ok, M_bind_Ok by (unfold is_u; lia).
  by rewrite add_u_ok by (unfold is_u; lia).
Qed.
Lemma unshifted_mask_ok s : size_wf s → end_byte s < 8 → unshifted_mask s = Ok (Z.ones (8 * size_len s)).
Proof.
  intros Hs H8. unfold unshifted_mask. rewrite range_len_ok, M_bind_Ok by done.
  destruct Hs as [H1 H2 H3]. assert (1 <= size_len s <= 8) by (unfold size_len; lia).
  rewrite mul8_ok, M_bind_Ok by (unfold is_u; lia). rewrite (Z.mul_comm (size_len s)). apply mask_bits. lia.
Qed.
Lemma range_mask_u s : size_wf s → end_byte s < 8 → is_u 64 (range_mask s).
Proof.
  intros [H1 H2 H3] H8. apply u_of_bits; [lia| |].
  { apply Z.shiftl_nonneg. rewrite Z.ones_equiv. pose proof (pow2_pos (8 * size_len s)). unfold size_len in *. lia. }
  intros i Hi. unfold range_mask, size_len. rewrite Z.shiftl_spec, Z.testbit_ones by lia. case_cmps; done.
Qed.
Lemma testbit_range_mask s i : size_wf s → 0 <= i →
  Z.testbit (range_mask s) i = (8 * start_byte s <=? i) && (i <? 8 * (end_byte s + 1)).
Proof.
  intros [H1 H2 H3] Hi. unfold range_mask, size_len. rewrite Z.shiftl_spec, Z.testbit_ones by lia. case_cmps; done.
Qed.

Lemma value_slice_ok s v : inside s v → value_slice v s = Ok (cut s v).
Proof.
  intros (Hs & He & Hv). pose proof Hs as [H1 H2 H3]. unfold value_slice.
  rewrite (sub_u_ok 64 (end_byte s)), M_bind_Ok by (unfold is_u; lia).
  rewrite (add_u_ok 64 (end_byte s - start_byte s)), M_bind_Ok by (unfold is_u; lia).
  rewrite (mul8_ok (end_byte s - start_byte s + 1)), M_bind_Ok by (unfold is_u; lia).
  destruct v as [n|b]; cbn [vlen] in *.
  - rewrite mul8_ok, M_bind_Ok, shr_ok, M_bind_Ok, mask_bits, M_bind_Ok by (unfold is_u; lia).
    cbn [cut]. unfold size_len. do 4 f_equal; lia.
  - rewrite sub_u_ok, M_bind_Ok by (unfold is_u; lia). rewrite add_u_ok, M_bind_Ok by (unfold is_u; lia).
    rewrite !Z.min_l by lia. unfold slice_range, slice, size_len. rewrite (proj2 (andb_true_iff _ _)) by lia.
    cbn [rassert]. rewrite !M_bind_Ok. cbn [cut]. do 3 f_equal. unfold size_len. lia.
Qed.
Lemma spliced_ok s cur new : inside s cur → value_wf cur → fits s cur new → spliced s cur new = Ok (splice s cur new).
Proof.
  intros (Hs & He & Hv) Hc Hf. pose proof Hs as [H1 H2 H3]. destruct cur as [c|c], new as [n|n]; try done.
  - cbn [spliced vlen splice] in *. rewrite unshifted_mask_ok, M_bind_Ok by done.
    rewrite mul8_ok, M_bind_Ok by (unfold is_u; lia). rewrite !shl_u_ok, !M_bind_Ok by lia.
    rewrite (Z.mul_comm (start_byte s)). fold (range_mask s). pose proof (range_mask_u s Hs He) as Hm.
    rewrite (wrap_small 64 (range_mask s)) by done. do 3 f_equal.
    + bitwise i Hi. unfold not_u. bits_simpl; [done|]. by rewrite (testbit_u_high 64 _ i Hc) by lia.
    + bitwise i Hi; [done|]. by rewrite (testbit_u_high 64 _ i Hm), andb_false_r by lia.
  - cbn [spliced splice vlen] in *. rewrite range_len_ok, M_bind_Ok by done.
    rewrite add_u_ok, M_bind_Ok by (unfold is_u; lia). destruct Hf as [Hl _].
    by rewrite (take_ge n) by lia.
Qed.
End values.

Definition disjoint_sizes (s t : Size) : Prop := end_byte s < start_byte t ∨ end_byte t < start_byte s.

Lemma splice_shape s cur new : inside s cur → value_wf cur → fits s cur new →
  same_shape cur (splice s cur new) ∧ value_wf (splice s cur new).
Proof.
  intros (Hs & He & Hv) Hc Hf. pose proof Hs as [H1 H2 H3]. destruct cur as [c|c], new as [n|n]; try done; cbn in *.
  - split; [done|]. pose proof (range_mask_u s Hs He) as Hm. apply is_u_lor; [lia| |].
    + apply u_of_bits; [lia|apply Z.ldiff_nonneg; left; apply Hc|]. intros i Hi.
      by rewrite Z.ldiff_spec, (testbit_u_high 64 c) by (done || lia).
    + rewrite Z.land_comm. apply is_u_land; [lia|done|]. apply Z.shiftl_nonneg, Hf.
  - destruct Hf as [Hl Hb]. unfold size_len in Hl. split.
    + rewrite !length_app, length_take, length_drop. lia.
    + apply Forall_app; split; [by apply Forall_take|]. apply Forall_app; split; [done|by apply Forall_drop].
Qed.
Lemma cut_fits s v : inside s v → value_wf v → fits s v (cut s v) ∧ value_wf (cut s v).
Proof.
  intros (Hs & He & Hv) Hc. pose proof Hs as [H1 H2 H3]. destruct v as [n|b]; cbn in *.
  - assert (is_u (8 * size_len s) (Z.land (Z.shiftr n (8 * start_byte s)) (Z.ones (8 * size_len s)))) as Hu.
    { rewrite Z.land_ones by (unfold size_len; lia). apply Z.mod_pos_bound, pow2_pos. unfold size_len; lia. }
    split; [done|]. eapply is_u_mono; [|done]. unfold size_len; lia.
  - unfold size_len. split; [split|]; [rewrite length_take, length_drop; lia| |];
      by apply Forall_take, Forall_drop.
Qed.

(** Reading back what was written. *)
Lemma cut_splice s cur new : inside s cur → fits s cur new → cut s (splice s cur new) = new.
Proof.
  intros (Hs & He & Hv) Hf. pose proof Hs as [H1 H2 H3]. destruct cur as [c|c], new as [n|n]; try done; cbn in *.
  - f_equal. apply Z.bits_inj'; intros i Hi. unfold size_len in *.
    rewrite Z.land_spec, Z.shiftr_spec, Z.lor_spec, Z.ldiff_spec, Z.land_spec, Z.testbit_ones_nonneg by lia.
    rewrite !testbit_range_mask, Z.shiftl_spec by (done || lia). case_cmps; cbn.
    + rewrite andb_false_r, andb_true_r, andb_true_r. cbn. f_equal; lia.
    + rewrite andb_false_r. by rewrite (testbit_u_high _ n i Hf) by lia.
  - destruct Hf as [Hl Hb]. f_equal. rewrite drop_app_length' by (rewrite length_take; lia).
    by rewrite take_app_length' by lia.
Qed.
(** Writing back what was read. *)
Lemma splice_cut s v : inside s v → value_wf v → splice s v (cut s v) = v.
Proof.
  intros (Hs & He & Hv) Hc. pose proof Hs as [H1 H2 H3]. destruct v as [n|b]; cbn in *; f_equal.
  - apply Z.bits_inj'; intros i Hi.
    rewrite Z.lor_spec, Z.ldiff_spec, Z.land_spec, Z.shiftl_spec, !testbit_range_mask by (done || lia).
    destruct (Z.lt_ge_cases i (8 * start_byte s)).
    + rewrite (Z.testbit_neg_r _ (i - 8 * start_byte s)) by lia. case_cmps; cbn; by rewrite ?andb_true_r, ?orb_false_r.
    + rewrite Z.land_spec, Z.shiftr_spec, Z.testbit_ones_nonneg by (unfold size_len; lia).
      replace (i - 8 * start_byte s + 8 * start_byte s) with i by lia. unfold size_len.
      case_cmps; cbn; by rewrite ?andb_true_r, ?andb_false_r, ?orb_false_r.
  - unfold size_len. replace (Z.to_nat (end_byte s + 1)) with
      (Z.to_nat (start_byte s) + Z.to_nat (end_byte s - start_byte s + 1))%nat by lia.
    rewrite <- drop_drop, take_drop, take_drop. done.
Qed.
(** A write does not show outside of its range. *)
Lemma cut_splice_disjoint s t cur new : inside s cur → inside t cur → fits s cur new → disjoint_sizes s t →
  cut t (splice s cur new) = cut t cur.
Proof.
  intros (Hs & He & Hv) (Ht & He' & _) Hf Hd. pose proof Hs as [H1 H2 H3]. pose proof Ht as [T1 T2 T3].
  destruct cur as [c|c], new as [n|n]; try done; cbn in *; f_equal.
  - apply Z.bits_inj'; intros i Hi. unfold size_len in *. unfold disjoint_sizes in Hd.
    rewrite !Z.land_spec, !Z.shiftr_spec, Z.lor_spec, Z.ldiff_spec, Z.land_spec, Z.testbit_ones_nonneg by lia.
    rewrite !testbit_range_mask by (done || lia). destruct (Z.ltb_spec i (8 * (end_byte t - start_byte t + 1))).
    + case_cmps; cbn; by rewrite ?andb_true_r, ?andb_false_r, ?orb_false_r.
    + by rewrite !andb_false_r.
  - destruct Hf as [Hl Hb]. unfold size_len in *. apply list_eq; intros i.
    destruct (decide (i < Z.to_nat (end_byte t - start_byte t + 1))%nat) as [Hi|Hi];
      [|rewrite !lookup_take_ge by lia; done].
    rewrite !lookup_take_lt, !lookup_drop by done. destruct Hd as [Hd|Hd].
    + rewrite lookup_app_r by (rewrite length_take; lia). rewrite lookup_app_r by (rewrite length_take; lia).
      rewrite lookup_drop, length_take. f_equal. lia.
    + rewrite lookup_app_l by (rewrite length_take; lia). rewrite lookup_take_lt by lia. done.
Qed.

(** ** Locations of a state *)

Section states.
Context {P : profile} {A : Arch} {L : ArchLaws A}.

(** The registers are well-formed and every mapping holds bytes. *)
Record state_wf (s : SystemState) : Prop := {
  wf_cpu : cpu_wf (cpu s);
  wf_mem : Forall (λ e, is_bytes (entry_data e)) (mem_data (memory s));
}.
Definition loc_ok (s : SystemState) (l : Location) : Prop :=
  match l with LReg r => r ∈ iter_regs | LMemory n => (n < Mem.len (memory s))%nat end.
(** Values that a location can hold: those that fit the register. *)
Definition loc_fits (l : Location) (v : Value) : Prop := match l with LReg r => reg_fits r v | LMemory _ => True end.
(** What a write to a register or the data of a mapping leaves alone. *)
Definition same_layout (s s' : SystemState) : Prop :=
  use_trap_flag s' = use_trap_flag s ∧ contains_valid_addrs s' = contains_valid_addrs s ∧
  Mem.areas (memory s') = Mem.areas (memory s) ∧
  entry_perms <$> mem_data (memory s') = entry_perms <$> mem_data (memory s).

Lemma location_fits s l : state_wf s → loc_ok s l → ∃ v, location s l = Ok v ∧ value_wf v ∧ loc_fits l v.
Proof using L.
  intros [Hc Hm] Hl. destruct l as [r|n]; cbn in *.
  - destruct (law_read (cpu s) r Hc Hl) as (v & Hv & _ & Hw & Hf). by exists v.
  - unfold Mem.data, Mem.get. destruct (vget_lt (mem_data (memory s)) n Hl) as (e & -> & He).
    rewrite !M_bind_Ok. eexists. split; [done|]. split; [|done]. apply (Forall_lookup_1 _ _ _ _ Hm He).
Qed.
Lemma location_ok s l : state_wf s → loc_ok s l → ∃ v, location s l = Ok v ∧ value_wf v.
Proof using L. intros Hs Hl. destruct (location_fits s l Hs Hl) as (v & ? & ? & _). by exists v. Qed.

Lemma areas_insert m n e d : mem_data m !! n = Some e → length d = length (entry_data e) →
  Mem.areas (Mem.from_vec (<[n:=Mem.with_data e d]> (mem_data m))) = Mem.areas m ∧
  entry_perms <$> <[n:=Mem.with_data e d]> (mem_data m) = entry_perms <$> mem_data m.
Proof.
  intros He Hd. unfold Mem.areas. cbn. rewrite !list_fmap_insert. cbn. rewrite Hd.
  split; apply list_insert_id; rewrite list_lookup_fmap, He; done.
Qed.

(** [set_location] stores a value of the same shape and changes nothing else. *)
Lemma set_location_ok s l v v' : state_wf s → loc_ok s l → location s l = Ok v →
  same_shape v v' → value_wf v' → loc_fits l v' →
  ∃ s', set_location s l v' = Ok s' ∧ state_wf s' ∧ same_layout s s' ∧ location s' l = Ok v' ∧
    ∀ l', l' ≠ l → location s' l' = location s l'.
Proof using L.
  intros [Hc Hm] Hl Hv Hs Hw Hfit. destruct l as [r|n].
  - cbn in *. unfold set_reg.
    destruct (law_modify (cpu s) r (λ value,
      match value, v' with
      | Num _, Num src => Ok (Num src)
      | Bytes dst, Bytes src => assert! (length dst =? length src)%nat; Ok (Bytes src)
      | _, _ => Panic
      end) v v' Hc Hl Hv) as (c & -> & Hc' & Hr & Ho); [|done..|].
    { destruct v, v'; try done; cbn in *. by rewrite Hs, Nat.eqb_refl. }
    rewrite M_bind_Ok. eexists. split_and!; [done|by split|done| |]; [done|].
    intros [r'|n'] Hne; cbn; [apply Ho; congruence|done].
  - destruct v as [|b]; [by unfold location in Hv; destruct (Mem.data _ _)|]. destruct v' as [|b']; [done|].
    cbn [location set_location loc_ok same_shape value_wf] in *. unfold Mem.data, Mem.modify_data, Mem.get in *.
    destruct (vget_lt (mem_data (memory s)) n Hl) as (e & Eg & He). rewrite Eg, !M_bind_Ok in *.
    injection Hv as <-. rewrite (proj2 (Nat.eqb_eq _ _) Hs). cbn [rassert]. rewrite !M_bind_Ok.
    rewrite vset_lt, M_bind_Ok by done. cbn [with_memory]. eexists.
    destruct (areas_insert (memory s) n e b' He) as [Ha Hp]; [done|].
    split_and!; [done|split; cbn; [done|by apply Forall_insert]|by split_and!| |].
    + cbn. unfold vget. by rewrite list_lookup_insert_eq.
    + intros [r'|n'] Hne; [done|]. cbn [location]. unfold Mem.data, Mem.get, vget.
      cbn [mem_data memory with_memory Mem.from_vec]. by rewrite list_lookup_insert_ne by congruence.
Qed.

(** ** Destinations *)

(** The byte range lies inside its register or mapping. *)
Definition dest_ok (s : SystemState) (d : Dest) : Prop :=
  loc_ok s (location_from_dest d) ∧ ∀ v, location s (location_from_dest d) = Ok v → inside (dest_size d) v.
Definition range_fits (d : Dest) (new : Value) : Prop :=
  match d, new with
  | DReg r size, Num n => Z.land (Z.shiftl n (8 * start_byte size)) (reg_bits r) = Z.shiftl n (8 * start_byte size)
  | _, _ => True
  end.
Definition dest_fits (s : SystemState) (d : Dest) (new : Value) : Prop :=
  (∀ v, location s (location_from_dest d) = Ok v → fits (dest_size d) v new) ∧ range_fits d new.

Lemma land_subset a b : Z.land a b = a ↔ ∀ i, 0 <= i → Z.testbit a i = true → Z.testbit b i = true.
Proof.
  split.
  - intros E i Hi Ha. rewrite <- E, Z.land_spec in Ha. by apply andb_true_iff in Ha as [_ ?].
  - intros H. apply Z.bits_inj'. intros i Hi. rewrite Z.land_spec. destruct (Z.testbit a i) eqn:Ea; [|done]. by rewrite H.
Qed.
Lemma splice_loc_fits d v new : inside (dest_size d) v → loc_fits (location_from_dest d) v → range_fits d new → fits (dest_size d) v new →
  loc_fits (location_from_dest d) (splice (dest_size d) v new).
Proof.
  destruct d as [r size|n size]; [|done]. cbn. intros Hi Hv Hnew Hf. destruct v as [c|b], new as [n|b']; try done. cbn in *.
  rewrite land_subset in *. intros i Hib. rewrite Z.lor_spec, Z.ldiff_spec, Z.land_spec, orb_true_iff, !andb_true_iff.
  intros [[Hc _]|[Hn _]]; [by apply Hv|by apply Hnew].
Qed.
Lemma cut_range_fits d v : inside (dest_size d) v → loc_fits (location_from_dest d) v → range_fits d (cut (dest_size d) v).
Proof.
  destruct d as [r size|n size]; [|done]. cbn. intros ([H1 H2 H3] & _) Hv. destruct v as [c|b]; [|done]. cbn in *. rewrite land_subset in *. intros i Hi.
  rewrite Z.shiftl_spec, Z.land_spec, andb_true_iff by done. destruct (Z.lt_ge_cases i (8 * start_byte size)); [by rewrite !Z.testbit_neg_r by lia; intros []|].
  rewrite Z.shiftr_spec, Z.sub_add by lia. intros [Hc _]. by apply Hv.
Qed.

Definition same_kind (a b : Value) : Prop :=
  match a, b with Num _, Num _ | Bytes _, Bytes _ => True | _, _ => False end.

Lemma get_dest_ok s d : state_wf s → dest_ok s d →
  ∃ v, location s (location_from_dest d) = Ok v ∧ value_wf v ∧ inside (dest_size d) v ∧
    get_dest s d = Ok (cut (dest_size d) v).
Proof using L.
  intros Hs [Hl Hi]. destruct (location_ok s _ Hs Hl) as (v & Hv & Hw). exists v. split_and!; [done..|by apply Hi|].
  unfold get_dest. rewrite Hv, M_bind_Ok. apply value_slice_ok. by apply Hi.
Qed.
Lemma dest_ok_location s s' d : dest_ok s d → same_layout s s' →
  (∀ v, location s (location_from_dest d) = Ok v → ∃ v', location s' (location_from_dest d) = Ok v' ∧ same_shape v v') →
  state_wf s → dest_ok s' d.
Proof using L.
  intros [Hl Hi] (_ & _ & Ha & _) Hv Hs. split.
  - destruct d as [r|n]; cbn in *; [done|]. apply (f_equal length) in Ha. unfold Mem.areas, Mem.len in *.
    rewrite !length_fmap in Ha. lia.
  - intros w Hw. destruct (location_ok s _ Hs Hl) as (v & Hv' & _).
    destruct (Hv v Hv') as (v' & E & Hsh). rewrite E in Hw. injection Hw as <-.
    destruct (Hi v Hv') as (H1 & H2 & H3). unfold inside in *. destruct v, v'; try done; cbn in *; by rewrite <- Hsh.
Qed.

Lemma dest_disjoint d e : dest_wf d → dest_wf e → dest_overlaps d e = false →
  location_from_dest d ≠ location_from_dest e ∨ disjoint_sizes (dest_size d) (dest_size e).
Proof.
  unfold dest_overlaps. destruct (dest_same_location d e) as [-> _]. unfold overlapping_area.
  destruct (decide _); [|by left]. case_cmp; [done|]. intros [? ? ?] [? ? ?] _. right. unfold disjoint_sizes. lia.
Qed.

(** [set_dest] to a range inside its location never panics; [get_dest] reads
    the written value back, and every range that does not overlap keeps its
    value, as do the addresses, permissions and sizes of all mappings. *)
Lemma set_dest_ok s d new : state_wf s → dest_ok s d → dest_fits s d new →
  ∃ s', set_dest s d new = Ok s' ∧ state_wf s' ∧ same_layout s s' ∧
    (∀ e, dest_ok s e → dest_ok s' e ∧ ∀ n, dest_fits s e n → dest_fits s' e n) ∧
    get_dest s' d = Ok new ∧
    ∀ e, dest_ok s e → dest_overlaps d e = false → get_dest s' e = get_dest s e.
Proof using L.
  intros Hs Hd [Hf Hrf]. destruct (location_fits s _ Hs (proj1 Hd)) as (v & Hv & Hw & Hlf). pose proof (proj2 Hd v Hv) as Hi. specialize (Hf v Hv).
  destruct (splice_shape _ _ _ Hi Hw Hf) as [Hsh Hw']. pose proof (splice_loc_fits d v new Hi Hlf Hrf Hf) as Hfit.
  destruct (set_location_ok s (location_from_dest d) v _ Hs (proj1 Hd) Hv Hsh Hw' Hfit) as (s' & Es & Hs' & Hl & Hr & Ho).
  assert (∀ e u, location s (location_from_dest e) = Ok u →
    ∃ u', location s' (location_from_dest e) = Ok u' ∧ same_shape u u') as Hshape.
  { intros e u Hu. destruct (decide (location_from_dest e = location_from_dest d)) as [E|E].
    - rewrite E in *. rewrite Hv in Hu. injection Hu as <-. by eexists.
    - rewrite Ho by done. exists u. split; [done|]. by destruct u. }
  assert (∀ e, dest_ok s e → dest_ok s' e) as Hok by (intros e He; apply (dest_ok_location s s' e He Hl); auto).
  exists s'. unfold set_dest. rewrite Hv, M_bind_Ok, spliced_ok, M_bind_Ok by done. split_and!; try done.
  - intros e He. split; [by apply Hok|]. intros n [Hn Hnr]. split; [|done]. intros u' Hu'. destruct (location_ok s _ Hs (proj1 He)) as (u & Hu & _).
    destruct (Hshape e u Hu) as (u2 & Hu2 & Hsh'). rewrite Hu' in Hu2. injection Hu2 as <-.
    specialize (Hn u Hu). by destruct u, u', n.
  - destruct (get_dest_ok s' d Hs' (Hok d Hd)) as (w & Hw2 & _ & _ & ->). rewrite Hr in Hw2. injection Hw2 as <-.
    by rewrite cut_splice.
  - intros e He Hov. destruct (get_dest_ok s e Hs He) as (u & Hu & _ & Hiu & ->).
    destruct (get_dest_ok s' e Hs' (Hok e He)) as (w & Hw2 & _ & _ & ->).
    apply dest_disjoint in Hov as [Hne|Hdis]; [| |apply Hi|apply Hiu].
    + rewrite Ho in Hw2 by done. rewrite Hu in Hw2. by injection Hw2 as <-.
    + destruct (decide (location_from_dest e = location_from_dest d)) as [E|E].
      * rewrite E in *. rewrite Hv in Hu. injection Hu as <-. rewrite Hr in Hw2. injection Hw2 as <-.
        f_equal. by apply cut_splice_disjoint.
      * rewrite Ho in Hw2 by done. rewrite Hu in Hw2. by injection Hw2 as <-.
Qed.

(** The closure of [modify_dest] computes what [set_dest] stores. *)
Lemma modify_num_ok size c f v' : inside size (Num c) → value_wf (Num c) →
  f (cut size (Num c)) = Ok v' → fits size (Num c) v' →
  (m ← unshifted_mask size;
   k ← mul8 (start_byte size);
   mask ← shl_u 64 m k;
   s ← shr 64 c k;
   v ← f (Num (Z.land s m));
   val ← unwrap_num v;
   x ← shl_u 64 val k;
   Ok (Num (Z.lor (Z.land c (not_u 64 mask)) (Z.land x mask)))) = Ok (splice size (Num c) v').
Proof.
  intros Hi Hw Hf Hfit. pose proof (spliced_ok size (Num c) v' Hi Hw Hfit) as Hs.
  destruct v' as [n|]; [|done]. destruct Hi as (Hsz & He & _). pose proof Hsz as [H1 H2 H3]. cbn [vlen spliced] in *.
  rewrite unshifted_mask_ok, M_bind_Ok in * by done.
  rewrite mul8_ok, M_bind_Ok in * by (unfold is_u; lia). rewrite !shl_u_ok, !M_bind_Ok in * by lia.
  rewrite shr_ok, M_bind_Ok by lia. rewrite (Z.mul_comm (start_byte size)) in *. cbn [cut] in Hf.
  rewrite Hf, M_bind_Ok. cbn [unwrap_num]. by rewrite M_bind_Ok, shl_u_ok, M_bind_Ok by lia.
Qed.
Lemma modify_slice_ok size b f : inside size (Bytes b) →
  modify_slice size b f =
    v ← f (cut size (Bytes b)); x ← unwrap_bytes v;
    Ok (take (Z.to_nat (start_byte size)) b ++ x ++ drop (Z.to_nat (end_byte size + 1)) b).
Proof.
  intros ([H1 H2 H3] & He & Hv). cbn [vlen] in *. unfold modify_slice, slice_range, slice.
  rewrite (proj2 (Z.ltb_lt (end_byte size) U64_MAX)) by (change U64_MAX with (2 ^ 64 - 1); lia).
  cbn [rassert]. rewrite M_bind_Ok, (proj2 (andb_true_iff _ _)) by lia. cbn [rassert]. rewrite !M_bind_Ok.
  cbn [cut]. unfold size_len. repeat f_equal. lia.
Qed.

(** [modify_dest] is a read, the closure and a write. *)
Lemma modify_dest_ok s d f v : state_wf s → dest_ok s d → get_dest s d = Ok v →
  f v ≠ OutOfFuel → (∀ v', f v = Ok v' → dest_fits s d v') →
  modify_dest s d f = v' ← f v; set_dest s d v'.
Proof using L.
  intros Hs Hd Hg Hfuel Hfit. destruct (get_dest_ok s d Hs Hd) as (cur & Hc & Hw & Hi & Hg'). rewrite Hg in Hg'.
  injection Hg' as ->. destruct (f (cut (dest_size d) cur)) as [v'| |] eqn:Ef; [| |done].
  - specialize (proj1 (Hfit v' eq_refl) cur Hc) as Hfit'. clear Hfit. rename Hfit' into Hfit. rewrite M_bind_Ok. unfold set_dest. rewrite Hc, M_bind_Ok.
    rewrite spliced_ok, M_bind_Ok by done. destruct (splice_shape _ _ _ Hi Hw Hfit) as [Hsh _].
    destruct d as [r size|n size]; cbn [modify_dest location_from_dest dest_size location set_location] in *.
    + unfold set_reg. erewrite (law_modify_ext (cpu s) r); [done|apply Hs|apply Hd|done|]. cbn.
      destruct cur as [c|b].
      * rewrite (modify_num_ok size c f v') by done. by destruct v'.
      * rewrite modify_slice_ok, Ef, M_bind_Ok by done. destruct v' as [|b']; [done|].
        cbn in Hsh |- *. by rewrite Hsh, Nat.eqb_refl.
    + unfold Mem.data, Mem.modify_data in *. destruct (Mem.get (memory s) n) as [e| |]; [|done..].
      rewrite !M_bind_Ok in *. injection Hc as <-. rewrite modify_slice_ok, Ef, M_bind_Ok by done.
      destruct v' as [|b']; [done|]. cbn [unwrap_bytes splice]. rewrite !M_bind_Ok. cbn in Hsh.
      by rewrite Hsh, Nat.eqb_refl.
  - destruct d as [r size|n size]; cbn [modify_dest location_from_dest dest_size location] in *.
    + erewrite (law_modify_panic (cpu s) r); [done|apply Hs|apply Hd|done|]. destruct cur as [c|b].
      * destruct Hi as (Hsz & He & _); pose proof Hsz as [H1 H2 H3]. cbn [vlen cut] in *.
        rewrite unshifted_mask_ok, M_bind_Ok by done. rewrite mul8_ok, M_bind_Ok by (unfold is_u; lia).
        rewrite shl_u_ok, M_bind_Ok, shr_ok, M_bind_Ok by lia. by rewrite (Z.mul_comm (start_byte size)), Ef.
      * by rewrite modify_slice_ok, Ef by done.
    + unfold Mem.data, Mem.modify_data in *. destruct (Mem.get (memory s) n) as [e| |]; [|done..].
      rewrite !M_bind_Ok in *. injection Hc as <-. by rewrite modify_slice_ok, Ef by done.
Qed.

(** C20: [get_dest] and [set_dest] are a lens.  For a range inside its register or
    mapping and a value of its kind and length, within the mask of a register, the
    write succeeds, the value is read back, writing back what was read changes no
    location, a range that does not overlap keeps its value, and addresses, sizes and
    permissions of the mappings stay; a value of the other kind panics. *)
Theorem set_dest_spec s d new : state_wf s → dest_ok s d → dest_fits s d new →
  (∃ s', set_dest s d new = Ok s' ∧ state_wf s' ∧ same_layout s s' ∧
    get_dest s' d = Ok new ∧
    ∀ e, dest_ok s e → dest_overlaps d e = false → get_dest s' e = get_dest s e) ∧
  (∃ v s', get_dest s d = Ok v ∧ set_dest s d v = Ok s' ∧ ∀ l, location s' l = location s l) ∧
  (∀ bad, ~ same_kind new bad → set_dest s d bad = Panic).
Proof using L.
  intros Hs Hd Hf. destruct (set_dest_ok s d new Hs Hd Hf) as (s' & ? & ? & ? & _ & ? & ?).
  split; [by exists s'|]. clear s' H H0 H1 H2 H3.
  destruct (location_fits s _ Hs (proj1 Hd)) as (v & Hv & Hw & Hlf). pose proof (proj2 Hd v Hv) as Hi.
  destruct (get_dest_ok s d Hs Hd) as (v' & Hv' & _ & _ & Hg). rewrite Hv in Hv'. injection Hv' as <-. split.
  - exists (cut (dest_size d) v). destruct (cut_fits _ _ Hi Hw) as [Hc _].
    destruct (set_location_ok s _ v v Hs (proj1 Hd) Hv) as (s' & Es & _ & _ & Er & Eo); [by destruct v|done..|].
    exists s'. split_and!; [done| |].
    + unfold set_dest. by rewrite Hv, M_bind_Ok, spliced_ok, M_bind_Ok, splice_cut by done.
    + intros l. destruct (decide (l = location_from_dest d)) as [->|]; [congruence|by apply Eo].
  - intros bad Hb. destruct Hf as [Hf _]. specialize (Hf v Hv). unfold set_dest. rewrite Hv, M_bind_Ok.
    assert (spliced (dest_size d) v bad = Ok bad) as -> by (by destruct v, new, bad).
    rewrite M_bind_Ok. destruct (location_from_dest d) as [r|n] eqn:El; cbn in *.
    + unfold set_reg. erewrite (law_modify_panic _ _ _ v); [done|apply Hs| |done|by destruct v, new, bad].
      destruct Hd as [Hd _]. by rewrite El in Hd.
    + destruct bad; [done|]. destruct (Mem.data _ _); [|done..]. injection Hv as <-. by destruct new.
Qed.

(** [modify_dest] reads the range, runs the closure on it and writes the result
    back; it panics when the closure does. *)
Theorem modify_dest_spec s d f v : state_wf s → dest_ok s d → get_dest s d = Ok v →
  f v ≠ OutOfFuel → (∀ v', f v = Ok v' → dest_fits s d v') →
  modify_dest s d f = (v' ← f v; set_dest s d v').
Proof using L. apply modify_dest_ok. Qed.
End states.

(** Two bytes of the flags register and a 4-byte mapping of [FakeArch]. *)
Definition demo_state : SystemState (A:=@Fake.FakeArch Dev) :=
  state_new (A:=@Fake.FakeArch Dev) Fake.state_default
    (Mem.new [{| entry_addr := 0x1000; entry_perms := ReadWrite; entry_data := [1; 2; 3; 4] |}]).
Definition demo_reg : Dest (A:=@Fake.FakeArch Dev) := DReg (A:=@Fake.FakeArch Dev) Fake.R1 (new 1 2).
Definition demo_mem : Dest (A:=@Fake.FakeArch Dev) := DMem (A:=@Fake.FakeArch Dev) 0 (new 1 2).
Lemma demo_state_wf : state_wf demo_state.
Proof. split; [apply (law_default (A:=@Fake.FakeArch Dev))|]. apply (bool_decide_unpack _). by vm_compute. Qed.
Lemma demo_reg_ok : dest_ok demo_state demo_reg.
Proof.
  split; [change (Fake.R1 ∈ Fake.fake_iter_regs); set_solver|]. intros v [= <-].
  split; [split; cbn; lia|]. cbn. lia.
Qed.
Lemma demo_mem_ok : dest_ok demo_state demo_mem.
Proof. split; [cbn; lia|]. intros v [= <-]. split; [split; cbn; lia|]. cbn. lia. Qed.

Lemma set_dest_witness : ∃ s', set_dest (P:=Dev) demo_state demo_reg (Num 0x2525) = Ok s' ∧
  get_dest (P:=Dev) s' demo_reg = Ok (Num 0x2525) ∧
  get_dest (P:=Dev) s' demo_mem = get_dest (P:=Dev) demo_state demo_mem.
Proof.
  destruct (set_dest_spec (P:=Dev) demo_state demo_reg (Num 0x2525) demo_state_wf demo_reg_ok) as [(s' & E & _ & _ & G & F) _].
  - split; [|reflexivity]. intros v [= <-]. split; vm_compute; [discriminate | reflexivity].
  - exists s'. split_and!; [exact E | exact G | apply F; [exact demo_mem_ok | reflexivity]].
Defined.
Lemma modify_dest_witness :
  modify_dest (P:=Dev) demo_state demo_mem (λ _, Ok (Bytes [9; 9])) =
    set_dest (P:=Dev) demo_state demo_mem (Bytes [9; 9]).
Proof.
  apply (modify_dest_spec (P:=Dev) demo_state demo_mem (λ _, Ok (Bytes [9; 9])) (Bytes [2; 3]) demo_state_wf demo_mem_ok); [reflexivity|discriminate|].
  intros v' [= <-]. split; [|done]. intros v [= <-]. split; [reflexivity|]. apply (bool_decide_unpack _). by vm_compute.
Defined.
