(* ===== verification/AddrComp.v ===== *)
(** * Address computations

    Models [liblisa/src/encoding/dataflows/address_computation.rs]: the address
    of a memory access as a sum of sized, shifted and multiplied inputs plus an
    offset, the search for an input that moves an access to a given address
    ([compute_relocation]), and the filters that discard a term given observed
    addresses.  A [u64] is a [Z] below 2^64 and the offset an [i64]. *)
From stdpp Require Import sorting.
From S2P Require Import Prelude MachInt Utils Size Value Arch Locs Addr State.
Import SizeOps AddrOps.

Record AddrTermShift := { right : Z; mult : Z }.
Inductive AddrTermSize := U8 | I8 | U16 | I16 | U32 | I32 | U64.
Record AddrTermCalculation := { shift : AddrTermShift; size : AddrTermSize }.
Record AddrTerm := { primary : AddrTermCalculation; second_use : option AddrTermCalculation }.
(** [terms] is an array of four terms. *)
Record AddressComputation := { calc_offset : Z; terms : list AddrTerm }.

#[export] Instance AddrTermShift_eq_dec : EqDecision AddrTermShift.
Proof. solve_decision. Defined.
#[export] Instance AddrTermSize_eq_dec : EqDecision AddrTermSize.
Proof. solve_decision. Defined.
#[export] Instance AddrTermCalculation_eq_dec : EqDecision AddrTermCalculation.
Proof. solve_decision. Defined.
#[export] Instance AddrTerm_eq_dec : EqDecision AddrTerm.
Proof. solve_decision. Defined.
#[export] Instance AddressComputation_eq_dec : EqDecision AddressComputation.
Proof. solve_decision. Defined.

(** [a * b] on a [u64], [a / b] and [a % b]: the divisor 0 panics. *)
Definition mul_u {P : profile} (w a b : Z) : M Z :=
  if bool_decide (is_u w (a * b)) then Ok (a * b)
  else match P with Dev => Panic | Release => Ok (wrap w (a * b)) end.
Definition add_i {P : profile} (w a b : Z) : M Z :=
  if bool_decide (is_i w (a + b)) then Ok (a + b)
  else match P with Dev => Panic | Release => Ok (swrap w (a + b)) end.
Definition div_u (a b : Z) : M Z := if b =? 0 then Panic else Ok (a / b).
Definition rem_u (a b : Z) : M Z := if b =? 0 then Panic else Ok (a `mod` b).

Module Term.
Section ops.
Context {P : profile}.

(** [AddrTermShift::apply]. *)
Definition shift_apply (self : AddrTermShift) (val : Z) : M Z :=
  s ← shr 64 (swrap 64 val) (right self);
  Ok (wrap 64 (swrap 64 (s * mult self))).

(** [AddrTermSize::apply]: [val as iN as u64] extends the sign. *)
Definition size_apply (self : AddrTermSize) (val : Z) : Z :=
  match self with
  | U64 => val
  | U8 => wrap 8 val
  | U16 => wrap 16 val
  | U32 => wrap 32 val
  | I8 => wrap 64 (swrap 8 val)
  | I16 => wrap 64 (swrap 16 val)
  | I32 => wrap 64 (swrap 32 val)
  end.
Definition num_values (self : AddrTermSize) : M Z :=
  match self with
  | U8 | I8 => Ok 0x100
  | U16 | I16 => Ok 0x10000
  | U32 | I32 => Ok 0x100000000
  | U64 => Panic
  end.
Definition is_signed (self : AddrTermSize) : bool :=
  match self with U8 | U16 | U32 | U64 => false | I8 | I16 | I32 => true end.
Definition size_max_bit_influence (self : AddrTermSize) : Z :=
  match self with U8 | I8 => 8 | U16 | I16 => 16 | U32 | I32 => 32 | U64 => 64 end.

(** [AddrTermCalculation]. *)
Definition calc_apply (self : AddrTermCalculation) (val : Z) : M Z :=
  shift_apply (shift self) (size_apply (size self) val).
(** [while k < mult { k <<= 1; mult_bits += 1 }] with [k] a [u8]; the fuel
    counts the iterations. *)
Fixpoint mult_loop (fuel : nat) (m k mult_bits : Z) : M Z :=
  match fuel with
  | O => OutOfFuel
  | S fuel =>
      if k <? m then
        k ← shl_u 8 k 1;
        mult_bits ← add_u 64 mult_bits 1;
        mult_loop fuel m k mult_bits
      else Ok mult_bits
  end.
Definition calc_max_bit_influence (fuel : nat) (self : AddrTermCalculation) : M Z :=
  let base := size_max_bit_influence (size self) in
  mult_bits ← mult_loop fuel (mult (shift self)) 1 0;
  n ← add_u 64 base mult_bits;
  sub_u 64 n (right (shift self)).

(** [AddrTerm]: the constructors. *)
Definition single (size : AddrTermSize) (right mult : Z) : AddrTerm :=
  {| primary := {| shift := {| right := right; mult := mult |}; size := size |}; second_use := None |}.
Definition term_default : AddrTerm := single U64 0 0.
Definition empty : AddrTerm := term_default.
Definition identity : AddrTerm := single U64 0 1.

Definition apply (self : AddrTerm) (val : Z) : M Z :=
  a ← calc_apply (primary self) val;
  b ← match second_use self with Some t => calc_apply t val | None => Ok 0 end;
  Ok (wrapping_add a b).
Definition is_empty (self : AddrTerm) : bool :=
  (mult (shift (primary self)) =? 0) && bool_decide (second_use self = None).

Definition compute_step_offset (self : AddrTerm) (x target : Z) : M (option Z) :=
  a ← apply self x;
  remaining ← sub_u 64 target a;
  second ← unwrap (second_use self);
  primary_step ← shl_u 64 (mult (shift (primary self))) (right (shift second));
  full_step ← add_u 64 primary_step (mult (shift second));
  q ← div_u remaining full_step;
  one ← shl_u 64 1 (right (shift second));
  correction ← mul_u 64 q one;
  x ← add_u 64 x correction;
  a ← apply self x;
  remaining ← sub_u 64 target a;
  debug_assert! remaining <? full_step;
  if remaining <? primary_step then
    r ← rem_u remaining (mult (shift (primary self)));
    if r =? 0 then
      d ← div_u remaining (mult (shift (primary self)));
      Ok (Some (wrapping_add x d))
    else Ok None
  else Ok None.

(** The body of the loop over the cycles: the result of the first cycle that
    has one. *)
Fixpoint try_bases (self : AddrTerm) (second : AddrTermCalculation) (target cycle_len n
    max_positive_remainder first_negative_offset : Z) (bases : list Z) : M (option Z) :=
  match bases with
  | [] => Ok None
  | base :: bases =>
      b ← mul_u 64 base cycle_len;
      x ← div_u b (mult (shift (primary self)));
      a ← apply self x;
      remaining ← sub_u 64 target a;
      r ← (if (remaining <? max_positive_remainder) || negb (is_signed (size second))
           then compute_step_offset self x target else Ok None);
      match r with
      | Some new_value => Ok (Some new_value)
      | None =>
          r ← (if is_signed (size second) && (first_negative_offset <=? remaining)
               then x ← add_u 64 x (n / 2); compute_step_offset self x target
               else Ok None);
          match r with
          | Some new_value => Ok (Some new_value)
          | None => try_bases self second target cycle_len n max_positive_remainder first_negative_offset bases
          end
      end
  end.
(** The branch for a second use that is not 64 bits. *)
Definition relocate_cycles (self : AddrTerm) (second : AddrTermCalculation) (target : Z) : M (option Z) :=
  n ← num_values (size second);
  cycle_len ← mul_u 64 n (mult (shift (primary self)));
  len ← shift_apply (shift second) n;
  min_base ← match checked_sub_u 64 target len with Some v => div_u v cycle_len | None => Ok 0 end;
  max_base ← div_u target cycle_len;
  let k := n / 2 - 1 in
  a ← shift_apply (shift (primary self)) k;
  b ← shift_apply (shift second) k;
  max_positive_remainder ← add_u 64 a b;
  let k := n / 2 in
  a ← shift_apply (shift (primary self)) k;
  b ← calc_apply second k;
  let first_negative_offset := wrapping_add a b in
  try_bases self second target cycle_len n max_positive_remainder first_negative_offset
    (seqZ min_base (max_base - min_base + 1)).

Definition compute_relocation (self : AddrTerm) (current_value current_output target_output : Z) : M (option Z) :=
  val ← apply self current_value;
  let base_offset := wrapping_sub current_output val in
  let target := wrapping_sub target_output base_offset in
  let p := primary self in
  match second_use self with
  | Some second =>
      if bool_decide (size p = U64) && bool_decide (size second = U64) && (right (shift p) =? 0) then
        if right (shift second) =? 0 then
          factor ← add_u 64 (mult (shift p)) (mult (shift second));
          r ← rem_u target factor;
          if r =? 0 then d ← div_u target factor; Ok (Some d) else Ok None
        else compute_step_offset self 0 target
      else
        assert! right (shift p) =? 0;
        s ← shl_u 8 (mult (shift p)) (right (shift second));
        assert! mult (shift second) <=? s;
        if bool_decide (size p = U64) && (right (shift p) =? 0) then relocate_cycles self second target
        else if right (shift p) =? 0 then Ok None
        else Panic
  | None =>
      result ← (if mult (shift p) =? 0 then r ← shl_u 64 target (right (shift p)); Ok (Some r)
                else r ← rem_u target (mult (shift p));
                     if r =? 0 then
                       d ← div_u target (mult (shift p));
                       r ← shl_u 64 d (right (shift p));
                       Ok (Some r)
                     else Ok None);
      Ok (match result with
          | Some result => if size_apply (size p) result =? result then Some result else None
          | None => None
          end)
  end.

Definition minimum_step_size (self : AddrTerm) : M Z :=
  match second_use self with
  | Some second =>
      if right (shift (primary self)) =? right (shift second)
      then add_u 64 (mult (shift (primary self))) (mult (shift second)) else Ok 1
  | None => Ok (mult (shift (primary self)))
  end.
(** [%] on [i64] truncates towards 0. *)
Definition offset_is_valid (self : AddrTerm) (offset : Z) : M bool :=
  n ← minimum_step_size self;
  if swrap 64 n =? 0 then Panic else Ok (Z.rem offset (swrap 64 n) =? 0).
Definition is_valid_delta (self : AddrTerm) (original_value new_value original_address new_address : Z) : M bool :=
  original_contribution ← apply self original_value;
  new_contribution ← apply self new_value;
  Ok (wrapping_sub new_contribution original_contribution =? wrapping_sub new_address original_address).

(** [-x] on an [i64]. *)
Definition neg_i (w x : Z) : M Z := sub_i w 0 x.
Definition is_possible_with_delta (fuel : nat) (self : AddrTerm) (original_address new_address : Z) : M bool :=
  a ← calc_max_bit_influence fuel (primary self);
  b ← match second_use self with
      | Some u => n ← calc_max_bit_influence fuel u; add_u 64 n 1
      | None => Ok 0
      end;
  let max_delta := Z.min (Z.max a b) 64 in
  let min := Z.min original_address new_address in
  let max := Z.max original_address new_address in
  address_delta ← sub_u 64 max min;
  address_delta ← (if negb (Z.shiftr address_delta 63 =? 0)
                   then d ← neg_i 64 (swrap 64 max); add_u 64 min (wrap 64 d)
                   else Ok address_delta);
  highest_bit_in_delta ← sub_u 32 64 (Z.of_nat (leading_zeros 64 address_delta));
  Ok (highest_bit_in_delta <=? max_delta).
End ops.
End Term.

(** ** All supported terms *)

Module All.
Definition ALL_SIZES : list AddrTermSize := [U64; U32; U16; U8; I32; I16; I8].
(** The pairs of [mult] and [right] of [ALL_SHIFTS], in order. *)
Definition ALL_SHIFTS : list AddrTermShift :=
  (λ '(m, r), {| right := r; mult := m |}) <$>
    [(1, 0); (2, 0); (3, 0); (4, 0); (5, 0); (8, 0); (9, 0);
     (1, 1); (1, 2); (1, 3); (1, 4); (1, 5); (1, 6);
     (2, 1); (2, 2); (2, 3); (2, 4); (2, 5); (2, 6);
     (4, 1); (4, 2); (4, 3); (4, 4); (4, 5); (4, 6);
     (8, 1); (8, 2); (8, 3); (8, 4); (8, 5); (8, 6)].
(** The derived order of [AddrTermSize]. *)
Definition size_index (s : AddrTermSize) : Z :=
  match s with U8 => 0 | I8 => 1 | U16 => 2 | I16 => 3 | U32 => 4 | I32 => 5 | U64 => 6 end.
(** [shift.mult << second_shift.right] is a [u8]; the amounts are at most 6. *)
Definition second_allowed (size : AddrTermSize) (shift : AddrTermShift)
    (second_size : AddrTermSize) (second_shift : AddrTermShift) : bool :=
  negb (bool_decide (second_size ∈ [I8; U8]) && (5 <=? right second_shift)) &&
  (size_index second_size <=? size_index size) &&
  (negb (bool_decide (second_size = size)) || negb (right second_shift =? right shift)) &&
  (right shift =? 0) &&
  (mult second_shift <=? wrap 8 (Z.shiftl (mult shift) (right second_shift))).
Definition all : list AddrTerm :=
  (size ← ALL_SIZES; shift ← ALL_SHIFTS;
   [{| primary := {| shift := shift; size := size |}; second_use := None |}]) ++
  (size ← ALL_SIZES; shift ← ALL_SHIFTS; second_size ← ALL_SIZES; second_shift ← ALL_SHIFTS;
   if second_allowed size shift second_size second_shift
   then [{| primary := {| shift := shift; size := size |};
            second_use := Some {| shift := second_shift; size := second_size |} |}]
   else []).
End All.

(** ** [AddressComputation] *)

Module Calc.
Import Term.
Section ops.
Context {P : profile} {A : Arch}.

(** One iteration of the sum, and the sum over the pairs of an input and a term. *)
Definition sum_step {I} (read : I → M Z) (sum : M Z) (p : I * AddrTerm) : M Z :=
  sum ← sum; v ← read p.1; a ← apply p.2 v; Ok (wrapping_add sum a).
Definition sum_terms {I} (read : I → M Z) (inputs : list I) (terms : list AddrTerm) : M Z :=
  foldl (sum_step read) (Ok 0) (zip inputs terms).

Definition evaluate_from_iter (self : AddressComputation) (inputs : list Z) : M Z :=
  sum ← sum_terms Ok inputs (terms self);
  Ok (wrapping_add sum (wrap 64 (calc_offset self))).
Definition evaluate (self : AddressComputation) (inputs : list Z) : M Z := evaluate_from_iter self inputs.
(** [Computation::evaluate]. *)
Definition evaluate_values (self : AddressComputation) (inputs : list Value) : M Value :=
  inputs ← mapM unwrap_num inputs;
  n ← evaluate self inputs;
  Ok (Num n).
(** The value of an input of [compute]. *)
Definition read_source (state : SystemState) (input : Source) : M Z :=
  match input with
  | SDest d => v ← get_dest state d; match v with Num n => Ok n | Bytes _ => Panic end
  | SConst value _ => Ok value
  | SImm _ => Panic
  end.
Definition compute (self : AddressComputation) (inputs : Inputs) (state : SystemState) : M Z :=
  sum ← sum_terms (read_source state) (Locs.inputs inputs) (terms self);
  Ok (wrapping_add sum (wrap 64 (calc_offset self))).
Definition compute_from_gpregs (self : AddressComputation) (inputs : list GpReg) (state : SystemState) : M Z :=
  sum ← sum_terms (cpu_gpreg (cpu state)) inputs (terms self);
  Ok (wrapping_add sum (wrap 64 (calc_offset self))).

Definition used_input_indices (self : AddressComputation) : list nat :=
  fst <$> List.filter (λ '(_, term), negb (is_empty term)) (imap pair (terms self)).
Definition remap_inputs (self : AddressComputation) (map : list (option nat)) : M AddressComputation :=
  l ← mapM (λ index, o ← vget map index;
                     match o with Some n => vget (terms self) n | None => Ok empty end) [0%nat; 1%nat; 2%nat; 3%nat];
  Ok {| calc_offset := calc_offset self; terms := l |}.

Definition unscaled_sum (num : nat) : AddressComputation :=
  {| calc_offset := 0;
     terms := (λ n, if (n <? num)%nat then identity else term_default) <$> [0%nat; 1%nat; 2%nat; 3%nat] |}.
Definition with_offset (self : AddressComputation) (offset : Z) : AddressComputation :=
  {| calc_offset := offset; terms := terms self |}.
Definition with_added_offset (self : AddressComputation) (offset : Z) : AddressComputation :=
  {| calc_offset := swrap 64 (calc_offset self + offset); terms := terms self |}.
Definition new_with_inferred_offset (terms : list AddrTerm) (inputs : Inputs) (state : SystemState)
    (expected : Z) : M AddressComputation :=
  let result := {| calc_offset := 0; terms := terms |} in
  actual ← compute result inputs state;
  Ok (with_offset result (swrap 64 (wrapping_sub expected actual))).
(** The first four items of the iterator, padded with empty terms. *)
Definition from_iter (l : list AddrTerm) (offset : Z) : M AddressComputation :=
  if (4 <? length l)%nat then Panic
  else Ok {| terms := l ++ replicate (4 - length l) term_default; calc_offset := offset |}.

Definition constant_offset_with (self other : AddressComputation) : option Z :=
  if decide (terms self = terms other) then Some (swrap 64 (calc_offset other - calc_offset self)) else None.

(** [position]: the first index of [x]. *)
Fixpoint position (x : Source) (l : list Source) : option nat :=
  match l with
  | [] => None
  | y :: l => if decide (y = x) then Some 0%nat else S <$> position x l
  end.
(** The loop over the terms of [self]: the offset so far and [b_terms_used]. *)
Fixpoint match_terms (l : list (AddrTerm * Source)) (other : AddressComputation) (other_inputs : list Source)
    (result : Z) (used : list bool) : M (option (Z * list bool)) :=
  match l with
  | [] => Ok (Some (result, used))
  | (term_a, input_a) :: l =>
      match input_a with
      | SConst value _ =>
          result ← sub_i 64 result (swrap 64 value);
          match_terms l other other_inputs result used
      | _ =>
          match position input_a other_inputs with
          | Some other_index =>
              term_b ← vget (terms other) other_index;
              used ← vset used other_index true;
              if decide (term_a = term_b) then match_terms l other other_inputs result used else Ok None
          | None => Ok None
          end
      end
  end.
(** The loop over the inputs of [other] that were not matched. *)
Fixpoint match_rest (l : list (nat * Source)) (used : list bool) (result : Z) : M (option Z) :=
  match l with
  | [] => Ok (Some result)
  | (index, input_b) :: l =>
      u ← vget used index;
      if negb u then
        match input_b with
        | SConst value _ => result ← add_i 64 result (swrap 64 value); match_rest l used result
        | _ => Ok None
        end
      else match_rest l used result
  end.
Definition constant_offset_considering_inputs (self : AddressComputation) (inputs : Inputs)
    (other : AddressComputation) (other_inputs : Inputs) : M (option Z) :=
  r ← match_terms (zip (terms self) (Locs.inputs inputs)) other (Locs.inputs other_inputs)
        (swrap 64 (calc_offset other - calc_offset self)) (replicate 4 false);
  match r with
  | Some (result, used) => match_rest (imap pair (Locs.inputs other_inputs)) used result
  | None => Ok None
  end.

(** [find(is_empty).unwrap()]. *)
Definition add_constant_term (self : AddressComputation) : M AddressComputation :=
  i ← unwrap (fst <$> list_find (λ t, is_empty t = true) (terms self));
  l ← vset (terms self) i identity;
  Ok {| calc_offset := calc_offset self; terms := l |}.
(** [terms[index..][..len - index - 1]] panics when [index] is 4 or more: the
    subtraction underflows, or the slice of its wrapped result is out of range. *)
Definition remove_term (self : AddressComputation) (index : nat) : M AddressComputation :=
  assert! (index <? length (terms self))%nat;
  Ok {| calc_offset := calc_offset self;
        terms := take index (terms self) ++ drop (S index) (terms self) ++ [term_default] |}.
Definition unify_terms (self : AddressComputation) (first_index second_index : nat) : M (option AddressComputation) :=
  first_term ← vget (terms self) first_index;
  second_term ← vget (terms self) second_index;
  result ← remove_term self second_index;
  let first_index := if (second_index <? first_index)%nat then (first_index - 1)%nat else first_index in
  if (right (shift (primary first_term)) =? right (shift (primary second_term))) &&
     bool_decide (size (primary first_term) = size (primary second_term)) &&
     bool_decide (second_use first_term = None) && bool_decide (second_use second_term = None)
  then
    t ← vget (terms result) first_index;
    m ← add_u 8 (mult (shift (primary t))) (mult (shift (primary second_term)));
    l ← vset (terms result) first_index
      {| primary := {| shift := {| right := right (shift (primary t)); mult := m |}; size := size (primary t) |};
         second_use := second_use t |};
    Ok (Some {| calc_offset := calc_offset result; terms := l |})
  else Ok None.
End ops.
End Calc.
