(* ===== verification/AddrCompFacts.v ===== *)
(** * Correctness of address computations

    Theorems about [AddrComp.v]: an address is the sum of its contributions
    modulo 2^64, a relocation found by [compute_relocation] reaches its target,
    the filters on observed addresses are sound, and the transformations of a
    computation preserve the address. *)
From stdpp Require Import sorting.
From S2P Require Import Prelude MachInt Utils Size Value Arch Locs Addr State AddrComp.
Import SizeOps AddrOps Term.

(** ** Results of the checked operations, in both profiles *)

Lemma wrap_mod_add w a b : 0 <= w → wrap w (wrap w a + wrap w b) = wrap w (a + b).
Proof. intros. unfold wrap. symmetry. apply Z.add_mod, Z.pow_nonzero; lia. Qed.
Lemma wrap_add_l w a b : 0 <= w → wrap w (wrap w a + b) = wrap w (a + b).
Proof. intros. unfold wrap. apply Zplus_mod_idemp_l. Qed.
Lemma wrap_add_r w a b : 0 <= w → wrap w (a + wrap w b) = wrap w (a + b).
Proof. intros. unfold wrap. apply Zplus_mod_idemp_r. Qed.
Lemma wrap_sub_l w a b : 0 <= w → wrap w (wrap w a - b) = wrap w (a - b).
Proof. intros. unfold wrap. apply Zminus_mod_idemp_l. Qed.
Lemma wrap_sub_r w a b : 0 <= w → wrap w (a - wrap w b) = wrap w (a - b).
Proof. intros. unfold wrap. apply Zminus_mod_idemp_r. Qed.
Lemma wrap_mul_l w a b : 0 <= w → wrap w (wrap w a * b) = wrap w (a * b).
Proof. intros. unfold wrap. apply Zmult_mod_idemp_l. Qed.
Create Rewrite HintDb modular.
#[export] Hint Rewrite wrap_add_l wrap_add_r wrap_sub_l wrap_sub_r wrap_mul_l wrap_wrap using lia : modular.
(** Equal modulo 2^64. *)
Ltac modular := unfold wrapping_add, wrapping_sub; autorewrite with modular; try (f_equal; lia).

(** Congruence modulo 2^64, which the ring operations respect. *)
Definition eqm (a b : Z) : Prop := wrap 64 a = wrap 64 b.
Infix "≡₆₄" := eqm (at level 70).
#[export] Instance eqm_equiv : Equivalence eqm.
Proof. split; [intros a | intros a b | intros a b c]; unfold eqm; congruence. Qed.
#[export] Instance eqm_add : Proper (eqm ==> eqm ==> eqm) Z.add.
Proof. intros a a' Ha b b' Hb. unfold eqm in *. by rewrite <- wrap_mod_add, Ha, Hb, wrap_mod_add by lia. Qed.
#[export] Instance eqm_sub : Proper (eqm ==> eqm ==> eqm) Z.sub.
Proof.
  intros a a' Ha b b' Hb. unfold eqm in *.
  rewrite <- wrap_sub_l, Ha, wrap_sub_l by lia. by rewrite <- wrap_sub_r, Hb, wrap_sub_r by lia.
Qed.
Lemma eqm_wrap a : wrap 64 a ≡₆₄ a.
Proof. unfold eqm. by rewrite wrap_wrap. Qed.
Lemma eqm_swrap a : swrap 64 a ≡₆₄ a.
Proof. unfold eqm. by rewrite wrap_swrap. Qed.

Section inversion.
Context {P : profile}.
Lemma sub_u_inv w a b r : 0 <= w → sub_u w a b = Ok r → r = wrap w (a - b).
Proof.
  intros Hw. unfold sub_u. case_bool_decide as H; [intros [= <-]; by rewrite wrap_small|].
  destruct P; [done|by intros [= <-]].
Qed.
Lemma add_u_inv w a b r : 0 <= w → add_u w a b = Ok r → r = wrap w (a + b).
Proof.
  intros Hw. unfold add_u. case_bool_decide as H; [intros [= <-]; by rewrite wrap_small|].
  destruct P; [done|by intros [= <-]].
Qed.
Lemma mul_u_inv w a b r : 0 <= w → mul_u w a b = Ok r → r = wrap w (a * b).
Proof.
  intros Hw. unfold mul_u. case_bool_decide as H; [intros [= <-]; by rewrite wrap_small|].
  destruct P; [done|by intros [= <-]].
Qed.
Lemma mul_u_ok w a b : is_u w (a * b) → mul_u w a b = Ok (a * b).
Proof. intros H. unfold mul_u. by rewrite bool_decide_true. Qed.
Lemma sub_i_inv w a b r : 0 < w → sub_i w a b = Ok r → r = swrap w (a - b).
Proof.
  intros Hw. unfold sub_i. case_bool_decide as H; [intros [= <-]; by rewrite swrap_small|].
  destruct P; [done|by intros [= <-]].
Qed.
Lemma add_i_inv w a b r : 0 < w → add_i w a b = Ok r → r = swrap w (a + b).
Proof.
  intros Hw. unfold add_i. case_bool_decide as H; [intros [= <-]; by rewrite swrap_small|].
  destruct P; [done|by intros [= <-]].
Qed.
End inversion.
Lemma div_u_inv a b r : div_u a b = Ok r → b ≠ 0 ∧ r = a / b.
Proof. unfold div_u. case_cmp; [done|]. intros [= <-]. done. Qed.
Lemma rem_u_inv a b r : rem_u a b = Ok r → b ≠ 0 ∧ r = a `mod` b.
Proof. unfold rem_u. case_cmp; [done|]. intros [= <-]. done. Qed.

(** ** Contributions *)

(** Shift amounts below 64 and factors that are [u8]s. *)
Definition calc_wf (c : AddrTermCalculation) : Prop :=
  0 <= right (shift c) < 64 ∧ 0 <= mult (shift c) < 256.
Definition term_wf (t : AddrTerm) : Prop :=
  calc_wf (primary t) ∧ match second_use t with Some c => calc_wf c | None => True end.
#[export] Instance term_wf_dec t : Decision (term_wf t).
Proof. unfold term_wf, calc_wf. destruct (second_use t); apply _. Defined.

(** What one use of an input adds to the address, before reduction modulo 2^64. *)
Definition contribution (c : AddrTermCalculation) (v : Z) : Z :=
  Z.shiftr (swrap 64 (size_apply (size c) v)) (right (shift c)) * mult (shift c).
Definition term_value (t : AddrTerm) (v : Z) : Z :=
  contribution (primary t) v + match second_use t with Some c => contribution c v | None => 0 end.

Section apply.
Context {P : profile}.
Lemma shift_apply_ok s v : 0 <= right s < 64 →
  shift_apply s v = Ok (wrap 64 (Z.shiftr (swrap 64 v) (right s) * mult s)).
Proof. intros. unfold shift_apply. rewrite shr_ok, M_bind_Ok, wrap_swrap by lia. done. Qed.
Lemma calc_apply_ok c v : calc_wf c → calc_apply c v = Ok (wrap 64 (contribution c v)).
Proof. intros [H _]. unfold calc_apply. by rewrite shift_apply_ok. Qed.
Lemma term_apply_ok t v : term_wf t → apply t v = Ok (wrap 64 (term_value t v)).
Proof.
  intros [H1 H2]. unfold apply, term_value. rewrite calc_apply_ok, M_bind_Ok by done.
  destruct (second_use t) as [c|].
  - rewrite calc_apply_ok, M_bind_Ok by done. f_equal. by modular.
  - rewrite M_bind_Ok. f_equal. by modular.
Qed.
End apply.

Lemma contribution_id c v : size c = U64 → right (shift c) = 0 → is_u 64 v →
  wrap 64 (contribution c v) = wrap 64 (v * mult (shift c)).
Proof.
  intros Hs Hr Hv. unfold contribution. rewrite Hs, Hr. cbn [size_apply]. rewrite Z.shiftr_0_r.
  rewrite <- wrap_mul_l, wrap_swrap, wrap_mul_l by lia. done.
Qed.

(** ** Relocation *)

Definition size_bits (s : AddrTermSize) : Z := size_max_bit_influence s.
Lemma size_bits_range s : 8 <= size_bits s <= 64.
Proof. destruct s; cbn; lia. Qed.

(** Bits below the shift of a use do not reach the address. *)
Lemma testbit_size_apply s v i : is_u 64 v → 0 <= i →
  Z.testbit (swrap 64 (size_apply s v)) i =
    Z.testbit v (if i <? size_bits s then i else size_bits s - 1) && (is_signed s || bool_decide (s = U64) || (i <? size_bits s)).
Proof.
  intros Hv Hi. rewrite testbit_swrap by lia. destruct s; cbn [size_apply is_signed size_bits size_max_bit_influence].
  all: rewrite ?bool_decide_true, ?bool_decide_false by done; cbn [orb].
  all: repeat (autorewrite with bits; case_cmps); rewrite ?andb_true_r, ?andb_false_r; try done; try lia.
Qed.
Lemma contribution_low c x d : right (shift c) < size_bits (size c) → 0 <= right (shift c) →
  is_u 64 x → is_u 64 (x + d) → (2 ^ right (shift c) | x) → 0 <= d < 2 ^ right (shift c) →
  contribution c (x + d) = contribution c x.
Proof.
  intros Hr Hr0 Hx Hxd [k ->] Hd. unfold contribution. f_equal. set (r := right (shift c)) in *.
  assert (∀ j, r <= j → Z.testbit (k * 2 ^ r + d) j = Z.testbit (k * 2 ^ r) j) as Hb.
  { intros j Hj. replace j with (j - r + r) by lia. rewrite <- !Z.shiftr_spec, !Z.shiftr_div_pow2 by lia.
    f_equal. rewrite Z.div_add_l, Z.div_mul, (Z.div_small d) by lia. lia. }
  apply Z.bits_inj'; intros i Hi. rewrite !Z.shiftr_spec, !testbit_size_apply by (done || lia).
  f_equal. apply Hb. case_cmps; lia.
Qed.

Lemma divide_wrap k w a : 0 <= k <= w → (2 ^ k | a) → (2 ^ k | wrap w a).
Proof.
  intros Hk Ha. unfold wrap. rewrite Z.mod_eq by (apply Z.pow_nonzero; lia).
  apply Z.divide_sub_r; [done|]. apply Z.divide_mul_l. exists (2 ^ (w - k)). rewrite <- pow2_split by lia. f_equal; lia.
Qed.
(** A multiple of 2^k below 2^64 stays below 2^64 when its low bits are set. *)
Lemma add_below k x d : 0 <= k < 64 → is_u 64 x → (2 ^ k | x) → 0 <= d < 2 ^ k → is_u 64 (x + d).
Proof.
  intros Hk [H1 H2] [j ->] Hd. split; [lia|]. pose proof (page_split k Hk) as E. pose proof (pow2_pos k).
  rewrite E in H2 |- *. assert (j < 2 ^ (64 - k)) as Hj by (apply (Z.mul_lt_mono_pos_r (2 ^ k)); lia).
  pose proof (Z.mul_le_mono_nonneg_r (j + 1) (2 ^ (64 - k)) (2 ^ k)). lia.
Qed.

Section relocation.
Context {P : profile}.

(** The final correction of [compute_step_offset] stays below the shift of the
    second use, so the address grows by exactly what was missing. *)
Lemma compute_step_offset_sound t c x target v : term_wf t → second_use t = Some c →
  size (primary t) = U64 → right (shift (primary t)) = 0 → right (shift c) < size_bits (size c) →
  is_u 64 x → is_u 64 target → (2 ^ right (shift c) | x) →
  compute_step_offset t x target = Ok (Some v) →
  is_u 64 v ∧ wrap 64 (term_value t v) = target.
Proof.
  intros Hwf Hc Hs Hr Hrc Hx Ht Hdiv. pose proof Hwf as [[_ Hm] Hc']. rewrite Hc in Hc'. destruct Hc' as [Hrc' _].
  unfold compute_step_offset. rewrite term_apply_ok, M_bind_Ok, Hc by done. cbn [unwrap].
  intros E. apply M_bind_Ok_inv in E as (rem0 & _ & E). rewrite M_bind_Ok in E.
  rewrite !shl_u_ok, M_bind_Ok in E by lia. apply M_bind_Ok_inv in E as (full & _ & E).
  apply M_bind_Ok_inv in E as (q & _ & E). rewrite M_bind_Ok in E.
  apply M_bind_Ok_inv in E as (corr & Ecorr & E). apply mul_u_inv in Ecorr; [|lia].
  apply M_bind_Ok_inv in E as (x' & Ex' & E). apply add_u_inv in Ex'; [|lia].
  rewrite term_apply_ok, M_bind_Ok in E by done. apply M_bind_Ok_inv in E as (remn & Er & E).
  apply sub_u_inv in Er; [|lia]. apply M_bind_Ok_inv in E as (_ & _ & E).
  revert E. case_cmp; [|done]. intros E.
  apply M_bind_Ok_inv in E as (r & Erem & E). apply rem_u_inv in Erem as [Hm0 ->].
  revert E. case_cmp; [|done]. intros E. apply M_bind_Ok_inv in E as (d & Ed & E).
  apply div_u_inv in Ed as [_ ->]. apply (inj Ok) in E. injection E as <-.
  set (m := mult (shift (primary t))) in *. set (r2 := right (shift c)) in *. set (d := remn / m).
  assert (remn = m * d) as Erd by (pose proof (Z.div_mod remn m Hm0); fold d in H0; lia).
  assert (0 <= remn) as Hr0 by (rewrite Er; apply wrap_is_u; lia).
  assert (0 <= d < 2 ^ r2) as Hd.
  { rewrite Z.shiftl_mul_pow2 in H by lia. unfold wrap in H.
    pose proof (Z.mod_le (m * 2 ^ r2) (2 ^ 64) ltac:(pose proof (pow2_pos r2); nia) ltac:(lia)). nia. }
  assert (2 ^ r2 | x') as Hx'.
  { rewrite Ex', Ecorr. apply divide_wrap; [lia|]. apply Z.divide_add_r; [done|]. apply divide_wrap; [lia|].
    apply Z.divide_mul_r, divide_wrap; [lia|]. rewrite Z.shiftl_1_l. apply Z.divide_refl. }
  assert (is_u 64 x') as Hu by (rewrite Ex'; apply wrap_is_u; lia).
  assert (is_u 64 (x' + d)) as Hu' by (by apply (add_below r2)).
  assert (wrapping_add x' d = x' + d) as -> by (by apply wrap_small). split; [done|].
  assert (∀ y, is_u 64 y → wrap 64 (term_value t y) = wrap 64 (y * m + contribution c y)) as Hval.
  { intros y Hy. unfold term_value. rewrite Hc, <- wrap_add_l, contribution_id, wrap_add_l by (done || lia). done. }
  rewrite Hval, contribution_low by (done || lia).
  rewrite Hval in Er by done. replace ((x' + d) * m + contribution c x') with (remn + (x' * m + contribution c x')) by lia.
  rewrite Er. modular. rewrite <- (wrap_small 64 target) at 2 by done. f_equal; lia.
Qed.

Lemma num_values_ok s n : num_values s = Ok n → n = 2 ^ size_bits s ∧ size_bits s <= 32.
Proof. destruct s; cbn; intros [= <-]; done. Qed.

(** Every cycle starts at a multiple of the number of values of the second use. *)
Lemma try_bases_sound t c target n mp fn bases v : term_wf t → second_use t = Some c →
  size (primary t) = U64 → right (shift (primary t)) = 0 → right (shift c) < size_bits (size c) →
  num_values (size c) = Ok n → is_u 64 target →
  Forall (λ b, 0 <= b ∧ b * (n * mult (shift (primary t))) <= target) bases →
  try_bases t c target (n * mult (shift (primary t))) n mp fn bases = Ok (Some v) →
  is_u 64 v ∧ wrap 64 (term_value t v) = target.
Proof.
  intros Hwf Hc Hs Hr Hrc Hn Ht. pose proof Hwf as [[_ Hm] Hc']. rewrite Hc in Hc'. destruct Hc' as [Hrc' _].
  apply num_values_ok in Hn as [Hn Hn']. pose proof (size_bits_range (size c)).
  assert (2 ^ right (shift c) | n / 2) as Hhalf.
  { rewrite Hn, (pow2_half (size_bits (size c))), Z.mul_comm, Z.div_mul by lia.
    exists (2 ^ (size_bits (size c) - 1 - right (shift c))). rewrite <- pow2_split by lia. f_equal; lia. }
  assert (2 ^ right (shift c) | n) as Hfull.
  { rewrite Hn. exists (2 ^ (size_bits (size c) - right (shift c))). rewrite <- pow2_split by lia. f_equal; lia. }
  induction bases as [|b bases IH]; intros Hb E; [done|]. apply Forall_cons in Hb as [[Hb0 Hb1] Hb].
  cbn [try_bases] in E. apply M_bind_Ok_inv in E as (y & Ey & E). rewrite mul_u_ok in Ey by (unfold is_u in *; nia).
  injection Ey as <-. apply M_bind_Ok_inv in E as (x & Ex & E). apply div_u_inv in Ex as [Hm0 Ex].
  rewrite Z.mul_assoc, Z.div_mul in Ex by done. subst x.
  assert (is_u 64 (b * n)) as Hx by (unfold is_u in *; nia).
  rewrite term_apply_ok, M_bind_Ok in E by done. apply M_bind_Ok_inv in E as (remn & _ & E).
  apply M_bind_Ok_inv in E as (r & Er & E). destruct r as [v'|].
  { apply (inj Ok) in E. injection E as <-. destruct (_ || _); [|done].
    eapply compute_step_offset_sound; [done..| |done]. by apply Z.divide_mul_r. }
  apply M_bind_Ok_inv in E as (r & Er' & E). destruct r as [v'|]; [|by apply IH].
  apply (inj Ok) in E. injection E as <-. destruct (_ && _); [|done].
  apply M_bind_Ok_inv in Er' as (x & Ex & E). apply add_u_inv in Ex; [|lia]. subst x.
  eapply compute_step_offset_sound; [done..|by apply wrap_is_u|done| |done].
  apply divide_wrap; [lia|]. apply Z.divide_add_r; [by apply Z.divide_mul_r | done].
Qed.

Lemma relocate_cycles_sound t c target v : term_wf t → second_use t = Some c →
  size (primary t) = U64 → right (shift (primary t)) = 0 → right (shift c) < size_bits (size c) →
  is_u 64 target → relocate_cycles t c target = Ok (Some v) →
  is_u 64 v ∧ wrap 64 (term_value t v) = target.
Proof.
  intros Hwf Hc Hs Hr Hrc Ht E. pose proof Hwf as [[_ Hm] _]. unfold relocate_cycles in E.
  apply M_bind_Ok_inv in E as (n & Hn & E). pose proof (num_values_ok _ _ Hn) as [En Hb].
  assert (0 < n <= 2 ^ 32) by (rewrite En; split; [apply pow2_pos | apply Z.pow_le_mono_r]; pose proof (size_bits_range (size c)); lia).
  apply M_bind_Ok_inv in E as (cl & Ecl & E). rewrite mul_u_ok in Ecl by (unfold is_u; nia). injection Ecl as <-.
  apply M_bind_Ok_inv in E as (len & _ & E). apply M_bind_Ok_inv in E as (mn & Emn & E).
  apply M_bind_Ok_inv in E as (mx & Emx & E). apply div_u_inv in Emx as [Hcl Emx].
  assert (0 <= mn) as Hmn.
  { unfold checked_sub_u in Emn. case_bool_decide as Hu; [|by injection Emn as <-].
    apply div_u_inv in Emn as [_ ->]. apply Z.div_pos; [apply Hu|nia]. }
  do 3 (apply M_bind_Ok_inv in E as (? & _ & E)). do 2 (apply M_bind_Ok_inv in E as (? & _ & E)).
  eapply try_bases_sound; [done..| |done].
  apply Forall_forall. intros b Hb'%elem_of_seqZ. split; [lia|].
  assert (b <= mx) as Hle by lia. rewrite Emx in Hle.
  pose proof (Z.mul_div_le target (n * mult (shift (primary t))) ltac:(nia)). nia.
Qed.

(** The contribution that moves the access from [out] to [target]. *)
Definition needed (t : AddrTerm) (cur out target : Z) : Z := wrap 64 (target - (out - term_value t cur)).
(** The second use keeps at least one bit of its operand; a single use does not
    vanish, and its shifted quotient does not reach the sign bit. *)
Definition relocatable (t : AddrTerm) (need : Z) : Prop :=
  let p := shift (primary t) in
  match second_use t with
  | Some c => right (shift c) < size_bits (size c)
  | None => 0 < mult p ∧ (right p = 0 ∨ need < mult p * 2 ^ (63 - right p))
  end.

Lemma single_sound t need v : term_wf t → second_use t = None → relocatable t need → is_u 64 need →
  need `mod` mult (shift (primary t)) = 0 →
  v = wrap 64 (Z.shiftl (need / mult (shift (primary t))) (right (shift (primary t)))) →
  size_apply (size (primary t)) v = v →
  wrap 64 (term_value t v) = need.
Proof.
  intros Hwf Hn Hre Hneed Hm0 Ev Hsz. pose proof Hwf as [[Hr Hm] _]. unfold relocatable in Hre.
  rewrite Hn in Hre. destruct Hre as [Hmp Hre]. unfold term_value, contribution. rewrite Hn, Hsz, Z.add_0_r.
  set (m := mult (shift (primary t))) in *. set (r := right (shift (primary t))) in *. set (q := need / m) in *.
  assert (need = q * m) as Eq by (pose proof (Z.div_mod need m ltac:(lia)); fold q in H; lia).
  assert (0 <= q) by (apply Z.div_pos; [apply Hneed|lia]).
  destruct Hre as [Hr0|Hlt].
  - rewrite Hr0, Z.shiftr_0_r, Ev, Hr0, Z.shiftl_0_r.
    rewrite <- wrap_mul_l, wrap_swrap, wrap_wrap, wrap_mul_l, <- Eq by lia. by apply wrap_small.
  - assert (q < 2 ^ (63 - r)) by (rewrite Eq in Hlt; nia).
    assert (Z.shiftl q r < 2 ^ 63) as Hs.
    { rewrite Z.shiftl_mul_pow2 by lia. replace (2 ^ 63) with (2 ^ (63 - r) * 2 ^ r)
        by (rewrite <- pow2_split by lia; f_equal; lia). pose proof (pow2_pos r). nia. }
    assert (0 <= Z.shiftl q r) by (apply Z.shiftl_nonneg; lia).
    rewrite Ev, swrap_wrap, swrap_small by (unfold is_i; lia).
    rewrite Z.shiftr_shiftl_l, Z.sub_diag, Z.shiftl_0_r, <- Eq by lia. by apply wrap_small.
Qed.

(** The two uses of a 64-bit operand with equal shifts are one use with the sum
    of the factors. *)
Lemma factor_sound t c need v : term_wf t → second_use t = Some c → is_u 64 need →
  size (primary t) = U64 → size c = U64 → right (shift (primary t)) = 0 → right (shift c) = 0 →
  (factor ← add_u 64 (mult (shift (primary t))) (mult (shift c));
   r ← rem_u need factor;
   if r =? 0 then d ← div_u need factor; Ok (Some d) else Ok None) = Ok (Some v) →
  is_u 64 v ∧ wrap 64 (term_value t v) = need.
Proof.
  intros [[_ Hm] Hc] Hs Hneed Hp Hcs Hr0 Hrc. rewrite Hs in Hc. destruct Hc as [_ Hmc]. intros E.
  apply M_bind_Ok_inv in E as (f & Ef & E).
  rewrite add_u_ok in Ef by (unfold is_u; lia). injection Ef as <-.
  apply M_bind_Ok_inv in E as (r & Er & E). apply rem_u_inv in Er as [Hf ->]. revert E. case_cmp; [|done].
  intros E. apply M_bind_Ok_inv in E as (d & Ed & E). apply div_u_inv in Ed as [_ ->].
  apply (inj Ok) in E. injection E as <-. set (f := mult (shift (primary t)) + mult (shift c)) in *.
  pose proof (Z.div_mod need f Hf). assert (0 <= need / f) by (apply Z.div_pos; [apply Hneed|lia]).
  assert (is_u 64 (need / f)) as Hd by (unfold is_u in *; nia). split; [done|].
  unfold term_value. rewrite Hs, <- wrap_mod_add, !contribution_id, wrap_mod_add by (done || lia).
  rewrite <- (wrap_small 64 need) at 3 by done. f_equal. lia.
Qed.

Lemma compute_relocation_need t cur out target v : term_wf t → relocatable t (needed t cur out target) →
  compute_relocation t cur out target = Ok (Some v) →
  is_u 64 v ∧ wrap 64 (term_value t v) = needed t cur out target.
Proof.
  intros Hwf Hre E. revert E. unfold compute_relocation. rewrite term_apply_ok, M_bind_Ok by done.
  assert (wrapping_sub target (wrapping_sub out (wrap 64 (term_value t cur))) = needed t cur out target) as ->
    by (unfold needed, wrapping_sub; by rewrite (wrap_sub_r 64 out), wrap_sub_r by lia).
  set (need := needed t cur out target) in *. assert (is_u 64 need) as Hneed by (apply wrap_is_u; lia).
  clearbody need. pose proof Hwf as [[Hr Hm] Hc]. unfold relocatable in Hre.
  destruct (second_use t) as [c|] eqn:Hs.
  - destruct (bool_decide _ && _ && _) eqn:Eb.
    + rewrite !andb_true_iff, !bool_decide_eq_true, Z.eqb_eq in Eb. destruct Eb as [[Hp Hcs] Hr0].
      case_cmp; [|apply (compute_step_offset_sound t c); try done; exists 0; lia].
      by apply (factor_sound t c).
    + intros E. apply M_bind_Ok_inv in E as (u & Ha & E). apply rassert_Ok_inv, Z.eqb_eq in Ha.
      apply M_bind_Ok_inv in E as (? & _ & E). apply M_bind_Ok_inv in E as (_ & _ & E).
      rewrite Ha, Z.eqb_refl, andb_true_r in E. case_bool_decide; [|done]. by apply (relocate_cycles_sound t c).
  - intros E. apply M_bind_Ok_inv in E as (r & Er & E). destruct Hre as [Hm0 Hre].
    revert Er. case_cmp; [lia|]. intros Er. apply M_bind_Ok_inv in Er as (x & Ex & Er).
    apply rem_u_inv in Ex as [_ ->]. revert Er. case_cmp; [|by intros [= <-]]. intros Er.
    apply M_bind_Ok_inv in Er as (d & Ed & Er). apply div_u_inv in Ed as [_ ->].
    rewrite shl_u_ok, M_bind_Ok in Er by lia. injection Er as <-. apply (inj Ok) in E. revert E. case_cmp; [|done].
    intros [= <-]. split; [apply wrap_is_u; lia|]. eapply single_sound; [done..| |done|done|done|done].
    unfold relocatable. by rewrite Hs.
Qed.

(** The terms that the synthesis lists are relocatable, but for the empty term and for
    shifted single uses with a contribution that reaches the sign bit. *)
Definition listed_ok (t : AddrTerm) : bool :=
  bool_decide (t = empty) ||
  match second_use t with
  | Some c => right (shift c) <? size_bits (size c)
  | None => 0 <? mult (shift (primary t))
  end.
Lemma all_listed_ok : forallb listed_ok All.all = true.
Proof. by vm_compute. Qed.
Lemma listed_relocatable t need : t ∈ All.all → t ≠ empty →
  (second_use t = None → right (shift (primary t)) = 0 ∨ need < mult (shift (primary t)) * 2 ^ (63 - right (shift (primary t)))) →
  relocatable t need.
Proof.
  intros Ht%list_elem_of_In Hne Hneed. pose proof (proj1 (List.forallb_forall _ _) all_listed_ok t Ht) as H. unfold listed_ok in H.
  rewrite bool_decide_eq_false_2 in H by done. cbn [orb] in H. unfold relocatable. destruct (second_use t) as [c|]; [by apply Z.ltb_lt|].
  split; [by apply Z.ltb_lt | by apply Hneed].
Qed.

(** C24: A value that [compute_relocation] returns for a well-formed relocatable term moves the access:
    with the input at the new value the term contributes what takes the address from
    [current_output] to [target_output].  Relocatable is a term with a second use that
    keeps at least one bit of its operand, and a term with a single use that has a
    factor other than zero and, if it shifts to the right, needs a contribution that
    does not reach the sign bit after the shift.  All listed terms with two uses are
    relocatable ([listed_relocatable]); for the others the returned value need not
    move the access ([compute_relocation_limits]). *)
Theorem compute_relocation_sound t cur out target v : term_wf t → is_u 64 cur → is_u 64 out → is_u 64 target →
  relocatable t (needed t cur out target) →
  compute_relocation t cur out target = Ok (Some v) →
  is_u 64 v ∧ ∃ a b, apply t cur = Ok a ∧ apply t v = Ok b ∧ wrapping_add (wrapping_sub out a) b = target.
Proof.
  intros Hwf Hcur Hout Htarget Hre E. rewrite !term_apply_ok by done.
  destruct (compute_relocation_need t cur out target v Hwf Hre E) as [Hv Eb].
  split; [done|]. eexists _, _. split_and!; [done..|]. rewrite Eb. unfold needed, wrapping_add, wrapping_sub.
  rewrite (wrap_sub_r 64 out), wrap_mod_add by lia.
  rewrite <- (wrap_small 64 target) at 2 by done. f_equal; lia.
Qed.

(** A single 64-bit or sized use without a shift finds its way back: the
    relocation to the address that a value gives returns that value. *)
Theorem compute_relocation_roundtrip size m cur out v : 0 < m < 256 →
  is_u 64 cur → is_u 64 out → is_u 64 v → size_apply size v = v → v * m < 2 ^ 64 →
  ∃ a b, apply (single size 0 m) cur = Ok a ∧ apply (single size 0 m) v = Ok b ∧
    compute_relocation (single size 0 m) cur out (wrapping_add (wrapping_sub out a) b) = Ok (Some v).
Proof.
  intros Hm Hcur Hout Hv Hsz Hlt. set (t := single size 0 m).
  assert (term_wf t) as Hwf by (repeat split; cbn; lia).
  assert (wrap 64 (term_value t v) = v * m) as Ev.
  { unfold term_value, contribution. cbn. rewrite Hsz, Z.shiftr_0_r, Z.add_0_r.
    rewrite <- wrap_mul_l, wrap_swrap, wrap_mul_l by lia. apply wrap_small. unfold is_u in *. nia. }
  rewrite !term_apply_ok by done. eexists _, _. split_and!; [done..|]. rewrite Ev.
  unfold compute_relocation. rewrite term_apply_ok, M_bind_Ok by done. set (a := wrap 64 (term_value t cur)).
  assert (wrapping_sub (wrapping_add (wrapping_sub out a) (v * m)) (wrapping_sub out a) = v * m) as ->.
  { unfold wrapping_add, wrapping_sub. rewrite wrap_sub_l by lia.
    replace (_ - _) with (v * m) by lia. apply wrap_small. unfold is_u in *. nia. }
  cbn [t single second_use primary shift mult right AddrComp.size]. rewrite (proj2 (Z.eqb_neq m 0)) by lia.
  unfold rem_u, div_u. rewrite (proj2 (Z.eqb_neq m 0)) by lia. rewrite Z.mod_mul, M_bind_Ok, Z.eqb_refl by lia.
  rewrite M_bind_Ok, Z.div_mul, shl_u_ok, !M_bind_Ok, Z.shiftl_0_r, wrap_small by (done || lia).
  by rewrite Hsz, Z.eqb_refl.
Qed.
End relocation.

Lemma compute_relocation_sound_witness :
  ∃ a b, @apply Dev (single U64 0 4) 8 = Ok a ∧ @apply Dev (single U64 0 4) 16 = Ok b ∧
         wrapping_add (wrapping_sub 0x1020 a) b = 0x1040.
Proof.
  apply (@compute_relocation_sound Dev (single U64 0 4) 8 0x1020 0x1040 16);
    [repeat split; cbn; lia | split; lia.. | split; [cbn; lia | left; reflexivity] | vm_compute; reflexivity].
Defined.
Lemma compute_relocation_roundtrip_witness :
  ∃ a b, @apply Dev (single I8 0 1) 5 = Ok a ∧ @apply Dev (single I8 0 1) (2 ^ 64 - 3) = Ok b ∧
    @compute_relocation Dev (single I8 0 1) 5 0x1005 (wrapping_add (wrapping_sub 0x1005 a) b) = Ok (Some (2 ^ 64 - 3)).
Proof. apply (@compute_relocation_roundtrip Dev I8 1 5 0x1005 (2 ^ 64 - 3)); (lia || split; lia || reflexivity). Defined.

(** Outside of these conditions the result need not move the access, and the
    debug assertion can fail, for terms that [all] lists: a shifted quotient
    that reaches the sign bit is cut off; the empty term, whose contribution is
    always 0, is moved anywhere; and a target above 2^63, where the second use
    turns negative, panics in [dev] and has no solution in [release]. *)
Theorem compute_relocation_limits :
  single U64 1 1 ∈ All.all ∧
  (∀ P : profile, compute_relocation (single U64 1 1) 0 0 (2 ^ 63) = Ok (Some 0) ∧ apply (single U64 1 1) 0 = Ok 0) ∧
  (∀ (P : profile) cur out target, is_u 64 out → is_u 64 target →
     apply empty cur = Ok 0 ∧ compute_relocation empty cur out target = Ok (Some (wrapping_sub target out))) ∧
  ∃ t, t ∈ All.all ∧ @compute_relocation Dev t 0 0 (2 ^ 64 - 1) = Panic ∧
       @compute_relocation Release t 0 0 (2 ^ 64 - 1) = Ok None.
Proof.
  split_and!.
  - apply (bool_decide_unpack _). by vm_compute.
  - by intros [].
  - intros P cur out target Hout Ht. assert (∀ x, apply empty x = Ok 0) as He.
    { intros x. rewrite term_apply_ok by (repeat split; cbn; lia). unfold term_value, contribution. cbn. by rewrite Z.mul_0_r. }
    split; [done|]. unfold compute_relocation. rewrite He, M_bind_Ok. cbn [empty term_default single second_use primary shift mult right].
    rewrite Z.eqb_refl, shl_u_ok, !M_bind_Ok, Z.shiftl_0_r by lia. cbn [size_apply size]. rewrite Z.eqb_refl. do 2 f_equal.
    unfold wrapping_sub. rewrite Z.sub_0_r, (wrap_small 64 out), wrap_wrap by (done || lia). done.
  - exists {| primary := primary identity;
              second_use := Some {| shift := {| right := 6; mult := 1 |}; size := U64 |} |}.
    split; [apply (bool_decide_unpack _)|]; by vm_compute.
Qed.

(** ** The filters on observed addresses *)

Lemma mult_loop_mono {P : profile} f f' m k b r : (f <= f')%nat → mult_loop f m k b = Ok r → mult_loop f' m k b = Ok r.
Proof.
  revert f' k b. induction f as [|f IH]; intros f' k b Hf; [done|]. destruct f' as [|f']; [lia|].
  cbn [mult_loop]. case_cmp; [|done]. intros (k' & -> & (b' & -> & E)%M_bind_Ok_inv)%M_bind_Ok_inv. rewrite !M_bind_Ok. apply IH; [lia|done].
Qed.
Lemma mult_loop_ok {P : profile} fuel m : (9 <= fuel)%nat → 0 <= m <= 128 →
  ∃ mb, mult_loop fuel m 1 0 = Ok mb ∧ 0 <= mb <= 7 ∧ m <= 2 ^ mb.
Proof.
  intros Hf Hm.
  assert (forallb (λ m, match mult_loop 9 m 1 0 with
    | Ok mb => (0 <=? mb) && (mb <=? 7) && (m <=? 2 ^ mb) | _ => false end) (seqZ 0 129) = true) as Hall
    by (destruct P; by vm_compute).
  rewrite forallb_forall in Hall. specialize (Hall m). rewrite <- list_elem_of_In, elem_of_seqZ in Hall.
  specialize (Hall ltac:(lia)). destruct (mult_loop 9 m 1 0) as [mb| |] eqn:E; [|done..].
  exists mb. split; [by eapply mult_loop_mono|]. rewrite !andb_true_iff, !Z.leb_le in Hall. lia.
Qed.
(** For a factor above 128 the loop never ends: the [u8] it doubles wraps to 0. *)
Lemma mult_loop_zero {P : profile} fuel m b : 0 < m → 0 <= b → b + Z.of_nat fuel < 2 ^ 64 →
  mult_loop fuel m 0 b = OutOfFuel.
Proof.
  revert b. induction fuel as [|f IH]; intros b Hm Hb Hf; [done|]. cbn [mult_loop].
  case_cmp; [|lia]. rewrite shl_u_ok, M_bind_Ok by lia. change (wrap 8 (Z.shiftl 0 1)) with 0.
  rewrite add_u_ok, M_bind_Ok by (unfold is_u; lia). apply IH; lia.
Qed.
Lemma mult_loop_diverges {P : profile} fuel m : 128 < m → Z.of_nat fuel < 2 ^ 64 - 8 →
  mult_loop fuel m 1 0 = OutOfFuel.
Proof.
  intros Hm Hf. do 8 (destruct fuel as [|fuel]; [done|]; cbn [mult_loop]; case_cmp; [|lia];
    rewrite shl_u_ok, M_bind_Ok by lia; rewrite add_u_ok, M_bind_Ok by (unfold is_u; lia);
    match goal with |- context [wrap 8 ?x] => let y := eval vm_compute in (wrap 8 x) in change (wrap 8 x) with y end).
  apply mult_loop_zero; lia.
Qed.

Lemma highest_bit {P : profile} d k : is_u 64 d → d < 2 ^ k → 0 <= k →
  ∃ h, sub_u 32 64 (Z.of_nat (leading_zeros 64 d)) = Ok h ∧ h <= k.
Proof.
  intros Hd Hk Hk0. unfold leading_zeros. destruct (last (ones 64 d)) as [i|] eqn:E.
  - apply last_Some_elem_of, elem_of_ones in E as [Hi Hb].
    rewrite sub_u_ok by (unfold is_u; lia). eexists. split; [done|].
    destruct (Z.lt_ge_cases (Z.of_nat i) k) as [|Hge]; [lia|].
    rewrite (testbit_u_high k d) in Hb; [done| |lia]. split; [apply Hd|done].
  - rewrite sub_u_ok by (unfold is_u; lia). eexists. split; [done|]. lia.
Qed.

(** A use whose shift leaves a bit and whose factor [max_bit_influence] can
    handle. *)
Definition calc_ok (c : AddrTermCalculation) : Prop :=
  0 <= right (shift c) < size_bits (size c) ∧ 0 <= mult (shift c) <= 128.
Lemma calc_ok_wf c : calc_ok c → calc_wf c.
Proof. intros [? ?]. pose proof (size_bits_range (size c)). split; lia. Qed.

(** The shifted operand takes at most 2^(bits - right) consecutive values. *)
Lemma shifted_range s r v : is_u 64 v → 0 <= r < size_bits s →
  let x := Z.shiftr (swrap 64 (size_apply s v)) r in
  let lo := if is_signed s || bool_decide (s = U64) then - 2 ^ (size_bits s - 1 - r) else 0 in
  lo <= x < lo + 2 ^ (size_bits s - r).
Proof.
  intros Hv Hr x lo. pose proof (size_bits_range s).
  rewrite (pow2_half (size_bits s - r)) by lia. replace (size_bits s - r - 1) with (size_bits s - 1 - r) by lia.
  destruct (is_signed s || bool_decide (s = U64)) eqn:Es; unfold lo, x.
  - enough (is_i (size_bits s - r) (Z.shiftr (swrap 64 (size_apply s v)) r)) as Hi.
    { unfold is_i in Hi. replace (size_bits s - r - 1) with (size_bits s - 1 - r) in Hi by lia. lia. }
    apply i_of_bits; [lia|]. intros i Hi. rewrite !Z.shiftr_spec, !testbit_size_apply by (done || lia).
    rewrite Es. cbn [orb]. rewrite !andb_true_r. f_equal. case_cmps; lia.
  - enough (is_u (size_bits s - r) (Z.shiftr (swrap 64 (size_apply s v)) r)) as Hi.
    { unfold is_u in Hi. rewrite (pow2_half (size_bits s - r)) in Hi by lia.
      replace (size_bits s - r - 1) with (size_bits s - 1 - r) in Hi by lia. lia. }
    apply u_of_bits; [lia| |].
    + apply Z.shiftr_nonneg. destruct (Z.lt_ge_cases (swrap 64 (size_apply s v)) 0) as [Hneg|]; [|done].
      apply Z.bits_iff_neg_ex in Hneg as [n Hn]. specialize (Hn (Z.max (n + 1) 64) ltac:(lia)).
      rewrite testbit_size_apply, Es in Hn by (done || lia). cbn [orb] in Hn.
      rewrite (proj2 (Z.ltb_ge _ _)) in Hn by lia. by rewrite andb_false_r in Hn.
    + intros i Hi. rewrite Z.shiftr_spec, testbit_size_apply, Es by (done || lia). cbn [orb].
      rewrite (proj2 (Z.ltb_ge _ _)) by lia. apply andb_false_r.
Qed.
Lemma contribution_spread c v v' mb : calc_ok c → is_u 64 v → is_u 64 v' → 0 <= mb → mult (shift c) <= 2 ^ mb →
  Z.abs (contribution c v' - contribution c v) < 2 ^ (size_bits (size c) + mb - right (shift c)).
Proof.
  intros [Hr Hm] Hv Hv' Hmb Hle. pose proof (shifted_range (size c) _ v Hv Hr) as H1.
  pose proof (shifted_range (size c) _ v' Hv' Hr) as H2. cbv zeta in H1, H2.
  unfold contribution. rewrite <- Z.mul_sub_distr_r, Z.abs_mul, (Z.abs_eq (mult _)) by lia.
  replace (size_bits (size c) + mb - right (shift c)) with (size_bits (size c) - right (shift c) + mb) by lia.
  rewrite pow2_split by lia. set (B := 2 ^ (size_bits (size c) - right (shift c))) in *.
  set (x := Z.shiftr _ _) in *. set (y := Z.shiftr _ _) in *.
  assert (Z.abs (x - y) <= B - 1) by lia. pose proof (pow2_pos mb Hmb). nia.
Qed.

Section deltas.
Context {P : profile}.

Lemma calc_max_bit_influence_ok fuel c : (9 <= fuel)%nat → calc_ok c →
  ∃ mb, calc_max_bit_influence fuel c = Ok (size_bits (size c) + mb - right (shift c)) ∧
    0 <= mb <= 7 ∧ mult (shift c) <= 2 ^ mb.
Proof.
  intros Hf [Hr Hm]. destruct (mult_loop_ok fuel (mult (shift c)) Hf Hm) as (mb & E & Hmb & Hle).
  pose proof (size_bits_range (size c)). exists mb. split; [|done]. unfold calc_max_bit_influence.
  rewrite E, M_bind_Ok. fold (size_bits (size c)). rewrite add_u_ok, M_bind_Ok by (unfold is_u; lia).
  by rewrite sub_u_ok by (unfold is_u; lia).
Qed.

(** The shorter way between two addresses, as the filter computes it. *)
Lemma address_delta_ok o n : is_u 64 o → is_u 64 n → ~ (Z.min o n = 0 ∧ Z.max o n = 2 ^ 63) →
  (d ← sub_u 64 (Z.max o n) (Z.min o n);
   if negb (Z.shiftr d 63 =? 0) then k ← neg_i 64 (swrap 64 (Z.max o n)); add_u 64 (Z.min o n) (wrap 64 k) else Ok d) =
  Ok (distance_between o n).
Proof.
  intros Ho Hn Hne. pose proof Ho as [? ?]. pose proof Hn as [? ?].
  rewrite sub_u_ok, M_bind_Ok by (unfold is_u; lia). unfold distance_between. rewrite Z.shiftr_div_pow2 by lia.
  set (a := Z.max o n - Z.min o n) in *.
  assert ((a / 2 ^ 63 =? 0) = (a <? 2 ^ 63)) as ->.
  { destruct (Z.ltb_spec a (2 ^ 63)); [by rewrite Z.div_small by lia|]. apply Z.eqb_neq. intros E.
    apply Z.div_small_iff in E; lia. }
  destruct (Z.ltb_spec a (2 ^ 63)) as [Ha|Ha]; cbn [negb].
  - f_equal. unfold a in *. wraps. lia.
  - assert (swrap 64 (Z.max o n) = Z.max o n - 2 ^ 64) as ->.
    { unfold swrap. cbv zeta. rewrite wrap_small by (unfold is_u; lia).
      rewrite (proj2 (Z.ltb_ge _ _)) by (unfold a in *; lia). done. }
    unfold neg_i, sub_i. rewrite bool_decide_true by (unfold is_i, a in *; lia).
    rewrite M_bind_Ok, wrap_small, add_u_ok by (unfold is_u, a in *; lia). f_equal. unfold a in *. wraps. lia.
Qed.
(** It is no longer than any difference the addresses can come from. *)
Lemma distance_between_le o n D : is_u 64 o → n = wrap 64 (o + D) → distance_between o n <= Z.abs D.
Proof.
  intros Ho ->. assert (is_u 64 (wrap 64 (o + D))) as Hn by (by apply wrap_is_u).
  pose proof (Z.div_mod (o + D) (2 ^ 64) ltac:(lia)) as E. fold (wrap 64 (o + D)) in E.
  set (n := wrap 64 (o + D)) in *. set (k := (o + D) / 2 ^ 64) in *. unfold distance_between. wraps. nia.
Qed.

(** [is_possible_with_delta] never discards a single use, or a use with a
    64-bit primary operand, that explains the observed addresses: when
    [is_valid_delta] accepts a pair of inputs, the term is possible.  The one
    pair of addresses left out is 0 and 2^63, on which [dev] panics. *)
Theorem is_possible_with_delta_sound fuel t v v' o n : (9 <= fuel)%nat → calc_ok (primary t) →
  match second_use t with
  | Some c => calc_ok c ∧ size (primary t) = U64 ∧ right (shift (primary t)) = 0
  | None => True
  end →
  is_u 64 v → is_u 64 v' → is_u 64 o → is_u 64 n → ~ (Z.min o n = 0 ∧ Z.max o n = 2 ^ 63) →
  is_valid_delta t v v' o n = Ok true → is_possible_with_delta fuel t o n = Ok true.
Proof.
  intros Hf Hp Hc Hv Hv' Ho Hn Hne E. assert (term_wf t) as Hwf.
  { split; [by apply calc_ok_wf|]. destruct (second_use t); [|done]. by apply calc_ok_wf, Hc. }
  unfold is_valid_delta in E. rewrite !term_apply_ok, !M_bind_Ok in E by done. injection E as E. apply Z.eqb_eq in E.
  assert (n = wrap 64 (o + (term_value t v' - term_value t v))) as En.
  { rewrite <- (wrap_small 64 n) by done. unfold wrapping_sub in E. rewrite wrap_sub_l, wrap_sub_r in E by lia.
    rewrite <- wrap_add_r, E, wrap_add_r by lia. f_equal; lia. }
  pose proof (distance_between_le o n _ Ho En) as Hd.
  destruct (calc_max_bit_influence_ok fuel (primary t) Hf Hp) as (mb & Emb & Hmb & Hle).
  unfold is_possible_with_delta. rewrite Emb, M_bind_Ok.
  assert (is_u 64 (distance_between o n)) as Hu by (unfold distance_between; wraps; lia).
  assert (∀ k, 0 <= k → distance_between o n < 2 ^ k →
    (d ← sub_u 64 (Z.max o n) (Z.min o n);
     d ← (if negb (Z.shiftr d 63 =? 0) then k ← neg_i 64 (swrap 64 (Z.max o n)); add_u 64 (Z.min o n) (wrap 64 k) else Ok d);
     h ← sub_u 32 64 (Z.of_nat (leading_zeros 64 d)); Ok (h <=? k)) = Ok true) as Hend.
  { intros k Hk0 Hk. rewrite <- M_bind_assoc, address_delta_ok, M_bind_Ok by done.
    destruct (highest_bit _ k Hu Hk Hk0) as (h & -> & Hh). rewrite M_bind_Ok. f_equal. by apply Z.leb_le. }
  destruct Hp as [Hr Hm]. destruct (second_use t) as [c|] eqn:Hs.
  - destruct Hc as (Hc & HU & HR). destruct (calc_max_bit_influence_ok fuel c Hf Hc) as (mb' & -> & Hmb' & _).
    rewrite M_bind_Ok, add_u_ok, M_bind_Ok by (pose proof (size_bits_range (size c)); destruct Hc; unfold is_u; lia).
    rewrite HU, HR. rewrite (Z.min_r _ 64) by (cbn [size_bits size_max_bit_influence]; lia). apply Hend; [lia|]. apply Hu.
  - rewrite M_bind_Ok. rewrite (Z.max_l _ 0) by lia.
    pose proof (contribution_spread (primary t) v v' mb (conj Hr Hm) Hv Hv' ltac:(lia) Hle) as Hsp.
    unfold term_value in Hd. rewrite Hs, !Z.add_0_r in Hd. apply Hend; [lia|].
    destruct (Z.min_spec (size_bits (size (primary t)) + mb - right (shift (primary t))) 64) as [[_ ->]|[_ ->]];
      [lia|apply Hu].
Qed.
End deltas.

Lemma is_possible_with_delta_witness : @is_possible_with_delta Dev 9 (single I16 1 4) 0x1000 0xFFC = Ok true.
Proof.
  apply (@is_possible_with_delta_sound Dev 9 (single I16 1 4) 0 0xFFFE 0x1000 0xFFC);
    [lia | repeat split; cbn; lia | exact I | split; lia.. | lia | vm_compute; reflexivity].
Defined.

(** The filters do discard other terms that [all] lists: a narrower primary use
    whose sum with the second use carries into one more bit, and, by
    [minimum_step_size], uses of different sizes with equal shifts; two
    addresses 2^63 apart panic in [dev]; a factor above 128 is never decided. *)
Theorem filter_limits :
  (∃ t, t ∈ All.all ∧ ∀ P : profile, is_valid_delta t 0 0xFFFFFFFF 0 0x10000FFFE = Ok true ∧
     is_possible_with_delta 9 t 0 0x10000FFFE = Ok false) ∧
  (∃ t, t ∈ All.all ∧ ∀ P : profile, is_valid_delta t 0 256 0x1000 0x1200 = Ok true ∧
     offset_is_valid t 0x200 = Ok false) ∧
  @is_possible_with_delta Dev 9 identity 0 (2 ^ 63) = Panic ∧
  (∀ (P : profile) fuel size right m o n, 128 < m → Z.of_nat fuel < 2 ^ 64 - 8 →
     is_possible_with_delta fuel (single size right m) o n = OutOfFuel).
Proof.
  split_and!.
  - exists {| primary := {| shift := {| right := 0; mult := 1 |}; size := U32 |};
              second_use := Some {| shift := {| right := 0; mult := 1 |}; size := U16 |} |}.
    split; [apply (bool_decide_unpack _); by vm_compute|]. by intros [].
  - exists {| primary := {| shift := {| right := 0; mult := 2 |}; size := U64 |};
              second_use := Some {| shift := {| right := 0; mult := 1 |}; size := U8 |} |}.
    split; [apply (bool_decide_unpack _); by vm_compute|]. by intros [].
  - done.
  - intros P fuel size right m o n Hm Hf. unfold is_possible_with_delta, calc_max_bit_influence. cbn [single primary shift mult].
    by rewrite mult_loop_diverges.
Qed.

(** ** Addresses *)

Import Calc.
Definition address_value (ts : list AddrTerm) (vals : list Z) : Z :=
  foldr (λ p s, term_value p.2 p.1 + s) 0 (zip vals ts).
(** Four terms. *)
Record calculation_wf (c : AddressComputation) : Prop := {
  wf_terms_length : length (terms c) = 4%nat;
  wf_terms : Forall term_wf (terms c);
}.

Section addresses.
Context {P : profile} {A : Arch}.

Lemma sum_steps {I} (read : I → M Z) l vs : ∀ ts s, Forall term_wf ts → Forall2 (λ i v, read i = Ok v) l vs →
  foldl (sum_step read) (Ok (wrap 64 s)) (zip l ts) = Ok (wrap 64 (s + address_value ts vs)).
Proof.
  intros ts s Hts Hl. revert ts s Hts. induction Hl as [|i v l vs Hi Hl IH]; intros ts s Hts.
  { unfold address_value. cbn. by rewrite Z.add_0_r. }
  destruct ts as [|t ts]; [unfold address_value; cbn; by rewrite Z.add_0_r|].
  apply Forall_cons in Hts as [Ht Hts]. cbn [zip zip_with foldl]. unfold sum_step at 2. cbn [fst snd].
  rewrite M_bind_Ok, Hi, M_bind_Ok, term_apply_ok, M_bind_Ok by done.
  replace (wrapping_add (wrap 64 s) (wrap 64 (term_value t v))) with (wrap 64 (s + term_value t v))
    by (unfold wrapping_add; by rewrite wrap_mod_add).
  rewrite IH by done. do 2 f_equal. unfold address_value. cbn. lia.
Qed.
Lemma sum_terms_ok {I} (read : I → M Z) l vs ts : Forall term_wf ts → Forall2 (λ i v, read i = Ok v) l vs →
  sum_terms read l ts = Ok (wrap 64 (address_value ts vs)).
Proof. intros. apply (sum_steps read l vs ts 0); done. Qed.

Lemma evaluate_ok c vals : Forall term_wf (terms c) →
  evaluate c vals = Ok (wrap 64 (address_value (terms c) vals + calc_offset c)).
Proof.
  intros H. unfold evaluate, evaluate_from_iter. rewrite (sum_terms_ok Ok vals vals), M_bind_Ok; [|done|].
  - unfold wrapping_add. by rewrite wrap_mod_add.
  - clear H. by induction vals; constructor.
Qed.
Lemma compute_ok c inputs state vals : Forall term_wf (terms c) →
  mapM (read_source state) (Locs.inputs inputs) = Ok vals →
  compute c inputs state = Ok (wrap 64 (address_value (terms c) vals + calc_offset c)).
Proof.
  intros H Hr%mapM_Forall2. unfold compute. rewrite (sum_terms_ok _ _ vals), M_bind_Ok by done.
  unfold wrapping_add. by rewrite wrap_mod_add.
Qed.

(** The address that [compute] reads off a state is the sum of the
    contributions of its inputs and the offset, modulo 2^64, which is also what
    [evaluate] gives on the values of the inputs; [new_with_inferred_offset]
    makes it the expected address, [with_added_offset] moves it, and two
    computations with a constant offset differ by that offset. *)
Theorem compute_spec c other inputs state vals expected k :
  Forall term_wf (terms c) → Forall term_wf (terms other) → is_u 64 expected →
  mapM (read_source state) (Locs.inputs inputs) = Ok vals →
  compute c inputs state = Ok (wrap 64 (address_value (terms c) vals + calc_offset c)) ∧
  evaluate c vals = compute c inputs state ∧
  (∃ c', new_with_inferred_offset (terms c) inputs state expected = Ok c' ∧ terms c' = terms c ∧
     compute c' inputs state = Ok expected) ∧
  (∃ a, compute c inputs state = Ok a ∧ compute (with_added_offset c k) inputs state = Ok (wrapping_add a k)) ∧
  (∀ d, constant_offset_with c other = Some d → ∃ a, compute c inputs state = Ok a ∧
     compute other inputs state = Ok (wrapping_add a d)).
Proof.
  intros Hc Ho He Hr. rewrite (compute_ok c _ _ vals), evaluate_ok by done. split_and!; [done..| | |].
  - unfold new_with_inferred_offset. rewrite (compute_ok _ _ _ vals), M_bind_Ok by done. cbn [terms calc_offset].
    eexists. split_and!; [done..|]. rewrite (compute_ok _ _ _ vals) by done. cbn [with_offset terms calc_offset].
    f_equal. rewrite <- wrap_add_r, wrap_swrap by lia. unfold wrapping_sub. rewrite wrap_wrap, wrap_sub_r, wrap_add_r by lia.
    replace (_ + _) with expected by lia. by apply wrap_small.
  - eexists. split; [done|]. rewrite (compute_ok _ _ _ vals) by done. cbn [with_added_offset terms calc_offset].
    f_equal. rewrite <- wrap_add_r, wrap_swrap, wrap_add_r by lia. unfold wrapping_add. rewrite wrap_add_l by lia.
    f_equal; lia.
  - intros d. unfold constant_offset_with. destruct (decide _) as [E|]; [|done]. intros [= <-]. eexists.
    split; [done|]. rewrite (compute_ok _ _ _ vals) by done. f_equal. unfold wrapping_add. symmetry.
    rewrite wrap_add_l, <- wrap_add_r, wrap_swrap, wrap_add_r, E by lia. f_equal; lia.
Qed.
End addresses.

(** ** Transformations *)

Lemma address_value_cons t ts v vals : address_value (t :: ts) (v :: vals) = term_value t v + address_value ts vals.
Proof. done. Qed.
Lemma address_value_delete ts vals i t v : ts !! i = Some t → vals !! i = Some v →
  address_value ts vals = term_value t v + address_value (delete i ts) (delete i vals).
Proof.
  revert vals i. induction ts as [|t' ts IH]; intros [|v' vals] [|i] Ht Hv; try done.
  - by injection Ht as ->; injection Hv as ->.
  - change (delete (S i) (t' :: ts)) with (t' :: delete i ts).
    change (delete (S i) (v' :: vals)) with (v' :: delete i vals).
    rewrite !address_value_cons, (IH vals i Ht Hv). lia.
Qed.
Lemma address_value_insert ts vals i t t' v : ts !! i = Some t → vals !! i = Some v →
  address_value (<[i:=t']> ts) vals = address_value ts vals - term_value t v + term_value t' v.
Proof.
  intros Ht Hv. assert (i < length ts)%nat by by eapply lookup_lt_Some.
  rewrite (address_value_delete ts vals i t v) by done.
  rewrite (address_value_delete (<[i:=t']> ts) vals i t' v) by (done || by rewrite list_lookup_insert_eq).
  assert (delete i (<[i:=t']> ts) = delete i ts) as -> by (by rewrite !delete_take_drop, take_insert_ge, drop_insert_lt by lia).
  lia.
Qed.
Lemma term_value_empty v : term_value term_default v = 0.
Proof. unfold term_value, contribution. cbn. lia. Qed.
Lemma address_value_padding ts n vals : address_value (ts ++ replicate n term_default) vals = address_value ts vals.
Proof.
  revert vals. induction ts as [|t ts IH]; intros vals.
  - revert vals. induction n as [|n IH]; intros [|v vals]; try done. cbn [app replicate].
    rewrite address_value_cons, term_value_empty. specialize (IH vals). cbn [app] in IH. rewrite IH. by destruct vals.
  - destruct vals as [|v vals]; [done|]. cbn [app]. by rewrite !address_value_cons, IH.
Qed.
Lemma term_default_wf : term_wf term_default.
Proof. repeat split; cbn; lia. Qed.
Lemma identity_wf : term_wf identity.
Proof. repeat split; cbn; lia. Qed.

Lemma remove_term_ok c i : calculation_wf c → (i < 4)%nat →
  remove_term c i = Ok {| calc_offset := calc_offset c; terms := delete i (terms c) ++ [term_default] |} ∧
  calculation_wf {| calc_offset := calc_offset c; terms := delete i (terms c) ++ [term_default] |}.
Proof.
  intros [Hl Hw] Hi. unfold remove_term. rewrite (proj2 (Nat.ltb_lt _ _)) by lia. cbn [rassert]. rewrite M_bind_Ok.
  split; [by rewrite app_assoc, <- delete_take_drop|]. split; cbn.
  - rewrite length_app, length_delete by (apply lookup_lt_is_Some; lia). cbn. lia.
  - apply Forall_app. split; [by apply Forall_delete|]. repeat constructor; cbn; lia.
Qed.

Section transformations.
Context {P : profile} {A : Arch}.

(** The term of two unifiable uses of one input. *)
Definition unifiable (s t : AddrTerm) : Prop :=
  right (shift (primary s)) = right (shift (primary t)) ∧ size (primary s) = size (primary t) ∧
  second_use s = None ∧ second_use t = None.
Definition unified (s t : AddrTerm) : AddrTerm :=
  single (size (primary s)) (right (shift (primary s))) (mult (shift (primary s)) + mult (shift (primary t))).
Lemma unified_value s t v : unifiable s t → term_value (unified s t) v = term_value s v + term_value t v.
Proof.
  intros (Hr & Hs & H1 & H2). unfold term_value, contribution. rewrite H1, H2. cbn. rewrite Hr, Hs. lia.
Qed.
Lemma unifiable_bool s t :
  (right (shift (primary s)) =? right (shift (primary t))) && bool_decide (size (primary s) = size (primary t)) &&
  bool_decide (second_use s = None) && bool_decide (second_use t = None) = bool_decide (unifiable s t).
Proof.
  apply Bool.eq_iff_eq_true. rewrite !andb_true_iff, !bool_decide_eq_true, Z.eqb_eq. unfold unifiable. tauto.
Qed.

Lemma unify_terms_ok c i j s t : calculation_wf c → i ≠ j → terms c !! i = Some s → terms c !! j = Some t →
  unifiable s t → mult (shift (primary s)) + mult (shift (primary t)) < 256 →
  unify_terms c i j = Ok (Some {| calc_offset := calc_offset c;
    terms := <[(if (j <? i)%nat then i - 1 else i)%nat := unified s t]> (delete j (terms c) ++ [term_default]) |}) ∧
  delete j (terms c) !! (if (j <? i)%nat then i - 1 else i)%nat = Some s.
Proof.
  intros Hc Hij Hs Ht Hu Hm. pose proof Hc as [Hl Hw].
  pose proof (Forall_lookup_1 _ _ _ _ Hw Hs) as [[_ Hms] _]. pose proof (Forall_lookup_1 _ _ _ _ Hw Ht) as [[_ Hmt] _].
  pose proof (lookup_lt_Some _ _ _ Hs). pose proof (lookup_lt_Some _ _ _ Ht).
  set (i' := (if (j <? i)%nat then i - 1 else i)%nat) in *.
  assert (delete j (terms c) !! i' = Some s) as Hd.
  { unfold i'. destruct (Nat.ltb_spec j i).
    - rewrite list_lookup_delete_ge by lia. by replace (S (i - 1)) with i by lia.
    - by rewrite list_lookup_delete_lt by lia. }
  assert ((delete j (terms c) ++ [term_default]) !! i' = Some s) as Hd' by by apply lookup_app_l_Some.
  split; [|done]. unfold unify_terms, vget. rewrite Hs, Ht. cbn [unwrap]. rewrite !M_bind_Ok.
  destruct (remove_term_ok c j Hc ltac:(lia)) as [-> _]. rewrite M_bind_Ok, unifiable_bool, bool_decide_true by done.
  fold i'. cbn [terms calc_offset]. rewrite Hd'. cbn [unwrap]. rewrite M_bind_Ok, add_u_ok, M_bind_Ok by (unfold is_u; lia).
  rewrite vset_lt, M_bind_Ok by by eapply lookup_lt_Some. destruct Hu as (_ & _ & Hn & _). unfold unified, single. by rewrite Hn.
Qed.

(** Removing a term and its input takes its contribution out of the address;
    unifying two terms of one input, and removing the second occurrence of the
    input, keeps the address. *)
Theorem terms_transformations c i j s t vals v w : calculation_wf c → i ≠ j →
  terms c !! i = Some s → terms c !! j = Some t → vals !! i = Some v → vals !! j = Some w →
  (∃ c' a b, remove_term c j = Ok c' ∧ calculation_wf c' ∧ evaluate c' (delete j vals) = Ok a ∧
     apply t w = Ok b ∧ evaluate c vals = Ok (wrapping_add a b)) ∧
  (~ unifiable s t → unify_terms c i j = Ok None) ∧
  (unifiable s t → mult (shift (primary s)) + mult (shift (primary t)) < 256 → v = w →
   ∃ c', unify_terms c i j = Ok (Some c') ∧ calculation_wf c' ∧ evaluate c' (delete j vals) = evaluate c vals).
Proof.
  intros Hc Hij Hs Ht Hv Hw. pose proof Hc as [Hl Hwf]. pose proof (lookup_lt_Some _ _ _ Ht).
  destruct (remove_term_ok c j Hc ltac:(lia)) as [Er Hc']. pose proof (address_value_delete _ _ _ _ _ Ht Hw) as Ed.
  pose proof (address_value_padding (delete j (terms c)) 1 (delete j vals)) as Ep. cbn [replicate] in Ep.
  split_and!.
  - rewrite term_apply_ok by by apply (Forall_lookup_1 _ _ _ _ Hwf Ht).
    eexists _, _, _. split_and!; [done..|rewrite evaluate_ok; [done|apply Hc']|done|].
    rewrite evaluate_ok by done. cbn [terms calc_offset]. rewrite Ep, Ed. unfold wrapping_add.
    rewrite wrap_mod_add by lia. do 2 f_equal. lia.
  - intros Hn. unfold unify_terms, vget. rewrite Hs, Ht. cbn [unwrap]. rewrite !M_bind_Ok, Er, M_bind_Ok, unifiable_bool.
    by rewrite bool_decide_false.
  - intros Hu Hm <-. destruct (unify_terms_ok c i j s t) as [-> Hd]; [done..|]. eexists. split; [done|].
    set (i' := (if (j <? i)%nat then i - 1 else i)%nat) in *. destruct Hc' as [Hl' Hwf']. cbn [terms] in *.
    pose proof (Forall_lookup_1 _ _ _ _ Hwf Hs) as [[Hrs Hms] _]. pose proof (Forall_lookup_1 _ _ _ _ Hwf Ht) as [[_ Hmt] _].
    assert (calculation_wf {| calc_offset := calc_offset c; terms := <[i' := unified s t]> (delete j (terms c) ++ [term_default]) |}) as Hc2.
    { split; cbn; [by rewrite length_insert|]. apply Forall_insert; [done|]. repeat split; cbn; lia. }
    split; [done|]. rewrite !evaluate_ok by (done || apply Hc2). cbn [terms calc_offset]. do 3 f_equal.
    assert (delete j vals !! i' = Some v) as Hv'.
    { unfold i'. destruct (Nat.ltb_spec j i).
      - rewrite list_lookup_delete_ge by lia. by replace (S (i - 1)) with i by lia.
      - by rewrite list_lookup_delete_lt by lia. }
    rewrite (address_value_insert _ _ i' s _ v) by (done || by apply lookup_app_l_Some).
    rewrite Ep, unified_value, Ed by done. lia.
Qed.
End transformations.

(** ** Constant offsets between computations with different inputs *)

Section considering_inputs.
Context {P : profile} {A : Arch} (state : SystemState).

Definition is_const (s : Source) : bool := match s with SConst _ _ => true | _ => false end.
(** The value of a source, 0 when it cannot be read. *)
Definition source_value (s : Source) : Z := match read_source state s with Ok v => v | _ => 0 end.
Definition pair_value (p : AddrTerm * Source) : Z := term_value p.1 (source_value p.2).
Definition pairs_value (l : list (AddrTerm * Source)) : Z := foldr (λ p s, pair_value p + s) 0 l.
(** The terms of the marked inputs. *)
Definition used_value (used : list bool) (l : list (AddrTerm * Source)) : Z :=
  foldr (λ p s, (if p.1 : bool then pair_value p.2 else 0) + s) 0 (zip used l).
(** A constant is added as it is. *)
Definition const_plain (l : list (AddrTerm * Source)) : Prop :=
  Forall (λ p, is_const p.2 = true → p.1 = identity) l.

Lemma identity_value v : wrap 64 (term_value identity v) = wrap 64 v.
Proof. unfold term_value, contribution. cbn. rewrite Z.shiftr_0_r, Z.mul_1_r, Z.add_0_r, wrap_swrap by lia. done. Qed.
Lemma pairs_value_zip ts ins : pairs_value (zip ts ins) = address_value ts (source_value <$> ins).
Proof.
  revert ins. induction ts as [|t ts IH]; intros [|s ins]; try done. cbn. rewrite IH. done.
Qed.
Lemma position_lookup x l j : position x l = Some j → l !! j = Some x.
Proof.
  revert j. induction l as [|y l IH]; intros j; cbn [position]; [done|]. destruct (decide (y = x)) as [->|].
  - by intros [= <-].
  - destruct (position x l) as [k|]; [|done]. intros [= <-]. by apply IH.
Qed.
Lemma used_value_insert used l j p : used !! j = Some false → l !! j = Some p →
  used_value (<[j:=true]> used) l = used_value used l + pair_value p.
Proof.
  revert l j. induction used as [|u used IH]; intros [|q l] [|j]; try done.
  - intros [= ->] [= ->]. unfold used_value. cbn. lia.
  - intros Hu Hp. change (<[S j:=true]> (u :: used)) with (u :: <[j:=true]> used).
    unfold used_value in *. cbn. specialize (IH l j Hu Hp). lia.
Qed.
Lemma used_value_none n l : used_value (replicate n false) l = 0.
Proof. revert l. induction n as [|n IH]; intros [|p l]; try done. unfold used_value in *. cbn. by rewrite IH. Qed.

(** The first loop subtracts what it has seen of [self] and has marked equal
    terms of [other]. *)
Lemma match_terms_value l other oins : ∀ result used r used',
  const_plain l → NoDup (List.filter (λ s, negb (is_const s)) l.*2) → length used = 4%nat →
  (∀ j, used !! j = Some true → ∃ x, oins !! j = Some x ∧ x ∉ l.*2) →
  match_terms l other oins result used = Ok (Some (r, used')) →
  length used' = 4%nat ∧
  r ≡₆₄ result - pairs_value l + used_value used' (zip (terms other) oins) - used_value used (zip (terms other) oins).
Proof.
  induction l as [|[t s] l IH]; intros result used r used' Hcp Hnd Hlen Hu E.
  { cbn in E. injection E as <- <-. split; [done|]. unfold eqm. f_equal. cbn. lia. }
  apply Forall_cons in Hcp as [Hct Hcp]. cbn [fst snd] in Hct. cbn [match_terms] in E.
  cbn [pairs_value foldr]. fold (pairs_value l). destruct (is_const s) eqn:Ec.
  - destruct s as [| |value nb]; try done. rewrite (Hct eq_refl).
    apply M_bind_Ok_inv in E as (res & Er & E). apply sub_i_inv in Er; [|lia].
    apply IH in E as [Hl E]; [|done..|]; last first.
    { intros j Hj. destruct (Hu j Hj) as (x & Hx & Hn). exists x. split; [done|]. cbn in Hn. set_solver. }
    split; [done|]. rewrite E, Er, (eqm_swrap (_ - _)), (eqm_swrap value).
    assert (pair_value (identity, SConst value nb) ≡₆₄ value) as -> by apply identity_value.
    unfold eqm. f_equal. lia.
  - assert (s ∉ l.*2 ∧ NoDup (List.filter (λ s, negb (is_const s)) l.*2)) as [Hs Hnd'].
    { cbn in Hnd. rewrite Ec in Hnd. cbn in Hnd. apply NoDup_cons in Hnd as [Hn Hnd]. split; [|done].
      intros Hin. apply Hn. apply list_elem_of_In, List.filter_In. rewrite <- list_elem_of_In, Ec. done. }
    assert (∃ j, position s oins = Some j ∧ (tb ← vget (terms other) j; used ← vset used j true;
      if decide (t = tb) then match_terms l other oins result used else Ok None) = Ok (Some (r, used'))) as (j & Ej & E').
    { destruct s; [| |done]; (destruct (position _ oins) as [j|]; [by exists j|done]). }
    clear E. apply M_bind_Ok_inv in E' as (tb & Etb & E). apply vget_Ok_inv in Etb.
    apply M_bind_Ok_inv in E as (used2 & E2 & E). destruct (decide (t = tb)) as [<-|]; [|done].
    apply vset_Ok_inv in E2 as [Hj ->]. apply position_lookup in Ej.
    assert (used !! j = Some false) as Huj.
    { destruct (lookup_lt_is_Some_2 used j Hj) as [[] Hb]; [|done].
      destruct (Hu j Hb) as (x & Hx & Hn). rewrite Ej in Hx. injection Hx as <-. cbn in Hn. set_solver. }
    apply IH in E as [Hl E]; [|done|done|by rewrite length_insert|].
    + split; [done|]. rewrite E, (used_value_insert _ _ j (t, s)); [|done|by apply lookup_zip_with_Some; eauto].
      unfold eqm. f_equal. lia.
    + intros k Hk. destruct (decide (k = j)) as [->|Hne]; [by exists s|].
      rewrite list_lookup_insert_ne in Hk by done. destruct (Hu k Hk) as (x & Hx & Hn). exists x. split; [done|].
      cbn in Hn. set_solver.
Qed.

Lemma zip_snd_prefix {X Y} (l : list X) (k : list Y) : ∃ r, k = (zip l k).*2 ++ r.
Proof.
  revert k. induction l as [|x l IH]; intros [|y k]; [by exists []|by exists (y :: k)|by exists []|].
  destruct (IH k) as [r E]. exists r. cbn. by rewrite <- E.
Qed.

(** The second loop adds the constants that are left; it stops at any other
    input. *)
Lemma match_rest_value oins : ∀ k used ts result r,
  const_plain (zip ts oins) → length ts = length (drop k used) →
  match_rest (imap (pair ∘ Nat.add k) oins) used result = Ok (Some r) →
  r ≡₆₄ result + pairs_value (zip ts oins) - used_value (drop k used) (zip ts oins).
Proof.
  induction oins as [|s oins IH]; intros k used ts result r Hcp Hlen E.
  { cbn in E. injection E as <-. rewrite zip_with_nil_r. unfold used_value. rewrite zip_with_nil_r. cbn.
    unfold eqm. f_equal. lia. }
  rewrite imap_cons in E. cbn [compose Nat.add match_rest] in E. rewrite Nat.add_0_r in E.
  apply M_bind_Ok_inv in E as (u & Eu & E). apply vget_Ok_inv in Eu. rewrite (drop_S used u k Eu) in *.
  destruct ts as [|t ts]; [done|]. injection Hlen as Hlen. apply Forall_cons in Hcp as [Hct Hcp]. cbn [fst snd] in Hct.
  assert (imap ((pair ∘ Nat.add k) ∘ S) oins = imap (pair ∘ Nat.add (S k)) oins) as Ei.
  { apply imap_ext. intros i x _. cbn. by rewrite Nat.add_succ_r. }
  rewrite Ei in E. unfold used_value, pairs_value. cbn [zip zip_with foldr]. fold (pairs_value (zip ts oins)).
  fold (used_value (drop (S k) used) (zip ts oins)). destruct u; cbn [negb fst snd] in *.
  - rewrite (IH _ _ _ _ _ Hcp Hlen E). unfold eqm. f_equal. lia.
  - destruct s as [| |value nb]; try done. apply M_bind_Ok_inv in E as (res & Er & E). apply add_i_inv in Er; [|lia].
    rewrite (IH _ _ _ _ _ Hcp Hlen E), Er, (Hct eq_refl), (eqm_swrap (_ + _)), (eqm_swrap value).
    assert (pair_value (identity, SConst value nb) ≡₆₄ value) as -> by apply identity_value.
    unfold eqm. f_equal. lia.
Qed.

(** [constant_offset_considering_inputs] is the difference of the two addresses
    in every state, when no register or immediate is listed twice in the inputs
    of [self] and constants enter with the identity term. *)
Theorem constant_offset_considering_inputs_sound c ins other oins d va vb : calculation_wf c → calculation_wf other →
  const_plain (zip (terms c) (Locs.inputs ins)) → const_plain (zip (terms other) (Locs.inputs oins)) →
  NoDup (List.filter (λ s, negb (is_const s)) (Locs.inputs ins)) →
  mapM (read_source state) (Locs.inputs ins) = Ok va → mapM (read_source state) (Locs.inputs oins) = Ok vb →
  constant_offset_considering_inputs c ins other oins = Ok (Some d) →
  ∃ a, compute c ins state = Ok a ∧ compute other oins state = Ok (wrapping_add a d).
Proof.
  intros [Hl Hw] [Hl' Hw'] Hp Hp' Hnd Ha Hb E. unfold constant_offset_considering_inputs in E.
  apply M_bind_Ok_inv in E as ([[res used]|] & E1 & E2); [|done].
  assert (∀ l vs, mapM (read_source state) l = Ok vs → vs = source_value <$> l) as Hvals.
  { intros l vs Hm%mapM_Forall2. induction Hm as [|x v l vs Hx Hm IH]; [done|]. cbn. rewrite IH. f_equal.
    unfold source_value. by rewrite Hx. }
  apply match_terms_value in E1 as [Hlen E1]; [|done| |done|].
  - apply (match_rest_value _ 0 used (terms other)) in E2; [|done|rewrite drop_0; lia].
    rewrite !(compute_ok _ _ state _ Hw Ha), (compute_ok _ _ state _ Hw' Hb). eexists. split; [done|]. f_equal.
    rewrite used_value_none, !pairs_value_zip, <- (Hvals _ _ Ha) in E1. rewrite drop_0, E1, !pairs_value_zip, <- (Hvals _ _ Hb) in E2.
    unfold wrapping_add. change (?x = wrap 64 ?y) with (wrap 64 (address_value (terms other) vb + calc_offset other) = wrap 64 y).
    fold (eqm (address_value (terms other) vb + calc_offset other)
      (wrap 64 (address_value (terms c) va + calc_offset c) + d)).
    rewrite eqm_wrap, E2, (eqm_swrap (_ - _)). unfold eqm. f_equal. lia.
  - destruct (zip_snd_prefix (terms c) (Locs.inputs ins)) as [k Ek]. rewrite Ek, List.filter_app in Hnd.
    by apply NoDup_app in Hnd as [? _].
  - intros j Hj. apply lookup_replicate in Hj as [? ?]. done.
Qed.
End considering_inputs.

(** Two occurrences of one input in [self] match the same term of [other]: the
    two computations [x + x] and [x] are said to differ by 0. *)
Theorem constant_offset_duplicate {P : profile} {A : Arch} (x : Source) : is_const x = false →
  constant_offset_considering_inputs (unscaled_sum 2) (unsorted [x; x]) (unscaled_sum 1) (unsorted [x]) = Ok (Some 0).
Proof.
  intros Hx. unfold constant_offset_considering_inputs. cbn [zip zip_with terms unscaled_sum unsorted Locs.inputs fmap list_fmap Nat.ltb Nat.leb].
  destruct x; [| |done]; cbn [match_terms position]; rewrite !decide_True by done; reflexivity.
Qed.

(** ** Building computations *)

(** Every term that [all] lists satisfies the conditions of the filters, and the
    assertions of [compute_relocation] hold for those with a second use.  The
    [u8] shift of the guard truncates, so that a primary factor 4 with a second
    use shifted by 6 is not listed although 4 * 2^6 is at least its factor. *)
Theorem all_terms_wf :
  Forall (λ t, term_wf t ∧ calc_ok (primary t) ∧
    match second_use t with
    | Some c => calc_ok c ∧ right (shift (primary t)) = 0 ∧
        mult (shift c) <= wrap 8 (Z.shiftl (mult (shift (primary t))) (right (shift c)))
    | None => True
    end) All.all ∧
  length All.all = 4461%nat ∧
  {| primary := {| shift := {| right := 0; mult := 4 |}; size := U64 |};
     second_use := Some {| shift := {| right := 6; mult := 1 |}; size := U32 |} |} ∉ All.all.
Proof.
  split_and!; [|by vm_compute|].
  - apply List.Forall_forall. intros t Ht.
    assert (forallb (λ t, bool_decide (term_wf t) && (right (shift (primary t)) <? size_bits (size (primary t))) &&
      (mult (shift (primary t)) <=? 128) &&
      match second_use t with
      | Some c => (0 <=? right (shift c)) && (right (shift c) <? size_bits (size c)) && (0 <=? mult (shift c)) &&
          (mult (shift c) <=? 128) && (right (shift (primary t)) =? 0) &&
          (mult (shift c) <=? wrap 8 (Z.shiftl (mult (shift (primary t))) (right (shift c))))
      | None => true end) All.all = true) as Hall by by vm_compute.
    rewrite forallb_forall in Hall. specialize (Hall t Ht). rewrite !andb_true_iff, bool_decide_eq_true in Hall.
    destruct Hall as [[[Hwf Hr] Hm] Hc]. split; [done|]. pose proof Hwf as [[? ?] _].
    apply Z.ltb_lt in Hr. apply Z.leb_le in Hm. split; [split; lia|].
    destruct (second_use t); [|done]. rewrite !andb_true_iff, !Z.leb_le, Z.ltb_lt, Z.eqb_eq in Hc. unfold calc_ok. lia.
  - apply (bool_decide_unpack _). by vm_compute.
Qed.

(** The remaining operations.  [remap_inputs] gathers: place [i] of the result
    is term [map[i]] of the old computation, and empty where [map[i]] is [None],
    so that a map without entries clears the computation.  [from_iter] pads to
    four terms without changing the address.  [add_constant_term] panics when no
    term is empty, [remove_term] and [from_iter] beyond four terms. *)
Theorem calculation_edges {P : profile} (c : AddressComputation) (l : list AddrTerm) (map : list (option nat)) offset vals :
  calculation_wf c → Forall term_wf l → length map = 4%nat → Forall (λ o, ∀ n, o = Some n → (n < 4)%nat) map →
  (∃ c', remap_inputs c map = Ok c' ∧ length (terms c') = 4%nat ∧
     ∀ i o, map !! i = Some o → terms c' !! i = match o with Some n => terms c !! n | None => Some empty end) ∧
  remap_inputs c (replicate 4 None) = Ok {| calc_offset := calc_offset c; terms := replicate 4 empty |} ∧
  ((length l <= 4)%nat → ∃ c', from_iter l offset = Ok c' ∧ calculation_wf c' ∧
     evaluate c' vals = Ok (wrap 64 (address_value l vals + offset))) ∧
  ((4 < length l)%nat → from_iter l offset = Panic) ∧
  (∀ i, (4 <= i)%nat → remove_term c i = Panic) ∧
  (Forall (λ t, is_empty t = false) (terms c) → add_constant_term c = Panic).
Proof.
  intros [Hl Hw] Hwl Hm Hn. split_and!.
  - destruct map as [|o0 [|o1 [|o2 [|o3 []]]]]; try done.
    assert (∀ o, o ∈ [o0; o1; o2; o3] → ∃ t, match o with Some n => vget (terms c) n | None => Ok empty end = Ok t ∧
      Some t = match o with Some n => terms c !! n | None => Some empty end) as Ho.
    { intros [n|] Hin; [|by exists empty]. rewrite Forall_forall in Hn. specialize (Hn _ Hin n eq_refl).
      destruct (vget_lt (terms c) n) as (t & Hg & Ht); [lia|]. by exists t. }
    destruct (Ho o0) as (t0 & E0 & F0); [set_solver|]. destruct (Ho o1) as (t1 & E1 & F1); [set_solver|].
    destruct (Ho o2) as (t2 & E2 & F2); [set_solver|]. destruct (Ho o3) as (t3 & E3 & F3); [set_solver|].
    unfold remap_inputs. cbn [mapM vget lookup list_lookup unwrap]. rewrite !M_bind_Ok.
    exists {| calc_offset := calc_offset c; terms := [t0; t1; t2; t3] |}.
    split_and!; [by rewrite E0, E1, E2, E3|done|].
    intros [|[|[|[|i]]]] o; [intros [= <-]; done..|]. by destruct i.
  - done.
  - intros Hle. unfold from_iter. rewrite (proj2 (Nat.ltb_ge _ _)) by lia. eexists. split; [done|].
    assert (Forall term_wf (l ++ replicate (4 - length l) term_default)) as Hwf.
    { apply Forall_app. split; [done|]. apply Forall_replicate, term_default_wf. }
    split; [split; cbn; [rewrite length_app, length_replicate; lia|done]|].
    rewrite evaluate_ok by done. cbn [terms calc_offset]. by rewrite address_value_padding.
  - intros Hlt. unfold from_iter. by rewrite (proj2 (Nat.ltb_lt _ _)).
  - intros i Hi. unfold remove_term. by rewrite (proj2 (Nat.ltb_ge _ _)) by lia.
  - intros He. unfold add_constant_term.
    destruct (list_find _ _) as [[i t]|] eqn:E; [|done]. apply list_find_Some in E as (Hi & Ht & _).
    by rewrite (Forall_lookup_1 _ _ _ _ He Hi) in Ht.
Qed.

(** Witnesses on [FakeArch]: [R1 + 4 * R2 + 16] with [R1 = 0x1000] and [R2 = 3]. *)
Definition demo_cpu : SystemState (A:=@Fake.FakeArch Dev) :=
  new_without_memory (A:=@Fake.FakeArch Dev)
    {| Fake.regs := [0; 0x1000; 3] ++ replicate 17 0; Fake.byte_regs := replicate 3 (replicate 8 0) |}.
Definition demo_calc : AddressComputation :=
  {| calc_offset := 16; terms := [identity; single U64 0 4; term_default; term_default] |}.
Definition demo_inputs : Inputs (A:=@Fake.FakeArch Dev) :=
  unsorted (A:=@Fake.FakeArch Dev) [SDest (A:=@Fake.FakeArch Dev) (DReg (A:=@Fake.FakeArch Dev) Fake.R1 qword);
                                    SDest (A:=@Fake.FakeArch Dev) (DReg (A:=@Fake.FakeArch Dev) Fake.R2 qword)].
Lemma demo_calc_wf : calculation_wf demo_calc.
Proof. split; [reflexivity|]. apply (bool_decide_unpack _). by vm_compute. Qed.
Lemma compute_witness : compute (P:=Dev) demo_calc demo_inputs demo_cpu = Ok 0x101C.
Proof.
  destruct (compute_spec (P:=Dev) demo_calc demo_calc demo_inputs demo_cpu [0x1000; 3] 0 0) as [E _];
    [apply demo_calc_wf | apply demo_calc_wf | split; lia | vm_compute; reflexivity |].
  rewrite E. vm_compute. reflexivity.
Defined.
Lemma terms_transformations_witness : ∃ c', unify_terms (P:=Dev) demo_calc 0 1 = Ok (Some c') ∧
  evaluate (P:=Dev) c' [7] = evaluate (P:=Dev) demo_calc [7; 7].
Proof.
  destruct (terms_transformations (P:=Dev) demo_calc 0 1 identity (single U64 0 4) [7; 7] 7 7) as (_ & _ & H);
    [apply demo_calc_wf | discriminate | reflexivity.. |].
  destruct H as (c' & E & _ & V); [repeat split | cbn; lia | reflexivity |]. exists c'. split; [exact E | exact V].
Defined.
Lemma constant_offset_witness : ∃ a, compute (P:=Dev) demo_calc demo_inputs demo_cpu = Ok a ∧
  compute (P:=Dev) (with_offset demo_calc 24) demo_inputs demo_cpu = Ok (wrapping_add a 8).
Proof.
  apply (constant_offset_considering_inputs_sound (P:=Dev) demo_cpu demo_calc demo_inputs (with_offset demo_calc 24) demo_inputs
    8 [0x1000; 3] [0x1000; 3]).
  - apply demo_calc_wf.
  - split; [reflexivity | apply demo_calc_wf].
  - repeat constructor; discriminate.
  - repeat constructor; discriminate.
  - apply (bool_decide_unpack _). by vm_compute.
  - vm_compute. reflexivity.
  - vm_compute. reflexivity.
  - vm_compute. reflexivity.
Defined.
Lemma constant_offset_duplicate_witness :
  constant_offset_considering_inputs (P:=Dev) (unscaled_sum 2) (unsorted (A:=@Fake.FakeArch Dev) [SImm (A:=@Fake.FakeArch Dev) 0; SImm 0])
    (unscaled_sum 1) (unsorted [SImm 0]) = Ok (Some 0).
Proof. apply (constant_offset_duplicate (P:=Dev)). reflexivity. Defined.
Lemma calculation_edges_witness : ∃ c', from_iter [identity; single U64 0 4] 16 = Ok c' ∧
  evaluate (P:=Dev) c' [5; 6] = Ok 45.
Proof.
  destruct (calculation_edges (P:=Dev) demo_calc [identity; single U64 0 4] [None; None; None; None] 16 [5; 6])
    as (_ & _ & H & _); [apply demo_calc_wf | apply (bool_decide_unpack _); vm_compute; reflexivity | reflexivity
    | repeat constructor; discriminate |].
  destruct H as (c' & E & _ & V); [cbn; lia|]. exists c'. split; [exact E | exact V].
Defined.
