(* ===== verification/Dataflows.v ===== *)
(** * Dataflows and memory accesses

    Models [liblisa/src/encoding/bitpattern/locs.rs] (the places of sources and
    destinations in an encoding), [liblisa/src/encoding/dataflows/accesses.rs]
    and [liblisa/src/encoding/dataflows/mod.rs]: the memory accesses of an
    instruction, its dataflows, and [Dataflows::execute], which runs them on a
    state.  The computation of a dataflow is any type with an evaluation
    function ([Computation]); printing is not modelled. *)
From stdpp Require Import sorting.
From S2P Require Import Prelude MachInt Utils Size Value Arch Locs Addr State AddrComp Instruction.
Import SizeOps AddrOps.

(** ** Places in an encoding *)

Inductive FlowInputLocation :=
  | InputForOutput (output_index input_index : nat)
  | MemoryAddress (memory_index input_index : nat).
Inductive FlowOutputLocation := Output (index : nat) | MemoryAccessOutput (index : nat).
Inductive FlowValueLocation :=
  | VOutput (output_index : nat)
  | VInputForOutput (output_index input_index : nat)
  | VMemoryAddress (memory_index input_index : nat).
#[export] Instance FlowInputLocation_eq_dec : EqDecision FlowInputLocation.
Proof. solve_decision. Defined.
#[export] Instance FlowOutputLocation_eq_dec : EqDecision FlowOutputLocation.
Proof. solve_decision. Defined.
#[export] Instance FlowValueLocation_eq_dec : EqDecision FlowValueLocation.
Proof. solve_decision. Defined.

Module Loc.
(** [FlowOutputLocation::input]. *)
Definition input (self : FlowOutputLocation) (input_index : nat) : FlowInputLocation :=
  match self with
  | Output output_index => InputForOutput output_index input_index
  | MemoryAccessOutput memory_index => MemoryAddress memory_index input_index
  end.
Definition is_address (self : FlowValueLocation) : bool :=
  match self with VMemoryAddress _ _ => true | _ => false end.
Definition is_in_output (self : FlowValueLocation) (index_to_find : nat) : bool :=
  match self with
  | VOutput output_index => (output_index =? index_to_find)%nat
  | VInputForOutput output_index _ => (output_index =? index_to_find)%nat
  | VMemoryAddress _ _ => false
  end.
(** [From<FlowInputLocation>] and [TryFrom<FlowValueLocation>]. *)
Definition from_input (l : FlowInputLocation) : FlowValueLocation :=
  match l with
  | InputForOutput o i => VInputForOutput o i
  | MemoryAddress m i => VMemoryAddress m i
  end.
Definition try_to_input (l : FlowValueLocation) : option FlowInputLocation :=
  match l with
  | VOutput _ => None
  | VInputForOutput o i => Some (InputForOutput o i)
  | VMemoryAddress m i => Some (MemoryAddress m i)
  end.
(** [PartialEq<FlowValueLocation> for FlowInputLocation]. *)
Definition input_eq_value (self : FlowInputLocation) (other : FlowValueLocation) : bool :=
  bool_decide (from_input self = other).
End Loc.

(** ** Memory accesses *)

Inductive AccessKind := Input | InputOutput | Executable.
#[export] Instance AccessKind_eq_dec : EqDecision AccessKind.
Proof. solve_decision. Defined.

Section accesses.
Context {P : profile} {A : Arch}.

(** [size] is the range [size_start..size_end]. *)
Record MemoryAccess := {
  kind : AccessKind;
  access_inputs : Inputs;
  size_start : Z;
  size_end : Z;
  calculation : AddressComputation;
  alignment : Z;
}.
Record MemoryAccesses := {
  instr : Instruction;
  accesses : list MemoryAccess;
  accesses_use_trap_flag : bool;
}.

(** [self.memory[index]]. *)
Definition accesses_index (self : MemoryAccesses) (index : nat) : M MemoryAccess := vget (accesses self) index.
Definition compute_address (self : MemoryAccess) (state : SystemState) : M Addr :=
  Calc.compute (calculation self) (access_inputs self) state.
Definition has_fixed_addr (self : MemoryAccess) : bool :=
  forallb (λ source, match source with SImm _ | SConst _ _ => true | SDest _ => false end) (Locs.inputs (access_inputs self)).
Definition compute_fixed_addr (self : MemoryAccess) : M Addr := compute_address self state_default.

Definition max_size_of (self : MemoryAccesses) (location : Location) : M Z :=
  match location with
  | LReg reg => Ok (byte_size reg)
  | LMemory index => m ← accesses_index self index; Ok (size_end m)
  end.
(** [self.memory[..length]] panics when there are fewer. *)
Definition accesses_slice (self : MemoryAccesses) (len : nat) : M MemoryAccesses :=
  assert! (len <=? length (accesses self))%nat;
  Ok {| instr := instr self; accesses := take len (accesses self);
        accesses_use_trap_flag := accesses_use_trap_flag self |}.
Definition accesses_len (self : MemoryAccesses) : nat := length (accesses self).
Definition accesses_is_empty (self : MemoryAccesses) : bool := (accesses_len self =? 0)%nat.

Definition with_computation (ma : MemoryAccess) (inputs : Inputs) (c : AddressComputation) : MemoryAccess :=
  {| kind := kind ma; access_inputs := inputs; size_start := size_start ma; size_end := size_end ma;
     calculation := c; alignment := alignment ma |}.
(** [MemoryAccesses::map_computations]. *)
Definition accesses_map_computations (self : MemoryAccesses)
    (f : nat → Inputs → AddressComputation → Inputs * AddressComputation) : MemoryAccesses :=
  {| instr := instr self;
     accesses := imap (λ index ma, let '(inputs, calculation) := f index (access_inputs ma) (calculation ma) in
                                   with_computation ma inputs calculation) (accesses self);
     accesses_use_trap_flag := accesses_use_trap_flag self |}.
(** [iter().enumerate().flat_map(f).collect()]; the closures passed to [map] can
    panic. *)
Definition map_inputs (inputs : Inputs) (f : nat → Source → M (option Source)) : M Inputs :=
  l ← mapM (λ '(index, s), f index s) (imap pair (Locs.inputs inputs));
  Ok (unsorted (omap id l)).
(** [MemoryAccesses::map] panics when an input disappears. *)
Definition accesses_map (self : MemoryAccesses) (new_instr : Instruction)
    (f : FlowValueLocation → Source → M (option Source))
    (map_address_computations : nat → AddressComputation → M (option AddressComputation)) : M MemoryAccesses :=
  l ← mapM (λ '(memory_index, ma),
      inputs ← map_inputs (access_inputs ma) (λ input_index, f (VMemoryAddress memory_index input_index));
      assert! (inputs_len (access_inputs ma) =? inputs_len inputs)%nat;
      c ← map_address_computations memory_index (calculation ma);
      Ok (with_computation ma inputs (default (calculation ma) c)))
    (imap pair (accesses self));
  Ok {| instr := new_instr; accesses := l; accesses_use_trap_flag := accesses_use_trap_flag self |}.
End accesses.

(** ** Dataflows *)

(** The evaluation of a computation, of the trait [Computation]. *)
Class Computation (C : Type) := comp_evaluate : C → list Value → M Value.
#[export] Instance AddressComputation_Computation {P : profile} : Computation AddressComputation := Calc.evaluate_values.

Section dataflows.
Context {P : profile} {A : Arch} {C : Type}.

Record Dataflow := {
  target : Dest;
  flow_inputs : Inputs;
  computation : option C;
  unobservable_external_inputs : bool;
}.
Record Dataflows := {
  addresses : MemoryAccesses;
  outputs : list Dataflow;
  found_dependent_bytes : bool;
}.
(** A dataflow with the place of its output. *)
Record FlowGroup := { group_inputs : Inputs; group_target : option Dest; group_location : FlowOutputLocation }.
Definition with_outputs (d : Dataflows) (l : list Dataflow) : Dataflows :=
  {| addresses := addresses d; outputs := l; found_dependent_bytes := found_dependent_bytes d |}.

Definition dataflows_instr (self : Dataflows) : Instruction := instr (addresses self).
Definition output_dataflow (self : Dataflows) (index : nat) : M Dataflow := vget (outputs self) index.
Definition iter_with_locations (self : Dataflows) : list FlowGroup :=
  imap (λ output_index output,
    {| group_inputs := flow_inputs output; group_target := Some (target output);
       group_location := Output output_index |}) (outputs self).
(** [FlowGroup::iter_with_locations]. *)
Definition group_iter (self : FlowGroup) : list (FlowInputLocation * Source) :=
  imap (λ index el, (Loc.input (group_location self) index, el)) (Locs.inputs (group_inputs self)).
Definition dataflows_inputs (self : Dataflows) : list (FlowInputLocation * Source) :=
  iter_with_locations self ≫= group_iter.
Definition values (self : Dataflows) : M (list (FlowValueLocation * Source)) :=
  l ← mapM (λ g, match group_location g, group_target g with
                 | Output output_index, Some dest => Ok (Some (VOutput output_index, SDest dest))
                 | MemoryAccessOutput _, None => Ok None
                 | _, _ => Panic
                 end) (iter_with_locations self);
  Ok (((λ '(loc, input), (Loc.from_input loc, input)) <$> dataflows_inputs self) ++ omap id l).
Definition dataflows_get (self : Dataflows) (loc : Dest) : option Dataflow :=
  snd <$> list_find (λ flow, target flow = loc) (outputs self).
Definition extract_memory_areas (self : Dataflows) (state : SystemState) : M (list Area) :=
  mapM (λ access, a ← compute_address access state; Ok (area_new a (size_end access))) (accesses (addresses self)).

(** [execute]: the inputs of one flow, its value, and the writes in order. *)
Definition read_input (state : SystemState) (input : Source) : M Value :=
  match input with
  | SDest dest => get_dest state dest
  | SImm _ => Panic
  | SConst value _ => Ok (Num value)
  end.
Definition evaluate_flow `{Computation C} (state : SystemState) (flow : Dataflow) : M (Dest * Value) :=
  inputs ← mapM (read_input state) (Locs.inputs (flow_inputs flow));
  c ← unwrap (computation flow);
  output ← comp_evaluate c inputs;
  Ok (target flow, output).
Definition write_outputs (state : SystemState) (l : list (Dest * Value)) : M SystemState :=
  foldl (λ s '(target, value), s ← s; set_dest s target value) (Ok state) l.
Definition execute `{Computation C} (self : Dataflows) (state : SystemState) : M SystemState :=
  l ← mapM (evaluate_flow state) (outputs self);
  write_outputs state l.

Definition split_flag_output (self : Dataflows) (index : nat) : M (Dataflows * nat) :=
  output ← vget (outputs self) index;
  match target output with
  | DReg r size =>
      if reg_is_flags r then
        let bytes := iter_byte_indices size in
        let flows := (λ byte,
          let s := SDest (DReg r (new byte byte)) in
          {| target := DReg r (new byte byte);
             flow_inputs := if inputs_contains (flow_inputs output) s then flow_inputs output
                            else inputs_push (flow_inputs output) s;
             computation := None;
             unobservable_external_inputs := unobservable_external_inputs output |}) <$> bytes in
        Ok (with_outputs self (delete index (outputs self) ++ flows), length bytes)
      else Panic
  | DMem _ _ => Panic
  end.

(** [Dataflows::map]. *)
Definition dataflows_map (self : Dataflows) (new_instr : Instruction)
    (map_flows : FlowValueLocation → Source → M (option Source))
    (map_address_computations : nat → AddressComputation → M (option AddressComputation)) : M Dataflows :=
  addresses ← accesses_map (addresses self) new_instr map_flows map_address_computations;
  outputs ← mapM (λ '(output_index, flow),
      o ← map_flows (VOutput output_index) (SDest (target flow));
      s ← unwrap o;
      d ← unwrap_dest s;
      inputs ← map_inputs (flow_inputs flow) (λ input_index, map_flows (VInputForOutput output_index input_index));
      Ok {| target := d;
            flow_inputs := inputs;
            computation := computation flow;
            unobservable_external_inputs := unobservable_external_inputs flow |})
    (imap pair (outputs self));
  Ok {| addresses := addresses; outputs := outputs; found_dependent_bytes := found_dependent_bytes self |}.

Definition push_input (flow : Dataflow) (s : Source) : Dataflow :=
  {| target := target flow; flow_inputs := inputs_push (flow_inputs flow) s; computation := computation flow;
     unobservable_external_inputs := unobservable_external_inputs flow |}.
Fixpoint insert_imm_value (self : Dataflows) (output_indices : list nat) (part_index : nat) :
    M (Dataflows * list FlowInputLocation) :=
  match output_indices with
  | [] => Ok (self, [])
  | index :: l =>
      flow ← vget (outputs self) index;
      os ← vset (outputs self) index (push_input flow (SImm part_index));
      '(self, result) ← insert_imm_value (with_outputs self os) l part_index;
      Ok (self, InputForOutput index (inputs_len (flow_inputs flow)) :: result)
  end.
(** The access of a location that receives an immediate value. *)
Definition push_memory_imm (access : MemoryAccess) (offset : Z) (part_index : nat) : M MemoryAccess :=
  assert! forallb (λ input, match input with SImm _ => false | _ => true end) (Locs.inputs (access_inputs access));
  c ← Calc.add_constant_term (Calc.with_offset (calculation access) (swrap 64 (calc_offset (calculation access) - offset)));
  Ok (with_computation access (inputs_push (access_inputs access) (SImm part_index)) c).
Fixpoint insert_memory_imms (self : Dataflows) (locations : list FlowOutputLocation) (offset : Z) (part_index : nat) :
    M (Dataflows * list FlowInputLocation) :=
  match locations with
  | [] => Ok (self, [])
  | location :: l =>
      '(self, loc) ← match location with
        | Output index =>
            flow ← vget (outputs self) index;
            os ← vset (outputs self) index (push_input flow (SImm part_index));
            Ok (with_outputs self os, Loc.input location (inputs_len (flow_inputs flow)))
        | MemoryAccessOutput index =>
            access ← vget (accesses (addresses self)) index;
            a ← push_memory_imm access offset part_index;
            l ← vset (accesses (addresses self)) index a;
            Ok ({| addresses := {| instr := instr (addresses self); accesses := l;
                                   accesses_use_trap_flag := accesses_use_trap_flag (addresses self) |};
                   outputs := outputs self; found_dependent_bytes := found_dependent_bytes self |},
                MemoryAddress index (inputs_len (access_inputs access)))
        end;
      '(self, result) ← insert_memory_imms self l offset part_index;
      Ok (self, loc :: result)
  end.
Definition overlapping_outputs (self : Dataflows) (output_dataflows : list Dataflow) : list Dataflow :=
  List.filter (λ other_output, existsb (λ o, dest_overlaps (target other_output) (target o)) output_dataflows) (outputs self).
End dataflows.
Arguments Dataflow {A} C.
Arguments Dataflows {A} C.

(** [Dataflows::map_computations]. *)
Definition dataflows_map_computations {A : Arch} {C CNew} (self : Dataflows C) (f : Inputs → C → option CNew) : Dataflows CNew :=
  {| addresses := addresses self;
     outputs := (λ flow, {| target := target flow; flow_inputs := flow_inputs flow;
                            computation := computation flow ≫= f (flow_inputs flow);
                            unobservable_external_inputs := unobservable_external_inputs flow |}) <$> outputs self;
     found_dependent_bytes := found_dependent_bytes self |}.
