(* ===== verification/DataflowsFacts.v ===== *)
(** * Executing dataflows

    Theorems about [Dataflows.v], for every architecture that satisfies
    [ArchLaws] and every computation: [execute] assigns all outputs in
    parallel, and the edits of dataflows keep addresses and bytes. *)
From stdpp Require Import sorting.
From S2P Require Import Prelude MachInt Utils Size Value Arch Locs Addr State StateFacts AddrComp AddrCompFacts Instruction.
From S2P Require Import Dataflows.
Import SizeOps AddrOps Term Calc.

Section execution.
Context {P : profile} {A : Arch} {L : ArchLaws A} {C : Type} `{Computation C}.

(** Writes to ranges that do not overlap all take effect. *)
Lemma write_outputs_ok l : ∀ s, state_wf s → Forall (λ p, dest_ok s p.1 ∧ dest_fits s p.1 p.2) l →
  ForallOrdPairs (λ p q, dest_overlaps p.1 q.1 = false ∧ dest_overlaps q.1 p.1 = false) l →
  ∃ s', write_outputs s l = Ok s' ∧ state_wf s' ∧ same_layout s s' ∧
    (∀ p, p ∈ l → get_dest s' p.1 = Ok p.2) ∧
    (∀ e, dest_ok s e → (∀ p, p ∈ l → dest_overlaps p.1 e = false) → get_dest s' e = get_dest s e).
Proof using L.
  induction l as [|[d v] l IH]; intros s Hs Hl Hp.
  { exists s. split_and!; [done..|by split_and!|by intros ? ?%elem_of_nil|done]. }
  apply Forall_cons in Hl as [[Hd Hf] Hl]. inversion Hp as [|? ? Hdl Hp']; subst. cbn [fst snd] in *.
  destruct (set_dest_ok s d v Hs Hd Hf) as (s1 & E1 & Hs1 & Hl1 & Hok & Hg & Hframe).
  destruct (IH s1 Hs1) as (s' & E & Hs' & Hl' & Hw & Ho); [|done|].
  { eapply Forall_impl; [exact Hl|]. intros p [Hpo Hpf]. destruct (Hok p.1 Hpo) as [? Hfit]. split; [done|by apply Hfit]. }
  exists s'. unfold write_outputs in *. cbn [foldl]. rewrite M_bind_Ok, E1. split_and!; [done..| | |].
  - destruct Hl1 as (? & ? & ? & ?), Hl' as (? & ? & ? & ?). split_and!; congruence.
  - intros p [->|Hin]%elem_of_cons; [|by apply Hw]. cbn [fst snd]. rewrite Ho; [done|by apply Hok|].
    intros q Hq. rewrite List.Forall_forall in Hdl. apply Hdl. by apply list_elem_of_In.
  - intros e He Hno. rewrite Ho; [apply Hframe; [done|]|by apply Hok|].
    + apply (Hno (d, v)). set_solver.
    + intros q Hq. apply Hno. set_solver.
Qed.

(** C9: [Dataflows::execute] is a parallel assignment.  Every output is computed
    from the state before the call; when the targets lie inside their locations,
    do not overlap and receive values that fit, the call succeeds, each target
    holds its value, and every range that overlaps no target, and every address,
    size and permission of the memory, is as before. *)
Theorem execute_spec (self : Dataflows C) s l : state_wf s → mapM (evaluate_flow s) (outputs self) = Ok l →
  Forall (λ p, dest_ok s p.1 ∧ dest_fits s p.1 p.2) l →
  ForallOrdPairs (λ p q, dest_overlaps p.1 q.1 = false ∧ dest_overlaps q.1 p.1 = false) l →
  ∃ s', execute self s = Ok s' ∧ state_wf s' ∧ same_layout s s' ∧
    (∀ d v, (d, v) ∈ l → get_dest s' d = Ok v) ∧
    (∀ e, dest_ok s e → (∀ flow, flow ∈ outputs self → dest_overlaps (target flow) e = false) →
       get_dest s' e = get_dest s e).
Proof using L.
  intros Hs El Hl Hp. destruct (write_outputs_ok l s Hs Hl Hp) as (s' & E & Hs' & Hlay & Hw & Ho).
  exists s'. unfold execute. rewrite El, M_bind_Ok. split_and!; [done..| |].
  - intros d v Hin. apply (Hw _ Hin).
  - intros e He Hno. apply Ho; [done|]. intros [d v] Hin. apply mapM_Forall2 in El.
    apply list_elem_of_lookup in Hin as [i Hi]. destruct (Forall2_lookup_r _ _ _ _ _ El Hi) as (flow & Hflow & Ef).
    unfold evaluate_flow in Ef. apply M_bind_Ok_inv in Ef as (? & _ & Ef). apply M_bind_Ok_inv in Ef as (? & _ & Ef).
    apply M_bind_Ok_inv in Ef as (? & _ & Ef). injection Ef as <- <-. apply Hno. by eapply list_elem_of_lookup_2.
Qed.
End execution.

(** The swap of two registers of [FakeArch], in the [dev] profile. *)
#[local] Instance demo_profile : profile := Dev.
Definition swap_flow (a b : Fake.FakeReg) : Dataflow (A:=@Fake.FakeArch Dev) AddressComputation :=
  {| target := DReg (A:=@Fake.FakeArch Dev) a qword;
     flow_inputs := unsorted [SDest (DReg (A:=@Fake.FakeArch Dev) b qword)];
     computation := Some (unscaled_sum 1); unobservable_external_inputs := false |}.
Definition swap_flows : Dataflows (A:=@Fake.FakeArch Dev) AddressComputation :=
  {| addresses := {| instr := {| data := []; len := 0 |}; accesses := []; accesses_use_trap_flag := false |};
     outputs := [swap_flow Fake.R1 Fake.R2; swap_flow Fake.R2 Fake.R1]; found_dependent_bytes := false |}.
Lemma demo_cpu_wf : state_wf demo_cpu.
Proof.
  split; [|constructor]. split; [reflexivity| |reflexivity| |]; [apply (bool_decide_unpack _); by vm_compute..|]. intros n [= <-]. done.
Qed.
Lemma swap_dest_ok r : r ∈ [Fake.R1; Fake.R2] → dest_ok demo_cpu (DReg (A:=@Fake.FakeArch Dev) r qword).
Proof.
  intros Hr. split.
  - cbn. unfold Fake.fake_iter_regs. set_solver.
  - intros v Hv. destruct v as [n|b].
    + apply inside_num. split; [split; cbn; lia | cbn; lia].
    + by apply list_elem_of_In in Hr as [<-|[<-|[]]].
Qed.
Lemma swap_fits r n : r ∈ [Fake.R1; Fake.R2] → is_u 64 n → dest_fits demo_cpu (DReg (A:=@Fake.FakeArch Dev) r qword) (Num n).
Proof.
  intros Hr Hn. split.
  - intros v Hv. destruct v as [m|b]; [done|]. by apply list_elem_of_In in Hr as [<-|[<-|[]]].
  - assert (Z.land (Z.shiftl n 0) (Z.ones 64) = Z.shiftl n 0) as E by (rewrite Z.shiftl_0_r, Z.land_ones by lia; by apply wrap_small).
    by apply list_elem_of_In in Hr as [<-|[<-|[]]].
Qed.
Lemma execute_witness : ∃ s', execute (P:=Dev) swap_flows demo_cpu = Ok s' ∧
  get_dest (P:=Dev) s' (DReg (A:=@Fake.FakeArch Dev) Fake.R1 qword) = Ok (Num 3) ∧
  get_dest (P:=Dev) s' (DReg (A:=@Fake.FakeArch Dev) Fake.R2 qword) = Ok (Num 0x1000).
Proof.
  destruct (execute_spec (P:=Dev) swap_flows demo_cpu
    [(DReg (A:=@Fake.FakeArch Dev) Fake.R1 qword, Num 3); (DReg (A:=@Fake.FakeArch Dev) Fake.R2 qword, Num 0x1000)] demo_cpu_wf)
    as (s' & E & _ & _ & W & _).
  - reflexivity.
  - apply Forall_cons; split; [|apply Forall_cons; split; [|by apply Forall_nil]];
      (split; [apply swap_dest_ok; set_solver | apply swap_fits; [set_solver | split; lia]]).
  - constructor; [by repeat constructor|]. constructor; [by constructor|constructor].
  - exists s'. split_and!; [exact E | apply W; set_solver | apply W; set_solver].
Defined.

(** ** Immediate values in addresses *)

Lemma address_value_snoc ts vals t k : ts !! length vals = Some t →
  address_value ts (vals ++ [k]) = address_value ts vals + term_value t k.
Proof.
  revert ts. induction vals as [|v vals IH]; intros [|t' ts] Ht; try done.
  - injection Ht as ->. unfold address_value. cbn. destruct ts; cbn; lia.
  - cbn [app]. rewrite !address_value_cons, IH by done. lia.
Qed.
Lemma empty_value t v : is_empty t = true → term_value t v = 0.
Proof.
  unfold is_empty. rewrite andb_true_iff, Z.eqb_eq, bool_decide_eq_true. intros [Hm Hs].
  unfold term_value, contribution. rewrite Hs, Hm. lia.
Qed.
Section immediates.
Context {P : profile} {A : Arch}.

(** One term for every input, the rest empty. *)
Definition terms_match (c : AddressComputation) (n : nat) : Prop :=
  ∀ i t, terms c !! i = Some t → (is_empty t = true ↔ (n <= i)%nat).

(** Moving part of the offset of an access into an immediate value keeps the
    address: after [insert_memory_imms], the access with the immediate at
    [offset] has the address it had before, the immediate is its last input,
    and the next one would be refused. *)
Theorem push_memory_imm_spec access offset part_index vals :
  calculation_wf (calculation access) → terms_match (calculation access) (inputs_len (access_inputs access)) →
  (inputs_len (access_inputs access) < 4)%nat → length vals = inputs_len (access_inputs access) →
  Forall (λ s, ∀ n, s ≠ SImm n) (Locs.inputs (access_inputs access)) →
  ∃ a, push_memory_imm access offset part_index = Ok a ∧ calculation_wf (calculation a) ∧
    Locs.inputs (access_inputs a) !! length vals = Some (SImm part_index) ∧
    evaluate (calculation a) (vals ++ [wrap 64 offset]) = evaluate (calculation access) vals ∧
    push_memory_imm a offset part_index = Panic.
Proof.
  intros [Hl Hw] Hm Hlt Hv Hni. unfold push_memory_imm at 1.
  assert (forallb (λ input, match input with SImm _ => false | _ => true end) (Locs.inputs (access_inputs access)) = true) as ->.
  { apply forallb_forall. intros x Hx%list_elem_of_In. rewrite Forall_forall in Hni. specialize (Hni x Hx).
    destruct x as [| i|]; [done| by destruct (Hni i)|done]. }
  cbn [rassert]. rewrite M_bind_Ok. set (n := inputs_len (access_inputs access)) in *.
  destruct (lookup_lt_is_Some_2 (terms (calculation access)) n) as [t Ht]; [lia|].
  pose proof (proj2 (Hm n t Ht) (le_n n)) as He.
  assert (list_find (λ t, is_empty t = true) (terms (calculation access)) = Some (n, t)) as Ef.
  { apply list_find_Some. split_and!; [done..|]. intros j y Hj Hjn Hy. apply (Hm j y Hj) in Hy. lia. }
  unfold add_constant_term. cbn [with_offset terms calc_offset]. rewrite Ef. cbn [fmap option_fmap option_map fst unwrap].
  rewrite M_bind_Ok, vset_lt, !M_bind_Ok by lia. eexists. split; [done|]. cbn [calculation with_computation access_inputs].
  assert (calculation_wf {| calc_offset := swrap 64 (calc_offset (calculation access) - offset);
                            terms := <[n:=identity]> (terms (calculation access)) |}) as Hc.
  { split; cbn; [by rewrite length_insert|]. apply Forall_insert; [done|apply identity_wf]. }
  split_and!; [done| | |].
  - cbn [inputs_push unsorted Locs.inputs]. rewrite lookup_app_r by (unfold n, inputs_len in *; lia).
    rewrite Hv. unfold n, inputs_len. by rewrite Nat.sub_diag.
  - rewrite !evaluate_ok by (done || apply Hc). cbn [terms calc_offset]. f_equal.
    rewrite (address_value_insert _ _ n t identity (wrap 64 offset)); [|done|rewrite lookup_app_r, Hv, Nat.sub_diag by lia; done].
    rewrite (address_value_snoc _ _ t) by (by rewrite Hv).
    enough (address_value (terms (calculation access)) vals + term_value t (wrap 64 offset) - term_value t (wrap 64 offset) +
      term_value identity (wrap 64 offset) + swrap 64 (calc_offset (calculation access) - offset) ≡₆₄
      address_value (terms (calculation access)) vals + calc_offset (calculation access)) as Heq by exact Heq.
    assert (term_value identity (wrap 64 offset) ≡₆₄ wrap 64 offset) as -> by apply identity_value.
    rewrite Z.add_simpl_r, (eqm_wrap offset), (eqm_swrap (_ - _)). unfold eqm. f_equal. lia.
  - unfold push_memory_imm. cbn [access_inputs with_computation inputs_push unsorted Locs.inputs].
    rewrite forallb_app. cbn. by rewrite andb_false_r.
Qed.
End immediates.

Lemma push_memory_imm_witness : ∃ a, push_memory_imm
    {| kind := Input; access_inputs := demo_inputs; size_start := 8; size_end := 8; calculation := demo_calc; alignment := 1 |} 16 0 = Ok a ∧
  evaluate (calculation a) [0x1000; 3; 16] = Ok 0x101C.
Proof.
  destruct (push_memory_imm_spec
    {| kind := Input; access_inputs := demo_inputs; size_start := 8; size_end := 8; calculation := demo_calc; alignment := 1 |}
    16 0 [0x1000; 3]) as (a & E & _ & _ & V & _).
  - exact demo_calc_wf.
  - intros [|[|[|[|[]]]]] t [= <-]; vm_compute; split; intros; (discriminate || reflexivity || lia).
  - vm_compute. lia.
  - reflexivity.
  - repeat constructor; discriminate.
  - exists a. split; [exact E|]. change [0x1000; 3; 16] with ([0x1000; 3] ++ [wrap 64 16]). rewrite V. reflexivity.
Defined.

(** ** Splitting flags *)

Section flags.
Context {P : profile} {A : Arch} {C : Type}.

(** [split_flag_output] replaces the output to a range of the flags register by
    one output per byte: they write exactly the bytes the output wrote, do not
    overlap, have the old value of their byte among their inputs and no
    computation; the other outputs stay. *)
Theorem split_flag_output_spec (self : Dataflows C) index output r s : outputs self !! index = Some output →
  target output = DReg r s → reg_is_flags r = true → size_wf s →
  ∃ self' n flows, split_flag_output self index = Ok (self', n) ∧ length flows = n ∧
    Z.of_nat n = end_byte s - start_byte s + 1 ∧ outputs self' = delete index (outputs self) ++ flows ∧
    (∀ l i, (∃ f, f ∈ flows ∧ has_byte (target f) l i) ↔ has_byte (target output) l i) ∧
    ForallOrdPairs (λ f g, dest_overlaps (target f) (target g) = false) flows ∧
    Forall (λ f, computation f = None ∧ SDest (target f) ∈ Locs.inputs (flow_inputs f) ∧
                 ∀ x, x ∈ Locs.inputs (flow_inputs output) → x ∈ Locs.inputs (flow_inputs f)) flows.
Proof.
  intros Ho Ht Hr [H1 H2 H3]. unfold split_flag_output, vget. rewrite Ho. cbn [unwrap]. rewrite M_bind_Ok, Ht, Hr.
  set (mk := λ byte, {| target := DReg r (new byte byte); flow_inputs := _; computation := None;
                        unobservable_external_inputs := unobservable_external_inputs output |} : Dataflow C).
  eexists _, _, (mk <$> iter_byte_indices s). split; [done|]. rewrite length_fmap. cbn [outputs with_outputs]. split_and!.
  - done.
  - unfold iter_byte_indices. rewrite length_fmap, length_seq. lia.
  - done.
  - intros l i. unfold has_byte at 2. cbn [location_from_dest dest_size]. split.
    + intros (f & (b & -> & Hb)%list_elem_of_fmap & [Hl Hi]). apply elem_of_iter_byte_indices in Hb.
      cbn in Hl, Hi. unfold has in *. cbn in Hi. split; [done|]. assert (i = b) as -> by lia. done.
    + intros [Hl Hi]. exists (mk i). split; [apply list_elem_of_fmap; exists i; split; [done|by apply elem_of_iter_byte_indices]|].
      split; [done|]. unfold has. cbn. lia.
  - unfold iter_byte_indices. generalize (Z.to_nat (end_byte s - start_byte s + 1)). intros n. generalize 0%nat.
    induction n as [|n IH]; intros k; [constructor|]. cbn [seq fmap list_fmap]. constructor; [|apply IH].
    apply List.Forall_forall. intros f Hf%list_elem_of_In. apply list_elem_of_fmap in Hf as (b & -> & Hb).
    apply list_elem_of_fmap in Hb as (j & -> & Hj). apply elem_of_seq in Hj. unfold dest_overlaps. cbn.
    rewrite bool_decide_true by done. unfold overlapping_area. cbn. case_cmp; [lia|done].
  - apply List.Forall_forall. intros f Hf%list_elem_of_In. apply list_elem_of_fmap in Hf as (b & -> & Hb). unfold mk. cbn.
    unfold inputs_contains. case_bool_decide as Hin; [done|]. cbn. split_and!; [done|set_solver|set_solver].
Qed.
End flags.

Lemma split_flag_output_witness : ∃ self' n, split_flag_output (A:=@Fake.FakeArch Dev)
    (with_outputs swap_flows [{| target := DReg (A:=@Fake.FakeArch Dev) Fake.RF (new 0 2); flow_inputs := unsorted [];
                                 computation := None; unobservable_external_inputs := false |}]) 0 = Ok (self', n) ∧ n = 3%nat.
Proof.
  destruct (split_flag_output_spec (A:=@Fake.FakeArch Dev)
    (with_outputs swap_flows [{| target := DReg (A:=@Fake.FakeArch Dev) Fake.RF (new 0 2); flow_inputs := unsorted [];
                                 computation := None; unobservable_external_inputs := false |}]) 0
    {| target := DReg (A:=@Fake.FakeArch Dev) Fake.RF (new 0 2); flow_inputs := unsorted [];
       computation := None; unobservable_external_inputs := false |} Fake.RF (new 0 2)) as (self' & n & flows & E & _ & Hn & _).
  - reflexivity.
  - reflexivity.
  - reflexivity.
  - split; cbn; lia.
  - exists self', n. split; [exact E|]. cbn in Hn. lia.
Defined.

(** ** Places and maps *)

Section places.
Context {P : profile} {A : Arch} {C : Type}.

Lemma mapM_imap_id {X Y} (f : nat → X → M Y) (g : nat → X → Y) (l : list X) :
  (∀ i x, l !! i = Some x → f i x = Ok (g i x)) → mapM (λ '(i, x), f i x) (imap pair l) = Ok (imap g l).
Proof.
  intros Hf. apply mapM_Forall2, Forall2_same_length_lookup_2; [by rewrite !length_imap|].
  intros i p y Hp Hy. rewrite list_lookup_imap in Hp. rewrite list_lookup_imap in Hy. destruct (l !! i) as [x|] eqn:E; [|done].
  cbn in Hp, Hy. injection Hp as <-. injection Hy as <-. by apply Hf.
Qed.
Lemma omap_id_Some {X} (l : list X) : omap id (Some <$> l) = l.
Proof. induction l as [|x l IH]; [done|]. exact (f_equal (cons x) IH). Qed.
Lemma map_inputs_ok i f (g : nat → Source → Source) : (∀ k s, Locs.inputs i !! k = Some s → f k s = Ok (Some (g k s))) →
  map_inputs i f = Ok (unsorted (imap g (Locs.inputs i))).
Proof.
  intros Hf. unfold map_inputs. rewrite (mapM_imap_id _ (λ k s, Some (g k s)) _ Hf), M_bind_Ok.
  pose proof (fmap_imap g Some (Locs.inputs i)) as E. unfold compose in E. rewrite <- E.
  by rewrite omap_id_Some.
Qed.

(** What a map that replaces every place and address computation returns. *)
Definition mapped (self : Dataflows C) (new_instr : Instruction) (g : FlowValueLocation → Source → Source)
    (h : nat → AddressComputation → AddressComputation) : Dataflows C :=
  {| addresses := {| instr := new_instr;
       accesses := imap (λ m ma, with_computation ma (unsorted (imap (λ i, g (VMemoryAddress m i)) (Locs.inputs (access_inputs ma))))
                                   (h m (calculation ma))) (accesses (addresses self));
       accesses_use_trap_flag := accesses_use_trap_flag (addresses self) |};
     outputs := imap (λ o flow,
       {| target := match g (VOutput o) (SDest (target flow)) with SDest d => d | _ => target flow end;
          flow_inputs := unsorted (imap (λ i, g (VInputForOutput o i)) (Locs.inputs (flow_inputs flow)));
          computation := computation flow;
          unobservable_external_inputs := unobservable_external_inputs flow |}) (outputs self);
     found_dependent_bytes := found_dependent_bytes self |}.
(** The source at a place of the dataflows. *)
Definition source_at (self : Dataflows C) (loc : FlowValueLocation) (s : Source) : Prop :=
  match loc with
  | VOutput o => ∃ f, outputs self !! o = Some f ∧ s = SDest (target f)
  | VInputForOutput o i => ∃ f, outputs self !! o = Some f ∧ Locs.inputs (flow_inputs f) !! i = Some s
  | VMemoryAddress m i => ∃ a, accesses (addresses self) !! m = Some a ∧ Locs.inputs (access_inputs a) !! i = Some s
  end.
Lemma dataflows_map_ok (self : Dataflows C) new_instr f g h k :
  (∀ loc s, source_at self loc s → f loc s = Ok (Some (g loc s))) →
  (∀ o flow, outputs self !! o = Some flow → ∃ d, g (VOutput o) (SDest (target flow)) = SDest d) →
  (∀ m a, accesses (addresses self) !! m = Some a → ∃ r, h m (calculation a) = Ok r ∧ default (calculation a) r = k m (calculation a)) →
  dataflows_map self new_instr f h = Ok (mapped self new_instr g k).
Proof.
  intros Hf Hd Hh. unfold dataflows_map, accesses_map.
  rewrite (mapM_imap_id _ (λ m ma, with_computation ma (unsorted (imap (λ i, g (VMemoryAddress m i)) (Locs.inputs (access_inputs ma))))
                                     (k m (calculation ma)))).
  2: { intros m a Ha. rewrite (map_inputs_ok _ _ (λ i, g (VMemoryAddress m i))) by (intros i s Hs; apply Hf; by exists a). rewrite M_bind_Ok.
       unfold inputs_len, unsorted. cbn [Locs.inputs]. rewrite length_imap, Nat.eqb_refl.
       destruct (Hh m a Ha) as (r & -> & Er). cbn [rassert]. by rewrite !M_bind_Ok, Er. }
  rewrite !M_bind_Ok.
  rewrite (mapM_imap_id _ (λ o flow,
       {| target := match g (VOutput o) (SDest (target flow)) with SDest d => d | _ => target flow end;
          flow_inputs := unsorted (imap (λ i, g (VInputForOutput o i)) (Locs.inputs (flow_inputs flow)));
          computation := computation flow;
          unobservable_external_inputs := unobservable_external_inputs flow |})); [done|].
  intros o flow Ho. rewrite Hf by by exists flow. rewrite M_bind_Ok. destruct (Hd o flow Ho) as (d & ->).
  cbn [unwrap unwrap_dest]. rewrite !M_bind_Ok.
  rewrite (map_inputs_ok _ _ (λ i, g (VInputForOutput o i))) by (intros i s Hs; apply Hf; by exists flow). done.
Qed.
Lemma imap_same {X} (f : nat → X → X) (l : list X) : (∀ i x, l !! i = Some x → f i x = x) → imap f l = l.
Proof.
  intros Hf. apply list_eq. intros i. rewrite list_lookup_imap. destruct (l !! i) eqn:E; [|done]. cbn. by rewrite (Hf i _ E).
Qed.

(** [Dataflows::values] lists each source and destination once, at its place:
    an input of an output, or the target of an output; and [Dataflows::map]
    visits the same places, so that the map that changes nothing returns the
    dataflows for the new instruction. *)
Theorem values_map_spec (self : Dataflows C) new_instr :
  (∃ l, values self = Ok l ∧ ∀ loc s, (loc, s) ∈ l ↔ Loc.is_address loc = false ∧ source_at self loc s) ∧
  dataflows_map self new_instr (λ _ s, Ok (Some s)) (λ _ _, Ok None) =
    Ok {| addresses := {| instr := new_instr; accesses := accesses (addresses self);
                          accesses_use_trap_flag := accesses_use_trap_flag (addresses self) |};
          outputs := outputs self; found_dependent_bytes := found_dependent_bytes self |}.
Proof.
  split.
  - unfold values. rewrite (mapM_Ok _ (λ g, match group_location g, group_target g with
      | Output o, Some d => Some (VOutput o, SDest d) | _, _ => None end)).
    2: { intros g (o & f & -> & Hf)%elem_of_lookup_imap_1. done. }
    rewrite M_bind_Ok. eexists. split; [done|]. intros loc s. rewrite elem_of_app, list_elem_of_omap.
    setoid_rewrite list_elem_of_fmap. unfold dataflows_inputs. setoid_rewrite list_elem_of_bind.
    unfold iter_with_locations, group_iter. split.
    + intros [([l' s'] & [= -> ->] & g & Hin & (o & f & -> & Hf)%elem_of_lookup_imap_1)|(g & (g' & -> & Hg) & Hs)].
      * apply elem_of_lookup_imap_1 in Hin as (i & x & [= -> ->] & Hx). cbn in *. split; [done|]. by exists f.
      * apply elem_of_lookup_imap_1 in Hg as (o & f & -> & Hf). cbn in Hs. injection Hs as <- <-. split; [done|]. by exists f.
    + destruct loc as [o|o i|m i]; intros [Ha Hs]; [| |done].
      * destruct Hs as (f & Hf & ->). right. eexists. split; [eexists; split; [done|]|]; [by apply (elem_of_lookup_imap_2 _ _ _ _ Hf)|done].
      * destruct Hs as (f & Hf & Hs). left. exists (InputForOutput o i, s). split; [done|]. eexists. split; [|by apply (elem_of_lookup_imap_2 _ _ _ _ Hf)].
        cbn. apply (elem_of_lookup_imap_2 (λ index el, (InputForOutput o index, el)) _ _ _ Hs).
  - rewrite (dataflows_map_ok self new_instr _ (λ _ s, s) _ (λ _ c, c)); [|done|eauto|eauto].
    unfold mapped. f_equal. f_equal; [f_equal|]; apply imap_same.
    + intros m ma _. rewrite imap_same by done. by destruct ma as [? []].
    + intros o f _. rewrite imap_same by done. by destruct f as [? []].
Qed.

Lemma sum_panic_absorbs {I} (read : I → M Z) l : foldl (sum_step read) Panic l = Panic.
Proof. by induction l. Qed.
Lemma sum_panics (state : SystemState) l : ∀ ts i n a, (i < length ts)%nat → Forall term_wf ts → l !! i = Some (SImm n) →
  Forall (λ x, ∀ d, x ≠ SDest d) l → foldl (sum_step (read_source state)) (Ok a) (zip l ts) = Panic.
Proof.
  induction l as [|x l IH]; intros [|t ts] i n a Hi Hw Hx Hd; try done; [cbn in Hi; lia|].
  apply Forall_cons in Hw as [Ht Hw]. apply Forall_cons in Hd as [Hxd Hd]. cbn [zip zip_with foldl].
  unfold sum_step at 2. cbn [fst snd]. rewrite M_bind_Ok. destruct x as [d|k|v nb].
  - by destruct (Hxd d).
  - cbn [read_source]. apply sum_panic_absorbs.
  - cbn [read_source]. rewrite M_bind_Ok, term_apply_ok, M_bind_Ok by done. destruct i as [|i]; [done|].
    apply (IH ts i n); [cbn in Hi; lia|done..].
Qed.

(** The address of an access whose inputs are constants is the same in every
    state; an immediate among the first four inputs, for which [has_fixed_addr]
    also holds, makes the computation panic. *)
Theorem fixed_addr_spec (access : MemoryAccess) s : calculation_wf (calculation access) →
  has_fixed_addr access = true →
  (Forall (λ x, is_const x = true) (Locs.inputs (access_inputs access)) → compute_address access s = compute_fixed_addr access ∧
     ∃ a, compute_fixed_addr access = Ok a) ∧
  ((∃ i n, (i < 4)%nat ∧ Locs.inputs (access_inputs access) !! i = Some (SImm n)) → compute_fixed_addr access = Panic).
Proof.
  intros [Hl Hw] Hf. unfold compute_fixed_addr, compute_address. split.
  - intros Hc. set (value := λ x : Source, match x with SConst v _ => v | _ => 0 end).
    assert (∀ st : SystemState, mapM (read_source st) (Locs.inputs (access_inputs access)) =
      Ok (value <$> Locs.inputs (access_inputs access))) as Hv.
    { intros st. apply mapM_Ok. intros x Hx. rewrite Forall_forall in Hc. specialize (Hc x Hx). by destruct x. }
    rewrite !(compute_ok _ _ _ _ Hw (Hv _)). eauto.
  - intros (i & n & Hi & Hx). unfold compute, sum_terms. rewrite (sum_panics _ _ _ i n); [done|lia|done|done|].
    apply Forall_forall. intros x Hin d ->. unfold has_fixed_addr in Hf. rewrite forallb_forall in Hf.
    by specialize (Hf _ (proj1 (list_elem_of_In _ _) Hin)).
Qed.
End places.

Lemma fixed_addr_witness :
  compute_address (P:=Dev) {| kind := Input; access_inputs := unsorted (A:=@Fake.FakeArch Dev) [SConst 0x1000 64; SConst 3 8];
    size_start := 8; size_end := 8; calculation := demo_calc; alignment := 1 |} demo_cpu =
  compute_fixed_addr (P:=Dev) {| kind := Input; access_inputs := unsorted (A:=@Fake.FakeArch Dev) [SConst 0x1000 64; SConst 3 8];
    size_start := 8; size_end := 8; calculation := demo_calc; alignment := 1 |}.
Proof.
  apply (fixed_addr_spec (P:=Dev)
    {| kind := Input; access_inputs := unsorted (A:=@Fake.FakeArch Dev) [SConst 0x1000 64; SConst 3 8];
       size_start := 8; size_end := 8; calculation := demo_calc; alignment := 1 |} demo_cpu demo_calc_wf eq_refl).
  repeat constructor.
Defined.
