(* ===== verification/ByteView.v ===== *)
(** * A byte view of a system state

    Models [liblisa/src/state/byteview.rs]: the registers and the memory
    accesses of a state (all but the first, which holds the instruction) as one
    sequence of bytes.  The bytes of the registers are numbered by the
    architecture; those of the accesses follow.  A callback [found] is modelled
    by the list of the bytes it is called with. *)
From stdpp Require Import sorting.
From S2P Require Import Prelude MachInt Utils Size Value Arch Locs Addr State StateFacts AddrComp Instruction Dataflows.
Import SizeOps AddrOps.

Section byteview.
Context {P : profile} {A : Arch}.

(** [SystemStateByteView] holds the memory accesses. *)
Record SystemStateByteView := { memory_accesses : MemoryAccesses }.
Inductive SystemStateByteViewReg := BReg (reg : Reg) | BMemory (access_index : nat) (size : Z).

Definition view_byte_size (self : SystemStateByteViewReg) : Z :=
  match self with BReg reg => byte_size reg | BMemory _ size => size end.
Definition view_is_flags (self : SystemStateByteViewReg) : bool :=
  match self with BReg reg => reg_is_flags reg | BMemory _ _ => false end.
Definition view_mask (self : SystemStateByteViewReg) : option Z :=
  match self with BReg reg => reg_mask reg | BMemory _ _ => None end.

Definition view_new (accesses : MemoryAccesses) : SystemStateByteView := {| memory_accesses := accesses |}.
(** The sizes of the accesses, and a [usize] sum of them. *)
Definition access_sizes (self : SystemStateByteView) : list Z := size_end <$> accesses (memory_accesses self).
Definition sum_usize (l : list Z) : M Z := foldl (λ s x, s ← s; add_u 64 s x) (Ok 0) l.
Definition view_size (self : SystemStateByteView) : M Z :=
  s ← sum_usize (drop 1 (access_sizes self)); add_u 64 cpu_size s.

(** The loop of [as_reg] over the accesses with their indices. *)
Fixpoint find_access (l : list (nat * Z)) (memory_index offset : Z) : M (SystemStateByteViewReg * Z) :=
  match l with
  | [] => Panic
  | (access_index, size) :: l =>
      e ← add_u 64 size offset;
      if memory_index <? e then
        i ← sub_u 64 memory_index offset;
        Ok (BMemory access_index size, i)
      else
        offset ← add_u 64 offset size;
        find_access l memory_index offset
  end.
Definition as_reg (self : SystemStateByteView) (byte : Z) : M (SystemStateByteViewReg * Z) :=
  match checked_sub_u 64 byte cpu_size with
  | Some memory_index => find_access (drop 1 (imap pair (access_sizes self))) memory_index 0
  | None => '(reg, index) ← state_byte_to_reg byte; Ok (BReg reg, index)
  end.
Definition reg_to_byte (self : SystemStateByteView) (reg : SystemStateByteViewReg) (byte : Z) : M Z :=
  match reg with
  | BReg reg => reg_to_state_byte reg byte
  | BMemory access_index _ =>
      n ← add_u 64 cpu_size byte;
      s ← sum_usize (drop 1 (take access_index (access_sizes self)));
      n ← add_u 64 n s;
      StateByte_new n
  end.
Definition arch_reg_to_reg (reg : Reg) : SystemStateByteViewReg := BReg reg.

Definition view_get (self : SystemStateByteView) (state : SystemState) (byte : Z) : M Z :=
  '(reg, offset) ← as_reg self byte;
  match reg with
  | BMemory access_index _ => d ← Mem.data (memory state) access_index; vget d (Z.to_nat offset)
  | BReg _ => get_state_byte (cpu state) byte
  end.
Definition view_set (self : SystemStateByteView) (state : SystemState) (byte value : Z) : M SystemState :=
  if byte <? cpu_size then c ← set_state_byte (cpu state) byte value; Ok (with_cpu state c)
  else
    '(reg, byte_index) ← as_reg self byte;
    match reg with
    | BMemory access_index _ =>
        m ← Mem.modify_data (memory state) access_index (λ bytes, vset bytes (Z.to_nat byte_index) value);
        Ok (with_memory state m)
    | BReg _ => Panic
    end.
Definition bytes_unequal (self : SystemStateByteView) (dest : Z) (a b : SystemState) : M bool :=
  if dest <? cpu_size then state_bytes_unequal (cpu a) dest (cpu b)
  else x ← view_get self a dest; y ← view_get self b dest; Ok (negb (x =? y)).
Definition bytes_equal (self : SystemStateByteView) (dest : Z) (a b : SystemState) : M bool :=
  r ← bytes_unequal self dest a b; Ok (negb r).

Definition view_get_reg (state : SystemState) (reg : SystemStateByteViewReg) : M Value :=
  match reg with
  | BReg reg => cpu_reg (cpu state) reg
  | BMemory access_index _ => d ← Mem.data (memory state) access_index; Ok (Bytes d)
  end.
Definition view_set_reg (state : SystemState) (reg : SystemStateByteViewReg) (value : Value) : M SystemState :=
  match reg with
  | BReg reg => set_reg state reg value
  | BMemory access_index _ =>
      match value with
      | Bytes bytes =>
          _ ← match P with
              | Dev => d ← Mem.data (memory state) access_index; rassert (length bytes =? length d)%nat
              | Release => Ok tt
              end;
          m ← Mem.set_data (memory state) access_index bytes;
          Ok (with_memory state m)
      | Num _ => Panic
      end
  end.
(** The closure on a mapping holds a slice of its bytes. *)
Definition view_modify_reg (state : SystemState) (reg : SystemStateByteViewReg) (modify : Value → M Value) : M SystemState :=
  match reg with
  | BReg reg => c ← cpu_modify_reg (cpu state) reg modify; Ok (with_cpu state c)
  | BMemory access_index _ =>
      m ← Mem.modify_data (memory state) access_index (λ b, v ← modify (Bytes b); unwrap_bytes v);
      Ok (with_memory state m)
  end.
Definition to_location (reg : SystemStateByteViewReg) : Location :=
  match reg with BReg reg => LReg reg | BMemory access_index _ => LMemory access_index end.

(** [iter().zip().enumerate().filter(|(_, (l, r))| l != r)]: the indices at
    which two byte strings differ. *)
Definition differing (l r : list Z) : list Z :=
  omap (λ '(i, (x, y)), if (x : Z) =? y then None else Some (Z.of_nat i)) (imap pair (zip l r)).
Fixpoint memory_differences (l : list (MemoryEntry * MemoryEntry)) (offset : Z) : M (list Z) :=
  match l with
  | [] => Ok []
  | (a, b) :: l =>
      debug_assert! (length (entry_data a) =? length (entry_data b))%nat;
      found ← mapM (λ i, n ← add_u 64 cpu_size offset; n ← add_u 64 n i; StateByte_new n) (differing (entry_data a) (entry_data b));
      offset ← add_u 64 offset (Z.of_nat (length (entry_data a)));
      rest ← memory_differences l offset;
      Ok (found ++ rest)
  end.
Definition view_find_differences (left right : SystemState) : M (list Z) :=
  a ← cpu_find_differences (cpu left) (cpu right);
  b ← memory_differences (drop 1 (zip (mem_data (memory left)) (mem_data (memory right)))) 0;
  Ok (a ++ b).

(** [AllRegsIter]: the registers, then the accesses from index 1 on. *)
Definition all_regs (self : SystemStateByteView) : list SystemStateByteViewReg :=
  (BReg <$> iter_regs) ++ ((λ '(i, size), BMemory i size) <$> drop 1 (imap pair (access_sizes self))).
Definition view_reg_type (reg : SystemStateByteViewReg) : ValueType :=
  match reg with BReg r => reg_type r | BMemory _ size => BytesType (Z.to_nat size) end.
Definition create_diff_mask (l : list Z) : M DiffMask :=
  cpu_create_diff_mask (List.filter (λ b, b <? cpu_size) l).
(** The states are pairs [(state_in, state_out)]; the bytes of one mapping in
    which either pair differs. *)
Definition io_differing (a_in a_out b_in b_out : list Z) : list Z :=
  omap (λ '(i, ((x, y), (z, w))), if ((x : Z) =? y) && ((z : Z) =? w) then None else Some (Z.of_nat i))
    (imap pair (zip (zip a_in a_out) (zip b_in b_out))).
Fixpoint memory_dataflows (l : list ((MemoryEntry * MemoryEntry) * (MemoryEntry * MemoryEntry))) (offset : Z) : M (list Z) :=
  match l with
  | [] => Ok []
  | ((a_in, a_out), (b_in, b_out)) :: l =>
      debug_assert! (length (entry_data b_in) =? length (entry_data b_out))%nat;
      found ← mapM (λ i, n ← add_u 64 cpu_size offset; n ← add_u 64 n i; StateByte_new n)
        (io_differing (entry_data a_in) (entry_data a_out) (entry_data b_in) (entry_data b_out));
      offset ← add_u 64 offset (Z.of_nat (length (entry_data b_in)));
      rest ← memory_dataflows l offset;
      Ok (found ++ rest)
  end.
Definition find_dataflows_masked (b a : SystemState * SystemState) (dest_diff_mask diff_mask : DiffMask) : M (list Z) :=
  x ← cpu_find_dataflows_masked (cpu b.1, cpu b.2) (cpu a.1, cpu a.2) dest_diff_mask diff_mask;
  y ← memory_dataflows
    (zip (drop 1 (zip (mem_data (memory a.1)) (mem_data (memory a.2))))
         (drop 1 (zip (mem_data (memory b.1)) (mem_data (memory b.2))))) 0;
  Ok (x ++ y).
Definition view_try_reg_to_gpreg (reg : SystemStateByteViewReg) : option GpReg :=
  match reg with BReg r => try_reg_to_gpreg r | BMemory _ _ => None end.
End byteview.

(** ** The numbering of the bytes *)

Section numbering.
Context {P : profile} {A : Arch}.

Definition total (l : list Z) : Z := foldr Z.add 0 l.
(** The sizes are [u64]s, the registers come first and every byte of the view
    has a number below [u32::MAX]. *)
Record view_wf (v : SystemStateByteView) : Prop := {
  wf_cpu_size : 0 <= cpu_size;
  wf_sizes : Forall (λ x, 0 <= x) (access_sizes v);
  wf_total : cpu_size + total (drop 1 (access_sizes v)) < 2 ^ 32;
}.

Lemma total_app l k : total (l ++ k) = total l + total k.
Proof. induction l as [|x l IH]; cbn; [done|]. unfold total in *. cbn. lia. Qed.
Lemma total_nonneg l : Forall (λ x, 0 <= x) l → 0 <= total l.
Proof. induction 1; cbn; [done|]. unfold total in *. lia. Qed.
Lemma sum_usize_ok l : Forall (λ x, 0 <= x) l → total l < 2 ^ 32 → sum_usize l = Ok (total l).
Proof.
  intros Hl Ht. unfold sum_usize. assert (∀ s, 0 <= s → s + total l < 2 ^ 32 →
    foldl (λ s x, s ← s; add_u 64 s x) (Ok s) l = Ok (s + total l)) as H; [|by rewrite H].
  clear Ht. induction Hl as [|x l Hx Hl IH]; intros s Hs Ht; [cbn; f_equal; lia|].
  pose proof (total_nonneg l Hl). cbn [foldl]. unfold total in Ht; cbn in Ht; fold (total l) in Ht.
  rewrite M_bind_Ok, add_u_ok by (unfold is_u; lia). rewrite IH by lia. f_equal. unfold total. cbn. lia.
Qed.
Lemma view_size_ok v : view_wf v → view_size v = Ok (cpu_size + total (drop 1 (access_sizes v))).
Proof.
  intros [Hc Hs Ht]. pose proof (Forall_drop _ 1 _ Hs) as Hd. pose proof (total_nonneg _ Hd). unfold view_size.
  rewrite sum_usize_ok, M_bind_Ok, add_u_ok by (done || lia || unfold is_u; lia). done.
Qed.

(** Byte [b] of the list entry after [pre] is found behind the bytes of [pre]. *)
Lemma find_access_at (pre : list (nat * Z)) : ∀ i size post b offset,
  Forall (λ p, 0 <= p.2) pre → 0 <= offset → 0 <= b < size → offset + total pre.*2 + size < 2 ^ 33 →
  find_access (pre ++ (i, size) :: post) (offset + total pre.*2 + b) offset = Ok (BMemory i size, b).
Proof.
  induction pre as [|[j s] pre IH]; intros i size post b offset Hp Ho Hb Ht; cbn [app find_access].
  - change (total ([] : list (nat * Z)).*2) with 0 in *. rewrite Z.add_0_r in *.
    rewrite (add_u_ok 64 size offset), M_bind_Ok by (unfold is_u; lia). case_cmp; [|lia].
    rewrite sub_u_ok, M_bind_Ok by (unfold is_u; lia). do 2 f_equal. lia.
  - apply Forall_cons in Hp as [Hs Hp]. cbn [fmap list_fmap fst snd] in *. change (total (s :: pre.*2)) with (s + total pre.*2) in *.
    assert (0 <= total pre.*2) by (apply total_nonneg; by apply Forall_fmap).
    rewrite (add_u_ok 64 s offset), M_bind_Ok by (unfold is_u; lia). case_cmp; [lia|].
    rewrite add_u_ok, M_bind_Ok by (unfold is_u; lia).
    replace (offset + (s + total pre.*2) + b) with (offset + s + total pre.*2 + b) by lia. apply IH; (done || lia).
Qed.
(** Conversely, every byte below the total is in some entry. *)
Lemma find_access_total (l : list (nat * Z)) : ∀ m offset, Forall (λ p, 0 <= p.2) l → 0 <= offset → offset <= m < offset + total l.*2 →
  ∃ pre i size post, l = pre ++ (i, size) :: post ∧ offset + total pre.*2 <= m < offset + total pre.*2 + size.
Proof.
  induction l as [|[i s] l IH]; intros m offset Hl Ho Hm; [cbn in Hm; lia|].
  apply Forall_cons in Hl as [Hs Hl]. cbn [fmap list_fmap fst snd] in *. change (total (s :: l.*2)) with (s + total l.*2) in *.
  destruct (Z.lt_ge_cases m (offset + s)) as [H|H].
  - exists [], i, s, l. split; [done|]. cbn. lia.
  - destruct (IH m (offset + s)) as (pre & j & size & post & -> & Hr); [done|lia|lia|].
    exists ((i, s) :: pre), j, size, post. split; [done|]. cbn [fmap list_fmap snd].
    change (total (s :: pre.*2)) with (s + total pre.*2). lia.
Qed.

Lemma imap_pair_snd {T} (l : list T) : (imap pair l).*2 = l.
Proof. apply list_eq. intros i. rewrite list_lookup_fmap, list_lookup_imap. by destruct (l !! i). Qed.
(** The accesses before access [i], without the first. *)
Lemma split_access (sizes : list Z) i size : sizes !! i = Some size → (1 <= i)%nat →
  ∃ pre post, drop 1 (imap pair sizes) = pre ++ (i, size) :: post ∧ pre.*2 = drop 1 (take i sizes).
Proof.
  intros Hi H1. exists (drop 1 (take i (imap pair sizes))), (drop (S i) (imap pair sizes)).
  assert (imap pair sizes !! i = Some (i, size)) as HL by (rewrite list_lookup_imap, Hi; done).
  pose proof (lookup_lt_Some _ _ _ Hi). split.
  - rewrite <- (take_drop_middle _ _ _ HL) at 1. rewrite drop_app_le; [done|]. rewrite length_take, length_imap. lia.
  - by rewrite fmap_drop, fmap_take, imap_pair_snd.
Qed.
Lemma StateByte_new_ok n : 0 <= n < 2 ^ 32 - 1 → StateByte_new n = Ok n.
Proof.
  intros Hn. unfold StateByte_new. assert (debug_assert (n <? 2 ^ 32 - 1) = Ok tt) as ->.
  { rewrite (proj2 (Z.ltb_lt _ _)) by lia. by destruct P. }
  rewrite M_bind_Ok, wrap_small by (unfold is_u; lia). done.
Qed.
Lemma total_drop_take (sizes : list Z) i size : Forall (λ x, 0 <= x) sizes → sizes !! i = Some size → (1 <= i)%nat →
  0 <= total (drop 1 (take i sizes)) ∧ 0 <= size ∧ total (drop 1 (take i sizes)) + size <= total (drop 1 sizes).
Proof.
  intros Hs Hi H1. pose proof (lookup_lt_Some _ _ _ Hi). split_and!.
  - by apply total_nonneg, Forall_drop, Forall_take.
  - by apply (Forall_lookup_1 _ _ _ _ Hs Hi).
  - rewrite <- (take_drop_middle _ _ _ Hi) at 2. rewrite drop_app_le, total_app by (rewrite length_take; lia).
    cbn. change (foldr Z.add 0 ?l) with (total l). pose proof (total_nonneg _ (Forall_drop _ (S i) _ Hs)). lia.
Qed.

(** Byte [b] of access [i] has a number in the view that names it. *)
Lemma reg_to_byte_ok v i size b : view_wf v → access_sizes v !! i = Some size → (1 <= i)%nat → 0 <= b < size →
  ∃ n, reg_to_byte v (BMemory i size) b = Ok n ∧
    n = cpu_size + total (drop 1 (take i (access_sizes v))) + b ∧
    cpu_size <= n < cpu_size + total (drop 1 (access_sizes v)) ∧ as_reg v n = Ok (BMemory i size, b).
Proof.
  intros [Hc Hs Ht] Hi H1 Hb. destruct (total_drop_take _ _ _ Hs Hi H1) as (Hp & Hsz & Hle).
  eexists. split; [|split; [reflexivity|]].
  - unfold reg_to_byte. rewrite add_u_ok, M_bind_Ok by (unfold is_u; lia).
    rewrite sum_usize_ok, M_bind_Ok by (try lia; by apply Forall_drop, Forall_take).
    rewrite add_u_ok, M_bind_Ok by (unfold is_u; lia). rewrite StateByte_new_ok by lia. f_equal. lia.
  - split; [lia|]. unfold as_reg, checked_sub_u. rewrite bool_decide_true by (unfold is_u; lia).
    destruct (split_access _ _ _ Hi H1) as (pre & post & -> & Epre).
    replace (cpu_size + total (drop 1 (take i (access_sizes v))) + b - cpu_size) with (0 + total pre.*2 + b) by (rewrite Epre; lia).
    apply find_access_at; [|lia|lia|rewrite Epre; lia].
    apply (Forall_fmap snd (λ x, 0 <= x)). rewrite Epre. by apply Forall_drop, Forall_take.
Qed.
End numbering.

(** Both directions of the numbering. *)
Lemma numbering_ok {P : profile} {A : Arch} v : view_wf v →
  ∃ size, view_size v = Ok size ∧
  (∀ i sz b, access_sizes v !! i = Some sz → (1 <= i)%nat → 0 <= b < sz →
     ∃ n, reg_to_byte v (BMemory i sz) b = Ok n ∧ cpu_size <= n < size ∧ as_reg v n = Ok (BMemory i sz, b)) ∧
  (∀ n, cpu_size <= n < size → ∃ i sz b, as_reg v n = Ok (BMemory i sz, b) ∧ access_sizes v !! i = Some sz ∧
     (1 <= i)%nat ∧ 0 <= b < sz ∧ reg_to_byte v (BMemory i sz) b = Ok n).
Proof.
  intros Hv. pose proof Hv as [Hc Hs Ht]. eexists. split; [by apply view_size_ok|]. split.
  - intros i sz b Hi H1 Hb. destruct (reg_to_byte_ok v i sz b Hv Hi H1 Hb) as (n & E & _ & Hn & Ea). by exists n.
  - intros n Hn. destruct (find_access_total (drop 1 (imap pair (access_sizes v))) (n - cpu_size) 0)
      as (pre & i & sz & post & E & Hr); [| lia | |].
    + apply (Forall_fmap snd (λ x, 0 <= x)). rewrite fmap_drop, imap_pair_snd. by apply Forall_drop.
    + rewrite fmap_drop, imap_pair_snd. lia.
    + assert (drop 1 (imap pair (access_sizes v)) !! length pre = Some (i, sz)) as Hl
        by (rewrite E, lookup_app_r, Nat.sub_diag by lia; done).
      rewrite lookup_drop, list_lookup_imap in Hl. destruct (access_sizes v !! (1 + length pre)%nat) as [s|] eqn:Es; [|done].
      cbn in Hl. injection Hl as <- <-. set (b := n - cpu_size - total pre.*2).
      assert (pre.*2 = drop 1 (take (S (length pre)) (access_sizes v))) as Epre.
      { destruct (split_access _ _ _ Es) as (pre' & post' & E' & Ep); [lia|]. change (1 + length pre)%nat with (S (length pre)) in *.
        rewrite <- Ep. f_equal. rewrite E in E'. apply app_inj_1 in E' as [-> _]; [done|].
        apply (f_equal length) in Ep. rewrite length_fmap, length_drop, length_take in Ep. pose proof (lookup_lt_Some _ _ _ Es). lia. }
      destruct (reg_to_byte_ok v (S (length pre)) s b Hv Es ltac:(lia) ltac:(unfold b; lia)) as (m & Em & Eq & _ & Ea).
      assert (m = n) as -> by (rewrite Eq, <- Epre; unfold b; lia).
      exists (S (length pre)), s, b. split_and!; [done..|lia|unfold b; lia|unfold b; lia|done].
Qed.

(** C32: The view numbers the bytes of the accesses without gaps or clashes:
    [reg_to_byte] and [as_reg] are inverse to each other between the bytes of
    all accesses but the first and the numbers from the size of the registers to
    the size of the view. *)
Theorem byte_numbering {P : profile} {A : Arch} v : view_wf v →
  ∃ size, view_size v = Ok size ∧
  (∀ i sz b, access_sizes v !! i = Some sz → (1 <= i)%nat → 0 <= b < sz →
     ∃ n, reg_to_byte v (BMemory i sz) b = Ok n ∧ cpu_size <= n < size ∧ as_reg v n = Ok (BMemory i sz, b)) ∧
  (∀ n, cpu_size <= n < size → ∃ i sz b, as_reg v n = Ok (BMemory i sz, b) ∧ access_sizes v !! i = Some sz ∧
     (1 <= i)%nat ∧ 0 <= b < sz ∧ reg_to_byte v (BMemory i sz) b = Ok n).
Proof. apply numbering_ok. Qed.
Definition demo_view : SystemStateByteView (A:=@Fake.FakeArch Dev) :=
  view_new {| instr := {| data := []; len := 0 |};
              accesses := (λ n, {| kind := Input; access_inputs := unsorted []; size_start := n; size_end := n;
                                   calculation := Calc.unscaled_sum 0; alignment := 1 |}) <$> [15; 4; 8];
              accesses_use_trap_flag := false |}.
Lemma demo_view_wf : view_wf demo_view.
Proof. split; [cbn; lia | repeat constructor; cbn; lia | reflexivity]. Qed.
Lemma byte_numbering_witness : ∃ size, view_size (P:=Dev) demo_view = Ok size ∧ size = 140.
Proof.
  destruct (@byte_numbering Dev _ demo_view demo_view_wf) as (size & E & _). exists size. split; [exact E|].
  vm_compute in E. injection E as <-. reflexivity.
Defined.

(** ** Reading and writing bytes *)

Section bytes.
Context {P : profile} {A : Arch}.

(** The mappings of the state are as long as the accesses of the view. *)
Definition view_matches (v : SystemStateByteView) (s : SystemState) : Prop :=
  Forall2 (λ sz e, Z.of_nat (length (entry_data e)) = sz) (access_sizes v) (mem_data (memory s)).

Lemma view_get_memory v s n i sz b e : as_reg v n = Ok (BMemory i sz, b) → mem_data (memory s) !! i = Some e →
  view_get v s n = vget (entry_data e) (Z.to_nat b).
Proof.
  intros Ea He. unfold view_get. rewrite Ea, M_bind_Ok. unfold Mem.data, Mem.get. by rewrite (proj2 (vget_Ok_inv _ _ _) He).
Qed.

(** Writing a byte of a memory access changes that byte of the view and no
    other, and neither registers nor the layout. *)
Theorem view_set_spec v s n value size : view_wf v → view_matches v s → view_size v = Ok size → cpu_size <= n < size →
  ∃ s', view_set v s n value = Ok s' ∧ view_get v s' n = Ok value ∧ cpu s' = cpu s ∧ view_matches v s' ∧
    ∀ m, cpu_size <= m < size → m ≠ n → view_get v s' m = view_get v s m.
Proof.
  intros Hv Hm Esz Hn. destruct (numbering_ok v Hv) as (size' & E' & _ & Hnum). rewrite Esz in E'. injection E' as <-.
  destruct (Hnum n Hn) as (i & sz & b & Ea & Hi & H1 & Hb & Er).
  destruct (Forall2_lookup_l _ _ _ _ _ Hm Hi) as (e & He & Hlen).
  pose proof (lookup_lt_Some _ _ _ He) as Hlt.
  exists (with_memory s (Mem.from_vec (<[i := Mem.with_data e (<[Z.to_nat b := value]> (entry_data e))]> (mem_data (memory s))))).
  assert (∀ m j sz' b', as_reg v m = Ok (BMemory j sz', b') → i ≠ j → 
    view_get v (with_memory s (Mem.from_vec (<[i := Mem.with_data e (<[Z.to_nat b := value]> (entry_data e))]> (mem_data (memory s))))) m =
    view_get v s m) as Hother.
  { intros m j sz' b' Em Hne. unfold view_get. rewrite Em, !M_bind_Ok. unfold Mem.data, Mem.get, vget.
    cbn [with_memory memory Mem.from_vec mem_data]. by rewrite list_lookup_insert_ne. }
  split_and!.
  - unfold view_set. case_cmp; [lia|]. rewrite Ea, M_bind_Ok. unfold Mem.modify_data, Mem.get.
    rewrite (proj2 (vget_Ok_inv _ _ _) He).
    rewrite M_bind_Ok, vset_lt, M_bind_Ok, vset_lt, !M_bind_Ok by lia. done.
  - rewrite (view_get_memory v _ n i sz b (Mem.with_data e (<[Z.to_nat b := value]> (entry_data e)))); [|done|].
    + unfold vget. cbn [Mem.with_data entry_data]. by rewrite list_lookup_insert_eq by lia.
    + cbn. by rewrite list_lookup_insert_eq.
  - done.
  - apply Forall2_same_length_lookup_2; [cbn; rewrite length_insert; by apply Forall2_length in Hm|].
    intros j x y Hx Hy. cbn in Hy. destruct (decide (j = i)) as [->|].
    + rewrite list_lookup_insert_eq in Hy by done. injection Hy as <-. cbn. rewrite length_insert. rewrite Hi in Hx. by injection Hx as <-.
    + rewrite list_lookup_insert_ne in Hy by done. by apply (Forall2_lookup_lr _ _ _ _ _ _ Hm Hx Hy).
  - intros m Hmr Hne. destruct (Hnum m Hmr) as (j & sz' & b' & Ea' & Hj & _ & Hb' & Er').
    destruct (decide (j = i)) as [->|Hji]; [|by eapply Hother].
    rewrite Hi in Hj. injection Hj as <-. assert (b' ≠ b) by congruence.
    rewrite (view_get_memory v s m i sz b' e) by done.
    rewrite (view_get_memory v _ m i sz b' (Mem.with_data e (<[Z.to_nat b := value]> (entry_data e)))); [|done|].
    + unfold vget. cbn [Mem.with_data entry_data]. rewrite list_lookup_insert_ne by lia. done.
    + cbn. by rewrite list_lookup_insert_eq.
Qed.
End bytes.
Definition demo_view_state : SystemState (A:=@Fake.FakeArch Dev) :=
  state_new (A:=@Fake.FakeArch Dev) Fake.state_default
    (Mem.new ((λ n, {| entry_addr := 0; entry_perms := Read; entry_data := replicate n 0 |}) <$> [15%nat; 4%nat; 8%nat])).
Lemma view_set_witness : ∃ s', view_set (P:=Dev) demo_view demo_view_state 135 7 = Ok s' ∧
  view_get (P:=Dev) demo_view s' 135 = Ok 7.
Proof.
  destruct (@view_set_spec Dev _ demo_view demo_view_state 135 7 140 demo_view_wf) as (s' & E & G & _).
  - repeat constructor.
  - reflexivity.
  - cbn. lia.
  - exists s'. split; [exact E | exact G].
Defined.
