(* ===== verification/SplitDests.v ===== *)
(** * Splitting destinations

    Models [liblisa/src/state/split_dests.rs]: the destinations an instruction
    writes are cut, location by location, into chunks that do not overlap, so
    that every destination is a union of chunks.  The [HashMap] from locations
    to chunks is an association list with one entry per location; its iteration
    order is not specified.  Log messages are not modelled. *)
From stdpp Require Import sorting.
From S2P Require Import Prelude MachInt Utils Size Value Arch Locs Bitmap BitmapFacts Growing GrowingFacts.
Import SizeOps.

Section split.
Context {P : profile}.

(** The chunks of one existing chunk: its overlap with [size], then the parts
    of it before and after. *)
Definition split_existing (size existing_size : Size) : M (list Size) :=
  r ← split_by_overlap size existing_size;
  match r with
  | Some (before, overlapping, after) =>
      Ok (overlapping :: List.filter (λ item, contains existing_size item) (omap id [before; after]))
  | None => Ok [existing_size]
  end.
(** The first loop: the chunks and the bytes that are covered. *)
Fixpoint split_all (size : Size) (existing_sizes : list Size) (covered : GrowingBitmap) : M (list Size * GrowingBitmap) :=
  match existing_sizes with
  | [] => Ok ([], covered)
  | e :: existing_sizes =>
      stop ← add_u 64 (end_byte e) 1;
      covered ← Growing.set_range covered (Z.to_nat (start_byte e)) (Z.to_nat stop);
      l ← split_existing size e;
      '(k, covered) ← split_all size existing_sizes covered;
      Ok (l ++ k, covered)
  end.
(** [take_while(|&b| !b).count()]. *)
Fixpoint count_false (l : list bool) : nat :=
  match l with false :: l => S (count_false l) | _ => 0%nat end.
(** The second loop: the runs of uncovered bytes of [size]. *)
Fixpoint uncovered (fuel : nat) (covered : GrowingBitmap) (index end_ : Z) : M (list Size) :=
  match fuel with
  | O => OutOfFuel
  | S fuel =>
      if index <=? end_ then
        if negb (Growing.get covered (Z.to_nat index)) then
          bits ← Growing.iter covered;
          stop ← add_u 64 end_ 1;
          n ← sub_u 64 stop index;
          let num := Z.of_nat (count_false (take (Z.to_nat n) (drop (Z.to_nat index) bits))) in
          e ← add_u 64 index num;
          e' ← sub_u 64 e 1;
          l ← uncovered fuel covered e end_;
          Ok (new index e' :: l)
        else
          i ← add_u 64 index 1;
          uncovered fuel covered i end_
      else Ok []
  end.
Definition split_sizes (existing_sizes : list Size) (size : Size) : M (list Size) :=
  n ← add_u 64 (end_byte size) 1;
  '(l, covered) ← split_all size existing_sizes (Growing.new_all_zeros (Z.to_nat n));
  k ← uncovered (S (Z.to_nat n)) covered (start_byte size) (end_byte size);
  Ok (l ++ k).

Context {A : Arch}.
Record SplitDests := { split_outputs : list (Location * list Size) }.
Definition split_new : SplitDests := {| split_outputs := [] |}.
(** [HashMap::get] and [remove] followed by [insert]. *)
Definition chunks (self : SplitDests) (location : Location) : option (list Size) :=
  snd <$> (snd <$> list_find (λ p, p.1 = location) (split_outputs self)).
Definition with_chunks (self : SplitDests) (location : Location) (sizes : list Size) : SplitDests :=
  {| split_outputs := (location, sizes) :: List.filter (λ p, negb (bool_decide (p.1 = location))) (split_outputs self) |}.
Definition split (self : SplitDests) (dest : Dest) : M SplitDests :=
  let location := location_from_dest dest in
  l ← split_sizes (default [] (chunks self location)) (dest_size dest);
  Ok (with_chunks self location l).
(** [get]: a chunk that overlaps the destination only partly fails the
    assertion. *)
Fixpoint get_chunks (loc : Dest) (l : list Size) : M (list Dest) :=
  match l with
  | [] => Ok []
  | size :: l =>
      if contains (dest_size loc) size then k ← get_chunks loc l; Ok (dest_with_size loc size :: k)
      else assert! negb (overlaps (dest_size loc) size); get_chunks loc l
  end.
Definition split_get (self : SplitDests) (loc : Dest) : M (list Dest) :=
  get_chunks loc (default [] (chunks self (location_from_dest loc))).
Definition split_iter (self : SplitDests) : list Dest :=
  '(loc, sizes) ← split_outputs self; into_dest_with_size loc <$> sizes.
End split.

(** ** Chunks *)

Definition apart (s t : Size) : Prop := ∀ i, ~ (has s i ∧ has t i).
(** Byte [i] is in some chunk. *)
Definition covers_byte (l : list Size) (i : Z) : Prop := ∃ c, c ∈ l ∧ has c i.
(** Chunks that do not overlap. *)
Record chunks_wf (l : list Size) : Prop := {
  wf_chunks : Forall size_wf l;
  wf_apart : ForallOrdPairs apart l;
}.
(** [t] is a union of chunks: its bytes are covered, and no chunk crosses its
    border. *)
Record union_of (l : list Size) (t : Size) : Prop := {
  union_covered i : has t i → covers_byte l i;
  union_whole c : c ∈ l → (∀ i, has c i → has t i) ∨ apart c t;
}.

Lemma covers_app l k i : covers_byte (l ++ k) i ↔ covers_byte l i ∨ covers_byte k i.
Proof. unfold covers_byte. set_solver. Qed.
Lemma covers_nil i : covers_byte [] i ↔ False.
Proof. unfold covers_byte. set_solver. Qed.
Lemma covers_cons c l i : covers_byte (c :: l) i ↔ has c i ∨ covers_byte l i.
Proof. unfold covers_byte. set_solver. Qed.
Lemma apart_cover l k : (∀ i, ~ (covers_byte l i ∧ covers_byte k i)) → ∀ c d, c ∈ l → d ∈ k → apart c d.
Proof. intros H c d Hc Hd i [Hi Hj]. apply (H i). split; eexists; eauto. Qed.
Lemma chunks_wf_app l k : chunks_wf l → chunks_wf k → (∀ i, ~ (covers_byte l i ∧ covers_byte k i)) → chunks_wf (l ++ k).
Proof.
  intros [Hl Hl'] [Hk Hk'] Hd. split; [by apply Forall_app|]. pose proof (apart_cover l k Hd) as Hdis. clear Hd Hl Hk.
  induction Hl' as [|c l Hc Hl' IH]; [done|]. cbn. constructor.
  - apply Forall_app. split; [done|]. apply Forall_forall. intros d Hdk. apply Hdis; [left|done].
  - apply IH. intros x y Hx Hy. apply Hdis; [by right|done].
Qed.

Lemma chunks_wf_nil : chunks_wf [].
Proof. split; constructor. Qed.
Lemma chunks_wf_cons c l : size_wf c → (∀ i, ~ (has c i ∧ covers_byte l i)) → chunks_wf l → chunks_wf (c :: l).
Proof.
  intros Hc Hd [Hl Hp]. split; [by apply Forall_cons|]. constructor; [|done]. apply Forall_forall.
  intros d Hdl i [Hi Hj]. apply (Hd i). split; [done|]. by exists d.
Qed.

(** Chunks given by their bounds: every condition is linear. *)
Ltac chunk_solve :=
  split; [repeat (apply chunks_wf_cons; [split; cbn [start_byte end_byte]; lia
                 | intros i; rewrite ?covers_cons, ?covers_nil; unfold has; cbn [start_byte end_byte]; lia |]);
          apply chunks_wf_nil|];
  split; [intros i; rewrite ?covers_cons, ?covers_nil; unfold has; cbn [start_byte end_byte]; lia|];
  intros c Hc; rewrite ?elem_of_cons, ?elem_of_nil in Hc;
  repeat (destruct Hc as [->|Hc]); try done;
  unfold has, apart, has; cbn [start_byte end_byte];
  first [left; intros i; lia | right; intros i; lia].

Section facts.
Context {P : profile}.

Lemma split_existing_ok s e : size_wf s → size_wf e →
  ∃ l, split_existing s e = Ok l ∧ chunks_wf l ∧ (∀ i, covers_byte l i ↔ has e i) ∧
    ∀ c, c ∈ l → (∀ i, has c i → has s i) ∨ apart c s.
Proof.
  intros [S1 S2 S3] [E1 E2 E3]. unfold split_existing, split_by_overlap, overlapping_area, union, new.
  cbn [start_byte end_byte]. destruct s as [s1 s2], e as [e1 e2]. cbn [start_byte end_byte] in *.
  destruct (Z.leb_spec (Z.max s1 e1) (Z.min s2 e2)).
  2: { rewrite M_bind_Ok. eexists. split; [done|]. chunk_solve. }
  cbn [start_byte end_byte]. destruct (Z.ltb_spec (Z.min s1 e1) (Z.max s1 e1)), (Z.ltb_spec (Z.min s2 e2) (Z.max s2 e2));
    rewrite ?sub_u_ok, ?add_u_ok, ?M_bind_Ok by (unfold is_u; lia); unfold contains; cbn [omap list_omap id List.filter start_byte end_byte];
    repeat (case_cmp; try lia); cbn [andb]; (eexists; split; [done|]); chunk_solve.
Qed.

(** *** The bytes that are covered *)

Lemma holds_new_all_zeros n : holds (Growing.new_all_zeros n) (replicate n false).
Proof.
  unfold Growing.new_all_zeros. split; cbn [Growing.data Growing.len]; rewrite ?length_replicate.
  - apply Forall_replicate. unfold is_u. lia.
  - done.
  - pose proof (Nat.div_mod n 64 ltac:(lia)). pose proof (Nat.mod_upper_bound n 64 ltac:(lia)). lia.
  - intros i. pose proof (word_bit_zeros [] (n / 64 + 1) i) as E. cbn [app] in E. rewrite E, bit_at_replicate. unfold word_bit. rewrite lookup_nil. apply Z.testbit_0_l.
Qed.
Lemma each_set_eq k : ∀ b l n, holds b l → ∃ b' l', Growing.each_bit Growing.set b (seq n k) = Ok b' ∧ holds b' l' ∧
  (length l <= length l')%nat ∧ ∀ i, bit_at l' i = (n <=? i)%nat && (i <? n + k)%nat || bit_at l i.
Proof.
  induction k as [|k IH]; intros b l n H; cbn [seq Growing.each_bit].
  - exists b, l. split_and!; [done..|]. intros i. case_cmps; try lia; done.
  - destruct (set_eq b l n H) as (b1 & E & H1 & _). rewrite E, M_bind_Ok.
    destruct (IH b1 _ (S n) H1) as (b' & l' & E' & H' & Hl & Hb). exists b', l'. split_and!; [done..| |].
    + rewrite length_insert, length_pad in Hl. lia.
    + intros i. rewrite Hb, bit_at_insert, bit_at_pad by (rewrite length_pad; lia). case_cmps; try lia; done.
Qed.
(** Every byte of [s] below the end of [l] is a bit of [l]. *)
Lemma split_all_ok s k : size_wf s → Forall size_wf k → ForallOrdPairs apart k → ∀ b l, holds b l →
  ∃ k' b' l', split_all s k b = Ok (k', b') ∧ holds b' l' ∧ (length l <= length l')%nat ∧ chunks_wf k' ∧
    (∀ i, covers_byte k' i ↔ covers_byte k i) ∧
    (∀ c, c ∈ k' → (∀ i, has c i → has s i) ∨ apart c s) ∧
    (∀ c, c ∈ k' → ∃ e, e ∈ k ∧ ∀ i, has c i → has e i) ∧
    (∀ i, 0 <= i → bit_at l' (Z.to_nat i) = true ↔ covers_byte k i ∨ bit_at l (Z.to_nat i) = true).
Proof.
  intros Hs Hk Ha. induction Hk as [|e k He Hk IH]; intros b l H; cbn [split_all].
  - exists [], b, l. split; [done|]. split; [done|]. split; [done|].
    split; [apply chunks_wf_nil|]. split; [done|]. split; [set_solver|]. split; [set_solver|].
    intros i _. rewrite covers_nil. tauto.
  - inversion Ha as [|? ? Hae Hak]; subst. specialize (IH Hak). destruct He as [E1 E2 E3].
    rewrite (add_u_ok 64 (end_byte e) 1), M_bind_Ok by (unfold is_u; lia). unfold Growing.set_range.
    destruct (each_set_eq (Z.to_nat (end_byte e + 1) - Z.to_nat (start_byte e)) b l (Z.to_nat (start_byte e)) H) as (b1 & l1 & -> & H1 & L1 & B1).
    rewrite M_bind_Ok. destruct (split_existing_ok s e Hs ltac:(by split)) as (k1 & -> & W1 & C1 & U1). rewrite M_bind_Ok.
    destruct (IH b1 l1 H1) as (k2 & b2 & l2 & -> & H2 & L2 & W2 & C2 & U2 & S2 & B2). rewrite M_bind_Ok.
    exists (k1 ++ k2), b2, l2. split_and!; [done|done|lia| | | | |].
    + apply chunks_wf_app; [done..|]. intros i. rewrite C1, C2. intros [Hi (d & Hd & Hj)].
      rewrite Forall_forall in Hae. by apply (Hae d Hd i).
    + intros i. by rewrite covers_app, covers_cons, C1, C2.
    + intros c [Hc|Hc]%elem_of_app; eauto.
    + intros c [Hc|Hc]%elem_of_app.
      * exists e. split; [left|]. intros i Hi. apply C1. by exists c.
      * destruct (S2 c Hc) as (d & Hd & Hi). exists d. split; [by right|done].
    + intros i Hi. rewrite B2, B1, covers_cons, orb_true_iff, andb_true_iff, Nat.leb_le, Nat.ltb_lt by done. unfold has.
      split; intros; destruct_or?; naive_solver lia.
Qed.

(** *** The runs of uncovered bytes *)

Lemma count_false_spec l :
  (∀ i, (i < count_false l)%nat → l !! i = Some false) ∧ (count_false l <= length l)%nat ∧
  (count_false l = length l ∨ l !! count_false l = Some true).
Proof.
  induction l as [|[] l (IH1 & IH2 & IH3)]; cbn [count_false length].
  - split_and!; [lia|lia|by left].
  - split_and!; [lia|lia|by right].
  - split_and!; [|lia|]; [|destruct IH3 as [->|IH3]; [by left|by right]].
    intros [|i] Hi; [done|]. apply IH1. lia.
Qed.
Lemma uncovered_ok b l end_ : holds b l → end_ + 1 < 2 ^ 64 → end_ < Z.of_nat (length l) → ∀ fuel index,
  0 <= index → (Z.to_nat (end_ + 1 - index) < fuel)%nat →
  ∃ k, uncovered fuel b index end_ = Ok k ∧ chunks_wf k ∧
    ∀ i, covers_byte k i ↔ index <= i <= end_ ∧ bit_at l (Z.to_nat i) = false.
Proof.
  intros H He Hl. induction fuel as [|fuel IH]; intros index Hi Hf; [lia|]. cbn [uncovered].
  destruct (Z.leb_spec index end_).
  2: { exists []. split_and!; [done|apply chunks_wf_nil|]. intros i. rewrite covers_nil. lia. }
  rewrite (get_eq b l _ H). destruct (bit_at l (Z.to_nat index)) eqn:Eb; cbn [negb].
  - rewrite (add_u_ok 64 index 1), M_bind_Ok by (unfold is_u; lia).
    destruct (IH (index + 1)) as (k & -> & W & C); [lia|lia|]. exists k. split_and!; [done..|]. intros i. rewrite C.
    destruct (decide (i = index)) as [->|]; [rewrite Eb; naive_solver lia|]. naive_solver lia.
  - rewrite (iter_eq b l H), M_bind_Ok, (add_u_ok 64 end_ 1), M_bind_Ok by (unfold is_u; lia).
    rewrite (sub_u_ok 64 (end_ + 1) index), M_bind_Ok by (unfold is_u; lia).
    set (run := take _ _). destruct (count_false_spec run) as (F1 & F2 & F3). set (n := count_false run) in *.
    assert (length run = Z.to_nat (end_ + 1 - index)) as Hlen by (subst run; rewrite length_take, length_drop; lia).
    assert (∀ j, (j < length run)%nat → run !! j = Some (bit_at l (Z.to_nat index + j))) as Hrun.
    { intros j Hj. subst run. rewrite lookup_take_lt by lia. rewrite lookup_drop. unfold bit_at.
      destruct (lookup_lt_is_Some_2 l (Z.to_nat index + j)) as [x Hx]; [rewrite length_take, length_drop in Hj; lia|]. by rewrite Hx. }
    assert (0 < n)%nat.
    { destruct (decide (n = 0%nat)) as [E|]; [|lia]. rewrite E in F3. destruct F3 as [F3|F3]; [lia|].
      rewrite Hrun in F3 by lia. rewrite Nat.add_0_r in F3. congruence. }
    rewrite (add_u_ok 64 index (Z.of_nat n)), M_bind_Ok by (unfold is_u; lia).
    rewrite (sub_u_ok 64 (index + Z.of_nat n) 1), M_bind_Ok by (unfold is_u; lia).
    destruct (IH (index + Z.of_nat n)) as (k & -> & W & C); [lia|lia|]. rewrite M_bind_Ok.
    eexists. split; [done|]. split.
    + apply chunks_wf_cons; [split; cbn; lia| |done]. intros i [Hi1 Hi2%C]. unfold has in Hi1. cbn in Hi1. lia.
    + intros i. rewrite covers_cons, C. unfold has. cbn [new start_byte end_byte]. split; [intros [Hc|Hc]; [|split; [lia|tauto]]|].
      * split; [lia|]. specialize (F1 (Z.to_nat (i - index)) ltac:(lia)). rewrite Hrun in F1 by lia. injection F1 as F1.
        rewrite <- F1. f_equal. lia.
      * intros [Hr Hb]. destruct (decide (i < index + Z.of_nat n)); [lia|]. right. split; [lia|done].
Qed.

(** *** Sizes *)

Lemma split_sizes_ok k s : size_wf s → chunks_wf k →
  ∃ k', split_sizes k s = Ok k' ∧ chunks_wf k' ∧ (∀ i, covers_byte k' i ↔ covers_byte k i ∨ has s i) ∧
    union_of k' s ∧ ∀ t, union_of k t → union_of k' t.
Proof.
  intros [S1 S2 S3] [Hk Ha]. unfold split_sizes. rewrite (add_u_ok 64 (end_byte s) 1), M_bind_Ok by (unfold is_u; lia).
  pose proof (holds_new_all_zeros (Z.to_nat (end_byte s + 1))) as H0.
  destruct (split_all_ok s k ltac:(by split) Hk Ha _ _ H0) as (k1 & b & l & -> & H & L & W1 & C1 & U1 & P1 & B1). rewrite M_bind_Ok.
  rewrite length_replicate in L.
  destruct (uncovered_ok b l (end_byte s) H S3 ltac:(lia) (S (Z.to_nat (end_byte s + 1))) (start_byte s) S1 ltac:(lia)) as (k2 & -> & W2 & C2).
  rewrite M_bind_Ok.
  assert (∀ i, covers_byte k2 i ↔ has s i ∧ ~ covers_byte k i) as C2'.
  { intros i. rewrite C2. unfold has. split; intros [Hi Hb]; (split; [done|]).
    - intros Hc. rewrite (proj2 (B1 i ltac:(lia)) (or_introl Hc)) in Hb. done.
    - destruct (bit_at l (Z.to_nat i)) eqn:E; [|done]. apply B1 in E as [E|E]; [done|by rewrite bit_at_replicate in E|lia]. }
  assert (∀ i, covers_byte (k1 ++ k2) i ↔ covers_byte k i ∨ has s i) as C.
  { intros i. rewrite covers_app, C1, C2'. split; [tauto|]. intros [|Hi]; [tauto|].
    destruct (bit_at l (Z.to_nat i)) eqn:E.
    - unfold has in Hi. apply B1 in E as [E|E]; [tauto|by rewrite bit_at_replicate in E|lia].
    - right. apply C2'. apply C2. unfold has in Hi. done. }
  eexists. split; [done|]. split_and!.
  - apply chunks_wf_app; [done..|]. intros i. rewrite C1, C2'. tauto.
  - done.
  - split; [intros i Hi; apply C; by right|]. intros c [Hc|Hc]%elem_of_app; [by apply U1|].
    left. intros i Hi. apply C2'. by exists c.
  - intros t [T1 T2]. split; [intros i Hi; apply C; left; by apply T1|]. intros c [Hc|Hc]%elem_of_app.
    + destruct (P1 c Hc) as (e & He & Hi). destruct (T2 e He) as [He'|He']; [left; eauto|].
      right. intros i [Hc1 Hc2]. apply (He' i). eauto.
    + right. intros i [Hc1 Hc2]. assert (covers_byte k2 i) as Hx by by exists c. apply C2' in Hx. apply Hx. by apply T1.
Qed.
End facts.

(** ** Sequences of destinations *)

Section sequence.
Context {P : profile} {A : Arch}.

Fixpoint split_each (self : SplitDests) (ds : list Dest) : M SplitDests :=
  match ds with
  | [] => Ok self
  | d :: ds => self ← split self d; split_each self ds
  end.
Definition chunks_of (self : SplitDests) (l : Location) : list Size := default [] (chunks self l).
(** The chunks of every location do not overlap, and each of the destinations
    [ds] is a union of chunks. *)
Record splits (self : SplitDests) (ds : list Dest) : Prop := {
  splits_wf l : chunks_wf (chunks_of self l);
  splits_cover l i : covers_byte (chunks_of self l) i ↔ ∃ d, d ∈ ds ∧ has_byte d l i;
  splits_union d : d ∈ ds → union_of (chunks_of self (location_from_dest d)) (dest_size d);
}.

Lemma chunks_with self l k l' : chunks_of (with_chunks self l k) l' = if decide (l' = l) then k else chunks_of self l'.
Proof.
  unfold chunks_of, chunks, with_chunks. cbn [split_outputs list_find]. destruct (decide (l' = l)) as [->|Hl].
  { cbn. by rewrite decide_True. }
  cbn. rewrite decide_False by done. f_equal. induction (split_outputs self) as [|[l0 k0] os IH]; [done|]. cbn.
  case_bool_decide as E; cbn.
  - subst l0. rewrite (decide_False (P := l = l')) by congruence. rewrite IH. by destruct (list_find _ os) as [[? ?]|].
  - case_decide; [done|]. destruct (list_find _ (List.filter _ os)) as [[? ?]|], (list_find _ os) as [[? ?]|]; naive_solver.
Qed.
Lemma split_keeps self ds d : splits self ds → dest_wf d → ∃ self', split self d = Ok self' ∧ splits self' (d :: ds).
Proof.
  intros [H1 H2 H3] Hd. unfold split. fold (chunks_of self (location_from_dest d)).
  destruct (split_sizes_ok _ (dest_size d) Hd (H1 (location_from_dest d))) as (k & -> & W & C & U & T). rewrite M_bind_Ok.
  eexists. split; [done|]. split.
  - intros l. rewrite chunks_with. by case_decide.
  - intros l i. rewrite chunks_with. case_decide as E; [subst l; rewrite C|]; rewrite H2; unfold has_byte; split.
    + intros [(e & ? & ?)|]; [exists e; split; [by right|done] | exists d; split; [left|done]].
    + intros (e & [->|He]%elem_of_cons & ?); [by right; tauto|]. left. by exists e.
    + intros (e & ? & ?). exists e. split; [by right|done].
    + intros (e & [->|He]%elem_of_cons & ?); [by destruct_and?|]. by exists e.
  - intros e He. rewrite chunks_with. case_decide as E.
    + apply elem_of_cons in He as [->|He]; [done|]. apply T. rewrite <- E. by apply H3.
    + apply elem_of_cons in He as [->|He]; [done|]. by apply H3.
Qed.
Lemma splits_new : splits split_new [].
Proof.
  split; [intros; apply chunks_wf_nil| |set_solver]. intros l i. cbn. rewrite covers_nil. set_solver.
Qed.
Lemma split_each_keeps ds : ∀ self es, splits self es → Forall dest_wf ds →
  ∃ self', split_each self ds = Ok self' ∧ splits self' (reverse ds ++ es).
Proof.
  induction ds as [|d ds IH]; intros self es H Hw; cbn [split_each]; [by exists self|].
  apply Forall_cons in Hw as [Hd Hw]. destruct (split_keeps self es d H Hd) as (s1 & -> & H1). rewrite M_bind_Ok.
  destruct (IH s1 _ H1 Hw) as (s2 & E & H2). exists s2. split; [done|]. rewrite reverse_cons, <- app_assoc. done.
Qed.

Lemma get_chunks_ok d k : dest_wf d → Forall size_wf k → (∀ c, c ∈ k → (∀ i, has c i → has (dest_size d) i) ∨ apart c (dest_size d)) →
  get_chunks d k = Ok (dest_with_size d <$> List.filter (contains (dest_size d)) k).
Proof.
  intros Hd Hk Hc. induction Hk as [|c k Hcw Hk IH]; [done|]. cbn [get_chunks List.filter].
  rewrite IH by (intros; apply Hc; by right).
  destruct (contains _ c) eqn:E; [done|]. destruct (overlaps _ c) eqn:Eo; [|done].
  exfalso. destruct (size_set_semantics _ _ Hd Hcw) as (S1 & S2 & _).
  destruct (Hc c ltac:(left)) as [Hi|Hi]; [by rewrite (proj2 S1 Hi) in E|].
  apply S2 in Eo as (i & ? & ?). by apply (Hi i).
Qed.
Lemma apart_filter f k : ForallOrdPairs apart k → ForallOrdPairs apart (List.filter f k).
Proof.
  induction 1 as [|c k Hc Hk IH]; cbn; [constructor|]. destruct (f c); [|done]. constructor; [|done].
  rewrite Forall_forall in *. intros x [Hx _]%list_elem_of_In%List.filter_In. apply Hc. by apply list_elem_of_In.
Qed.

(** C15: after any sequence of destinations, which never fails, every one of them
    is cut into chunks that do not overlap and cover exactly its bytes, and the
    assertion of [get] holds; a chunk belongs to a destination as a whole or not
    at all, so two destinations share chunks exactly where they overlap; the
    chunks of a location cover exactly the bytes of its destinations. *)
Theorem split_dests_spec ds : Forall dest_wf ds →
  ∃ self, split_each split_new ds = Ok self ∧
  (∀ l i, covers_byte (chunks_of self l) i ↔ ∃ d, d ∈ ds ∧ has_byte d l i) ∧
  ∀ d, d ∈ ds → ∃ k, split_get self d = Ok (dest_with_size d <$> k) ∧ chunks_wf k ∧
    (∀ i, covers_byte k i ↔ has (dest_size d) i) ∧
    ∀ c, c ∈ chunks_of self (location_from_dest d) → c ∉ k → apart c (dest_size d).
Proof.
  intros Hw. destruct (split_each_keeps ds split_new [] splits_new Hw) as (self & E & [H1 H2 H3]).
  exists self. split; [done|]. split.
  { intros l i. rewrite H2. setoid_rewrite app_nil_r. by setoid_rewrite elem_of_reverse. }
  intros d Hd. assert (dest_wf d) as Hdw by (rewrite Forall_forall in Hw; by apply Hw).
  destruct (H3 d) as [U1 U2]; [by rewrite app_nil_r, elem_of_reverse|]. destruct (H1 (location_from_dest d)) as [W1 W2].
  assert (∀ c, c ∈ chunks_of self (location_from_dest d) → contains (dest_size d) c = true ↔ ∀ i, has c i → has (dest_size d) i) as Hcon.
  { intros c Hc. rewrite Forall_forall in W1. by apply size_set_semantics; [|apply W1]. }
  assert (∀ c, c ∈ List.filter (contains (dest_size d)) (chunks_of self (location_from_dest d)) ↔
    c ∈ chunks_of self (location_from_dest d) ∧ contains (dest_size d) c = true) as Hf.
  { intros c. by rewrite list_elem_of_In, List.filter_In, <- list_elem_of_In. }
  eexists. split; [by apply get_chunks_ok|]. split_and!.
  - split; [|by apply apart_filter]. apply Forall_forall. intros c [Hc _]%Hf. rewrite Forall_forall in W1. by apply W1.
  - intros i. split.
    + intros (c & [Hc Hc']%Hf & Hi). by apply (Hcon c Hc).
    + intros Hi. destruct (U1 i Hi) as (c & Hc & Hci). exists c. split; [|done]. apply Hf. split; [done|]. apply Hcon; [done|].
      destruct (U2 c Hc) as [|Ha]; [done|]. by destruct (Ha i).
  - intros c Hc Hn. destruct (U2 c Hc) as [Hi|]; [|done]. destruct Hn. apply Hf. split; [done|]. by apply Hcon.
Qed.
End sequence.

(** The example in the documentation of [SplitDests]. *)
#[local] Definition demo_dest (a b : Z) : Dest (A:=@Fake.FakeArch Dev) := DReg (A:=@Fake.FakeArch Dev) Fake.R1 (new a b).
Lemma split_dests_witness : ∃ self,
  split_each (P:=Dev) (A:=@Fake.FakeArch Dev) split_new [demo_dest 0 3; demo_dest 2 5] = Ok self ∧
  split_get (A:=@Fake.FakeArch Dev) self (demo_dest 2 5) = Ok [demo_dest 2 3; demo_dest 4 5] ∧
  covers_byte (chunks_of self (LReg (A:=@Fake.FakeArch Dev) Fake.R1)) 4.
Proof.
  destruct (split_dests_spec (P:=Dev) (A:=@Fake.FakeArch Dev) [demo_dest 0 3; demo_dest 2 5]) as (self & E & C & _).
  - apply Forall_cons; split; [|apply Forall_cons; split; [|apply Forall_nil; exact I]];
      (split; cbn [dest_size demo_dest new start_byte end_byte]; lia).
  - exists self. split; [exact E|]. split.
    + assert (split_each (P:=Dev) (A:=@Fake.FakeArch Dev) split_new [demo_dest 0 3; demo_dest 2 5] =
        Ok {| split_outputs := [(LReg (A:=@Fake.FakeArch Dev) Fake.R1, [new 2 3; new 0 1; new 4 5])] |}) as E' by reflexivity.
      rewrite E in E'. apply (inj Ok) in E'. rewrite E'. reflexivity.
    + apply C. exists (demo_dest 2 5). split; [right; left|]. split; [reflexivity|]. split; cbn [dest_size demo_dest new start_byte end_byte]; lia.
Defined.
