(* ===== verification/BitPattern.v ===== *)
(** * Bit patterns of encodings

    Models [liblisa/src/encoding/bitpattern/mod.rs]: the purpose of every bit of an
    encoding, and the parts, whose value selects a register, an address
    computation or an immediate value. *)
From S2P Require Import Prelude MachInt Utils Size Value Addr Arch Locs State AddrComp Dataflows.

Definition MAX_PARTS : nat := 32.

(** [Bit::Part], [Bit::Fixed] and [Bit::DontCare]. *)
Inductive Bit := BPart (n : nat) | BFixed (v : Z) | BDontCare.
#[export] Instance Bit_eq_dec : EqDecision Bit.
Proof. solve_decision. Defined.
Definition unwrap_fixed (self : Bit) : M Z := match self with BFixed n => Ok n | _ => Panic end.
Definition bit_part_index (self : Bit) : option nat := match self with BPart index => Some index | _ => None end.

Inductive PartValue := Valid | Invalid.
#[export] Instance PartValue_eq_dec : EqDecision PartValue.
Proof. solve_decision. Defined.
Definition is_valid (self : PartValue) : bool := bool_decide (self = Valid).
Definition is_invalid (self : PartValue) : bool := bool_decide (self = Invalid).

Inductive ImmBitOrder := Positive (bit : nat) | Negative (bit : nat).
#[export] Instance ImmBitOrder_eq_dec : EqDecision ImmBitOrder.
Proof. solve_decision. Defined.
Definition as_offset {P : profile} (self : ImmBitOrder) (source_bit : Z) : M Z :=
  match self with
  | Positive bit => shl_u 64 source_bit (Z.of_nat bit)
  | Negative bit => x ← shl_u 64 source_bit (Z.of_nat bit); Ok (wrapping_add (not_u 64 x) 1)
  end.

Inductive MappingOrBitOrder := Mapping (l : list PartValue) | BitOrder (l : list ImmBitOrder).
#[export] Instance MappingOrBitOrder_eq_dec : EqDecision MappingOrBitOrder.
Proof. solve_decision. Defined.

(** [ImmBit::Is0], [Is1] and [Fill]. *)
Inductive ImmBit := ImmIs0 | ImmIs1 | ImmFill.
#[export] Instance ImmBit_eq_dec : EqDecision ImmBit.
Proof. solve_decision. Defined.
Definition ImmBits := list ImmBit.
Fixpoint interpret_bits {P : profile} (bits : ImmBits) (index : nat) (data result : Z) : M Z :=
  match bits with
  | [] => Ok result
  | bit :: bits =>
      let '(val, data) := match bit with
                          | ImmIs0 => (0, data)
                          | ImmIs1 => (1, data)
                          | ImmFill => (Z.land data 1, Z.shiftr data 1)
                          end in
      x ← shl_u 64 val (Z.of_nat index);
      interpret_bits bits (S index) data (Z.lor result x)
  end.
Definition interpret_value {P : profile} (self : ImmBits) (value : Z) : M Z := interpret_bits self 0 value 0.

Section parts.
Context {A : Arch}.

(** [PartMapping::Imm], [MemoryComputation] and [Register]. *)
Inductive PartMapping :=
  | PImm (mapping : option MappingOrBitOrder) (locations : list FlowInputLocation) (bits : option ImmBits)
  | PMemory (mapping : list (option AddressComputation)) (memory_indexes : list nat)
  | PRegister (mapping : list (option Reg)) (locations : list FlowValueLocation).
Record Part := { part_size : nat; part_value : Z; part_mapping : PartMapping }.
#[export] Instance PartMapping_eq_dec : EqDecision PartMapping.
Proof. solve_decision. Defined.
#[export] Instance Part_eq_dec : EqDecision Part.
Proof. solve_decision. Defined.

Definition register_mapping (self : PartMapping) : option (list (option Reg)) :=
  match self with PRegister mapping _ => Some mapping | _ => None end.
(** [mapping.iter().any(Option::is_none)]. *)
Definition any_none {X} (l : list (option X)) : bool := existsb (λ o, bool_decide (o = None)) l.
Definition all_none {X} (l : list (option X)) : bool := forallb (λ o, bool_decide (o = None)) l.
Definition some_indices {X} (l : list (option X)) : list nat :=
  fst <$> List.filter (λ '(_, item), bool_decide (is_Some item)) (imap pair l).
Definition valid_indices (l : list PartValue) : list nat :=
  fst <$> List.filter (λ '(_, item), is_valid item) (imap pair l).
Definition valid_values (self : PartMapping) : option (list nat) :=
  match self with
  | PImm (Some (Mapping mapping)) _ _ => if existsb is_invalid mapping then Some (valid_indices mapping) else None
  | PMemory mapping _ => if any_none mapping then Some (some_indices mapping) else None
  | PRegister mapping _ => if any_none mapping then Some (some_indices mapping) else None
  | _ => None
  end.
Definition first_valid_value (self : PartMapping) : M Z :=
  match valid_values self with
  | Some l => n ← vget l 0; Ok (Z.of_nat n)
  | None => Ok 0
  end.
Definition value_is_valid (self : PartMapping) (val : Z) : M bool :=
  match self with
  | PImm (Some (Mapping mapping)) _ _ =>
      if existsb is_invalid mapping then v ← vget mapping (Z.to_nat val); Ok (is_valid v) else Ok true
  | PMemory mapping _ =>
      if any_none mapping then o ← vget mapping (Z.to_nat val); Ok (bool_decide (is_Some o)) else Ok true
  | PRegister mapping _ =>
      if any_none mapping then o ← vget mapping (Z.to_nat val); Ok (bool_decide (is_Some o)) else Ok true
  | _ => Ok true
  end.
End parts.
