(* ===== verification/Encoding.v ===== *)
(** * Encodings

    Models the part of [liblisa/src/encoding/mod.rs] that relates an encoding to
    the instructions it covers: part values and instructions, bit patterns as
    filters, prefixes, overlapping outputs, and the integrity check.
    Instantiation is in Instantiate, the transformations of encodings in
    EncTransform.  Log and error messages are not modelled. *)
From stdpp Require Import gmap.
From S2P Require Import Prelude MachInt Utils Size Value Addr Arch Locs State AddrComp Dataflows Instruction Filter BitPattern.
Import SizeOps.

Record WriteOrdering := { wo_part_values : list (option Z); output_index_order : list nat }.
#[export] Instance WriteOrdering_eq_dec : EqDecision WriteOrdering.
Proof. solve_decision. Defined.

Inductive IntegrityError :=
  | UnknownPartInOutputImm (output_index : nat)
  | UnknownPartInAddrImm (memory_index : nat)
  | PartHasNoValidMapping (part_index : nat)
  | MappingDoesNotMatchPartSize (part_index mapping_entries part_bits : nat)
  | PartSizeDoesNotMatchBits (part_index : nat).

Section encoding.
Context {P : profile} {A : Arch} {C : Type}.

Record Encoding := {
  enc_bits : list Bit;
  errors : list bool;
  enc_parts : list Part;
  enc_dataflows : Dataflows C;
  write_ordering : list WriteOrdering;
}.
Definition enc_instr (self : Encoding) : Instruction := dataflows_instr (enc_dataflows self).

(** ** Part values and instructions *)

(** The number of bits from the start that are [kind]. *)
Fixpoint count_kind (kind : Bit) (bits : list Bit) : nat :=
  match bits with
  | b :: bits => if bool_decide (b = kind) then S (count_kind kind bits) else 0%nat
  | [] => 0%nat
  end.
(** [*part_value >>= num_matching]. *)
Definition shift_part (part_value : Z) (num_matching : nat) : M Z :=
  match Nat.compare num_matching 64 with
  | Lt => Ok (Z.shiftr part_value (Z.of_nat num_matching))
  | Eq => Ok 0
  | Gt => Panic
  end.
(** The [while] loop of [part_values_to_instr]: a run of at least eight bits of
    one part that starts at a byte is written byte by byte. *)
Fixpoint fill_parts (fuel : nat) (bits : list Bit) (index : nat) (new_instr : Instruction) (shift_values : list (option Z)) :
    M (Instruction * list (option Z)) :=
  match fuel with
  | O => OutOfFuel
  | S fuel =>
      match bits !! index with
      | None => Ok (new_instr, shift_values)
      | Some (BPart n as kind) =>
          part_value ← vget shift_values n;
          match part_value with
          | Some part_value =>
              let num_matching := (count_kind kind (drop (index + 1) bits) + 1)%nat in
              if ((index `mod` 8 =? 0) && (8 <=? num_matching))%nat then
                let num_matching := (num_matching / 8 * 8)%nat in
                new_instr ← Instr.set_multiple_bits_from_right new_instr index part_value num_matching;
                part_value ← shift_part part_value num_matching;
                shift_values ← vset shift_values n (Some part_value);
                fill_parts fuel bits (index + num_matching) new_instr shift_values
              else
                new_instr ← Instr.set_nth_bit_from_right new_instr index (Z.land (wrap 8 part_value) 1);
                shift_values ← vset shift_values n (Some (Z.shiftr part_value 1));
                fill_parts fuel bits (index + 1) new_instr shift_values
          | None => fill_parts fuel bits (index + 1) new_instr shift_values
          end
      | Some _ => fill_parts fuel bits (index + 1) new_instr shift_values
      end
  end.
(** [collect::<ArrayVec<_, MAX_PARTS>>] panics when there are more. *)
Definition part_values_to_instr (self : Encoding) (part_values : list (option Z)) : M Instruction :=
  assert! (length part_values <=? MAX_PARTS)%nat;
  '(new_instr, shift_values) ← fill_parts (S (length (enc_bits self))) (enc_bits self) 0 (enc_instr self) part_values;
  if existsb (λ v, match v with Some v => negb (v =? 0) | None => false end) shift_values then Panic else Ok new_instr.
Definition unchecked_instr (self : Encoding) (part_values : list Z) : M Instruction :=
  assert! (length part_values <=? MAX_PARTS)%nat;
  part_values_to_instr self (Some <$> part_values).

(** The same loop without the [Option]. *)
Fixpoint fill_all_parts (fuel : nat) (bits : list Bit) (index : nat) (new_instr : Instruction) (shift_values : list Z) :
    M (Instruction * list Z) :=
  match fuel with
  | O => OutOfFuel
  | S fuel =>
      match bits !! index with
      | None => Ok (new_instr, shift_values)
      | Some (BPart n as kind) =>
          part_value ← vget shift_values n;
          let num_matching := (count_kind kind (drop (index + 1) bits) + 1)%nat in
          if ((index `mod` 8 =? 0) && (8 <=? num_matching))%nat then
            let num_matching := (num_matching / 8 * 8)%nat in
            new_instr ← Instr.set_multiple_bits_from_right new_instr index part_value num_matching;
            part_value ← shift_part part_value num_matching;
            shift_values ← vset shift_values n part_value;
            fill_all_parts fuel bits (index + num_matching) new_instr shift_values
          else
            new_instr ← Instr.set_nth_bit_from_right new_instr index (Z.land (wrap 8 part_value) 1);
            shift_values ← vset shift_values n (Z.shiftr part_value 1);
            fill_all_parts fuel bits (index + 1) new_instr shift_values
      | Some _ => fill_all_parts fuel bits (index + 1) new_instr shift_values
      end
  end.
Definition all_part_values_to_instr (self : Encoding) (part_values : list Z) : M Instruction :=
  assert! (length part_values <=? MAX_PARTS)%nat;
  '(new_instr, shift_values) ← fill_all_parts (S (length (enc_bits self))) (enc_bits self) 0 (enc_instr self) part_values;
  if existsb (λ v, negb (v =? 0)) shift_values then Panic else Ok new_instr.

(** [extract_parts]: the part values and, for every part, the index of its next bit. *)
Fixpoint extract_loop (instr : Instruction) (bits : list Bit) (bit_index : nat) (parts : list Z) (part_indices : list nat) : M (list Z) :=
  match bits with
  | [] => Ok parts
  | bit :: bits =>
      match bit with
      | BPart n =>
          b ← Instr.nth_bit_from_right instr bit_index;
          k ← vget part_indices n;
          v ← vget parts n;
          x ← shl_u 64 b (Z.of_nat k);
          parts ← vset parts n (Z.lor v x);
          part_indices ← vset part_indices n (k + 1)%nat;
          extract_loop instr bits (bit_index + 1) parts part_indices
      | BFixed v =>
          b ← Instr.nth_bit_from_right instr bit_index;
          assert! b =? v;
          extract_loop instr bits (bit_index + 1) parts part_indices
      | BDontCare => extract_loop instr bits (bit_index + 1) parts part_indices
      end
  end.
Definition extract_parts (self : Encoding) (instr : Instruction) : M (list Z) :=
  assert! (Instr.bit_len instr =? length (enc_bits self))%nat;
  extract_loop instr (enc_bits self) 0 (replicate (length (enc_parts self)) 0) (replicate (length (enc_parts self)) 0%nat).

Definition part_bit_indices (self : Encoding) (part_index : nat) : list nat :=
  fst <$> List.filter (λ '(_, bit), bool_decide (bit = BPart part_index)) (imap pair (enc_bits self)).
(** [value_bits], and [part_size], which counts in the same way. *)
Definition value_bits (self : Encoding) (n : nat) : nat := length (List.filter (λ b, bool_decide (b = BPart n)) (enc_bits self)).
Definition num_wildcard_bits (self : Encoding) : nat :=
  length (List.filter (λ b, match b with BFixed _ => false | _ => true end) (enc_bits self)).
Definition num_dontcare_bits (self : Encoding) : nat := length (List.filter (λ b, bool_decide (b = BDontCare)) (enc_bits self)).

(** ** Filters and prefixes *)

Fixpoint set_filter_bits (f : InstructionFilter) (index : nat) (bits : list Bit) : M InstructionFilter :=
  match bits with
  | [] => Ok f
  | bit :: bits =>
      f ← match bit with
          | BFixed v =>
              if v =? 0 then Filter.set_nth_bit_from_right f index Is0
              else if v =? 1 then Filter.set_nth_bit_from_right f index Is1
              else Panic
          | BDontCare | BPart _ => Ok f
          end;
      set_filter_bits f (index + 1) bits
  end.
Definition bitpattern_as_filter (self : Encoding) : M InstructionFilter :=
  b ← BF.new 0 0;
  f ← Filter.new (replicate (Instr.byte_len (enc_instr self)) b);
  set_filter_bits f 0 (enc_bits self).

(** [prefix_matches]: the loop over the bits from the left, [None] for the early
    return; [k] counts down the bits that each part still misses. *)
Fixpoint prefix_loop (instr : Instruction) (bits : list Bit) (index : nat) (k part_values : list Z) : M (option (list Z * list Z)) :=
  match bits with
  | [] => Ok (Some (k, part_values))
  | bit :: bits =>
      instr_bit ← Instr.nth_bit_from_left instr index;
      match bit with
      | BFixed fixed_bit =>
          if negb (fixed_bit =? instr_bit) then Ok None else prefix_loop instr bits (index + 1) k part_values
      | BDontCare => prefix_loop instr bits (index + 1) k part_values
      | BPart part_index =>
          v ← vget part_values part_index;
          c ← vget k part_index;
          c ← sub_u 64 c 1;
          k ← vset k part_index c;
          x ← shl_u 64 instr_bit c;
          part_values ← vset part_values part_index (Z.lor v x);
          prefix_loop instr bits (index + 1) k part_values
      end
  end.
(** Some entry of the mapping that [keep] selects has the value under the mask. *)
Definition any_matching {X} (keep : X → bool) (mapping : list X) (mask val : Z) : bool :=
  existsb (λ '(index, _), Z.land (Z.of_nat index) mask =? val) (List.filter (λ '(_, x), keep x) (imap pair mapping)).
Definition part_prefix_ok (part : Part) (val mask : Z) : bool :=
  match part_mapping part with
  | PImm mapping _ _ =>
      match mapping with
      | Some (Mapping mapping) => any_matching is_invalid mapping mask val
      | Some (BitOrder _) => true
      | None => true
      end
  | PMemory mapping _ => any_matching (λ o, bool_decide (is_Some o)) mapping mask val
  | PRegister mapping _ => any_matching (λ o, bool_decide (is_Some o)) mapping mask val
  end.
Fixpoint all_prefix_ok (l : list (Part * (Z * Z))) : M bool :=
  match l with
  | [] => Ok true
  | (part, (val, k)) :: l =>
      m ← bitmask_u64 (wrap 32 k);
      if part_prefix_ok part val (not_u 64 m) then all_prefix_ok l else Ok false
  end.
Definition prefix_matches (self : Encoding) (instr : Instruction) (num_bits_to_check : nat) : M bool :=
  r ← prefix_loop instr (take num_bits_to_check (reverse (enc_bits self))) 0
        (Z.of_nat ∘ part_size <$> enc_parts self) (replicate (length (enc_parts self)) 0);
  match r with
  | None => Ok false
  | Some (k, part_values) => all_prefix_ok (zip (enc_parts self) (zip part_values k))
  end.
(** ** Overlapping outputs *)

(** The first register mapping that is used at [loc]. *)
Definition register_part_at (parts : list Part) (loc : FlowValueLocation) : option (list (option Reg)) :=
  head (omap (λ p, match part_mapping p with
                   | PRegister mapping locations => if bool_decide (loc ∈ locations) then Some mapping else None
                   | _ => None
                   end) parts).
Definition output_overlaps (self : Encoding) (target_ : Dest) (output_index : nat) (output : Dataflow C) : bool :=
  if dest_overlaps (target output) target_ then true
  else if overlaps (dest_size (target output)) (dest_size target_) then
    match register_part_at (enc_parts self) (VOutput output_index) with
    | Some mapping => match target_ with DReg reg _ => bool_decide (Some reg ∈ mapping) | DMem _ _ => false end
    | None => false
    end
  else false.
(** A [HashSet] of indices. *)
Definition find_overlapping_for (self : Encoding) (target_ : Dest) : gset nat :=
  list_to_set (fst <$> List.filter (λ '(output_index, output), output_overlaps self target_ output_index output)
                                   (imap pair (outputs (enc_dataflows self)))).
Definition overlapping_of (self : Encoding) (output_index : nat) (output : Dataflow C) : gset nat :=
  match register_part_at (enc_parts self) (VOutput output_index) with
  | Some mapping => ⋃ ((λ reg, find_overlapping_for self (DReg reg (dest_size (target output)))) <$> omap id mapping)
  | None => find_overlapping_for self (target output)
  end.
Definition overlapping_outputs (self : Encoding) : list (nat * gset nat) :=
  List.filter (λ '(_, overlapping), (1 <? base.size overlapping)%nat)
    (imap (λ output_index output, (output_index, overlapping_of self output_index output)) (outputs (enc_dataflows self))).

(** ** Properties of an encoding *)

Definition covers_some_instr (self : Encoding) : bool :=
  forallb (λ part, match part_mapping part with
                   | PRegister mapping _ => negb (all_none mapping)
                   | PImm (Some (Mapping mapping)) _ _ => negb (forallb is_invalid mapping)
                   | _ => true
                   end) (enc_parts self).
Definition all_outputs_have_computations (self : Encoding) : bool :=
  forallb (λ o, bool_decide (is_Some (computation o))) (outputs (enc_dataflows self)).
Definition with_dataflows (self : Encoding) (d : Dataflows C) : Encoding :=
  {| enc_bits := enc_bits self; errors := errors self; enc_parts := enc_parts self; enc_dataflows := d;
     write_ordering := write_ordering self |}.
Definition with_computation_of (flow : Dataflow C) (c : option C) : Dataflow C :=
  {| target := target flow; flow_inputs := flow_inputs flow; computation := c;
     unobservable_external_inputs := unobservable_external_inputs flow |}.
Definition set_computation (self : Encoding) (index : nat) (c : C) : M Encoding :=
  flow ← vget (outputs (enc_dataflows self)) index;
  os ← vset (outputs (enc_dataflows self)) index (with_computation_of flow (Some c));
  Ok (with_dataflows self (with_outputs (enc_dataflows self) os)).

(** [Iterator::position]. *)
Definition find_index {X} (p : X → bool) (l : list X) : option nat := fst <$> list_find (λ x, p x = true) l.
Definition unknown_imm (self : Encoding) (inputs : Inputs) : bool :=
  existsb (λ s, match s with SImm n => bool_decide (enc_parts self !! n = None) | _ => false end) (Locs.inputs inputs).
(** The check of one part: [None] for no error. *)
Definition check_mapping {X} (part_index size : nat) (mapping : list (option X)) : M (option IntegrityError) :=
  n ← shl_u 64 1 (Z.of_nat size);
  if negb (Z.of_nat (length mapping) =? n) then Ok (Some (MappingDoesNotMatchPartSize part_index (length mapping) size))
  else if all_none mapping then Ok (Some (PartHasNoValidMapping part_index))
  else Ok None.
Definition check_part (self : Encoding) (part_index : nat) (part : Part) : M (option IntegrityError) :=
  if negb (part_size part =? value_bits self part_index)%nat then Ok (Some (PartSizeDoesNotMatchBits part_index))
  else match part_mapping part with
       | PImm (Some (Mapping mapping)) _ _ =>
           if forallb is_invalid mapping then Ok (Some (PartHasNoValidMapping part_index)) else Ok None
       | PImm (Some (BitOrder bit_order)) _ _ =>
           if negb (length bit_order =? part_size part)%nat
           then Ok (Some (MappingDoesNotMatchPartSize part_index (length bit_order) (part_size part)))
           else Ok None
       | PImm None _ _ => Ok None
       | PMemory mapping _ => check_mapping part_index (part_size part) mapping
       | PRegister mapping _ => check_mapping part_index (part_size part) mapping
       end.
Fixpoint check_parts (self : Encoding) (part_index : nat) (parts : list Part) : M (option IntegrityError) :=
  match parts with
  | [] => Ok None
  | part :: parts =>
      e ← check_part self part_index part;
      match e with
      | Some e => Ok (Some e)
      | None => check_parts self (part_index + 1) parts
      end
  end.
Definition integrity_check (self : Encoding) : M (option IntegrityError) :=
  match find_index (λ flow, unknown_imm self (flow_inputs flow)) (outputs (enc_dataflows self)) with
  | Some index => Ok (Some (UnknownPartInOutputImm index))
  | None =>
      match find_index (λ access, unknown_imm self (access_inputs access)) (accesses (addresses (enc_dataflows self))) with
      | Some index => Ok (Some (UnknownPartInAddrImm index))
      | None => check_parts self 0 (enc_parts self)
      end
  end.

Definition part_of_bit (self : Encoding) (bit : Bit) (f : PartMapping → bool) : M bool :=
  match bit with
  | BPart n => part ← vget (enc_parts self) n; Ok (f (part_mapping part))
  | _ => Ok false
  end.
Definition is_bit_involved_with_address_reg_or_computation (self : Encoding) (bit : Bit) : M bool :=
  part_of_bit self bit (λ m, match m with
                             | PImm _ _ _ => false
                             | PMemory _ _ => true
                             | PRegister _ locations => existsb Loc.is_address locations
                             end).
Definition is_bit_involved_with_dataflow_reg (self : Encoding) (bit : Bit) : M bool :=
  part_of_bit self bit (λ m, match m with
                             | PRegister _ locations => existsb (λ loc, negb (Loc.is_address loc)) locations
                             | _ => false
                             end).
Definition is_bit_imm (self : Encoding) (bit : Bit) : M bool :=
  part_of_bit self bit (λ m, match m with PImm _ _ _ => true | _ => false end).
Definition is_bit_dataflow_imm (self : Encoding) (bit : Bit) : M bool :=
  part_of_bit self bit (λ m, match m with
                             | PImm _ locations _ => existsb (λ loc, match loc with InputForOutput _ _ => true | _ => false end) locations
                             | _ => false
                             end).
Definition part_locations (m : PartMapping) : list FlowValueLocation :=
  match m with
  | PImm _ locations _ => Loc.from_input <$> locations
  | PRegister _ locations => locations
  | PMemory _ _ => []
  end.
Definition part_value_locations (self : Encoding) : list (nat * FlowValueLocation) :=
  mjoin (imap (λ part_index part, (λ loc, (part_index, loc)) <$> part_locations (part_mapping part)) (enc_parts self)).

(** ** Values for immediates *)

(** [fill_value_imms]: [values] is the set of parts to fill. *)
Fixpoint fill_value_loop (all bits : list Bit) (index : nat) (values : gset nat) (base : list Z) (choices : list Z) : M (list Z) :=
  match bits with
  | [] => Ok choices
  | bit :: bits =>
      match bit with
      | BPart n =>
          if bool_decide (n ∈ values) then
            b ← vget base n;
            choices ← (if (6 <=? length (List.filter (λ b, bool_decide (b = bit)) all))%nat then
                         c ← vget choices n;
                         x ← shl_u 64 (Z.lxor 1 (Z.land (Z.of_nat index) 1)) b;
                         vset choices n (Z.lor c x)
                       else if b <=? 1 then
                         c ← vget choices n;
                         x ← shl_u 64 1 b;
                         vset choices n (Z.lor c x)
                       else Ok choices);
            base ← vset base n (b + 1);
            fill_value_loop all bits (index + 1) values base choices
          else fill_value_loop all bits (index + 1) values base choices
      | _ => fill_value_loop all bits (index + 1) values base choices
      end
  end.
Definition clear_choices (choices : list Z) (values : list nat) : M (list Z) :=
  foldl (λ c index, c ← c; vset c index 0) (Ok choices) values.
Definition fill_value_imms (self : Encoding) (choices : list Z) (values : gset nat) : M (list Z) :=
  choices' ← clear_choices choices (elements values);
  fill_value_loop (enc_bits self) (enc_bits self) 0 values (replicate (length choices) 0) choices'.
Definition addr_imm (count : nat) : M Z :=
  match Nat.compare count 3 with
  | Lt => Ok 0
  | Eq => Ok 2
  | Gt => shl_u 64 3 (Z.of_nat (count / 2))
  end.
Definition fill_addr_imms (self : Encoding) (choices : list Z) (values : gset nat) : M (list Z) :=
  foldl (λ c index, c ← c; x ← addr_imm (value_bits self index); vset c index x) (Ok choices) (elements values).
End encoding.
Arguments Encoding {A} C.

(** [Encoding::map_computations]. *)
Definition enc_map_computations {A : Arch} {C CNew} (self : Encoding C) (f : Inputs → C → option CNew) : Encoding CNew :=
  {| enc_bits := enc_bits self; errors := errors self; enc_parts := enc_parts self;
     enc_dataflows := dataflows_map_computations (enc_dataflows self) f; write_ordering := write_ordering self |}.
