(* ===== verification/EncodingFacts.v ===== *)
(** * Encodings and the instructions they cover

    Part values and instructions are inverse to each other: writing part values
    changes exactly the bits of the parts, each part taking its bits from the
    lowest on, and extracting the parts reads them back.  The loop that writes
    whole bytes is the loop that writes bits. *)
From stdpp Require Import gmap.
From S2P Require Import Prelude MachInt Utils Size Value Addr Arch Locs State AddrComp Dataflows Instruction InstructionFacts.
From S2P Require Import Filter FilterFacts BitPattern Encoding.
Import Instr.

(** ** Bits of an instruction from the right *)

Definition rbit (i : Instruction) (k : nat) : bool :=
  Z.testbit (default 0 (bytes i !! (length (bytes i) - 1 - k / 8)%nat)) (Z.of_nat (k `mod` 8)).

Lemma nth_right i k : (k < 8 * length (bytes i))%nat → nth_bit_from_right i k = Ok (Z.b2z (rbit i k)).
Proof.
  intros Hk. destruct (right_index _ k Hk) as (E1 & E2 & E3). rewrite nth_bit_from_right_left, nth_bit_from_left_lbit by lia.
  unfold lbit, rbit. by rewrite E1, E2.
Qed.
Lemma rbits_ext a b : instr_wf a → instr_wf b → length (bytes a) = length (bytes b) →
  (∀ k, (k < 8 * length (bytes a))%nat → rbit a k = rbit b k) → bytes a = bytes b.
Proof.
  intros Ha Hb Hl Hk. apply list_eq. intros i. destruct (decide (i < length (bytes a))%nat) as [Hi|Hi].
  2: { by rewrite (proj2 (lookup_ge_None (bytes a) i)), (proj2 (lookup_ge_None (bytes b) i)) by lia. }
  destruct (lookup_lt_is_Some_2 (bytes a) i Hi) as [x Hx], (lookup_lt_is_Some_2 (bytes b) i) as [y Hy]; [lia|].
  rewrite Hx, Hy. f_equal. apply (u_ext 8); [lia|apply (instr_byte a i x Ha Hx)|apply (instr_byte b i y Hb Hy)|].
  intros j Hj. set (k := (8 * (length (bytes a) - 1 - i) + Z.to_nat j)%nat).
  assert (k / 8 = length (bytes a) - 1 - i)%nat as E1.
  { symmetry. apply (Nat.div_unique _ _ _ (Z.to_nat j)); [lia|]. unfold k. lia. }
  assert (k `mod` 8 = Z.to_nat j)%nat as E2.
  { symmetry. apply (Nat.mod_unique _ _ (length (bytes a) - 1 - i)); [lia|]. unfold k. lia. }
  specialize (Hk k ltac:(unfold k; lia)). unfold rbit in Hk. rewrite E1, E2, <- Hl in Hk.
  replace (length (bytes a) - 1 - (length (bytes a) - 1 - i))%nat with i in Hk by lia.
  rewrite Hx, Hy in Hk. cbn in Hk. by rewrite Z2Nat.id in Hk by lia.
Qed.

(** Replacing the byte [k / 8] from the right. *)
Lemma put_byte i p x : instr_wf i → (p < length (bytes i))%nat → is_byte x →
  instr_wf {| data := <[p := x]> (data i); len := len i |} ∧
  length (bytes {| data := <[p := x]> (data i); len := len i |}) = length (bytes i) ∧
  ∀ j, (j < 8 * length (bytes i))%nat → rbit {| data := <[p := x]> (data i); len := len i |} j =
    if (length (bytes i) - 1 - j / 8 =? p)%nat then Z.testbit x (Z.of_nat (j `mod` 8)) else rbit i j.
Proof.
  intros [H1 H2 H3] Hp Hx. unfold bytes in *. cbn [data len]. rewrite !length_take in *. rewrite length_insert.
  split_and!; [|done|].
  - split; cbn [data len]; [by rewrite length_insert|by apply Forall_insert|done].
  - intros j Hj. unfold rbit, bytes. cbn [data len]. rewrite !length_take, length_insert. case_cmp.
    + match goal with E : (_ = p)%nat |- _ => rewrite E end. rewrite lookup_take_lt, list_lookup_insert_eq by lia. done.
    + rewrite take_insert_lt, list_lookup_insert_ne by lia. done.
Qed.

Lemma data_byte i p : instr_wf i → (p < length (bytes i))%nat → ∃ x, data i !! p = Some x ∧ bytes i !! p = Some x ∧ is_byte x.
Proof.
  intros [H1 H2 H3] Hp. unfold bytes in *. rewrite length_take in Hp.
  destruct (lookup_lt_is_Some_2 (data i) p) as [x Hx]; [lia|]. exists x. rewrite lookup_take_lt by lia.
  split_and!; [done..|]. by eapply Forall_lookup_1 in Hx.
Qed.
Lemma set_right i k b : instr_wf i → (k < 8 * length (bytes i))%nat → is_bit b = true →
  ∃ r, set_nth_bit_from_right i k b = Ok r ∧ instr_wf r ∧ length (bytes r) = length (bytes i) ∧
    ∀ j, (j < 8 * length (bytes i))%nat → rbit r j = if (j =? k)%nat then Z.odd b else rbit i j.
Proof.
  intros Hi Hk Hb. destruct (right_index _ k Hk) as (_ & _ & E3). set (p := (length (bytes i) - 1 - k / 8)%nat).
  destruct (data_byte i p Hi) as (x & Hd & Hx & Hbyte); [unfold p; lia|].
  pose proof (byte_len_wf i Hi) as Hlen. unfold byte_len in Hlen.
  unfold set_nth_bit_from_right. rewrite Hb. cbn [rassert]. rewrite M_bind_Ok, index_sub_ok, M_bind_Ok by lia.
  rewrite index_sub_ok, M_bind_Ok by lia. rewrite <- Hlen. fold p.
  rewrite (proj2 (vget_Ok_inv _ _ _) Hd), M_bind_Ok, vset_lt, M_bind_Ok by by eapply lookup_lt_Some.
  pose proof (Nat.mod_upper_bound k 8 ltac:(lia)) as Hm.
  destruct (put_byte i p (set_bit_u8 x (k `mod` 8) b) Hi) as (W & L & R); [unfold p; lia|by apply set_bit_u8_byte|].
  eexists. split; [done|]. rewrite <- Hlen in W, L, R. split_and!; [done..|]. intros j Hj. rewrite R by done.
  destruct (right_index _ j Hj) as (_ & _ & J3). case_cmp.
  - rewrite testbit_set_bit_u8 by done.
    assert (k / 8 = j / 8)%nat as Eq8 by (unfold p in *; lia).
    pose proof (Nat.div_mod k 8 ltac:(lia)). pose proof (Nat.div_mod j 8 ltac:(lia)).
    case_cmp; case_cmp; try lia; [done|].
    unfold rbit. replace (length (bytes i) - 1 - j / 8)%nat with p by (unfold p; lia). by rewrite Hx.
  - case_cmp; [|done]. subst j. unfold p in *. lia.
Qed.

Lemma set_bytes_left_ok count : ∀ i p v, instr_wf i → (count <= S p <= length (bytes i))%nat → 0 <= v →
  ∃ d, set_bytes_left count (Some p) v (data i) = Ok d ∧ instr_wf {| data := d; len := len i |} ∧
    length (bytes {| data := d; len := len i |}) = length (bytes i) ∧
    ∀ j, (j < 8 * length (bytes i))%nat → rbit {| data := d; len := len i |} j =
      let from := (8 * (length (bytes i) - 1 - p))%nat in
      if ((from <=? j) && (j <? from + 8 * count))%nat then Z.testbit v (Z.of_nat (j - from)) else rbit i j.
Proof.
  induction count as [|count IH]; intros i p v Hi Hp Hv.
  { exists (data i). cbn [set_bytes_left]. destruct i as [d n]. split_and!; [done..|]. intros j Hj. cbv zeta.
    case_cmps; try lia; done. }
  cbn [set_bytes_left unwrap]. destruct (data_byte i p Hi) as (x & Hd & Hx & Hbyte); [lia|].
  rewrite M_bind_Ok, vset_lt, M_bind_Ok by by eapply lookup_lt_Some.
  destruct (put_byte i p (wrap 8 v) Hi) as (W & L & R); [lia|apply wrap_is_u; lia|].
  assert (∀ r, (∀ j, (j < 8 * length (bytes i))%nat → rbit r j =
      if ((8 * (length (bytes i) - p) <=? j) && (j <? 8 * (length (bytes i) - p) + 8 * count))%nat
      then Z.testbit (Z.shiftr v 8) (Z.of_nat (j - 8 * (length (bytes i) - p))) else rbit {| data := <[p:=wrap 8 v]> (data i); len := len i |} j) →
    ∀ j, (j < 8 * length (bytes i))%nat → rbit r j =
      let from := (8 * (length (bytes i) - 1 - p))%nat in
      if ((from <=? j) && (j <? from + 8 * S count))%nat then Z.testbit v (Z.of_nat (j - from)) else rbit i j) as Hstep.
  { intros r Hr j Hj. rewrite Hr, R by done. cbv zeta. destruct (right_index _ j Hj) as (_ & _ & J3).
    pose proof (Nat.div_mod j 8 ltac:(lia)) as Dj. pose proof (Nat.mod_upper_bound j 8 ltac:(lia)) as Uj.
    case_cmps; cbn [andb]; try lia; try done.
    - rewrite Z.shiftr_spec by lia. f_equal. lia.
    - rewrite testbit_wrap by lia. case_cmp; cbn [andb]; [|lia]. f_equal. lia. }
  destruct p as [|p].
  - destruct count as [|count]; [|lia]. cbn [set_bytes_left]. eexists. split; [done|]. split_and!; [done..|]. apply Hstep. intros j Hj.
    case_cmps; cbn [andb]; try lia; done.
  - destruct (IH {| data := <[S p:=wrap 8 v]> (data i); len := len i |} p (Z.shiftr v 8) W) as (d & E & W' & L' & R');
      [lia|by apply Z.shiftr_nonneg|].
    cbn [data len] in *. exists d. split_and!; [done|done|lia|]. apply Hstep. intros j Hj. rewrite R' by lia. cbv zeta.
    rewrite L. replace (8 * (length (bytes i) - 1 - p))%nat with (8 * (length (bytes i) - S p))%nat by lia. done.
Qed.
Lemma set_multiple_right {P : profile} i index v num : instr_wf i → (index `mod` 8 = 0)%nat → (num `mod` 8 = 0)%nat → (8 <= num)%nat →
  (index + num <= 8 * length (bytes i))%nat → 0 <= v →
  ∃ r, set_multiple_bits_from_right i index v num = Ok r ∧ instr_wf r ∧ length (bytes r) = length (bytes i) ∧
    ∀ j, (j < 8 * length (bytes i))%nat → rbit r j =
      if ((index <=? j) && (j <? index + num))%nat then Z.testbit v (Z.of_nat (j - index)) else rbit i j.
Proof.
  intros Hi Hx Hn H8 Hl Hv. pose proof (Nat.div_mod index 8 ltac:(lia)) as Dx. pose proof (Nat.div_mod num 8 ltac:(lia)) as Dn.
  pose proof (byte_len_wf i Hi) as Hlen. unfold byte_len in Hlen.
  unfold set_multiple_bits_from_right. rewrite Hx, Hn. cbn [rassert andb Nat.eqb]. rewrite M_bind_Ok.
  rewrite (proj2 (Nat.leb_le _ _)) by lia. rewrite M_bind_Ok.
  destruct (set_bytes_left_ok (num / 8) i (len i - 1 - index / 8) v Hi) as (d & -> & W & L & R); [lia|done|].
  rewrite M_bind_Ok. eexists. split; [done|]. split_and!; [done..|]. intros j Hj. rewrite R by done. cbv zeta.
  replace (8 * (length (bytes i) - 1 - (len i - 1 - index / 8)))%nat with index by lia.
  replace (8 * (num / 8))%nat with num by lia. done.
Qed.

(** ** The bits of a part *)

(** The number of bits of part [n] among the first [i]. *)
Definition rank (bits : list Bit) (n i : nat) : nat := length (List.filter (λ b, bool_decide (b = BPart n)) (take i bits)).
Definition part_width (bits : list Bit) (n : nat) : nat := rank bits n (length bits).

Lemma rank_0 bits n : rank bits n 0 = 0%nat.
Proof. done. Qed.
Lemma rank_S bits n i b : bits !! i = Some b → rank bits n (S i) = (rank bits n i + if bool_decide (b = BPart n) then 1 else 0)%nat.
Proof.
  intros Hb. unfold rank. rewrite (take_S_r _ _ _ Hb), List.filter_app, length_app. cbn. by case_bool_decide.
Qed.
Lemma rank_mono bits n i j : (i <= j)%nat → (rank bits n i <= rank bits n j)%nat.
Proof.
  intros Hij. unfold rank. replace (take j bits) with (take i bits ++ take (j - i) (drop i bits)) by (rewrite take_take_drop; f_equal; lia).
  rewrite List.filter_app, length_app. lia.
Qed.
Lemma rank_le_width bits n i : (rank bits n i <= part_width bits n)%nat.
Proof.
  destruct (decide (i <= length bits)%nat); [by apply rank_mono|]. unfold part_width, rank. rewrite !take_ge by lia. done.
Qed.
Lemma rank_lt_width bits n i : bits !! i = Some (BPart n) → (rank bits n i < part_width bits n)%nat.
Proof.
  intros Hb. pose proof (rank_le_width bits n (S i)) as H. rewrite (rank_S _ _ _ _ Hb), bool_decide_true in H by done. lia.
Qed.
(** Along a run of bits of part [n]. *)
Lemma rank_run bits n m i k : (∀ j, (i <= j < i + m)%nat → bits !! j = Some (BPart n)) → (k <= m)%nat →
  ∀ n', rank bits n' (i + k) = (rank bits n' i + if decide (n' = n) then k else 0)%nat.
Proof.
  intros Hrun Hk n'. induction k as [|k IH].
  { rewrite Nat.add_0_r. case_decide; lia. }
  replace (i + S k)%nat with (S (i + k)) by lia. rewrite (rank_S _ _ _ (BPart n)), IH by (apply Hrun || idtac; lia).
  case_bool_decide; case_decide; try lia; congruence.
Qed.
Lemma value_bits_width {A : Arch} {C} (e : Encoding C) n : value_bits e n = part_width (enc_bits e) n.
Proof. unfold value_bits, part_width, rank. by rewrite firstn_all. Qed.

Lemma count_kind_run kind bits j : (j < count_kind kind bits)%nat → bits !! j = Some kind.
Proof.
  revert j. induction bits as [|b bits IH]; intros j Hj; cbn in Hj; [lia|]. case_bool_decide as E; [|lia].
  destruct j as [|j]; [by rewrite E|]. apply IH. lia.
Qed.

Section fill.
Context {P : profile}.

(** The bit that the loop leaves at [j], when it starts at [from] with [sv]. *)
Definition wanted (bits : list Bit) (sv : list (option Z)) (from : nat) (i : Instruction) (j : nat) : bool :=
  match bits !! j with
  | Some (BPart n) => match sv !! n with
                      | Some (Some v) => Z.testbit v (Z.of_nat (rank bits n j - rank bits n from))
                      | _ => rbit i j
                      end
  | _ => rbit i j
  end.
(** What remains of the part values at [from]. *)
Definition remaining (bits : list Bit) (sv : list (option Z)) (from : nat) : list (option Z) :=
  imap (λ n o, (λ v, Z.shiftr v (Z.of_nat (part_width bits n - rank bits n from))) <$> o) sv.
(** Parts that the values are given for, of at most 64 bits. *)
Record parts_ok (bits : list Bit) (sv : list (option Z)) : Prop := {
  parts_known n : BPart n ∈ bits → (n < length sv)%nat;
  parts_narrow n : (part_width bits n <= 64)%nat;
  parts_u64 : Forall (λ o, ∀ v, o = Some v → is_u 64 v) sv;
}.

Lemma shift_part_ok v m : is_u 64 v → (m <= 64)%nat → shift_part v m = Ok (Z.shiftr v (Z.of_nat m)).
Proof.
  intros Hv Hm. unfold shift_part. destruct (Nat.compare_spec m 64) as [->| |]; [|done|lia].
  rewrite Z.shiftr_div_pow2 by lia. rewrite Z.div_small; [done|]. exact Hv.
Qed.
Lemma shifted_u64 v m : is_u 64 v → is_u 64 (Z.shiftr v (Z.of_nat m)).
Proof.
  intros [H1 H2]. rewrite Z.shiftr_div_pow2 by lia. pose proof (Z.pow_pos_nonneg 2 (Z.of_nat m) ltac:(lia) ltac:(lia)).
  split; [apply Z.div_pos; lia|]. apply Z.div_lt_upper_bound; nia.
Qed.
Lemma parts_ok_set bits sv n v : parts_ok bits sv → is_u 64 v → parts_ok bits (<[n := Some v]> sv).
Proof.
  intros [H1 H2 H3] Hv. split; [by intros m Hm; rewrite length_insert; apply H1|done|].
  apply Forall_insert; [done|]. by intros w [= <-].
Qed.
(** Writing the [m] bits of a run and going on behind it. *)
Lemma wanted_run bits sv i r n v m index : sv !! n = Some (Some v) → (0 < m)%nat → is_u 64 v →
  (∀ j, (index <= j < index + m)%nat → bits !! j = Some (BPart n)) →
  (∀ j, (j < length bits)%nat → rbit r j = if ((index <=? j) && (j <? index + m))%nat then Z.testbit v (Z.of_nat (j - index)) else rbit i j) →
  let sv' := <[n := Some (Z.shiftr v (Z.of_nat m))]> sv in
  (∀ j, (j < length bits)%nat →
    (if (j <? index + m)%nat then rbit r j else wanted bits sv' (index + m) r j) =
    (if (j <? index)%nat then rbit i j else wanted bits sv index i j)) ∧
  remaining bits sv' (index + m) = remaining bits sv index.
Proof.
  intros Hn Hm Hv Hrun Hr sv'. pose proof (rank_run bits n m index) as Hrank. split.
  - intros j Hj. destruct (Nat.ltb_spec j (index + m)); destruct (Nat.ltb_spec j index); try lia.
    + rewrite Hr by done. case_cmps; cbn [andb]; try lia. done.
    + unfold wanted. rewrite Hr, Hrun by lia. rewrite Hn. case_cmps; cbn [andb]; try lia. f_equal. f_equal.
      replace j with (index + (j - index))%nat at 2 by lia. rewrite (Hrank (j - index)%nat) by (done || lia).
      rewrite decide_True by done. lia.
    + unfold wanted. destruct (bits !! j) as [[n'| |]|] eqn:Ej; try (rewrite Hr by done; case_cmps; cbn [andb]; try lia; done).
      pose proof (Hrank m Hrun ltac:(lia) n') as Hrm. destruct (decide (n' = n)) as [->|Hne].
      * unfold sv'. rewrite list_lookup_insert_eq, Hn by by eapply lookup_lt_Some.
        rewrite Z.shiftr_spec by lia. f_equal. rewrite Hrm. pose proof (rank_mono bits n (index + m) j ltac:(lia)). lia.
      * unfold sv'. rewrite list_lookup_insert_ne by done. rewrite Hrm.
        destruct (sv !! n') as [[v'|]|]; [f_equal; f_equal; lia | | ]; rewrite Hr by done; case_cmps; cbn [andb]; try lia; done.
  - unfold remaining. apply list_eq. intros k. rewrite !list_lookup_imap. unfold sv'.
    pose proof (Hrank m Hrun ltac:(lia) k) as Hrm. destruct (decide (k = n)) as [->|Hne].
    + rewrite list_lookup_insert_eq, Hn by by eapply lookup_lt_Some. cbn. do 2 f_equal. rewrite Z.shiftr_shiftr by lia. f_equal.
      rewrite Hrm. pose proof (rank_le_width bits n (index + m)). lia.
    + rewrite list_lookup_insert_ne by done. by rewrite Hrm, Nat.add_0_r.
Qed.

Lemma remaining_done bits sv : remaining bits sv (length bits) = sv.
Proof.
  unfold remaining. apply list_eq. intros k. rewrite list_lookup_imap. destruct (sv !! k) as [[v|]|]; [|done|done].
  cbn. unfold part_width. by rewrite Nat.sub_diag, Z.shiftr_0_r.
Qed.
Lemma wanted_skip bits sv i from b : bits !! from = Some b → (∀ n v, b = BPart n → sv !! n = Some (Some v) → False) →
  (∀ j, (j < length bits)%nat →
    (if (j <? S from)%nat then rbit i j else wanted bits sv (S from) i j) =
    (if (j <? from)%nat then rbit i j else wanted bits sv from i j)) ∧
  remaining bits sv (S from) = remaining bits sv from.
Proof.
  intros Hb Hno. assert (∀ n v, sv !! n = Some (Some v) → rank bits n (S from) = rank bits n from) as Hr.
  { intros n v Hn. rewrite (rank_S _ _ _ _ Hb). case_bool_decide as E; [|lia]. by destruct (Hno n v). }
  split.
  - intros j Hj. destruct (Nat.ltb_spec j (S from)), (Nat.ltb_spec j from); try lia; [done| |].
    + replace j with from by lia. unfold wanted. rewrite Hb. destruct b as [n| |]; [|done|done].
      destruct (sv !! n) as [[v|]|] eqn:E; [|done|done]. by destruct (Hno n v).
    + unfold wanted. destruct (bits !! j) as [[n| |]|]; [|done..]. destruct (sv !! n) as [[v|]|] eqn:E; [|done|done].
      by rewrite (Hr n v E).
  - unfold remaining. apply list_eq. intros k. rewrite !list_lookup_imap. destruct (sv !! k) as [[v|]|] eqn:E; [|done|done].
    cbn. by rewrite (Hr k v E).
Qed.

(** The loop writes the wanted bits and shifts the part values out. *)
Lemma fill_parts_ok bits fuel : ∀ index i sv, instr_wf i → (8 * length (bytes i) = length bits)%nat → parts_ok bits sv →
  (index <= length bits)%nat → (length bits - index < fuel)%nat →
  ∃ r, fill_parts fuel bits index i sv = Ok (r, remaining bits sv index) ∧ instr_wf r ∧ length (bytes r) = length (bytes i) ∧
    ∀ j, (j < length bits)%nat → rbit r j = if (j <? index)%nat then rbit i j else wanted bits sv index i j.
Proof.
  induction fuel as [|fuel IH]; intros index i sv Hi Hlen Hok Hx Hf; [lia|]. cbn [fill_parts].
  destruct (bits !! index) as [b|] eqn:Hb.
  2: { apply lookup_ge_None in Hb. replace index with (length bits) by lia. rewrite remaining_done.
       exists i. split_and!; [done..|]. intros j Hj. by rewrite (proj2 (Nat.ltb_lt _ _) Hj). }
  assert (index < length bits)%nat as Hlt by by eapply lookup_lt_Some.
  assert ((∀ n v, b = BPart n → sv !! n = Some (Some v) → False) →
    ∃ r, fill_parts fuel bits (index + 1) i sv = Ok (r, remaining bits sv index) ∧ instr_wf r ∧ length (bytes r) = length (bytes i) ∧
    ∀ j, (j < length bits)%nat → rbit r j = if (j <? index)%nat then rbit i j else wanted bits sv index i j) as Hskip.
  { intros Hno. destruct (wanted_skip bits sv i index b Hb Hno) as [Hw Hr]. rewrite Nat.add_1_r, <- Hr.
    destruct (IH (S index) i sv) as (r & -> & W & L & R); [done..|lia|lia|]. exists r. split_and!; [done..|].
    intros j Hj. by rewrite R, Hw by done. }
  destruct b as [n|v|]; [|by apply Hskip|by apply Hskip].
  destruct Hok as [K1 K2 K3]. assert (n < length sv)%nat as Hn by (apply K1; by eapply list_elem_of_lookup_2).
  destruct (lookup_lt_is_Some_2 sv n Hn) as [o Ho]. rewrite (proj2 (vget_Ok_inv _ _ _) Ho), M_bind_Ok.
  destruct o as [v|]; [|apply Hskip; intros m w [= <-]; congruence].
  assert (is_u 64 v) as Hv by exact (Forall_lookup_1 _ _ _ _ K3 Ho v eq_refl).
  clear Hskip.
  assert (∀ m r, (0 < m)%nat → (index + m <= length bits)%nat → (∀ j, (index <= j < index + m)%nat → bits !! j = Some (BPart n)) →
    instr_wf r → length (bytes r) = length (bytes i) →
    (∀ j, (j < length bits)%nat → rbit r j = if ((index <=? j) && (j <? index + m))%nat then Z.testbit v (Z.of_nat (j - index)) else rbit i j) →
    ∃ r', fill_parts fuel bits (index + m) r (<[n := Some (Z.shiftr v (Z.of_nat m))]> sv) = Ok (r', remaining bits sv index) ∧ instr_wf r' ∧
      length (bytes r') = length (bytes i) ∧
      ∀ j, (j < length bits)%nat → rbit r' j = if (j <? index)%nat then rbit i j else wanted bits sv index i j) as Hgo.
  { intros m r Hm Hml Hrun Wr Lr Rr. destruct (wanted_run bits sv i r n v m index Ho Hm Hv Hrun Rr) as [Hw Hrem]. rewrite <- Hrem.
    destruct (IH (index + m)%nat r (<[n := Some (Z.shiftr v (Z.of_nat m))]> sv)) as (r' & -> & W & L & R);
      [done|lia|apply parts_ok_set; [by split|by apply shifted_u64]|done|lia|].
    exists r'. split_and!; [done..|lia|]. intros j Hj. by rewrite R, Hw by done. }
  set (m := (count_kind (BPart n) (drop (index + 1) bits) + 1)%nat).
  assert (∀ j, (index <= j < index + m)%nat → bits !! j = Some (BPart n)) as Hm.
  { intros j Hj. destruct (decide (j = index)) as [->|]; [done|].
    pose proof (count_kind_run (BPart n) (drop (index + 1) bits) (j - index - 1) ltac:(unfold m in Hj; lia)) as E.
    rewrite lookup_drop in E. rewrite <- E. f_equal. lia. }
  destruct ((index `mod` 8 =? 0) && (8 <=? m))%nat eqn:Efast.
  - apply andb_true_iff in Efast as [E1%Nat.eqb_eq E2%Nat.leb_le].
    pose proof (Nat.div_mod m 8 ltac:(lia)) as Dm. pose proof (Nat.mod_upper_bound m 8 ltac:(lia)).
    set (num := (m / 8 * 8)%nat). assert (8 <= num <= m)%nat as Hnum by (unfold num; lia).
    assert (index + num <= length bits)%nat as Hin.
    { assert (bits !! (index + num - 1)%nat = Some (BPart n)) as E by (apply Hm; lia). apply lookup_lt_Some in E. lia. }
    assert (num <= 64)%nat as H64.
    { specialize (K2 n). pose proof (rank_le_width bits n (index + num)) as Hle.
      rewrite (rank_run bits n m index num Hm ltac:(lia)), decide_True in Hle by done. lia. }
    destruct (set_multiple_right i index v num) as (r & -> & W & L & R);
      [done|done|apply Nat.Div0.mod_mul|lia|lia|apply Hv|].
    rewrite M_bind_Ok, shift_part_ok, M_bind_Ok, vset_lt, M_bind_Ok by done. rewrite Hlen in R.
    apply Hgo; [lia|done|intros; apply Hm; lia|done|done|done].
  - assert (is_bit (Z.land (wrap 8 v) 1) = true ∧ Z.odd (Z.land (wrap 8 v) 1) = Z.testbit v 0) as [Hbit Hodd].
    { change 1 with (Z.ones 1). rewrite Z.land_ones by lia. change (2 ^ 1) with 2. rewrite <- Z.bit0_mod, testbit_wrap by lia.
      change (0 <? 8) with true. cbn [andb]. by destruct (Z.testbit v 0). }
    destruct (set_right i index (Z.land (wrap 8 v) 1)) as (r & -> & W & L & R); [done|lia|done|].
    rewrite M_bind_Ok, vset_lt, M_bind_Ok by done. change 1 with (Z.of_nat 1) at 1. rewrite Hlen in R.
    apply Hgo; [lia|lia|intros j Hj; replace j with index by lia; done|done|done|].
    intros j Hj. rewrite R by done. case_cmps; cbn [andb]; try lia; try done; subst; by rewrite Nat.sub_diag, Hodd.
Qed.
End fill.

(** ** Part values to instructions *)

Section instrs.
Context {P : profile} {A : Arch} {C : Type}.

(** The bits of the instruction are those of the pattern, parts have at most 64
    bits, and the fixed bits are those of the current instruction. *)
Record enc_wf (e : Encoding C) : Prop := {
  enc_wf_instr : instr_wf (enc_instr e);
  enc_wf_length : (8 * length (bytes (enc_instr e)) = length (enc_bits e))%nat;
  enc_wf_parts n : BPart n ∈ enc_bits e → (n < length (enc_parts e))%nat;
  enc_wf_narrow n : (part_width (enc_bits e) n <= 64)%nat;
  enc_wf_max : (length (enc_parts e) <= MAX_PARTS)%nat;
  enc_wf_fixed j v : enc_bits e !! j = Some (BFixed v) → v = Z.b2z (rbit (enc_instr e) j);
}.
(** A value for every part that is given one. *)
Record values_ok (e : Encoding C) (pv : list (option Z)) : Prop := {
  values_length : length pv = length (enc_parts e);
  values_u64 : Forall (λ o, ∀ v, o = Some v → is_u 64 v) pv;
}.
(** The values fit the bits of their parts. *)
Definition values_fit (e : Encoding C) (pv : list (option Z)) : Prop :=
  ∀ n v, pv !! n = Some (Some v) → is_u (Z.of_nat (part_width (enc_bits e) n)) v.

Lemma values_parts_ok e pv : enc_wf e → values_ok e pv → parts_ok (enc_bits e) pv.
Proof. intros [H1 H2 H3 H4 H5 H6] [V1 V2]. split; [intros n Hn; rewrite V1; by apply H3|done|done]. Qed.

Lemma shifted_out e pv : Forall (λ o, ∀ v, o = Some v → is_u 64 v) pv →
  existsb (λ v, match v with Some v => negb (v =? 0) | None => false end) (remaining (enc_bits e) pv 0) = false ↔ values_fit e pv.
Proof.
  intros Hu. rewrite <- not_true_iff_false, existsb_exists. unfold values_fit, remaining. split.
  - intros Hno n v Hn. destruct (Forall_lookup_1 _ _ _ _ Hu Hn v eq_refl) as [Hv _].
    destruct (Z.eqb_spec (Z.shiftr v (Z.of_nat (part_width (enc_bits e) n))) 0) as [E|E].
    + split; [done|]. rewrite Z.shiftr_div_pow2 in E by lia.
      pose proof (Z.pow_pos_nonneg 2 (Z.of_nat (part_width (enc_bits e) n)) ltac:(lia) ltac:(lia)) as Hp.
      apply Z.div_small_iff in E; lia.
    + destruct Hno. eexists. split; [apply list_elem_of_In, (elem_of_lookup_imap_2 _ _ _ _ Hn)|].
      cbn. rewrite rank_0, Nat.sub_0_r. by apply negb_true_iff, Z.eqb_neq.
  - intros Hfit (o & Ho%list_elem_of_In & Hz). apply elem_of_lookup_imap_1 in Ho as (n & [v|] & -> & Hn); [|done].
    cbn in Hz. rewrite rank_0, Nat.sub_0_r in Hz. destruct (Hfit n v Hn) as [H1 H2].
    rewrite Z.shiftr_div_pow2, Z.div_small in Hz by lia. done.
Qed.
(** The bit of an instruction with part values at [j]. *)
Definition bit_with (e : Encoding C) (pv : list (option Z)) (j : nat) : bool := wanted (enc_bits e) pv 0 (enc_instr e) j.

Lemma part_values_ok e pv : enc_wf e → values_ok e pv → values_fit e pv →
  ∃ r, part_values_to_instr e pv = Ok r ∧ instr_wf r ∧ length (bytes r) = length (bytes (enc_instr e)) ∧
    ∀ j, (j < length (enc_bits e))%nat → rbit r j = bit_with e pv j.
Proof.
  intros He Hpv Hfit. pose proof (values_parts_ok e pv He Hpv) as Hok. destruct He as [H1 H2 H3 H4 H5 H6], Hpv as [V1 V2].
  unfold part_values_to_instr. rewrite (proj2 (Nat.leb_le _ _)) by lia. cbn [rassert]. rewrite M_bind_Ok.
  destruct (fill_parts_ok (enc_bits e) (S (length (enc_bits e))) 0 (enc_instr e) pv) as (r & -> & W & L & R); [done..|lia|lia|].
  rewrite M_bind_Ok, (proj2 (shifted_out e pv V2) Hfit). exists r. split_and!; [done..|]. intros j Hj. by rewrite R.
Qed.
Lemma part_values_panic e pv : enc_wf e → values_ok e pv → ~ values_fit e pv → part_values_to_instr e pv = Panic.
Proof.
  intros He Hpv Hfit. pose proof (values_parts_ok e pv He Hpv) as Hok. destruct He as [H1 H2 H3 H4 H5 H6], Hpv as [V1 V2].
  unfold part_values_to_instr. rewrite (proj2 (Nat.leb_le _ _)) by lia. cbn [rassert]. rewrite M_bind_Ok.
  destruct (fill_parts_ok (enc_bits e) (S (length (enc_bits e))) 0 (enc_instr e) pv) as (r & -> & W & L & R); [done..|lia|lia|].
  rewrite M_bind_Ok. destruct (existsb _ _) eqn:E; [done|]. by apply shifted_out in E.
Qed.

Lemma vget_fmap {X Y} (f : X → Y) (l : list X) i : vget (f <$> l) i = (x ← vget l i; Ok (f x)).
Proof. unfold vget. rewrite list_lookup_fmap. by destruct (l !! i). Qed.
Lemma vset_fmap {X Y} (f : X → Y) (l : list X) i x : vset (f <$> l) i (f x) = (k ← vset l i x; Ok ((f <$> k) : list Y)).
Proof. unfold vset. rewrite length_fmap. case_bool_decide; [|done]. by rewrite <- list_fmap_insert. Qed.
Lemma fill_all_parts_eq bits fuel : ∀ index i (sv : list Z),
  fill_parts fuel bits index i (Some <$> sv) = (p ← fill_all_parts fuel bits index i sv; Ok (p.1, (Some <$> p.2) : list (option Z))).
Proof.
  induction fuel as [|fuel IH]; intros index i sv; [done|]. cbn [fill_parts fill_all_parts].
  destruct (bits !! index) as [[n|v|]|]; [|apply IH|apply IH|done]. rewrite vget_fmap. destruct (vget sv n) as [v| |]; [|done..].
  rewrite !M_bind_Ok. case_match.
  - destruct (set_multiple_bits_from_right _ _ _ _) as [r| |]; [|done..]. rewrite !M_bind_Ok.
    destruct (shift_part _ _) as [w| |]; [|done..]. rewrite !M_bind_Ok, vset_fmap. destruct (vset sv n w); [|done..]. rewrite !M_bind_Ok. apply IH.
  - destruct (set_nth_bit_from_right _ _ _) as [r| |]; [|done..]. rewrite !M_bind_Ok, vset_fmap.
    destruct (vset sv n _); [|done..]. rewrite !M_bind_Ok. apply IH.
Qed.
Lemma all_part_values_eq (e : Encoding C) pv : all_part_values_to_instr e pv = part_values_to_instr e (Some <$> pv).
Proof.
  unfold all_part_values_to_instr, part_values_to_instr. rewrite length_fmap. destruct (_ <=? _)%nat; [|done].
  cbn [rassert]. rewrite !M_bind_Ok, fill_all_parts_eq. destruct (fill_all_parts _ _ _ _ _) as [[r sv]| |]; [|done..].
  rewrite !M_bind_Ok. cbn [fst snd].
  assert (existsb (λ v, match v with Some v => negb (v =? 0) | None => false end) (Some <$> sv) = existsb (λ v, negb (v =? 0)) sv) as ->;
    [|done]. induction sv as [|v sv IH]; [done|]. cbn. by rewrite IH.
Qed.
End instrs.

(** ** Extraction *)

Lemma rank_surj bits n k t : (t < rank bits n k)%nat → ∃ j, (j < k)%nat ∧ bits !! j = Some (BPart n) ∧ rank bits n j = t.
Proof.
  induction k as [|k IH]; intros Ht; [rewrite rank_0 in Ht; lia|]. destruct (bits !! k) as [b|] eqn:Hb.
  - rewrite (rank_S _ _ _ _ Hb) in Ht. destruct (decide (t < rank bits n k)%nat) as [Hl|Hl].
    + destruct (IH Hl) as (j & ? & ? & ?). exists j. split_and!; [lia|done..].
    + case_bool_decide as E; [|lia]. subst b. exists k. split_and!; [lia|done|lia].
  - apply lookup_ge_None in Hb. assert (rank bits n (S k) = rank bits n k) as E by (unfold rank; by rewrite !take_ge by lia).
    rewrite E in Ht. destruct (IH Ht) as (j & ? & ? & ?). exists j. split_and!; [lia|done..].
Qed.
(** [v] is made of the bits of part [n]. *)
Record reads (bits : list Bit) (i : Instruction) (n : nat) (v : Z) : Prop := {
  reads_fits : is_u (Z.of_nat (part_width bits n)) v;
  reads_bits j : bits !! j = Some (BPart n) → Z.testbit v (Z.of_nat (rank bits n j)) = rbit i j;
}.
Lemma reads_unique bits i n v w : reads bits i n v → reads bits i n w → v = w.
Proof.
  intros [V1 V2] [W1 W2]. apply (u_ext (Z.of_nat (part_width bits n))); [lia|done|done|]. intros t Ht.
  destruct (rank_surj bits n (length bits) (Z.to_nat t)) as (j & _ & Hj & Er); [unfold part_width in Ht; lia|].
  specialize (V2 j Hj). specialize (W2 j Hj). rewrite Er, Z2Nat.id in V2, W2 by lia. congruence.
Qed.

Lemma rank_app pre b n j : (j <= length pre)%nat → rank (pre ++ b) n j = rank pre n j.
Proof. intros Hj. unfold rank. by rewrite take_app_le. Qed.
Lemma width_snoc pre b n : part_width (pre ++ [b]) n = (part_width pre n + if bool_decide (b = BPart n) then 1 else 0)%nat.
Proof.
  unfold part_width. rewrite length_app. cbn [length]. rewrite Nat.add_1_r, (rank_S _ _ _ b); [by rewrite rank_app|].
  by rewrite lookup_app_r, Nat.sub_diag by lia.
Qed.
Lemma reads_snoc_other pre b i n v : b ≠ BPart n → reads pre i n v → reads (pre ++ [b]) i n v.
Proof.
  intros Hb [R1 R2]. split; [by rewrite width_snoc, bool_decide_false, Nat.add_0_r by done|]. intros j Hj.
  apply lookup_snoc_Some in Hj as [[Hl Hj]|[_ Hj]]; [|done]. rewrite rank_app by lia. by apply R2.
Qed.
Lemma reads_snoc pre i n v (x : bool) : x = rbit i (length pre) → reads pre i n v →
  reads (pre ++ [BPart n]) i n (Z.lor v (Z.shiftl (Z.b2z x) (Z.of_nat (part_width pre n)))).
Proof.
  intros -> [R1 R2]. set (w := part_width pre n) in *.
  assert (∀ t, 0 <= t → Z.testbit (Z.lor v (Z.shiftl (Z.b2z (rbit i (length pre))) (Z.of_nat w))) t =
    Z.testbit v t || (t =? Z.of_nat w) && rbit i (length pre)) as Hbit.
  { intros t Ht. rewrite Z.lor_spec, Z.shiftl_spec by done. f_equal. destruct (Z.eqb_spec t (Z.of_nat w)) as [->|Hne].
    - rewrite Z.sub_diag. by destruct (rbit _ _).
    - destruct (Z.lt_ge_cases t (Z.of_nat w)); [by rewrite Z.testbit_neg_r by lia|].
      destruct (rbit _ _); [|apply Z.testbit_0_l]. cbn [Z.b2z]. apply (Z.bits_above_log2 1); cbn; lia. }
  split.
  - rewrite width_snoc, bool_decide_true by done. fold w. apply u_of_bits; [lia| |].
    + apply Z.lor_nonneg. split; [apply R1|]. apply Z.shiftl_nonneg. by destruct (rbit _ _).
    + intros t Ht. rewrite Hbit by lia. rewrite (testbit_u_high (Z.of_nat w)) by (done || lia).
      destruct (Z.eqb_spec t (Z.of_nat w)); [lia|done].
  - intros j Hj. rewrite Hbit by lia. apply lookup_snoc_Some in Hj as [[Hl Hj]|[-> _]].
    + rewrite rank_app by lia. rewrite (R2 j Hj). pose proof (rank_lt_width pre n j Hj). fold w in H.
      destruct (Z.eqb_spec (Z.of_nat (rank pre n j)) (Z.of_nat w)); [lia|]. apply orb_false_r.
    + rewrite rank_app by done. change (rank pre n (length pre)) with w.
      rewrite (testbit_u_high (Z.of_nat w)), Z.eqb_refl by (done || lia). done.
Qed.

Section extract.
Context {P : profile} {A : Arch} {C : Type}.

(** The state of the loop behind the bits [pre]. *)
Record extracting (pre : list Bit) (i : Instruction) (parts : list Z) (idx : list nat) : Prop := {
  ex_length : length idx = length parts;
  ex_next n k : idx !! n = Some k → k = part_width pre n;
  ex_reads n v : parts !! n = Some v → reads pre i n v;
}.
Lemma extracting_other pre b i parts idx : (∀ n, b ≠ BPart n) → extracting pre i parts idx → extracting (pre ++ [b]) i parts idx.
Proof.
  intros Hb [H1 H2 H3]. split; [done| |].
  - intros n k Hn. rewrite width_snoc, bool_decide_false, Nat.add_0_r by done. by apply H2.
  - intros n v Hn. apply reads_snoc_other; [done|by apply H3].
Qed.
Lemma extracting_part pre n i parts idx v x : x = rbit i (length pre) → parts !! n = Some v → extracting pre i parts idx →
  extracting (pre ++ [BPart n]) i (<[n := Z.lor v (Z.shiftl (Z.b2z x) (Z.of_nat (part_width pre n)))]> parts)
    (<[n := (part_width pre n + 1)%nat]> idx).
Proof.
  intros Hx Ev [H1 H2 H3]. pose proof (lookup_lt_Some _ _ _ Ev). split; [by rewrite !length_insert| |].
  - intros m k Hm. rewrite width_snoc. destruct (decide (m = n)) as [->|Hne].
    + rewrite list_lookup_insert_eq in Hm by lia. injection Hm as <-. by rewrite bool_decide_true.
    + rewrite list_lookup_insert_ne in Hm by done. rewrite bool_decide_false, Nat.add_0_r by congruence. by apply H2.
  - intros m w Hm. destruct (decide (m = n)) as [->|Hne].
    + rewrite list_lookup_insert_eq in Hm by lia. injection Hm as <-. apply reads_snoc; [done|by apply H3].
    + rewrite list_lookup_insert_ne in Hm by done. apply reads_snoc_other; [congruence|by apply H3].
Qed.
Lemma shl_bit (b : bool) k : (k < 64)%nat → shl_u 64 (Z.b2z b) (Z.of_nat k) = Ok (Z.shiftl (Z.b2z b) (Z.of_nat k)).
Proof.
  intros Hk. rewrite shl_u_ok by lia. f_equal. apply wrap_small. destruct b; cbn [Z.b2z]; [|rewrite Z.shiftl_0_l; split; lia].
  rewrite Z.shiftl_1_l. split; [lia|]. apply Z.pow_lt_mono_r; lia.
Qed.
Lemma extract_loop_ok i bits : ∀ pre parts idx, instr_wf i → (length (pre ++ bits) <= 8 * length (bytes i))%nat →
  (∀ n, BPart n ∈ bits → (n < length parts)%nat) → (∀ n, (part_width (pre ++ bits) n <= 64)%nat) →
  (∀ j v, bits !! j = Some (BFixed v) → v = Z.b2z (rbit i (length pre + j))) → extracting pre i parts idx →
  ∃ r, extract_loop i bits (length pre) parts idx = Ok r ∧ length r = length parts ∧ ∀ n v, r !! n = Some v → reads (pre ++ bits) i n v.
Proof.
  induction bits as [|b bits IH]; intros pre parts idx Hi Hlen Hk Hw Hfix Hex.
  { exists parts. rewrite app_nil_r. split_and!; [done..|]. apply Hex. }
  assert (pre ++ b :: bits = (pre ++ [b]) ++ bits) as Eapp by by rewrite <- app_assoc.
  assert (∀ j, (length (pre ++ [b]) + j = length pre + S j)%nat) as El by (intros; rewrite length_app; cbn; lia).
  assert (nth_bit_from_right i (length pre) = Ok (Z.b2z (rbit i (length pre)))) as Hnth.
  { apply nth_right. rewrite length_app in Hlen. cbn in Hlen. lia. }
  assert (∀ n, b = BPart n → (part_width pre n < 64)%nat) as H64.
  { intros n ->. specialize (Hw n). pose proof (rank_lt_width (pre ++ BPart n :: bits) n (length pre)) as H.
    rewrite rank_app in H by done. unfold part_width at 1. apply (Nat.lt_le_trans _ _ _ ltac:(apply H; by rewrite lookup_app_r, Nat.sub_diag by lia) Hw). }
  cbn [extract_loop]. rewrite Eapp in *. replace (length pre + 1)%nat with (length (pre ++ [b])) by (rewrite length_app; done).
  assert (∀ parts' idx', length parts' = length parts → extracting (pre ++ [b]) i parts' idx' →
    ∃ r, extract_loop i bits (length (pre ++ [b])) parts' idx' = Ok r ∧ length r = length parts ∧
      ∀ n v, r !! n = Some v → reads ((pre ++ [b]) ++ bits) i n v) as Hgo.
  { intros parts' idx' Hl He. rewrite <- Hl. apply IH; [done|done| |done| |done].
    - intros m Hm. rewrite Hl. apply Hk. by right.
    - intros j v' Hj. rewrite El. by apply (Hfix (S j)). }
  destruct b as [n|v|].
  - rewrite Hnth, M_bind_Ok. assert (n < length parts)%nat as Hn by (apply Hk; left). pose proof (ex_length _ _ _ _ Hex).
    destruct (lookup_lt_is_Some_2 idx n) as [k Ek]; [lia|]. destruct (lookup_lt_is_Some_2 parts n Hn) as [v Ev].
    rewrite (proj2 (vget_Ok_inv _ _ _) Ek), M_bind_Ok, (proj2 (vget_Ok_inv _ _ _) Ev), M_bind_Ok, (ex_next _ _ _ _ Hex n k Ek).
    rewrite shl_bit, M_bind_Ok by by apply H64. rewrite !vset_lt, !M_bind_Ok by lia.
    apply Hgo; [by rewrite length_insert|by apply extracting_part].
  - rewrite Hnth, M_bind_Ok. assert (v = Z.b2z (rbit i (length pre))) as -> by (rewrite <- (Nat.add_0_r (length pre)); by apply Hfix).
    rewrite Z.eqb_refl. cbn [rassert]. rewrite M_bind_Ok. apply Hgo; [done|]. by apply extracting_other.
  - apply Hgo; [done|]. by apply extracting_other.
Qed.

Definition matches_fixed (e : Encoding C) (i : Instruction) : Prop :=
  ∀ j v, enc_bits e !! j = Some (BFixed v) → v = Z.b2z (rbit i j).
Lemma extract_ok (e : Encoding C) i : enc_wf e → instr_wf i → length (bytes i) = length (bytes (enc_instr e)) → matches_fixed e i →
  ∃ pv, extract_parts e i = Ok pv ∧ length pv = length (enc_parts e) ∧ ∀ n v, pv !! n = Some v → reads (enc_bits e) i n v.
Proof.
  intros [H1 H2 H3 H4 H5 H6] Hi Hl Hfix. unfold extract_parts, bit_len, byte_len.
  rewrite (proj2 (Nat.eqb_eq _ _)) by lia. cbn [rassert]. rewrite M_bind_Ok.
  destruct (extract_loop_ok i (enc_bits e) [] (replicate (length (enc_parts e)) 0) (replicate (length (enc_parts e)) 0%nat))
    as (pv & E & L & R); cbn [app length]; rewrite ?length_replicate in *; [done|lia|done|done|done| |].
  - split; [by rewrite !length_replicate| |].
    + by intros n k [-> _]%lookup_replicate.
    + intros n v [-> _]%lookup_replicate. split; [split; [done|apply Z.pow_pos_nonneg; lia]|]. intros j Hj. done.
  - exists pv. done.
Qed.

(** Every part has one value that fits. *)
Record all_values (e : Encoding C) (pv : list Z) : Prop := {
  all_values_length : length pv = length (enc_parts e);
  all_values_fit n v : pv !! n = Some v → is_u (Z.of_nat (part_width (enc_bits e) n)) v;
}.
Lemma fit_u64 (e : Encoding C) n v : enc_wf e → is_u (Z.of_nat (part_width (enc_bits e) n)) v → is_u 64 v.
Proof.
  intros He [H1 H2]. split; [done|]. eapply Z.lt_le_trans; [exact H2|]. apply Z.pow_le_mono_r; [lia|].
  pose proof (enc_wf_narrow e He n). lia.
Qed.
Lemma all_values_ok (e : Encoding C) pv : enc_wf e → all_values e pv → values_ok e (Some <$> pv) ∧ values_fit e (Some <$> pv).
Proof.
  intros He [H1 H2]. assert (∀ n v, (Some <$> pv) !! n = Some (Some v) → pv !! n = Some v) as Hs.
  { intros n v Hn. rewrite list_lookup_fmap in Hn. destruct (pv !! n); [|done]. cbn in Hn. congruence. }
  split; [split; [by rewrite length_fmap|]|].
  - apply Forall_lookup_2. intros n o Hn v ->. eapply fit_u64; [done|]. by apply H2, Hs.
  - intros n v Hn. by apply H2, Hs.
Qed.
Lemma bit_with_all (e : Encoding C) pv j : all_values e pv → bit_with e (Some <$> pv) j =
  match enc_bits e !! j with
  | Some (BPart n) => match pv !! n with Some v => Z.testbit v (Z.of_nat (rank (enc_bits e) n j)) | None => rbit (enc_instr e) j end
  | _ => rbit (enc_instr e) j
  end.
Proof.
  intros _. unfold bit_with, wanted. destruct (enc_bits e !! j) as [[n| |]|]; [|done..]. rewrite list_lookup_fmap, rank_0, Nat.sub_0_r.
  by destruct (pv !! n).
Qed.

(** C30: [part_values_to_instr] writes, for every part that has a value, the bits of
    the value to the bits of the part, from the lowest on, and keeps all other
    bits of the current instruction; it panics exactly if a value does not fit.
    The writes of whole bytes do not show.  [all_part_values_to_instr] and
    [unchecked_instr] are the case in which every part has a value. *)
Theorem part_values_to_instr_spec (e : Encoding C) pv : enc_wf e → values_ok e pv →
  (values_fit e pv → ∃ r, part_values_to_instr e pv = Ok r ∧ instr_wf r ∧ byte_len r = byte_len (enc_instr e) ∧
     ∀ j, (j < length (enc_bits e))%nat → nth_bit_from_right r j =
       match enc_bits e !! j with
       | Some (BPart n) =>
           match pv !! n with
           | Some (Some v) => Ok (Z.b2z (Z.testbit v (Z.of_nat (rank (enc_bits e) n j))))
           | _ => nth_bit_from_right (enc_instr e) j
           end
       | _ => nth_bit_from_right (enc_instr e) j
       end) ∧
  (~ values_fit e pv → part_values_to_instr e pv = Panic) ∧
  ∀ l, all_part_values_to_instr e l = part_values_to_instr e (Some <$> l) ∧ unchecked_instr e l = part_values_to_instr e (Some <$> l).
Proof.
  intros He Hpv. split_and!.
  - intros Hfit. destruct (part_values_ok e pv He Hpv Hfit) as (r & E & W & L & R). exists r. split_and!; [done..|].
    pose proof (enc_wf_length e He) as Hlen. intros j Hj. rewrite !nth_right by lia. rewrite R by done. unfold bit_with, wanted.
    destruct (enc_bits e !! j) as [[n| |]|]; [|done..]. rewrite rank_0, Nat.sub_0_r. by destruct (pv !! n) as [[]|].
  - intros Hfit. by apply part_values_panic.
  - intros l. split; [apply all_part_values_eq|]. unfold unchecked_instr, part_values_to_instr. rewrite length_fmap.
    by destruct (_ <=? _)%nat.
Qed.

(** C19: Extraction is inverse to filling in part values: from the instruction of
    values that fit it returns the values, and the values it extracts from any
    instruction that has the fixed bits fit, and give back that instruction up
    to the bits that do not matter. *)
Theorem extract_roundtrip (e : Encoding C) : enc_wf e →
  (∀ pv, all_values e pv → ∃ r, all_part_values_to_instr e pv = Ok r ∧ instr_wf r ∧ extract_parts e r = Ok pv) ∧
  ∀ i, instr_wf i → byte_len i = byte_len (enc_instr e) → matches_fixed e i →
    ∃ pv r, extract_parts e i = Ok pv ∧ all_values e pv ∧ all_part_values_to_instr e pv = Ok r ∧
      ∀ j, (j < length (enc_bits e))%nat → nth_bit_from_right r j =
        if bool_decide (enc_bits e !! j = Some BDontCare) then nth_bit_from_right (enc_instr e) j else nth_bit_from_right i j.
Proof.
  intros He. pose proof (enc_wf_length e He) as Hlen. unfold byte_len. split.
  - intros pv Hall. destruct (all_values_ok e pv He Hall) as [Hok Hfit]. rewrite all_part_values_eq.
    destruct (part_values_ok e _ He Hok Hfit) as (r & E & W & L & R). exists r. split_and!; [done..|].
    assert (∀ j n v, enc_bits e !! j = Some (BPart n) → pv !! n = Some v → Z.testbit v (Z.of_nat (rank (enc_bits e) n j)) = rbit r j) as Hr.
    { intros j n v Hj Hn. rewrite R, bit_with_all, Hj, Hn by (done || by eapply lookup_lt_Some). done. }
    destruct (extract_ok e r He W L) as (pv' & -> & L' & R').
    { intros j v Hj. rewrite R, bit_with_all, Hj by (done || by eapply lookup_lt_Some). by apply (enc_wf_fixed e He). }
    f_equal. apply (list_eq_same_length _ _ (length pv')); [by destruct Hall as [->]|done|]. intros n x y Hn Hx Hy.
    apply (reads_unique (enc_bits e) r n); [by apply R'|]. split; [by apply Hall|]. intros j Hj. by apply Hr.
  - intros i Hi Hl Hfix. destruct (extract_ok e i He Hi Hl Hfix) as (pv & E & L & R).
    assert (all_values e pv) as Hall by (split; [done|]; intros n v Hn; apply (R n v Hn)).
    destruct (all_values_ok e pv He Hall) as [Hok Hfit]. destruct (part_values_ok e _ He Hok Hfit) as (r & Er & W & Lr & Rr).
    exists pv, r. rewrite all_part_values_eq. split_and!; [done..|]. intros j Hj. rewrite !nth_right by lia. rewrite Rr, bit_with_all by done.
    destruct (lookup_lt_is_Some_2 _ _ Hj) as [b Hb]. rewrite Hb. destruct b as [n|v|].
    + rewrite bool_decide_false by done. assert (n < length pv)%nat as Hn.
      { rewrite L. apply (enc_wf_parts e He). by eapply list_elem_of_lookup_2. }
      destruct (lookup_lt_is_Some_2 pv n Hn) as [v Hv]. rewrite Hv. by rewrite (reads_bits _ _ _ _ (R n v Hv) j Hb).
    + rewrite bool_decide_false by done. by rewrite <- (Hfix j v Hb), <- (enc_wf_fixed e He j v Hb).
    + by rewrite bool_decide_true.
Qed.
End extract.

(** An encoding of [FakeArch] for the witnesses: [R1 += imm8] or [R2 += imm8], the
    immediate in the second byte, the register chosen by bit 8; bit 9 does not
    matter. *)
Notation FakeD := (@Fake.FakeArch Dev).
Definition demo_instr : Instruction := {| data := 0xA8 :: replicate 14 0; len := 2 |}.
Definition demo_bits : list Bit :=
  replicate 8 (BPart 1) ++ [BPart 0; BDontCare; BFixed 0; BFixed 1; BFixed 0; BFixed 1; BFixed 0; BFixed 1].
Definition demo_with {C} (c : option C) : Encoding (A:=FakeD) C := {|
  enc_bits := demo_bits; errors := replicate 16 false;
  enc_parts := [
    {| part_size := 1; part_value := 0;
       part_mapping := PRegister (A:=FakeD) [Some Fake.R1; Some Fake.R2] [VOutput 0; VInputForOutput 0 0] |};
    {| part_size := 8; part_value := 0; part_mapping := PImm (A:=FakeD) None [InputForOutput 0 1] None |}];
  enc_dataflows := {|
    addresses := {| instr := demo_instr; accesses := []; accesses_use_trap_flag := false |};
    outputs := [{| target := DReg (A:=FakeD) Fake.R1 SizeOps.qword;
                   flow_inputs := {| Locs.inputs := [SDest (A:=FakeD) (DReg (A:=FakeD) Fake.R1 SizeOps.qword); SImm (A:=FakeD) 1] |};
                   computation := c; unobservable_external_inputs := false |}];
    found_dependent_bytes := false |};
  write_ordering := [] |}.
Definition demo_enc : Encoding (A:=FakeD) unit := demo_with None.
Lemma demo_width n : part_width demo_bits n = match n with 0 => 1 | 1 => 8 | _ => 0 end%nat.
Proof. by destruct n as [|[|n]]. Qed.
Lemma demo_with_wf {C} (c : option C) : enc_wf (demo_with c).
Proof.
  split.
  - split; [reflexivity| |unfold MAX_LEN; cbn; lia]. apply (bool_decide_unpack _). by vm_compute.
  - reflexivity.
  - intros n Hn. change (enc_bits (demo_with c)) with demo_bits in Hn. cbn in Hn. cbn. set_solver.
  - intros n. change (enc_bits (demo_with c)) with demo_bits. rewrite demo_width. destruct n as [|[|n]]; lia.
  - cbn. unfold MAX_PARTS. lia.
  - intros j v Hj. change (enc_bits (demo_with c)) with demo_bits in Hj.
    do 16 (destruct j as [|j]; [cbn in Hj; try done; injection Hj as <-; reflexivity|]). done.
Qed.
Lemma demo_with_values {C} (c : option C) : all_values (demo_with c) [1; 0x2A].
Proof.
  split; [reflexivity|]. intros n v Hn. change (enc_bits (demo_with c)) with demo_bits. rewrite demo_width.
  destruct n as [|[|n]]; cbn in Hn; [injection Hn as <-; split; cbn; lia|injection Hn as <-; split; cbn; lia|done].
Qed.
Lemma demo_enc_wf : enc_wf demo_enc.
Proof. apply demo_with_wf. Qed.
Lemma demo_values : all_values demo_enc [1; 0x2A].
Proof. apply demo_with_values. Qed.
Lemma part_values_to_instr_witness : ∃ r, part_values_to_instr (P:=Dev) demo_enc [Some 1; Some 0x2A] = Ok r ∧
  nth_bit_from_right r 8 = Ok 1 ∧ nth_bit_from_right r 9 = nth_bit_from_right demo_instr 9 ∧ nth_bit_from_right r 1 = Ok 1.
Proof.
  destruct (all_values_ok demo_enc _ demo_enc_wf demo_values) as [Hok Hfit].
  destruct (part_values_to_instr_spec (P:=Dev) demo_enc _ demo_enc_wf Hok) as [H _].
  destruct (H Hfit) as (r & E & _ & _ & R). exists r. split; [exact E|].
  split; [rewrite R by (cbn; lia); reflexivity|]. split; rewrite R by (cbn; lia); reflexivity.
Defined.
Lemma extract_roundtrip_witness : ∃ r, all_part_values_to_instr (P:=Dev) demo_enc [1; 0x2A] = Ok r ∧
  extract_parts (P:=Dev) demo_enc r = Ok [1; 0x2A].
Proof.
  destruct (extract_roundtrip (P:=Dev) demo_enc demo_enc_wf) as [H _].
  destruct (H _ demo_values) as (r & E & _ & X). exists r. split; [exact E|exact X].
Defined.

(** [prefix_matches] looks for an invalid value of an immediate part, so it answers
    [false] for an instruction that the encoding covers when all values are
    valid; [covers_some_instr] does not look at the address computations. *)
Definition one_part (m : PartMapping (A:=FakeD)) : Encoding (A:=FakeD) unit := {|
  enc_bits := BPart 0 :: replicate 7 (BFixed 0); errors := replicate 8 false;
  enc_parts := [{| part_size := 1; part_value := 0; part_mapping := m |}];
  enc_dataflows := {|
    addresses := {| instr := {| data := replicate 15 0; len := 1 |}; accesses := []; accesses_use_trap_flag := false |};
    outputs := []; found_dependent_bytes := false |};
  write_ordering := [] |}.
Theorem prefix_and_cover_limits :
  (let e := one_part (PImm (A:=FakeD) (Some (Mapping [Valid; Valid])) [] None) in
   extract_parts (P:=Dev) e (enc_instr e) = Ok [0] ∧ value_is_valid (PImm (A:=FakeD) (Some (Mapping [Valid; Valid])) [] None) 0 = Ok true ∧
   prefix_matches (P:=Dev) e (enc_instr e) 8 = Ok false) ∧
  (let e := one_part (PMemory (A:=FakeD) [None; None] []) in
   covers_some_instr e = true ∧ ∀ v, 0 <= v < 2 → value_is_valid (PMemory (A:=FakeD) [None; None] []) v = Ok false).
Proof.
  split; [split_and!; reflexivity|]. split; [reflexivity|]. intros v Hv. assert (v = 0 ∨ v = 1) as [->| ->] by lia; reflexivity.
Qed.
