(* ===== verification/Instantiate.v ===== *)
(** * Instantiation of encodings

    Models [FlowValueLocationMap], [instantiate], [instantiate_partially] and the
    functions they use, of [liblisa/src/encoding/mod.rs].  An [ArrayVec] panics when
    an element is pushed past its capacity.  Indices of places are far below 2^64,
    so their arithmetic is on [nat]. *)
From stdpp Require Import gmap.
From S2P Require Import Prelude MachInt Utils Size Value Addr Arch Locs State AddrComp Dataflows Instruction BitPattern Encoding.
Import AddrOps.

(** ** Maps from places *)

Module LocMap.
Definition CAPACITY : nat := 1024.
Record FlowValueLocationMap (T : Type) := {
  outputs : list (option T);
  mem : list (option T);
  num_mem : nat;
  num_outputs : nat;
}.
Arguments outputs {T}. Arguments mem {T}. Arguments num_mem {T}. Arguments num_outputs {T}.

Section map.
Context {T : Type}.
Definition new (num_mem num_outputs : nat) : FlowValueLocationMap T :=
  {| outputs := []; mem := []; num_mem := num_mem; num_outputs := num_outputs |}.
Definition mem_index (self : FlowValueLocationMap T) (memory_index input_index : nat) : nat :=
  (num_mem self * input_index + memory_index)%nat.
Definition output_index (self : FlowValueLocationMap T) (output_index : nat) : nat := output_index.
Definition input_index (self : FlowValueLocationMap T) (output_index input_index : nat) : nat :=
  (num_outputs self * (input_index + 1) + output_index)%nat.
(** The array of a place and the index in it. *)
Definition slot (self : FlowValueLocationMap T) (loc : FlowValueLocation) : bool * nat :=
  match loc with
  | VOutput index => (false, output_index self index)
  | VInputForOutput o i => (false, input_index self o i)
  | VMemoryAddress m i => (true, mem_index self m i)
  end.
Definition array (self : FlowValueLocationMap T) (is_mem : bool) : list (option T) := if is_mem then mem self else outputs self.
Definition with_array (self : FlowValueLocationMap T) (is_mem : bool) (d : list (option T)) : FlowValueLocationMap T :=
  if is_mem then {| outputs := outputs self; mem := d; num_mem := num_mem self; num_outputs := num_outputs self |}
  else {| outputs := d; mem := mem self; num_mem := num_mem self; num_outputs := num_outputs self |}.
(** [while data.len() <= index { data.push(None) }]. *)
Definition grow (data : list (option T)) (index : nat) : M (list (option T)) :=
  let d := data ++ replicate (index + 1 - length data) None in
  assert! (length d <=? CAPACITY)%nat; Ok d.
Definition insert (self : FlowValueLocationMap T) (loc : FlowValueLocation) (value : T) : M (FlowValueLocationMap T * option T) :=
  let '(is_mem, index) := slot self loc in
  data ← grow (array self is_mem) index;
  old_value ← vget data index;
  data ← vset data index (Some value);
  Ok (with_array self is_mem data, old_value).
Definition get (self : FlowValueLocationMap T) (loc : FlowValueLocation) : option T :=
  let '(is_mem, index) := slot self loc in mjoin (array self is_mem !! index).
End map.
End LocMap.
Import LocMap (FlowValueLocationMap).

Inductive InstantiationError := MissingRegisterMapping | MissingMemoryComputationMapping | MissingImmValueMapping.
#[export] Instance InstantiationError_eq_dec : EqDecision InstantiationError.
Proof. solve_decision. Defined.

Section instantiate.
Context {P : profile} {A : Arch} {C : Type}.

(** The meaning of a part value. *)
Inductive Interp :=
  | IReg (r : Reg)
  | IConst (num_bits : nat) (mem_value imm_value : Z)
  | IAddr (c : AddressComputation)
  | INone.

Fixpoint new_indices_from (n : nat) (part_values : list (option Z)) : list (option nat) :=
  match part_values with
  | [] => []
  | None :: l => Some n :: new_indices_from (n + 1) l
  | Some _ :: l => None :: new_indices_from n l
  end.
Definition compute_new_indices (part_values : list (option Z)) : M (list (option nat)) :=
  assert! (length part_values <=? MAX_PARTS)%nat; Ok (new_indices_from 0 part_values).

Definition mapping_error (m : PartMapping) : InstantiationError :=
  match m with
  | PImm _ _ _ => MissingImmValueMapping
  | PMemory _ _ => MissingMemoryComputationMapping
  | PRegister _ _ => MissingRegisterMapping
  end.
(** The first loop of [instantiate_dataflows]. *)
Fixpoint check_values (l : list (option Z * Part)) : M (option InstantiationError) :=
  match l with
  | [] => Ok None
  | (Some value, part) :: l =>
      if (part_size part <? 64)%nat then
        n ← shl_u 64 1 (Z.of_nat (part_size part));
        assert! match part_mapping part with PImm (Some (BitOrder _)) _ _ => true | _ => value <=? n end;
        valid ← value_is_valid (part_mapping part) value;
        if negb valid then Ok (Some (mapping_error (part_mapping part))) else check_values l
      else check_values l
  | (None, _) :: l => check_values l
  end.
(** [bit_order.iter().enumerate().fold(..)]. *)
Fixpoint order_value (bit_order : list ImmBitOrder) (index : nat) (part_value acc : Z) : M Z :=
  match bit_order with
  | [] => Ok acc
  | bit :: bit_order =>
      x ← shr 64 part_value (Z.of_nat index);
      o ← as_offset bit (Z.land x 1);
      order_value bit_order (index + 1) part_value (wrapping_add acc o)
  end.
(** The interpretation of one part, and the mapping that is missing. *)
Definition interp_part (part : Part) (part_value : Z) : M (Interp * option InstantiationError) :=
  match part_mapping part with
  | PRegister mapping _ =>
      r ← vget mapping (Z.to_nat part_value);
      Ok (match r with Some reg => (IReg reg, None) | None => (INone, Some MissingRegisterMapping) end)
  | PImm mapping _ bits =>
      imm_value ← match bits with Some bits => interpret_value bits part_value | None => Ok part_value end;
      match mapping with
      | Some (Mapping mapping) =>
          v ← vget mapping (Z.to_nat part_value);
          Ok (if is_valid v then (IConst (part_size part) part_value imm_value, None)
              else (INone, Some MissingImmValueMapping))
      | Some (BitOrder bit_order) =>
          mem_value ← order_value bit_order 0 part_value 0;
          Ok (IConst (part_size part) mem_value imm_value, None)
      | None => Ok (IConst (part_size part) part_value imm_value, None)
      end
  | PMemory mapping _ =>
      c ← vget mapping (Z.to_nat part_value);
      Ok (match c with Some mapped_value => (IAddr mapped_value, None) | None => (INone, Some MissingMemoryComputationMapping) end)
  end.
Definition interp_parts (l : list (Part * option Z)) : M (list (Interp * option InstantiationError)) :=
  mapM (λ '(part, part_value), match part_value with Some v => interp_part part v | None => Ok (INone, None) end) l.
(** The flags are looked at in this order. *)
Definition first_missing (l : list (option InstantiationError)) : option InstantiationError :=
  head (List.filter (λ e, bool_decide (Some e ∈ l)) [MissingRegisterMapping; MissingImmValueMapping; MissingMemoryComputationMapping]).

Fixpoint insert_locations (m : FlowValueLocationMap Interp) (locations : list FlowValueLocation) (interp : Interp) :
    M (FlowValueLocationMap Interp) :=
  match locations with
  | [] => Ok m
  | loc :: locations =>
      '(m, old) ← LocMap.insert m loc interp;
      assert! bool_decide (old = None);
      insert_locations m locations interp
  end.
Fixpoint applicable_parts (m : FlowValueLocationMap Interp) (l : list ((Part * option Z) * Interp)) : M (FlowValueLocationMap Interp) :=
  match l with
  | [] => Ok m
  | ((part, part_value), interp) :: l =>
      m ← match part_value with Some _ => insert_locations m (part_locations (part_mapping part)) interp | None => Ok m end;
      applicable_parts m l
  end.

(** The closures that are passed to [Dataflows::map]. *)
Definition map_source (applicable : FlowValueLocationMap Interp) (new_indices : list (option nat)) (loc : FlowValueLocation) (old : Source) :
    M (option Source) :=
  match LocMap.get applicable loc with
  | Some (IReg new_reg) => match old with SDest (DReg _ s) => Ok (Some (SDest (DReg new_reg s))) | _ => Panic end
  | Some (IConst num_bits mem_value imm_value) =>
      Ok (Some (SConst (if Loc.is_address loc then mem_value else imm_value) (Z.of_nat num_bits)))
  | Some _ => Panic
  | None =>
      match old with
      | SImm n => i ← vget new_indices n; match i with Some val => Ok (Some (SImm val)) | None => Panic end
      | _ => Ok (Some old)
      end
  end.
Fixpoint map_calculation (l : list ((Part * option Z) * Interp)) (memory_index : nat) (old : AddressComputation) : M (option AddressComputation) :=
  match l with
  | [] => Ok None
  | ((part, part_value), interp) :: l =>
      match part_value, part_mapping part with
      | Some _, PMemory _ memory_indexes =>
          if bool_decide (memory_index ∈ memory_indexes) then
            match interp with
            | IAddr addr => Ok (Some (Calc.with_offset addr (calc_offset old)))
            | _ => Panic
            end
          else map_calculation l memory_index old
      | _, _ => map_calculation l memory_index old
      end
  end.

(** [Result<Dataflows, InstantiationError>] is a sum. *)
Definition instantiate_dataflows (self : Encoding C) (part_values : list (option Z)) (new_indices : list (option nat)) :
    M (Dataflows C + InstantiationError) :=
  assert! (length (enc_parts self) =? length part_values)%nat;
  assert! (length (enc_parts self) <=? MAX_PARTS)%nat;
  new_instr ← part_values_to_instr self part_values;
  e ← check_values (zip part_values (enc_parts self));
  match e with
  | Some e => Ok (inr e)
  | None =>
      let pairs := zip (enc_parts self) part_values in
      l ← interp_parts pairs;
      match first_missing l.*2 with
      | Some e => Ok (inr e)
      | None =>
          let interps := zip pairs l.*1 in
          applicable ← applicable_parts (LocMap.new (accesses_len (addresses (enc_dataflows self))) (length (outputs (enc_dataflows self)))) interps;
          d ← dataflows_map (enc_dataflows self) new_instr (map_source applicable new_indices) (map_calculation interps);
          Ok (inl d)
      end
  end.
Definition instantiate (self : Encoding C) (part_values : list Z) : M (Dataflows C + InstantiationError) :=
  assert! (length part_values <=? MAX_PARTS)%nat;
  new_indices ← compute_new_indices (Some <$> part_values);
  instantiate_dataflows self (Some <$> part_values) new_indices.

(** ** Partial instantiation *)

(** The write orderings that agree with the values, without the columns of the
    parts that have one; [unique] keeps first occurrences. *)
Definition wo_relevant (part_values : list (option Z)) (wo : WriteOrdering) : bool :=
  forallb (λ '(val, set), match val, set with Some val, Some set => val =? set | _, _ => true end) (zip (wo_part_values wo) part_values).
Definition wo_project (part_values : list (option Z)) (wo : WriteOrdering) : WriteOrdering :=
  {| wo_part_values := (λ p : option Z * option Z, p.1) <$> List.filter (λ '(_, set), bool_decide (set = None)) (zip (wo_part_values wo) part_values);
     output_index_order := output_index_order wo |}.
Fixpoint unique {X} `{EqDecision X} (seen l : list X) : list X :=
  match l with
  | [] => []
  | x :: l => if bool_decide (x ∈ seen) then unique seen l else x :: unique (x :: seen) l
  end.
Definition project_bit (new_indices : list (option nat)) (instr : Instruction) (i : nat) (b : Bit) : M Bit :=
  match b with
  | BPart n =>
      o ← vget new_indices n;
      match o with
      | Some new => Ok (BPart new)
      | None => v ← Instr.nth_bit_from_right instr i; Ok (BFixed v)
      end
  | other => Ok other
  end.
Definition instantiate_partially (self : Encoding C) (part_values : list (option Z)) : M (Encoding C + InstantiationError) :=
  new_indices ← compute_new_indices part_values;
  r ← instantiate_dataflows self part_values new_indices;
  match r with
  | inr e => Ok (inr e)
  | inl dataflows =>
      let parts := fst <$> List.filter (λ '(_, p), bool_decide (p = None)) (zip (enc_parts self) part_values) in
      bits ← mapM (λ '(i, b), project_bit new_indices (dataflows_instr dataflows) i b) (imap pair (enc_bits self));
      Ok (inl {| enc_bits := bits; errors := errors self; enc_parts := parts; enc_dataflows := dataflows;
                 write_ordering := unique [] (wo_project part_values <$> List.filter (wo_relevant part_values) (write_ordering self)) |})
  end.
End instantiate.
