(* ===== verification/InstantiateFacts.v ===== *)
(** * Instantiation: what the parts become

    [FlowValueLocationMap] is a finite map on the places of the dataflows;
    instantiation replaces the places of the parts that have a value, and only
    these; instantiating in two steps is instantiating at once. *)
From stdpp Require Import gmap.
From S2P Require Import Prelude MachInt Utils Size Value Addr Arch Locs State AddrComp AddrCompFacts Dataflows DataflowsFacts Instruction InstructionFacts.
From S2P Require Import BitPattern Encoding EncodingFacts Instantiate.
Import AddrOps Instr.

(** ** Maps from places *)

Module LocMapFacts.
Import LocMap.
Section facts.
Context {T : Type}.

(** A place of dataflows with that many accesses and outputs; the index fits the array. *)
Definition in_range (nm no : nat) (loc : FlowValueLocation) : Prop :=
  match loc with
  | VOutput o => (o < no ∧ o < CAPACITY)%nat
  | VInputForOutput o i => (o < no ∧ no * (i + 1) + o < CAPACITY)%nat
  | VMemoryAddress m i => (m < nm ∧ nm * i + m < CAPACITY)%nat
  end.
Record map_wf (nm no : nat) (m : FlowValueLocationMap T) : Prop := {
  wf_num_mem : num_mem m = nm;
  wf_num_outputs : num_outputs m = no;
  wf_outputs : (length (outputs m) <= CAPACITY)%nat;
  wf_mem : (length (mem m) <= CAPACITY)%nat;
}.
Lemma empty_map_wf nm no : map_wf nm no (LocMap.new nm no : FlowValueLocationMap T).
Proof. split; cbn; lia. Qed.
Lemma get_new nm no loc : LocMap.get (LocMap.new nm no : FlowValueLocationMap T) loc = None.
Proof. by destruct loc. Qed.
Lemma split_unique k a b a' b' : (b < k)%nat → (b' < k)%nat → (k * a + b = k * a' + b')%nat → a = a' ∧ b = b'.
Proof. intros Hb Hb' E. assert (a = a') as -> by (destruct (lt_eq_lt_dec a a') as [[|]|]; [nia|done|nia]). split; [done|lia]. Qed.
Lemma slot_inj nm no (m : FlowValueLocationMap T) loc loc' : map_wf nm no m → in_range nm no loc → in_range nm no loc' →
  slot m loc = slot m loc' → loc = loc'.
Proof.
  intros [<- <- _ _]. unfold slot, output_index, input_index, mem_index.
  destruct loc as [o|o i|n i], loc' as [o'|o' i'|n' i']; cbn; intros [H1 H2] [H1' H2'] E; try discriminate E; injection E as E.
  - by subst.
  - destruct i'; nia.
  - destruct i; nia.
  - apply split_unique in E as [E1 E2]; [|lia..]. f_equal; lia.
  - apply split_unique in E as [-> ->]; done.
Qed.
Lemma slot_capacity nm no (m : FlowValueLocationMap T) loc : map_wf nm no m → in_range nm no loc → ((slot m loc).2 < CAPACITY)%nat.
Proof. intros [<- <- _ _]. destruct loc; cbn; unfold output_index, input_index, mem_index; lia. Qed.

Lemma array_with m b d b' : array (with_array m b d : FlowValueLocationMap T) b' = if bool_decide (b = b') then d else array m b'.
Proof. by destruct b, b'. Qed.
Lemma array_capacity nm no m b : map_wf nm no m → (length (array (m : FlowValueLocationMap T) b) <= CAPACITY)%nat.
Proof. intros [_ _ H1 H2]. by destruct b. Qed.
Lemma with_array_wf nm no m b d : map_wf nm no m → (length d <= CAPACITY)%nat → map_wf nm no (with_array m b d).
Proof. intros [H1 H2 H3 H4] Hd. destruct b; by split. Qed.
(** Inserting at a place returns what was there and changes nothing else. *)
Lemma insert_ok nm no (m : FlowValueLocationMap T) loc v : map_wf nm no m → in_range nm no loc →
  ∃ m', LocMap.insert m loc v = Ok (m', LocMap.get m loc) ∧ map_wf nm no m' ∧
    ∀ loc', in_range nm no loc' → LocMap.get m' loc' = if decide (loc' = loc) then Some v else LocMap.get m loc'.
Proof.
  intros Hm Hin. pose proof (slot_capacity _ _ _ _ Hm Hin) as Hcap. unfold LocMap.insert, LocMap.get at 1.
  destruct (slot m loc) as [b k] eqn:Es. cbn [snd] in Hcap. pose proof (array_capacity _ _ _ b Hm) as Ha.
  unfold grow. set (d := array m b ++ replicate (k + 1 - length (array m b)) None).
  assert (length d = Nat.max (k + 1) (length (array m b))) as Hd by (unfold d; rewrite length_app, length_replicate; lia).
  rewrite (proj2 (Nat.leb_le _ _)) by lia. cbn [rassert]. rewrite !M_bind_Ok.
  assert (∀ j, mjoin (d !! j) = mjoin (array m b !! j)) as Hlook.
  { intros j. unfold d. destruct (decide (j < length (array m b))%nat); [by rewrite lookup_app_l|].
    rewrite lookup_app_r, (proj2 (lookup_ge_None (array m b) j)) by lia. cbn.
    destruct (replicate _ _ !! _) eqn:E; [|done]. by apply lookup_replicate in E as [-> _]. }
  destruct (lookup_lt_is_Some_2 d k) as [o Ho]; [lia|]. unfold vget. rewrite Ho. cbn [unwrap]. rewrite M_bind_Ok, vset_lt, M_bind_Ok by lia.
  assert (o = mjoin (array m b !! k)) as Eo by (by rewrite <- Hlook, Ho).
  assert (map_wf nm no (with_array m b (<[k:=Some v]> d))) as Hwf by (apply with_array_wf; [done|rewrite length_insert; lia]).
  eexists. split; [by rewrite Eo|]. split; [done|].
  intros loc' Hin'. unfold LocMap.get. destruct (slot m loc') as [b' k'] eqn:Es'.
  assert (slot (with_array m b (<[k:=Some v]> d)) loc' = (b', k')) as -> by (rewrite <- Es'; by destruct b, loc').
  rewrite array_with. case_decide as El.
  - subst loc'. rewrite Es in Es'. injection Es' as <- <-. rewrite bool_decide_true by done. by rewrite list_lookup_insert_eq by lia.
  - case_bool_decide as Eb; [|done]. subst b'. rewrite list_lookup_insert_ne, Hlook; [done|].
    intros ->. apply El. apply (slot_inj nm no m); [done..|]. congruence.
Qed.
End facts.
End LocMapFacts.
Import LocMapFacts.

Section applicable.
Context {P : profile} {A : Arch}.

Lemma insert_locations_ok nm no interp locs : ∀ m, map_wf nm no m → NoDup locs → Forall (in_range nm no) locs →
  (∀ loc, loc ∈ locs → LocMap.get m loc = None) →
  ∃ m', insert_locations m locs interp = Ok m' ∧ map_wf nm no m' ∧
    ∀ loc, in_range nm no loc → LocMap.get m' loc = if decide (loc ∈ locs) then Some interp else LocMap.get m loc.
Proof.
  induction locs as [|l locs IH]; intros m Hm Hnd Hin Hno; cbn [insert_locations].
  { exists m. split_and!; [done..|]. intros loc _. by rewrite decide_False by set_solver. }
  apply NoDup_cons in Hnd as [Hl Hnd]. apply Forall_cons in Hin as [Hinl Hin].
  destruct (insert_ok nm no m l interp Hm Hinl) as (m1 & -> & W1 & G1). rewrite M_bind_Ok, (Hno l) by left.
  rewrite bool_decide_true by done. cbn [rassert]. rewrite M_bind_Ok.
  destruct (IH m1 W1 Hnd Hin) as (m2 & -> & W2 & G2).
  { intros loc Hloc. rewrite G1 by (rewrite Forall_forall in Hin; by apply Hin). rewrite decide_False by (intros ->; done). apply Hno. by right. }
  exists m2. split_and!; [done..|]. intros loc Hloc. rewrite G2, G1 by done. repeat case_decide; try done; set_solver.
Qed.

(** The interpretation that applies at a place: that of the part with a value
    that lists it. *)
Fixpoint placed (l : list ((Part * option Z) * Interp)) (loc : FlowValueLocation) : option Interp :=
  match l with
  | [] => None
  | ((part, part_value), interp) :: l =>
      if bool_decide (is_Some part_value ∧ loc ∈ part_locations (part_mapping part)) then Some interp else placed l loc
  end.
Definition all_locations (parts : list Part) : list FlowValueLocation := mjoin ((λ p, part_locations (part_mapping p)) <$> parts).

Lemma applicable_ok nm no l : ∀ m, map_wf nm no m → NoDup (all_locations l.*1.*1) → Forall (in_range nm no) (all_locations l.*1.*1) →
  (∀ loc, loc ∈ all_locations l.*1.*1 → LocMap.get m loc = None) →
  ∃ m', applicable_parts m l = Ok m' ∧ map_wf nm no m' ∧
    ∀ loc, in_range nm no loc → LocMap.get m' loc = match placed l loc with Some i => Some i | None => LocMap.get m loc end.
Proof.
  induction l as [|[[part pv] interp] l IH]; intros m Hm Hnd Hin Hno; cbn [applicable_parts].
  { exists m. done. }
  unfold all_locations in *. cbn [fmap list_fmap fst mjoin list_join] in *. apply NoDup_app in Hnd as (Hnd1 & Hdis & Hnd2).
  apply Forall_app in Hin as [Hin1 Hin2]. set (locs := part_locations (part_mapping part)) in *.
  assert (∃ m1, match pv with Some _ => insert_locations m locs interp | None => Ok m end = Ok m1 ∧ map_wf nm no m1 ∧
    ∀ loc, in_range nm no loc → LocMap.get m1 loc = if bool_decide (is_Some pv ∧ loc ∈ locs) then Some interp else LocMap.get m loc)
    as (m1 & -> & W1 & G1).
  { destruct pv as [v|].
    - destruct (insert_locations_ok nm no interp locs m) as (m1 & E & W & G); [done..|set_solver|]. exists m1. split_and!; [done..|].
      intros loc Hloc. rewrite (G loc Hloc). case_decide; case_bool_decide; naive_solver.
    - exists m. split_and!; [done..|]. intros loc _. rewrite bool_decide_false; [done|]. intros [[? ?] _]. done. }
  rewrite M_bind_Ok. rewrite Forall_forall in Hin2. destruct (IH m1 W1 Hnd2) as (m2 & -> & W2 & G2).
  - by apply Forall_forall.
  - intros loc Hloc. rewrite G1 by by apply Hin2. rewrite bool_decide_false; [apply Hno; set_solver|]. intros [_ Hl]. by apply (Hdis loc).
  - exists m2. split_and!; [done..|]. intros loc Hloc. rewrite G2, G1 by done. cbn [placed]. fold locs.
    case_bool_decide as Hc; [|done]. destruct (placed l loc) as [i|] eqn:Ep; [|done]. exfalso. destruct Hc as [_ Hc].
    apply (Hdis loc Hc). clear - Ep. induction l as [|[[p v] j] l IH]; [done|]. cbn in *. case_bool_decide; set_solver.
Qed.
End applicable.

(** ** The meaning of a part value *)

(** The address bits of an immediate add or subtract powers of two. *)
Definition order_term (b : ImmBitOrder) : Z := match b with Positive k => 2 ^ Z.of_nat k | Negative k => - 2 ^ Z.of_nat k end.
Definition order_bit (b : ImmBitOrder) : nat := match b with Positive k | Negative k => k end.
Fixpoint order_sum (l : list ImmBitOrder) (index : nat) (v : Z) : Z :=
  match l with
  | [] => 0
  | b :: l => (if Z.testbit v (Z.of_nat index) then order_term b else 0) + order_sum l (index + 1) v
  end.
(** The removed bits of an immediate, filled in again. *)
Fixpoint imm_fill (bits : ImmBits) (v : Z) : Z :=
  match bits with
  | [] => 0
  | ImmIs0 :: bits => 2 * imm_fill bits v
  | ImmIs1 :: bits => 1 + 2 * imm_fill bits v
  | ImmFill :: bits => Z.b2z (Z.testbit v 0) + 2 * imm_fill bits (Z.shiftr v 1)
  end.

Section meaning.
Context {P : profile} {A : Arch}.

Lemma land_1 x : Z.land x 1 = Z.b2z (Z.testbit x 0).
Proof. change 1 with (Z.ones 1). rewrite Z.land_ones by lia. change (2 ^ 1) with 2. by rewrite <- Z.bit0_mod. Qed.
Lemma as_offset_ok b (x : bool) : (order_bit b < 64)%nat → as_offset b (Z.b2z x) = Ok (wrap 64 (if x then order_term b else 0)).
Proof.
  intros Hb. assert (∀ k, (k < 64)%nat → Z.shiftl (Z.b2z x) (Z.of_nat k) = if x then 2 ^ Z.of_nat k else 0) as Hs.
  { intros k _. destruct x; cbn [Z.b2z]; [apply Z.shiftl_1_l|apply Z.shiftl_0_l]. }
  destruct b as [k|k]; cbn [as_offset order_bit order_term] in *; rewrite shl_bit, Hs by done.
  - f_equal. symmetry. apply wrap_small. destruct x; [|split; lia]. split; [lia|]. apply Z.pow_lt_mono_r; lia.
  - rewrite M_bind_Ok. f_equal. unfold wrapping_add, not_u. rewrite wrap_add_l by lia. f_equal. unfold Z.lnot. destruct x; lia.
Qed.
Lemma order_value_ok l : ∀ index v acc, Forall (λ b, (order_bit b < 64)%nat) l → (index + length l <= 64)%nat →
  order_value l index v (wrap 64 acc) = Ok (wrap 64 (acc + order_sum l index v)).
Proof.
  induction l as [|b l IH]; intros index v acc Hl Hlen; cbn [order_value order_sum length] in *; [by rewrite Z.add_0_r|].
  apply Forall_cons in Hl as [Hb Hl]. rewrite shr_ok, M_bind_Ok by lia. rewrite land_1, Z.shiftr_spec by lia.
  rewrite Z.add_0_l, as_offset_ok, M_bind_Ok by done. unfold wrapping_add. rewrite wrap_add_l, wrap_add_r by lia.
  rewrite IH by (done || lia). f_equal. f_equal. lia.
Qed.
Lemma interpret_bits_ok bits : ∀ index v result, (index + length bits <= 64)%nat → is_u (Z.of_nat index) result →
  interpret_bits bits index v result = Ok (result + 2 ^ Z.of_nat index * imm_fill bits v).
Proof.
  induction bits as [|b bits IH]; intros index v result Hlen Hr; cbn [interpret_bits imm_fill length] in *.
  { f_equal. lia. }
  assert (∀ (x : bool) w, (x0 ← shl_u 64 (Z.b2z x) (Z.of_nat index); interpret_bits bits (S index) w (Z.lor result x0)) =
    Ok (result + 2 ^ Z.of_nat index * (Z.b2z x + 2 * imm_fill bits w))) as Hstep.
  { intros x w. rewrite shl_bit, M_bind_Ok by lia. rewrite Z.shiftl_mul_pow2 by lia.
    assert (Z.lor result (Z.b2z x * 2 ^ Z.of_nat index) = result + Z.b2z x * 2 ^ Z.of_nat index) as ->.
    { rewrite <- Z.lxor_lor, <- Z.add_nocarry_lxor; [done|..]; apply Z.bits_inj'; intros t Ht; rewrite Z.land_spec, Z.bits_0;
        (destruct (Z.lt_ge_cases t (Z.of_nat index));
         [rewrite Z.mul_pow2_bits_low by lia; apply andb_false_r | by rewrite (testbit_u_high (Z.of_nat index)) by (done || lia)]). }
    assert (2 ^ Z.of_nat (S index) = 2 * 2 ^ Z.of_nat index) as E by (rewrite Nat2Z.inj_succ, Z.pow_succ_r; lia).
    rewrite IH; [rewrite E; f_equal; lia|lia|]. destruct Hr as [H1 H2]. split; [destruct x; cbn; lia|]. rewrite E. destruct x; cbn; lia. }
  destruct b.
  - apply (Hstep false).
  - apply (Hstep true).
  - rewrite land_1. apply Hstep.
Qed.

(** What a part value stands for, if it stands for something. *)
Definition meaning (part : Part) (v : Z) : option Interp :=
  match part_mapping part with
  | PRegister mapping _ => IReg <$> mjoin (mapping !! Z.to_nat v)
  | PMemory mapping _ => IAddr <$> mjoin (mapping !! Z.to_nat v)
  | PImm mapping _ bits =>
      let imm := match bits with Some bits => imm_fill bits v | None => v end in
      match mapping with
      | Some (Mapping mapping) => if bool_decide (mapping !! Z.to_nat v = Some Valid) then Some (IConst (part_size part) v imm) else None
      | Some (BitOrder l) => Some (IConst (part_size part) (wrap 64 (order_sum l 0 v)) imm)
      | None => Some (IConst (part_size part) v imm)
      end
  end.
(** Mappings with an entry for every value, and bit orders within 64 bits. *)
Record part_wf (part : Part) : Prop := {
  part_wf_mapping : match part_mapping part with
    | PRegister mapping _ => (part_size part < 64)%nat ∧ Z.of_nat (length mapping) = 2 ^ Z.of_nat (part_size part)
    | PMemory mapping _ => (part_size part < 64)%nat ∧ Z.of_nat (length mapping) = 2 ^ Z.of_nat (part_size part)
    | PImm (Some (Mapping mapping)) _ _ => (part_size part < 64)%nat ∧ Z.of_nat (length mapping) = 2 ^ Z.of_nat (part_size part)
    | PImm (Some (BitOrder l)) _ _ => (length l <= 64)%nat ∧ Forall (λ b, (order_bit b < 64)%nat) l
    | PImm None _ _ => True
    end;
  part_wf_bits bits : (∃ m l, part_mapping part = PImm m l (Some bits)) → (length bits <= 64)%nat;
}.

Lemma imm_bits_ok part m l bits v : part_wf part → part_mapping part = PImm m l bits →
  match bits with Some bits => interpret_value bits v | None => Ok v end =
  Ok (match bits with Some bits => imm_fill bits v | None => v end).
Proof.
  intros [_ H] E. destruct bits as [bits|]; [|done]. unfold interpret_value. rewrite interpret_bits_ok.
  - f_equal. cbn. lia.
  - apply H. eauto.
  - split; cbn; lia.
Qed.
Lemma interp_part_ok part v : part_wf part → is_u (Z.of_nat (part_size part)) v →
  interp_part part v = Ok (match meaning part v with Some i => (i, None) | None => (INone, Some (mapping_error (part_mapping part))) end).
Proof.
  intros Hw [Hv1 Hv2]. pose proof (part_wf_mapping part Hw) as Hm. unfold interp_part, meaning.
  destruct (part_mapping part) as [m locs bits|m idx|m locs] eqn:Em.
  - rewrite (imm_bits_ok part m locs bits v Hw Em), M_bind_Ok. destruct m as [[m|l]|]; [| |done].
    + destruct Hm as [_ Hm]. destruct (lookup_lt_is_Some_2 m (Z.to_nat v)) as [x Hx]; [lia|].
      unfold vget. rewrite Hx. cbn [unwrap]. rewrite M_bind_Ok. by destruct x.
    + destruct Hm as [H1 H2]. change 0 with (wrap 64 0) at 1. rewrite order_value_ok by done. done.
  - destruct Hm as [_ Hm]. destruct (lookup_lt_is_Some_2 m (Z.to_nat v)) as [x Hx]; [lia|].
    unfold vget. rewrite Hx. cbn [unwrap]. rewrite M_bind_Ok. by destruct x.
  - destruct Hm as [_ Hm]. destruct (lookup_lt_is_Some_2 m (Z.to_nat v)) as [x Hx]; [lia|].
    unfold vget. rewrite Hx. cbn [unwrap]. rewrite M_bind_Ok. by destruct x.
Qed.
Lemma any_none_false {X} (l : list (option X)) k : any_none l = false → (k < length l)%nat → is_Some (mjoin (l !! k)).
Proof.
  intros Hl Hk. destruct (lookup_lt_is_Some_2 l k Hk) as [o Ho]. rewrite Ho. destruct o as [x|]; [by eexists|]. exfalso.
  unfold any_none in Hl. apply not_true_iff_false in Hl. apply Hl, existsb_exists. exists None.
  split; [apply list_elem_of_In; by eapply list_elem_of_lookup_2|]. by rewrite bool_decide_true.
Qed.
(** [value_is_valid] tells whether the value has a meaning. *)
Lemma value_is_valid_ok part v : part_wf part → is_u (Z.of_nat (part_size part)) v →
  value_is_valid (part_mapping part) v = Ok (bool_decide (is_Some (meaning part v))).
Proof.
  intros Hw [Hv1 Hv2]. pose proof (part_wf_mapping part Hw) as Hm. unfold value_is_valid, meaning.
  destruct (part_mapping part) as [m locs bits|m idx|m locs] eqn:Em.
  - destruct m as [[m|l]|]; [|by rewrite bool_decide_true..]. destruct Hm as [_ Hm].
    destruct (lookup_lt_is_Some_2 m (Z.to_nat v)) as [x Hx]; [lia|]. rewrite Hx.
    destruct (existsb is_invalid m) eqn:E.
    + unfold vget. rewrite Hx. cbn [unwrap]. rewrite M_bind_Ok. by destruct x.
    + destruct x; [by rewrite !bool_decide_true|]. exfalso. apply not_true_iff_false in E. apply E, existsb_exists.
      exists Invalid. split; [apply list_elem_of_In; by eapply list_elem_of_lookup_2|done].
  - destruct Hm as [_ Hm]. destruct (any_none m) eqn:E.
    + destruct (lookup_lt_is_Some_2 m (Z.to_nat v)) as [x Hx]; [lia|]. unfold vget. rewrite Hx. cbn [unwrap]. rewrite M_bind_Ok. by destruct x.
    + destruct (any_none_false m (Z.to_nat v) E ltac:(lia)) as [c ->]. by rewrite bool_decide_true.
  - destruct Hm as [_ Hm]. destruct (any_none m) eqn:E.
    + destruct (lookup_lt_is_Some_2 m (Z.to_nat v)) as [x Hx]; [lia|]. unfold vget. rewrite Hx. cbn [unwrap]. rewrite M_bind_Ok. by destruct x.
    + destruct (any_none_false m (Z.to_nat v) E ltac:(lia)) as [c ->]. by rewrite bool_decide_true.
Qed.
End meaning.

(** ** Instantiation *)

Section instantiation.
Context {P : profile} {A : Arch} {C : Type}.

Definition num_accesses (e : Encoding C) : nat := length (accesses (addresses (enc_dataflows e))).
Definition num_flows (e : Encoding C) : nat := length (outputs (enc_dataflows e)).
(** An encoding that can be instantiated: parts with a mapping for every value;
    no place and no memory access belongs to two parts; the places of register
    parts hold registers, and every immediate of the dataflows is listed in its
    part. *)
Definition memory_indexes_of (m : PartMapping) : list nat := match m with PMemory _ memory_indexes => memory_indexes | _ => [] end.
Record enc_ok (e : Encoding C) : Prop := {
  ok_wf : enc_wf e;
  ok_parts n part : enc_parts e !! n = Some part → part_wf part ∧ part_size part = part_width (enc_bits e) n;
  ok_places : NoDup (all_locations (enc_parts e));
  ok_listed : Forall (in_range (num_accesses e) (num_flows e)) (all_locations (enc_parts e));
  ok_memory : NoDup (mjoin ((λ p, memory_indexes_of (part_mapping p)) <$> enc_parts e));
  ok_range loc s : source_at (enc_dataflows e) loc s → in_range (num_accesses e) (num_flows e) loc;
  ok_registers part m locs loc s : part ∈ enc_parts e → part_mapping part = PRegister m locs → loc ∈ locs →
    source_at (enc_dataflows e) loc s → ∃ r sz, s = SDest (DReg r sz);
  ok_immediates loc n : source_at (enc_dataflows e) loc (SImm n) → ∃ part m locs bits, enc_parts e !! n = Some part ∧
    part_mapping part = PImm m locs bits ∧ loc ∈ part_locations (part_mapping part);
}.

Definition interp_of (part : Part) (o : option Z) : Interp := match o with Some v => default INone (meaning part v) | None => INone end.
Definition interps (parts : list Part) (pv : list (option Z)) : list ((Part * option Z) * Interp) :=
  (λ p, (p, interp_of p.1 p.2)) <$> zip parts pv.
(** A part value without a meaning. *)
Definition is_bad (p : Part * option Z) : Prop := ∃ v, p.2 = Some v ∧ meaning p.1 v = None.
#[global] Instance is_bad_dec p : Decision (is_bad p).
Proof.
  destruct p as [part [v|]].
  - destruct (meaning part v) eqn:E; [right|left]; [|by exists v]. intros (w & [= <-] & H). cbn in *. congruence.
  - right. by intros (w & ? & _).
Defined.
Definition sized (p : Part * option Z) : Prop :=
  part_wf p.1 ∧ (part_size p.1 <= 64)%nat ∧ ∀ v, p.2 = Some v → is_u (Z.of_nat (part_size p.1)) v.

Lemma sized_parts (e : Encoding C) pv : enc_ok e → values_ok e pv → values_fit e pv → Forall sized (zip (enc_parts e) pv).
Proof.
  intros He [V1 V2] Hfit. apply Forall_lookup_2. intros n [part o] Hn. apply lookup_zip_Some in Hn as [Hp Ho].
  destruct (ok_parts e He n part Hp) as [Hw Hs]. split; [done|]. cbn [fst snd]. rewrite Hs.
  split; [apply (enc_wf_narrow e (ok_wf e He))|]. intros v ->. by apply Hfit.
Qed.
Lemma check_values_ok l : Forall sized l →
  check_values (prod_swap <$> l) = Ok (mapping_error ∘ part_mapping ∘ fst ∘ snd <$> list_find is_bad l).
Proof.
  induction 1 as [|[part o] l (Hw & H64 & Hu) Hl IH]; [done|]. cbn [fmap list_fmap prod_swap check_values list_find fst snd] in *.
  destruct o as [v|].
  2: { rewrite decide_False by (by intros (w & ? & _)). rewrite IH. by destruct (list_find is_bad l) as [[? ?]|]. }
  specialize (Hu v eq_refl). destruct (Nat.ltb_spec (part_size part) 64) as [Hlt|Hge].
  - rewrite shl_u_ok, M_bind_Ok, Z.shiftl_1_l by lia.
    assert (wrap 64 (2 ^ Z.of_nat (part_size part)) = 2 ^ Z.of_nat (part_size part)) as ->.
    { apply wrap_small. split; [lia|]. apply Z.pow_lt_mono_r; lia. }
    assert (match part_mapping part with PImm (Some (BitOrder _)) _ _ => true | _ => v <=? 2 ^ Z.of_nat (part_size part) end = true) as ->.
    { assert (v <=? 2 ^ Z.of_nat (part_size part) = true) as E by (apply Z.leb_le; destruct Hu; lia).
      by destruct (part_mapping part) as [[[]|]| |]. }
    cbn [rassert]. rewrite M_bind_Ok, value_is_valid_ok, M_bind_Ok by done. destruct (meaning part v) as [i|] eqn:Em.
    + rewrite bool_decide_true by done. cbn [negb]. rewrite decide_False by (intros (w & [= <-] & ?); cbn in *; congruence).
      rewrite IH. by destruct (list_find is_bad l) as [[? ?]|].
    + rewrite bool_decide_false by (by intros [? ?]). cbn [negb]. rewrite decide_True by (exists v; done). done.
  - assert (is_Some (meaning part v)) as [i Em].
    { pose proof (part_wf_mapping part Hw) as Hm. unfold meaning. destruct (part_mapping part) as [[[]|]| |]; try done; lia. }
    rewrite decide_False by (intros (w & [= <-] & ?); cbn in *; congruence). rewrite IH. by destruct (list_find is_bad l) as [[? ?]|].
Qed.
Lemma interp_parts_ok l : Forall sized l → Forall (λ p, ~ is_bad p) l →
  interp_parts l = Ok ((λ p, (interp_of p.1 p.2, None)) <$> l).
Proof.
  intros Hs Hb. apply mapM_Ok. intros [part o] Hin. rewrite Forall_forall in Hs, Hb. destruct (Hs _ Hin) as (Hw & _ & Hu).
  specialize (Hb _ Hin). cbn [fst snd] in *. destruct o as [v|]; [|done]. rewrite interp_part_ok by (done || by apply Hu). cbn.
  destruct (meaning part v) as [i|] eqn:E; [done|]. destruct Hb. by exists v.
Qed.
Lemma first_missing_none l : Forall (λ o, o = None) l → first_missing l = None.
Proof.
  intros Hl. unfold first_missing. assert (∀ e, bool_decide (Some e ∈ l) = false) as H.
  { intros e. apply bool_decide_false. intros Hin. rewrite Forall_forall in Hl. by specialize (Hl _ Hin). }
  cbn. by rewrite !H.
Qed.

(** The source at a place after instantiation. *)
Definition renumbered (pv : list (option Z)) (s : Source) : Source :=
  match s with SImm n => match new_indices_from 0 pv !! n with Some (Some k) => SImm k | _ => s end | _ => s end.
Definition replaced (parts : list Part) (pv : list (option Z)) (loc : FlowValueLocation) (s : Source) : Source :=
  match placed (interps parts pv) loc with
  | Some (IReg r) => match s with SDest (DReg _ sz) => SDest (DReg r sz) | _ => s end
  | Some (IConst num_bits mem_value imm_value) => SConst (if Loc.is_address loc then mem_value else imm_value) (Z.of_nat num_bits)
  | _ => renumbered pv s
  end.
(** The address computation of an access after instantiation keeps its offset. *)
Fixpoint calculation_for (l : list ((Part * option Z) * Interp)) (memory_index : nat) : option AddressComputation :=
  match l with
  | [] => None
  | ((part, part_value), interp) :: l =>
      match part_value, part_mapping part, interp with
      | Some _, PMemory _ memory_indexes, IAddr a => if bool_decide (memory_index ∈ memory_indexes) then Some a else calculation_for l memory_index
      | _, _, _ => calculation_for l memory_index
      end
  end.
Definition recalculated (parts : list Part) (pv : list (option Z)) (memory_index : nat) (c : AddressComputation) : AddressComputation :=
  match calculation_for (interps parts pv) memory_index with Some a => Calc.with_offset a (calc_offset c) | None => c end.

Lemma placed_inv parts pv loc i : placed (interps parts pv) loc = Some i →
  ∃ n part v, parts !! n = Some part ∧ pv !! n = Some (Some v) ∧ loc ∈ part_locations (part_mapping part) ∧ i = interp_of part (Some v).
Proof.
  unfold interps. revert pv. induction parts as [|part parts IH]; intros [|o pv] H; try done. cbn in H. case_bool_decide as Hc.
  - injection H as <-. destruct Hc as [[v ->] Hin]. by exists 0%nat, part, v.
  - destruct (IH pv H) as (n & part' & v & ? & ? & ? & ?). by exists (S n), part', v.
Qed.
Lemma calculation_ok parts pv m c : Forall (λ p, ~ is_bad p) (zip parts pv) →
  ∃ r, map_calculation (interps parts pv) m c = Ok r ∧ default c r = recalculated parts pv m c.
Proof.
  unfold interps, recalculated, interps. revert pv. induction parts as [|part parts IH]; intros [|o pv] Hb; [by exists None..|].
  cbn [zip zip_with] in Hb. apply Forall_cons in Hb as [Hp Hb]. destruct (IH pv Hb) as (r & Er & Ed).
  cbn [zip zip_with fmap list_fmap map_calculation calculation_for]. cbn [fst snd]. destruct o as [v|]; [|by exists r].
  destruct (part_mapping part) as [| mapping idx|] eqn:Em; [by exists r| |by exists r]. cbn [interp_of].
  unfold meaning in Hp |- *. rewrite Em. destruct (mjoin (mapping !! Z.to_nat v)) as [a|] eqn:Ea.
  - cbn. case_bool_decide; [|by exists r]. by exists (Some (Calc.with_offset a (calc_offset c))).
  - destruct Hp. exists v. split; [done|]. unfold meaning. cbn. by rewrite Em, Ea.
Qed.

Lemma zip_fst {X Y} (l : list X) (k : list Y) : length l = length k → (zip l k).*1 = l.
Proof. revert k. induction l as [|x l IH]; intros [|y k] H; try done. cbn. f_equal. apply IH. cbn in H. lia. Qed.
Lemma zip_swap {X Y} (l : list X) (k : list Y) : zip k l = prod_swap <$> zip l k.
Proof. revert k. induction l as [|x l IH]; intros [|y k]; [done..|]. cbn. f_equal. apply IH. Qed.
Lemma interps_zip parts pv : zip (zip parts pv) ((λ p, interp_of p.1 p.2) <$> zip parts pv) = interps parts pv.
Proof. unfold interps. induction (zip parts pv) as [|x l IH]; [done|]. cbn. by rewrite IH. Qed.
Lemma interps_parts parts (pv : list (option Z)) : length parts = length pv → (interps parts pv).*1.*1 = parts.
Proof.
  intros Hl. unfold interps. assert (∀ l : list (Part * option Z), ((λ p, (p, interp_of p.1 p.2)) <$> l).*1 = l) as ->; [|by apply zip_fst].
  intros l. induction l as [|x l IH]; [done|]. cbn. by rewrite IH.
Qed.

(** The values that have no meaning, in the order of the parts. *)
Definition bad_parts (e : Encoding C) (pv : list (option Z)) : Prop := Exists is_bad (zip (enc_parts e) pv).

Lemma source_places (e : Encoding C) pv applicable loc s : enc_ok e → values_ok e pv →
  (∀ loc, in_range (num_accesses e) (num_flows e) loc → LocMap.get applicable loc = placed (interps (enc_parts e) pv) loc) →
  Forall (λ p, ~ is_bad p) (zip (enc_parts e) pv) → source_at (enc_dataflows e) loc s →
  map_source applicable (new_indices_from 0 pv) loc s = Ok (Some (replaced (enc_parts e) pv loc s)) ∧
  (∀ d, s = SDest d → ∀ o, loc = VOutput o → ∃ d', replaced (enc_parts e) pv loc s = SDest d').
Proof.
  intros He Hpv Hget Hb Hs. pose proof (ok_range e He loc s Hs) as Hin. unfold map_source, replaced. rewrite (Hget loc Hin).
  destruct (placed (interps (enc_parts e) pv) loc) as [i|] eqn:Ep.
  - destruct (placed_inv _ _ _ _ Ep) as (n & part & v & Hn & Hv & Hl & ->). cbn [interp_of] in *.
    destruct (meaning part v) as [i|] eqn:Em.
    2: { rewrite Forall_forall in Hb. destruct (Hb (part, Some v)); [|by exists v].
         apply (list_elem_of_lookup_2 _ n). by apply lookup_zip_Some. }
    unfold meaning in Em. cbn [default] in *. destruct (part_mapping part) as [m locs bits|m idx|m locs] eqn:Eq; [|set_solver|].
    + assert (∃ nb mv iv, i = IConst nb mv iv) as (nb & mv & iv & ->).
      { destruct m as [[m|l]|]; [case_bool_decide|..]; naive_solver. }
      split; [done|]. intros d _ o ->. cbn in Hl. apply list_elem_of_fmap in Hl as ([] & ? & _); done.
    + destruct (mjoin _) as [r|]; [|done]. injection Em as <-.
      destruct (ok_registers e He part m locs loc s) as (r0 & sz & ->); [by eapply list_elem_of_lookup_2|done|done|done|]. eauto.
  - unfold renumbered. destruct s as [d|n|v nb]; [eauto| |by split]. split; [|done].
    destruct (ok_immediates e He loc n Hs) as (part & m & locs & bits & Hn & Em & Hl).
    assert (pv !! n = Some None) as Hnone.
    { destruct (lookup_lt_is_Some_2 pv n) as [o Ho]; [rewrite (values_length e pv Hpv); by eapply lookup_lt_Some|].
      destruct o as [v|]; [|done]. exfalso. clear - Ep Hn Ho Hl. unfold interps in Ep. revert pv n Ep Hn Ho.
      induction (enc_parts e) as [|p parts IH]; intros [|o pv] [|n] Ep Hn Ho; try done; cbn in *; case_bool_decide as Hc; try done.
      - simplify_eq. destruct Hc. split; [by eexists|done].
      - by apply (IH pv n). }
    assert (∀ b, ∃ k, new_indices_from b pv !! n = Some (Some k)) as Hk.
    { clear - Hnone. revert n Hnone. induction pv as [|o pv IH]; intros [|n] Hn b; try done; cbn in *.
      - simplify_eq. eauto.
      - destruct o; cbn; by apply IH. }
    destruct (Hk 0%nat) as [k Ek]. unfold vget. by rewrite Ek.
Qed.
Lemma instantiate_dataflows_ok (e : Encoding C) pv : enc_ok e → values_ok e pv → values_fit e pv → ~ bad_parts e pv →
  ∃ r, part_values_to_instr e pv = Ok r ∧ instr_wf r ∧ length (bytes r) = length (bytes (enc_instr e)) ∧
    (∀ j, (j < length (enc_bits e))%nat → rbit r j = bit_with e pv j) ∧
    instantiate_dataflows e pv (new_indices_from 0 pv) =
      Ok (inl (mapped (enc_dataflows e) r (replaced (enc_parts e) pv) (recalculated (enc_parts e) pv))).
Proof.
  intros He Hpv Hfit Hb. pose proof (values_length e pv Hpv) as Hlen.
  destruct (part_values_ok e pv (ok_wf e He) Hpv Hfit) as (r & Er & W & L & R). exists r. split_and!; [done..|].
  pose proof (sized_parts e pv He Hpv Hfit) as Hs. assert (Forall (λ p, ~ is_bad p) (zip (enc_parts e) pv)) as Hgood.
  { apply Forall_forall. intros p Hp Hbad. apply Hb, Exists_exists. eauto. }
  unfold instantiate_dataflows. rewrite Hlen, Nat.eqb_refl, (proj2 (Nat.leb_le _ _) (enc_wf_max e (ok_wf e He))). cbn [rassert].
  rewrite !M_bind_Ok, Er, M_bind_Ok. rewrite (zip_swap (enc_parts e) pv), check_values_ok, M_bind_Ok by done.
  assert (list_find is_bad (zip (enc_parts e) pv) = None) as -> by by apply list_find_None. cbn [fmap option_fmap option_map].
  rewrite (interp_parts_ok _ Hs Hgood), M_bind_Ok. rewrite first_missing_none.
  2: { apply Forall_forall. intros o Ho. apply list_elem_of_fmap in Ho as (p & -> & Hp). by apply list_elem_of_fmap in Hp as (q & -> & _). }
  rewrite <- list_fmap_compose. unfold compose. cbn [fst]. rewrite interps_zip.
  destruct (applicable_ok (num_accesses e) (num_flows e) (interps (enc_parts e) pv) (LocMap.new (num_accesses e) (num_flows e)))
    as (m & Em & Wm & Gm); rewrite ?interps_parts by done;
    [apply LocMapFacts.empty_map_wf|apply (ok_places e He)|apply (ok_listed e He)|intros; apply get_new|].
  unfold num_accesses, num_flows, accesses_len in *. rewrite Em, M_bind_Ok.
  rewrite (dataflows_map_ok _ _ _ (replaced (enc_parts e) pv) _ (recalculated (enc_parts e) pv)); [done| | |].
  - intros loc s Hsrc. apply source_places; try done. intros loc' Hl'. rewrite Gm by done. rewrite get_new. by destruct (placed _ _).
  - intros o flow Ho. assert (source_at (enc_dataflows e) (VOutput o) (SDest (target flow))) as Hsrc by (by exists flow).
    eapply (source_places e pv m); [done|done| |done|done|done|done]. intros loc' Hl'. rewrite Gm by done. rewrite get_new. by destruct (placed _ _).
  - intros mi a Ha. by apply calculation_ok.
Qed.

(** The error of the first part whose value has no meaning. *)
Lemma instantiate_dataflows_bad (e : Encoding C) pv idx n part o : enc_ok e → values_ok e pv → values_fit e pv →
  list_find is_bad (zip (enc_parts e) pv) = Some (n, (part, o)) → instantiate_dataflows e pv idx = Ok (inr (mapping_error (part_mapping part))).
Proof.
  intros He Hok Hfit Hbad. destruct (part_values_ok e _ (ok_wf e He) Hok Hfit) as (r & Er & _). pose proof (values_length e pv Hok) as Hlen.
  unfold instantiate_dataflows. rewrite Hlen, Nat.eqb_refl, (proj2 (Nat.leb_le _ _) (enc_wf_max e (ok_wf e He))). cbn [rassert].
  rewrite !M_bind_Ok, Er, M_bind_Ok. rewrite (zip_swap (enc_parts e) pv), check_values_ok, M_bind_Ok by by apply sized_parts.
  by rewrite Hbad.
Qed.

Lemma source_at_mapped (d : Dataflows C) r g k loc s' : (∀ o f, outputs d !! o = Some f → ∃ x, g (VOutput o) (SDest (target f)) = SDest x) →
  source_at (mapped d r g k) loc s' ↔ ∃ s, source_at d loc s ∧ s' = g loc s.
Proof.
  intros Hd. destruct loc as [o|o i|m i]; cbn [source_at mapped outputs addresses accesses].
  - setoid_rewrite list_lookup_imap. split.
    + intros (f & Hf & ->). destruct (outputs d !! o) as [f0|] eqn:E; [|done]. injection Hf as <-. exists (SDest (target f0)).
      split; [by exists f0|]. cbn. by destruct (Hd o f0 E) as [x ->].
    + intros (s & (f & Hf & ->) & ->). rewrite Hf. eexists. split; [done|]. cbn. by destruct (Hd o f Hf) as [x ->].
  - setoid_rewrite list_lookup_imap. split.
    + intros (f & Hf & Hi). destruct (outputs d !! o) as [f0|] eqn:E; [|done]. injection Hf as <-. cbn in Hi.
      rewrite list_lookup_imap in Hi. destruct (Locs.inputs (flow_inputs f0) !! i) as [s|] eqn:Es; [|done]. injection Hi as <-. eauto.
    + intros (s & (f & Hf & Hi) & ->). rewrite Hf. eexists. split; [done|]. cbn. by rewrite list_lookup_imap, Hi.
  - setoid_rewrite list_lookup_imap. split.
    + intros (a & Ha & Hi). destruct (accesses (addresses d) !! m) as [a0|] eqn:E; [|done]. injection Ha as <-. cbn in Hi.
      rewrite list_lookup_imap in Hi. destruct (Locs.inputs (access_inputs a0) !! i) as [s|] eqn:Es; [|done]. injection Hi as <-. eauto.
    + intros (s & (a & Ha & Hi) & ->). rewrite Ha. eexists. split; [done|]. cbn. by rewrite list_lookup_imap, Hi.
Qed.
(** What replacing can turn a source into. *)
Lemma replaced_target (e : Encoding C) pv o f : enc_ok e → values_ok e pv → ~ bad_parts e pv → outputs (enc_dataflows e) !! o = Some f →
  ∃ d, replaced (enc_parts e) pv (VOutput o) (SDest (target f)) = SDest d.
Proof.
  intros He Hpv Hb Hf. assert (source_at (enc_dataflows e) (VOutput o) (SDest (target f))) as Hs by by exists f.
  unfold replaced. destruct (placed _ _) as [i|] eqn:Ep; [|cbn; eauto].
  destruct (placed_inv _ _ _ _ Ep) as (n & part & v & Hn & Hv & Hl & ->). cbn [interp_of]. unfold meaning.
  destruct (part_mapping part) as [m locs bits|m idx|m locs] eqn:Em; [|set_solver|].
  - cbn in Hl. by apply list_elem_of_fmap in Hl as ([] & ? & _).
  - destruct (ok_registers e He part m locs _ _ ltac:(by eapply list_elem_of_lookup_2) Em Hl Hs) as (r & sz & [= ->]).
    destruct (mjoin _); cbn; eauto.
Qed.
Lemma placed_here parts pv n part v loc : parts !! n = Some part → pv !! n = Some (Some v) → loc ∈ part_locations (part_mapping part) →
  is_Some (placed (interps parts pv) loc).
Proof.
  unfold interps. revert pv n. induction parts as [|p parts IH]; intros [|o pv] [|n] Hn Hv Hl; try done; cbn in *; case_bool_decide as Hc; try done.
  - simplify_eq. destruct Hc. split; [by eexists|done].
  - by apply (IH pv n).
Qed.
(** A place that holds an immediate of a part with a value receives a constant. *)
Lemma replaced_imm (e : Encoding C) pv loc n v : enc_ok e → ~ bad_parts e pv → source_at (enc_dataflows e) loc (SImm n) → pv !! n = Some (Some v) →
  ∃ c nb, replaced (enc_parts e) pv loc (SImm n) = SConst c nb.
Proof.
  intros He Hb Hs Hv. destruct (ok_immediates e He loc n Hs) as (part & m & locs & bits & Hn & Em & Hl).
  destruct (placed_here _ _ _ _ _ _ Hn Hv Hl) as [i Ep]. unfold replaced. rewrite Ep.
  destruct (placed_inv _ _ _ _ Ep) as (n' & part' & v' & Hn' & Hv' & Hl' & ->). cbn [interp_of].
  destruct (meaning part' v') as [i|] eqn:Emn.
  2: { destruct Hb. apply Exists_exists. exists (part', Some v'). split; [|by exists v'].
       apply (list_elem_of_lookup_2 _ n'). by apply lookup_zip_Some. }
  cbn [default]. unfold meaning in Emn. destruct (part_mapping part') as [m' locs' bits'|m' idx|m' locs'] eqn:Em'; [|set_solver|].
  - destruct m' as [[m'|l]|]; [case_bool_decide; [|done]|..]; injection Emn as <-; eauto.
  - destruct (ok_registers e He part' m' locs' loc (SImm n)) as (r & sz & ?); [by eapply list_elem_of_lookup_2|done|done|done|done].
Qed.

(** C5: Instantiation with a value for every part, all of which have a meaning,
    returns the dataflows of that instruction: every place is replaced by what
    the value of its part stands for, or kept, no immediate is left, and the
    address computations keep their offsets.  When a value has no meaning, the
    error is that of the first such part. *)
Theorem instantiate_spec (e : Encoding C) pv : enc_ok e → all_values e pv →
  (~ bad_parts e (Some <$> pv) → ∃ d, instantiate e pv = Ok (inl d) ∧
     all_part_values_to_instr e pv = Ok (dataflows_instr d) ∧
     (∀ loc s, source_at (enc_dataflows e) loc s → source_at d loc (replaced (enc_parts e) (Some <$> pv) loc s)) ∧
     (∀ loc n, ~ source_at d loc (SImm n)) ∧
     (∀ m a, accesses (addresses (enc_dataflows e)) !! m = Some a → ∃ a', accesses (addresses d) !! m = Some a' ∧
        calculation a' = recalculated (enc_parts e) (Some <$> pv) m (calculation a) ∧
        calc_offset (calculation a') = calc_offset (calculation a)) ∧
     computation <$> outputs d = computation <$> outputs (enc_dataflows e)) ∧
  (∀ n part v, list_find is_bad (zip (enc_parts e) (Some <$> pv)) = Some (n, (part, Some v)) →
     meaning part v = None ∧ instantiate e pv = Ok (inr (mapping_error (part_mapping part)))).
Proof.
  intros He Hall. destruct (all_values_ok e pv (ok_wf e He) Hall) as [Hok Hfit]. pose proof (all_values_length e pv Hall) as Hlen.
  pose proof (enc_wf_max e (ok_wf e He)) as Hmax.
  assert (instantiate e pv = instantiate_dataflows e (Some <$> pv) (new_indices_from 0 (Some <$> pv))) as Ei.
  { unfold instantiate, compute_new_indices. rewrite length_fmap, Hlen, (proj2 (Nat.leb_le _ _) Hmax). done. }
  rewrite Ei, all_part_values_eq. split.
  - intros Hb. destruct (instantiate_dataflows_ok e _ He Hok Hfit Hb) as (r & Er & W & L & R & E). rewrite E, Er.
    pose proof (λ o f, replaced_target e (Some <$> pv) o f He Hok Hb) as Ht.
    eexists. split; [done|]. split; [done|]. split_and!.
    + intros loc s Hs. apply source_at_mapped; eauto.
    + intros loc n Hs. apply source_at_mapped in Hs as (s & Hs & Hr); [|done]. destruct s as [d|m|c nb].
      * unfold replaced in Hr. destruct (placed _ _) as [[]|]; try done. by destruct d.
      * destruct (ok_immediates e He loc m Hs) as (part & mm & locs & bits & Hn & _).
        destruct (lookup_lt_is_Some_2 pv m) as [v Hv]; [rewrite Hlen; by eapply lookup_lt_Some|].
        destruct (replaced_imm e (Some <$> pv) loc m v He Hb Hs) as (c & nb & Ec); [by rewrite list_lookup_fmap, Hv|]. congruence.
      * unfold replaced in Hr. by destruct (placed _ _) as [[]|].
    + intros m a Ha. cbn. rewrite list_lookup_imap, Ha. eexists. split; [done|]. split; [done|]. cbn. unfold recalculated.
      by destruct (calculation_for _ _).
    + cbn. apply list_eq. intros o. rewrite !list_lookup_fmap, list_lookup_imap. by destruct (outputs (enc_dataflows e) !! o).
  - intros n part v Hbad. pose proof Hbad as (Hn & (w & [= <-] & Hm) & _)%list_find_Some. split; [done|].
    by rewrite (instantiate_dataflows_bad e _ _ _ _ _ He Hok Hfit Hbad).
Qed.
End instantiation.

(** The encoding of EncodingFacts can be instantiated: with the second register. *)
Lemma demo_sources {C} (c : option C) loc s : source_at (enc_dataflows (demo_with c)) loc s →
  (loc = VOutput 0 ∧ s = SDest (DReg (A:=FakeD) Fake.R1 SizeOps.qword)) ∨
  (loc = VInputForOutput 0 0 ∧ s = SDest (DReg (A:=FakeD) Fake.R1 SizeOps.qword)) ∨ (loc = VInputForOutput 0 1 ∧ s = SImm (A:=FakeD) 1).
Proof.
  destruct loc as [[|o]|[|o] [|[|i]]|m i]; cbn; intros (f & Hf & Hs); try done; injection Hf as <-; cbn in *; simplify_eq; auto.
Qed.
Lemma demo_with_ok {C} (c : option C) : enc_ok (demo_with c).
Proof.
  split.
  - apply demo_with_wf.
  - intros [|[|n]] part Hn; cbn in Hn; [injection Hn as <-..|done]; change (enc_bits (demo_with c)) with demo_bits; rewrite demo_width; cbn.
    + split; [|done]. split; [cbn; split; [lia|done]|]. intros bits (? & ? & ?). done.
    + split; [|done]. split; [done|]. intros bits (? & ? & ?). done.
  - apply (bool_decide_unpack _). reflexivity.
  - repeat (apply Forall_cons; split; [cbn; unfold LocMap.CAPACITY; lia|]). by apply Forall_nil.
  - constructor.
  - intros loc s [[-> _]|[[-> _]|[-> _]]]%(demo_sources c); cbn; unfold LocMap.CAPACITY; lia.
  - intros part m locs loc s Hp Em Hl Hs. destruct (demo_sources c _ _ Hs) as [[-> ->]|[[-> ->]|[-> ->]]]; [eauto..|].
    apply list_elem_of_In in Hp as [<-|[<-|[]]]; cbn in Em; [|done]. injection Em as <- <-. set_solver.
  - intros loc n [[-> ?]|[[-> ?]|[-> ?]]]%(demo_sources c); try done. simplify_eq. do 4 eexists. split; [done|]. split; [done|]. cbn. set_solver.
Qed.
Lemma demo_enc_ok : enc_ok demo_enc.
Proof. apply demo_with_ok. Qed.
Lemma instantiate_witness : ∃ d, instantiate (P:=Dev) demo_enc [1; 0x2A] = Ok (inl d) ∧
  source_at d (VOutput 0) (SDest (DReg (A:=FakeD) Fake.R2 SizeOps.qword)) ∧ source_at d (VInputForOutput 0 1) (SConst (A:=FakeD) 0x2A 8).
Proof.
  destruct (instantiate_spec (P:=Dev) demo_enc [1; 0x2A] demo_enc_ok demo_values) as [H _].
  destruct H as (d & E & _ & S & _).
  - intros [p [Hp [v [Hv Hm]]]]%Exists_exists. apply list_elem_of_In in Hp as [<-|[<-|[]]]; cbn in Hv; injection Hv as <-; done.
  - exists d. split; [exact E|]. split.
    + apply (S (VOutput 0) (SDest (DReg (A:=FakeD) Fake.R1 SizeOps.qword))). eexists. split; reflexivity.
    + apply (S (VInputForOutput 0 1) (SImm (A:=FakeD) 1)). eexists. split; reflexivity.
Defined.
