(* ===== verification/PartialFacts.v ===== *)
(** * Partial instantiation

    Giving values to some parts of an encoding leaves an encoding of the other
    parts that can be instantiated in turn, and instantiating it is the same as
    instantiating the first encoding with all the values at once. *)
From stdpp Require Import gmap.
From S2P Require Import Prelude MachInt Utils Size Value Addr Arch Locs State AddrComp AddrCompFacts Dataflows DataflowsFacts Instruction InstructionFacts.
From S2P Require Import BitPattern Encoding EncodingFacts Instantiate InstantiateFacts.
Import AddrOps Instr.

Lemma elem_of_bind_list {X Y} (f : X → list Y) l x y : x ∈ l → y ∈ f x → y ∈ mjoin (f <$> l).
Proof. intros Hx Hy. apply list_elem_of_join. exists (f x). split; [done|]. by apply list_elem_of_fmap_2. Qed.
Lemma bind_sublist {X Y} (f : X → list Y) l k : l `sublist_of` k → mjoin (f <$> l) `sublist_of` mjoin (f <$> k).
Proof. induction 1; cbn; [done|by apply sublist_app|by apply sublist_inserts_l]. Qed.

(** ** Parts that keep no value *)

Section kept.
Context {X : Type}.

Definition kept (l : list X) (pv : list (option Z)) : list X := fst <$> List.filter (λ '(_, p), bool_decide (p = None)) (zip l pv).
(** All the values: those given first and, for the parts without one, those given later. *)
Fixpoint merge (pv : list (option Z)) (rest : list Z) : list Z :=
  match pv, rest with
  | Some v :: pv, rest => v :: merge pv rest
  | None :: pv, w :: rest => w :: merge pv rest
  | _, _ => []
  end.

Lemma kept_cons x l o pv : kept (x :: l) (o :: pv) = match o with None => x :: kept l pv | Some _ => kept l pv end.
Proof. unfold kept. cbn. by destruct o. Qed.
Lemma kept_sublist l pv : kept l pv `sublist_of` l.
Proof.
  revert pv. induction l as [|x l IH]; intros [|o pv]; [done..|apply sublist_nil_l|]. rewrite kept_cons.
  destruct o; [by apply sublist_cons|by apply sublist_skip].
Qed.
Lemma new_indices_length m pv : length (new_indices_from m pv) = length pv.
Proof. revert m. induction pv as [|[v|] pv IH]; intros m; cbn; [done|by rewrite IH..]. Qed.
Lemma new_index_Some m pv n k : new_indices_from m pv !! n = Some (Some k) → pv !! n = Some None ∧ (m <= k)%nat.
Proof.
  revert m n. induction pv as [|[v|] pv IH]; intros m [|n] H; try done; cbn in *.
  - by apply IH in H.
  - injection H as <-. split; [done|lia].
  - apply IH in H as [? ?]. split; [done|lia].
Qed.
Lemma new_index_None m pv n : pv !! n = Some None → ∃ k, new_indices_from m pv !! n = Some (Some k).
Proof. revert m n. induction pv as [|[v|] pv IH]; intros m [|n] H; try done; cbn in *; eauto. Qed.
Lemma new_index_given m pv n v : pv !! n = Some (Some v) → new_indices_from m pv !! n = Some None.
Proof. revert m n. induction pv as [|[w|] pv IH]; intros m [|n] H; try done; cbn in *; eauto. Qed.
Lemma new_index_inj m pv n n' k : new_indices_from m pv !! n = Some (Some k) → new_indices_from m pv !! n' = Some (Some k) → n = n'.
Proof.
  revert m n n'. induction pv as [|[v|] pv IH]; intros m [|n] [|n'] H H'; try done; cbn in *.
  - f_equal. by eapply IH.
  - injection H as <-. apply new_index_Some in H' as [_ ?]. lia.
  - injection H' as <-. apply new_index_Some in H as [_ ?]. lia.
  - f_equal. by eapply IH.
Qed.
Lemma kept_lookup l pv m k x : length l = length pv →
  kept l pv !! k = Some x ↔ ∃ n, l !! n = Some x ∧ new_indices_from m pv !! n = Some (Some (m + k)%nat).
Proof.
  revert pv m k. induction l as [|y l IH]; intros [|o pv] m k Hl; try done.
  - split; [done|]. by intros (n & ? & _).
  - rewrite kept_cons. cbn in Hl. destruct o as [v|]; cbn [new_indices_from].
    + rewrite (IH pv m k) by lia. split; [intros (n & ?); by exists (S n)|]. intros ([|n] & H1 & H2); [done|]. by exists n.
    + destruct k as [|k]; cbn.
      * rewrite Nat.add_0_r. split; [intros [= ->]; by exists 0%nat|]. intros ([|n] & H1 & H2); [done|]. cbn in *.
        apply new_index_Some in H2 as [_ ?]. lia.
      * rewrite (IH pv (m + 1)%nat k), <- Nat.add_assoc by lia. split; [intros (n & ?); by exists (S n)|].
        intros ([|n] & H1 & H2); cbn in *; [|by exists n]. exfalso. injection H2. lia.
Qed.
Lemma merge_lookup m pv rest n : length rest = length (List.filter (λ o : option Z, bool_decide (o = None)) pv) →
  merge pv rest !! n = match pv !! n with
                       | Some (Some v) => Some v
                       | Some None => match new_indices_from m pv !! n with Some (Some k) => rest !! (k - m)%nat | _ => None end
                       | None => None
                       end.
Proof.
  revert m rest n. induction pv as [|[v|] pv IH]; intros m rest n Hl; cbn in Hl.
  - by destruct n.
  - destruct n as [|n]; [done|]. cbn. by apply IH.
  - destruct rest as [|w rest]; [done|]. destruct n as [|n]; [cbn; by rewrite Nat.sub_diag|].
    change (merge (None :: pv) (w :: rest) !! S n) with (merge pv rest !! n). change ((None :: pv) !! S n) with (pv !! n).
    change (new_indices_from m (None :: pv) !! S n) with (new_indices_from (m + 1) pv !! n).
    rewrite (IH (m + 1)%nat) by (cbn in Hl; lia). destruct (pv !! n) as [[v|]|] eqn:E; [done| |done].
    destruct (new_index_None (m + 1) pv n E) as [k Ek]. rewrite Ek. apply new_index_Some in Ek as [_ Hk].
    by replace (k - m)%nat with (S (k - (m + 1))) by lia.
Qed.
Lemma merge_length pv rest : length rest = length (List.filter (λ o : option Z, bool_decide (o = None)) pv) → length (merge pv rest) = length pv.
Proof.
  revert rest. induction pv as [|[v|] pv IH]; intros rest H; cbn in *; [done|by rewrite IH|].
  destruct rest as [|w rest]; [done|]. cbn in *. rewrite IH; lia.
Qed.
Lemma kept_length l pv : length l = length pv → length (kept l pv) = length (List.filter (λ o : option Z, bool_decide (o = None)) pv).
Proof.
  revert pv. induction l as [|x l IH]; intros [|o pv] H; try done. rewrite kept_cons. cbn in *.
  destruct o; cbn; rewrite IH by lia; done.
Qed.
End kept.

(** ** Places and address computations *)

Section places.
Context {P : profile} {A : Arch} {C : Type}.

Lemma locations_cons (p : Part) parts : all_locations (p :: parts) = part_locations (part_mapping p) ++ all_locations parts.
Proof. done. Qed.
Lemma placed_listed parts pv loc : is_Some (placed (interps parts pv) loc) → loc ∈ all_locations parts.
Proof.
  intros [i (n & part & v & Hn & _ & Hl & _)%placed_inv]. eapply elem_of_bind_list; [by eapply list_elem_of_lookup_2|done].
Qed.
Lemma not_placed parts pv loc : loc ∉ all_locations parts → placed (interps parts pv) loc = None.
Proof. intros H. apply eq_None_not_Some. by intros ?%placed_listed. Qed.
(** Every place belongs to one part, which has its value from the first or from the second step. *)
Lemma placed_merge parts pv rest loc : NoDup (all_locations parts) → length parts = length pv → length rest = length (kept parts pv) →
  placed (interps parts (Some <$> merge pv rest)) loc =
    match placed (interps parts pv) loc with Some i => Some i | None => placed (interps (kept parts pv) (Some <$> rest)) loc end ∧
  (is_Some (placed (interps parts pv) loc) → placed (interps (kept parts pv) (Some <$> rest)) loc = None).
Proof.
  revert pv rest. induction parts as [|p parts IH]; intros [|o pv] rest Hnd Hl Hr; try done.
  rewrite locations_cons, NoDup_app in Hnd. destruct Hnd as (_ & Hdis & Hnd). cbn in Hl. rewrite kept_cons in Hr |- *.
  assert (∀ pv', loc ∈ part_locations (part_mapping p) → placed (interps parts pv') loc = None) as Hother.
  { intros pv' Hin. by apply not_placed, Hdis. }
  assert (∀ pv', loc ∈ part_locations (part_mapping p) → placed (interps (kept parts pv) pv') loc = None) as Hkept.
  { intros pv' Hin. apply not_placed. intros H. apply (Hdis _ Hin). eapply elem_of_sublist; [done|]. apply bind_sublist, kept_sublist. }
  destruct o as [v|].
  - destruct (IH pv rest Hnd ltac:(lia) Hr) as [IH1 IH2]. cbn. fold (interps parts (Some <$> merge pv rest)) (interps parts pv).
    fold (interps (kept parts pv) (Some <$> rest)). case_bool_decide as Hc; [|done]. split; [done|]. intros _. apply Hkept, Hc.
  - destruct rest as [|w rest]; [done|]. cbn in Hr. destruct (IH pv rest Hnd ltac:(lia) ltac:(lia)) as [IH1 IH2]. cbn.
    fold (interps parts (Some <$> merge pv rest)) (interps parts pv) (interps (kept parts pv) (Some <$> rest)).
    case_bool_decide as Hc; [|done].
    rewrite Hother by apply Hc. split; [done|]. by intros [].
Qed.
(** A place of a part without a value is not replaced. *)
Lemma not_placed_kept parts pv n part loc : NoDup (all_locations parts) → parts !! n = Some part → pv !! n = Some None →
  loc ∈ part_locations (part_mapping part) → placed (interps parts pv) loc = None.
Proof.
  revert pv n. induction parts as [|p parts IH]; intros [|o pv] [|n] Hnd Hn Hv Hl; try done; cbn in Hn, Hv;
    rewrite locations_cons, NoDup_app in Hnd; destruct Hnd as (_ & Hdis & Hnd); cbn; fold (interps parts pv).
  - simplify_eq. by apply not_placed, Hdis.
  - rewrite bool_decide_false; [by apply (IH pv n)|]. intros [_ Hin]. apply (Hdis _ Hin).
    eapply elem_of_bind_list; [by eapply list_elem_of_lookup_2|done].
Qed.

Definition all_indexes (parts : list Part) : list nat := mjoin ((λ p, memory_indexes_of (part_mapping p)) <$> parts).
Lemma calculation_listed parts pv m a : calculation_for (interps parts pv) m = Some a → m ∈ all_indexes parts.
Proof.
  revert pv. induction parts as [|p parts IH]; intros [|o pv] H; try done. cbn in H. fold (interps parts pv) in H.
  unfold all_indexes. cbn. apply elem_of_app. fold (all_indexes parts). destruct o as [v|]; [|right; by eapply IH].
  destruct (part_mapping p) as [| |] eqn:E; [right; by eapply IH| |right; by eapply IH]. cbn.
  destruct (interp_of p (Some v)); try (right; by eapply IH). case_bool_decide; [by left|right; by eapply IH].
Qed.
Lemma calculation_merge parts pv rest m : NoDup (all_indexes parts) → length parts = length pv → length rest = length (kept parts pv) →
  calculation_for (interps parts (Some <$> merge pv rest)) m =
    match calculation_for (interps parts pv) m with Some a => Some a | None => calculation_for (interps (kept parts pv) (Some <$> rest)) m end ∧
  (is_Some (calculation_for (interps parts pv) m) → calculation_for (interps (kept parts pv) (Some <$> rest)) m = None).
Proof.
  revert pv rest. induction parts as [|p parts IH]; intros [|o pv] rest Hnd Hl Hr; try done.
  unfold all_indexes in Hnd. cbn in Hnd. fold (all_indexes parts) in Hnd.
  rewrite NoDup_app in Hnd. destruct Hnd as (_ & Hdis & Hnd). cbn in Hl. rewrite kept_cons in Hr |- *.
  assert (∀ pv', m ∈ memory_indexes_of (part_mapping p) → calculation_for (interps parts pv') m = None) as Hother.
  { intros pv' Hin. apply eq_None_not_Some. intros [a Ha]. by apply (Hdis _ Hin), (calculation_listed _ pv' _ a). }
  assert (∀ pv', m ∈ memory_indexes_of (part_mapping p) → calculation_for (interps (kept parts pv) pv') m = None) as Hkept.
  { intros pv' Hin. apply eq_None_not_Some. intros [a Ha%calculation_listed]. apply (Hdis _ Hin).
    eapply elem_of_sublist; [done|]. apply bind_sublist, kept_sublist. }
  destruct o as [v|].
  - destruct (IH pv rest Hnd ltac:(lia) Hr) as [IH1 IH2]. cbn. fold (interps parts (Some <$> merge pv rest)) (interps parts pv).
    fold (interps (kept parts pv) (Some <$> rest)). destruct (part_mapping p); [done| |done].
    destruct (default INone (meaning p v)); try done. case_bool_decide; [|done]. split; [done|]. intros _. by apply Hkept.
  - destruct rest as [|w rest]; [done|]. cbn in Hr. destruct (IH pv rest Hnd ltac:(lia) ltac:(lia)) as [IH1 IH2]. cbn.
    fold (interps parts (Some <$> merge pv rest)) (interps parts pv) (interps (kept parts pv) (Some <$> rest)).
    destruct (part_mapping p); [done| |done]. destruct (default INone (meaning p w)); try done. case_bool_decide; [|done].
    rewrite Hother by done. split; [done|]. by intros [].
Qed.
End places.

(** ** The bits of the remaining parts *)

Section bits.
Context {P : profile} {A : Arch} {C : Type}.

Lemma rank_ext bits bits' n k : length bits = length bits' → (∀ j, bits !! j = Some (BPart n) ↔ bits' !! j = Some (BPart k)) →
  ∀ j, rank bits n j = rank bits' k j.
Proof.
  intros Hl Hb j. induction j as [|j IH]; [done|]. destruct (bits !! j) as [b|] eqn:Eb.
  - destruct (lookup_lt_is_Some_2 bits' j) as [b' Eb']; [rewrite <- Hl; by eapply lookup_lt_Some|].
    rewrite (rank_S _ _ _ _ Eb), (rank_S _ _ _ _ Eb'), IH. f_equal. specialize (Hb j). rewrite Eb, Eb' in Hb.
    do 2 case_bool_decide; naive_solver.
  - unfold rank in *. apply lookup_ge_None in Eb. rewrite !take_ge in * by lia. done.
Qed.
Lemma width_absent bits n : (∀ j, bits !! j ≠ Some (BPart n)) → part_width bits n = 0%nat.
Proof.
  intros Hno. unfold part_width, rank. rewrite take_ge by lia. destruct (List.filter _ bits) as [|b l] eqn:E; [done|]. exfalso.
  assert (b ∈ List.filter (λ b, bool_decide (b = BPart n)) bits) as Hb by (rewrite E; left).
  apply list_elem_of_In, List.filter_In in Hb as [Hb Hd]. apply bool_decide_eq_true in Hd as ->.
  apply list_elem_of_In, list_elem_of_lookup in Hb as [j Hj]. by apply (Hno j).
Qed.

(** The bit at [j] after the instantiation that gives the instruction [r]. *)
Definition projected (pv : list (option Z)) (r : Instruction) (j : nat) (b : Bit) : Bit :=
  match b with
  | BPart n => match new_indices_from 0 pv !! n with Some (Some k) => BPart k | _ => BFixed (Z.b2z (rbit r j)) end
  | b => b
  end.
Definition remaining_enc (e : Encoding C) (pv : list (option Z)) (r : Instruction) : Encoding C :=
  {| enc_bits := imap (projected pv r) (enc_bits e); errors := errors e; enc_parts := kept (enc_parts e) pv;
     enc_dataflows := mapped (enc_dataflows e) r (replaced (enc_parts e) pv) (recalculated (enc_parts e) pv);
     write_ordering := unique [] (wo_project pv <$> List.filter (wo_relevant pv) (write_ordering e)) |}.

Lemma imap_pairs (l : list Bit) (f : nat → Bit → Bit) : (λ p, f p.1 p.2) <$> imap pair l = imap f l.
Proof. apply list_eq. intros j. rewrite list_lookup_fmap, !list_lookup_imap. by destruct (l !! j). Qed.
Lemma instantiate_partially_ok (e : Encoding C) pv : enc_ok e → values_ok e pv → values_fit e pv → ~ bad_parts e pv →
  ∃ r, part_values_to_instr e pv = Ok r ∧ instr_wf r ∧ length (bytes r) = length (bytes (enc_instr e)) ∧
    (∀ j, (j < length (enc_bits e))%nat → rbit r j = bit_with e pv j) ∧
    instantiate_partially e pv = Ok (inl (remaining_enc e pv r)).
Proof.
  intros He Hpv Hfit Hb. destruct (instantiate_dataflows_ok e pv He Hpv Hfit Hb) as (r & Er & W & L & R & E).
  exists r. split_and!; [done..|]. pose proof (values_length e pv Hpv) as Hlen. pose proof (enc_wf_length e (ok_wf e He)) as Hbits.
  unfold instantiate_partially, compute_new_indices. rewrite Hlen, (proj2 (Nat.leb_le _ _) (enc_wf_max e (ok_wf e He))). cbn [rassert].
  rewrite !M_bind_Ok, E, M_bind_Ok. rewrite (mapM_Ok _ (λ p, projected pv r p.1 p.2)).
  - rewrite M_bind_Ok, imap_pairs. done.
  - intros [j b] Hin. apply list_elem_of_lookup in Hin as [i Hi]. rewrite list_lookup_imap in Hi.
    destruct (enc_bits e !! i) as [b'|] eqn:Eb; [|done]. injection Hi as <- <-. cbn [fst snd]. unfold project_bit, projected.
    destruct b' as [n|v|]; [|done..]. assert (n < length (new_indices_from 0 pv))%nat as Hn.
    { rewrite new_indices_length, Hlen. apply (enc_wf_parts e (ok_wf e He)). by eapply list_elem_of_lookup_2. }
    destruct (lookup_lt_is_Some_2 _ _ Hn) as [o Ho]. unfold vget. rewrite Ho. cbn [unwrap]. rewrite M_bind_Ok.
    destruct o as [k|]; [done|]. change (dataflows_instr (mapped (enc_dataflows e) r (replaced (enc_parts e) pv) (recalculated (enc_parts e) pv))) with r.
    rewrite nth_right by (apply lookup_lt_Some in Eb; lia). done.
Qed.

Section remaining.
Context (e : Encoding C) (pv : list (option Z)) (r : Instruction) (He : enc_ok e) (Hpv : values_ok e pv) (Hfit : values_fit e pv)
  (Hb : ~ bad_parts e pv) (Hr : instr_wf r) (Hl : length (bytes r) = length (bytes (enc_instr e)))
  (Hbits : ∀ j, (j < length (enc_bits e))%nat → rbit r j = bit_with e pv j).
Let e' := remaining_enc e pv r.
Let len_pv : length pv = length (enc_parts e) := values_length e pv Hpv.

Lemma remaining_bit n k j : new_indices_from 0 pv !! n = Some (Some k) →
  enc_bits e !! j = Some (BPart n) ↔ enc_bits e' !! j = Some (BPart k).
Proof using.
  intros Hn. cbn. rewrite list_lookup_imap. split.
  - intros ->. cbn. by rewrite Hn.
  - destruct (enc_bits e !! j) as [[m|v|]|]; cbn; [|done..].
    destruct (new_indices_from 0 pv !! m) as [[k'|]|] eqn:Em; [|done..]. intros [= ->]. by rewrite (new_index_inj _ _ _ _ _ Hn Em).
Qed.
Lemma remaining_part k j : enc_bits e' !! j = Some (BPart k) → ∃ n, enc_bits e !! j = Some (BPart n) ∧ new_indices_from 0 pv !! n = Some (Some k).
Proof using.
  cbn. rewrite list_lookup_imap. destruct (enc_bits e !! j) as [[m|v|]|]; cbn; [|done..].
  destruct (new_indices_from 0 pv !! m) as [[k'|]|] eqn:Em; [|done..]. intros [= ->]. by exists m.
Qed.
Lemma remaining_rank n k j : new_indices_from 0 pv !! n = Some (Some k) → rank (enc_bits e) n j = rank (enc_bits e') k j.
Proof using. intros Hn. apply rank_ext; [cbn; by rewrite length_imap|]. intros i. by apply remaining_bit. Qed.
Lemma remaining_width n k : new_indices_from 0 pv !! n = Some (Some k) → part_width (enc_bits e) n = part_width (enc_bits e') k.
Proof using. intros Hn. unfold part_width. rewrite (remaining_rank n k) by done. f_equal. cbn. by rewrite length_imap. Qed.
Lemma remaining_lookup k part : enc_parts e' !! k = Some part ↔
  ∃ n, enc_parts e !! n = Some part ∧ new_indices_from 0 pv !! n = Some (Some k).
Proof using len_pv. cbn. by rewrite (kept_lookup _ _ 0 k). Qed.
Lemma unplaced n k part loc : enc_parts e !! n = Some part → new_indices_from 0 pv !! n = Some (Some k) →
  loc ∈ part_locations (part_mapping part) → placed (interps (enc_parts e) pv) loc = None.
Proof using He.
  intros Hn Hk Hin. apply (not_placed_kept _ _ n part); [apply (ok_places e He)|done|by apply new_index_Some in Hk as [? _]|done].
Qed.

Lemma remaining_wf : enc_wf e'.
Proof using He len_pv Hr Hl Hbits.
  pose proof (ok_wf e He) as [H1 H2 H3 H4 H5 H6]. split.
  - done.
  - cbn. rewrite length_imap. change (enc_instr e') with r. lia.
  - intros k (j & Hj)%list_elem_of_lookup. apply remaining_part in Hj as (n & Hj & Hn).
    destruct (lookup_lt_is_Some_2 (enc_parts e) n) as [part Hp]; [apply H3; by eapply list_elem_of_lookup_2|].
    eapply lookup_lt_Some. apply remaining_lookup. eauto.
  - intros k. destruct (decide (part_width (enc_bits e') k = 0)%nat) as [->|Hk]; [lia|].
    destruct (rank_surj (enc_bits e') k (length (enc_bits e')) 0) as (j & _ & Hj & _); [unfold part_width in Hk; lia|].
    apply remaining_part in Hj as (n & _ & Hn). rewrite <- (remaining_width n k) by done. apply H4.
  - etrans; [apply sublist_length, kept_sublist|done].
  - intros j v Hj. cbn in Hj. rewrite list_lookup_imap in Hj. destruct (enc_bits e !! j) as [b|] eqn:Ej; [|done]. cbn in Hj.
    injection Hj as Hj. change (enc_instr e') with r. destruct b as [n|w|]; cbn in Hj; [|injection Hj as ->|done].
    + by destruct (new_indices_from 0 pv !! n) as [[k|]|]; simplify_eq.
    + rewrite Hbits by (by eapply lookup_lt_Some). unfold bit_with, wanted. rewrite Ej. by apply H6.
Qed.
Lemma remaining_source loc s' : source_at (enc_dataflows e') loc s' ↔ ∃ s, source_at (enc_dataflows e) loc s ∧ s' = replaced (enc_parts e) pv loc s.
Proof using He Hpv Hb. apply source_at_mapped. intros o f Hf. by apply replaced_target. Qed.
Lemma remaining_imm loc s k : source_at (enc_dataflows e) loc s → replaced (enc_parts e) pv loc s = SImm k →
  placed (interps (enc_parts e) pv) loc = None ∧ ∃ n, s = SImm n ∧ new_indices_from 0 pv !! n = Some (Some k).
Proof using He Hpv Hb.
  intros Hs Hk. destruct s as [d|n|c nb].
  - unfold replaced in Hk. destruct (placed _ _) as [[]|]; try done. by destruct d.
  - destruct (ok_immediates e He loc n Hs) as (part & m & locs & bits & Hn & Em & Hin).
    destruct (lookup_lt_is_Some_2 pv n) as [[v|] Hv]; [rewrite (values_length e pv Hpv); by eapply lookup_lt_Some|..].
    + destruct (replaced_imm e pv loc n v He Hb Hs Hv) as (c & nb & E). congruence.
    + destruct (new_index_None 0 pv n Hv) as [k' Hk']. assert (placed (interps (enc_parts e) pv) loc = None) as Hp by by eapply unplaced.
      split; [done|]. exists n. split; [done|]. unfold replaced, renumbered in Hk. rewrite Hp, Hk' in Hk. congruence.
  - unfold replaced in Hk. by destruct (placed _ _) as [[]|].
Qed.
Lemma remaining_ok : enc_ok e'.
Proof using He Hpv Hb Hr Hl Hbits.
  assert (num_accesses e' = num_accesses e) as Ea by (unfold num_accesses; cbn; by rewrite length_imap).
  assert (num_flows e' = num_flows e) as Ef by (unfold num_flows; cbn; by rewrite length_imap).
  split; rewrite ?Ea, ?Ef.
  - by apply remaining_wf.
  - intros k part (n & Hn & Hk)%remaining_lookup. rewrite <- (remaining_width n k) by done. by apply (ok_parts e He).
  - eapply sublist_NoDup; [apply (ok_places e He)|]. apply bind_sublist, kept_sublist.
  - apply Forall_forall. intros loc Hin. pose proof (ok_listed e He) as H. rewrite Forall_forall in H. apply H.
    eapply elem_of_sublist; [done|]. apply bind_sublist, kept_sublist.
  - eapply sublist_NoDup; [apply (ok_memory e He)|]. apply bind_sublist, kept_sublist.
  - intros loc s (s0 & Hs & _)%remaining_source. by eapply (ok_range e He).
  - intros part m locs loc s Hp Em Hin Hs. apply remaining_source in Hs as (s0 & Hs & ->).
    apply list_elem_of_lookup in Hp as [k Hk]. apply remaining_lookup in Hk as (n & Hn & Hk).
    destruct (ok_registers e He part m locs loc s0) as (rr & sz & ->); [by eapply list_elem_of_lookup_2|done|done|done|].
    unfold replaced. rewrite (unplaced n k part) by (done || by rewrite Em). cbn. eauto.
  - intros loc k Hs. apply remaining_source in Hs as (s & Hs & Hk). symmetry in Hk. destruct (remaining_imm loc s k Hs Hk) as (_ & n & -> & Hn).
    destruct (ok_immediates e He loc n Hs) as (part & m & locs & bits & Hp & Em & Hin). exists part, m, locs, bits. split; [|done].
    apply remaining_lookup. eauto.
Qed.
End remaining.

(** ** Two steps at once *)

Lemma mapped_ext (d : Dataflows C) r g g' h h' : (∀ loc s, source_at d loc s → g loc s = g' loc s) →
  (∀ m a, accesses (addresses d) !! m = Some a → h m (calculation a) = h' m (calculation a)) → mapped d r g h = mapped d r g' h'.
Proof.
  intros Hg Hh. unfold mapped. f_equal; [f_equal|]; apply list_eq; intros n; rewrite !list_lookup_imap.
  - destruct (accesses (addresses d) !! n) as [a|] eqn:E; [|done]. cbn. rewrite (Hh n a E). do 3 f_equal. apply list_eq. intros i.
    rewrite !list_lookup_imap. destruct (Locs.inputs (access_inputs a) !! i) as [s|] eqn:Es; [|done]. cbn. f_equal. apply Hg. by exists a.
  - destruct (outputs d !! n) as [f|] eqn:E; [|done]. cbn. rewrite (Hg (VOutput n) (SDest (target f))) by (by exists f).
    do 3 f_equal. apply list_eq. intros i. rewrite !list_lookup_imap.
    destruct (Locs.inputs (flow_inputs f) !! i) as [s|] eqn:Es; [|done]. cbn. f_equal. apply Hg. by exists f.
Qed.
Lemma mapped_mapped (d : Dataflows C) r1 g1 h1 r2 g2 h2 : (∀ o f, outputs d !! o = Some f → ∃ x, g1 (VOutput o) (SDest (target f)) = SDest x) →
  (∀ o f x, outputs d !! o = Some f → g1 (VOutput o) (SDest (target f)) = SDest x → ∃ y, g2 (VOutput o) (SDest x) = SDest y) →
  mapped (mapped d r1 g1 h1) r2 g2 h2 = mapped d r2 (λ loc s, g2 loc (g1 loc s)) (λ m c, h2 m (h1 m c)).
Proof.
  intros H1 H2. unfold mapped at 1 3. f_equal; [f_equal|]; apply list_eq; intros n; cbn [mapped addresses accesses outputs]; rewrite !list_lookup_imap.
  - destruct (accesses (addresses d) !! n) as [a|] eqn:E; [|done]. cbn. do 3 f_equal. apply list_eq. intros i.
    rewrite !list_lookup_imap. by destruct (Locs.inputs (access_inputs a) !! i).
  - destruct (outputs d !! n) as [f|] eqn:E; [|done]. cbn. destruct (H1 n f E) as [x Hx]. rewrite Hx. destruct (H2 n f x E Hx) as [y ->].
    do 3 f_equal. apply list_eq. intros i. rewrite !list_lookup_imap. by destruct (Locs.inputs (flow_inputs f) !! i).
Qed.

(** The same dataflows of the same instruction. *)
Definition same_flows (d d' : Dataflows C) : Prop :=
  outputs d = outputs d' ∧ accesses (addresses d) = accesses (addresses d') ∧
  accesses_use_trap_flag (addresses d) = accesses_use_trap_flag (addresses d') ∧ found_dependent_bytes d = found_dependent_bytes d' ∧
  Instr.eq (dataflows_instr d) (dataflows_instr d') = true.
Lemma instantiate_all (e : Encoding C) pv : enc_ok e → all_values e pv →
  instantiate e pv = instantiate_dataflows e (Some <$> pv) (new_indices_from 0 (Some <$> pv)).
Proof.
  intros He [Hlen _]. unfold instantiate, compute_new_indices.
  by rewrite length_fmap, Hlen, (proj2 (Nat.leb_le _ _) (enc_wf_max e (ok_wf e He))).
Qed.

Section steps.
Context (e : Encoding C) (pv : list (option Z)) (r : Instruction) (He : enc_ok e) (Hpv : values_ok e pv) (Hfit : values_fit e pv)
  (Hb : ~ bad_parts e pv) (Hr : instr_wf r) (Hl : length (bytes r) = length (bytes (enc_instr e)))
  (Hbits : ∀ j, (j < length (enc_bits e))%nat → rbit r j = bit_with e pv j).
Let e' := remaining_enc e pv r.
Context (rest : list Z) (Hrest : all_values e' rest) (Hb' : ~ bad_parts e' (Some <$> rest)).
Let all := merge pv rest.

Lemma rest_length : length rest = length (kept (enc_parts e) pv).
Proof using Hrest. apply (all_values_length _ _ Hrest). Qed.
Lemma rest_nones : length rest = length (List.filter (λ o : option Z, bool_decide (o = None)) pv).
Proof using Hrest Hpv. rewrite rest_length. apply kept_length. by rewrite (values_length e pv Hpv). Qed.
(** A value of the merged list is the given one, or the one of the remaining part. *)
Lemma merged n v : all !! n = Some v → pv !! n = Some (Some v) ∨ ∃ k, new_indices_from 0 pv !! n = Some (Some k) ∧ rest !! k = Some v.
Proof using Hrest Hpv.
  unfold all. rewrite (merge_lookup 0) by apply rest_nones. destruct (pv !! n) as [[w|]|]; [intros [= ->]; by left| |done].
  destruct (new_indices_from 0 pv !! n) as [[k|]|]; [|done..]. rewrite Nat.sub_0_r. eauto.
Qed.
Lemma merged_values : all_values e all.
Proof using He Hpv Hfit Hrest.
  split; [unfold all; rewrite merge_length by apply rest_nones; apply (values_length e pv Hpv)|].
  intros n v [Hv|(k & Hk & Hv)]%merged; [by apply Hfit|]. rewrite (remaining_width e pv r n k) by done. by apply (all_values_fit _ _ Hrest).
Qed.
Lemma merged_good : ~ bad_parts e (Some <$> all).
Proof using He Hpv Hb Hb' Hrest.
  intros ([part o] & Hin & v & Ho & Hm)%Exists_exists. cbn [fst snd] in *. subst o. apply list_elem_of_lookup in Hin as [n Hn].
  apply lookup_zip_Some in Hn as [Hp Hn]. rewrite list_lookup_fmap in Hn. destruct (all !! n) as [w|] eqn:Ew; [|done]. injection Hn as ->.
  destruct (merged n v Ew) as [Hv|(k & Hk & Hv)].
  - apply Hb, Exists_exists. exists (part, Some v). split; [|by exists v]. apply (list_elem_of_lookup_2 _ n). by apply lookup_zip_Some.
  - apply Hb', Exists_exists. exists (part, Some v). split; [|by exists v]. apply (list_elem_of_lookup_2 _ k). apply lookup_zip_Some.
    split; [apply (remaining_lookup e pv r Hpv); eauto|]. by rewrite list_lookup_fmap, Hv.
Qed.
Lemma merged_bit j : (j < length (enc_bits e))%nat → bit_with e' (Some <$> rest) j = bit_with e (Some <$> all) j.
Proof using He Hpv Hfit Hrest Hbits.
  intros Hj. rewrite (bit_with_all e' _ _ Hrest), (bit_with_all e _ _ merged_values). change (enc_instr e') with r. cbn.
  rewrite list_lookup_imap. destruct (lookup_lt_is_Some_2 _ _ Hj) as [b Ej]. rewrite Ej. rewrite Hbits by done. unfold bit_with, wanted. rewrite Ej.
  destruct b as [n|w|]; cbn; [|done..]. unfold all. rewrite (merge_lookup 0) by apply rest_nones.
  assert (n < length pv)%nat as Hn. { rewrite (values_length e pv Hpv). apply (enc_wf_parts e (ok_wf e He)). by eapply list_elem_of_lookup_2. }
  destruct (lookup_lt_is_Some_2 _ _ Hn) as [[v|] Hv]; rewrite Hv.
  - by rewrite (new_index_given 0 pv n v Hv), rank_0, Nat.sub_0_r.
  - destruct (new_index_None 0 pv n Hv) as [k Hk]. rewrite Hk, Nat.sub_0_r. rewrite (remaining_rank e pv r n k) by done. done.
Qed.
Lemma renumbered_all s l : renumbered (Some <$> l) s = s.
Proof using.
  destruct s as [d|n|c nb]; [done| |done]. unfold renumbered. destruct (new_indices_from 0 (Some <$> l) !! n) as [[k|]|] eqn:E; [|done..].
  apply new_index_Some in E as [E _]. rewrite list_lookup_fmap in E. by destruct (l !! n).
Qed.
(** A place is replaced by a register, where there is one, or by a constant. *)
Lemma placed_kind pv0 loc i : ~ bad_parts e pv0 → placed (interps (enc_parts e) pv0) loc = Some i →
  (∃ q, i = IReg q ∧ ∀ s, source_at (enc_dataflows e) loc s → ∃ q' sz, s = SDest (DReg q' sz)) ∨ ∃ nb a b, i = IConst nb a b.
Proof using He.
  intros Hb0 Ep. destruct (placed_inv _ _ _ _ Ep) as (n & part & v & Hn & Hv & Hin & ->). cbn [interp_of].
  destruct (meaning part v) as [i|] eqn:Emn.
  2: { destruct Hb0. apply Exists_exists. exists (part, Some v). split; [|by exists v]. apply (list_elem_of_lookup_2 _ n). by apply lookup_zip_Some. }
  cbn. unfold meaning in Emn. destruct (part_mapping part) as [m locs bits|m idx|m locs] eqn:Em; [|by apply not_elem_of_nil in Hin|].
  - right. destruct m as [[m|l]|]; [case_bool_decide; [|done]|..]; injection Emn as <-; eauto.
  - left. destruct (mjoin (m !! Z.to_nat v)) as [q|]; [|done]. injection Emn as <-. exists q. split; [done|]. intros s Hs.
    by eapply (ok_registers e He part m locs loc s); [eapply list_elem_of_lookup_2|..].
Qed.
Lemma replaced_steps loc s : source_at (enc_dataflows e) loc s →
  replaced (enc_parts e') (Some <$> rest) loc (replaced (enc_parts e) pv loc s) = replaced (enc_parts e) (Some <$> all) loc s.
Proof using He Hpv Hfit Hb Hb' Hrest.
  intros Hs. destruct (placed_merge (enc_parts e) pv rest loc) as [Hm1 Hm2];
    [apply (ok_places e He)|by rewrite (values_length e pv Hpv)|by apply rest_length|]. fold all in Hm1.
  pose proof (placed_kind (Some <$> all) loc) as Hkind. unfold replaced. change (enc_parts e') with (kept (enc_parts e) pv). rewrite Hm1 in Hkind |- *.
  destruct (placed (interps (enc_parts e) pv) loc) as [i|] eqn:Ep.
  - rewrite (Hm2 (ex_intro _ i eq_refl)), renumbered_all.
    by destruct (Hkind i merged_good eq_refl) as [(q & -> & _)|(nb & a & b & ->)].
  - destruct (placed (interps (kept (enc_parts e) pv) (Some <$> rest)) loc) as [i|] eqn:Ek.
    + destruct (Hkind i merged_good eq_refl) as [(q & -> & Hq)|(nb & a & b & ->)]; [|done]. by destruct (Hq s Hs) as (q' & sz & ->).
    + rewrite !renumbered_all. destruct s as [d|n|c nb]; [done| |done]. exfalso.
      destruct (ok_immediates e He loc n Hs) as (part & m & locs & bits & Hn & Em & Hin).
      destruct (lookup_lt_is_Some_2 all n) as [v Hv]; [rewrite (all_values_length _ _ merged_values); by eapply lookup_lt_Some|].
      destruct (placed_here (enc_parts e) (Some <$> all) n part v loc) as [i Hi]; [done|by rewrite list_lookup_fmap, Hv|done|]. congruence.
Qed.
Lemma recalculated_steps m c : recalculated (enc_parts e') (Some <$> rest) m (recalculated (enc_parts e) pv m c) = recalculated (enc_parts e) (Some <$> all) m c.
Proof using He Hpv Hrest.
  destruct (calculation_merge (enc_parts e) pv rest m) as [Hm1 Hm2];
    [apply (ok_memory e He)|by rewrite (values_length e pv Hpv)|by apply rest_length|]. fold all in Hm1.
  unfold recalculated. change (enc_parts e') with (kept (enc_parts e) pv). rewrite Hm1.
  destruct (calculation_for (interps (enc_parts e) pv) m) as [a|]; [|done]. by rewrite (Hm2 (ex_intro _ a eq_refl)).
Qed.
Lemma steps_agree : ∃ d d', instantiate e' rest = Ok (inl d) ∧ instantiate e all = Ok (inl d') ∧ same_flows d d'.
Proof using He Hpv Hfit Hb Hb' Hr Hl Hbits Hrest.
  pose proof (remaining_ok e pv r He Hpv Hb Hr Hl Hbits) as He'. fold e' in He'.
  destruct (all_values_ok e' rest (ok_wf e' He') Hrest) as [Hok' Hfit']. destruct (all_values_ok e all (ok_wf e He) merged_values) as [Hok Hfit0].
  destruct (instantiate_dataflows_ok e' _ He' Hok' Hfit' Hb') as (r2 & _ & W2 & L2 & R2 & E2).
  destruct (instantiate_dataflows_ok e _ He Hok Hfit0 merged_good) as (r3 & _ & W3 & L3 & R3 & E3).
  do 2 eexists. rewrite !instantiate_all by (done || by apply merged_values). split_and!; [exact E2|exact E3|].
  assert (mapped (enc_dataflows e') r2 (replaced (enc_parts e') (Some <$> rest)) (recalculated (enc_parts e') (Some <$> rest)) =
          mapped (enc_dataflows e) r2 (replaced (enc_parts e) (Some <$> all)) (recalculated (enc_parts e) (Some <$> all))) as ->.
  { cbn [enc_dataflows e' remaining_enc]. rewrite mapped_mapped.
    - apply mapped_ext; [apply replaced_steps|intros; apply recalculated_steps].
    - intros o f Hf. by apply replaced_target.
    - intros o f x Hf Hx. rewrite <- Hx. setoid_rewrite replaced_steps; [|by exists f]. apply replaced_target; [done|done|apply merged_good|done]. }
  unfold same_flows. split_and!; [done..|]. unfold Instr.eq. apply bool_decide_eq_true. pose proof (enc_wf_length e (ok_wf e He)) as Hlen.
  change (length (bytes r2) = length (bytes r)) in L2. apply rbits_ext; cbn [dataflows_instr mapped addresses instr]; [done|done|lia|].
  intros k Hk. assert (k < length (enc_bits e))%nat as Hk' by lia.
  rewrite R2, R3 by (cbn; rewrite ?length_imap; done). by apply merged_bit.
Qed.
End steps.
End bits.

Section partial.
Context {P : profile} {A : Arch} {C : Type}.

(** C4: Giving a value that has a meaning to some parts succeeds, with an encoding of
    the other parts in their order that can again be instantiated; giving these
    their values returns the same dataflows of the same instruction as giving all
    the values to the encoding at the start. *)
Theorem instantiate_partially_spec (e : Encoding C) pv : enc_ok e → values_ok e pv → values_fit e pv → ~ bad_parts e pv →
  ∃ e', instantiate_partially e pv = Ok (inl e') ∧ enc_ok e' ∧ enc_parts e' = kept (enc_parts e) pv ∧
    part_values_to_instr e pv = Ok (enc_instr e') ∧
    ∀ rest, all_values e' rest → ~ bad_parts e' (Some <$> rest) →
      ∃ d d', instantiate e' rest = Ok (inl d) ∧ instantiate e (merge pv rest) = Ok (inl d') ∧ same_flows d d'.
Proof.
  intros He Hpv Hfit Hb. destruct (instantiate_partially_ok e pv He Hpv Hfit Hb) as (r & Er & W & L & R & E).
  exists (remaining_enc e pv r). split_and!; [done|by apply remaining_ok|done|done|]. intros rest Hrest Hb'.
  by apply (steps_agree e pv r).
Qed.
End partial.

Lemma instantiate_partially_witness : ∃ e' d d', instantiate_partially (P:=Dev) demo_enc [Some 1; None] = Ok (inl e') ∧
  instantiate (P:=Dev) e' [0x2A] = Ok (inl d) ∧ instantiate (P:=Dev) demo_enc [1; 0x2A] = Ok (inl d') ∧ same_flows d d'.
Proof.
  destruct (instantiate_partially_spec (P:=Dev) demo_enc [Some 1; None] demo_enc_ok) as (e' & E & He' & Ep & Ei & H).
  - split; [reflexivity|]. apply Forall_cons; split; [intros v [= <-]; split; lia|]. apply Forall_cons; split; [done|by apply Forall_nil].
  - intros n v Hn. change (enc_bits demo_enc) with demo_bits. rewrite demo_width. destruct n as [|[|n]]; cbn in Hn; try done.
    injection Hn as <-. split; cbn; lia.
  - intros [p [Hp [v [Hv Hm]]]]%Exists_exists. apply list_elem_of_In in Hp as [<-|[<-|[]]]; cbn in Hv; [injection Hv as <-|]; done.
  - assert (Z.of_nat (part_width (enc_bits e') 0) = 8) as Ew.
    { destruct (ok_parts e' He' 0%nat (default {| part_size := 0; part_value := 0; part_mapping := PMemory (A:=FakeD) [] [] |} (enc_parts e' !! 0%nat)))
        as [_ <-]; rewrite Ep; reflexivity. }
    destruct (H [0x2A]) as (d & d' & E1 & E2 & S).
    + split; [rewrite Ep; reflexivity|]. intros [|n] v Hn; [injection Hn as <-|by destruct n]. rewrite Ew. split; lia.
    + intros [p [Hp [v [Hv Hm]]]]%Exists_exists. rewrite Ep in Hp. apply list_elem_of_In in Hp as [<-|[]]. cbn in Hv. injection Hv as <-. done.
    + exists e', d, d'. split; [exact E|]. split; [exact E1|]. split; [exact E2|exact S].
Defined.
