(* ===== verification/Odometer.v ===== *)
(** * Counting through all combinations

    Three loops of [liblisa/src/encoding/mod.rs] ([filters], [find_best_reg_choices] and
    [iter_instrs]) go through all combinations of choices by adding one to a list
    of digits, the first of them the lowest.  A digit without a radix keeps its
    value.  The list of combinations is a mixed-radix number, and one step adds
    one to it: every combination from the start on is visited once. *)
From stdpp Require Import sorting.
From S2P Require Import Prelude MachInt Utils.

(** The [for] loop with its [carry]. *)
Fixpoint advance {P : profile} (radices : list (option Z)) (vals : list Z) (carry : Z) : M (list Z * Z) :=
  match radices, vals with
  | Some r :: radices, val :: vals =>
      val ← add_u 64 val carry;
      let '(val, carry) := if r <=? val then (0, 1) else (val, 0) in
      '(vals, carry) ← advance radices vals carry;
      Ok (val :: vals, carry)
  | None :: radices, val :: vals =>
      '(vals, carry) ← advance radices vals carry;
      Ok (val :: vals, carry)
  | _, _ => Ok (vals, carry)
  end.

Section odometer.
Context {P : profile}.

(** The number that the digits stand for and the number of combinations. *)
Fixpoint count (radices : list (option Z)) : Z :=
  match radices with
  | Some r :: radices => r * count radices
  | None :: radices => count radices
  | [] => 1
  end.
Fixpoint number (radices : list (option Z)) (vals : list Z) : Z :=
  match radices, vals with
  | Some r :: radices, v :: vals => v + r * number radices vals
  | None :: radices, _ :: vals => number radices vals
  | _, _ => 0
  end.
(** Digits below their radix; a digit without one is that of [start]. *)
Definition digit_ok (r : option Z) (s v : Z) : Prop := match r with Some r => 0 <= v < r | None => v = s end.
Inductive digits_ok : list (option Z) → list Z → list Z → Prop :=
  | digits_nil : digits_ok [] [] []
  | digits_cons r s v radices start vals :
      digit_ok r s v → digits_ok radices start vals → digits_ok (r :: radices) (s :: start) (v :: vals).
Definition radices_ok (radices : list (option Z)) : Prop := Forall (λ r, ∀ n, r = Some n → 0 < n < 2 ^ 64) radices.

Lemma count_pos radices : radices_ok radices → 0 < count radices.
Proof. induction 1 as [|[r|] l Hr _ IH]; cbn; [lia| |done]. specialize (Hr r eq_refl). nia. Qed.
Lemma number_range radices start vals : radices_ok radices → digits_ok radices start vals → 0 <= number radices vals < count radices.
Proof.
  intros Hr Hd. induction Hd as [|r s v radices start vals H Hd IH]; cbn; [lia|]. apply Forall_cons in Hr as [Hr Hrs].
  specialize (IH Hrs). destruct r as [r|]; [|done]. specialize (Hr r eq_refl). cbn in H. nia.
Qed.
Lemma number_inj radices start vals vals' : radices_ok radices → digits_ok radices start vals → digits_ok radices start vals' →
  number radices vals = number radices vals' → vals = vals'.
Proof.
  intros Hr Hd. revert vals'. induction Hd as [|r s v radices start vals H Hd IH]; intros vals' Hd' E; inversion Hd'; subst; [done|].
  apply Forall_cons in Hr as [Hr Hrs]. destruct r as [r|]; cbn in *; [|subst; f_equal; by apply IH].
  specialize (Hr r eq_refl). destruct (Z.div_mod_unique r (number radices vals) (number radices vals0) v v0) as [Hq ->]; [lia..|].
  f_equal. by apply IH.
Qed.
(** Digit by digit at most is at most. *)
Lemma number_mono radices vals vals' : radices_ok radices → Forall2 Z.le vals vals' → number radices vals <= number radices vals'.
Proof.
  intros Hr. revert vals vals'. induction Hr as [|r radices Hr Hrs IH]; intros vals vals' H; [done|].
  destruct H as [|v v' vals vals' Hv H]; [by destruct r|]. specialize (IH _ _ H). destruct r as [r|]; cbn; [|done].
  specialize (Hr r eq_refl). nia.
Qed.
(** One step adds the carry. *)
Lemma advance_ok radices start vals carry : radices_ok radices → digits_ok radices start vals → carry = 0 ∨ carry = 1 →
  ∃ vals' carry', advance radices vals carry = Ok (vals', carry') ∧ digits_ok radices start vals' ∧ (carry' = 0 ∨ carry' = 1) ∧
    number radices vals' + carry' * count radices = number radices vals + carry.
Proof.
  intros Hr Hd. revert carry. induction Hd as [|r s v radices start vals H Hd IH]; intros carry Hc.
  - exists [], carry. split_and!; [done|constructor|done|cbn; lia].
  - apply Forall_cons in Hr as [Hr Hrs]. destruct r as [r|]; cbn [advance].
    + specialize (Hr r eq_refl). cbn in H. rewrite (add_u_ok 64 v carry), M_bind_Ok by (split; lia). destruct (Z.leb_spec r (v + carry)).
      * destruct (IH Hrs 1) as (vals' & c & E & Hd' & Hc' & En); [by right|]. rewrite E, M_bind_Ok. exists (0 :: vals'), c.
        split_and!; [done|by constructor; [cbn; lia|]|done|]. cbn. nia.
      * destruct (IH Hrs 0) as (vals' & c & E & Hd' & Hc' & En); [by left|]. rewrite E, M_bind_Ok. exists ((v + carry) :: vals'), c.
        split_and!; [done|constructor; [cbn; lia|done]|done|]. cbn. nia.
    + destruct (IH Hrs carry Hc) as (vals' & c & E & Hd' & Hc' & En). rewrite E, M_bind_Ok. exists (v :: vals'), c.
      split_and!; [done|by constructor|done|]. cbn. lia.
Qed.

(** The combinations that a loop visits that stops when the carry is left over. *)
Fixpoint visited (fuel : nat) (radices : list (option Z)) (vals : list Z) : M (list (list Z)) :=
  match fuel with
  | O => OutOfFuel
  | S fuel =>
      '(next, carry) ← advance radices vals 1;
      if 0 <? carry then Ok [vals] else l ← visited fuel radices next; Ok (vals :: l)
  end.
Lemma visited_ok radices start fuel : ∀ vals, radices_ok radices → digits_ok radices start vals →
  count radices - number radices vals <= Z.of_nat fuel →
  ∃ l, visited fuel radices vals = Ok l ∧ NoDup l ∧
    ∀ w, w ∈ l ↔ digits_ok radices start w ∧ number radices vals <= number radices w.
Proof.
  induction fuel as [|fuel IH]; intros vals Hr Hd Hf; pose proof (number_range _ _ _ Hr Hd) as Hn; [lia|]. cbn [visited].
  destruct (advance_ok radices start vals 1 Hr Hd) as (next & c & E & Hd' & Hc & En); [by right|]. rewrite E, M_bind_Ok.
  pose proof (number_range _ _ _ Hr Hd') as Hn'. destruct (Z.ltb_spec 0 c) as [Hpos|Hzero].
  - assert (c = 1) as -> by lia. exists [vals]. split_and!; [done|apply NoDup_singleton|]. intros w. rewrite list_elem_of_singleton. split.
    + intros ->. split; [done|lia].
    + intros [Hw Hle]. pose proof (number_range _ _ _ Hr Hw). apply (number_inj radices start); [done..|]. lia.
  - assert (c = 0) as -> by lia. rewrite Z.mul_0_l, Z.add_0_r in En. destruct (IH next Hr Hd') as (l & El & Hnd & Hl); [lia|].
    rewrite El, M_bind_Ok. exists (vals :: l). split_and!; [done| |].
    + apply NoDup_cons. split; [|done]. intros [_ Hle]%Hl. lia.
    + intros w. rewrite elem_of_cons, Hl. split.
      * intros [->|[Hw Hle]]; [split; [done|lia]|split; [done|lia]].
      * intros [Hw Hle]. destruct (decide (number radices w = number radices vals)) as [Eq|Ne].
        -- left. by apply (number_inj radices start).
        -- right. split; [done|lia].
Qed.
End odometer.
