(* ===== verification/EncSearch.v ===== *)
(** * Searching the instructions of an encoding

    Models [find_best_reg_choices], [best_instr], [iter_instrs] and [random_instrs] of
    [liblisa/src/encoding/mod.rs]: loops over all combinations of part values.  Log
    messages are not modelled. *)
From stdpp Require Import sorting gmap.
From S2P Require Import Prelude MachInt Utils Size Value Addr Arch Locs State AddrComp Dataflows Instruction.
From S2P Require Import BitPattern Encoding Instantiate Odometer.

Section search.
Context {P : profile} {A : Arch} {C : Type}.

(** ** The best choice of registers *)

(** [eval] gives a [usize]; it may panic. *)
Definition reg_choices (self : Encoding C) : list (option Z) :=
  (λ p, match part_mapping p with PRegister mapping _ => Some (Z.of_nat (length mapping)) | _ => None end) <$> enc_parts self.
Fixpoint best_loop (fuel : nat) (eval : list Z → M Z) (choices : list (option Z)) (new_choices : list Z)
    (perfect_score : Z) (perfect_choices : list Z) : M (list Z) :=
  match fuel with
  | O => OutOfFuel
  | S fuel =>
      score ← eval new_choices;
      let '(perfect_score, perfect_choices) :=
        if score <? perfect_score then (score, new_choices) else (perfect_score, perfect_choices) in
      '(new_choices, carry) ← advance choices new_choices 1;
      if 0 <? carry then Ok perfect_choices else best_loop fuel eval choices new_choices perfect_score perfect_choices
  end.
Definition find_best_reg_choices (fuel : nat) (self : Encoding C) (eval : list Z → M Z) : M (option (list (option Z))) :=
  let choices := reg_choices self in
  let current_choices := part_value <$> enc_parts self in
  if forallb (λ c, bool_decide (c = None)) choices then Ok None
  else
    perfect_score ← eval current_choices;
    perfect_choices ← best_loop fuel eval choices (replicate (length choices) 0) perfect_score current_choices;
    Ok (Some ((λ '(c, r), match r with Some _ => Some c | None => None end) <$> zip perfect_choices choices)).

(** ** The best instruction *)

(** A [HashMap] from registers to their number of uses. *)
Definition RegUse := list (Reg * Z).
Fixpoint or_insert_one (m : RegUse) (r : Reg) : RegUse :=
  match m with
  | [] => [(r, 1)]
  | (r', n) :: m => if bool_decide (r' = r) then (r', n) :: m else (r', n) :: or_insert_one m r
  end.
Fixpoint count_use (m : RegUse) (r : Reg) : RegUse :=
  match m with
  | [] => [(r, 1)]
  | (r', n) :: m => if bool_decide (r' = r) then (r', n + 1) :: m else (r', n) :: count_use m r
  end.
Definition reg_choice_locations (self : Encoding C) : list FlowValueLocation :=
  enc_parts self ≫= λ p, match part_mapping p with PRegister _ locations => locations | _ => [] end.
Definition fixed_register_use (self : Encoding C) : M RegUse :=
  vals ← values (enc_dataflows self);
  Ok (foldl or_insert_one [] (omap (λ '(_, s), match s with SDest (DReg reg _) => Some reg | _ => None end)
    (List.filter (λ '(loc, _), negb (bool_decide (loc ∈ reg_choice_locations self))) vals))).

(** The loop over the parts of [compute_score]: the uses and [bad]. *)
Fixpoint score_uses (l : list (Part * Z)) (register_use : RegUse) (bad : bool) : M (RegUse * bool) :=
  match l with
  | [] => Ok (register_use, bad)
  | (part, choice) :: l =>
      match register_mapping (part_mapping part) with
      | Some values =>
          v ← vget values (Z.to_nat choice);
          match v with
          | Some r => if reg_is_zero r then score_uses l register_use true else score_uses l (count_use register_use r) bad
          | None => score_uses l register_use true
          end
      | None => score_uses l register_use bad
      end
  end.
Fixpoint dedup (l : list Z) : list Z :=
  match l with
  | a :: (b :: _) as t => if a =? b then dedup t else a :: dedup t
  | l => l
  end.
(** [A::iter_regs().position(|item| item == reg).unwrap()]. *)
Definition reg_position (reg : Reg) : M Z :=
  p ← unwrap (list_find (λ item, item = reg) iter_regs); Ok (Z.of_nat p.1).
Definition chosen_register (p : Part * Z) : M (option Z) :=
  match register_mapping (part_mapping p.1) with
  | Some m => o ← vget m (Z.to_nat p.2); r ← unwrap o; i ← reg_position r; Ok (Some i)
  | None => Ok None
  end.
Definition bit_distance (index_a index_b : Z) : Z :=
  match count_ones 64 (Z.lxor index_a index_b) with 0%nat => 5 | 1%nat => 1 | _ => 0 end.
Definition sum_checked (l : list Z) : M Z := foldl (λ acc x, a ← acc; add_u 64 a x) (Ok 0) l.
Definition compute_score (self : Encoding C) (fixed_use : RegUse) (new_choices : list Z) : M Z :=
  let l := zip (enc_parts self) new_choices in
  '(register_use, bad) ← score_uses l fixed_use false;
  if (bad : bool) then Ok 999999999
  else
    let register_choices := snd <$> List.filter (λ p : Part * Z, bool_decide (is_Some (register_mapping (part_mapping p.1)))) l in
    let sorted_choices := merge_sort Z.le register_choices in
    let duplication_penalty := Z.of_nat (length sorted_choices - length (dedup sorted_choices)) in
    regs ← mapM chosen_register l;
    let indices := omap id regs in
    one_bit_distances ← sum_checked (a ← indices; b ← indices; [bit_distance a b]);
    squares ← mapM (λ '(_, v), mul_u 64 v v) register_use;
    score ← sum_checked squares;
    x ← mul_u 64 score 100;
    x ← add_u 64 x duplication_penalty;
    add_u 64 x one_bit_distances.
(** The scores of the choices with one bit of the part flipped. *)
Fixpoint flipped_scores (self : Encoding C) (fixed_use : RegUse) (new_choices : list Z) (choice_index : nat) (bits : list nat) (score : Z) : M Z :=
  match bits with
  | [] => Ok score
  | bit :: bits =>
      x ← shl_u 64 1 (Z.of_nat bit);
      v ← vget new_choices choice_index;
      choices_with_flipped_bit ← vset new_choices choice_index (Z.lxor v x);
      s ← compute_score self fixed_use choices_with_flipped_bit;
      score ← add_u 64 score s;
      flipped_scores self fixed_use new_choices choice_index bits score
  end.
Fixpoint full_score_loop (self : Encoding C) (fixed_use : RegUse) (new_choices : list Z) (choice_index : nat) (parts : list Part) (score : Z) : M Z :=
  match parts with
  | [] => Ok score
  | part :: parts =>
      match register_mapping (part_mapping part) with
      | Some values =>
          score ← flipped_scores self fixed_use new_choices choice_index (seq 0 (value_bits self choice_index)) score;
          c ← vget new_choices choice_index;
          v ← vget values (Z.to_nat c);
          score ← match v with
                  | Some r => if reg_should_avoid r || reg_is_zero r then mul_u 64 score 2 else Ok score
                  | None => Ok score
                  end;
          full_score_loop self fixed_use new_choices (S choice_index) parts score
      | None => full_score_loop self fixed_use new_choices (S choice_index) parts score
      end
  end.
Definition compute_full_score (self : Encoding C) (fixed_use : RegUse) (new_choices : list Z) : M Z :=
  s ← compute_score self fixed_use new_choices;
  score ← mul_u 64 s 0x100;
  full_score_loop self fixed_use new_choices 0 (enc_parts self) score.
Definition value_imms (self : Encoding C) : gset nat :=
  list_to_set (fst <$> List.filter (λ '(_, p), match part_mapping p with
                                               | PImm (Some (BitOrder _)) _ _ => false
                                               | PImm _ _ _ => true
                                               | _ => false
                                               end) (imap pair (enc_parts self))).
(** [1u64 << n] of every bit, combined. *)
Definition bits_covered (bit_order : list ImmBitOrder) : M Z :=
  l ← mapM (λ bit, match bit with Positive n | Negative n => shl_u 64 1 (Z.of_nat n) end) bit_order;
  Ok (foldl Z.lor 0 l).
Definition is_addr_imm (will_return_instr_anyway : bool) (p : Part) : M bool :=
  match part_mapping p with
  | PImm (Some (BitOrder bit_order)) _ _ =>
      b ← bits_covered bit_order;
      Ok (negb (count_ones 64 b `mod` 4 =? 0)%nat || will_return_instr_anyway)
  | _ => Ok false
  end.
Definition addr_imms (self : Encoding C) (will_return_instr_anyway : bool) : M (gset nat) :=
  l ← mapM (λ '(n, p), b ← is_addr_imm will_return_instr_anyway p; Ok (if b && (3 <=? part_size p)%nat then Some n else None))
        (imap pair (enc_parts self));
  Ok (list_to_set (omap id l)).
Definition best_instr (fuel : nat) (self : Encoding C) : M (option Instruction) :=
  let current_choices := part_value <$> enc_parts self in
  fixed_use ← fixed_register_use self;
  o ← find_best_reg_choices fuel self (compute_full_score self fixed_use);
  let perfect_choices := match o with
    | Some choices => (λ '(c, value), default c value) <$> zip current_choices choices
    | None => current_choices
    end in
  perfect_choices ← fill_value_imms self perfect_choices (value_imms self);
  let will_return_instr_anyway := negb (bool_decide (perfect_choices = current_choices)) in
  imms ← addr_imms self will_return_instr_anyway;
  perfect_choices ← fill_addr_imms self perfect_choices imms;
  if bool_decide (perfect_choices = current_choices) then Ok None
  else
    r ← instantiate self perfect_choices;
    match r with inl dataflows => Ok (Some (dataflows_instr dataflows)) | inr _ => Ok None end.

(** ** All instructions *)

(** [(1 << part.size) as u64], where [1] is an [i32]. *)
Definition size_limit (size : nat) : M Z := x ← shl_i 32 1 (Z.of_nat size); Ok (wrap 64 x).
(** The radix of every part without a fixed value; the loop over the zipped lists
    ends with the shorter one. *)
Definition instr_radices (self : Encoding C) (fixed_value : list (option Z)) : M (list (option Z)) :=
  mapM (λ '(val, part), match val with None => r ← size_limit (part_size part); Ok (Some r) | Some _ => Ok None end)
    (zip fixed_value (enc_parts self)).
(** [repeat_with(..).take_while(..).flatten()]. *)
Fixpoint iter_loop (fuel : nat) (self : Encoding C) (fixed_value : list (option Z)) (current : list Z) : M (list Instruction) :=
  match fuel with
  | O => OutOfFuel
  | S fuel =>
      instantiation ← instantiate self current;
      radices ← instr_radices self fixed_value;
      '(next, carry) ← advance radices current 1;
      rest ← (if negb (carry =? 0) then Ok [] else iter_loop fuel self fixed_value next);
      match instantiation with
      | inl result => Ok (dataflows_instr result :: rest)
      | inr _ => Ok rest
      end
  end.
(** The bits that do not matter, from the bits of [c]. *)
Fixpoint set_dontcare (bits : list Bit) (index n : nat) (c : Z) (instr : Instruction) : M Instruction :=
  match bits with
  | [] => Ok instr
  | BDontCare :: bits =>
      x ← shr 64 c (Z.of_nat n);
      instr ← Instr.with_nth_bit_from_right instr index (Z.land x 1);
      set_dontcare bits (index + 1) (n + 1) c instr
  | _ :: bits => set_dontcare bits (index + 1) n c instr
  end.
Definition iter_instrs (fuel : nat) (self : Encoding C) (fixed_value : list (option Z)) (iter_dontcare : bool) : M (list Instruction) :=
  let dontcare := if iter_dontcare then num_dontcare_bits self else 0%nat in
  assert! (dontcare <? 24)%nat;
  l ← mapM (λ c,
      current ← mapM (λ part, first_valid_value (part_mapping part)) (enc_parts self);
      instrs ← iter_loop fuel self fixed_value current;
      mapM (set_dontcare (enc_bits self) 0 0 c) instrs)
    (seqZ 0 (2 ^ Z.of_nat dontcare));
  Ok (concat l).

(** ** Random instructions *)

(** One element of [random_instrs].  The random numbers are arguments: [choose]
    picks a valid value of a part, [gen] is a [u64] for every other part and
    [gen_bit] a bit for every position. *)
Definition random_part (choose : nat → list nat → option nat) (gen : nat → Z) (index : nat) (p : Part) (fixed_value : option Z) : M Z :=
  match fixed_value with
  | Some v => Ok v
  | None =>
      match valid_values (part_mapping p) with
      | Some l => n ← unwrap (choose index l); Ok (Z.of_nat n)
      | None => Ok (Z.land (gen index) (not_u 64 (if (part_size p <? 64)%nat then wrap 64 (Z.shiftl (2 ^ 64 - 1) (Z.of_nat (part_size p))) else 0)))
      end
  end.
Fixpoint random_dontcare (bits : list Bit) (index : nat) (gen_bit : nat → Z) (instr : Instruction) : M Instruction :=
  match bits with
  | [] => Ok instr
  | BDontCare :: bits =>
      instr ← Instr.set_nth_bit_from_right instr index (gen_bit index);
      random_dontcare bits (index + 1) gen_bit instr
  | _ :: bits => random_dontcare bits (index + 1) gen_bit instr
  end.
Definition random_instr (self : Encoding C) (part_value : list (option Z)) (choose : nat → list nat → option nat) (gen gen_bit : nat → Z) : M Instruction :=
  parts ← mapM (λ '(index, (p, fixed_value)), random_part choose gen index p fixed_value) (imap pair (zip (enc_parts self) part_value));
  instr ← all_part_values_to_instr self parts;
  random_dontcare (enc_bits self) 0 gen_bit instr.
End search.
