(* ===== verification/SearchFacts.v ===== *)
(** * Searching the instructions of an encoding: what the loops find

    [find_best_reg_choices] returns a choice with the least score of all;
    [iter_instrs] yields every instruction that the encoding covers once. *)
From stdpp Require Import sorting gmap.
From S2P Require Import Prelude MachInt Utils Size Value Addr Arch Locs State AddrComp AddrCompFacts Dataflows DataflowsFacts.
From S2P Require Import Instruction InstructionFacts Filter FilterFacts BitPattern Encoding EncodingFacts Instantiate InstantiateFacts.
From S2P Require Import Odometer EncSearch.
Import Instr.

(** ** The best choice *)

Section best.
Context {P : profile} {A : Arch} {C : Type}.

Lemma best_loop_ok (eval : list Z → M Z) (score : list Z → Z) radices fuel : ∀ vals l best,
  visited fuel radices vals = Ok l → (∀ c, c ∈ l → eval c = Ok (score c)) →
  ∃ b, best_loop fuel eval radices vals (score best) best = Ok b ∧ (b = best ∨ b ∈ l) ∧ score b <= score best ∧ ∀ c, c ∈ l → score b <= score c.
Proof.
  induction fuel as [|fuel IH]; intros vals l best Hl He; [done|]. cbn [visited best_loop] in *.
  apply M_bind_Ok_inv in Hl as ([next c] & Ea & Hl). rewrite Ea.
  assert (vals ∈ l) as Hv. { destruct (0 <? c); [injection Hl as <-; by left|]. apply M_bind_Ok_inv in Hl as (l' & _ & Hl). injection Hl as <-. by left. }
  rewrite (He vals Hv), M_bind_Ok. set (best' := if score vals <? score best then vals else best).
  assert ((if score vals <? score best then (score vals, vals) else (score best, best)) = (score best', best')) as ->.
  { unfold best'. by destruct (score vals <? score best). }
  assert (score best' <= score vals ∧ score best' <= score best ∧ (best' = best ∨ best' = vals)) as (Hb1 & Hb2 & Hb3).
  { unfold best'. destruct (Z.ltb_spec (score vals) (score best)); split_and!; auto; lia. }
  rewrite M_bind_Ok. destruct (0 <? c).
  - injection Hl as <-. exists best'. split; [done|]. split; [destruct Hb3 as [->| ->]; [by left|right; by left]|]. split; [done|].
    intros w ->%list_elem_of_singleton. done.
  - apply M_bind_Ok_inv in Hl as (l' & El & Hl). injection Hl as <-.
    destruct (IH next l' best' El) as (b & -> & Hin & Hle & Hmin); [intros; apply He; by right|]. exists b. split; [done|]. split_and!.
    + destruct Hin as [->|Hin]; [|right; by right]. destruct Hb3 as [->| ->]; [by left|right; by left].
    + lia.
    + intros w [->|Hw]%elem_of_cons; [lia|by apply Hmin].
Qed.

(** The choices of a value for every register part; the others are zero. *)
Definition choices_of (e : Encoding C) (c : list Z) : Prop := digits_ok (reg_choices e) (replicate (length (enc_parts e)) 0) c.
Lemma zeros_ok radices : radices_ok radices → digits_ok radices (replicate (length radices) 0) (replicate (length radices) 0).
Proof.
  induction 1 as [|r l Hr _ IH]; cbn; constructor; [|done]. destruct r as [r|]; cbn; [|done]. specialize (Hr r eq_refl). lia.
Qed.
Lemma number_zeros radices n : number radices (replicate n 0) = 0.
Proof. revert n. induction radices as [|[r|] l IH]; intros [|n]; try done; cbn; rewrite IH; lia. Qed.

(** [find_best_reg_choices] ends, and its answer is the current choice or one of
    the combinations of values of the register parts; no combination and not the
    current choice has a lower score. *)
Theorem find_best_reg_choices_spec (e : Encoding C) (eval : list Z → M Z) (score : list Z → Z) fuel :
  radices_ok (reg_choices e) → count (reg_choices e) <= Z.of_nat fuel →
  (∀ c, choices_of e c → eval c = Ok (score c)) → eval (part_value <$> enc_parts e) = Ok (score (part_value <$> enc_parts e)) →
  if forallb (λ c, bool_decide (c = None)) (reg_choices e) then find_best_reg_choices fuel e eval = Ok None
  else ∃ best, find_best_reg_choices fuel e eval =
      Ok (Some ((λ '(c, r), match r with Some _ => Some c | None => None end) <$> zip best (reg_choices e))) ∧
    (best = part_value <$> enc_parts e ∨ choices_of e best) ∧
    score best <= score (part_value <$> enc_parts e) ∧ ∀ c, choices_of e c → score best <= score c.
Proof.
  intros Hr Hf He Hc. unfold find_best_reg_choices. destruct (forallb _ _); [done|]. rewrite Hc, M_bind_Ok.
  assert (length (reg_choices e) = length (enc_parts e)) as Hlen by (unfold reg_choices; by rewrite length_fmap).
  destruct (visited_ok (reg_choices e) (replicate (length (reg_choices e)) 0) fuel (replicate (length (reg_choices e)) 0)) as (l & El & _ & Hl);
    [done|by apply zeros_ok|rewrite number_zeros; lia|].
  unfold choices_of in *. rewrite <- Hlen in *.
  assert (∀ c, c ∈ l ↔ digits_ok (reg_choices e) (replicate (length (reg_choices e)) 0) c) as Hin.
  { intros c. rewrite Hl, number_zeros. split; [by intros [? _]|]. intros Hd. split; [done|]. by apply (number_range _ _ _ Hr Hd). }
  destruct (best_loop_ok eval score (reg_choices e) fuel _ l (part_value <$> enc_parts e) El) as (b & -> & Hb & Hle & Hmin).
  { intros c ?%Hin. by apply He. }
  rewrite M_bind_Ok. exists b. split; [done|]. split_and!; [|done|].
  - destruct Hb as [->|Hb]; [by left|right; by apply Hin].
  - intros c ?%Hin. by apply Hmin.
Qed.
End best.

(** ** Lists of valid values *)

Section valid.
Context {A : Arch}.

Lemma first_index {X} (keep : X → bool) (l : list X) k :
  (fst <$> List.filter (λ '(_, x), keep x) (imap (λ i x, ((k + i)%nat, x)) l)) =
  match list_find (λ x, keep x = true) l with
  | Some (i, x) => (k + i)%nat :: (fst <$> List.filter (λ '(_, x), keep x) (imap (λ j x, ((k + S i + j)%nat, x)) (drop (S i) l)))
  | None => []
  end.
Proof.
  revert k. induction l as [|x l IH]; intros k; [done|]. cbn [imap List.filter list_find]. destruct (keep x) eqn:E.
  - rewrite decide_True by done. cbn. rewrite Nat.add_0_r. f_equal. f_equal. f_equal. apply imap_ext. intros i y _. cbn. f_equal. lia.
  - rewrite decide_False by congruence. unfold compose. 
    rewrite (imap_ext _ (λ i x, ((S k + i)%nat, x))) by (intros; f_equal; lia). rewrite (IH (S k)).
    destruct (list_find _ l) as [[i y]|]; cbn; [|done]. f_equal; [lia|]. f_equal. f_equal. apply imap_ext. intros j z _. f_equal. lia.
Qed.
Lemma head_index {X} (keep : X → bool) (l : list X) :
  (fst <$> List.filter (λ '(_, x), keep x) (imap pair l)) !! 0%nat = fst <$> list_find (λ x, keep x = true) l.
Proof.
  change (imap pair l) with (imap (λ i x, ((0 + i)%nat, x)) l). rewrite (first_index keep l 0). by destruct (list_find _ l) as [[i x]|].
Qed.
(** The first valid value of a part that has one. *)
Lemma first_valid_ok part v : part_wf part → is_u (Z.of_nat (part_size part)) v → is_Some (meaning part v) →
  ∃ v0, first_valid_value (part_mapping part) = Ok v0 ∧ 0 <= v0 ∧ ∀ w, is_u (Z.of_nat (part_size part)) w → is_Some (meaning part w) → v0 <= w.
Proof.
  intros Hw Hv Hm. pose proof (part_wf_mapping part Hw) as Hmap.
  assert (∀ X (keep : X → bool) (l : list X), (∀ w, is_u (Z.of_nat (part_size part)) w → is_Some (meaning part w) → ∃ x, l !! Z.to_nat w = Some x ∧ keep x = true) →
    ∃ v0, (n ← vget (fst <$> List.filter (λ '(_, x), keep x) (imap pair l)) 0; Ok (Z.of_nat n)) = Ok v0 ∧ 0 <= v0 ∧
      ∀ w, is_u (Z.of_nat (part_size part)) w → is_Some (meaning part w) → v0 <= w) as Hfind.
  { intros X keep l Hk. destruct (Hk v Hv Hm) as (x & Hx & Hkx). unfold vget. rewrite head_index.
    destruct (list_find (λ x, keep x = true) l) as [[i y]|] eqn:Ef.
    - cbn. exists (Z.of_nat i). split; [done|]. split; [lia|]. intros w Hw' Hm'. destruct (Hk w Hw' Hm') as (z & Hz & Hkz).
      apply list_find_Some in Ef as (_ & _ & Hmin). pose proof (proj1 Hw') as Hw0. destruct (decide (Z.to_nat w < i)%nat) as [Hlt|]; [|lia]. by destruct (Hmin _ _ Hz Hlt).
    - exfalso. apply list_find_None in Ef. rewrite Forall_forall in Ef. by apply (Ef x); [eapply list_elem_of_lookup_2|]. }
  unfold first_valid_value, valid_values. destruct (part_mapping part) as [m locs bits|m idx|m locs] eqn:Em.
  - destruct m as [[m|l]|]; [|by exists 0; split_and!; [done|lia|intros w [? _] _]..].
    destruct (existsb is_invalid m); [|by exists 0; split_and!; [done|lia|intros w [? _] _]]. apply Hfind. intros w _ Hmw. unfold meaning in Hmw. rewrite Em in Hmw.
    case_bool_decide as Hb; [|by destruct Hmw]. exists Valid. by rewrite Hb.
  - destruct (any_none m); [|by exists 0; split_and!; [done|lia|intros w [? _] _]]. apply Hfind. intros w _ Hmw. unfold meaning in Hmw. rewrite Em in Hmw.
    destruct (m !! Z.to_nat w) as [[a|]|]; cbn in Hmw; [|by destruct Hmw..]. exists (Some a). split; [done|]. by apply bool_decide_true.
  - destruct (any_none m); [|by exists 0; split_and!; [done|lia|intros w [? _] _]]. apply Hfind. intros w _ Hmw. unfold meaning in Hmw. rewrite Em in Hmw.
    destruct (m !! Z.to_nat w) as [[a|]|]; cbn in Hmw; [|by destruct Hmw..]. exists (Some a). split; [done|]. by apply bool_decide_true.
Qed.
End valid.

(** ** Bits that do not matter *)

(** Numbers with given bits. *)
Lemma number_of_bits (f : nat → bool) w : ∃ v, is_u (Z.of_nat w) v ∧ ∀ t, (t < w)%nat → Z.testbit v (Z.of_nat t) = f t.
Proof.
  induction w as [|w (v & Hv & Hb)]; [exists 0; split; [split; cbn; lia|lia]|].
  exists (v + Z.b2z (f w) * 2 ^ Z.of_nat w). pose proof (pow2_pos (Z.of_nat w) ltac:(lia)) as Hp. destruct Hv as [Hv1 Hv2]. split.
  - split; [destruct (f w); cbn; lia|]. rewrite Nat2Z.inj_succ, Z.pow_succ_r by lia. destruct (f w); cbn; lia.
  - intros t Ht. destruct (decide (t = w)) as [->|Hne].
    + rewrite Z.testbit_odd, Z.shiftr_div_pow2 by lia. rewrite Z.div_add, Z.div_small by lia. destruct (f w); done.
    + rewrite <- (Hb t) by lia. destruct (f w); cbn [Z.b2z]; [|f_equal; lia]. rewrite Z.mul_1_l.
      rewrite <- (Z.mod_pow2_bits_low (v + _) (Z.of_nat w)), <- (Z.mod_pow2_bits_low v (Z.of_nat w)) by lia. f_equal.
      rewrite <- Z.add_mod_idemp_r, Z.mod_same, Z.add_0_r by lia. done.
Qed.
(** The bits that do not matter, as the bits of one more part. *)
Definition dontcare_bits (bits : list Bit) : list Bit := (λ b, if bool_decide (b = BDontCare) then BPart 0 else BFixed 0) <$> bits.
Lemma dontcare_lookup bits j : dontcare_bits bits !! j = Some (BPart 0) ↔ bits !! j = Some BDontCare.
Proof. unfold dontcare_bits. rewrite list_lookup_fmap. destruct (bits !! j) as [b|]; cbn; [|done]. case_bool_decide; naive_solver. Qed.
Lemma rank_inj bits n i j : bits !! i = Some (BPart n) → bits !! j = Some (BPart n) → rank bits n i = rank bits n j → i = j.
Proof.
  intros Hi Hj E. pose proof (rank_S bits n i _ Hi) as Ei. pose proof (rank_S bits n j _ Hj) as Ej. rewrite bool_decide_true in Ei, Ej by done.
  destruct (Nat.lt_trichotomy i j) as [H|[H|H]]; [|done|]; [pose proof (rank_mono bits n (S i) j)|pose proof (rank_mono bits n (S j) i)]; lia.
Qed.

Section dontcare.
Context {P : profile} {A : Arch} {C : Type}.

Lemma num_dontcare_width (e : Encoding C) : num_dontcare_bits e = part_width (dontcare_bits (enc_bits e)) 0.
Proof.
  unfold num_dontcare_bits, part_width, rank. rewrite take_ge by done. induction (enc_bits e) as [|b l IH]; [done|]. cbn.
  destruct (decide (b = BDontCare)) as [->|Hb].
  - rewrite !bool_decide_true by done. cbn. by rewrite IH.
  - rewrite (bool_decide_false (b = BDontCare)) by done. rewrite (bool_decide_false (BFixed 0 = BPart 0)) by done. exact IH.
Qed.
Lemma with_right i k b : instr_wf i → (k < 8 * length (bytes i))%nat → is_bit b = true →
  ∃ r, with_nth_bit_from_right i k b = Ok r ∧ instr_wf r ∧ length (bytes r) = length (bytes i) ∧
    ∀ j, (j < 8 * length (bytes i))%nat → rbit r j = if (j =? k)%nat then Z.odd b else rbit i j.
Proof.
  intros Hi Hk Hb. unfold with_nth_bit_from_right. rewrite Hb. cbn [rassert]. rewrite M_bind_Ok.
  pose proof (byte_len_wf i Hi) as Hlen. unfold byte_len in Hlen. pose proof (iwf_len i Hi) as Hmax.
  rewrite new_ok by lia. rewrite M_bind_Ok. set (i' := {| data := bytes i ++ _; len := _ |}).
  assert (is_bytes (bytes i)) as Hby by (apply bytes_wf; done).
  destruct (new_wf (bytes i) i' Hby) as [Hw' Eb]; [rewrite new_ok by lia; done|].
  destruct (set_right i' k b Hw') as (r & E & W & L & R); [by rewrite Eb|done|]. exists r. rewrite Eb in L, R. split_and!; [done..|].
  intros j Hj. rewrite R by done. unfold rbit. by rewrite Eb.
Qed.
Lemma set_dontcare_ok c : ∀ bits pre i, instr_wf i → (8 * length (bytes i) = length (pre ++ bits))%nat →
  (part_width (dontcare_bits (pre ++ bits)) 0 <= 64)%nat →
  ∃ r, set_dontcare bits (length pre) (part_width (dontcare_bits pre) 0) c i = Ok r ∧ instr_wf r ∧ length (bytes r) = length (bytes i) ∧
    ∀ j, (j < length (pre ++ bits))%nat → rbit r j =
      if bool_decide (length pre <= j)%nat && bool_decide ((pre ++ bits) !! j = Some BDontCare)
      then Z.testbit c (Z.of_nat (rank (dontcare_bits (pre ++ bits)) 0 j)) else rbit i j.
Proof.
  induction bits as [|b bits IH]; intros pre i Hi Hl Hw.
  { exists i. split_and!; [done..|]. intros j Hj. rewrite length_app in Hj. cbn in Hj. rewrite bool_decide_false by lia. done. }
  assert (pre ++ b :: bits = (pre ++ [b]) ++ bits) as Eapp by by rewrite <- app_assoc.
  assert (dontcare_bits (pre ++ [b]) = dontcare_bits pre ++ [if bool_decide (b = BDontCare) then BPart 0 else BFixed 0]) as Ed.
  { unfold dontcare_bits. by rewrite fmap_app. }
  assert (part_width (dontcare_bits (pre ++ [b])) 0 = (part_width (dontcare_bits pre) 0 + if bool_decide (b = BDontCare) then 1 else 0)%nat) as Ew.
  { rewrite Ed, width_snoc. by destruct (bool_decide (b = BDontCare)). }
  assert (rank (dontcare_bits (pre ++ b :: bits)) 0 (length pre) = part_width (dontcare_bits pre) 0) as Er.
  { unfold dontcare_bits. rewrite fmap_app, rank_app by (by rewrite length_fmap). unfold part_width. by rewrite length_fmap. }
  assert (length (pre ++ [b]) = length pre + 1)%nat as El by by rewrite length_app.
  assert (8 * length (bytes i) = length pre + S (length bits))%nat as Hl' by (rewrite Hl, length_app; done).
  destruct (decide (b = BDontCare)) as [->|Hb].
  - rewrite bool_decide_true in Ew by done. cbn [set_dontcare]. rewrite shr_ok, M_bind_Ok.
    2: { assert (dontcare_bits (pre ++ BDontCare :: bits) !! length pre = Some (BPart 0)) as Hx by (apply dontcare_lookup; by rewrite list_lookup_middle).
         pose proof (rank_lt_width _ _ _ Hx). lia. }
    set (bv := Z.land (Z.shiftr c _) 1). assert (bv = Z.b2z (Z.testbit c (Z.of_nat (part_width (dontcare_bits pre) 0)))) as Ebv.
    { unfold bv. rewrite land_1, Z.shiftr_spec by lia. f_equal. }
    destruct (with_right i (length pre) bv Hi) as (i1 & E1 & W1 & L1 & R1); [lia|rewrite Ebv; by destruct (Z.testbit c _)|]. rewrite E1, M_bind_Ok.
    destruct (IH (pre ++ [BDontCare]) i1 W1) as (r & E & W & L & R); [rewrite L1, Hl, Eapp; done|by rewrite <- Eapp|].
    rewrite El, Ew in E. exists r. split_and!; [done|done|lia|]. intros j Hj. rewrite Eapp in Hj |- *. rewrite R by done. rewrite El.
    destruct (decide (j = length pre)) as [->|Hne].
    + rewrite (bool_decide_false (length pre + 1 <= _)%nat) by lia. rewrite (bool_decide_true (length pre <= _)%nat) by lia. cbn [andb].
      rewrite R1, Nat.eqb_refl by lia. rewrite <- Eapp, bool_decide_true by (by rewrite list_lookup_middle). rewrite Er, Ebv. by destruct (Z.testbit c _).
    + rewrite R1 by (rewrite <- Eapp in Hj; lia). rewrite (proj2 (Nat.eqb_neq _ _)) by done.
      rewrite (bool_decide_ext (length pre + 1 <= j)%nat (length pre <= j)%nat) by lia. done.
  - rewrite bool_decide_false, Nat.add_0_r in Ew by done.
    destruct (IH (pre ++ [b]) i Hi) as (r & E & W & L & R); [by rewrite Hl, Eapp|by rewrite <- Eapp|]. rewrite El, Ew in E. exists r.
    split_and!; [by destruct b|done|done|]. intros j Hj. rewrite Eapp in Hj |- *. rewrite R by done. rewrite El.
    destruct (decide (j = length pre)) as [->|Hne].
    + rewrite (bool_decide_false (length pre + 1 <= _)%nat) by lia. cbn [andb]. rewrite <- Eapp, (bool_decide_false (_ = Some BDontCare)), andb_false_r; [done|].
      rewrite list_lookup_middle by done. by intros [= ->].
    + rewrite (bool_decide_ext (length pre + 1 <= j)%nat (length pre <= j)%nat) by lia. done.
Qed.
End dontcare.

(** ** All instructions *)

Section iteration.
Context {P : profile} {A : Arch} {C : Type}.

(** The instructions that an encoding covers: the fixed bits are the same, and the
    values of the parts have a meaning. *)
Record covers (e : Encoding C) (i : Instruction) : Prop := {
  covers_wf : instr_wf i;
  covers_len : byte_len i = byte_len (enc_instr e);
  covers_fixed : matches_fixed e i;
  covers_values : ∃ pv, extract_parts e i = Ok pv ∧ ~ bad_parts e (Some <$> pv);
}.
(** The bits of the instruction with these part values. *)
Definition has_values (e : Encoding C) (i : Instruction) (pv : list Z) : Prop :=
  ∀ j n v, enc_bits e !! j = Some (BPart n) → pv !! n = Some v → Z.testbit v (Z.of_nat (rank (enc_bits e) n j)) = rbit i j.
Lemma extract_values (e : Encoding C) i pv : enc_wf e → instr_wf i → length (bytes i) = length (bytes (enc_instr e)) → matches_fixed e i →
  all_values e pv → has_values e i pv → extract_parts e i = Ok pv.
Proof.
  intros He Hi Hl Hf Hall Hr. destruct (extract_ok e i He Hi Hl Hf) as (pv' & -> & L' & R'). f_equal.
  apply (list_eq_same_length _ _ (length pv')); [by destruct Hall as [->]|done|]. intros n x y Hn Hx Hy.
  apply (reads_unique (enc_bits e) i n); [by apply R'|]. split; [by apply Hall|]. intros j Hj. by apply Hr.
Qed.
Lemma extracted_values (e : Encoding C) i pv : enc_wf e → instr_wf i → length (bytes i) = length (bytes (enc_instr e)) → matches_fixed e i →
  extract_parts e i = Ok pv → all_values e pv ∧ has_values e i pv.
Proof.
  intros He Hi Hl Hf E. destruct (extract_ok e i He Hi Hl Hf) as (pv' & E' & L' & R'). rewrite E in E'. injection E' as <-.
  split; [split; [done|]; intros n v Hn; apply (R' n v Hn)|]. intros j n v Hj Hn. by apply (R' n v Hn).
Qed.

(** The radices of the parts. *)
Definition part_radices (e : Encoding C) : list (option Z) := (λ p, Some (2 ^ Z.of_nat (part_size p))) <$> enc_parts e.
Definition small_parts (e : Encoding C) : Prop := Forall (λ p, part_size p < 31)%nat (enc_parts e).
Lemma size_limit_ok n : (n < 31)%nat → size_limit n = Ok (2 ^ Z.of_nat n).
Proof.
  intros Hn. unfold size_limit. rewrite shl_i_ok, M_bind_Ok, Z.shiftl_1_l by lia.
  assert (0 < 2 ^ Z.of_nat n <= 2 ^ 30) as Hp by (split; [apply pow2_pos; lia|apply Z.pow_le_mono_r; lia]).
  rewrite swrap_small by (split; lia). by rewrite wrap_small by (split; lia).
Qed.
Lemma instr_radices_ok (e : Encoding C) n : small_parts e → (length (enc_parts e) <= n)%nat →
  instr_radices e (replicate n None) = Ok (part_radices e).
Proof.
  unfold small_parts, instr_radices, part_radices. revert n. induction (enc_parts e) as [|p l IH]; intros n Hs Hn; [by destruct n|].
  destruct n as [|n]; [cbn in Hn; lia|]. apply Forall_cons in Hs as [Hp Hs]. cbn [replicate zip zip_with mapM fmap list_fmap].
  rewrite size_limit_ok, !M_bind_Ok by done. rewrite IH by (done || (cbn in Hn; lia)). done.
Qed.
Lemma part_radices_ok e : small_parts e → radices_ok (part_radices e).
Proof.
  intros Hs. apply Forall_forall. intros r Hr n ->. unfold part_radices in Hr. apply list_elem_of_fmap in Hr as (p & [= ->] & Hp).
  unfold small_parts in Hs. rewrite Forall_forall in Hs. specialize (Hs p Hp). split; [apply pow2_pos; lia|apply Z.pow_lt_mono_r; lia].
Qed.
Lemma digits_all_values (e : Encoding C) start pv : enc_ok e → length start = length (enc_parts e) →
  digits_ok (part_radices e) start pv ↔ all_values e pv.
Proof.
  intros He Hs. assert (digits_ok (part_radices e) start pv ↔ length pv = length (enc_parts e) ∧
    ∀ n p v, enc_parts e !! n = Some p → pv !! n = Some v → 0 <= v < 2 ^ Z.of_nat (part_size p)) as ->.
  { unfold part_radices. clear He. revert start pv Hs. induction (enc_parts e) as [|p l IH]; intros [|s start] [|v pv] Hs; try done; cbn.
    - split; [done|constructor].
    - split; [inversion 1|]. intros [? _]. done.
    - split; [inversion 1|]. intros [? _]. done.
    - cbn in Hs. split.
      + inversion 1 as [|? ? ? ? ? ? Hd Hds]; subst. apply IH in Hds as [Hl Hv]; [|lia]. split; [lia|]. intros [|n] q w; cbn; [by intros [= <-] [= <-]|apply Hv].
      + intros [Hl Hv]. constructor; [by apply (Hv 0%nat p v)|]. apply IH; [lia|]. split; [lia|]. intros n. apply (Hv (S n)). }
  split.
  - intros [Hl Hv]. split; [done|]. intros n v Hn. destruct (lookup_lt_is_Some_2 (enc_parts e) n) as [p Hp]; [rewrite <- Hl; by eapply lookup_lt_Some|].
    destruct (ok_parts e He n p Hp) as [_ <-]. by apply (Hv n p v).
  - intros [Hl Hv]. split; [done|]. intros n p v Hp Hn. destruct (ok_parts e He n p Hp) as [_ ->]. by apply Hv.
Qed.

Definition instance (e : Encoding C) (pv : list Z) : option Instruction :=
  match instantiate e pv with Ok (inl d) => Some (dataflows_instr d) | _ => None end.
Lemma instance_ok (e : Encoding C) pv : enc_ok e → all_values e pv →
  (∃ r, instantiate e pv = Ok r ∧ instance e pv = match r with inl d => Some (dataflows_instr d) | inr _ => None end) ∧
  (bad_parts e (Some <$> pv) → instance e pv = None) ∧
  (~ bad_parts e (Some <$> pv) → ∃ r, instance e pv = Some r ∧ instr_wf r ∧ length (bytes r) = length (bytes (enc_instr e)) ∧
     ∀ j, (j < length (enc_bits e))%nat → rbit r j = bit_with e (Some <$> pv) j).
Proof.
  intros He Hall. destruct (all_values_ok e pv (ok_wf e He) Hall) as [Hok Hfit].
  assert (instantiate e pv = instantiate_dataflows e (Some <$> pv) (new_indices_from 0 (Some <$> pv))) as Ei.
  { unfold instantiate, compute_new_indices.
    by rewrite length_fmap, (all_values_length e pv Hall), (proj2 (Nat.leb_le _ _) (enc_wf_max e (ok_wf e He))). }
  unfold instance. rewrite Ei. destruct (list_find is_bad (zip (enc_parts e) (Some <$> pv))) as [[n [part o]]|] eqn:Ef.
  - rewrite (instantiate_dataflows_bad e _ _ n part o He Hok Hfit Ef). split; [eauto|]. split; [done|]. intros []. apply Exists_exists.
    apply list_find_Some in Ef as (Hn & Hb & _). exists (part, o). split; [by eapply list_elem_of_lookup_2|done].
  - apply list_find_None in Ef. assert (~ bad_parts e (Some <$> pv)) as Hg.
    { intros (x & Hx & Hbx)%Exists_exists. rewrite Forall_forall in Ef. by apply (Ef x). }
    destruct (instantiate_dataflows_ok e _ He Hok Hfit Hg) as (r & Er & W & L & R & E). rewrite E. split; [eauto|]. split; [done|]. intros _.
    exists r. done.
Qed.
Lemma iter_loop_ok (e : Encoding C) fixed start fuel : enc_ok e → length start = length (enc_parts e) → small_parts e →
  instr_radices e fixed = Ok (part_radices e) → ∀ vals l, visited fuel (part_radices e) vals = Ok l →
  digits_ok (part_radices e) start vals → (∀ c, c ∈ l → all_values e c) → iter_loop fuel e fixed vals = Ok (omap (instance e) l).
Proof.
  intros He Hs Hsmall Hrad. induction fuel as [|fuel IH]; intros vals l Hl Hd Hall; [done|]. cbn [visited iter_loop] in *. rewrite Hrad.
  destruct (advance_ok (part_radices e) start vals 1 (part_radices_ok e Hsmall) Hd) as (next & c & Ea & Hd' & Hc & _); [by right|].
  rewrite Ea in Hl. rewrite M_bind_Ok in Hl. assert (vals ∈ l) as Hv.
  { destruct (0 <? c); [injection Hl as <-; by left|]. apply M_bind_Ok_inv in Hl as (l' & _ & Hl). injection Hl as <-. by left. }
  destruct (instance_ok e vals He (Hall vals Hv)) as [(r & Er & Ei) _]. rewrite Er, !M_bind_Ok, Ea, M_bind_Ok.
  destruct Hc as [->| ->]; cbn [Z.eqb Z.ltb Z.compare negb] in *.
  - apply M_bind_Ok_inv in Hl as (l' & El & Hl). injection Hl as <-. rewrite (IH next l' El Hd') by (intros; apply Hall; by right).
    rewrite M_bind_Ok. cbn. rewrite Ei. by destruct r.
  - injection Hl as <-. cbn. rewrite Ei. by destruct r.
Qed.

(** Every part has a valid value, as [integrity_check] requires. *)
Definition has_valid (e : Encoding C) : Prop :=
  Forall (λ p, ∃ v, is_u (Z.of_nat (part_size p)) v ∧ is_Some (meaning p v)) (enc_parts e).
Lemma good_meaning (e : Encoding C) pv n p v : ~ bad_parts e (Some <$> pv) → enc_parts e !! n = Some p → pv !! n = Some v → is_Some (meaning p v).
Proof.
  intros Hg Hp Hv. destruct (meaning p v) eqn:E; [done|]. destruct Hg. apply Exists_exists. exists (p, Some v). split; [|by exists v].
  apply (list_elem_of_lookup_2 _ n). apply lookup_zip_Some. by rewrite list_lookup_fmap, Hv.
Qed.
(** The values that the iteration starts from are below all valid ones. *)
Lemma start_ok (e : Encoding C) : enc_ok e → has_valid e → ∃ cur, mapM (λ part, first_valid_value (part_mapping part)) (enc_parts e) = Ok cur ∧
  all_values e cur ∧ ∀ pv, all_values e pv → ~ bad_parts e (Some <$> pv) → Forall2 Z.le cur pv.
Proof.
  intros He Hv. assert (∃ cur, mapM (λ part, first_valid_value (part_mapping part)) (enc_parts e) = Ok cur ∧
    Forall2 (λ p v0, 0 <= v0 < 2 ^ Z.of_nat (part_size p) ∧ ∀ w, is_u (Z.of_nat (part_size p)) w → is_Some (meaning p w) → v0 <= w) (enc_parts e) cur) as (cur & E & F).
  { assert (Forall part_wf (enc_parts e)) as Hw. { apply Forall_lookup_2. intros n p Hp. by apply (ok_parts e He n p). }
    unfold has_valid in Hv. clear He. induction (enc_parts e) as [|p l IH]; [by exists []|].
    apply Forall_cons in Hv as [(v & Hu & Hm) Hv], Hw as [Hp Hw]. destruct (IH Hv Hw) as (cur & E & F).
    destruct (first_valid_ok p v Hp Hu Hm) as (v0 & E0 & H0 & Hmin). exists (v0 :: cur). cbn [mapM]. rewrite E0, M_bind_Ok, E, M_bind_Ok.
    split; [done|]. constructor; [|done]. split; [|done]. specialize (Hmin v Hu Hm). destruct Hu. lia. }
  exists cur. split; [done|]. pose proof (Forall2_length _ _ _ F) as Hl. split.
  - split; [done|]. intros n v Hn. destruct (Forall2_lookup_r _ _ _ _ _ F Hn) as (p & Hp & Hr & _). destruct (ok_parts e He n p Hp) as [_ <-]. exact Hr.
  - intros pv [Hlp Hfit] Hg. apply Forall2_same_length_lookup_2; [lia|]. intros n x y Hx Hy.
    destruct (Forall2_lookup_r _ _ _ _ _ F Hx) as (p & Hp & _ & Hmin). apply Hmin.
    + destruct (ok_parts e He n p Hp) as [_ ->]. by apply Hfit.
    + by apply (good_meaning e pv n).
Qed.

Definition filled (e : Encoding C) (c : Z) (r : Instruction) : Instruction :=
  match set_dontcare (enc_bits e) 0 0 c r with Ok r => r | _ => r end.
(** The instruction with these part values, and the bits of [c] where they do not matter. *)
Lemma filled_ok (e : Encoding C) c pv r : enc_ok e → (num_dontcare_bits e <= 64)%nat → all_values e pv → ~ bad_parts e (Some <$> pv) → instance e pv = Some r →
  set_dontcare (enc_bits e) 0 0 c r = Ok (filled e c r) ∧ covers e (filled e c r) ∧ extract_parts e (filled e c r) = Ok pv ∧
  length (bytes (filled e c r)) = length (bytes (enc_instr e)) ∧
  ∀ j, enc_bits e !! j = Some BDontCare → rbit (filled e c r) j = Z.testbit c (Z.of_nat (rank (dontcare_bits (enc_bits e)) 0 j)).
Proof.
  intros He Hdc Hall Hg Hi. destruct (instance_ok e pv He Hall) as (_ & _ & H). destruct (H Hg) as (r' & Hr' & W & L & R). rewrite Hi in Hr'. injection Hr' as <-.
  pose proof (enc_wf_length e (ok_wf e He)) as Hlen.
  destruct (set_dontcare_ok c (enc_bits e) [] r W) as (f & E & Wf & Lf & Rf); [rewrite L; done|cbn [app]; by rewrite <- num_dontcare_width|].
  cbn [app length] in *. change (part_width (dontcare_bits []) 0) with 0%nat in E. unfold filled. rewrite E.
  assert (∀ j, (j < length (enc_bits e))%nat → rbit f j = if bool_decide (enc_bits e !! j = Some BDontCare)
    then Z.testbit c (Z.of_nat (rank (dontcare_bits (enc_bits e)) 0 j)) else bit_with e (Some <$> pv) j) as Hf.
  { intros j Hj. rewrite Rf by done. rewrite (bool_decide_true (0 <= j)%nat) by lia. cbn [andb]. by rewrite R. }
  assert (matches_fixed e f) as Hfix.
  { intros j v Hj. rewrite Hf by (by eapply lookup_lt_Some). rewrite Hj, bool_decide_false, bit_with_all, Hj by done. by apply (enc_wf_fixed e (ok_wf e He)). }
  assert (has_values e f pv) as Hval.
  { intros j n v Hj Hn. rewrite Hf by (by eapply lookup_lt_Some). by rewrite Hj, bool_decide_false, bit_with_all, Hj, Hn by done. }
  assert (extract_parts e f = Ok pv) as Hx by (apply extract_values; [apply (ok_wf e He)|done|lia|done..]).
  split_and!; [done|split; [done|unfold byte_len; lia|done|eauto]|done|lia|].
  intros j Hj. rewrite Hf by (by eapply lookup_lt_Some). by rewrite bool_decide_true.
Qed.
(** Two instructions with the same fixed bits, part values and other bits. *)
Lemma same_bytes (e : Encoding C) a b pv : enc_ok e → covers e a → covers e b → extract_parts e a = Ok pv → extract_parts e b = Ok pv →
  (∀ j, enc_bits e !! j = Some BDontCare → rbit a j = rbit b j) → bytes a = bytes b.
Proof.
  intros He [A1 A2 A3 _] [B1 B2 B3 _] Ea Eb Hd. pose proof (ok_wf e He) as Hwf. pose proof (enc_wf_length e Hwf) as Hlen. unfold byte_len in *.
  destruct (extracted_values e a pv Hwf A1 A2 A3 Ea) as [[Hl _] Ha]. destruct (extracted_values e b pv Hwf B1 B2 B3 Eb) as [_ Hb].
  apply rbits_ext; [done|done|lia|]. intros k Hk. destruct (lookup_lt_is_Some_2 (enc_bits e) k) as [x Hx]; [lia|]. destruct x as [n|v|].
  - destruct (lookup_lt_is_Some_2 pv n) as [v Hv]; [rewrite Hl; apply (enc_wf_parts e Hwf); by eapply list_elem_of_lookup_2|].
    by rewrite <- (Ha k n v Hx Hv), <- (Hb k n v Hx Hv).
  - pose proof (A3 k v Hx). pose proof (B3 k v Hx). destruct (rbit a k), (rbit b k); cbn in *; congruence.
  - by apply Hd.
Qed.
Lemma dontcare_number (e : Encoding C) i : ∃ c, is_u (Z.of_nat (num_dontcare_bits e)) c ∧
  ∀ j, enc_bits e !! j = Some BDontCare → rbit i j = Z.testbit c (Z.of_nat (rank (dontcare_bits (enc_bits e)) 0 j)).
Proof.
  set (bits := dontcare_bits (enc_bits e)).
  destruct (number_of_bits (λ t, existsb (λ j, bool_decide (bits !! j = Some (BPart 0)) && (rank bits 0 j =? t)%nat && rbit i j) (seq 0 (length bits)))
    (num_dontcare_bits e)) as (c & Hc & Hb). exists c. split; [done|]. intros j Hj%dontcare_lookup. fold bits in Hj.
  rewrite Hb by (rewrite num_dontcare_width; by apply rank_lt_width). apply eq_true_iff_eq. rewrite existsb_exists. split.
  - intros Hr. exists j. split; [apply in_seq; apply lookup_lt_Some in Hj; lia|]. rewrite bool_decide_true, Nat.eqb_refl, Hr by done. done.
  - intros (k & _ & [[Hk%bool_decide_eq_true Hrk%Nat.eqb_eq]%andb_true_iff Hr]%andb_true_iff).
    by rewrite (rank_inj bits 0 j k Hj Hk).
Qed.

Lemma fmap_bind_list {X Y Z0} (f : Y → Z0) (g : X → list Y) (l : list X) : f <$> (l ≫= g) = l ≫= λ x, f <$> g x.
Proof. induction l as [|x l IH]; [done|]. cbn. by rewrite fmap_app, IH. Qed.
Lemma NoDup_omap_list {X Y} (f : X → option Y) (l : list X) : (∀ x y z, x ∈ l → y ∈ l → f x = Some z → f y = Some z → x = y) →
  NoDup l → NoDup (omap f l).
Proof.
  intros Hf. induction 1 as [|x l Hx Hl IH]; [constructor|]. cbn. assert (NoDup (omap f l)) as Hn by (apply IH; intros ? ? ? ? ?; apply Hf; by right).
  destruct (f x) as [z|] eqn:E; [|done]. apply NoDup_cons. split; [|done]. intros (y & Hy & Ey)%list_elem_of_omap.
  apply Hx. by rewrite (Hf x y z ltac:(left) ltac:(by right) E Ey).
Qed.
(** What the instructions of the parts become when the other bits are filled in. *)
Definition fills (e : Encoding C) (insts : list Instruction) : Prop := ∀ c r, r ∈ insts → ∃ pv, instance e pv = Some r ∧
  set_dontcare (enc_bits e) 0 0 c r = Ok (filled e c r) ∧ covers e (filled e c r) ∧ extract_parts e (filled e c r) = Ok pv ∧
  ∀ j, enc_bits e !! j = Some BDontCare → rbit (filled e c r) j = Z.testbit c (Z.of_nat (rank (dontcare_bits (enc_bits e)) 0 j)).
Lemma fills_ok (e : Encoding C) l : enc_ok e → (num_dontcare_bits e <= 64)%nat → (∀ pv, pv ∈ l → all_values e pv) → NoDup l →
  fills e (omap (instance e) l) ∧ NoDup (omap (instance e) l).
Proof.
  intros He Hdc Hall Hnd. assert (∀ pv r, instance e pv = Some r → pv ∈ l → all_values e pv ∧ ~ bad_parts e (Some <$> pv)) as Hgood.
  { intros pv r Hi Hp%Hall. split; [done|]. intros Hb. destruct (instance_ok e pv He Hp) as (_ & H & _). by rewrite (H Hb) in Hi. }
  split.
  - intros c r (pv & Hp & Hi)%list_elem_of_omap. destruct (Hgood pv r Hi Hp) as [Ha Hg]. exists pv. split; [done|].
    destruct (filled_ok e c pv r He Hdc Ha Hg Hi) as (F1 & F2 & F3 & _ & F5). done.
  - apply NoDup_omap_list; [|done]. intros pv1 pv2 r Hp1 Hp2 H1 H2.
    destruct (Hgood pv1 r H1 Hp1) as [A1 G1], (Hgood pv2 r H2 Hp2) as [A2 G2].
    destruct (filled_ok e 0 pv1 r He Hdc A1 G1 H1) as (_ & _ & X1 & _), (filled_ok e 0 pv2 r He Hdc A2 G2 H2) as (_ & _ & X2 & _). congruence.
Qed.
(** The bytes determine the part values. *)
Lemma bytes_values (e : Encoding C) a b pv : enc_ok e → covers e a → covers e b → extract_parts e a = Ok pv → bytes a = bytes b → extract_parts e b = Ok pv.
Proof.
  intros He [A1 A2 A3 _] [B1 B2 B3 _] X Eb. pose proof (ok_wf e He) as Hwf. destruct (extracted_values e a pv Hwf A1 A2 A3 X) as [Ha Hh].
  apply extract_values; [done..|]. intros j m v Hj Hm. rewrite (Hh j m v Hj Hm). unfold rbit. by rewrite Eb.
Qed.
Lemma fills_NoDup (e : Encoding C) insts : enc_ok e → fills e insts → NoDup insts →
  NoDup (bytes <$> (seqZ 0 (2 ^ Z.of_nat (num_dontcare_bits e)) ≫= λ c, filled e c <$> insts)).
Proof.
  intros He Hfill Hnd. rewrite fmap_bind_list. apply NoDup_bind.
  - intros c1 c2 b Hc1 Hc2 Hb1 Hb2. rewrite <- list_fmap_compose in Hb1, Hb2.
    apply list_elem_of_fmap in Hb1 as (r1 & -> & Hr1), Hb2 as (r2 & Eb & Hr2). unfold compose in Eb.
    destruct (Hfill c1 r1 Hr1) as (pv1 & _ & _ & _ & _ & D1). destruct (Hfill c2 r2 Hr2) as (pv2 & _ & _ & _ & _ & D2).
    apply elem_of_seqZ in Hc1, Hc2. apply (u_ext (Z.of_nat (num_dontcare_bits e))); [lia|split; lia|split; lia|]. intros t Ht.
    destruct (rank_surj (dontcare_bits (enc_bits e)) 0 (length (dontcare_bits (enc_bits e))) (Z.to_nat t)) as (j & _ & Hj & Er).
    { rewrite num_dontcare_width in Ht. unfold part_width in Ht. lia. }
    apply dontcare_lookup in Hj. specialize (D1 j Hj). specialize (D2 j Hj). rewrite Er, Z2Nat.id in D1, D2 by lia.
    rewrite <- D1, <- D2. unfold rbit. by rewrite Eb.
  - intros c _. rewrite <- list_fmap_compose. apply NoDup_fmap_2_strong; [|done]. intros r1 r2 Hr1 Hr2 Eb. unfold compose in Eb.
    destruct (Hfill c r1 Hr1) as (pv1 & I1 & _ & C1 & X1 & _), (Hfill c r2 Hr2) as (pv2 & I2 & _ & C2 & X2 & _).
    pose proof (bytes_values e _ _ pv1 He C1 C2 X1 Eb) as X. rewrite X2 in X. apply (inj Ok) in X as ->. congruence.
  - apply NoDup_seqZ.
Qed.

(** C13: for a well-formed encoding whose parts are all narrower than 31 bits and have a valid value
    each, and with fewer than 24 bits that do not matter, [iter_instrs] over all parts
    and these bits ends, and yields exactly the instructions that the encoding covers,
    each of them once.  Fuel for the number of combinations of part values is enough.
    The bound on the parts is needed: with a part of 32 bits, like a 32-bit immediate,
    the iteration panics in [dev] and sees only one value of the part in [release]
    ([size_limit_wide]); with 24 bits that do not matter an assertion fails. *)
Theorem iter_instrs_spec (e : Encoding C) n fuel : enc_ok e → has_valid e → small_parts e → (length (enc_parts e) <= n)%nat →
  (num_dontcare_bits e < 24)%nat → count (part_radices e) <= Z.of_nat fuel →
  ∃ l, iter_instrs fuel e (replicate n None) true = Ok l ∧ NoDup (bytes <$> l) ∧
    (∀ r, r ∈ l → covers e r) ∧ ∀ i, covers e i → ∃ r, r ∈ l ∧ Instr.eq r i = true.
Proof.
  intros He Hv Hs Hn Hdc Hf. destruct (start_ok e He Hv) as (cur & Ecur & Hcur & Hle).
  assert (length cur = length (enc_parts e)) as Hlc by apply Hcur. pose proof (part_radices_ok e Hs) as Hrad.
  assert (digits_ok (part_radices e) cur cur) as Hdig by (by apply digits_all_values).
  destruct (visited_ok (part_radices e) cur fuel cur Hrad Hdig) as (l & El & Hnd & Hl); [pose proof (number_range _ _ _ Hrad Hdig); lia|].
  assert (∀ pv, pv ∈ l → all_values e pv) as Hall by (intros pv [Hd _]%Hl; by apply (digits_all_values e cur) in Hd).
  destruct (fills_ok e l He ltac:(lia) Hall Hnd) as [Hfill Hndi]. set (insts := omap (instance e) l) in *.
  set (cs := seqZ 0 (2 ^ Z.of_nat (num_dontcare_bits e))). exists (cs ≫= λ c, filled e c <$> insts). split; [|split; [|split]].
  - unfold iter_instrs. rewrite (proj2 (Nat.ltb_lt _ _) Hdc). cbn [rassert]. rewrite M_bind_Ok.
    rewrite (mapM_Ok _ (λ c, filled e c <$> insts)).
    + rewrite M_bind_Ok. f_equal. fold cs. clear. induction cs as [|c cs IH]; [done|]. cbn. by rewrite IH.
    + intros c _. rewrite Ecur, M_bind_Ok. rewrite (iter_loop_ok e _ cur fuel He Hlc Hs (instr_radices_ok e n Hs Hn) cur l El Hdig Hall), M_bind_Ok.
      apply mapM_Ok. intros r Hr. by destruct (Hfill c r Hr) as (pv & _ & E & _).
  - by apply fills_NoDup.
  - intros r (c & Hr & Hc)%list_elem_of_bind. apply list_elem_of_fmap in Hr as (r0 & -> & Hr0). by destruct (Hfill c r0 Hr0) as (? & _ & _ & ? & _).
  - intros i Hi. destruct (covers_values e i Hi) as (pv & Ex & Hg).
    destruct (extracted_values e i pv (ok_wf e He) (covers_wf e i Hi) (covers_len e i Hi) (covers_fixed e i Hi) Ex) as [Ha _].
    destruct (instance_ok e pv He Ha) as (_ & _ & H). destruct (H Hg) as (r & Hr & _). destruct (dontcare_number e i) as (c & Hc & Hbits).
    assert (r ∈ insts) as Hri.
    { apply list_elem_of_omap. exists pv. split; [|done]. apply Hl. split; [by apply digits_all_values|]. apply number_mono; [done|]. by apply Hle. }
    exists (filled e c r). split.
    + apply list_elem_of_bind. exists c. split; [by apply list_elem_of_fmap_2|]. apply elem_of_seqZ. destruct Hc. lia.
    + unfold Instr.eq. apply bool_decide_eq_true. destruct (filled_ok e c pv r He ltac:(lia) Ha Hg Hr) as (_ & F2 & F3 & _ & F5).
      apply (same_bytes e _ _ pv); [done..|]. intros j Hj. by rewrite F5, Hbits by done.
Qed.
End iteration.

(** ** Fixed values and wide parts

    The documentation says that only instructions with the given values are
    yielded; the values are not looked at, only whether there is one: a part with
    a fixed value keeps its first valid value.  The limit of a part is computed on
    32 bits. *)

Section limits.
Context {P : profile} {A : Arch} {C : Type}.

Lemma instr_radices_ext (e : Encoding C) l l' : Forall2 (λ a b : option Z, is_Some a ↔ is_Some b) l l' → instr_radices e l = instr_radices e l'.
Proof.
  unfold instr_radices. intros H. generalize (enc_parts e). induction H as [|a b l l' Hab H IH]; intros ps; [done|].
  destruct ps as [|p ps]; [done|]. cbn [zip zip_with mapM]. rewrite IH.
  destruct a, b; try done; [by destruct (proj1 Hab); eauto|by destruct (proj2 Hab); eauto].
Qed.
Lemma iter_loop_ext (e : Encoding C) l l' fuel cur : Forall2 (λ a b : option Z, is_Some a ↔ is_Some b) l l' → iter_loop fuel e l cur = iter_loop fuel e l' cur.
Proof.
  intros H. revert cur. induction fuel as [|fuel IH]; intros cur; [done|]. cbn [iter_loop]. rewrite (instr_radices_ext e l l' H).
  apply M_bind_ext. intros i. apply M_bind_ext. intros r. apply M_bind_ext. intros [next c]. destruct (negb (c =? 0)); [done|]. by rewrite IH.
Qed.
Theorem iter_instrs_ignores_fixed (e : Encoding C) l l' fuel dc : Forall2 (λ a b : option Z, is_Some a ↔ is_Some b) l l' →
  iter_instrs fuel e l dc = iter_instrs fuel e l' dc.
Proof.
  intros H. unfold iter_instrs. apply M_bind_ext. intros _. f_equal.
  induction (seqZ 0 _) as [|c cs IH]; [done|]. cbn [mapM]. rewrite IH. f_equal. apply M_bind_ext. intros cur. by rewrite (iter_loop_ext e l l').
Qed.
Theorem size_limit_wide : size_limit (P:=Dev) 32 = Panic ∧ size_limit (P:=Release) 32 = Ok 1 ∧ size_limit 31 = Ok (2 ^ 64 - 2 ^ 31).
Proof. split_and!; [done..|]. by destruct P. Qed.
End limits.

Lemma demo_has_valid : has_valid demo_enc.
Proof.
  apply Forall_cons; split; [|apply Forall_cons; split; [|by apply Forall_nil]]; exists 0; (split; [split; cbn; lia|]); cbn; eauto.
Qed.
Lemma demo_small : small_parts demo_enc.
Proof. apply Forall_cons; split; [cbn; lia|]. apply Forall_cons; split; [cbn; lia|by apply Forall_nil]. Qed.
Lemma iter_instrs_witness : ∃ l, iter_instrs (P:=Dev) 512 demo_enc [None; None] true = Ok l ∧ NoDup (bytes <$> l) ∧ ∀ r, r ∈ l → covers (P:=Dev) demo_enc r.
Proof.
  destruct (iter_instrs_spec (P:=Dev) demo_enc 2 512 demo_enc_ok demo_has_valid demo_small) as (l & E & N & H & _).
  - cbn. lia.
  - change (num_dontcare_bits demo_enc) with 1%nat. lia.
  - cbn. lia.
  - exists l. split; [exact E|]. split; [exact N|exact H].
Defined.
(** The score of a choice is its distance to the register number 1. *)
Lemma find_best_reg_choices_witness : ∃ best,
  find_best_reg_choices (P:=Dev) 2 demo_enc (λ c, Ok (Z.abs (1 - default 0 (c !! 0%nat)))) = Ok (Some best) ∧ length best = 2%nat.
Proof.
  destruct (find_best_reg_choices_spec (P:=Dev) demo_enc (λ c, Ok (Z.abs (1 - default 0 (c !! 0%nat)))) (λ c, Z.abs (1 - default 0 (c !! 0%nat))) 2) as (best & E & Hb & _).
  - apply Forall_cons; split; [intros n [= <-]; lia|]. apply Forall_cons; split; [done|by apply Forall_nil].
  - cbn. lia.
  - done.
  - done.
  - eexists. split; [exact E|]. rewrite length_fmap, length_zip_with. destruct Hb as [->|Hb]; [reflexivity|].
    inversion Hb as [|? ? ? ? ? ? _ Hb']; subst. inversion Hb' as [|? ? ? ? ? ? _ Hb'']; subst. inversion Hb''; subst. reflexivity.
Defined.
Lemma iter_instrs_ignores_fixed_witness : iter_instrs (P:=Dev) 1 demo_enc [Some 1; Some 0x2A] false = iter_instrs (P:=Dev) 1 demo_enc [Some 0; Some 0] false.
Proof. apply iter_instrs_ignores_fixed. repeat constructor; eauto. Defined.
