(* ===== verification/EncTransform.v ===== *)
(** * Transformations of encodings

    Models the functions of [liblisa/src/encoding/mod.rs] that change an encoding:
    fixing a bit, removing a byte, restricting to a filter, the canonical form,
    splitting flag outputs, and removing unused inputs and identity assignments.
    A method that takes [&mut self] returns the new encoding.  Log messages are
    not modelled. *)
From stdpp Require Import sorting.
From S2P Require Import Prelude MachInt Utils Size Value Addr Arch Locs State AddrComp Dataflows Instruction Filter.
From S2P Require Import BitPattern Encoding Instantiate.
Import SizeOps.

(** The methods of the trait [Computation] that deal with inputs. *)
Class InputComputation (C : Type) := {
  comp_used_input_indices : C → M (list nat);
  comp_remap_inputs : C → list (option nat) → M C;
  comp_is_identity : C → M bool;
}.
(** [is_identity] is not implemented for address computations. *)
#[export] Instance AddressComputation_inputs {P : profile} : InputComputation AddressComputation := {|
  comp_used_input_indices c := Ok (Calc.used_input_indices c);
  comp_remap_inputs := Calc.remap_inputs;
  comp_is_identity _ := Panic;
|}.

(** ** Bits and mappings *)

Section bits.
Context {P : profile}.

Definition remove_bit (value : Z) (bit_index : nat) : M (Z * bool) :=
  x ← shl_u 64 1 (Z.of_nat bit_index);
  m ← sub_u 64 x 1;
  let lower_value := Z.land value m in
  y ← shr 64 value (Z.of_nat bit_index + 1);
  upper_value ← shl_u 64 y (Z.of_nat bit_index);
  z ← shr 64 value (Z.of_nat bit_index);
  Ok (Z.lor lower_value upper_value, negb (Z.land z 1 =? 0)).

(** The entries whose index has the bit; [index >> bit_index] panics for 64 bits. *)
Fixpoint pick_from {T} (index : nat) (vec : list T) (bit_index : nat) (bit_value : Z) : M (list T) :=
  match vec with
  | [] => Ok []
  | x :: vec =>
      i ← shr 64 (Z.of_nat index) (Z.of_nat bit_index);
      l ← pick_from (S index) vec bit_index bit_value;
      Ok (if Z.land i 1 =? bit_value then x :: l else l)
  end.
Definition pick_bit_value {T} (vec : list T) (bit_index : nat) (bit_value : Z) : M (list T) := pick_from 0 vec bit_index bit_value.
Fixpoint good_removed_from {T} (index : nat) (vec : list T) (good : T → bool) (bit_index : nat) (bit_value : Z) : M nat :=
  match vec with
  | [] => Ok 0%nat
  | x :: vec =>
      i ← shr 64 (Z.of_nat index) (Z.of_nat bit_index);
      n ← good_removed_from (S index) vec good bit_index bit_value;
      Ok (if negb (Z.land i 1 =? bit_value) && good x then S n else n)
  end.
(** [vec.len() / 2 - good_removed]. *)
Definition preview_pick_bit_value {T} (vec : list T) (good : T → bool) (bit_index : nat) (bit_value : Z) : M (Z * Z) :=
  good_removed ← good_removed_from 0 vec good bit_index bit_value;
  d ← sub_u 64 (Z.of_nat (length vec / 2)) (Z.of_nat good_removed);
  Ok (Z.of_nat good_removed, d).
End bits.

Section transform.
Context {P : profile} {A : Arch} {C : Type}.

Definition with_bits (e : Encoding C) (bits : list Bit) : Encoding C :=
  {| enc_bits := bits; errors := errors e; enc_parts := enc_parts e; enc_dataflows := enc_dataflows e; write_ordering := write_ordering e |}.
Definition with_parts (e : Encoding C) (parts : list Part) : Encoding C :=
  {| enc_bits := enc_bits e; errors := errors e; enc_parts := parts; enc_dataflows := enc_dataflows e; write_ordering := write_ordering e |}.
Definition with_orderings (e : Encoding C) (l : list WriteOrdering) : Encoding C :=
  {| enc_bits := enc_bits e; errors := errors e; enc_parts := enc_parts e; enc_dataflows := enc_dataflows e; write_ordering := l |}.
Definition with_addresses (d : Dataflows C) (a : MemoryAccesses) : Dataflows C :=
  {| addresses := a; outputs := outputs d; found_dependent_bytes := found_dependent_bytes d |}.
Definition with_instr (d : Dataflows C) (i : Instruction) : Dataflows C :=
  with_addresses d {| instr := i; accesses := accesses (addresses d); accesses_use_trap_flag := accesses_use_trap_flag (addresses d) |}.
Definition with_accesses (d : Dataflows C) (l : list MemoryAccess) : Dataflows C :=
  with_addresses d {| instr := instr (addresses d); accesses := l; accesses_use_trap_flag := accesses_use_trap_flag (addresses d) |}.
Definition with_mapping (p : Part) (m : PartMapping) : Part := {| part_size := part_size p; part_value := part_value p; part_mapping := m |}.

(** The number of bits of the part below [bit_index]. *)
Definition bit_index_in_part (bits : list Bit) (part_index bit_index : nat) : nat :=
  length (List.filter (λ b, bool_decide (b = BPart part_index)) (take bit_index bits)).
Definition preview_make_bit_fixed (self : Encoding C) (bit_index : nat) : M (Z * Z) :=
  bit ← vget (enc_bits self) bit_index;
  bit_value ← Instr.nth_bit_from_right (enc_instr self) bit_index;
  match bit with
  | BPart part_index =>
      part ← vget (enc_parts self) part_index;
      let i := bit_index_in_part (enc_bits self) part_index bit_index in
      match part_mapping part with
      | PRegister mapping _ => preview_pick_bit_value mapping (λ x, bool_decide (is_Some x)) i bit_value
      | PImm (Some (Mapping mapping)) _ _ => preview_pick_bit_value mapping is_valid i bit_value
      | PImm _ _ _ => Ok (1, 0)
      | PMemory mapping _ => preview_pick_bit_value mapping (λ x, bool_decide (is_Some x)) i bit_value
      end
  | BFixed _ => Ok (0, 0)
  | BDontCare => Ok (1, 0)
  end.

(** ** [make_bit_fixed] *)

(** The offset of the fixed bit of a bit order goes to the addresses that use it. *)
Fixpoint add_offsets (d : Dataflows C) (locations : list FlowInputLocation) (offset : Z) : M (Dataflows C) :=
  match locations with
  | [] => Ok d
  | InputForOutput _ _ :: l => add_offsets d l offset
  | MemoryAddress memory_index input_index :: l =>
      access ← accesses_index (addresses d) memory_index;
      let c := calculation access in
      term ← vget (terms c) input_index;
      applied_offset ← Term.apply term offset;
      let c' := {| calc_offset := swrap 64 (calc_offset c + swrap 64 applied_offset); terms := terms c |} in
      ms ← vset (accesses (addresses d)) memory_index (with_computation access (access_inputs access) c');
      add_offsets (with_accesses d ms) l offset
  end.
(** [locations.iter().any(..)]: some output that uses the immediate has a computation. *)
Fixpoint any_computation (d : Dataflows C) (locations : list FlowInputLocation) : M bool :=
  match locations with
  | [] => Ok false
  | InputForOutput output_index _ :: l =>
      flow ← output_dataflow d output_index;
      if bool_decide (is_Some (computation flow)) then Ok true else any_computation d l
  | MemoryAddress _ _ :: l => any_computation d l
  end.
(** The [n]-th [ImmBit::Fill] becomes the bit. *)
Fixpoint fix_imm_bit (bits : ImmBits) (n : nat) (bit_value : Z) : M ImmBits :=
  match bits with
  | [] => Ok []
  | ImmFill :: bits =>
      match n with
      | O => b ← (if bit_value =? 0 then Ok ImmIs0 else if bit_value =? 1 then Ok ImmIs1 else Panic); Ok (b :: bits)
      | S n => bits ← fix_imm_bit bits n bit_value; Ok (ImmFill :: bits)
      end
  | b :: bits => bits ← fix_imm_bit bits n bit_value; Ok (b :: bits)
  end.
(** The mapping without the bit; [size] is the new size of the part. *)
Definition fix_mapping (d : Dataflows C) (m : PartMapping) (size i : nat) (bit_value : Z) : M (PartMapping * Dataflows C) :=
  match m with
  | PRegister mapping locations => mapping ← pick_bit_value mapping i bit_value; Ok (PRegister mapping locations, d)
  | PImm mapping locations bits =>
      '(mapping, d) ← match mapping with
        | Some (Mapping mapping) => mapping ← pick_bit_value mapping i bit_value; Ok (Some (Mapping mapping), d)
        | Some (BitOrder bit_order) =>
            removed ← vget bit_order i;
            offset ← as_offset removed bit_value;
            d ← add_offsets d locations offset;
            Ok (Some (BitOrder (delete i bit_order)), d)
        | None => Ok (None, d)
        end;
      uses ← any_computation d locations;
      bits ← (if (uses : bool) then
                let bits := default (replicate (size + 1) ImmFill) bits in
                bits ← fix_imm_bit bits i bit_value; Ok (Some bits)
              else Ok bits);
      Ok (PImm mapping locations bits, d)
  | PMemory mapping memory_indexes => mapping ← pick_bit_value mapping i bit_value; Ok (PMemory mapping memory_indexes, d)
  end.
(** [write_ordering.retain_mut(..)]. *)
Fixpoint fix_orderings (l : list WriteOrdering) (part_index i : nat) (bit_value : Z) : M (list WriteOrdering) :=
  match l with
  | [] => Ok []
  | wo :: l =>
      v ← vget (wo_part_values wo) part_index;
      match v with
      | Some val =>
          '(new_val, removed) ← remove_bit val i;
          pv ← vset (wo_part_values wo) part_index (Some new_val);
          l ← fix_orderings l part_index i bit_value;
          Ok (if (if (removed : bool) then bit_value =? 1 else bit_value =? 0)
              then {| wo_part_values := pv; output_index_order := output_index_order wo |} :: l else l)
      | None => l ← fix_orderings l part_index i bit_value; Ok (wo :: l)
      end
  end.
Definition mapping_missing (m : PartMapping) : bool :=
  match m with
  | PImm (Some (Mapping mapping)) _ _ => forallb is_invalid mapping
  | PImm _ _ _ => false
  | PMemory mapping _ => all_none mapping
  | PRegister mapping _ => all_none mapping
  end.
(** The check of all parts at the end. *)
Definition missing_mapping (parts : list Part) : option InstantiationError :=
  head (omap (λ p, if mapping_missing (part_mapping p) then Some (mapping_error (part_mapping p)) else None) parts).
(** The encoding is changed also when an error is returned at the end. *)
Definition make_bit_fixed (self : Encoding C) (bit_index : nat) : M (Encoding C * option InstantiationError) :=
  bit ← vget (enc_bits self) bit_index;
  bit_value ← Instr.nth_bit_from_right (enc_instr self) bit_index;
  r ← match bit with
      | BPart part_index =>
          part ← vget (enc_parts self) part_index;
          if (part_size part <=? 1)%nat then
            values ← extract_parts self (enc_instr self);
            instantiate_partially self (imap (λ n v, if (n =? part_index)%nat then Some v else None) values)
          else
            let i := bit_index_in_part (enc_bits self) part_index bit_index in
            bits ← vset (enc_bits self) bit_index (BFixed bit_value);
            '(m, d) ← fix_mapping (enc_dataflows self) (part_mapping part) (part_size part - 1) i bit_value;
            '(value, _) ← remove_bit (part_value part) i;
            parts ← vset (enc_parts self) part_index {| part_size := part_size part - 1; part_value := value; part_mapping := m |};
            wo ← fix_orderings (write_ordering self) part_index i bit_value;
            Ok (inl {| enc_bits := bits; errors := errors self; enc_parts := parts; enc_dataflows := d; write_ordering := wo |})
      | BFixed _ => Ok (inl self)
      | BDontCare => bits ← vset (enc_bits self) bit_index (BFixed bit_value); Ok (inl (with_bits self bits))
      end;
  match r with
  | inl self => Ok (self, missing_mapping (enc_parts self))
  | inr e => Ok (self, Some e)
  end.

(** [remove_byte]: [Vec::remove] and [drain] panic out of range. *)
Definition remove_byte (self : Encoding C) (index : nat) : M (Encoding C) :=
  let instr_bytes := Instr.bytes (enc_instr self) in
  _ ← vget instr_bytes index;
  i ← Instr.new (delete index instr_bytes);
  start ← Instr.index_sub (length (enc_bits self)) ((index + 1) * 8);
  assert! (start + 8 <=? length (enc_bits self))%nat;
  assert! forallb (λ b, match b with BPart _ => false | _ => true end) (take 8 (drop start (enc_bits self)));
  Ok (with_dataflows (with_bits self (take start (enc_bits self) ++ drop (start + 8) (enc_bits self))) (with_instr (enc_dataflows self) i)).

(** ** [fix] *)

Definition fix_source (s : Source) (part_index : nat) : option Source :=
  match s with SImm _ | SConst _ _ => Some (SImm part_index) | _ => None end.
Definition with_flow_inputs (flow : Dataflow C) (inputs : Inputs) : Dataflow C :=
  {| target := target flow; flow_inputs := inputs; computation := computation flow;
     unobservable_external_inputs := unobservable_external_inputs flow |}.
(** The places of one part; [false] for the early return. *)
Fixpoint fix_locations (d : Dataflows C) (part_index : nat) (locations : list FlowInputLocation) : M (Dataflows C * bool) :=
  match locations with
  | [] => Ok (d, true)
  | InputForOutput output_index input_index :: l =>
      flow ← output_dataflow d output_index;
      s ← inputs_index (flow_inputs flow) input_index;
      match fix_source s part_index with
      | Some s =>
          inputs ← inputs_set (flow_inputs flow) input_index s;
          os ← vset (outputs d) output_index (with_flow_inputs flow inputs);
          fix_locations (with_outputs d os) part_index l
      | None => Ok (d, false)
      end
  | MemoryAddress memory_index input_index :: l =>
      access ← accesses_index (addresses d) memory_index;
      s ← inputs_index (access_inputs access) input_index;
      match fix_source s part_index with
      | Some s =>
          inputs ← inputs_set (access_inputs access) input_index s;
          ms ← vset (accesses (addresses d)) memory_index (with_computation access inputs (calculation access));
          fix_locations (with_accesses d ms) part_index l
      | None => Ok (d, false)
      end
  end.
Fixpoint fix_parts (bits : list Bit) (d : Dataflows C) (part_index : nat) (parts : list Part) : M (list Part * Dataflows C * bool) :=
  match parts with
  | [] => Ok ([], d, true)
  | part :: rest =>
      let part := {| part_size := length (List.filter (λ b, bool_decide (b = BPart part_index)) bits);
                     part_value := part_value part; part_mapping := part_mapping part |} in
      '(d, ok) ← match part_mapping part with
                 | PImm _ locations _ => fix_locations d part_index locations
                 | _ => Ok (d, true)
                 end;
      if (ok : bool) then '(rest, d, ok) ← fix_parts bits d (S part_index) rest; Ok (part :: rest, d, ok)
      else Ok (part :: rest, d, false)
  end.
(** The second loop: every immediate is listed in its part. *)
Fixpoint register_imms (parts : list Part) (imms : list (FlowInputLocation * nat)) : M (list Part * bool) :=
  match imms with
  | [] => Ok (parts, true)
  | (loc, n) :: imms =>
      part ← vget parts n;
      match part_mapping part with
      | PImm mapping locations bits =>
          parts ← (if bool_decide (loc ∈ locations) then Ok parts
                   else vset parts n (with_mapping part (PImm mapping (locations ++ [loc]) bits)));
          register_imms parts imms
      | _ => Ok (parts, false)
      end
  end.
Definition output_imms (d : Dataflows C) : list (FlowInputLocation * nat) :=
  concat (imap (λ output_index flow,
    omap (λ '(input_index, s), match s with SImm n => Some (InputForOutput output_index input_index, n) | _ => None end)
      (imap pair (Locs.inputs (flow_inputs flow)))) (outputs d)).
Definition fix_ (self : Encoding C) : M (Encoding C * bool) :=
  '(parts, d, ok) ← fix_parts (enc_bits self) (enc_dataflows self) 0 (enc_parts self);
  let self := with_dataflows (with_parts self parts) d in
  if (ok : bool) then
    '(parts, ok) ← register_imms parts (output_imms d);
    Ok (with_parts self parts, ok)
  else Ok (self, false).

(** ** [canonicalize] *)

(** [iter().enumerate().find(..).unwrap().0]. *)
Definition first_where {X} (keep : X → bool) (l : list X) : M Z :=
  p ← unwrap (list_find (λ x, keep x = true) l); Ok (Z.of_nat p.1).
Definition min_value (m : PartMapping) : M Z :=
  match m with
  | PRegister mapping _ => first_where (λ o, bool_decide (is_Some o)) mapping
  | PImm (Some (Mapping mapping)) _ _ => first_where is_valid mapping
  | PImm _ _ _ => Ok 0
  | PMemory mapping _ => first_where (λ o, bool_decide (is_Some o)) mapping
  end.
Fixpoint clear_dontcare (bits : list Bit) (index : nat) (instr : Instruction) : M Instruction :=
  match bits with
  | [] => Ok instr
  | BDontCare :: bits => instr ← Instr.with_nth_bit_from_right instr index 0; clear_dontcare bits (index + 1) instr
  | _ :: bits => clear_dontcare bits (index + 1) instr
  end.
(** The inputs of an access with their index and term, in the order of the inputs. *)
Definition pair_le (a b : Source * (nat * AddrTerm)) : Prop := source_le a.1 b.1.
#[export] Instance pair_le_dec a b : Decision (pair_le a b).
Proof. unfold pair_le. apply _. Defined.
Definition input_term_pairs (inputs : Inputs) (current : AddressComputation) : list (Source * (nat * AddrTerm)) :=
  merge_sort pair_le (imap (λ input_index '(input, term), (input, (input_index, term))) (zip (Locs.inputs inputs) (terms current))).
(** [index_mapping[old_index] = index]. *)
Fixpoint index_mapping_from (index : nat) (pairs : list (Source * (nat * AddrTerm))) (index_mapping : list nat) : M (list nat) :=
  match pairs with
  | [] => Ok index_mapping
  | (_, (old_index, _)) :: pairs => l ← vset index_mapping old_index index; index_mapping_from (S index) pairs l
  end.
Definition remap_value_location (memory_index : nat) (index_mapping : list nat) (location : FlowValueLocation) : M FlowValueLocation :=
  match location with
  | VMemoryAddress index input_index =>
      if (index =? memory_index)%nat then i ← vget index_mapping input_index; Ok (VMemoryAddress index i) else Ok location
  | _ => Ok location
  end.
Definition remap_input_location (memory_index : nat) (index_mapping : list nat) (location : FlowInputLocation) : M FlowInputLocation :=
  match location with
  | MemoryAddress index input_index =>
      if (index =? memory_index)%nat then i ← vget index_mapping input_index; Ok (MemoryAddress index i) else Ok location
  | _ => Ok location
  end.
Definition remap_terms (index_mapping : list nat) (c : AddressComputation) : M AddressComputation :=
  new_terms ← foldl (λ acc index, new_terms ← acc;
      match index_mapping !! index with
      | Some new_index => t ← vget (terms c) index; vset new_terms new_index t
      | None => Ok new_terms
      end) (Ok (replicate 4 Term.term_default)) [0%nat; 1%nat; 2%nat; 3%nat];
  Calc.from_iter new_terms (calc_offset c).
Definition remap_part (memory_index : nat) (index_mapping : list nat) (part : Part) : M Part :=
  match part_mapping part with
  | PRegister mapping locations =>
      l ← mapM (remap_value_location memory_index index_mapping) locations; Ok (with_mapping part (PRegister mapping l))
  | PImm mapping locations bits =>
      l ← mapM (remap_input_location memory_index index_mapping) locations; Ok (with_mapping part (PImm mapping l bits))
  | PMemory mapping memory_indexes =>
      if bool_decide (memory_index ∈ memory_indexes) then
        assert! (length memory_indexes <=? 1)%nat;
        l ← mapM (λ o, match o with Some c => c ← remap_terms index_mapping c; Ok (Some c) | None => Ok None end) mapping;
        Ok (with_mapping part (PMemory l memory_indexes))
      else Ok part
  end.
(** [map_computations] with a closure that updates the parts. *)
Fixpoint canonical_accesses (memory_index : nat) (accesses : list MemoryAccess) (parts : list Part) : M (list MemoryAccess * list Part) :=
  match accesses with
  | [] => Ok ([], parts)
  | ma :: accesses =>
      let current := calculation ma in
      let pairs := input_term_pairs (access_inputs ma) current in
      index_mapping ← index_mapping_from 0 pairs (seq 0 (inputs_len (access_inputs ma)));
      parts ← mapM (remap_part memory_index index_mapping) parts;
      let inputs := unsorted (fst <$> pairs) in
      c ← Calc.from_iter ((λ p, p.2.2) <$> pairs) (calc_offset current);
      '(l, parts) ← canonical_accesses (S memory_index) accesses parts;
      Ok (with_computation ma inputs c :: l, parts)
  end.
Definition canonicalize (self : Encoding C) : M (Encoding C) :=
  min_parts ← mapM (λ part, min_value (part_mapping part)) (enc_parts self);
  r ← instantiate self min_parts;
  match r with
  | inr _ => Panic
  | inl dataflows =>
      let parts := zip_with (λ part new_value, {| part_size := part_size part; part_value := new_value; part_mapping := part_mapping part |})
                     (enc_parts self) min_parts in
      i ← clear_dontcare (enc_bits self) 0 (dataflows_instr dataflows);
      let dataflows := with_instr dataflows i in
      '(l, parts) ← canonical_accesses 0 (accesses (addresses dataflows)) parts;
      '(e, ok) ← fix_ {| enc_bits := enc_bits self; errors := errors self; enc_parts := parts;
                         enc_dataflows := with_accesses dataflows l; write_ordering := write_ordering self |};
      assert! ok;
      Ok e
  end.

(** ** [restrict_to] *)

Inductive RestrictError := NoOverlap.
(** Every bit of the part is fixed by the filter. *)
Fixpoint all_bits_set (bits : list Bit) (index part_index : nat) (filter : InstructionFilter) : M bool :=
  match bits with
  | [] => Ok true
  | bit :: bits =>
      if bool_decide (bit = BPart part_index) then
        b ← Filter.nth_bit_from_right filter index;
        if bool_decide (b = Wildcard) then Ok false else all_bits_set bits (S index) part_index filter
      else all_bits_set bits (S index) part_index filter
  end.
Fixpoint set_part_bits (bits : list Bit) (index part_index : nat) (filter : InstructionFilter) (instr : Instruction) : M Instruction :=
  match bits with
  | [] => Ok instr
  | bit :: bits =>
      instr ← (if bool_decide (bit = BPart part_index) then
                 b ← Filter.nth_bit_from_right filter index;
                 v ← unwrap (as_u8 b);
                 Instr.set_nth_bit_from_right instr index v
               else Ok instr);
      set_part_bits bits (S index) part_index filter instr
  end.
Definition checked (e : Encoding C) : M (Encoding C) := r ← integrity_check e; match r with None => Ok e | Some _ => Panic end.
(** The fast path, for the parts from the last on; [bits] are those of [self]. *)
Fixpoint restrict_parts (bits : list Bit) (n : nat) (filter : InstructionFilter) (result : Encoding C) : M (Encoding C + RestrictError) :=
  match n with
  | O => Ok (inl result)
  | S part_index =>
      all ← all_bits_set bits 0 part_index filter;
      if (all : bool) then
        i ← set_part_bits (enc_bits result) 0 part_index filter (enc_instr result);
        values ← extract_parts result i;
        r ← instantiate_partially result (imap (λ index value, if (index =? part_index)%nat then Some value else None) values);
        match r with
        | inl result => result ← checked result; restrict_parts bits part_index filter result
        | inr _ => Ok (inr NoOverlap)
        end
      else restrict_parts bits part_index filter result
  end.
Definition mem_imm_without_order (m : PartMapping) : bool :=
  match m with
  | PImm mapping locations _ =>
      existsb (λ loc, match loc with
                      | MemoryAddress _ _ => match mapping with Some (BitOrder _) => false | _ => true end
                      | _ => false
                      end) locations
  | _ => false
  end.
(** One bit of the second loop. *)
Definition restrict_bit (filter : InstructionFilter) (result : Encoding C) (bit_index : nat) : M (Encoding C + RestrictError) :=
  bit ← vget (enc_bits result) bit_index;
  new_bit ← Filter.nth_bit_from_right filter bit_index;
  match as_u8 new_bit with
  | None => Ok (inl result)
  | Some v =>
      match bit with
      | BFixed w => if w =? v then Ok (inl result) else if (w =? 0) || (w =? 1) then Ok (inr NoOverlap) else Panic
      | BPart part_index =>
          part ← vget (enc_parts result) part_index;
          assert! negb (mem_imm_without_order (part_mapping part));
          i ← Instr.set_nth_bit_from_right (enc_instr result) bit_index v;
          '(result, e) ← make_bit_fixed (with_dataflows result (with_instr (enc_dataflows result) i)) bit_index;
          Ok (match e with None => inl result | Some _ => inr NoOverlap end)
      | BDontCare =>
          i ← Instr.set_nth_bit_from_right (enc_instr result) bit_index v;
          bits ← vset (enc_bits result) bit_index (BFixed v);
          Ok (inl (with_bits (with_dataflows result (with_instr (enc_dataflows result) i)) bits))
      end
  end.
Fixpoint restrict_bits (filter : InstructionFilter) (indices : list nat) (result : Encoding C) : M (Encoding C + RestrictError) :=
  match indices with
  | [] => Ok (inl result)
  | bit_index :: indices =>
      r ← restrict_bit filter result bit_index;
      match r with inl result => restrict_bits filter indices result | inr e => Ok (inr e) end
  end.
(** A register part with one register left is removed; its bits become [DontCare]. *)
Definition single_register (m : PartMapping) : M (option Z) :=
  match m with
  | PRegister mapping _ =>
      v ← first_where (λ o, bool_decide (is_Some o)) mapping;
      Ok (if (length (remove_dups (omap id mapping)) =? 1)%nat then Some v else None)
  | _ => Ok None
  end.
Fixpoint drop_single_parts (n : nat) (result : Encoding C) : M (Encoding C) :=
  match n with
  | O => Ok result
  | S part_index =>
      part ← vget (enc_parts result) part_index;
      o ← single_register (part_mapping part);
      match o with
      | Some part_value =>
          let indices := part_bit_indices result part_index in
          part_values ← vset (replicate (length (enc_parts result)) None) part_index (Some part_value);
          r ← instantiate_partially result part_values;
          match r with
          | inl result =>
              bits ← foldl (λ acc index, bits ← acc; vset bits index BDontCare) (Ok (enc_bits result)) indices;
              drop_single_parts part_index (with_bits result bits)
          | inr _ => Panic
          end
      | None => drop_single_parts part_index result
      end
  end.
Definition restrict_to (self : Encoding C) (filter : InstructionFilter) : M (Encoding C + RestrictError) :=
  result ← checked self;
  r ← restrict_parts (enc_bits self) (length (enc_parts self)) filter result;
  match r with
  | inr e => Ok (inr e)
  | inl result =>
      r ← restrict_bits filter (seq 0 (length (enc_bits result))) result;
      match r with
      | inr e => Ok (inr e)
      | inl result =>
          result ← drop_single_parts (length (enc_parts result)) result;
          result ← checked result;
          Ok (inl result)
      end
  end.

(** ** [split_flag_output] *)

(** [#[derive(Ord)]]: the variant, then the fields. *)
Definition value_location_key (l : FlowValueLocation) : nat * (nat * nat) :=
  match l with
  | VOutput o => (0%nat, (o, 0%nat))
  | VInputForOutput o i => (1%nat, (o, i))
  | VMemoryAddress m i => (2%nat, (m, i))
  end.
Definition input_location_key (l : FlowInputLocation) : nat * (nat * nat) :=
  match l with InputForOutput o i => (0%nat, (o, i)) | MemoryAddress m i => (1%nat, (m, i)) end.
Definition key_le (a b : nat * (nat * nat)) : bool :=
  match Nat.compare a.1 b.1 with
  | Lt => true | Gt => false
  | Eq => match Nat.compare a.2.1 b.2.1 with Lt => true | Gt => false | Eq => (a.2.2 <=? b.2.2)%nat end
  end.
Definition value_location_le (a b : FlowValueLocation) : Prop := key_le (value_location_key a) (value_location_key b) = true.
Definition input_location_le (a b : FlowInputLocation) : Prop := key_le (input_location_key a) (input_location_key b) = true.
#[export] Instance value_location_le_dec a b : Decision (value_location_le a b).
Proof. unfold value_location_le. apply _. Defined.
#[export] Instance input_location_le_dec a b : Decision (input_location_le a b).
Proof. unfold input_location_le. apply _. Defined.

Definition is_split_target (f : Dataflow C) : M bool :=
  match target f with
  | DReg r s => if reg_is_flags r then n ← SizeOps.num_bytes s; Ok (1 <? n) else Ok false
  | DMem _ _ => Ok false
  end.
Fixpoint split_position (index : nat) (l : list (Dataflow C)) : M (option nat) :=
  match l with
  | [] => Ok None
  | f :: l => b ← is_split_target f; if (b : bool) then Ok (Some index) else split_position (S index) l
  end.
(** The immediate values that some output uses become inputs of the flags. *)
Fixpoint add_flag_imms (removed_index part_index : nat) (parts : list Part) (d : Dataflows C) : M (list Part * Dataflows C) :=
  match parts with
  | [] => Ok ([], d)
  | part :: parts =>
      '(part, d) ← match part_mapping part with
        | PImm mapping locations bits =>
            flow ← vget (outputs d) removed_index;
            if existsb (λ loc, match loc with InputForOutput _ _ => true | _ => false end) locations
               && negb (inputs_contains (flow_inputs flow) (SImm part_index)) then
              os ← vset (outputs d) removed_index (with_flow_inputs flow (inputs_push (flow_inputs flow) (SImm part_index)));
              Ok (with_mapping part (PImm mapping (locations ++ [InputForOutput removed_index (inputs_len (flow_inputs flow))]) bits), with_outputs d os)
            else Ok (part, d)
        | _ => Ok (part, d)
        end;
      '(parts, d) ← add_flag_imms removed_index (S part_index) parts d;
      Ok (part :: parts, d)
  end.
(** What becomes of a place of the output at [removed_index], and of another one. *)
Definition split_value_location (removed_index : nat) (added : list nat) (loc : FlowValueLocation) : list FlowValueLocation + FlowValueLocation :=
  let moved o f := match Nat.compare o removed_index with
                   | Gt => inr (f (o - 1)%nat)
                   | Eq => inl (f <$> added)
                   | Lt => inr loc
                   end in
  match loc with
  | VInputForOutput o i => moved o (λ o, VInputForOutput o i)
  | VOutput o => moved o VOutput
  | VMemoryAddress _ _ => inr loc
  end.
Definition split_input_location (removed_index : nat) (added : list nat) (loc : FlowInputLocation) : list FlowInputLocation + FlowInputLocation :=
  match loc with
  | InputForOutput o i => match Nat.compare o removed_index with
                          | Gt => inr (InputForOutput (o - 1) i)
                          | Eq => inl ((λ o, InputForOutput o i) <$> added)
                          | Lt => inr loc
                          end
  | MemoryAddress _ _ => inr loc
  end.
(** The places that stay, then the new ones. *)
Definition split_all {X} (f : X → list X + X) (l : list X) : list X :=
  omap (λ x, match f x with inr y => Some y | inl _ => None end) l ++ concat ((λ x, match f x with inl k => k | inr _ => [] end) <$> l).
Definition split_mapping (removed_index : nat) (added : list nat) (m : PartMapping) : PartMapping :=
  match m with
  | PRegister mapping locations =>
      PRegister mapping (merge_sort value_location_le (split_all (split_value_location removed_index added) locations))
  | PImm mapping locations bits =>
      PImm mapping (merge_sort input_location_le (split_all (split_input_location removed_index added) locations)) bits
  | PMemory _ _ => m
  end.
Fixpoint split_flags (fuel : nat) (self : Encoding C) : M (Encoding C) :=
  match fuel with
  | O => OutOfFuel
  | S fuel =>
      o ← split_position 0 (outputs (enc_dataflows self));
      match o with
      | None => Ok self
      | Some removed_index =>
          '(parts, d) ← add_flag_imms removed_index 0 (enc_parts self) (enc_dataflows self);
          '(d, num_added) ← Dataflows.split_flag_output d removed_index;
          let n := length (outputs d) in
          let added := seq (n - num_added) num_added in
          split_flags fuel (with_dataflows (with_parts self ((λ p, with_mapping p (split_mapping removed_index added (part_mapping p))) <$> parts)) d)
      end
  end.

(** ** Unused inputs and identity assignments *)

(** [retain_mut] with a closure that may panic and [None] for a place that goes. *)
Definition retain_map {X} (f : X → M (option X)) (l : list X) : M (list X) :=
  k ← mapM f l; Ok (omap (M:=list) id k).
Definition remapped_input (index : nat) (remap : list (option nat)) (location : FlowInputLocation) : M (option FlowInputLocation) :=
  match location with
  | InputForOutput output_index input_index =>
      if (output_index =? index)%nat then
        o ← vget remap input_index;
        Ok (match o with Some new_index => Some (InputForOutput output_index new_index) | None => None end)
      else Ok (Some location)
  | MemoryAddress _ _ => Ok (Some location)
  end.
Definition remapped_value (index : nat) (remap : list (option nat)) (location : FlowValueLocation) : M (option FlowValueLocation) :=
  match location with
  | VInputForOutput output_index input_index =>
      if (output_index =? index)%nat then
        o ← vget remap input_index;
        Ok (match o with Some new_index => Some (VInputForOutput output_index new_index) | None => None end)
      else Ok (Some location)
  | _ => Ok (Some location)
  end.
Definition update_locations (fi : FlowInputLocation → M (option FlowInputLocation)) (fv : FlowValueLocation → M (option FlowValueLocation))
    (part : Part) : M Part :=
  match part_mapping part with
  | PImm mapping locations bits => l ← retain_map fi locations; Ok (with_mapping part (PImm mapping l bits))
  | PRegister mapping locations => l ← retain_map fv locations; Ok (with_mapping part (PRegister mapping l))
  | PMemory _ _ => Ok part
  end.
Definition update_remapped_input_references (parts : list Part) (index : nat) (remap : list (option nat)) : M (list Part) :=
  mapM (update_locations (remapped_input index remap) (remapped_value index remap)) parts.
(** The new index of every input that is kept. *)
Fixpoint remap_of (new_index : nat) (keep : list bool) : list (option nat) :=
  match keep with
  | [] => []
  | true :: keep => Some new_index :: remap_of (S new_index) keep
  | false :: keep => None :: remap_of new_index keep
  end.
(** The inputs at the indices to keep; the code removes the others from the last on. *)
Definition keep_inputs (inputs : Inputs) (keep : list bool) : Inputs :=
  unsorted (omap (λ '(s, k), if (k : bool) then Some s else None) (zip (Locs.inputs inputs) keep)).
Definition with_flow (flow : Dataflow C) (inputs : Inputs) (c : C) : Dataflow C :=
  {| target := target flow; flow_inputs := inputs; computation := Some c; unobservable_external_inputs := unobservable_external_inputs flow |}.
(** The bitmap of the indices to keep is a list of [bool]. *)
Definition remove_unused_of `{InputComputation C} (index : nat) (flow : Dataflow C) (parts : list Part) : M (Dataflow C * list Part) :=
  match computation flow with
  | Some c =>
      used_indices ← comp_used_input_indices c;
      let indices_to_keep := (λ n, bool_decide (n ∈ used_indices)) <$> seq 0 (inputs_len (flow_inputs flow)) in
      if forallb id indices_to_keep then Ok (flow, parts)
      else
        let remap := remap_of 0 indices_to_keep in
        c ← comp_remap_inputs c remap;
        parts ← update_remapped_input_references parts index remap;
        Ok (with_flow flow (keep_inputs (flow_inputs flow) indices_to_keep) c, parts)
  | None => Ok (flow, parts)
  end.
Fixpoint remove_unused_loop `{InputComputation C} (index : nat) (flows : list (Dataflow C)) (parts : list Part) : M (list (Dataflow C) * list Part) :=
  match flows with
  | [] => Ok ([], parts)
  | flow :: flows =>
      '(flow, parts) ← remove_unused_of index flow parts;
      '(flows, parts) ← remove_unused_loop (S index) flows parts;
      Ok (flow :: flows, parts)
  end.
Definition remove_unused_inputs `{InputComputation C} (self : Encoding C) : M (Encoding C) :=
  '(flows, parts) ← remove_unused_loop 0 (outputs (enc_dataflows self)) (enc_parts self);
  Ok (with_dataflows (with_parts self parts) (with_outputs (enc_dataflows self) flows)).

Definition reindexed_input (remap : list (option nat)) (location : FlowInputLocation) : M (option FlowInputLocation) :=
  match location with
  | InputForOutput output_index input_index =>
      o ← vget remap output_index;
      Ok (match o with Some new_index => Some (InputForOutput new_index input_index) | None => None end)
  | MemoryAddress _ _ => Ok (Some location)
  end.
Definition reindexed_value (remap : list (option nat)) (location : FlowValueLocation) : M (option FlowValueLocation) :=
  match location with
  | VInputForOutput output_index input_index =>
      o ← vget remap output_index;
      Ok (match o with Some new_index => Some (VInputForOutput new_index input_index) | None => None end)
  | VOutput output_index =>
      o ← vget remap output_index;
      Ok (match o with Some new_index => Some (VOutput new_index) | None => None end)
  | VMemoryAddress _ _ => Ok (Some location)
  end.
Definition update_remapped_output_indices (parts : list Part) (remap : list (option nat)) : M (list Part) :=
  mapM (update_locations (reindexed_input remap) (reindexed_value remap)) parts.
Definition asymmetric_part (index : nat) (part : Part) : bool :=
  match part_mapping part with
  | PRegister _ locations => negb (Bool.eqb (bool_decide (VInputForOutput index 0 ∈ locations)) (bool_decide (VOutput index ∈ locations)))
  | _ => false
  end.
(** The negation of the condition under which an output is retained. *)
Definition is_identity_assignment `{InputComputation C} (parts : list Part) (index : nat) (output : Dataflow C) : M bool :=
  if negb (inputs_len (flow_inputs output) =? 1)%nat then Ok false
  else
    s ← inputs_index (flow_inputs output) 0;
    if negb (bool_decide (s = SDest (target output))) then Ok false
    else
      b ← match computation output with Some c => comp_is_identity c | None => Ok false end;
      Ok ((b : bool) && negb (existsb (asymmetric_part index) parts)).
Definition remove_identity_assignments `{InputComputation C} (self : Encoding C) : M (Encoding C) :=
  let flows := outputs (enc_dataflows self) in
  removed ← mapM (λ '(index, output), is_identity_assignment (enc_parts self) index output) (imap pair flows);
  let keep := negb <$> removed in
  parts ← update_remapped_output_indices (enc_parts self) (remap_of 0 keep);
  Ok (with_dataflows (with_parts self parts)
        (with_outputs (enc_dataflows self) (omap (λ '(f, k), if (k : bool) then Some f else None) (zip flows keep)))).
End transform.
