(* ===== verification/Smt.v ===== *)
(** * The interface to SMT solvers

    Models [liblisa/src/smt/solver.rs]: the traits [SmtSolver], [SmtBV], [SmtInt],
    [SmtBool] and [SmtBVArray] as one class, their default methods (bit counts, bit
    deposit and extraction, byte swapping), and the dynamically sorted expressions.

    A solver is external code.  What libLISA relies on is the class [SmtLaws]: the
    operations have the meaning of the functions of the same name in SMT-LIB, for
    arguments of the right sorts, in every model of the declared constants (SmtFacts).
    A constant is determined by its name and sort.  Quantifiers and the check of
    assertions are only called, and have no part in the model. *)
From stdpp Require Import strings.
From S2P Require Import Prelude MachInt Utils.

(** ** The traits *)

Class SmtSolver := {
  BV : Type;
  SmtInt : Type;
  SmtBool : Type;
  BvArray : Type;

  bv_from_i64 : Z → Z → BV;
  bv_from_u64 : Z → Z → BV;
  bv_from_int : SmtInt → Z → BV;
  new_bv_const : string → Z → BV;
  new_bool_const : string → SmtBool;
  new_bv_array_const : string → Z → Z → BvArray;
  int_from_i64 : Z → SmtInt;
  int_from_u64 : Z → SmtInt;
  int_from_bv : BV → bool → SmtInt;
  bool_from_bool : bool → SmtBool;

  bv_is_identical : BV → BV → bool;
  bv_add : BV → BV → BV;
  bv_sub : BV → BV → BV;
  bv_mul : BV → BV → BV;
  bv_or : BV → BV → BV;
  bv_and : BV → BV → BV;
  bv_xor : BV → BV → BV;
  bv_not : BV → BV;
  bv_concat : BV → BV → BV;
  bv_extract : Z → Z → BV → BV;
  zero_ext : Z → BV → BV;
  sign_ext : Z → BV → BV;
  bvshl : BV → BV → BV;
  bvlshr : BV → BV → BV;
  bvashr : BV → BV → BV;
  bvurem : BV → BV → BV;
  bvsrem : BV → BV → BV;
  bvudiv : BV → BV → BV;
  bvsdiv : BV → BV → BV;
  bvrotl : BV → BV → BV;
  bvrotr : BV → BV → BV;
  bvslt : BV → BV → SmtBool;
  bvsge : BV → BV → SmtBool;
  bvsgt : BV → BV → SmtBool;
  bvugt : BV → BV → SmtBool;
  bvult : BV → BV → SmtBool;
  bvule : BV → BV → SmtBool;
  bvuge : BV → BV → SmtBool;
  bv_eq : BV → BV → SmtBool;
  bv_simplify : BV → BV;
  get_size : BV → Z;
  bv_as_u64 : BV → option Z;

  int_is_identical : SmtInt → SmtInt → bool;
  int_add : SmtInt → SmtInt → SmtInt;
  int_sub : SmtInt → SmtInt → SmtInt;
  int_mul : SmtInt → SmtInt → SmtInt;
  int_eq : SmtInt → SmtInt → SmtBool;
  int_simplify : SmtInt → SmtInt;
  int_as_u64 : SmtInt → option Z;

  bool_is_identical : SmtBool → SmtBool → bool;
  bool_or : SmtBool → SmtBool → SmtBool;
  bool_and : SmtBool → SmtBool → SmtBool;
  bool_xor : SmtBool → SmtBool → SmtBool;
  bool_not : SmtBool → SmtBool;
  bool_eq : SmtBool → SmtBool → SmtBool;
  bool_simplify : SmtBool → SmtBool;
  ite_bv : SmtBool → BV → BV → BV;
  ite_int : SmtBool → SmtInt → SmtInt → SmtInt;
  ite_bool : SmtBool → SmtBool → SmtBool → SmtBool;
  ite_bv_array : SmtBool → BvArray → BvArray → BvArray;
  as_bool : SmtBool → option bool;

  array_is_identical : BvArray → BvArray → bool;
  array_eq : BvArray → BvArray → SmtBool;
  array_simplify : BvArray → BvArray;
  array_select : BvArray → BV → BV;
  array_store : BvArray → BV → BV → BvArray;
  element_size : BvArray → Z;
  index_size : BvArray → Z;
}.

(** ** Default methods *)

Section defaults.
Context {S : SmtSolver} {P : profile}.

(** [Iterator::reduce]. *)
Definition reduce {A} (f : A → A → A) (l : list A) : option A :=
  match l with [] => None | x :: l => Some (foldl f x l) end.

(** [i64::try_from] succeeds exactly on the values of [i64]. *)
Definition bv_from_i128 (value : Z) : BV :=
  if bool_decide (is_i 64 value) then bv_from_i64 value 128
  else
    let value := wrap 128 value in
    let lower := bv_from_u64 (wrap 64 value) 64 in
    let higher := bv_from_u64 (wrap 64 (Z.shiftr value 64)) 64 in
    bv_concat higher lower.

Definition popcount (bv : BV) (bv_size : nat) : M SmtInt :=
  let values := (λ n, int_from_bv (bv_extract (Z.of_nat n) (Z.of_nat n) bv) false) <$> seq 0 bv_size in
  unwrap (reduce int_add values).

Definition prefix_count (mask : BV) (n : nat) : M SmtInt :=
  if (0 <? n)%nat then popcount mask n else Ok (int_from_i64 0).

Definition extract_step (N : nat) (src mask dest : BV) (n : nat) : M BV :=
  let mask_bit := bv_extract (Z.of_nat n) (Z.of_nat n) mask in
  let bit := bv_extract (Z.of_nat n) (Z.of_nat n) src in
  index ← prefix_count mask n;
  k ← sub_u 32 (Z.of_nat N) 1;
  Ok (bv_or dest (bvshl (zero_ext k (bv_and bit mask_bit)) (bv_from_int index (Z.of_nat N)))).
Fixpoint extract_steps (N : nat) (src mask dest : BV) (l : list nat) : M BV :=
  match l with
  | [] => Ok dest
  | n :: l => dest ← extract_step N src mask dest n; extract_steps N src mask dest l
  end.
Definition extract_bits (N : nat) (src mask : BV) : M BV :=
  extract_steps N src mask (bv_from_i64 0 (Z.of_nat N)) (seq 0 N).

Definition deposit_step (N : nat) (src mask : BV) (dest : option BV) (n : nat) : M (option BV) :=
  let mask_bit := bv_extract (Z.of_nat n) (Z.of_nat n) mask in
  num ← prefix_count mask n;
  let bit := bv_extract 0 0 (bvlshr src (bv_from_int num (Z.of_nat N))) in
  let bit := bv_and mask_bit bit in
  Ok (Some (match dest with Some dest => bv_concat bit dest | None => bit end)).
Fixpoint deposit_steps (N : nat) (src mask : BV) (dest : option BV) (l : list nat) : M (option BV) :=
  match l with
  | [] => Ok dest
  | n :: l => dest ← deposit_step N src mask dest n; deposit_steps N src mask dest l
  end.
Definition deposit_bits (N : nat) (src mask : BV) : M BV :=
  dest ← deposit_steps N src mask None (seq 0 N); unwrap dest.

(** The loops [for size in 1..=bv.get_size()]. *)
Definition count_trailing_zeros (bv : BV) : BV :=
  foldl (λ result size,
      let zero := bv_from_u64 0 size in
      ite_bv (bv_eq (bv_extract (size - 1) 0 bv) zero) (bv_from_u64 size 128) result)
    (bv_from_u64 0 128) (seqZ 1 (get_size bv)).
Definition count_leading_zeros (bv : BV) : BV :=
  let max := get_size bv in
  foldl (λ result size,
      let zero := bv_from_u64 0 size in
      ite_bv (bv_eq (bv_extract (max - 1) (max - size) bv) zero) (bv_from_u64 size 128) result)
    (bv_from_u64 0 128) (seqZ 1 max).

(** [SmtBV::swap_bytes] and [SmtBV::swap_bytes_to_128bits]. *)
Definition bv_swap_bytes (self : BV) (num_bytes : nat) : M BV :=
  unwrap (reduce (λ acc el, bv_concat el acc)
    (reverse ((λ index, bv_extract (Z.of_nat index * 8 + 7) (Z.of_nat index * 8) self) <$> seq 0 num_bytes))).
Definition swap_bytes_to_128bits (self : BV) (num_bytes : nat) : M BV :=
  s ← bv_swap_bytes self num_bytes;
  k ← sub_u 32 128 (Z.of_nat num_bytes * 8);
  Ok (zero_ext k s).
End defaults.

(** ** Dynamically sorted expressions *)

Inductive Dynamic `{SmtSolver} :=
| DynBV (v : BV)
| DynInt (v : SmtInt)
| DynBool (v : SmtBool)
| DynArray (v : BvArray).

Inductive SortKind := SKBV | SKInt | SKBool | SKArray.
#[export] Instance SortKind_eq_dec : EqDecision SortKind.
Proof. solve_decision. Defined.
Inductive Sort := SortBV (size : Z) | SortInt | SortBool | SortArray (index element : Sort).
#[export] Instance Sort_eq_dec : EqDecision Sort.
Proof. solve_decision. Defined.

Section dynamic.
Context {S : SmtSolver}.

Definition dyn_as_bv (self : Dynamic) : option BV := match self with DynBV v => Some v | _ => None end.
Definition dyn_as_int (self : Dynamic) : option SmtInt := match self with DynInt v => Some v | _ => None end.
Definition dyn_as_bool (self : Dynamic) : option SmtBool := match self with DynBool v => Some v | _ => None end.
Definition dyn_as_bv_array (self : Dynamic) : option BvArray := match self with DynArray v => Some v | _ => None end.
Definition sort_kind (self : Dynamic) : SortKind :=
  match self with DynBV _ => SKBV | DynInt _ => SKInt | DynBool _ => SKBool | DynArray _ => SKArray end.
Definition dyn_sort (self : Dynamic) : Sort :=
  match self with
  | DynBV bv => SortBV (get_size bv)
  | DynInt _ => SortInt
  | DynBool _ => SortBool
  | DynArray a => SortArray (SortBV (index_size a)) (SortBV (element_size a))
  end.
Definition dyn_simplify (self : Dynamic) : Dynamic :=
  match self with
  | DynBV v => DynBV (bv_simplify v)
  | DynInt v => DynInt (int_simplify v)
  | DynBool v => DynBool (bool_simplify v)
  | DynArray v => DynArray (array_simplify v)
  end.
Definition dyn_is_identical (self other : Dynamic) : M bool :=
  match self, other with
  | DynBV v, DynBV w => Ok (bv_is_identical v w)
  | DynInt v, DynInt w => Ok (int_is_identical v w)
  | DynBool v, DynBool w => Ok (bool_is_identical v w)
  | DynArray v, DynArray w => Ok (array_is_identical v w)
  | _, _ => Panic
  end.
Definition dyn_eq (self other : Dynamic) : M SmtBool :=
  match self, other with
  | DynBV v, DynBV w => Ok (bv_eq v w)
  | DynInt v, DynInt w => Ok (int_eq v w)
  | DynBool v, DynBool w => Ok (bool_eq v w)
  | DynArray v, DynArray w => Ok (array_eq v w)
  | _, _ => Panic
  end.
Definition ite_dynamic (self : SmtBool) (lhs rhs : Dynamic) : M Dynamic :=
  match lhs, rhs with
  | DynBV a, DynBV b => Ok (DynBV (ite_bv self a b))
  | DynInt a, DynInt b => Ok (DynInt (ite_int self a b))
  | DynBool a, DynBool b => Ok (DynBool (ite_bool self a b))
  | DynArray a, DynArray b => Ok (DynArray (ite_bv_array self a b))
  | _, _ => Panic
  end.
End dynamic.
