(* ===== verification/SmtFacts.v ===== *)
(** * What the operations of a solver mean

    The class [SmtLaws] is what libLISA relies on when it builds expressions: the
    functions of SMT-LIB (theories FixedSizeBitVectors and Ints), read in one model of
    the constants.  The default methods of the traits are proved against it.  Module
    [Concrete] is an instance. *)
From stdpp Require Import strings.
From S2P Require Import Prelude MachInt Utils Ops OpsFacts Smt.

(** ** Meaning of the operations on numbers *)

(** Shifts by the width or more leave nothing, or only the sign. *)
Definition sem_shl (w x k : Z) : Z := if k <? w then wrap w (Z.shiftl x k) else 0.
Definition sem_lshr (w x k : Z) : Z := if k <? w then Z.shiftr x k else 0.
Definition sem_ashr (w x k : Z) : Z := wrap w (Z.shiftr (swrap w x) (if k <? w then k else w - 1)).
Definition sem_rotl (w x k : Z) : Z :=
  let k := k `mod` w in wrap w (Z.lor (Z.shiftl x k) (Z.shiftr x (w - k))).
Definition sem_udiv (w x y : Z) : Z := if y =? 0 then Z.ones w else x `div` y.
Definition sem_urem (w x y : Z) : Z := if y =? 0 then x else x `mod` y.
(** Signed division truncates; its value for the divisor 0 is not used. *)
Definition sem_sdiv (w x y : Z) : Z := wrap w (Z.quot (swrap w x) (swrap w y)).
Definition sem_srem (w x y : Z) : Z := wrap w (Z.rem (swrap w x) (swrap w y)).

(** ** The laws *)

(** [bv_val] is the unsigned value of a bit vector in the model. *)
Class SmtLaws (S : SmtSolver) := {
  bv_val : BV → Z;
  int_val : SmtInt → Z;
  bool_val : SmtBool → bool;

  law_size_pos b : 0 < get_size b;
  law_val_range b : is_u (get_size b) (bv_val b);

  law_from_i64 v w : 0 < w → get_size (bv_from_i64 v w) = w ∧ bv_val (bv_from_i64 v w) = wrap w v;
  law_from_u64 v w : 0 < w → get_size (bv_from_u64 v w) = w ∧ bv_val (bv_from_u64 v w) = wrap w v;
  law_const name w : 0 < w → get_size (new_bv_const name w) = w;
  law_from_int i w : 0 < w → get_size (bv_from_int i w) = w ∧ bv_val (bv_from_int i w) = wrap w (int_val i);
  law_int_i64 v : int_val (int_from_i64 v) = v;
  law_int_bv b : int_val (int_from_bv b false) = bv_val b;
  law_int_add i j : int_val (int_add i j) = int_val i + int_val j;

  law_not b : get_size (bv_not b) = get_size b ∧ bv_val (bv_not b) = not_u (get_size b) (bv_val b);
  law_and a b : get_size a = get_size b → get_size (bv_and a b) = get_size a ∧ bv_val (bv_and a b) = Z.land (bv_val a) (bv_val b);
  law_or a b : get_size a = get_size b → get_size (bv_or a b) = get_size a ∧ bv_val (bv_or a b) = Z.lor (bv_val a) (bv_val b);
  law_xor a b : get_size a = get_size b → get_size (bv_xor a b) = get_size a ∧ bv_val (bv_xor a b) = Z.lxor (bv_val a) (bv_val b);
  law_add a b : get_size a = get_size b → get_size (bv_add a b) = get_size a ∧ bv_val (bv_add a b) = wrap (get_size a) (bv_val a + bv_val b);
  law_sub a b : get_size a = get_size b → get_size (bv_sub a b) = get_size a ∧ bv_val (bv_sub a b) = wrap (get_size a) (bv_val a - bv_val b);
  law_mul a b : get_size a = get_size b → get_size (bv_mul a b) = get_size a ∧ bv_val (bv_mul a b) = wrap (get_size a) (bv_val a * bv_val b);

  law_concat a b : get_size (bv_concat a b) = get_size a + get_size b ∧
    bv_val (bv_concat a b) = Z.lor (Z.shiftl (bv_val a) (get_size b)) (bv_val b);
  law_extract hi lo b : 0 <= lo <= hi → hi < get_size b → get_size (bv_extract hi lo b) = hi - lo + 1 ∧
    bv_val (bv_extract hi lo b) = wrap (hi - lo + 1) (Z.shiftr (bv_val b) lo);
  law_zero_ext n b : 0 <= n → get_size (zero_ext n b) = get_size b + n ∧ bv_val (zero_ext n b) = bv_val b;
  law_sign_ext n b : 0 <= n → get_size (sign_ext n b) = get_size b + n ∧
    bv_val (sign_ext n b) = wrap (get_size b + n) (swrap (get_size b) (bv_val b));

  law_shl a b : get_size a = get_size b → get_size (bvshl a b) = get_size a ∧ bv_val (bvshl a b) = sem_shl (get_size a) (bv_val a) (bv_val b);
  law_lshr a b : get_size a = get_size b → get_size (bvlshr a b) = get_size a ∧ bv_val (bvlshr a b) = sem_lshr (get_size a) (bv_val a) (bv_val b);
  law_ashr a b : get_size a = get_size b → get_size (bvashr a b) = get_size a ∧ bv_val (bvashr a b) = sem_ashr (get_size a) (bv_val a) (bv_val b);
  law_rotl a b : get_size a = get_size b → get_size (bvrotl a b) = get_size a ∧ bv_val (bvrotl a b) = sem_rotl (get_size a) (bv_val a) (bv_val b);
  law_udiv a b : get_size a = get_size b → get_size (bvudiv a b) = get_size a ∧ bv_val (bvudiv a b) = sem_udiv (get_size a) (bv_val a) (bv_val b);
  law_urem a b : get_size a = get_size b → get_size (bvurem a b) = get_size a ∧ bv_val (bvurem a b) = sem_urem (get_size a) (bv_val a) (bv_val b);
  law_sdiv a b : get_size a = get_size b → bv_val b ≠ 0 →
    get_size (bvsdiv a b) = get_size a ∧ bv_val (bvsdiv a b) = sem_sdiv (get_size a) (bv_val a) (bv_val b);
  law_srem a b : get_size a = get_size b → bv_val b ≠ 0 →
    get_size (bvsrem a b) = get_size a ∧ bv_val (bvsrem a b) = sem_srem (get_size a) (bv_val a) (bv_val b);
  (** Also for the divisor 0 the result has the width of the arguments. *)
  law_sdiv_size a b : get_size a = get_size b → get_size (bvsdiv a b) = get_size a;
  law_srem_size a b : get_size a = get_size b → get_size (bvsrem a b) = get_size a;

  law_slt a b : get_size a = get_size b → bool_val (bvslt a b) = (swrap (get_size a) (bv_val a) <? swrap (get_size a) (bv_val b));
  law_sge a b : get_size a = get_size b → bool_val (bvsge a b) = (swrap (get_size a) (bv_val b) <=? swrap (get_size a) (bv_val a));
  law_eq a b : get_size a = get_size b → bool_val (bv_eq a b) = (bv_val a =? bv_val b);
  law_ite c a b : get_size a = get_size b → get_size (ite_bv c a b) = get_size a ∧
    bv_val (ite_bv c a b) = if bool_val c then bv_val a else bv_val b;
  law_bool_not c : bool_val (bool_not c) = negb (bool_val c);
  law_bool_or c d : bool_val (bool_or c d) = bool_val c || bool_val d;
}.

(** ** Expressions of a width with a value *)

Definition den {S : SmtSolver} {L : SmtLaws S} (b : BV) (w x : Z) : Prop := get_size b = w ∧ bv_val b = x.

Section den.
Context {S : SmtSolver} {L : SmtLaws S}.
Implicit Types (a b : BV).

Lemma den_pos b w x : den b w x → 0 < w.
Proof. intros [<- _]. apply law_size_pos. Qed.
Lemma den_range b w x : den b w x → is_u w x.
Proof. intros [<- <-]. apply law_val_range. Qed.
Lemma den_i64 v w : 0 < w → den (bv_from_i64 v w) w (wrap w v).
Proof. apply law_from_i64. Qed.
Lemma den_u64 v w : 0 < w → den (bv_from_u64 v w) w (wrap w v).
Proof. apply law_from_u64. Qed.
Lemma den_int i w : 0 < w → den (bv_from_int i w) w (wrap w (int_val i)).
Proof. apply law_from_int. Qed.

Lemma den_un (f : BV → BV) (g : Z → Z → Z) b w x :
  get_size (f b) = get_size b ∧ bv_val (f b) = g (get_size b) (bv_val b) → den b w x → den (f b) w (g w x).
Proof. by intros [H1 H2] [<- <-]. Qed.
Lemma den_bin (f : BV → BV → BV) (g : Z → Z → Z → Z) a b w x y :
  (get_size a = get_size b → get_size (f a b) = get_size a ∧ bv_val (f a b) = g (get_size a) (bv_val a) (bv_val b)) →
  den a w x → den b w y → den (f a b) w (g w x y).
Proof. intros H [<- <-] [E <-]. by apply H. Qed.

Lemma den_not b w x : den b w x → den (bv_not b) w (not_u w x).
Proof. apply (den_un bv_not), law_not. Qed.
Lemma den_and a b w x y : den a w x → den b w y → den (bv_and a b) w (Z.land x y).
Proof. apply (den_bin bv_and (λ _, Z.land)), law_and. Qed.
Lemma den_or a b w x y : den a w x → den b w y → den (bv_or a b) w (Z.lor x y).
Proof. apply (den_bin bv_or (λ _, Z.lor)), law_or. Qed.
Lemma den_xor a b w x y : den a w x → den b w y → den (bv_xor a b) w (Z.lxor x y).
Proof. apply (den_bin bv_xor (λ _, Z.lxor)), law_xor. Qed.
Lemma den_add a b w x y : den a w x → den b w y → den (bv_add a b) w (wrap w (x + y)).
Proof. apply (den_bin bv_add (λ w x y, wrap w (x + y))), law_add. Qed.
Lemma den_sub a b w x y : den a w x → den b w y → den (bv_sub a b) w (wrap w (x - y)).
Proof. apply (den_bin bv_sub (λ w x y, wrap w (x - y))), law_sub. Qed.
Lemma den_mul a b w x y : den a w x → den b w y → den (bv_mul a b) w (wrap w (x * y)).
Proof. apply (den_bin bv_mul (λ w x y, wrap w (x * y))), law_mul. Qed.
Lemma den_shl a b w x y : den a w x → den b w y → den (bvshl a b) w (sem_shl w x y).
Proof. apply (den_bin bvshl sem_shl), law_shl. Qed.
Lemma den_lshr a b w x y : den a w x → den b w y → den (bvlshr a b) w (sem_lshr w x y).
Proof. apply (den_bin bvlshr sem_lshr), law_lshr. Qed.
Lemma den_ashr a b w x y : den a w x → den b w y → den (bvashr a b) w (sem_ashr w x y).
Proof. apply (den_bin bvashr sem_ashr), law_ashr. Qed.
Lemma den_rotl a b w x y : den a w x → den b w y → den (bvrotl a b) w (sem_rotl w x y).
Proof. apply (den_bin bvrotl sem_rotl), law_rotl. Qed.
Lemma den_udiv a b w x y : den a w x → den b w y → den (bvudiv a b) w (sem_udiv w x y).
Proof. apply (den_bin bvudiv sem_udiv), law_udiv. Qed.
Lemma den_urem a b w x y : den a w x → den b w y → den (bvurem a b) w (sem_urem w x y).
Proof. apply (den_bin bvurem sem_urem), law_urem. Qed.
Lemma den_sdiv a b w x y : y ≠ 0 → den a w x → den b w y → den (bvsdiv a b) w (sem_sdiv w x y).
Proof. intros Hy Ha [E1 E2]. apply (den_bin bvsdiv sem_sdiv); [|done|by split]. intros E. apply law_sdiv; congruence. Qed.
Lemma den_srem a b w x y : y ≠ 0 → den a w x → den b w y → den (bvsrem a b) w (sem_srem w x y).
Proof. intros Hy Ha [E1 E2]. apply (den_bin bvsrem sem_srem); [|done|by split]. intros E. apply law_srem; congruence. Qed.

Lemma den_concat a b w v x y : den a w x → den b v y → den (bv_concat a b) (w + v) (Z.lor (Z.shiftl x v) y).
Proof. intros [<- <-] [<- <-]. apply law_concat. Qed.
Lemma den_extract hi lo b w x : 0 <= lo <= hi → hi < w → den b w x →
  den (bv_extract hi lo b) (hi - lo + 1) (wrap (hi - lo + 1) (Z.shiftr x lo)).
Proof. intros H1 H2 [<- <-]. by apply law_extract. Qed.
Lemma den_zero_ext n b w x : 0 <= n → den b w x → den (zero_ext n b) (w + n) x.
Proof. intros Hn [<- <-]. by apply law_zero_ext. Qed.
Lemma den_sign_ext n b w x : 0 <= n → den b w x → den (sign_ext n b) (w + n) (wrap (w + n) (swrap w x)).
Proof. intros Hn [<- <-]. by apply law_sign_ext. Qed.
Lemma den_ite c a b w x y : den a w x → den b w y → den (ite_bv c a b) w (if bool_val c then x else y).
Proof. intros [<- <-] [E <-]. by apply law_ite. Qed.
Lemma val_eq a b w x y : den a w x → den b w y → bool_val (bv_eq a b) = (x =? y).
Proof. intros [<- <-] [E <-]. by apply law_eq. Qed.
Lemma val_slt a b w x y : den a w x → den b w y → bool_val (bvslt a b) = (swrap w x <? swrap w y).
Proof. intros [<- <-] [E <-]. by apply law_slt. Qed.
Lemma val_sge a b w x y : den a w x → den b w y → bool_val (bvsge a b) = (swrap w y <=? swrap w x).
Proof. intros [<- <-] [E <-]. by apply law_sge. Qed.
Lemma den_eq b w x w' x' : den b w x → w = w' → x = x' → den b w' x'.
Proof. by intros H -> ->. Qed.

(** One bit of an expression. *)
Lemma den_bit b w x i : 0 <= i < w → den b w x → den (bv_extract i i b) 1 (Z.b2z (Z.testbit x i)).
Proof.
  intros Hi Hb. eapply den_eq; [apply (den_extract i i b w x); done || lia | lia |].
  replace (i - i + 1) with 1 by lia. unfold wrap. change (2 ^ 1) with 2.
  by rewrite <- Z.bit0_mod, Z.shiftr_spec, Z.add_0_l by lia.
Qed.
End den.

(** ** Default methods *)

Section defaults.
Context {S : SmtSolver} {L : SmtLaws S} {P : profile}.
Implicit Types (b : BV).

Lemma reduce_snoc {A} (f : A → A → A) l x y : reduce f l = Some y → reduce f (l ++ [x]) = Some (f y x).
Proof. destruct l as [|z l]; [done|]. cbn. rewrite foldl_app. by intros [= ->]. Qed.

Lemma den_i128 v : i128 v → den (bv_from_i128 v) 128 (wrap 128 v).
Proof.
  intros Hv. unfold bv_from_i128. case_bool_decide as H; [apply den_i64; lia|].
  eapply den_eq; [apply (den_concat _ _ 64 64); apply den_u64; lia | lia |].
  bitwise i Hi; try done; [by rewrite Z.testbit_neg_r by lia|f_equal; lia].
Qed.

Lemma count_ones_S n x : count_ones (Datatypes.S n) x = (count_ones n x + if Z.testbit x (Z.of_nat n) then 1 else 0)%nat.
Proof.
  rewrite <- Nat.add_1_r, count_ones_app. f_equal. unfold count_ones. rewrite ones_1, Z.shiftr_spec, Z.add_0_l by lia. by case_match.
Qed.
Lemma ones_S n x : ones (Datatypes.S n) x = ones n x ++ if Z.testbit x (Z.of_nat n) then [n] else [].
Proof.
  rewrite <- Nat.add_1_r, ones_app, ones_1, Z.shiftr_spec, Z.add_0_l by lia. case_match; [|done]. cbn. by rewrite Nat.add_0_r.
Qed.

Lemma popcount_ok b w x n : den b w x → (1 <= n)%nat → Z.of_nat n <= w →
  ∃ i, popcount b n = Ok i ∧ int_val i = Z.of_nat (count_ones n x).
Proof.
  intros Hb. unfold popcount. induction n as [|n IH]; [lia|]. intros _ Hn.
  set (f := λ n, int_from_bv (bv_extract (Z.of_nat n) (Z.of_nat n) b) false) in *.
  assert (int_val (f n) = Z.b2z (Z.testbit x (Z.of_nat n))) as Hf.
  { unfold f. rewrite law_int_bv. by apply (den_bit b w x (Z.of_nat n)); [lia|]. }
  rewrite seq_S, fmap_app, count_ones_S. cbn [fmap list_fmap]. destruct n as [|n].
  - exists (f 0%nat). split; [done|]. rewrite Hf. by destruct (Z.testbit x _).
  - destruct IH as (i & Hi & Hv); [lia..|]. destruct (reduce int_add (f <$> seq 0 (Datatypes.S n))) as [j|] eqn:E; [|done].
    apply (inj Ok) in Hi as ->. rewrite (reduce_snoc _ _ _ _ E). exists (int_add i (f (Datatypes.S n))). split; [done|]. rewrite law_int_add, Hv, Hf.
    destruct (Z.testbit x _); cbn [Z.b2z]; lia.
Qed.
Lemma prefix_count_ok b w x n : den b w x → Z.of_nat n <= w →
  ∃ i, prefix_count b n = Ok i ∧ int_val i = Z.of_nat (count_ones n x).
Proof.
  intros Hb Hn. unfold prefix_count. destruct (Nat.ltb_spec 0 n); [by eapply popcount_ok|].
  replace n with 0%nat by lia. eexists. split; [done|]. by rewrite law_int_i64.
Qed.

(** *** Extraction and deposit of bits *)

Section bits.
Context (src mask : BV) (x m : Z) (Hsrc : den src 128 x) (Hmask : den mask 128 m).

Definition pext_prefix (n : nat) (v : Z) : Prop :=
  ∀ j, (j < 128)%nat → Z.testbit v (Z.of_nat j) = match ones n m !! j with Some p => Z.testbit x (Z.of_nat p) | None => false end.
Lemma extract_step_ok n dest v : (n < 128)%nat → den dest 128 v → pext_prefix n v →
  ∃ dest' v', extract_step 128 src mask dest n = Ok dest' ∧ den dest' 128 v' ∧ pext_prefix (Datatypes.S n) v'.
Proof using All.
  intros Hn Hd Hv. unfold extract_step. destruct (prefix_count_ok mask 128 m n Hmask) as (i & -> & Hi); [lia|]. rewrite M_bind_Ok.
  rewrite sub_u_ok, M_bind_Ok by (unfold is_u; lia). set (c := count_ones n m) in *. pose proof (count_ones_le n m) as Hc. fold c in Hc.
  pose proof (den_int i 128 ltac:(lia)) as Hk. rewrite Hi, wrap_small in Hk by (unfold is_u; lia).
  pose proof (den_and _ _ _ _ _ (den_bit src 128 x (Z.of_nat n) ltac:(lia) Hsrc) (den_bit mask 128 m (Z.of_nat n) ltac:(lia) Hmask)) as Hb.
  apply (den_zero_ext (Z.of_nat 128 - 1)) in Hb; [|lia]. change (1 + (Z.of_nat 128 - 1)) with 128 in Hb.
  pose proof (den_or _ _ _ _ _ Hd (den_shl _ _ _ _ _ Hb Hk)) as Hr. eexists _, _. split; [done|]. split; [exact Hr|].
  intros j Hj. unfold sem_shl. assert (Z.of_nat c <? 128 = true) as -> by (apply Z.ltb_lt; lia).
  rewrite Z.lor_spec, Hv, testbit_wrap, Z.shiftl_spec, Z.land_spec, ones_S by lia. assert (Z.of_nat j <? 128 = true) as -> by (apply Z.ltb_lt; lia).
  cbn [andb]. destruct (Z.testbit m (Z.of_nat n)) eqn:Em; [|cbn [Z.b2z]; by rewrite app_nil_r, Z.bits_0, andb_false_r, orb_false_r]. destruct (Nat.lt_trichotomy j c) as [Hlt|[->|Hgt]].
  - rewrite lookup_app_l by done. by rewrite (Z.testbit_neg_r _ (Z.of_nat j - Z.of_nat c)), orb_false_r by lia.
  - rewrite (lookup_ge_None_2 (ones n m)), (list_lookup_middle _ [] n) by done. rewrite Z.sub_diag. by destruct (Z.testbit x _).
  - rewrite !lookup_ge_None_2 by (try rewrite length_app; cbn; fold (count_ones n m); fold c; lia).
    rewrite (testbit_u_high 1) by (try lia; destruct (Z.testbit x _); done). done.
Qed.

Lemma extract_steps_ok n k dest v : (k + n = 128)%nat → den dest 128 v → pext_prefix k v →
  ∃ dest' v', extract_steps 128 src mask dest (seq k n) = Ok dest' ∧ den dest' 128 v' ∧ pext_prefix 128 v'.
Proof using All.
  revert k dest v. induction n as [|n IH]; intros k dest v Hk Hd Hv; cbn [seq extract_steps].
  - exists dest, v. by replace k with 128%nat in Hv by lia.
  - destruct (extract_step_ok k dest v) as (dest' & v' & -> & Hd' & Hv'); [lia|done..|]. rewrite M_bind_Ok. eapply IH; [lia|done..].
Qed.
(** The bits of the result are those of PEXT. *)
Lemma extract_bits_ok : ∃ r v, extract_bits 128 src mask = Ok r ∧ den r 128 v ∧
  ∀ j, (j < 128)%nat → Z.testbit v (Z.of_nat j) = pext_bit x m j.
Proof using All.
  unfold extract_bits. destruct (extract_steps_ok 128 0 (bv_from_i64 0 (Z.of_nat 128)) 0) as (r & v & H1 & H2 & H3); [done| |by intros j _; rewrite Z.bits_0|].
  - eapply den_eq; [apply den_i64| |]; done.
  - by exists r, v.
Qed.

Definition pdep_bit (i : nat) : bool := Z.testbit m (Z.of_nat i) && Z.testbit x (Z.of_nat (count_ones i m)).
Lemma deposit_step_ok n dest : (n < 128)%nat →
  match dest with
  | None => n = 0%nat
  | Some b => ∃ v, den b (Z.of_nat n) v ∧ ∀ j, (j < n)%nat → Z.testbit v (Z.of_nat j) = pdep_bit j
  end → ∃ b v, deposit_step 128 src mask dest n = Ok (Some b) ∧ den b (Z.of_nat (Datatypes.S n)) v ∧
    ∀ j, (j < Datatypes.S n)%nat → Z.testbit v (Z.of_nat j) = pdep_bit j.
Proof using All.
  intros Hn Hdest. unfold deposit_step. destruct (prefix_count_ok mask 128 m n Hmask) as (i & -> & Hi); [lia|]. rewrite M_bind_Ok.
  pose proof (count_ones_le n m) as Hc. pose proof (den_int i 128 ltac:(lia)) as Hk. rewrite Hi, wrap_small in Hk by (unfold is_u; lia).
  pose proof (den_bit _ 128 _ 0 ltac:(lia) (den_lshr _ _ _ _ _ Hsrc Hk)) as Hb. unfold sem_lshr in Hb.
  assert (Z.of_nat (count_ones n m) <? 128 = true) as E by (apply Z.ltb_lt; lia). rewrite E, Z.shiftr_spec, Z.add_0_l in Hb by lia.
  pose proof (den_and _ _ _ _ _ (den_bit mask 128 m (Z.of_nat n) ltac:(lia) Hmask) Hb) as Hbit.
  set (new := bv_and _ _) in *. set (v := Z.land _ _) in *.
  assert (v = Z.b2z (pdep_bit n)) as Ev by (unfold v, pdep_bit; by destruct (Z.testbit m _), (Z.testbit x _)). clearbody new v. subst v.
  destruct dest as [b|]; [destruct Hdest as (v & Hv & Hvb)|subst n].
  - eexists _, _. split; [done|]. split; [eapply den_eq; [apply (den_concat _ _ _ _ _ _ Hbit Hv)|lia|done]|]. intros j Hj.
    rewrite Z.lor_spec, Z.shiftl_spec by lia. destruct (decide (j = n)) as [->|].
    + rewrite Z.sub_diag, (testbit_u_high (Z.of_nat n) v), orb_false_r by (lia || by eapply den_range). by destruct (pdep_bit n).
    + by rewrite Z.testbit_neg_r, Hvb by lia.
  - eexists _, _. split; [done|]. split; [exact Hbit|]. intros j Hj. replace j with 0%nat by lia. by destruct (pdep_bit 0).
Qed.
Lemma deposit_steps_ok n : (1 <= n <= 128)%nat → ∃ b v, deposit_steps 128 src mask None (seq 0 n) = Ok (Some b) ∧ den b (Z.of_nat n) v ∧
    ∀ j, (j < n)%nat → Z.testbit v (Z.of_nat j) = pdep_bit j.
Proof using All.
  assert (∀ l k d, deposit_steps 128 src mask d (l ++ [k]) = (d ← deposit_steps 128 src mask d l; deposit_step 128 src mask d k)) as Happ.
  { intros l k. induction l as [|y l IH]; intros d; cbn [app deposit_steps]; [apply M_bind_ret|]. rewrite M_bind_assoc. apply M_bind_ext. done. }
  induction n as [|n IH]; intros Hn; [lia|]. rewrite seq_S, Happ. destruct n as [|n].
  - apply (deposit_step_ok 0 None); [lia|done].
  - destruct IH as (b & v & -> & Hb & Hv); [lia|]. rewrite M_bind_Ok. apply (deposit_step_ok (Datatypes.S n) (Some b)); [lia|]. by exists v.
Qed.
Lemma deposit_bits_ok : ∃ r v, deposit_bits 128 src mask = Ok r ∧ den r 128 v ∧
  ∀ j, (j < 128)%nat → Z.testbit v (Z.of_nat j) = pdep_bit j.
Proof using All.
  unfold deposit_bits. destruct (deposit_steps_ok 128) as (b & v & -> & H); [lia|]. by exists b, v.
Qed.
End bits.

(** *** Counting zeros *)

Section zeros.
Context (b : BV) (x : Z) (Hb : den b 128 x).

(** The loops keep the largest size below which the condition holds. *)
Lemma count_loop (cond : Z → SmtBool) (t : Z) k : 0 <= t → (∀ size, 1 <= size <= 128 → bool_val (cond size) = (size <=? t)) →
  (k <= 128)%nat →
  den (foldl (λ result size, ite_bv (cond size) (bv_from_u64 size 128) result) (bv_from_u64 0 128) (seqZ 1 (Z.of_nat k)))
    128 (Z.min (Z.of_nat k) t).
Proof using L.
  intros Ht Hc. induction k as [|k IH]; intros Hk.
  - eapply den_eq; [apply den_u64; lia|done|]. rewrite wrap_small by (unfold is_u; lia). lia.
  - rewrite seqZ_S, foldl_app. cbn [foldl].
    eapply den_eq; [apply den_ite; [apply den_u64; lia|apply IH; lia]|done|]. rewrite Hc by lia.
    rewrite wrap_small by (unfold is_u; lia). destruct (Z.leb_spec (1 + Z.of_nat k) t); lia.
Qed.
Lemma low_bits_zero size : 1 <= size <= 128 → (wrap size x =? 0) = (size <=? Z.of_nat (trailing_zeros 128 x)).
Proof using Hb.
  intros Hs. pose proof (den_range _ _ _ Hb) as Hx. destruct (decide (x = 0)) as [->|Hne].
  { unfold trailing_zeros. rewrite (proj2 (ones_nil 128 0)) by (intros; apply Z.bits_0). cbn [hd].
    unfold wrap. rewrite Z.mod_0_l by lia. symmetry. apply Z.leb_le. lia. }
  destruct (trailing_zeros_nonzero 128 x Hx Hne) as (H1 & H2 & H3). set (t := trailing_zeros 128 x) in *.
  destruct (Z.leb_spec size (Z.of_nat t)) as [H|H].
  - apply Z.eqb_eq, Z.bits_inj'. intros i Hi. rewrite testbit_wrap, Z.bits_0 by lia. destruct (Z.ltb_spec i size); [|done]. apply H3. lia.
  - apply Z.eqb_neq. intros E. apply (f_equal (λ z, Z.testbit z (Z.of_nat t))) in E. rewrite testbit_wrap, Z.bits_0, H2 in E by lia.
    destruct (Z.ltb_spec (Z.of_nat t) size); [done|lia].
Qed.
Lemma ctz_ok : den (count_trailing_zeros b) 128 (Z.of_nat (trailing_zeros 128 x)).
Proof using Hb.
  unfold count_trailing_zeros. destruct Hb as [Hs Hv]. rewrite Hs. pose proof (count_loop (λ size, bv_eq (bv_extract (size - 1) 0 b) (bv_from_u64 0 size)) (Z.of_nat (trailing_zeros 128 x)) 128) as H.
  eapply den_eq; [apply H|done|]; try lia.
  - intros size Hsize. rewrite <- low_bits_zero by done. erewrite val_eq; [|apply (den_extract (size - 1) 0 b 128 x); [lia..|done]|
      eapply den_eq; [apply den_u64; lia|lia|reflexivity]].
    rewrite Z.shiftr_0_r. replace (size - 1 - 0 + 1) with size by lia. by rewrite (wrap_small size 0) by (split; [lia|apply pow2_pos; lia]).
  - rewrite Z.min_r; [done|]. unfold trailing_zeros. destruct (ones 128 x) as [|i l] eqn:E; [done|]. cbn [hd].
    assert (i ∈ ones 128 x) as [? _]%elem_of_ones by (rewrite E; left). lia.
Qed.
Lemma high_bits_zero size : 1 <= size <= 128 → (Z.shiftr x (128 - size) =? 0) = (size <=? Z.of_nat (leading_zeros 128 x)).
Proof using Hb.
  intros Hs. pose proof (den_range _ _ _ Hb) as Hx. unfold leading_zeros. destruct (last (ones 128 x)) as [i|] eqn:E.
  - assert (i ∈ ones 128 x) as [Hi Ht]%elem_of_ones by (by apply last_Some_elem_of). destruct (Z.leb_spec size (Z.of_nat (128 - 1 - i))) as [H|H].
    + apply Z.eqb_eq, Z.bits_inj'. intros k Hk. rewrite Z.shiftr_spec, Z.bits_0 by lia. destruct (Z.testbit x (k + (128 - size))) eqn:Et; [exfalso|done].
      destruct (decide (k + (128 - size) < 128)) as [Hlt|]; [|rewrite (testbit_u_high 128) in Et by (done || lia); done].
      apply last_lookup in E || rewrite last_lookup in E. rewrite <- (Z2Nat.id (k + (128 - size))) in Et by lia.
      pose proof (ones_lookup_rank 128 x (Z.to_nat (k + (128 - size))) ltac:(lia) Et) as Hr.
      pose proof (ones_rank_lookup _ _ _ _ E) as Hl. pose proof (lookup_lt_Some _ _ _ Hr) as Hr'.
      assert (count_ones i x <= count_ones (Z.to_nat (k + (128 - size))) x)%nat.
      { replace (Z.to_nat (k + (128 - size))) with (i + (Z.to_nat (k + (128 - size)) - i))%nat by lia. rewrite count_ones_app. lia. }
      assert (count_ones i x = count_ones (Z.to_nat (k + (128 - size))) x) as Eq by lia. rewrite Eq in Hl. rewrite <- Hl in E.
      rewrite E in Hr. injection Hr as Hr. lia.
    + apply Z.eqb_neq. intros E0. apply (f_equal (λ z, Z.testbit z (Z.of_nat i - (128 - size)))) in E0.
      rewrite Z.shiftr_spec, Z.bits_0, Z.sub_add in E0 by lia. congruence.
  - apply last_None in E. assert (x = 0) as ->.
    { apply (u_ext 128); [lia|done|done|]. intros i Hi. rewrite Z.bits_0. by apply (ones_nil 128 x). }
    rewrite Z.shiftr_0_l. symmetry. apply Z.leb_le. lia.
Qed.
Lemma clz_ok : den (count_leading_zeros b) 128 (Z.of_nat (leading_zeros 128 x)).
Proof using Hb.
  unfold count_leading_zeros. destruct Hb as [Hs Hv]. rewrite Hs. pose proof (count_loop (λ size, bv_eq (bv_extract (128 - 1) (128 - size) b) (bv_from_u64 0 size)) (Z.of_nat (leading_zeros 128 x)) 128) as H.
  eapply den_eq; [apply H|done|]; try lia.
  - intros size Hsize. rewrite <- high_bits_zero by done. erewrite val_eq; [|apply (den_extract (128 - 1) (128 - size) b 128 x); [lia..|done]|
      eapply den_eq; [apply den_u64; lia|lia|reflexivity]].
    replace (128 - 1 - (128 - size) + 1) with size by lia. rewrite (wrap_small size 0) by (split; [lia|apply pow2_pos; lia]).
    rewrite wrap_small; [done|]. pose proof (den_range _ _ _ Hb) as Hx. replace size with (128 - (128 - size)) at 1 by lia. apply is_u_shiftr_sub; [lia|done].
  - rewrite Z.min_r; [done|]. unfold leading_zeros. case_match; lia.
Qed.
End zeros.

(** *** Byte order *)

Lemma reduce_concat (l : list BV) (vs : list Z) : Forall2 (λ b v, den b 8 v) l vs → l ≠ [] →
  ∃ r, reduce (λ acc el, bv_concat el acc) l = Some r ∧ den r (8 * Z.of_nat (length vs)) (from_le_bytes vs).
Proof using L.
  revert vs. induction l as [|b l IH] using rev_ind; intros vs H Hne; [done|].
  apply Forall2_app_inv_l in H as (vs' & w & Hvs & Hw & ->). apply Forall2_cons_inv_l in Hw as (v & w' & Hv & Hw' & ->).
  apply Forall2_nil_inv_l in Hw' as ->. rewrite length_app. destruct l as [|b' l].
  - apply Forall2_nil_inv_l in Hvs as ->. exists b. split; [done|]. eapply den_eq; [exact Hv|done|]. cbn. by rewrite Z.shiftl_0_l, Z.lor_0_r.
  - destruct (IH vs' Hvs) as (r & Hr & Hd); [done|]. exists (bv_concat b r). split; [by apply (reduce_snoc (λ acc el, bv_concat el acc))|].
    eapply den_eq; [apply (den_concat _ _ _ _ _ _ Hv Hd)|cbn; lia|]. rewrite from_le_bytes_app by
      (clear -Hvs; induction Hvs as [|? ? ? ? Hx _ IH]; constructor; [by apply (den_range _ _ _ Hx)|done]).
    cbn [from_le_bytes]. rewrite Z.shiftl_0_l, Z.lor_0_r, Z.lor_comm. done.
Qed.
Lemma byte_extracts b w x n : den b w x → 8 * Z.of_nat n <= w →
  Forall2 (λ b v, den b 8 v) ((λ index, bv_extract (Z.of_nat index * 8 + 7) (Z.of_nat index * 8) b) <$> seq 0 n) (to_le_bytes n x).
Proof using L.
  intros Hb Hn. apply Forall2_fmap_l, Forall2_same_length_lookup_2; [by rewrite length_seq, length_to_le_bytes|].
  intros i k v Hk Hv. apply lookup_seq in Hk as [-> Hi]. cbn [Nat.add] in *. rewrite lookup_to_le_bytes in Hv by done. injection Hv as <-.
  eapply den_eq; [apply (den_extract _ _ _ w x); [lia..|done]|lia|]. f_equal; [lia|]. f_equal; lia.
Qed.
Lemma bv_swap_bytes_ok b w x n : den b w x → (1 <= n)%nat → 8 * Z.of_nat n <= w →
  ∃ r, bv_swap_bytes b n = Ok r ∧ den r (8 * Z.of_nat n) (swap_bytes n x).
Proof using L.
  intros Hb Hn Hw. unfold bv_swap_bytes. pose proof (Forall2_reverse _ _ _ (byte_extracts b w x n Hb Hw)) as H.
  apply reduce_concat in H as (r & -> & Hr).
  - exists r. split; [done|]. by rewrite length_reverse, length_to_le_bytes in Hr.
  - intros E. apply (f_equal length) in E. rewrite length_reverse, length_fmap, length_seq in E. cbn in E. lia.
Qed.
Lemma swap_to_128_ok b x n : den b 128 x → (1 <= n <= 16)%nat →
  ∃ r, swap_bytes_to_128bits b n = Ok r ∧ den r 128 (swap_bytes n x).
Proof using L.
  intros Hb Hn. unfold swap_bytes_to_128bits. destruct (bv_swap_bytes_ok b 128 x n) as (r & -> & Hr); [done|lia..|].
  rewrite M_bind_Ok, sub_u_ok, M_bind_Ok by (unfold is_u; lia). eexists. split; [done|].
  eapply den_eq; [apply (den_zero_ext (128 - Z.of_nat n * 8) _ _ _ ltac:(lia) Hr)|lia|done].
Qed.
End defaults.

(** ** Expressions that are their values *)

Module Concrete.

Section concrete.
(** The model: the value of every constant. *)
Context (env : string → Z).

(** A width (at least 1) and a number, taken modulo the width. *)
Definition size (b : Z * Z) : Z := Z.max 1 b.1.
Definition val (b : Z * Z) : Z := wrap (size b) b.2.
Definition map2 (f : Z → Z → Z → Z) (a b : Z * Z) : Z * Z := (size a, f (size a) (val a) (val b)).
Definition cmp2 (f : Z → Z → bool) (a b : Z * Z) : bool := f (val a) (val b).
Definition scmp2 (f : Z → Z → bool) (a b : Z * Z) : bool := f (swrap (size a) (val a)) (swrap (size b) (val b)).

(** Arrays list what was stored, the last value first. *)
Record array := { idx : Z; elem : Z; stored : list (Z * Z) }.
Definition select (a : array) (i : Z * Z) : Z * Z :=
  (elem a, match List.find (λ p, p.1 =? val i) (stored a) with Some p => p.2 | None => 0 end).

#[export] Instance solver : SmtSolver := {|
  BV := Z * Z; SmtInt := Z; SmtBool := bool; BvArray := array;
  new_bv_const name w := (w, env name); new_bool_const name := negb (env name =? 0);
  new_bv_array_const name i e := {| idx := i; elem := e; stored := [] |};
  bv_from_i64 v w := (w, v); bv_from_u64 v w := (w, v); bv_from_int i w := (w, i);
  int_from_i64 v := v; int_from_u64 v := v;
  int_from_bv b signed := if signed then swrap (size b) (val b) else val b;
  bool_from_bool b := b;
  bv_is_identical a b := bool_decide (a = b);
  bv_add := map2 (λ _, Z.add); bv_sub := map2 (λ _, Z.sub); bv_mul := map2 (λ _, Z.mul);
  bv_or := map2 (λ _, Z.lor); bv_and := map2 (λ _, Z.land); bv_xor := map2 (λ _, Z.lxor);
  bv_not b := (size b, Z.lnot (val b));
  bv_concat a b := (size a + size b, Z.lor (Z.shiftl (val a) (size b)) (val b));
  bv_extract hi lo b := (hi - lo + 1, Z.shiftr (val b) lo);
  zero_ext n b := (size b + n, val b);
  sign_ext n b := (size b + n, swrap (size b) (val b));
  bvshl := map2 sem_shl; bvlshr := map2 sem_lshr; bvashr := map2 sem_ashr;
  bvurem := map2 sem_urem; bvsrem := map2 sem_srem; bvudiv := map2 sem_udiv; bvsdiv := map2 sem_sdiv;
  bvrotl := map2 sem_rotl; bvrotr := map2 (λ w x k, sem_rotl w x (w - k `mod` w));
  bvslt := scmp2 Z.ltb; bvsge := scmp2 (λ x y, y <=? x); bvsgt := scmp2 (λ x y, y <? x);
  bvugt := cmp2 (λ x y, y <? x); bvult := cmp2 Z.ltb; bvule := cmp2 Z.leb; bvuge := cmp2 (λ x y, y <=? x);
  bv_eq := cmp2 Z.eqb; bv_simplify b := b; get_size := size;
  bv_as_u64 b := if size b <=? 64 then Some (val b) else None;
  int_is_identical := Z.eqb; int_add := Z.add; int_sub := Z.sub; int_mul := Z.mul; int_eq := Z.eqb;
  int_simplify i := i; int_as_u64 i := if bool_decide (is_u 64 i) then Some i else None;
  bool_is_identical := Bool.eqb; bool_or := orb; bool_and := andb; bool_xor := xorb; bool_not := negb;
  bool_eq := Bool.eqb; bool_simplify b := b;
  ite_bv c a b := if c then a else b; ite_int c a b := if c then a else b;
  ite_bool c a b := if c then a else b; ite_bv_array c a b := if c then a else b;
  as_bool b := Some b;
  array_is_identical a b := bool_decide (idx a = idx b) && bool_decide (stored a = stored b);
  array_eq a b := forallb (λ i, val (select a (idx a, i)) =? val (select b (idx b, i))) (seqZ 0 (2 ^ idx a));
  array_simplify a := a; array_select := select;
  array_store a i v := {| idx := idx a; elem := elem a; stored := (val i, val v) :: stored a |};
  element_size := elem; index_size := idx;
|}.

Lemma size_pos b : 0 < size b.
Proof. unfold size. lia. Qed.
Lemma val_range b : is_u (size b) (val b).
Proof. apply wrap_is_u. pose proof (size_pos b). lia. Qed.
(** An expression built with a width and a number in range. *)
Lemma built w x y : 0 < w → wrap w x = y → size (w, x) = w ∧ val (w, x) = y.
Proof. intros Hw Hx. unfold val, size. cbn [fst snd]. by rewrite Z.max_r by lia. Qed.
Lemma built_map2 f a b : (∀ w x y, 0 < w → is_u w x → is_u w y → is_u w (f w x y)) → size a = size b →
  size (map2 f a b) = size a ∧ val (map2 f a b) = f (size a) (val a) (val b).
Proof.
  intros Hf E. apply built; [apply size_pos|]. apply wrap_small, Hf; [apply size_pos|apply val_range|]. rewrite E. apply val_range.
Qed.
(** The same for operations that wrap around. *)
Lemma built_wrap f a b : size (map2 f a b) = size a ∧ val (map2 f a b) = wrap (size a) (f (size a) (val a) (val b)).
Proof. apply built; [apply size_pos|done]. Qed.

Lemma udiv_range w x y : 0 < w → is_u w x → is_u w y → is_u w (sem_udiv w x y).
Proof.
  intros Hw [H1 H2] [H3 H4]. unfold sem_udiv. destruct (Z.eqb_spec y 0).
  - rewrite Z.ones_equiv. pose proof (pow2_pos w ltac:(lia)). split; lia.
  - split; [apply Z.div_pos; lia|]. apply Z.div_lt_upper_bound; nia.
Qed.
Lemma urem_range w x y : 0 < w → is_u w x → is_u w y → is_u w (sem_urem w x y).
Proof.
  intros Hw [H1 H2] [H3 H4]. unfold sem_urem. destruct (Z.eqb_spec y 0); [done|].
  pose proof (Z.mod_pos_bound x y ltac:(lia)). split; lia.
Qed.
Lemma shift_range w x k : 0 < w → is_u w x → is_u w k → is_u w (sem_shl w x k) ∧ is_u w (sem_lshr w x k).
Proof.
  intros Hw Hx [Hk _]. unfold sem_shl, sem_lshr. pose proof (pow2_pos w ltac:(lia)).
  split; case_match; try (split; lia); [apply wrap_is_u; lia|apply is_u_shiftr; [lia..|done]].
Qed.

#[export] Instance laws : SmtLaws solver.
Proof.
  refine {| bv_val := val : @BV solver → Z; int_val := (λ i, i) : @SmtInt solver → Z; bool_val := (λ b, b) : @SmtBool solver → bool |}; cbn.
  - apply size_pos.
  - apply val_range.
  - intros v w Hw. by apply built.
  - intros v w Hw. by apply built.
  - intros name w Hw. by apply (built w (env name) _ Hw eq_refl).
  - intros v w Hw. by apply built.
  - done.
  - done.
  - done.
  - intros b. apply built; [apply size_pos|done].
  - intros a b E. apply built_map2; [intros; apply is_u_land; [lia|done|apply H1]|done].
  - intros a b E. apply built_map2; [intros; apply is_u_lor; [lia|done..]|done].
  - intros a b E. apply built_map2; [intros; apply is_u_lxor; [lia|done..]|done].
  - intros a b E. apply built_wrap.
  - intros a b E. apply built_wrap.
  - intros a b E. apply built_wrap.
  - intros a b. pose proof (size_pos a). pose proof (size_pos b). apply built; [lia|]. apply wrap_small, is_u_lor; [lia| |].
    + pose proof (val_range a) as [H1 H2]. rewrite Z.shiftl_mul_pow2 by lia. pose proof (pow2_pos (size b) ltac:(lia)). split; [nia|]. rewrite Z.pow_add_r by lia. nia.
    + eapply is_u_mono; [|apply val_range]. lia.
  - intros hi lo b H1 H2. by apply built; [lia|].
  - intros n b Hn. pose proof (size_pos b). apply built; [lia|]. apply wrap_small. eapply is_u_mono; [|apply val_range]. lia.
  - intros n b Hn. pose proof (size_pos b). by apply built; [lia|].
  - intros a b E. apply built_map2; [intros; by apply shift_range|done].
  - intros a b E. apply built_map2; [intros; by apply shift_range|done].
  - intros a b E. apply built_map2; [intros; apply wrap_is_u; lia|done].
  - intros a b E. apply built_map2; [intros; apply wrap_is_u; lia|done].
  - intros a b E. apply built_map2; [intros; by apply udiv_range|done].
  - intros a b E. apply built_map2; [intros; by apply urem_range|done].
  - intros a b E _. apply built_map2; [intros; apply wrap_is_u; lia|done].
  - intros a b E _. apply built_map2; [intros; apply wrap_is_u; lia|done].
  - intros a b E. apply built_wrap.
  - intros a b E. apply built_wrap.
  - intros a b E. unfold scmp2. by rewrite <- E.
  - intros a b E. unfold scmp2. by rewrite <- E.
  - done.
  - intros [] a b E; by rewrite ?E.
  - done.
  - done.
Defined.
End concrete.
End Concrete.
