(* ===== verification/Codegen.v ===== *)
(** * Code generation from expressions

    Models [liblisa/src/semantics/default/codegen]: the trait [CodeGenerator] as a
    class with its default methods (mod.rs), terms with pending operations, the
    translation of postfix expressions and of computations, and the two generators,
    S-expressions (sexpr.rs) and expressions of an SMT solver (smt.rs).  No generator
    changes its state while it generates, so that the [&mut self] of the trait is not
    threaded. *)
From stdpp Require Import strings pretty.
From S2P Require Import Prelude MachInt Utils Ops Expr Value Computation Smt.

(** ** Terms *)

Inductive TermOp := TCrop (num_bits : Z) | TSwapBytes (num_bits : Z) | TSignExtend (num_bits : Z).

Record Term (T : Type) := { term_data : T; term_num_bits : Z; operations : list TermOp }.
Arguments term_data {T} _.
Arguments term_num_bits {T} _.
Arguments operations {T} _.
Arguments Build_Term {T} _ _ _.
Definition simple {T} (data : T) : Term T := Build_Term data 128 [].
Definition new_term {T} (data : T) (num_bits : Z) (operations : list TermOp) : Term T := Build_Term data num_bits operations.
Definition term_map {T R} (map : T → R) (self : Term T) : Term R :=
  Build_Term (map (term_data self)) (term_num_bits self) (operations self).
Definition unwrap_if_applied {T} (self : Term T) : M T :=
  assert! bool_decide (length (operations self) = 0%nat); Ok (term_data self).
Definition push_operation {T} (self : Term T) (op : TermOp) : Term T :=
  Build_Term (term_data self) (term_num_bits self) (operations self ++ [op]).

(** One iteration of the loop ['repeat]: the first two adjacent operations that
    swap the same bytes are removed. *)
Fixpoint remove_pair (ops : list TermOp) : option (list TermOp) :=
  match ops with
  | [] => None
  | o :: rest =>
      match o, rest with
      | TSwapBytes a, TSwapBytes b :: rest' =>
          if a =? b then Some rest' else cons o <$> remove_pair rest
      | _, _ => cons o <$> remove_pair rest
      end
  end.
Fixpoint optimize_operations (fuel : nat) (ops : list TermOp) : M (list TermOp) :=
  match fuel with
  | O => OutOfFuel
  | S fuel => match remove_pair ops with Some ops => optimize_operations fuel ops | None => Ok ops end
  end.

(** ** The trait *)

Class CodeGenerator := {
  T : Type;
  leaf_const : Z → M T;
  leaf_arg : nat → M (Term T);
  g_simplify : T → M T;
  unknown_op_any : string → list T → M T;
  g_not : T → M T;
  g_crop : Z → T → M T;
  g_sign_extend : Z → T → M T;
  g_select : Z → Z → T → M T;
  g_parity : T → M T;
  g_is_zero : T → M T;
  g_byte_mask : T → M T;
  g_bit_mask : T → M T;
  g_trailing_zeros : T → M T;
  g_leading_zeros : T → M T;
  g_popcount : T → M T;
  g_swap_bytes : Z → T → M T;
  g_add : T → T → M T;
  g_sub : T → T → M T;
  g_mul : T → T → M T;
  g_carryless_mul : T → T → M T;
  g_div : T → T → M T;
  g_div_unsigned : T → T → M T;
  g_rem : T → T → M T;
  g_rem_unsigned : T → T → M T;
  g_shl : T → T → M T;
  g_shr : T → T → M T;
  g_and : T → T → M T;
  g_or : T → T → M T;
  g_xor : T → T → M T;
  g_cmp_lt : T → T → M T;
  g_rol : Z → T → T → M T;
  g_deposit_bits : T → T → M T;
  g_extract_bits : T → T → M T;
  g_if_zero : T → T → T → M T;
}.

(** The default methods, from the methods they call.  The operations for which a
    generator must report an error have the name of the operation. *)
Section defaults.
Context {T : Type} (unknown : string → list T → M T) (const : Z → M T).
Definition unknown_op1 (name : string) (item : T) : M T := unknown name [item].
Definition unknown_op2 (name : string) (lhs rhs : T) : M T := unknown name [lhs; rhs].
Definition unknown_op3 (name : string) (arg0 arg1 arg2 : T) : M T := unknown name [arg0; arg1; arg2].
Definition default_simplify (item : T) : M T := Ok item.
Definition default_crop (select : Z → Z → T → M T) (num_bits : Z) (item : T) : M T := select 0 num_bits item.
Definition default_sign_extend (num_bits : Z) : T → M T := unknown_op1 ("sign_extend" +:+ pretty num_bits).
Definition default_select (num_skip num_take : Z) : T → M T :=
  unknown_op1 ("select" +:+ pretty num_skip +:+ "_" +:+ pretty num_take).
Definition default_parity (crop : Z → T → M T) (popcount : T → M T) (item : T) : M T :=
  low8 ← crop 8 item; popcount low8.
Definition default_is_zero (if_zero : T → T → T → M T) (item : T) : M T :=
  if_zero_value ← const 1; if_nonzero ← const 0; if_zero item if_zero_value if_nonzero.
Definition default_bit_mask (shl : T → T → M T) (not : T → M T) (item : T) : M T :=
  all_ones ← const (-1); negated_bitmask ← shl all_ones item; not negated_bitmask.
Definition default_swap_bytes (num_bits : Z) : T → M T := unknown_op1 ("swap_bytes" +:+ pretty num_bits).
Definition default_rol (num_bits : Z) : T → T → M T := unknown_op2 ("rol" +:+ pretty num_bits).
End defaults.

Section codegen.
Context {G : CodeGenerator}.

Definition apply (self : TermOp) (item : T) : M T :=
  match self with
  | TCrop num_bits => g_crop num_bits item
  | TSwapBytes num_bits => g_swap_bytes num_bits item
  | TSignExtend num_bits => g_sign_extend num_bits item
  end.
Fixpoint apply_all (operations : list TermOp) (data : T) : M T :=
  match operations with [] => Ok data | op :: operations => data ← apply op data; apply_all operations data end.
Definition term_unwrap (self : Term T) : M T :=
  operations ← optimize_operations (S (length (operations self))) (operations self);
  apply_all operations (term_data self).

(** [args.remove(0)]. *)
Definition remove_first (args : list (Term T)) : M (Term T * list (Term T)) :=
  match args with [] => Panic | x :: args => Ok (x, args) end.
Definition apply_fn1 (f : T → M T) (args : list (Term T)) : M (Term T) :=
  '(lhs, args) ← remove_first args;
  lhs ← term_unwrap lhs;
  r ← f lhs; Ok (simple r).
Definition apply_fn2 (f : T → T → M T) (args : list (Term T)) : M (Term T) :=
  '(lhs, args) ← remove_first args;
  lhs ← term_unwrap lhs;
  '(rhs, args) ← remove_first args;
  rhs ← term_unwrap rhs;
  r ← f lhs rhs; Ok (simple r).
Definition apply_fn3 (f : T → T → T → M T) (args : list (Term T)) : M (Term T) :=
  '(condition, args) ← remove_first args;
  condition ← term_unwrap condition;
  '(zero, args) ← remove_first args;
  zero ← term_unwrap zero;
  '(nonzero, args) ← remove_first args;
  nonzero ← term_unwrap nonzero;
  r ← f condition zero nonzero; Ok (simple r).

(** The hole of an argument. *)
Definition codegen_hole (arg : Arg) (consts : list Z) : M (Term T) :=
  match arg with
  | Input index num_bits encoding =>
      val ← leaf_arg index;
      let val := match encoding with
                 | SignedLittleEndian | UnsignedLittleEndian => push_operation val (TSwapBytes num_bits)
                 | _ => val
                 end in
      let val := match encoding with
                 | SignedLittleEndian | SignedBigEndian =>
                     if negb (num_bits =? 128) then push_operation val (TSignExtend num_bits) else val
                 | _ => val
                 end in
      Ok val
  | TinyConst c => r ← leaf_const c; Ok (simple r)
  | ConstArg index => c ← vget consts index; r ← leaf_const c; Ok (simple r)
  end.

(** The [match op] of [codegen_template]. *)
Definition codegen_op (arg_interpretation : list Arg) (consts : list Z) (op : Op) (args : list (Term T)) : M (Term T) :=
  match op with
  | Hole n => arg ← vget arg_interpretation n; codegen_hole arg consts
  | Const c => r ← leaf_const c; Ok (simple r)
  | Add => apply_fn2 g_add args
  | Sub => apply_fn2 g_sub args
  | Mul => apply_fn2 g_mul args
  | CarrylessMul => apply_fn2 g_carryless_mul args
  | Div => apply_fn2 g_div args
  | UnsignedDiv => apply_fn2 g_div_unsigned args
  | Rem => apply_fn2 g_rem args
  | UnsignedRem => apply_fn2 g_rem_unsigned args
  | Shl => apply_fn2 g_shl args
  | Shr => apply_fn2 g_shr args
  | And => apply_fn2 g_and args
  | Or => apply_fn2 g_or args
  | Xor => apply_fn2 g_xor args
  | CmpLt => apply_fn2 g_cmp_lt args
  | Rol num_bits => apply_fn2 (g_rol num_bits) args
  | Not => apply_fn1 g_not args
  | Parity => apply_fn1 g_parity args
  | IsZero => apply_fn1 g_is_zero args
  | Crop num_bits => apply_fn1 (g_crop num_bits) args
  | SignExtend num_bits => apply_fn1 (g_sign_extend num_bits) args
  | Select num_skip num_take => apply_fn1 (g_select num_skip num_take) args
  | ByteMask => apply_fn1 g_byte_mask args
  | BitMask => apply_fn1 g_bit_mask args
  | TrailingZeros => apply_fn1 g_trailing_zeros args
  | LeadingZeros => apply_fn1 g_leading_zeros args
  | PopCount => apply_fn1 g_popcount args
  | SwapBytes num_bits =>
      '(item, args) ← remove_first args;
      Ok (push_operation item (TSwapBytes num_bits))
  | IfZero => apply_fn3 g_if_zero args
  | DepositBits => apply_fn2 g_deposit_bits args
  | ExtractBits => apply_fn2 g_extract_bits args
  end.

(** [stack.drain(stack.len() - n..)]. *)
Definition drain {A} (stack : list A) (n : nat) : M (list A * list A) :=
  if (n <=? length stack)%nat
  then Ok (take (length stack - n) stack, drop (length stack - n) stack) else Panic.

Fixpoint codegen_loop (arg_interpretation : list Arg) (consts : list Z) (ops : list Op) (stack : list (Term T)) : M (list (Term T)) :=
  match ops with
  | [] => Ok stack
  | op :: ops =>
      '(stack, args) ← drain stack (num_args op);
      t ← codegen_op arg_interpretation consts op args;
      codegen_loop arg_interpretation consts ops (stack ++ [t])
  end.
Definition codegen_template (ops : list Op) (arg_interpretation : list Arg) (consts : list Z) : M T :=
  stack ← codegen_loop arg_interpretation consts ops [];
  t ← unwrap (last stack);
  term_unwrap t.

(** [u8::try_from(n).unwrap()]. *)
Definition try_into_u8 (n : Z) : M Z := if n <? 256 then Ok n else Panic.
Definition codegen_computation `{AsComputationRef A} (computation : A) : M T :=
  r ← as_internal computation;
  result ← codegen_template (ops (expr (template r))) (arg_interpretation r) (consts r);
  num_bits ← try_into_u8 (num_bits (ref_output_type r));
  cropped ← g_crop num_bits result;
  match ref_output_encoding r with
  | OutLittleEndian => g_swap_bytes num_bits cropped
  | OutBigEndian => Ok cropped
  end.
End codegen.

(** ** S-expressions *)

Inductive SExpr :=
| SEConst (data : string)
| SEInput (index : nat)
| SEApp (op : string) (args : list SExpr).

(** [format!("#x{:032X}", value as u128)]. *)
Definition hex_digit (d : Z) : Ascii.ascii :=
  Ascii.ascii_of_nat (Z.to_nat (if d <? 10 then 48 + d else 55 + d)).
Fixpoint hex_digits (n : nat) (x : Z) (acc : string) : string :=
  match n with
  | O => acc
  | S n => hex_digits n (Z.shiftr x 4) (String.String (hex_digit (Z.land x 15)) acc)
  end.
Definition sexpr_const (value : Z) : SExpr := SEConst ("#x" +:+ hex_digits 32 (wrap 128 value) "").

(** [Display] *)
Fixpoint join (l : list string) : string :=
  match l with [] => "" | [s] => s | s :: l => s +:+ " " +:+ join l end.
Fixpoint sexpr_display (self : SExpr) : string :=
  match self with
  | SEConst data => data
  | SEInput index => "arg" +:+ pretty index
  | SEApp op args => "(" +:+ op +:+ " " +:+ join (sexpr_display <$> args) +:+ ")"
  end.

Definition sexpr_f (name : string) (args : list SExpr) : M SExpr := Ok (SEApp name args).

Definition SExprCodeGen : CodeGenerator :=
  let const v := Ok (sexpr_const v) in
  let op1 := unknown_op1 sexpr_f in
  let op2 := unknown_op2 sexpr_f in
  let op3 := unknown_op3 sexpr_f in
  let select := default_select sexpr_f in
  let crop := default_crop select in
  {|
    T := SExpr;
    leaf_const := const;
    leaf_arg arg_index := Ok (simple (SEInput arg_index));
    g_simplify := default_simplify;
    unknown_op_any := sexpr_f;
    g_not := op1 "not";
    g_crop := crop;
    g_sign_extend := default_sign_extend sexpr_f;
    g_select := select;
    g_parity := default_parity crop (op1 "popcount");
    g_is_zero := default_is_zero const (op3 "if_zero");
    g_byte_mask := op1 "byte_mask";
    g_bit_mask := default_bit_mask const (op2 "shl") (op1 "not");
    g_trailing_zeros := op1 "trailing_zeros";
    g_leading_zeros := op1 "leading_zeros";
    g_popcount := op1 "popcount";
    g_swap_bytes := default_swap_bytes sexpr_f;
    g_add := op2 "add"; g_sub := op2 "sub"; g_mul := op2 "mul"; g_carryless_mul := op2 "carryless_mul";
    g_div := op2 "div"; g_div_unsigned := op2 "div_unsigned"; g_rem := op2 "rem"; g_rem_unsigned := op2 "rem_unsigned";
    g_shl := op2 "shl"; g_shr := op2 "shr"; g_and := op2 "and"; g_or := op2 "or"; g_xor := op2 "xor";
    g_cmp_lt := op2 "cmp_lt";
    g_rol := default_rol sexpr_f;
    g_deposit_bits := op2 "deposit_bits"; g_extract_bits := op2 "extract_bits";
    g_if_zero := op3 "if_zero";
  |}%string.
