(* ===== verification/SmtCodegen.v ===== *)
(** * The generator of expressions for SMT solvers

    Models [liblisa/src/semantics/default/codegen/smt.rs]: [Z3CodeGen], an instance of
    [CodeGenerator] whose expressions are bit vectors of a solver. *)
From stdpp Require Import strings.
From S2P Require Import Prelude MachInt Utils Smt Codegen.

Section z3.
Context {S : SmtSolver} {P : profile}.

(** [Z3CodeGen::new] and [new_with_terms]; the context is the solver. *)
Record Z3CodeGen := { z3_args : list (Term BV) }.
Definition z3_new (args : list BV) : Z3CodeGen := {| z3_args := simple <$> args |}.
Definition z3_new_with_terms (args : list (Term BV)) : Z3CodeGen := {| z3_args := args |}.

Definition z3_leaf_const (value : Z) : M BV := Ok (bv_from_i128 value).
Definition z3_leaf_arg (self : Z3CodeGen) (arg_index : nat) : M (Term BV) := vget (z3_args self) arg_index.
Definition z3_unknown_op_any (name : string) (args : list BV) : M BV := Panic.

(** [num_skip + num_take - 1] is computed on [u8]. *)
Definition z3_select (num_skip num_take : Z) (item : BV) : M BV :=
  s ← add_u 8 num_skip num_take;
  hi ← sub_u 8 s 1;
  k ← sub_u 32 128 num_take;
  Ok (zero_ext k (bv_extract hi num_skip item)).
Definition z3_crop (num_bits : Z) (item : BV) : M BV := z3_select 0 num_bits item.
Definition z3_or (lhs rhs : BV) : M BV := Ok (bv_or lhs rhs).
Definition z3_not (item : BV) : M BV := Ok (bv_not item).
Definition z3_and (lhs rhs : BV) : M BV := Ok (bv_and lhs rhs).
Definition z3_xor (lhs rhs : BV) : M BV := Ok (bv_xor lhs rhs).
Definition z3_shl (lhs rhs : BV) : M BV := num ← z3_crop 7 rhs; Ok (bvshl lhs num).
Definition z3_shr (lhs rhs : BV) : M BV := num ← z3_crop 7 rhs; Ok (bvashr lhs num).
Definition z3_rol (num_bits : Z) (lhs rhs : BV) : M BV :=
  hi ← sub_u 32 num_bits 1;
  let val := bv_extract hi 0 lhs in
  let amount := bvurem (bv_extract 31 0 rhs) (bv_from_u64 num_bits 32) in
  amount ← (if 32 <? num_bits then (k ← sub_u 32 num_bits 32; Ok (zero_ext k amount))
            else (hi ← sub_u 32 num_bits 1; Ok (bv_extract hi 0 amount)));
  assert! (get_size val =? get_size amount);
  let result := bvrotl val amount in
  k ← sub_u 32 128 num_bits;
  Ok (zero_ext k result).
Definition z3_sign_extend (num_bits : Z) (item : BV) : M BV :=
  hi ← sub_u 32 num_bits 1;
  k ← sub_u 32 128 num_bits;
  Ok (sign_ext k (bv_extract hi 0 item)).
Definition z3_parity (item : BV) : M BV :=
  parity ← unwrap (reduce bv_xor ((λ index, bv_extract index index item) <$> [0; 1; 2; 3; 4; 5; 6; 7]));
  Ok (zero_ext 127 (bv_not parity)).
Definition z3_add (lhs rhs : BV) : M BV := Ok (bv_add lhs rhs).
Definition z3_sub (lhs rhs : BV) : M BV := Ok (bv_sub lhs rhs).
Definition z3_mul (lhs rhs : BV) : M BV := Ok (bv_mul lhs rhs).
Definition z3_if_zero (condition if_zero if_nonzero : BV) : M BV :=
  let is_zero := bv_eq condition (bv_from_i64 0 128) in
  Ok (ite_bv is_zero if_zero if_nonzero).
Definition z3_is_zero (item : BV) : M BV :=
  let one := bv_from_i64 1 128 in
  let zero := bv_from_i64 0 128 in
  z3_if_zero item one zero.
Definition z3_cmp_lt (lhs rhs : BV) : M BV :=
  Ok (ite_bv (bvslt lhs rhs) (bv_from_i64 1 128) (bv_from_i64 0 128)).
Definition z3_byte_mask (item : BV) : M BV :=
  unwrap (reduce (λ acc el, bv_concat el acc)
    ((λ index, bv_extract (index * 8 + 7) (index * 8 + 7) item) <$> [0; 1; 2; 3; 4; 5; 6; 7])).
Definition z3_bit_mask (item : BV) : M BV :=
  all_ones ← z3_leaf_const (-1);
  let is_all_ones := bvsge item (bv_from_i64 128 128) in
  negated_bitmask ← z3_shl all_ones item;
  shifted_result ← z3_not negated_bitmask;
  Ok (ite_bv is_all_ones all_ones shifted_result).
Definition z3_trailing_zeros (item : BV) : M BV := Ok (count_trailing_zeros item).
Definition z3_leading_zeros (item : BV) : M BV := Ok (count_leading_zeros item).
Definition z3_swap_bytes (num_bits : Z) (item : BV) : M BV :=
  swap_bytes_to_128bits item (Z.to_nat ((num_bits + 7) `div` 8)).
(** The four divisions: [ite] on the divisor. *)
Definition z3_guarded (f : BV → BV → BV) (lhs rhs : BV) : M BV :=
  let zero := bv_from_u64 0 128 in
  let is_zero := bv_eq rhs zero in
  Ok (ite_bv is_zero zero (f lhs rhs)).
Definition z3_div : BV → BV → M BV := z3_guarded bvsdiv.
Definition z3_div_unsigned : BV → BV → M BV := z3_guarded bvudiv.
Definition z3_rem : BV → BV → M BV := z3_guarded bvsrem.
Definition z3_rem_unsigned : BV → BV → M BV := z3_guarded bvurem.
Definition z3_deposit_bits (lhs rhs : BV) : M BV := deposit_bits 128 lhs rhs.
Definition z3_extract_bits (lhs rhs : BV) : M BV := extract_bits 128 lhs rhs.
Definition z3_popcount (item : BV) : M BV := n ← popcount item 128; Ok (bv_from_int n 128).
Definition z3_carryless_step (x y result : BV) (i : nat) : BV :=
  let do_xor := bv_eq (bv_extract (Z.of_nat i) (Z.of_nat i) x) (bv_from_i64 1 1) in
  let xor_mask := ite_bv do_xor (bv_from_i64 (-1) 128) (bv_from_i64 0 128) in
  let xor_value := bvshl y (bv_from_i64 (Z.of_nat i) 128) in
  bv_xor result (bv_and xor_value xor_mask).
Definition z3_carryless_mul (x y : BV) : M BV :=
  Ok (foldl (z3_carryless_step x y) (bv_from_i64 0 128) (seq 0 128)).

Definition Z3CodeGen_generator (self : Z3CodeGen) : CodeGenerator := {|
  T := BV;
  leaf_const := z3_leaf_const;
  leaf_arg := z3_leaf_arg self;
  g_simplify := default_simplify;
  unknown_op_any := z3_unknown_op_any;
  g_not := z3_not; g_crop := z3_crop; g_sign_extend := z3_sign_extend; g_select := z3_select;
  g_parity := z3_parity; g_is_zero := z3_is_zero; g_byte_mask := z3_byte_mask; g_bit_mask := z3_bit_mask;
  g_trailing_zeros := z3_trailing_zeros; g_leading_zeros := z3_leading_zeros; g_popcount := z3_popcount;
  g_swap_bytes := z3_swap_bytes;
  g_add := z3_add; g_sub := z3_sub; g_mul := z3_mul; g_carryless_mul := z3_carryless_mul;
  g_div := z3_div; g_div_unsigned := z3_div_unsigned; g_rem := z3_rem; g_rem_unsigned := z3_rem_unsigned;
  g_shl := z3_shl; g_shr := z3_shr; g_and := z3_and; g_or := z3_or; g_xor := z3_xor; g_cmp_lt := z3_cmp_lt;
  g_rol := z3_rol; g_deposit_bits := z3_deposit_bits; g_extract_bits := z3_extract_bits; g_if_zero := z3_if_zero;
|}.
End z3.
