(* ===== verification/SmtCodegenFacts.v ===== *)
(** * The generated expressions mean what the expressions compute

    Operation by operation, a bit vector for the arguments becomes a bit vector for the
    result; the translation of whole expressions and of computations follows by
    induction on the tree.  The operations for which the two differ are stated at the
    end. *)
From stdpp Require Import strings.
From S2P Require Import Prelude MachInt Utils Ops OpsFacts Expr ExprFacts Value Computation ComputationFacts CombineFacts.
From S2P Require Import Smt SmtFacts Codegen SmtCodegen.

Section ops.
Context {S : SmtSolver} {L : SmtLaws S} {P : profile}.
Implicit Types (t : BV).

(** A bit vector for an [i128]. *)
Definition sim t (x : Z) : Prop := i128 x ∧ den t 128 (wrap 128 x).
Definition sim1 (g : BV → M BV) (f : Z → M Z) : Prop := ∀ t x r, sim t x → f x = Ok r → ∃ t', g t = Ok t' ∧ sim t' r.
Definition sim2 (g : BV → BV → M BV) (f : Z → Z → M Z) : Prop :=
  ∀ t u x y r, sim t x → sim u y → f x y = Ok r → ∃ t', g t u = Ok t' ∧ sim t' r.

Lemma sim_intro t y r : den t 128 y → i128 r → y = wrap 128 r → sim t r.
Proof. intros H Hr ->. by split. Qed.
Lemma sim_zero t x : sim t x → (wrap 128 x =? 0) = (x =? 0).
Proof.
  intros [Hx _]. destruct (Z.eqb_spec x 0) as [->|Hne]; [done|]. apply Z.eqb_neq. intros E. apply Hne.
  rewrite <- (swrap_small 128 x), <- swrap_wrap, E by (done || lia). done.
Qed.
Lemma sim_swrap t x : sim t x → swrap 128 (wrap 128 x) = x.
Proof. intros [Hx _]. rewrite swrap_wrap, swrap_small by (done || lia). done. Qed.
Lemma den_const v : i128 v → den (bv_from_i64 v 128) 128 (wrap 128 v).
Proof. intros _. apply den_i64. lia. Qed.

Lemma sim_const v : i128 v → ∃ t, z3_leaf_const v = Ok t ∧ sim t v.
Proof. intros Hv. eexists. split; [done|]. split; [done|]. by apply den_i128. Qed.

(** *** Bits *)

Lemma sim_not : sim1 z3_not not_op.
Proof using L.
  intros t x r [Hx Ht] [= <-]. eexists. split; [done|]. eapply sim_intro; [by apply den_not|by apply is_i_lnot|]. unfold not_u. bitwise i Hi; done.
Qed.
Lemma sim_and : sim2 z3_and and_op.
Proof using L.
  intros t u x y r [Hx Ht] [Hy Hu] [= <-]. eexists. split; [done|]. eapply sim_intro; [by apply den_and|by apply is_i_land|]. bitwise i Hi; done.
Qed.
Lemma sim_or : sim2 z3_or or_op.
Proof using L.
  intros t u x y r [Hx Ht] [Hy Hu] [= <-]. eexists. split; [done|]. eapply sim_intro; [by apply den_or|by apply is_i_lor|]. bitwise i Hi; done.
Qed.
Lemma sim_xor : sim2 z3_xor xor_op.
Proof using L.
  intros t u x y r [Hx Ht] [Hy Hu] [= <-]. eexists. split; [done|]. eapply sim_intro; [by apply den_xor|by apply is_i_lxor|]. bitwise i Hi; done.
Qed.

(** *** Ring operations *)

Lemma sim_add : sim2 z3_add add_op.
Proof using L.
  intros t u x y r [Hx Ht] [Hy Hu] [= <-]. eexists. split; [done|]. eapply sim_intro; [by apply den_add|apply swrap_is_i; lia|].
  rewrite wrap_swrap by lia. unfold wrap. by rewrite <- Z.add_mod.
Qed.
Lemma sim_sub : sim2 z3_sub sub_op.
Proof using L.
  intros t u x y r [Hx Ht] [Hy Hu] [= <-]. eexists. split; [done|]. eapply sim_intro; [by apply den_sub|apply swrap_is_i; lia|].
  rewrite wrap_swrap by lia. unfold wrap. by rewrite <- Zminus_mod.
Qed.
Lemma sim_mul : sim2 z3_mul mul_op.
Proof using L.
  intros t u x y r [Hx Ht] [Hy Hu] [= <-]. eexists. split; [done|]. eapply sim_intro; [by apply den_mul|apply swrap_is_i; lia|].
  rewrite wrap_swrap by lia. unfold wrap. by rewrite <- Z.mul_mod.
Qed.

(** *** Fields *)

Lemma z3_select_ok t x s k : 0 <= s → 1 <= k → s + k <= 128 → den t 128 x →
  ∃ t', z3_select s k t = Ok t' ∧ den t' 128 (wrap k (Z.shiftr x s)).
Proof using L.
  intros Hs Hk Hsk Ht. unfold z3_select. rewrite (add_u_ok 8 s k), M_bind_Ok by (unfold is_u; lia).
  rewrite (sub_u_ok 8 (s + k) 1), M_bind_Ok by (unfold is_u; lia). rewrite (sub_u_ok 32 128 k), M_bind_Ok by (unfold is_u; lia). eexists. split; [done|].
  eapply den_eq; [apply (den_zero_ext (128 - k)); [lia|]; apply (den_extract (s + k - 1) s t 128 x); [lia..|done]|lia|].
  f_equal. lia.
Qed.
Lemma sim_select s k : 0 <= s → 1 <= k <= 126 → s + k <= 128 → sim1 (z3_select s k) (select_op s k).
Proof using L.
  intros Hs Hk Hsk t x r [Hx Ht]. rewrite select_op_ok by lia. intros [= <-].
  destruct (z3_select_ok t _ s k Hs ltac:(lia) Hsk Ht) as (t' & -> & Ht'). eexists. split; [done|].
  eapply sim_intro; [done| |bitwise i Hi; done].
  apply u_is_i; [lia|]. eapply is_u_mono; [|apply wrap_is_u; lia]. lia.
Qed.
Lemma sim_crop k : 1 <= k <= 126 → sim1 (z3_crop k) (crop_op k).
Proof using L.
  intros Hk t x r [Hx Ht]. rewrite crop_op_ok by lia. intros [= <-]. unfold z3_crop.
  destruct (z3_select_ok t _ 0 k ltac:(lia) ltac:(lia) ltac:(lia) Ht) as (t' & -> & Ht'). eexists. split; [done|].
  eapply sim_intro; [done| |bitwise i Hi; rewrite ?Z.add_0_r; done].
  apply u_is_i; [lia|]. eapply is_u_mono; [|apply wrap_is_u; lia]. lia.
Qed.
Lemma z3_sign_extend_ok t x k : 1 <= k <= 128 → den t 128 x →
  ∃ t', z3_sign_extend k t = Ok t' ∧ den t' 128 (wrap 128 (swrap k x)).
Proof using L.
  intros Hk Ht. unfold z3_sign_extend. rewrite (sub_u_ok 32 k 1), M_bind_Ok by (unfold is_u; lia).
  rewrite (sub_u_ok 32 128 k), M_bind_Ok by (unfold is_u; lia). eexists. split; [done|].
  eapply den_eq; [apply (den_sign_ext (128 - k)); [lia|]; apply (den_extract (k - 1) 0 t 128 x); [lia..|done]|lia|].
  replace (k - 1 - 0 + 1) with k by lia. replace (k + (128 - k)) with 128 by lia. by rewrite Z.shiftr_0_r, swrap_wrap by lia.
Qed.
Lemma swrap_i128 k x : 1 <= k <= 128 → i128 (swrap k x).
Proof. intros Hk. apply i_of_bits; [lia|]. intros i Hi. rewrite !testbit_swrap by lia. case_cmps; f_equal; lia. Qed.
Lemma sim_sign_extend k : 1 <= k <= 126 → sim1 (z3_sign_extend k) (sign_extend_op k).
Proof using L.
  intros Hk t x r [Hx Ht]. rewrite sign_extend_op_ok by lia. intros [= <-].
  destruct (z3_sign_extend_ok t _ k ltac:(lia) Ht) as (t' & -> & Ht'). eexists. split; [done|].
  eapply sim_intro; [done|apply swrap_i128; lia|]. f_equal. bitwise i Hi; try done; lia.
Qed.

(** *** Shifts *)

Lemma sim_shift_amount t y : sim t y → ∃ t', z3_crop 7 t = Ok t' ∧ den t' 128 (wrap 7 y).
Proof using L.
  intros [Hy Ht]. unfold z3_crop. destruct (z3_select_ok t _ 0 7 ltac:(lia) ltac:(lia) ltac:(lia) Ht) as (t' & -> & Ht').
  eexists. split; [done|]. by rewrite Z.shiftr_0_r, wrap_wrap_le in Ht' by lia.
Qed.
Lemma shift_amount_low y : wrap 32 y `mod` 128 = wrap 7 y ∧ wrap 7 y <? 128 = true.
Proof.
  split; [change (wrap 32 y `mod` 128) with (wrap 7 (wrap 32 y)); by rewrite wrap_wrap_le by lia|].
  apply Z.ltb_lt. apply (wrap_is_u 7 y). lia.
Qed.
Lemma sim_shl : sim2 z3_shl shl_op.
Proof using L.
  intros t u x y r [Hx Ht] Hu [= <-]. unfold z3_shl. destruct (sim_shift_amount u y Hu) as (u' & -> & Hu'). rewrite M_bind_Ok.
  eexists. split; [done|]. eapply sim_intro; [by apply den_shl|apply swrap_is_i; lia|].
  destruct (shift_amount_low y) as [E1 E2]. pose proof (wrap_is_u 7 y ltac:(lia)) as [Hk _].
  unfold sem_shl, wrapping_shl_i. rewrite E1, E2. bitwise i Hi; done.
Qed.
Lemma sim_shr : sim2 z3_shr shr_op.
Proof using L.
  intros t u x y r [Hx Ht] Hu [= <-]. unfold z3_shr. destruct (sim_shift_amount u y Hu) as (u' & -> & Hu'). rewrite M_bind_Ok.
  destruct (shift_amount_low y) as [E1 E2]. pose proof (wrap_is_u 7 y ltac:(lia)) as [Hk _].
  eexists. split; [done|]. eapply sim_intro; [by apply den_ashr|unfold wrapping_shr_i; rewrite E1; by apply is_i_shiftr|].
  unfold sem_ashr, wrapping_shr_i. rewrite E1, E2, swrap_wrap, swrap_small by (done || lia). done.
Qed.

(** *** Division *)

Lemma sim_guarded (f : BV → BV → BV) t u y z : sim u y → get_size (f t u) = 128 →
  (y ≠ 0 → den (f t u) 128 z) → ∃ t', z3_guarded f t u = Ok t' ∧ den t' 128 (if y =? 0 then 0 else z).
Proof using L.
  intros Hu Hs Hf. unfold z3_guarded. eexists. split; [done|]. pose proof (den_u64 0 128 ltac:(lia)) as H0. change (wrap 128 0) with 0 in H0.
  pose proof (sim_zero _ _ Hu) as E. destruct Hu as [Hy Hu].
  eapply den_eq; [apply (den_ite _ _ _ 128 0 (bv_val (f t u))); [done|by split]|done|].
  rewrite (val_eq _ _ _ _ _ Hu H0), E. destruct (Z.eqb_spec y 0) as [|Hne]; [done|]. by apply Hf.
Qed.
Lemma sim_div : sim2 z3_div div_op.
Proof using L.
  intros t u x y r Ht Hu Hr. destruct (sim_guarded bvsdiv t u y (sem_sdiv 128 (wrap 128 x) (wrap 128 y)) Hu) as (t' & Ht' & Hd).
  - destruct Ht as [_ [Es _]], Hu as [_ [Eu _]]. rewrite law_sdiv_size; congruence.
  - intros Hy. apply den_sdiv; [|apply Ht|apply Hu]. intros E. apply Hy. apply Z.eqb_eq. rewrite <- (sim_zero _ _ Hu). by apply Z.eqb_eq.
  - exists t'. split; [exact Ht'|]. eapply sim_intro; [exact Hd|by eapply div_closed|]. injection Hr as <-.
    destruct (y =? 0); [done|]. unfold sem_sdiv. by rewrite (sim_swrap t x), (sim_swrap u y), wrap_swrap by (done || lia).
Qed.
Lemma sim_rem : sim2 z3_rem rem_op.
Proof using L.
  intros t u x y r Ht Hu Hr. destruct (sim_guarded bvsrem t u y (sem_srem 128 (wrap 128 x) (wrap 128 y)) Hu) as (t' & Ht' & Hd).
  - destruct Ht as [_ [Es _]], Hu as [_ [Eu _]]. rewrite law_srem_size; congruence.
  - intros Hy. apply den_srem; [|apply Ht|apply Hu]. intros E. apply Hy. apply Z.eqb_eq. rewrite <- (sim_zero _ _ Hu). by apply Z.eqb_eq.
  - exists t'. split; [exact Ht'|]. eapply sim_intro; [exact Hd|eapply rem_closed; [apply Ht|done]|]. injection Hr as <-.
    destruct (y =? 0); [done|]. unfold sem_srem. by rewrite (sim_swrap t x), (sim_swrap u y) by done.
Qed.
Lemma sim_unsigned (f : BV → BV → BV) (g : Z → Z → Z → Z) (h : Z → Z → Z) :
  (∀ t u x y, den t 128 x → den u 128 y → den (f t u) 128 (g 128 x y)) → (∀ x y, y ≠ 0 → g 128 x y = h x y) →
  sim2 (z3_guarded f) (λ a b, let a := wrap 128 a in let b := wrap 128 b in Ok (if b =? 0 then 0 else swrap 128 (h a b))).
Proof using L.
  intros Hf Hg t u x y r Ht Hu Hr. cbv zeta in Hr. rewrite (sim_zero _ _ Hu) in Hr. injection Hr as <-.
  pose proof (Hf _ _ _ _ (proj2 Ht) (proj2 Hu)) as Hd. destruct (sim_guarded f t u y _ Hu (proj1 Hd) (λ _, Hd)) as (t' & Ht' & Hd').
  exists t'. split; [exact Ht'|]. eapply sim_intro; [exact Hd'| |].
  - destruct (y =? 0); [by apply i128_small|apply swrap_is_i; lia].
  - pose proof (sim_zero _ _ Hu) as E. destruct (Z.eqb_spec y 0); [done|]. apply Z.eqb_neq in E. rewrite wrap_swrap by lia.
    rewrite <- Hg by done. symmetry. apply wrap_small. by apply (den_range _ _ _ Hd).
Qed.
Lemma sim_div_unsigned : sim2 z3_div_unsigned unsigned_div_op.
Proof using L.
  apply (sim_unsigned bvudiv sem_udiv Z.div); [intros; by apply den_udiv|]. intros x y Hy. unfold sem_udiv. apply Z.eqb_neq in Hy. by rewrite Hy.
Qed.
Lemma sim_rem_unsigned : sim2 z3_rem_unsigned unsigned_rem_op.
Proof using L.
  apply (sim_unsigned bvurem sem_urem Z.modulo); [intros; by apply den_urem|]. intros x y Hy. unfold sem_urem. apply Z.eqb_neq in Hy. by rewrite Hy.
Qed.

(** *** Comparisons *)

Lemma sim_if_zero t u v x y z r : sim t x → sim u y → sim v z → if_zero_op x y z = Ok r → ∃ t', z3_if_zero t u v = Ok t' ∧ sim t' r.
Proof using L.
  intros Ht [Hy Hu] [Hz Hv] [= <-]. eexists. split; [done|]. pose proof (den_i64 0 128 ltac:(lia)) as H0. change (wrap 128 0) with 0 in H0.
  eapply sim_intro; [by apply den_ite|by case_match|]. rewrite (val_eq _ _ _ _ _ (proj2 Ht) H0), (sim_zero _ _ Ht). by destruct (x =? 0).
Qed.
Lemma sim_is_zero : sim1 z3_is_zero is_zero_op.
Proof using L.
  intros t x r Ht [= <-]. unfold z3_is_zero. assert (∀ b, sim (bv_from_i64 (bool_as_i128 b) 128) (bool_as_i128 b)) as Hb.
  { intros b. split; [apply i128_bool|]. apply den_i64. lia. }
  eapply sim_if_zero; [done|apply (Hb true)|apply (Hb false)|done].
Qed.
Lemma sim_cmp_lt : sim2 z3_cmp_lt cmp_lt_op.
Proof using L.
  intros t u x y r Ht Hu [= <-]. eexists. split; [done|].
  eapply sim_intro; [apply den_ite; apply den_i64; lia|apply i128_bool|].
  rewrite (val_slt _ _ _ _ _ (proj2 Ht) (proj2 Hu)), (sim_swrap t x), (sim_swrap u y) by done. by destruct (x <? y).
Qed.

(** *** Counting *)

Lemma ones_wrap x : ones 128 (wrap 128 x) = ones 128 x.
Proof.
  unfold ones. apply List.filter_ext_in. intros i Hi. apply List.in_seq in Hi. rewrite testbit_wrap by lia. destruct (Z.ltb_spec (Z.of_nat i) 128); [done|lia].
Qed.
Lemma sim_count t n : den t 128 (Z.of_nat n) → (n <= 128)%nat → sim t (Z.of_nat n).
Proof. intros Ht Hn. eapply sim_intro; [done|apply i128_of_nat; lia|]. rewrite wrap_small; [done|]. split; [lia|]. apply (Z.le_lt_trans _ 128); [lia|done]. Qed.
Lemma trailing_zeros_wrap x : trailing_zeros 128 (wrap 128 x) = trailing_zeros 128 x.
Proof. unfold trailing_zeros. by rewrite ones_wrap. Qed.
Lemma leading_zeros_wrap x : leading_zeros 128 (wrap 128 x) = leading_zeros 128 x.
Proof. unfold leading_zeros. by rewrite ones_wrap. Qed.
Lemma zeros_le w x : (trailing_zeros w x <= w)%nat ∧ (leading_zeros w x <= w)%nat.
Proof.
  split; [|unfold leading_zeros; case_match; lia]. unfold trailing_zeros. destruct (ones w x) as [|i l] eqn:E; [done|].
  assert (i ∈ ones w x) as [? _]%elem_of_ones by (rewrite E; left). cbn [List.hd]. lia.
Qed.
Lemma sim_trailing_zeros : sim1 z3_trailing_zeros trailing_zeros_op.
Proof using L.
  intros t x r [Hx Ht] Hr. unfold trailing_zeros_op in Hr. apply (inj Ok) in Hr as <-. exists (count_trailing_zeros t). split; [done|].
  apply ctz_ok in Ht. rewrite trailing_zeros_wrap in Ht. apply sim_count; [done|]. apply zeros_le.
Qed.
Lemma sim_leading_zeros : sim1 z3_leading_zeros leading_zeros_op.
Proof using L.
  intros t x r [Hx Ht] Hr. unfold leading_zeros_op in Hr. apply (inj Ok) in Hr as <-. exists (count_leading_zeros t). split; [done|].
  apply clz_ok in Ht. rewrite leading_zeros_wrap in Ht. apply sim_count; [done|]. apply zeros_le.
Qed.
Lemma sim_popcount : sim1 z3_popcount popcount_op.
Proof using L.
  intros t x r [Hx Ht] Hr. apply (inj Ok) in Hr as <-. unfold z3_popcount. destruct (popcount_ok t _ _ 128 Ht) as (i & -> & Hi); [lia..|]. rewrite M_bind_Ok.
  eexists. split; [done|]. pose proof (count_ones_le 128 x). apply sim_count; [|done]. rewrite (count_ones_wrap 128 128) in Hi by lia.
  eapply den_eq; [apply den_int; lia|done|]. rewrite Hi. apply wrap_small. split; [lia|]. apply (Z.le_lt_trans _ 128); [lia|done].
Qed.
Lemma sim_parity : sim1 z3_parity parity_op.
Proof using L.
  intros t x r [Hx Ht] Hr. apply (inj Ok) in Hr as <-. unfold z3_parity. cbn [fmap list_fmap reduce unwrap foldl]. rewrite M_bind_Ok. eexists. split; [done|].
  assert (∀ i, 0 <= i < 8 → den (bv_extract i i t) 1 (Z.b2z (Z.testbit x i))) as Hb.
  { intros i Hi. eapply den_eq; [apply (den_bit t 128 _ i ltac:(lia) Ht)|done|]. rewrite testbit_wrap by lia. destruct (Z.ltb_spec i 128); [done|lia]. }
  eapply sim_intro.
  - eapply den_eq; [apply (den_zero_ext 127); [lia|]; apply den_not; repeat apply den_xor; apply Hb; lia|done|reflexivity].
  - apply i128_of_nat. pose proof (Nat.mod_upper_bound (count_ones 8 (wrap 8 x) + 1) 2). lia.
  - rewrite (count_ones_wrap 8 8) by done. rewrite !count_ones_S. change (count_ones 0 x) with 0%nat.
    change (Z.of_nat 0) with 0. change (Z.of_nat 1) with 1. change (Z.of_nat 2) with 2. change (Z.of_nat 3) with 3. change (Z.of_nat 4) with 4. change (Z.of_nat 5) with 5. change (Z.of_nat 6) with 6. change (Z.of_nat 7) with 7.
    destruct (Z.testbit x 0), (Z.testbit x 1), (Z.testbit x 2), (Z.testbit x 3), (Z.testbit x 4), (Z.testbit x 5), (Z.testbit x 6), (Z.testbit x 7); reflexivity.
Qed.

(** *** Masks, bytes and products *)

Lemma sim_bit_mask : sim1 z3_bit_mask bit_mask_op.
Proof using L.
  intros t x r Ht Hr. unfold bit_mask_op in Hr. apply (inj Ok) in Hr as <-. unfold z3_bit_mask.
  destruct (sim_const (-1)) as (a & -> & Ha); [done|]. rewrite M_bind_Ok.
  destruct (sim_shl a t (-1) x _ Ha Ht eq_refl) as (b & -> & Hb). rewrite M_bind_Ok.
  destruct (sim_not b _ _ Hb eq_refl) as (c & -> & Hc). rewrite M_bind_Ok. eexists. split; [done|].
  pose proof (val_sge _ _ _ _ _ (proj2 Ht) (den_i64 128 128 ltac:(lia))) as Hge. rewrite (sim_swrap t x) in Hge by done.
  change (swrap 128 (wrap 128 128)) with 128 in Hge.
  eapply sim_intro; [apply den_ite; [apply Ha|apply Hc]|case_match; [done|apply swrap_is_i; lia]|]. rewrite Hge. destruct (128 <=? x); [done|].
  destruct (shift_amount_low x) as [E _]. pose proof (wrap_is_u 7 x ltac:(lia)) as [H1 H2]. unfold wrapping_shl_i. rewrite E.
  assert (swrap 128 (swrap 128 (Z.shiftl 1 (wrap 7 x)) - 1) = swrap 128 (Z.shiftl 1 (wrap 7 x) + -1)) as ->.
  { replace (swrap 128 (Z.shiftl 1 (wrap 7 x)) - 1) with (swrap 128 (Z.shiftl 1 (wrap 7 x)) + swrap 128 (-1)) by (change (swrap 128 (-1)) with (-1); lia).
    apply swrap_add. lia. }
  rewrite wrap_swrap by lia. replace (Z.shiftl 1 (wrap 7 x) + -1) with (Z.lnot (Z.shiftl (-1) (wrap 7 x))).
  - bitwise i Hi; done.
  - rewrite !Z.shiftl_mul_pow2 by lia. unfold Z.lnot. lia.
Qed.

Lemma z3_swap_bytes_ok t x n : 1 <= n <= 128 → den t 128 x →
  ∃ t', z3_swap_bytes n t = Ok t' ∧ den t' 128 (swap_bytes (bytes_for n) x).
Proof using L.
  intros Hn Ht. unfold z3_swap_bytes. apply swap_to_128_ok; [done|].
  assert (1 <= (n + 7) `div` 8 <= 16) by (Z.to_euclidean_division_equations; lia). unfold bytes_for. lia.
Qed.

Lemma sim_carryless_mul : sim2 z3_carryless_mul carryless_mul_op.
Proof using L.
  intros t u x y r [Hx Ht] [Hy Hu] Hr. unfold z3_carryless_mul. eexists. split; [done|].
  pose proof (carryless_mul_closed _ _ _ Hr) as Hc. unfold carryless_mul_op in Hr. apply (inj Ok) in Hr as <-.
  split; [done|]. clear Hc. assert (∀ n, (n <= 128)%nat → den (foldl (z3_carryless_step t u) (bv_from_i64 0 128) (seq 0 n)) 128
    (wrap 128 (foldl (carryless_mul_step x y) 0 (seq 0 n)))) as H; [|by apply H].
  induction n as [|n IH]; intros Hn; [apply den_i64; lia|]. rewrite !foldl_seq_S. unfold z3_carryless_step at 1, carryless_mul_step at 1.
  set (r := foldl (carryless_mul_step x y) 0 (seq 0 n)) in *. rewrite land_1_nonzero by lia.
  pose proof (den_bit t 128 _ (Z.of_nat n) ltac:(lia) Ht) as Hbit. rewrite testbit_wrap in Hbit by lia.
  destruct (Z.ltb_spec (Z.of_nat n) 128) as [_|]; [cbn [andb] in Hbit|lia].
  eapply den_eq; [eapply den_xor; [apply IH; lia|]; eapply den_and; [eapply (den_shl _ _ _ _ _ Hu); apply den_i64; lia|eapply den_ite; apply den_i64; lia]|done|].
  rewrite (val_eq _ _ _ _ _ Hbit (den_i64 1 1 ltac:(lia))). rewrite (wrap_small 128 (Z.of_nat n)) by (split; [lia|]; apply (Z.lt_trans _ 128); [lia|done]).
  unfold sem_shl. destruct (Z.ltb_spec (Z.of_nat n) 128) as [_|]; [|lia]. change (wrap 1 1) with 1.
  destruct (Z.testbit x (Z.of_nat n)); cbn [Z.b2z Z.eqb Pos.eqb]; change (wrap 128 0) with 0; [|by rewrite Z.land_0_r, Z.lxor_0_r].
  bitwise i Hi; done.
Qed.

Lemma sim_rol n : 1 <= n <= 127 → sim2 (z3_rol n) (λ a b, compute_rol a b n).
Proof using L.
  intros Hn t u x y r [Hx Ht] [Hy Hu] Hr. pose proof (compute_rol_closed _ _ _ _ Hr Hx) as Hc. rewrite compute_rol_ok in Hr by done. apply (inj Ok) in Hr.
  unfold z3_rol. rewrite (sub_u_ok 32 n 1), M_bind_Ok by (unfold is_u; lia).
  pose proof (den_extract (n - 1) 0 _ 128 _ ltac:(lia) ltac:(lia) Ht) as Hval. replace (n - 1 - 0 + 1) with n in Hval by lia.
  rewrite Z.shiftr_0_r, wrap_wrap_le in Hval by lia. pose proof (den_extract 31 0 _ 128 _ ltac:(lia) ltac:(lia) Hu) as Hamt.
  change (31 - 0 + 1) with 32 in Hamt. rewrite Z.shiftr_0_r, wrap_wrap_le in Hamt by lia.
  pose proof (den_urem _ _ _ _ _ Hamt (den_u64 n 32 ltac:(lia))) as Hm. unfold sem_urem in Hm. rewrite (wrap_small 32 n) in Hm by (unfold is_u; lia).
  destruct (Z.eqb_spec n 0) as [|_]; [lia|]. set (m := wrap 32 y `mod` n) in *. pose proof (Z.mod_pos_bound (wrap 32 y) n ltac:(lia)) as Hmn. fold m in Hmn.
  assert (m < 2 ^ n) as Hpow by (pose proof (Z.pow_gt_lin_r 2 n); lia).
  set (amount := bvurem _ _) in *. assert (∃ a, (if 32 <? n then (k ← sub_u 32 n 32; Ok (zero_ext k amount)) else (hi ← Ok (n - 1); Ok (bv_extract hi 0 amount))) = Ok a ∧ den a n m) as (a & -> & Ha).
  { destruct (Z.ltb_spec 32 n).
    - rewrite sub_u_ok, M_bind_Ok by (unfold is_u; lia). eexists. split; [done|]. eapply den_eq; [apply (den_zero_ext (n - 32) _ _ _ ltac:(lia) Hm)|lia|done].
    - rewrite M_bind_Ok. eexists. split; [done|].
      eapply den_eq; [apply (den_extract (n - 1) 0 _ 32 _ ltac:(lia) ltac:(lia) Hm)|lia|]. rewrite Z.shiftr_0_r.
      replace (n - 1 - 0 + 1) with n by lia. apply wrap_small. split; lia. }
  rewrite M_bind_Ok, (proj1 Hval), (proj1 Ha), Z.eqb_refl. cbn [rassert]. rewrite M_bind_Ok, sub_u_ok, M_bind_Ok by (unfold is_u; lia).
  eexists. split; [done|]. eapply sim_intro; [eapply den_eq; [apply (den_zero_ext (128 - n)); [lia|]; by apply den_rotl|lia|reflexivity]|done|].
  rewrite <- Hr. unfold sem_rotl, wrapping_shl_i. rewrite (Z.mod_small m n), (Z.mod_small m 128) by lia. bitwise i Hi; done.
Qed.

(** *** Selected bits *)

Lemma deposit_top source : deposit_bits_op source (- 2 ^ 127) = Panic ∨ deposit_bits_op source (- 2 ^ 127) = OutOfFuel.
Proof.
  unfold deposit_bits_op, deposit_bits_u128. change (wrap 128 (- 2 ^ 127)) with (2 ^ 127).
  destruct (deposit_bits_u128_top_selector (wrap 128 source)) as [H1 H2]. destruct P; [left|right].
  - unfold deposit_bits_u128 in H1. by rewrite H1.
  - by rewrite H2.
Qed.
Lemma sim_deposit_bits : sim2 z3_deposit_bits deposit_bits_op.
Proof using L.
  intros t u x y r [Hx Ht] [Hy Hu] Hr. assert (y ≠ - 2 ^ 127) as Hne by (intros ->; destruct (deposit_top x); congruence).
  destruct (deposit_op_bits y Hy Hne x Hx) as (v & Hv & Hu128 & Hb). rewrite Hv in Hr. apply (inj Ok) in Hr as <-.
  destruct (deposit_bits_ok t u _ _ Ht Hu) as (t' & w & Ht' & Hd & Hw). exists t'. split; [done|].
  eapply sim_intro; [done|apply swrap_is_i; lia|]. rewrite wrap_swrap, wrap_small by (done || lia).
  apply (u_ext 128); [lia|by apply (den_range _ _ _ Hd)|done|]. intros i Hi. rewrite <- (Z2Nat.id i) by lia. rewrite Hw, Hb by lia. unfold pdep_bit.
  rewrite (count_ones_wrap (Z.to_nat i) 128), !testbit_wrap by lia. pose proof (count_ones_le (Z.to_nat i) y).
  destruct (Z.ltb_spec (Z.of_nat (Z.to_nat i)) 128); [|lia]. destruct (Z.ltb_spec (Z.of_nat (count_ones (Z.to_nat i) y)) 128); [done|lia].
Qed.
Lemma extract_top fuel source dest d r : extract_bits_loop fuel source (2 ^ 127) dest d ≠ Ok r.
Proof.
  assert (Z.of_nat (trailing_zeros 128 (2 ^ 127)) = 127) as Htz by reflexivity.
  revert source dest d. induction fuel as [|fuel IH]; intros source dest d; [done|]. rewrite extract_bits_loop_S, Htz by done.
  rewrite (shr_ok 128 source), M_bind_Ok by lia. destruct P; [done|]. assert (shr (P:=Release) 128 (2 ^ 127) (127 + 1) = Ok (2 ^ 127)) as -> by reflexivity.
  rewrite M_bind_Ok, shr_ok, M_bind_Ok by lia. destruct (shl_u_release 128 (Z.land (Z.shiftr source 127) 1) d) as [b ->].
  destruct (add_u_release 32 d 1) as [d' ->]. rewrite !M_bind_Ok. apply IH.
Qed.
Lemma sim_extract_bits : sim2 z3_extract_bits extract_bits_op.
Proof using L.
  intros t u x y r [Hx Ht] [Hy Hu] Hr. assert (y ≠ - 2 ^ 127) as Hne.
  { intros ->. unfold extract_bits_op in Hr. change (wrap 128 (- 2 ^ 127)) with (2 ^ 127) in Hr.
    destruct (extract_bits_loop _ _ _ _ _) eqn:E in Hr; [|done..]. by eapply extract_top. }
  destruct (extract_bits_op_bits x y Hy Hne) as (v & Hv & Hu128 & Hb). rewrite Hv in Hr. apply (inj Ok) in Hr as <-.
  destruct (extract_bits_ok t u _ _ Ht Hu) as (t' & w & Ht' & Hd & Hw). exists t'. split; [done|].
  eapply sim_intro; [done|apply swrap_is_i; lia|]. rewrite wrap_swrap, wrap_small by (done || lia).
  apply (u_ext 128); [lia|by apply (den_range _ _ _ Hd)|done|]. intros i Hi. rewrite <- (Z2Nat.id i) by lia. by rewrite Hw, Hb by lia.
Qed.
End ops.
