(* ===== verification/CodegenFacts.v ===== *)
(** * The translation of computations is correct

    The loop that removes pairs of byte swaps ends.  The bit vector generated for a
    computation has, in every model of the inputs, the value that evaluating the
    computation gives, for the operations on which the two agree; the others are listed
    with examples of how they differ. *)
From stdpp Require Import strings.
From S2P Require Import Prelude MachInt Utils Ops OpsFacts Expr ExprFacts Value Computation ComputationFacts CombineFacts.
From S2P Require Import Smt SmtFacts Codegen SmtCodegen SmtCodegenFacts.

(** ** Pairs of byte swaps *)

Lemma remove_pair_length ops : ∀ ops', remove_pair ops = Some ops' → length ops = (length ops' + 2)%nat.
Proof.
  induction ops as [|o ops IH]; intros ops' H; [done|]. cbn [remove_pair] in H.
  assert (∀ l, cons o <$> remove_pair ops = Some l → length (o :: ops) = (length l + 2)%nat) as Hrec.
  { intros l (l' & Hl & ->)%fmap_Some. cbn. apply IH in Hl. lia. }
  destruct o as [n|n|n]; [by apply Hrec| |by apply Hrec]. destruct ops as [|[m|m|m] rest]; [done|by apply Hrec| |by apply Hrec].
  destruct (Z.eqb_spec n m); [|by apply Hrec]. injection H as <-. cbn. lia.
Qed.
Lemma optimize_ends fuel ops : (length ops < fuel)%nat → ∃ ops', optimize_operations fuel ops = Ok ops' ∧ remove_pair ops' = None.
Proof.
  revert ops. induction fuel as [|fuel IH]; intros ops Hf; [lia|]. cbn [optimize_operations]. destruct (remove_pair ops) as [ops'|] eqn:E; [|by exists ops].
  apply remove_pair_length in E. apply IH. lia.
Qed.

Section term.
Context {S : SmtSolver} {L : SmtLaws S} {P : profile} (self : Z3CodeGen).
#[local] Instance G : CodeGenerator := Z3CodeGen_generator self.

(** What pending operations do to the unsigned value of a term. *)
Definition op_val (v : Z) (op : TermOp) : Z :=
  match op with
  | TCrop n => wrap n v
  | TSwapBytes n => swap_bytes (bytes_for n) v
  | TSignExtend n => wrap 128 (swrap n v)
  end.
Definition ops_val (v : Z) (ops : list TermOp) : Z := foldl op_val v ops.
(** Byte swaps are applied to values that have no other bytes. *)
Fixpoint fit (v : Z) (ops : list TermOp) : Prop :=
  match ops with
  | [] => True
  | op :: ops =>
      match op with
      | TCrop _ => False
      | TSwapBytes n => 1 <= n <= 128 ∧ is_u (8 * Z.of_nat (bytes_for n)) v
      | TSignExtend n => 1 <= n <= 128
      end ∧ fit (op_val v op) ops
  end.
Lemma remove_pair_val ops : ∀ v ops', remove_pair ops = Some ops' → fit v ops → fit v ops' ∧ ops_val v ops' = ops_val v ops.
Proof.
  induction ops as [|o ops IH]; intros v ops' H Hf; [done|]. destruct Hf as [Ho Hf]. cbn [remove_pair] in H.
  assert (∀ l, remove_pair ops = Some l → fit v (o :: l) ∧ ops_val v (o :: l) = ops_val v (o :: ops)) as Hrec.
  { intros l Hl. destruct (IH (op_val v o) l Hl Hf) as [H1 H2]. by split. }
  destruct o as [n|n|n]; [by apply fmap_Some in H as (l & Hl & ->); apply Hrec| |by apply fmap_Some in H as (l & Hl & ->); apply Hrec].
  destruct ops as [|[m|m|m] rest]; [done|by apply fmap_Some in H as (l & Hl & ->); apply Hrec| |by apply fmap_Some in H as (l & Hl & ->); apply Hrec].
  destruct (Z.eqb_spec n m) as [<-|]; [|by apply fmap_Some in H as (l & Hl & ->); apply Hrec]. injection H as <-.
  cbn [fit op_val] in Hf. destruct Hf as [_ Hf]. cbn [ops_val foldl op_val]. rewrite swap_bytes_invol, wrap_small in Hf |- * by apply Ho. done.
Qed.
Lemma optimize_val fuel ops v : (length ops < fuel)%nat → fit v ops →
  ∃ ops', optimize_operations fuel ops = Ok ops' ∧ fit v ops' ∧ ops_val v ops' = ops_val v ops.
Proof.
  revert ops. induction fuel as [|fuel IH]; intros ops Hl Hf; [lia|]. cbn [optimize_operations]. destruct (remove_pair ops) as [ops'|] eqn:E; [|by exists ops].
  pose proof (remove_pair_length _ _ E). destruct (remove_pair_val _ _ _ E Hf) as [H1 <-]. apply IH; [lia|done].
Qed.
Lemma apply_all_ok ops : ∀ t v, den t 128 v → fit v ops → ∃ t', apply_all ops t = Ok t' ∧ den t' 128 (ops_val v ops).
Proof using L.
  induction ops as [|o ops IH]; intros t v Ht Hf; [by exists t|]. destruct Hf as [Ho Hf]. cbn [apply_all].
  assert (∃ u, apply o t = Ok u ∧ den u 128 (op_val v o)) as (u & -> & Hu).
  { destruct o as [n|n|n]; [done|apply z3_swap_bytes_ok; [apply Ho|done]|apply z3_sign_extend_ok; done]. }
  rewrite M_bind_Ok. by apply IH.
Qed.

(** A term for an [i128]. *)
Definition term_sim (tm : Term T) (x : Z) : Prop :=
  i128 x ∧ ∃ u, den (term_data tm : BV) 128 u ∧ fit u (operations tm) ∧ ops_val u (operations tm) = wrap 128 x.
Lemma term_sim_simple t x : sim t x → term_sim (simple t) x.
Proof. intros [Hx Ht]. split; [done|]. by exists (wrap 128 x). Qed.
Lemma term_unwrap_ok tm x : term_sim tm x → ∃ t, term_unwrap tm = Ok t ∧ sim t x.
Proof using L.
  intros [Hx (u & Hd & Hf & Hv)]. unfold term_unwrap. destruct (optimize_val (Datatypes.S (length (operations tm))) (operations tm) u) as (ops' & -> & Hf' & Hv'); [lia|done|].
  rewrite M_bind_Ok. destruct (apply_all_ok ops' _ u Hd Hf') as (t & Ht & Hdt). exists t. split; [done|]. split; [done|]. by rewrite <- Hv, <- Hv'.
Qed.
Lemma fit_app ops ops' v : fit v (ops ++ ops') ↔ fit v ops ∧ fit (ops_val v ops) ops'.
Proof. revert v. induction ops as [|o ops IH]; intros v; cbn [app fit ops_val foldl]; [naive_solver|]. rewrite IH. unfold ops_val. naive_solver. Qed.

(** *** One operation *)

Lemma apply_fn1_ok g f tm x r : sim1 g f → term_sim tm x → f x = Ok r → ∃ tm', apply_fn1 g [tm] = Ok tm' ∧ term_sim tm' r.
Proof using L.
  intros Hg Ht Hr. unfold apply_fn1. cbn [remove_first]. rewrite M_bind_Ok. destruct (term_unwrap_ok tm x Ht) as (t & -> & Hs). rewrite M_bind_Ok.
  destruct (Hg t x r Hs Hr) as (t' & -> & Hs'). eexists. split; [done|]. by apply term_sim_simple.
Qed.
Lemma apply_fn2_ok g f tm um x y r : sim2 g f → term_sim tm x → term_sim um y → f x y = Ok r →
  ∃ tm', apply_fn2 g [tm; um] = Ok tm' ∧ term_sim tm' r.
Proof using L.
  intros Hg Ht Hu Hr. unfold apply_fn2. cbn [remove_first]. rewrite M_bind_Ok. destruct (term_unwrap_ok tm x Ht) as (t & -> & Hs). rewrite M_bind_Ok. cbn [remove_first]. rewrite M_bind_Ok.
  destruct (term_unwrap_ok um y Hu) as (u & -> & Hs2). rewrite M_bind_Ok.
  destruct (Hg t u x y r Hs Hs2 Hr) as (t' & -> & Hs'). eexists. split; [done|]. by apply term_sim_simple.
Qed.
Lemma apply_fn3_ok tm um vm x y z r : term_sim tm x → term_sim um y → term_sim vm z → if_zero_op x y z = Ok r →
  ∃ tm', apply_fn3 g_if_zero [tm; um; vm] = Ok tm' ∧ term_sim tm' r.
Proof using L.
  intros Ht Hu Hv Hr. unfold apply_fn3. cbn [remove_first]. rewrite M_bind_Ok. destruct (term_unwrap_ok tm x Ht) as (t & -> & Hs). rewrite M_bind_Ok. cbn [remove_first]. rewrite M_bind_Ok.
  destruct (term_unwrap_ok um y Hu) as (u & -> & Hs2). rewrite M_bind_Ok. cbn [remove_first]. rewrite M_bind_Ok. destruct (term_unwrap_ok vm z Hv) as (v & -> & Hs3). rewrite M_bind_Ok.
  destruct (sim_if_zero _ _ _ _ _ _ _ Hs Hs2 Hs3 Hr) as (t' & Ht' & Hs'). exists (simple t'). split; [by cbn [g_if_zero G Z3CodeGen_generator]; rewrite Ht'|]. by apply term_sim_simple.
Qed.
(** Sixteen bytes are swapped alike; fewer are sign-extended when the expression is
    evaluated, and zero-extended here. *)
Lemma push_swap_ok n tm x r : 121 <= n <= 128 → term_sim tm x → swap_bytes_op n x = Ok r → term_sim (push_operation tm (TSwapBytes n)) r.
Proof.
  intros Hn [Hx (u & Hd & Hf & Hv)] Hr. pose proof (swap_bytes_closed _ _ _ Hr) as Hc. rewrite swap_bytes_op_ok in Hr by lia.
  assert (bytes_for n = 16%nat) as E by (unfold bytes_for; assert ((n + 7) `div` 8 = 16) as -> by (Z.to_euclidean_division_equations; lia); done).
  apply (inj Ok) in Hr as <-. rewrite E in Hc |- *. split; [done|]. exists u. split; [done|]. cbn [push_operation operations]. split.
  - apply fit_app. split; [done|]. split; [|done]. split; [lia|]. rewrite E, Hv. apply wrap_is_u. lia.
  - unfold ops_val. rewrite foldl_app. fold (ops_val u (operations tm)). rewrite Hv. cbn [foldl op_val]. rewrite E.
    change (8 * Z.of_nat 16) with 128. rewrite wrap_swrap by lia. rewrite (wrap_small 128 (swap_bytes 16 x)) by apply (swap_bytes_is_u 16).
    apply (u_ext 128); [lia|apply (swap_bytes_is_u 16)..|]. intros i Hi. rewrite !testbit_swap_bytes by lia. rewrite testbit_wrap by lia.
    destruct (Z.ltb_spec (8 * (Z.of_nat 16 - 1 - i `div` 8) + i `mod` 8) 128); [done|Z.to_euclidean_division_equations; lia].
Qed.

(** *** Expressions *)

(** The operations whose bit vectors agree with their evaluation: every width for
    which [Crop] and its like do not overflow, rotations of less than 128 bits, byte
    swaps of all bytes, and no [ByteMask]. *)
Fixpoint smt_ok (e : FastOp) : bool :=
  match e with
  | Val _ | ByteMaskOp _ => false
  | HoleOp _ => true
  | ConstOp v => bool_decide (is_i 8 v)
  | CropOp n v | SignExtendOp n v => (1 <=? n) && (n <=? 126) && smt_ok v
  | SelectOp s k v => (0 <=? s) && (1 <=? k) && (k <=? 126) && (s + k <=? 128) && smt_ok v
  | SwapBytesOp n v => (121 <=? n) && (n <=? 128) && smt_ok v
  | NotOp v | ParityOp v | IsZeroOp v | BitMaskOp v | TrailingZerosOp v | LeadingZerosOp v | PopCountOp v => smt_ok v
  | AddOp v w | SubOp v w | MulOp v w | CarrylessMulOp v w | DivOp v w | UnsignedDivOp v w | RemOp v w | UnsignedRemOp v w
  | ShlOp v w | ShrOp v w | AndOp v w | OrOp v w | XorOp v w | CmpLtOp v w | DepositBitsOp v w | ExtractBitsOp v w => smt_ok v && smt_ok w
  | RolOp n v w => (1 <=? n) && (n <=? 127) && smt_ok v && smt_ok w
  | IfZeroOp c z nz => smt_ok c && smt_ok z && smt_ok nz
  end.

Context (ai : list Arg) (cs : list Z).
(** Code that pushes a term for the value of [m]. *)
Definition compiles (l : list Op) (m : M Z) : Prop :=
  ∀ x, m = Ok x → ∃ tm, term_sim tm x ∧ ∀ rest stack, codegen_loop ai cs (l ++ rest) stack = codegen_loop ai cs rest (stack ++ [tm]).

Lemma codegen_step op l tm rest stack : length l = num_args op → codegen_op ai cs op l = Ok tm →
  codegen_loop ai cs (op :: rest) (stack ++ l) = codegen_loop ai cs rest (stack ++ [tm]).
Proof.
  intros Hl Hop. cbn [codegen_loop]. unfold drain. rewrite <- Hl, length_app. destruct (Nat.leb_spec (length l) (length stack + length l)); [|lia].
  rewrite M_bind_Ok. replace (length stack + length l - length l)%nat with (length stack) by lia.
  rewrite take_app_length, drop_app_length, Hop. done.
Qed.
Lemma compiles_leaf op m : num_args op = 0%nat → (∀ x, m = Ok x → ∃ tm, term_sim tm x ∧ codegen_op ai cs op [] = Ok tm) → compiles [op] m.
Proof.
  intros Hn Hop x Hx. destruct (Hop x Hx) as (tm & Ht & Hc). exists tm. split; [done|]. intros rest stack.
  rewrite <- (codegen_step op [] tm rest stack) by done. by rewrite app_nil_r.
Qed.
Lemma compiles1 op l m f : num_args op = 1%nat → (∀ tm x r, term_sim tm x → f x = Ok r → ∃ tm', codegen_op ai cs op [tm] = Ok tm' ∧ term_sim tm' r) →
  compiles l m → compiles (l ++ [op]) (un f m).
Proof.
  intros Hn Hop Hl r Hr. unfold un in Hr. destruct m as [x| |] eqn:Em; [|done..]. rewrite M_bind_Ok in Hr.
  destruct (Hl x eq_refl) as (tm & Ht & Hc). destruct (Hop tm x r Ht Hr) as (tm' & Hop' & Ht'). exists tm'. split; [done|].
  intros rest stack. rewrite <- app_assoc, Hc. by apply codegen_step.
Qed.
Lemma compiles2 op l l' m m' f : num_args op = 2%nat →
  (∀ tm um x y r, term_sim tm x → term_sim um y → f x y = Ok r → ∃ tm', codegen_op ai cs op [tm; um] = Ok tm' ∧ term_sim tm' r) →
  compiles l m → compiles l' m' → compiles (l ++ l' ++ [op]) (bin f m m').
Proof.
  intros Hn Hop Hl Hl' r Hr. unfold bin in Hr. destruct m as [x| |]; [|done..]. rewrite M_bind_Ok in Hr. destruct m' as [y| |]; [|done..]. rewrite M_bind_Ok in Hr.
  destruct (Hl x eq_refl) as (tm & Ht & Hc). destruct (Hl' y eq_refl) as (um & Hu & Hc').
  destruct (Hop tm um x y r Ht Hu Hr) as (tm' & Hop' & Ht'). exists tm'. split; [done|].
  intros rest stack. rewrite <- !app_assoc, Hc, Hc', <- (app_assoc stack). by apply codegen_step.
Qed.
Lemma compiles3 l l' l'' m m' m'' : compiles l m → compiles l' m' → compiles l'' m'' →
  compiles (l ++ l' ++ l'' ++ [IfZero]) (c ← m; z ← m'; nz ← m''; if_zero_op c z nz).
Proof using L.
  intros Hl Hl' Hl'' r Hr. destruct m as [x| |]; [|done..]. rewrite M_bind_Ok in Hr. destruct m' as [y| |]; [|done..]. rewrite M_bind_Ok in Hr.
  destruct m'' as [z| |]; [|done..]. rewrite M_bind_Ok in Hr. destruct (Hl x eq_refl) as (tm & Ht & Hc). destruct (Hl' y eq_refl) as (um & Hu & Hc').
  destruct (Hl'' z eq_refl) as (vm & Hv & Hc''). destruct (apply_fn3_ok tm um vm x y z r Ht Hu Hv Hr) as (tm' & Hop' & Ht').
  exists tm'. split; [done|]. intros rest stack. rewrite <- !app_assoc, Hc, Hc', Hc'', <- !(app_assoc stack). by apply codegen_step.
Qed.
Lemma compiles_sim1 op l m g f : num_args op = 1%nat → (∀ args, codegen_op ai cs op args = apply_fn1 g args) → sim1 g f →
  compiles l m → compiles (l ++ [op]) (un f m).
Proof using L. intros Hn Hop Hg. apply compiles1; [done|]. intros tm x r Ht Hr. rewrite Hop. by eapply apply_fn1_ok. Qed.
Lemma compiles_sim2 op l l' m m' g f : num_args op = 2%nat → (∀ args, codegen_op ai cs op args = apply_fn2 g args) → sim2 g f →
  compiles l m → compiles l' m' → compiles (l ++ l' ++ [op]) (bin f m m').
Proof using L. intros Hn Hop Hg. apply compiles2; [done|]. intros tm um x y r Ht Hu Hr. rewrite Hop. by eapply apply_fn2_ok. Qed.

(** Select the lemma of an operation. *)
Ltac by_sim1 op g f H := apply (compiles_sim1 op _ _ g f); [reflexivity|intros; reflexivity|first [exact H|apply H; lia]|assumption].
Ltac by_sim2 op g f H := apply (compiles_sim2 op _ _ _ _ g f); [reflexivity|intros; reflexivity|first [exact H|apply H; lia]|assumption..].
Lemma compiles_tree e args : (∀ n, Hole n ∈ postfix e → compiles [Hole n] (args n)) → smt_ok e = true → compiles (postfix e) (compute e args).
Proof using L.
  induction e; cbn [smt_ok postfix compute]; intros Hh He; rewrite ?andb_true_iff in He; destruct_and?;
    repeat match goal with H : (_ <=? _) = true |- _ => apply Z.leb_le in H end; try discriminate;
    repeat match goal with IH : _ → smt_ok ?e = true → compiles _ _ |- _ => specialize (IH (λ n Hn, Hh n ltac:(clear -Hn; rewrite !elem_of_app; tauto)) ltac:(assumption)) end.
  - apply Hh. left.
  - apply compiles_leaf; [done|]. intros x Hx. apply (inj Ok) in Hx as <-. destruct (sim_const CONST) as (t & Ht & Hs).
    { destruct (bool_decide_eq_true_1 _ He). split; [apply (Z.le_trans _ (- 2 ^ (8 - 1)))|apply (Z.lt_trans _ (2 ^ (8 - 1)))]; done. }
    exists (simple t). split; [by apply term_sim_simple|]. cbn [codegen_op leaf_const G Z3CodeGen_generator]. by rewrite Ht.
  - by_sim1 Not z3_not not_op sim_not.
  - by_sim1 (Crop NUM_BITS) (z3_crop NUM_BITS) (crop_op NUM_BITS) sim_crop.
  - by_sim1 (SignExtend NUM_BITS) (z3_sign_extend NUM_BITS) (sign_extend_op NUM_BITS) sim_sign_extend.
  - by_sim1 (Select NUM_SKIP NUM_TAKE) (z3_select NUM_SKIP NUM_TAKE) (select_op NUM_SKIP NUM_TAKE) sim_select.
  - by_sim1 Parity z3_parity parity_op sim_parity.
  - by_sim1 IsZero z3_is_zero is_zero_op sim_is_zero.
  - by_sim1 BitMask z3_bit_mask bit_mask_op sim_bit_mask.
  - by_sim1 TrailingZeros z3_trailing_zeros trailing_zeros_op sim_trailing_zeros.
  - by_sim1 LeadingZeros z3_leading_zeros leading_zeros_op sim_leading_zeros.
  - by_sim1 PopCount z3_popcount popcount_op sim_popcount.
  - apply (compiles1 _ _ _ (swap_bytes_op NUM_BITS)); [done| |assumption]. intros tm x r Ht Hr. eexists. split; [reflexivity|]. by eapply push_swap_ok.
  - by_sim2 Add z3_add add_op sim_add.
  - by_sim2 Sub z3_sub sub_op sim_sub.
  - by_sim2 Mul z3_mul mul_op sim_mul.
  - by_sim2 CarrylessMul z3_carryless_mul carryless_mul_op sim_carryless_mul.
  - by_sim2 Div z3_div div_op sim_div.
  - by_sim2 UnsignedDiv z3_div_unsigned unsigned_div_op sim_div_unsigned.
  - by_sim2 Rem z3_rem rem_op sim_rem.
  - by_sim2 UnsignedRem z3_rem_unsigned unsigned_rem_op sim_rem_unsigned.
  - by_sim2 Shl z3_shl shl_op sim_shl.
  - by_sim2 Shr z3_shr shr_op sim_shr.
  - by_sim2 And z3_and and_op sim_and.
  - by_sim2 Or z3_or or_op sim_or.
  - by_sim2 Xor z3_xor xor_op sim_xor.
  - by_sim2 CmpLt z3_cmp_lt cmp_lt_op sim_cmp_lt.
  - by_sim2 (Rol NUM_BITS) (z3_rol NUM_BITS) (λ a b, compute_rol a b NUM_BITS) sim_rol.
  - by apply compiles3.
  - by_sim2 DepositBits z3_deposit_bits deposit_bits_op sim_deposit_bits.
  - by_sim2 ExtractBits z3_extract_bits extract_bits_op sim_extract_bits.
Qed.
End term.

(** ** Computations *)

(** A value as a number with its most significant byte first, which is how the model of
    an encoding passes inputs to the generator and reads results. *)
Definition value_num (v : Value) : Z := match v with Num n => n | Bytes l => from_le_bytes (reverse l) end.

Section computation.
Context {S : SmtSolver} {L : SmtLaws S} {P : profile} (bvs : list BV) (inputs : list Value).
#[local] Notation Gz := (G (z3_new bvs)).

(** A bit vector of every input holds its value, and arguments read whole values. *)
Definition arg_ok (consts : list Z) (arg : Arg) : Prop :=
  match arg with
  | Input index nb enc => ∃ v b, inputs !! index = Some v ∧ bvs !! index = Some b ∧ den b 128 (value_num v) ∧
      match v with
      | Num n => 1 <= nb <= 64 ∧ is_u nb n
      | Bytes l => is_bytes l ∧ (1 <= length l <= 16)%nat ∧ nb = 8 * Z.of_nat (length l)
      end
  | TinyConst c => i128 c
  | ConstArg i => ∀ c, consts !! i = Some c → i128 c
  end.

Lemma bytes_for_bound nb : nb <= 8 * Z.of_nat (bytes_for nb).
Proof. unfold bytes_for. destruct (Z.le_gt_cases 0 ((nb + 7) `div` 8)); [rewrite Z2Nat.id by done|]; Z.to_euclidean_division_equations; lia. Qed.
Lemma hole_ok consts index nb enc b u x : bvs !! index = Some b → den b 128 u → 1 <= nb <= 128 → is_u (8 * Z.of_nat (bytes_for nb)) u → i128 x →
  (let w := if is_le enc then swap_bytes (bytes_for nb) u else u in wrap 128 x = if is_signed enc then wrap 128 (swrap nb w) else w) →
  ∃ tm, codegen_hole (G:=Gz) (Input index nb enc) consts = Ok tm ∧ term_sim (z3_new bvs) tm x.
Proof using L.
  intros Hb Hu Hnb Hfit Hx Hw. unfold codegen_hole.
  assert (leaf_arg (CodeGenerator:=Gz) index = Ok (simple b)) as -> by (cbn; unfold z3_leaf_arg, vget; cbn; by rewrite list_lookup_fmap, Hb). rewrite M_bind_Ok. eexists. split; [done|]. split; [done|]. exists u.
  assert (nb = 128 → ∀ w, is_u 128 w → wrap 128 (swrap nb w) = w) as H128 by (intros -> w Hw'; by rewrite wrap_swrap, wrap_small by (done || lia)).
  assert (nb = 128 → is_u 128 (swap_bytes (bytes_for nb) u)) as Hs128 by (intros ->; apply (swap_bytes_is_u 16)).
  pose proof (den_range _ _ _ Hu) as Hur.
  destruct enc, (Z.eqb_spec nb 128) as [->|Hne]; (split; [exact Hu|split; [cbn; auto 10|]]); cbv zeta in Hw;
    rewrite Hw; cbn; rewrite ?H128 by auto; done.
Qed.
Lemma compiles_hole r args : interpret_args r inputs = Ok args → (∀ arg, arg ∈ arg_interpretation r → arg_ok (consts r) arg) →
  ∀ n, compiles (z3_new bvs) (arg_interpretation r) (consts r) [Hole n] (vget args n).
Proof using L.
  intros Hargs Hok n. apply compiles_leaf; [done|]. intros x Hx%vget_Ok_inv. pose proof (mapM_length _ _ _ Hargs) as Hlen.
  destruct (lookup_lt_is_Some_2 (arg_interpretation r) n) as [arg Harg]; [apply lookup_lt_Some in Hx; lia|].
  assert (interpret_inputs arg inputs (consts r) = Ok x) as Hi by (apply mapM_Forall2 in Hargs; by eapply Forall2_lookup_lr in Hargs).
  cbn [codegen_op]. rewrite (proj2 (vget_Ok_inv _ _ arg)), M_bind_Ok by done. specialize (Hok arg ltac:(by eapply list_elem_of_lookup_2)).
  assert (∀ c, i128 c → ∃ tm, term_sim (z3_new bvs) tm c ∧ (r ← leaf_const (CodeGenerator:=Gz) c; Ok (simple r)) = Ok tm) as Hconst.
  { intros c Hc. destruct (sim_const c Hc) as (t & Ht & Hs). exists (simple t). split; [by apply term_sim_simple|]. cbn [leaf_const G Z3CodeGen_generator]. by rewrite Ht. }
  destruct arg as [index nb enc|c|i].
  - destruct Hok as (v & b & Hv & Hb & Hd & Hn). destruct v as [n'|l]; cbn [value_num] in Hd.
    + destruct Hn as [Hnb Hu]. cbn [interpret_inputs] in Hi. rewrite (proj2 (vget_Ok_inv _ _ _) Hv), M_bind_Ok, interpret_be_u64_ok in Hi by done.
      apply (inj Ok) in Hi as <-. assert (is_u (8 * Z.of_nat (bytes_for nb)) n') as Hfit by (eapply is_u_mono; [apply bytes_for_bound|done]).
      set (w := if is_le enc then swap_bytes (bytes_for nb) n' else n') in *.
      assert (is_u 127 w) as Hw.
      { unfold w. destruct (is_le enc); [|eapply is_u_mono; [|exact Hu]; lia]. eapply is_u_mono; [|apply swap_bytes_is_u]. unfold bytes_for.
        assert ((nb + 7) `div` 8 <= 8) by (Z.to_euclidean_division_equations; lia). lia. }
      destruct (hole_ok (consts r) index nb enc b n' (read_int enc nb w)) as (tm & H1 & H2); [done..|lia|done| | |by exists tm].
      * unfold read_int. destruct (is_signed enc); [apply swrap_i128; lia|by apply u_is_i].
      * fold w. cbv zeta. unfold read_int. destruct (is_signed enc); [done|]. apply wrap_small. eapply is_u_mono; [|exact Hw]. lia.
    + destruct Hn as (Hl & Hlen' & ->). rewrite (interpret_bytes index enc l) in Hi by done. apply (inj Ok) in Hi.
      pose proof (from_le_bytes_is_u _ (is_bytes_reverse _ Hl)) as Hu. rewrite length_reverse in Hu.
      assert ((if is_le enc then swap_bytes (bytes_for (8 * Z.of_nat (length l))) (from_le_bytes (reverse l)) else from_le_bytes (reverse l)) = from_le_bytes (arg_is_le enc l)) as Ew.
      { unfold arg_is_le. destruct (is_le enc); [|done]. rewrite bytes_for_8, <- (length_reverse l), swap_from_le, reverse_involutive by (by apply is_bytes_reverse). done. }
      pose proof (from_le_bytes_is_u _ (arg_is_le_bytes enc l Hl)) as Hw. rewrite length_arg_is_le in Hw.
      destruct (hole_ok (consts r) index (8 * Z.of_nat (length l)) enc b (from_le_bytes (reverse l)) x) as (tm & H1 & H2); [done..|lia|by rewrite bytes_for_8| | |by exists tm].
      * rewrite <- Hi. destruct (is_signed enc); [apply swrap_i128; lia|apply swrap_is_i; lia].
      * cbv zeta. rewrite Ew, <- Hi. destruct (is_signed enc); [done|]. rewrite wrap_swrap by lia. apply wrap_small. eapply is_u_mono; [|exact Hw]. lia.
  - cbn [interpret_inputs] in Hi. apply (inj Ok) in Hi as <-. destruct (Hconst c Hok) as (tm & H1 & H2). by exists tm.
  - cbn [interpret_inputs] in Hi. cbn [codegen_hole]. rewrite Hi, M_bind_Ok. apply Hconst. apply Hok. by apply vget_Ok_inv.
Qed.

Lemma codegen_template_ok r t x : ref_wf r t → smt_ok t = true → (∀ arg, arg ∈ arg_interpretation r → arg_ok (consts r) arg) →
  raw r t inputs = Ok x → ∃ b, codegen_template (G:=Gz) (ops (expr (template r))) (arg_interpretation r) (consts r) = Ok b ∧ sim b x.
Proof using L.
  intros Hr Ht Hok Hx. unfold raw in Hx. destruct (interpret_args r inputs) as [args| |] eqn:Hargs; [|done..]. rewrite M_bind_Ok in Hx.
  destruct (compiles_tree (z3_new bvs) (arg_interpretation r) (consts r) t (vget args)) with (x := x) as (tm & Htm & Hc); [|done..|].
  { intros n _. by apply compiles_hole. }
  unfold codegen_template. rewrite (rwf_ops r t Hr). specialize (Hc [] []). rewrite app_nil_r in Hc. rewrite Hc. cbn [codegen_loop app]. rewrite M_bind_Ok.
  cbn [last unwrap]. rewrite M_bind_Ok. by apply term_unwrap_ok.
Qed.

Lemma codegen_computation_ok `{AsComputationRef A} (c : A) r t v : as_internal c = Ok r → ref_wf r t → compiled_ok r t → smt_ok t = true →
  (∀ arg, arg ∈ arg_interpretation r → arg_ok (consts r) arg) →
  match internal_output_type (template r) with Number _ => output_encoding (template r) = OutBigEndian | BytesOut _ => True end →
  evaluate_ref r inputs = Ok v →
  ∃ b, codegen_computation (G:=Gz) c = Ok b ∧ den b 128 (value_num v).
Proof using L.
  intros Hc Hr Hco Ht Hok Henc Hv. rewrite (evaluate_ref_raw r t) in Hv by done. destruct (raw r t inputs) as [x| |] eqn:Hx; [|done..].
  rewrite M_bind_Ok in Hv. apply (inj Ok) in Hv as <-. unfold codegen_computation. rewrite Hc, M_bind_Ok.
  destruct (codegen_template_ok r t x Hr Ht Hok Hx) as (b & -> & Hi & Hb). rewrite M_bind_Ok. pose proof (output_bits_range r t Hr) as Hbits.
  assert (try_into_u8 (num_bits (ref_output_type r)) = Ok (num_bits (ref_output_type r))) as -> by (unfold try_into_u8; destruct (Z.ltb_spec (num_bits (ref_output_type r)) 256); [done|lia]).
  rewrite M_bind_Ok. cbn [g_crop g_swap_bytes G Z3CodeGen_generator]. unfold z3_crop.
  destruct (z3_select_ok b _ 0 (num_bits (ref_output_type r)) ltac:(lia) ltac:(lia) ltac:(lia) Hb) as (b' & -> & Hb'). rewrite M_bind_Ok.
  rewrite Z.shiftr_0_r, wrap_wrap_le in Hb' by lia. pose proof (rwf_type r t Hr) as Hty.
  unfold ref_output_encoding, ref_output_type, output_type, i128_to_output in *. destruct (internal_output_type (template r)) as [mask|n].
  - rewrite Henc. destruct Hty as (k & Hk & ->). rewrite trailing_ones_ones in Hb' by lia. cbn [num_bits] in Hb'. exists b'. split; [done|].
    cbn [value_num]. by rewrite land_ones_wrap, wrap_wrap_le by lia.
  - rewrite i128_as_bytes_eq. cbn [value_num num_bits] in *. rewrite Z.mul_comm in Hb', Hbits |- *. unfold encode. destruct (output_encoding (template r)).
    + destruct (z3_swap_bytes_ok b' _ (8 * Z.of_nat n) ltac:(lia) Hb') as (b'' & -> & Hb''). exists b''. split; [done|].
      rewrite bytes_for_8 in Hb''. unfold swap_bytes in Hb''. by rewrite to_le_bytes_wrap in Hb''.
    + exists b'. split; [done|]. unfold to_be_bytes. by rewrite reverse_involutive, from_to_le_bytes.
Qed.
(** C8: The bit vector generated for a computation has the value of its result, read with
    the most significant byte first, for every solver that meets [SmtLaws] and all
    inputs: when the computation can be evaluated, generating code for it succeeds.
    The operations are those of [smt_ok]; an integer result is encoded big-endian. *)
Theorem codegen_computation_correct `{AsComputationRef A} (c : A) r t v : as_internal c = Ok r → ref_wf r t → compiled_ok r t → smt_ok t = true →
  (∀ arg, arg ∈ arg_interpretation r → arg_ok (consts r) arg) →
  match internal_output_type (template r) with Number _ => output_encoding (template r) = OutBigEndian | BytesOut _ => True end →
  evaluate_ref r inputs = Ok v →
  ∃ b, codegen_computation (G:=Gz) c = Ok b ∧ den b 128 (value_num v).
Proof using L. apply codegen_computation_ok. Qed.
End computation.

(** The solver of Module [Concrete] in a model without constants. *)
Definition no_consts : SmtSolver := Concrete.solver (λ _, 0).
Definition no_consts_laws : SmtLaws no_consts := Concrete.laws (λ _, 0).

(** Two bytes, read little-endian with their sign, plus 3. *)
Definition demo_computation : SynthesizedComputation := {|
  sc_expr := new [Hole 0; Const 3; Add]; sc_arg_interpretation := [Input 0 16 SignedLittleEndian]; sc_consts := [];
  sc_output_encoding := OutLittleEndian; sc_output_type := BytesIo 2
|}.
Definition demo_ref : ComputationRef := {|
  template := {| expr := new [Hole 0; Const 3; Add]; output_encoding := OutLittleEndian; internal_output_type := BytesOut 2 |};
  arg_interpretation := [Input 0 16 SignedLittleEndian]; consts := []
|}.
Lemma demo_ref_wf : ref_wf demo_ref (AddOp (HoleOp 0) (ConstOp 3)).
Proof.
  split; [done..| |by intros i [=]%list_elem_of_singleton|cbn; lia].
  intros n Hn. cbn in Hn. repeat (apply elem_of_cons in Hn as [Hn|Hn]; [try done; injection Hn as ->; cbn; lia|]). by apply elem_of_nil in Hn.
Qed.
Definition demo_args : list (BV (SmtSolver:=no_consts)) := [(128, 0x3412)].
Section codegen_example.
#[local] Instance codegen_profile : profile := Dev.
Lemma codegen_computation_correct_witness :
  ∃ b, codegen_computation (G:=G (z3_new demo_args)) demo_computation = Ok b ∧ den (L:=no_consts_laws) b 128 0x3712.
Proof.
  destruct (codegen_computation_correct (S:=no_consts) (L:=no_consts_laws) (P:=Dev) (H:=SynthesizedComputation_as_ref) demo_args [Bytes [0x34; 0x12]] demo_computation demo_ref
    (AddOp (HoleOp 0) (ConstOp 3)) (Bytes [0x37; 0x12])) as (b & H1 & H2).
  - reflexivity.
  - apply demo_ref_wf.
  - apply compiled_ok_stack; [apply demo_ref_wf|done|]. apply Nat.leb_le. reflexivity.
  - reflexivity.
  - intros arg ->%list_elem_of_singleton. exists (Bytes [0x34; 0x12]), (128, 0x3412). split; [done|]. split; [done|]. split; [split; reflexivity|].
    split; [repeat constructor; done|]. split; [cbn; lia|done].
  - done.
  - vm_compute. reflexivity.
  - exists b. split; [exact H1|exact H2].
Defined.
End codegen_example.

(** ** Where evaluation and generated code differ *)

Section differences.
Context {P : profile}.
Definition wide_args : list (BV (SmtSolver:=no_consts)) := [(128, 2 ^ 40)].
#[local] Notation generator := (Z3CodeGen_generator (z3_new wide_args)).

(** [ByteMask] collects 16 bits when it is evaluated; the generated bit vector has 8
    bits, for every solver. *)
Lemma byte_mask_width {S : SmtSolver} {L : SmtLaws S} (t : BV) x : den t 128 x → ∃ t', z3_byte_mask t = Ok t' ∧ get_size t' = 8.
Proof.
  intros Ht. unfold z3_byte_mask. cbn [fmap list_fmap reduce unwrap foldl]. eexists. split; [done|].
  assert (∀ i, 0 <= i < 16 → get_size (bv_extract (i * 8 + 7) (i * 8 + 7) t) = 1) as H.
  { intros i Hi. by apply (den_bit t 128 x (i * 8 + 7) ltac:(lia) Ht). }
  rewrite !(λ a b, proj1 (law_concat a b)), !H by lia. done.
Qed.

(** Swapping fewer than 16 bytes sign-extends when it is evaluated and zero-extends
    here; swapping the same bytes twice is dropped although it clears the other bytes;
    integer results in little-endian order are swapped here only. *)
Theorem codegen_differs :
  swap_bytes_op 16 0x80 = Ok (-0x8000) ∧
  z3_swap_bytes (S:=no_consts) 16 (128, 0x80) = Ok (128, 0x8000) ∧
  (a ← swap_bytes_op 32 (2 ^ 40); swap_bytes_op 32 a) = Ok 0 ∧
  codegen_template (G:=generator) [Hole 0; SwapBytes 32; SwapBytes 32] [Input 0 64 UnsignedBigEndian] [] = Ok (128, 2 ^ 40) ∧
  (let c := {| sc_expr := new [Const 1]; sc_arg_interpretation := []; sc_consts := [];
               sc_output_encoding := OutLittleEndian; sc_output_type := Integer 16 |} in
   evaluate_synthesized c [] = Ok (Num 1) ∧ codegen_computation (G:=generator) c = Ok (128, 0x100)).
Proof. destruct P; repeat split; vm_compute; reflexivity. Qed.
End differences.
