(* ===== verification/SmtModel.v ===== *)
(** * Models of encodings for SMT solvers

    Models [liblisa/src/semantics/default/smtgen.rs]: the bit vectors of storage
    locations, the preparation of the inputs of a computation, the model of an
    encoding with its intermediate outputs, and the model with concrete outputs.  A
    [HashMap] is a list of its entries in the order of their insertion; the code
    iterates over them in an order that is not specified.  The names of registers are
    what their [Display] prints, a parameter. *)
From stdpp Require Import strings pretty sorting.
From S2P Require Import Prelude MachInt Utils Size Value Addr Arch Locs State AddrComp Dataflows BitPattern Encoding.
From S2P Require Import Bitmap Growing SplitDests Computation Smt Codegen SmtCodegen.
Import SizeOps.

Definition PART_NAMES : list string :=
  ["A"; "B"; "C"; "D"; "E"; "F"; "G"; "H"; "J"; "K"; "M"; "N"; "P"; "Q"; "R"; "S"; "T"; "U"; "V"; "W"; "X"; "Y"; "Z"]%string.

Section locations.
Context {P : profile} {A : Arch}.

(** [PartIndex] is the number of a part. *)
Inductive FilledInput :=
| FIConcrete (source : Source)
| FIPart (part_index : nat) (size : option Size) (is_bytes : bool).
Inductive FilledOutput := FOConcrete (dest : Dest) | FOPart (part_index : nat) (size : Size).
Inductive FilledLocation := FLConcrete (location : Location) | FLPart (part_index : nat).
#[export] Instance FilledLocation_eq_dec : EqDecision FilledLocation.
Proof. solve_decision. Defined.

Definition filled_input_size (self : FilledInput) : M (option Size) :=
  match self with FIConcrete s => source_size s | FIPart _ size _ => Ok size end.
Definition filled_is_bytes (self : FilledInput) : M bool :=
  match self with
  | FIConcrete (SDest dest) => t ← dest_value_type dest; Ok (is_bytes_type t)
  | FIPart _ _ is_bytes => Ok is_bytes
  | _ => Ok false
  end.
Definition filled_output_size (self : FilledOutput) : Size :=
  match self with FOConcrete dest => dest_size dest | FOPart _ size => size end.

(** The sizes of the parts, in bits. *)
Record Sizes := { part_sizes : list Z }.
Definition sizes_default : Sizes := {| part_sizes := [] |}.
Definition bit_size (self : FilledLocation) (sizes : Sizes) : M Z :=
  match self with
  | FLConcrete (LReg reg) => Ok (byte_size reg * 8)
  | FLConcrete (LMemory _) => Ok 256
  | FLPart part_index => s ← vget (part_sizes sizes) part_index; Ok (wrap 32 s)
  end.
Definition location_of_input (value : FilledInput) : M FilledLocation :=
  match value with
  | FIConcrete source => d ← unwrap_dest source; Ok (FLConcrete (location_from_dest d))
  | FIPart part_index _ _ => Ok (FLPart part_index)
  end.
Definition location_of_output (value : FilledOutput) : FilledLocation :=
  match value with
  | FOConcrete dest => FLConcrete (location_from_dest dest)
  | FOPart index _ => FLPart index
  end.
(** [sizes.windows(2).all(|x| x[0] == x[1])]. *)
Fixpoint all_equal (l : list Z) : bool :=
  match l with
  | x :: ((y :: _) as l') => (x =? y) && all_equal l'
  | _ => true
  end.
Definition sizes_from_encoding {C} (encoding : Encoding C) : M Sizes :=
  l ← mapM (λ part, match part_mapping part with
                    | PImm _ _ _ => Ok (Z.of_nat (part_size part))
                    | PMemory _ _ => Ok 0
                    | PRegister mapping _ =>
                        let sizes := byte_size <$> omap id mapping in
                        assert! all_equal sizes;
                        s ← vget sizes 0;
                        Ok (s * 8)
                    end) (enc_parts encoding);
  Ok {| part_sizes := l |}.
End locations.

(** ** Bit vectors of locations *)

Section storage.
Context {P : profile} {A : Arch} {S : SmtSolver} (reg_name : Reg → string).

Record StorageLocations := { storage_map : list (FilledLocation * BV); storage_instr : BV }.
Definition storage_new : StorageLocations := {| storage_map := []; storage_instr := new_bv_const "instr" 128 |}.
Definition storage_name (key : FilledLocation) : M string :=
  match key with
  | FLConcrete (LReg reg) => Ok ("r" +:+ reg_name reg)%string
  | FLConcrete (LMemory memory_index) => Ok ("m" +:+ pretty memory_index)%string
  | FLPart part_index => n ← vget PART_NAMES part_index; Ok ("part" +:+ n)%string
  end.
(** [self.map.entry(key).or_insert_with_key(..)]. *)
Definition storage_entry (self : StorageLocations) (key : FilledLocation) (sizes : Sizes) : M (BV * StorageLocations) :=
  match snd <$> list_find (λ p, p.1 = key) (storage_map self) with
  | Some (_, bv) => Ok (bv, self)
  | None =>
      name ← storage_name key;
      size ← bit_size key sizes;
      let bv := new_bv_const name size in
      Ok (bv, {| storage_map := storage_map self ++ [(key, bv)]; storage_instr := storage_instr self |})
  end.
Definition is_zero_location (key : FilledLocation) : bool :=
  match key with FLConcrete (LReg reg) => reg_is_zero reg | _ => false end.
Definition zero_bv (key : FilledLocation) : BV :=
  match key with FLConcrete (LReg reg) => bv_from_u64 0 (byte_size reg * 8) | _ => bv_from_u64 0 0 end.
Definition storage_get (self : StorageLocations) (key : FilledLocation) (sizes : Sizes) : M (BV * StorageLocations) :=
  if is_zero_location key then Ok (zero_bv key, self) else
  let mask := match key with FLConcrete (LReg reg) => reg_mask reg | _ => None end in
  '(bv, self) ← storage_entry self key sizes;
  match mask with
  | Some mask => size ← bit_size key sizes; Ok (bv_and bv (bv_from_u64 mask size), self)
  | None => Ok (bv, self)
  end.
(** [end_byte as u32 * 8 + 7] and [start_byte as u32 * 8] are computed on [u32]. *)
Definition mul_u32 (a b : Z) : M Z :=
  if bool_decide (is_u 32 (a * b)) then Ok (a * b) else match P with Dev => Panic | Release => Ok (wrap 32 (a * b)) end.
Definition storage_get_sized (self : StorageLocations) (key : FilledLocation) (sizes : Sizes) (input_size : Size) (is_bytes : bool) :
    M (BV * StorageLocations) :=
  '(bv, self) ← storage_get self key sizes;
  h ← mul_u32 (wrap 32 (end_byte input_size)) 8;
  hi ← add_u 32 h 7;
  lo ← mul_u32 (wrap 32 (start_byte input_size)) 8;
  let bv := bv_extract hi lo bv in
  if is_bytes then
    n ← num_bytes input_size;
    bv ← bv_swap_bytes bv (Z.to_nat n);
    Ok (bv, self)
  else Ok (bv, self).
Definition storage_get_raw (self : StorageLocations) (key : FilledLocation) (sizes : Sizes) : M (BV * StorageLocations) :=
  if is_zero_location key then Ok (zero_bv key, self) else storage_entry self key sizes.
Definition instr_bits (self : StorageLocations) (bits : list nat) : M BV :=
  unwrap (reduce (λ a b, bv_concat b a) ((λ index, bv_extract (Z.of_nat index) (Z.of_nat index) (storage_instr self)) <$> bits)).

(** A [map] whose closure changes the storage. *)
Fixpoint map_storage {X Y} (f : StorageLocations → X → M (Y * StorageLocations)) (self : StorageLocations) (l : list X) :
    M (list Y * StorageLocations) :=
  match l with
  | [] => Ok ([], self)
  | x :: l => '(y, self) ← f self x; '(k, self) ← map_storage f self l; Ok (y :: k, self)
  end.
End storage.

(** ** Inputs of a computation *)

Section prepare.
Context {P : profile} {A : Arch} {S : SmtSolver} {C : Type} (reg_name : Reg → string).

Record PreparedComputation := { prepared_computation : C; z3_inputs : list BV; part_assertions : list SmtBool }.

(** The closure of [filled_inputs] for one input. *)
Definition has_input (output_index input_index : nat) (part : Part) : bool :=
  match part_mapping part with
  | PImm _ locations _ => bool_decide (InputForOutput output_index input_index ∈ locations)
  | PRegister _ locations => bool_decide (VInputForOutput output_index input_index ∈ locations)
  | PMemory _ _ => false
  end.
Definition find_part (f : Part → bool) (parts : list Part) : option (nat * Part) := list_find (λ part, f part = true) parts.
Definition filled_input (encoding : Encoding C) (output_index input_index : nat) (input : Source) : M FilledInput :=
  match find_part (has_input output_index input_index) (enc_parts encoding) with
  | Some (part_index, part) =>
      match part_mapping part with
      | PImm _ _ _ => Ok (FIConcrete (SImm part_index))
      | _ =>
          size ← source_size input;
          is_bytes ← match input with
                     | SDest dest => t ← dest_value_type dest; Ok (is_bytes_type t)
                     | _ => Ok false
                     end;
          Ok (FIPart part_index size is_bytes)
      end
  | None => Ok (FIConcrete input)
  end.
Definition filled_inputs (output_index : nat) (encoding : Encoding C) : M (list FilledInput) :=
  flow ← output_dataflow (enc_dataflows encoding) output_index;
  mapM (λ '(input_index, input), filled_input encoding output_index input_index input) (imap pair (Locs.inputs (flow_inputs flow))).

(** The constraints of one register part: for every value with a register, if the
    bits have that value then the part is the register. *)
Fixpoint register_assertions (storage : StorageLocations) (sizes : Sizes) (bits part_val : BV) (size : Z) (index : nat)
    (mapping : list (option Reg)) : M (list SmtBool * StorageLocations) :=
  match mapping with
  | [] => Ok ([], storage)
  | None :: mapping => register_assertions storage sizes bits part_val size (index + 1) mapping
  | Some reg :: mapping =>
      '(concrete, storage) ← storage_get_raw reg_name storage (FLConcrete (LReg reg)) sizes;
      let a := bool_or (bool_not (bv_eq bits (bv_from_u64 (Z.of_nat index) size))) (bv_eq part_val concrete) in
      '(l, storage) ← register_assertions storage sizes bits part_val size (index + 1) mapping;
      Ok (a :: l, storage)
  end.
Definition create_part_assertions (encoding : Encoding C) (storage : StorageLocations) (sizes : Sizes) :
    M (list SmtBool * StorageLocations) :=
  '(l, storage) ← map_storage (λ storage '(part_index, part),
      match part_mapping part with
      | PRegister part_mapping _ =>
          bits ← instr_bits storage (part_bit_indices encoding part_index);
          '(part_val, storage) ← storage_get_raw reg_name storage (FLPart part_index) sizes;
          register_assertions storage sizes bits part_val (Z.of_nat (part_size part)) 0 part_mapping
      | _ => Ok ([], storage)
      end) storage (imap pair (enc_parts encoding));
  Ok (concat l, storage).

(** The bits of an immediate value: [n] counts the bits that are filled in. *)
Fixpoint imm_bits (bv : BV) (n : nat) (bits : ImmBits) : list BV :=
  match bits with
  | [] => []
  | ImmIs0 :: bits => bv_from_u64 0 1 :: imm_bits bv n bits
  | ImmIs1 :: bits => bv_from_u64 1 1 :: imm_bits bv n bits
  | ImmFill :: bits => bv_extract (Z.of_nat n) (Z.of_nat n) bv :: imm_bits bv (n + 1) bits
  end.
Definition create_imm (storage : StorageLocations) (encoding : Encoding C) (part_index size : nat) (bits : option ImmBits) : M BV :=
  b ← instr_bits storage (part_bit_indices encoding part_index);
  k ← sub_u 32 128 (wrap 32 (Z.of_nat size));
  let bv := zero_ext k b in
  match bits with
  | Some bits =>
      b ← unwrap (reduce (λ a b, bv_concat b a) (imm_bits bv 0 bits));
      k ← sub_u 32 128 (wrap 32 (Z.of_nat (length bits)));
      Ok (zero_ext k b)
  | None => Ok bv
  end.
Definition create_normal (filled_input : FilledInput) (storage : StorageLocations) (sizes : Sizes) : M (BV * StorageLocations) :=
  match filled_input with
  | FIConcrete (SImm _) => Panic
  | FIConcrete (SConst value _) => Ok (bv_from_u64 value 128, storage)
  | _ =>
      size ← filled_input_size filled_input;
      let input_size := default (new 0 15) size in
      n ← num_bytes input_size;
      input_bit_size ← mul_u32 (wrap 32 n) 8;
      key ← location_of_input filled_input;
      is_bytes ← filled_is_bytes filled_input;
      '(bv, storage) ← storage_get_sized reg_name storage key sizes input_size is_bytes;
      if input_bit_size <? 128 then
        k ← sub_u 32 128 input_bit_size;
        Ok (zero_ext k bv, storage)
      else Ok (bv, storage)
  end.
Definition create_input (encoding : Encoding C) (sizes : Sizes) (storage : StorageLocations) (filled_input : FilledInput) :
    M (BV * StorageLocations) :=
  match filled_input with
  | FIConcrete (SImm part_index) =>
      part ← vget (enc_parts encoding) part_index;
      match part_mapping part with
      | PImm _ _ bits => bv ← create_imm storage encoding part_index (part_size part) bits; Ok (bv, storage)
      | _ => create_normal filled_input storage sizes
      end
  | _ => create_normal filled_input storage sizes
  end.
Definition prepare (encoding : Encoding C) (output_index : nat) (storage : StorageLocations) :
    M (option PreparedComputation * StorageLocations) :=
  sizes ← sizes_from_encoding encoding;
  flow ← output_dataflow (enc_dataflows encoding) output_index;
  match computation flow with
  | None => Ok (None, storage)
  | Some computation =>
      l ← filled_inputs output_index encoding;
      '(z3_inputs, storage) ← map_storage (create_input encoding sizes) storage l;
      '(part_assertions, storage) ← create_part_assertions encoding storage sizes;
      Ok (Some {| prepared_computation := computation; z3_inputs := z3_inputs; part_assertions := part_assertions |}, storage)
  end.

(** ** The model of an encoding *)

Record IntermediateOutput := { io_target : FilledOutput; io_name : BV; io_smt : option BV }.
Record Z3Model := { constraints : list SmtBool; intermediate_outputs : list IntermediateOutput }.

Definition has_output (output_index : nat) (part : Part) : bool :=
  match part_mapping part with PRegister _ locations => bool_decide (VOutput output_index ∈ locations) | _ => false end.
Definition build_outputs (encoding : Encoding C) : list (FilledOutput * nat) :=
  imap (λ output_index flow,
    (match find_part (has_output output_index) (enc_parts encoding) with
     | Some (part_index, _) => FOPart part_index (dest_size (target flow))
     | None => FOConcrete (target flow)
     end, output_index)) (outputs (enc_dataflows encoding)).

Context `{AsComputationRef C}.
Definition build_output (encoding : Encoding C) (output : FilledOutput) (output_index : nat) (storage : StorageLocations) :
    M (list SmtBool * IntermediateOutput * StorageLocations) :=
  '(prepared, storage) ← prepare encoding output_index storage;
  n ← num_bytes (filled_output_size output);
  size ← mul_u32 (wrap 32 n) 8;
  let name := new_bv_const ("val" +:+ pretty output_index)%string size in
  match prepared with
  | Some prepared =>
      smt ← codegen_computation (G:=Z3CodeGen_generator (z3_new (z3_inputs prepared))) (prepared_computation prepared);
      hi ← sub_u 32 size 1;
      Ok (part_assertions prepared, {| io_target := output; io_name := name; io_smt := Some (bv_extract hi 0 smt) |}, storage)
  | None => Ok ([], {| io_target := output; io_name := name; io_smt := None |}, storage)
  end.
Definition model_of (encoding : Encoding C) (storage : StorageLocations) : M (Z3Model * StorageLocations) :=
  '(l, storage) ← map_storage (λ storage '(output, output_index), build_output encoding output output_index storage)
                    storage (build_outputs encoding);
  Ok ({| constraints := concat (fst <$> l); intermediate_outputs := snd <$> l |}, storage).
End prepare.
Arguments IntermediateOutput {A S}.
Arguments Z3Model {A S}.

(** ** Concrete outputs *)

Section concrete.
Context {P : profile} {A : Arch} {S : SmtSolver} {C : Type} (reg_name : Reg → string).

Record Case := { case_output_index : nat; case_part_index : nat; case_part_value : nat }.
Record PartName := { part_name : BV; part_smt : BV }.
Record ConcreteOutput := { co_target : Dest; co_smt : option BV }.
Record ConcreteZ3Model := {
  part_names : list PartName;
  concrete_outputs : list ConcreteOutput;
  intermediate_values_needed : list nat;
}.

(** The loops over the registers of the outputs that a part selects: the output, the
    part and its value, with the register. *)
Definition output_locations (locations : list FlowValueLocation) : list nat :=
  omap (λ l, match l with VOutput output_index => Some output_index | _ => None end) locations.
Definition register_cases (part_index : nat) (part : Part) : list (Case * Reg) :=
  match part_mapping part with
  | PRegister mapping locations =>
      output_index ← output_locations locations;
      '(part_value, reg) ← imap pair mapping;
      match reg with
      | Some reg => [({| case_output_index := output_index; case_part_index := part_index; case_part_value := part_value |}, reg)]
      | None => []
      end
  | _ => []
  end.
Definition all_cases (encoding : Encoding C) : list (Case * Reg) :=
  '(part_index, part) ← imap pair (enc_parts encoding); register_cases part_index part.
Definition case_dest (encoding : Encoding C) (c : Case * Reg) : M Dest :=
  output ← output_dataflow (enc_dataflows encoding) (case_output_index c.1);
  Ok (DReg c.2 (dest_size (target output))).

Fixpoint split_each (splits : SplitDests) (l : list Dest) : M SplitDests :=
  match l with [] => Ok splits | d :: l => splits ← split splits d; split_each splits l end.
Definition output_splits (encoding : Encoding C) : M SplitDests :=
  l ← mapM (case_dest encoding) (all_cases encoding);
  splits ← split_each split_new l;
  split_each splits (target <$> outputs (enc_dataflows encoding)).

(** [outputs.entry(dest).or_insert_with(Vec::new).push(case)]. *)
Fixpoint push_case (outputs : list (Dest * list Case)) (dest : Dest) (c : Case) : list (Dest * list Case) :=
  match outputs with
  | [] => [(dest, [c])]
  | (d, cases) :: outputs =>
      if bool_decide (d = dest) then (d, cases ++ [c]) :: outputs else (d, cases) :: push_case outputs dest c
  end.
Definition group_cases (encoding : Encoding C) : M (list (Dest * list Case)) :=
  l ← mapM (λ c, d ← case_dest encoding c; Ok (d, c.1)) (all_cases encoding);
  Ok (foldl (λ outputs '(d, c), push_case outputs d c) [] l).
(** The outputs that no part selects, and the parts that select one. *)
Definition fixed_output (self : Z3Model) (encoding : Encoding C) : M GrowingBitmap :=
  Growing.each_bit Growing.reset (Growing.new_all_ones (length (intermediate_outputs self)))
    ('(_, part) ← imap pair (enc_parts encoding);
     match part_mapping part with PRegister _ locations => output_locations locations | _ => [] end).
Definition parts_needed (encoding : Encoding C) : M GrowingBitmap :=
  Growing.each_bit Growing.set (Growing.new_all_zeros (length (enc_parts encoding)))
    ((λ c, case_part_index c.1) <$> all_cases encoding).
Definition part_mappings (encoding : Encoding C) (storage : StorageLocations) (needed : list bool) : M (list (option PartName)) :=
  mapM (λ '(part_index, needed),
    if needed : bool then
      name ← vget PART_NAMES part_index;
      smt ← instr_bits storage (part_bit_indices encoding part_index);
      Ok (Some {| part_name := new_bv_const ("instrPart" +:+ name)%string (Z.of_nat (value_bits encoding part_index));
                  part_smt := bv_simplify smt |})
    else Ok None) (imap pair needed).

Definition position (x : nat) (l : list nat) : option nat := fst <$> list_find (λ y, y = x) l.
(** The output that is written to a destination: of two, the later one in the write
    ordering that has both, otherwise the one that comes later. *)
Definition choose_output (encoding : Encoding C) (choices : list (Dest * nat)) (target : Dest) (output_index : nat) :
    M (list (Dest * nat)) :=
  let rest := List.filter (λ p, negb (bool_decide (p.1 = target))) choices in
  match snd <$> (snd <$> list_find (λ p, p.1 = target) choices) with
  | Some seen_index =>
      match list_find (λ w, seen_index ∈ output_index_order w ∧ output_index ∈ output_index_order w) (write_ordering encoding) with
      | Some (_, wo) =>
          seen_priority ← unwrap (position seen_index (output_index_order wo));
          output_priority ← unwrap (position output_index (output_index_order wo));
          Ok (rest ++ [(target, if (output_priority <? seen_priority)%nat then seen_index else output_index)])
      | None => Ok (rest ++ [(target, output_index)])
      end
  | None => Ok (choices ++ [(target, output_index)])
  end.
Fixpoint choose_outputs (encoding : Encoding C) (choices : list (Dest * nat)) (l : list (nat * Dest)) : M (list (Dest * nat)) :=
  match l with
  | [] => Ok choices
  | (output_index, target) :: l =>
      choices ← choose_output encoding choices target output_index;
      choose_outputs encoding choices l
  end.
Definition fixed_dests (encoding : Encoding C) (splits : SplitDests) (output_index : nat) : M (list (nat * Dest)) :=
  output ← output_dataflow (enc_dataflows encoding) output_index;
  dests ← split_get splits (target output);
  Ok (List.map (pair output_index) dests).
Definition fixed_outputs (encoding : Encoding C) (splits : SplitDests) (l : list nat) : M (list (nat * Dest)) :=
  k ← mapM (fixed_dests encoding splits) l; Ok (concat k).
Definition fixed_concrete (self : Z3Model) (encoding : Encoding C) (target_ : Dest) (output_index : nat) : M ConcreteOutput :=
  output ← output_dataflow (enc_dataflows encoding) output_index;
  io ← vget (intermediate_outputs self) output_index;
  overlap ← split_by_overlap (dest_size (target output)) (dest_size target_);
  match overlap with
  | Some (before, overlapping, _) =>
      skip_before ← match before with Some s => num_bytes s | None => Ok 0 end;
      take ← num_bytes overlapping;
      n ← add_u 64 skip_before take;
      h ← mul_u32 (wrap 32 n) 8;
      hi ← sub_u 32 h 1;
      lo ← mul_u32 (wrap 32 skip_before) 8;
      Ok {| co_target := target_; co_smt := bv_extract hi lo <$> io_smt io |}
  | None => Ok {| co_target := target_; co_smt := io_smt io |}
  end.

(** [cases.sort_by_key(|case| order.iter().rev().position(..))], [None] first. *)
Definition option_le (a b : option nat) : Prop :=
  match a, b with None, _ => True | Some _, None => False | Some a, Some b => (a <= b)%nat end.
#[export] Instance option_le_dec a b : Decision (option_le a b).
Proof. destruct a, b; cbn; apply _. Defined.
Definition case_le (order : list nat) (a b : Case) : Prop :=
  option_le (position (case_output_index a) (reverse order)) (position (case_output_index b) (reverse order)).
#[export] Instance case_le_dec order a b : Decision (case_le order a b).
Proof. apply _. Defined.
Definition relevant_orderings (encoding : Encoding C) (c : Case) : M (list WriteOrdering) :=
  l ← mapM (λ order, v ← vget (wo_part_values order) (case_part_index c);
                     Ok (order, match v with Some val => val =? Z.of_nat (case_part_value c) | None => true end))
        (write_ordering encoding);
  Ok (List.filter (λ o, negb (bool_decide (output_index_order o = []))) (fst <$> List.filter snd l)).
Definition order_cases (encoding : Encoding C) (cases : list Case) : M (list Case) :=
  if (1 <? length cases)%nat then
    l ← mapM (relevant_orderings encoding) cases;
    let orders := remove_dups (output_index_order <$> concat l) in
    assert! (length orders <=? 1)%nat;
    match orders with
    | order :: _ => Ok (merge_sort (case_le order) cases)
    | [] => Ok cases
    end
  else Ok cases.
(** The loop [for case in cases.iter().rev()]. *)
Fixpoint apply_cases (self : Z3Model) (encoding : Encoding C) (mappings : list (option PartName)) (smt : BV) (cases : list Case) : M BV :=
  match cases with
  | [] => Ok smt
  | c :: cases =>
      p ← vget mappings (case_part_index c);
      p ← unwrap p;
      let required_value := bv_from_u64 (Z.of_nat (case_part_value c)) (Z.of_nat (value_bits encoding (case_part_index c))) in
      let condition := bv_eq (part_name p) required_value in
      io ← vget (intermediate_outputs self) (case_output_index c);
      let new_value := io_name io in
      assert! (get_size new_value =? get_size smt);
      apply_cases self encoding mappings (ite_bv condition new_value smt) cases
  end.
Definition selected_concrete (self : Z3Model) (encoding : Encoding C) (mappings : list (option PartName)) (storage : StorageLocations)
    (output : Dest * list Case) : M (ConcreteOutput * StorageLocations) :=
  let '(target, cases) := output in
  smts ← mapM (λ c, io ← vget (intermediate_outputs self) (case_output_index c); Ok (io_smt io)) cases;
  if existsb (λ o : option BV, match o with None => true | Some _ => false end) smts
  then Ok ({| co_target := target; co_smt := None |}, storage)
  else
    t ← dest_value_type target;
    '(smt, storage) ← storage_get_sized reg_name storage (location_of_output (FOConcrete target)) sizes_default (dest_size target) (is_bytes_type t);
    cases ← order_cases encoding cases;
    smt ← apply_cases self encoding mappings smt (reverse cases);
    Ok ({| co_target := target; co_smt := Some smt |}, storage).

Definition compute_concrete_outputs (self : Z3Model) (encoding : Encoding C) (storage : StorageLocations) :
    M (ConcreteZ3Model * StorageLocations) :=
  splits ← output_splits encoding;
  outputs ← group_cases encoding;
  fixed_output ← fixed_output self encoding;
  parts_needed ← parts_needed encoding;
  needed ← Growing.iter parts_needed;
  mappings ← part_mappings encoding storage needed;
  fixed ← Growing.iter_one_indices fixed_output;
  fixed_outputs ← fixed_outputs encoding splits fixed;
  choices ← choose_outputs encoding [] fixed_outputs;
  l ← mapM (λ '(target, output_index), fixed_concrete self encoding target output_index) choices;
  '(k, storage) ← map_storage (selected_concrete self encoding mappings) storage outputs;
  Ok ({| part_names := omap id mappings;
         concrete_outputs := l ++ k;
         intermediate_values_needed := Slice.iter_one_indices (Bitmap.Build_Flipped _ fixed_output) |}, storage).
End concrete.
