(* ===== verification/SmtModelFacts.v ===== *)
(** * The model of an encoding describes its instructions

    When the constants of a solver have the values of a state and of an instruction
    of an encoding, the constraints of the model hold and its outputs have the values
    that the dataflows of the instruction compute on the state; and the constraints
    force the constants of register parts to have the value of the register that the
    instruction selects.  Both hold for computations of the operations whose generated
    bit vectors agree with their evaluation ([flow_ok], [smt_ok]).  The model does not
    constrain the bits of the instruction (a TODO of the source), so that its value is
    assumed in both directions. *)
From stdpp Require Import strings pretty sorting.
From S2P Require Import Prelude MachInt Utils Size Value Addr Arch Locs State StateFacts AddrComp AddrCompFacts Dataflows DataflowsFacts.
From S2P Require Import Instruction InstructionFacts BitPattern Encoding EncodingFacts Instantiate InstantiateFacts.
From S2P Require Import Ops OpsFacts Expr Computation ComputationFacts CombineFacts.
From S2P Require Import Smt SmtFacts Codegen SmtCodegen SmtCodegenFacts CodegenFacts SmtModel.
Import SizeOps Instr.

(** ** Numbers from bits *)

(** The number of the bits, the lowest first. *)
Fixpoint bits_num (l : list bool) : Z := match l with [] => 0 | b :: l => Z.b2z b + 2 * bits_num l end.

Lemma bits_num_is_u l : is_u (Z.of_nat (length l)) (bits_num l).
Proof.
  induction l as [|b l [H1 H2]]; [by split|]. cbn [bits_num length]. rewrite Nat2Z.inj_succ. unfold is_u. rewrite Z.pow_succ_r by lia.
  destruct b; cbn [Z.b2z]; lia.
Qed.
Lemma testbit_bits_num l (k : nat) : Z.testbit (bits_num l) (Z.of_nat k) = default false (l !! k).
Proof.
  revert k. induction l as [|b l IH]; intros k; [apply Z.bits_0|]. cbn [bits_num]. rewrite Z.add_comm. destruct k as [|k]; cbn [lookup list_lookup].
  - by rewrite Z.testbit_0_r.
  - rewrite Nat2Z.inj_succ, Z.testbit_succ_r by lia. apply IH.
Qed.
Lemma bits_num_snoc l b : bits_num (l ++ [b]) = Z.lor (bits_num l) (Z.shiftl (Z.b2z b) (Z.of_nat (length l))).
Proof.
  apply Z.bits_inj'. intros i Hi. rewrite <- (Z2Nat.id i) by done. rewrite Z.lor_spec, !testbit_bits_num, Z.shiftl_spec by lia.
  destruct (Nat.lt_trichotomy (Z.to_nat i) (length l)) as [H|[H|H]].
  - rewrite lookup_app_l, (Z.testbit_neg_r _ (_ - _)), orb_false_r by lia. done.
  - rewrite H, lookup_app_r, Nat.sub_diag, Z.sub_diag, (proj2 (lookup_ge_None l _)) by lia. cbn. by destruct b.
  - rewrite !(proj2 (lookup_ge_None _ _)) by (rewrite ?length_app; cbn; lia). cbn. destruct b; [|by rewrite Z.bits_0].
    symmetry. apply (Z.bits_above_log2 1); cbn; lia.
Qed.

(** *** The bits of a part *)

Definition bit_indices (bits : list Bit) (n : nat) : list nat :=
  fst <$> List.filter (λ '(_, bit), bool_decide (bit = BPart n)) (imap pair bits).
Lemma bit_indices_snoc bits n b : bit_indices (bits ++ [b]) n = bit_indices bits n ++ if bool_decide (b = BPart n) then [length bits] else [].
Proof.
  unfold bit_indices. rewrite imap_app, List.filter_app, fmap_app. f_equal. cbn. rewrite Nat.add_0_r. by case_bool_decide.
Qed.
Lemma bit_indices_bound bits n j : j ∈ bit_indices bits n → (j < length bits)%nat.
Proof.
  induction bits as [|b bits IH] using rev_ind; intros Hj; [by apply elem_of_nil in Hj|]. rewrite bit_indices_snoc in Hj. rewrite length_app. cbn.
  apply elem_of_app in Hj as [Hj%IH|Hj]; [lia|]. case_bool_decide; [|by apply elem_of_nil in Hj]. apply list_elem_of_singleton in Hj. lia.
Qed.
Lemma bit_indices_reads bits n i :
  reads bits i n (bits_num (rbit i <$> bit_indices bits n)) ∧ length (bit_indices bits n) = part_width bits n.
Proof.
  induction bits as [|b bits [IH1 IH2]] using rev_ind; [split; [split; [by split|done]|done]|].
  rewrite bit_indices_snoc, width_snoc, length_app, IH2. case_bool_decide as E.
  - subst b. rewrite fmap_app. cbn [fmap list_fmap]. rewrite bits_num_snoc, length_fmap, IH2. split; [by apply reads_snoc|done].
  - rewrite app_nil_r. split; [by apply reads_snoc_other|cbn; lia].
Qed.
Lemma reads_bits_num bits i n v : reads bits i n v → v = bits_num (rbit i <$> bit_indices bits n).
Proof. intros H. eapply reads_unique; [exact H|apply bit_indices_reads]. Qed.

Section bits.
Context {S : SmtSolver} {L : SmtLaws S}.

Lemma reduce_bits (l : list BV) (bs : list bool) : Forall2 (λ b x, den b 1 (Z.b2z x)) l bs → l ≠ [] →
  ∃ r, reduce (λ a b, bv_concat b a) l = Some r ∧ den r (Z.of_nat (length bs)) (bits_num bs).
Proof using L.
  revert bs. induction l as [|b l IH] using rev_ind; intros bs H Hne; [done|].
  apply Forall2_app_inv_l in H as (bs' & w & Hbs & Hw & ->). apply Forall2_cons_inv_l in Hw as (x & w' & Hx & Hw' & ->).
  apply Forall2_nil_inv_l in Hw' as ->. rewrite length_app. destruct l as [|b' l].
  - apply Forall2_nil_inv_l in Hbs as ->. exists b. split; [done|]. eapply den_eq; [exact Hx|done|]. cbn. lia.
  - destruct (IH bs' Hbs) as (r & Hr & Hd); [done|]. exists (bv_concat b r). split; [by apply (reduce_snoc (λ a b, bv_concat b a))|].
    eapply den_eq; [apply (den_concat _ _ _ _ _ _ Hx Hd)|cbn; lia|]. by rewrite bits_num_snoc, Z.lor_comm.
Qed.

(** The bits of an immediate that are filled in. *)
Fixpoint fill_bits (bits : ImmBits) (v : Z) : list bool :=
  match bits with
  | [] => []
  | ImmIs0 :: bits => false :: fill_bits bits v
  | ImmIs1 :: bits => true :: fill_bits bits v
  | ImmFill :: bits => Z.testbit v 0 :: fill_bits bits (Z.shiftr v 1)
  end.
Lemma fill_bits_num bits : ∀ v, bits_num (fill_bits bits v) = imm_fill bits v ∧ length (fill_bits bits v) = length bits.
Proof.
  induction bits as [|[] bits IH]; intros v; cbn [fill_bits bits_num imm_fill length Z.b2z]; [done|..];
    destruct (IH v) as [E1 E2], (IH (Z.shiftr v 1)) as [E3 E4]; rewrite ?E1, ?E2, ?E3, ?E4; split; done || lia.
Qed.
Lemma imm_bits_den bv w v n bits : den bv w v → Z.of_nat (n + length bits) <= w →
  Forall2 (λ b x, den b 1 (Z.b2z x)) (imm_bits bv n bits) (fill_bits bits (Z.shiftr v (Z.of_nat n))).
Proof using L.
  intros Hb. revert n. induction bits as [|[] bits IH]; intros n Hn; cbn [imm_bits fill_bits length] in *; constructor.
  - apply (den_u64 0 1). lia.
  - apply IH. lia.
  - apply (den_u64 1 1). lia.
  - apply IH. lia.
  - eapply den_eq; [apply (den_bit bv w v (Z.of_nat n)); [lia|done]|done|]. by rewrite Z.shiftr_spec, Z.add_0_l by lia.
  - rewrite Z.shiftr_shiftr by lia. replace (Z.of_nat n + 1) with (Z.of_nat (n + 1)) by lia. apply IH. lia.
Qed.
End bits.

(** ** Storage *)

Lemma num_bytes_ok {P : profile} size : size_wf size → num_bytes size = Ok (size_len size).
Proof. intros [H1 H2 H3]. unfold num_bytes, size_len. rewrite (sub_u_ok 64 (end_byte size)), M_bind_Ok, (add_u_ok 64 (end_byte size - start_byte size)) by (unfold is_u; lia). done. Qed.
Lemma mul_u32_ok {P : profile} a b : is_u 32 (a * b) → mul_u32 a b = Ok (a * b).
Proof. intros H. unfold mul_u32. by rewrite bool_decide_true. Qed.

(** Mapping over a list with a state that keeps an invariant. *)
Lemma map_storage_ok {A : Arch} {S : SmtSolver} {X Y V} (f : StorageLocations → X → M (Y * StorageLocations)) (I : StorageLocations → Prop)
    (R : Y → V → Prop) l vs :
  Forall2 (λ x v, ∀ st, I st → ∃ y st', f st x = Ok (y, st') ∧ I st' ∧ R y v) l vs →
  ∀ st, I st → ∃ k st', map_storage f st l = Ok (k, st') ∧ I st' ∧ Forall2 R k vs.
Proof.
  induction 1 as [|x v l vs Hx _ IH]; intros st Hst; cbn [map_storage]; [by exists [], st|].
  destruct (Hx st Hst) as (y & st1 & -> & H1 & Hr). rewrite M_bind_Ok.
  destruct (IH st1 H1) as (k & st2 & -> & H2 & Hk). rewrite M_bind_Ok. exists (y :: k), st2. by repeat split; [..|constructor].
Qed.

Section storage.
Context {P : profile} {A : Arch} {S : SmtSolver} {L : SmtLaws S} (reg_name : Reg → string) (sizes : Sizes).

(** The constant of a location. *)
Definition location_bv (key : FilledLocation) : M BV :=
  name ← storage_name reg_name key; size ← bit_size key sizes; Ok (new_bv_const name size).
Definition raw_bv (key : FilledLocation) : M BV := if is_zero_location key then Ok (zero_bv key) else location_bv key.
(** Every entry is the constant of its location. *)
Record storage_ok (st : StorageLocations) : Prop := {
  storage_instr_ok : storage_instr st = new_bv_const "instr" 128;
  storage_map_ok key bv : (key, bv) ∈ storage_map st → location_bv key = Ok bv;
}.
Lemma storage_new_ok : storage_ok storage_new.
Proof. split; [done|]. intros key bv H. by apply elem_of_nil in H. Qed.
Lemma storage_entry_ok st key bv : storage_ok st → location_bv key = Ok bv →
  ∃ st', storage_entry reg_name st key sizes = Ok (bv, st') ∧ storage_ok st'.
Proof.
  intros [H1 H2] Hk. unfold storage_entry. destruct (list_find _ _) as [[n [k b]]|] eqn:E; cbn [fmap option_fmap option_map snd].
  - apply list_find_Some in E as (Hn & Ek & _). cbn in Ek. subst k. exists st. split; [|by split].
    apply list_elem_of_lookup_2 in Hn. apply H2 in Hn. rewrite Hn in Hk. by apply (inj Ok) in Hk as ->.
  - pose proof Hk as Hk'. unfold location_bv in Hk. M_inv Hk. apply (inj Ok) in Hk as <-. rewrite E0, M_bind_Ok, E1, M_bind_Ok.
    eexists. split; [done|]. split; [done|]. cbn. intros k b [H|H]%elem_of_app; [by apply H2|]. by apply list_elem_of_singleton in H as [= -> ->].
Qed.
Lemma storage_get_raw_ok st key bv : storage_ok st → raw_bv key = Ok bv →
  ∃ st', storage_get_raw reg_name st key sizes = Ok (bv, st') ∧ storage_ok st'.
Proof.
  intros Hst Hk. unfold raw_bv, storage_get_raw in *. destruct (is_zero_location key); [|by apply storage_entry_ok]. apply (inj Ok) in Hk as <-. by exists st.
Qed.

(** The constant of a location has a value, which the mask of a register keeps. *)
Record holds (key : FilledLocation) (w x : Z) : Prop := {
  holds_size : bit_size key sizes = Ok w;
  holds_u32 : is_u 32 w;
  holds_value : ∃ bv, raw_bv key = Ok bv ∧ den bv w x;
  holds_mask r mask : key = FLConcrete (LReg r) → reg_mask r = Some mask → Z.land x mask = x;
}.
Lemma storage_get_ok st key w x : storage_ok st → holds key w x →
  ∃ bv st', storage_get reg_name st key sizes = Ok (bv, st') ∧ storage_ok st' ∧ den bv w x.
Proof using L.
  intros Hst [Hs _ (bv & Hr & Hd) Hm]. unfold storage_get, raw_bv in *. destruct (is_zero_location key) eqn:Ez.
  - apply (inj Ok) in Hr as <-. by exists (zero_bv key), st.
  - destruct (storage_entry_ok st key bv Hst Hr) as (st' & -> & Hst'). rewrite M_bind_Ok.
    assert (∀ mask, match key with FLConcrete (LReg reg) => reg_mask reg | _ => None end = Some mask → Z.land x mask = x) as Hx.
    { intros mask Hmask. destruct key as [[r|m]|n]; [|done..]. by apply (Hm r). }
    clear Hm. destruct (match key with FLConcrete (LReg reg) => reg_mask reg | _ => None end) as [mask|]; [|by exists bv, st'].
    rewrite Hs, M_bind_Ok. eexists _, st'. split; [done|]. split; [done|]. pose proof (den_pos _ _ _ Hd) as Hw.
    eapply den_eq; [apply (den_and _ _ w x _ Hd (den_u64 mask w Hw))|done|]. pose proof (den_range _ _ _ Hd) as Hu.
    rewrite <- (Hx mask eq_refl) at 2. apply Z.bits_inj'. intros i Hi. rewrite !Z.land_spec, testbit_wrap by lia.
    destruct (Z.ltb_spec i w); [done|]. by rewrite (testbit_u_high w x) by (done || lia).
Qed.
Lemma storage_get_sized_ok st key w x size is_bytes : storage_ok st → holds key w x → size_wf size → 8 * (end_byte size + 1) <= w →
  ∃ bv st', storage_get_sized reg_name st key sizes size is_bytes = Ok (bv, st') ∧ storage_ok st' ∧
    den bv (8 * size_len size) (let u := wrap (8 * size_len size) (Z.shiftr x (8 * start_byte size)) in
                                if is_bytes then swap_bytes (Z.to_nat (size_len size)) u else u).
Proof using L.
  intros Hst Hk Hsize Hw. destruct (storage_get_ok st key w x Hst Hk) as (bv & st' & E & Hst' & Hd). pose proof Hk as [_ [_ H32] _ _].
  pose proof Hsize as [W1 W2 W3]. unfold storage_get_sized. rewrite E, M_bind_Ok. rewrite (wrap_small 32 (end_byte size)), (wrap_small 32 (start_byte size)) by (unfold is_u; lia).
  rewrite (mul_u32_ok (end_byte size)), M_bind_Ok, (add_u_ok 32 (end_byte size * 8) 7), M_bind_Ok, (mul_u32_ok (start_byte size)), M_bind_Ok by (unfold is_u; lia).
  pose proof (den_extract (end_byte size * 8 + 7) (start_byte size * 8) bv w x ltac:(lia) ltac:(lia) Hd) as He.
  replace (end_byte size * 8 + 7 - start_byte size * 8 + 1) with (8 * size_len size) in He by (unfold size_len; lia).
  rewrite (Z.mul_comm (start_byte size)) in *. destruct is_bytes.
  - rewrite num_bytes_ok, M_bind_Ok by done.
    assert (1 <= size_len size) as Hlen by (unfold size_len; lia).
    destruct (bv_swap_bytes_ok _ _ _ (Z.to_nat (size_len size)) He) as (r & -> & Hr); [lia..|]. rewrite M_bind_Ok. exists r, st'. split; [done|].
    split; [done|]. eapply den_eq; [exact Hr|lia|done].
  - eexists _, st'. split; [done|]. split; [done|]. exact He.
Qed.

(** The bits of a part in the instruction. *)
Lemma instr_bits_ok {C} (e : Encoding C) st i n v : storage_ok st → (length (enc_bits e) <= 128)%nat → reads (enc_bits e) i n v → (0 < part_width (enc_bits e) n)%nat →
  (∀ j, (j < length (enc_bits e))%nat → Z.testbit (bv_val (new_bv_const "instr" 128)) (Z.of_nat j) = rbit i j) →
  ∃ b, instr_bits st (part_bit_indices e n) = Ok b ∧ den b (Z.of_nat (part_width (enc_bits e) n)) v.
Proof using L.
  intros [H1 _] Hlen Hr Hn Hi. unfold instr_bits. rewrite H1. change (part_bit_indices e n) with (bit_indices (enc_bits e) n).
  destruct (bit_indices_reads (enc_bits e) n i) as [_ El].
  destruct (reduce_bits ((λ index, bv_extract (Z.of_nat index) (Z.of_nat index) (new_bv_const "instr" 128)) <$> bit_indices (enc_bits e) n)
    (rbit i <$> bit_indices (enc_bits e) n)) as (r & Er & Hd).
  - apply Forall2_fmap, Forall_Forall2_diag, Forall_forall. intros j Hj%bit_indices_bound. rewrite <- Hi by done.
    apply (den_bit _ 128); [lia|]. split; [by apply law_const|done].
  - intros E. apply (f_equal length) in E. rewrite length_fmap, El in E. cbn in E. lia.
  - rewrite Er. exists r. split; [done|]. rewrite (reads_bits_num _ _ _ _ Hr). eapply den_eq; [exact Hd|by rewrite length_fmap, El|done].
Qed.
End storage.

(** ** The parts that places belong to *)

Section places.
Context {P : profile} {A : Arch} {C : Type}.

Lemma find_placed (f : Part → bool) loc parts (pv : list Z) : (∀ part, f part = true ↔ loc ∈ part_locations (part_mapping part)) → length pv = length parts →
  match find_part f parts with
  | Some (n, part) => parts !! n = Some part ∧ loc ∈ part_locations (part_mapping part) ∧
      ∃ v, pv !! n = Some v ∧ placed (interps parts (Some <$> pv)) loc = Some (interp_of part (Some v))
  | None => placed (interps parts (Some <$> pv)) loc = None ∧ ∀ n part, parts !! n = Some part → loc ∉ part_locations (part_mapping part)
  end.
Proof.
  intros Hf. unfold find_part, interps. revert pv. induction parts as [|part parts IH]; intros [|v pv] Hl; try done.
  cbn [list_find fmap list_fmap zip zip_with placed fst snd]. cbn in Hl. specialize (IH pv ltac:(lia)). case_decide as Hd.
  - rewrite Hf in Hd. split; [done|]. split; [done|]. exists v. split; [done|]. rewrite bool_decide_true; [done|]. split; [by eexists|done].
  - rewrite bool_decide_false by (intros [_ ?]; by rewrite Hf in Hd). destruct (list_find _ parts) as [[n p]|]; cbn [fmap option_fmap option_map prod_map id]; [done|].
    destruct IH as [IH1 IH2]. split; [done|]. intros [|n] p Hp; [|by apply (IH2 n)]. injection Hp as <-. by rewrite Hf in Hd.
Qed.
Lemma has_input_spec o i part : has_input o i part = true ↔ VInputForOutput o i ∈ part_locations (part_mapping part).
Proof.
  unfold has_input, part_locations. destruct (part_mapping part); [|set_solver|by rewrite bool_decide_eq_true]. rewrite bool_decide_eq_true, list_elem_of_fmap.
  split; [intros H; by exists (InputForOutput o i)|]. by intros ([] & [= -> ->] & H).
Qed.
Lemma has_output_spec o part : has_output o part = true ↔ VOutput o ∈ part_locations (part_mapping part).
Proof.
  unfold has_output, part_locations. destruct (part_mapping part); [|set_solver|by rewrite bool_decide_eq_true]. split; [done|].
  by intros ([] & ? & _)%list_elem_of_fmap.
Qed.
End places.

(** ** Ranges of values *)

(** A value as a number with its least significant byte first, which is how it is
    stored in a location. *)
Definition value_le (v : Value) : Z := match v with Num n => n | Bytes b => from_le_bytes b end.
Definition is_bytes_value (v : Value) : bool := match v with Num _ => false | Bytes _ => true end.

Lemma from_le_bytes_cut b start n : is_bytes b → (start + n <= length b)%nat →
  from_le_bytes (take n (drop start b)) = wrap (8 * Z.of_nat n) (Z.shiftr (from_le_bytes b) (8 * Z.of_nat start)).
Proof.
  intros Hb Hl. assert (is_bytes (take n (drop start b))) as Hc by by apply Forall_take, Forall_drop.
  apply (u_ext (8 * Z.of_nat n)); [lia| |apply wrap_is_u; lia|].
  { eapply is_u_mono; [|by apply from_le_bytes_is_u]. rewrite length_take. lia. }
  intros i Hi. rewrite testbit_wrap, Z.shiftr_spec, !testbit_from_le_bytes by (done || lia). rewrite (proj2 (Z.ltb_lt _ _)) by lia. cbn [andb].
  replace ((i + 8 * Z.of_nat start) `div` 8) with (i `div` 8 + Z.of_nat start) by (Z.to_euclidean_division_equations; lia).
  replace ((i + 8 * Z.of_nat start) `mod` 8) with (i `mod` 8) by (Z.to_euclidean_division_equations; lia).
  pose proof (Z.div_pos i 8 ltac:(lia) ltac:(lia)). assert (i `div` 8 < Z.of_nat n) by (apply Z.div_lt_upper_bound; lia).
  rewrite lookup_take_lt, lookup_drop by lia. do 3 f_equal. lia.
Qed.
Lemma value_num_cut size v : inside size v → value_wf v → value_num (cut size v) =
  let u := wrap (8 * size_len size) (Z.shiftr (value_le v) (8 * start_byte size)) in
  if is_bytes_value v then swap_bytes (Z.to_nat (size_len size)) u else u.
Proof.
  intros ([H1 H2 H3] & Hi & _) Hv. destruct v as [n|b]; cbn in *.
  - apply land_ones_wrap. unfold size_len. lia.
  - assert (1 <= size_len size) by (unfold size_len; lia). assert (Z.to_nat (start_byte size) + Z.to_nat (size_len size) <= length b)%nat by (unfold size_len; lia).
    set (c := take (Z.to_nat (size_len size)) (drop (Z.to_nat (start_byte size)) b)).
    assert (wrap (8 * size_len size) (Z.shiftr (from_le_bytes b) (8 * start_byte size)) = from_le_bytes c) as ->.
    { unfold c. by rewrite from_le_bytes_cut, !Z2Nat.id by (done || lia). }
    assert (length c = Z.to_nat (size_len size)) as <- by (unfold c; rewrite length_take, length_drop; lia).
    by rewrite swap_from_le by by apply Forall_take, Forall_drop.
Qed.

(** ** Inputs of a computation *)

Section model.
Context {P : profile} {A : Arch} {AL : ArchLaws A} {S : SmtSolver} {L : SmtLaws S} {C : Type} (reg_name : Reg → string) (s : SystemState).

(** The constants of registers and memory accesses have the values of the state [s];
    masked bits are clear. *)
Definition register_bv (r : Reg) : BV :=
  if reg_is_zero r then bv_from_u64 0 (byte_size r * 8) else new_bv_const ("r" +:+ reg_name r)%string (byte_size r * 8).
Definition memory_bv (m : nat) : BV := new_bv_const ("m" +:+ pretty m)%string 256.
Record state_known : Prop := {
  known_width r : r ∈ iter_regs → 0 < byte_size r < 2 ^ 29;
  known_reg r v : r ∈ iter_regs → cpu_reg (cpu s) r = Ok v →
    bv_val (register_bv r) = value_le v ∧ ∀ mask, reg_mask r = Some mask → Z.land (value_le v) mask = value_le v;
  known_mem m e : mem_data (memory s) !! m = Some e → bv_val (memory_bv m) = from_le_bytes (entry_data e);
}.
(** The constant of the instruction has its bits. *)
Definition instr_known (i : Instruction) : Prop :=
  ∀ j, (j < 8 * length (bytes i))%nat → Z.testbit (bv_val (new_bv_const "instr" 128)) (Z.of_nat j) = rbit i j.
(** The constants of register parts have the values of the registers that they select. *)
Definition part_bv (n : nat) (r : Reg) : BV := new_bv_const ("part" +:+ default "" (PART_NAMES !! n))%string (byte_size r * 8).
Definition part_known (part : Part) (n : nat) (v : Z) : Prop :=
  ∀ mapping locs r, part_mapping part = PRegister mapping locs → mapping !! Z.to_nat v = Some (Some r) → bv_val (part_bv n r) = bv_val (register_bv r).
Definition parts_known (e : Encoding C) (pv : list Z) : Prop :=
  ∀ n part v, enc_parts e !! n = Some part → pv !! n = Some v → part_known part n v.

(** Encodings that have a model: named parts with at least one bit, the registers of a
    part alike in size and kind, and targets of at most 16 bytes. *)
Record model_ok (e : Encoding C) : Prop := {
  mo_enc : enc_ok e;
  mo_names : (length (enc_parts e) <= length PART_NAMES)%nat;
  mo_bits n part : enc_parts e !! n = Some part → (∀ m l, part_mapping part ≠ PMemory m l) → (0 < part_size part)%nat;
  mo_imm n part m locs bits : enc_parts e !! n = Some part → part_mapping part = PImm m locs (Some bits) → bits ≠ [];
  mo_registers n part mapping locs : enc_parts e !! n = Some part → part_mapping part = PRegister mapping locs →
    (∃ r, Some r ∈ mapping) ∧ ∀ r, Some r ∈ mapping → r ∈ iter_regs ∧ ∀ r', Some r' ∈ mapping → byte_size r' = byte_size r;
  mo_kinds n part mapping locs loc r0 sz r : enc_parts e !! n = Some part → part_mapping part = PRegister mapping locs → loc ∈ locs →
    source_at (enc_dataflows e) loc (SDest (DReg r0 sz)) → Some r ∈ mapping → is_bytes_type (reg_type r) = is_bytes_type (reg_type r0);
  mo_targets o flow : outputs (enc_dataflows e) !! o = Some flow → size_wf (dest_size (target flow)) ∧ size_len (dest_size (target flow)) <= 16;
}.

(** An input that can be read and fits the bit vector of its location. *)
Definition location_width (l : Location) : Z := match l with LReg r => byte_size r * 8 | LMemory _ => 256 end.
Definition source_known (src : Source) : Prop :=
  match src with
  | SDest d => dest_ok s d ∧ 8 * (end_byte (dest_size d) + 1) <= location_width (location_from_dest d) ∧ size_len (dest_size d) <= 16
  | SImm _ => False
  | SConst v _ => is_u 128 v
  end.

Context (e : Encoding C) (sizes : Sizes).

Lemma sizes_ok : model_ok e → ∃ sizes, sizes_from_encoding e = Ok sizes ∧
  ∀ n part mapping locs r, enc_parts e !! n = Some part → part_mapping part = PRegister mapping locs → Some r ∈ mapping →
    part_sizes sizes !! n = Some (byte_size r * 8).
Proof.
  intros He. unfold sizes_from_encoding.
  assert (∀ (mapping : list (option Reg)) w, (∀ r, Some r ∈ mapping → byte_size r = w) → (∃ r, Some r ∈ mapping) →
    all_equal (byte_size <$> omap id mapping) = true ∧ vget (byte_size <$> omap id mapping) 0 = Ok w) as Hm.
  { intros mapping w Hw [r0 Hr0]. assert (Forall (λ x, x = w) (byte_size <$> omap id mapping)) as Hall.
    { apply Forall_forall. intros x (r & -> & Hr)%list_elem_of_fmap. apply list_elem_of_omap in Hr as ([r'|] & Hin & [= ->]). by apply Hw. }
    assert (byte_size <$> omap id mapping ≠ []) as Hne.
    { intros E%fmap_nil_inv. assert (r0 ∈ omap id mapping) as H0 by (apply list_elem_of_omap; by exists (Some r0)). rewrite E in H0. by apply elem_of_nil in H0. }
    destruct Hall as [|x l -> Hl]; [done|]. split; [|done]. clear Hne. induction Hl as [|y l -> Hl IH]; [done|]. cbn. by rewrite Z.eqb_refl. }
  match goal with |- context [mapM ?f _] => destruct (mapM_exists f (enc_parts e)) as [l Hl] end.
  { intros part [n Hn]%list_elem_of_lookup. destruct (part_mapping part) as [| |mapping locs] eqn:Em; [eauto..|].
    destruct (mo_registers e He n part mapping locs Hn Em) as [[r Hr] Hs]. destruct (Hs r Hr) as [_ Hs'].
    destruct (Hm mapping (byte_size r)) as [E1 E2]; [done|by exists r|]. rewrite E1. cbn [rassert]. rewrite M_bind_Ok, E2, M_bind_Ok. eauto. }
  rewrite Hl, M_bind_Ok. eexists. split; [done|]. cbn. intros n part mapping locs r Hn Em Hr. apply mapM_Forall2 in Hl.
  destruct (Forall2_lookup_l _ _ _ _ _ Hl Hn) as (w & Hw & E). rewrite Em in E. destruct (mo_registers e He n part mapping locs Hn Em) as [_ Hs].
  destruct (Hm mapping (byte_size r)) as [E1 E2]; [intros r' Hr'; by apply Hs|by exists r|]. rewrite E1 in E. cbn [rassert] in E.
  rewrite M_bind_Ok, E2, M_bind_Ok in E. apply (inj Ok) in E as <-. done.
Qed.

(** *** Locations *)

Context (Hs : state_wf s) (Hk : state_known) (He : model_ok e) (Esizes : sizes_from_encoding e = Ok sizes).

Lemma register_den r v : r ∈ iter_regs → cpu_reg (cpu s) r = Ok v → den (register_bv r) (byte_size r * 8) (value_le v).
Proof using Hk.
  intros Hr Hv. pose proof (known_width Hk r Hr) as Hw. destruct (known_reg Hk r v Hr Hv) as [E _]. split; [|done].
  unfold register_bv. destruct (reg_is_zero r); [apply law_from_u64; lia|apply law_const; lia].
Qed.
Lemma location_holds l v : loc_ok s l → location s l = Ok v → holds reg_name sizes (FLConcrete l) (location_width l) (value_le v).
Proof using Hk.
  destruct l as [r|m]; cbn [loc_ok location location_width]; intros Hl Hv.
  - pose proof (known_width Hk r Hl) as Hw. split; [done|unfold is_u; lia| |].
    + exists (register_bv r). split; [|by apply register_den]. unfold raw_bv, register_bv, location_bv. cbn. by destruct (reg_is_zero r).
    + intros r' mask [= <-]. by apply (known_reg Hk r v).
  - unfold Mem.data, Mem.get in Hv. M_inv Hv. apply (inj Ok) in Hv as <-. apply (inj Ok) in E as <-. split; [done|unfold is_u; lia| |done].
    exists (memory_bv m). split; [done|]. split; [apply law_const; lia|]. cbn. by apply (known_mem Hk).
Qed.
Lemma part_holds n part mapping locs v r v0 : enc_parts e !! n = Some part → part_mapping part = PRegister mapping locs →
  mapping !! Z.to_nat v = Some (Some r) → part_known part n v → cpu_reg (cpu s) r = Ok v0 → holds reg_name sizes (FLPart n) (byte_size r * 8) (value_le v0).
Proof using Hk He Esizes.
  intros Hn Em Hr Hp Hv. pose proof (list_elem_of_lookup_2 _ _ _ Hr) as Hin. destruct (mo_registers e He n part mapping locs Hn Em) as [_ Hregs].
  destruct (Hregs r Hin) as [Hreg _]. pose proof (known_width Hk r Hreg) as Hw. destruct (sizes_ok He) as (sizes' & E & Hsz). rewrite Esizes in E. apply (inj Ok) in E as <-.
  assert (bit_size (FLPart n) sizes = Ok (byte_size r * 8)) as Esize.
  { cbn [bit_size]. unfold vget. rewrite (Hsz n part mapping locs r Hn Em Hin). cbn [unwrap]. rewrite M_bind_Ok, wrap_small by (unfold is_u; lia). done. }
  split; [done|unfold is_u; lia| |done]. exists (part_bv n r). split.
  - unfold raw_bv, location_bv, part_bv. cbn [is_zero_location storage_name]. unfold vget. pose proof (lookup_lt_Some _ _ _ Hn). pose proof (mo_names e He).
    destruct (lookup_lt_is_Some_2 PART_NAMES n) as [name Ename]; [lia|]. rewrite Ename. cbn [unwrap default]. by rewrite !M_bind_Ok, Esize, M_bind_Ok.
  - split; [apply law_const; lia|]. rewrite (Hp mapping locs r Em Hr). by apply (register_den r).
Qed.

(** *** Inputs *)

(** The input of a register, a memory access or a part, from the value of the location. *)
Lemma sized_input_ok key w v size st : storage_ok reg_name sizes st → holds reg_name sizes key w (value_le v) → inside size v → value_wf v →
  8 * (end_byte size + 1) <= w → size_len size <= 16 →
  ∃ b st', (n ← num_bytes size;
            input_bit_size ← mul_u32 (wrap 32 n) 8;
            '(bv, st) ← storage_get_sized reg_name st key sizes size (is_bytes_value v);
            if input_bit_size <? 128 then k ← sub_u 32 128 input_bit_size; Ok (zero_ext k bv, st) else Ok (bv, st)) = Ok (b, st') ∧
    storage_ok reg_name sizes st' ∧ den b 128 (value_num (cut size v)).
Proof using L.
  intros Hst Hh Hin Hv Hw Hlen. pose proof Hin as (Hsize & _). pose proof Hsize as [W1 W2 W3]. assert (1 <= size_len size) as H1 by (unfold size_len; lia).
  rewrite num_bytes_ok, M_bind_Ok, wrap_small, (mul_u32_ok (size_len size)), M_bind_Ok by (done || unfold is_u; lia).
  destruct (storage_get_sized_ok reg_name sizes st key w _ size (is_bytes_value v) Hst Hh Hsize Hw) as (b & st' & -> & Hst' & Hd). rewrite M_bind_Ok.
  rewrite value_num_cut by done. rewrite (Z.mul_comm (size_len size)). destruct (Z.ltb_spec (8 * size_len size) 128).
  - rewrite (sub_u_ok 32 128 (8 * size_len size)), M_bind_Ok by (unfold is_u; lia). eexists _, st'. split; [done|]. split; [done|].
    eapply den_eq; [apply (den_zero_ext (128 - 8 * size_len size)); [lia|exact Hd]|lia|done].
  - exists b, st'. split; [done|]. split; [done|]. eapply den_eq; [exact Hd|lia|done].
Qed.
(** What [filled_inputs] passes on for an input that has the value [v]. *)
Definition input_denotes (fi : FilledInput) (v : Value) : Prop :=
  ∀ st, storage_ok reg_name sizes st → ∃ b st', create_input reg_name e sizes st fi = Ok (b, st') ∧ storage_ok reg_name sizes st' ∧ den b 128 (value_num v).

Lemma value_kind r v : r ∈ iter_regs → cpu_reg (cpu s) r = Ok v → is_bytes_type (reg_type r) = is_bytes_value v.
Proof using Hs.
  intros Hr Hv. destruct (law_read (cpu s) r (wf_cpu s Hs) Hr) as (v' & Hv' & Ht & _). rewrite Hv in Hv'. apply (inj Ok) in Hv' as <-.
  by destruct v, (reg_type r).
Qed.
Lemma value_type_kind d r sz : d = DReg r sz → size_wf sz → ∃ t, dest_value_type d = Ok t ∧ is_bytes_type t = is_bytes_type (reg_type r).
Proof. intros -> Hsz. cbn. destruct (reg_type r); [by eexists|]. rewrite num_bytes_ok, M_bind_Ok by done. by eexists. Qed.

Lemma concrete_dest_ok d v : source_known (SDest d) → get_dest s d = Ok v → input_denotes (FIConcrete (SDest d)) v.
Proof using Hs Hk L.
  intros (Hd & Hw & Hlen) Hv st Hst. destruct (get_dest_ok s d Hs Hd) as (v0 & Hl & Hwf & Hin & E). rewrite Hv in E. apply (inj Ok) in E as ->.
  destruct (sized_input_ok (FLConcrete (location_from_dest d)) (location_width (location_from_dest d)) v0 (dest_size d) st)
    as (b & st' & E & Hst' & Hb); [done| |done..|].
  { apply location_holds; [apply Hd|done]. }
  exists b, st'. split; [|done]. unfold create_input, create_normal, filled_input_size, filled_is_bytes, location_of_input. cbn [source_size unwrap_dest].
  rewrite !M_bind_Ok. cbn [default]. assert (∃ t, dest_value_type d = Ok t ∧ is_bytes_type t = is_bytes_value v0) as (t & -> & Ht).
  { destruct d as [r sz|m sz]; cbn [location_from_dest location dest_size] in *.
    - destruct Hd as [Hr _]. rewrite <- (value_kind r v0) by done. apply (value_type_kind _ r sz); [done|apply Hin].
    - unfold Mem.data in Hl. M_inv Hl. apply (inj Ok) in Hl as <-. cbn. rewrite num_bytes_ok, M_bind_Ok by apply Hin. by eexists. }
  rewrite !M_bind_Ok, Ht. exact E.
Qed.

(** *** Parts *)

Context (pv : list Z) (i : Instruction).
Context (Hpv : all_values e pv) (Hgood : ~ bad_parts e (Some <$> pv)) (Hlen : (length (enc_bits e) <= 8 * length (bytes i))%nat).
Context (Hwf : instr_wf i) (Hreads : ∀ n v, pv !! n = Some v → reads (enc_bits e) i n v) (Hi : instr_known i).

Lemma part_bits_ok st n part v : storage_ok reg_name sizes st → enc_parts e !! n = Some part → (∀ m l, part_mapping part ≠ PMemory m l) → pv !! n = Some v →
  ∃ b, instr_bits st (part_bit_indices e n) = Ok b ∧ den b (Z.of_nat (part_size part)) v ∧ (0 < part_size part <= 64)%nat.
Proof using Hwf Hreads Hi He Hlen L.
  intros Hst Hn Hm Hv. destruct (ok_parts e (mo_enc e He) n part Hn) as [_ Esize]. pose proof (mo_bits e He n part Hn Hm) as Hpos.
  pose proof (bytes_wf i Hwf) as [_ Hmax]. unfold MAX_LEN in Hmax. rewrite Esize in *.
  destruct (instr_bits_ok reg_name sizes e st i n v Hst ltac:(lia) (Hreads n v Hv) Hpos) as (b & Hb & Hd); [intros j Hj; apply Hi; lia|].
  exists b. split_and!; [done..|lia|]. apply (enc_wf_narrow e (ok_wf e (mo_enc e He))).
Qed.
Lemma meaning_good n part v : enc_parts e !! n = Some part → pv !! n = Some v → is_Some (meaning part v).
Proof using Hgood.
  intros Hn Hv. destruct (meaning part v) as [m|] eqn:E; [by eexists|]. destruct Hgood. apply Exists_exists. exists (part, Some v). split; [|by exists v].
  apply (list_elem_of_lookup_2 _ n), lookup_zip_Some. by rewrite list_lookup_fmap, Hv.
Qed.

Lemma imm_input_ok n part m locs bits v : enc_parts e !! n = Some part → part_mapping part = PImm m locs bits → pv !! n = Some v →
  input_denotes (FIConcrete (SImm n)) (Num (match bits with Some bits => imm_fill bits v | None => v end)).
Proof using Hwf Hreads Hi He Hlen L.
  intros Hn Em Hv st Hst. unfold create_input, vget. rewrite Hn. cbn [unwrap]. rewrite M_bind_Ok, Em. unfold create_imm.
  destruct (part_bits_ok st n part v Hst Hn) as (b & -> & Hd & Hsz); [by rewrite Em|done|]. rewrite !M_bind_Ok, (wrap_small 32) by (unfold is_u; lia).
  rewrite (sub_u_ok 32 128 (Z.of_nat (part_size part))), M_bind_Ok by (unfold is_u; lia). apply (den_zero_ext (128 - Z.of_nat (part_size part))) in Hd; [|lia].
  rewrite Zplus_minus in Hd. set (w := zero_ext _ b) in *. destruct bits as [bits|]; [|rewrite M_bind_Ok; by exists w, st].
  destruct (ok_parts e (mo_enc e He) n part Hn) as [Hpart _]. pose proof (part_wf_bits part Hpart bits ltac:(eauto)) as H64.
  pose proof (mo_imm e He n part m locs bits Hn Em) as Hne. pose proof (imm_bits_den w 128 v 0 bits Hd ltac:(lia)) as Hbits.
  destruct (fill_bits_num bits v) as [E1 E2]. apply reduce_bits in Hbits as (r & -> & Hr).
  2: { destruct bits as [|[] ?]; done. }
  cbn [unwrap]. rewrite Z.shiftr_0_r, E1, E2 in Hr. rewrite !M_bind_Ok, (wrap_small 32) by (unfold is_u; lia).
  rewrite (sub_u_ok 32 128 (Z.of_nat (length bits))), !M_bind_Ok by (unfold is_u; lia). eexists _, st. split; [done|]. split; [done|].
  eapply den_eq; [apply (den_zero_ext (128 - Z.of_nat (length bits))); [lia|exact Hr]|lia|done].
Qed.
Lemma part_input_ok n part mapping locs loc r0 sz r v v0 : enc_parts e !! n = Some part → part_mapping part = PRegister mapping locs → pv !! n = Some v →
  mapping !! Z.to_nat v = Some (Some r) → part_known part n v → loc ∈ locs → source_at (enc_dataflows e) loc (SDest (DReg r0 sz)) →
  source_known (SDest (DReg r sz)) → get_dest s (DReg r sz) = Ok v0 →
  input_denotes (FIPart n (Some sz) (is_bytes_type (reg_type r0))) v0.
Proof using Hs Hk He Esizes L.
  intros Hn Em Hv Hr Hp Hloc Hsrc (Hd & Hw & Hl) Hv0 st Hst. destruct (get_dest_ok s (DReg r sz) Hs Hd) as (v1 & Hl1 & Hwf1 & Hin & E).
  rewrite Hv0 in E. apply (inj Ok) in E as ->. cbn [location_from_dest dest_size location location_width] in *.
  destruct (sized_input_ok (FLPart n) (byte_size r * 8) v1 sz st) as (b & st' & E & Hst' & Hb); [done|by eapply part_holds|done..|].
  exists b, st'. split; [|done]. unfold create_input, create_normal. cbn [filled_input_size filled_is_bytes location_of_input]. rewrite !M_bind_Ok. cbn [default].
  rewrite <- (mo_kinds e He n part mapping locs loc r0 sz r Hn Em Hloc Hsrc ltac:(by eapply list_elem_of_lookup_2)).
  rewrite (value_kind r v1) by (apply Hd || done). exact E.
Qed.

(** Every input of a dataflow has the value of the instantiated input. *)
Lemma filled_input_ok o k src v : parts_known e pv → source_at (enc_dataflows e) (VInputForOutput o k) src →
  source_known (replaced (enc_parts e) (Some <$> pv) (VInputForOutput o k) src) →
  read_input s (replaced (enc_parts e) (Some <$> pv) (VInputForOutput o k) src) = Ok v →
  ∃ fi, filled_input e o k src = Ok fi ∧ input_denotes fi v.
Proof using All.
  intros Hp Hsrc Hknown Hread. unfold filled_input.
  pose proof (find_placed (has_input o k) (VInputForOutput o k) (enc_parts e) pv (has_input_spec o k) (all_values_length e pv Hpv)) as Hfind.
  unfold replaced in *. destruct (find_part _ _) as [[n part]|].
  - destruct Hfind as (Hn & Hloc & v' & Hv' & Epl). rewrite Epl in *. cbn [interp_of] in *. destruct (meaning_good n part v' Hn Hv') as [m Hm].
    rewrite Hm in *. cbn [default] in *. unfold meaning in Hm. destruct (part_mapping part) as [mp locs bits|? ?|mapping locs] eqn:Em; [| |].
    + eexists. split; [done|]. assert (∃ nb x, m = IConst nb x (match bits with Some bits => imm_fill bits v' | None => v' end)) as (nb & x & ->).
      { destruct mp as [[|]|]; [case_bool_decide; [|done]|..]; injection Hm as <-; eauto. }
      cbn in Hread. apply (inj Ok) in Hread as <-. by eapply imm_input_ok.
    + by apply elem_of_nil in Hloc.
    + destruct (mapping !! Z.to_nat v') as [[r|]|] eqn:Er; [|done..]. cbn in Hm. injection Hm as <-. cbn [part_locations] in Hloc.
      destruct (ok_registers e (mo_enc e He) part mapping locs _ src ltac:(by eapply list_elem_of_lookup_2) Em Hloc Hsrc) as (r0 & sz & ->).
      cbn [source_size]. rewrite !M_bind_Ok. destruct (value_type_kind (DReg r0 sz) r0 sz eq_refl) as (t & -> & Et).
      { cbn in Hknown. destruct Hknown as ((Hl & Hin) & _). destruct (location_ok s _ Hs Hl) as (v1 & Hv1 & _). apply (Hin v1 Hv1). }
      rewrite !M_bind_Ok, Et. eexists. split; [done|]. eapply part_input_ok; try done. by eapply Hp.
  - destruct Hfind as [Epl Hno]. rewrite Epl in *. eexists. split; [done|]. unfold renumbered in *. destruct src as [d|n|c nb].
    + by apply concrete_dest_ok.
    + destruct (ok_immediates e (mo_enc e He) _ n Hsrc) as (part & m & locs & bits & Hn & _ & Hl). by destruct (Hno n part Hn).
    + cbn in Hread, Hknown. apply (inj Ok) in Hread as <-. intros st Hst. cbn. eexists _, st. split; [done|]. split; [done|].
      eapply den_eq; [by apply den_u64|done|]. by apply wrap_small.
Qed.

(** *** Constraints *)

Notation all_true := (Forall (λ c, bool_val c = true)).

Lemma raw_register r : raw_bv reg_name sizes (FLConcrete (LReg r)) = Ok (register_bv r).
Proof. unfold raw_bv, register_bv, location_bv. cbn. by destruct (reg_is_zero r). Qed.
Lemma register_bv_size r : r ∈ iter_regs → get_size (register_bv r) = byte_size r * 8.
Proof using Hk.
  clear Hlen. intros Hr. pose proof (known_width Hk r Hr). unfold register_bv. destruct (reg_is_zero r); [apply law_from_u64|apply law_const]; lia.
Qed.
Lemma register_assertions_ok bits part_val sz w v : den bits (Z.of_nat sz) v → get_size part_val = w * 8 → ∀ mapping index st,
  (∀ r, Some r ∈ mapping → r ∈ iter_regs ∧ byte_size r = w) → Z.of_nat (index + length mapping) <= 2 ^ Z.of_nat sz → storage_ok reg_name sizes st →
  ∃ l st', register_assertions reg_name st sizes bits part_val (Z.of_nat sz) index mapping = Ok (l, st') ∧ storage_ok reg_name sizes st' ∧
    (all_true l ↔ ∀ j r, mapping !! j = Some (Some r) → v = Z.of_nat (index + j) → bv_val part_val = bv_val (register_bv r)).
Proof using Hk L.
  clear Hlen Hpv. intros Hbits Hsize mapping. induction mapping as [|o mapping IH]; intros index st Hr Hlen' Hst; cbn [register_assertions length] in *.
  { exists [], st. split; [done|]. split; [done|]. split; [done|constructor]. }
  assert (∀ r, Some r ∈ mapping → r ∈ iter_regs ∧ byte_size r = w) as Hr' by (intros r ?; apply Hr; by right). destruct o as [r|].
  - destruct (storage_get_raw_ok reg_name sizes st _ _ Hst (raw_register r)) as (st1 & -> & Hst1). rewrite M_bind_Ok.
    destruct (IH (index + 1)%nat st1 Hr' ltac:(lia) Hst1) as (l & st2 & -> & Hst2 & Hl). rewrite M_bind_Ok. eexists _, st2. split; [done|]. split; [done|].
    destruct (Hr r ltac:(left)) as [Hreg Hw]. rewrite Forall_cons, Hl, law_bool_or, law_bool_not, (law_eq part_val) by (by rewrite Hsize, register_bv_size, Hw).
    pose proof (den_pos _ _ _ Hbits). erewrite val_eq; [|exact Hbits|by apply den_u64]. rewrite wrap_small by (unfold is_u; lia).
    rewrite orb_true_iff, negb_true_iff, Z.eqb_neq, Z.eqb_eq. split.
    + intros [H1 H2] [|j] r' Hj Ev; [|by apply (H2 j r' Hj); lia]. injection Hj as <-. rewrite Nat.add_0_r in Ev. by destruct H1.
    + intros H1. split; [destruct (decide (v = Z.of_nat index)) as [Ev|]; [right|by left]|].
      * apply (H1 0%nat r eq_refl). by rewrite Nat.add_0_r.
      * intros j r' Hj Ev. apply (H1 (Datatypes.S j) r' Hj). lia.
  - destruct (IH (index + 1)%nat st Hr' ltac:(lia) Hst) as (l & st2 & -> & Hst2 & Hl). exists l, st2. split; [done|]. split; [done|]. rewrite Hl. split.
    + intros H1 [|j] r' Hj Ev; [done|]. apply (H1 j r' Hj). lia.
    + intros H1 j r' Hj Ev. apply (H1 (Datatypes.S j) r' Hj). lia.
Qed.
Lemma part_assertions_ok st : storage_ok reg_name sizes st →
  ∃ l st', create_part_assertions reg_name e st sizes = Ok (l, st') ∧ storage_ok reg_name sizes st' ∧ (all_true l ↔ parts_known e pv).
Proof using All.
  intros Hst. unfold create_part_assertions.
  match goal with |- context [map_storage ?f _ _] =>
    destruct (map_storage_ok f (storage_ok reg_name sizes) (λ l p, all_true l ↔ ∀ v, pv !! p.1 = Some v → part_known p.2 p.1 v)
      (imap pair (enc_parts e)) (imap pair (enc_parts e))) with (st := st) as (k & st' & -> & Hst' & Hk') end; [|done|].
  - apply Forall_Forall2_diag, Forall_forall. intros [n part] (n' & part' & E & Hn)%elem_of_lookup_imap st0 Hst0. injection E as <- <-. cbn [fst snd].
    destruct (part_mapping part) as [mp locs bits|m l|mapping locs] eqn:Em.
    1, 2: exists [], st0; split; [done|]; split; [done|]; split; [|constructor]; intros _ v _ mapping' locs' r Em'; congruence.
    destruct (lookup_lt_is_Some_2 pv n) as [v Hv]; [rewrite (all_values_length e pv Hpv); by eapply lookup_lt_Some|].
    destruct (part_bits_ok st0 n part v Hst0 Hn) as (b & -> & Hd & Hsz); [by rewrite Em|done|]. rewrite M_bind_Ok.
    destruct (mo_registers e He n part mapping locs Hn Em) as [[r Hr] Hregs]. destruct (Hregs r Hr) as [Hreg Hsame].
    destruct (sizes_ok He) as (sizes' & E & Hsize). rewrite Esizes in E. apply (inj Ok) in E as <-. pose proof (known_width Hk r Hreg).
    assert (raw_bv reg_name sizes (FLPart n) = Ok (part_bv n r)) as Hraw.
    { unfold raw_bv, location_bv, part_bv. cbn [is_zero_location storage_name bit_size]. unfold vget. pose proof (lookup_lt_Some _ _ _ Hn). pose proof (mo_names e He).
      destruct (lookup_lt_is_Some_2 PART_NAMES n) as [name Ename]; [lia|]. rewrite Ename, (Hsize n part mapping locs r Hn Em Hr). cbn [unwrap default id].
      by rewrite !M_bind_Ok, wrap_small by (unfold is_u; lia). }
    destruct (storage_get_raw_ok reg_name sizes st0 _ _ Hst0 Hraw) as (st1 & -> & Hst1). rewrite M_bind_Ok.
    destruct (ok_parts e (mo_enc e He) n part Hn) as [Hpart _]. pose proof (part_wf_mapping part Hpart) as Hmap. rewrite Em in Hmap.
    assert (∀ r', Some r' ∈ mapping → part_bv n r' = part_bv n r) as Hbv by (intros r' Hr'; unfold part_bv; by rewrite (Hsame r' Hr')).
    destruct (register_assertions_ok b (part_bv n r) (part_size part) (byte_size r) v) with (mapping := mapping) (index := 0%nat) (st := st1)
      as (l & st2 & -> & Hst2 & Hl); [done|apply law_const; lia| |lia|done|].
    { intros r' Hr'. destruct (Hregs r' Hr') as [? Hs']. split; [done|]. by apply Hsame. }
    exists l, st2. split; [done|]. split; [done|]. rewrite Hl. split.
    + intros H1 v' Hv' mapping' locs' r' Em' Er'. rewrite Em in Em'. injection Em' as <- <-. assert (v' = v) as -> by congruence.
      rewrite (Hbv r') by by eapply list_elem_of_lookup_2. apply (H1 _ _ Er'). destruct (den_range _ _ _ Hd). lia.
    + intros H1 j r' Hj Ev. rewrite <- (Hbv r') by by eapply list_elem_of_lookup_2. apply (H1 v Hv mapping locs r' Em). by rewrite Ev, Nat.add_0_l, Nat2Z.id.
  - rewrite M_bind_Ok. eexists _, st'. split; [done|]. split; [done|]. rewrite Forall_concat. unfold parts_known. split.
    + intros Hall n part v Hn Hv. assert (imap pair (enc_parts e) !! n = Some (n, part)) as Hn' by by rewrite list_lookup_imap, Hn.
      destruct (Forall2_lookup_r _ _ _ _ _ Hk' Hn') as (l & Hl & Hiff). apply Hiff; [|done]. by apply (Forall_lookup_1 _ _ _ _ Hall Hl).
    + intros Hall. apply Forall_lookup_2. intros n l Hl. destruct (Forall2_lookup_l _ _ _ _ _ Hk' Hl) as ([n' part] & Hn & Hiff).
      rewrite list_lookup_imap in Hn. destruct (enc_parts e !! n) as [part'|] eqn:E; [|done]. injection Hn as <- <-. apply Hiff. cbn. intros v Hv. by apply (Hall n).
Qed.

(** *** Outputs *)

Context `{HC : Computation C, HR : AsComputationRef C}.

(** The arguments of a computation read whole inputs. *)
Definition arg_fits (inputs : list Value) (consts : list Z) (arg : Arg) : Prop :=
  match arg with
  | Input index nb _ => ∃ v, inputs !! index = Some v ∧
      match v with
      | Num n => 1 <= nb <= 64 ∧ is_u nb n
      | Bytes l => is_bytes l ∧ (1 <= length l <= 16)%nat ∧ nb = 8 * Z.of_nat (length l)
      end
  | TinyConst c => i128 c
  | ConstArg i => ∀ c, consts !! i = Some c → i128 c
  end.
Lemma arg_fits_ok bvs inputs consts arg : Forall2 (λ b v, den b 128 (value_num v)) bvs inputs → arg_fits inputs consts arg → arg_ok bvs inputs consts arg.
Proof.
  intros Hb. destruct arg as [index nb enc|c|j]; [|done..]. intros (v & Hv & Hf). destruct (Forall2_lookup_r _ _ _ _ _ Hb Hv) as (b & Hb' & Hd). by exists v, b.
Qed.
(** A dataflow whose computation the generator translates, on the inputs it reads. *)
Definition flow_ok (flow : Dataflow C) : Prop :=
  (∀ src, src ∈ Locs.inputs (flow_inputs flow) → source_known src) ∧
  ∀ c inputs, computation flow = Some c → mapM (read_input s) (Locs.inputs (flow_inputs flow)) = Ok inputs →
    ∃ r t, as_internal c = Ok r ∧ ref_wf r t ∧ compiled_ok r t ∧ smt_ok t = true ∧
      (∀ arg, arg ∈ arg_interpretation r → arg_fits inputs (consts r) arg) ∧
      match internal_output_type (template r) with Number _ => output_encoding (template r) = OutBigEndian | BytesOut _ => True end ∧
      comp_evaluate c inputs = evaluate_ref r inputs.

(** The register that a part selects. *)
Definition selects (n : nat) (r : Reg) : Prop :=
  ∃ part mapping locs v, enc_parts e !! n = Some part ∧ part_mapping part = PRegister mapping locs ∧ pv !! n = Some v ∧ mapping !! Z.to_nat v = Some (Some r).
(** An output of the model has the destination and the value of the instruction. *)
Definition output_denotes (io : IntermediateOutput) (p : Dest * Value) : Prop :=
  match io_target io with FOConcrete d => p.1 = d | FOPart n size => ∃ r, p.1 = DReg r size ∧ selects n r end ∧
  ∃ b, io_smt io = Some b ∧ let w := 8 * size_len (dest_size p.1) in den b w (wrap w (value_num p.2)).

Lemma mapM_pointwise {X Y Z' W V} (f : Y → M W) (g : Z' → M V) (R : W → V → Prop) (l : list X) : ∀ (p : nat → X → Y) (h : nat → X → Z') vs,
  mapM g (imap h l) = Ok vs → (∀ k x v, l !! k = Some x → g (h k x) = Ok v → ∃ y, f (p k x) = Ok y ∧ R y v) →
  ∃ ys, mapM f (imap p l) = Ok ys ∧ Forall2 R ys vs.
Proof.
  clear. induction l as [|x l IH]; intros p h vs H Hf; cbn in H |- *; [apply (inj Ok) in H as <-; by exists []|]. M_inv H. apply (inj Ok) in H as <-.
  destruct (Hf 0%nat x a eq_refl E) as (y & -> & Hy). destruct (IH (p ∘ Datatypes.S) (h ∘ Datatypes.S) a0 E0) as (ys & Hys & HR); [intros k; apply (Hf (Datatypes.S k))|].
  rewrite M_bind_Ok, Hys, M_bind_Ok. exists (y :: ys). by split; [|constructor].
Qed.

Lemma prepared_ok o (flow flow' : Dataflow C) vs st : outputs (enc_dataflows e) !! o = Some flow → parts_known e pv → is_Some (computation flow) →
  Locs.inputs (flow_inputs flow') = imap (λ k, replaced (enc_parts e) (Some <$> pv) (VInputForOutput o k)) (Locs.inputs (flow_inputs flow)) →
  (∀ src, src ∈ Locs.inputs (flow_inputs flow') → source_known src) → mapM (read_input s) (Locs.inputs (flow_inputs flow')) = Ok vs →
  storage_ok reg_name sizes st →
  ∃ p st', prepare reg_name e o st = Ok (Some p, st') ∧ storage_ok reg_name sizes st' ∧ Some (prepared_computation p) = computation flow ∧
    Forall2 (λ b v, den b 128 (value_num v)) (z3_inputs p) vs ∧ all_true (part_assertions p).
Proof using All.
  intros Ho Hp [c Ec] Ein Hsrc Hvs Hst. unfold prepare, output_dataflow, vget. rewrite Esizes, M_bind_Ok, Ho. cbn [unwrap]. rewrite M_bind_Ok, Ec.
  unfold filled_inputs, output_dataflow, vget. rewrite Ho. cbn [unwrap]. rewrite M_bind_Ok. rewrite Ein in *.
  destruct (mapM_pointwise (λ '(input_index, input), filled_input e o input_index input) (read_input s) input_denotes (Locs.inputs (flow_inputs flow))
    pair _ vs Hvs) as (fis & -> & Hfis).
  { intros k src v Hk' Hread. apply filled_input_ok; [done|by exists flow| |done]. apply Hsrc, (list_elem_of_lookup_2 _ k). by rewrite list_lookup_imap, Hk'. }
  rewrite M_bind_Ok. destruct (map_storage_ok (create_input reg_name e sizes) (storage_ok reg_name sizes) (λ b v, den b 128 (value_num v)) fis vs) with (st := st)
    as (bvs & st1 & -> & Hst1 & Hbvs); [done..|]. rewrite M_bind_Ok.
  destruct (part_assertions_ok st1 Hst1) as (cs & st2 & -> & Hst2 & Hcs). rewrite M_bind_Ok. eexists _, st2. split; [done|]. split; [done|].
  split; [done|]. split; [done|]. by apply Hcs.
Qed.
Lemma build_output_ok o (flow flow' : Dataflow C) dest v st output : outputs (enc_dataflows e) !! o = Some flow → parts_known e pv → flow_ok flow' →
  computation flow' = computation flow →
  Locs.inputs (flow_inputs flow') = imap (λ k, replaced (enc_parts e) (Some <$> pv) (VInputForOutput o k)) (Locs.inputs (flow_inputs flow)) →
  replaced (enc_parts e) (Some <$> pv) (VOutput o) (SDest (target flow)) = SDest (target flow') →
  evaluate_flow s flow' = Ok (dest, v) → build_outputs e !! o = Some (output, o) → storage_ok reg_name sizes st →
  ∃ x st', build_output reg_name e output o st = Ok (x, st') ∧ storage_ok reg_name sizes st' ∧ all_true x.1 ∧ output_denotes x.2 (dest, v).
Proof using All.
  intros Ho Hp [Hsrc Hcomp] Ec Ein Etarget Hev Hout Hst. unfold evaluate_flow in Hev. M_inv Hev. injection Hev as <- <-.
  destruct (computation flow') as [c|] eqn:Ec'; [|done]. apply (inj Ok) in E0 as <-. destruct (Hcomp c a eq_refl E) as (r & t & Hr & Hw & Hco & Ht & Hargs & Henc & Heval).
  destruct (prepared_ok o flow flow' a st Ho Hp) as (p & st' & Hprep & Hst' & Epc & Hbvs & Hcs); [by rewrite <- Ec|done..|].
  rewrite <- Ec in Epc. injection Epc as Epc. unfold build_output. rewrite Hprep, M_bind_Ok.
  unfold build_outputs in Hout. rewrite list_lookup_imap, Ho in Hout. injection Hout as <-.
  destruct (mo_targets e He o flow Ho) as [Hsize Hlen16]. pose proof Hsize as [W1 W2 W3].
  match goal with |- context [filled_output_size ?out] => assert (filled_output_size out = dest_size (target flow)) as ->
    by (destruct (find_part _ _) as [[? ?]|]; done) end.
  assert (1 <= size_len (dest_size (target flow))) as H1 by (unfold size_len; lia).
  rewrite num_bytes_ok, M_bind_Ok, wrap_small, (mul_u32_ok (size_len _)), M_bind_Ok by (done || unfold is_u; lia).
  rewrite Heval in E1. rewrite Epc.
  destruct (codegen_computation_ok (z3_inputs p) a c r t a1 Hr Hw Hco Ht) as (b & Hb & Hd); [|done|done|].
  { intros arg Harg. apply arg_fits_ok; [done|by apply Hargs]. }
  unfold G in Hb. rewrite Hb, M_bind_Ok, (sub_u_ok 32 (size_len (dest_size (target flow)) * 8) 1), M_bind_Ok by (unfold is_u; lia).
  eexists _, st'. split; [done|]. split; [done|]. split; [done|]. cbn [snd]. unfold output_denotes. cbn [io_target io_smt fst snd].
  assert (dest_size (target flow') = dest_size (target flow) ∧ match match find_part (has_output o) (enc_parts e) with
    Some (part_index, _) => FOPart part_index (dest_size (target flow)) | None => FOConcrete (target flow) end with
    FOConcrete d => target flow' = d | FOPart n size => ∃ r, target flow' = DReg r size ∧ selects n r end) as [Esz Ht'].
  { pose proof (find_placed (has_output o) (VOutput o) (enc_parts e) pv (has_output_spec o) (all_values_length e pv Hpv)) as Hfind.
    unfold replaced in Etarget. destruct (find_part _ _) as [[n part]|].
    - destruct Hfind as (Hn & Hloc & v' & Hv' & Epl). rewrite Epl in Etarget. cbn [interp_of] in Etarget. destruct (meaning_good n part v' Hn Hv') as [m Hm].
      rewrite Hm in Etarget. cbn [default] in Etarget. unfold meaning in Hm. destruct (part_mapping part) as [mp locs bits|? ?|mapping locs] eqn:Em.
      + by apply list_elem_of_fmap in Hloc as ([] & ? & _).
      + by apply elem_of_nil in Hloc.
      + destruct (mapping !! Z.to_nat v') as [[r'|]|] eqn:Er; [|done..]. cbn in Hm. injection Hm as <-. cbn [part_locations] in Hloc.
        destruct (ok_registers e (mo_enc e He) part mapping locs (VOutput o) (SDest (target flow))) as (r0 & sz & [= E0]);
          [by eapply list_elem_of_lookup_2|done..|by exists flow|]. rewrite E0 in Etarget |- *. cbn in Etarget. injection Etarget as <-.
        split; [done|]. exists r'. split; [done|]. by exists part, mapping, locs, v'.
    - destruct Hfind as [Epl _]. rewrite Epl in Etarget. cbn in Etarget. injection Etarget as <-. done. }
  split; [done|]. eexists. split; [done|]. cbv zeta. rewrite Esz.
  pose proof (den_extract (size_len (dest_size (target flow)) * 8 - 1) 0 b 128 _ ltac:(lia) ltac:(lia) Hd) as He'. rewrite Z.shiftr_0_r in He'.
  eapply den_eq; [exact He'|lia|]. f_equal. lia.
Qed.
End model.

(** ** The model as a whole *)

Section whole.
Context {P : profile} {A : Arch} {S : SmtSolver} {C : Type} (reg_name : Reg → string).

(** *** Whatever succeeds keeps the entries of the storage *)

Lemma map_storage_inv {X Y} (f : StorageLocations → X → M (Y * StorageLocations)) (I : StorageLocations → Prop) (Q : X → Y → Prop) l :
  (∀ st x y st', I st → f st x = Ok (y, st') → I st' ∧ Q x y) →
  ∀ st k st', I st → map_storage f st l = Ok (k, st') → I st' ∧ Forall2 Q l k.
Proof.
  intros Hf. induction l as [|x l IH]; intros st k st' Hst H; cbn [map_storage] in H; [injection H as <- <-; by split|].
  apply M_bind_Ok_inv in H as ([y st1] & E1 & H). apply M_bind_Ok_inv in H as ([k1 st2] & E2 & H). injection H as <- <-.
  destruct (Hf _ _ _ _ Hst E1) as [Hst1 Hq]. destruct (IH _ _ _ Hst1 E2) as [Hst2 Hk]. by split; [|constructor].
Qed.
Section kept.
Context (sizes : Sizes).
Notation kept m := (∀ y st', m = Ok (y, st') → storage_ok reg_name sizes st').

Lemma entry_kept st key : storage_ok reg_name sizes st → kept (storage_entry reg_name st key sizes).
Proof.
  intros [H1 H2] bv st' H. unfold storage_entry in H. destruct (snd <$> list_find _ _) as [[k b]|]; [injection H as <- <-; by split|].
  M_inv H. injection H as <- <-. split; [done|]. cbn. intros k b [Hin|Hin]%elem_of_app; [by apply H2|]. apply list_elem_of_singleton in Hin as [= -> ->].
  unfold location_bv. by rewrite E, M_bind_Ok, E0, M_bind_Ok.
Qed.
Lemma get_raw_kept st key : storage_ok reg_name sizes st → kept (storage_get_raw reg_name st key sizes).
Proof. intros Hst bv st' H. unfold storage_get_raw in H. destruct (is_zero_location key); [by injection H as <- <-|]. by eapply entry_kept. Qed.
Lemma get_sized_kept st key size is_bytes : storage_ok reg_name sizes st → kept (storage_get_sized reg_name st key sizes size is_bytes).
Proof.
  intros Hst bv st' H. unfold storage_get_sized in H. apply M_bind_Ok_inv in H as ([b st1] & E & H).
  assert (storage_ok reg_name sizes st1) as Hst1.
  { unfold storage_get in E. destruct (is_zero_location key); [by injection E as <- <-|]. apply M_bind_Ok_inv in E as ([b0 st0] & E0 & E).
    apply entry_kept in E0; [|done]. destruct (match key with FLConcrete (LReg reg) => reg_mask reg | _ => None end); M_inv E; by injection E as <- <-. }
  M_inv H. destruct is_bytes; M_inv H; by injection H as <- <-.
Qed.
Lemma create_input_kept (e : Encoding C) st fi : storage_ok reg_name sizes st → kept (create_input reg_name e sizes st fi).
Proof.
  intros Hst bv st' H. assert (kept (create_normal reg_name fi st sizes)) as Hnormal.
  { clear H. intros b st1 H. unfold create_normal in H. destruct fi as [[d|n|v nb]|]; [|done|by injection H as <- <-|];
      (M_inv H; match goal with E : storage_get_sized _ _ _ _ _ _ = Ok ?p |- _ => destruct p as [b1 st2]; apply get_sized_kept in E; [|done] end;
       case_match; M_inv H; by injection H as <- <-). }
  unfold create_input in H. destruct fi as [[d|n|v nb]|]; [by eapply Hnormal| |by eapply Hnormal..].
  M_inv H. destruct (part_mapping a); [|by eapply Hnormal..]. M_inv H. by injection H as <- <-.
Qed.
Lemma register_assertions_kept bits part_val size mapping : ∀ st index, storage_ok reg_name sizes st →
  kept (register_assertions reg_name st sizes bits part_val size index mapping).
Proof.
  induction mapping as [|[r|] mapping IH]; intros st index Hst l st' H; cbn [register_assertions] in H; [by injection H as <- <-| |by eapply IH].
  apply M_bind_Ok_inv in H as ([b st1] & E1 & H). apply M_bind_Ok_inv in H as ([k st2] & E2 & H). injection H as <- <-.
  apply get_raw_kept in E1; [|done]. by eapply IH.
Qed.
Lemma part_assertions_kept (e : Encoding C) st : storage_ok reg_name sizes st → kept (create_part_assertions reg_name e st sizes).
Proof.
  intros Hst l st' H. unfold create_part_assertions in H. apply M_bind_Ok_inv in H as ([k st1] & E & H). injection H as <- <-.
  eapply (map_storage_inv _ (storage_ok reg_name sizes) (λ _ _, True)) in E; [apply E| |done]. clear. intros st [n part] y st' Hst H.
  split; [|done]. destruct (part_mapping part); [by injection H as <- <-..|]. M_inv H. destruct a0 as [b st1].
  apply get_raw_kept in E0; [|done]. by eapply register_assertions_kept.
Qed.
(** The constraints of an output are the assertions about all parts. *)
Lemma build_output_inv `{AsComputationRef C} (e : Encoding C) output o flow st x st' : sizes_from_encoding e = Ok sizes →
  outputs (enc_dataflows e) !! o = Some flow → storage_ok reg_name sizes st → build_output reg_name e output o st = Ok (x, st') →
  storage_ok reg_name sizes st' ∧ (is_Some (computation flow) → ∃ st1 st2, storage_ok reg_name sizes st1 ∧ create_part_assertions reg_name e st1 sizes = Ok (x.1, st2)).
Proof.
  intros Es Ho Hst H1. unfold build_output in H1. apply M_bind_Ok_inv in H1 as ([p st1] & E & H1). unfold prepare, output_dataflow, vget in E.
  rewrite Es, M_bind_Ok, Ho in E. cbn [unwrap] in E. rewrite M_bind_Ok in E. destruct (computation flow) as [c|].
  - apply M_bind_Ok_inv in E as (fis & _ & E). apply M_bind_Ok_inv in E as ([bvs st2] & E1 & E). apply M_bind_Ok_inv in E as ([cs st3] & E2 & E).
    injection E as <- <-. M_inv H1. injection H1 as <- <-.
    assert (storage_ok reg_name sizes st2) as Hst2.
    { eapply (map_storage_inv _ (storage_ok reg_name sizes) (λ _ _, True)) in E1; [apply E1| |done]. intros; split; [by eapply create_input_kept|done]. }
    split; [by eapply part_assertions_kept|]. intros _. by exists st2, st3.
  - injection E as <- <-. M_inv H1. injection H1 as <- <-. split; [done|]. by intros [? ?].
Qed.
End kept.

(** *** Instantiation *)

Lemma instantiate_inv (e : Encoding C) pv d : enc_ok e → all_values e pv → instantiate e pv = Ok (inl d) →
  ~ bad_parts e (Some <$> pv) ∧ instr_wf (dataflows_instr d) ∧ (length (enc_bits e) <= 8 * length (bytes (dataflows_instr d)))%nat ∧
  (∀ n v, pv !! n = Some v → reads (enc_bits e) (dataflows_instr d) n v) ∧
  d = mapped (enc_dataflows e) (dataflows_instr d) (replaced (enc_parts e) (Some <$> pv)) (recalculated (enc_parts e) (Some <$> pv)).
Proof.
  intros He Hall Hi. destruct (all_values_ok e pv (ok_wf e He) Hall) as [Hok Hfit]. pose proof (enc_wf_max e (ok_wf e He)) as Hmax.
  assert (instantiate e pv = instantiate_dataflows e (Some <$> pv) (new_indices_from 0 (Some <$> pv))) as Ei.
  { unfold instantiate, compute_new_indices. rewrite length_fmap, (all_values_length e pv Hall), (proj2 (Nat.leb_le _ _) Hmax). done. }
  rewrite Ei in Hi. assert (~ bad_parts e (Some <$> pv)) as Hgood.
  { intros Hbad. unfold bad_parts in Hbad. destruct (list_find is_bad (zip (enc_parts e) (Some <$> pv))) as [[n [part o]]|] eqn:E.
    - rewrite (instantiate_dataflows_bad e _ _ _ _ _ He Hok Hfit E) in Hi. done.
    - apply list_find_None in E. apply Exists_exists in Hbad as (x & Hx & Hb). rewrite Forall_forall in E. by apply (E x). }
  split; [done|]. destruct (instantiate_dataflows_ok e _ He Hok Hfit Hgood) as (r & _ & W & Hl & R & E). rewrite E in Hi.
  apply (inj Ok) in Hi. injection Hi as <-. cbn [dataflows_instr mapped addresses instr]. pose proof (enc_wf_length e (ok_wf e He)).
  split_and!; [done|lia| |done]. intros n v Hv. split; [by apply (all_values_fit e pv Hall)|]. intros j Hj. rewrite R, bit_with_all, Hj, Hv by (done || by eapply lookup_lt_Some). done.
Qed.
End whole.

Section theorems.
Context {P : profile} {A : Arch} {AL : ArchLaws A} {S : SmtSolver} {L : SmtLaws S} {C : Type} `{HC : Computation C, HR : AsComputationRef C}.
Context (reg_name : Reg → string) (s : SystemState) (e : Encoding C) (pv : list Z) (d : Dataflows C) (l : list (Dest * Value)).

Lemma model_of_ok : model_ok e → all_values e pv → instantiate e pv = Ok (inl d) → state_wf s → state_known reg_name s →
  instr_known (dataflows_instr d) → parts_known reg_name e pv → Forall (flow_ok s) (outputs d) → mapM (evaluate_flow s) (outputs d) = Ok l →
  ∃ m st, model_of reg_name e storage_new = Ok (m, st) ∧ Forall (λ c, bool_val c = true) (constraints m) ∧
    Forall2 (output_denotes e pv) (intermediate_outputs m) l.
Proof using All.
  intros He Hall Hinst Hs Hk Hi Hp Hflows Hl. destruct (sizes_ok e He) as (sizes & Es & _).
  destruct (instantiate_inv e pv d (mo_enc e He) Hall Hinst) as (Hgood & Hw & Hlen & Hreads & Ed). unfold model_of.
  destruct (map_storage_ok (λ storage '(output, output_index), build_output reg_name e output output_index storage) (storage_ok reg_name sizes)
    (λ x p, Forall (λ c, bool_val c = true) x.1 ∧ output_denotes e pv x.2 p) (build_outputs e) l) with (st := storage_new) as (k & st & -> & _ & Hk').
  - apply Forall2_same_length_lookup_2.
    + unfold build_outputs. rewrite length_imap, (mapM_length _ _ _ Hl), Ed. cbn. by rewrite length_imap.
    + intros o [output o'] [dest v] Hout Hv st Hst. pose proof Hout as Hout'. unfold build_outputs in Hout. rewrite list_lookup_imap in Hout.
      destruct (outputs (enc_dataflows e) !! o) as [flow|] eqn:Ho; [|done]. injection Hout as _ <-.
      destruct (Forall2_lookup_r _ _ _ _ _ (proj1 (mapM_Forall2 _ _ _) Hl) Hv) as (flow' & Hf & Hev). pose proof (Forall_lookup_1 _ _ _ _ Hflows Hf) as Hok.
      rewrite Ed in Hf. cbn [mapped outputs] in Hf. rewrite list_lookup_imap, Ho in Hf. injection Hf as Ef.
      eapply (build_output_ok reg_name s e sizes Hs Hk He Es pv (dataflows_instr d) Hall Hgood Hlen Hw Hreads Hi o flow flow'); try done; rewrite <- Ef; try done.
      cbn [target]. by destruct (replaced_target e (Some <$> pv) o flow (mo_enc e He) (proj1 (all_values_ok e pv (ok_wf e (mo_enc e He)) Hall)) Hgood Ho) as [x ->].
  - apply storage_new_ok.
  - rewrite M_bind_Ok. eexists _, st. split; [done|]. cbn [constraints intermediate_outputs]. split.
    + apply Forall_concat, Forall_fmap. clear -Hk'. by induction Hk' as [|? ? ? ? [? _] _ IH]; constructor.
    + apply Forall2_fmap_l. eapply Forall2_impl; [done|]. by intros ? ? [_ ?].
Qed.

(** C7: Within the scope below, the model of an encoding describes every instruction of it.  Take an
    instruction, a state on which its dataflows can be computed, and a model of the
    constants of the solver in which the instruction, the registers, the memory accesses
    and the registers that parts select have their values.  Then building the model
    succeeds, all its constraints hold, and every output has the destination that the
    instruction writes to and, in as many bytes as the destination has, the value that
    it computes there.

    The scope is [model_ok] encodings (named parts of at least one bit, the registers of a
    part alike in size and kind, targets of at most 16 bytes) with [flow_ok] dataflows:
    inputs of at most 16 bytes that fit the bit vector of their location, results that
    are byte strings or big-endian integers, and computations whose operations are
    [smt_ok]: no [Val] and no [ByteMask], constants in [i8], [Crop], [SignExtend] and
    [Select] of at most 126 bits, [Rol] of at most 127 bits and [SwapBytes] of 121 to 128
    bits.  Outside of it generated values can be wrong ([codegen_differs],
    [byte_mask_width]). *)
Theorem model_of_complete : model_ok e → all_values e pv → instantiate e pv = Ok (inl d) → state_wf s → state_known reg_name s →
  instr_known (dataflows_instr d) → parts_known reg_name e pv → Forall (flow_ok s) (outputs d) → mapM (evaluate_flow s) (outputs d) = Ok l →
  ∃ m st, model_of reg_name e storage_new = Ok (m, st) ∧ Forall (λ c, bool_val c = true) (constraints m) ∧
    Forall2 (output_denotes e pv) (intermediate_outputs m) l.
Proof using All. apply model_of_ok. Qed.

(** C6: The constraints of the model of an encoding fix its outputs.  In every model of the
    constants in which the state and the bits of the instruction have their values and
    the constraints hold, every output has the destination and the value that the
    instruction computes on the state: the constraints force the constant of a register
    part to be the register that the instruction selects (if there is an output; the
    constraints are made for the outputs).  The value of the instruction is
    a hypothesis: the model has no constraints on the bits of the instruction (a TODO of
    the source).  The scope is that of [model_of_complete]: [model_ok] encodings, and
    [flow_ok] dataflows with [smt_ok] operations (no [Val] and no [ByteMask], constants in
    [i8], [Crop], [SignExtend] and [Select] of at most 126 bits, [Rol] of at most 127,
    [SwapBytes] of 121 to 128) and with results that are byte strings or big-endian
    integers. *)
Theorem model_of_sound m st : model_ok e → all_values e pv → instantiate e pv = Ok (inl d) → state_wf s → state_known reg_name s →
  instr_known (dataflows_instr d) → Forall (flow_ok s) (outputs d) → mapM (evaluate_flow s) (outputs d) = Ok l →
  model_of reg_name e storage_new = Ok (m, st) → Forall (λ c, bool_val c = true) (constraints m) →
  Forall2 (output_denotes e pv) (intermediate_outputs m) l ∧ (l ≠ [] → parts_known reg_name e pv).
Proof using All.
  intros He Hall Hinst Hs Hk Hi Hflows Hl Hm Hc. destruct (sizes_ok e He) as (sizes & Es & _).
  destruct (instantiate_inv e pv d (mo_enc e He) Hall Hinst) as (Hgood & Hw & Hlen & Hreads & Ed).
  assert (l ≠ [] → parts_known reg_name e pv) as Hp.
  { intros Hne. unfold model_of in Hm. apply M_bind_Ok_inv in Hm as ([k st'] & Ek & Hm). injection Hm as <- <-. cbn [constraints] in Hc.
    assert (length l = length (outputs (enc_dataflows e))) as El by (rewrite (mapM_length _ _ _ Hl), Ed; cbn; by rewrite length_imap).
    destruct (outputs (enc_dataflows e)) as [|flow flows] eqn:Eo; [by destruct l|]. unfold build_outputs in Ek. rewrite Eo in Ek. cbn [imap map_storage] in Ek.
    apply M_bind_Ok_inv in Ek as ([x st1] & E1 & Ek). apply M_bind_Ok_inv in Ek as ([xs st2] & E2 & Ek). injection Ek as <- <-.
    destruct (build_output_inv reg_name sizes e _ 0 flow storage_new x st1 Es ltac:(by rewrite Eo) (storage_new_ok reg_name sizes) E1) as [_ Hx].
    destruct Hx as (sta & stb & Hsta & Ea).
    { destruct l as [|[dest v] l']; [done|]. apply mapM_Forall2 in Hl. rewrite Ed in Hl. cbn [mapped outputs] in Hl. rewrite Eo in Hl.
      apply Forall2_cons_1 in Hl as [Hev _]. unfold evaluate_flow in Hev. M_inv Hev. cbn in E0. by destruct (computation flow). }
    destruct (part_assertions_ok reg_name s e sizes Hs Hk He Es pv (dataflows_instr d) Hall Hgood Hlen Hw Hreads Hi sta Hsta) as (cs & st3 & E & _ & Hiff).
    rewrite Ea in E. injection E as <- _. apply Hiff. cbn [fmap list_fmap concat] in Hc. by apply Forall_app in Hc as [? _]. }
  split; [|done]. destruct (decide (l = [])) as [El|El].
  - rewrite El in *. apply mapM_length in Hl. rewrite Ed in Hl. cbn in Hl. rewrite length_imap in Hl. destruct (outputs (enc_dataflows e)) as [|flow flows] eqn:Eo; [|done].
    unfold model_of, build_outputs in Hm. rewrite Eo in Hm. cbn in Hm. injection Hm as <- <-. constructor.
  - destruct (model_of_ok He Hall Hinst Hs Hk Hi (Hp El) Hflows Hl) as (m' & st' & E & _ & Ho). rewrite Hm in E. by injection E as <- <-.
Qed.
End theorems.

(** *** An example

    The encoding of EncodingFacts, with a computation that adds the immediate to the
    register, and the instruction with the second register and the immediate 0x2A. *)
#[local] Instance model_profile : profile := Dev.
#[local] Instance model_computation : Computation SynthesizedComputation := evaluate_synthesized (P:=Dev).
Definition add_computation : SynthesizedComputation := {|
  sc_expr := Expr.new [Hole 0; Hole 1; Add]; sc_arg_interpretation := [Input 0 64 UnsignedBigEndian; Input 1 8 UnsignedBigEndian]; sc_consts := [];
  sc_output_encoding := OutBigEndian; sc_output_type := Integer 64
|}.
Definition add_ref : ComputationRef := {|
  template := {| expr := Expr.new [Hole 0; Hole 1; Add]; output_encoding := OutBigEndian; internal_output_type := Number (Z.ones 64) |};
  arg_interpretation := [Input 0 64 UnsignedBigEndian; Input 1 8 UnsignedBigEndian]; consts := []
|}.
Definition model_enc : Encoding (A:=FakeD) SynthesizedComputation := demo_with (Some add_computation).
Definition model_flow : Dataflow (A:=FakeD) SynthesizedComputation := {|
  target := DReg (A:=FakeD) Fake.R2 qword;
  flow_inputs := {| Locs.inputs := [SDest (A:=FakeD) (DReg (A:=FakeD) Fake.R2 qword); SConst (A:=FakeD) 0x2A 8] |};
  computation := Some add_computation; unobservable_external_inputs := false |}.
Definition model_flows : Dataflows (A:=FakeD) SynthesizedComputation := {|
  addresses := {| instr := {| Instruction.data := 0xA9 :: 0x2A :: replicate 13 0; Instruction.len := 2 |}; accesses := []; accesses_use_trap_flag := false |};
  outputs := [model_flow]; found_dependent_bytes := false |}.
(** The values of the constants: those of the state, the instruction and the part. *)
Definition fake_name (r : Fake.FakeReg) : string := pretty (Fake.as_num r).
Definition model_env (name : string) : Z :=
  if bool_decide (name = "r1"%string) then 0x1000 else if bool_decide (name = "r2"%string) then 3 else
  if bool_decide (name = "instr"%string) then 0xA92A else if bool_decide (name = "partA"%string) then 3 else 0.
#[local] Instance env_solver : SmtSolver := Concrete.solver model_env.
#[local] Instance env_laws : SmtLaws env_solver := Concrete.laws model_env.

Lemma model_enc_ok : model_ok model_enc.
Proof.
  split.
  - apply demo_with_ok.
  - cbn. lia.
  - intros [|[|n]] part Hn _; cbn in Hn; [injection Hn as <-; cbn; lia..|done].
  - intros [|[|n]] part m locs bits Hn Em; cbn in Hn; [injection Hn as <-; done..|done].
  - intros [|[|n]] part mapping locs Hn Em; cbn in Hn; [|injection Hn as <-; done|done]. injection Hn as <-. cbn in Em. injection Em as <- <-.
    split; [exists Fake.R1; set_solver|]. intros r Hr. split; [cbn; unfold Fake.fake_iter_regs; set_solver|]. intros r' Hr'. cbn in *.
    assert (r = Fake.R1 ∨ r = Fake.R2) as [-> | ->] by set_solver; assert (r' = Fake.R1 ∨ r' = Fake.R2) as [-> | ->] by set_solver; done.
  - intros [|[|n]] part mapping locs loc r0 sz r Hn Em; cbn in Hn; [|injection Hn as <-; done|done]. injection Hn as <-. cbn in Em. injection Em as <- <-.
    intros _ Hs Hr. assert (r0 = Fake.R1) as -> by (apply (demo_sources (Some add_computation)) in Hs as [[_ [= -> _]]|[[_ [= -> _]]|[_ ?]]]; done).
    assert (r = Fake.R1 ∨ r = Fake.R2) as [-> | ->] by set_solver; done.
  - intros [|o] flow Ho; [|done]. injection Ho as <-. split; [split|]; cbn; unfold size_len; cbn; lia.
Qed.
Lemma model_state_known : state_known (A:=FakeD) fake_name demo_cpu.
Proof.
  split.
  - intros r Hr. destruct r; cbn; lia.
  - intros r v Hr Hv. destruct r; cbn in Hv; try (apply (inj Ok) in Hv as <-; split; [vm_compute; reflexivity|intros mask Hm; vm_compute in Hm; try done; injection Hm as <-; reflexivity]).
    done.
  - intros m e Hm. cbn in Hm. by rewrite lookup_nil in Hm.
Qed.
Lemma add_ref_wf : ref_wf add_ref (AddOp (HoleOp 0) (HoleOp 1)).
Proof.
  split; [done..| | |].
  - intros n Hn. cbn in Hn. repeat (apply elem_of_cons in Hn as [Hn|Hn]; [try done; injection Hn as ->; cbn; lia|]). by apply elem_of_nil in Hn.
  - intros i Hi. cbn in Hi. set_solver.
  - exists 64. split; [lia|done].
Qed.
Lemma model_flow_ok : flow_ok (A:=FakeD) demo_cpu model_flow.
Proof.
  split.
  - intros src [<-|[<-|[]]]%list_elem_of_In; [|cbn; unfold is_u; lia]. split; [apply swap_dest_ok; set_solver|]. unfold size_len. cbn. lia.
  - intros c inputs [= <-] Hin. assert (inputs = [Num 3; Num 0x2A]) as -> by (vm_compute in Hin; congruence).
    exists add_ref, (AddOp (HoleOp 0) (HoleOp 1)). split_and!; [reflexivity|apply add_ref_wf| |reflexivity| |done|reflexivity].
    + apply compiled_ok_stack; [apply add_ref_wf|done|]. apply Nat.leb_le. reflexivity.
    + intros arg [<-|[<-|[]]]%list_elem_of_In; eexists; (split; [reflexivity|]); unfold is_u; lia.
Qed.
Lemma model_instantiated : instantiate model_enc [1; 0x2A] = Ok (inl model_flows).
Proof. reflexivity. Qed.
Lemma model_instr_known : instr_known (dataflows_instr model_flows).
Proof. intros j Hj. cbn in Hj. do 16 (destruct j as [|j]; [reflexivity|]). lia. Qed.
Lemma model_parts_known : parts_known (A:=FakeD) fake_name model_enc [1; 0x2A].
Proof.
  intros [|[|n]] part v Hn Hv mapping locs r Em Hr; cbn in Hn, Hv; [|injection Hn as <-; done|done]. injection Hn as <-. injection Hv as <-.
  cbn in Em. injection Em as <- <-. injection Hr as <-. reflexivity.
Qed.
Lemma model_evaluates : mapM (evaluate_flow (A:=FakeD) demo_cpu) (outputs model_flows) = Ok [(DReg (A:=FakeD) Fake.R2 qword, Num 45)].
Proof. reflexivity. Qed.
Lemma model_flows_ok : Forall (flow_ok (A:=FakeD) demo_cpu) (outputs model_flows).
Proof. apply Forall_cons. split; [apply model_flow_ok|]. by apply Forall_nil. Qed.

Lemma model_of_complete_witness : ∃ m st, model_of (A:=FakeD) fake_name model_enc storage_new = Ok (m, st) ∧
  Forall2 (output_denotes (A:=FakeD) model_enc [1; 0x2A]) (intermediate_outputs m) [(DReg (A:=FakeD) Fake.R2 qword, Num 45)].
Proof.
  destruct (model_of_complete (A:=FakeD) fake_name demo_cpu model_enc [1; 0x2A] model_flows [(DReg (A:=FakeD) Fake.R2 qword, Num 45)] model_enc_ok
    (demo_with_values (Some add_computation)) model_instantiated demo_cpu_wf model_state_known model_instr_known model_parts_known model_flows_ok model_evaluates)
    as (m & st & Hm & _ & Ho). exists m, st. split; [exact Hm|exact Ho].
Defined.
Lemma model_of_sound_witness : ∃ m st, model_of (A:=FakeD) fake_name model_enc storage_new = Ok (m, st) ∧
  Forall2 (output_denotes (A:=FakeD) model_enc [1; 0x2A]) (intermediate_outputs m) [(DReg (A:=FakeD) Fake.R2 qword, Num 45)].
Proof.
  destruct (model_of_ok (A:=FakeD) fake_name demo_cpu model_enc [1; 0x2A] model_flows [(DReg (A:=FakeD) Fake.R2 qword, Num 45)] model_enc_ok
    (demo_with_values (Some add_computation)) model_instantiated demo_cpu_wf model_state_known model_instr_known model_parts_known model_flows_ok model_evaluates)
    as (m & st & Hm & Hc & _). exists m, st. split; [exact Hm|].
  apply (model_of_sound (A:=FakeD) fake_name demo_cpu model_enc [1; 0x2A] model_flows [(DReg (A:=FakeD) Fake.R2 qword, Num 45)] m st model_enc_ok
    (demo_with_values (Some add_computation)) model_instantiated demo_cpu_wf model_state_known model_instr_known model_flows_ok model_evaluates Hm Hc).
Defined.

(** *** Limits *)

Definition split_flows : Dataflows (A:=FakeD) SynthesizedComputation := {|
  addresses := {| instr := {| Instruction.data := replicate 15 0; Instruction.len := 1 |}; accesses := []; accesses_use_trap_flag := false |};
  outputs := [{| target := DMem (A:=FakeD) 0 (SizeOps.new 0 1); flow_inputs := {| Locs.inputs := [] |}; computation := None; unobservable_external_inputs := false |}];
  found_dependent_bytes := false |}.
Definition split_enc : Encoding (A:=FakeD) SynthesizedComputation :=
  {| enc_bits := replicate 8 (BFixed 0); errors := replicate 8 false; enc_parts := []; enc_dataflows := split_flows; write_ordering := [] |}.
(** An output of two bytes, the first 0x11 and the second 0x22. *)
Definition split_model : Z3Model (A:=FakeD) := {|
  constraints := [];
  intermediate_outputs := [{| io_target := FOConcrete (DMem (A:=FakeD) 0 (SizeOps.new 0 1)); io_name := (16, 0); io_smt := Some (16, value_num (Bytes [0x11; 0x22])) |}]
|}.
(** When an output is split because another one overlaps it, the bit vector of a range is
    cut out from the low bits on; the outputs that are bytes have their first byte in the
    high bits, so that the range of the first byte gets the second one.  There are names
    for 23 parts, and an encoding may have 32. *)
Theorem model_of_limits :
  fixed_concrete (A:=FakeD) split_model split_enc (DMem (A:=FakeD) 0 (SizeOps.new 0 0)) 0 =
    Ok {| co_target := DMem (A:=FakeD) 0 (SizeOps.new 0 0); co_smt := Some (8, 0x1122) |} ∧
  bv_val (S:=env_solver) (8, 0x1122) = 0x22 ∧
  value_num (cut (SizeOps.new 0 0) (Bytes [0x11; 0x22])) = 0x11 ∧
  storage_name (A:=FakeD) fake_name (FLPart 23) = Panic ∧ MAX_PARTS = 32%nat.
Proof. split; [reflexivity|]. by split_and!. Qed.
