(* ===== verification/X64.v ===== *)
(** * The x86-64 architecture

    Models [liblisa/src/arch/x64/mod.rs]: the registers and flags and their
    tables, the state and the access to its registers, the numbering of the
    bytes of a state, and the fast versions of the byte operations, which read
    and write the memory of the state directly and compare 32 bytes at a time.

    The memory of an [X64State] is a function from offsets to bytes.  Its layout
    is that of [repr(C)]; the struct [X87] has no [repr], so the offsets of its
    fields are a parameter ([X87Layout]).  The bytes between the fields have no
    defined contents: they are a parameter too.

    Not modelled: [Display for X64State] and the cache of printed floats. *)
From stdpp Require Import strings pretty.
From S2P Require Import Prelude MachInt Utils Size Value Arch Locs.
Import SizeOps.

Module X64.
(** ** Registers *)

Inductive GpReg :=
  | Rax | Rcx | Rdx | Rsi | Rdi | Rip | Rbp | Rbx | Rsp
  | R8 | R9 | R10 | R11 | R12 | R13 | R14 | R15 | FsBase | GsBase | RFlags | Riz.
(** The indices are [u8]s. *)
Inductive XmmReg := XmmReg_Reg (i : nat) | XmmReg_ExceptionFlags | XmmReg_DenormalsAreZero.
Inductive X87Reg := Fpr (i : nat) | ExceptionFlags | ConditionCodes | TagWord | TopOfStack.
Inductive X64Reg := X64Reg_GpReg (reg : GpReg) | X64Reg_Xmm (reg : XmmReg) | X64Reg_X87 (reg : X87Reg).
Inductive X64Flag :=
  | Cf | Pf | Af | Zf | Sf | Of
  | ExceptionFlag (n : Z) | ConditionCode (n : Z) | DenormalsAreZero | XmmExceptionFlag (n : Z).
#[export] Instance GpReg_eq_dec : EqDecision GpReg.
Proof. solve_decision. Defined.
#[export] Instance XmmReg_eq_dec : EqDecision XmmReg.
Proof. solve_decision. Defined.
#[export] Instance X87Reg_eq_dec : EqDecision X87Reg.
Proof. solve_decision. Defined.
#[export] Instance X64Reg_eq_dec : EqDecision X64Reg.
Proof. solve_decision. Defined.
#[export] Instance X64Flag_eq_dec : EqDecision X64Flag.
Proof. solve_decision. Defined.

Definition all_gpregs : list GpReg :=
  [Rax; Rcx; Rdx; Rsi; Rdi; Rip; Rbp; Rbx; Rsp; R8; R9; R10; R11; R12; R13; R14; R15; FsBase; GsBase; RFlags].
Definition as_num (self : GpReg) : M Z :=
  match self with
  | Rax => Ok 0 | Rcx => Ok 1 | Rdx => Ok 2 | Rsi => Ok 3 | Rdi => Ok 4 | Rip => Ok 5
  | Rbp => Ok 6 | Rbx => Ok 7 | Rsp => Ok 8 | R8 => Ok 9 | R9 => Ok 10 | R10 => Ok 11
  | R11 => Ok 12 | R12 => Ok 13 | R13 => Ok 14 | R14 => Ok 15 | R15 => Ok 16
  | FsBase => Ok 17 | GsBase => Ok 18 | RFlags => Ok 19 | Riz => Panic
  end.
Definition from_num (num : Z) : M GpReg :=
  match num with
  | 0 => Ok Rax | 1 => Ok Rcx | 2 => Ok Rdx | 3 => Ok Rsi | 4 => Ok Rdi | 5 => Ok Rip
  | 6 => Ok Rbp | 7 => Ok Rbx | 8 => Ok Rsp | 9 => Ok R8 | 10 => Ok R9 | 11 => Ok R10
  | 12 => Ok R11 | 13 => Ok R12 | 14 => Ok R13 | 15 => Ok R14 | 16 => Ok R15
  | 17 => Ok FsBase | 18 => Ok GsBase | 19 => Ok RFlags
  | _ => if num =? U64_MAX then Ok Riz else Panic
  end.

Definition gpreg_is_pc (self : GpReg) : bool := bool_decide (self = Rip).
Definition gpreg_is_flags (self : GpReg) : bool := bool_decide (self = RFlags).
Definition gpreg_is_zero (self : GpReg) : bool := bool_decide (self = Riz).
Definition gpreg_mask (self : GpReg) : option Z :=
  match self with RFlags => Some 0x010101010101 | _ => None end.
Definition gpreg_should_avoid (self : GpReg) : bool :=
  match self with
  | Rsp | Rbp | Rax | Rcx | Rsi | R8 | R9 | R12 | R13 | R14 | Riz => true
  | _ => false
  end.
Definition gpreg_byte_size (self : GpReg) : Z := match self with RFlags => 6 | _ => 8 end.
Definition gpreg_is_addr_reg (self : GpReg) : bool := match self with FsBase | GsBase => true | _ => false end.
Definition gpreg_reg_type (_ : GpReg) : ValueType := NumType.

Definition is_pc (self : X64Reg) : bool := match self with X64Reg_GpReg reg => gpreg_is_pc reg | _ => false end.
Definition is_flags (self : X64Reg) : bool :=
  match self with
  | X64Reg_GpReg reg => gpreg_is_flags reg
  | X64Reg_X87 (ConditionCodes | ExceptionFlags) => true
  | X64Reg_Xmm (XmmReg_ExceptionFlags | XmmReg_DenormalsAreZero) => true
  | _ => false
  end.
Definition mask (self : X64Reg) : option Z :=
  match self with
  | X64Reg_GpReg reg => gpreg_mask reg
  | X64Reg_X87 ExceptionFlags => Some 0x010101010101
  | X64Reg_X87 ConditionCodes => Some 0x01010101
  | X64Reg_X87 TopOfStack => Some 7
  | X64Reg_Xmm XmmReg_ExceptionFlags => Some 0x010101010101
  | X64Reg_Xmm XmmReg_DenormalsAreZero => Some 1
  | _ => None
  end.
Definition should_avoid (self : X64Reg) : bool :=
  match self with X64Reg_GpReg reg => gpreg_should_avoid reg | _ => false end.
Definition is_zero (self : X64Reg) : bool := match self with X64Reg_GpReg reg => gpreg_is_zero reg | _ => false end.
Definition x64_byte_size (self : X64Reg) : Z :=
  match self with
  | X64Reg_GpReg reg => gpreg_byte_size reg
  | X64Reg_Xmm reg =>
      match reg with XmmReg_Reg _ => 32 | XmmReg_ExceptionFlags => 6 | XmmReg_DenormalsAreZero => 1 end
  | X64Reg_X87 reg =>
      match reg with
      | Fpr _ => 10 | ExceptionFlags => 6 | ConditionCodes => 4 | TopOfStack => 1 | TagWord => 1
      end
  end.
Definition is_addr_reg (self : X64Reg) : bool :=
  match self with X64Reg_GpReg r => gpreg_is_addr_reg r | X64Reg_Xmm _ => false | X64Reg_X87 _ => false end.
Definition x64_reg_type (self : X64Reg) : ValueType :=
  match self with
  | X64Reg_GpReg r => gpreg_reg_type r
  | X64Reg_Xmm (XmmReg_ExceptionFlags | XmmReg_DenormalsAreZero) => NumType
  | X64Reg_Xmm _ => BytesType (Z.to_nat (x64_byte_size self))
  | X64Reg_X87 reg =>
      match reg with Fpr _ => BytesType (Z.to_nat (x64_byte_size self)) | _ => NumType end
  end.

(** The derived [Ord] of the registers: by constructor, then by argument. *)
Definition gpreg_index (r : GpReg) : Z := match as_num r with Ok n => n | _ => 20 end.
Definition reg_key (r : X64Reg) : Z * (Z * Z) :=
  match r with
  | X64Reg_GpReg r => (0, (0, gpreg_index r))
  | X64Reg_Xmm (XmmReg_Reg i) => (1, (0, Z.of_nat i))
  | X64Reg_Xmm XmmReg_ExceptionFlags => (1, (1, 0))
  | X64Reg_Xmm XmmReg_DenormalsAreZero => (1, (2, 0))
  | X64Reg_X87 (Fpr i) => (2, (0, Z.of_nat i))
  | X64Reg_X87 ExceptionFlags => (2, (1, 0))
  | X64Reg_X87 ConditionCodes => (2, (2, 0))
  | X64Reg_X87 TagWord => (2, (3, 0))
  | X64Reg_X87 TopOfStack => (2, (4, 0))
  end.
Definition cmp3 (a b : Z * (Z * Z)) : comparison :=
  lex (a.1 ?= b.1) (lex (a.2.1 ?= b.2.1) (a.2.2 ?= b.2.2)).
Definition x64_reg_cmp (a b : X64Reg) : comparison := cmp3 (reg_key a) (reg_key b).

(** *** Names *)

Definition gpreg_display (self : GpReg) : string :=
  match self with
  | Rax => "RAX" | Rcx => "RCX" | Rdx => "RDX" | Rsi => "RSI" | Rdi => "RDI" | Rip => "RIP"
  | Rbp => "RBP" | Rbx => "RBX" | Rsp => "RSP" | FsBase => "FS" | GsBase => "GS" | RFlags => "RFLAGS" | Riz => "RIZ"
  | R15 => "R15" | R14 => "R14" | R13 => "R13" | R12 => "R12" | R11 => "R11" | R10 => "R10" | R9 => "R9" | R8 => "R8"
  end.
Definition xmmreg_display (self : XmmReg) : string :=
  match self with
  | XmmReg_Reg i => "Xmm" +:+ (if (i <? 10)%nat then "0" else "") +:+ pretty i
  | XmmReg_ExceptionFlags => "XEF"
  | XmmReg_DenormalsAreZero => "DAZ"
  end.
Definition x87reg_display (self : X87Reg) : string :=
  match self with
  | Fpr index => "mm" +:+ pretty index
  | ExceptionFlags => "EF" | ConditionCodes => "C" | TopOfStack => "TOP" | TagWord => "FTW"
  end.
Definition reg_display (self : X64Reg) : string :=
  match self with
  | X64Reg_GpReg reg => gpreg_display reg
  | X64Reg_Xmm reg => xmmreg_display reg
  | X64Reg_X87 reg => x87reg_display reg
  end.
Definition flag_display (self : X64Flag) : string :=
  match self with
  | Cf => "CF" | Pf => "PF" | Af => "AF" | Zf => "ZF" | Sf => "SF" | Of => "OF"
  | ExceptionFlag n => "EF" +:+ pretty n
  | ConditionCode n => "CC" +:+ pretty n
  | DenormalsAreZero => "DAZ"
  | XmmExceptionFlag n => "XEF" +:+ pretty n
  end.

(** *** Iterators *)

Definition next_gpreg (reg : GpReg) : option GpReg :=
  match reg with
  | Rax => Some Rcx | Rcx => Some Rdx | Rdx => Some Rsi | Rsi => Some Rdi | Rdi => Some Rip
  | Rip => Some Rbp | Rbp => Some Rbx | Rbx => Some Rsp | Rsp => Some R8 | R8 => Some R9
  | R9 => Some R10 | R10 => Some R11 | R11 => Some R12 | R12 => Some R13 | R13 => Some R14
  | R14 => Some R15 | R15 => Some FsBase | FsBase => Some GsBase | GsBase => Some RFlags
  | RFlags => None | Riz => None
  end.
(** An iterator holds the item it returns next; [f] is its [current] after it. *)
Fixpoint iterate {T} (f : T → M (option T)) (fuel : nat) (current : option T) : M (list T) :=
  match current with
  | None => Ok []
  | Some val =>
      match fuel with
      | O => OutOfFuel
      | S fuel => current ← f val; l ← iterate f fuel current; Ok (val :: l)
      end
  end.

Section iterators.
Context {P : profile}.
Definition next_reg (val : X64Reg) : M (option X64Reg) :=
  match val with
  | X64Reg_GpReg reg =>
      Ok (Some (match next_gpreg reg with
                | Some next => X64Reg_GpReg next
                | None => X64Reg_Xmm (XmmReg_Reg 0%nat)
                end))
  | X64Reg_Xmm (XmmReg_Reg 15%nat) => Ok (Some (X64Reg_Xmm XmmReg_ExceptionFlags))
  | X64Reg_Xmm (XmmReg_Reg i) => i ← add_u 8 (Z.of_nat i) 1; Ok (Some (X64Reg_Xmm (XmmReg_Reg (Z.to_nat i))))
  | X64Reg_Xmm XmmReg_ExceptionFlags => Ok (Some (X64Reg_Xmm XmmReg_DenormalsAreZero))
  | X64Reg_Xmm XmmReg_DenormalsAreZero => Ok (Some (X64Reg_X87 (Fpr 0%nat)))
  | X64Reg_X87 (Fpr 7%nat) => Ok (Some (X64Reg_X87 ExceptionFlags))
  | X64Reg_X87 (Fpr n) => n ← add_u 8 (Z.of_nat n) 1; Ok (Some (X64Reg_X87 (Fpr (Z.to_nat n))))
  | X64Reg_X87 ExceptionFlags => Ok (Some (X64Reg_X87 ConditionCodes))
  | X64Reg_X87 ConditionCodes => Ok (Some (X64Reg_X87 TopOfStack))
  | X64Reg_X87 TopOfStack => Ok (Some (X64Reg_X87 TagWord))
  | X64Reg_X87 TagWord => Ok None
  end.
Definition next_flag (val : X64Flag) : M (option X64Flag) :=
  match val with
  | Cf => Ok (Some Pf) | Pf => Ok (Some Af) | Af => Ok (Some Zf) | Zf => Ok (Some Sf) | Sf => Ok (Some Of)
  | Of => Ok (Some (ExceptionFlag 0))
  | ExceptionFlag n => if n <? 5 then m ← add_u 8 n 1; Ok (Some (ExceptionFlag m)) else Ok (Some (ConditionCode 0))
  | ConditionCode n => if n <? 3 then m ← add_u 8 n 1; Ok (Some (ConditionCode m)) else Ok (Some DenormalsAreZero)
  | DenormalsAreZero => Ok (Some (XmmExceptionFlag 0))
  | XmmExceptionFlag n => if n <? 5 then m ← add_u 8 n 1; Ok (Some (XmmExceptionFlag m)) else Ok None
  end.
(** [iter_regs], [iter_gpregs] and [X64Flag::iter], run to their end. *)
Definition collect_regs (fuel : nat) : M (list X64Reg) := iterate next_reg fuel (Some (X64Reg_GpReg Rax)).
Definition collect_gpregs (fuel : nat) : M (list GpReg) := iterate (λ r, Ok (next_gpreg r)) fuel (Some Rax).
Definition collect_flags (fuel : nat) : M (list X64Flag) := iterate next_flag fuel (Some Cf).
End iterators.
(** What [iter_regs] yields ([collect_regs_ok]). *)
Definition x64_iter_regs : list X64Reg :=
  (X64Reg_GpReg <$> all_gpregs) ++ ((λ i, X64Reg_Xmm (XmmReg_Reg i)) <$> seq 0 16) ++
  [X64Reg_Xmm XmmReg_ExceptionFlags; X64Reg_Xmm XmmReg_DenormalsAreZero] ++
  ((λ i, X64Reg_X87 (Fpr i)) <$> seq 0 8) ++
  (X64Reg_X87 <$> [ExceptionFlags; ConditionCodes; TopOfStack; TagWord]).

(** ** The state *)

Record X87State := {
  fpr : list (list Z);            (** [[[u8; 10]; 8]] *)
  top_of_stack : Z;               (** [u8] *)
  exception_flags : Z;            (** [u64] *)
  condition_codes : Z;            (** [u32] *)
  tag_word : Z                    (** [u8] *)
}.
Record X64State := {
  regs : list Z;                  (** [[u64; NUM_GPREGS]] *)
  xmm : list (list Z);            (** [[[u8; 32]; 16]] *)
  x87 : X87State;
  xmm_exception_flags : Z;        (** [u64] *)
  xmm_daz : Z                     (** [u8] *)
}.
#[export] Instance X87State_eq_dec : EqDecision X87State.
Proof. solve_decision. Defined.
#[export] Instance X64State_eq_dec : EqDecision X64State.
Proof. solve_decision. Defined.

Definition NUM_GPREGS : Z := 20.
Definition NUM_XMM_REGS : Z := 16.
Definition GPREGS_SIZE : Z := NUM_GPREGS * 8 - 2.
Definition XMM_REG_SIZE : Z := NUM_XMM_REGS * 32.
Definition XMM_SIZE : Z := XMM_REG_SIZE + 7.
Definition X87_REG_SIZE : Z := 8 * 10.
Definition X87_SIZE : Z := X87_REG_SIZE + 12.
Definition x64_size : Z := GPREGS_SIZE + XMM_SIZE + X87_SIZE.

Definition DEFAULT_X64_STATE : X64State := {|
  regs := replicate 20 0;
  xmm := replicate 16 (replicate 32 0);
  xmm_exception_flags := 0;
  xmm_daz := 0;
  x87 := {| fpr := replicate 8 (replicate 10 0); top_of_stack := 0; exception_flags := 0;
            condition_codes := 0; tag_word := 0 |}
|}.

(** Assignments to one field. *)
Definition with_regs (s : X64State) (l : list Z) : X64State :=
  {| regs := l; xmm := xmm s; x87 := x87 s; xmm_exception_flags := xmm_exception_flags s; xmm_daz := xmm_daz s |}.
Definition with_xmm (s : X64State) (l : list (list Z)) : X64State :=
  {| regs := regs s; xmm := l; x87 := x87 s; xmm_exception_flags := xmm_exception_flags s; xmm_daz := xmm_daz s |}.
Definition with_x87 (s : X64State) (x : X87State) : X64State :=
  {| regs := regs s; xmm := xmm s; x87 := x; xmm_exception_flags := xmm_exception_flags s; xmm_daz := xmm_daz s |}.
Definition with_xef (s : X64State) (n : Z) : X64State :=
  {| regs := regs s; xmm := xmm s; x87 := x87 s; xmm_exception_flags := n; xmm_daz := xmm_daz s |}.
Definition with_daz (s : X64State) (n : Z) : X64State :=
  {| regs := regs s; xmm := xmm s; x87 := x87 s; xmm_exception_flags := xmm_exception_flags s; xmm_daz := n |}.
Definition with_fpr (x : X87State) (l : list (list Z)) : X87State :=
  {| fpr := l; top_of_stack := top_of_stack x; exception_flags := exception_flags x;
     condition_codes := condition_codes x; tag_word := tag_word x |}.
Definition with_top (x : X87State) (n : Z) : X87State :=
  {| fpr := fpr x; top_of_stack := n; exception_flags := exception_flags x;
     condition_codes := condition_codes x; tag_word := tag_word x |}.
Definition with_ef (x : X87State) (n : Z) : X87State :=
  {| fpr := fpr x; top_of_stack := top_of_stack x; exception_flags := n;
     condition_codes := condition_codes x; tag_word := tag_word x |}.
Definition with_cc (x : X87State) (n : Z) : X87State :=
  {| fpr := fpr x; top_of_stack := top_of_stack x; exception_flags := exception_flags x;
     condition_codes := n; tag_word := tag_word x |}.
Definition with_tag (x : X87State) (n : Z) : X87State :=
  {| fpr := fpr x; top_of_stack := top_of_stack x; exception_flags := exception_flags x;
     condition_codes := condition_codes x; tag_word := n |}.

(** *** Registers and flags of a state *)

Definition reg (self : X64State) (reg : X64Reg) : M Value :=
  match reg with
  | X64Reg_GpReg Riz => Ok (Num 0)
  | X64Reg_GpReg reg => i ← as_num reg; n ← vget (regs self) (Z.to_nat i); Ok (Num n)
  | X64Reg_Xmm reg =>
      match reg with
      | XmmReg_Reg i => b ← vget (xmm self) i; Ok (Bytes b)
      | XmmReg_ExceptionFlags => Ok (Num (xmm_exception_flags self))
      | XmmReg_DenormalsAreZero => Ok (Num (xmm_daz self))
      end
  | X64Reg_X87 reg =>
      match reg with
      | Fpr index => b ← vget (fpr (x87 self)) index; Ok (Bytes b)
      | ExceptionFlags => Ok (Num (exception_flags (x87 self)))
      | ConditionCodes => Ok (Num (condition_codes (x87 self)))
      | TopOfStack => Ok (Num (top_of_stack (x87 self)))
      | TagWord => Ok (Num (tag_word (x87 self)))
      end
  end.
(** The closure [update] on a [&mut u64] and on a [&mut [u8]]. *)
Definition update_num (update : Value → M Value) (n : Z) : M Z := v ← update (Num n); unwrap_num v.
Definition update_bytes (update : Value → M Value) (b : list Z) : M (list Z) := v ← update (Bytes b); unwrap_bytes v.

Section state_ops.
Context {P : profile}.
Definition modify_gpreg (self : X64State) (reg : GpReg) (update : Value → M Value) : M X64State :=
  i ← as_num reg;
  n ← vget (regs self) (Z.to_nat i);
  n ← update_num update n;
  l ← vset (regs self) (Z.to_nat i) n;
  match gpreg_mask reg with
  | Some mask => debug_assert! (Z.land n (not_u 64 mask) =? 0); Ok (with_regs self l)
  | None => Ok (with_regs self l)
  end.
Definition modify_reg (self : X64State) (reg : X64Reg) (update : Value → M Value) : M X64State :=
  match reg with
  | X64Reg_GpReg Riz => _ ← update_num update 0; Ok self
  | X64Reg_GpReg reg => modify_gpreg self reg update
  | X64Reg_Xmm reg =>
      match reg with
      | XmmReg_Reg i =>
          b ← vget (xmm self) i;
          b ← update_bytes update b;
          l ← vset (xmm self) i b;
          Ok (with_xmm self l)
      | XmmReg_ExceptionFlags => n ← update_num update (xmm_exception_flags self); Ok (with_xef self n)
      | XmmReg_DenormalsAreZero => v ← update_num update (xmm_daz self); Ok (with_daz self (wrap 8 v))
      end
  | X64Reg_X87 reg =>
      let x := x87 self in
      match reg with
      | Fpr index =>
          b ← vget (fpr x) index;
          b ← update_bytes update b;
          l ← vset (fpr x) index b;
          Ok (with_x87 self (with_fpr x l))
      | ExceptionFlags => n ← update_num update (exception_flags x); Ok (with_x87 self (with_ef x n))
      | ConditionCodes => v ← update_num update (condition_codes x); Ok (with_x87 self (with_cc x (wrap 32 v)))
      | TopOfStack => v ← update_num update (top_of_stack x); Ok (with_x87 self (with_top x (wrap 8 v)))
      | TagWord => v ← update_num update (tag_word x); Ok (with_x87 self (with_tag x (wrap 8 v)))
      end
  end.
Definition gpreg (self : X64State) (reg : GpReg) : M Z :=
  match reg with
  | Riz => Ok 0
  | other => i ← as_num other; vget (regs self) (Z.to_nat i)
  end.
Definition set_gpreg (self : X64State) (reg : GpReg) (value : Z) : M X64State :=
  match reg with
  | Riz => if negb (value =? 0) then Panic else Ok self
  | reg =>
      i ← as_num reg;
      _ ← match gpreg_mask reg with
          | Some mask => old ← vget (regs self) (Z.to_nat i); debug_assert (Z.land old (not_u 64 mask) =? 0)
          | None => Ok tt
          end;
      l ← vset (regs self) (Z.to_nat i) value;
      Ok (with_regs self l)
  end.

Definition translate_flag (flag : X64Flag) : X64Reg * Z :=
  match flag with
  | Cf => (X64Reg_GpReg RFlags, 0)
  | Pf => (X64Reg_GpReg RFlags, 1)
  | Af => (X64Reg_GpReg RFlags, 2)
  | Zf => (X64Reg_GpReg RFlags, 3)
  | Sf => (X64Reg_GpReg RFlags, 4)
  | Of => (X64Reg_GpReg RFlags, 5)
  | ExceptionFlag n => (X64Reg_X87 ExceptionFlags, n)
  | ConditionCode n => (X64Reg_X87 ConditionCodes, n)
  | DenormalsAreZero => (X64Reg_Xmm XmmReg_DenormalsAreZero, 0)
  | XmmExceptionFlag n => (X64Reg_Xmm XmmReg_ExceptionFlags, n)
  end.
Definition flag (self : X64State) (flag : X64Flag) : M bool :=
  let '(r, offset) := translate_flag flag in
  mask ← shl_u 64 1 (offset * 8);
  old_val ← reg self r;
  n ← unwrap_num old_val;
  Ok (negb (Z.land n mask =? 0)).
Definition set_flag (self : X64State) (flag : X64Flag) (value : bool) : M X64State :=
  let '(r, offset) := translate_flag flag in
  mask ← shl_u 64 1 (offset * 8);
  modify_reg self r (λ old_val,
    n ← unwrap_num old_val;
    Ok (Num (if value then Z.lor n mask else Z.land n (not_u 64 mask)))).

(** [flagreg_to_flags]; [&l[start_byte..=end_byte]]. *)
Definition slice_inclusive {T} (l : list T) (start_byte end_byte : Z) : M (list T) :=
  assert! (end_byte <? U64_MAX);
  assert! (start_byte <=? end_byte + 1) && (end_byte + 1 <=? Z.of_nat (length l));
  Ok (take (Z.to_nat (end_byte + 1 - start_byte)) (drop (Z.to_nat start_byte) l)).
Definition flagreg_to_flags (reg : X64Reg) (start_byte end_byte : Z) : M (list X64Flag) :=
  match reg with
  | X64Reg_GpReg reg =>
      assert! bool_decide (reg = RFlags);
      slice_inclusive [Cf; Pf; Af; Zf; Sf; Of] start_byte end_byte
  | X64Reg_X87 ConditionCodes => slice_inclusive (ConditionCode <$> seqZ 0 4) start_byte end_byte
  | X64Reg_X87 ExceptionFlags => slice_inclusive (ExceptionFlag <$> seqZ 0 6) start_byte end_byte
  | X64Reg_Xmm XmmReg_ExceptionFlags => slice_inclusive (XmmExceptionFlag <$> seqZ 0 6) start_byte end_byte
  | X64Reg_Xmm XmmReg_DenormalsAreZero => Ok [DenormalsAreZero]
  | _ => Panic
  end.
Definition try_reg_to_gpreg (reg : X64Reg) : option GpReg :=
  match reg with X64Reg_GpReg gpreg => Some gpreg | _ => None end.

(** *** The bytes of a state *)

Definition checked_sub (a b : Z) : option Z := if b <=? a then Some (a - b) else None.
Definition state_byte_to_reg (byte : Z) : M (X64Reg * Z) :=
  debug_assert! byte <? x64_size;
  match checked_sub byte GPREGS_SIZE with
  | Some n =>
      match checked_sub n XMM_SIZE with
      | Some n =>
          match checked_sub n X87_REG_SIZE with
          | Some n =>
              if n <? 6 then Ok (X64Reg_X87 ExceptionFlags, n)
              else if n <? 10 then Ok (X64Reg_X87 ConditionCodes, n - 6)
              else if n =? 10 then Ok (X64Reg_X87 TagWord, 0)
              else if n =? 11 then Ok (X64Reg_X87 TopOfStack, 0)
              else Panic
          | None => Ok (X64Reg_X87 (Fpr (Z.to_nat (wrap 8 (n / 10)))), n `mod` 10)
          end
      | None =>
          match checked_sub n XMM_REG_SIZE with
          | Some n =>
              if n <? 6 then Ok (X64Reg_Xmm XmmReg_ExceptionFlags, n)
              else if n =? 6 then Ok (X64Reg_Xmm XmmReg_DenormalsAreZero, 0)
              else Panic
          | None => Ok (X64Reg_Xmm (XmmReg_Reg (Z.to_nat (wrap 8 (n / 32)))), n `mod` 32)
          end
      end
  | None => r ← from_num (byte / 8); Ok (X64Reg_GpReg r, byte `mod` 8)
  end.
Definition reg_to_state_byte (reg : X64Reg) (byte : Z) : M Z :=
  debug_assert! negb (bool_decide (reg = X64Reg_GpReg Riz));
  debug_assert! byte <? x64_byte_size reg;
  match reg with
  | X64Reg_GpReg reg => i ← as_num reg; n ← add_u 64 (i * 8) byte; StateByte_new n
  | X64Reg_Xmm reg =>
      n ← match reg with
          | XmmReg_Reg i => add_u 64 (Z.of_nat i * 32) byte
          | XmmReg_ExceptionFlags => add_u 64 XMM_REG_SIZE byte
          | XmmReg_DenormalsAreZero => Ok (XMM_REG_SIZE + 6)
          end;
      n ← add_u 64 GPREGS_SIZE n;
      StateByte_new n
  | X64Reg_X87 reg =>
      n ← match reg with
          | Fpr i => add_u 64 (Z.of_nat i * 10) byte
          | ExceptionFlags => add_u 64 80 byte
          | ConditionCodes => add_u 64 86 byte
          | TagWord => add_u 64 90 byte
          | TopOfStack => add_u 64 91 byte
          end;
      n ← add_u 64 (GPREGS_SIZE + XMM_SIZE) n;
      StateByte_new n
  end.
End state_ops.
End X64.
