(* ===== verification/X64Mem.v ===== *)
(** * The memory of an x86-64 state

    The second half of [liblisa/src/arch/x64/mod.rs]: the translation between
    the numbers of the bytes of a state and their offsets in memory, the
    operations that read and write a state through its address, and the
    comparisons with 256-bit vectors.  [X64Arch] is the instance of [Arch] they
    make up. *)
From S2P Require Import Prelude MachInt Utils Size Value Arch X64.
Import X64.

(** ** Layout *)

(** The offsets of the fields in [X87]. *)
Class X87Layout := {
  off_fpr : Z;
  off_top_of_stack : Z;
  off_exception_flags : Z;
  off_condition_codes : Z;
  off_tag_word : Z
}.
(** The fields of [X64State], with those of [X87]. *)
Inductive Field :=
  | F_regs | F_xmm_regs | F_fpr | F_xmm_exception_flags | F_xmm_daz
  | F_exception_flags | F_condition_codes | F_tag_word | F_top_of_stack.
#[export] Instance Field_eq_dec : EqDecision Field.
Proof. solve_decision. Defined.
Definition all_fields : list Field :=
  [F_regs; F_xmm_regs; F_fpr; F_xmm_exception_flags; F_xmm_daz; F_exception_flags; F_condition_codes; F_tag_word;
   F_top_of_stack].
Definition field_size (f : Field) : Z :=
  match f with
  | F_regs => 160 | F_xmm_regs => 512 | F_fpr => 80 | F_xmm_exception_flags => 8 | F_xmm_daz => 1
  | F_exception_flags => 8 | F_condition_codes => 4 | F_tag_word => 1 | F_top_of_stack => 1
  end.
(** [size_of::<X64State>()]: a multiple of the alignment. *)
Definition SIZE : Z := 800.
Definition LANES : Z := SIZE / 32.
Definition RawOffset : Type := Z.
Definition Memory : Type := RawOffset → Z.

Section layout.
Context {L : X87Layout}.
(** [repr(C)]: each field at the first multiple of its alignment; [x87] takes
    96 bytes from 672 on. *)
Definition field_offset (f : Field) : Z :=
  match f with
  | F_regs => 0
  | F_xmm_regs => 160
  | F_fpr => 672 + off_fpr
  | F_top_of_stack => 672 + off_top_of_stack
  | F_exception_flags => 672 + off_exception_flags
  | F_condition_codes => 672 + off_condition_codes
  | F_tag_word => 672 + off_tag_word
  | F_xmm_exception_flags => 768
  | F_xmm_daz => 776
  end.
Definition field_range (f : Field) : Z * Z := (field_offset f, field_offset f + field_size f).
Definition crop (range : Z * Z) (max : Z) : Z * Z :=
  if range.1 + max <? range.2 then (range.1, range.1 + max) else range.

(** ** Translations *)

(** The [translate] in [translate_raw_offset_to_state_byte] and the one in
    [translate_state_byte_to_raw_offset]. *)
Definition raw_translate (index : Z) (range : Z * Z) (offset : Z) : option Z :=
  if index <? range.2 then base ← checked_sub index range.1; Some (base + offset) else None.
Definition byte_translate (index : Z) (range : Z * Z) (offset : Z) : option Z :=
  n ← checked_sub index offset; if n <? range.2 - range.1 then Some (n + range.1) else None.
Definition or_else {T} (a b : option T) : option T := match a with Some _ => a | None => b end.
Definition translate_raw_offset_to_state_byte (b : Z) : option Z :=
  or_else (raw_translate b (crop (field_range F_regs) 158) 0) $
  or_else (raw_translate b (field_range F_xmm_regs) GPREGS_SIZE) $
  or_else (raw_translate b (field_range F_fpr) (GPREGS_SIZE + XMM_SIZE)) $
  or_else (raw_translate b (crop (field_range F_xmm_exception_flags) 6) (GPREGS_SIZE + XMM_REG_SIZE)) $
  or_else (raw_translate b (field_range F_xmm_daz) (GPREGS_SIZE + XMM_REG_SIZE + 6)) $
  or_else (raw_translate b (crop (field_range F_exception_flags) 6) (GPREGS_SIZE + XMM_SIZE + 80)) $
  or_else (raw_translate b (field_range F_condition_codes) (GPREGS_SIZE + XMM_SIZE + 86)) $
  or_else (raw_translate b (field_range F_tag_word) (GPREGS_SIZE + XMM_SIZE + 90)) $
  raw_translate b (field_range F_top_of_stack) (GPREGS_SIZE + XMM_SIZE + 91).
Definition translate_state_byte_to_raw_offset (b : Z) : option Z :=
  or_else (byte_translate b (crop (field_range F_regs) 158) 0) $
  or_else (byte_translate b (field_range F_xmm_regs) GPREGS_SIZE) $
  or_else (byte_translate b (field_range F_fpr) (GPREGS_SIZE + XMM_SIZE)) $
  or_else (byte_translate b (crop (field_range F_xmm_exception_flags) 6) (GPREGS_SIZE + XMM_REG_SIZE)) $
  or_else (byte_translate b (field_range F_xmm_daz) (GPREGS_SIZE + XMM_REG_SIZE + 6)) $
  or_else (byte_translate b (crop (field_range F_exception_flags) 6) (GPREGS_SIZE + XMM_SIZE + 80)) $
  or_else (byte_translate b (field_range F_condition_codes) (GPREGS_SIZE + XMM_SIZE + 86)) $
  or_else (byte_translate b (field_range F_tag_word) (GPREGS_SIZE + XMM_SIZE + 90)) $
  byte_translate b (field_range F_top_of_stack) (GPREGS_SIZE + XMM_SIZE + 91).

(** ** The bytes in memory *)

(** The bytes of a field, little-endian. *)
Definition field_bytes (s : X64State) (f : Field) : list Z :=
  match f with
  | F_regs => concat (to_le_bytes 8 <$> regs s)
  | F_xmm_regs => concat (xmm s)
  | F_fpr => concat (fpr (x87 s))
  | F_xmm_exception_flags => to_le_bytes 8 (xmm_exception_flags s)
  | F_xmm_daz => [xmm_daz s]
  | F_exception_flags => to_le_bytes 8 (exception_flags (x87 s))
  | F_condition_codes => to_le_bytes 4 (condition_codes (x87 s))
  | F_tag_word => [tag_word (x87 s)]
  | F_top_of_stack => [top_of_stack (x87 s)]
  end.
(** The state after byte [i] of a field is set to [v]. *)
Definition set_le_byte (n : nat) (i : nat) (v x : Z) : Z := from_le_bytes (<[i:=v]> (to_le_bytes n x)).
Definition set_field_byte (s : X64State) (f : Field) (i : nat) (v : Z) : X64State :=
  match f with
  | F_regs => with_regs s (alter (set_le_byte 8 (i mod 8) v) (i / 8)%nat (regs s))
  | F_xmm_regs => with_xmm s (alter <[(i mod 32)%nat := v]> (i / 32)%nat (xmm s))
  | F_fpr => with_x87 s (with_fpr (x87 s) (alter <[(i mod 10)%nat := v]> (i / 10)%nat (fpr (x87 s))))
  | F_xmm_exception_flags => with_xef s (set_le_byte 8 i v (xmm_exception_flags s))
  | F_xmm_daz => with_daz s v
  | F_exception_flags => with_x87 s (with_ef (x87 s) (set_le_byte 8 i v (exception_flags (x87 s))))
  | F_condition_codes => with_x87 s (with_cc (x87 s) (set_le_byte 4 i v (condition_codes (x87 s))))
  | F_tag_word => with_x87 s (with_tag (x87 s) v)
  | F_top_of_stack => with_x87 s (with_top (x87 s) v)
  end.
(** The field an offset lies in. *)
Definition in_range (off : Z) (range : Z * Z) : bool := (range.1 <=? off) && (off <? range.2).
Definition field_at (off : Z) : option (Field * nat) :=
  f ← List.find (λ f, in_range off (field_range f)) all_fields;
  Some (f, Z.to_nat (off - field_offset f)).
(** Reads and writes of [*(self as *const u8).add(off)]; [pad] has the contents
    of the bytes that belong to no field. *)
Definition raw (pad : Memory) (s : X64State) : Memory := λ off,
  match field_at off with
  | Some (f, i) => default 0 (field_bytes s f !! i)
  | None => pad off
  end.
Definition raw_write (s : X64State) (off v : Z) : X64State :=
  match field_at off with Some (f, i) => set_field_byte s f i v | None => s end.

Section raw_ops.
Context {P : profile}.
Definition x64_get_state_byte (mem : Memory) (byte : Z) : M Z :=
  debug_assert! byte <? x64_size;
  offset ← unwrap (translate_state_byte_to_raw_offset byte);
  Ok (mem offset).
(** The [#[cfg(debug_assertions)]] block of [set_state_byte]. *)
Definition assert_register_masked (s : X64State) (byte : Z) : M unit :=
  match P with
  | Release => Ok tt
  | Dev =>
      '(r, _) ← state_byte_to_reg byte;
      let mask := default U64_MAX (mask r) in
      v ← reg s r;
      match v with Num v => debug_assert (Z.land v (not_u 64 mask) =? 0) | Bytes _ => Ok tt end
  end.
Definition x64_set_state_byte (self : X64State) (byte value : Z) : M X64State :=
  debug_assert! byte <? x64_size;
  offset ← unwrap (translate_state_byte_to_raw_offset byte);
  let s := raw_write self offset value in
  _ ← assert_register_masked s byte;
  Ok s.
Definition x64_state_bytes_unequal (self : Memory) (dest : Z) (other : Memory) : M bool :=
  debug_assert! dest <? x64_size;
  offset ← unwrap (translate_state_byte_to_raw_offset dest);
  Ok (negb (self offset =? other offset)).

(** ** Vectors of 32 bytes *)

(** [_mm256_load_si256(ptr.add(index))], [_mm256_cmpeq_epi8] and
    [_mm256_movemask_epi8]: bit [i] is set where byte [i] is all ones. *)
Definition load (mem : Memory) (index : Z) : list Z := (λ i, mem (32 * index + i)) <$> seqZ 0 32.
Definition cmpeq_epi8 (a b : list Z) : list Z := zip_with (λ x y : Z, if x =? y then 0xff else 0) a b.
Fixpoint movemask_epi8 (v : list Z) : Z :=
  match v with
  | [] => 0
  | x :: v => Z.lor (Z.b2z (Z.testbit x 7)) (Z.shiftl (movemask_epi8 v) 1)
  end.
Definition equal_bytes (a b : Memory) (index : Z) : Z := movemask_epi8 (cmpeq_epi8 (load a index) (load b index)).
Definition ALL_EQUAL : Z := 0xffffffff.
(** The loop that fills [results] and [max_index]: [f] is the word of one lane. *)
Definition fill_results (f : Z → Z) : list Z * Z :=
  foldl (λ '(results, max_index) index,
    let n := f index in (results ++ [n], if negb (n =? ALL_EQUAL) then index else max_index))
    ([], 0) (seqZ 0 LANES).
(** [while n != 0]: the bytes [found] is called with. *)
Fixpoint scan_word (fuel : nat) (n byte_index : Z) : M (list Z) :=
  if n =? 0 then Ok [] else
  match fuel with
  | O => OutOfFuel
  | S fuel =>
      let index := Z.of_nat (trailing_zeros 64 n) in
      byte_index ← add_u 64 byte_index index;
      let b := translate_raw_offset_to_state_byte byte_index in
      found ← match b with Some b => b ← StateByte_new b; Ok [b] | None => Ok [] end;
      k ← add_u 64 index 1;
      n ← shr 64 n k;
      byte_index ← add_u 64 byte_index 1;
      rest ← scan_word fuel n byte_index;
      Ok (found ++ rest)
  end.
Definition scan_results (results : list Z) (max_index : Z) : M (list Z) :=
  l ← mapM (λ '(index, n), scan_word 32 (not_u 32 n) (Z.of_nat index * 32))
        (take (Z.to_nat (max_index + 1)) (imap pair results));
  Ok (concat l).
Definition x64_find_differences (self other : Memory) : M (list Z) :=
  let '(results, max_index) := fill_results (equal_bytes self other) in
  scan_results results max_index.

Definition X64DiffMask : Type := list Z.
Definition create_mask (items : list Z) : M X64DiffMask :=
  foldl (λ m item,
    m ← m;
    index ← unwrap (translate_state_byte_to_raw_offset item);
    w ← vget m (Z.to_nat (index / 32));
    vset m (Z.to_nat (index / 32)) (Z.lor w (Z.shiftl 1 (index `mod` 32))))
    (Ok (replicate (Z.to_nat LANES) 0)) items.
(** The word of one lane of [find_dataflows_masked]. *)
Definition dataflow_word (b_in b_out a_in a_out : Memory) (dest_diff_mask diff_mask : X64DiffMask) (index : Z) : Z :=
  let mask := default 0 (diff_mask !! Z.to_nat index) in
  let dest_mask := default 0 (dest_diff_mask !! Z.to_nat index) in
  let n := Z.land (equal_bytes a_in a_out index) (equal_bytes b_in b_out index) in
  let n := Z.lor n mask in
  if negb (n =? ALL_EQUAL) then
    let k := equal_bytes a_out b_out index in
    Z.lor n (Z.land k dest_mask)
  else ALL_EQUAL.
Definition x64_find_dataflows_masked (b a : Memory * Memory) (dest_diff_mask diff_mask : X64DiffMask) : M (list Z) :=
  let '(results, max_index) := fill_results (dataflow_word b.1 b.2 a.1 a.2 dest_diff_mask diff_mask) in
  scan_results results max_index.
End raw_ops.

(** ** [X64Arch] *)

(** The contents of the bytes between the fields of a state. *)
Context (pad : X64State → Memory).
Definition memory (s : X64State) : Memory := raw (pad s) s.
Definition X64Arch {P : profile} : Arch := {|
  Reg := X64Reg; Arch.GpReg := GpReg; Flag := X64Flag; CpuState := X64State;
  reg_cmp := x64_reg_cmp;
  PAGE_BITS := 12;
  arch_reg := X64Reg_GpReg; Arch.try_reg_to_gpreg := try_reg_to_gpreg; iter_regs := x64_iter_regs;
  reg_is_flags := is_flags; reg_is_zero := is_zero; reg_should_avoid := should_avoid; reg_mask := mask;
  byte_size := x64_byte_size; reg_type := x64_reg_type;
  cpu_default := DEFAULT_X64_STATE; cpu_gpreg := gpreg; cpu_set_gpreg := set_gpreg;
  cpu_reg := reg; cpu_modify_reg := modify_reg; cpu_set_flag := set_flag;
  cpu_size := x64_size;
  Arch.state_byte_to_reg := state_byte_to_reg; Arch.reg_to_state_byte := reg_to_state_byte;
  cpu_find_differences s t := x64_find_differences (memory s) (memory t);
  DiffMask := X64DiffMask; cpu_create_diff_mask := create_mask;
  cpu_find_dataflows_masked b a dest_diff_mask diff_mask :=
    x64_find_dataflows_masked (memory b.1, memory b.2) (memory a.1, memory a.2) dest_diff_mask diff_mask
|}.
End layout.
