(* ===== verification/X64Facts.v ===== *)
(** * Facts about the registers of x86-64

    The registers of [iter_regs] are all of them but [Riz]; the state keeps its
    masks, so that x86-64 meets the laws of an architecture ([x64_laws]) on
    which the theorems about states, dataflows and byte views rest; the bytes of
    a state are numbered one to one; flags are the bits of the flag registers. *)
From S2P Require Import Prelude MachInt Utils Size Value Arch Locs X64 X64Mem.
Import SizeOps X64.

(** ** Registers *)

Definition known_reg (r : X64Reg) : Prop :=
  match r with
  | X64Reg_GpReg r => r ≠ Riz
  | X64Reg_Xmm (XmmReg_Reg i) => (i < 16)%nat
  | X64Reg_X87 (Fpr i) => (i < 8)%nat
  | _ => True
  end.
Lemma elem_of_iter_regs r : r ∈ x64_iter_regs ↔ known_reg r.
Proof.
  unfold x64_iter_regs. rewrite !elem_of_app, !list_elem_of_fmap. split.
  - intros [(g & -> & Hg)|[(i & -> & Hi)|[Hr|[(i & -> & Hi)|(x & -> & Hx)]]]].
    + cbn. intros ->. revert Hg. by vm_compute; set_solver.
    + cbn. apply elem_of_seq in Hi. lia.
    + set_unfold. by destruct Hr as [->|[->|[]]].
    + cbn. apply elem_of_seq in Hi. lia.
    + set_unfold. by destruct Hx as [->|[->|[->|[->|[]]]]].
  - destruct r as [g|[i| |]|[i| | | |]]; intros Hr; cbn [known_reg] in Hr.
    + left. exists g. split; [done|]. unfold all_gpregs. destruct g; set_solver.
    + right; left. exists i. split; [done|]. apply elem_of_seq. lia.
    + do 2 right; left. set_solver.
    + do 2 right; left. set_solver.
    + do 3 right; left. exists i. split; [done|]. apply elem_of_seq. lia.
    + do 4 right. set_solver.
    + do 4 right. set_solver.
    + do 4 right. set_solver.
    + do 4 right. set_solver.
Qed.
Lemma as_num_ok r : r ≠ Riz → ∃ i, as_num r = Ok (Z.of_nat i) ∧ (i < 20)%nat.
Proof.
  intros Hr. exists (Z.to_nat (gpreg_index r)). destruct r; (split; [done|vm_compute; lia]) || done.
Qed.
Lemma gpreg_num_inj r r' i : as_num r = Ok i → as_num r' = Ok i → r = r'.
Proof. destruct r, r'; cbn; congruence. Qed.
Lemma as_num_from_num i r : 0 <= i < 20 → from_num i = Ok r ↔ as_num r = Ok i.
Proof.
  intros Hi. split; intros H.
  - assert (i ∈ seqZ 0 20) as Hs by (apply elem_of_seqZ; lia). vm_compute in Hs. set_unfold.
    by destruct_or! Hs; subst i; injection H as <-.
  - by destruct r; try discriminate H; injection H as <-.
Qed.

(** The three iterators end, and yield each register and flag once. *)
Lemma collect_gpregs_ok : collect_gpregs 32 = Ok all_gpregs.
Proof. done. Qed.
Lemma collect_regs_ok {P : profile} : collect_regs 64 = Ok x64_iter_regs.
Proof. by destruct P. Qed.
Lemma x64_iter_regs_NoDup : NoDup x64_iter_regs.
Proof. by apply (bool_decide_unpack _). Qed.
Lemma collect_flags_ok {P : profile} : collect_flags 32 =
  Ok ([Cf; Pf; Af; Zf; Sf; Of] ++ (ExceptionFlag <$> seqZ 0 6) ++ (ConditionCode <$> seqZ 0 4) ++ [DenormalsAreZero] ++
      (XmmExceptionFlag <$> seqZ 0 6)).
Proof. by destruct P. Qed.
(** Distinct registers have distinct names, and so have distinct flags. *)
Theorem names_distinct : NoDup (reg_display <$> x64_iter_regs) ∧
  ∀ l, collect_flags (P:=Dev) 32 = Ok l → NoDup (flag_display <$> l).
Proof.
  split; [by apply (bool_decide_unpack _)|]. intros l. rewrite collect_flags_ok. intros [= <-].
  by apply (bool_decide_unpack _).
Qed.

Lemma cmp3_laws : CmpLaws cmp3.
Proof.
  pose proof (lex_laws Z.compare (λ x y : Z * Z, lex (x.1 ?= y.1) (x.2 ?= y.2)) (CmpLaws1 := lex_laws _ _)) as [H1 H2 H3].
  split; [exact H1|exact H2|exact H3].
Qed.
Lemma reg_key_inj r r' : reg_key r = reg_key r' → r = r'.
Proof.
  destruct r as [g|[i| |]|[i| | | |]], r' as [g'|[i'| |]|[i'| | | |]]; cbn; intros [=]; try done; try (repeat f_equal; lia).
  by destruct g, g'.
Qed.
Lemma x64_cmp_laws : CmpLaws x64_reg_cmp.
Proof. apply (cmp_via cmp3 (CmpLaws0 := cmp3_laws) reg_key reg_key_inj). Qed.

(** ** Well-formed states *)

(** [n] has no bits outside of the mask [m]. *)
Definition fits (m n : Z) : Prop := Z.land n m = n.
Lemma fits_u w m n : 0 <= w → is_u w m → fits m n → is_u w n.
Proof.
  unfold fits. intros Hw Hm <-. rewrite Z.land_comm. apply u_of_bits; [done| |].
  - apply Z.land_nonneg. left; apply Hm.
  - intros i Hi. by rewrite Z.land_spec, (testbit_u_high w) by (done || lia).
Qed.
Lemma fits_ones w n : 0 <= w → is_u w n → fits (Z.ones w) n.
Proof. intros. unfold fits. rewrite Z.land_ones by done. by apply wrap_small. Qed.
Lemma fits_not w m n : 0 <= w → is_u w n → fits m n ↔ Z.land n (not_u w m) = 0.
Proof.
  intros Hw Hn. unfold fits, not_u. split; intros H; apply Z.bits_inj'; intros i Hi.
  - rewrite Z.land_spec, testbit_wrap, Z.lnot_spec, Z.bits_0 by done. rewrite <- H at 1. rewrite Z.land_spec.
    destruct (Z.testbit n i), (Z.testbit m i), (i <? w); done.
  - apply (f_equal (λ x, Z.testbit x i)) in H. rewrite Z.land_spec, testbit_wrap, Z.lnot_spec, Z.bits_0 in H by done.
    rewrite Z.land_spec. destruct (Z.ltb_spec i w) as [Hlt|Hge].
    + by destruct (Z.testbit n i), (Z.testbit m i).
    + by rewrite (testbit_u_high w n) by (done || lia).
Qed.

(** The arrays have their lengths, the integers their widths, and the registers
    with a mask no other bits. *)
Record x64_wf (s : X64State) : Prop := {
  wf_regs_length : length (regs s) = 20%nat;
  wf_regs : Forall (is_u 64) (regs s);
  wf_rflags n : regs s !! 19%nat = Some n → fits 0x010101010101 n;
  wf_xmm_length : length (xmm s) = 16%nat;
  wf_xmm : Forall (λ b, length b = 32%nat ∧ is_bytes b) (xmm s);
  wf_xef : fits 0x010101010101 (xmm_exception_flags s);
  wf_daz : fits 1 (xmm_daz s);
  wf_fpr_length : length (fpr (x87 s)) = 8%nat;
  wf_fpr : Forall (λ b, length b = 10%nat ∧ is_bytes b) (fpr (x87 s));
  wf_ef : fits 0x010101010101 (exception_flags (x87 s));
  wf_cc : fits 0x01010101 (condition_codes (x87 s));
  wf_top : fits 7 (top_of_stack (x87 s));
  wf_tag : is_u 8 (tag_word (x87 s));
}.
Lemma default_x64_wf : x64_wf DEFAULT_X64_STATE.
Proof.
  split; try done; cbn [DEFAULT_X64_STATE regs xmm x87 fpr].
  - by apply Forall_replicate.
  - intros n [-> _]%lookup_replicate. done.
  - apply Forall_replicate. split; [done|by apply Forall_replicate].
  - apply Forall_replicate. split; [done|by apply Forall_replicate].
Qed.

Definition x64_fits (r : X64Reg) (v : Value) : Prop :=
  match v with Num n => fits (default (Z.ones (8 * x64_byte_size r)) (mask r)) n | Bytes _ => True end.
(** The width of the numbers of a register. *)
Lemma x64_fits_u r n : x64_reg_type r = NumType → x64_fits r (Num n) → is_u 64 n.
Proof.
  intros Ht Hf. eapply fits_u; [done| |exact Hf]. destruct r as [g|[i| |]|[i| | | |]]; try discriminate Ht.
  all: try (by apply (bool_decide_unpack _)). destruct g; by apply (bool_decide_unpack _).
Qed.

Lemma gpreg_read s r i : as_num r = Ok i → reg s (X64Reg_GpReg r) = n ← vget (regs s) (Z.to_nat i); Ok (Num n).
Proof. intros H. destruct r; [injection H as <-; done..|discriminate H]. Qed.
Lemma read_num s r n : reg s r = Ok (Num n) → x64_reg_type r = NumType → x64_fits r (Num n) →
  ∃ v, reg s r = Ok v ∧ has_type v (x64_reg_type r) ∧ value_wf v ∧ x64_fits r v.
Proof. intros E Ht Hf. exists (Num n). rewrite Ht. split_and!; [exact E|done|exact (x64_fits_u r n Ht Hf)|exact Hf]. Qed.
Lemma x64_read s r : x64_wf s → known_reg r →
  ∃ v, reg s r = Ok v ∧ has_type v (x64_reg_type r) ∧ value_wf v ∧ x64_fits r v.
Proof.
  intros Hwf Hr. destruct r as [g|[i| |]|[i| | | |]]; cbn [known_reg] in Hr.
  - destruct (as_num_ok g Hr) as (i & Ei & Hi). rewrite (gpreg_read _ _ _ Ei), Nat2Z.id.
    destruct (vget_lt (regs s) i) as (n & -> & En); [by rewrite (wf_regs_length s)|]. exists (Num n).
    assert (is_u 64 n) as Hn by by apply (Forall_lookup_1 _ _ _ _ (wf_regs s Hwf) En).
    split_and!; [done..|exact Hn|]. cbn [x64_fits]. destruct g; try exact (fits_ones 64 n ltac:(done) Hn).
    injection Ei as Ei. cbn. apply (wf_rflags s Hwf). by replace 19%nat with i by lia.
  - cbn. destruct (vget_lt (xmm s) i) as (b & -> & Eb); [by rewrite (wf_xmm_length s)|].
    destruct (Forall_lookup_1 _ _ _ _ (wf_xmm s Hwf) Eb). by exists (Bytes b).
  - eapply read_num; [reflexivity|reflexivity|exact (wf_xef s Hwf)].
  - eapply read_num; [reflexivity|reflexivity|exact (wf_daz s Hwf)].
  - cbn. destruct (vget_lt (fpr (x87 s)) i) as (b & -> & Eb); [by rewrite (wf_fpr_length s)|].
    destruct (Forall_lookup_1 _ _ _ _ (wf_fpr s Hwf) Eb). by exists (Bytes b).
  - eapply read_num; [reflexivity|reflexivity|exact (wf_ef s Hwf)].
  - eapply read_num; [reflexivity|reflexivity|exact (wf_cc s Hwf)].
  - eapply read_num; [reflexivity|reflexivity|exact (fits_ones 8 _ ltac:(done) (wf_tag s Hwf))].
  - eapply read_num; [reflexivity|reflexivity|exact (wf_top s Hwf)].
Qed.

(** *** Updates *)

Section updates.
Context {P : profile}.
Lemma modify_gpreg_eq s r f : r ≠ Riz → modify_reg s (X64Reg_GpReg r) f = modify_gpreg s r f.
Proof. by destruct r. Qed.
Lemma update_num_ok f n v : f (Num n) = Ok v → same_shape (Num n) v → ∃ m, v = Num m ∧ update_num f n = Ok m.
Proof. intros E Hs. destruct v as [m|]; [|done]. exists m. unfold update_num. by rewrite E. Qed.
Lemma update_bytes_ok f b v : f (Bytes b) = Ok v → same_shape (Bytes b) v →
  ∃ c, v = Bytes c ∧ length b = length c ∧ update_bytes f b = Ok c.
Proof. intros E Hs. destruct v as [|c]; [done|]. exists c. unfold update_bytes. by rewrite E. Qed.

(** Other registers do not see an update. *)
Lemma reg_with_regs s l r' : (∀ g i, r' = X64Reg_GpReg g → as_num g = Ok i → l !! Z.to_nat i = regs s !! Z.to_nat i) →
  reg (with_regs s l) r' = reg s r'.
Proof.
  intros H. destruct r' as [g| |]; [|done..]. destruct (decide (g = Riz)) as [->|Hg]; [done|].
  destruct (as_num_ok g Hg) as (i & Ei & _). rewrite !(gpreg_read _ _ _ Ei). unfold vget. cbn.
  by rewrite (H g _ eq_refl Ei).
Qed.
Lemma modify_gpreg_spec s g f v v' : x64_wf s → g ≠ Riz → reg s (X64Reg_GpReg g) = Ok v → f v = Ok v' →
  same_shape v v' → value_wf v' → x64_fits (X64Reg_GpReg g) v' →
  ∃ s', modify_gpreg s g f = Ok s' ∧ x64_wf s' ∧ reg s' (X64Reg_GpReg g) = Ok v' ∧
    ∀ r', r' ≠ X64Reg_GpReg g → reg s' r' = reg s r'.
Proof.
  intros Hwf Hg Hr Hf Hs Hv Hfit. destruct (as_num_ok g Hg) as (i & Ei & Hi).
  rewrite (gpreg_read _ _ _ Ei), Nat2Z.id in Hr. unfold modify_gpreg. rewrite Ei, M_bind_Ok, Nat2Z.id.
  destruct (vget_lt (regs s) i) as (n & En & El); [by rewrite (wf_regs_length s)|].
  rewrite En, M_bind_Ok in *. injection Hr as <-. destruct (update_num_ok _ _ _ Hf Hs) as (m & -> & ->).
  rewrite M_bind_Ok, vset_lt, M_bind_Ok by by rewrite (wf_regs_length s).
  exists (with_regs s (<[i:=m]> (regs s))). split_and!.
  - destruct (gpreg_mask g) as [mask|] eqn:E; [|done].
    assert (Z.land m (not_u 64 mask) = 0) as ->; [|by destruct P].
    apply fits_not; [done|exact Hv|]. cbn in Hfit. by rewrite E in Hfit.
  - destruct Hwf. split; cbn; rewrite ?length_insert; try done; [by apply Forall_insert|].
    intros k Hk. destruct (decide (i = 19%nat)) as [->|Hne].
    + rewrite list_lookup_insert_eq in Hk by lia. injection Hk as <-. destruct g; try discriminate Ei. exact Hfit.
    + rewrite list_lookup_insert_ne in Hk by done. auto.
  - rewrite (gpreg_read _ _ _ Ei), Nat2Z.id. unfold vget. cbn.
    by rewrite list_lookup_insert_eq by by rewrite (wf_regs_length s).
  - intros r' Hne. apply reg_with_regs. intros g' j -> Ej. rewrite list_lookup_insert_ne; [done|]. intros ->.
    apply Hne. f_equal. apply (gpreg_num_inj _ _ j); [done|]. rewrite Ei. f_equal.
    destruct (decide (g' = Riz)) as [->|Hg']; [discriminate Ej|]. destruct (as_num_ok g' Hg') as (k & Ek & _).
    rewrite Ek in Ej. injection Ej as <-. by rewrite Nat2Z.id.
Qed.
(** An entry of an array of byte registers is replaced. *)
Lemma update_entry (l : list (list Z)) i k f b v : length l = k → (i < k)%nat → vget l i = Ok b →
  f (Bytes b) = Ok v → same_shape (Bytes b) v → value_wf v → ∀ m, Forall (λ b, length b = m ∧ is_bytes b) l →
  ∃ c, v = Bytes c ∧ update_bytes f b = Ok c ∧ vset l i c = Ok (<[i:=c]> l) ∧
    vget (<[i:=c]> l) i = Ok c ∧ (∀ j, j ≠ i → vget (<[i:=c]> l) j = vget l j) ∧
    length (<[i:=c]> l) = k ∧ Forall (λ b, length b = m ∧ is_bytes b) (<[i:=c]> l).
Proof.
  intros Hl Hi Hb Hf Hs Hv m Hm. destruct (update_bytes_ok _ _ _ Hf Hs) as (c & -> & Hlen & Hu). exists c.
  apply vget_Ok_inv in Hb. destruct (Forall_lookup_1 _ _ _ _ Hm Hb) as [Hbl _].
  split_and!; [done|done|apply vset_lt; lia| | |by rewrite length_insert|].
  - unfold vget. by rewrite list_lookup_insert_eq by lia.
  - intros j Hj. unfold vget. by rewrite list_lookup_insert_ne by done.
  - apply Forall_insert; [done|]. split; [congruence|exact Hv].
Qed.
Lemma fits_wrap w m n : 0 <= w → is_u w m → fits m n → wrap w n = n.
Proof. intros. apply wrap_small. by eapply fits_u. Qed.

Lemma x64_modify s r f v v' : x64_wf s → known_reg r → reg s r = Ok v → f v = Ok v' →
  same_shape v v' → value_wf v' → x64_fits r v' →
  ∃ s', modify_reg s r f = Ok s' ∧ x64_wf s' ∧ reg s' r = Ok v' ∧ ∀ r', r' ≠ r → reg s' r' = reg s r'.
Proof.
  intros Hwf Hk Hr Hf Hs Hv Hfit. destruct r as [g|[i| |]|[i| | | |]]; cbn [known_reg] in Hk.
  { rewrite modify_gpreg_eq by done. by apply (modify_gpreg_spec s g f v). }
  all: cbn [modify_reg]; cbn [reg] in Hr.
  1: { destruct (vget (xmm s) i) as [b| |] eqn:Eb; [|done..]. injection Hr as <-.
       destruct (update_entry (xmm s) i 16 f b v' (wf_xmm_length s Hwf) Hk Eb Hf Hs Hv 32 (wf_xmm s Hwf))
         as (c & -> & Hu & Hset & Hget & Ho & Hl & Hall).
       rewrite M_bind_Ok, Hu, M_bind_Ok, Hset, M_bind_Ok. eexists. split_and!; [done|by destruct Hwf| |].
       - cbn. by rewrite Hget.
       - intros [g|[j| |]|[j| | | |]] Hne; try done. cbn. rewrite Ho; [done|congruence]. }
  3: { destruct (vget (fpr (x87 s)) i) as [b| |] eqn:Eb; [|done..]. injection Hr as <-.
       destruct (update_entry (fpr (x87 s)) i 8 f b v' (wf_fpr_length s Hwf) Hk Eb Hf Hs Hv 10 (wf_fpr s Hwf))
         as (c & -> & Hu & Hset & Hget & Ho & Hl & Hall).
       rewrite M_bind_Ok, Hu, M_bind_Ok, Hset, M_bind_Ok. eexists. split_and!; [done|by destruct Hwf| |].
       - cbn. by rewrite Hget.
       - intros [g|[j| |]|[j| | | |]] Hne; try done. cbn. rewrite Ho; [done|congruence]. }
  all: injection Hr as <-; destruct (update_num_ok _ _ _ Hf Hs) as (m & -> & ->); rewrite M_bind_Ok.
  all: cbn [x64_fits mask default x64_byte_size] in Hfit.
  all: eexists; split; [reflexivity|].
  - split_and!; [by destruct Hwf|done|by intros [g|[j| |]|[j| | | |]]].
  - rewrite (fits_wrap 8 1 m) by done. split_and!; [by destruct Hwf|done|by intros [g|[j| |]|[j| | | |]]].
  - split_and!; [by destruct Hwf|done|by intros [g|[j| |]|[j| | | |]]].
  - rewrite (fits_wrap 32 0x01010101 m) by done. split_and!; [by destruct Hwf|done|by intros [g|[j| |]|[j| | | |]]].
  - assert (is_u 8 m) by (apply (fits_u 8 (Z.ones 8)); [done|done|exact Hfit]). rewrite wrap_small by done.
    split_and!; [by destruct Hwf|done|by intros [g|[j| |]|[j| | | |]]].
  - rewrite (fits_wrap 8 7 m) by done. split_and!; [by destruct Hwf|done|by intros [g|[j| |]|[j| | | |]]].
Qed.
(** The closure is called once, on the contents of the register. *)
Lemma x64_modify_cases s r f v : known_reg r → reg s r = Ok v →
  (f v = Panic → modify_reg s r f = Panic) ∧ ∀ g, f v = g v → modify_reg s r f = modify_reg s r g.
Proof.
  intros Hk Hr. destruct r as [g|[i| |]|[i| | | |]]; cbn [known_reg] in Hk.
  { rewrite modify_gpreg_eq by done. destruct (as_num_ok g Hk) as (i & Ei & Hi).
    rewrite (gpreg_read _ _ _ Ei) in Hr. unfold modify_gpreg. rewrite Ei, M_bind_Ok.
    destruct (vget (regs s) (Z.to_nat (Z.of_nat i))) as [n| |] eqn:En; [|done..]. injection Hr as <-.
    rewrite M_bind_Ok. unfold update_num. split; [by intros ->|]. intros h Hh.
    by rewrite modify_gpreg_eq by done; unfold modify_gpreg; rewrite Ei, M_bind_Ok, En, M_bind_Ok; unfold update_num; rewrite Hh. }
  all: cbn [modify_reg]; cbn [reg] in Hr; unfold update_num, update_bytes.
  1: destruct (vget (xmm s) i) as [b| |] eqn:Eb; [|done..].
  4: destruct (vget (fpr (x87 s)) i) as [b| |] eqn:Eb; [|done..].
  all: injection Hr as <-; rewrite ?M_bind_Ok; split; [by intros ->|intros h Hh; rewrite ?M_bind_Ok; by rewrite Hh].
Qed.
End updates.

#[export] Instance x64_laws {P : profile} {L : X87Layout} pad : ArchLaws (X64Arch pad).
Proof.
  refine (Build_ArchLaws (X64Arch pad) x64_cmp_laws x64_wf default_x64_wf _ _ _ _).
  - intros s r Hwf Hr%elem_of_iter_regs. by apply x64_read.
  - intros s r f v v' Hwf Hr%elem_of_iter_regs. by apply x64_modify.
  - intros s r f v Hwf Hr%elem_of_iter_regs Er. by apply (x64_modify_cases s r f v).
  - intros s r f g v Hwf Hr%elem_of_iter_regs Er. by apply (x64_modify_cases s r f v).
Defined.

(** ** Numbering of bytes *)

Definition byte_roundtrip {P : profile} (b : Z) : bool :=
  match state_byte_to_reg b with
  | Ok (r, i) => bool_decide (r ∈ x64_iter_regs) && (0 <=? i) && (i <? x64_byte_size r) &&
                 match reg_to_state_byte r i with Ok c => c =? b | _ => false end
  | _ => false
  end.
Definition reg_roundtrip {P : profile} (r : X64Reg) (i : Z) : bool :=
  match reg_to_state_byte r i with
  | Ok b => (0 <=? b) && (b <? x64_size) &&
            match state_byte_to_reg b with Ok x => bool_decide (x = (r, i)) | _ => false end
  | _ => false
  end.
Lemma byte_roundtrips {P : profile} : forallb byte_roundtrip (seqZ 0 x64_size) = true.
Proof. by destruct P; vm_compute. Qed.
Lemma reg_roundtrips {P : profile} :
  forallb (λ r, forallb (reg_roundtrip r) (seqZ 0 (x64_byte_size r))) x64_iter_regs = true.
Proof. by destruct P; vm_compute. Qed.

Lemma byte_to_reg {P : profile} b : 0 <= b < x64_size →
  ∃ r i, state_byte_to_reg b = Ok (r, i) ∧ known_reg r ∧ 0 <= i < x64_byte_size r ∧ reg_to_state_byte r i = Ok b.
Proof.
  intros Hb. pose proof byte_roundtrips as H. rewrite forallb_forall in H.
  specialize (H b ltac:(apply list_elem_of_In, elem_of_seqZ; lia)). unfold byte_roundtrip in H.
  destruct (state_byte_to_reg b) as [[r i]| |]; [|done..]. exists r, i.
  rewrite !andb_true_iff, bool_decide_eq_true, elem_of_iter_regs in H. destruct H as [[[Hr H0] H1] H].
  split_and!; [done|done|lia|lia|]. destruct (reg_to_state_byte r i) as [c| |]; [|done..]. f_equal. lia.
Qed.
Lemma reg_to_byte {P : profile} r i : known_reg r → 0 <= i < x64_byte_size r →
  ∃ b, reg_to_state_byte r i = Ok b ∧ 0 <= b < x64_size ∧ state_byte_to_reg b = Ok (r, i).
Proof.
  intros Hr Hi. pose proof reg_roundtrips as H. rewrite forallb_forall in H.
  specialize (H r ltac:(by apply list_elem_of_In, elem_of_iter_regs)). cbn beta in H. rewrite forallb_forall in H.
  specialize (H i ltac:(apply list_elem_of_In, elem_of_seqZ; lia)). unfold reg_roundtrip in H.
  destruct (reg_to_state_byte r i) as [b| |]; [|done..]. exists b. rewrite !andb_true_iff in H. destruct H as [[H0 H1] H].
  split_and!; [done|lia|lia|]. destruct (state_byte_to_reg b) as [x| |]; [|done..]. f_equal. by apply bool_decide_eq_true in H.
Qed.

(** The bytes of a state number the bytes of the registers of [iter_regs], each
    once: [state_byte_to_reg] and [reg_to_state_byte] are inverse. *)
Theorem x64_state_bytes {P : profile} :
  (∀ b, 0 <= b < x64_size → ∃ r i, state_byte_to_reg b = Ok (r, i) ∧ r ∈ x64_iter_regs ∧
     0 <= i < x64_byte_size r ∧ reg_to_state_byte r i = Ok b) ∧
  ∀ r i, r ∈ x64_iter_regs → 0 <= i < x64_byte_size r →
    ∃ b, reg_to_state_byte r i = Ok b ∧ 0 <= b < x64_size ∧ state_byte_to_reg b = Ok (r, i).
Proof.
  split; [|intros r i Hr%elem_of_iter_regs; by apply reg_to_byte].
  intros b (r & i & H1 & H2%elem_of_iter_regs & H3)%byte_to_reg. by exists r, i.
Qed.
Lemma x64_state_bytes_witness :
  (0 <= 768 < x64_size ∧ X64Reg_X87 TopOfStack ∈ x64_iter_regs ∧ 0 <= 0 < x64_byte_size (X64Reg_X87 TopOfStack)) ∧
  (∃ r i, state_byte_to_reg (P:=Dev) 768 = Ok (r, i) ∧ r ∈ x64_iter_regs ∧
     0 <= i < x64_byte_size r ∧ reg_to_state_byte (P:=Dev) r i = Ok 768) ∧
  ∃ b, reg_to_state_byte (P:=Dev) (X64Reg_X87 TopOfStack) 0 = Ok b ∧ 0 <= b < x64_size ∧
    state_byte_to_reg (P:=Dev) b = Ok (X64Reg_X87 TopOfStack, 0).
Proof.
  assert (X64Reg_X87 TopOfStack ∈ x64_iter_regs) by by apply elem_of_iter_regs.
  split; [done|]. split; [by apply (x64_state_bytes (P:=Dev))|by apply (x64_state_bytes (P:=Dev))].
Defined.

(** ** Flags *)

Definition known_flag (f : X64Flag) : Prop :=
  match f with
  | ExceptionFlag n => 0 <= n < 6 | ConditionCode n => 0 <= n < 4 | XmmExceptionFlag n => 0 <= n < 6
  | _ => True
  end.
(** The mask of the register of a flag, and the flag's bit in it. *)
Lemma known_flag_bit f r offset : known_flag f → translate_flag f = (r, offset) →
  known_reg r ∧ x64_reg_type r = NumType ∧ 0 <= offset < x64_byte_size r ∧ offset * 8 < 64 ∧
  ∃ m, mask r = Some m ∧ is_u 64 m ∧ Z.testbit m (offset * 8) = true.
Proof.
  intros Hf E. destruct f; cbn in E; injection E as <- <-; cbn in Hf |- *.
  all: split_and!; try done; try lia; eexists; split_and!; [done|done|]; try done.
  all: match goal with |- Z.testbit _ (?n * 8) = true => assert (n = 0 ∨ n = 1 ∨ n = 2 ∨ n = 3 ∨ n = 4 ∨ n = 5) as Hn by lia end.
  all: by destruct_or! Hn; subst; try lia.
Qed.
Lemma translate_flag_inj f f' : translate_flag f = translate_flag f' → f = f'.
Proof. destruct f, f'; cbn; congruence. Qed.

Section flags.
Context {P : profile}.
Lemma flag_mask k : 0 <= k < 64 → shl_u 64 1 k = Ok (2 ^ k).
Proof.
  intros Hk. rewrite shl_u_ok by lia. rewrite Z.shiftl_1_l, wrap_small; [done|].
  split; [by apply Z.pow_nonneg|]. apply Z.pow_lt_mono_r; lia.
Qed.
(** The register after [set_flag]. *)
Definition with_bit (n k : Z) (value : bool) : Z := if value then Z.lor n (2 ^ k) else Z.land n (not_u 64 (2 ^ k)).
Lemma testbit_with_bit n k value j : is_u 64 n → 0 <= k < 64 → 0 <= j →
  Z.testbit (with_bit n k value) j = if j =? k then value else Z.testbit n j.
Proof.
  intros Hn Hk Hj. unfold with_bit, not_u. destruct value.
  - rewrite Z.lor_spec, Z.pow2_bits_eqb, Z.eqb_sym by lia. destruct (j =? k); by rewrite ?orb_true_r, ?orb_false_r.
  - rewrite Z.land_spec, testbit_wrap, Z.lnot_spec, Z.pow2_bits_eqb, Z.eqb_sym by lia.
    destruct (Z.eqb_spec j k); [by rewrite !andb_false_r|]. destruct (Z.ltb_spec j 64).
    + by rewrite !andb_true_r.
    + by rewrite (testbit_u_high 64) by (done || lia).
Qed.
Lemma fits_with_bit m n k value : is_u 64 n → fits m n → 0 <= k < 64 → Z.testbit m k = true → fits m (with_bit n k value).
Proof.
  intros Hn Hm Hk Hb. unfold fits. apply Z.bits_inj'; intros j Hj. rewrite Z.land_spec, testbit_with_bit by done.
  destruct (Z.eqb_spec j k) as [->|]; [by rewrite Hb, andb_true_r|]. rewrite <- Z.land_spec.
  exact (f_equal (λ x, Z.testbit x j) Hm).
Qed.
Lemma flag_eq s f r offset n : translate_flag f = (r, offset) → 0 <= offset → offset * 8 < 64 → reg s r = Ok (Num n) →
  flag s f = Ok (Z.testbit n (offset * 8)).
Proof.
  intros E H0 H1 Hr. unfold flag. rewrite E, flag_mask, M_bind_Ok, Hr by lia. cbn. f_equal.
  destruct (Z.testbit n (offset * 8)) eqn:Eb.
  - apply negb_true_iff, Z.eqb_neq. intros H. apply (f_equal (λ x, Z.testbit x (offset * 8))) in H.
    rewrite Z.land_spec, Z.pow2_bits_true, Eb, Z.bits_0 in H by lia. done.
  - apply negb_false_iff, Z.eqb_eq. apply Z.bits_inj'; intros j Hj. rewrite Z.land_spec, Z.pow2_bits_eqb, Z.bits_0 by lia.
    destruct (Z.eqb_spec (offset * 8) j) as [<-|]; [by rewrite Eb|by rewrite andb_false_r].
Qed.
End flags.

(** Setting a flag succeeds, keeps the state well-formed, is seen by [flag], and
    leaves the other flags alone. *)
Theorem set_flag_spec {P : profile} s f value : x64_wf s → known_flag f →
  ∃ s', set_flag s f value = Ok s' ∧ x64_wf s' ∧ flag s' f = Ok value ∧
    ∀ f', known_flag f' → f' ≠ f → flag s' f' = flag s f'.
Proof.
  intros Hwf Hf. destruct (translate_flag f) as [r offset] eqn:E.
  destruct (known_flag_bit _ _ _ Hf E) as (Hr & Ht & Ho & Hk & m & Hm & Hmu & Hb).
  destruct (x64_read s r Hwf Hr) as (v & Ev & Hty & Hv & Hfit). rewrite Ht in Hty. destruct v as [n|]; [|done].
  cbn in Hv. cbn [x64_fits] in Hfit. rewrite Hm in Hfit. cbn in Hfit.
  set (n' := with_bit n (offset * 8) value).
  assert (fits m n') as Hfit' by (apply fits_with_bit; (done || lia)).
  destruct (x64_modify s r (λ old_val, n ← unwrap_num old_val;
    Ok (Num (if value then Z.lor n (2 ^ (offset * 8)) else Z.land n (not_u 64 (2 ^ (offset * 8))))))
    (Num n) (Num n') Hwf Hr Ev) as (s' & Es & Hwf' & Er & Hother); [done|done|by apply (fits_u 64 m)| |].
  { cbn [x64_fits]. by rewrite Hm. }
  exists s'. split_and!; [|done| |].
  - unfold set_flag. rewrite E, flag_mask, M_bind_Ok by lia. exact Es.
  - rewrite (flag_eq s' f r offset n') by (done || lia). unfold n'. rewrite testbit_with_bit by (done || lia).
    by rewrite Z.eqb_refl.
  - intros f' Hf' Hne. destruct (translate_flag f') as [r' offset'] eqn:E'.
    destruct (known_flag_bit _ _ _ Hf' E') as (Hr' & Ht' & Ho' & Hk' & _).
    destruct (decide (r' = r)) as [->|Hrr].
    + rewrite (flag_eq s' f' r offset' n'), (flag_eq s f' r offset' n) by (done || lia). unfold n'.
      rewrite testbit_with_bit by (done || lia). destruct (Z.eqb_spec (offset' * 8) (offset * 8)); [|done].
      exfalso. apply Hne, translate_flag_inj. rewrite E, E'. f_equal. lia.
    + unfold flag. rewrite E'. by rewrite (Hother _ Hrr).
Qed.
Lemma set_flag_spec_witness : (x64_wf DEFAULT_X64_STATE ∧ known_flag (ConditionCode 3)) ∧
  ∃ s', set_flag (P:=Dev) DEFAULT_X64_STATE (ConditionCode 3) true = Ok s' ∧ x64_wf s' ∧
    flag (P:=Dev) s' (ConditionCode 3) = Ok true ∧
    ∀ f', known_flag f' → f' ≠ ConditionCode 3 → flag (P:=Dev) s' f' = flag (P:=Dev) DEFAULT_X64_STATE f'.
Proof. split; [split; [exact default_x64_wf|done]|]. apply set_flag_spec; [exact default_x64_wf|done]. Defined.

(** [set_gpreg] checks the mask on the contents it replaces: it stores bits that
    [RFlags] does not have, and the next call, which would remove them, panics. *)
Theorem set_gpreg_checks_old_value : ∃ s, set_gpreg (P:=Dev) DEFAULT_X64_STATE RFlags 2 = Ok s ∧ ¬ x64_wf s ∧
  set_gpreg (P:=Dev) s RFlags 0 = Panic.
Proof.
  eexists. split; [reflexivity|]. split; [|reflexivity]. intros H. by pose proof (wf_rflags _ H 2 eq_refl).
Qed.
(** For any other register it agrees with an update of the register. *)
Lemma set_gpreg_spec {P : profile} s r value : x64_wf s → r ≠ Riz → is_u 64 value → x64_fits (X64Reg_GpReg r) (Num value) →
  ∃ s', set_gpreg s r value = Ok s' ∧ x64_wf s' ∧ gpreg s' r = Ok value ∧
    ∀ r', r' ≠ X64Reg_GpReg r → reg s' r' = reg s r'.
Proof.
  intros Hwf Hr Hv Hfit. destruct (x64_read s (X64Reg_GpReg r) Hwf Hr) as (v & Ev & _ & Hvu & Hfv).
  destruct (as_num_ok r Hr) as (i & Ei & Hi). pose proof Ev as Ev'. rewrite (gpreg_read _ _ _ Ei), Nat2Z.id in Ev'.
  destruct (vget_lt (regs s) i) as (n & En & El); [by rewrite (wf_regs_length s)|].
  rewrite En, M_bind_Ok in Ev'. injection Ev' as <-.
  destruct (modify_gpreg_spec s r (λ _, Ok (Num value)) (Num n) (Num value) Hwf Hr Ev eq_refl I Hv Hfit)
    as (s' & Es & Hwf' & Er & Ho).
  exists s'. split_and!; [|done| |exact Ho].
  - unfold modify_gpreg in Es. rewrite Ei, M_bind_Ok, Nat2Z.id, En in Es. cbn in Es.
    rewrite vset_lt, M_bind_Ok in Es by by rewrite (wf_regs_length s).
    assert (set_gpreg s r value = (i ← as_num r;
      _ ← match gpreg_mask r with
          | Some mask => old ← vget (regs s) (Z.to_nat i); debug_assert (Z.land old (not_u 64 mask) =? 0)
          | None => Ok tt
          end;
      l ← vset (regs s) (Z.to_nat i) value; Ok (with_regs s l))) as -> by by destruct r.
    rewrite Ei, M_bind_Ok, Nat2Z.id, En, vset_lt, M_bind_Ok by by rewrite (wf_regs_length s).
    cbn [x64_fits] in Hfv, Hfit. cbn [mask] in Hfv, Hfit. destruct (gpreg_mask r) as [mask|]; [|exact Es].
    rewrite M_bind_Ok. rewrite (proj1 (fits_not 64 mask n ltac:(done) Hvu) Hfv).
    rewrite (proj1 (fits_not 64 mask value ltac:(done) Hv) Hfit) in Es. by destruct P.
  - rewrite (gpreg_read _ _ _ Ei) in Er.
    assert (gpreg s' r = vget (regs s') (Z.to_nat (Z.of_nat i))) as -> by (destruct r; [injection Ei as <-; done..|done]).
    destruct (vget (regs s') _); [by injection Er as ->|done..].
Qed.

(** ** The type invariant *)

(** C40: the invariant of x86-64 states.  In a well-formed state (arrays of their lengths,
    integers of their widths, and no bits outside of the mask of a register that has
    one) every register of [iter_regs] reads as a well-formed value of its declared
    type, within its mask.  An update by a closure that returns a value of the same
    shape that fits the register stores exactly this value, leaves every other register
    alone and keeps the state well-formed.  Setting a flag does the same for the one bit
    of the flag: it is read back, and no other flag changes. *)
Theorem x64_registers_typed {P : profile} s : x64_wf s →
  (∀ r, r ∈ x64_iter_regs → ∃ v, reg s r = Ok v ∧ has_type v (x64_reg_type r) ∧ value_wf v ∧ x64_fits r v) ∧
  (∀ r f v v', r ∈ x64_iter_regs → reg s r = Ok v → f v = Ok v' → same_shape v v' → value_wf v' → x64_fits r v' →
     ∃ s', modify_reg s r f = Ok s' ∧ x64_wf s' ∧ reg s' r = Ok v' ∧ ∀ r', r' ≠ r → reg s' r' = reg s r') ∧
  (∀ f value, known_flag f → ∃ s', set_flag s f value = Ok s' ∧ x64_wf s' ∧ flag s' f = Ok value ∧
     ∀ f', known_flag f' → f' ≠ f → flag s' f' = flag s f').
Proof.
  intros Hwf. split; [intros r Hr%elem_of_iter_regs; by apply x64_read|]. split; [|by intros f value; apply set_flag_spec].
  intros r f v v' Hr%elem_of_iter_regs. by apply x64_modify.
Qed.
Lemma x64_registers_typed_witness : ∃ s', modify_reg (P:=Dev) DEFAULT_X64_STATE (X64Reg_X87 TopOfStack) (λ _, Ok (Num 5)) = Ok s' ∧
  x64_wf s' ∧ reg s' (X64Reg_X87 TopOfStack) = Ok (Num 5) ∧ reg s' (X64Reg_X87 TagWord) = Ok (Num 0).
Proof.
  destruct (x64_registers_typed (P:=Dev) DEFAULT_X64_STATE default_x64_wf) as (_ & H & _).
  destruct (H (X64Reg_X87 TopOfStack) (λ _, Ok (Num 5)) (Num 0) (Num 5)) as (s' & E & Hwf & Hr & Ho);
    [by apply elem_of_iter_regs | reflexivity | reflexivity | done | done | reflexivity |].
  exists s'. split; [exact E|]. split; [exact Hwf|]. split; [exact Hr|]. rewrite Ho by done. reflexivity.
Defined.
