(* ===== verification/X64MemFacts.v ===== *)
(** * Facts about the memory of an x86-64 state

    For every layout of the fields that do not overlap, whatever the bytes
    between them hold: the two translations are inverse and reach the bytes of
    the registers; reading and writing a byte through memory does what the
    default methods do with the registers; the vector comparison finds exactly
    the bytes that differ; and the masked search for dataflows finds exactly the
    bytes its masks let through. *)
From S2P Require Import Prelude MachInt Utils Size Value Arch X64 X64Mem X64Facts.
Import SizeOps X64.

(** ** Layouts *)

Definition is_x87 (f : Field) : bool :=
  match f with F_fpr | F_top_of_stack | F_exception_flags | F_condition_codes | F_tag_word => true | _ => false end.
(** The fields of [X87] lie within its 96 bytes and do not overlap. *)
Class X87LayoutLaws (L : X87Layout) : Prop := {
  layout_inside f : is_x87 f = true → 672 <= field_offset f ∧ field_offset f + field_size f <= 768;
  layout_disjoint f g : is_x87 f = true → is_x87 g = true → f ≠ g →
    field_offset f + field_size f <= field_offset g ∨ field_offset g + field_size g <= field_offset f
}.
(** Fields in the order of their alignment. *)
Definition sorted_layout : X87Layout :=
  {| off_exception_flags := 0; off_condition_codes := 8; off_fpr := 12; off_top_of_stack := 92; off_tag_word := 93 |}.
#[export] Instance sorted_layout_laws : X87LayoutLaws sorted_layout.
Proof.
  split.
  - intros f Hf. destruct f; try discriminate Hf; by vm_compute.
  - intros f g Hf Hg Hne. destruct f; try discriminate Hf; destruct g; try discriminate Hg; (done || (cbn; lia)).
Qed.

(** The part of a field that has state bytes, and the first of them. *)
Definition visible_size (f : Field) : Z :=
  match f with
  | F_regs => 158 | F_xmm_exception_flags => 6 | F_exception_flags => 6 | f => field_size f
  end.
Definition first_byte (f : Field) : Z :=
  match f with
  | F_regs => 0
  | F_xmm_regs => GPREGS_SIZE
  | F_fpr => GPREGS_SIZE + XMM_SIZE
  | F_xmm_exception_flags => GPREGS_SIZE + XMM_REG_SIZE
  | F_xmm_daz => GPREGS_SIZE + XMM_REG_SIZE + 6
  | F_exception_flags => GPREGS_SIZE + XMM_SIZE + 80
  | F_condition_codes => GPREGS_SIZE + XMM_SIZE + 86
  | F_tag_word => GPREGS_SIZE + XMM_SIZE + 90
  | F_top_of_stack => GPREGS_SIZE + XMM_SIZE + 91
  end.
Lemma visible_le f : 0 < visible_size f <= field_size f.
Proof. destruct f; cbn; lia. Qed.
Lemma elem_of_all_fields f : f ∈ all_fields.
Proof. unfold all_fields. destruct f; set_solver. Qed.

Ltac byte_consts :=
  unfold x64_size, X87_SIZE, X87_REG_SIZE, XMM_SIZE, XMM_REG_SIZE, GPREGS_SIZE, NUM_GPREGS, NUM_XMM_REGS in *.
(** State bytes belong to one field each. *)
Lemma first_byte_field b : 0 <= b < x64_size → ∃ f, first_byte f <= b < first_byte f + visible_size f.
Proof.
  byte_consts. intros Hb.
  destruct (Z.lt_ge_cases b 158); [exists F_regs; cbn; byte_consts; lia|].
  destruct (Z.lt_ge_cases b 670); [exists F_xmm_regs; cbn; byte_consts; lia|].
  destruct (Z.lt_ge_cases b 676); [exists F_xmm_exception_flags; cbn; byte_consts; lia|].
  destruct (Z.lt_ge_cases b 677); [exists F_xmm_daz; cbn; byte_consts; lia|].
  destruct (Z.lt_ge_cases b 757); [exists F_fpr; cbn; byte_consts; lia|].
  destruct (Z.lt_ge_cases b 763); [exists F_exception_flags; cbn; byte_consts; lia|].
  destruct (Z.lt_ge_cases b 767); [exists F_condition_codes; cbn; byte_consts; lia|].
  destruct (Z.lt_ge_cases b 768); [exists F_tag_word; cbn; byte_consts; lia|]. exists F_top_of_stack; cbn; byte_consts; lia.
Qed.
Lemma first_byte_range f b : first_byte f <= b < first_byte f + visible_size f → 0 <= b < x64_size.
Proof. destruct f; cbn; byte_consts; lia. Qed.
Lemma first_byte_disjoint f g : f ≠ g →
  first_byte f + visible_size f <= first_byte g ∨ first_byte g + visible_size g <= first_byte f.
Proof. destruct f, g; cbn; byte_consts; intros; (done || lia). Qed.

(** A chain of [or_else] whose rows exclude each other finds any row that applies. *)
Lemma or_else_chain {R T} (row : R → option T) l x : (∀ r q x y, row r = Some x → row q = Some y → r = q) →
  foldr (λ r, or_else (row r)) None l = Some x ↔ ∃ r, r ∈ l ∧ row r = Some x.
Proof.
  intros Hex. induction l as [|r l IH]; cbn [foldr].
  - split; [done|]. intros (r & Hr & _). by apply elem_of_nil in Hr.
  - destruct (row r) as [y|] eqn:E; cbn [or_else].
    + split; [intros [= ->]; exists r; split; [left|done]|]. intros (q & _ & Hq). rewrite <- Hq.
      by rewrite <- (Hex r q y x E Hq).
    + rewrite IH. set_solver.
Qed.

(** ** The bytes of the fields *)

(** An array of arrays of [n] elements, one after the other. *)
Lemma lookup_concat_chunks {T} n (l : list (list T)) k : (0 < n)%nat → Forall (λ c, length c = n) l →
  concat l !! k = c ← l !! (k / n)%nat; c !! (k mod n)%nat.
Proof.
  intros Hn Hl. revert k. induction Hl as [|c l Hc Hl IH]; intros k; [done|]. cbn [concat].
  destruct (decide (k < n)%nat) as [Hk|Hk].
  - rewrite lookup_app_l by lia. by rewrite Nat.div_small, Nat.mod_small by done.
  - rewrite lookup_app_r, IH, Hc by lia.
    pose proof (Nat.div_add (k - n) 1 n ltac:(lia)) as Hd. pose proof (Nat.Div0.mod_add (k - n) 1 n) as Hm.
    replace (k - n + 1 * n)%nat with k in Hd, Hm by lia. by rewrite Hd, Hm, Nat.add_1_r.
Qed.
(** The register a byte of a field belongs to. *)
Definition field_reg (f : Field) (k : nat) : X64Reg * Z :=
  match f with
  | F_regs => (X64Reg_GpReg (default Riz (all_gpregs !! (k / 8)%nat)), Z.of_nat (k mod 8))
  | F_xmm_regs => (X64Reg_Xmm (XmmReg_Reg (k / 32)), Z.of_nat (k mod 32))
  | F_fpr => (X64Reg_X87 (Fpr (k / 10)), Z.of_nat (k mod 10))
  | F_xmm_exception_flags => (X64Reg_Xmm XmmReg_ExceptionFlags, Z.of_nat k)
  | F_xmm_daz => (X64Reg_Xmm XmmReg_DenormalsAreZero, Z.of_nat k)
  | F_exception_flags => (X64Reg_X87 ExceptionFlags, Z.of_nat k)
  | F_condition_codes => (X64Reg_X87 ConditionCodes, Z.of_nat k)
  | F_tag_word => (X64Reg_X87 TagWord, Z.of_nat k)
  | F_top_of_stack => (X64Reg_X87 TopOfStack, Z.of_nat k)
  end.
Definition field_reg_ok {P : profile} (f : Field) (k : nat) : bool :=
  match state_byte_to_reg (first_byte f + Z.of_nat k) with
  | Ok x => bool_decide (x = field_reg f k)
  | _ => false
  end.
Lemma field_regs_ok {P : profile} :
  forallb (λ f, forallb (field_reg_ok f) (seq 0 (Z.to_nat (visible_size f)))) all_fields = true.
Proof. by destruct P; vm_compute. Qed.
Lemma state_byte_to_field {P : profile} f k : Z.of_nat k < visible_size f →
  state_byte_to_reg (first_byte f + Z.of_nat k) = Ok (field_reg f k).
Proof.
  intros Hk. pose proof field_regs_ok as H. rewrite forallb_forall in H.
  specialize (H f ltac:(by apply list_elem_of_In, elem_of_all_fields)). cbn beta in H. rewrite forallb_forall in H.
  specialize (H k ltac:(apply list_elem_of_In, elem_of_seq; lia)). unfold field_reg_ok in H.
  destruct (state_byte_to_reg _) as [x| |]; [|done..]. f_equal. by apply bool_decide_eq_true in H.
Qed.
Lemma gpreg_at i : (i < 20)%nat → ∃ g, all_gpregs !! i = Some g ∧ g ≠ Riz ∧ as_num g = Ok (Z.of_nat i).
Proof.
  intros Hi. assert (i ∈ seq 0 20) as Hs by (apply elem_of_seq; lia). vm_compute in Hs. set_unfold.
  by destruct_or! Hs; subst; eexists.
Qed.
Lemma field_reg_known f k : Z.of_nat k < visible_size f → known_reg (field_reg f k).1.
Proof.
  intros Hk. destruct f; cbn [field_reg fst known_reg visible_size field_size] in *; try done.
  - destruct (gpreg_at (k / 8)) as (g & -> & Hg & _); [|done]. apply Nat.Div0.div_lt_upper_bound. lia.
  - apply Nat.Div0.div_lt_upper_bound. lia.
  - apply Nat.Div0.div_lt_upper_bound. lia.
Qed.
(** Byte [k] of a field is a byte of its register. *)
Lemma field_byte s f k v : x64_wf s → Z.of_nat k < visible_size f → reg s (field_reg f k).1 = Ok v →
  field_bytes s f !! k = value_to_le_bytes v !! Z.to_nat (field_reg f k).2 ∧
  (Z.to_nat (field_reg f k).2 < length (value_to_le_bytes v))%nat.
Proof.
  intros Hwf Hk Hr. destruct f; cbn [field_reg fst snd visible_size field_size] in *; rewrite ?Nat2Z.id.
  - assert (k / 8 < 20)%nat as Hi by (apply Nat.Div0.div_lt_upper_bound; lia).
    destruct (gpreg_at _ Hi) as (g & Eg & Hg & En). rewrite Eg in Hr. cbn [default] in Hr.
    unfold from_option, id in Hr. rewrite (gpreg_read _ _ _ En), Nat2Z.id in Hr.
    cbn [field_bytes]. rewrite (lookup_concat_chunks 8) by (lia || by apply Forall_fmap, Forall_true; intros; apply length_to_le_bytes).
    rewrite list_lookup_fmap. unfold vget in Hr. destruct (regs s !! (k / 8)%nat) as [n|]; [|done]. injection Hr as <-. cbn [value_to_le_bytes].
    split; [done|]. rewrite length_to_le_bytes. by apply Nat.mod_upper_bound.
  - cbn [reg] in Hr. cbn [field_bytes]. rewrite (lookup_concat_chunks 32);
      [|lia|apply (Forall_impl _ _ _ (wf_xmm s Hwf)); by intros ? []].
    unfold vget in Hr. destruct (xmm s !! (k / 32)%nat) as [b|] eqn:E; [|done]. injection Hr as <-. cbn [value_to_le_bytes].
    split; [done|]. destruct (Forall_lookup_1 _ _ _ _ (wf_xmm s Hwf) E) as [-> _]. by apply Nat.mod_upper_bound.
  - cbn [reg] in Hr. cbn [field_bytes]. rewrite (lookup_concat_chunks 10);
      [|lia|apply (Forall_impl _ _ _ (wf_fpr s Hwf)); by intros ? []].
    unfold vget in Hr. destruct (fpr (x87 s) !! (k / 10)%nat) as [b|] eqn:E; [|done]. injection Hr as <-. cbn [value_to_le_bytes].
    split; [done|]. destruct (Forall_lookup_1 _ _ _ _ (wf_fpr s Hwf) E) as [-> _]. by apply Nat.mod_upper_bound.
  - injection Hr as <-. cbn [field_bytes value_to_le_bytes]. rewrite length_to_le_bytes. split; [done|lia].
  - injection Hr as <-. destruct k; [|lia]. cbn. split; [|lia]. rewrite wrap_small; [done|].
    by apply (fits_u 8 1), (wf_daz s Hwf).
  - injection Hr as <-. cbn [field_bytes value_to_le_bytes]. rewrite length_to_le_bytes. split; [done|lia].
  - injection Hr as <-. cbn [field_bytes value_to_le_bytes]. rewrite !lookup_to_le_bytes, length_to_le_bytes by lia.
    split; [done|lia].
  - injection Hr as <-. destruct k; [|lia]. cbn. split; [|lia]. rewrite wrap_small; [done|]. apply (wf_tag s Hwf).
  - injection Hr as <-. destruct k; [|lia]. cbn. split; [|lia]. rewrite wrap_small; [done|].
    by apply (fits_u 8 7), (wf_top s Hwf).
Qed.

Section layout_facts.
Context {L : X87Layout} {LL : X87LayoutLaws L}.
Lemma fields_inside f : 0 <= field_offset f ∧ field_offset f + field_size f <= SIZE.
Proof using LL.
  destruct (is_x87 f) eqn:Hf.
  - pose proof (layout_inside f Hf). unfold SIZE. lia.
  - destruct f; try discriminate Hf; cbn; unfold SIZE; lia.
Qed.
Lemma fields_disjoint f g : f ≠ g →
  field_offset f + field_size f <= field_offset g ∨ field_offset g + field_size g <= field_offset f.
Proof using LL.
  intros Hne. destruct (is_x87 f) eqn:Hf, (is_x87 g) eqn:Hg.
  - by apply layout_disjoint.
  - pose proof (layout_inside f Hf). destruct g; try discriminate Hg; cbn in *; lia.
  - pose proof (layout_inside g Hg). destruct f; try discriminate Hf; cbn in *; lia.
  - destruct f; try discriminate Hf; destruct g; try discriminate Hg; cbn; (done || lia).
Qed.
Lemma field_at_unique f g off : field_offset f <= off < field_offset f + field_size f →
  field_offset g <= off < field_offset g + field_size g → f = g.
Proof using LL. intros Hf Hg. destruct (decide (f = g)) as [|Hne]; [done|]. pose proof (fields_disjoint f g Hne). lia. Qed.
Lemma field_at_in f off : field_offset f <= off < field_offset f + field_size f →
  field_at off = Some (f, Z.to_nat (off - field_offset f)).
Proof using LL.
  intros Hf. unfold field_at. destruct (List.find _ all_fields) as [g|] eqn:E.
  - apply find_some in E as [_ Hg]. unfold in_range, field_range in Hg. cbn in Hg.
    by rewrite (field_at_unique f g off) by lia.
  - exfalso. pose proof (find_none _ _ E f) as H. rewrite <- list_elem_of_In in H. specialize (H (elem_of_all_fields f)).
    unfold in_range, field_range in H. cbn in H. lia.
Qed.

(** ** Translations *)

Definition raw_row (off : Z) (f : Field) : option Z :=
  if in_range off (field_offset f, field_offset f + visible_size f) then Some (off - field_offset f + first_byte f) else None.
Definition byte_row (b : Z) (f : Field) : option Z :=
  if in_range b (first_byte f, first_byte f + visible_size f) then Some (b - first_byte f + field_offset f) else None.
Lemma raw_translate_eq off a n o : raw_translate off (a, a + n) o =
  if in_range off (a, a + n) then Some (off - a + o) else None.
Proof. unfold raw_translate, in_range, checked_sub. cbn. destruct (Z.ltb_spec off (a + n)), (Z.leb_spec a off); done. Qed.
Lemma byte_translate_eq b a n o : byte_translate b (a, a + n) o =
  if in_range b (o, o + n) then Some (b - o + a) else None.
Proof.
  unfold byte_translate, in_range, checked_sub. cbn. destruct (Z.leb_spec o b); [|done]. cbn.
  destruct (Z.ltb_spec (b - o) (a + n - a)), (Z.ltb_spec b (o + n)); (done || lia).
Qed.
Lemma crop_eq a n m : m <= n → crop (a, a + n) m = (a, a + m).
Proof.
  intros. unfold crop. cbn. destruct (Z.ltb_spec (a + m) (a + n)); [done|]. by replace m with n by lia.
Qed.
Lemma raw_translation off : translate_raw_offset_to_state_byte off = foldr (λ f, or_else (raw_row off f)) None all_fields.
Proof.
  unfold translate_raw_offset_to_state_byte, field_range. rewrite !crop_eq by (cbn; lia). rewrite !raw_translate_eq.
  cbn [foldr all_fields]. unfold raw_row at 9. cbn [or_else visible_size field_size first_byte].
  by destruct (in_range off (field_offset F_top_of_stack, _)).
Qed.
Lemma byte_translation b : translate_state_byte_to_raw_offset b = foldr (λ f, or_else (byte_row b f)) None all_fields.
Proof.
  unfold translate_state_byte_to_raw_offset, field_range. rewrite !crop_eq by (cbn; lia). rewrite !byte_translate_eq.
  cbn [foldr all_fields]. unfold byte_row at 9. cbn [or_else visible_size field_size first_byte].
  by destruct (in_range b (GPREGS_SIZE + XMM_SIZE + 91, _)).
Qed.
Lemma raw_row_Some off f b : raw_row off f = Some b ↔
  field_offset f <= off < field_offset f + visible_size f ∧ b = off - field_offset f + first_byte f.
Proof. unfold raw_row, in_range. cbn. destruct (Z.leb_spec (field_offset f) off), (Z.ltb_spec off (field_offset f + visible_size f)); cbn; naive_solver lia. Qed.
Lemma byte_row_Some b f off : byte_row b f = Some off ↔
  first_byte f <= b < first_byte f + visible_size f ∧ off = b - first_byte f + field_offset f.
Proof. unfold byte_row, in_range. cbn. destruct (Z.leb_spec (first_byte f) b), (Z.ltb_spec b (first_byte f + visible_size f)); cbn; naive_solver lia. Qed.
Lemma raw_to_byte off b : translate_raw_offset_to_state_byte off = Some b ↔
  ∃ f, field_offset f <= off < field_offset f + visible_size f ∧ b = off - field_offset f + first_byte f.
Proof using LL.
  rewrite raw_translation, or_else_chain.
  - setoid_rewrite raw_row_Some. split; [naive_solver|]. intros (f & H). exists f. split; [apply elem_of_all_fields|done].
  - intros f g x y [Hf _]%raw_row_Some [Hg _]%raw_row_Some. apply (field_at_unique f g off).
    + pose proof (visible_le f). lia.
    + pose proof (visible_le g). lia.
Qed.
Lemma byte_to_raw b off : translate_state_byte_to_raw_offset b = Some off ↔
  ∃ f, first_byte f <= b < first_byte f + visible_size f ∧ off = b - first_byte f + field_offset f.
Proof using Type.
  rewrite byte_translation, or_else_chain.
  - setoid_rewrite byte_row_Some. split; [naive_solver|]. intros (f & H). exists f. split; [apply elem_of_all_fields|done].
  - intros f g x y [Hf _]%byte_row_Some [Hg _]%byte_row_Some. destruct (decide (f = g)) as [|Hne]; [done|].
    pose proof (first_byte_disjoint f g Hne). lia.
Qed.
Lemma translations_inverse off b :
  translate_raw_offset_to_state_byte off = Some b ↔ translate_state_byte_to_raw_offset b = Some off.
Proof using LL.
  rewrite raw_to_byte, byte_to_raw. split; intros (f & H1 & H2); exists f; lia.
Qed.
Lemma translate_total b : 0 <= b < x64_size → ∃ off, translate_state_byte_to_raw_offset b = Some off ∧ 0 <= off < SIZE.
Proof using LL.
  intros (f & Hf)%first_byte_field. exists (b - first_byte f + field_offset f). split.
  - apply byte_to_raw. by exists f.
  - pose proof (fields_inside f). pose proof (visible_le f). lia.
Qed.
Lemma translate_byte_range b off : translate_state_byte_to_raw_offset b = Some off → 0 <= b < x64_size ∧ 0 <= off < SIZE.
Proof using LL.
  intros (f & Hf & ->)%byte_to_raw. pose proof (fields_inside f). pose proof (visible_le f).
  split; [by apply (first_byte_range f)|lia].
Qed.

(** ** Reading a byte *)

Lemma raw_field pad s f k : Z.of_nat k < field_size f →
  raw pad s (field_offset f + Z.of_nat k) = default 0 (field_bytes s f !! k).
Proof using LL.
  intros Hk. unfold raw. rewrite (field_at_in f) by lia. by replace (Z.to_nat _) with k by lia.
Qed.
(** Where a state byte is, and which register it belongs to. *)
Lemma byte_location {P : profile} b : 0 <= b < x64_size → ∃ f k, Z.of_nat k < visible_size f ∧ b = first_byte f + Z.of_nat k ∧
  translate_state_byte_to_raw_offset b = Some (field_offset f + Z.of_nat k) ∧ state_byte_to_reg b = Ok (field_reg f k).
Proof using Type.
  intros (f & Hf)%first_byte_field. exists f, (Z.to_nat (b - first_byte f)).
  assert (b = first_byte f + Z.of_nat (Z.to_nat (b - first_byte f))) as E by lia. split_and!; [lia|done| |].
  - apply byte_to_raw. exists f. lia.
  - rewrite E at 1. apply state_byte_to_field. lia.
Qed.
(** What a state byte holds: a byte of its register. *)
Lemma read_state_byte {P : profile} pad s b : x64_wf s → 0 <= b < x64_size → ∃ r i v off,
  state_byte_to_reg b = Ok (r, i) ∧ reg s r = Ok v ∧ translate_state_byte_to_raw_offset b = Some off ∧
  select_byte v (Z.to_nat i) = Ok (raw pad s off).
Proof using LL.
  intros Hwf (f & k & Hk & -> & Ho & Hr)%byte_location. pose proof (field_reg_known f k Hk) as Hkn.
  destruct (field_reg f k) as [r i] eqn:E. destruct (x64_read s r Hwf Hkn) as (v & Ev & _).
  destruct (field_byte s f k v Hwf Hk) as [Hb Hl]; [by rewrite E|]. rewrite E in Hb, Hl. cbn [snd] in Hb, Hl.
  destruct (select_byte_lookup v _ Hl) as (x & Ex & Hx).
  exists r, i, v, (field_offset f + Z.of_nat k). split_and!; [done|done|done|].
  pose proof (visible_le f). rewrite raw_field, Hb, Hx by lia. exact Ex.
Qed.
End layout_facts.

(** Reading a byte of a state through its address gives what the default method
    reads from the registers, whatever lies between the fields. *)
Theorem get_state_byte_refines {P : profile} {L : X87Layout} {LL : X87LayoutLaws L} pad s b :
  x64_wf s → 0 <= b < x64_size →
  ∃ v, x64_get_state_byte (raw (pad s) s) b = Ok v ∧ get_state_byte (A:=X64Arch pad) s b = Ok v.
Proof.
  intros Hwf Hb. destruct (read_state_byte (pad s) s b Hwf Hb) as (r & i & v & off & Er & Ev & Eo & Es).
  exists (raw (pad s) s off). unfold x64_get_state_byte, get_state_byte. cbn [cpu_reg Arch.state_byte_to_reg X64Arch].
  rewrite Er, M_bind_Ok, Ev, M_bind_Ok, Es, Eo. split; [|done].
  destruct (Z.ltb_spec b x64_size); [by destruct P|lia].
Qed.
Lemma get_state_byte_refines_witness : (x64_wf DEFAULT_X64_STATE ∧ 0 <= 768 < x64_size) ∧
  ∃ v, x64_get_state_byte (L:=sorted_layout) (P:=Dev) (raw (L:=sorted_layout) (λ _, 7) DEFAULT_X64_STATE) 768 = Ok v ∧
    get_state_byte (P:=Dev) (A:=X64Arch (L:=sorted_layout) (P:=Dev) (λ _ _, 7)) DEFAULT_X64_STATE 768 = Ok v.
Proof.
  split; [split; [exact default_x64_wf|done]|].
  exact (get_state_byte_refines (P:=Dev) (L:=sorted_layout) (λ _ _, 7) DEFAULT_X64_STATE 768 default_x64_wf ltac:(done)).
Defined.
Lemma state_bytes_unequal_refines {P : profile} {L : X87Layout} {LL : X87LayoutLaws L} pad s t b :
  x64_wf s → x64_wf t → 0 <= b < x64_size →
  x64_state_bytes_unequal (raw (pad s) s) b (raw (pad t) t) = state_bytes_unequal (A:=X64Arch pad) s b t.
Proof.
  intros Hs Ht Hb. destruct (get_state_byte_refines pad s b Hs Hb) as (v & E1 & E2).
  destruct (get_state_byte_refines pad t b Ht Hb) as (w & E3 & E4).
  unfold state_bytes_unequal. rewrite E2, M_bind_Ok, E4, M_bind_Ok. revert E1 E3.
  unfold x64_get_state_byte, x64_state_bytes_unequal. destruct (debug_assert _); [|done..]. rewrite !M_bind_Ok.
  destruct (unwrap _); [|done..]. rewrite !M_bind_Ok. by intros [= <-] [= <-].
Qed.

(** ** Writing a byte *)

Lemma is_bytes_insert l i v : is_bytes l → is_byte v → is_bytes (<[i:=v]> l).
Proof. intros. by apply Forall_insert. Qed.
Lemma testbit_set_le_byte n i v x j : (i < n)%nat → is_u 8 v → 0 <= j → Z.testbit (set_le_byte n i v x) j =
  if j / 8 =? Z.of_nat i then Z.testbit v (j `mod` 8) else (j <? 8 * Z.of_nat n) && Z.testbit x j.
Proof.
  intros Hi Hv Hj. unfold set_le_byte. rewrite testbit_from_le_bytes;
    [|by apply is_bytes_insert; [apply to_le_bytes_is_bytes|]|done].
  destruct (Z.eqb_spec (j / 8) (Z.of_nat i)) as [->|Hne].
  - rewrite Nat2Z.id, list_lookup_insert_eq by by rewrite length_to_le_bytes. done.
  - rewrite list_lookup_insert_ne by (pose proof (Z.div_pos j 8); lia). rewrite <- testbit_from_le_bytes by (done || apply to_le_bytes_is_bytes).
    rewrite from_to_le_bytes, testbit_wrap by lia. done.
Qed.
Lemma set_le_byte_u n i v x : (i < n)%nat → is_u 8 v → is_u (8 * Z.of_nat n) (set_le_byte n i v x).
Proof.
  intros Hi Hv. unfold set_le_byte. replace n with (length (<[i:=v]> (to_le_bytes n x))) at 1
    by by rewrite length_insert, length_to_le_bytes.
  apply from_le_bytes_is_u, is_bytes_insert; [apply to_le_bytes_is_bytes|done].
Qed.
(** The update of the default [set_state_byte]. *)
Lemma set_byte_num {P : profile} i v n : (i < 8)%nat → is_u 8 v → is_u 64 n →
  Z.lor (Z.land n (not_u 64 (wrap 64 (Z.shiftl 0xff (8 * Z.of_nat i))))) (wrap 64 (Z.shiftl v (8 * Z.of_nat i))) =
  set_le_byte 8 i v n.
Proof.
  intros Hi Hv Hn. apply Z.bits_inj'; intros j Hj. rewrite testbit_set_le_byte by done. unfold not_u.
  rewrite Z.lor_spec, Z.land_spec, !testbit_wrap, Z.lnot_spec, testbit_wrap by done.
  rewrite !Z.shiftl_spec by done. change 0xff with (Z.ones 8). rewrite Z.testbit_ones by done.
  change (8 * Z.of_nat 8) with 64.
  destruct (Z.ltb_spec j 64).
  - destruct (Z.eqb_spec (j / 8) (Z.of_nat i)) as [E|E].
    + destruct (Z.leb_spec 0 (j - 8 * Z.of_nat i)), (Z.ltb_spec (j - 8 * Z.of_nat i) 8); try (Z.to_euclidean_division_equations; lia).
      cbn [andb negb]. rewrite andb_false_r. cbn [orb]. f_equal. Z.to_euclidean_division_equations; lia.
    + assert ((0 <=? j - 8 * Z.of_nat i) && (j - 8 * Z.of_nat i <? 8) = false) as ->.
      { apply andb_false_iff. rewrite Z.leb_gt, Z.ltb_ge. Z.to_euclidean_division_equations; lia. }
      assert (Z.testbit v (j - 8 * Z.of_nat i) = false) as ->.
      { destruct (Z.lt_ge_cases (j - 8 * Z.of_nat i) 0); [by apply Z.testbit_neg_r|].
        apply (testbit_u_high 8); [done|]. Z.to_euclidean_division_equations; lia. }
      cbn. by rewrite andb_true_r, orb_false_r.
  - rewrite (testbit_u_high 64 n) by (done || lia). destruct (Z.eqb_spec (j / 8) (Z.of_nat i)); [|done].
    Z.to_euclidean_division_equations; lia.
Qed.
Lemma set_le_byte_0 v x : is_u 8 v → is_u 8 x → set_le_byte 8 0 v x = v.
Proof.
  intros Hv Hx. apply Z.bits_inj'; intros j Hj. rewrite testbit_set_le_byte by (done || lia).
  destruct (Z.eqb_spec (j / 8) (Z.of_nat 0)).
  - f_equal. Z.to_euclidean_division_equations; lia.
  - rewrite !(testbit_u_high 8) by (done || Z.to_euclidean_division_equations; lia). by rewrite andb_false_r.
Qed.
Lemma set_le_byte_4 i v x : (i < 4)%nat → is_u 8 v → is_u 32 x → set_le_byte 4 i v x = set_le_byte 8 i v x.
Proof.
  intros Hi Hv Hx. apply Z.bits_inj'; intros j Hj. rewrite !testbit_set_le_byte by (done || lia).
  destruct (_ =? _); [done|]. destruct (Z.ltb_spec j (8 * Z.of_nat 4)), (Z.ltb_spec j (8 * Z.of_nat 8)); try (done || lia).
  by rewrite (testbit_u_high 32 x) by (done || lia).
Qed.
Lemma alter_insert_eq {T} (g : T → T) i (l : list T) x : l !! i = Some x → alter g i l = <[i:=g x]> l.
Proof. intros H. by rewrite (list_alter_insert _ _ _ _ H) || (revert i H; induction l as [|y l IH]; intros [|i] H; cbn in *; [done..|by injection H as ->|by f_equal; apply IH]). Qed.

(** A byte may be stored where the mask of the register has its bits. *)
Definition byte_allowed (r : X64Reg) (i v : Z) : Prop :=
  match mask r with Some m => fits (wrap 8 (Z.shiftr m (8 * i))) v | None => True end.
#[export] Instance byte_allowed_dec r i v : Decision (byte_allowed r i v).
Proof. unfold byte_allowed, fits. destruct (mask r); apply _. Defined.
Lemma fits_set_byte m n i v : is_u 64 m → fits m n → (i < 8)%nat → is_u 8 v →
  fits m (set_le_byte 8 i v n) ↔ fits (wrap 8 (Z.shiftr m (8 * Z.of_nat i))) v.
Proof.
  intros Hm Hn Hi Hv. unfold fits. split; intros H; apply Z.bits_inj'; intros j Hj; rewrite Z.land_spec.
  - rewrite testbit_wrap, Z.shiftr_spec by done. destruct (Z.ltb_spec j 8); [|by rewrite (testbit_u_high 8 v) by (done || lia)].
    apply (f_equal (λ x, Z.testbit x (j + 8 * Z.of_nat i))) in H. rewrite Z.land_spec, testbit_set_le_byte in H by (done || lia).
    rewrite (proj2 (Z.eqb_eq _ _)) in H by (Z.to_euclidean_division_equations; lia).
    by replace ((j + 8 * Z.of_nat i) `mod` 8) with j in H by (Z.to_euclidean_division_equations; lia).
  - rewrite testbit_set_le_byte by done. destruct (Z.eqb_spec (j / 8) (Z.of_nat i)) as [E|E].
    + apply (f_equal (λ x, Z.testbit x (j `mod` 8))) in H. rewrite Z.land_spec, testbit_wrap, Z.shiftr_spec in H by (Z.to_euclidean_division_equations; lia).
      rewrite (proj2 (Z.ltb_lt _ _)) in H by (Z.to_euclidean_division_equations; lia).
      by replace (j `mod` 8 + 8 * Z.of_nat i) with j in H by (Z.to_euclidean_division_equations; lia).
    + apply (f_equal (λ x, Z.testbit x j)) in Hn. rewrite Z.land_spec in Hn.
      rewrite <- Hn. by destruct (_ <? _), (Z.testbit n j), (Z.testbit m j).
Qed.
Lemma debug_assert_decide {P : profile} (b : bool) (Q : Prop) `{!Decision Q} : (b = true ↔ Q) → debug_assert b = debug_assert (bool_decide Q).
Proof. intros H. f_equal. apply eq_true_iff_eq. by rewrite bool_decide_eq_true. Qed.
Lemma assert_masked_eq {P : profile} {L : X87Layout} pad b v r i : state_byte_to_reg b = Ok (r, Z.of_nat i) → (i < 8)%nat → is_u 8 v →
  assert_masked (A:=X64Arch pad) b v = debug_assert (bool_decide (byte_allowed r (Z.of_nat i) v)).
Proof using Type.
  intros Hr Hi Hv. unfold assert_masked. cbn [reg_mask Arch.state_byte_to_reg X64Arch].
  destruct P; [|done]. rewrite Hr, M_bind_Ok. destruct (mask r) as [m|] eqn:Em.
  - rewrite mul8_ok, M_bind_Ok by (unfold is_u; lia). rewrite shr_ok, !M_bind_Ok by lia.
    apply (debug_assert_decide (P:=Dev)). unfold byte_allowed. rewrite Em, Z.eqb_eq, (Z.mul_comm (Z.of_nat i)). by rewrite <- fits_not.
  - rewrite M_bind_Ok. apply (debug_assert_decide (P:=Dev)). unfold byte_allowed. rewrite Em. cbn. by rewrite Z.land_0_r.
Qed.
Lemma assert_register_masked_eq {P : profile} s b r i n v : state_byte_to_reg b = Ok (r, Z.of_nat i) → (i < 8)%nat → is_u 8 v →
  x64_fits r (Num n) → is_u 64 n → reg s r = Ok (Num (set_le_byte 8 i v n)) →
  assert_register_masked s b = debug_assert (bool_decide (byte_allowed r (Z.of_nat i) v)).
Proof using Type.
  intros Hr Hi Hv Hf Hn Es. unfold assert_register_masked. destruct P; [|done].
  rewrite Hr, M_bind_Ok, Es, M_bind_Ok. cbn [x64_fits] in Hf. pose proof (set_le_byte_u 8 i v n Hi Hv) as Hu.
  apply (debug_assert_decide (P:=Dev)). rewrite Z.eqb_eq, <- fits_not by done. unfold byte_allowed. destruct (mask r) as [m|] eqn:Em.
  - cbn. apply fits_set_byte; try done. destruct r as [g|[j| |]|[j| | | |]]; cbn in Em; try (by injection Em as <-); [|done..].
    by destruct g; try discriminate Em; injection Em as <-.
  - cbn. split; [done|]. intros _. by apply (fits_ones 64).
Qed.
(** The update of a byte, through the register and through memory. *)
Definition byte_update (i : nat) (v : Z) (x : Value) : Value :=
  match x with Num n => Num (set_le_byte 8 i v n) | Bytes b => Bytes (<[i:=v]> b) end.
Lemma set_field_gpreg {P : profile} s k x v f : x64_wf s → Z.of_nat k < 158 → is_u 8 v →
  let '(r, i) := field_reg F_regs k in
  reg s r = Ok x → f x = Ok (byte_update (Z.to_nat i) v x) → P = Release ∨ byte_allowed r i v →
  modify_reg s r f = Ok (set_field_byte s F_regs k v) ∧
  reg (set_field_byte s F_regs k v) r = Ok (byte_update (Z.to_nat i) v x).
Proof.
  intros Hwf Hk Hv. cbn [field_reg]. rewrite Nat2Z.id. intros Hr Hf Ha.
  assert (k / 8 < 20)%nat as Hi by (apply Nat.Div0.div_lt_upper_bound; lia).
  destruct (gpreg_at _ Hi) as (g & Eg & Hg & En). rewrite Eg in *. unfold default, from_option, id in *.
  destruct (x64_read s (X64Reg_GpReg g) Hwf Hg) as (y & Ey & _ & Hyu & Hyf). rewrite Hr in Ey. injection Ey as <-.
  rewrite (gpreg_read _ _ _ En), Nat2Z.id in Hr. unfold vget in Hr.
  destruct (regs s !! (k / 8)%nat) as [n|] eqn:El; [|done]. injection Hr as <-. cbn [byte_update] in *.
  assert (k mod 8 < 8)%nat as Hm by by apply Nat.mod_upper_bound.
  split.
  - rewrite modify_gpreg_eq by done. unfold modify_gpreg, update_num, vget. rewrite En, M_bind_Ok, Nat2Z.id, El. cbn [unwrap].
    rewrite M_bind_Ok, Hf. cbn [unwrap_num mbind M_bind]. rewrite vset_lt by (by rewrite (wf_regs_length s)).
    rewrite M_bind_Ok. cbn [set_field_byte]. rewrite (alter_insert_eq _ _ _ _ El).
    destruct (gpreg_mask g) as [m|] eqn:Em; [|done].
    destruct Ha as [->|Ha]; [done|].
    assert (Z.land (set_le_byte 8 (k mod 8) v n) (not_u 64 m) = 0) as ->; [|by destruct P].
    apply fits_not; [done|by apply (set_le_byte_u 8)|]. unfold byte_allowed in Ha. cbn [mask] in Ha. rewrite Em in Ha.
    apply fits_set_byte; [destruct g; try discriminate Em; by injection Em as <-| |done|done|done].
    cbn [x64_fits mask] in Hyf. by rewrite Em in Hyf.
  - rewrite (gpreg_read _ _ _ En), Nat2Z.id. unfold vget. cbn [set_field_byte with_regs regs].
    rewrite (alter_insert_eq _ _ _ _ El), list_lookup_insert_eq by (by rewrite (wf_regs_length s)). done.
Qed.
Lemma set_field_ok {P : profile} s fd k x v f : x64_wf s → Z.of_nat k < visible_size fd → is_u 8 v →
  let '(r, i) := field_reg fd k in
  reg s r = Ok x → f x = Ok (byte_update (Z.to_nat i) v x) → P = Release ∨ byte_allowed r i v →
  modify_reg s r f = Ok (set_field_byte s fd k v) ∧
  reg (set_field_byte s fd k v) r = Ok (byte_update (Z.to_nat i) v x).
Proof.
  intros Hwf Hk Hv. destruct fd; [by apply set_field_gpreg|..].
  all: cbn [field_reg visible_size field_size] in *; rewrite ?Nat2Z.id; intros Hr Hf Ha; cbn [reg] in Hr.
  - unfold vget in Hr. destruct (xmm s !! (k / 32)%nat) as [b|] eqn:El; [|done]. injection Hr as <-.
    cbn [byte_update] in *. cbn [modify_reg reg set_field_byte with_xmm xmm]. unfold vget, update_bytes. rewrite El. cbn [unwrap].
    rewrite M_bind_Ok, Hf. cbn [unwrap_bytes mbind M_bind]. rewrite vset_lt by by eapply lookup_lt_Some.
    rewrite (alter_insert_eq _ _ _ _ El). rewrite list_lookup_insert_eq by by eapply lookup_lt_Some. done.
  - unfold vget in Hr. destruct (fpr (x87 s) !! (k / 10)%nat) as [b|] eqn:El; [|done]. injection Hr as <-.
    cbn [byte_update] in *. cbn [modify_reg reg set_field_byte with_x87 x87 with_fpr fpr]. unfold vget, update_bytes. rewrite El. cbn [unwrap].
    rewrite M_bind_Ok, Hf. cbn [unwrap_bytes mbind M_bind]. rewrite vset_lt by by eapply lookup_lt_Some.
    rewrite (alter_insert_eq _ _ _ _ El). rewrite list_lookup_insert_eq by by eapply lookup_lt_Some. done.
  - injection Hr as <-. cbn [modify_reg]. unfold update_num. by rewrite Hf.
  - injection Hr as <-. cbn [modify_reg byte_update] in *. unfold update_num. rewrite Hf. destruct k; [|lia].
    pose proof (fits_u 8 1 _ ltac:(done) ltac:(done) (wf_daz s Hwf)). cbn [mbind M_bind unwrap_num].
    rewrite set_le_byte_0, wrap_small by done. done.
  - injection Hr as <-. cbn [modify_reg]. unfold update_num. by rewrite Hf.
  - injection Hr as <-. cbn [modify_reg byte_update] in *. unfold update_num. rewrite Hf. cbn [mbind M_bind unwrap_num].
    pose proof (fits_u 32 0x01010101 _ ltac:(done) ltac:(done) (wf_cc s Hwf)).
    cbn [set_field_byte reg with_x87 x87 with_cc condition_codes]. rewrite set_le_byte_4 by (done || lia).
    rewrite wrap_small; [done|]. rewrite <- set_le_byte_4 by (done || lia). apply (set_le_byte_u 4); [lia|done].
  - injection Hr as <-. cbn [modify_reg byte_update] in *. unfold update_num. rewrite Hf. destruct k; [|lia].
    pose proof (wf_tag s Hwf). cbn [mbind M_bind unwrap_num].
    rewrite set_le_byte_0, wrap_small by done. done.
  - injection Hr as <-. cbn [modify_reg byte_update] in *. unfold update_num. rewrite Hf. destruct k; [|lia].
    pose proof (fits_u 8 7 _ ltac:(done) ltac:(done) (wf_top s Hwf)). cbn [mbind M_bind unwrap_num].
    rewrite set_le_byte_0, wrap_small by done. done.
Qed.
Lemma raw_write_field {L : X87Layout} {LL : X87LayoutLaws L} s f k v : Z.of_nat k < field_size f →
  raw_write s (field_offset f + Z.of_nat k) v = set_field_byte s f k v.
Proof. intros Hk. unfold raw_write. rewrite (field_at_in f) by lia. by replace (Z.to_nat _) with k by lia. Qed.
(** The closure of the default [set_state_byte]. *)
Definition byte_closure {P : profile} {L : X87Layout} (pad : X64State → Memory) (b v index : Z) : Value → M Value := λ x,
  match x with
  | Num n =>
      shift ← mul8 index;
      mask ← shl_u 64 0xff shift;
      _ ← assert_masked (A:=X64Arch pad) b v;
      x ← shl_u 64 v shift;
      Ok (Num (Z.lor (Z.land n (not_u 64 mask)) x))
  | Bytes c => c ← vset c (Z.to_nat index) v; Ok (Bytes c)
  end.
Lemma byte_closure_eq {P : profile} {L : X87Layout} pad b v r i x : state_byte_to_reg b = Ok (r, Z.of_nat i) →
  (i < length (value_to_le_bytes x))%nat → is_u 8 v → value_wf x →
  byte_closure pad b v (Z.of_nat i) x =
    _ ← match x with Num _ => debug_assert (bool_decide (byte_allowed r (Z.of_nat i) v)) | Bytes _ => Ok tt end;
    Ok (byte_update i v x).
Proof.
  intros Hr Hi Hv Hx. unfold byte_closure. destruct x as [n|c]; cbn [value_to_le_bytes] in Hi.
  - rewrite length_to_le_bytes in Hi. rewrite mul8_ok, M_bind_Ok by (unfold is_u; lia).
    rewrite !shl_u_ok, M_bind_Ok by lia. rewrite (assert_masked_eq pad b v r i) by done. apply M_bind_ext. intros _.
    rewrite M_bind_Ok. cbn [byte_update]. by rewrite (Z.mul_comm (Z.of_nat i)), set_byte_num.
  - rewrite Nat2Z.id, vset_lt by done. done.
Qed.
Lemma debug_assert_cases {P : profile} (Q : Prop) `{!Decision Q} :
  (debug_assert (bool_decide Q) = Ok tt ∧ (P = Release ∨ Q)) ∨ (debug_assert (bool_decide Q) = Panic ∧ P = Dev ∧ ¬ Q).
Proof.
  case_bool_decide as H; [left; split; [by destruct P|by right]|]. destruct P; [by right|by left; split; [|left]].
Qed.
(** C21: Writing a byte of a state through its address does what the default method
    does with the registers, and panics when it does: in [dev], when the byte has
    bits outside of the mask of its register. *)
Theorem set_state_byte_refines {P : profile} {L : X87Layout} {LL : X87LayoutLaws L} pad s b v :
  x64_wf s → 0 <= b < x64_size → is_u 8 v →
  x64_set_state_byte s b v = set_state_byte (A:=X64Arch pad) s b v ∧
  (x64_set_state_byte s b v ≠ Panic ↔
   P = Release ∨ ∀ r i, state_byte_to_reg b = Ok (r, i) → byte_allowed r i v).
Proof.
  intros Hwf Hb Hv. destruct (byte_location b Hb) as (f & k & Hk & Eb & Eo & Er).
  pose proof (field_reg_known f k Hk) as Hkn. pose proof (set_field_ok s f k) as Hset.
  pose proof (field_byte s f k) as Hfb. destruct (field_reg f k) as [r i'] eqn:E.
  destruct (x64_read s r Hwf Hkn) as (x & Ex & Hty & Hx & Hfit).
  destruct (Hfb x Hwf Hk Ex) as [_ Hi]. cbn [snd] in Hi.
  assert (∃ i, i' = Z.of_nat i) as [i ->] by (destruct f; injection E as _ <-; by eexists). rewrite Nat2Z.id in *.
  pose proof (byte_closure_eq pad b v r i x Er Hi Hv Hx) as Hclo.
  assert (set_state_byte (A:=X64Arch pad) s b v = modify_reg s r (byte_closure pad b v (Z.of_nat i))) as ->
    by (unfold set_state_byte; cbn [Arch.state_byte_to_reg cpu_modify_reg X64Arch]; by rewrite Er).
  pose proof (visible_le f).
  assert (x64_set_state_byte s b v = _ ← assert_register_masked (set_field_byte s f k v) b; Ok (set_field_byte s f k v)) as ->.
  { unfold x64_set_state_byte. rewrite Eo. cbn [unwrap]. rewrite M_bind_Ok, raw_write_field by lia.
    destruct (Z.ltb_spec b x64_size); [by destruct P|lia]. }
  destruct (x64_modify_cases s r (byte_closure pad b v (Z.of_nat i)) x Hkn Ex) as [Hpanic _].
  assert (reg (set_field_byte s f k v) r = Ok (byte_update i v x)) as Er'.
  { pose proof (set_field_ok (P:=Release) s f k x v (λ _, Ok (byte_update i v x)) Hwf Hk Hv) as H'. rewrite E, Nat2Z.id in H'.
    by apply H'; [..|left]. }
  assert ((P = Release ∨ ∀ r' i', state_byte_to_reg b = Ok (r', i') → byte_allowed r' i' v) ↔
    P = Release ∨ byte_allowed r (Z.of_nat i) v) as ->.
  { rewrite Er. split; (intros [?|Ha]; [by left|right]); [by apply Ha|]. by intros r' i' [= <- <-]. }
  destruct x as [n|c].
  - assert (i < 8)%nat by (cbn [value_to_le_bytes] in Hi; by rewrite length_to_le_bytes in Hi).
    rewrite (assert_register_masked_eq _ b r i n v) by done.
    destruct (debug_assert_cases (byte_allowed r (Z.of_nat i) v)) as [[Ed Ha]|(Ed & HP & Ha)]; rewrite Ed in Hclo |- *.
    + destruct (Hset (Num n) v _ Hwf Hk Hv Ex Hclo Ha) as [-> _]. by rewrite M_bind_Ok.
    + rewrite (Hpanic Hclo). split; [done|]. split; [done|]. by intros [->|].
  - assert (byte_allowed r (Z.of_nat i) v) as Ha.
    { unfold byte_allowed. by destruct r as [g|[j| |]|[j| | | |]]. }
    destruct (Hset (Bytes c) v _ Hwf Hk Hv Ex Hclo (or_intror Ha)) as [-> _].
    assert (assert_register_masked (set_field_byte s f k v) b = Ok tt) as ->; [|split; [done|split; [by right|done]]].
    unfold assert_register_masked. destruct P; [|done]. by rewrite Er, M_bind_Ok, Er'.
Qed.
Lemma set_state_byte_refines_witness : (x64_wf DEFAULT_X64_STATE ∧ 0 <= 768 < x64_size ∧ is_u 8 9) ∧
  x64_set_state_byte (L:=sorted_layout) (P:=Dev) DEFAULT_X64_STATE 768 9 =
    set_state_byte (P:=Dev) (A:=X64Arch (L:=sorted_layout) (P:=Dev) (λ _ _, 0)) DEFAULT_X64_STATE 768 9 ∧
  (x64_set_state_byte (L:=sorted_layout) (P:=Dev) DEFAULT_X64_STATE 768 9 ≠ Panic ↔
   Dev = Release ∨ ∀ r i, state_byte_to_reg (P:=Dev) 768 = Ok (r, i) → byte_allowed r i 9).
Proof.
  split; [split_and!; [exact default_x64_wf|done..]|].
  exact (set_state_byte_refines (P:=Dev) (L:=sorted_layout) (λ _ _, 0) DEFAULT_X64_STATE 768 9 default_x64_wf ltac:(done) ltac:(done)).
Defined.
