(* ===== verification/X64DiffFacts.v ===== *)
(** * Facts about the vector comparisons of x86-64

    A lane of 32 bytes is compared at once and the zero bits of the result are
    visited in order.  [find_differences] finds exactly the bytes that differ,
    each once, as the default method does; [find_dataflows_masked] finds exactly
    the bytes that its masks let through. *)
From S2P Require Import Prelude MachInt Utils Size Value Arch X64 X64Mem X64Facts X64MemFacts.
Import SizeOps X64.

(** ** Vectors *)

Lemma testbit_movemask v i : Z.testbit (movemask_epi8 v) (Z.of_nat i) =
  match v !! i with Some x => Z.testbit x 7 | None => false end.
Proof.
  revert i. induction v as [|x v IH]; intros i; cbn [movemask_epi8]; [by rewrite Z.bits_0|].
  rewrite Z.lor_spec, Z.shiftl_spec by lia. destruct i as [|i]; cbn [lookup list_lookup].
  - rewrite (Z.testbit_neg_r _ (_ - _)), orb_false_r by lia. by destruct (Z.testbit x 7).
  - replace (Z.of_nat (S i) - 1) with (Z.of_nat i) by lia. rewrite IH.
    replace (Z.testbit (Z.b2z (Z.testbit x 7)) (Z.of_nat (S i))) with false; [done|].
    destruct (Z.testbit x 7); [|by rewrite Z.bits_0]. cbn [Z.b2z].
    symmetry. apply (testbit_u_high 1); [done|lia].
Qed.
Lemma movemask_u v : is_u (Z.of_nat (length v)) (movemask_epi8 v).
Proof.
  apply u_of_bits; [lia| |].
  - induction v as [|x v IH]; cbn [movemask_epi8]; [done|]. apply Z.lor_nonneg. split; [by destruct (Z.testbit x 7)|].
    by apply Z.shiftl_nonneg.
  - intros i Hi. replace i with (Z.of_nat (Z.to_nat i)) by lia. rewrite testbit_movemask, lookup_ge_None_2 by lia. done.
Qed.
Lemma equal_bytes_u a b index : is_u 32 (equal_bytes a b index).
Proof.
  unfold equal_bytes. pose proof (movemask_u (cmpeq_epi8 (load a index) (load b index))) as H.
  unfold cmpeq_epi8, load in *. rewrite length_zip_with, !length_fmap in H. exact H.
Qed.
Lemma testbit_equal_bytes a b index i : 0 <= i < 32 →
  Z.testbit (equal_bytes a b index) i = (a (32 * index + i) =? b (32 * index + i)).
Proof.
  intros Hi. unfold equal_bytes, cmpeq_epi8, load. replace i with (Z.of_nat (Z.to_nat i)) at 1 by lia.
  rewrite testbit_movemask, lookup_zip_with, !list_lookup_fmap, lookup_seqZ_lt by lia. cbn.
  replace (Z.of_nat (Z.to_nat i)) with i by lia. by destruct (_ =? _).
Qed.

(** ** Scanning the words *)

Section scan.
Context {P : profile} {L : X87Layout} {LL : X87LayoutLaws L}.
(** The first one bit, and the rest. *)
Lemma ones_split w n : is_u (Z.of_nat w) n → n ≠ 0 → let k := trailing_zeros w n in
  (k < w)%nat ∧ ones w n = k :: (Nat.add (S k) <$> ones w (Z.shiftr n (Z.of_nat (S k)))).
Proof using Type.
  intros Hn Hne k. destruct (trailing_zeros_nonzero w n Hn Hne) as (Hk & Hb & Hz). fold k in Hk, Hb, Hz. split; [done|].
  pose proof (ones_app (S k) (w - S k) n) as E. replace (S k + (w - S k))%nat with w in E by lia.
  assert (ones (w - S k) (Z.shiftr n (Z.of_nat (S k))) = ones w (Z.shiftr n (Z.of_nat (S k)))) as E'.
  { pose proof (ones_app (w - S k) (S k) (Z.shiftr n (Z.of_nat (S k)))) as E2.
    replace (w - S k + S k)%nat with w in E2 by lia. rewrite E2.
    rewrite (proj2 (ones_nil (S k) _)); [by rewrite fmap_nil, app_nil_r|]. intros i Hi.
    rewrite !Z.shiftr_spec by lia. apply (testbit_u_high (Z.of_nat w)); [done|lia]. }
  rewrite E' in E. rewrite E. replace (S k) with (k + 1)%nat at 1 by lia. rewrite ones_app, ones_1, Z.shiftr_spec by lia.
  rewrite Z.add_0_l, Hb. rewrite (proj2 (ones_nil k n)) by done. cbn. by rewrite Nat.add_0_r.
Qed.
Lemma ones_extend n : is_u 32 n → ones 64 n = ones 32 n.
Proof using Type.
  intros Hn. change 64%nat with (32 + 32)%nat. rewrite ones_app, (proj2 (ones_nil 32 (Z.shiftr n _))); [by rewrite fmap_nil, app_nil_r|].
  intros i Hi. rewrite Z.shiftr_spec by lia. apply (testbit_u_high 32); [done|lia].
Qed.
Lemma count_ones_length w x : count_ones w x = length (ones w x).
Proof using Type. reflexivity. Qed.
Lemma ones_first n : is_u 32 n → n ≠ 0 → ∃ k, trailing_zeros 64 n = k ∧ (k < 32)%nat ∧
  ones 32 n = k :: (Nat.add (S k) <$> ones 32 (Z.shiftr n (Z.of_nat (S k)))).
Proof using Type.
  intros Hn Hne. destruct (ones_split 32 n Hn Hne) as [Hk E]. exists (trailing_zeros 32 n). split_and!; [|exact Hk|exact E].
  unfold trailing_zeros at 1. rewrite ones_extend by exact Hn.
  unfold trailing_zeros. destruct (ones 32 n); [discriminate E|reflexivity].
Qed.
Definition found_bytes (offs : list Z) : list Z := omap translate_raw_offset_to_state_byte offs.
Lemma found_one off : match translate_raw_offset_to_state_byte off with
  | Some b => b ← StateByte_new b; Ok [b] | None => Ok [] end = Ok (found_bytes [off]).
Proof using LL.
  unfold found_bytes. cbn. destruct (translate_raw_offset_to_state_byte off) as [b|] eqn:Eb; [|done].
  apply translations_inverse, translate_byte_range in Eb as [Hb _]. unfold StateByte_new.
  assert (b < 769) by (byte_consts; lia). destruct (Z.ltb_spec b (2 ^ 32 - 1)); [|lia].
  rewrite wrap_small by (unfold is_u; lia). by destruct P.
Qed.
Lemma scan_word_ok fuel : ∀ n base, is_u 32 n → (count_ones 32 n <= fuel)%nat →
  0 <= base → base + 32 * Z.of_nat fuel <= 2 ^ 32 →
  scan_word fuel n base = Ok (found_bytes ((λ i, base + Z.of_nat i) <$> ones 32 n)).
Proof using LL.
  induction fuel as [|fuel IH]; intros n base Hn Hc H0 Hbase; cbn [scan_word]; destruct (Z.eqb_spec n 0) as [->|Hne]; [reflexivity| |reflexivity|].
  - exfalso. destruct (ones_first n Hn Hne) as (k & _ & _ & E). rewrite count_ones_length, E in Hc. cbn [length] in Hc. lia.
  - destruct (ones_first n Hn Hne) as (k & -> & Hk & E). rewrite count_ones_length, E in Hc. rewrite E.
    cbn [length] in Hc. rewrite length_fmap in Hc.
    assert (Z.of_nat k + 1 = Z.of_nat (S k)) as Ek by lia.
    cbv zeta. rewrite (add_u_ok 64 base (Z.of_nat k)), M_bind_Ok by (unfold is_u; lia). rewrite found_one, M_bind_Ok.
    rewrite (add_u_ok 64 (Z.of_nat k) 1), M_bind_Ok, shr_ok, M_bind_Ok, (add_u_ok 64 (base + Z.of_nat k) 1), M_bind_Ok by (unfold is_u; lia).
    rewrite Ek, IH; cycle 1; [apply is_u_shiftr; [done|lia|exact Hn]|rewrite ?count_ones_length; lia..|].
    rewrite M_bind_Ok. unfold found_bytes. rewrite <- omap_app. do 2 f_equal. rewrite fmap_cons. cbn [app]. f_equal.
    rewrite <- list_fmap_compose. apply list_fmap_ext. intros i x _. cbn. lia.
Qed.

(** *** The results of the lanes *)

(** The raw offsets of the zero bits of the words. *)
Definition zero_offsets (f : Z → Z) : list Z :=
  index ← seqZ 0 LANES; (λ i, index * 32 + Z.of_nat i) <$> ones 32 (not_u 32 (f index)).
Lemma bit_not_u w x i : 0 <= i < w → Z.testbit (not_u w x) i = negb (Z.testbit x i).
Proof using Type. intros Hi. unfold not_u. rewrite testbit_wrap, Z.lnot_spec by lia. by destruct (Z.ltb_spec i w); [|lia]. Qed.
Lemma elem_of_zero_offsets f off : off ∈ zero_offsets f ↔ 0 <= off < SIZE ∧ Z.testbit (f (off / 32)) (off `mod` 32) = false.
Proof using Type.
  unfold zero_offsets. rewrite list_elem_of_bind. change LANES with 25. change SIZE with 800. split.
  - intros (index & (i & -> & [Hi Hb]%elem_of_ones)%list_elem_of_fmap & Hx%elem_of_seqZ).
    rewrite bit_not_u in Hb by lia. apply negb_true_iff in Hb.
    replace ((index * 32 + Z.of_nat i) / 32) with index by (Z.to_euclidean_division_equations; lia).
    replace ((index * 32 + Z.of_nat i) `mod` 32) with (Z.of_nat i) by (Z.to_euclidean_division_equations; lia).
    split; [lia|done].
  - intros [Hoff Hb]. exists (off / 32). split; [|apply elem_of_seqZ; Z.to_euclidean_division_equations; lia].
    apply list_elem_of_fmap. exists (Z.to_nat (off `mod` 32)). split; [Z.to_euclidean_division_equations; lia|].
    apply elem_of_ones. split; [Z.to_euclidean_division_equations; lia|].
    rewrite Z2Nat.id, bit_not_u, Hb by (Z.to_euclidean_division_equations; lia). done.
Qed.
Lemma zero_offsets_NoDup f : NoDup (zero_offsets f).
Proof using Type.
  apply NoDup_bind; [| |apply NoDup_seqZ].
  - intros x y off _ _ (i & -> & [Hi _]%elem_of_ones)%list_elem_of_fmap (j & E & [Hj _]%elem_of_ones)%list_elem_of_fmap. lia.
  - intros x _. apply NoDup_fmap_2; [intros i j; lia|apply ones_NoDup].
Qed.
(** [max_index] is behind the last word with a zero bit. *)
Lemma fill_results_ok f : ∃ max_index, fill_results f = (f <$> seqZ 0 LANES, max_index) ∧ 0 <= max_index < LANES ∧
  ∀ index, 0 <= index < LANES → max_index < index → f index = ALL_EQUAL.
Proof using Type.
  assert (∀ n : nat, ∃ m, foldl (λ '(results, max_index) index, let n := f index in
      (results ++ [n], if negb (n =? ALL_EQUAL) then index else max_index)) ([], 0) (seqZ 0 (Z.of_nat n)) =
      (f <$> seqZ 0 (Z.of_nat n), m) ∧ (m = 0 ∨ 0 <= m < Z.of_nat n) ∧
      ∀ x, 0 <= x < Z.of_nat n → m < x → f x = ALL_EQUAL) as H.
  { induction n as [|n (m & E & Hm & Hall)]; [exists 0; split_and!; [done|by left|lia]|].
    rewrite seqZ_S, foldl_app, E, fmap_app. cbn. rewrite Z.add_0_l. destruct (Z.eqb_spec (f (Z.of_nat n)) ALL_EQUAL) as [Ea|Ea].
    - exists m. split_and!; [done|lia|]. intros x Hx Hlt. destruct (decide (x = Z.of_nat n)) as [->|]; [done|]. apply Hall; lia.
    - exists (Z.of_nat n). split_and!; [done|lia|]. intros x Hx Hlt. lia. }
  destruct (H (Z.to_nat LANES)) as (m & E & Hm & Hall). change (Z.of_nat (Z.to_nat LANES)) with LANES in *.
  exists m. split_and!; [exact E|change LANES with 25 in *; lia|change LANES with 25 in *; lia|exact Hall].
Qed.
Lemma ones_none : ones 32 (not_u 32 ALL_EQUAL) = [].
Proof using Type. vm_compute. reflexivity. Qed.
Lemma omap_bind {T U V} (g : U → option V) (h : T → list U) l : omap g (l ≫= h) = concat ((λ x, omap g (h x)) <$> l).
Proof using Type. induction l as [|x l IH]; [done|]. cbn [fmap list_fmap concat]. by rewrite bind_cons, omap_app, IH. Qed.
Lemma scan_results_ok f max_index : (∀ index, is_u 32 (f index)) → 0 <= max_index < LANES →
  (∀ index, 0 <= index < LANES → max_index < index → f index = ALL_EQUAL) →
  scan_results (f <$> seqZ 0 LANES) max_index = Ok (found_bytes (zero_offsets f)).
Proof using LL.
  intros Hu Hm Hall. unfold scan_results.
  assert (take (Z.to_nat (max_index + 1)) (imap pair (f <$> seqZ 0 LANES)) =
    (λ i, (i, f (Z.of_nat i))) <$> seq 0 (Z.to_nat (max_index + 1))) as ->.
  { change (imap pair (f <$> seqZ 0 LANES)) with ((λ i, (i, f (Z.of_nat i))) <$> seq 0 25).
    rewrite <- fmap_take, take_seq. do 2 f_equal. change LANES with 25 in Hm. lia. }
  erewrite (mapM_Ok _ (λ '(index, n), found_bytes ((λ i, Z.of_nat index * 32 + Z.of_nat i) <$> ones 32 (not_u 32 n)))).
  - rewrite M_bind_Ok. f_equal. unfold found_bytes, zero_offsets. rewrite omap_bind.
    replace LANES with (max_index + 1 + (LANES - (max_index + 1))) by lia. rewrite seqZ_app, fmap_app, concat_app by lia.
    assert (∀ l, (∀ x, x ∈ l → f x = ALL_EQUAL) → concat ((λ x, omap translate_raw_offset_to_state_byte
      ((λ i, x * 32 + Z.of_nat i) <$> ones 32 (not_u 32 (f x)))) <$> l) = []) as Hnil.
    { intros l Hl. apply concat_nil_Forall, Forall_fmap, Forall_forall. intros x Hx. unfold compose.
      rewrite (Hl x Hx), ones_none. reflexivity. }
    rewrite (Hnil (seqZ (0 + (max_index + 1)) _)), app_nil_r.
    + rewrite <- list_fmap_compose. unfold seqZ. rewrite <- list_fmap_compose. apply (f_equal (@concat Z)), list_fmap_ext.
      intros j i _. unfold compose. rewrite Z.add_0_l || rewrite Z.add_0_r. reflexivity.
    + intros x Hx%elem_of_seqZ. apply Hall; lia.
  - intros [index n] Hin. apply list_elem_of_fmap in Hin as (i & [= -> ->] & Hi%elem_of_seq).
    apply scan_word_ok; [by apply wrap_is_u| |lia|].
    + apply count_ones_le.
    + change LANES with 25 in Hm. lia.
Qed.
(** What a scan of the lanes finds. *)
Lemma found_bytes_NoDup offs : NoDup offs → NoDup (found_bytes offs).
Proof using LL.
  induction 1 as [|off offs Hoff Hnd IH]; [constructor|]. unfold found_bytes. cbn [omap list_omap].
  destruct (translate_raw_offset_to_state_byte off) as [b|] eqn:E; [|exact IH]. constructor; [|exact IH].
  intros (off' & Hin & E')%list_elem_of_omap. apply Hoff.
  apply translations_inverse in E, E'. rewrite E in E'. by injection E' as <-.
Qed.
Lemma scan_spec f : (∀ index, is_u 32 (f index)) → ∃ l,
  (let '(results, max_index) := fill_results f in scan_results results max_index) = Ok l ∧ NoDup l ∧
  ∀ b, b ∈ l ↔ ∃ off, translate_state_byte_to_raw_offset b = Some off ∧ Z.testbit (f (off / 32)) (off `mod` 32) = false.
Proof using LL.
  intros Hu. destruct (fill_results_ok f) as (m & -> & Hm & Hall). rewrite scan_results_ok by done.
  eexists. split; [reflexivity|]. split; [apply found_bytes_NoDup, zero_offsets_NoDup|].
  intros b. unfold found_bytes. rewrite list_elem_of_omap. setoid_rewrite elem_of_zero_offsets.
  setoid_rewrite translations_inverse. split; intros (off & H1 & H2); exists off; [by destruct H1|].
  split; [|done]. split; [by apply (translate_byte_range b)|done].
Qed.
Lemma lane_bit (a b : Memory) off : 
  Z.testbit (equal_bytes a b (off / 32)) (off `mod` 32) = (a off =? b off).
Proof using Type.
  rewrite testbit_equal_bytes by (Z.to_euclidean_division_equations; lia).
  by replace (32 * (off / 32) + off `mod` 32) with off by (Z.to_euclidean_division_equations; lia).
Qed.
Lemma find_differences_raw a b : ∃ l, x64_find_differences a b = Ok l ∧ NoDup l ∧
  ∀ n, n ∈ l ↔ ∃ off, translate_state_byte_to_raw_offset n = Some off ∧ a off ≠ b off.
Proof using LL.
  destruct (scan_spec (equal_bytes a b) (equal_bytes_u a b)) as (l & E & Hnd & Hl). exists l.
  split; [exact E|]. split; [exact Hnd|]. intros n. rewrite Hl. setoid_rewrite lane_bit. by setoid_rewrite Z.eqb_neq.
Qed.
End scan.

(** C10: The fast search for differences finds the bytes that differ, each once: the
    bytes the default method finds, though not in its order, and whatever the
    bytes between the fields hold. *)
Theorem find_differences_refines {P : profile} {L : X87Layout} {LL : X87LayoutLaws L} pad s t : x64_wf s → x64_wf t →
  ∃ l l', x64_find_differences (raw (pad s) s) (raw (pad t) t) = Ok l ∧
    default_find_differences (A:=X64Arch pad) s t = Ok l' ∧ l ≡ₚ l' ∧ NoDup l ∧
    ∀ n, n ∈ l ↔ 0 <= n < x64_size ∧ state_bytes_unequal (A:=X64Arch pad) s n t = Ok true.
Proof.
  intros Hs Ht. destruct (find_differences_raw (raw (pad s) s) (raw (pad t) t)) as (l & E & Hnd & Hl).
  set (ne n := match state_bytes_unequal (A:=X64Arch pad) s n t with Ok b => b | _ => false end).
  assert (∀ n, 0 <= n < x64_size → ∃ off, translate_state_byte_to_raw_offset n = Some off ∧
    state_bytes_unequal (A:=X64Arch pad) s n t = Ok (negb (raw (pad s) s off =? raw (pad t) t off))) as Hne.
  { intros n Hn. destruct (translate_total n Hn) as (off & Eo & _). exists off. split; [done|].
    rewrite <- state_bytes_unequal_refines by done. unfold x64_state_bytes_unequal. rewrite Eo. cbn [unwrap].
    destruct (Z.ltb_spec n x64_size); [by destruct P|lia]. }
  assert (∀ n, n ∈ l ↔ 0 <= n < x64_size ∧ state_bytes_unequal (A:=X64Arch pad) s n t = Ok true) as Hmem.
  { intros n. rewrite Hl. split.
    - intros (off & Eo & Hd). destruct (translate_byte_range n off Eo) as [Hn _]. split; [done|].
      destruct (Hne n Hn) as (off' & Eo' & ->). rewrite Eo in Eo'. injection Eo' as <-. by apply Z.eqb_neq in Hd as ->.
    - intros [Hn Hd]. destruct (Hne n Hn) as (off & Eo & En). exists off. split; [done|]. rewrite En in Hd. injection Hd as Hd.
      by apply Z.eqb_neq, negb_true_iff. }
  exists l, (List.filter ne (seqZ 0 x64_size)). split_and!; [exact E| | |exact Hnd|exact Hmem].
  - unfold default_find_differences. cbn [cpu_size X64Arch].
    rewrite (mapM_Ok _ (λ n, (n, ne n))).
    + rewrite M_bind_Ok. f_equal. generalize (seqZ 0 x64_size) as k. intros k. induction k as [|n k IH]; [done|].
      cbn [fmap list_fmap List.filter snd]. destruct (ne n); cbn [fmap list_fmap fst]; by rewrite IH.
    + intros n Hn%elem_of_seqZ. destruct (Hne n ltac:(lia)) as (off & _ & En).
      assert (StateByte_new n = Ok n) as ->.
      { unfold StateByte_new. assert (n < 769) by (byte_consts; lia). destruct (Z.ltb_spec n (2 ^ 32 - 1)); [|lia].
        rewrite wrap_small by (unfold is_u; lia). by destruct P. }
      rewrite M_bind_Ok. unfold ne. by rewrite En.
  - apply NoDup_Permutation; [exact Hnd|by apply NoDup_ListNoDup, List.NoDup_filter, NoDup_ListNoDup, NoDup_seqZ|].
    intros n. rewrite Hmem, list_elem_of_In, List.filter_In, <- list_elem_of_In, elem_of_seqZ. unfold ne.
    split; intros [Hn Hd]; (split; [lia|]); [by rewrite Hd|]. destruct (Hne n ltac:(lia)) as (off & _ & En).
    rewrite En in Hd |- *. by rewrite Hd.
Qed.
Lemma find_differences_refines_witness : (x64_wf DEFAULT_X64_STATE ∧ x64_wf DEFAULT_X64_STATE) ∧
  ∃ l l', x64_find_differences (L:=sorted_layout) (P:=Dev) (raw (L:=sorted_layout) (λ _, 3) DEFAULT_X64_STATE)
      (raw (L:=sorted_layout) (λ _, 3) DEFAULT_X64_STATE) = Ok l ∧
    default_find_differences (P:=Dev) (A:=X64Arch (L:=sorted_layout) (P:=Dev) (λ _ _, 3)) DEFAULT_X64_STATE DEFAULT_X64_STATE = Ok l' ∧
    l ≡ₚ l' ∧ NoDup l ∧
    ∀ n, n ∈ l ↔ 0 <= n < x64_size ∧
      state_bytes_unequal (P:=Dev) (A:=X64Arch (L:=sorted_layout) (P:=Dev) (λ _ _, 3)) DEFAULT_X64_STATE n DEFAULT_X64_STATE = Ok true.
Proof.
  split; [split; exact default_x64_wf|].
  exact (find_differences_refines (P:=Dev) (L:=sorted_layout) (λ _ _, 3) _ _ default_x64_wf default_x64_wf).
Defined.

(** ** Masks *)

Section masks.
Context {P : profile} {L : X87Layout} {LL : X87LayoutLaws L}.
Definition mask_wf (m : list Z) : Prop := length m = 25%nat ∧ Forall (is_u 32) m.
Definition mask_bit (m : list Z) (off : Z) : bool :=
  Z.testbit (default 0 (m !! Z.to_nat (off / 32))) (off `mod` 32).
(** One item sets its bit. *)
Lemma mask_set m off : mask_wf m → 0 <= off < SIZE → ∃ m',
  (w ← vget m (Z.to_nat (off / 32)); vset m (Z.to_nat (off / 32)) (Z.lor w (Z.shiftl 1 (off `mod` 32)))) = Ok m' ∧
  mask_wf m' ∧ ∀ o, 0 <= o < SIZE → mask_bit m' o = (o =? off) || mask_bit m o.
Proof using Type.
  intros [Hlen Hu] Hoff. change SIZE with 800 in *.
  assert (Z.to_nat (off / 32) < length m)%nat as Hlt by (rewrite Hlen; Z.to_euclidean_division_equations; lia).
  assert (0 <= off `mod` 32 < 32) as Hr by (Z.to_euclidean_division_equations; lia).
  destruct (vget_lt m _ Hlt) as (w & -> & Ew). rewrite M_bind_Ok, vset_lt by done. eexists. split; [reflexivity|]. split; [split|].
  - by rewrite length_insert.
  - apply Forall_insert; [done|]. apply is_u_lor; [done|by apply (Forall_lookup_1 _ _ _ _ Hu Ew)|].
    rewrite Z.shiftl_1_l. split; [by apply Z.pow_nonneg|]. apply Z.pow_lt_mono_r; lia.
  - intros o Ho. unfold mask_bit. destruct (decide (Z.to_nat (o / 32) = Z.to_nat (off / 32))) as [Hq|Hq].
    + rewrite Hq, list_lookup_insert_eq, Ew by done. cbn. rewrite Z.lor_spec, Z.shiftl_1_l, Z.pow2_bits_eqb, orb_comm by lia. f_equal.
      destruct (Z.eqb_spec (off `mod` 32) (o `mod` 32)), (Z.eqb_spec o off); try done; Z.to_euclidean_division_equations; lia.
    + rewrite list_lookup_insert_ne by done. destruct (Z.eqb_spec o off) as [->|]; [done|reflexivity].
Qed.
Lemma create_mask_from items : ∀ m, mask_wf m → (∀ n, n ∈ items → 0 <= n < x64_size) → ∃ m',
  foldl (λ m item,
    m ← m;
    index ← unwrap (translate_state_byte_to_raw_offset item);
    w ← vget m (Z.to_nat (index / 32));
    vset m (Z.to_nat (index / 32)) (Z.lor w (Z.shiftl 1 (index `mod` 32)))) (Ok m) items = Ok m' ∧ mask_wf m' ∧
  ∀ o, 0 <= o < SIZE → mask_bit m' o = true ↔ mask_bit m o = true ∨ ∃ n, n ∈ items ∧ translate_state_byte_to_raw_offset n = Some o.
Proof using LL.
  induction items as [|item items IH]; intros m Hm Hin.
  - exists m. split_and!; [done..|]. intros o Ho. split; [by left|]. intros [?|(n & Hn & _)]; [done|]. by apply elem_of_nil in Hn.
  - destruct (translate_total item (Hin item ltac:(left))) as (off & Eo & Hoff).
    destruct (mask_set m off Hm Hoff) as (m1 & E1 & Hm1 & Hb1).
    destruct (IH m1 Hm1) as (m' & E' & Hm' & Hb'); [intros n Hn; apply Hin; by right|].
    exists m'. cbn [foldl]. rewrite M_bind_Ok, Eo. cbn [unwrap]. rewrite M_bind_Ok, E1. split_and!; [exact E'|done|].
    intros o Ho. rewrite Hb', Hb1, orb_true_iff, Z.eqb_eq by done. split.
    + intros [[->|?]|(n & Hn & En)]; [right; exists item; split; [left|done]|by left|right; exists n; split; [by right|done]].
    + intros [?|(n & [->|Hn]%elem_of_cons & En)]; [by left; right|left; left|right; by exists n].
      rewrite Eo in En. by injection En as <-.
Qed.
Lemma create_mask_ok items : (∀ n, n ∈ items → 0 <= n < x64_size) → ∃ m, create_mask items = Ok m ∧ mask_wf m ∧
  ∀ n off, translate_state_byte_to_raw_offset n = Some off → mask_bit m off = true ↔ n ∈ items.
Proof using LL.
  intros Hin. destruct (create_mask_from items (replicate (Z.to_nat LANES) 0)) as (m & E & Hm & Hb); [|done|].
  - split; [done|]. by apply Forall_replicate.
  - exists m. split_and!; [exact E|exact Hm|]. intros n off En. destruct (translate_byte_range n off En) as [_ Ho].
    rewrite Hb by done. assert (mask_bit (replicate (Z.to_nat LANES) 0) off = false) as ->.
    { unfold mask_bit. destruct (replicate _ 0 !! _) as [x|] eqn:Ex; [apply lookup_replicate in Ex as [-> _]|]; apply Z.bits_0. }
    split; [|intros Hn; right; by exists n]. intros [?|(k & Hk & Ek)]; [done|].
    apply translations_inverse in En, Ek. rewrite En in Ek. by injection Ek as ->.
Qed.

(** ** Dataflows *)

Lemma mask_wf_u m i : mask_wf m → is_u 32 (default 0 (m !! i)).
Proof using Type.
  intros [_ Hm]. destruct (m !! i) as [x|] eqn:E; [|done]. by apply (Forall_lookup_1 _ _ _ _ Hm E).
Qed.
Lemma dataflow_word_u b_in b_out a_in a_out dm m index : mask_wf dm → mask_wf m →
  is_u 32 (dataflow_word b_in b_out a_in a_out dm m index).
Proof using Type.
  intros Hdm Hm. unfold dataflow_word. destruct (negb _); [|done].
  apply is_u_lor; [done| |apply is_u_land; [done|apply equal_bytes_u|by apply (mask_wf_u dm)]].
  apply is_u_lor; [done| |by apply mask_wf_u]. apply is_u_land; [done|apply equal_bytes_u|].
  apply (equal_bytes_u b_in b_out index).
Qed.
Lemma testbit_dataflow_word b_in b_out a_in a_out dm m off : 
  Z.testbit (dataflow_word b_in b_out a_in a_out dm m (off / 32)) (off `mod` 32) =
  ((a_in off =? a_out off) && (b_in off =? b_out off) || mask_bit m off) || ((a_out off =? b_out off) && mask_bit dm off).
Proof using Type.
  unfold dataflow_word. set (n := Z.lor _ (default 0 (m !! _))).
  assert (Z.testbit n (off `mod` 32) = ((a_in off =? a_out off) && (b_in off =? b_out off) || mask_bit m off)) as En.
  { unfold n. rewrite Z.lor_spec, Z.land_spec, !lane_bit. reflexivity. }
  destruct (Z.eqb_spec n ALL_EQUAL) as [E|E]; cbn [negb].
  - rewrite <- En, E. change ALL_EQUAL with (Z.ones 32). rewrite Z.testbit_ones by done.
    assert (0 <= off `mod` 32 < 32) as Hr by (Z.to_euclidean_division_equations; lia).
    destruct (Z.leb_spec 0 (off `mod` 32)), (Z.ltb_spec (off `mod` 32) 32); (done || lia).
  - rewrite Z.lor_spec, En, Z.land_spec, lane_bit. reflexivity.
Qed.
End masks.

(** C22: The masked search for dataflows finds, each once, the bytes that change in
    either execution, that are not in the mask, and that the executions leave
    different or that are not in the mask for equal results. *)
Theorem find_dataflows_masked_spec {P : profile} {L : X87Layout} {LL : X87LayoutLaws L}
    (b_in b_out a_in a_out : Memory) dest_items items :
  (∀ n, n ∈ dest_items → 0 <= n < x64_size) → (∀ n, n ∈ items → 0 <= n < x64_size) →
  ∃ dm m l, create_mask dest_items = Ok dm ∧ create_mask items = Ok m ∧
    x64_find_dataflows_masked (b_in, b_out) (a_in, a_out) dm m = Ok l ∧ NoDup l ∧
    ∀ n, n ∈ l ↔ ∃ off, translate_state_byte_to_raw_offset n = Some off ∧
      (a_in off ≠ a_out off ∨ b_in off ≠ b_out off) ∧ n ∉ items ∧ (a_out off ≠ b_out off ∨ n ∉ dest_items).
Proof.
  intros Hd Hi. destruct (create_mask_ok dest_items Hd) as (dm & Edm & Hdm & Hdb), (create_mask_ok items Hi) as (m & Em & Hm & Hmb).
  destruct (scan_spec (dataflow_word b_in b_out a_in a_out dm m)) as (l & E & Hnd & Hl); [by intros; apply dataflow_word_u|].
  exists dm, m, l. split_and!; [done..|exact E|exact Hnd|]. intros n. rewrite Hl.
  setoid_rewrite testbit_dataflow_word. split; intros (off & Eo & H); exists off; (split; [done|]).
  - rewrite !orb_false_iff, !andb_false_iff, !Z.eqb_neq in H. rewrite <- (Hmb n off Eo), <- (Hdb n off Eo), !not_true_iff_false. tauto.
  - rewrite !orb_false_iff, !andb_false_iff, !Z.eqb_neq. rewrite <- (Hmb n off Eo), <- (Hdb n off Eo), !not_true_iff_false in H. tauto.
Qed.
Lemma find_dataflows_masked_spec_witness :
  ((∀ n, n ∈ [0] → 0 <= n < x64_size) ∧ (∀ n, n ∈ [1] → 0 <= n < x64_size)) ∧
  ∃ dm m l, create_mask (L:=sorted_layout) [0] = Ok dm ∧ create_mask (L:=sorted_layout) [1] = Ok m ∧
    x64_find_dataflows_masked (L:=sorted_layout) (P:=Dev) ((λ _, 0), (λ off, off)) ((λ _, 0), (λ off, off)) dm m = Ok l ∧ NoDup l ∧
    ∀ n, n ∈ l ↔ ∃ off, translate_state_byte_to_raw_offset (L:=sorted_layout) n = Some off ∧
      (0 ≠ off ∨ 0 ≠ off) ∧ n ∉ [1] ∧ (off ≠ off ∨ n ∉ [0]).
Proof.
  assert (∀ n, n ∈ [0] → 0 <= n < x64_size) as H0 by (intros n ->%list_elem_of_singleton; done).
  assert (∀ n, n ∈ [1] → 0 <= n < x64_size) as H1 by (intros n ->%list_elem_of_singleton; done).
  split; [done|].
  exact (find_dataflows_masked_spec (P:=Dev) (L:=sorted_layout) (λ _, 0) (λ off, off) (λ _, 0) (λ off, off) [0] [1] H0 H1).
Defined.
