(* ===== verification/X64Prefix.v ===== *)
(** * Prefixes of x86-64 instructions

    Models [liblisa/src/arch/x64/disasm.rs], the parser of the prefixes in front
    of an opcode, and [PrefixScope] of [liblisa/src/arch/x64/mod.rs], which
    decides by the prefixes whether an instruction is enumerated. *)
From S2P Require Import Prelude MachInt.

Module Prefixes.
(** ** Data *)

(** [AttemptedParse<T, u8>]. *)
Inductive AttemptedParse (T : Type) := ParseOk (x : T) | InvalidValue (v : Z).
Arguments ParseOk {T}.
Arguments InvalidValue {T}.
Definition is_invalid {T} (self : AttemptedParse T) : bool :=
  match self with InvalidValue _ => true | ParseOk _ => false end.

Record Rex := { rex_w : bool; rex_r : bool; rex_x : bool; rex_b : bool }.
Inductive SimplePrefix :=
  | Lock | Repnz | Repz | OverrideCS | OverrideSS | OverrideDS | OverrideES | OverrideFS | OverrideGS
  | DataSizeOverride | AddrSizeOverride.
Inductive OpcodeMap := MapDefault | Map0F | Map0F38 | Map0F3A.
Record Vex2 := { vex2_p : option SimplePrefix; vex2_l : bool; vex2_v : Z; vex2_r : bool }.
Record Vex3 := {
  vex3_p : option SimplePrefix; vex3_l : bool; vex3_v : Z; vex3_m : AttemptedParse OpcodeMap; vex3_rex : Rex
}.
Inductive Prefix :=
  | PSimple (p : SimplePrefix)
  | POpcodeMap (m : OpcodeMap)
  | PRex (r : Rex)
  | PVex2 (v : Vex2)
  | PVex3 (v : Vex3)
  | IncompleteVex2
  | IncompleteVex3
  | Xop
  | BrokenXop.
#[export] Instance OpcodeMap_eq_dec : EqDecision OpcodeMap.
Proof. solve_decision. Defined.

(** ** The parser *)

(** [ParsedInstructionPrefixes] holds an [ArrayVec<Prefix, 15>]; [push] panics
    when it is full. *)
Definition MAX_PREFIXES : nat := 15.
Definition push (prefixes : list Prefix) (p : Prefix) : M (list Prefix) :=
  if (length prefixes <? MAX_PREFIXES)%nat then Ok (prefixes ++ [p]) else Panic.
Definition map_after (acc : OpcodeMap) (prefix : Prefix) : option OpcodeMap :=
  match prefix with
  | POpcodeMap map => Some map
  | PVex2 _ | IncompleteVex2 | IncompleteVex3 => Some Map0F
  | PVex3 v => match vex3_m v with ParseOk map => Some map | InvalidValue _ => None end
  | _ => Some acc
  end.
Definition effective_opcode_map (prefixes : list Prefix) : option OpcodeMap :=
  foldl (λ acc prefix, acc ← acc; map_after acc prefix) (Some MapDefault) prefixes.

(** The arms for one byte. *)
Definition simple_prefix (b : Z) : option SimplePrefix :=
  match b with
  | 0x2E => Some OverrideCS
  | 0x36 => Some OverrideSS
  | 0x3E => Some OverrideDS
  | 0x26 => Some OverrideES
  | 0x64 => Some OverrideFS
  | 0x65 => Some OverrideGS
  | 0x66 => Some DataSizeOverride
  | 0x67 => Some AddrSizeOverride
  | 0xF0 => Some Lock
  | 0xF2 => Some Repnz
  | 0xF3 => Some Repz
  | _ => None
  end.
Definition vex_p (c : Z) : option SimplePrefix :=
  match Z.land c 3 with 0 => None | 1 => Some Lock | 2 => Some Repnz | _ => Some Repz end.
Definition vex_v (c : Z) : Z := Z.lxor (Z.shiftr (Z.land c 0x78) 3) 15.
Definition parse_rex (b : Z) : Rex :=
  {| rex_w := 0 <? Z.land b 8; rex_r := 0 <? Z.land b 4; rex_x := 0 <? Z.land b 2; rex_b := 0 <? Z.land b 1 |}.
Definition parse_vex3 (c1 c2 : Z) : Vex3 :=
  {| vex3_p := vex_p c2;
     vex3_l := negb (Z.land c2 4 =? 0);
     vex3_v := vex_v c2;
     vex3_m := match Z.land c1 31 with
               | 1 => ParseOk Map0F
               | 2 => ParseOk Map0F38
               | 3 => ParseOk Map0F3A
               | val => InvalidValue val
               end;
     vex3_rex := {| rex_r := Z.land c1 0x80 =? 0; rex_w := negb (Z.land c2 0x80 =? 0);
                    rex_x := Z.land c1 0x40 =? 0; rex_b := Z.land c1 0x20 =? 0 |} |}.
Definition parse_vex2 (c : Z) : Vex2 :=
  {| vex2_r := Z.land c 0x80 =? 0; vex2_p := vex_p c; vex2_l := negb (Z.land c 4 =? 0); vex2_v := vex_v c |}.
(** One iteration: the prefix pushed, the number of bytes it takes, and whether
    the loop goes on after it; [None] is [break]. *)
Definition parse_step (instr : list Z) : option (Prefix * nat * bool) :=
  match instr with
  | [] => None
  | b :: rest =>
      if b =? 0x0F then
        match rest with
        | 0x38 :: _ => Some (POpcodeMap Map0F38, 2%nat, true)
        | 0x3A :: _ => Some (POpcodeMap Map0F3A, 2%nat, true)
        | _ => Some (POpcodeMap Map0F, 1%nat, true)
        end
      else match simple_prefix b with
      | Some p => Some (PSimple p, 1%nat, true)
      | None =>
          if b =? 0x8F then
            match rest with
            | c :: _ =>
                if 8 <=? Z.land c 31 then Some (Xop, 1%nat, true)
                else if bool_decide (Z.land c 0xf0 ∈ [0x20; 0x60; 0xA0; 0xE0]) then Some (BrokenXop, 1%nat, true)
                else None
            | [] => None
            end
          else if Z.land b 0xf0 =? 0x40 then Some (PRex (parse_rex b), 1%nat, true)
          else if b =? 0xC4 then
            match rest with
            | c1 :: c2 :: _ => Some (PVex3 (parse_vex3 c1 c2), 3%nat, true)
            | _ => Some (IncompleteVex3, 1%nat, false)
            end
          else if b =? 0xC5 then
            match rest with
            | c :: _ => Some (PVex2 (parse_vex2 c), 2%nat, true)
            | [] => Some (IncompleteVex2, 1%nat, false)
            end
          else None
      end
  end.
Fixpoint parse_loop (fuel : nat) (prefixes : list Prefix) (instr : list Z) : M (list Prefix * list Z) :=
  if bool_decide (effective_opcode_map prefixes = Some MapDefault) then
    match parse_step instr with
    | None => Ok (prefixes, instr)
    | Some (p, n, continue) =>
        match fuel with
        | O => OutOfFuel
        | S fuel =>
            prefixes ← push prefixes p;
            if (continue : bool) then parse_loop fuel prefixes (drop n instr) else Ok (prefixes, drop n instr)
        end
    end
  else Ok (prefixes, instr).
Definition parse (instr : list Z) : M (list Prefix * list Z) := parse_loop (length instr) [] instr.

(** ** [PrefixScope] *)

Definition I64_MAX : Z := 2 ^ 63 - 1.
Fixpoint is_sorted_by_key_and_unequal {T} (value : T → Z) (items : list T) : bool :=
  match items with
  | x :: (y :: _) as items => (value x <? value y) && is_sorted_by_key_and_unequal value items
  | _ => true
  end.
Definition excluded (p : SimplePrefix) : bool := match p with Lock => false | _ => true end.
Definition prefix_key (prefix : Prefix) : Z :=
  match prefix with
  | PVex2 _ | PVex3 _ | IncompleteVex2 | IncompleteVex3 | Xop | BrokenXop => 0
  | PSimple v =>
      match v with
      | Lock | Repnz | Repz => 1
      | OverrideCS | OverrideSS | OverrideDS | OverrideES | OverrideFS | OverrideGS => 2
      | DataSizeOverride => 3
      | AddrSizeOverride => 4
      end
  | PRex _ => 5
  | POpcodeMap _ => I64_MAX
  end.
Definition is_excluded (prefix : Prefix) : bool := match prefix with PSimple p => excluded p | _ => false end.
Definition has_invalid_map (p : Prefix) : bool := match p with PVex3 vex3 => is_invalid (vex3_m vex3) | _ => false end.
(** LSS, LFS and LGS. *)
Definition loads_segment (map : option OpcodeMap) (b : list Z) : bool :=
  match map, b with
  | Some Map0F, b :: _ => bool_decide (b ∈ [0xB2; 0xB4; 0xB5])
  | _, _ => false
  end.
Definition is_instr_in_scope (b : list Z) : M bool :=
  '(prefixes, b) ← parse b;
  if existsb is_excluded prefixes then Ok false
  else if negb (is_sorted_by_key_and_unequal prefix_key prefixes) then Ok false
  else if existsb has_invalid_map prefixes then Ok false
  else Ok (negb (loads_segment (effective_opcode_map prefixes) b)).

(** ** The parser returns *)

Lemma parse_step_length instr p n c : parse_step instr = Some (p, n, c) → (1 <= n <= length instr)%nat.
Proof.
  destruct instr as [|b rest]; [done|]. cbn [parse_step length]. intros H.
  repeat case_match; simplify_eq/=; try discriminate; lia.
Qed.
Lemma push_prefix_ok l p : (length l < MAX_PREFIXES)%nat → push l p = Ok (l ++ [p]).
Proof. intros H. unfold push. by apply Nat.ltb_lt in H as ->. Qed.
(** The loop is over: the opcode map is known, or what is left has no prefix, or
    a VEX prefix is cut off. *)
Definition parse_done (ps : list Prefix) (rest : list Z) : Prop :=
  effective_opcode_map ps ≠ Some MapDefault ∨ parse_step rest = None.
Lemma effective_snoc ps p : effective_opcode_map (ps ++ [p]) = acc ← effective_opcode_map ps; map_after acc p.
Proof. unfold effective_opcode_map. by rewrite foldl_app. Qed.
Lemma incomplete_map instr p n : parse_step instr = Some (p, n, false) → ∀ acc, map_after acc p = Some Map0F.
Proof.
  destruct instr as [|b rest]; [done|]. cbn [parse_step]. intros H. repeat case_match; simplify_eq/=; try discriminate; done.
Qed.
Lemma parse_loop_ok fuel : ∀ ps instr, (length instr <= fuel)%nat → (length ps + length instr <= MAX_PREFIXES)%nat →
  ∃ qs k, parse_loop fuel ps instr = Ok (ps ++ qs, drop k instr) ∧ (length qs <= k <= length instr)%nat ∧
    parse_done (ps ++ qs) (drop k instr).
Proof.
  induction fuel as [|fuel IH]; intros ps instr Hf Hl; cbn [parse_loop].
  - destruct instr; [|cbn in Hf; lia]. exists [], 0%nat. rewrite app_nil_r. cbn.
    case_bool_decide; (split; [done|split; [lia|]]); [by right|by left].
  - case_bool_decide as Hm; [|exists [], 0%nat; rewrite app_nil_r; cbn; split; [done|split; [lia|by left]]].
    destruct (parse_step instr) as [[[p n] c]|] eqn:E; [|exists [], 0%nat; rewrite app_nil_r; cbn; split; [done|split; [lia|by right]]].
    pose proof (parse_step_length _ _ _ _ E) as Hn. rewrite push_prefix_ok, M_bind_Ok by lia. destruct c.
    + destruct (IH (ps ++ [p]) (drop n instr)) as (qs & k & -> & Hk & Hd); rewrite ?length_app, ?length_drop in *; cbn [length] in *; try lia.
      exists (p :: qs), (n + k)%nat. rewrite <- app_assoc, drop_drop in *. cbn [app length] in *. split_and!; [done|lia|lia|done].
    + exists [p], n. cbn [length]. split_and!; [done|lia|lia|]. left. rewrite effective_snoc, Hm. cbn.
      by rewrite (incomplete_map _ _ _ E).
Qed.

(** The prefixes of an instruction, which has at most 15 bytes, fit into the
    array: the parser returns a prefix for each of them, leaves a suffix of the
    instruction, and stops only where it should. *)
Theorem parse_total instr : (length instr <= MAX_PREFIXES)%nat →
  ∃ ps k, parse instr = Ok (ps, drop k instr) ∧ (length ps <= k <= length instr)%nat ∧ parse_done ps (drop k instr).
Proof. intros H. apply (parse_loop_ok (length instr) [] instr); [done|exact H]. Qed.
Lemma parse_total_witness : (length [0x40; 0xC5; 0x00; 0x48]%Z <= MAX_PREFIXES)%nat ∧
  ∃ ps k, parse [0x40; 0xC5; 0x00; 0x48] = Ok (ps, drop k [0x40; 0xC5; 0x00; 0x48]) ∧
    (length ps <= k <= 4)%nat ∧ parse_done ps (drop k [0x40; 0xC5; 0x00; 0x48]).
Proof. split; [cbn; unfold MAX_PREFIXES; lia|]. apply (parse_total [0x40; 0xC5; 0x00; 0x48]). cbn. unfold MAX_PREFIXES. lia. Defined.
(** Longer input overflows the array. *)
Lemma parse_overflows : parse (replicate 16 0x66) = Panic.
Proof. reflexivity. Qed.

(** ** Instructions in scope *)

Definition opt_list {T} (o : option T) : list T := match o with Some x => [x] | None => [] end.
(** At most one VEX or XOP prefix, one LOCK, one REX prefix and one opcode map,
    in this order; a VEX prefix with a known map. *)
Definition ordered_prefixes (ps : list Prefix) : Prop :=
  ∃ v l r m, ps = opt_list v ++ opt_list l ++ opt_list r ++ opt_list m ∧
    (∀ p, v = Some p → prefix_key p = 0 ∧ has_invalid_map p = false) ∧
    (∀ p, l = Some p → p = PSimple Lock) ∧
    (∀ p, r = Some p → ∃ rex, p = PRex rex) ∧
    (∀ p, m = Some p → ∃ map, p = POpcodeMap map).
(** Takes the head if its key is [k]. *)
Definition take_key (k : Z) (ps : list Prefix) : option Prefix * list Prefix :=
  match ps with
  | p :: rest => if prefix_key p =? k then (Some p, rest) else (None, ps)
  | [] => (None, [])
  end.
Lemma sorted_tail p ps : is_sorted_by_key_and_unequal prefix_key (p :: ps) = true →
  is_sorted_by_key_and_unequal prefix_key ps = true ∧ ∀ q, q ∈ ps → prefix_key p < prefix_key q.
Proof.
  revert p. induction ps as [|q ps IH]; intros p; [by split; [|intros q Hq; apply elem_of_nil in Hq]|].
  intros [H1 H2]%andb_true_iff. split; [exact H2|]. apply Z.ltb_lt in H1. destruct (IH q H2) as [_ H].
  intros r [->|Hr]%elem_of_cons; [done|]. specialize (H r Hr). lia.
Qed.
Lemma take_key_ok k ps o rest : is_sorted_by_key_and_unequal prefix_key ps = true →
  (∀ p, p ∈ ps → k <= prefix_key p) → take_key k ps = (o, rest) →
  ps = opt_list o ++ rest ∧ (∀ p, o = Some p → p ∈ ps ∧ prefix_key p = k) ∧
  is_sorted_by_key_and_unequal prefix_key rest = true ∧ ∀ p, p ∈ rest → p ∈ ps ∧ k < prefix_key p.
Proof.
  intros Hs Hk. destruct ps as [|p ps]; cbn [take_key].
  - intros [= <- <-]. split_and!; [done..|]. intros p Hp. by apply elem_of_nil in Hp.
  - destruct (sorted_tail p ps Hs) as [Hs' Hlt]. destruct (Z.eqb_spec (prefix_key p) k) as [E|E]; intros [= <- <-].
    + split_and!; [done|intros q [= <-]; split; [left|done]|done|]. intros q Hq. split; [by right|]. specialize (Hlt q Hq). lia.
    + split_and!; [done..|]. intros q Hq. split; [done|]. pose proof (Hk p ltac:(left)).
      apply elem_of_cons in Hq as [->|Hq]; [lia|]. specialize (Hlt q Hq). lia.
Qed.
Lemma existsb_false_elem {T} (f : T → bool) l : existsb f l = false ↔ ∀ x, x ∈ l → f x = false.
Proof.
  rewrite <- not_true_iff_false, existsb_exists. setoid_rewrite <- list_elem_of_In. split.
  - intros H x Hx. apply not_true_iff_false. intros Hf. apply H. by exists x.
  - intros H (x & Hx & Hf). by rewrite (H x Hx) in Hf.
Qed.
(** The keys of the prefixes that are not excluded. *)
Lemma key_cases p : is_excluded p = false →
  prefix_key p = 0 ∨ prefix_key p = 1 ∧ p = PSimple Lock ∨ prefix_key p = 5 ∧ (∃ rex, p = PRex rex) ∨
  prefix_key p = I64_MAX ∧ ∃ map, p = POpcodeMap map.
Proof. destruct p as [[]| | | | | | | |]; cbn; intros H; try discriminate H; eauto 10. Qed.
Lemma ordered_ok ps : (∀ p, p ∈ ps → is_excluded p = false) → (∀ p, p ∈ ps → has_invalid_map p = false) →
  is_sorted_by_key_and_unequal prefix_key ps = true → ordered_prefixes ps.
Proof.
  intros He Hi Hs. assert (∀ p, p ∈ ps → 0 <= prefix_key p) as H0.
  { intros p Hp. destruct (key_cases p (He p Hp)) as [->|[[-> _]|[[-> _]|[-> _]]]]; unfold I64_MAX; lia. }
  destruct (take_key 0 ps) as [v ps1] eqn:E1, (take_key 1 ps1) as [l ps2] eqn:E2, (take_key 5 ps2) as [r ps3] eqn:E3,
    (take_key I64_MAX ps3) as [m ps4] eqn:E4.
  destruct (take_key_ok 0 ps v ps1 Hs H0 E1) as (Ep1 & Hv & Hs1 & H1).
  destruct (take_key_ok 1 ps1 l ps2 Hs1 ltac:(intros p Hp; destruct (H1 p Hp); lia) E2) as (Ep2 & Hl & Hs2 & H2).
  assert (∀ p, p ∈ ps2 → 5 <= prefix_key p) as K2.
  { intros p Hp. destruct (H2 p Hp) as [Hp1 ?]. destruct (H1 p Hp1) as [Hp0 ?].
    destruct (key_cases p (He p Hp0)) as [?|[[? _]|[[? _]|[? _]]]]; unfold I64_MAX in *; lia. }
  destruct (take_key_ok 5 ps2 r ps3 Hs2 K2 E3) as (Ep3 & Hr & Hs3 & H3).
  assert (∀ p, p ∈ ps3 → p ∈ ps ∧ I64_MAX <= prefix_key p) as K3.
  { intros p Hp. destruct (H3 p Hp) as [Hp2 ?]. destruct (H2 p Hp2) as [Hp1 ?]. destruct (H1 p Hp1) as [Hp0 ?].
    destruct (key_cases p (He p Hp0)) as [?|[[? _]|[[? _]|[? _]]]]; unfold I64_MAX in *; (lia || by split; [|lia]). }
  destruct (take_key_ok I64_MAX ps3 m ps4 Hs3 ltac:(intros p Hp; by destruct (K3 p Hp)) E4) as (Ep4 & Hm & _ & H4).
  assert (ps4 = []) as ->.
  { destruct ps4 as [|p ps4]; [done|]. exfalso. destruct (H4 p ltac:(left)) as [Hp3 ?]. destruct (K3 p Hp3) as [Hp0 _].
    destruct (key_cases p (He p Hp0)) as [?|[[? _]|[[? _]|[? _]]]]; unfold I64_MAX in *; lia. }
  exists v, l, r, m. rewrite Ep1, Ep2, Ep3, Ep4, app_nil_r. split; [done|].
  assert (∀ p k, p ∈ ps → prefix_key p = k → k = 1 ∨ k = 5 ∨ k = I64_MAX →
    k = 1 ∧ p = PSimple Lock ∨ k = 5 ∧ (∃ rex, p = PRex rex) ∨ k = I64_MAX ∧ ∃ map, p = POpcodeMap map) as Hc.
  { intros p k Hp <- Hk. destruct (key_cases p (He p Hp)) as [E|H]; [unfold I64_MAX in *; lia|exact H]. }
  split_and!.
  - intros p Hp. destruct (Hv p Hp) as [Hin Hk]. split; [done|]. by apply Hi.
  - intros p Hp. destruct (Hl p Hp) as [Hin Hk]. destruct (H1 p Hin) as [Hin0 _].
    destruct (Hc p 1 Hin0 Hk) as [[_ ?]|[[? _]|[? _]]]; [by left|done|done|done].
  - intros p Hp. destruct (Hr p Hp) as [Hin Hk]. destruct (H2 p Hin) as [Hin1 _]. destruct (H1 p Hin1) as [Hin0 _].
    destruct (Hc p 5 Hin0 Hk) as [[? _]|[[_ ?]|[? _]]]; [by right; left|done|done|done].
  - intros p Hp. destruct (Hm p Hp) as [Hin Hk]. destruct (K3 p Hin) as [Hin0 _].
    destruct (Hc p I64_MAX Hin0 Hk) as [[? _]|[[? _]|[_ ?]]]; [by right; right|done|done|done].
Qed.
Lemma ordered_sound ps : ordered_prefixes ps →
  existsb is_excluded ps = false ∧ is_sorted_by_key_and_unequal prefix_key ps = true ∧ existsb has_invalid_map ps = false.
Proof.
  intros (v & l & r & m & -> & Hv & Hl & Hr & Hm).
  assert (∀ p, prefix_key p = 0 → is_excluded p = false) as Hx by by intros [[]| | | | | | | |].
  destruct v as [v|], l as [l|], r as [r|], m as [m|];
    try (destruct (Hv _ eq_refl) as [Hk Hinv]); try (rewrite (Hl _ eq_refl)); try (destruct (Hr _ eq_refl) as [? ->]);
    try (destruct (Hm _ eq_refl) as [? ->]); cbn; rewrite ?Hk, ?Hinv, ?(Hx v Hk); done.
Qed.

(** C33: An instruction is in scope exactly when its prefixes are at most one VEX or
    XOP prefix, one LOCK, one REX prefix and one opcode map, in this order, and
    it does not load a segment register. *)
Theorem in_scope_iff b : (length b <= MAX_PREFIXES)%nat → is_instr_in_scope b = Ok true ↔
  ∃ ps rest, parse b = Ok (ps, rest) ∧ ordered_prefixes ps ∧ loads_segment (effective_opcode_map ps) rest = false.
Proof.
  intros Hb. destruct (parse_loop_ok (length b) [] b) as (ps & k & E & _); [done|exact Hb|]. change (parse b = Ok (ps, drop k b)) in E.
  unfold is_instr_in_scope. rewrite E, M_bind_Ok. split.
  - intros H. exists ps, (drop k b). split; [done|].
    destruct (existsb is_excluded ps) eqn:He; [done|]. destruct (is_sorted_by_key_and_unequal prefix_key ps) eqn:Hs; [|done].
    destruct (existsb has_invalid_map ps) eqn:Hi; [done|]. cbn [negb] in H. injection H as H%negb_true_iff. split; [|exact H].
    apply ordered_ok; [by apply existsb_false_elem|by apply existsb_false_elem|done].
  - intros (qs & rest & [= <- <-] & Ho & Hl). destruct (ordered_sound ps Ho) as (-> & -> & ->). cbn [negb]. by rewrite Hl.
Qed.
Lemma in_scope_iff_witness : (length [0xF0; 0x48; 0x0F; 0xAF]%Z <= MAX_PREFIXES)%nat ∧
  (is_instr_in_scope [0xF0; 0x48; 0x0F; 0xAF] = Ok true ↔
   ∃ ps rest, parse [0xF0; 0x48; 0x0F; 0xAF] = Ok (ps, rest) ∧ ordered_prefixes ps ∧
     loads_segment (effective_opcode_map ps) rest = false).
Proof. split; [cbn; unfold MAX_PREFIXES; lia|]. apply in_scope_iff. cbn. unfold MAX_PREFIXES. lia. Defined.
Example scope_examples : is_instr_in_scope [0xF0; 0x48; 0x0F; 0xAF] = Ok true ∧ is_instr_in_scope [0x48; 0xF0; 0x01] = Ok false ∧
  is_instr_in_scope [0x66; 0x90] = Ok false ∧ is_instr_in_scope [0x0F; 0xB2] = Ok false ∧
  is_instr_in_scope [0xC4; 0x00; 0x67; 0x00] = Ok false.
Proof. done. Qed.

(** The two bits [pp] of a VEX prefix stand for 66, F3 and F2; the parser reads
    them as F0, F2 and F3. *)
Theorem vex_pp_names c : simple_prefix 0xF3 = Some Repz ∧ simple_prefix 0xF2 = Some Repnz ∧
  (Z.land c 3 = 1 → vex2_p (parse_vex2 c) = Some Lock) ∧ (Z.land c 3 = 2 → vex2_p (parse_vex2 c) = Some Repnz) ∧
  (Z.land c 3 = 3 → vex2_p (parse_vex2 c) = Some Repz).
Proof. unfold parse_vex2, vex_p. cbn. split_and!; [done..|by intros ->|by intros ->|by intros ->]. Qed.
End Prefixes.
