(* ===== verification/DeltaVec.v ===== *)
(** * Vectors of differences

    Models [liblisa-synth/src/utils/delta_vec.rs]: an increasing sequence of
    [u64]s, kept as the first element and the differences in words of 16 bits.  A
    difference of more than one word has a zero in front for each word after the
    first.  The items of the trait [DeltaVecItem] are taken by their [u64]s.

    The vector refines the list of its items: pushing appends, iteration returns
    the items. *)
From S2P Require Import Prelude MachInt Utils.

Module DeltaVec.
Record DeltaVec := { data : list Z; first_value : Z; last_value : Z; len : Z }.
Definition new : DeltaVec := {| data := []; first_value := 0; last_value := 0; len := 0 |}.
Definition is_empty (self : DeltaVec) : bool := len self =? 0.
Definition first (self : DeltaVec) : option Z := if is_empty self then None else Some (first_value self).
(** The words that are pushed for a difference. *)
Definition delta_size (delta : Z) : nat :=
  if Z.shiftr delta 32 =? 0 then 2 else if Z.shiftr delta 48 =? 0 then 3 else 4.
Definition delta_words (delta : Z) : list Z :=
  if delta <? 2 ^ 16 then [delta]
  else
    let size := delta_size delta in
    replicate (size - 1) 0 ++ ((λ n : nat, wrap 16 (Z.shiftr delta (Z.of_nat n * 16))) <$> reverse (seq 0 size)).

Section ops.
Context {P : profile}.
Definition push (self : DeltaVec) (item : Z) : M DeltaVec :=
  if is_empty self then
    n ← add_u 64 (len self) 1;
    Ok {| data := data self; first_value := item; last_value := item; len := n |}
  else
    delta ← sub_u 64 item (last_value self);
    n ← add_u 64 (len self) 1;
    assert! 0 <? delta;
    Ok {| data := data self ++ delta_words delta; first_value := first_value self; last_value := item; len := n |}.
Definition extend (self : DeltaVec) (items : list Z) : M DeltaVec :=
  foldl (λ v item, v ← v; push v item) (Ok self) items.
Definition from_iter (items : list Z) : M DeltaVec := extend new items.

(** [loop]: counts the zeros up to the first word. *)
Fixpoint skip_zeros (iter : list Z) (count : nat) : M (Z * nat * list Z) :=
  match iter with
  | [] => Panic
  | n :: iter => if n =? 0 then skip_zeros iter (S count) else Ok (n, count, iter)
  end.
(** [while len > 0]. *)
Fixpoint read_words (count : nat) (delta : Z) (iter : list Z) : M (Z * list Z) :=
  match count with
  | O => Ok (delta, iter)
  | S count =>
      match iter with
      | [] => Panic
      | n :: iter => read_words count (Z.lor (wrap 64 (Z.shiftl delta 16)) n) iter
      end
  end.
Definition read_single_delta (iter : list Z) : M (option (Z * list Z)) :=
  match iter with
  | [] => Ok None
  | n :: iter =>
      if negb (n =? 0) then Ok (Some (n, iter))
      else
        '(n, count, iter) ← skip_zeros iter 1;
        x ← read_words count n iter;
        Ok (Some x)
  end.
(** [Iter]: what it yields from [current] on; every item but the first takes a
    word. *)
Fixpoint iter_from (fuel : nat) (current : Z) (iter : list Z) : M (list Z) :=
  x ← read_single_delta iter;
  match x with
  | None => Ok [current]
  | Some (delta, iter) =>
      match fuel with
      | O => OutOfFuel
      | S fuel =>
          next ← add_u 64 current delta;
          rest ← iter_from fuel next iter;
          Ok (current :: rest)
      end
  end.
Definition iter (self : DeltaVec) : M (list Z) :=
  if is_empty self then Ok [] else iter_from (length (data self)) (first_value self) (data self).
(** [drain], run to its end: the items, and what is left. *)
Definition drain (self : DeltaVec) : M (list Z * DeltaVec) :=
  items ← iter self;
  Ok (items, {| data := []; first_value := first_value self; last_value := last_value self; len := len self |}).
Definition retain (self : DeltaVec) (f : Z → bool) : M DeltaVec :=
  '(items, _) ← drain self; extend new (List.filter f items).
End ops.

(** ** Words of a difference *)

Lemma join_words x : is_u 64 x → Z.lor (wrap 64 (Z.shiftl (Z.shiftr x 16) 16)) (wrap 16 x) = x.
Proof.
  intros Hx. apply Z.bits_inj'; intros i Hi. rewrite Z.lor_spec, !testbit_wrap, Z.shiftl_spec by lia.
  destruct (Z.lt_ge_cases i 16).
  - rewrite (Z.testbit_neg_r _ (i - 16)) by lia. rewrite andb_false_r. by destruct (Z.ltb_spec i 16); [|lia].
  - rewrite Z.shiftr_spec by lia. replace (i - 16 + 16) with i by lia. destruct (Z.ltb_spec i 16); [lia|]. rewrite orb_false_r.
    destruct (Z.ltb_spec i 64); [done|]. by rewrite (testbit_u_high 64) by (done || lia).
Qed.
(** Word [k] of a difference and what is above it. *)
Definition high (delta : Z) (k : nat) : Z := Z.shiftr delta (Z.of_nat k * 16).
Lemma high_S delta k : Z.shiftr (high delta k) 16 = high delta (S k).
Proof. unfold high. rewrite Z.shiftr_shiftr by lia. f_equal. lia. Qed.
Lemma high_u delta k : is_u 64 delta → is_u 64 (high delta k).
Proof. intros H. apply is_u_shiftr; [done|lia|done]. Qed.
(** [k] words rebuild what they were taken from. *)
Lemma read_words_ok delta rest k : is_u 64 delta →
  read_words k (high delta k) (((λ n, wrap 16 (high delta n)) <$> reverse (seq 0 k)) ++ rest) = Ok (delta, rest).
Proof.
  intros Hd. induction k as [|k IH]; [unfold high; cbn; by rewrite Z.shiftr_0_r|].
  rewrite seq_S, reverse_app. cbn [reverse rev_append app fmap list_fmap read_words Nat.add].
  change ([k] ++ reverse (seq 0 k)) with (k :: reverse (seq 0 k)). cbn [fmap list_fmap app].
  rewrite <- (high_S delta k), join_words by by apply high_u. exact IH.
Qed.
Lemma skip_zeros_ok k count n rest : n ≠ 0 → skip_zeros (replicate k 0 ++ n :: rest) count = Ok (n, (k + count)%nat, rest).
Proof.
  intros Hn. revert count. induction k as [|k IH]; intros count; cbn.
  - by destruct (Z.eqb_spec n 0).
  - rewrite IH. do 3 f_equal. lia.
Qed.
Lemma delta_size_ok delta : 2 ^ 16 <= delta < 2 ^ 64 → ∃ k, delta_size delta = S (S k) ∧ 0 < high delta (S k) < 2 ^ 16.
Proof.
  intros Hd. unfold delta_size, high. destruct (Z.eqb_spec (Z.shiftr delta 32) 0) as [E|E]; [exists 0%nat|
    destruct (Z.eqb_spec (Z.shiftr delta 48) 0) as [E2|E2]; [exists 1%nat|exists 2%nat]]; (split; [done|]);
    rewrite Z.shiftr_div_pow2 in * by done; change (Z.of_nat _ * 16) with 16 || change (Z.of_nat _ * 16) with 32 || change (Z.of_nat _ * 16) with 48;
    Z.to_euclidean_division_equations; lia.
Qed.
(** A difference is read back from its words. *)
Lemma delta_words_ok delta rest : 0 < delta < 2 ^ 64 →
  read_single_delta (delta_words delta ++ rest) = Ok (Some (delta, rest)).
Proof.
  intros Hd. unfold delta_words. destruct (Z.ltb_spec delta (2 ^ 16)) as [Hs|Hs].
  { cbn. destruct (Z.eqb_spec delta 0); [lia|done]. }
  destruct (delta_size_ok delta ltac:(lia)) as (k & -> & Htop). cbn [Nat.sub].
  rewrite seq_S, reverse_app. change (reverse [(0 + S k)%nat] ++ reverse (seq 0 (S k))) with (S k :: reverse (seq 0 (S k))).
  cbn [fmap list_fmap]. rewrite <- app_assoc. cbn [app replicate read_single_delta].
  rewrite Z.eqb_refl. cbn [negb].
  change (wrap 16 (Z.shiftr delta (Z.of_nat (S k) * 16))) with (wrap 16 (high delta (S k))).
  rewrite (wrap_small 16 (high delta (S k))) by (unfold is_u; lia). 
  rewrite (skip_zeros_ok k 1), M_bind_Ok by lia. cbv beta iota.
  rewrite Nat.add_1_r. pose proof (read_words_ok delta rest (S k) ltac:(unfold is_u; lia)) as E. unfold high in E at 2.
  unfold high. unfold high in E. rewrite E. reflexivity.
Qed.

(** ** Refinement of a list *)

(** Increasing [u64]s. *)
Fixpoint increasing (last : Z) (l : list Z) : Prop :=
  match l with [] => True | x :: l => last < x < 2 ^ 64 ∧ increasing x l end.
Fixpoint encode (last : Z) (l : list Z) : list Z :=
  match l with [] => [] | x :: l => delta_words (x - last) ++ encode x l end.
(** The vector holds the items. *)
Definition holds (v : DeltaVec) (l : list Z) : Prop :=
  len v = Z.of_nat (length l) ∧ Z.of_nat (length l) < 2 ^ 64 ∧
  match l with
  | [] => data v = []
  | x :: l => 0 <= x < 2 ^ 64 ∧ increasing x l ∧ first_value v = x ∧ last_value v = List.last l x ∧ data v = encode x l
  end.
Lemma last_cons_eq (l : list Z) y d : List.last (y :: l) d = List.last l y.
Proof. revert y d. induction l as [|z l IH]; intros y d; [done|]. change (List.last (z :: l) d = List.last (z :: l) y). by rewrite !IH. Qed.
Lemma increasing_app last l x : increasing last (l ++ [x]) ↔ increasing last l ∧ List.last l last < x < 2 ^ 64.
Proof.
  revert last. induction l as [|y l IH]; intros last; cbn [app increasing]; [cbn; tauto|].
  rewrite IH, last_cons_eq. tauto.
Qed.
Lemma encode_app last l x : encode last (l ++ [x]) = encode last l ++ delta_words (x - List.last l last).
Proof.
  revert last. induction l as [|y l IH]; intros last; cbn [app encode]; [by rewrite app_nil_r|].
  by rewrite IH, <- app_assoc, last_cons_eq.
Qed.
Lemma increasing_last_range x l : 0 <= x < 2 ^ 64 → increasing x l → x <= List.last l x < 2 ^ 64.
Proof.
  revert x. induction l as [|y l IH]; intros x Hx; cbn [increasing]; [cbn; lia|]. intros [Hy Hl].
  specialize (IH y ltac:(lia) Hl). rewrite last_cons_eq. lia.
Qed.
Lemma delta_words_nonempty d : d < 2 ^ 16 ∨ 0 <= d → (0 < length (delta_words d))%nat.
Proof.
  intros _. unfold delta_words. destruct (d <? 2 ^ 16); [cbn; lia|]. unfold delta_size.
  destruct (_ =? 0); [cbn; lia|]. destruct (_ =? 0); cbn; lia.
Qed.

Section refinement.
Context {P : profile}.
Lemma iter_from_ok l : ∀ fuel x, (length l <= fuel)%nat → 0 <= x < 2 ^ 64 → increasing x l →
  iter_from fuel x (encode x l) = Ok (x :: l).
Proof.
  induction l as [|y l IH]; intros fuel x Hf Hx Hi; cbn [encode increasing] in *; [by destruct fuel|].
  destruct Hi as [Hy Hi]. destruct fuel as [|fuel]; [cbn in Hf; lia|]. cbn [iter_from].
  rewrite delta_words_ok, M_bind_Ok by lia. cbv beta iota. rewrite add_u_ok, M_bind_Ok by (unfold is_u; lia).
  replace (x + (y - x)) with y by lia. cbn in Hf. by rewrite IH by (done || lia).
Qed.
Lemma encode_length x l : (length l <= length (encode x l))%nat.
Proof.
  revert x. induction l as [|y l IH]; intros x; cbn [encode length]; [lia|]. rewrite length_app.
  specialize (IH y). pose proof (delta_words_nonempty (y - x) ltac:(lia)). lia.
Qed.
Lemma iter_holds v l : holds v l → iter v = Ok l.
Proof.
  intros (Hn & _ & Hl). unfold iter, is_empty. rewrite Hn. destruct l as [|x l]; [done|].
  destruct (Z.eqb_spec (Z.of_nat (length (x :: l))) 0); [done|]. destruct Hl as (Hx & Hi & -> & _ & ->).
  apply iter_from_ok; [apply encode_length|done|done].
Qed.
Lemma push_holds v l x : holds v l → Z.of_nat (length l) + 1 < 2 ^ 64 → increasing (-1) (l ++ [x]) →
  ∃ v', push v x = Ok v' ∧ holds v' (l ++ [x]).
Proof.
  intros (Hn & Hlen & Hl) Hlen' Hi. unfold push, is_empty. rewrite Hn. destruct l as [|y l].
  - cbn [app length Z.of_nat]. rewrite Z.eqb_refl, add_u_ok, M_bind_Ok by (unfold is_u; lia).
    eexists. split; [reflexivity|]. cbn in Hi. split_and!; cbn; (done || lia).
  - cbn [app increasing] in Hi. destruct Hi as [Hy [Hi Hx]%increasing_app], Hl as (Hy' & Hi' & Hf & Hlast & Hd).
    pose proof (increasing_last_range y l Hy' Hi').
    destruct (Z.eqb_spec (Z.of_nat (length (y :: l))) 0); [done|]. rewrite Hlast.
    rewrite sub_u_ok, M_bind_Ok, add_u_ok, M_bind_Ok by (unfold is_u; lia).
    rewrite (proj2 (Z.ltb_lt 0 _)) by lia. cbn [rassert]. rewrite M_bind_Ok. eexists. split; [reflexivity|].
    unfold holds. cbn [app len data first_value last_value]. rewrite !app_comm_cons, length_app. cbn [length] in *.
    split_and!; [lia|lia|lia|lia|by apply increasing_app|done|by rewrite List.last_last|by rewrite encode_app, Hd].
Qed.
Lemma extend_holds v l k : holds v l → Z.of_nat (length l + length k) < 2 ^ 64 → increasing (-1) (l ++ k) →
  ∃ v', extend v k = Ok v' ∧ holds v' (l ++ k).
Proof.
  unfold extend. revert v l. induction k as [|x k IH]; intros v l Hv Hn Hi; cbn [foldl].
  - rewrite app_nil_r. by exists v.
  - cbn [length] in Hn. rewrite (cons_middle x l k), app_assoc in Hi |- *.
    destruct (push_holds v l x Hv ltac:(lia)) as (v1 & E1 & H1).
    { clear -Hi. revert Hi. generalize (l ++ [x]) as q, (-1) as b. intros q. induction q as [|y q IHq]; intros b; cbn; [done|]. naive_solver. }
    rewrite M_bind_Ok, E1. apply IH; [done| |done]. rewrite length_app. cbn. lia.
Qed.
Lemma new_vec_holds : holds new [].
Proof. done. Qed.
Lemma increasing_filter b l f : increasing b l → increasing b (List.filter f l).
Proof.
  revert b. induction l as [|x l IH]; intros b; cbn [increasing List.filter]; [done|]. intros [Hx Hl].
  destruct (f x); [split; [done|by apply IH]|]. specialize (IH x Hl). clear Hl. destruct (List.filter f l); [done|]. cbn [increasing] in *. split; [lia|apply IH].
Qed.
End refinement.

(** C31: Collecting increasing [u64]s and iterating gives them back; the length and
    the first element are right, and [retain] keeps the items that satisfy the
    predicate. *)
Theorem delta_vec_refines {P : profile} l f : increasing (-1) l → Z.of_nat (length l) < 2 ^ 64 →
  ∃ v w, from_iter l = Ok v ∧ iter v = Ok l ∧ len v = Z.of_nat (length l) ∧ first v = head l ∧
    retain v f = Ok w ∧ iter w = Ok (List.filter f l).
Proof.
  intros Hi Hn. destruct (extend_holds new [] l new_vec_holds Hn Hi) as (v & E & Hv). cbn [app] in Hv.
  destruct (extend_holds new [] (List.filter f l) new_vec_holds) as (w & Ew & Hw).
  { cbn. pose proof (List.filter_length_le f l). lia. }
  { cbn. by apply increasing_filter. }
  exists v, w. split_and!; [exact E|by apply iter_holds|apply Hv| | |by apply iter_holds].
  - destruct Hv as (Hlen & _ & Hl). unfold first, is_empty. rewrite Hlen. destruct l as [|x l]; [done|].
    destruct (Z.eqb_spec (Z.of_nat (length (x :: l))) 0); [done|]. cbn. f_equal. apply Hl.
  - unfold retain, drain. rewrite (iter_holds v l Hv), !M_bind_Ok. exact Ew.
Qed.
Lemma delta_vec_refines_witness : (increasing (-1) [0x123; 0x125; 0x777; 0x123432100777] ∧ Z.of_nat 4 < 2 ^ 64) ∧
  ∃ v w, from_iter (P:=Dev) [0x123; 0x125; 0x777; 0x123432100777] = Ok v ∧
    iter (P:=Dev) v = Ok [0x123; 0x125; 0x777; 0x123432100777] ∧ len v = 4 ∧ first v = Some 0x123 ∧
    retain (P:=Dev) v Z.even = Ok w ∧ iter (P:=Dev) w = Ok [].
Proof.
  assert (increasing (-1) [0x123; 0x125; 0x777; 0x123432100777]) as Hi by (cbn; lia).
  split; [by split|]. exact (delta_vec_refines (P:=Dev) [0x123; 0x125; 0x777; 0x123432100777] Z.even Hi ltac:(done)).
Defined.
(** Draining leaves the first element and the length behind: the vector is not
    empty, and yields its first element again. *)
Theorem drain_keeps_first : ∃ v w, from_iter (P:=Dev) [1; 5] = Ok v ∧ drain (P:=Dev) v = Ok ([1; 5], w) ∧
  is_empty w = false ∧ len w = 2 ∧ iter (P:=Dev) w = Ok [1].
Proof. eexists _, _. split; [reflexivity|]. split; [reflexivity|]. done. Qed.
End DeltaVec.
