(* ===== verification/WriteOrder.v ===== *)
(** * The order of writes

    Models [resolve_order] of [liblisa-synth/src/write_order.rs]: outputs that
    overlap are ordered by observations that one of them overwrites another.  The
    observations are a [HashSet], whose iteration order is not defined: they are a
    list here, and the result is shown not to depend on its order. *)
From S2P Require Import Prelude Instantiate.

Module WriteOrder.
(** [After(a, b)]: [a] is written after [b]. *)
Definition After : Type := nat * nat.
Definition min_by_key {T} (key : T → nat) (l : list T) : option T :=
  foldl (λ acc x, match acc with None => Some x | Some a => if (key x <? key a)%nat then Some x else acc end) None l.
Definition is_after (order : list After) (output_index : nat) : bool :=
  existsb (λ v, (v.1 =? output_index)%nat) order.
Fixpoint resolve_loop (fuel : nat) (order : list After) (output_indices result : list nat) : M (option (list nat)) :=
  match min_by_key snd (List.filter (λ p : nat * nat, negb (is_after order p.2)) (imap pair output_indices)) with
  | None => Ok (if bool_decide (output_indices = []) then Some result else None)
  | Some (next_index, _) =>
      match fuel with
      | O => OutOfFuel
      | S fuel =>
          next ← vget output_indices next_index;
          resolve_loop fuel (List.filter (λ v, negb (v.1 =? next)%nat && negb (v.2 =? next)%nat) order)
            (delete next_index output_indices) (result ++ [next])
      end
  end.
Definition mentioned (order : list After) : list nat := unique [] (order ≫= λ x, [x.1; x.2]).
Definition resolve_order (order : list After) : M (option (list nat)) :=
  let output_indices := mentioned order in resolve_loop (length output_indices) order output_indices [].

(** ** The pieces *)

Lemma elem_of_unique {T} `{EqDecision T} (seen l : list T) x : x ∈ unique seen l ↔ x ∈ l ∧ x ∉ seen.
Proof.
  revert seen. induction l as [|y l IH]; intros seen; cbn [unique]; [set_solver|].
  case_bool_decide; [rewrite IH; set_solver|]. rewrite elem_of_cons, IH. destruct (decide (x = y)); set_solver.
Qed.
Lemma unique_NoDup {T} `{EqDecision T} (seen l : list T) : NoDup (unique seen l).
Proof.
  revert seen. induction l as [|y l IH]; intros seen; cbn [unique]; [constructor|].
  case_bool_decide; [apply IH|]. constructor; [|apply IH]. rewrite elem_of_unique. set_solver.
Qed.
Lemma elem_of_mentioned order x : x ∈ mentioned order ↔ ∃ v, v ∈ order ∧ (v.1 = x ∨ v.2 = x).
Proof. unfold mentioned. rewrite elem_of_unique, list_elem_of_bind. set_solver. Qed.
Lemma min_by_key_spec {T} (key : T → nat) l : match min_by_key key l with
  | Some x => x ∈ l ∧ ∀ y, y ∈ l → (key x <= key y)%nat
  | None => l = []
  end.
Proof.
  unfold min_by_key. induction l as [|y l IH] using rev_ind; [done|]. rewrite foldl_app. cbn [foldl].
  destruct (foldl _ None l) as [x|].
  - destruct IH as [Hx Hl]. destruct (Nat.ltb_spec (key y) (key x)).
    + split; [set_solver|]. intros z Hz; apply elem_of_app in Hz as [Hz|Hz%list_elem_of_singleton]; [|subst z]; [specialize (Hl z Hz); lia|lia].
    + split; [set_solver|]. intros z Hz; apply elem_of_app in Hz as [Hz|Hz%list_elem_of_singleton]; [|subst z]; [by apply Hl|lia].
  - subst l. split; [set_solver|]. intros z Hz%list_elem_of_singleton. by subst z.
Qed.
Lemma is_after_true order x : is_after order x = true ↔ ∃ y, (x, y) ∈ order.
Proof.
  unfold is_after. rewrite existsb_exists. setoid_rewrite <- list_elem_of_In. split.
  - intros ([a b] & Hv & E). apply Nat.eqb_eq in E. cbn in E. subst. by exists b.
  - intros (y & Hy). exists (x, y). split; [done|]. apply Nat.eqb_refl.
Qed.
(** The choice of one iteration: the least index that is after no other. *)
Definition free_index (order : list After) (indices : list nat) (x : nat) : Prop :=
  x ∈ indices ∧ is_after order x = false.
Lemma choice_spec order indices :
  match min_by_key snd (List.filter (λ p : nat * nat, negb (is_after order p.2)) (imap pair indices)) with
  | Some (i, x) => indices !! i = Some x ∧ free_index order indices x ∧ ∀ y, free_index order indices y → (x <= y)%nat
  | None => ∀ y, ¬ free_index order indices y
  end.
Proof.
  assert (∀ i x, (i, x) ∈ List.filter (λ p : nat * nat, negb (is_after order p.2)) (imap pair indices) ↔
    indices !! i = Some x ∧ is_after order x = false) as Hf.
  { intros i x. rewrite list_elem_of_In, List.filter_In, <- list_elem_of_In, negb_true_iff. cbn.
    rewrite elem_of_lookup_imap. split; [|intros [H1 H2]; split; [by exists i, x|done]].
    intros [(j & y & [= -> ->] & H1) H2]. done. }
  pose proof (min_by_key_spec snd (List.filter (λ p : nat * nat, negb (is_after order p.2)) (imap pair indices))) as H.
  destruct (min_by_key _ _) as [[i x]|].
  - destruct H as [[Hi Hx]%Hf Hmin]. split; [done|]. split; [split; [by eapply list_elem_of_lookup_2|done]|].
    intros y [[j Hj]%list_elem_of_lookup_1 Hy]. apply (Hmin (j, y)). by apply Hf.
  - intros y [[j Hj]%list_elem_of_lookup_1 Hy]. assert ((j, y) ∈ @nil (nat * nat)) as Hn; [|by apply elem_of_nil in Hn].
    rewrite <- H. by apply Hf.
Qed.
Lemma retain_spec order next a b :
  (a, b) ∈ List.filter (λ v, negb (v.1 =? next)%nat && negb (v.2 =? next)%nat) order ↔ (a, b) ∈ order ∧ a ≠ next ∧ b ≠ next.
Proof.
  rewrite list_elem_of_In, List.filter_In, <- list_elem_of_In, andb_true_iff, !negb_true_iff, !Nat.eqb_neq. done.
Qed.

(** ** The loop *)

(** [b] is in front of [a]. *)
Definition before (r : list nat) (b a : nat) : Prop := ∃ i j, r !! i = Some b ∧ r !! j = Some a ∧ (i < j)%nat.
Lemma before_app r k b a : before r b a → before (r ++ k) b a.
Proof. intros (i & j & Hi & Hj & Hlt). exists i, j. split_and!; [by apply lookup_app_l_Some..|done]. Qed.
Lemma before_last r b a : b ∈ r → before (r ++ [a]) b a.
Proof.
  intros [i Hi]%list_elem_of_lookup_1. exists i, (length r). split_and!; [by apply lookup_app_l_Some| |by eapply lookup_lt_Some].
  rewrite lookup_app_r, Nat.sub_diag by lia. done.
Qed.
(** Some outputs that are each written after another one of them. *)
Definition cyclic (order : list After) (s : list nat) : Prop :=
  s ≠ [] ∧ ∀ a, a ∈ s → ∃ b, b ∈ s ∧ (a, b) ∈ order.
Definition loop_inv (all order : list After) (indices result : list nat) : Prop :=
  NoDup (result ++ indices) ∧ (∀ x, x ∈ result ++ indices ↔ x ∈ mentioned all) ∧
  (∀ a b, (a, b) ∈ order ↔ (a, b) ∈ all ∧ a ∉ result ∧ b ∉ result) ∧
  ∀ a b, (a, b) ∈ all → a ∈ result → before result b a.
Definition resolved (all : list After) (o : option (list nat)) : Prop :=
  match o with
  | Some r => NoDup r ∧ (∀ x, x ∈ r ↔ x ∈ mentioned all) ∧ ∀ a b, (a, b) ∈ all → before r b a
  | None => ∃ s, cyclic all s
  end.
Lemma delete_perm (l : list nat) i x : l !! i = Some x → l ≡ₚ x :: delete i l.
Proof. apply delete_Permutation. Qed.
Lemma loop_step all order indices result i next : loop_inv all order indices result → indices !! i = Some next →
  is_after order next = false →
  loop_inv all (List.filter (λ v, negb (v.1 =? next)%nat && negb (v.2 =? next)%nat) order) (delete i indices) (result ++ [next]).
Proof.
  intros (Hnd & Hall & Ho & Hb) Hi Hn. pose proof (delete_perm _ _ _ Hi) as Hp.
  assert (result ++ indices ≡ₚ (result ++ [next]) ++ delete i indices) as Hp2 by (rewrite <- app_assoc; by rewrite Hp at 1).
  assert (next ∉ result) as Hnr.
  { apply NoDup_app in Hnd as (_ & Hd & _). intros Hr. apply (Hd next Hr). by eapply list_elem_of_lookup_2. }
  split_and!.
  - by rewrite <- Hp2.
  - intros x. rewrite <- Hall. by rewrite Hp2.
  - intros a b. rewrite retain_spec, Ho. set_solver.
  - intros a b Hab [Ha|Ha%list_elem_of_singleton]%elem_of_app; [by apply before_app, Hb|]. subst a. apply before_last.
    destruct (decide (b ∈ result)) as [|Hbr]; [done|]. exfalso.
    assert (is_after order next = true) as Ht by (apply is_after_true; exists b; by apply Ho). by rewrite Ht in Hn.
Qed.
Lemma resolve_loop_ok all fuel : ∀ order indices result, loop_inv all order indices result → (length indices <= fuel)%nat →
  ∃ o, resolve_loop fuel order indices result = Ok o ∧ resolved all o.
Proof.
  induction fuel as [|fuel IH]; intros order indices result Hinv Hf; cbn [resolve_loop]; pose proof (choice_spec order indices) as Hc;
    destruct (min_by_key _ _) as [[i next]|].
  - destruct Hc as [Hi _]. apply lookup_lt_Some in Hi. lia.
  - destruct indices; [|cbn in Hf; lia]. cbn. eexists. split; [done|]. destruct Hinv as (Hnd & Hall & Ho & Hb).
    rewrite app_nil_r in *. split_and!; [done|done|]. intros a b Hab. apply Hb; [done|]. apply Hall, elem_of_mentioned. exists (a, b). set_solver.
  - destruct Hc as (Hi & [_ Hn] & _). unfold vget. rewrite Hi. cbn [unwrap]. rewrite M_bind_Ok.
    apply IH; [by apply loop_step|]. rewrite length_delete by by eexists. apply lookup_lt_Some in Hi. lia.
  - destruct Hinv as (Hnd & Hall & Ho & Hb). case_bool_decide as Hnil; (eexists; split; [done|]).
    + subst indices. rewrite app_nil_r in *. split_and!; [done|done|]. intros a b Hab. apply Hb; [done|].
      apply Hall, elem_of_mentioned. exists (a, b). set_solver.
    + exists indices. split; [done|]. intros a Ha. destruct (is_after order a) eqn:E; [|by destruct (Hc a)].
      apply is_after_true in E as (b & Hab). exists b. apply Ho in Hab as (Hab & _ & Hbr). split; [|done].
      assert (b ∈ result ++ indices) as [?|?]%elem_of_app; [|done..]. apply Hall, elem_of_mentioned. exists (a, b). set_solver.
Qed.

(** C34: [resolve_order] returns.  If it finds an order, that holds every output of the
    observations once, each after the outputs it overwrites; if it does not, the
    observations are cyclic. *)
Theorem resolve_order_spec order : ∃ o, resolve_order order = Ok o ∧ resolved order o.
Proof.
  unfold resolve_order. apply resolve_loop_ok; [|done]. split_and!; cbn [app].
  - apply unique_NoDup.
  - done.
  - set_solver.
  - intros a b _ Ha. by apply elem_of_nil in Ha.
Qed.
(** An order excludes cycles, so the two cases exclude each other. *)
Lemma resolved_acyclic order r s : resolved order (Some r) → ¬ cyclic order s.
Proof.
  intros (Hnd & _ & Hb) [Hne Hs].
  assert (∀ n a i, a ∈ s → r !! i = Some a → (i < n)%nat → False) as H.
  { induction n as [|n IH]; intros a i Ha Hi Hlt; [lia|]. destruct (Hs a Ha) as (b & Hbs & Hab).
    destruct (Hb a b Hab) as (j & k & Hj & Hk & Hjk). rewrite (NoDup_lookup r i k a Hnd Hi Hk) in Hlt.
    apply (IH b j Hbs Hj). lia. }
  destruct s as [|a s]; [done|]. destruct (Hs a ltac:(left)) as (b & Hbs & Hab). destruct (Hb a b Hab) as (j & k & Hj & Hk & Hjk).
  apply (H (S j) b j Hbs Hj). lia.
Qed.

(** ** Independence of the iteration order *)

Lemma resolve_loop_ext fuel : ∀ order order' indices indices' result,
  (∀ v, v ∈ order ↔ v ∈ order') → indices ≡ₚ indices' → NoDup indices →
  resolve_loop fuel order indices result = resolve_loop fuel order' indices' result.
Proof.
  induction fuel as [|fuel IH]; intros order order' indices indices' result Ho Hp Hnd; cbn [resolve_loop].
  all: assert (∀ x, is_after order x = is_after order' x) as Ha
    by (intros x; apply eq_true_iff_eq; rewrite !is_after_true; by setoid_rewrite Ho).
  all: assert (∀ x, free_index order indices x ↔ free_index order' indices' x) as Hfree
    by (intros x; unfold free_index; by rewrite Ha, Hp).
  all: pose proof (choice_spec order indices) as Hc; pose proof (choice_spec order' indices') as Hc';
    destruct (min_by_key _ (List.filter _ (imap pair indices))) as [[i x]|], (min_by_key _ (List.filter _ (imap pair indices'))) as [[j y]|];
    try done.
  all: try (exfalso; destruct Hc as (_ & Hx & _); apply Hfree in Hx; exact (Hc' _ Hx)).
  all: try (exfalso; destruct Hc' as (_ & Hx & _); apply Hfree in Hx; exact (Hc _ Hx)).
  all: assert (bool_decide (indices = []) = bool_decide (indices' = [])) as Hb
    by (apply bool_decide_ext; split; intros E; subst; [by apply Permutation_nil_l in Hp|by apply Permutation_nil_r in Hp]).
  all: try (by rewrite Hb).
  destruct Hc as (Hi & Hx & Hmin), Hc' as (Hj & Hy & Hmin').
  assert (x = y) as <- by (specialize (Hmin y ltac:(by apply Hfree)); specialize (Hmin' x ltac:(by apply Hfree)); lia).
  unfold vget. rewrite Hi, Hj. cbn [unwrap]. rewrite !M_bind_Ok.
  pose proof (delete_perm _ _ _ Hi) as H1. pose proof (delete_perm _ _ _ Hj) as H2. apply IH.
  - intros [a b]. rewrite !retain_spec. by rewrite Ho.
  - apply (Permutation_cons_inv (a:=x)). by rewrite <- H1, <- H2.
  - rewrite H1 in Hnd. by apply NoDup_cons in Hnd as [_ ?].
Qed.
(** The result depends on the set of observations only. *)
Theorem resolve_order_deterministic order order' : (∀ v, v ∈ order ↔ v ∈ order') → resolve_order order = resolve_order order'.
Proof.
  intros Ho. unfold resolve_order. assert (mentioned order ≡ₚ mentioned order') as Hp.
  { apply NoDup_Permutation; [apply unique_NoDup..|]. intros x. rewrite !elem_of_mentioned. by setoid_rewrite Ho. }
  rewrite <- (Permutation_length Hp). apply resolve_loop_ext; [done|done|apply unique_NoDup].
Qed.
Lemma resolve_order_deterministic_witness : (∀ v, v ∈ [(2, 1); (1, 0)]%nat ↔ v ∈ [(1, 0); (2, 1)]%nat) ∧
  resolve_order [(2, 1); (1, 0)]%nat = resolve_order [(1, 0); (2, 1)]%nat.
Proof.
  assert (∀ v, v ∈ [(2, 1); (1, 0)]%nat ↔ v ∈ [(1, 0); (2, 1)]%nat) as H by set_solver.
  split; [exact H|]. by apply resolve_order_deterministic.
Defined.
Example resolve_examples : resolve_order [(2, 1); (1, 0)]%nat = Ok (Some [0; 1; 2]%nat) ∧ resolve_order [(0, 1); (1, 0)]%nat = Ok None.
Proof. done. Qed.
End WriteOrder.
